(* ===== verification/_CoqProject ===== *)
-Q . S2P
Prelude.v
RustStd.v
RustStr.v
JobTypes.v
EndpointScope.v
Json.v
RmsDomain.v
JobStore.v
JobStoreProofs.v
JobRegistry.v
JobRegistryProofs.v
JobEventProofs.v
JobExamples.v
JobHandle.v
JobTracker.v
JobTheorems.v
JobHandleTheorems.v
JobTrackerProofs.v
JobTrackerTheorems.v
JobMetricsTheorems.v
RmsError.v
FabricOperation.v
FabricTheorems.v
StageTimeline.v
StageTimelineTheorems.v
FirmwareStore.v
FirmwareStoreTheorems.v
NodeTypes.v
RequestMessages.v
NodeSelector.v
NodeSelectorTheorems.v
Endpoints.v
HardwareProfiles.v
HardwarePlan.v
HardwarePlanTheorems.v
FabricLayout.v
FabricLayoutTheorems.v
FabricLinkTheorems.v
FabricPlanner.v
FabricControllerTheorems.v
FabricSearchTheorems.v
FabricPlanTheorems.v
ManagedConfig.v
ManagedConfigTheorems.v
FabricHealth.v
FabricReconcile.v
FabricReconcileTheorems.v
RustBytes.v
Pldm.v
PldmFormat.v
PldmPackage.v
PldmTheorems.v
PldmExtract.v
PldmObject.v
TarPkg.v
Net.v
NetTheorems.v
Artifacts.v
ArtifactDownload.v
ArtifactProofs.v
ArtifactTheorems.v
ArtifactBounds.v
FirmwareManifest.v
FirmwarePlan.v
FirmwarePlanTheorems.v
FirmwareRecovery.v
FirmwareCompare.v
FirmwareLifecycle.v
FirmwareLifecycleTheorems.v
FirmwareApply.v
FirmwareApplyTheorems.v
SwitchCertificates.v
SwitchCertificateTheorems.v
SpanQueue.v
BatchProcessor.v
BatchProofs.v
BatchRequests.v
BatchTheorems.v
Inventory.v
InventoryTheorems.v
