(* ===== verification/Prelude.v ===== *)
(** * Rack Management Service: verification development

    A model and proofs of the core of the Rack Management Service: the
    orchestration code that every long-running operation on a rack goes
    through; the inventory, the firmware catalog and the hardware profiles it
    works from; the download, the unpacking and the application of firmware; the
    certificates of switches; and the export of traces.  Paths below are relative to [src/crates/rackmanagementservice/src]
    unless they start with the name of another crate; those of the first group
    of files are in its directory [orchestrator].

    ** The program

    A gRPC request (power, reboot, firmware, switch image, certificates, fabric
    configuration) becomes a job.  The job _registry_ admits it, guards the
    node and the endpoint aliases it works on against other jobs, and records
    its state until it ends and for a retention period after.  A _handle_ is
    the only way for the worker of a job to report on it; dropping the handle
    ends the job.  The _tracker_ puts jobs into batches: a parent job whose
    state is derived from its children.  It also keeps the workflow metrics and
    drives shutdown.  A worker drives a _stage timeline_, which it reports as
    JSON, and a coordinator of several switches registers what it owns and what
    it has verified with the _fabric operation registry_.

    The nodes a request names come from the _inventory_: racks of nodes, each
    node built from a request whose _selector_ says what the node is and whose
    _endpoints_ say how to reach it.  What a firmware update does to a compute
    node is said by a _hardware profile_, a document compiled to a plan of
    stages and targets; what it installs by a bundle of the _firmware object
    store_.  How the switches and computes of a rack form fabrics is planned from
    _layout rules_.  A worker, the _reconciliation_, brings the switches to the plan:
    it stops controllers, sets links, starts and secures controllers again, and
    verifies links, settings, health and members by reading them back.

    The files of a bundle are _artifacts_, fetched over HTTP under a policy that
    keeps a request away from private addresses and an API key on its origin, or
    copied from a local path, into a cache.  A firmware file is a _PLDM package_
    of device records and component images, or a tar archive.  Which artifacts a
    node gets is a _plan_, made from the _manifest_ of the bundle; the bundle is
    prepared when it is added, in the background, and an apply hands a node only
    what was prepared.  A _certificate_ is installed on a switch after room was made
    in its stores, by deleting entries that no service uses.  The requests to a
    device go through a _guard_ that keeps an endpoint on the device's origin.
    The spans of all this are collected in a bounded _queue_ that a _batching
    processor_ hands to an exporter.

    ** The files

    - [Prelude] (this file): [Result] and [?], notations, tactics, list lemmas.
    - [RustStd]: strings as UTF-8 bytes, [trim], [split_once], [sort], [dedup],
      [binary_search], [BTreeMap::values]; [binary_search_ok] shows the binary
      search equal to membership on sorted vectors.
    - [RustStr]: the string methods of the code ([starts_with], [split], [join],
      [parse::<u64>], [{:?}] and so on), with their lemmas.
    - [JobTypes]: [job_lifecycle/state.rs], [job_type.rs], [error.rs],
      [domain.rs] and the data of [registry.rs]; the trait [JobDomain] is a
      class, as are clocks and spans records.
    - [EndpointScope]: [JobScope::endpoint] and [JobScope::normalized], with the
      parser and printer of [IpAddr].
    - [Json]: [serde_json::Value]; the crate's parser and printer are the class
      [SerdeJson], of which no law is assumed.
    - [RmsDomain]: the domain instance of [job_tracker.rs].
    - [JobStore] (Module [Store]): [job_lifecycle/store.rs]; the record map, the
      active-node index and the two alias indexes as [gmap]s.
    - [JobRegistry] (Module [Registry]): [job_lifecycle/registry.rs]; every
      method as a function from the registry to the registry and its result.
    - [JobHandle] (Module [Cleanup] for [cleanup.rs]): [job_lifecycle/handle.rs]
      and [cleanup.rs]; the handle, its destructor, workers and supervisors.
    - [JobTracker] (Module [Tracker]): [job_tracker.rs].
    - [RmsError]: [utilities/error.rs].
    - [FabricOperation] (Module [Fabric]): [fabric_operation.rs].
    - [StageTimeline] (Module [Timeline]): [stage_timeline.rs].
    - [FirmwareStore]: [persistence/firmware_object.rs] and
      [persistence/memory/firmware_object.rs].
    - [NodeTypes]: [domain/node.rs] and [domain/rack.rs].  [RequestMessages]
      (Module [Pb]): the messages of [fern/proto/rack_manager.proto] that
      describe a node.
    - [NodeSelector]: [api/grpc/node_type_resolver.rs] and the node type tables
      of [api/grpc/conversions.rs]; [Endpoints]: the endpoint conversions of
      [conversions.rs] and [bmc_tls.rs].
    - [HardwareProfiles] and [HardwarePlan]: [config/hardware_profiles.rs], the
      fields of a document and its compilation, catalog and look-ups.
    - [FabricLayout]: [config/fabric_layout.rs] with [calculation.rs] and
      [controller.rs], and [utilities/filename.rs]; [FabricPlanner] (Module [Planner]):
      [api/grpc/scaleupfabricmanager_handlers/handlers_v2/layout_planner.rs].
    - [ManagedConfig]: [libnmxc/managed_config.rs]; the controller is the class
      [Nmxc], of which no law is assumed.
    - [FabricHealth]: [handlers_v2/observations] and [handlers_v2/layout/observations],
      what the answers of a controller say of its fabric.
    - [FabricReconcile]: Module [Programs], programs of calls and their behaviours;
      [SwitchScope], [api/grpc/switch_scope.rs]; [Reconcile],
      [handlers_v2/layout/reconciliation.rs] with [preparation.rs] and
      [activation.rs], [links.rs], [controller_targets.rs] and [observations.rs].
    - [RustBytes]: readers of a file, byte order, [Path] and hexadecimal, with
      their lemmas.
    - [Pldm]: the reader of [rust_nvfwupd/src/pldm.rs] and its data;
      [PldmPackage]: range checks, file names and extraction on a file system of
      names and nodes; [PldmObject]: the JSON for display and the [PLDM] object;
      [TarPkg]: tar packages and the checks on their entries.
    - [Net]: [utilities/special_purpose_ip.rs] and [common/src/net.rs]; the [url]
      crate is the class [UrlCrate].
    - [Artifacts]: locations, errors, the policy and names of
      [api/grpc/artifact_download.rs], [artifact_download/error.rs],
      [artifact_download_policy.rs] and [firmware_artifact_paths.rs];
      [ArtifactDownload]: the operations of [artifact_download.rs] and the end of
      a preparation ([firmware_object_handlers/artifacts.rs]).
    - [FirmwareManifest] (Modules [Manifest], [Mappings]):
      [domain/firmware_manifest.rs] and the tables of
      [api/grpc/firmware_object_handlers.rs]; [FirmwarePlan], [FirmwareRecovery]:
      [firmware_object_handlers/plan.rs] and [profile.rs], plans and recovery
      packages; [FirmwareCompare]: the comparison of installed versions.
    - [FirmwareLifecycle]: the addition, preparation and deletion of objects
      ([firmware_object_handlers.rs], [workflow.rs]); [FirmwareApply]: requests,
      the preparation of an apply, the history ([workflow.rs], [artifacts.rs],
      [api/grpc/firmware_handlers.rs]).
    - [SwitchCertificates] (Modules [Nvue], [Retention], [Install]): responses
      and actions of [nvue_client/src] and [nodes/switch_gb200_nvidia/nvue.rs],
      [mtls/retention.rs], and the installation of
      [api/grpc/switch_certificate_handlers.rs]; the switch is the class
      [NvueDevice] and what the installer asks of it the class [InstallNode], of
      which no law is assumed.
    - [SpanQueue]: [observability/span_queue.rs] and [trace_metrics.rs];
      [BatchProcessor]: [observability/batch.rs].
    - [Inventory]: [orchestrator/rack_manager.rs], [racks/nvl_gb.rs],
      [nodes/instance.rs] and [api/grpc/inventory_handlers.rs]; the drivers of
      the nodes are the class [NodeDrivers].
    - [JobStoreProofs], [JobRegistryProofs], [JobEventProofs],
      [JobTrackerProofs]: invariants and lemmas.  [JobExamples]: concrete states.
    - [JobTheorems], [JobHandleTheorems], [JobTrackerTheorems],
      [JobMetricsTheorems], [FabricTheorems], [StageTimelineTheorems],
      [FirmwareStoreTheorems], [NodeSelectorTheorems], [HardwarePlanTheorems],
      [FabricLayoutTheorems], [FabricLinkTheorems], [FabricControllerTheorems],
      [FabricSearchTheorems], [FabricPlanTheorems], [ManagedConfigTheorems],
      [FabricReconcileTheorems], [PldmFormat], [PldmTheorems], [PldmExtract], [TarPkg],
      [NetTheorems], [ArtifactTheorems], [ArtifactBounds], [FirmwarePlanTheorems],
      [FirmwareLifecycleTheorems], [FirmwareApplyTheorems],
      [SwitchCertificateTheorems], [BatchTheorems], [InventoryTheorems]: the
      properties, the main ones with a numbered comment, and their witnesses.
      Those of [Endpoints], [FabricHealth], [PldmObject], [FirmwareRecovery],
      [FirmwareCompare] and [SpanQueue] are in a module of the same file.  [ArtifactProofs], [BatchProofs] and
      [BatchRequests]: the invariants they rest on.

    ** How the code is modelled

    Each method of the registry takes its lock once, so one method is one atomic
    step, and an execution of the program with its concurrent callers is a
    sequence of steps.  [step d] is that relation for the job registry, for a
    caller discipline [d] that says which creations and removals may happen:
    [anything], [node_exclusive] (jobs on a node ask for an idle node),
    [fresh_uuids] (an ID is never drawn twice), [metered] (only jobs that are
    not visible workflows are removed).  [tstep] is the relation for the tracker,
    with the IDs of the parents a caller was given and may still put children under;
    [operation] is one call of a tracker method as a whole.  [driven] is the relation
    for a timeline; the fabric registry is run on lists of
    calls.  Methods that take the lock several times ([refresh_parent_state],
    the waits, the shutdown passes) get the answer of every look, or are
    interleaved with other steps, where a theorem is about that.

    The inventory is a heap of racks and a table of references into it, since a
    rack that was removed stays usable to those who hold it; [do_all] runs any
    list of operations, and [call_all] does so for the firmware store.  A YAML
    document is what a parser, a parameter, makes of the source text.

    A download is a computation on a [World]: the files, what was requested and
    connected to, and a counter of operations.  Everything else is an oracle
    ([Outside]) that is asked with that counter, so that servers, name
    resolution and disks may answer differently every time, and a proxy of the
    environment may stand between the client and a server.  The batching
    processor is a step relation on the queue, the control channel and the
    worker, whose [Phase] is the point of its async functions at which it is
    suspended; threads that end spans, flush or shut down run between any two of
    its steps, and the exporter's answers and the deadlines are choices of a
    step.  A panic under the queue's lock leaves any state behind
    ([PanicWithin]), and the next user of the lock recovers it.  A file that is parsed is its bytes and a position; the file system
    that packages are extracted to maps names to nodes and nodes to bytes, so
    that a file stays readable by those who have it open.

    The life of firmware objects is a relation too: each handler is cut at the
    points where it waits, and the pieces of any number of additions, preparations
    and deletions interleave; each download of a preparation is a step of its own, as is
    the removal of a cached file that it finds unfit ([discarded] keeps these files).  It is
    assumed that two objects of one ID are not created at the same reading of the clock.
    An installation on a switch is a computation on the
    switch and the list of calls made to it, each with its success.

    The reconciliation is a program of calls ([Prog]) whose answers are arbitrary:
    [runs] relates it to every history it can have, with the calls of the futures of
    a batch in any order, those of the coordinator between them, and a panic of any
    call.  [permitted] says what a call needs of the history before it, and a logic
    of triples on histories ([Logic]) shows that each call had it.  [exec] runs a
    program on given answers.

    Clock readings, generated UUIDs, the caller's closures and the answers of
    timed waits are arguments.  Tokens and abort handles are numbers, with the
    sets of cancelled and aborted ones in the state.  What is logged and what
    happens to OpenTelemetry spans is a list of events.  A panic, or a loop
    that did not end, is [None].

    ** What the theorems show

    - Registry ([JobTheorems]): every reachable registry is consistent, by the
      code's own check and beyond it; an alias has one owner and is released
      only by its end; no two live jobs share a node; admission grants what was
      asked or leaves no trace; a terminal state never changes and a job ends
      exactly once; a sweep evicts exactly the expired records and two sweeps
      evict a family; cancellation reaches the right jobs; shutdown is final
      and its last pass settles every job; waits account for every job.
    - Handles ([JobHandleTheorems]): however a worker ends, its job ends, with
      the outcome it gave or the domain's failure; a job spawned during
      shutdown never runs; metadata is in every result; a directory is removed
      only after the jobs that use it.
    - Tracker ([JobTrackerTheorems], [JobMetricsTheorems]): a parent's state is
      that of its children; no parent outlives its last child; every tracker
      operation, batches and shutdown included, is a sequence of registry steps, so what
      holds of the registry holds of it, and every live parent keeps an open handle; batches account for every target; the in-flight gauge is the
      number of live visible jobs; shutdown leaves no live job and keeps its
      time budget.
    - Fabric registry ([FabricTheorems]): scopes and pending controllers have
      one owner; a reported proof stems from a recorded activation that nothing
      has disturbed since; evidence is lost only when it must be; admission by
      binary search agrees with the linear [find_overlapping]; a transfer
      fences the former owner.
    - Timelines ([StageTimelineTheorems]): the stages stay well formed under any
      transitions; [fail_job] settles timeline and job; reported times are
      consistent; the report names the running stage.

    - Firmware store ([FirmwareStoreTheorems]): there is one default per
      hardware type; preparation and application are bound to one incarnation
      of an ID; the apply history only grows and its listing is exact.
    - Requests ([NodeSelectorTheorems], [Endpoints]): which selectors
      resolve, and to what; normalising a node or a selector table keeps its
      meaning and is idempotent; every endpoint configuration made from a
      request has an address, a port in range and credentials it may carry.
    - Hardware profiles ([HardwarePlanTheorems]): a document
      that compiles gives a well-formed plan that holds exactly the documented
      targets in stage order; the catalog's indexes agree; a resolved target is
      bound to its plan target; durations are read back exactly or refused.
    - Fabric layouts ([FabricLayoutTheorems], [FabricLinkTheorems],
      [FabricControllerTheorems], [FabricSearchTheorems],
      [FabricPlanTheorems]): interface ranges expand exactly and load to
      themselves; profile selection is unambiguous; the link calculation agrees
      with a formula in unbounded integers; the cached search finds the first
      disjoint placement or there is none; a plan has the requested members,
      disjoint, every other switch isolated, and does not depend on the order of
      the inventory; controller settings follow the rule and keep the caller's.
    - Managed settings ([ManagedConfigTheorems]): a removal keeps every other
      line of a file; a reconciliation that succeeds was verified by its last
      read, whatever the controller does, and changes nothing when nothing needs
      to change.
    - Reconciliation ([FabricHealth], [FabricReconcileTheorems]): a status is
      abnormal exactly on a reported fault and normal exactly on complete evidence,
      and members match exactly when all are known and seen; whatever devices answer
      and in whatever order futures run, controllers are touched only when marked,
      started only in isolation or behind verified links, links come up only with all
      pending controllers halted, and the job completes only after the links and the
      controller states of all switches were read as planned, with no change since.
    - Packages ([PldmFormat], [PldmTheorems], [PldmExtract], [TarPkg]): the
      parser accepts exactly the encodings of well-formed packages; the range
      check passes exactly for disjoint images within the package; extraction
      writes the bytes of the images, in the output directory and nowhere else;
      a tar archive is unpacked exactly when it is safe.
    - Addresses and endpoints ([NetTheorems]): the test for special-purpose
      addresses agrees with the blocks as ranges; an endpoint that passes the
      guard stays on the origin and in the tree.
    - Artifacts ([ArtifactTheorems], [ArtifactBounds]): a request satisfies the
      policy and carries a key only to its HTTPS origin; where
      private targets are disallowed, the client connects to no private address, save
      that of a proxy the environment sets by its address; a successful download leaves the
      verified file, a failed one publishes nothing and removes a cached file only for
      a reason; requests and waits are bounded; a temporary
      file's name is read back.
    - Firmware plans ([FirmwarePlanTheorems], [FirmwareRecovery],
      [FirmwareCompare]): every target of a plan is an eligible payload of a
      selected component, never a recovery package, in flash order, and every
      selected component is written; the packages of a recovery are unambiguous;
      a comparison request of fewer than 2^32 nodes says that all match exactly when
      there are nodes and each was compared and matches.
    - Objects and applies ([FirmwareLifecycleTheorems],
      [FirmwareApplyTheorems]): in any interleaving, an object is loaded only with
      the artifacts of its own manifest, whose required files are in the cache unless a
      deletion or a download removed them, and four races of the handlers are shown by
      runs; a node is handed the prepared files of its plan, with their digests;
      a recovery without an object takes the latest where that is safe; the history
      has completed jobs only; which requests are accepted.
    - Certificates ([SwitchCertificateTheorems]): an entry is deleted only when the
      switch listed it as unused and every service was read as not bound to it; the
      plan deletes the oldest, as many as are needed; an installation keeps its
      order, attempts to remove the staged key however it ends (a failure of the
      removal is swallowed), and binds only what was imported; what the service creates, it can delete.
    - Trace export ([BatchTheorems]): every span is lost and counted, delivered,
      waiting or with the exporter, exactly as long as no update of the queue was cut short by a panic,
      after which the queue stays stopped; an acknowledgement means that what was
      waiting was delivered; a shutdown ends and is answered.
    - Inventory ([InventoryTheorems]): racks and nodes stay consistent under any
      operations; a request to create nodes does exactly what it reports.

    ** Bounds and fuel

    The retry of an insertion whose ID is taken has as much fuel as there are
    records and alias owners, plus one: with distinct IDs one of the draws is
    vacant ([create_total]).  The binary search has the length of the vector,
    more than the number of halvings.  The loops that read a file in pieces have
    the length of the file plus one, since each piece but the last is not empty.
    The redirects (ten) and attempts (three) of a download are the code's own
    limits, and the recursion is on them.  An NVUE action is polled as often as the
    switch lets the deadline allow ([polls], a parameter), and so is the controller of
    a fabric that is being activated.  The search for versions
    in a file name has the length of the name, of which each step takes at least a
    character.  [show_digits] has the number of digits
    of the largest value printed.  All other recursion is structural, the search
    for placements on the requests that are left.  [usize]
    counters are bounded by the size of a collection and kept as [nat]; [i64]
    milliseconds and [u32] node counts wrap as in a release build, and the theorem about them states
    the range ([in_range]) in which they do not; the [i64] arithmetic of link
    numbers is checked, as in the code.  Durations are exact
    nanoseconds in [Z].

    ** What is not modelled

    Device I/O (Redfish, SSH, NVUE, gNMI, NMX-C) and the drivers of the nodes,
    which are I/O with text of devices between; the jobs that carry out a firmware
    update, a reboot or a switch image, which are sequences of such I/O; the discovery
    of the switches of a fabric, and what is behind a call of its reconciliation; the other gRPC handlers, which convert messages around the components
    above; PostgreSQL; the parsers of configuration files; log output; and the
    flows of the firmware update crate.
    Of the code that is: the OpenTelemetry parent of a span, the registration of
    metrics with Prometheus, poisoning of the registry's lock, [debug_assert!],
    escapes of non-ASCII characters in [{:?}], the reaping of temporary files of
    dead processes (its file name test is modelled), the concurrency of the
    downloads within [materialize] (the life of an object has it), the guard that removes staged certificates when a
    future is dropped, and directories and symbolic links in the file systems. *)

From Stdlib Require Export Lia.
From stdpp Require Export base numbers gmap strings pretty fin_maps list.

#[export] Set Default Goal Selector "!".

(** ** Notations *)

Declare Scope rms_scope.
Delimit Scope rms_scope with rms.

(** A string built by [format!]: the pieces in order. *)
Notation "a +++ b" := (String.append a b) (at level 60, right associativity) : rms_scope.
Open Scope rms_scope.

(** ** Rust's [Result] *)

Inductive result (E A : Type) : Type :=
| Ok (a : A)
| Err (e : E).
Arguments Ok {E A} a.
Arguments Err {E A} e.

Definition is_ok {E A} (r : result E A) : bool :=
  match r with Ok _ => true | Err _ => false end.

(** The [?] operator. *)
Definition result_bind {E A B} (r : result E A) (k : A → result E B) : result E B :=
  match r with Ok a => k a | Err e => Err e end.

Notation "'let?' x := r 'in' k" := (result_bind r (fun x => k))
  (at level 10, x name, r at level 100, k at level 200,
   format "'let?'  x  :=  r  'in' '//' k") : rms_scope.

(** [Option::ok_or]. *)
Definition ok_or {E A} (o : option A) (e : E) : result E A :=
  match o with Some a => Ok a | None => Err e end.

(** [Result::map_err]. *)
Definition map_err {E F A} (f : E → F) (r : result E A) : result F A :=
  match r with Ok a => Ok a | Err e => Err (f e) end.

(** [collect::<Result<Vec<_>, _>>()]. *)
Fixpoint collect {A B E} (f : A → result E B) (l : list A) : result E (list B) :=
  match l with
  | [] => Ok []
  | x :: l => let? y := f x in let? ys := collect f l in Ok (y :: ys)
  end.

(** A [for] loop whose body may return early with an error. *)
Fixpoint for_each {A E} (f : A → result E unit) (l : list A) : result E unit :=
  match l with
  | [] => Ok tt
  | x :: l => let? _ := f x in for_each f l
  end.

(** [Iterator::try_fold], or such a loop with a mutable state. *)
Fixpoint try_fold {A B E} (f : B → A → result E B) (acc : B) (l : list A) : result E B :=
  match l with
  | [] => Ok acc
  | x :: l => let? acc := f acc x in try_fold f acc l
  end.

(** [Iterator::enumerate]. *)
Definition enumerate {A} (l : list A) : list (nat * A) := imap pair l.

(** ** [format!] of an unsigned integer *)

Definition show_nat (n : nat) : string := pretty (N.of_nat n).

Lemma show_nat_inj n m : show_nat n = show_nat m → n = m.
Proof. unfold show_nat. intros H%(inj pretty). lia. Qed.

(** ** Automation *)

Create HintDb rms.

(** Case analysis on the scrutinee of the first [match] or [if] of the goal. *)
Ltac case_goal :=
  match goal with
  | |- context [match ?x with _ => _ end] =>
      lazymatch x with
      | context [match _ with _ => _ end] => fail
      | _ => destruct x eqn:?
      end
  end.

(** The same in a hypothesis. *)
Ltac case_hyp H :=
  match type of H with
  | context [match ?x with _ => _ end] =>
      lazymatch x with
      | context [match _ with _ => _ end] => fail
      | _ => destruct x eqn:?
      end
  end.

(** Split every boolean test of the context into the proposition it decides. *)
Ltac reflect_bools :=
  repeat match goal with
  | H : (_ && _)%bool = true |- _ => apply andb_true_iff in H; destruct H
  | H : (_ || _)%bool = false |- _ => apply orb_false_iff in H; destruct H
  | H : (_ && _)%bool = false |- _ => apply andb_false_iff in H
  | H : (_ || _)%bool = true |- _ => apply orb_true_iff in H
  | H : negb _ = true |- _ => apply negb_true_iff in H
  | H : negb _ = false |- _ => apply negb_false_iff in H
  | H : bool_decide _ = true |- _ => apply bool_decide_eq_true in H
  | H : bool_decide _ = false |- _ => apply bool_decide_eq_false in H
  end.

(** The same for comparisons of numbers. *)
Ltac reflect_nums :=
  reflect_bools;
  repeat match goal with
  | H : (_ <=? _)%N = true |- _ => apply N.leb_le in H
  | H : (_ <=? _)%N = false |- _ => apply N.leb_gt in H
  | H : (_ <? _)%N = true |- _ => apply N.ltb_lt in H
  | H : (_ <? _)%N = false |- _ => apply N.ltb_ge in H
  | H : (_ =? _)%N = true |- _ => apply N.eqb_eq in H
  | H : (_ =? _)%N = false |- _ => apply N.eqb_neq in H
  end.

(** Go through the binds and the early returns of a result that is [Ok]. *)
Ltac bind_ok H :=
  repeat match type of H with
  | result_bind ?r _ = Ok _ =>
      let E := fresh "E" in destruct r eqn:E; cbn [result_bind] in H; [|discriminate H]
  | (if decide ?P then Err _ else _) = Ok _ =>
      let N := fresh "Hnew" in destruct (decide P) as [|N]; [discriminate H|]
  | (if ?b then Err _ else _) = Ok _ =>
      let E := fresh "E" in destruct b eqn:E; [discriminate H|]
  end.

Lemma collect_Forall {A B E} (f : A → result E B) (P : B → Prop) l r :
  (∀ x y, f x = Ok y → P y) → collect f l = Ok r → Forall P r.
Proof.
  intros Hf. revert r. induction l as [|x l IH]; intros r; simpl; [by intros [= <-]|].
  intros H. bind_ok H. injection H as <-. constructor; eauto.
Qed.

Lemma for_each_ok {A E} (f : A → result E unit) l :
  for_each f l = Ok tt ↔ ∀ x, x ∈ l → f x = Ok tt.
Proof.
  induction l as [|x l IH]; simpl; [split; [by intros _ x ?%not_elem_of_nil|done]|]. split.
  - destruct (f x) as [[]|] eqn:Ef; simpl; [|done]. intros H y [->|Hy]%elem_of_cons; [done|].
    by apply IH.
  - intros H. rewrite (H x) by left. simpl. apply IH. intros y Hy. apply H. by right.
Qed.

(** Induction over a loop that succeeded: [P done acc] after the elements [done]. *)
Lemma try_fold_ind {A B E} (f : B → A → result E B) (P : list A → B → Prop) acc l r :
  P [] acc →
  (∀ done x b b', x ∈ l → P done b → f b x = Ok b' → P (done ++ [x]) b') →
  try_fold f acc l = Ok r → P l r.
Proof.
  intros H0 Hs. cut (∀ done acc, P done acc → try_fold f acc l = Ok r → P (done ++ l) r).
  { intros H. by apply (H []). }
  clear H0. induction l as [|x l IH]; simpl; intros don b Hb H.
  - injection H as <-. by rewrite app_nil_r.
  - bind_ok H. rewrite cons_middle, app_assoc. eapply IH; [|eapply Hs; [left|done..]|done].
    intros ???? Hx. apply Hs. by right.
Qed.

Lemma try_fold_app {A B E} (f : B → A → result E B) acc l k :
  try_fold f acc (l ++ k) = result_bind (try_fold f acc l) (fun acc => try_fold f acc k).
Proof.
  revert acc. induction l as [|x l IH]; intros acc; simpl; [done|].
  destruct (f acc x); simpl; [apply IH|done].
Qed.

Lemma elem_of_enumerate {A} (l : list A) i x : (i, x) ∈ enumerate l ↔ l !! i = Some x.
Proof.
  unfold enumerate. rewrite elem_of_lookup_imap. naive_solver.
Qed.

Lemma enumerate_snd {A} (l : list A) : (enumerate l).*2 = l.
Proof.
  unfold enumerate. rewrite fmap_imap. apply list_eq. intros i. rewrite list_lookup_imap.
  by destruct (l !! i).
Qed.

(** ** Lists *)

(** [Iterator::find_map]. *)
Fixpoint find_map {A B} (f : A → option B) (l : list A) : option B :=
  match l with
  | [] => None
  | x :: l' => match f x with Some y => Some y | None => find_map f l' end
  end.

(** [Iterator::find]. *)
Fixpoint find_first {A} (f : A → bool) (l : list A) : option A :=
  match l with
  | [] => None
  | x :: l' => if f x then Some x else find_first f l'
  end.

Lemma find_map_Some {A B} (f : A → option B) l y :
  find_map f l = Some y → ∃ x, x ∈ l ∧ f x = Some y.
Proof.
  induction l as [|x l IH]; simpl; [done|].
  destruct (f x) eqn:E; intros; simplify_eq.
  - exists x. split; [left|done].
  - destruct IH as (x' & ? & ?); [done|]. exists x'. split; [by right|done].
Qed.

Lemma find_map_None {A B} (f : A → option B) l :
  find_map f l = None ↔ ∀ x, x ∈ l → f x = None.
Proof.
  induction l as [|x l IH]; simpl.
  - split; [intros _ x Hx; by apply not_elem_of_nil in Hx|done].
  - destruct (f x) eqn:E.
    + split; [done|]. intros H. specialize (H x). rewrite E in H. discriminate H. left.
    + rewrite IH. split.
      * intros H y [->|Hy]%elem_of_cons; auto.
      * intros H y Hy. apply H. by right.
Qed.

Lemma find_first_Some {A} (f : A → bool) l x :
  find_first f l = Some x → x ∈ l ∧ f x = true.
Proof.
  induction l as [|y l IH]; simpl; [done|].
  destruct (f y) eqn:E; intros; simplify_eq.
  - split; [left|done].
  - destruct IH; [done|]. split; [by right|done].
Qed.

Lemma find_first_None {A} (f : A → bool) l :
  find_first f l = None ↔ ∀ x, x ∈ l → f x = false.
Proof.
  induction l as [|y l IH]; simpl.
  - split; [intros _ x Hx; by apply not_elem_of_nil in Hx|done].
  - destruct (f y) eqn:E.
    + split; [done|]. intros H. specialize (H y). rewrite E in H. discriminate H. left.
    + rewrite IH. split.
      * intros H x [->|Hx]%elem_of_cons; auto.
      * intros H x Hx. apply H. by right.
Qed.

Lemma find_first_app {A} (f : A → bool) xs ys :
  find_first f (xs ++ ys) =
  match find_first f xs with Some x => Some x | None => find_first f ys end.
Proof. induction xs as [|x xs IH]; simpl; [done|]. by destruct (f x). Qed.

Lemma find_first_fmap {A B} (f : B → bool) (g : A → B) (l : list A) :
  find_first f (g <$> l) = g <$> find_first (fun x => f (g x)) l.
Proof. induction l as [|x l IH]; simpl; [done|]. by destruct (f (g x)). Qed.

Lemma find_first_bind {A B} (f : B → bool) (g : A → list B) (l : list A) :
  find_first f (l ≫= g) = find_map (fun x => find_first f (g x)) l.
Proof.
  induction l as [|x l IH]; [done|]. rewrite bind_cons, find_first_app, IH. simpl.
  by destruct (find_first f (g x)).
Qed.

Lemma find_map_ext {A B} (f g : A → option B) (l : list A) :
  (∀ x, f x = g x) → find_map f l = find_map g l.
Proof. intros H. induction l as [|x l IH]; simpl; [done|]. by rewrite H, IH. Qed.

Lemma find_map_app {A B} (f : A → option B) xs ys :
  find_map f (xs ++ ys) =
  match find_map f xs with Some y => Some y | None => find_map f ys end.
Proof. induction xs as [|x xs IH]; simpl; [done|]. by destruct (f x). Qed.

Lemma find_first_split {A} (f : A → bool) l x :
  find_first f l = Some x →
  ∃ before after, l = before ++ x :: after ∧ f x = true ∧ ∀ y, y ∈ before → f y = false.
Proof.
  induction l as [|y l IH]; simpl; [done|]. destruct (f y) eqn:E.
  - intros [= ->]. exists [], l. split_and!; [done..|]. by intros z ?%not_elem_of_nil.
  - intros (before & after & -> & Hx & Hb)%IH. exists (y :: before), after. split_and!; [done..|].
    intros z [->|Hz]%elem_of_cons; auto.
Qed.

(** A key that occurs once determines its element. *)
Lemma NoDup_fmap_inj {A B} (f : A → B) l x y :
  NoDup (f <$> l) → x ∈ l → y ∈ l → f x = f y → x = y.
Proof.
  intros Hd [i Hi]%list_elem_of_lookup [j Hj]%list_elem_of_lookup E.
  assert (i = j) as ->; [|congruence]. eapply NoDup_lookup; [done|rewrite list_lookup_fmap, Hi; done|].
  by rewrite list_lookup_fmap, Hj, E.
Qed.

Lemma map_err_is_ok {E F A} (f : E → F) (r : result E A) a : map_err f r = Ok a → r = Ok a.
Proof. destruct r; naive_solver. Qed.

Lemma try_fold_ext {A B E} (f g : B → A → result E B) acc l :
  (∀ b x, f b x = g b x) → try_fold f acc l = try_fold g acc l.
Proof.
  intros H. revert acc. induction l as [|x l IH]; intros acc; simpl; [done|].
  rewrite H. destruct (g acc x); simpl; [apply IH|done].
Qed.

Lemma existsb_elem {A} (f : A → bool) l : existsb f l = true ↔ ∃ x, x ∈ l ∧ f x = true.
Proof. rewrite existsb_exists. by setoid_rewrite list_elem_of_In. Qed.

Lemma existsb_ext {A} (f : A → bool) l k :
  (∀ x, x ∈ l ↔ x ∈ k) → existsb f l = existsb f k.
Proof. intros H. apply eq_true_iff_eq. rewrite !existsb_elem. by setoid_rewrite H. Qed.
