(* ===== verification/RustStd.v ===== *)
(** * What the code uses of Rust's standard library

    Strings, with [trim], [split_once] and the bytewise order; sorting,
    [dedup] and [binary_search] on a vector of strings; the values of a
    [BTreeMap] in key order.

    A [String] is its UTF-8 bytes. *)

From S2P Require Import Prelude.
From stdpp Require Export sorting.
From Stdlib Require Import Ascii.
Local Open Scope string_scope.
Local Open Scope list_scope.
Local Open Scope N_scope.

(** ** Strings as character lists *)

Abbreviation chars := (list ascii) (only parsing).
Definition to_chars (s : string) : chars := String.list_ascii_of_string s.
Definition of_chars (l : chars) : string := String.string_of_list_ascii l.

Lemma to_of_chars l : to_chars (of_chars l) = l.
Proof. apply String.list_ascii_of_string_of_list_ascii. Qed.

Lemma of_to_chars s : of_chars (to_chars s) = s.
Proof. apply String.string_of_list_ascii_of_string. Qed.

(** [str::trim_start_matches] with a predicate on ASCII characters. *)
Fixpoint trim_start (p : ascii → bool) (l : chars) : chars :=
  match l with
  | [] => []
  | c :: l' => if p c then trim_start p l' else l
  end.

(** [str::trim_end_matches]. *)
Definition trim_end (p : ascii → bool) (l : chars) : chars :=
  rev (trim_start p (rev l)).

Definition is_char (d c : ascii) : bool := Ascii.eqb d c.

(** *** White space

    [char::is_whitespace] holds of 25 scalar values; their UTF-8 encodings take
    one, two or three bytes. *)

Definition between (lo hi n : N) : bool := (lo <=? n) && (n <=? hi).

Definition ws1 (a : ascii) : bool :=
  let a := N_of_ascii a in (a =? 32) || between 9 13 a.

Definition ws2 (a b : ascii) : bool :=
  (N_of_ascii a =? 194) && ((N_of_ascii b =? 133) || (N_of_ascii b =? 160)).

Definition ws3 (a b c : ascii) : bool :=
  let '(a, b, c) := (N_of_ascii a, N_of_ascii b, N_of_ascii c) in
  ((a =? 225) && (b =? 154) && (c =? 128))
  || ((a =? 226) && (b =? 128) &&
      (between 128 138 c || (c =? 168) || (c =? 169) || (c =? 175)))
  || ((a =? 226) && (b =? 129) && (c =? 159))
  || ((a =? 227) && (b =? 128) && (c =? 128)).

(** [str::trim_start]. *)
Fixpoint trim_ws_start (l : chars) : chars :=
  match l with
  | [] => []
  | a :: l1 =>
      if ws1 a then trim_ws_start l1
      else match l1 with
           | [] => l
           | b :: l2 =>
               if ws2 a b then trim_ws_start l2
               else match l2 with
                    | [] => l
                    | c :: l3 => if ws3 a b c then trim_ws_start l3 else l
                    end
           end
  end.

(** [str::trim_end], on the bytes in reverse. *)
Fixpoint trim_ws_rev (l : chars) : chars :=
  match l with
  | [] => []
  | a :: l1 =>
      if ws1 a then trim_ws_rev l1
      else match l1 with
           | [] => l
           | b :: l2 =>
               if ws2 b a then trim_ws_rev l2
               else match l2 with
                    | [] => l
                    | c :: l3 => if ws3 c b a then trim_ws_rev l3 else l
                    end
           end
  end.

(** [str::trim]. *)
Definition trim (s : string) : string :=
  of_chars (rev (trim_ws_rev (rev (trim_ws_start (to_chars s))))).

(** [s.trim().is_empty()]. *)
Definition is_blank (s : string) : bool := String.eqb (trim s) "".

(** [str::split_once] on a character. *)
Fixpoint split_once (d : ascii) (l : chars) : option (chars * chars) :=
  match l with
  | [] => None
  | c :: l' =>
      if Ascii.eqb d c then Some ([], l')
      else match split_once d l' with
           | Some (a, b) => Some (c :: a, b)
           | None => None
           end
  end.

Definition ascii_lower (c : ascii) : ascii :=
  let n := N_of_ascii c in
  if (65 <=? n) && (n <=? 90) then ascii_of_N (n + 32) else c.

Definition to_ascii_lowercase (l : chars) : chars := map ascii_lower l.

(** [char::to_digit] and [char::from_digit]. *)
Definition to_digit (radix : N) (c : ascii) : option N :=
  let n := N_of_ascii c in
  let d := if (48 <=? n) && (n <=? 57) then Some (n - 48)
           else if (97 <=? n) && (n <=? 122) then Some (n - 87)
           else if (65 <=? n) && (n <=? 90) then Some (n - 55)
           else None in
  match d with
  | Some d => if d <? radix then Some d else None
  | None => None
  end.

Definition digit_char (d : N) : ascii :=
  if d <? 10 then ascii_of_N (48 + d) else ascii_of_N (87 + d).

(** A [match] on string literals: the first arm that has the value's literal. *)
Fixpoint match_str {A} (value : string) (arms : list (string * A)) : option A :=
  match arms with
  | [] => None
  | (literal, a) :: arms => if String.eqb value literal then Some a else match_str value arms
  end.

Lemma match_str_Some {A} value (arms : list (string * A)) a :
  match_str value arms = Some a → (value, a) ∈ arms.
Proof.
  induction arms as [|[literal b] arms IH]; simpl; [done|].
  destruct (String.eqb value literal) eqn:E.
  - apply String.eqb_eq in E as ->. intros [= <-]. left.
  - intros Ha. right. by apply IH.
Qed.

(** ** Vectors of strings *)

Local Open Scope nat_scope.

(** [Vec::sort]: [Ord] on [String] is the bytewise order. *)
Definition sort_keys (l : list string) : list string := merge_sort String.le l.

(** [Vec::dedup]: one of each run of equal elements. *)
Fixpoint dedup (l : list string) : list string :=
  match l with
  | [] => []
  | x :: l' =>
      match l' with
      | [] => [x]
      | y :: _ => if bool_decide (x = y) then dedup l' else x :: dedup l'
      end
  end.

(** The loop of [slice::binary_search]: halve [size] while it exceeds one. *)
Fixpoint binary_search_loop (fuel : nat) (l : list string) (key : string) (base size : nat)
    : nat :=
  match fuel with
  | O => base
  | S fuel =>
      if size <=? 1 then base
      else
        let half := size / 2 in
        let mid := base + half in
        let base :=
          match l !! mid with
          | Some x => match String.compare x key with Gt => base | _ => mid end
          | None => base
          end in
        binary_search_loop fuel l key base (size - half)
  end.

Definition binary_search (l : list string) (key : string) : result nat nat :=
  if length l =? 0 then Err 0
  else
    let base := binary_search_loop (length l) l key 0 (length l) in
    match l !! base with
    | Some x =>
        match String.compare x key with
        | Eq => Ok base
        | Lt => Err (S base)
        | Gt => Err base
        end
    | None => Err base
    end.

(** [slice::contains]. *)
Definition contains {A} `{EqDecision A} (l : list A) (x : A) : bool := bool_decide (x ∈ l).

(** [BTreeMap::values]: in the order of the keys. *)
Definition key_le {A} (a b : string * A) : Prop := String.le a.1 b.1.

#[export] Instance key_le_dec {A} : RelDecision (@key_le A).
Proof. unfold key_le. intros a b. apply _. Defined.

Definition values {A} (m : gmap string A) : list A := (merge_sort key_le (map_to_list m)).*2.

(** [BTreeMap::iter]. *)
Definition entries {A} (m : gmap string A) : list (string * A) := merge_sort key_le (map_to_list m).

Lemma entries_elem {A} (m : gmap string A) k x : (k, x) ∈ entries m ↔ m !! k = Some x.
Proof. unfold entries. rewrite (merge_sort_Permutation key_le). apply elem_of_map_to_list. Qed.

(** [BTreeSet::iter], in the order [R] of the elements. *)
Definition ordered {A} (R : relation A) `{RelDecision A A R, Countable A} (X : gset A) : list A :=
  merge_sort R (elements X).

(** [collect::<BTreeMap<_, _>>()]: of two pairs with one key the later wins. *)
Definition from_pairs {K A} `{Countable K} (l : list (K * A)) : gmap K A :=
  foldl (fun m kv => <[kv.1 := kv.2]> m) ∅ l.

Lemma from_pairs_rev {K A} `{Countable K} (l : list (K * A)) :
  from_pairs l = list_to_map (rev l).
Proof.
  unfold from_pairs. induction l as [|[k x] l IH] using rev_ind; [done|].
  rewrite foldl_app, rev_app_distr. simpl. by rewrite IH.
Qed.

Lemma from_pairs_nodup {K A} `{Countable K} (l : list (K * A)) :
  NoDup l.*1 → from_pairs l = list_to_map l.
Proof.
  intros Hd. rewrite from_pairs_rev. apply list_to_map_proper.
  - rewrite <- Permutation_rev. done.
  - by rewrite <- Permutation_rev.
Qed.

Lemma lookup_from_pairs {K A} `{Countable K} (l : list (K * A)) k x :
  NoDup l.*1 → from_pairs l !! k = Some x ↔ (k, x) ∈ l.
Proof. intros Hd. rewrite from_pairs_nodup by done. by rewrite <- elem_of_list_to_map. Qed.

Lemma dom_from_pairs {K A} `{Countable K} (l : list (K * A)) :
  dom (from_pairs l) = list_to_set l.*1.
Proof.
  rewrite from_pairs_rev, dom_list_to_map_L. apply set_eq. intros k.
  rewrite !elem_of_list_to_set. rewrite <- Permutation_rev. done.
Qed.

(** The numbers of [first .. first + width]. *)
Definition urange (first width : N) : list N :=
  (fun i => first + N.of_nat i)%N <$> seq 0 (N.to_nat width).

Lemma elem_of_urange first width n : n ∈ urange first width ↔ (first ≤ n < first + width)%N.
Proof.
  unfold urange. rewrite list_elem_of_fmap. setoid_rewrite elem_of_seq. split.
  - intros (i & -> & Hi). lia.
  - intros Hn. exists (N.to_nat (n - first)). lia.
Qed.

Lemma sublist_full {A} (l k : list A) : l `sublist_of` k → length k ≤ length l → l = k.
Proof.
  induction 1 as [|x l k Hs IH|x l k Hs IH]; simpl; intros Hl; [done| |].
  - f_equal. apply IH. lia.
  - apply sublist_length in Hs. lia.
Qed.

(** *** Trimming *)

Definition starts_ws (l : chars) : bool :=
  match l with
  | a :: l1 =>
      ws1 a ||
      match l1 with
      | b :: l2 => ws2 a b || match l2 with c :: _ => ws3 a b c | [] => false end
      | [] => false
      end
  | [] => false
  end.

Lemma trim_start_length l : length (trim_ws_start l) ≤ length l.
Proof.
  induction l as [l IH] using (induction_ltof1 _ (@length ascii)). unfold ltof in IH.
  destruct l as [|a l1]; [done|]. cbn [trim_ws_start].
  destruct (ws1 a); [pose proof (IH l1 ltac:(simpl; lia)); simpl; lia|].
  destruct l1 as [|b l2]; [done|].
  destruct (ws2 a b); [pose proof (IH l2 ltac:(simpl; lia)); simpl; lia|].
  destruct l2 as [|c l3]; [done|].
  destruct (ws3 a b c); [pose proof (IH l3 ltac:(simpl; lia)); simpl; lia|done].
Qed.

Lemma trim_start_fix l : trim_ws_start l = l ↔ starts_ws l = false.
Proof.
  assert (∀ x (m : chars), length m < length x → trim_ws_start m ≠ x) as Hne.
  { intros x m Hm E. pose proof (trim_start_length m). rewrite E in *. lia. }
  destruct l as [|a l1]; [done|]. cbn [trim_ws_start starts_ws].
  destruct (ws1 a); [split; [|done]; intros E; exfalso; eapply Hne; [|exact E]; simpl; lia|].
  destruct l1 as [|b l2]; [done|].
  destruct (ws2 a b); [split; [|done]; intros E; exfalso; eapply Hne; [|exact E]; simpl; lia|].
  destruct l2 as [|c l3]; [done|].
  destruct (ws3 a b c); [split; [|done]; intros E; exfalso; eapply Hne; [|exact E]; simpl; lia|done].
Qed.

(** A prefix of a string that starts with no white space starts with none. *)
Lemma trim_start_prefix l k : trim_ws_start (l ++ k) = l ++ k → trim_ws_start l = l.
Proof.
  rewrite !trim_start_fix. destruct l as [|a [|b [|c l]]]; simpl; [done|..|done];
    destruct (ws1 a); simpl; try done; by destruct (ws2 a b).
Qed.

Lemma trim_start_idemp l : trim_ws_start (trim_ws_start l) = trim_ws_start l.
Proof.
  induction l as [l IH] using (induction_ltof1 _ (@length ascii)). unfold ltof in IH.
  destruct l as [|a l1]; [done|]. cbn [trim_ws_start].
  destruct (ws1 a) eqn:E1; [apply IH; simpl; lia|].
  destruct l1 as [|b l2]; [cbn [trim_ws_start]; by rewrite E1|]. destruct (ws2 a b) eqn:E2; [apply IH; simpl; lia|].
  destruct l2 as [|c l3]; [cbn [trim_ws_start]; by rewrite E1, E2|].
  destruct (ws3 a b c) eqn:E3; [apply IH; simpl; lia|]. cbn [trim_ws_start]. by rewrite E1, E2, E3.
Qed.

Lemma trim_rev_idemp l : trim_ws_rev (trim_ws_rev l) = trim_ws_rev l.
Proof.
  induction l as [l IH] using (induction_ltof1 _ (@length ascii)). unfold ltof in IH.
  destruct l as [|a l1]; [done|]. cbn [trim_ws_rev].
  destruct (ws1 a) eqn:E1; [apply IH; simpl; lia|].
  destruct l1 as [|b l2]; [cbn [trim_ws_rev]; by rewrite E1|]. destruct (ws2 b a) eqn:E2; [apply IH; simpl; lia|].
  destruct l2 as [|c l3]; [cbn [trim_ws_rev]; by rewrite E1, E2|].
  destruct (ws3 c b a) eqn:E3; [apply IH; simpl; lia|]. cbn [trim_ws_rev]. by rewrite E1, E2, E3.
Qed.

Lemma trim_rev_suffix l : ∃ k, l = k ++ trim_ws_rev l.
Proof.
  induction l as [l IH] using (induction_ltof1 _ (@length ascii)). unfold ltof in IH.
  destruct l as [|a l1]; [by exists []|]. cbn [trim_ws_rev].
  destruct (ws1 a). { destruct (IH l1) as [k Hk]; [simpl; lia|]. exists (a :: k). simpl. by f_equal. }
  destruct l1 as [|b l2]; [by exists []|]. destruct (ws2 b a).
  { destruct (IH l2) as [k Hk]; [simpl; lia|]. exists (a :: b :: k). simpl. by do 2 f_equal. }
  destruct l2 as [|c l3]; [by exists []|]. destruct (ws3 c b a); [|by exists []].
  destruct (IH l3) as [k Hk]; [simpl; lia|]. exists (a :: b :: c :: k). simpl. by do 3 f_equal.
Qed.

Lemma trim_idemp s : trim (trim s) = trim s.
Proof.
  unfold trim. rewrite to_of_chars. f_equal. set (l := trim_ws_start (to_chars s)).
  destruct (trim_rev_suffix (rev l)) as [k Hk].
  assert (l = rev (trim_ws_rev (rev l)) ++ rev k) as Hl.
  { rewrite <- (rev_involutive l) at 1. rewrite Hk at 1. apply rev_app_distr. }
  rewrite (trim_start_prefix _ (rev k)), rev_involutive, trim_rev_idemp; [done|].
  rewrite <- Hl. apply trim_start_idemp.
Qed.

(** *** Sorting *)

#[export] Instance key_le_total {A} : Total (@key_le A).
Proof. intros a b. apply (total String.le). Qed.

#[export] Instance key_le_trans {A} : Transitive (@key_le A).
Proof. intros a b c. unfold key_le. apply transitivity. Qed.

Lemma elem_of_values {A} (m : gmap string A) x : x ∈ values m ↔ ∃ k, m !! k = Some x.
Proof.
  unfold values. rewrite list_elem_of_fmap. setoid_rewrite (merge_sort_Permutation key_le).
  split.
  - intros ([k y] & -> & Hy). exists k. by apply elem_of_map_to_list.
  - intros [k Hk]. exists (k, x). split; [done|]. by apply elem_of_map_to_list.
Qed.

Lemma elem_of_sort_keys l x : x ∈ sort_keys l ↔ x ∈ l.
Proof. unfold sort_keys. by rewrite (merge_sort_Permutation String.le). Qed.

Lemma sort_keys_sorted l : StronglySorted String.le (sort_keys l).
Proof. apply StronglySorted_merge_sort; apply _. Qed.

Lemma elem_of_dedup l x : x ∈ dedup l ↔ x ∈ l.
Proof.
  induction l as [|y l IH]; [done|]. simpl. destruct l as [|z l]; [done|].
  case_bool_decide as E.
  - subst. rewrite IH. split; [by right|]. intros [->|Hx]%elem_of_cons; [left|done].
  - rewrite elem_of_cons, IH, (elem_of_cons (z :: l)). done.
Qed.

Lemma dedup_nil l : dedup l = [] → l = [].
Proof.
  intros Hd. destruct l as [|x l]; [done|]. exfalso. apply (not_elem_of_nil x).
  rewrite <- Hd. apply elem_of_dedup. left.
Qed.

(** Strictly increasing. *)
Definition str_lt (a b : string) : Prop := String.le a b ∧ a ≠ b.

Definition sorted_keys (l : list string) : Prop := StronglySorted str_lt l.

Lemma dedup_sorted l : StronglySorted String.le l → sorted_keys (dedup l).
Proof.
  unfold sorted_keys. induction 1 as [|x l Hs IH Hx]; [constructor|]. simpl.
  destruct l as [|y l]; [by repeat constructor|]. case_bool_decide as E; [done|].
  constructor; [done|]. rewrite Forall_forall. intros z Hz.
  rewrite elem_of_dedup in Hz.
  rewrite Forall_forall in Hx. split; [by apply Hx|]. intros ->. apply E.
  apply elem_of_cons in Hz as [->|Hz]; [done|]. apply StronglySorted_inv in Hs as [_ Hy].
  rewrite Forall_forall in Hy. apply (anti_symm String.le); [apply Hx; left|by apply Hy].
Qed.

(** *** Binary search finds exactly the members of a sorted vector *)

Lemma compare_refl s : String.compare s s = Eq.
Proof. pose proof (String.compare_antisym s s) as E. by destruct (String.compare s s). Qed.

Lemma compare_le a b :
  match String.compare a b with
  | Eq => a = b
  | Lt => str_lt a b
  | Gt => str_lt b a
  end.
Proof.
  assert (∀ a b, String.compare a b = Lt → str_lt a b) as Hlt.
  { clear. intros a b E. split.
    - unfold String.le, String.leb. by rewrite E.
    - intros ->. by rewrite compare_refl in E. }
  destruct (String.compare a b) eqn:E; [by apply String.compare_eq_iff|by apply Hlt|].
  apply Hlt. rewrite String.compare_antisym, E. done.
Qed.

Lemma sorted_lookup l i j x y :
  sorted_keys l → l !! i = Some x → l !! j = Some y → i < j → str_lt x y.
Proof.
  intros Hs. revert i j. induction Hs as [|z l Hs IH Hz]; intros i j; [done|].
  rewrite Forall_forall in Hz. destruct i as [|i], j as [|j]; simpl; try lia.
  - intros [= <-] Hy _. apply Hz. by eapply list_elem_of_lookup_2.
  - intros. eapply IH; [done|done|lia].
Qed.

Lemma str_lt_irrefl a : ¬ str_lt a a.
Proof. by intros [_ ?]. Qed.

Lemma str_lt_asym a b : str_lt a b → ¬ str_lt b a.
Proof. intros [H1 H2] [H3 _]. apply H2. by apply (anti_symm String.le). Qed.

(** The key, if it is in the vector, stays within [base, base + size). *)
Lemma binary_search_loop_spec fuel l key base size i :
  sorted_keys l → size ≤ S fuel → base + size ≤ length l → l !! i = Some key →
  base ≤ i < base + size → binary_search_loop fuel l key base size = i.
Proof.
  intros Hs. revert base size. induction fuel as [|fuel IH]; intros base size Hf Hl Hi Hb;
    cbn [binary_search_loop].
  - lia.
  - destruct (size <=? 1) eqn:E; [apply Nat.leb_le in E; lia|apply Nat.leb_gt in E].
    pose proof (Nat.div_mod_eq size 2). pose proof (Nat.mod_upper_bound size 2 ltac:(lia)).
    set (half := size / 2) in *.
    destruct (lookup_lt_is_Some_2 l (base + half)) as [x Hx]; [lia|]. rewrite Hx.
    pose proof (compare_le x key) as Hc. destruct (String.compare x key).
    + subst x. assert (i = base + half) as ->.
      { destruct (Nat.lt_trichotomy i (base + half)) as [Hlt|[?|Hlt]]; [|done|];
          by apply (sorted_lookup l _ _ key key Hs) in Hlt as ?%str_lt_irrefl. }
      apply IH; lia || done.
    + apply IH; [lia..|done|]. destruct (decide (base + half ≤ i)); [lia|]. exfalso.
      eapply str_lt_asym; [exact Hc|]. eapply (sorted_lookup l i (base + half)); eauto; lia.
    + apply IH; [lia..|done|]. destruct (decide (i < base + half)); [lia|]. exfalso.
      destruct (decide (i = base + half)) as [->|]; [simplify_eq; by eapply str_lt_irrefl|].
      eapply str_lt_asym; [exact Hc|]. eapply (sorted_lookup l (base + half) i); eauto; lia.
Qed.

Lemma binary_search_ok l key : sorted_keys l → is_ok (binary_search l key) = contains l key.
Proof.
  intros Hs. unfold contains, binary_search. case_bool_decide as Hin.
  - apply list_elem_of_lookup in Hin as [i Hi]. pose proof (lookup_lt_Some _ _ _ Hi).
    destruct (length l =? 0) eqn:E; [apply Nat.eqb_eq in E; lia|].
    rewrite (binary_search_loop_spec _ _ _ _ _ i) by (done || lia). rewrite Hi.
    by rewrite compare_refl.
  - destruct (length l =? 0); [done|]. destruct (l !! _) as [x|] eqn:Hx; [|done].
    pose proof (compare_le x key) as Hc. destruct (String.compare x key); [|done|done].
    subst. exfalso. apply Hin. by eapply list_elem_of_lookup_2.
Qed.
