(* ===== verification/RustStr.v ===== *)
(** * More of Rust's strings

    [{:?}] of a string, prefixes, suffixes, substrings and splitting, case, and
    the parser of [u64], with their lemmas: what [pretty] prints is read back by the
    parser of unsigned integers.  Of the escapes of [{:?}] the ASCII ones are modelled;
    bytes above 127 are printed as they are. *)

From S2P Require Import Prelude RustStd.
From Stdlib Require Import Ascii.
Local Open Scope string_scope.
Local Open Scope list_scope.

(** ** [Debug] *)

Definition quote : ascii := ascii_of_N 34.
Definition backslash : ascii := ascii_of_N 92.

(** The hexadecimal digits of a byte without leading zeros. *)
Definition hex_byte (n : N) : chars :=
  if (n <? 16)%N then [digit_char n] else [digit_char (n / 16); digit_char (n mod 16)].

Definition escape_debug (c : ascii) : chars :=
  let n := N_of_ascii c in
  if (n =? 0)%N then [backslash; digit_char 0]
  else if (n =? 9)%N then [backslash; ascii_of_N 116]
  else if (n =? 10)%N then [backslash; ascii_of_N 110]
  else if (n =? 13)%N then [backslash; ascii_of_N 114]
  else if (n =? 34)%N || (n =? 92)%N then [backslash; c]
  else if (n <? 32)%N || (n =? 127)%N
  then [backslash; ascii_of_N 117; ascii_of_N 123] ++ hex_byte n ++ [ascii_of_N 125]
  else [c].

Definition str_debug (s : string) : string :=
  of_chars ([quote] ++ mjoin (escape_debug <$> to_chars s) ++ [quote]).

(** ** Parts of a string *)

(** [str::starts_with], on bytes. *)
Fixpoint starts_with (l p : chars) : bool :=
  match p, l with
  | [], _ => true
  | c :: p, d :: l => Ascii.eqb c d && starts_with l p
  | _ :: _, [] => false
  end.

(** [str::ends_with]. *)
Definition ends_with (l p : chars) : bool := starts_with (rev l) (rev p).

(** [str::strip_suffix]. *)
Definition strip_suffix (l p : chars) : option chars :=
  if ends_with l p then Some (take (length l - length p) l) else None.

(** [str::contains] of a string. *)
Fixpoint contains_str (l p : chars) : bool :=
  starts_with l p || match l with [] => false | _ :: l => contains_str l p end.

(** [str::split] on a character. *)
Fixpoint split_on (d : ascii) (l : chars) : list chars :=
  match l with
  | [] => [[]]
  | c :: l =>
      if Ascii.eqb c d then [] :: split_on d l
      else match split_on d l with
           | s :: ss => (c :: s) :: ss
           | [] => [[c]]
           end
  end.

(** [slice::join] with a string between the parts. *)
Fixpoint join_str (sep : string) (parts : list string) : string :=
  match parts with
  | [] => ""
  | [p] => p
  | p :: ps => p +++ sep +++ join_str sep ps
  end.

(** ** Case and classes *)

Definition lower (s : string) : string := of_chars (to_ascii_lowercase (to_chars s)).

(** [str::eq_ignore_ascii_case]. *)
Definition eq_ignore_ascii_case (a b : string) : bool := String.eqb (lower a) (lower b).

Definition is_ascii_digit (c : ascii) : bool := between 48 57 (N_of_ascii c).
Definition is_ascii_lowercase (c : ascii) : bool := between 97 122 (N_of_ascii c).
Definition is_ascii_uppercase (c : ascii) : bool := between 65 90 (N_of_ascii c).
Definition is_ascii_alphanumeric (c : ascii) : bool :=
  is_ascii_digit c || is_ascii_lowercase c || is_ascii_uppercase c.

(** [chars().all] or [bytes().all] of a predicate that only ASCII characters satisfy. *)
Definition all_chars (p : ascii → bool) (s : string) : bool := forallb p (to_chars s).

(** ** [str::parse::<u64>] *)

(** The digits, most significant first; [None] on another character or when the
    value exceeds [limit]. *)
Fixpoint parse_digits (limit acc : N) (l : chars) : option N :=
  match l with
  | [] => Some acc
  | c :: l =>
      match to_digit 10 c with
      | Some d =>
          let acc := (acc * 10 + d)%N in
          if (acc <=? limit)%N then parse_digits limit acc l else None
      | None => None
      end
  end.

(** One leading [+] is accepted, an empty string or a lone sign is not. *)
Definition parse_uint (limit : N) (l : chars) : option N :=
  match l with
  | [] => None
  | [c] => if Ascii.eqb c "+" then None else parse_digits limit 0 l
  | c :: l' => parse_digits limit 0 (if Ascii.eqb c "+" then l' else l)
  end.

Definition U64_MAX : N := 2 ^ 64 - 1.
Definition U32_MAX : N := 2 ^ 32 - 1.
Definition parse_u64 (s : string) : option N := parse_uint U64_MAX (to_chars s).

(** ** Concatenation, prefixes and splitting *)

Lemma to_chars_app a b : to_chars (a +++ b) = to_chars a ++ to_chars b.
Proof. induction a as [|c a IH]; simpl; [done|]. by rewrite IH. Qed.

Lemma starts_with_app p l : starts_with (p ++ l) p = true.
Proof. induction p as [|c p IH]; simpl; [by destruct l|]. by rewrite Ascii.eqb_refl. Qed.

Lemma starts_with_split l p : starts_with l p = true → ∃ r, l = p ++ r.
Proof.
  revert l. induction p as [|c p IH]; intros l; [by exists l|]. destruct l as [|d l]; simpl; [done|].
  intros [E%Ascii.eqb_eq H]%andb_true_iff. destruct (IH _ H) as [r ->]. exists r. by subst.
Qed.

(** ** Decimal digits *)

Lemma strip_app l p : strip_suffix (l ++ p) p = Some l.
Proof.
  unfold strip_suffix, ends_with. rewrite rev_app_distr, starts_with_app, length_app.
  by rewrite Nat.add_sub, take_app_length.
Qed.

Lemma pretty_char_digit x : (x < 10)%N → to_digit 10 (pretty_N_char x) = Some x.
Proof.
  intros Hx. assert (x ∈ [0; 1; 2; 3; 4; 5; 6; 7; 8; 9]%N) as H.
  { rewrite !elem_of_cons. lia. }
  repeat (apply elem_of_cons in H as [->|H]; [done|]). by apply not_elem_of_nil in H.
Qed.

(** A string of digits and its value on top of [acc]. *)
Inductive digits : N → chars → N → Prop :=
| digits_nil acc : digits acc [] acc
| digits_cons acc c d l v :
    to_digit 10 c = Some d → digits (acc * 10 + d) l v → digits acc (c :: l) v.

Lemma digits_mono acc l v : digits acc l v → (acc ≤ v)%N.
Proof. induction 1; lia. Qed.

Lemma digits_app acc l v k w : digits acc l v → digits v k w → digits acc (l ++ k) w.
Proof. induction 1; simpl; [done|]. intros. econstructor; eauto. Qed.

Lemma parse_digits_spec limit acc l v :
  digits acc l v → l ≠ [] →
  parse_digits limit acc l = if (v <=? limit)%N then Some v else None.
Proof.
  induction 1 as [|acc c d l v Hd Hl IH]; [done|]. intros _. cbn [parse_digits]. rewrite Hd.
  pose proof (digits_mono _ _ _ Hl) as Hm. destruct l as [|c' l].
  - inversion Hl; subst. done.
  - rewrite IH by done. destruct (N.leb_spec (acc * 10 + d) limit); [done|].
    destruct (N.leb_spec v limit); [lia|done].
Qed.

Lemma pretty_go_digits n s :
  ∃ l, to_chars (pretty_N_go n s) = l ++ to_chars s ∧ digits 0 l n ∧ (0 < n → l ≠ [])%N.
Proof.
  revert s. induction (N.lt_wf_0 n) as [n _ IH]. intros s.
  destruct (decide (0 < n)%N) as [Hn|Hn].
  - rewrite pretty_N_go_step by done.
    destruct (IH (n `div` 10)%N) with (s := String (pretty_N_char (n `mod` 10)) s)
      as (l & -> & Hd & _); [by apply N.div_lt|].
    exists (l ++ [pretty_N_char (n `mod` 10)]). split_and!.
    + rewrite <- app_assoc. done.
    + eapply digits_app; [exact Hd|]. econstructor; [apply pretty_char_digit, N.mod_lt; lia|].
      replace (n `div` 10 * 10 + n `mod` 10)%N with n; [constructor|].
      rewrite N.mul_comm. apply N.div_mod. lia.
    + intros _ E. by apply app_eq_nil in E as [_ ?].
  - assert (n = 0%N) as -> by lia. rewrite pretty_N_go_0. exists []. split_and!; [done|constructor|lia].
Qed.

Lemma pretty_digits n : ∃ c l, to_chars (pretty n) = c :: l ∧ digits 0 (c :: l) n.
Proof.
  unfold pretty, pretty_N. case_decide as E.
  - subst. exists "0"%char, []. split; [done|]. econstructor; [done|]. constructor.
  - destruct (pretty_go_digits n "") as (l & -> & Hd & Hl). rewrite app_nil_r.
    destruct l as [|c l]; [exfalso; apply Hl; [lia|done]|]. eauto.
Qed.

Lemma digits_chars acc l v : digits acc l v → Forall (fun c => is_Some (to_digit 10 c)) l.
Proof. induction 1; constructor; eauto. Qed.

(** A digit is not white space, a sign, or part of a unit. *)
Lemma digit_code c : is_Some (to_digit 10 c) → (48 ≤ N_of_ascii c ≤ 57)%N.
Proof.
  unfold to_digit. set (n := N_of_ascii c). intros [d Hd].
  destruct ((48 <=? n) && (n <=? 57))%N eqn:E1; [reflect_nums; lia|].
  destruct ((97 <=? n) && (n <=? 122))%N eqn:E2.
  { reflect_nums. destruct (N.ltb_spec (n - 87) 10); [lia|done]. }
  destruct ((65 <=? n) && (n <=? 90))%N eqn:E3; [|done].
  reflect_nums. destruct (N.ltb_spec (n - 55) 10); [lia|done].
Qed.

Lemma parse_pretty limit n :
  parse_uint limit (to_chars (pretty n)) = if (n <=? limit)%N then Some n else None.
Proof.
  destruct (pretty_digits n) as (c & l & -> & Hd).
  assert (Ascii.eqb c "+" = false) as Hc.
  { apply digits_chars, Forall_inv, digit_code in Hd. apply Ascii.eqb_neq. intros ->.
    change (N_of_ascii "+") with 43%N in Hd. lia. }
  unfold parse_uint. rewrite Hc. rewrite <- (parse_digits_spec limit 0 (c :: l) n Hd) by done.
  by destruct l.
Qed.

Lemma pretty_no_char (n : N) c : ¬ is_Some (to_digit 10 c) → c ∉ to_chars (pretty n).
Proof.
  intros Hc Hin. destruct (pretty_digits n) as (d & l & E & Hd). rewrite E in Hin.
  apply digits_chars in Hd. rewrite Forall_forall in Hd. by apply Hc, Hd.
Qed.

Lemma split_once_None d l : split_once d l = None ↔ d ∉ l.
Proof.
  induction l as [|c l IH]; cbn [split_once]; [split; [intros _; apply not_elem_of_nil|done]|].
  rewrite not_elem_of_cons, <- IH. destruct (Ascii.eqb_spec d c) as [<-|Hc].
  - split; [done|]. by intros [? _].
  - destruct (split_once d l) as [[a b]|]; naive_solver.
Qed.

Lemma split_once_Some d l a b : split_once d l = Some (a, b) ↔ (d ∉ a) ∧ l = (a ++ d :: b).
Proof.
  revert a. induction l as [|c l IH]; intros a; cbn [split_once].
  { split; [done|]. intros [_ H]. by destruct a. }
  destruct (Ascii.eqb_spec d c) as [<-|Hc].
  - split; [by intros [= <- <-]; split; [apply not_elem_of_nil|]|].
    intros [Hd H]. destruct a as [|e a]; simplify_eq/=; [done|]. set_solver.
  - destruct (split_once d l) as [[a' b']|] eqn:E.
    + split.
      * intros [= <- <-]. destruct (proj1 (IH a') eq_refl) as [? ->]. split; [|done]. set_solver.
      * intros [Hd H]. destruct a as [|e a]; simplify_eq/=.
        assert (Some (a', b') = Some (a, b)) as [= -> ->]; [|done]. apply IH. set_solver.
    + split; [done|]. intros [Hd H]. destruct a as [|e a]; simplify_eq/=.
      assert (None = Some (a, b)); [|done]. apply IH. set_solver.
Qed.

Lemma contains_str_spec l p : contains_str l p = true ↔ ∃ a b, l = a ++ p ++ b.
Proof.
  split.
  - induction l as [|c l IH]; cbn [contains_str]; rewrite orb_true_iff; intros [Hs|Hc].
    + apply starts_with_split in Hs as [r ->]. by exists [], r.
    + done.
    + apply starts_with_split in Hs as [r Hr]. by exists [], r.
    + apply IH in Hc as (a & b & ->). by exists (c :: a), b.
  - intros (a & b & ->). induction a as [|c a IH].
    + destruct (p ++ b) eqn:E; cbn [contains_str app]; rewrite <- E; by rewrite starts_with_app.
    + cbn [contains_str app]. by rewrite IH, orb_true_r.
Qed.

Lemma contains_char l c : contains_str l [c] = true ↔ c ∈ l.
Proof.
  rewrite contains_str_spec. split.
  - intros (a & b & ->). set_solver.
  - intros (a & b & ->)%list_elem_of_split. by exists a, b.
Qed.
