(* ===== verification/JobTypes.v ===== *)
(** * Job vocabulary

    The small types shared by the job lifecycle and the job tracker
    ([orchestrator/job_lifecycle/{state,job_type,error,domain,ids}.rs]): the
    wire state, the workflow type, the error taxonomy, the failure payload and
    the [JobDomain] trait, which is a type class here. *)

From S2P Require Import Prelude.
Local Open Scope string_scope.
Local Open Scope list_scope.

(** ** [ids.rs] *)

(** A job ID is a string newtype; the type is used transparently. *)
Abbreviation JobId := string (only parsing).

(** ** [state.rs] *)

Module JobStateM.
Inductive JobState := Queued | Running | Completed | Failed.

Definition as_str (s : JobState) : string :=
  match s with
  | Queued => "queued"
  | Running => "running"
  | Completed => "completed"
  | Failed => "failed"
  end.

Definition state_is_terminal (s : JobState) : bool :=
  match s with Completed | Failed => true | Queued | Running => false end.
End JobStateM.
Abbreviation JobState := JobStateM.JobState.

(** ** [job_type.rs] *)

Inductive JobType :=
| FirmwareUpdate
| SwitchCertificate
| SwitchMtlsDisable
| SwitchSdnFactoryDefaultReset
| SwitchFactoryDefaultReset
| SwitchSystemPasswordUpdate
| SwitchSystemImageUpdate
| ConfigureScaleUpFabricManagerV2
| ColdRebootSequence
| SystemValidation.

#[global] Instance JobType_eq_dec : EqDecision JobType.
Proof. solve_decision. Defined.

Definition span_name (t : JobType) : string :=
  match t with
  | FirmwareUpdate => "firmware_update"
  | SwitchCertificate => "switch_certificate"
  | SwitchMtlsDisable => "switch_mtls_disable"
  | SwitchSdnFactoryDefaultReset => "switch_sdn_factory_default_reset"
  | SwitchFactoryDefaultReset => "switch_factory_default_reset"
  | SwitchSystemPasswordUpdate => "switch_system_password_update"
  | SwitchSystemImageUpdate => "switch_system_image_update"
  | ConfigureScaleUpFabricManagerV2 => "configure_scale_up_fabric_manager_v2"
  | ColdRebootSequence => "cold_reboot_sequence"
  | SystemValidation => "system_validation"
  end.

Definition batch_noun (t : JobType) : string :=
  match t with
  | FirmwareUpdate => "firmware update"
  | SwitchCertificate => "switch certificate install"
  | SwitchMtlsDisable => "switch mTLS disable"
  | SwitchSdnFactoryDefaultReset => "switch SDN factory-default reset"
  | SwitchFactoryDefaultReset => "switch factory-default reset"
  | SwitchSystemPasswordUpdate => "switch system password update"
  | SwitchSystemImageUpdate => "switch system image update"
  | ConfigureScaleUpFabricManagerV2 => "scale-up fabric configuration"
  | ColdRebootSequence => "cold reboot"
  | SystemValidation => "system validation"
  end.

Definition batch_noun_plural (t : JobType) : string :=
  match t with
  | FirmwareUpdate => "firmware updates"
  | SwitchCertificate => "switch certificate installs"
  | SwitchMtlsDisable => "switch mTLS disables"
  | SwitchSdnFactoryDefaultReset => "switch SDN factory-default resets"
  | SwitchFactoryDefaultReset => "switch factory-default resets"
  | SwitchSystemPasswordUpdate => "switch system password updates"
  | SwitchSystemImageUpdate => "switch system image updates"
  | ConfigureScaleUpFabricManagerV2 => "scale-up fabric configurations"
  | ColdRebootSequence => "cold reboots"
  | SystemValidation => "system validations"
  end.

(** ** [error.rs] *)

Module JobErrorM.
Inductive JobError :=
| Unspecified
| Internal
| Other
| InvalidArgument
| FailedPrecondition
| ClientError
| ServerError
| Timeout
| InvalidResponse
| Unauthenticated
| TargetNotFound
| FileNotFound
| UpdateInProgress.

#[global] Instance JobError_eq_dec : EqDecision JobError.
Proof. solve_decision. Defined.

(** [impl Display]. *)
Definition job_error_display (e : JobError) : string :=
  match e with
  | Unspecified => "unspecified"
  | Internal => "internal"
  | Other => "other"
  | InvalidArgument => "invalid argument"
  | FailedPrecondition => "failed precondition"
  | ClientError => "client error"
  | ServerError => "server error"
  | Timeout => "timeout"
  | InvalidResponse => "invalid response"
  | Unauthenticated => "unauthenticated"
  | TargetNotFound => "target not found"
  | FileNotFound => "file not found"
  | UpdateInProgress => "update in progress"
  end.

(** The derived [Debug]: the variant's name. *)
Definition job_error_debug (e : JobError) : string :=
  match e with
  | Unspecified => "Unspecified"
  | Internal => "Internal"
  | Other => "Other"
  | InvalidArgument => "InvalidArgument"
  | FailedPrecondition => "FailedPrecondition"
  | ClientError => "ClientError"
  | ServerError => "ServerError"
  | Timeout => "Timeout"
  | InvalidResponse => "InvalidResponse"
  | Unauthenticated => "Unauthenticated"
  | TargetNotFound => "TargetNotFound"
  | FileNotFound => "FileNotFound"
  | UpdateInProgress => "UpdateInProgress"
  end.

Definition metrics_label (e : JobError) : string :=
  match e with
  | Unspecified => "unspecified"
  | Internal => "internal"
  | Other => "other"
  | InvalidArgument => "invalid_argument"
  | FailedPrecondition => "failed_precondition"
  | ClientError => "client_error"
  | ServerError => "server_error"
  | Timeout => "timeout"
  | InvalidResponse => "invalid_response"
  | Unauthenticated => "unauthenticated"
  | TargetNotFound => "target_not_found"
  | FileNotFound => "file_not_found"
  | UpdateInProgress => "update_in_progress"
  end.
End JobErrorM.
Abbreviation JobError := JobErrorM.JobError.

(** An [anyhow::Error] as far as the code looks at it: the [JobError] that
    [downcast_ref] finds at the root, if there is one, and the text. *)
Record anyhow_error := AnyhowError {
  downcast_job_error : option JobError;
  error_text : string;
}.

(** [anyhow::Error::from(code)] for a typed code. *)
Definition anyhow_of_code (c : JobError) : anyhow_error :=
  AnyhowError (Some c) (JobErrorM.job_error_display c).

Definition job_error_of (e : anyhow_error) : JobError :=
  default JobErrorM.Internal (downcast_job_error e).

(** ** [domain.rs] *)

Record JobFailure := mkJobFailure {
  failure_error : anyhow_error;
  failure_description : string;
  failure_message : string;
  failure_result_json : option string;
}.

Definition JobFailure_new (error : anyhow_error) (message : string) : JobFailure :=
  mkJobFailure error "Failed" message None.

Definition with_description (f : JobFailure) (description : string) : JobFailure :=
  mkJobFailure (failure_error f) description (failure_message f) (failure_result_json f).

Definition with_result_json (f : JobFailure) (result_json : string) : JobFailure :=
  mkJobFailure (failure_error f) (failure_description f) (failure_message f)
    (Some result_json).

(** ** [registry.rs]: [JobScope] *)

(** [u32] and [u16] fields are kept as [Z]; nothing computes with them. *)
Inductive JobScope :=
| LogicalNode (rack_id node_id : string)
| PhysicalSwitch (chassis_serial_number : string) (tray_index : Z)
| Endpoint (host : string) (port : Z).

#[global] Instance JobScope_eq_dec : EqDecision JobScope.
Proof. solve_decision. Defined.

#[global] Instance JobScope_countable : Countable JobScope.
Proof.
  refine (inj_countable'
    (fun s => match s with
              | LogicalNode r n => inl (r, n)
              | PhysicalSwitch c t => inr (inl (c, t))
              | Endpoint h p => inr (inr (h, p))
              end)
    (fun x => match x with
              | inl (r, n) => LogicalNode r n
              | inr (inl (c, t)) => PhysicalSwitch c t
              | inr (inr (h, p)) => Endpoint h p
              end) _).
  by intros [].
Defined.

(** The trait [JobDomain]: the failure policy a registry is generic in. *)
Class JobDomain := {
  dropped_failure : JobFailure;
  at_capacity_failure : nat → nat → JobFailure;
  node_busy_failure : string → string → JobId → JobFailure;
  scope_busy_failure : JobScope → JobId → JobFailure;
  inactive_job_failure : JobId → JobFailure;
  shutting_down_failure : JobFailure;
  shutdown_failure : JobFailure;
  parent_unavailable_failure : JobId → JobFailure;
}.
