(* ===== verification/EndpointScope.v ===== *)
(** * Endpoint aliases

    [JobScope::endpoint] and [JobScope::normalized]
    ([orchestrator/job_lifecycle/registry.rs]), with what they use of Rust's
    standard library beyond [RustStd]: the parser and printer of
    [std::net::IpAddr]. *)

From S2P Require Import Prelude RustStd JobTypes.
From Stdlib Require Import Ascii.
Local Open Scope string_scope.
Local Open Scope list_scope.
Local Open Scope N_scope.

(** ** [std::net]: addresses *)

Inductive IpAddr :=
| V4 (octets : list N)
| V6 (segments : list N).

(** The digit loop of [read_number]: [None] when more than [max] digits. *)
Fixpoint read_digits (radix : N) (max : nat) (acc : N) (count : nat) (l : chars)
    : option (N * nat * chars) :=
  match l with
  | c :: l' =>
      match to_digit radix c with
      | Some d =>
          if (max <? S count)%nat then None
          else read_digits radix max (acc * radix + d) (S count) l'
      | None => Some (acc, count, l)
      end
  | [] => Some (acc, count, [])
  end.

Definition read_number (radix : N) (max : nat) (allow_zero_prefix : bool) (limit : N)
    (l : chars) : option (N * chars) :=
  let leading_zero := match l with c :: _ => Ascii.eqb c "0" | [] => false end in
  match read_digits radix max 0 0 l with
  | None => None
  | Some (v, count, rest) =>
      if (count =? 0)%nat then None
      else if negb allow_zero_prefix && leading_zero && (1 <? count)%nat then None
      else if v <? limit then Some (v, rest) else None
  end.

Definition read_given_char (d : ascii) (l : chars) : option chars :=
  match l with
  | c :: l' => if Ascii.eqb d c then Some l' else None
  | [] => None
  end.

(** [read_separator]: the separator only before the items after the first. *)
Definition read_separator {A} (sep : ascii) (index : nat)
    (inner : chars → option (A * chars)) (l : chars) : option (A * chars) :=
  if (0 <? index)%nat
  then match read_given_char sep l with Some l' => inner l' | None => None end
  else inner l.

Fixpoint read_octets (n index : nat) (l : chars) : option (list N * chars) :=
  match n with
  | O => Some ([], l)
  | S n' =>
      match read_separator "." index (read_number 10 3 false 256) l with
      | Some (o, l') =>
          match read_octets n' (S index) l' with
          | Some (os, l'') => Some (o :: os, l'')
          | None => None
          end
      | None => None
      end
  end.

Definition read_ipv4_addr (l : chars) : option (list N * chars) := read_octets 4 0 l.

Definition octets_to_segments (os : list N) : list N :=
  match os with
  | [a; b; c; d] => [a * 256 + b; c * 256 + d]
  | _ => []
  end.

(** [read_groups] over [n] remaining slots, [index] already read: the groups,
    whether they end in an embedded IPv4 address, and the rest. *)
Fixpoint read_groups (n index : nat) (l : chars) : list N * bool * chars :=
  match n with
  | O => ([], false, l)
  | S n' =>
      let embedded :=
        match n' with
        | O => None
        | S _ => read_separator ":" index read_ipv4_addr l
        end in
      match embedded with
      | Some (os, l') => (octets_to_segments os, true, l')
      | None =>
          match read_separator ":" index (read_number 16 4 true 65536) l with
          | Some (g, l') =>
              let '(gs, v4, l'') := read_groups n' (S index) l' in
              (g :: gs, v4, l'')
          | None => ([], false, l)
          end
      end
  end.

Definition read_ipv6_addr (l : chars) : option (list N * chars) :=
  let '(head, head_ipv4, l1) := read_groups 8 0 l in
  if (length head =? 8)%nat then Some (head, l1)
  else if head_ipv4 then None
  else match read_given_char ":" l1 with
       | Some l2 =>
           match read_given_char ":" l2 with
           | Some l3 =>
               let limit := (8 - (length head + 1))%nat in
               let '(tail, _, l4) := read_groups limit 0 l3 in
               Some (head ++ replicate (8 - length head - length tail) 0 ++ tail, l4)
           | None => None
           end
       | None => None
       end.

Definition parse_ipv6 (l : chars) : option (list N) :=
  match read_ipv6_addr l with
  | Some (segs, []) => Some segs
  | _ => None
  end.

(** [read_ip_addr]: IPv4 first; no backtracking once it has matched. *)
Definition parse_ip (l : chars) : option IpAddr :=
  match read_ipv4_addr l with
  | Some (os, []) => Some (V4 os)
  | Some (_, _ :: _) => None
  | None => match parse_ipv6 l with Some segs => Some (V6 segs) | None => None end
  end.

(** ** [std::net]: display *)

(** Digits of a number below [radix ^ fuel], most significant first, without
    leading zeros. *)
Fixpoint show_digits (fuel : nat) (radix n : N) (acc : chars) : chars :=
  match fuel with
  | O => acc
  | S fuel' =>
      let acc' := digit_char (n mod radix) :: acc in
      if n <? radix then acc' else show_digits fuel' radix (n / radix) acc'
  end.

Definition show_dec (n : N) : chars := show_digits 3 10 n [].
Definition show_hex (n : N) : chars := show_digits 4 16 n [].

Fixpoint join (sep : ascii) (parts : list chars) : chars :=
  match parts with
  | [] => []
  | [p] => p
  | p :: ps => p ++ sep :: join sep ps
  end.

Definition show_ipv4 (os : list N) : chars := join "." (map show_dec os).

Definition to_ipv4_mapped (segs : list N) : option (list N) :=
  match segs with
  | [0; 0; 0; 0; 0; 65535; ab; cd] => Some [ab / 256; ab mod 256; cd / 256; cd mod 256]
  | _ => None
  end.

(** The longest run of zero segments, the first one among equals, as
    (start, length): the loop of [Display for Ipv6Addr]. *)
Fixpoint zero_run (i : nat) (segs : list N) (cur longest : nat * nat) : nat * nat :=
  match segs with
  | [] => longest
  | s :: ss =>
      if s =? 0 then
        let cur' := if (snd cur =? 0)%nat then (i, 1%nat) else (fst cur, S (snd cur)) in
        let longest' := if (snd longest <? snd cur')%nat then cur' else longest in
        zero_run (S i) ss cur' longest'
      else zero_run (S i) ss (0%nat, 0%nat) longest
  end.

Definition show_ipv6 (segs : list N) : chars :=
  match to_ipv4_mapped segs with
  | Some os => to_chars "::ffff:" ++ show_ipv4 os
  | None =>
      let '(start, len) := zero_run 0 segs (0%nat, 0%nat) (0%nat, 0%nat) in
      if (1 <? len)%nat then
        join ":" (map show_hex (firstn start segs)) ++ to_chars "::"
        ++ join ":" (map show_hex (skipn (start + len) segs))
      else join ":" (map show_hex segs)
  end.

Definition to_canonical (a : IpAddr) : IpAddr :=
  match a with
  | V4 os => V4 os
  | V6 segs => match to_ipv4_mapped segs with Some os => V4 os | None => V6 segs end
  end.

Definition show_ip (a : IpAddr) : chars :=
  match a with V4 os => show_ipv4 os | V6 segs => show_ipv6 segs end.

(** ** [JobScope::endpoint] and [JobScope::normalized] *)

Definition unscoped_host (host : chars) : chars :=
  match parse_ip host with
  | Some address => show_ip (to_canonical address)
  | None => to_ascii_lowercase (trim_end (is_char ".") host)
  end.

Definition endpoint_host (raw : string) : string :=
  let host := trim_end (is_char "]") (trim_start (is_char "[") (to_chars (trim raw))) in
  of_chars
    (match split_once "%" host with
     | Some (address, zone) =>
         match parse_ipv6 address with
         | Some segs => show_ipv6 segs ++ "%"%char :: zone
         | None => unscoped_host host
         end
     | None => unscoped_host host
     end).

Definition endpoint (host : string) (port : Z) : JobScope :=
  Endpoint (endpoint_host host) port.

Definition normalized (s : JobScope) : JobScope :=
  match s with
  | Endpoint host port => endpoint host port
  | PhysicalSwitch chassis tray => PhysicalSwitch (trim chassis) tray
  | LogicalNode rack node => LogicalNode rack node
  end.

(** The spellings the code's own tests list as equivalent or distinct. *)
Example endpoint_spellings :
  endpoint_host "[::ffff:10.0.0.5]" = "10.0.0.5"
  ∧ endpoint_host "::ffff:a00:5" = "10.0.0.5"
  ∧ endpoint_host "2001:0db8:0:0:0:0:0:1" = "2001:db8::1"
  ∧ endpoint_host "[2001:db8::1]" = "2001:db8::1"
  ∧ endpoint_host "[fe80:0:0:0:0:0:0:1%ETH0]" = "fe80::1%ETH0"
  ∧ endpoint_host " SWITCH.EXAMPLE. " = "switch.example"
  ∧ endpoint_host "010.0.0.1" = "010.0.0.1"
  ∧ endpoint_host "1:0:0:2:0:0:0:3" = "1:0:0:2::3".
Proof. by vm_compute. Qed.
