(* ===== verification/Json.v ===== *)
(** * JSON values

    [serde_json::Value] as the job code builds and inspects it.  An object is the
    finite map of its entries.  With the feature [preserve_order], which one
    crate of the workspace turns on, the crate's [Map] remembers the order of
    insertion; its equality ignores it, the code does not read it, and the model
    does not keep it: it says nothing of the order in which keys print.  The
    parser and the printer are third-party code: a class of
    parameters, of which no law is assumed. *)

From S2P Require Import Prelude.

(** [serde_json::Number]; a float by its bits. *)
Inductive Number :=
| PosInt (n : N)
| NegInt (z : Z)
| Float (bits : Z).

Inductive json :=
| JNull
| JBool (b : bool)
| JNumber (n : Number)
| JString (s : string)
| JArray (l : list json)
| JObject (m : gmap string json).

#[export] Instance Number_eq_dec : EqDecision Number.
Proof. solve_decision. Defined.

#[export] Instance json_eq_dec : EqDecision json.
Proof.
  refine (fix go x y :=
    let _ : EqDecision json := @go in
    match x, y with
    | JNull, JNull => left eq_refl
    | JBool a, JBool b => cast_if (decide (a = b))
    | JNumber a, JNumber b => cast_if (decide (a = b))
    | JString a, JString b => cast_if (decide (a = b))
    | JArray a, JArray b => cast_if (decide (a = b))
    | JObject a, JObject b => cast_if (decide (a = b))
    | _, _ => right _
    end); abstract congruence.
Defined.

Abbreviation json_map := (gmap string json).

(** A [usize] or [u64] as a JSON number. *)
Definition jnat (n : nat) : json := JNumber (PosInt (N.of_nat n)).

(** [Map::extend]: the right operand's keys win. *)
Definition map_extend (m extra : json_map) : json_map := extra ∪ m.

(** What a derived [Serialize] hands to the serializer: a struct keeps the order
    of its fields, and a field skipped by [skip_serializing_if] is not in it. *)
Inductive ser :=
| SStr (s : string)
| SNat (n : nat)
| SInt (z : Z)
| SSeq (l : list ser)
| SStruct (fields : list (string * ser)).

(** An [Option] field under [skip_serializing_if = "Option::is_none"]. *)
Definition opt_field {A} (name : string) (f : A → ser) (o : option A) : list (string * ser) :=
  match o with Some a => [(name, f a)] | None => [] end.

(** [Value] parsing and printing, and [serde_json::to_string] of a [Serialize]. *)
Class SerdeJson := {
  from_str : string → result string json;
  to_string : json → string;
  serialize : ser → result string string;
}.

Lemma map_extend_lookup (m extra : json_map) k :
  map_extend m extra !! k =
    match extra !! k with Some v => Some v | None => m !! k end.
Proof.
  unfold map_extend. rewrite lookup_union. by destruct (extra !! k), (m !! k).
Qed.
