(* ===== verification/RmsDomain.v ===== *)
(** * The job domain of the service

    [RmsJobDomain] and the failure constructors of
    [orchestrator/job_tracker.rs]: the instance of [JobDomain] every job of the
    service runs under.  [{:?}] of a scope is the derived [Debug]. *)

From S2P Require Import Prelude RustStd RustStr JobTypes EndpointScope Json.
From Stdlib Require Import Ascii.
Local Open Scope string_scope.
Local Open Scope list_scope.

(** ** [Debug] of scopes *)

Definition scope_debug (s : JobScope) : string :=
  match s with
  | LogicalNode rack node =>
      "LogicalNode { rack_id: " +++ str_debug rack +++ ", node_id: " +++ str_debug node +++ " }"
  | PhysicalSwitch serial tray =>
      "PhysicalSwitch { chassis_serial_number: " +++ str_debug serial
      +++ ", tray_index: " +++ pretty tray +++ " }"
  | Endpoint host port =>
      "Endpoint { host: " +++ str_debug host +++ ", port: " +++ pretty port +++ " }"
  end.

(** ** Failures *)

Definition serialize_result_json `{SerdeJson} (payload : ser) : string :=
  match serialize payload with Ok s => s | Err _ => "" end.

Definition default_failure_result_json `{SerdeJson} (code : JobError) (message : string)
    : string :=
  serialize_result_json
    (SStruct [("status", SStr "failed"); ("error_code", SStr (JobErrorM.job_error_debug code));
              ("error_message", SStr message)]).

Definition job_failure `{SerdeJson} (code : JobError) (message : string) : JobFailure :=
  with_result_json (JobFailure_new (anyhow_of_code code) message)
    (default_failure_result_json code message).

Definition CANCELLED_JOB_DESCRIPTION : string := "Cancelled".

#[global] Instance RmsJobDomain `{SerdeJson} : JobDomain := {
  dropped_failure :=
    with_description
      (job_failure JobErrorM.Internal "job abandoned before recording a terminal state")
      "Abandoned";
  at_capacity_failure current max :=
    job_failure JobErrorM.Internal
      ("job tracker at capacity (" +++ show_nat current +++ "/" +++ show_nat max
       +++ " jobs); retry after in-flight jobs finish");
  node_busy_failure rack node active :=
    job_failure JobErrorM.UpdateInProgress
      ("job already in progress for rack " +++ rack +++ " node " +++ node
       +++ " (job_id " +++ active +++ ")");
  scope_busy_failure scope owner :=
    job_failure JobErrorM.UpdateInProgress
      ("mutation scope " +++ scope_debug scope +++ " is occupied (owner_id " +++ owner +++ ")");
  inactive_job_failure id :=
    job_failure JobErrorM.Internal
      ("job " +++ id +++ " is missing or terminal; mutation aliases cannot be admitted");
  shutting_down_failure :=
    job_failure JobErrorM.Internal "server is shutting down; new jobs are not accepted";
  shutdown_failure :=
    with_description
      (job_failure JobErrorM.Other "job cancelled because the server is shutting down")
      CANCELLED_JOB_DESCRIPTION;
  parent_unavailable_failure id :=
    job_failure JobErrorM.Internal
      ("parent job " +++ id +++ " is missing, terminal, or already a child");
}.

(** A serializer for evaluating the model: it prints nothing and parses nothing. *)
Definition silent_json : SerdeJson :=
  {| from_str := fun s => Err s; to_string := fun _ => ""; serialize := fun _ => Ok "" |}.

Example scope_debug_escapes :
  scope_debug (LogicalNode (of_chars [quote; ascii_of_N 10]) "n1") =
    "LogicalNode { rack_id: " +++ of_chars [quote; backslash; quote; backslash; ascii_of_N 110; quote]
    +++ ", node_id: " +++ of_chars ([quote] ++ to_chars "n1" ++ [quote]) +++ " }".
Proof. vm_compute. reflexivity. Qed.
