(* ===== verification/JobStore.v ===== *)
(** * The job store

    [orchestrator/job_lifecycle/store.rs] with the record types of
    [registry.rs] it keeps: authoritative snapshots by job ID, the derived
    rack/node index of active jobs, and the two alias (scope) indexes.

    [HashMap] and [HashSet] are [gmap] and [gset]; where the code takes "any"
    element of a set, the model takes the first of [elements], and no theorem
    depends on that order.  [Instant] and [DateTime<Utc>] are [Z]; an operation
    that reads the clocks takes the readings as an argument.  [JobId::new] is a
    UUID generator outside the sources: an operation that draws IDs takes the
    sequence of IDs drawn. *)

From S2P Require Import Prelude JobTypes.
Local Open Scope string_scope.
Local Open Scope list_scope.

(** ** Clocks, spans and tokens *)

Record clock := mkClock { wall : Z; mono : Z }.

(** [Instant::saturating_duration_since]. *)
Definition saturating_duration_since (now earlier : Z) : Z := Z.max 0 (now - earlier).

(** A [tracing::Span] as far as job code uses it: disabled, or a name with
    declared fields; [record] writes a declared field only. *)
Inductive Span :=
| SpanNone
| SpanOf (name : string) (fields : gmap string string).

Definition span_record (s : Span) (field value : string) : Span :=
  match s with
  | SpanNone => SpanNone
  | SpanOf name fields =>
      match fields !! field with
      | Some _ => SpanOf name (<[field := value]> fields)
      | None => s
      end
  end.

(** A [CancellationToken] is a shared flag: its identity here, the set of
    cancelled identities in the registry. *)
Abbreviation Token := nat (only parsing).

(** ** Records *)

Inductive JobLifecycleState :=
| Queued (description : string)
| Running (description : string)
| Completed (description result_json : string)
| Failed (description : string) (failure : anyhow_error) (message result_json : string).

Definition is_terminal (s : JobLifecycleState) : bool :=
  match s with
  | Completed _ _ | Failed _ _ _ _ => true
  | Queued _ | Running _ => false
  end.

Definition is_queued (s : JobLifecycleState) : bool :=
  match s with Queued _ => true | _ => false end.

Definition is_running (s : JobLifecycleState) : bool :=
  match s with Running _ => true | _ => false end.

Definition description (s : JobLifecycleState) : string :=
  match s with
  | Queued d | Running d | Completed d _ | Failed d _ _ _ => d
  end.

Record JobSnapshot := mkJobSnapshot {
  job_id : JobId;
  span : Span;
  state : JobLifecycleState;
  rack_id : string;
  node_id : string;
  created_at : Z;
  updated_at : Z;
  updated_at_mono : Z;
  mono_inversion_warned : bool;
  child_job_ids : list JobId;
  parent_job_id : option JobId;
  cancellation_token : Token;
  workflow_type : option JobType;
}.

Definition is_parent (j : JobSnapshot) : bool :=
  match child_job_ids j with [] => false | _ :: _ => true end.

(** *** Field updates *)

Definition set_job_id (j : JobSnapshot) (id : JobId) : JobSnapshot :=
  mkJobSnapshot id (span j) (state j) (rack_id j) (node_id j) (created_at j)
    (updated_at j) (updated_at_mono j) (mono_inversion_warned j) (child_job_ids j)
    (parent_job_id j) (cancellation_token j) (workflow_type j).

Definition set_state (j : JobSnapshot) (s : JobLifecycleState) : JobSnapshot :=
  mkJobSnapshot (job_id j) (span j) s (rack_id j) (node_id j) (created_at j)
    (updated_at j) (updated_at_mono j) (mono_inversion_warned j) (child_job_ids j)
    (parent_job_id j) (cancellation_token j) (workflow_type j).

Definition set_warned (j : JobSnapshot) : JobSnapshot :=
  mkJobSnapshot (job_id j) (span j) (state j) (rack_id j) (node_id j) (created_at j)
    (updated_at j) (updated_at_mono j) true (child_job_ids j)
    (parent_job_id j) (cancellation_token j) (workflow_type j).

Definition push_child (j : JobSnapshot) (id : JobId) : JobSnapshot :=
  mkJobSnapshot (job_id j) (span j) (state j) (rack_id j) (node_id j) (created_at j)
    (updated_at j) (updated_at_mono j) (mono_inversion_warned j)
    (child_job_ids j ++ [id]) (parent_job_id j) (cancellation_token j) (workflow_type j).

Definition touch (j : JobSnapshot) (now : clock) : JobSnapshot :=
  mkJobSnapshot (job_id j) (span j) (state j) (rack_id j) (node_id j) (created_at j)
    (wall now) (mono now) (mono_inversion_warned j) (child_job_ids j)
    (parent_job_id j) (cancellation_token j) (workflow_type j).

Inductive LifecycleTransition :=
| Started (s : JobSnapshot)
| Progress (s : JobSnapshot)
| Terminal (s : JobSnapshot).

(** ** The store *)

Module Store.

Record JobStore := mkJobStore {
  by_id : gmap JobId JobSnapshot;
  active_by_node : gmap string (gmap string (gset JobId));
  active_by_scope : gmap JobScope JobId;
  scopes_by_owner : gmap JobId (gset JobScope);
}.

Definition empty_store : JobStore := mkJobStore ∅ ∅ ∅ ∅.

Definition with_by_id (s : JobStore) (m : gmap JobId JobSnapshot) : JobStore :=
  mkJobStore m (active_by_node s) (active_by_scope s) (scopes_by_owner s).
Definition with_active (s : JobStore) (m : gmap string (gmap string (gset JobId)))
    : JobStore :=
  mkJobStore (by_id s) m (active_by_scope s) (scopes_by_owner s).

Definition should_index (j : JobSnapshot) : bool :=
  bool_decide (node_id j ≠ "") && negb (is_terminal (state j)).

Definition tracked_job_count (s : JobStore) : nat := size (by_id s).

Definition get (s : JobStore) (id : JobId) : option JobSnapshot := by_id s !! id.

Definition snapshots (s : JobStore) : list JobSnapshot := (map_to_list (by_id s)).*2.

(** The set of the active-node index at a rack and a node. *)
Definition active_jobs (m : gmap string (gmap string (gset JobId))) (rack node : string)
    : gset JobId :=
  default ∅ (default ∅ (m !! rack) !! node).

Definition active_job_for_node (s : JobStore) (rack node : string) : option JobId :=
  head (elements (active_jobs (active_by_node s) rack node)).

Definition conflicting_scope_except (s : JobStore) (scopes : list JobScope)
    (owner : option JobId) : option (JobScope * JobId) :=
  find_map
    (fun scope =>
       let by_alias :=
         match active_by_scope s !! scope with
         | Some active => if bool_decide (Some active = owner) then None else Some active
         | None => None
         end in
       let active :=
         match by_alias with
         | Some active => Some active
         | None =>
             match scope with
             | LogicalNode rack node =>
                 find_first (fun active => bool_decide (Some active ≠ owner))
                   (elements (active_jobs (active_by_node s) rack node))
             | _ => None
             end
         end in
       match active with Some active => Some (scope, active) | None => None end)
    scopes.

Definition conflicting_scope (s : JobStore) (scopes : list JobScope)
    : option (JobScope * JobId) :=
  conflicting_scope_except s scopes None.

Definition has_scope_owner (s : JobStore) (owner : JobId) : bool :=
  bool_decide (is_Some (scopes_by_owner s !! owner)).

Definition reserve_scopes (s : JobStore) (owner : JobId) (scopes : list JobScope)
    : JobStore :=
  let set : gset JobScope := list_to_set scopes in
  if bool_decide (set = ∅) then s
  else
    mkJobStore (by_id s) (active_by_node s)
      (foldr (fun scope m => <[scope := owner]> m) (active_by_scope s) (elements set))
      (<[owner := default ∅ (scopes_by_owner s !! owner) ∪ set]> (scopes_by_owner s)).

Definition release_scopes (s : JobStore) (owner : JobId) : JobStore :=
  match scopes_by_owner s !! owner with
  | None => s
  | Some scopes =>
      mkJobStore (by_id s) (active_by_node s)
        (foldr (fun scope m => delete scope m) (active_by_scope s) (elements scopes))
        (delete owner (scopes_by_owner s))
  end.

Definition can_accept_child (s : JobStore) (parent : JobId) : bool :=
  match by_id s !! parent with
  | None => false
  | Some p => negb (is_terminal (state p)) && bool_decide (parent_job_id p = None)
  end.

Definition attach_child (s : JobStore) (child : JobSnapshot) (now : clock)
    : JobStore * bool :=
  match parent_job_id child with
  | None => (s, false)
  | Some pid =>
      match by_id s !! pid with
      | None => (s, false)
      | Some p =>
          if is_terminal (state p) || bool_decide (is_Some (parent_job_id p))
          then (s, false)
          else (with_by_id s (<[pid := touch (push_child p (job_id child)) now]> (by_id s)),
                true)
      end
  end.

(** [entry(rack).or_default().entry(node).or_default().insert(id)]. *)
Definition index_insert (m : gmap string (gmap string (gset JobId)))
    (rack node : string) (id : JobId) : gmap string (gmap string (gset JobId)) :=
  let nodes := default ∅ (m !! rack) in
  let jobs := default ∅ (nodes !! node) in
  <[rack := <[node := {[id]} ∪ jobs]> nodes]> m.

Definition remove_active_job (m : gmap string (gmap string (gset JobId)))
    (rack node : string) (id : JobId) : gmap string (gmap string (gset JobId)) :=
  match m !! rack with
  | None => m
  | Some nodes =>
      match nodes !! node with
      | None => m
      | Some jobs =>
          let jobs' := jobs ∖ {[id]} in
          if bool_decide (jobs' ≠ ∅) then <[rack := <[node := jobs']> nodes]> m
          else
            let nodes' := delete node nodes in
            if bool_decide (nodes' = ∅) then delete rack m
            else <[rack := nodes']> m
      end
  end.

Definition remove (s : JobStore) (id : JobId) : JobStore * option JobSnapshot :=
  match by_id s !! id with
  | None => (s, None)
  | Some record =>
      let s1 := with_by_id s (delete id (by_id s)) in
      let s2 := with_active s1
                  (remove_active_job (active_by_node s1) (rack_id record) (node_id record)
                     (job_id record)) in
      (release_scopes s2 id, Some record)
  end.

Definition remove_queued_leaf (s : JobStore) (id : JobId) : JobStore * bool :=
  match by_id s !! id with
  | None => (s, false)
  | Some record =>
      if is_parent record || bool_decide (is_Some (parent_job_id record))
         || negb (is_queued (state record))
      then (s, false)
      else
        let '(s', removed) := remove s id in
        (s', match removed with Some _ => true | None => false end)
  end.

Definition classify (was_queued was_running was_terminal : bool) (record : JobSnapshot)
    : option LifecycleTransition :=
  if was_queued && is_running (state record) then Some (Started record)
  else if was_running && is_running (state record) then Some (Progress record)
  else if negb was_terminal && is_terminal (state record) then Some (Terminal record)
  else None.

Definition is_terminal_event (e : option LifecycleTransition) : bool :=
  match e with Some (Terminal _) => true | _ => false end.

Definition transition_state (s : JobStore) (id : JobId) (now : clock)
    (transition : JobLifecycleState → option JobLifecycleState)
    : JobStore * (bool * option LifecycleTransition) :=
  match by_id s !! id with
  | None => (s, (false, None))
  | Some old =>
      match transition (state old) with
      | None => (s, (false, None))
      | Some next =>
          let record := touch (set_state old next) now in
          let event := classify (is_queued (state old)) (is_running (state old))
                         (is_terminal (state old)) record in
          let s1 := with_by_id s (<[id := record]> (by_id s)) in
          let s2 := if is_terminal_event event then release_scopes s1 id else s1 in
          let s3 :=
            if Bool.eqb (should_index old) (should_index record) then s2
            else if should_index record then
              with_active s2 (index_insert (active_by_node s2) (rack_id record)
                                (node_id record) (job_id record))
            else
              with_active s2 (remove_active_job (active_by_node s2) (rack_id record)
                                (node_id record) (job_id record)) in
          (s3, (true, event))
      end
  end.

(** *** Insertion *)

(** The collision loop of [insert_with_id_generator]; [ids k] is the [k]-th ID
    the generator returns.  [None] when [fuel] draws did not give a vacant ID. *)
Fixpoint vacant_id (fuel : nat) (s : JobStore) (ids : nat → JobId) (k : nat) (id : JobId)
    : option JobId :=
  match fuel with
  | O => None
  | S fuel' =>
      if has_scope_owner s id then vacant_id fuel' s ids (S k) (ids k)
      else match by_id s !! id with
           | None => Some id
           | Some _ => vacant_id fuel' s ids (S k) (ids k)
           end
  end.

Definition insert_with_id_generator (fuel : nat) (s : JobStore) (record : JobSnapshot)
    (ids : nat → JobId) : option (JobStore * JobSnapshot) :=
  match vacant_id fuel s ids 0 (job_id record) with
  | None => None
  | Some id =>
      let record := set_job_id record id in
      let s1 := with_by_id s (<[id := record]> (by_id s)) in
      let s2 :=
        if should_index record then
          with_active s1 (index_insert (active_by_node s1) (rack_id record)
                            (node_id record) (job_id record))
        else s1 in
      Some (s2, record)
  end.

(** Fuel that suffices for pairwise distinct IDs: one more than the number of
    occupied ones ([vacant_id_terminates]). *)
Definition id_fuel (s : JobStore) : nat :=
  S (size (by_id s) + size (scopes_by_owner s)).

Definition insert (s : JobStore) (record : JobSnapshot) (ids : nat → JobId)
    : option (JobStore * JobSnapshot) :=
  insert_with_id_generator (id_fuel s) s record ids.

(** *** Eviction *)

Definition is_older_than (now timestamp ttl : Z) : bool :=
  (ttl <=? saturating_duration_since now timestamp)%Z.

Definition warn_if_monotonic_timestamp_in_future (j : JobSnapshot) (now : Z) : JobSnapshot :=
  if (updated_at_mono j <=? now)%Z || mono_inversion_warned j then j else set_warned j.

Definition expired (now ttl : Z) (j : JobSnapshot) : bool :=
  is_terminal (state j) && is_older_than now (updated_at_mono j) ttl.

Definition protected_children (jobs : gmap JobId JobSnapshot) (now ttl : Z) : gset JobId :=
  list_to_set
    (mjoin (child_job_ids <$>
       List.filter (fun j => negb (expired now ttl j))
         (List.filter is_parent (map_to_list jobs).*2))).

Definition filter_job_ids (jobs : gmap JobId JobSnapshot)
    (predicate : gmap JobId JobSnapshot → JobId → JobSnapshot → bool) : list JobId :=
  (List.filter (fun p => predicate jobs p.1 p.2) (map_to_list jobs)).*1.

Definition removable (jobs : gmap JobId JobSnapshot) (j : JobSnapshot) : bool :=
  negb (is_parent j)
  || negb (existsb (fun c => bool_decide (is_Some (jobs !! c))) (child_job_ids j)).

Definition warn_sweep (jobs : gmap JobId JobSnapshot) (now : Z) : gmap JobId JobSnapshot :=
  (fun j => if is_terminal (state j) then warn_if_monotonic_timestamp_in_future j now
            else j) <$> jobs.

Definition expired_ids (jobs : gmap JobId JobSnapshot) (now ttl : Z) : list JobId :=
  let protected := protected_children jobs now ttl in
  filter_job_ids jobs
    (fun jobs id j =>
       expired now ttl j && bool_decide (id ∉ protected) && removable jobs j).

Definition cleanup_expired (s : JobStore) (now ttl : Z) : JobStore :=
  let s1 := with_by_id s (warn_sweep (by_id s) now) in
  foldl (fun s id => fst (remove s id)) s1 (expired_ids (by_id s1) now ttl).

(** *** The consistency check of the tests *)

Definition expected_active (jobs : list JobSnapshot)
    : gmap string (gmap string (gset JobId)) :=
  foldl (fun m j => index_insert m (rack_id j) (node_id j) (job_id j)) ∅
    (List.filter should_index jobs).

Definition expected_scopes (owners : list (JobId * gset JobScope)) : gmap JobScope JobId :=
  foldl (fun m p => foldl (fun m sc => <[sc := p.1]> m) m (elements p.2)) ∅ owners.

Definition assert_consistent (s : JobStore) : bool :=
  bool_decide (active_by_node s = expected_active (snapshots s))
  && forallb (fun p => match by_id s !! p.1 with
                       | Some j => negb (is_terminal (state j))
                       | None => true
                       end) (map_to_list (scopes_by_owner s))
  && bool_decide (active_by_scope s = expected_scopes (map_to_list (scopes_by_owner s))).

End Store.
