(* ===== verification/JobStoreProofs.v ===== *)
(** * The job store: invariant and lemmas

    The well-formedness invariant of [JobStore] (the indexes agree exactly with
    the records, aliases have one live owner, the parent/child links are
    consistent) and its preservation by every operation of [store.rs]. *)

From S2P Require Import Prelude JobTypes JobStore.
Import Store.
Local Open Scope string_scope.
Local Open Scope list_scope.

Abbreviation jobmap := (gmap JobId JobSnapshot) (only parsing).
Abbreviation nodeindex := (gmap string (gmap string (gset JobId))) (only parsing).

(** ** The active-node index as a map of sets *)

(** No empty bucket, at either level. *)
Definition pruned (m : nodeindex) : Prop :=
  ∀ r nodes, m !! r = Some nodes →
    nodes ≠ ∅ ∧ ∀ n jobs, nodes !! n = Some jobs → jobs ≠ ∅.

Section node_index.
Implicit Types (m : nodeindex) (r n : string) (id : JobId).

Lemma active_jobs_insert m r n id r' n' :
  active_jobs (index_insert m r n id) r' n' =
    (if decide (r = r' ∧ n = n') then {[id]} ∪ active_jobs m r n
     else active_jobs m r' n').
Proof.
  unfold active_jobs, index_insert.
  destruct (decide (r = r' ∧ n = n')) as [[-> ->]|Hne].
  - by rewrite !lookup_insert_eq; simpl; rewrite lookup_insert_eq.
  - destruct (decide (r = r')) as [->|]; [|by rewrite lookup_insert_ne].
    rewrite lookup_insert_eq. simpl. rewrite lookup_insert_ne by naive_solver. done.
Qed.

Lemma pruned_insert m r n id : pruned m → pruned (index_insert m r n id).
Proof.
  intros Hp r' nodes. unfold index_insert.
  destruct (decide (r = r')) as [->|]; simplify_map_eq; [|by apply Hp].
  intros ?; simplify_eq. split; [apply insert_non_empty|].
  intros n' jobs. destruct (decide (n = n')) as [->|]; simplify_map_eq.
  - intros ?; simplify_eq. set_solver.
  - destruct (m !! r') as [nodes'|] eqn:E; simpl; [|by rewrite lookup_empty].
    by apply (Hp _ _ E).
Qed.

Lemma active_jobs_remove m r n id r' n' :
  active_jobs (remove_active_job m r n id) r' n' =
    (if decide (r = r' ∧ n = n') then active_jobs m r n ∖ {[id]}
     else active_jobs m r' n').
Proof.
  unfold active_jobs, remove_active_job.
  destruct (m !! r) as [nodes|] eqn:Er; simpl.
  2:{ case_decide as H; [destruct H as [<- <-]|done]. rewrite Er. simpl.
      rewrite lookup_empty. simpl. set_solver. }
  destruct (nodes !! n) as [jobs|] eqn:En; simpl.
  2:{ case_decide as H; [destruct H as [<- <-]|done]. rewrite Er. simpl.
      rewrite En. simpl. set_solver. }
  destruct (decide (r = r')) as [<-|Hr].
  2:{ rewrite (decide_False (P := r = r' ∧ n = n')) by naive_solver.
      repeat case_bool_decide; by rewrite ?lookup_insert_ne, ?lookup_delete_ne. }
  rewrite Er. simpl.
  destruct (decide (n = n')) as [<-|Hn].
  - rewrite decide_True by done.
    case_bool_decide as Hj; [|rewrite Hj; case_bool_decide as Hd].
    + by rewrite lookup_insert_eq; simpl; rewrite lookup_insert_eq.
    + by rewrite lookup_delete_eq; simpl; rewrite lookup_empty.
    + by rewrite lookup_insert_eq; simpl; rewrite lookup_delete_eq.
  - rewrite (decide_False (P := r = r ∧ n = n')) by naive_solver.
    case_bool_decide as Hj; [|case_bool_decide as Hd].
    + by rewrite lookup_insert_eq; simpl; rewrite lookup_insert_ne.
    + rewrite lookup_delete_eq. simpl. rewrite lookup_empty.
      assert (delete n nodes !! n' = None) as Hdn by (by rewrite Hd, lookup_empty).
      rewrite lookup_delete_ne in Hdn by done. by rewrite Hdn.
    + by rewrite lookup_insert_eq; simpl; rewrite lookup_delete_ne.
Qed.

Lemma pruned_remove m r n id : pruned m → pruned (remove_active_job m r n id).
Proof.
  intros Hp. unfold remove_active_job.
  destruct (m !! r) as [nodes|] eqn:Er; [|done].
  destruct (nodes !! n) as [jobs|] eqn:En; [|done].
  destruct (Hp _ _ Er) as [_ Hne].
  case_bool_decide as Hj; [|case_bool_decide as Hn]; intros r' nodes'.
  - rewrite lookup_insert. case_decide as Hr; [|by apply Hp].
    intros [= <-]. split; [apply insert_non_empty|].
    intros n' jobs'. rewrite lookup_insert. case_decide; [by intros [= <-]|apply Hne].
  - rewrite lookup_delete. case_decide as Hr; [done|by apply Hp].
  - rewrite lookup_insert. case_decide as Hr; [|by apply Hp].
    intros [= <-]. split; [done|].
    intros n' jobs'. rewrite lookup_delete. case_decide; [done|apply Hne].
Qed.

(** Two pruned indexes with the same sets are equal. *)
Lemma pruned_eq m1 m2 :
  pruned m1 → pruned m2 →
  (∀ r n, active_jobs m1 r n = active_jobs m2 r n) → m1 = m2.
Proof.
  assert (∀ m r nodes, pruned m → m !! r = Some nodes →
            ∃ n id, id ∈ active_jobs m r n) as Hwit.
  { intros m r nodes Hp Hr. destruct (Hp _ _ Hr) as [Hne Hjobs].
    apply map_choose in Hne as (n & jobs & Hn).
    destruct (set_choose_L jobs) as [id Hid]; [by eapply Hjobs|].
    exists n, id. unfold active_jobs. by rewrite Hr; simpl; rewrite Hn. }
  assert (∀ m r nodes n jobs, pruned m → m !! r = Some nodes → nodes !! n = Some jobs →
            ∃ id, id ∈ jobs) as Hwit2.
  { intros m r nodes n jobs Hp Hr Hn. destruct (Hp _ _ Hr) as [_ Hjobs].
    apply set_choose_L. by eapply Hjobs. }
  intros H1 H2 Heq. apply map_eq. intros r.
  destruct (m1 !! r) as [n1|] eqn:E1, (m2 !! r) as [n2|] eqn:E2.
  - f_equal. apply map_eq. intros n. specialize (Heq r n).
    unfold active_jobs in Heq. rewrite E1, E2 in Heq. simpl in Heq.
    destruct (n1 !! n) as [j1|] eqn:F1, (n2 !! n) as [j2|] eqn:F2; simpl in Heq.
    + by rewrite Heq.
    + destruct (Hwit2 _ _ _ _ _ H1 E1 F1) as [id Hid]. set_solver.
    + destruct (Hwit2 _ _ _ _ _ H2 E2 F2) as [id Hid]. set_solver.
    + done.
  - destruct (Hwit _ _ _ H1 E1) as (n & id & Hid). rewrite Heq in Hid.
    unfold active_jobs in Hid. rewrite E2 in Hid. simpl in Hid.
    rewrite lookup_empty in Hid. set_solver.
  - destruct (Hwit _ _ _ H2 E2) as (n & id & Hid). rewrite <- Heq in Hid.
    unfold active_jobs in Hid. rewrite E1 in Hid. simpl in Hid.
    rewrite lookup_empty in Hid. set_solver.
  - done.
Qed.
End node_index.

(** ** The alias indexes *)

Lemma lookup_foldr_insert (S : gset JobScope) (o : JobId) (m : gmap JobScope JobId) sc :
  foldr (fun scope m => <[scope := o]> m) m (elements S) !! sc =
    (if decide (sc ∈ S) then Some o else m !! sc).
Proof.
  destruct (decide (sc ∈ S)) as [Hin|Hin].
  - apply elem_of_elements in Hin. induction Hin as [l|y l Hin IH]; simpl.
    + by rewrite lookup_insert_eq.
    + rewrite lookup_insert. by case_decide.
  - rewrite <- elem_of_elements in Hin. induction (elements S) as [|y l IH]; simpl; [done|].
    rewrite not_elem_of_cons in Hin. destruct Hin. rewrite lookup_insert_ne by done. auto.
Qed.

Lemma lookup_foldr_delete (S : gset JobScope) (m : gmap JobScope JobId) sc :
  foldr (fun scope m => delete scope m) m (elements S) !! sc =
    (if decide (sc ∈ S) then None else m !! sc).
Proof.
  destruct (decide (sc ∈ S)) as [Hin|Hin].
  - apply elem_of_elements in Hin. induction Hin as [l|y l Hin IH]; simpl.
    + by rewrite lookup_delete_eq.
    + rewrite lookup_delete. by case_decide.
  - rewrite <- elem_of_elements in Hin. induction (elements S) as [|y l IH]; simpl; [done|].
    rewrite not_elem_of_cons in Hin. destruct Hin. rewrite lookup_delete_ne by done. auto.
Qed.

Section alias_frames.
Implicit Types (s : JobStore).

Lemma release_scopes_by_id s o : by_id (release_scopes s o) = by_id s.
Proof. unfold release_scopes. by destruct (_ !! o). Qed.

Lemma release_scopes_active s o : active_by_node (release_scopes s o) = active_by_node s.
Proof. unfold release_scopes. by destruct (_ !! o). Qed.

Lemma reserve_scopes_by_id s o l : by_id (reserve_scopes s o l) = by_id s.
Proof. unfold reserve_scopes. by case_bool_decide. Qed.

Lemma reserve_scopes_active s o l : active_by_node (reserve_scopes s o l) = active_by_node s.
Proof. unfold reserve_scopes. by case_bool_decide. Qed.

(** What a reservation does to the forward alias index. *)
Lemma reserve_scopes_lookup s o l sc :
  active_by_scope (reserve_scopes s o l) !! sc =
    (if decide (sc ∈ l) then Some o else active_by_scope s !! sc).
Proof.
  unfold reserve_scopes. case_bool_decide as He; simpl.
  - rewrite decide_False; [done|]. intros Hin.
    assert (sc ∈@{gset JobScope} list_to_set l) as Hl by by apply elem_of_list_to_set.
    rewrite He in Hl. set_solver.
  - rewrite lookup_foldr_insert. apply decide_ext. apply elem_of_list_to_set.
Qed.

Lemma reserve_scopes_owner s o l o' :
  scopes_by_owner (reserve_scopes s o l) !! o' =
    (if decide (o = o' ∧ l ≠ []) then
       Some (default ∅ (scopes_by_owner s !! o) ∪ list_to_set l)
     else scopes_by_owner s !! o').
Proof.
  unfold reserve_scopes. case_bool_decide as He; simpl.
  - rewrite decide_False; [done|]. intros [_ Hl].
    destruct l as [|sc l]; [done|]. set_solver.
  - assert (l ≠ []) by (intros ->; by apply He).
    destruct (decide (o = o')) as [->|].
    + by rewrite decide_True, lookup_insert_eq.
    + rewrite decide_False by naive_solver. by rewrite lookup_insert_ne.
Qed.
End alias_frames.

(** ** The invariant *)

(** The indexes agree with the records. *)
Record index_inv (s : JobStore) : Prop := {
  inv_id : ∀ id j, by_id s !! id = Some j → job_id j = id;
  inv_active : ∀ r n id,
    id ∈ active_jobs (active_by_node s) r n ↔
      ∃ j, by_id s !! id = Some j ∧ rack_id j = r ∧ node_id j = n ∧ should_index j = true;
  inv_pruned : pruned (active_by_node s);
  inv_scope : ∀ sc o,
    active_by_scope s !! sc = Some o ↔ ∃ S, scopes_by_owner s !! o = Some S ∧ sc ∈ S;
  inv_scope_nonempty : ∀ o S, scopes_by_owner s !! o = Some S → S ≠ ∅;
  inv_scope_live : ∀ o S j,
    scopes_by_owner s !! o = Some S → by_id s !! o = Some j → is_terminal (state j) = false;
}.

(** Parents and children agree: a child is a leaf listed by a tracked
    top-level parent, and a live parent's children are all tracked. *)
Record family_inv (m : jobmap) : Prop := {
  inv_parent : ∀ id j p,
    m !! id = Some j → parent_job_id j = Some p →
      child_job_ids j = [] ∧
      ∃ pj, m !! p = Some pj ∧ id ∈ child_job_ids pj ∧ parent_job_id pj = None;
  inv_children : ∀ p pj c,
    m !! p = Some pj → is_terminal (state pj) = false → c ∈ child_job_ids pj →
      ∃ cj, m !! c = Some cj ∧ parent_job_id cj = Some p;
}.

Definition store_inv (s : JobStore) : Prop := index_inv s ∧ family_inv (by_id s).

Lemma empty_store_inv : store_inv empty_store.
Proof.
  split; split; unfold empty_store, pruned, active_jobs; simpl.
  all: try (intros *; rewrite lookup_empty; done).
  - intros r n id. rewrite lookup_empty. simpl. rewrite lookup_empty. simpl.
    split; [set_solver|]. intros (j & Hj & _). by apply lookup_empty_Some in Hj.
  - intros sc o. rewrite lookup_empty. split; [done|].
    intros (S & HS & _). by apply lookup_empty_Some in HS.
Qed.

(** *** Aliases *)

Lemma reserve_scopes_inv s o l :
  index_inv s →
  (∀ sc, sc ∈ l → active_by_scope s !! sc = None ∨ active_by_scope s !! sc = Some o) →
  (∀ j, by_id s !! o = Some j → is_terminal (state j) = false) →
  index_inv (reserve_scopes s o l).
Proof.
  intros [Hid Hact Hpr Hsc Hne Hlive] Hfree Ho.
  split; rewrite ?reserve_scopes_by_id, ?reserve_scopes_active; try done.
  - intros sc o'. rewrite reserve_scopes_lookup, reserve_scopes_owner.
    destruct (decide (sc ∈ l)) as [Hin|Hin].
    + assert (l ≠ []) as Hl by (intros ->; by apply not_elem_of_nil in Hin).
      split.
      * intros [= <-]. rewrite decide_True by done. eexists. split; [done|]. set_solver.
      * intros (S & HS & HscS). destruct (decide (o = o')) as [->|Hoo]; [done|].
        rewrite decide_False in HS by naive_solver.
        assert (active_by_scope s !! sc = Some o') as Hs by (apply Hsc; eauto).
        destruct (Hfree _ Hin); congruence.
    + rewrite Hsc. case_decide as Hd; [|done]. destruct Hd as [<- Hl]. split.
      * intros (S & HS & HscS). eexists. split; [done|]. rewrite HS. set_solver.
      * intros (S & [= <-] & HscS). apply elem_of_union in HscS as [HscS|HscS]; [|set_solver].
        destruct (scopes_by_owner s !! o) as [S|]; [|set_solver]. eauto.
  - intros o' S. rewrite reserve_scopes_owner. case_decide as Hd; [|by apply Hne].
    destruct Hd as [<- Hl]. intros [= <-]. destruct l; [done|]. set_solver.
  - intros o' S j. rewrite reserve_scopes_owner. case_decide as Hd; [|by apply Hlive].
    destruct Hd as [<- Hl]. intros _. apply Ho.
Qed.

Lemma release_scopes_owner s o o' :
  scopes_by_owner (release_scopes s o) !! o' =
    (if decide (o = o') then None else scopes_by_owner s !! o').
Proof.
  unfold release_scopes. destruct (scopes_by_owner s !! o) eqn:E; simpl.
  - by rewrite lookup_delete.
  - by case_decide; subst.
Qed.

(** Releasing an owner frees exactly the aliases it holds. *)
Lemma release_scopes_lookup s o sc :
  index_inv s →
  active_by_scope (release_scopes s o) !! sc =
    (if decide (active_by_scope s !! sc = Some o) then None else active_by_scope s !! sc).
Proof.
  intros Hinv. pose proof (inv_scope _ Hinv sc o) as Hsc. unfold release_scopes.
  destruct (scopes_by_owner s !! o) as [S|] eqn:E; simpl.
  - rewrite lookup_foldr_delete. apply decide_ext. rewrite Hsc. naive_solver.
  - rewrite decide_False; [done|]. naive_solver.
Qed.

Lemma release_scopes_inv s o : index_inv s → index_inv (release_scopes s o).
Proof.
  intros Hinv. pose proof Hinv as [Hid Hact Hpr Hsc Hne Hlive].
  split; rewrite ?release_scopes_by_id, ?release_scopes_active; try done.
  - intros sc o'. rewrite release_scopes_lookup, release_scopes_owner by done.
    destruct (decide (o = o')) as [<-|Ho].
    + split; [|naive_solver]. by case_decide.
    + rewrite <- Hsc. case_decide; [|done]. naive_solver.
  - intros o' S. rewrite release_scopes_owner. case_decide; [done|apply Hne].
  - intros o' S j. rewrite release_scopes_owner. case_decide; [done|apply Hlive].
Qed.

(** A release for an ID that owns nothing changes nothing. *)
Lemma release_scopes_id s o : scopes_by_owner s !! o = None → release_scopes s o = s.
Proof. unfold release_scopes. by intros ->. Qed.

(** *** State transitions *)

(** The active-node index that [transition_state] leaves behind. *)
Definition reindex (m : nodeindex) (old record : JobSnapshot) : nodeindex :=
  if Bool.eqb (should_index old) (should_index record) then m
  else if should_index record
       then index_insert m (rack_id record) (node_id record) (job_id record)
       else remove_active_job m (rack_id record) (node_id record) (job_id record).

Lemma reindex_pruned m old record : pruned m → pruned (reindex m old record).
Proof.
  intros. unfold reindex. repeat case_match; auto using pruned_insert, pruned_remove.
Qed.

Lemma reindex_active s id old record r n id' :
  index_inv s → by_id s !! id = Some old →
  job_id record = id → rack_id record = rack_id old → node_id record = node_id old →
  id' ∈ active_jobs (reindex (active_by_node s) old record) r n ↔
    ∃ j, <[id := record]> (by_id s) !! id' = Some j ∧ rack_id j = r ∧ node_id j = n
         ∧ should_index j = true.
Proof.
  intros Hinv Hold Hid Hr Hn. pose proof (inv_active _ Hinv r n id') as Hact.
  assert (id' ∈ active_jobs (reindex (active_by_node s) old record) r n ↔
    (id' ≠ id ∧ id' ∈ active_jobs (active_by_node s) r n) ∨
    (id' = id ∧ rack_id record = r ∧ node_id record = n ∧ should_index record = true)) as ->.
  { assert (id ∈ active_jobs (active_by_node s) r n ↔
            rack_id record = r ∧ node_id record = n ∧ should_index old = true) as Hself.
    { rewrite (inv_active _ Hinv), Hold, Hr, Hn. naive_solver. }
    unfold reindex. rewrite Hid.
    destruct (should_index old) eqn:Eo, (should_index record) eqn:En; simpl;
      rewrite ?active_jobs_insert, ?active_jobs_remove; try case_decide as Hd;
      try (destruct Hd as [<- <-]); set_unfold; destruct (decide (id' = id)) as [->|];
      naive_solver. }
  rewrite Hact. destruct (decide (id' = id)) as [->|Hne].
  - rewrite lookup_insert_eq. naive_solver.
  - rewrite lookup_insert_ne by done. naive_solver.
Qed.

(** [transition_state] in one equation. *)
Lemma transition_state_eq s id now f :
  transition_state s id now f =
    match by_id s !! id with
    | None => (s, (false, None))
    | Some old =>
        match f (state old) with
        | None => (s, (false, None))
        | Some next =>
            let record := touch (set_state old next) now in
            let event := classify (is_queued (state old)) (is_running (state old))
                           (is_terminal (state old)) record in
            let s2 := if is_terminal_event event then release_scopes s id else s in
            (mkJobStore (<[id := record]> (by_id s))
               (reindex (active_by_node s) old record)
               (active_by_scope s2) (scopes_by_owner s2), (true, event))
        end
    end.
Proof.
  unfold transition_state, reindex. destruct (by_id s !! id) as [old|]; [|done].
  destruct (f (state old)) as [next|]; [|done]. simpl. f_equal.
  assert (∀ s' m, release_scopes (with_by_id s' m) id = with_by_id (release_scopes s' id) m) as Hr.
  { intros. unfold release_scopes. simpl. by destruct (_ !! id). }
  unfold with_active. destruct (is_terminal_event _).
  - rewrite Hr. repeat case_match; simpl; unfold with_by_id;
      rewrite ?release_scopes_active; done.
  - by repeat case_match.
Qed.

Lemma classify_terminal old next now :
  is_terminal (state old) = false → is_terminal next = true →
  is_terminal_event (classify (is_queued (state old)) (is_running (state old))
    (is_terminal (state old)) (touch (set_state old next) now)) = true.
Proof. intros H1 H2. unfold classify. simpl. rewrite H1, H2. by destruct next, (state old). Qed.

Lemma transition_index_inv s id now f :
  index_inv s → index_inv (transition_state s id now f).1.
Proof.
  intros Hinv. rewrite transition_state_eq.
  destruct (by_id s !! id) as [old|] eqn:Hold; [|done].
  destruct (f (state old)) as [next|] eqn:Hf; [|done]. simpl.
  set (record := touch (set_state old next) now).
  set (ev := is_terminal_event _).
  set (s2 := if ev then release_scopes s id else s).
  assert (index_inv s2) as Hinv2 by (unfold s2; destruct ev; auto using release_scopes_inv).
  assert (by_id s2 = by_id s) as Hby by (unfold s2; destruct ev; auto using release_scopes_by_id).
  pose proof (inv_id _ Hinv _ _ Hold) as Hidold.
  split; simpl.
  - intros id' j. rewrite lookup_insert. case_decide as Hd; [|apply Hinv].
    intros [= <-]. simpl. congruence.
  - intros r n id'. by apply reindex_active.
  - apply reindex_pruned, Hinv.
  - apply Hinv2.
  - apply Hinv2.
  - intros o S j HS. rewrite lookup_insert. case_decide as Hd.
    + subst o. intros [= <-]. simpl. destruct (is_terminal next) eqn:En; [|done].
      exfalso. destruct (is_terminal (state old)) eqn:Eo.
      * assert (is_terminal (state old) = false); [|congruence].
        eapply (inv_scope_live _ Hinv2); [done|by rewrite Hby].
      * assert (ev = true) as Hev.
        { unfold ev. rewrite <- Eo. by apply classify_terminal. }
        unfold s2 in HS. rewrite Hev, release_scopes_owner, decide_True in HS by done. done.
    + intros Hj. eapply (inv_scope_live _ Hinv2); [done|by rewrite Hby].
Qed.

(** Transitions that keep terminal states terminal preserve the links. *)
Lemma transition_family_inv s id now f :
  (∀ st next, f st = Some next → is_terminal st = true → is_terminal next = true) →
  family_inv (by_id s) → family_inv (by_id (transition_state s id now f).1).
Proof.
  intros Hf [Hp Hc]. rewrite transition_state_eq.
  destruct (by_id s !! id) as [old|] eqn:Hold; [|done].
  destruct (f (state old)) as [next|] eqn:Hfs; [|done]. simpl.
  split.
  - intros id' j p. rewrite lookup_insert. case_decide as Hd.
    + subst id'. intros [= <-]. simpl. intros Hpar.
      destruct (Hp _ _ _ Hold Hpar) as (Hnil & pj & Hpj & Hin & Hnone).
      split; [done|]. rewrite lookup_insert. case_decide; simplify_eq; eauto.
    + intros Hj Hpar. destruct (Hp _ _ _ Hj Hpar) as (Hnil & pj & Hpj & Hin & Hnone).
      split; [done|]. rewrite lookup_insert. case_decide; simplify_eq; eauto.
  - intros p pj c. rewrite lookup_insert. case_decide as Hd.
    + subst p. intros [= <-]. simpl. intros Hnt Hin.
      assert (is_terminal (state old) = false) as Ho.
      { destruct (is_terminal (state old)) eqn:E; [|done]. by rewrite (Hf _ _ Hfs E) in Hnt. }
      destruct (Hc _ _ _ Hold Ho Hin) as (cj & Hcj & Hpar).
      rewrite lookup_insert. case_decide; simplify_eq; eauto.
    + intros Hpj Hnt Hin. destruct (Hc _ _ _ Hpj Hnt Hin) as (cj & Hcj & Hpar).
      rewrite lookup_insert. case_decide; simplify_eq; eauto.
Qed.

(** *** Insertion *)

Section insertion.
Implicit Types (s : JobStore) (ids : nat → JobId).

Lemma vacant_id_spec fuel s ids k id id' :
  vacant_id fuel s ids k id = Some id' →
  by_id s !! id' = None ∧ scopes_by_owner s !! id' = None.
Proof.
  revert k id. induction fuel as [|fuel IH]; intros k id; simpl; [done|].
  destruct (has_scope_owner s id) eqn:Ho; [apply IH|].
  destruct (by_id s !! id) eqn:Hid; [apply IH|]. intros [= <-]. split; [done|].
  unfold has_scope_owner in Ho. apply bool_decide_eq_false in Ho.
  by apply eq_None_not_Some.
Qed.

(** The IDs the loop looks at. *)
Fixpoint drawn (fuel : nat) ids (k : nat) (id : JobId) : list JobId :=
  match fuel with O => [] | S fuel' => id :: drawn fuel' ids (S k) (ids k) end.

Lemma drawn_length fuel ids k id : length (drawn fuel ids k id) = fuel.
Proof. revert k id. induction fuel; simpl; auto. Qed.

Lemma vacant_id_None fuel s ids k id :
  vacant_id fuel s ids k id = None →
  ∀ x, x ∈ drawn fuel ids k id → x ∈ dom (by_id s) ∪ dom (scopes_by_owner s).
Proof.
  revert k id. induction fuel as [|fuel IH]; intros k id; simpl.
  - intros _ x Hx. by apply not_elem_of_nil in Hx.
  - intros Hv x [->|Hx]%elem_of_cons.
    + unfold has_scope_owner in Hv. case_bool_decide as Ho.
      * apply elem_of_union_r. by apply elem_of_dom.
      * destruct (by_id s !! id) eqn:Hid; [|done]. apply elem_of_union_l. apply elem_of_dom. eauto.
    + destruct (has_scope_owner s id); [by eapply IH|].
      destruct (by_id s !! id); [by eapply IH|done].
Qed.

Lemma vacant_id_terminates s ids k id :
  NoDup (drawn (id_fuel s) ids k id) → is_Some (vacant_id (id_fuel s) s ids k id).
Proof.
  intros Hnd. destruct (vacant_id _ _ _ _ _) eqn:Hv; [eauto|exfalso].
  pose proof (vacant_id_None _ _ _ _ _ Hv) as Hin.
  assert (size (list_to_set (drawn (id_fuel s) ids k id) : gset JobId)
          ≤ size (dom (by_id s) ∪ dom (scopes_by_owner s) : gset JobId))%nat as Hle.
  { apply subseteq_size. intros x Hx. apply elem_of_list_to_set in Hx. by apply Hin. }
  rewrite size_list_to_set, drawn_length in Hle by done.
  assert (size (dom (by_id s) ∪ dom (scopes_by_owner s) : gset JobId)
          ≤ size (by_id s) + size (scopes_by_owner s))%nat as Hu.
  { rewrite size_union_alt, !size_dom.
    pose proof (subseteq_size (dom (scopes_by_owner s) ∖ dom (by_id s))
                  (dom (scopes_by_owner s) : gset JobId) ltac:(set_solver)) as Hd.
    rewrite size_dom in Hd. lia. }
  unfold id_fuel in Hle. lia.
Qed.

(** What a successful insertion did. *)
Lemma insert_spec s record ids s' r :
  Store.insert s record ids = Some (s', r) →
  r = set_job_id record (job_id r) ∧
  by_id s !! job_id r = None ∧ scopes_by_owner s !! job_id r = None ∧
  by_id s' = <[job_id r := r]> (by_id s) ∧
  active_by_node s' =
    (if should_index record
     then index_insert (active_by_node s) (rack_id record) (node_id record) (job_id r)
     else active_by_node s) ∧
  active_by_scope s' = active_by_scope s ∧ scopes_by_owner s' = scopes_by_owner s.
Proof.
  unfold Store.insert, insert_with_id_generator.
  destruct (vacant_id _ _ _ _ _) as [id|] eqn:Hv; [|done]. intros [= <- <-]. simpl.
  apply vacant_id_spec in Hv as [Hv Ho]. split_and!; try done.
  all: change (should_index (set_job_id record id)) with (should_index record);
    destruct (should_index record); done.
Qed.

Lemma insert_index_inv s record ids s' r :
  index_inv s → Store.insert s record ids = Some (s', r) → index_inv s'.
Proof.
  intros Hinv (Hr & Hv & Ho & Hby & Hact & Hsc & Hown)%insert_spec.
  assert (rack_id r = rack_id record ∧ node_id r = node_id record ∧
          should_index r = should_index record) as (Hrr & Hrn & Hri)
    by (rewrite Hr; done).
  clear Hr. split; rewrite ?Hby, ?Hact, ?Hsc, ?Hown.
  - intros id j. rewrite lookup_insert. case_decide; [naive_solver|apply Hinv].
  - intros rk n id. pose proof (inv_active _ Hinv rk n) as Ha.
    assert (job_id r ∉ active_jobs (active_by_node s) rk n) as Hnot
      by (rewrite Ha, Hv; naive_solver).
    rewrite lookup_insert. destruct (decide (job_id r = id)) as [<-|Hne].
    + transitivity (rack_id r = rk ∧ node_id r = n ∧ should_index r = true); [|naive_solver].
      rewrite Hrr, Hrn, Hri. destruct (should_index record); rewrite ?active_jobs_insert;
        try case_decide as Hd; clear Ha; set_unfold; naive_solver.
    + rewrite <- Ha. clear Ha. destruct (should_index record); rewrite ?active_jobs_insert;
        try case_decide as Hd; [destruct Hd as [<- <-]|..]; set_unfold; naive_solver.
  - destruct (should_index record); auto using pruned_insert, inv_pruned.
  - apply Hinv.
  - apply Hinv.
  - intros o S j HS. rewrite lookup_insert. case_decide; [naive_solver|].
    by apply (inv_scope_live _ Hinv) with (S := S).
Qed.
End insertion.

(** *** Replacing a record without touching what the indexes depend on *)

Lemma replace_index_inv s id old record :
  index_inv s → by_id s !! id = Some old →
  job_id record = id → rack_id record = rack_id old → node_id record = node_id old →
  is_terminal (state record) = is_terminal (state old) →
  index_inv (with_by_id s (<[id := record]> (by_id s))).
Proof.
  intros Hinv Hold Hid Hr Hn Ht.
  assert (should_index record = should_index old) as Hsi
    by (unfold should_index; by rewrite Hn, Ht).
  split; simpl; try apply Hinv.
  - intros id' j. rewrite lookup_insert. case_decide; [naive_solver|apply Hinv].
  - intros r n id'. rewrite <- (reindex_active s id old record) by done.
    unfold reindex. by rewrite Hsi, eqb_reflx.
  - intros o S j HS. rewrite lookup_insert. case_decide as Hd; [|by eapply Hinv].
    intros [= <-]. rewrite Ht. subst. by eapply Hinv.
Qed.

(** *** Children *)

Lemma can_accept_child_spec s p :
  can_accept_child s p = true ↔
    ∃ pj, by_id s !! p = Some pj ∧ is_terminal (state pj) = false ∧ parent_job_id pj = None.
Proof.
  unfold can_accept_child. destruct (by_id s !! p) as [pj|]; [|naive_solver].
  rewrite andb_true_iff, negb_true_iff, bool_decide_eq_true. naive_solver.
Qed.

(** [attach_child] succeeds exactly on a parent that accepts children. *)
Lemma attach_child_spec s child now p pj :
  parent_job_id child = Some p → by_id s !! p = Some pj →
  is_terminal (state pj) = false → parent_job_id pj = None →
  attach_child s child now =
    (with_by_id s (<[p := touch (push_child pj (job_id child)) now]> (by_id s)), true).
Proof.
  intros Hp Hpj Ht Hn. unfold attach_child. by rewrite Hp, Hpj, Ht, Hn.
Qed.

Lemma attach_child_index_inv s child now :
  index_inv s → index_inv (attach_child s child now).1.
Proof.
  intros Hinv. unfold attach_child.
  destruct (parent_job_id child) as [p|]; [|done].
  destruct (by_id s !! p) as [pj|] eqn:Hpj; [|done].
  destruct (_ || _); [done|]. simpl.
  apply (replace_index_inv s p pj); try done. simpl. by apply (inv_id _ Hinv).
Qed.

(** A new top-level leaf at a vacant ID. *)
Lemma insert_family_inv m id r :
  family_inv m → m !! id = None → child_job_ids r = [] → parent_job_id r = None →
  family_inv (<[id := r]> m).
Proof.
  intros [Hp Hc] Hv Hnil Hpar. split.
  - intros id' j p. rewrite lookup_insert. case_decide as Hd; [naive_solver|].
    intros Hj Hjp. destruct (Hp _ _ _ Hj Hjp) as (? & pj & Hpj & Hin & Hnone).
    split; [done|]. rewrite lookup_insert. case_decide; naive_solver.
  - intros p pj c. rewrite lookup_insert. case_decide as Hd.
    { intros [= <-] _. rewrite Hnil. by intros ?%not_elem_of_nil. }
    intros Hpj Ht Hin. destruct (Hc _ _ _ Hpj Ht Hin) as (cj & Hcj & Hcp).
    rewrite lookup_insert. case_decide; naive_solver.
Qed.

(** A new leaf at a vacant ID, pushed onto a live top-level parent. *)
Lemma insert_child_family_inv m id r p pj now :
  family_inv m → m !! id = None → child_job_ids r = [] → parent_job_id r = Some p →
  m !! p = Some pj → is_terminal (state pj) = false → parent_job_id pj = None →
  family_inv (<[p := touch (push_child pj id) now]> (<[id := r]> m)).
Proof.
  intros [Hp Hc] Hv Hnil Hpar Hpj Ht Hnone.
  assert (p ≠ id) as Hpid by congruence.
  split.
  - intros id' j p'. rewrite lookup_insert. case_decide as Hd; [naive_solver|].
    rewrite lookup_insert. case_decide as Hd'.
    + intros [= <-]. rewrite Hpar. intros [= <-]. split; [done|].
      exists (touch (push_child pj id) now). rewrite lookup_insert_eq. simpl. set_solver.
    + intros Hj Hjp. destruct (Hp _ _ _ Hj Hjp) as (? & pj' & Hpj' & Hin & Hn').
      split; [done|]. rewrite lookup_insert. case_decide.
      * subst p'. simplify_eq. eexists. split; [done|]. simpl. set_solver.
      * rewrite lookup_insert_ne by congruence. eauto.
  - intros q qj c. rewrite lookup_insert. case_decide as Hd.
    + subst q. intros [= <-]. simpl. intros _ [Hin|Hin]%elem_of_app.
      * destruct (Hc _ _ _ Hpj Ht Hin) as (cj & Hcj & Hcp).
        rewrite !lookup_insert. repeat case_decide; naive_solver.
      * apply list_elem_of_singleton in Hin as ->.
        rewrite lookup_insert_ne, lookup_insert_eq by done. eauto.
    + rewrite lookup_insert. case_decide as Hd'.
      { intros [= <-] _. rewrite Hnil. by intros ?%not_elem_of_nil. }
      intros Hqj Hqt Hin. destruct (Hc _ _ _ Hqj Hqt Hin) as (cj & Hcj & Hcp).
      rewrite !lookup_insert. repeat case_decide; naive_solver.
Qed.

(** *** Removal *)

Lemma remove_by_id s id : by_id (Store.remove s id).1 = delete id (by_id s).
Proof.
  unfold Store.remove. destruct (by_id s !! id) as [j|] eqn:Hj; simpl.
  - by rewrite release_scopes_by_id.
  - by rewrite delete_id.
Qed.

Lemma remove_index_inv s id : index_inv s → index_inv (Store.remove s id).1.
Proof.
  intros Hinv. unfold Store.remove.
  destruct (by_id s !! id) as [j|] eqn:Hj; [|done]. simpl. apply release_scopes_inv.
  pose proof (inv_id _ Hinv _ _ Hj) as Hid.
  split; simpl; try apply Hinv.
  - intros id' j'. rewrite lookup_delete. case_decide; [done|apply Hinv].
  - intros r n id'. rewrite active_jobs_remove, lookup_delete.
    pose proof (inv_active _ Hinv r n id') as Ha.
    destruct (decide (id = id')) as [<-|Hne].
    + split; [|naive_solver]. case_decide as Hd; [set_solver|]. rewrite Ha. naive_solver.
    + rewrite <- Ha. rewrite Hid. case_decide as Hd; [|done].
      destruct Hd as [<- <-]. clear Ha. set_solver.
  - apply pruned_remove, Hinv.
  - intros o S j' HS. rewrite lookup_delete. case_decide; [done|]. by eapply Hinv.
Qed.

Lemma remove_family_inv m id :
  family_inv m →
  (∀ id' j, m !! id' = Some j → parent_job_id j ≠ Some id) →
  (∀ p pj, m !! p = Some pj → is_terminal (state pj) = false → id ∉ child_job_ids pj) →
  family_inv (delete id m).
Proof.
  intros [Hp Hc] Hnp Hnc. split.
  - intros id' j p. rewrite lookup_delete. case_decide; [done|]. intros Hj Hjp.
    destruct (Hp _ _ _ Hj Hjp) as (? & pj & Hpj & Hin & Hn). split; [done|].
    rewrite lookup_delete_ne by naive_solver. eauto.
  - intros p pj c. rewrite lookup_delete. case_decide; [done|]. intros Hpj Ht Hin.
    destruct (Hc _ _ _ Hpj Ht Hin) as (cj & Hcj & Hcp).
    rewrite lookup_delete_ne by naive_solver. eauto.
Qed.

Lemma is_parent_false j : is_parent j = false ↔ child_job_ids j = [].
Proof. unfold is_parent. by destruct (child_job_ids j). Qed.

Lemma is_parent_elem j c : c ∈ child_job_ids j → is_parent j = true.
Proof. unfold is_parent. destruct (child_job_ids j); set_solver. Qed.

Lemma remove_queued_leaf_spec s id :
  remove_queued_leaf s id =
    match by_id s !! id with
    | Some j =>
        if is_parent j || bool_decide (is_Some (parent_job_id j)) || negb (is_queued (state j))
        then (s, false) else ((Store.remove s id).1, true)
    | None => (s, false)
    end.
Proof.
  unfold remove_queued_leaf. destruct (by_id s !! id) as [j|] eqn:Hj; [|done].
  destruct (_ || _ || _); [done|]. unfold Store.remove. by rewrite Hj.
Qed.

Lemma remove_queued_leaf_inv s id : store_inv s → store_inv (remove_queued_leaf s id).1.
Proof.
  intros [Hi Hf]. rewrite remove_queued_leaf_spec.
  destruct (by_id s !! id) as [j|] eqn:Hj; [|done].
  destruct (_ || _) eqn:E; [done|]. reflect_bools. simpl.
  split; [by apply remove_index_inv|]. rewrite remove_by_id. apply remove_family_inv; [done|..].
  - intros id' j' Hj' Hp. destruct (inv_parent _ Hf _ _ _ Hj' Hp) as (_ & pj & Hpj & Hin & _).
    simplify_eq. apply is_parent_elem in Hin. congruence.
  - intros p pj Hpj Ht Hin. destruct (inv_children _ Hf _ _ _ Hpj Ht Hin) as (cj & Hcj & Hcp).
    simplify_eq. rewrite Hcp in *. naive_solver.
Qed.

(** *** Eviction *)

Section eviction.
Implicit Types (s : JobStore) (m : jobmap) (now ttl : Z).

Lemma foldl_remove_by_id l s id :
  by_id (foldl (fun s id => (Store.remove s id).1) s l) !! id =
    (if decide (id ∈ l) then None else by_id s !! id).
Proof.
  revert s. induction l as [|x l IH]; intros s; simpl; [done|].
  rewrite IH, remove_by_id, lookup_delete.
  destruct (decide (id ∈ l)) as [Hl|Hl].
  - rewrite decide_True by (by right). done.
  - case_decide as Hx.
    + subst. rewrite decide_True by left. done.
    + rewrite decide_False; [done|]. intros [->|?]%elem_of_cons; done.
Qed.

Lemma foldl_remove_index_inv l s :
  index_inv s → index_inv (foldl (fun s id => (Store.remove s id).1) s l).
Proof. revert s. induction l; intros s Hs; simpl; auto using remove_index_inv. Qed.

Lemma remove_scopes s id :
  scopes_by_owner s !! id = None →
  scopes_by_owner (Store.remove s id).1 = scopes_by_owner s ∧
  active_by_scope (Store.remove s id).1 = active_by_scope s.
Proof.
  intros Ho. unfold Store.remove. destruct (by_id s !! id) as [j|]; [|done]. simpl.
  by rewrite release_scopes_id.
Qed.

Lemma foldl_remove_scopes l s :
  (∀ id, id ∈ l → scopes_by_owner s !! id = None) →
  let s' := foldl (fun s id => (Store.remove s id).1) s l in
  scopes_by_owner s' = scopes_by_owner s ∧ active_by_scope s' = active_by_scope s.
Proof.
  revert s. induction l as [|x l IH]; intros s Ho; simpl; [done|].
  destruct (remove_scopes s x) as [E1 E2]; [apply Ho; left|].
  destruct (IH (Store.remove s x).1) as [F1 F2].
  - intros id Hid. rewrite E1. apply Ho. by right.
  - by rewrite F1, F2, E1, E2.
Qed.

(** The warning flag is all a sweep writes into a record it keeps. *)
Definition warned (now : Z) (j : JobSnapshot) : JobSnapshot :=
  if is_terminal (state j) then warn_if_monotonic_timestamp_in_future j now else j.

Lemma warned_fields now j :
  job_id (warned now j) = job_id j ∧ state (warned now j) = state j ∧
  rack_id (warned now j) = rack_id j ∧ node_id (warned now j) = node_id j ∧
  child_job_ids (warned now j) = child_job_ids j ∧
  parent_job_id (warned now j) = parent_job_id j ∧
  updated_at_mono (warned now j) = updated_at_mono j ∧
  workflow_type (warned now j) = workflow_type j ∧
  cancellation_token (warned now j) = cancellation_token j.
Proof.
  unfold warned, warn_if_monotonic_timestamp_in_future.
  repeat case_match; split_and!; reflexivity.
Qed.

Lemma warn_sweep_lookup m now id : warn_sweep m now !! id = warned now <$> m !! id.
Proof. unfold warn_sweep. apply lookup_fmap. Qed.

Lemma warned_expired now now' ttl j : expired now' ttl (warned now j) = expired now' ttl j.
Proof.
  destruct (warned_fields now j) as (_ & Hs & _ & _ & _ & _ & Hu & _).
  unfold expired. by rewrite Hs, Hu.
Qed.

Lemma warned_should_index now j : should_index (warned now j) = should_index j.
Proof.
  destruct (warned_fields now j) as (_ & Hs & _ & Hn & _).
  unfold should_index. by rewrite Hs, Hn.
Qed.

Lemma warn_index_inv s now : index_inv s → index_inv (with_by_id s (warn_sweep (by_id s) now)).
Proof.
  intros Hinv. split; simpl; try apply Hinv.
  - intros id j. rewrite warn_sweep_lookup. intros (j' & Hj' & ->)%fmap_Some.
    destruct (warned_fields now j') as [-> _]. by apply Hinv.
  - intros r n id. rewrite (inv_active _ Hinv), warn_sweep_lookup. split.
    + intros (j & Hj & <- & <- & Hsi). exists (warned now j). rewrite Hj, warned_should_index.
      destruct (warned_fields now j) as (_ & _ & -> & -> & _). done.
    + intros (j & (j' & Hj' & ->)%fmap_Some & Hr & Hn & Hsi). exists j'.
      rewrite warned_should_index in Hsi.
      destruct (warned_fields now j') as (_ & _ & Er & En & _). naive_solver.
  - intros o S j HS. rewrite warn_sweep_lookup. intros (j' & Hj' & ->)%fmap_Some.
    destruct (warned_fields now j') as (_ & -> & _). by eapply Hinv.
Qed.

Lemma elem_of_protected m now ttl c :
  c ∈ protected_children m now ttl ↔
    ∃ p pj, m !! p = Some pj ∧ c ∈ child_job_ids pj ∧ expired now ttl pj = false.
Proof.
  unfold protected_children. rewrite elem_of_list_to_set, list_elem_of_join. split.
  - intros (l & Hc & (pj & -> & Hpj)%list_elem_of_fmap).
    apply list_elem_of_In, List.filter_In in Hpj as [Hpj Hexp].
    apply List.filter_In in Hpj as [Hpj _].
    apply list_elem_of_In, list_elem_of_fmap in Hpj as ([p pj'] & Heq & Hin).
    simpl in Heq. subst pj'. apply elem_of_map_to_list in Hin.
    apply negb_true_iff in Hexp. eauto.
  - intros (p & pj & Hp & Hc & Hexp). exists (child_job_ids pj). split; [done|].
    apply list_elem_of_fmap. exists pj. split; [done|].
    apply list_elem_of_In, List.filter_In. split; [|by rewrite Hexp].
    apply List.filter_In. split; [|by eapply is_parent_elem].
    apply list_elem_of_In, list_elem_of_fmap. exists (p, pj). split; [done|].
    by apply elem_of_map_to_list.
Qed.

Lemma removable_spec m j :
  removable m j = true ↔ ∀ c, c ∈ child_job_ids j → m !! c = None.
Proof.
  unfold removable. rewrite orb_true_iff, !negb_true_iff, is_parent_false. split.
  - intros [->|Hex] c Hc; [by apply not_elem_of_nil in Hc|].
    destruct (m !! c) eqn:E; [|done]. exfalso.
    assert (existsb (fun c => bool_decide (is_Some (m !! c))) (child_job_ids j) = true);
      [|congruence].
    apply existsb_exists. exists c. split; [by apply list_elem_of_In|].
    apply bool_decide_eq_true. eauto.
  - intros H. right. apply not_true_iff_false. rewrite existsb_exists.
    intros (c & Hc%list_elem_of_In & Hs%bool_decide_eq_true). rewrite H in Hs by done.
    by destruct Hs.
Qed.

(** What one sweep evicts. *)
Definition evicted m now ttl (id : JobId) (j : JobSnapshot) : Prop :=
  expired now ttl j = true ∧
  (∀ p pj, m !! p = Some pj → id ∈ child_job_ids pj → expired now ttl pj = true) ∧
  (∀ c, c ∈ child_job_ids j → m !! c = None).

Lemma elem_of_expired_ids m now ttl id :
  id ∈ expired_ids m now ttl ↔ ∃ j, m !! id = Some j ∧ evicted m now ttl id j.
Proof.
  unfold expired_ids, filter_job_ids. rewrite list_elem_of_fmap. split.
  - intros ([id' j] & -> & Hin). simpl.
    apply list_elem_of_In, List.filter_In in Hin as [Hin%list_elem_of_In%elem_of_map_to_list Hp].
    simpl in Hp. reflect_bools. exists j. split; [done|]. split; [done|]. split.
    + intros p pj Hpj Hc. destruct (expired now ttl pj) eqn:E; [done|].
      exfalso. match goal with H : _ ∉ _ |- _ => apply H end.
      apply elem_of_protected. eauto.
    + by apply removable_spec.
  - intros (j & Hj & He & Hpar & Hch). exists (id, j). split; [done|].
    apply list_elem_of_In, List.filter_In. split; [by apply list_elem_of_In, elem_of_map_to_list|].
    simpl. rewrite He. simpl. apply andb_true_iff. split; [|by apply removable_spec].
    apply bool_decide_eq_true. rewrite elem_of_protected. intros (p & pj & Hpj & Hc & Hn).
    by rewrite (Hpar p pj) in Hn.
Qed.

Lemma evicted_warn m now ttl id j :
  evicted (warn_sweep m now) now ttl id (warned now j) ↔ evicted m now ttl id j.
Proof.
  unfold evicted. rewrite warned_expired.
  destruct (warned_fields now j) as (_ & _ & _ & _ & -> & _).
  apply and_iff_compat_l. f_equiv.
  - split; intros H p pj Hpj Hc.
    + rewrite <- (warned_expired now). eapply (H p); [by rewrite warn_sweep_lookup, Hpj|].
      by destruct (warned_fields now pj) as (_ & _ & _ & _ & -> & _).
    + rewrite warn_sweep_lookup in Hpj. apply fmap_Some in Hpj as (pj' & Hpj & ->).
      rewrite warned_expired. apply (H p); [done|].
      by destruct (warned_fields now pj') as (_ & _ & _ & _ & <- & _).
  - split; intros H c Hc; specialize (H c Hc); rewrite warn_sweep_lookup in *;
      by destruct (m !! c).
Qed.

(** A sweep keeps a record (with its warning flag) or evicts it, and the
    condition is read off the state before the sweep. *)
Lemma cleanup_lookup s now ttl id :
  by_id (cleanup_expired s now ttl) !! id =
    match by_id s !! id with
    | Some j => if decide (id ∈ expired_ids (warn_sweep (by_id s) now) now ttl)
                then None else Some (warned now j)
    | None => None
    end.
Proof.
  unfold cleanup_expired. rewrite foldl_remove_by_id. simpl. rewrite warn_sweep_lookup.
  case_decide; by destruct (by_id s !! id).
Qed.

Lemma elem_of_sweep m now ttl id j :
  m !! id = Some j →
  id ∈ expired_ids (warn_sweep m now) now ttl ↔ evicted m now ttl id j.
Proof.
  intros Hj. rewrite elem_of_expired_ids. setoid_rewrite warn_sweep_lookup. rewrite Hj. simpl.
  rewrite <- (evicted_warn m now ttl id j). naive_solver.
Qed.

Lemma cleanup_Some s now ttl id j' :
  by_id (cleanup_expired s now ttl) !! id = Some j' ↔
    ∃ j, by_id s !! id = Some j ∧ j' = warned now j ∧ ¬ evicted (by_id s) now ttl id j.
Proof.
  rewrite cleanup_lookup. destruct (by_id s !! id) as [j|] eqn:Hj; [|naive_solver].
  case_decide as Hd; rewrite (elem_of_sweep _ _ _ _ _ Hj) in Hd; naive_solver.
Qed.

Lemma cleanup_index_inv s now ttl : index_inv s → index_inv (cleanup_expired s now ttl).
Proof. intros. by apply foldl_remove_index_inv, warn_index_inv. Qed.

Lemma expired_terminal now ttl j : expired now ttl j = true → is_terminal (state j) = true.
Proof. unfold expired. by intros [? _]%andb_true_iff. Qed.

Lemma cleanup_family_inv s now ttl :
  family_inv (by_id s) → family_inv (by_id (cleanup_expired s now ttl)).
Proof.
  intros [Hp Hc]. split.
  - intros id j' p (j & Hj & -> & Hne)%cleanup_Some.
    destruct (warned_fields now j) as (_ & _ & _ & _ & -> & -> & _). intros Hpar.
    destruct (Hp _ _ _ Hj Hpar) as (Hnil & pj & Hpj & Hin & Hn). split; [done|].
    exists (warned now pj). destruct (warned_fields now pj) as (_ & _ & _ & _ & -> & -> & _).
    split; [|done]. apply cleanup_Some. exists pj. split_and!; [done|done|].
    intros (_ & _ & Hch). by rewrite (Hch _ Hin) in Hj.
  - intros p pj' c (pj & Hpj & -> & Hne)%cleanup_Some.
    destruct (warned_fields now pj) as (_ & -> & _ & _ & -> & _). intros Ht Hin.
    destruct (Hc _ _ _ Hpj Ht Hin) as (cj & Hcj & Hcp).
    exists (warned now cj). destruct (warned_fields now cj) as (_ & _ & _ & _ & _ & -> & _).
    split; [|done]. apply cleanup_Some. exists cj. split_and!; [done|done|].
    intros (_ & Hpar & _). specialize (Hpar _ _ Hpj Hin). apply expired_terminal in Hpar.
    congruence.
Qed.

(** Eviction never frees an alias: what it removes is terminal. *)
Lemma cleanup_scopes s now ttl :
  index_inv s →
  scopes_by_owner (cleanup_expired s now ttl) = scopes_by_owner s ∧
  active_by_scope (cleanup_expired s now ttl) = active_by_scope s.
Proof.
  intros Hinv. unfold cleanup_expired.
  apply (foldl_remove_scopes _ (with_by_id s (warn_sweep (by_id s) now))). simpl.
  intros id (j' & Hj' & He & _)%elem_of_expired_ids.
  rewrite warn_sweep_lookup in Hj'. apply fmap_Some in Hj' as (j & Hj & ->).
  rewrite warned_expired in He. apply expired_terminal in He.
  destruct (scopes_by_owner s !! id) as [S|] eqn:HS; [|done].
  rewrite (inv_scope_live _ Hinv _ _ _ HS Hj) in He. done.
Qed.

Lemma cleanup_inv s now ttl : store_inv s → store_inv (cleanup_expired s now ttl).
Proof. intros [Hi Hf]. split; [by apply cleanup_index_inv|by apply cleanup_family_inv]. Qed.

Lemma cleanup_subseteq s now ttl id :
  is_Some (by_id (cleanup_expired s now ttl) !! id) → is_Some (by_id s !! id).
Proof. intros [j' (j & Hj & _)%cleanup_Some]. eauto. Qed.

Lemma cleanup_count s now ttl :
  (tracked_job_count (cleanup_expired s now ttl) ≤ tracked_job_count s)%nat.
Proof.
  unfold tracked_job_count. rewrite <- !size_dom. apply subseteq_size.
  intros id Hid. apply elem_of_dom. apply elem_of_dom in Hid. by eapply cleanup_subseteq.
Qed.
End eviction.

(** *** The tests' consistency check *)

Section consistency.
Lemma elem_of_expected_active l r n id :
  id ∈ active_jobs (expected_active l) r n ↔
    ∃ j, j ∈ l ∧ job_id j = id ∧ rack_id j = r ∧ node_id j = n ∧ should_index j = true.
Proof.
  unfold expected_active.
  assert (∀ l m, id ∈ active_jobs
      (foldl (fun m j => index_insert m (rack_id j) (node_id j) (job_id j)) m l) r n ↔
    id ∈ active_jobs m r n ∨
    ∃ j, j ∈ l ∧ job_id j = id ∧ rack_id j = r ∧ node_id j = n) as Hgen.
  { clear l. induction l as [|j l IH]; intros m; simpl.
    - setoid_rewrite elem_of_nil. naive_solver.
    - rewrite IH, active_jobs_insert. setoid_rewrite elem_of_cons.
      case_decide as Hd; [destruct Hd as [<- <-]|]; set_unfold; naive_solver. }
  rewrite Hgen. unfold active_jobs at 1. rewrite lookup_empty. simpl. rewrite lookup_empty. simpl.
  setoid_rewrite list_elem_of_In. setoid_rewrite List.filter_In.
  setoid_rewrite <- list_elem_of_In. set_unfold. naive_solver.
Qed.

Lemma expected_active_pruned l : pruned (expected_active l).
Proof.
  unfold expected_active.
  assert (∀ l m, pruned m → pruned
    (foldl (fun m j => index_insert m (rack_id j) (node_id j) (job_id j)) m l)) as Hgen.
  { clear l. induction l; intros m Hm; simpl; auto using pruned_insert. }
  apply Hgen. intros r nodes. by rewrite lookup_empty.
Qed.

Lemma lookup_foldl_alias l (o : JobId) (m : gmap JobScope JobId) sc :
  foldl (fun m sc => <[sc := o]> m) m l !! sc = (if decide (sc ∈ l) then Some o else m !! sc).
Proof.
  revert m. induction l as [|x l IH]; intros m; simpl; [done|].
  rewrite IH, lookup_insert. repeat case_decide; set_solver.
Qed.

Lemma expected_scopes_sound l sc o :
  expected_scopes l !! sc = Some o → ∃ S, (o, S) ∈ l ∧ sc ∈ S.
Proof.
  unfold expected_scopes.
  assert (∀ m : gmap JobScope JobId, foldl (fun m p => foldl (fun m sc => <[sc := p.1]> m) m (elements p.2)) m l !! sc
      = Some o → (∃ S, (o, S) ∈ l ∧ sc ∈ S) ∨ m !! sc = Some o) as Hgen.
  { induction l as [|[o1 S1] l IH]; intros m; simpl; [by right|].
    intros [(S & Hin & Hsc)|Hm]%IH; [left; exists S; split; [by right|done]|].
    rewrite lookup_foldl_alias in Hm. case_decide as Hd; [|by right].
    left. exists S1. injection Hm as ->. split; [left|]. by apply elem_of_elements in Hd. }
  intros [?|Hm]%Hgen; [done|]. by rewrite lookup_empty in Hm.
Qed.

Lemma expected_scopes_complete l sc o S :
  (o, S) ∈ l → sc ∈ S → is_Some (expected_scopes l !! sc).
Proof.
  unfold expected_scopes. intros Hin Hsc.
  assert (∀ m : gmap JobScope JobId, ((o, S) ∈ l ∨ is_Some (m !! sc)) → is_Some
      (foldl (fun m p => foldl (fun m sc => <[sc := p.1]> m) m (elements p.2)) m l !! sc)) as Hgen.
  { clear Hin. induction l as [|[o1 S1] l IH]; intros m; simpl.
    - intros [?%not_elem_of_nil|?]; done.
    - intros Hor. apply IH. rewrite lookup_foldl_alias.
      destruct Hor as [[?|?]%elem_of_cons|?]; [|by left|]; simplify_eq; right;
        case_decide as Hd; eauto. by rewrite elem_of_elements in Hd. }
  apply Hgen. by left.
Qed.

Lemma index_inv_consistent s : index_inv s → assert_consistent s = true.
Proof.
  intros Hi. unfold assert_consistent. rewrite !andb_true_iff, !bool_decide_eq_true, forallb_forall.
  split_and!.
  - apply pruned_eq; [apply Hi|apply expected_active_pruned|]. intros r n. apply set_eq.
    intros id. rewrite (inv_active _ Hi), elem_of_expected_active. unfold snapshots.
    setoid_rewrite list_elem_of_fmap. split.
    + intros (j & Hj & Hrest). exists j. split_and!; [|by apply (inv_id _ Hi)|naive_solver..].
      exists (id, j). split; [done|]. by apply elem_of_map_to_list.
    + intros (j & ([id' j'] & -> & Hin) & <- & Hrest). simpl in *.
      apply elem_of_map_to_list in Hin. exists j'. rewrite (inv_id _ Hi _ _ Hin). done.
  - intros [o S] Hin%list_elem_of_In%elem_of_map_to_list. simpl.
    destruct (by_id s !! o) as [j|] eqn:Hj; [|done].
    by rewrite (inv_scope_live _ Hi _ _ _ Hin Hj).
  - apply map_eq. intros sc. destruct (active_by_scope s !! sc) as [o|] eqn:Ho.
    + pose proof Ho as (S & HS & Hsc)%(inv_scope _ Hi). apply elem_of_map_to_list in HS.
      destruct (expected_scopes_complete _ _ _ _ HS Hsc) as [o' Ho']. rewrite Ho'.
      apply expected_scopes_sound in Ho' as (S' & HS'%elem_of_map_to_list & Hsc').
      rewrite <- Ho. apply (inv_scope _ Hi). eauto.
    + destruct (expected_scopes _ !! sc) as [o'|] eqn:Ho'; [|done].
      apply expected_scopes_sound in Ho' as (S' & HS'%elem_of_map_to_list & Hsc').
      rewrite <- Ho. apply (inv_scope _ Hi). eauto.
Qed.
End consistency.

#[export] Hint Resolve empty_store_inv remove_queued_leaf_inv cleanup_inv
  transition_index_inv cleanup_index_inv release_scopes_inv : rms.
