(* ===== verification/JobRegistry.v ===== *)
(** * The job registry

    [orchestrator/job_lifecycle/registry.rs]: the operations the rest of the
    service uses on jobs, over the store of [JobStore].

    A registry is a state; every operation takes it and returns the next one.
    Each operation of the code takes the store lock once, so one operation here
    is one atomic step of the program; the waiting operations, which take the
    lock once per look at a job, get the answer of every look as an argument.
    The log and the OpenTelemetry span updates are a list of events, newest
    last.  The observers are the caller's code: functions on a caller-owned
    world [W].  Abort handles and cancellation tokens are identities, with the
    sets of aborted, finished and cancelled ones in the state. *)

From S2P Require Import Prelude JobTypes EndpointScope JobStore Json.
Import Store.
Local Open Scope string_scope.
Local Open Scope list_scope.

(** ** Job specifications *)

Inductive JobSpanSource :=
| Ready (span : Span)
| Deferred (create : JobId → Span).

Definition resolve (s : JobSpanSource) (id : JobId) : Span :=
  match s with Ready span => span | Deferred create => create id end.

Record JobSpec := mkJobSpec {
  spec_rack_id : string;
  spec_node_id : string;
  spec_span : JobSpanSource;
  spec_workflow_type : option JobType;
  spec_initial_state : JobLifecycleState;
}.

Definition JobSpec_new (rack node queued : string) (sp : Span) : JobSpec :=
  mkJobSpec rack node (Ready sp) None (Queued queued).
Definition JobSpec_new_deferred (rack node queued : string) (create : JobId → Span)
    : JobSpec :=
  mkJobSpec rack node (Deferred create) None (Queued queued).
Definition JobSpec_new_parent (rack running : string) (sp : Span) : JobSpec :=
  mkJobSpec rack "" (Ready sp) None (Running running).
Definition JobSpec_new_parent_deferred (rack running : string) (create : JobId → Span)
    : JobSpec :=
  mkJobSpec rack "" (Deferred create) None (Running running).

Definition with_workflow_type (spec : JobSpec) (t : JobType) : JobSpec :=
  mkJobSpec (spec_rack_id spec) (spec_node_id spec) (spec_span spec) (Some t)
    (spec_initial_state spec).

(** [JobSnapshot::new] with the ID it draws and the token it allocates. *)
Definition JobSnapshot_new (spec : JobSpec) (parent : option JobId) (id : JobId)
    (token : Token) (now : clock) : JobSnapshot :=
  let sp := span_record (resolve (spec_span spec) id) "job_id" id in
  mkJobSnapshot id sp (spec_initial_state spec) (spec_rack_id spec) (spec_node_id spec)
    (wall now) (wall now) (mono now) false [] parent token (spec_workflow_type spec).

Definition MAX_TRACKED_JOBS : nat := N.to_nat 10000.

(** ** Log events and span updates *)

Inductive SpanStatus := StatusError (description : string) | StatusOk.

Inductive LogEvent :=
| LogJob (message : string) (job rack node description : string)
    (parent : option string) (in_span : Span)
| SetErrorType (job : JobId) (label : string)
| SetStatus (job : JobId) (status : SpanStatus)
| SpanEnd (job : JobId).

Definition log_created (s : JobSnapshot) : list LogEvent :=
  [LogJob "job created" (job_id s) (rack_id s) (node_id s) (description (state s))
     (Some (default "None" (parent_job_id s))) (span s)].

Definition log_started (s : JobSnapshot) : list LogEvent :=
  [LogJob "job started" (job_id s) (rack_id s) (node_id s) (description (state s))
     None (span s)].

Definition log_progress (s : JobSnapshot) : list LogEvent :=
  [LogJob "job progress" (job_id s) (rack_id s) (node_id s) (description (state s))
     None (span s)].

Definition log_terminal (s : JobSnapshot) (verified_completion : bool) : list LogEvent :=
  match state s with
  | Completed d _ =>
      [LogJob "job completed" (job_id s) (rack_id s) (node_id s) d None (span s)]
  | Failed _ _ m _ =>
      [LogJob "job failed" (job_id s) (rack_id s) (node_id s) m None (span s)]
  | Queued _ | Running _ => []
  end ++
  match state s with
  | Failed _ failure _ _ =>
      [SetErrorType (job_id s) (JobErrorM.metrics_label (job_error_of failure));
       SetStatus (job_id s) (StatusError "")]
  | Completed _ _ =>
      if verified_completion then [SetStatus (job_id s) StatusOk] else []
  | Queued _ | Running _ => []
  end ++
  [SpanEnd (job_id s)].

Definition failed_state (f : JobFailure) : JobLifecycleState :=
  Failed (failure_description f) (failure_error f) (failure_message f)
    (default "" (failure_result_json f)).

(** ** The registry state *)

Record JobTaskControl := mkJobTaskControl { worker : nat; supervisor : nat }.

(** The process state behind tokens and abort handles, and the log. *)
Record Runtime := mkRuntime {
  next_token : Token;
  cancelled : gset Token;
  aborted : gset nat;
  finished : gset nat;
  log : list LogEvent;
}.

Definition empty_runtime : Runtime := mkRuntime 0 ∅ ∅ ∅ [].

Definition emit (rt : Runtime) (l : list LogEvent) : Runtime :=
  mkRuntime (next_token rt) (cancelled rt) (aborted rt) (finished rt) (log rt ++ l).
Definition new_token (rt : Runtime) : Runtime :=
  mkRuntime (S (next_token rt)) (cancelled rt) (aborted rt) (finished rt) (log rt).
Definition cancel_tokens (rt : Runtime) (ts : gset Token) : Runtime :=
  mkRuntime (next_token rt) (ts ∪ cancelled rt) (aborted rt) (finished rt) (log rt).
Definition abort_handles (rt : Runtime) (hs : gset nat) : Runtime :=
  mkRuntime (next_token rt) (cancelled rt) (hs ∪ aborted rt) (finished rt) (log rt).

Record JobHandle := mkJobHandle {
  handle_id : JobId;
  handle_span : Span;
  handle_token : Token;
  handle_finished : bool;
  result_metadata : json_map;
}.

(** [JobHandle::new]. *)
Definition JobHandle_new (id : JobId) (sp : Span) (token : Token) : JobHandle :=
  mkJobHandle id sp token false ∅.

(** The clock readings of one admission: the sweep under pressure, the new
    record, and the parent's touch. *)
Record admission_clock := mkAdmissionClock { at_sweep : Z; at_new : clock; at_attach : clock }.

Module Registry.

Section registry.
Context `{JobDomain} {W : Type}.

Record JobRegistry := mkJobRegistry {
  jobs : JobStore;
  ttl : Z;
  max_jobs : nat;
  shutting_down : bool;
  created_observer : option (JobSnapshot → W → W);
  terminal_observer : option (JobSnapshot → W → W);
  tasks : gmap JobId JobTaskControl;
  runtime : Runtime;
  world : W;
}.

Definition with_capacity (ttl : Z) (max_jobs : nat) (w : W) : JobRegistry :=
  mkJobRegistry empty_store ttl max_jobs false None None ∅ empty_runtime w.
Definition new (ttl : Z) (w : W) : JobRegistry := with_capacity ttl MAX_TRACKED_JOBS w.

Definition set_jobs (r : JobRegistry) (s : JobStore) : JobRegistry :=
  mkJobRegistry s (ttl r) (max_jobs r) (shutting_down r) (created_observer r)
    (terminal_observer r) (tasks r) (runtime r) (world r).
Definition set_runtime (r : JobRegistry) (rt : Runtime) : JobRegistry :=
  mkJobRegistry (jobs r) (ttl r) (max_jobs r) (shutting_down r) (created_observer r)
    (terminal_observer r) (tasks r) rt (world r).
Definition set_world (r : JobRegistry) (w : W) : JobRegistry :=
  mkJobRegistry (jobs r) (ttl r) (max_jobs r) (shutting_down r) (created_observer r)
    (terminal_observer r) (tasks r) (runtime r) w.
Definition set_tasks (r : JobRegistry) (t : gmap JobId JobTaskControl) : JobRegistry :=
  mkJobRegistry (jobs r) (ttl r) (max_jobs r) (shutting_down r) (created_observer r)
    (terminal_observer r) t (runtime r) (world r).

Definition set_created_observer (r : JobRegistry) (f : JobSnapshot → W → W) : JobRegistry :=
  mkJobRegistry (jobs r) (ttl r) (max_jobs r) (shutting_down r) (Some f)
    (terminal_observer r) (tasks r) (runtime r) (world r).
Definition set_terminal_observer (r : JobRegistry) (f : JobSnapshot → W → W) : JobRegistry :=
  mkJobRegistry (jobs r) (ttl r) (max_jobs r) (shutting_down r) (created_observer r)
    (Some f) (tasks r) (runtime r) (world r).

Definition observe (f : option (JobSnapshot → W → W)) (s : JobSnapshot) (r : JobRegistry)
    : JobRegistry :=
  match f with Some g => set_world r (g s (world r)) | None => r end.

Definition log_events (r : JobRegistry) (l : list LogEvent) : JobRegistry :=
  set_runtime r (emit (runtime r) l).

Definition notify_created (r : JobRegistry) (s : JobSnapshot) : JobRegistry :=
  observe (created_observer r) s (log_events r (log_created s)).

(** *** Admission *)

Definition capacity_check (r : JobRegistry) (s : JobStore) (now : Z)
    : JobStore * option JobFailure :=
  let s := if (max_jobs r <=? tracked_job_count s)%nat
           then cleanup_expired s now (ttl r) else s in
  let current := tracked_job_count s in
  (s, if (max_jobs r <=? current)%nat
      then Some (at_capacity_failure current (max_jobs r)) else None).

(** The aliases an admission reserves. *)
Definition admission_scopes (spec : JobSpec) (require_node_idle : bool)
    (scopes : list JobScope) : list JobScope :=
  (normalized <$> scopes) ++
  (if require_node_idle && bool_decide (spec_node_id spec ≠ "")
   then [LogicalNode (spec_rack_id spec) (spec_node_id spec)] else []).

(** The refusals that precede the capacity check, in the order of the code. *)
Definition admission_refused (r : JobRegistry) (spec : JobSpec) (parent : option JobId)
    (require_node_idle : bool) (scopes : list JobScope) : option JobFailure :=
  if shutting_down r then Some shutting_down_failure
  else if match parent with Some p => negb (can_accept_child (jobs r) p) | None => false end
  then parent_unavailable_failure <$> parent
  else
    match (if require_node_idle
           then active_job_for_node (jobs r) (spec_rack_id spec) (spec_node_id spec)
           else None) with
    | Some active =>
        Some (node_busy_failure (spec_rack_id spec) (spec_node_id spec) active)
    | None =>
        match conflicting_scope (jobs r) scopes with
        | Some (scope, owner) => Some (scope_busy_failure scope owner)
        | None => None
        end
    end.

(** The publication of an admitted job: the record, its aliases, its parent's
    link.  [None]: the ID retries did not end within the fuel, or the assertion
    on the parent failed; neither happens ([create_total]). *)
Definition publish (s : JobStore) (record : JobSnapshot) (scopes : list JobScope)
    (ids : nat → JobId) (now : clock) : option (JobStore * JobSnapshot) :=
  match Store.insert s record ids with
  | None => None
  | Some (s, record) =>
      let s := reserve_scopes s (job_id record) scopes in
      match parent_job_id record with
      | Some _ =>
          let '(s, attached) := attach_child s record now in
          if attached then Some (s, record) else None
      | None => Some (s, record)
      end
  end.

(** [ids 0] is the ID [JobSnapshot::new] draws, the rest the collision retries. *)
Definition create_job_with_scopes (r : JobRegistry) (spec : JobSpec)
    (parent : option JobId) (require_node_idle : bool) (scopes : list JobScope)
    (ids : nat → JobId) (now : admission_clock)
    : option (JobRegistry * result JobFailure JobHandle) :=
  let scopes := admission_scopes spec require_node_idle scopes in
  match admission_refused r spec parent require_node_idle scopes with
  | Some f => Some (r, Err f)
  | None =>
      let '(s, at_capacity) := capacity_check r (jobs r) (at_sweep now) in
      match at_capacity with
      | Some f => Some (set_jobs r s, Err f)
      | None =>
          let record :=
            JobSnapshot_new spec parent (ids 0) (next_token (runtime r)) (at_new now) in
          match publish s record scopes (fun k => ids (S k)) (at_attach now) with
          | None => None
          | Some (s, record) =>
              let handle :=
                JobHandle_new (job_id record) (span record) (cancellation_token record) in
              let r := set_runtime (set_jobs r s) (new_token (runtime r)) in
              Some (notify_created r record, Ok handle)
          end
      end
  end.

Definition create_job (r : JobRegistry) (spec : JobSpec) (parent : option JobId)
    (require_node_idle : bool) (ids : nat → JobId) (now : admission_clock)
    : option (JobRegistry * result JobFailure JobHandle) :=
  create_job_with_scopes r spec parent require_node_idle [] ids now.

(** A [MutationReservation] is the ID that owns its aliases. *)
Definition reserve_mutation (r : JobRegistry) (scopes : list JobScope) (ids : nat → JobId)
    : option (JobRegistry * result JobFailure JobId) :=
  let scopes := normalized <$> scopes in
  if shutting_down r then Some (r, Err shutting_down_failure)
  else
    match conflicting_scope (jobs r) scopes with
    | Some (scope, owner) => Some (r, Err (scope_busy_failure scope owner))
    | None =>
        match vacant_id (id_fuel (jobs r)) (jobs r) (fun k => ids (S k)) 0 (ids 0) with
        | None => None
        | Some owner => Some (set_jobs r (reserve_scopes (jobs r) owner scopes), Ok owner)
        end
    end.

(** [Drop for MutationReservation]. *)
Definition drop_reservation (r : JobRegistry) (owner : JobId) : JobRegistry :=
  set_jobs r (release_scopes (jobs r) owner).

Definition reserve_job_scopes (r : JobRegistry) (id : JobId) (scopes : list JobScope)
    : JobRegistry * result JobFailure unit :=
  let scopes := normalized <$> scopes in
  if shutting_down r then (r, Err shutting_down_failure)
  else if match get (jobs r) id with None => true | Some j => is_terminal (state j) end
  then (r, Err (inactive_job_failure id))
  else
    match conflicting_scope_except (jobs r) scopes (Some id) with
    | Some (scope, owner) => (r, Err (scope_busy_failure scope owner))
    | None => (set_jobs r (reserve_scopes (jobs r) id scopes), Ok tt)
    end.

(** *** Queries *)

Definition lookup_job (r : JobRegistry) (id : JobId) : option JobSnapshot :=
  get (jobs r) id.

Definition parent_for_job (r : JobRegistry) (id : JobId) : option JobId :=
  lookup_job r id ≫= parent_job_id.

Definition parent_job_ids (r : JobRegistry) : list JobId :=
  job_id <$> List.filter is_parent (snapshots (jobs r)).

Definition span_for_job (r : JobRegistry) (id : JobId) : option Span :=
  span <$> lookup_job r id.

Definition non_terminal_job_ids (r : JobRegistry) : list JobId :=
  job_id <$> List.filter (fun j => negb (is_terminal (state j))) (snapshots (jobs r)).

(** *** Transitions *)

Definition update (r : JobRegistry) (id : JobId) (verified_completion : bool) (now : clock)
    (transition : JobLifecycleState → option JobLifecycleState) : JobRegistry * bool :=
  let '(s, (changed, event)) := transition_state (jobs r) id now transition in
  let r := set_jobs r s in
  (match event with
   | Some (Started snapshot) => log_events r (log_started snapshot)
   | Some (Progress snapshot) => log_events r (log_progress snapshot)
   | Some (Terminal snapshot) =>
       observe (terminal_observer r) snapshot
         (log_events r (log_terminal snapshot verified_completion))
   | None => r
   end, changed).

Definition unless_terminal (next : JobLifecycleState) (old : JobLifecycleState)
    : option JobLifecycleState :=
  if is_terminal old then None else Some next.

Definition mark_running (r : JobRegistry) (id : JobId) (description : string) (now : clock)
    : JobRegistry * bool :=
  update r id false now (unless_terminal (Running description)).

Definition mark_completed (r : JobRegistry) (id : JobId) (description result_json : string)
    (verified_completion : bool) (now : clock) : JobRegistry * bool :=
  update r id verified_completion now (unless_terminal (Completed description result_json)).

Definition mark_failed (r : JobRegistry) (id : JobId) (failure : JobFailure) (now : clock)
    : JobRegistry * bool :=
  update r id false now (unless_terminal (failed_state failure)).

Definition remove_queued_leaf (r : JobRegistry) (id : JobId) : JobRegistry * bool :=
  let '(s, removed) := Store.remove_queued_leaf (jobs r) id in (set_jobs r s, removed).

Definition cleanup_expired (r : JobRegistry) (now : Z) : JobRegistry :=
  set_jobs r (Store.cleanup_expired (jobs r) now (ttl r)).

(** *** Cancellation, shutdown and tasks *)

Definition cancellation_token_for (r : JobRegistry) (id : JobId) : option Token :=
  cancellation_token <$> lookup_job r id.

Definition is_cancelled (r : JobRegistry) (t : Token) : bool :=
  bool_decide (t ∈ cancelled (runtime r)).

Definition cancel (r : JobRegistry) (id : JobId) : JobRegistry * bool :=
  match cancellation_token_for r id with
  | None => (r, false)
  | Some t => (set_runtime r (cancel_tokens (runtime r) {[t]}), true)
  end.

Definition begin_shutdown (r : JobRegistry) : JobRegistry :=
  mkJobRegistry (jobs r) (ttl r) (max_jobs r) true (created_observer r)
    (terminal_observer r) (tasks r) (runtime r) (world r).

Definition register_task (r : JobRegistry) (id : JobId) (worker supervisor : nat)
    : JobRegistry * bool :=
  (set_tasks r (<[id := mkJobTaskControl worker supervisor]> (tasks r)),
   negb (shutting_down r)).

Definition remove_task (r : JobRegistry) (id : JobId) : JobRegistry :=
  set_tasks r (delete id (tasks r)).

(** [AbortHandle::abort] on one handle of each tracked task of [ids]. *)
Definition abort_some (handle : JobTaskControl → nat) (r : JobRegistry) (ids : list JobId)
    : JobRegistry :=
  set_runtime r
    (abort_handles (runtime r) (list_to_set (omap (fun id => handle <$> tasks r !! id) ids))).

Definition abort_workers : JobRegistry → list JobId → JobRegistry := abort_some worker.
Definition abort_supervisors : JobRegistry → list JobId → JobRegistry :=
  abort_some supervisor.

Definition task_job_ids (r : JobRegistry) : list JobId := (map_to_list (tasks r)).*1.

(** What [wait_for_tasks] waits for. *)
Definition tasks_gone (r : JobRegistry) (ids : list JobId) : bool :=
  negb (existsb (fun id => bool_decide (id ∈ ids)) (task_job_ids r)).

(** What [wait_for_workers] waits for. *)
Definition workers_finished (r : JobRegistry) (ids : list JobId) : bool :=
  forallb (fun p => bool_decide (worker p.2 ∈ finished (runtime r)))
    (List.filter (fun p => bool_decide (p.1 ∈ ids)) (map_to_list (tasks r))).

Definition fail_non_terminal_for_shutdown (r : JobRegistry) (ids : list JobId)
    (now : JobId → clock) : JobRegistry :=
  foldl (fun r id => fst (mark_failed r id shutdown_failure (now id))) r ids.

Definition active_leaves (r : JobRegistry) : list (JobId * Token) :=
  (fun j => (job_id j, cancellation_token j)) <$>
    List.filter (fun j => negb (is_parent j) && negb (is_terminal (state j)))
      (snapshots (jobs r)).

Definition cancel_active_leaves (r : JobRegistry) : JobRegistry * list JobId :=
  let active := active_leaves r in
  (set_runtime r (cancel_tokens (runtime r) (list_to_set active.*2)), active.*1).

End registry.

(** *** Waiting for terminal jobs *)

Record TerminalJobOutcomes := mkOutcomes {
  terminal : list JobSnapshot;
  missing : list JobId;
  pending : gset JobId;
}.

(** One [retain] pass over the pending IDs; [look] is what [get] answered for
    each of them during the pass. *)
Definition poll_one (look : JobId → option JobSnapshot) (o : TerminalJobOutcomes)
    (id : JobId) : TerminalJobOutcomes :=
  match look id with
  | Some j =>
      if is_terminal (state j)
      then mkOutcomes (terminal o ++ [j]) (missing o) (pending o ∖ {[id]})
      else o
  | None => mkOutcomes (terminal o) (missing o ++ [id]) (pending o ∖ {[id]})
  end.

Definition poll (look : JobId → option JobSnapshot) (o : TerminalJobOutcomes)
    : TerminalJobOutcomes :=
  foldl (poll_one look) o (elements (pending o)).

(** [looks] are the passes made before the last pending ID settled or the
    timeout dropped the wait. *)
Fixpoint wait_for_terminal_outcomes (looks : list (JobId → option JobSnapshot))
    (o : TerminalJobOutcomes) : TerminalJobOutcomes :=
  match looks with
  | [] => o
  | look :: looks =>
      if bool_decide (pending o = ∅) then o
      else wait_for_terminal_outcomes looks (poll look o)
  end.

Definition start_wait (ids : list JobId) : TerminalJobOutcomes :=
  mkOutcomes [] [] (list_to_set ids).

Definition wait_for_terminal_jobs (looks : list (JobId → option JobSnapshot))
    (ids : list JobId) : bool :=
  bool_decide (pending (wait_for_terminal_outcomes looks (start_wait ids)) = ∅).

End Registry.
