(* ===== verification/JobRegistryProofs.v ===== *)
(** * Theorems on the job registry

    The invariant of a registry and its preservation by every operation, as a
    step relation with its reachable states; admission (totality, exclusion,
    all-or-nothing rejection, capacity); terminal states; shutdown. *)

From S2P Require Import Prelude JobTypes EndpointScope Json RmsDomain JobStore.
From S2P Require Import JobStoreProofs JobRegistry.
Import Store.
Local Open Scope string_scope.
Local Open Scope list_scope.

(** ** Conflicts *)

Lemma conflicting_scope_except_None s l owner :
  conflicting_scope_except s l owner = None →
  ∀ sc, sc ∈ l →
    (∀ o, active_by_scope s !! sc = Some o → Some o = owner) ∧
    (∀ r n id, sc = LogicalNode r n → id ∈ active_jobs (active_by_node s) r n →
       Some id = owner).
Proof.
  unfold conflicting_scope_except. intros Hn sc Hsc.
  rewrite find_map_None in Hn. specialize (Hn sc Hsc). simpl in Hn. split.
  - intros o Ho. rewrite Ho in Hn. case_bool_decide; [done|]. done.
  - intros r n id -> Hid.
    destruct (match active_by_scope s !! LogicalNode r n with
              | Some active => if bool_decide (Some active = owner) then None else Some active
              | None => None
              end) eqn:E; [done|].
    destruct (find_first _ _) eqn:Ef; [done|].
    rewrite find_first_None in Ef. specialize (Ef id). rewrite elem_of_elements in Ef.
    specialize (Ef Hid). by case_bool_decide.
Qed.

Lemma conflicting_scope_None s l :
  conflicting_scope s l = None → ∀ sc, sc ∈ l →
    active_by_scope s !! sc = None ∧
    (∀ r n, sc = LogicalNode r n → active_jobs (active_by_node s) r n = ∅).
Proof.
  intros Hn sc Hsc. destruct (conflicting_scope_except_None _ _ _ Hn sc Hsc) as [H1 H2].
  split.
  - destruct (active_by_scope s !! sc) eqn:E; [|done]. by specialize (H1 _ eq_refl).
  - intros r n ->. apply set_eq. intros id. split; [|set_solver].
    intros Hid. by specialize (H2 _ _ _ eq_refl Hid).
Qed.

(** A reported conflict is a real one: a foreign owner, or a foreign active
    job on the node. *)
Lemma conflicting_scope_except_Some s l owner sc o :
  conflicting_scope_except s l owner = Some (sc, o) →
  sc ∈ l ∧ Some o ≠ owner ∧
  (active_by_scope s !! sc = Some o ∨
   ∃ r n, sc = LogicalNode r n ∧ o ∈ active_jobs (active_by_node s) r n).
Proof.
  unfold conflicting_scope_except. intros (sc' & Hin & Hf)%find_map_Some.
  destruct (active_by_scope s !! sc') as [a|] eqn:Ea.
  - case_bool_decide as Hd; [|by simplify_eq; split_and!; auto].
    destruct sc'; try done. destruct (find_first _ _) eqn:Ef; [|done].
    apply find_first_Some in Ef as [Hel%elem_of_elements Hne]. simplify_eq.
    apply bool_decide_eq_true in Hne. split_and!; eauto.
  - destruct sc'; try done. destruct (find_first _ _) eqn:Ef; [|done].
    apply find_first_Some in Ef as [Hel%elem_of_elements Hne]. simplify_eq.
    apply bool_decide_eq_true in Hne. split_and!; eauto.
Qed.

Lemma active_job_for_node_None s r n :
  active_job_for_node s r n = None ↔ active_jobs (active_by_node s) r n = ∅.
Proof.
  unfold active_job_for_node. rewrite head_None. split.
  - intros H. apply set_eq. intros x. rewrite <- elem_of_elements, H. set_solver.
  - intros ->. apply elements_empty.
Qed.

Lemma active_job_for_node_Some s r n id :
  active_job_for_node s r n = Some id → id ∈ active_jobs (active_by_node s) r n.
Proof.
  unfold active_job_for_node. intros Hh. apply elem_of_elements.
  destruct (elements _); simpl in Hh; simplify_eq. left.
Qed.

(** ** Publication *)

Section publish.
Implicit Types (s : JobStore) (r record : JobSnapshot).

(** The records after a publication. *)
Definition linked (m : gmap JobId JobSnapshot) r (now : clock) : gmap JobId JobSnapshot :=
  match parent_job_id r with
  | Some p =>
      match m !! p with
      | Some pj => <[p := touch (push_child pj (job_id r)) now]> (<[job_id r := r]> m)
      | None => <[job_id r := r]> m
      end
  | None => <[job_id r := r]> m
  end.

Definition accepts (m : gmap JobId JobSnapshot) (parent : option JobId) : Prop :=
  match parent with
  | Some p => ∃ pj, m !! p = Some pj ∧ is_terminal (state pj) = false ∧ parent_job_id pj = None
  | None => True
  end.

Lemma publish_spec s record scopes ids now s' r :
  accepts (by_id s) (parent_job_id record) →
  Registry.publish s record scopes ids now = Some (s', r) →
  ∃ s1, Store.insert s record ids = Some (s1, r) ∧
    s' = with_by_id (reserve_scopes s1 (job_id r) scopes) (linked (by_id s) r now).
Proof.
  intros Hacc. unfold Registry.publish. destruct (Store.insert _ _ _) as [[s1 r1]|] eqn:Hi; [|done].
  pose proof (insert_spec _ _ _ _ _ Hi) as (Hr & Hv & _ & Hby & _).
  assert (parent_job_id r1 = parent_job_id record) as Hp by (by rewrite Hr).
  clear Hr. rewrite Hp. destruct (parent_job_id record) as [p|] eqn:Hpar.
  - destruct Hacc as (pj & Hpj & Ht & Hn).
    rewrite (attach_child_spec _ _ _ p pj); try done.
    + simpl. intros [= <- <-]. exists s1. split; [done|]. unfold linked. rewrite Hp, Hpj.
      by rewrite reserve_scopes_by_id, Hby.
    + rewrite reserve_scopes_by_id, Hby, lookup_insert_ne; [done|congruence].
  - intros [= <- <-]. exists s1. split; [done|]. unfold linked. rewrite Hp, <- Hby.
    rewrite <- (reserve_scopes_by_id s1 (job_id r1) scopes).
    by destruct (reserve_scopes _ _ _).
Qed.

Lemma publish_total s record scopes ids now :
  accepts (by_id s) (parent_job_id record) →
  NoDup (drawn (id_fuel s) ids 0 (job_id record)) →
  is_Some (Registry.publish s record scopes ids now).
Proof.
  intros Hacc Hnd. unfold Registry.publish, Store.insert, insert_with_id_generator.
  destruct (vacant_id_terminates s ids 0 (job_id record) Hnd) as [id Hv]. rewrite Hv. simpl.
  pose proof (vacant_id_spec _ _ _ _ _ _ Hv) as [Hvac _].
  destruct (parent_job_id record) as [p|] eqn:Hp; [|eauto].
  destruct Hacc as (pj & Hpj & Ht & Hn).
  erewrite attach_child_spec; [eauto|done| |done|done].
  rewrite reserve_scopes_by_id. destruct (should_index _); simpl;
    rewrite lookup_insert_ne; congruence.
Qed.

Lemma publish_inv s record scopes ids now s' r :
  store_inv s →
  (∀ sc, sc ∈ scopes → active_by_scope s !! sc = None) →
  accepts (by_id s) (parent_job_id record) →
  is_terminal (state record) = false → child_job_ids record = [] →
  Registry.publish s record scopes ids now = Some (s', r) → store_inv s'.
Proof.
  intros [Hi Hf] Hfree Hacc Ht Hch Hp.
  apply publish_spec in Hp as (s1 & Hins & ->); [|done].
  pose proof (insert_spec _ _ _ _ _ Hins) as (Hr & Hv & _ & Hby & _ & Hsc & _).
  assert (parent_job_id r = parent_job_id record ∧ child_job_ids r = [] ∧
          is_terminal (state r) = false) as (Hpar & Hchr & Htr) by (rewrite Hr; done).
  clear Hr. rewrite <- Hpar in Hacc.
  assert (index_inv (reserve_scopes s1 (job_id r) scopes)) as Hidx.
  { apply reserve_scopes_inv; [by eapply insert_index_inv|..].
    - intros sc Hin. left. rewrite Hsc. auto.
    - intros j. rewrite Hby, lookup_insert_eq. naive_solver. }
  unfold linked. destruct (parent_job_id r) as [p|] eqn:Epar.
  - destruct Hacc as (pj & Hpj & Hpt & Hpn). rewrite Hpj. split; simpl.
    + assert (by_id (reserve_scopes s1 (job_id r) scopes) !! p = Some pj) as Hl.
      { rewrite reserve_scopes_by_id, Hby, lookup_insert_ne; [done|congruence]. }
      rewrite <- Hby, <- (reserve_scopes_by_id s1 (job_id r) scopes).
      apply (replace_index_inv _ _ pj); try done. simpl. by apply (inv_id _ Hi).
    + by apply insert_child_family_inv.
  - split; simpl.
    + rewrite <- Hby, <- (reserve_scopes_by_id s1 (job_id r) scopes).
      by destruct (reserve_scopes _ _ _).
    + by apply insert_family_inv.
Qed.
Lemma linked_lookup m r now id j' :
  m !! job_id r = None → linked m r now !! id = Some j' →
  (id = job_id r ∧ j' = r) ∨
  (id ≠ job_id r ∧ ∃ j, m !! id = Some j ∧
     (j' = j ∨ (parent_job_id r = Some id ∧ j' = touch (push_child j (job_id r)) now))).
Proof.
  intros Hv. unfold linked. destruct (parent_job_id r) as [p|].
  - destruct (m !! p) as [pj|] eqn:Hp.
    + rewrite !lookup_insert. repeat case_decide; subst; naive_solver.
    + rewrite lookup_insert. case_decide; naive_solver.
  - rewrite lookup_insert. case_decide; naive_solver.
Qed.

Lemma linked_self m r now : m !! job_id r = None → linked m r now !! job_id r = Some r.
Proof.
  intros Hv. unfold linked. destruct (parent_job_id r) as [p|]; [|by rewrite lookup_insert_eq].
  destruct (m !! p) eqn:Ep; rewrite ?lookup_insert_eq; [|done].
  rewrite lookup_insert_ne, lookup_insert_eq; [done|congruence].
Qed.

Lemma linked_size m r now : m !! job_id r = None → size (linked m r now) = S (size m).
Proof.
  intros Hv. unfold linked. destruct (parent_job_id r) as [p|].
  - destruct (m !! p) as [pj|] eqn:Hp; [|by apply map_size_insert_None].
    rewrite map_size_insert_Some; [by apply map_size_insert_None|].
    exists pj. rewrite lookup_insert_ne; [done|congruence].
  - by apply map_size_insert_None.
Qed.
End publish.

(** ** How a tracked record may change *)

(** A terminal record is frozen up to its warning flag. *)
Definition frozen (j j' : JobSnapshot) : Prop :=
  state j' = state j ∧ updated_at j' = updated_at j ∧
  updated_at_mono j' = updated_at_mono j ∧ child_job_ids j' = child_job_ids j.

Record evolves (j j' : JobSnapshot) : Prop := {
  ev_id : job_id j' = job_id j;
  ev_rack : rack_id j' = rack_id j;
  ev_node : node_id j' = node_id j;
  ev_created : created_at j' = created_at j;
  ev_parent : parent_job_id j' = parent_job_id j;
  ev_token : cancellation_token j' = cancellation_token j;
  ev_type : workflow_type j' = workflow_type j;
  ev_children : child_job_ids j `prefix_of` child_job_ids j';
  ev_frozen : is_terminal (state j) = true → frozen j j';
}.

#[global] Instance evolves_refl : Reflexive evolves.
Proof. intros j. split; unfold frozen; auto. Qed.

#[global] Instance evolves_trans : Transitive evolves.
Proof.
  intros j1 j2 j3 [] []. split; try congruence; [by etransitivity|].
  unfold frozen in *. intros Ht.
  match goal with F : is_terminal (state j1) = true → _ |- _ =>
    destruct (F Ht) as (E1 & E2 & E3 & E4) end.
  rewrite E1, E2, E3, E4 in *. auto.
Qed.

Lemma warned_evolves now j : evolves j (warned now j).
Proof.
  unfold warned, warn_if_monotonic_timestamp_in_future, frozen. repeat case_match; [|split..];
    unfold frozen; auto; reflexivity.
Qed.

Lemma transition_evolves j next now :
  is_terminal (state j) = false → evolves j (touch (set_state j next) now).
Proof. intros Ht. split; simpl; try done. congruence. Qed.

Lemma attach_evolves j id now :
  is_terminal (state j) = false → evolves j (touch (push_child j id) now).
Proof. intros Ht. split; simpl; try done; [by apply prefix_app_r|congruence]. Qed.

(** ** Admission *)

Section registry.
Context `{!JobDomain} {W : Type}.
Import Registry.
Implicit Types (r : JobRegistry (W := W)).

Definition swept (s s' : JobStore) (now ttl : Z) : Prop :=
  s' = s ∨ s' = Store.cleanup_expired s now ttl.

Lemma swept_inv s s' now ttl : store_inv s → swept s s' now ttl → store_inv s'.
Proof. intros Hs [->| ->]; auto with rms. Qed.

Lemma swept_scopes s s' now ttl :
  index_inv s → swept s s' now ttl →
  scopes_by_owner s' = scopes_by_owner s ∧ active_by_scope s' = active_by_scope s.
Proof. intros Hs [->| ->]; auto using cleanup_scopes. Qed.

(** A sweep never evicts a record that is not terminal. *)
Lemma swept_live s s' now ttl id j :
  swept s s' now ttl → by_id s !! id = Some j → is_terminal (state j) = false →
  ∃ j', by_id s' !! id = Some j' ∧ state j' = state j ∧ parent_job_id j' = parent_job_id j.
Proof.
  intros [->| ->] Hj Ht; [eauto|]. exists (warned now j).
  destruct (warned_fields now j) as (_ & -> & _ & _ & _ & -> & _). split; [|done].
  apply cleanup_Some. exists j. split_and!; [done|done|].
  intros (He & _). apply expired_terminal in He. congruence.
Qed.

Lemma swept_accepts s s' now ttl p :
  swept s s' now ttl → accepts (by_id s) p → accepts (by_id s') p.
Proof.
  intros Hsw. destruct p as [p|]; [|done]. intros (pj & Hpj & Ht & Hn).
  destruct (swept_live _ _ _ _ _ _ Hsw Hpj Ht) as (j' & Hj' & Hs & Hp).
  exists j'. by rewrite Hs, Hp.
Qed.

Lemma swept_subset s s' now ttl id j' :
  swept s s' now ttl → by_id s' !! id = Some j' →
  ∃ j, by_id s !! id = Some j ∧ evolves j j' ∧ state j' = state j.
Proof.
  intros [->| ->]; [naive_solver|]. intros (j & Hj & -> & _)%cleanup_Some.
  exists j. split_and!; auto using warned_evolves. apply warned_fields.
Qed.

Lemma capacity_check_spec r s now :
  ∃ s', swept s s' now (ttl r) ∧
    capacity_check r s now =
      (s', if (max_jobs r <=? tracked_job_count s')%nat
           then Some (at_capacity_failure (tracked_job_count s') (max_jobs r)) else None).
Proof.
  unfold capacity_check, swept. destruct (max_jobs r <=? tracked_job_count s)%nat; eauto.
Qed.

Lemma admission_refused_None r spec parent idle scopes :
  admission_refused r spec parent idle scopes = None ↔
    shutting_down r = false ∧ accepts (by_id (jobs r)) parent ∧
    (idle = true →
       active_jobs (active_by_node (jobs r)) (spec_rack_id spec) (spec_node_id spec) = ∅) ∧
    conflicting_scope (jobs r) scopes = None.
Proof.
  unfold admission_refused, accepts. destruct (shutting_down r); [naive_solver|].
  destruct parent as [p|].
  - pose proof (can_accept_child_spec (jobs r) p) as Hc.
    destruct (can_accept_child (jobs r) p); simpl; [|naive_solver].
    rewrite <- active_job_for_node_None.
    destruct idle; repeat case_match; naive_solver.
  - rewrite <- active_job_for_node_None. destruct idle; repeat case_match; naive_solver.
Qed.

(** The three ways an admission ends. *)
Inductive create_outcome r spec parent idle scopes ids now
    : JobRegistry → result JobFailure JobHandle → Prop :=
| create_refused f :
    admission_refused r spec parent idle (admission_scopes spec idle scopes) = Some f →
    create_outcome r spec parent idle scopes ids now r (Err f)
| create_full s :
    swept (jobs r) s (at_sweep now) (ttl r) → (max_jobs r ≤ tracked_job_count s)%nat →
    create_outcome r spec parent idle scopes ids now (set_jobs r s)
      (Err (at_capacity_failure (tracked_job_count s) (max_jobs r)))
| create_admitted s s' record :
    admission_refused r spec parent idle (admission_scopes spec idle scopes) = None →
    swept (jobs r) s (at_sweep now) (ttl r) → (tracked_job_count s < max_jobs r)%nat →
    publish s (JobSnapshot_new spec parent (ids 0) (next_token (runtime r)) (at_new now))
      (admission_scopes spec idle scopes) (fun k => ids (S k)) (at_attach now)
      = Some (s', record) →
    create_outcome r spec parent idle scopes ids now
      (notify_created (set_runtime (set_jobs r s') (new_token (runtime r))) record)
      (Ok (JobHandle_new (job_id record) (span record) (cancellation_token record))).

Lemma create_inversion r spec parent idle scopes ids now r' res :
  create_job_with_scopes r spec parent idle scopes ids now = Some (r', res) →
  create_outcome r spec parent idle scopes ids now r' res.
Proof.
  unfold create_job_with_scopes.
  destruct (admission_refused _ _ _ _ _) eqn:Ea.
  { intros [= <- <-]. by constructor. }
  destruct (capacity_check_spec r (jobs r) (at_sweep now)) as (s & Hsw & ->).
  destruct (max_jobs r <=? tracked_job_count s)%nat eqn:Ec.
  { intros [= <- <-]. constructor; [done|]. by apply Nat.leb_le. }
  destruct (publish _ _ _ _ _) as [[s' record]|] eqn:Ep; [|done].
  intros [= <- <-]. eapply create_admitted; eauto. by apply Nat.leb_gt.
Qed.

(** ** Frames *)

Lemma observe_frame f s r :
  jobs (observe f s r) = jobs r ∧ runtime (observe f s r) = runtime r ∧
  max_jobs (observe f s r) = max_jobs r ∧ ttl (observe f s r) = ttl r ∧
  shutting_down (observe f s r) = shutting_down r ∧ tasks (observe f s r) = tasks r ∧
  created_observer (observe f s r) = created_observer r ∧
  terminal_observer (observe f s r) = terminal_observer r.
Proof. by destruct f. Qed.

Lemma notify_created_frame s r :
  jobs (notify_created r s) = jobs r ∧
  runtime (notify_created r s) = emit (runtime r) (log_created s) ∧
  max_jobs (notify_created r s) = max_jobs r ∧ ttl (notify_created r s) = ttl r ∧
  shutting_down (notify_created r s) = shutting_down r ∧
  tasks (notify_created r s) = tasks r ∧
  created_observer (notify_created r s) = created_observer r ∧
  terminal_observer (notify_created r s) = terminal_observer r.
Proof.
  unfold notify_created. edestruct observe_frame as (-> & -> & -> & -> & -> & -> & -> & ->). done.
Qed.

(** Everything a transition leaves alone. *)
Lemma update_frame r id v now f :
  jobs (update r id v now f).1 = (transition_state (jobs r) id now f).1 ∧
  max_jobs (update r id v now f).1 = max_jobs r ∧ ttl (update r id v now f).1 = ttl r ∧
  shutting_down (update r id v now f).1 = shutting_down r ∧
  tasks (update r id v now f).1 = tasks r ∧
  next_token (runtime (update r id v now f).1) = next_token (runtime r) ∧
  cancelled (runtime (update r id v now f).1) = cancelled (runtime r) ∧
  (update r id v now f).2 = (transition_state (jobs r) id now f).2.1 ∧
  created_observer (update r id v now f).1 = created_observer r ∧
  terminal_observer (update r id v now f).1 = terminal_observer r.
Proof.
  unfold update. destruct (transition_state _ _ _ _) as [s [changed event]]. simpl.
  destruct event as [[]|]; try done.
  edestruct observe_frame as (-> & -> & -> & -> & -> & -> & -> & ->). done.
Qed.

(** ** The invariant and the step relation *)

Definition spec_ok (spec : JobSpec) : Prop := is_terminal (spec_initial_state spec) = false.

(** What callers respect when they create or remove a job; a theorem that needs
    a discipline of the callers names it. *)
Record discipline := mkDiscipline {
  may_create : JobRegistry (W := W) → JobSpec → bool → (nat → JobId) → Prop;
  may_remove : JobRegistry (W := W) → JobId → Prop;
}.

Definition anything : discipline := mkDiscipline (fun _ _ _ _ => True) (fun _ _ => True).

(** One atomic operation of the code on a registry.  A dropped reservation is
    not a tracked job: admission draws job IDs outside the alias owners. *)
Inductive step (d : discipline) r : JobRegistry → Prop :=
| step_create spec parent idle scopes ids now r' res :
    spec_ok spec → may_create d r spec idle ids →
    create_job_with_scopes r spec parent idle scopes ids now = Some (r', res) → step d r r'
| step_reserve scopes ids r' res :
    reserve_mutation r scopes ids = Some (r', res) → step d r r'
| step_drop_reservation owner :
    by_id (jobs r) !! owner = None → step d r (drop_reservation r owner)
| step_reserve_job id scopes : step d r (reserve_job_scopes r id scopes).1
| step_running id descr now : step d r (mark_running r id descr now).1
| step_completed id descr res v now : step d r (mark_completed r id descr res v now).1
| step_failed id f now : step d r (mark_failed r id f now).1
| step_remove id : may_remove d r id → step d r (remove_queued_leaf r id).1
| step_cleanup now : step d r (cleanup_expired r now)
| step_cancel id : step d r (cancel r id).1
| step_cancel_leaves : step d r (cancel_active_leaves r).1
| step_shutdown : step d r (begin_shutdown r)
| step_register id w s : step d r (register_task r id w s).1
| step_remove_task id : step d r (remove_task r id)
| step_abort_workers ids : step d r (abort_workers r ids)
| step_abort_supervisors ids : step d r (abort_supervisors r ids)
| step_refuse_task token worker :
    step d r (set_runtime r (abort_handles (cancel_tokens (runtime r) {[token]}) {[worker]})).

Definition steps (d : discipline) : relation (JobRegistry (W := W)) := rtc (step d).

(** A registry as [JobTrackerBuilder::build] makes it. *)
Inductive initial : JobRegistry (W := W) → Prop :=
| initial_intro ttl cap w on_created on_terminal :
    initial (mkJobRegistry empty_store ttl cap false on_created on_terminal ∅ empty_runtime w).

Definition reachable (d : discipline) r : Prop := ∃ r0, initial r0 ∧ steps d r0 r.

Record registry_inv r : Prop := {
  ri_store : store_inv (jobs r);
  ri_capacity : (tracked_job_count (jobs r) ≤ max_jobs r)%nat;
  ri_token : ∀ id j, by_id (jobs r) !! id = Some j →
    (cancellation_token j < next_token (runtime r))%nat;
  ri_token_inj : ∀ id1 j1 id2 j2,
    by_id (jobs r) !! id1 = Some j1 → by_id (jobs r) !! id2 = Some j2 →
    cancellation_token j1 = cancellation_token j2 → id1 = id2;
}.

Lemma initial_inv r : initial r → registry_inv r.
Proof.
  intros []. split; simpl.
  - apply empty_store_inv.
  - unfold tracked_job_count. simpl. rewrite map_size_empty. lia.
  - intros *. by rewrite lookup_empty.
  - intros *. by rewrite lookup_empty.
Qed.

(** Operations that keep each job's token and add no job. *)
Lemma registry_inv_shrink r r' :
  registry_inv r → store_inv (jobs r') → max_jobs r' = max_jobs r →
  next_token (runtime r') = next_token (runtime r) →
  (∀ id j', by_id (jobs r') !! id = Some j' →
     ∃ j, by_id (jobs r) !! id = Some j ∧ cancellation_token j' = cancellation_token j) →
  registry_inv r'.
Proof.
  intros [Hs Hc Ht Hi] Hs' Hm Hn Hsub. split; [done|..].
  - rewrite Hm. etransitivity; [|done]. unfold tracked_job_count. rewrite <- !size_dom.
    apply subseteq_size. intros id Hid. apply elem_of_dom in Hid as [j' Hj'].
    destruct (Hsub _ _ Hj') as (j & Hj & _). apply elem_of_dom. eauto.
  - intros id j' Hj'. destruct (Hsub _ _ Hj') as (j & Hj & ->). rewrite Hn. eauto.
  - intros id1 j1 id2 j2 H1 H2. destruct (Hsub _ _ H1) as (? & ? & ->).
    destruct (Hsub _ _ H2) as (? & ? & ->). eauto.
Qed.

Lemma registry_inv_same r r' :
  registry_inv r → jobs r' = jobs r → max_jobs r' = max_jobs r →
  next_token (runtime r') = next_token (runtime r) → registry_inv r'.
Proof.
  intros Hr Hj Hm Hn. eapply registry_inv_shrink; eauto; rewrite Hj; [apply Hr|eauto].
Qed.

Lemma transition_by_id s id now f :
  by_id (transition_state s id now f).1 =
    match by_id s !! id with
    | Some old =>
        match f (state old) with
        | Some next => <[id := touch (set_state old next) now]> (by_id s)
        | None => by_id s
        end
    | None => by_id s
    end.
Proof.
  rewrite transition_state_eq. destruct (by_id s !! id) as [old|]; [|done].
  by destruct (f (state old)).
Qed.

Lemma unless_terminal_Some next st st' :
  unless_terminal next st = Some st' → st' = next ∧ is_terminal st = false.
Proof. unfold unless_terminal. destruct (is_terminal st); naive_solver. Qed.

Lemma update_inv r id v now next :
  registry_inv r → registry_inv (update r id v now (unless_terminal next)).1.
Proof.
  intros Hr.
  destruct (update_frame r id v now (unless_terminal next)) as (Hj & Hm & _ & _ & _ & Hn & _).
  eapply registry_inv_shrink; [done| |done|done|].
  - rewrite Hj. destruct (ri_store _ Hr) as [Hi Hf]. split; [by apply transition_index_inv|].
    apply transition_family_inv; [|done]. intros st st' [_ Hst]%unless_terminal_Some. congruence.
  - intros id' j'. rewrite Hj, transition_by_id.
    destruct (by_id (jobs r) !! id) as [old|] eqn:Hold; [|naive_solver].
    destruct (unless_terminal next (state old)); [|naive_solver].
    rewrite lookup_insert. case_decide as Hd; [|naive_solver]. subst. intros [= <-]. eauto.
Qed.

(** The store after an admission: still consistent, one record more, every other
    record as it was up to its warning flag and its list of children. *)
Lemma admitted_store r spec parent idle scopes ids now s s' rec :
  let sc := admission_scopes spec idle scopes in
  store_inv (jobs r) → spec_ok spec →
  admission_refused r spec parent idle sc = None →
  swept (jobs r) s (at_sweep now) (ttl r) →
  publish s (JobSnapshot_new spec parent (ids 0) (next_token (runtime r)) (at_new now))
    sc (fun k => ids (S k)) (at_attach now) = Some (s', rec) →
  store_inv s' ∧ tracked_job_count s' = S (tracked_job_count s) ∧
  by_id s !! job_id rec = None ∧
  rec = set_job_id (JobSnapshot_new spec parent (ids 0) (next_token (runtime r))
                      (at_new now)) (job_id rec) ∧
  ∀ id j', by_id s' !! id = Some j' →
    (id = job_id rec ∧ j' = rec) ∨
    (id ≠ job_id rec ∧ ∃ j, by_id (jobs r) !! id = Some j ∧ evolves j j' ∧
       state j' = state j).
Proof.
  intros sc [Hi Hf] Hok (_ & Hacc & _ & Hfree)%admission_refused_None Hsw Hp.
  pose proof (swept_accepts _ _ _ _ _ Hsw Hacc) as Hacc'.
  destruct (swept_scopes _ _ _ _ Hi Hsw) as [_ Hscopes].
  assert (store_inv s') as Hs'.
  { eapply (publish_inv s); [exact (swept_inv _ _ _ _ (conj Hi Hf) Hsw)| | | | |exact Hp]; [|done..].
    intros x Hx. rewrite Hscopes. by apply (conflicting_scope_None _ _ Hfree). }
  apply publish_spec in Hp as (s1 & Hins & ->); [|done].
  apply insert_spec in Hins as (Hrec & Hv & _).
  split_and!; [done| |done|done|].
  - unfold tracked_job_count. simpl. by apply linked_size.
  - simpl. intros id j' [[-> ->]|(Hne & j & Hj & Hj')]%linked_lookup; [by left| |done].
    assert (parent_job_id rec = parent) as Hpr by (by rewrite Hrec).
    right. split; [done|]. clear Hrec.
    destruct (swept_subset _ _ _ _ _ _ Hsw Hj) as (j0 & Hj0 & Hev & Hst).
    exists j0. split; [done|]. destruct Hj' as [->|[Hpar ->]]; [done|]. split; [|done].
    etransitivity; [done|]. apply attach_evolves. rewrite Hpr in Hpar. subst parent.
    destruct Hacc' as (pj & Hpj & Ht & _). congruence.
Qed.

Lemma create_inv r spec parent idle scopes ids now r' res :
  registry_inv r → spec_ok spec →
  create_job_with_scopes r spec parent idle scopes ids now = Some (r', res) →
  registry_inv r'.
Proof.
  intros Hr Hok Hc. apply create_inversion in Hc as [f _|s Hsw _|s s' rec Ha Hsw Hlt Hp].
  - done.
  - eapply registry_inv_shrink; [done| |done|done|].
    + eapply swept_inv; [apply Hr|done].
    + intros id j' (j & Hj & Hev & _)%(swept_subset _ _ _ _ _ _ Hsw). eauto using ev_token.
  - edestruct admitted_store as (Hs' & Hn & _ & Hrec & Hlk); eauto using ri_store.
    assert (cancellation_token rec = next_token (runtime r)) as Htok by (by rewrite Hrec).
    clear Hrec.
    destruct (notify_created_frame rec (set_runtime (set_jobs r s') (new_token (runtime r))))
      as (Ej & Ert & Em & _).
    split; rewrite ?Ej, ?Ert, ?Em; simpl; [done|rewrite Hn; lia|..].
    + intros id j' [[_ ->]|(_ & j & Hj & Hev & _)]%Hlk; [lia|].
      rewrite (ev_token _ _ Hev).
      apply (ri_token _ Hr) in Hj. lia.
    + intros id1 j1 id2 j2 [[-> ->]|(_ & k1 & Hk1 & Hev1 & _)]%Hlk
        [[-> ->]|(_ & k2 & Hk2 & Hev2 & _)]%Hlk; [done|rewrite (ev_token _ _ Hev2)|
          rewrite (ev_token _ _ Hev1)|rewrite (ev_token _ _ Hev1), (ev_token _ _ Hev2)];
        intros Heq.
      * apply (ri_token _ Hr) in Hk2. lia.
      * apply (ri_token _ Hr) in Hk1. lia.
      * by eapply (ri_token_inj _ Hr).
Qed.

Lemma reserve_inv r scopes ids r' res :
  registry_inv r → reserve_mutation r scopes ids = Some (r', res) → registry_inv r'.
Proof.
  intros Hr. unfold reserve_mutation. destruct (shutting_down r); [naive_solver|].
  destruct (conflicting_scope _ _) as [[]|] eqn:Hc; [naive_solver|].
  destruct (vacant_id _ _ _ _ _) as [owner|] eqn:Hv; [|done]. intros [= <- <-].
  apply vacant_id_spec in Hv as [Hv _].
  eapply registry_inv_shrink; [done| |done|done|]; simpl; rewrite ?reserve_scopes_by_id; [|eauto].
  destruct (ri_store _ Hr) as [Hi Hf]. split; [|by rewrite reserve_scopes_by_id].
  apply reserve_scopes_inv; [done| |congruence].
  intros sc Hsc. left. by apply (conflicting_scope_None _ _ Hc).
Qed.

Lemma reserve_job_inv r id scopes :
  registry_inv r → registry_inv (reserve_job_scopes r id scopes).1.
Proof.
  intros Hr. unfold reserve_job_scopes. destruct (shutting_down r); [done|].
  destruct (get (jobs r) id) as [j|] eqn:Hg; [|done].
  destruct (is_terminal (state j)) eqn:Ht; [done|].
  destruct (conflicting_scope_except _ _ _) as [[]|] eqn:Hc; [done|].
  eapply registry_inv_shrink; [done| |done|done|]; simpl; rewrite ?reserve_scopes_by_id; [|eauto].
  destruct (ri_store _ Hr) as [Hi Hf]. split; [|by rewrite reserve_scopes_by_id].
  apply reserve_scopes_inv; [done| |].
  - intros sc Hsc. destruct (conflicting_scope_except_None _ _ _ Hc sc Hsc) as [Ho _].
    destruct (active_by_scope (jobs r) !! sc) as [o|]; [|by left].
    right. f_equal. specialize (Ho _ eq_refl). congruence.
  - intros j' Hj'. unfold get in Hg. congruence.
Qed.

Lemma remove_queued_leaf_shrink s id id' j' :
  by_id (Store.remove_queued_leaf s id).1 !! id' = Some j' → by_id s !! id' = Some j'.
Proof.
  rewrite remove_queued_leaf_spec. destruct (by_id s !! id) as [j|]; [|done].
  destruct (_ || _ || _); [done|]. simpl. rewrite remove_by_id, lookup_delete.
  by case_decide.
Qed.

Lemma step_inv d r r' : registry_inv r → step d r r' → registry_inv r'.
Proof.
  intros Hr []; try (by apply update_inv); try (by eapply registry_inv_same).
  - by eapply (create_inv r).
  - by eapply reserve_inv.
  - eapply registry_inv_shrink; [done| |done|done|]; simpl; rewrite ?release_scopes_by_id; [|eauto].
    destruct (ri_store _ Hr). split; [by apply release_scopes_inv|].
    by rewrite release_scopes_by_id.
  - by apply reserve_job_inv.
  - unfold remove_queued_leaf. destruct (Store.remove_queued_leaf (jobs r) id) as [s b] eqn:E.
    change s with (s, b).1. rewrite <- E.
    eapply registry_inv_shrink; [done| |done|done|]; simpl.
    + apply remove_queued_leaf_inv, Hr.
    + eauto using remove_queued_leaf_shrink.
  - eapply registry_inv_shrink; [done| |done|done|]; simpl.
    + apply cleanup_inv, Hr.
    + intros id j' (j & Hj & -> & _)%cleanup_Some. exists j. split; [done|].
      by destruct (warned_fields now j) as (_ & _ & _ & _ & _ & _ & _ & _ & ->).
  - unfold cancel. destruct (cancellation_token_for r id); by eapply registry_inv_same.
Qed.

(** *** Records across a step *)

Lemma update_records r id v now next id' :
  by_id (jobs (update r id v now (unless_terminal next)).1) !! id' =
    match by_id (jobs r) !! id' with
    | Some j => if decide (id = id') then
                  if is_terminal (state j) then Some j else Some (touch (set_state j next) now)
                else Some j
    | None => None
    end.
Proof.
  destruct (update_frame r id v now (unless_terminal next)) as [-> _].
  rewrite transition_by_id. unfold unless_terminal.
  destruct (by_id (jobs r) !! id) as [old|] eqn:Hold.
  - destruct (is_terminal (state old)) eqn:Ht.
    + destruct (by_id (jobs r) !! id') eqn:Hj; [|done]. case_decide; [|done].
      simplify_eq. by rewrite Ht.
    + rewrite lookup_insert. case_decide; [|by case_match]. subst. by rewrite Hold, Ht.
  - destruct (by_id (jobs r) !! id') eqn:Hj; [|done]. case_decide; [|done]. congruence.
Qed.

(** Every tracked record after a step is the evolution of a tracked one, or was
    admitted by this step. *)
Inductive record_origin d r r' id (j' : JobSnapshot) : Prop :=
| record_kept j : by_id (jobs r) !! id = Some j → evolves j j' → record_origin d r r' id j'
| record_new spec parent idle scopes ids now h :
    spec_ok spec → may_create d r spec idle ids →
    create_job_with_scopes r spec parent idle scopes ids now = Some (r', Ok h) →
    handle_id h = id → by_id (jobs r') !! id = Some j' → job_id j' = id →
    (∀ j, by_id (jobs r) !! id = Some j → is_terminal (state j) = true) →
    is_terminal (state j') = false → cancellation_token j' = next_token (runtime r) →
    child_job_ids j' = [] → record_origin d r r' id j'.

Lemma update_origin d r r' id v now next id' j' :
  by_id (jobs (update r id v now (unless_terminal next)).1) !! id' = Some j' →
  record_origin d r r' id' j'.
Proof.
  rewrite update_records. destruct (by_id (jobs r) !! id') as [j|] eqn:Hj; [|done].
  case_decide; [destruct (is_terminal (state j)) eqn:Ht|]; intros [= <-].
  all: eapply record_kept; eauto using transition_evolves; reflexivity.
Qed.

Lemma same_origin d r r' id j : by_id (jobs r) !! id = Some j → record_origin d r r' id j.
Proof. intros. eapply record_kept; [done|reflexivity]. Qed.

Lemma create_origin d r spec parent idle scopes ids now r' res id j' :
  registry_inv r → spec_ok spec → may_create d r spec idle ids →
  create_job_with_scopes r spec parent idle scopes ids now = Some (r', res) →
  by_id (jobs r') !! id = Some j' → record_origin d r r' id j'.
Proof.
  intros Hr Hok Hmay Hc. pose proof Hc as Hc'. revert Hc'.
  apply create_inversion in Hc as [f _|s Hsw _|s s' rec Ha Hsw Hlt Hp]; intros Hc'.
  - apply same_origin.
  - simpl. intros (j & Hj & Hev & _)%(swept_subset _ _ _ _ _ _ Hsw). by eapply record_kept.
  - edestruct admitted_store as (Hs' & Hn & Hv & Hrec & Hlk); eauto using ri_store.
    destruct (notify_created_frame rec (set_runtime (set_jobs r s') (new_token (runtime r))))
      as [Ej _].
    rewrite Ej. simpl. intros Hj'. pose proof Hj' as Hj2. apply Hlk in Hj2.
    destruct Hj2 as [[-> ->]|(_ & j & Hj & Hev & _)]; [|by eapply record_kept].
    eapply (record_new _ _ _ _ _ spec parent idle scopes ids now);
      [done|done|exact Hc'|done|by rewrite Ej|done| | | |]; [|by rewrite Hrec..].
    intros j Hj. clear Hrec.
    destruct (is_terminal (state j)) eqn:Ht; [done|].
    destruct (swept_live _ _ _ _ _ _ Hsw Hj Ht) as (j'' & Hj'' & _). congruence.
Qed.

Lemma step_origin d r r' id j' :
  registry_inv r → step d r r' → by_id (jobs r') !! id = Some j' → record_origin d r r' id j'.
Proof.
  intros Hr []; try (apply update_origin); try (simpl; by apply same_origin).
  - by eapply create_origin.
  - intros Hj. apply same_origin. revert Hj.
    match goal with H : reserve_mutation _ _ _ = _ |- _ => revert H end.
    unfold reserve_mutation. repeat case_match; intros; simplify_eq; try done.
    simpl in *. by rewrite reserve_scopes_by_id in *.
  - simpl. rewrite release_scopes_by_id. apply same_origin.
  - unfold reserve_job_scopes. repeat case_match; simpl; rewrite ?reserve_scopes_by_id;
      apply same_origin.
  - unfold remove_queued_leaf.
    pose proof (remove_queued_leaf_shrink (jobs r) id0 id j') as Hsh.
    destruct (Store.remove_queued_leaf (jobs r) id0). simpl in *. auto using same_origin.
  - simpl. intros (j & Hj & -> & _)%cleanup_Some. eauto using record_kept, warned_evolves.
  - unfold cancel. case_match; simpl; apply same_origin.
Qed.

(** *** Aliases across a step *)

Lemma transition_terminal_event st next old now :
  state old = st →
  is_terminal_event (classify (is_queued st) (is_running st) (is_terminal st)
    (touch (set_state old next) now)) = negb (is_terminal st) && is_terminal next.
Proof. intros _. unfold classify. simpl. by destruct st, next. Qed.

Lemma update_scopes r id v now next sc :
  index_inv (jobs r) →
  active_by_scope (jobs (update r id v now (unless_terminal next)).1) !! sc =
    match by_id (jobs r) !! id with
    | Some j =>
        if decide (is_terminal (state j) = false ∧ is_terminal next = true ∧
                   active_by_scope (jobs r) !! sc = Some id)
        then None else active_by_scope (jobs r) !! sc
    | None => active_by_scope (jobs r) !! sc
    end.
Proof.
  intros Hi. destruct (update_frame r id v now (unless_terminal next)) as [-> _].
  rewrite transition_state_eq. destruct (by_id (jobs r) !! id) as [j|] eqn:Hj; [|done].
  unfold unless_terminal. case_decide as Hd.
  - destruct Hd as (Ht & Hn & Ho). rewrite Ht. simpl.
    rewrite <- Ht, transition_terminal_event, Ht, Hn by done. simpl.
    rewrite release_scopes_lookup by done. by rewrite decide_True.
  - destruct (is_terminal (state j)) eqn:Ht; [done|]. simpl.
    rewrite <- Ht, transition_terminal_event, Ht by done. simpl.
    destruct (is_terminal next); [|done]. rewrite release_scopes_lookup by done.
    rewrite decide_False; naive_solver.
Qed.

(** The ways an alias is freed: its reservation is dropped, its job is removed
    before it started, or its job reaches a terminal state. *)
Inductive alias_freed r r' (o : JobId) : Prop :=
| freed_by_drop :
    by_id (jobs r) !! o = None → r' = drop_reservation r o → alias_freed r r' o
| freed_by_removal j :
    by_id (jobs r) !! o = Some j → is_queued (state j) = true →
    by_id (jobs r') !! o = None → alias_freed r r' o
| freed_by_end j j' :
    by_id (jobs r) !! o = Some j → is_terminal (state j) = false →
    by_id (jobs r') !! o = Some j' → is_terminal (state j') = true → alias_freed r r' o.

Definition alias_step r r' (sc : JobScope) (o : JobId) : Prop :=
  active_by_scope (jobs r') !! sc = Some o ∨
  (active_by_scope (jobs r') !! sc = None ∧ alias_freed r r' o).

Lemma update_alias r id v now next sc o :
  index_inv (jobs r) → active_by_scope (jobs r) !! sc = Some o →
  alias_step r (update r id v now (unless_terminal next)).1 sc o.
Proof.
  intros Hi Hsc. unfold alias_step. rewrite update_scopes by done.
  destruct (by_id (jobs r) !! id) as [j|] eqn:Hj; [|by left].
  case_decide as Hd; [|by left]. right. split; [done|]. destruct Hd as (Ht & Hn & Ho).
  rewrite Hsc in Ho. injection Ho as ->. eapply freed_by_end; [done|done| |].
  - rewrite update_records, Hj, decide_True, Ht by done. reflexivity.
  - done.
Qed.

Lemma create_alias r spec parent idle scopes ids now r' res sc o :
  registry_inv r → 
  create_job_with_scopes r spec parent idle scopes ids now = Some (r', res) →
  active_by_scope (jobs r) !! sc = Some o → active_by_scope (jobs r') !! sc = Some o.
Proof.
  intros Hr Hc Hsc. destruct (ri_store _ Hr) as [Hi _].
  apply create_inversion in Hc as [f _|s Hsw _|s s' rec Ha Hsw Hlt Hp]; [done|simpl|].
  - by destruct (swept_scopes _ _ _ _ Hi Hsw) as [_ ->].
  - edestruct notify_created_frame as [-> _]. simpl.
    apply admission_refused_None in Ha as (_ & Hacc & _ & Hfree).
    apply publish_spec in Hp as (s1 & Hins & ->); [|by eapply swept_accepts].
    apply insert_spec in Hins as (_ & _ & _ & _ & _ & E & _). simpl.
    destruct (swept_scopes _ _ _ _ Hi Hsw) as [_ E'].
    rewrite reserve_scopes_lookup, E, E'. case_decide as Hd; [|done].
    apply (conflicting_scope_None _ _ Hfree) in Hd as [Hd _]. congruence.
Qed.

Lemma remove_alias r id sc o :
  registry_inv r → active_by_scope (jobs r) !! sc = Some o →
  alias_step r (remove_queued_leaf r id).1 sc o.
Proof.
  intros Hr Hsc. destruct (ri_store _ Hr) as [Hi _]. unfold alias_step, remove_queued_leaf.
  rewrite remove_queued_leaf_spec. destruct (by_id (jobs r) !! id) as [j|] eqn:Hj; [|by left].
  destruct (_ || _ || _) eqn:E; [by left|]. reflect_bools. simpl.
  unfold Store.remove. rewrite Hj. simpl.
  destruct (decide (o = id)) as [->|Hne].
  - right. pose proof (inv_scope _ Hi sc id) as [(S & HS & Hin) _]; [done|].
    unfold release_scopes. simpl. rewrite HS. simpl.
    rewrite lookup_foldr_delete, decide_True by done. split; [done|].
    eapply freed_by_removal; [done|done|]. simpl. apply lookup_delete_eq.
  - left. unfold release_scopes. simpl.
    destruct (scopes_by_owner (jobs r) !! id) as [S|] eqn:HS; [|done]. simpl.
    rewrite lookup_foldr_delete. case_decide as Hd; [|done].
    assert (active_by_scope (jobs r) !! sc = Some id) by (apply Hi; eauto). congruence.
Qed.

Lemma reserve_alias s owner l sc o :
  (∀ x, x ∈ l → ∀ o', active_by_scope s !! x = Some o' → o' = owner) →
  active_by_scope s !! sc = Some o →
  active_by_scope (reserve_scopes s owner l) !! sc = Some o.
Proof.
  intros Hl Hsc. rewrite reserve_scopes_lookup. case_decide as Hd; [|done].
  f_equal. symmetry. by eapply Hl.
Qed.

Lemma step_alias d r r' sc o :
  registry_inv r → step d r r' → active_by_scope (jobs r) !! sc = Some o →
  alias_step r r' sc o.
Proof.
  intros Hr Hst Hsc. destruct (ri_store _ Hr) as [Hi _].
  destruct Hst; try (by apply update_alias); try (by left).
  - left. by eapply create_alias.
  - left. revert H0. unfold reserve_mutation. destruct (shutting_down r); [naive_solver|].
    destruct (conflicting_scope _ _) as [[]|] eqn:Hc; [naive_solver|].
    destruct (vacant_id _ _ _ _ _) as [owner|]; [|done]. intros [= <- <-]. simpl.
    apply reserve_alias; [|done]. intros x Hx o' Ho'.
    apply (conflicting_scope_None _ _ Hc) in Hx as [Hx _]. congruence.
  - unfold alias_step, drop_reservation. simpl. rewrite release_scopes_lookup by done.
    case_decide as Hd; [|by left]. right. split; [done|]. assert (o = owner) as -> by congruence.
    by apply freed_by_drop.
  - left. unfold reserve_job_scopes. destruct (shutting_down r); [done|].
    destruct (get (jobs r) id) as [j|] eqn:Hg; [|done].
    destruct (is_terminal (state j)) eqn:Ht; [done|].
    destruct (conflicting_scope_except _ _ _) as [[]|] eqn:Hc; [done|]. simpl.
    apply reserve_alias; [|done]. intros x Hx o' Ho'.
    destruct (conflicting_scope_except_None _ _ _ Hc x Hx) as [Hf _].
    specialize (Hf _ Ho'). congruence.
  - by apply remove_alias.
  - left. simpl. by destruct (cleanup_scopes (jobs r) now (ttl r) Hi) as [_ ->].
  - left. unfold cancel. by case_match.
Qed.

Lemma reachable_inv d r : reachable d r → registry_inv r.
Proof.
  intros (r0 & H0 & Hs). apply initial_inv in H0. induction Hs; eauto using step_inv.
Qed.

(** ** Totality of admission *)

Lemma drawn_seq fuel ids k :
  drawn fuel (fun k => ids (S k)) k (ids k) = ids <$> seq k fuel.
Proof. revert k. induction fuel as [|fuel IH]; intros k; simpl; [done|]. by rewrite IH. Qed.

Lemma drawn_NoDup fuel ids : Inj (=) (=) ids → NoDup (drawn fuel (fun k => ids (S k)) 0 (ids 0)).
Proof. intros. rewrite drawn_seq. by apply (NoDup_fmap_2 _), NoDup_seq. Qed.

Lemma create_returns r spec parent idle scopes ids now :
  registry_inv r → Inj (=) (=) ids →
  is_Some (create_job_with_scopes r spec parent idle scopes ids now).
Proof.
  intros Hr Hinj. unfold create_job_with_scopes.
  destruct (admission_refused _ _ _ _ _) eqn:Ha; [eauto|].
  destruct (capacity_check_spec r (jobs r) (at_sweep now)) as (s & Hsw & ->).
  destruct (max_jobs r <=? tracked_job_count s)%nat; [eauto|].
  apply admission_refused_None in Ha as (_ & Hacc & _).
  edestruct (publish_total s (JobSnapshot_new spec parent (ids 0) (next_token (runtime r))
    (at_new now))) as [[s' rec] ->]; [|by apply drawn_NoDup|eauto].
  by eapply swept_accepts.
Qed.

(** ** What an admission grants *)

(** A full registry was swept before it refused. *)
Lemma create_err r spec parent idle scopes ids now r' f :
  create_job_with_scopes r spec parent idle scopes ids now = Some (r', Err f) →
  r' = r ∨
  (r' = cleanup_expired r (at_sweep now) ∧ f = at_capacity_failure (tracked_job_count (jobs r')) (max_jobs r) ∧
   (max_jobs r ≤ tracked_job_count (jobs r'))%nat).
Proof.
  unfold create_job_with_scopes.
  destruct (admission_refused _ _ _ _ _); [intros [= <- <-]; by left|].
  unfold capacity_check.
  destruct (max_jobs r <=? tracked_job_count (jobs r))%nat eqn:E1; simpl.
  - destruct (max_jobs r <=? tracked_job_count (Store.cleanup_expired _ _ _))%nat eqn:E2.
    + intros Heq. simplify_eq. right. apply Nat.leb_le in E2. done.
    + by destruct (publish _ _ _ _ _) as [[]|].
  - rewrite E1. by destruct (publish _ _ _ _ _) as [[]|].
Qed.

Lemma swept_active s s' now ttl rk n :
  index_inv s → swept s s' now ttl →
  active_jobs (active_by_node s') rk n = active_jobs (active_by_node s) rk n.
Proof.
  intros Hi Hsw. assert (index_inv s') as Hi' by (destruct Hsw as [->| ->]; auto with rms).
  apply set_eq. intros id. rewrite (inv_active _ Hi), (inv_active _ Hi'). split.
  - intros (j' & Hj' & <- & <- & Hs).
    destruct (swept_subset _ _ _ _ _ _ Hsw Hj') as (j & Hj & Hev & Hst).
    exists j. unfold should_index in *. by rewrite <- Hst, <- (ev_node _ _ Hev), <- (ev_rack _ _ Hev).
  - intros (j & Hj & <- & <- & Hs). pose proof Hs as Hs2. unfold should_index in Hs2.
    apply andb_true_iff in Hs2 as [_ Ht%negb_true_iff].
    destruct (swept_live _ _ _ _ _ _ Hsw Hj Ht) as (j' & Hj' & Hst & _).
    destruct (swept_subset _ _ _ _ _ _ Hsw Hj') as (j0 & Hj0 & Hev & _). simplify_eq.
    exists j'. unfold should_index in *. by rewrite Hst, (ev_node _ _ Hev), (ev_rack _ _ Hev).
Qed.

Record granted r spec parent idle scopes (h : JobHandle) r' : Prop := {
  gr_open : shutting_down r = false;
  gr_record : ∃ j, by_id (jobs r') !! handle_id h = Some j ∧
    state j = spec_initial_state spec ∧ rack_id j = spec_rack_id spec ∧
    node_id j = spec_node_id spec ∧ parent_job_id j = parent ∧
    cancellation_token j = handle_token h ∧ workflow_type j = spec_workflow_type spec;
  gr_aliases : ∀ sc, sc ∈ admission_scopes spec idle scopes →
    active_by_scope (jobs r) !! sc = None ∧
    active_by_scope (jobs r') !! sc = Some (handle_id h);
  gr_others : ∀ sc, sc ∉ admission_scopes spec idle scopes →
    active_by_scope (jobs r') !! sc = active_by_scope (jobs r) !! sc;
  gr_idle : idle = true → spec_node_id spec ≠ "" →
    active_jobs (active_by_node (jobs r)) (spec_rack_id spec) (spec_node_id spec) = ∅ ∧
    active_jobs (active_by_node (jobs r')) (spec_rack_id spec) (spec_node_id spec)
      = {[handle_id h]};
  gr_parent : ∀ p, parent = Some p →
    ∃ pj pj', by_id (jobs r) !! p = Some pj ∧ is_terminal (state pj) = false ∧
      by_id (jobs r') !! p = Some pj' ∧
      child_job_ids pj' = child_job_ids pj ++ [handle_id h];
}.

Lemma linked_parent s s' now ttl m rec p pj cl :
  swept s s' now ttl → m = by_id s' → by_id s !! p = Some pj →
  is_terminal (state pj) = false → m !! job_id rec = None → parent_job_id rec = Some p →
  ∃ pj', linked m rec cl !! p = Some pj' ∧ child_job_ids pj' = child_job_ids pj ++ [job_id rec].
Proof.
  intros Hsw -> Hpj Ht Hv Hpar. destruct (swept_live _ _ _ _ _ _ Hsw Hpj Ht) as (j' & Hj' & _).
  destruct (swept_subset _ _ _ _ _ _ Hsw Hj') as (j & Hj & Hev & Hst). simplify_eq.
  unfold linked. rewrite Hpar, Hj', lookup_insert_eq. eexists. split; [done|]. simpl. f_equal.
  destruct Hsw as [->| ->]; [congruence|]. apply cleanup_Some in Hj' as (j0 & Hj0 & -> & _).
  simplify_eq. apply warned_fields.
Qed.

Lemma create_ok r spec parent idle scopes ids now r' h :
  registry_inv r → spec_ok spec →
  create_job_with_scopes r spec parent idle scopes ids now = Some (r', Ok h) →
  granted r spec parent idle scopes h r'.
Proof.
  intros Hr Hok Hc. apply create_inversion in Hc.
  inversion Hc as [| |s s' rec Ha Hsw Hlt Hp Er' Eh]. subst.
  destruct (ri_store _ Hr) as [Hi _].
  edestruct (admitted_store r) as ([Hi' _] & _ & Hv & Hrec & Hlk); eauto using ri_store.
  pose proof Ha as (Hsd & Hacc & Hidle & Hfree)%admission_refused_None.
  pose proof (swept_scopes _ _ _ _ Hi Hsw) as [_ Esc].
  pose proof Hp as Hp'. apply publish_spec in Hp' as (s1 & Hins & Es'); [|by eapply swept_accepts].
  apply insert_spec in Hins as (_ & _ & _ & _ & Eact & Esc1 & _).
  assert (by_id s' !! job_id rec = Some rec) as Hself.
  { subst s'. by apply linked_self. }
  destruct (notify_created_frame rec (set_runtime (set_jobs r s') (new_token (runtime r))))
    as [Ej _].
  split; rewrite ?Ej; simpl; try done.
  - exists rec. rewrite Hrec. simpl. rewrite <- Hrec at 1. done.
  - intros sc Hsc. split; [by apply (conflicting_scope_None _ _ Hfree)|].
    subst s'. simpl. by rewrite reserve_scopes_lookup, decide_True.
  - intros sc Hsc. subst s'. simpl. by rewrite reserve_scopes_lookup, decide_False, Esc1, Esc.
  - intros -> Hn. split; [auto|]. subst s'. simpl. rewrite reserve_scopes_active, Eact.
    assert (should_index (JobSnapshot_new spec parent (ids 0) (next_token (runtime r)) (at_new now))
            = true) as ->.
    { unfold should_index. simpl. rewrite Hok. by rewrite bool_decide_eq_true_2. }
    rewrite active_jobs_insert, decide_True by done. simpl.
    rewrite (swept_active _ _ _ _ _ _ Hi Hsw), Hidle by done. set_solver.
  - intros p ->. destruct Hacc as (pj & Hpj & Ht & Hpn).
    destruct (linked_parent (jobs r) s (at_sweep now) (ttl r) (by_id s) rec p pj (at_attach now))
      as (pj' & Hpj' & Hch); try done; [by rewrite Hrec|].
    exists pj, pj'. subst s'. done.
Qed.
End registry.
