(* ===== verification/JobEventProofs.v ===== *)
(** * Histories of a job registry

    Lemmas that hold of the registries reachable under a discipline of the
    callers: node-idle admission, and job IDs that never repeat (version 4
    UUIDs).  The log is the history: it names every job ever admitted. *)

From S2P Require Import Prelude JobTypes EndpointScope Json RmsDomain JobStore.
From S2P Require Import JobStoreProofs JobRegistry JobRegistryProofs.
Import Store Registry.
Local Open Scope string_scope.
Local Open Scope list_scope.

Section disciplines.
Context `{!JobDomain} {W : Type}.
Implicit Types (r : JobRegistry (W := W)).

Lemma steps_ind_inv (d : discipline (W := W)) (P : JobRegistry (W := W) → Prop) r0 r :
  (∀ r r', registry_inv r → P r → step d r r' → P r') →
  registry_inv r0 → P r0 → steps d r0 r → registry_inv r ∧ P r.
Proof.
  intros Hstep H0 HP Hs. induction Hs as [r|r1 r2 r3 H12 H23 IH]; [done|].
  apply IH; [by eapply step_inv|by eapply Hstep].
Qed.

Lemma reachable_ind (d : discipline (W := W)) (P : JobRegistry (W := W) → Prop) r :
  (∀ r, initial r → P r) →
  (∀ r r', registry_inv r → P r → step d r r' → P r') →
  reachable d r → P r.
Proof.
  intros H0 Hstep (r0 & Hi & Hs). eapply (steps_ind_inv d P r0 r); eauto using initial_inv.
Qed.

(** ** Three kinds of steps *)

(** A step that neither admits a job nor moves one: it may drop records. *)
Record quiet (d : discipline) r r' : Prop := {
  q_log : log (runtime r') = log (runtime r);
  q_world : world r' = world r;
  q_created : created_observer r' = created_observer r;
  q_terminal : terminal_observer r' = terminal_observer r;
  q_kept : ∀ id j', by_id (jobs r') !! id = Some j' →
    ∃ j, by_id (jobs r) !! id = Some j ∧ evolves j j' ∧ state j' = state j ∧
         child_job_ids j' = child_job_ids j;
  q_dropped : ∀ id j, by_id (jobs r) !! id = Some j → by_id (jobs r') !! id = None →
    is_terminal (state j) = true ∨ may_remove d r id;
}.

Inductive step_kind (d : discipline) r r' : Prop :=
| kind_quiet : quiet d r r' → step_kind d r r'
| kind_update id v now next :
    r' = (update r id v now (unless_terminal next)).1 → step_kind d r r'
| kind_create spec parent idle scopes ids now h :
    spec_ok spec → may_create d r spec idle ids →
    create_job_with_scopes r spec parent idle scopes ids now = Some (r', Ok h) →
    step_kind d r r'.

Lemma quiet_same d r r' :
  log (runtime r') = log (runtime r) → world r' = world r →
  created_observer r' = created_observer r → terminal_observer r' = terminal_observer r →
  by_id (jobs r') = by_id (jobs r) → quiet d r r'.
Proof.
  intros Hl Hw Hc Ht Hb. split; try done; rewrite Hb; [|congruence].
  intros id j Hj. exists j. split_and!; [done|reflexivity|done|done].
Qed.

Lemma quiet_sweep d r now : quiet d r (cleanup_expired r now).
Proof.
  split; simpl; try done.
  - intros id j' (j & Hj & -> & _)%cleanup_Some. exists j.
    destruct (warned_fields now j) as (_ & -> & _ & _ & -> & _). auto using warned_evolves.
  - intros id j Hj. rewrite cleanup_lookup, Hj. case_decide as Hd; [|done]. intros _. left.
    rewrite (elem_of_sweep _ _ _ _ _ Hj) in Hd. destruct Hd as [He _].
    by eapply expired_terminal.
Qed.

Lemma quiet_remove d r id : may_remove d r id → quiet d r (remove_queued_leaf r id).1.
Proof.
  intros Hm. unfold remove_queued_leaf. rewrite remove_queued_leaf_spec.
  destruct (by_id (jobs r) !! id) as [j|] eqn:Hj; [|by apply quiet_same].
  destruct (_ || _ || _); [by apply quiet_same|]. split; simpl; try done.
  - intros id' j'. rewrite remove_by_id, lookup_delete. case_decide; [done|]. intros Hj'.
    exists j'. split_and!; [done|reflexivity|done|done].
  - intros id' j' Hj'. rewrite remove_by_id, lookup_delete. case_decide; [|congruence].
    subst. auto.
Qed.

Lemma step_kinds d r r' : step d r r' → step_kind d r r'.
Proof.
  intros []; try (by eapply kind_update); try (by apply kind_quiet, quiet_same).
  - destruct res as [h|f]; [|].
    + by eapply kind_create.
    + apply kind_quiet.
      match goal with H : create_job_with_scopes _ _ _ _ _ _ _ = _ |- _ =>
        apply create_err in H as [->|(-> & _)] end; [by apply quiet_same|apply quiet_sweep].
  - apply kind_quiet.
    match goal with H : Registry.reserve_mutation _ _ _ = _ |- _ => revert H end.
    unfold reserve_mutation. repeat case_match; intros; simplify_eq; try (by apply quiet_same).
    apply quiet_same; try done. simpl. apply reserve_scopes_by_id.
  - apply kind_quiet, quiet_same; try done. simpl. apply release_scopes_by_id.
  - apply kind_quiet. unfold reserve_job_scopes.
    repeat case_match; apply quiet_same; try done. simpl. apply reserve_scopes_by_id.
  - by apply kind_quiet, quiet_remove.
  - apply kind_quiet, quiet_sweep.
  - apply kind_quiet. unfold cancel. case_match; by apply quiet_same.
Qed.

(** ** One active job per node *)

(** Every production path admits through a node-idle create; aggregate parents
    have no node. *)
Definition node_exclusive : discipline (W := W) :=
  mkDiscipline (fun _ spec idle _ => idle = true ∨ spec_node_id spec = "") (fun _ _ => True).

Definition exclusive r : Prop :=
  ∀ rk n id1 id2,
    id1 ∈ active_jobs (active_by_node (jobs r)) rk n →
    id2 ∈ active_jobs (active_by_node (jobs r)) rk n → id1 = id2.

(** An active job was active before the step, or is the only one on its node. *)
Lemma exclusive_origin r r' rk n id :
  registry_inv r → step node_exclusive r r' →
  id ∈ active_jobs (active_by_node (jobs r')) rk n →
  id ∈ active_jobs (active_by_node (jobs r)) rk n ∨
  active_jobs (active_by_node (jobs r')) rk n = {[id]}.
Proof.
  intros Hr Hst Hid. pose proof (step_inv _ _ _ Hr Hst) as Hr'.
  destruct (ri_store _ Hr) as [Hi _], (ri_store _ Hr') as [Hi' _].
  apply (inv_active _ Hi') in Hid as (j' & Hj' & <- & <- & Hsi).
  pose proof Hsi as Hsi2. apply andb_true_iff in Hsi2 as [Hn Ht].
  apply bool_decide_eq_true in Hn. apply negb_true_iff in Ht.
  destruct (step_origin _ _ _ _ _ Hr Hst Hj') as [j Hj Hev|spec parent idle scopes ids now h Hok
    Hmay Hc Hh _ _ _ _ _ _].
  - left. apply (inv_active _ Hi). exists j. split_and!;
      [done|symmetry; apply Hev|symmetry; apply Hev|]. unfold should_index.
    rewrite (ev_node _ _ Hev) in Hn. rewrite bool_decide_eq_true_2 by done.
    destruct (is_terminal (state j)) eqn:Hjt; [|done].
    destruct (ev_frozen _ _ Hev Hjt) as [Hs _]. congruence.
  - right. apply create_ok in Hc as [_ (j & Hj & _ & Hrk & Hnd & _) _ _ Hidle _]; [|done..].
    rewrite Hh in *. simplify_eq. rewrite Hrk, Hnd in *.
    destruct Hmay as [->|Hemp]; [|done]. by apply Hidle.
Qed.

Lemma exclusive_step r r' :
  registry_inv r → exclusive r → step node_exclusive r r' → exclusive r'.
Proof.
  intros Hr Hex Hst rk n id1 id2 H1 H2.
  destruct (exclusive_origin _ _ _ _ _ Hr Hst H1) as [H1'|E]; [|set_solver].
  destruct (exclusive_origin _ _ _ _ _ Hr Hst H2) as [H2'|E]; [|set_solver].
  by eapply Hex.
Qed.

Lemma initial_exclusive r : initial r → exclusive r.
Proof. intros [] rk n id1 id2. unfold active_jobs. simpl. rewrite lookup_empty. set_solver. Qed.

(** ** IDs that never repeat *)

Definition created_id (e : LogEvent) : option JobId :=
  match e with
  | LogJob m id _ _ _ _ _ => if bool_decide (m = "job created") then Some id else None
  | _ => None
  end.

Definition created_ids r : list JobId := omap created_id (log (runtime r)).

Definition fresh_uuids : discipline (W := W) :=
  mkDiscipline (fun r _ _ ids => ∀ k, ids k ∉ created_ids r) (fun _ _ => True).

(** Ends of spans: the last thing [log_terminal] records. *)
Definition ended_id (e : LogEvent) : option JobId :=
  match e with SpanEnd id => Some id | _ => None end.

Definition ended_ids r : list JobId := omap ended_id (log (runtime r)).

(** What a transition adds to the log. *)
Definition event_log (e : option LifecycleTransition) (v : bool) : list LogEvent :=
  match e with
  | Some (Started s) => log_started s
  | Some (Progress s) => log_progress s
  | Some (Terminal s) => log_terminal s v
  | None => []
  end.

Lemma update_log r id v now f :
  log (runtime (update r id v now f).1) =
    log (runtime r) ++ event_log (transition_state (jobs r) id now f).2.2 v.
Proof.
  unfold update. destruct (transition_state _ _ _ _) as [s [changed event]]. simpl.
  destruct event as [[]|]; simpl; try done.
  - by destruct (observe_frame (terminal_observer r) s0
      (log_events (set_jobs r s) (log_terminal s0 v))) as (_ & -> & _).
  - by rewrite app_nil_r.
Qed.

Lemma log_terminal_ids s v :
  omap created_id (log_terminal s v) = [] ∧ omap ended_id (log_terminal s v) = [job_id s].
Proof. unfold log_terminal. destruct (state s), v; done. Qed.

Lemma event_log_ids r id now v next :
  omap created_id (event_log (transition_state (jobs r) id now (unless_terminal next)).2.2 v) = [] ∧
  omap ended_id (event_log (transition_state (jobs r) id now (unless_terminal next)).2.2 v) =
    match by_id (jobs r) !! id with
    | Some j => if negb (is_terminal (state j)) && is_terminal next then [job_id j] else []
    | None => []
    end.
Proof.
  rewrite transition_state_eq. destruct (by_id (jobs r) !! id) as [j|]; [|done].
  unfold unless_terminal. destruct (is_terminal (state j)) eqn:Ht; [done|]. simpl.
  unfold classify. simpl.
  destruct (state j) eqn:Hs, next; simpl in *; try done; by destruct v.
Qed.

Lemma update_ids r id v now next :
  created_ids (update r id v now (unless_terminal next)).1 = created_ids r ∧
  ended_ids (update r id v now (unless_terminal next)).1 = ended_ids r ++
    match by_id (jobs r) !! id with
    | Some j => if negb (is_terminal (state j)) && is_terminal next then [job_id j] else []
    | None => []
    end.
Proof.
  unfold created_ids, ended_ids. rewrite update_log, !omap_app.
  destruct (event_log_ids r id now v next) as [-> ->]. by rewrite app_nil_r.
Qed.
(** ** The effect of an admission on the history *)

Lemma vacant_id_drawn fuel s ids k id id' :
  vacant_id fuel s ids k id = Some id' → id' ∈ drawn fuel ids k id.
Proof.
  revert k id. induction fuel as [|fuel IH]; intros k id; simpl; [done|].
  destruct (has_scope_owner s id); [intros; right; eauto|].
  destruct (by_id s !! id); [intros; right; eauto|]. intros [= <-]. left.
Qed.

Record admitted r parent (ids : nat → JobId) h r' (rec : JobSnapshot) : Prop := {
  ad_drawn : ∃ k, handle_id h = ids k;
  ad_id : job_id rec = handle_id h;
  ad_rec : by_id (jobs r') !! handle_id h = Some rec;
  ad_live : is_terminal (state rec) = false;
  ad_parent : parent_job_id rec = parent;
  ad_leaf : child_job_ids rec = [];
  ad_log : log (runtime r') = log (runtime r) ++ log_created rec;
  ad_world : world r' =
    match created_observer r with Some f => f rec (world r) | None => world r end;
  ad_obs : created_observer r' = created_observer r ∧ terminal_observer r' = terminal_observer r;
  ad_others : ∀ id j', by_id (jobs r') !! id = Some j' → id ≠ handle_id h →
    ∃ j, by_id (jobs r) !! id = Some j ∧ evolves j j' ∧ state j' = state j ∧
      (child_job_ids j' = child_job_ids j ∨
       (parent = Some id ∧ child_job_ids j' = child_job_ids j ++ [handle_id h]));
  ad_dropped : ∀ id j, by_id (jobs r) !! id = Some j → by_id (jobs r') !! id = None →
    is_terminal (state j) = true;
}.

Lemma swept_child s s' now ttl id j' :
  swept s s' now ttl → by_id s' !! id = Some j' →
  ∃ j, by_id s !! id = Some j ∧ evolves j j' ∧ state j' = state j ∧
       child_job_ids j' = child_job_ids j.
Proof.
  intros [->| ->] Hj'.
  - exists j'. split_and!; [done|reflexivity|done|done].
  - apply cleanup_Some in Hj' as (j & Hj & -> & _). exists j.
    destruct (warned_fields now j) as (_ & -> & _ & _ & -> & _). auto using warned_evolves.
Qed.

Lemma create_admitted_spec r spec parent idle scopes ids now r' h :
  registry_inv r → spec_ok spec →
  create_job_with_scopes r spec parent idle scopes ids now = Some (r', Ok h) →
  ∃ rec, admitted r parent ids h r' rec ∧ workflow_type rec = spec_workflow_type spec ∧
    node_id rec = spec_node_id spec.
Proof.
  intros Hr Hok Hc. apply create_inversion in Hc.
  inversion Hc as [| |s s' rec Ha Hsw Hlt Hp Er' Eh]. subst. exists rec.
  edestruct (admitted_store r) as ([Hi' _] & _ & Hv & Hrec & Hlk); eauto using ri_store.
  pose proof Ha as (_ & Hacc & _)%admission_refused_None.
  pose proof Hp as Hp'. apply publish_spec in Hp' as (s1 & Hins & Es'); [|by eapply swept_accepts].
  assert (∃ k, job_id rec = ids k) as Hk.
  { unfold Store.insert, insert_with_id_generator in Hins.
    destruct (vacant_id _ _ _ _ _) as [id|] eqn:Hvi; [|done]. apply vacant_id_drawn in Hvi.
    cbn [job_id JobSnapshot_new] in Hvi. rewrite (drawn_seq _ ids 0) in Hvi. apply list_elem_of_fmap in Hvi as (k & -> & _).
    exists k. by injection Hins as _ <-. }
  destruct (notify_created_frame rec (set_runtime (set_jobs r s') (new_token (runtime r))))
    as (Ej & Ert & _ & _ & _ & _ & Eco & Eto).
  split; [|by rewrite Hrec]. split; rewrite ?Ej, ?Ert; simpl; try done; try (by rewrite Hrec).
  - rewrite Es'. by apply linked_self.
  - unfold notify_created, observe. simpl. by destruct (created_observer r).
  - assert (parent_job_id rec = parent) as Hpr by (by rewrite Hrec). clear Hrec.
    intros id j' Hj' Hne. pose proof Hj' as Hj2. apply Hlk in Hj2 as [[? _]|(_ & j & Hj & Hev & Hst)];
      [done|]. exists j. split_and!; try done. rewrite Es' in Hj'. simpl in Hj'.
    apply linked_lookup in Hj' as [[? _]|(_ & j0 & Hj0 & Hor)]; [done| |done].
    destruct (swept_child _ _ _ _ _ _ Hsw Hj0) as (j1 & Hj1 & _ & _ & Hch). simplify_eq.
    destruct Hor as [->|[Hpar ->]]; [by left|]. right. simpl. by rewrite Hch.
  - clear Hrec. intros id j Hj Hnone. destruct (is_terminal (state j)) eqn:Ht; [done|].
    destruct (swept_live _ _ _ _ _ _ Hsw Hj Ht) as (j' & Hj' & _).
    exfalso. rewrite Es' in Hnone. simpl in Hnone. unfold linked in Hnone.
    destruct (parent_job_id rec) as [p|]; [destruct (by_id s !! p)|];
      rewrite ?lookup_insert_None in Hnone; naive_solver.
Qed.

(** ** The history invariant *)

Record history_inv r : Prop := {
  hi_tracked : ∀ id, is_Some (by_id (jobs r) !! id) → id ∈ created_ids r;
  hi_child : ∀ p pj c, by_id (jobs r) !! p = Some pj → c ∈ child_job_ids pj →
    c ∈ created_ids r;
  hi_ended : ∀ id, id ∈ ended_ids r → id ∈ created_ids r;
  hi_created_once : NoDup (created_ids r);
  hi_ended_once : NoDup (ended_ids r);
  hi_terminal : ∀ id j, by_id (jobs r) !! id = Some j →
    is_terminal (state j) = true ↔ id ∈ ended_ids r;
  hi_link : ∀ p pj c cj, by_id (jobs r) !! p = Some pj → c ∈ child_job_ids pj →
    by_id (jobs r) !! c = Some cj → parent_job_id cj = Some p;
}.

Lemma initial_history r : initial r → history_inv r.
Proof.
  intros []. split; unfold created_ids, ended_ids; simpl.
  - intros id [j Hj]. by rewrite lookup_empty in Hj.
  - intros *. by rewrite lookup_empty.
  - intros id. by intros ?%not_elem_of_nil.
  - constructor.
  - constructor.
  - intros *. by rewrite lookup_empty.
  - intros *. by rewrite lookup_empty.
Qed.

Lemma quiet_history d r r' : history_inv r → quiet d r r' → history_inv r'.
Proof.
  intros [H1 H2 H3 H4 H5 H6 H7] [Hl _ _ _ Hk _].
  assert (created_ids r' = created_ids r) as Ec by (unfold created_ids; by rewrite Hl).
  assert (ended_ids r' = ended_ids r) as Ee by (unfold ended_ids; by rewrite Hl).
  split; rewrite ?Ec, ?Ee; try done.
  - intros id [j' Hj']. destruct (Hk _ _ Hj') as (j & Hj & _). eauto.
  - intros p pj' c Hpj' Hc. destruct (Hk _ _ Hpj') as (pj & Hpj & _ & _ & Ech).
    rewrite Ech in Hc. eauto.
  - intros id j' Hj'. destruct (Hk _ _ Hj') as (j & Hj & _ & -> & _). eauto.
  - intros p pj' c cj' Hpj' Hc Hcj'. destruct (Hk _ _ Hpj') as (pj & Hpj & _ & _ & Ech).
    destruct (Hk _ _ Hcj') as (cj & Hcj & Hev & _). rewrite Ech in Hc.
    rewrite (ev_parent _ _ Hev). eauto.
Qed.

Lemma update_history r id v now next :
  registry_inv r → history_inv r →
  history_inv (update r id v now (unless_terminal next)).1.
Proof.
  intros Hr [H1 H2 H3 H4 H5 H6 H7]. destruct (update_ids r id v now next) as [Ec Ee].
  assert (∀ id' j', by_id (jobs (update r id v now (unless_terminal next)).1) !! id' = Some j' →
    ∃ j, by_id (jobs r) !! id' = Some j ∧ child_job_ids j' = child_job_ids j ∧
      parent_job_id j' = parent_job_id j) as Hk.
  { intros id' j'. rewrite update_records. destruct (by_id (jobs r) !! id') as [j|]; [|done].
    repeat case_match; intros [= <-]; eauto. }
  split; rewrite ?Ec, ?Ee; try done.
  - intros id' [j' Hj']. destruct (Hk _ _ Hj') as (j & Hj & _). eauto.
  - intros p pj' c Hpj' Hc. destruct (Hk _ _ Hpj') as (pj & Hpj & Ech & _).
    rewrite Ech in Hc. eauto.
  - intros id'. rewrite elem_of_app. intros [?|Hin]; [eauto|].
    destruct (by_id (jobs r) !! id) as [j|] eqn:Hj; [|by apply not_elem_of_nil in Hin].
    destruct (_ && _); [|by apply not_elem_of_nil in Hin].
    apply list_elem_of_singleton in Hin as ->.
    rewrite (inv_id _ (proj1 (ri_store _ Hr)) _ _ Hj). eauto.
  - destruct (by_id (jobs r) !! id) as [j|] eqn:Hj; [|by rewrite app_nil_r].
    destruct (_ && _) eqn:E; [|by rewrite app_nil_r]. apply andb_true_iff in E as [Ht _].
    apply negb_true_iff in Ht. rewrite (inv_id _ (proj1 (ri_store _ Hr)) _ _ Hj).
    apply list.NoDup_app. split_and!; [done| |apply NoDup_singleton].
    intros x Hx ->%list_elem_of_singleton. apply (H6 _ _ Hj) in Hx. congruence.
  - intros id' j'. rewrite update_records.
    destruct (by_id (jobs r) !! id') as [j|] eqn:Hj; [|done]. rewrite elem_of_app.
    case_decide as Hd.
    + subst id'. rewrite Hj. rewrite (inv_id _ (proj1 (ri_store _ Hr)) _ _ Hj).
      destruct (is_terminal (state j)) eqn:Ht; intros [= <-]; simpl.
      * rewrite Ht. split; [|done]. intros _. left. by apply (H6 _ _ Hj).
      * assert (id ∉ ended_ids r) by (intros Hx; apply (H6 _ _ Hj) in Hx; congruence).
        destruct (is_terminal next); set_solver.
    + intros [= <-]. rewrite (H6 _ _ Hj). split; [by left|]. intros [?|Hin]; [done|].
      destruct (by_id (jobs r) !! id) as [k|] eqn:Hk'; [|by apply not_elem_of_nil in Hin].
      rewrite (inv_id _ (proj1 (ri_store _ Hr)) _ _ Hk') in Hin.
      destruct (_ && _); set_solver.
  - intros p pj' c cj' Hpj' Hc Hcj'. destruct (Hk _ _ Hpj') as (pj & Hpj & Ech & _).
    destruct (Hk _ _ Hcj') as (cj & Hcj & _ & ->). rewrite Ech in Hc. eauto.
Qed.

Lemma admitted_history r parent ids h r' rec :
  history_inv r → (∀ k, ids k ∉ created_ids r) →
  admitted r parent ids h r' rec → history_inv r'.
Proof.
  intros [H1 H2 H3 H4 H5 H6 H7] Hfresh [[k Hk] Hid Hrec Hlive Hpar Hleaf Hlog _ _ Hoth _].
  assert (created_ids r' = created_ids r ++ [handle_id h]) as Ec.
  { unfold created_ids. rewrite Hlog, omap_app. simpl. by rewrite Hid. }
  assert (ended_ids r' = ended_ids r) as Ee.
  { unfold ended_ids. rewrite Hlog, omap_app. simpl. by rewrite app_nil_r. }
  assert (handle_id h ∉ created_ids r) as Hnew by (rewrite Hk; apply Hfresh).
  split; rewrite ?Ec, ?Ee; try done.
  - intros id [j' Hj']. apply elem_of_app. destruct (decide (id = handle_id h)) as [->|Hne];
      [right; by apply list_elem_of_singleton|]. left.
    destruct (Hoth _ _ Hj' Hne) as (j & Hj & _). eauto.
  - intros p pj' c Hpj' Hc. apply elem_of_app. destruct (decide (p = handle_id h)) as [->|Hne].
    + simplify_eq. rewrite Hleaf in Hc. by apply not_elem_of_nil in Hc.
    + destruct (Hoth _ _ Hpj' Hne) as (pj & Hpj & _ & _ & [Ech|[_ Ech]]); rewrite Ech in Hc.
      * left. eauto.
      * apply elem_of_app in Hc as [?|?]; [left; eauto|by right].
  - intros id Hin. apply elem_of_app. left. eauto.
  - apply list.NoDup_app. split_and!; [done| |apply NoDup_singleton].
    by intros x Hx ->%list_elem_of_singleton.
  - intros id j' Hj'. destruct (decide (id = handle_id h)) as [->|Hne].
    + simplify_eq. rewrite Hlive. split; [done|]. intros ?%H3. done.
    + destruct (Hoth _ _ Hj' Hne) as (j & Hj & _ & -> & _). eauto.
  - intros p pj' c cj' Hpj' Hc Hcj'. destruct (decide (p = handle_id h)) as [->|Hne].
    { simplify_eq. rewrite Hleaf in Hc. by apply not_elem_of_nil in Hc. }
    destruct (Hoth _ _ Hpj' Hne) as (pj & Hpj & _ & _ & Ech).
    destruct (decide (c = handle_id h)) as [->|Hcne].
    + simplify_eq. destruct Ech as [Ech|[-> _]]; [|done]. rewrite Ech in Hc.
      exfalso. eauto.
    + destruct (Hoth _ _ Hcj' Hcne) as (cj & Hcj & Hev & _). rewrite (ev_parent _ _ Hev).
      apply (H7 p pj c cj); [done| |done]. destruct Ech as [Ech|[_ Ech]]; rewrite Ech in Hc; set_solver.
Qed.

Lemma step_history r r' :
  registry_inv r → history_inv r → step fresh_uuids r r' → history_inv r'.
Proof.
  intros Hr Hh Hst. destruct (step_kinds _ _ _ Hst) as [Hq|id v now next ->|spec parent idle scopes
    ids now h Hok Hmay Hc].
  - by eapply quiet_history.
  - by apply update_history.
  - destruct (create_admitted_spec _ _ _ _ _ _ _ _ _ Hr Hok Hc) as (rec & Had & _).
    by eapply admitted_history.
Qed.

Lemma reachable_history r : reachable fresh_uuids r → history_inv r.
Proof.
  apply reachable_ind; [apply initial_history|]. intros. by eapply step_history.
Qed.

(** ** Shutdown *)

Definition live r (id : JobId) : Prop :=
  ∃ j, by_id (jobs r) !! id = Some j ∧ is_terminal (state j) = false.

Lemma step_shutting_down d r r' : step d r r' → shutting_down r = true → shutting_down r' = true.
Proof.
  intros Hst Hsd. destruct Hst; try done.
  - match goal with H : create_job_with_scopes _ _ _ _ _ _ _ = _ |- _ => revert H end.
    unfold create_job_with_scopes, admission_refused. rewrite Hsd. by intros [= <- <-].
  - match goal with H : Registry.reserve_mutation _ _ _ = _ |- _ => revert H end.
    unfold reserve_mutation. rewrite Hsd. by intros [= <- <-].
  - unfold reserve_job_scopes. by rewrite Hsd.
  - unfold mark_running. by destruct (update_frame r id false now (unless_terminal (Running descr)))
      as (_ & _ & _ & -> & _).
  - unfold mark_completed. by destruct (update_frame r id v now (unless_terminal (Completed descr res)))
      as (_ & _ & _ & -> & _).
  - unfold mark_failed. by destruct (update_frame r id false now (unless_terminal (failed_state f)))
      as (_ & _ & _ & -> & _).
  - unfold remove_queued_leaf. by destruct (Store.remove_queued_leaf _ _).
  - unfold cancel. by case_match.
Qed.

(** Once shutdown began no step makes a job live. *)
Lemma shutdown_live d r r' id :
  registry_inv r → shutting_down r = true → step d r r' → live r' id → live r id.
Proof.
  intros Hr Hsd Hst (j' & Hj' & Ht).
  destruct (step_origin _ _ _ _ _ Hr Hst Hj') as [j Hj Hev|spec parent idle scopes ids now h Hok
    _ Hc _ _ _ _ _ _ _].
  - exists j. split; [done|]. destruct (is_terminal (state j)) eqn:E; [|done].
    destruct (ev_frozen _ _ Hev E) as [Hs _]. congruence.
  - apply create_ok in Hc as [Ho _ _ _ _ _]; [|done..]. congruence.
Qed.

Lemma shutdown_steps d r r' :
  registry_inv r → shutting_down r = true → steps d r r' →
  registry_inv r' ∧ shutting_down r' = true ∧ ∀ id, live r' id → live r id.
Proof.
  intros Hr Hsd Hs. induction Hs as [r|r1 r2 r3 H12 H23 IH]; [done|].
  destruct IH as (H3 & Hsd3 & Hl); [by eapply step_inv|by eapply step_shutting_down|].
  split_and!; [done|done|]. intros id ?%Hl. by eapply shutdown_live.
Qed.

Lemma shutdown_tracked d r r' :
  registry_inv r → shutting_down r = true → steps d r r' →
  ∀ id, is_Some (by_id (jobs r') !! id) → is_Some (by_id (jobs r) !! id).
Proof.
  intros Hr Hsd Hs. induction Hs as [r|r1 r2 r3 H12 H23 IH]; [done|]. intros id Hid.
  assert (is_Some (by_id (jobs r2) !! id)) as [j' Hj'].
  { apply IH; [by eapply step_inv|by eapply step_shutting_down|done]. }
  destruct (step_origin _ _ _ _ _ Hr H12 Hj') as [j Hj Hev|spec parent idle scopes ids now h Hok
    _ Hc _ _ _ _ _ _ _]; [eauto|].
  apply create_ok in Hc as [Ho _ _ _ _ _]; [|done..]. congruence.
Qed.

(** A pass of [mark_failed] over a list of jobs, with anything else the program
    does before, between and after its steps. *)
Inductive fail_each (d : discipline) : list JobId → JobRegistry (W := W) → JobRegistry → Prop :=
| fail_each_done r r' : steps d r r' → fail_each d [] r r'
| fail_each_next id ids f now r r1 r' :
    steps d r r1 → fail_each d ids (mark_failed r1 id f now).1 r' →
    fail_each d (id :: ids) r r'.

Lemma fail_each_settles d ids r r' :
  registry_inv r → shutting_down r = true → (∀ id, live r id → id ∈ ids) →
  fail_each d ids r r' → ∀ id, ¬ live r' id.
Proof.
  intros Hr Hsd Hlive Hf. induction Hf as [r r' Hs|id ids f now r r1 r' Hs Hf IH].
  - destruct (shutdown_steps _ _ _ Hr Hsd Hs) as (_ & _ & Hl).
    intros id ?%Hl%Hlive. by eapply not_elem_of_nil.
  - destruct (shutdown_steps _ _ _ Hr Hsd Hs) as (Hr1 & Hsd1 & Hl). apply IH.
    + by apply update_inv.
    + unfold mark_failed.
      by destruct (update_frame r1 id false now (unless_terminal (failed_state f)))
        as (_ & _ & _ & -> & _).
    + intros id' (j' & Hj' & Ht). unfold mark_failed in Hj'. rewrite update_records in Hj'.
      destruct (by_id (jobs r1) !! id') as [j|] eqn:Hj; [|done].
      case_decide as Hd; [destruct (is_terminal (state j)) eqn:E|]; injection Hj' as <-;
        [congruence|done|].
      assert (live r1 id') as ?%Hl%Hlive by (by exists j). set_solver.
Qed.

Lemma elem_of_non_terminal r id :
  registry_inv r → id ∈ non_terminal_job_ids r ↔ live r id.
Proof.
  intros Hr. destruct (ri_store _ Hr) as [Hi _]. unfold non_terminal_job_ids, snapshots.
  rewrite list_elem_of_fmap. setoid_rewrite list_elem_of_In.
  setoid_rewrite List.filter_In. setoid_rewrite <- list_elem_of_In.
  setoid_rewrite list_elem_of_fmap. split.
  - intros (j & -> & ([id' j'] & -> & Hin%elem_of_map_to_list) & Ht%negb_true_iff). simpl in *.
    exists j'. by rewrite (inv_id _ Hi _ _ Hin).
  - intros (j & Hj & Ht). exists j. rewrite Ht, (inv_id _ Hi _ _ Hj). split_and!; try done.
    exists (id, j). split; [done|]. by apply elem_of_map_to_list.
Qed.

(** ** Cancellation *)

Lemma cancel_leaves_token r j id :
  registry_inv r → by_id (jobs r) !! id = Some j →
  is_cancelled (cancel_active_leaves r).1 (cancellation_token j) = true ↔
    is_cancelled r (cancellation_token j) = true ∨
    (is_parent j = false ∧ is_terminal (state j) = false).
Proof.
  intros Hr Hj. unfold is_cancelled, cancel_active_leaves, active_leaves. simpl.
  rewrite !bool_decide_eq_true, elem_of_union, elem_of_list_to_set.
  rewrite (or_comm _ (cancellation_token j ∈ cancelled _)). apply or_iff_compat_l.
  rewrite list_elem_of_fmap. setoid_rewrite list_elem_of_fmap.
  setoid_rewrite list_elem_of_In. setoid_rewrite List.filter_In. setoid_rewrite <- list_elem_of_In.
  unfold snapshots. setoid_rewrite list_elem_of_fmap. split.
  - intros ([x t] & Et & (j' & [= -> ->] & ([id' j''] & -> & Hin%elem_of_map_to_list) & Hb)).
    simpl in *. apply andb_true_iff in Hb as [H1%negb_true_iff H2%negb_true_iff].
    assert (id = id') as <- by (by eapply (ri_token_inj _ Hr)). by simplify_eq.
  - intros [Hp Ht]. exists (job_id j, cancellation_token j). split; [done|]. exists j.
    split; [done|]. split; [|by rewrite Hp, Ht]. exists (id, j). split; [done|].
    by apply elem_of_map_to_list.
Qed.
End disciplines.

(** ** Waiting for terminal jobs *)

Section waiting.
Implicit Types (o : TerminalJobOutcomes) (looks : list (JobId → option JobSnapshot)).

(** What the outcomes say about the IDs waited for, given the looks so far. *)
Record outcome_inv (ids : gset JobId) looks o : Prop := {
  oi_pending : pending o ⊆ ids;
  oi_missing : ∀ id, id ∈ missing o → id ∈ ids ∧ ∃ look, look ∈ looks ∧ look id = None;
  oi_terminal : ∀ j, j ∈ terminal o → is_terminal (state j) = true ∧
    ∃ id look, id ∈ ids ∧ look ∈ looks ∧ look id = Some j;
  oi_settled : ∀ id, id ∈ ids → id ∉ pending o →
    id ∈ missing o ∨ ∃ look j, look ∈ looks ∧ look id = Some j ∧ j ∈ terminal o;
  oi_count : length (terminal o) + length (missing o) + size (pending o) = size ids;
}.

Lemma size_remove (X : gset JobId) id : id ∈ X → S (size (X ∖ {[id]})) = size X.
Proof.
  intros Hid. rewrite size_difference by set_solver. rewrite size_singleton.
  assert (size X ≠ 0%nat); [|lia]. intros ?%size_empty_inv. set_solver.
Qed.

Lemma poll_one_inv ids looks look o id :
  look ∈ looks → id ∈ pending o → outcome_inv ids looks o →
  outcome_inv ids looks (poll_one look o id).
Proof.
  intros Hlook Hid Ho. pose proof Ho as [H1 H2 H3 H4 H5]. unfold poll_one.
  pose proof (size_remove _ _ Hid) as Hsz.
  destruct (look id) as [j|] eqn:Hl; [destruct (is_terminal (state j)) eqn:Ht; [|done]|].
  - split; simpl; [set_solver|done| | |rewrite length_app; simpl; lia].
    + intros j' [?| ->%list_elem_of_singleton]%elem_of_app; [eauto|].
      split; [done|]. exists id, look. auto.
    + intros id' Hin Hnp. destruct (decide (id' = id)) as [->|Hne].
      * right. exists look, j. split_and!; [done|done|]. apply elem_of_app. right.
        by apply list_elem_of_singleton.
      * destruct (H4 id') as [?|(l & j' & ? & ? & ?)]; [done|set_solver|by left|].
        right. exists l, j'. split_and!; [done|done|]. apply elem_of_app. by left.
  - split; simpl; [set_solver| |done| |rewrite length_app; simpl; lia].
    + intros id' [?| ->%list_elem_of_singleton]%elem_of_app; [eauto|].
      split; [by apply H1|]. eauto.
    + intros id' Hin Hnp. destruct (decide (id' = id)) as [->|Hne].
      * left. apply elem_of_app. right. by apply list_elem_of_singleton.
      * destruct (H4 id') as [?|?]; [done|set_solver| |by right]. left. apply elem_of_app. by left.
Qed.

Lemma poll_one_pending look o id :
  pending (poll_one look o id) =
    (if match look id with Some j => is_terminal (state j) | None => true end
     then pending o ∖ {[id]} else pending o).
Proof. unfold poll_one. destruct (look id) as [j|]; [destruct (is_terminal (state j))|]; done. Qed.

Lemma poll_fold_inv ids looks look l o :
  look ∈ looks → NoDup l → (∀ id, id ∈ l → id ∈ pending o) → outcome_inv ids looks o →
  outcome_inv ids looks (foldl (poll_one look) o l).
Proof.
  intros Hlook Hnd. revert o. induction Hnd as [|id l Hid Hnd IH]; intros o Hl Ho; simpl; [done|].
  apply IH.
  - intros id' Hid'. rewrite poll_one_pending.
    assert (id' ∈ pending o) by (apply Hl; by right). case_match; set_solver.
  - apply poll_one_inv; [done| |done]. apply Hl. left.
Qed.

Lemma poll_fold_pending look l o :
  pending (foldl (poll_one look) o l) =
    pending o ∖ list_to_set (List.filter
      (fun id => match look id with Some j => is_terminal (state j) | None => true end) l).
Proof.
  revert o. induction l as [|id l IH]; intros o; simpl; [set_solver|].
  rewrite IH, poll_one_pending. case_match; set_solver.
Qed.

Lemma outcome_inv_mono ids looks looks' o :
  looks ⊆ looks' → outcome_inv ids looks o → outcome_inv ids looks' o.
Proof.
  intros Hs [H1 H2 H3 H4 H5]. split; [done| | | |done].
  - intros id (? & l & ? & ?)%H2. eauto.
  - intros j (? & id & l & ? & ? & ?)%H3. eauto 10.
  - intros id Hin Hnp. destruct (H4 id Hin Hnp) as [?|(l & j & ? & ? & ?)]; [by left|].
    right. eauto 10.
Qed.

Lemma wait_inv ids done_looks looks o :
  outcome_inv ids done_looks o →
  outcome_inv ids (done_looks ++ looks) (wait_for_terminal_outcomes looks o).
Proof.
  revert done_looks o. induction looks as [|look looks IH]; intros dl o Ho; simpl.
  - by rewrite app_nil_r.
  - case_bool_decide.
    + eapply outcome_inv_mono; [|done]. set_solver.
    + change (look :: looks) with ([look] ++ looks). rewrite (assoc_L _). apply IH.
      unfold poll. apply poll_fold_inv; [set_solver|apply NoDup_elements|set_solver|].
      eapply outcome_inv_mono; [|done]. set_solver.
Qed.

Definition settled (look : JobId → option JobSnapshot) (id : JobId) : Prop :=
  match look id with Some j => is_terminal (state j) = true | None => True end.

Lemma poll_settles look o : (∀ id, id ∈ pending o → settled look id) → pending (poll look o) = ∅.
Proof.
  intros Hall. unfold poll. rewrite poll_fold_pending. apply set_eq. intros id.
  rewrite elem_of_difference, elem_of_list_to_set, list_elem_of_In, List.filter_In,
    <- list_elem_of_In, elem_of_elements.
  split; [|set_solver]. intros [Hid Hn]. exfalso. apply Hn. split; [done|].
  specialize (Hall id Hid). unfold settled in Hall. by destruct (look id).
Qed.

Lemma wait_pending looks o : pending (wait_for_terminal_outcomes looks o) ⊆ pending o.
Proof.
  revert o. induction looks as [|look looks IH]; intros o; simpl; [done|].
  case_bool_decide; [done|]. etransitivity; [apply IH|]. unfold poll. rewrite poll_fold_pending.
  set_solver.
Qed.

Lemma wait_settles look looks o :
  look ∈ looks → (∀ id, id ∈ pending o → settled look id) →
  pending (wait_for_terminal_outcomes looks o) = ∅.
Proof.
  revert o. induction looks as [|l looks IH]; intros o Hin Hall; [by apply not_elem_of_nil in Hin|].
  simpl. case_bool_decide; [done|]. apply elem_of_cons in Hin as [->|Hin].
  - pose proof (wait_pending looks (poll l o)) as Hs. rewrite poll_settles in Hs by done.
    set_solver.
  - apply IH; [done|]. intros id. unfold poll. rewrite poll_fold_pending. set_solver.
Qed.

Lemma start_inv ids : outcome_inv (list_to_set ids) [] (start_wait ids).
Proof. split; simpl; try set_solver. Qed.

Lemma wait_true_settled looks ids :
  wait_for_terminal_jobs looks ids = true →
  ∀ id, id ∈ ids → ∃ look, look ∈ looks ∧ settled look id.
Proof.
  intros Hb%bool_decide_eq_true id Hid.
  pose proof (wait_inv _ [] looks _ (start_inv ids)) as Ho. simpl in Ho.
  destruct (oi_settled _ _ _ Ho id) as [Hm|(look & j & Hl & Hj & Ht)].
  - by apply elem_of_list_to_set.
  - rewrite Hb. set_solver.
  - apply (oi_missing _ _ _ Ho) in Hm as (_ & look & Hl & Hn). exists look.
    unfold settled. by rewrite Hn.
  - exists look. split; [done|]. unfold settled. rewrite Hj. by apply (oi_terminal _ _ _ Ho).
Qed.
End waiting.
