(* ===== verification/JobExamples.v ===== *)
(** * Concrete registries

    Small registries on which the theorems of the job components are
    evaluated: one leaf with an alias, the same completed, and a parent with a
    child, with proofs that they are reachable. *)

From S2P Require Import Prelude JobTypes EndpointScope Json RmsDomain JobStore.
From S2P Require Import JobStoreProofs JobRegistry JobRegistryProofs JobEventProofs.
Import Store Registry.
Local Open Scope string_scope.
Local Open Scope list_scope.

Module Example.
#[export] Existing Instance silent_json.

Definition clock0 : clock := mkClock 0 0.
Definition at0 : admission_clock := mkAdmissionClock 0 clock0 clock0.
Definition ids (k : nat) : JobId := "job-" +++ show_nat k.
Definition ids_from (n k : nat) : JobId := ids (n + k).

Definition reg := JobRegistry (W := unit).
Definition empty : reg := with_capacity 100 2 tt.
Definition leaf (node : string) : JobSpec := JobSpec_new "rack" node "Queued" SpanNone.

Definition created (o : option (reg * result JobFailure JobHandle)) : reg :=
  match o with Some (r, _) => r | None => empty end.

(** One leaf on node [n1] with an endpoint alias. *)
Definition scope : JobScope := Endpoint "10.0.0.1" 22.
Definition one : reg :=
  created (create_job_with_scopes empty (leaf "n1") None true [scope] ids at0).
Definition one_handle : JobHandle := JobHandle_new "job-0" SpanNone 0.
Definition one_record : JobSnapshot := JobSnapshot_new (leaf "n1") None "job-0" 0 clock0.

(** The same after the leaf completed. *)
Definition finished_one : reg := (mark_completed one "job-0" "done" "" false clock0).1.
Definition finished_record : JobSnapshot := set_state one_record (Completed "done" "").

(** A parent with one child, both completed. *)
Definition root : JobSpec := JobSpec_new_parent "rack" "Running" SpanNone.
Definition with_root : reg := created (create_job empty root None false ids at0).
Definition with_child : reg :=
  created (create_job with_root (leaf "n1") (Some "job-0") true (ids_from 1) at0).
Definition child_done : reg := (mark_completed with_child "job-1" "done" "" false clock0).1.
Definition family : reg := (mark_completed child_done "job-0" "done" "" false clock0).1.
Definition root_record : JobSnapshot :=
  set_state (push_child (JobSnapshot_new root None "job-0" 0 clock0) "job-1")
    (Completed "done" "").

Lemma ids_inj : Inj (=) (=) ids.
Proof.
  intros a b Hab. unfold ids in Hab. apply (inj (String.append "job-")) in Hab.
  by apply show_nat_inj.
Qed.

Lemma ids_from_inj n : Inj (=) (=) (ids_from n).
Proof. intros a b Hab%(inj ids). lia. Qed.

Lemma one_created :
  create_job_with_scopes empty (leaf "n1") None true [scope] ids at0 = Some (one, Ok one_handle).
Proof. vm_cast_no_check (eq_refl (Some (one, Ok (E := JobFailure) one_handle))). Qed.

Lemma one_lookup : by_id (jobs one) !! "job-0" = Some one_record.
Proof. vm_cast_no_check (eq_refl (Some one_record)). Qed.

Lemma one_alias : active_by_scope (jobs one) !! scope = Some "job-0".
Proof. vm_cast_no_check (eq_refl (Some "job-0")). Qed.

Lemma finished_lookup : by_id (jobs finished_one) !! "job-0" = Some finished_record.
Proof. vm_cast_no_check (eq_refl (Some finished_record)). Qed.

Lemma empty_reachable d : reachable d empty.
Proof. exists empty. split; [constructor|apply rtc_refl]. Qed.

Lemma reachable_step d (r r' : reg) : reachable d r → step d r r' → reachable d r'.
Proof. intros (r0 & H0 & Hs) Hst. exists r0. split; [done|]. by eapply rtc_r. Qed.

Lemma one_reachable d : may_create d empty (leaf "n1") true ids → reachable d one.
Proof.
  intros Hm. eapply reachable_step; [apply empty_reachable|].
  by eapply step_create; [| |exact one_created].
Qed.

Lemma one_fresh : reachable fresh_uuids one.
Proof. apply one_reachable. intros k. apply not_elem_of_nil. Qed.

Lemma finished_fresh : reachable fresh_uuids finished_one.
Proof. eapply reachable_step; [apply one_fresh|apply step_completed]. Qed.

Lemma family_fresh : reachable fresh_uuids family.
Proof.
  eapply reachable_step; [|apply step_completed]. eapply reachable_step; [|apply step_completed].
  eapply (reachable_step _ with_root).
  - eapply (reachable_step _ empty); [apply empty_reachable|].
    eapply (step_create _ _ root None false [] ids at0 _
      (Ok (JobHandle_new "job-0" SpanNone 0))); [done|intros k; apply not_elem_of_nil|].
    vm_cast_no_check (eq_refl (Some (with_root, Ok (E := JobFailure) (JobHandle_new "job-0" SpanNone 0)))).
  - eapply (step_create _ _ (leaf "n1") (Some "job-0") true [] (ids_from 1) at0 _
      (Ok (JobHandle_new "job-1" SpanNone 1))); [done| |].
    + intros k Hin. change (created_ids with_root) with [ids 0] in Hin.
      apply list_elem_of_singleton in Hin. apply (inj ids) in Hin. lia.
    + vm_cast_no_check (eq_refl (Some (with_child, Ok (E := JobFailure) (JobHandle_new "job-1" SpanNone 1)))).
Qed.
End Example.
