(* ===== verification/JobHandle.v ===== *)
(** * Job handles, supervised workers and cleanup

    [orchestrator/job_lifecycle/handle.rs] and [cleanup.rs]: the owned handle
    a worker seals a job with, the spawn of a worker under a supervisor, and
    the cleanup a supervisor runs when the worker is gone.

    A handle is consumed by [complete], [complete_verified] and [fail], which
    run its destructor like every other exit; [drop_handle] is that destructor.
    The future a worker runs is the caller's code: what it does to its job is
    the list of its progress reports and the way it gives the handle up. *)

From S2P Require Import Prelude JobTypes Json JobStore JobRegistry.
Import Store Registry.
Local Open Scope string_scope.
Local Open Scope list_scope.

(** ** Result metadata *)

Section metadata.
Context `{SerdeJson}.

Definition with_result_metadata (h : JobHandle) (metadata : json_map) : JobHandle :=
  mkJobHandle (handle_id h) (handle_span h) (handle_token h) (handle_finished h)
    (map_extend (result_metadata h) metadata).

(** The object the metadata is laid over. *)
Definition result_object (result_json : string) : json_map :=
  if bool_decide (result_json = "") then ∅
  else
    match from_str result_json with
    | Ok (JObject result) => result
    | Ok v => {["result" := v]}
    | Err _ => {["result" := JString result_json]}
    end.

Definition result_with_metadata (h : JobHandle) (result_json : string) : string :=
  if bool_decide (result_metadata h = ∅) then result_json
  else to_string (JObject (map_extend (result_object result_json) (result_metadata h))).

Definition failure_with_metadata (h : JobHandle) (failure : JobFailure) : JobFailure :=
  if bool_decide (result_metadata h ≠ ∅)
  then with_result_json failure
         (result_with_metadata h (default "" (failure_result_json failure)))
  else failure.
End metadata.

(** ** Sealing *)

Definition finish (h : JobHandle) : JobHandle :=
  mkJobHandle (handle_id h) (handle_span h) (handle_token h) true (result_metadata h).

Section handle.
Context `{SerdeJson} `{JobDomain} {W : Type}.
Implicit Types (r : JobRegistry (W := W)).

Definition progress r (h : JobHandle) (d : string) (now : clock) : JobRegistry * bool :=
  mark_running r (handle_id h) d now.

(** [Drop for JobHandle]. *)
Definition drop_handle r (h : JobHandle) (now : clock) : JobRegistry :=
  if handle_finished h then r
  else
    let failure := if is_cancelled r (handle_token h) then shutdown_failure
                   else dropped_failure in
    (mark_failed r (handle_id h) (failure_with_metadata h failure) now).1.

Definition complete r (h : JobHandle) (d result_json : string) (now : clock) : JobRegistry :=
  let h := finish h in
  let r := (mark_completed r (handle_id h) d (result_with_metadata h result_json) false now).1 in
  drop_handle r h now.

Definition complete_verified r (h : JobHandle) (d result_json : string) (now : clock)
    : JobRegistry :=
  let h := finish h in
  let r := (mark_completed r (handle_id h) d (result_with_metadata h result_json) true now).1 in
  drop_handle r h now.

Definition fail r (h : JobHandle) (failure : JobFailure) (now : clock) : JobRegistry :=
  let h := finish h in
  let r := (mark_failed r (handle_id h) (failure_with_metadata h failure) now).1 in
  drop_handle r h now.

(** ** Workers *)

(** How a worker gives its handle up; [Abandoned] is a return that never seals
    it, a panic or an abort. *)
Inductive WorkerExit :=
| ExitComplete (d result_json : string)
| ExitVerified (d result_json : string)
| ExitFail (f : JobFailure)
| Abandoned.

Definition worker_exit r (h : JobHandle) (e : WorkerExit) (now : clock) : JobRegistry :=
  match e with
  | ExitComplete d res => complete r h d res now
  | ExitVerified d res => complete_verified r h d res now
  | ExitFail f => fail r h f now
  | Abandoned => drop_handle r h now
  end.

Definition worker_progress r (h : JobHandle) (reports : list (string * clock)) : JobRegistry :=
  foldl (fun r p => (progress r h p.1 p.2).1) r reports.

(** [spawn_job_inner] up to the return of the join handle: the tasks exist and
    are registered; the flag tells whether the worker was let start, otherwise
    it was cancelled and aborted before its first poll. *)
Definition spawn_job_inner r (h : JobHandle) (worker supervisor : nat) : JobRegistry * bool :=
  let '(r, accepted) := register_task r (handle_id h) worker supervisor in
  if accepted then (r, true)
  else
    (set_runtime r
       (abort_handles (cancel_tokens (runtime r) {[handle_token h]}) {[worker]}), false).

(** The worker task: it runs the caller's future only when it was let start;
    either way its handle is gone when the task is. *)
Definition worker_task r (h : JobHandle) (started : bool) (reports : list (string * clock))
    (e : WorkerExit) (now : clock) : JobRegistry :=
  if started then worker_exit (worker_progress r h reports) h e now
  else drop_handle r h now.

(** [Drop for TaskRegistration], when the supervisor is done. *)
Definition drop_registration r (id : JobId) : JobRegistry := remove_task r id.
End handle.

(** ** Cleanup *)

Module Cleanup.

Abbreviation PathBuf := string (only parsing).

Inductive CleanupPlan :=
| Immediate (path : PathBuf)
| AfterJobsTerminate (child_job_ids : list JobId) (path : PathBuf) (timeout : option Z).

Definition remove_dir_plan (path : PathBuf) : CleanupPlan := Immediate path.
Definition remove_dir_after_jobs_terminate (ids : list JobId) (path : PathBuf)
    (timeout : option Z) : CleanupPlan := AfterJobsTerminate ids path timeout.

(** [std::io::ErrorKind] as far as it is inspected. *)
Inductive ErrorKind := NotFoundKind | OtherKind (kind : string).

Inductive CleanupOperation := RemoveDir.

Record CleanupFailure := mkCleanupFailure {
  operation : CleanupOperation;
  failed_path : PathBuf;
  kind : ErrorKind;
  message : string;
}.

Inductive CleanupReport :=
| Skipped
| Removed
| NotFound
| CleanupFailed (f : CleanupFailure)
| Panicked (message : string).

(** [remove_dir_all] answers for a path: the file system is an argument. *)
Definition remove_dir (remove_dir_all : PathBuf → result (ErrorKind * string) unit)
    (path : PathBuf) : CleanupReport :=
  match remove_dir_all path with
  | Ok _ => Removed
  | Err (NotFoundKind, _) => NotFound
  | Err (k, text) => CleanupFailed (mkCleanupFailure RemoveDir path k text)
  end.

(** [looks] are the passes of the wait until it settles or times out. *)
Definition run (remove_dir_all : PathBuf → result (ErrorKind * string) unit)
    (looks : list (JobId → option JobSnapshot)) (plan : CleanupPlan) : CleanupReport :=
  match plan with
  | Immediate path => remove_dir remove_dir_all path
  | AfterJobsTerminate ids path _ =>
      if wait_for_terminal_jobs looks ids then remove_dir remove_dir_all path else Skipped
  end.

(** A caught panic's payload. *)
Inductive PanicPayload := PanicString (s : string) | PanicStr (s : string) | PanicOther.

Definition panic_message (p : PanicPayload) : string :=
  match p with
  | PanicString s | PanicStr s => s
  | PanicOther => "unknown panic payload"
  end.

(** [run_cleanup_supervised] on what the cleanup future ended with. *)
Definition run_cleanup_supervised (outcome : PanicPayload + CleanupReport) : CleanupReport :=
  match outcome with
  | inr report => report
  | inl payload => Panicked (panic_message payload)
  end.
End Cleanup.
