(* ===== verification/JobTracker.v ===== *)
(** * The job tracker

    [orchestrator/job_tracker.rs]: the service's face of the job registry.  It
    owns the handles of aggregate parents, derives a parent's state from its
    children, counts workflows in metrics, and drives shutdown.

    The registry's observers act on the tracker's metrics, so the registry's
    world is [Metrics] here.  An aggregation reads its parent and its children
    one lock at a time: the answers of these reads are an argument of
    [refresh_with], and [refresh_parent_state] is the case where nothing
    happens in between.  The OpenTelemetry parent of a span and the registration
    of the metrics with Prometheus are not modelled. *)

From S2P Require Import Prelude JobTypes Json RmsDomain JobStore JobRegistry JobHandle.
Import Store Registry.
Local Open Scope string_scope.
Local Open Scope list_scope.

(** ** Constants *)

(** A [Duration] is its number of nanoseconds. *)
Definition from_secs (s : Z) : Z := s * 1000000000.
Definition from_millis (ms : Z) : Z := ms * 1000000.

Definition FORCED_TASK_DRAIN_TIMEOUT : Z := from_secs 5.
Definition DEFAULT_TTL_MS : Z := 24 * 3600 * 1000.
Definition REAPER_INTERVAL : Z := from_secs 300.
Definition MIN_REAPER_INTERVAL : Z := from_secs 1.
Definition WORKFLOW_SUCCESS_ERROR_CODE : string := "none".

(** [Ord::clamp]. *)
Definition clamp (x lo hi : Z) : Z := if (x <? lo)%Z then lo else if (hi <? x)%Z then hi else x.

Definition reaper_interval (ttl : Z) : Z := clamp ttl MIN_REAPER_INTERVAL REAPER_INTERVAL.

(** ** Metrics *)

Record Metrics := mkMetrics {
  workflows_counts : gmap (string * string * string * string) nat;
  workflows_in_flight : gmap (string * string) Z;
}.

Definition count_inc (m : Metrics) (key : string * string * string * string) : Metrics :=
  mkMetrics (<[key := S (default 0 (workflows_counts m !! key))]> (workflows_counts m))
    (workflows_in_flight m).

Definition gauge_add (m : Metrics) (key : string * string) (d : Z) : Metrics :=
  mkMetrics (workflows_counts m)
    (<[key := (default 0 (workflows_in_flight m !! key) + d)%Z]> (workflows_in_flight m)).

Definition bool_label (b : bool) : string := if b then "true" else "false".

Definition is_leaf_label (s : JobSnapshot) : string :=
  bool_label (bool_decide (node_id s ≠ "")).

Definition record_workflow_started_metrics (s : JobSnapshot) (m : Metrics) : Metrics :=
  match workflow_type s with
  | None => m
  | Some t =>
      let m := count_inc m (span_name t, is_leaf_label s,
                            JobStateM.as_str JobStateM.Queued, WORKFLOW_SUCCESS_ERROR_CODE) in
      gauge_add m (span_name t, is_leaf_label s) 1
  end.

Definition record_workflow_terminal_metrics (s : JobSnapshot) (m : Metrics) : Metrics :=
  match workflow_type s with
  | None => m
  | Some t =>
      let done_with workflow_state error_code :=
        let m := count_inc m (span_name t, is_leaf_label s, workflow_state, error_code) in
        gauge_add m (span_name t, is_leaf_label s) (-1) in
      match state s with
      | Completed _ _ =>
          done_with (JobStateM.as_str JobStateM.Completed) WORKFLOW_SUCCESS_ERROR_CODE
      | Failed _ failure _ _ =>
          done_with (JobStateM.as_str JobStateM.Failed)
            (JobErrorM.metrics_label (job_error_of failure))
      | Queued _ | Running _ => m
      end
  end.

(** ** Job information *)

Record JobInfo := mkJobInfo {
  info_job_id : string;
  info_span : Span;
  info_state : JobState;
  info_description : string;
  info_rack_id : string;
  info_node_id : string;
  info_error_code : JobError;
  info_error_message : string;
  info_result_json : string;
  info_created_at : Z;
  info_updated_at : Z;
  info_child_job_ids : list string;
  info_parent_job_id : option string;
}.

Definition snapshot_state (s : JobLifecycleState) : JobState :=
  match s with
  | Queued _ => JobStateM.Queued
  | Running _ => JobStateM.Running
  | Completed _ _ => JobStateM.Completed
  | Failed _ _ _ _ => JobStateM.Failed
  end.

Definition snapshot_payload (s : JobLifecycleState) : JobError * string * string :=
  match s with
  | Failed _ failure message result_json => (job_error_of failure, message, result_json)
  | Completed _ result_json => (JobErrorM.Unspecified, "", result_json)
  | Queued _ | Running _ => (JobErrorM.Unspecified, "", "")
  end.

Definition snapshot_to_job_info (s : JobSnapshot) : JobInfo :=
  let '(error_code, error_message, result_json) := snapshot_payload (state s) in
  mkJobInfo (job_id s) (span s) (snapshot_state (state s)) (description (state s))
    (rack_id s) (node_id s) error_code error_message result_json (created_at s)
    (updated_at s) (child_job_ids s) (parent_job_id s).

(** ** Spans *)

Definition job_span_for (t : JobType) : Span :=
  SpanOf (span_name t) {["job_id" := ""; "parent_job_id" := ""]}.

Definition job_span (t : JobType) (parent_job_id : string) : Span :=
  let sp := job_span_for t in
  if bool_decide (parent_job_id ≠ "") then span_record sp "parent_job_id" parent_job_id
  else sp.

(** ** Aggregation data *)

Record FailedChild := mkFailedChild {
  fc_job_id : string;
  fc_node_id : string;
  fc_error_code : JobError;
  fc_error_message : string;
  fc_result_json : string;
}.

Record ParentCounts := mkParentCounts {
  total : nat;
  completed : nat;
  failed : nat;
  running : nat;
  queued : nat;
  missing_children : nat;
  failed_children : list FailedChild;
}.

Definition count_fragment (count : nat) (label : string) : string :=
  if (0 <? count)%nat then ", " +++ show_nat count +++ " " +++ label else "".

Definition missing_jobs_suffix (missing : nat) : string :=
  if (0 <? missing)%nat then " (" +++ show_nat missing +++ " jobs missing)" else "".

Definition done_count (c : ParentCounts) : nat := completed c + failed c + missing_children c.

Definition running_description (c : ParentCounts) (t : JobType) : string :=
  "Batch " +++ batch_noun t +++ " in progress (" +++ show_nat (done_count c) +++ "/"
  +++ show_nat (total c) +++ " complete" +++ count_fragment (running c) "running"
  +++ count_fragment (queued c) "queued" +++ ")".

Definition failed_child (child : JobSnapshot) : FailedChild :=
  let info := snapshot_to_job_info child in
  mkFailedChild (info_job_id info) (info_node_id info) (info_error_code info)
    (info_error_message info) (info_result_json info).

Definition count_child (c : ParentCounts) (child : JobSnapshot) : ParentCounts :=
  match state child with
  | Completed _ _ =>
      mkParentCounts (total c) (S (completed c)) (failed c) (running c) (queued c)
        (missing_children c) (failed_children c)
  | Failed _ _ _ _ =>
      mkParentCounts (total c) (completed c) (S (failed c)) (running c) (queued c)
        (missing_children c) (failed_children c ++ [failed_child child])
  | Running _ =>
      mkParentCounts (total c) (completed c) (failed c) (S (running c)) (queued c)
        (missing_children c) (failed_children c)
  | Queued _ =>
      mkParentCounts (total c) (completed c) (failed c) (running c) (S (queued c))
        (missing_children c) (failed_children c)
  end.

Definition count_missing (c : ParentCounts) : ParentCounts :=
  mkParentCounts (total c) (completed c) (failed c) (running c) (queued c)
    (S (missing_children c)) (failed_children c).

Definition collect_parent_counts (look : JobId → option JobSnapshot) (child_ids : list JobId)
    : ParentCounts :=
  foldl (fun c id => match look id with
                     | None => count_missing c
                     | Some child => count_child c child
                     end)
    (mkParentCounts (length child_ids) 0 0 0 0 0 []) child_ids.

(** ** Result payloads *)

Record FirmwareChildResultTarget := mkTarget { component : string; firmware_file : string }.

Record FirmwareChildResultRedfish := mkRedfish {
  redfish_code : option string;
  redfish_message : option string;
  redfish_severity : option string;
  redfish_resolution : option string;
}.

Record FirmwareChildResult := mkChildResult {
  cr_status : option string;
  cr_phase : option string;
  cr_error_code : option string;
  cr_error_message : option string;
  cr_summary : option string;
  cr_target : option FirmwareChildResultTarget;
  cr_target_id : option string;
  cr_redfish : option FirmwareChildResultRedfish;
  cr_raw_error : option string;
}.

(** The derived [Deserialize] of the two structs the tracker parses. *)
Class TrackerJson := {
  child_result_of_str : string → result string FirmwareChildResult;
  status_of_str : string → result string (option string);
}.

Definition is_none {A} (o : option A) : bool := match o with None => true | Some _ => false end.

Definition child_result_is_empty (c : FirmwareChildResult) : bool :=
  is_none (cr_status c) && is_none (cr_phase c) && is_none (cr_error_code c)
  && is_none (cr_error_message c) && is_none (cr_summary c) && is_none (cr_target c)
  && is_none (cr_target_id c) && is_none (cr_redfish c) && is_none (cr_raw_error c).

Definition child_result_summary (c : FirmwareChildResult) : option string :=
  match cr_summary c with Some s => Some s | None => cr_error_message c end.

Record ParsedFirmwareChildResult := mkParsed {
  parsed_summary : option string;
  parsed_result : option FirmwareChildResult;
  parsed_raw : option string;
}.

Definition ser_target (t : FirmwareChildResultTarget) : ser :=
  SStruct [("component", SStr (component t)); ("firmware_file", SStr (firmware_file t))].

Definition ser_redfish (x : FirmwareChildResultRedfish) : ser :=
  SStruct (opt_field "code" SStr (redfish_code x) ++ opt_field "message" SStr (redfish_message x)
    ++ opt_field "severity" SStr (redfish_severity x)
    ++ opt_field "resolution" SStr (redfish_resolution x)).

Definition ser_child_result (c : FirmwareChildResult) : ser :=
  SStruct (opt_field "status" SStr (cr_status c) ++ opt_field "phase" SStr (cr_phase c)
    ++ opt_field "error_code" SStr (cr_error_code c)
    ++ opt_field "error_message" SStr (cr_error_message c)
    ++ opt_field "summary" SStr (cr_summary c) ++ opt_field "target" ser_target (cr_target c)
    ++ opt_field "target_id" SStr (cr_target_id c)
    ++ opt_field "redfish" ser_redfish (cr_redfish c)
    ++ opt_field "raw_error" SStr (cr_raw_error c)).

Section payloads.
Context `{SerdeJson} `{TrackerJson}.

Definition parse_child_result (result_json : string) : ParsedFirmwareChildResult :=
  if bool_decide (result_json = "") then mkParsed None None None
  else
    match child_result_of_str result_json with
    | Ok c => if child_result_is_empty c then mkParsed None None (Some result_json)
              else mkParsed (child_result_summary c) (Some c) None
    | Err _ => mkParsed None None (Some result_json)
    end.

Definition firmware_failed_child_detail (c : FailedChild) : ser :=
  let parsed := parse_child_result (fc_result_json c) in
  SStruct ([("job_id", SStr (fc_job_id c)); ("node_id", SStr (fc_node_id c));
            ("error_code", SStr (JobErrorM.job_error_debug (fc_error_code c)));
            ("error", SStr (fc_error_message c))]
    ++ opt_field "summary" SStr (parsed_summary parsed)
    ++ opt_field "result" ser_child_result (parsed_result parsed)
    ++ opt_field "raw_result_json" SStr (parsed_raw parsed)).

Definition switch_failed_child_detail (c : FailedChild) : ser :=
  SStruct [("job_id", SStr (fc_job_id c)); ("node_id", SStr (fc_node_id c));
           ("error", SStr (fc_error_message c))].

Definition parent_failure_payload (detail : FailedChild → ser) (c : ParentCounts) : ser :=
  SStruct [("completed", SNat (completed c)); ("failed", SNat (failed c));
           ("missing", SNat (missing_children c)); ("total", SNat (total c));
           ("failed_jobs", SSeq (detail <$> failed_children c))].

Definition parent_failure_result_json (t : JobType) (c : ParentCounts) : string :=
  match t with
  | FirmwareUpdate =>
      serialize_result_json (parent_failure_payload firmware_failed_child_detail c)
  | _ => serialize_result_json (parent_failure_payload switch_failed_child_detail c)
  end.

Definition result_is_already_up_to_date (result_json : string) : bool :=
  match status_of_str result_json with
  | Ok status => bool_decide (status = Some "already_up_to_date")
  | Err _ => false
  end.

Definition count_skipped_children (look : JobId → option JobSnapshot) (ids : list JobId) : nat :=
  length (List.filter
    (fun id => match look id with
               | Some child =>
                   result_is_already_up_to_date (info_result_json (snapshot_to_job_info child))
               | None => false
               end) ids).

Definition parent_failure (c : ParentCounts) (t : JobType) : JobFailure :=
  let description :=
    "Batch complete: " +++ show_nat (completed c) +++ "/" +++ show_nat (total c)
    +++ " succeeded, " +++ show_nat (failed c) +++ " failed"
    +++ count_fragment (missing_children c) "missing" in
  let message :=
    show_nat (failed c + missing_children c) +++ " of " +++ show_nat (total c) +++ " "
    +++ batch_noun_plural t +++ " failed" +++ missing_jobs_suffix (missing_children c) in
  with_result_json
    (with_description (JobFailure_new (anyhow_of_code JobErrorM.Other) message) description)
    (parent_failure_result_json t c).

Definition completion_description (skipped total : nat) (t : JobType) : string :=
  if (skipped =? total)%nat then "All " +++ show_nat total +++ " nodes already up to date"
  else if (0 <? skipped)%nat then
    show_nat (total - skipped) +++ "/" +++ show_nat total +++ " " +++ batch_noun_plural t
    +++ " applied, " +++ show_nat skipped +++ " already up to date"
  else "All " +++ show_nat total +++ " " +++ batch_noun_plural t +++ " completed successfully".
End payloads.

(** ** The tracker *)

Module Tracker.

Section tracker.
Context `{SerdeJson} `{TrackerJson}.

Record JobTracker := mkJobTracker {
  registry : JobRegistry (W := Metrics);
  parent_job_handles : gmap JobId JobHandle;
  terminal_job_ttl : Z;
}.

Definition set_registry (t : JobTracker) (r : JobRegistry) : JobTracker :=
  mkJobTracker r (parent_job_handles t) (terminal_job_ttl t).
Definition set_handles (t : JobTracker) (m : gmap JobId JobHandle) : JobTracker :=
  mkJobTracker (registry t) m (terminal_job_ttl t).

(** [JobTrackerBuilder::build]. *)
Definition build (ttl : Z) (max_tracked_jobs : nat) : JobTracker :=
  let r := with_capacity ttl max_tracked_jobs (mkMetrics ∅ ∅) in
  let r := set_created_observer r record_workflow_started_metrics in
  let r := set_terminal_observer r record_workflow_terminal_metrics in
  mkJobTracker r ∅ ttl.

Definition new : JobTracker := build (from_millis DEFAULT_TTL_MS) MAX_TRACKED_JOBS.

Definition with_retention_limits (ttl : Z) (max_tracked_jobs : nat) : JobTracker :=
  build ttl max_tracked_jobs.

(** The registry operations a tracker method ends in, with the tracker put back. *)
Definition lift_create (t : JobTracker)
    (o : option (JobRegistry * result JobFailure JobHandle))
    : option (JobTracker * result JobFailure JobHandle) :=
  match o with Some (r, res) => Some (set_registry t r, res) | None => None end.

(** *** Aggregation *)

(** The answers of the reads of one aggregation. *)
Record refresh_reads := mkReads {
  read_parent : option JobSnapshot;
  read_counts : JobId → option JobSnapshot;
  read_skipped : JobId → option JobSnapshot;
}.

Definition fail_parent (t : JobTracker) (parent_id : JobId) (c : ParentCounts) (jt : JobType)
    (now : clock) : JobTracker :=
  match parent_job_handles t !! parent_id with
  | Some h =>
      set_registry (set_handles t (delete parent_id (parent_job_handles t)))
        (fail (registry t) h (parent_failure c jt) now)
  | None => t
  end.

Definition complete_parent (t : JobTracker) (parent_id : JobId) (look : JobId → option JobSnapshot)
    (child_ids : list JobId) (total : nat) (jt : JobType) (now : clock) : JobTracker :=
  let description := completion_description (count_skipped_children look child_ids) total jt in
  match parent_job_handles t !! parent_id with
  | Some h =>
      set_registry (set_handles t (delete parent_id (parent_job_handles t)))
        (complete (registry t) h description "" now)
  | None => t
  end.

Definition refresh_terminal_parent (t : JobTracker) (parent_id : JobId)
    (look : JobId → option JobSnapshot) (child_ids : list JobId) (c : ParentCounts)
    (jt : JobType) (now : clock) : JobTracker :=
  if (0 <? failed c)%nat || (0 <? missing_children c)%nat
  then fail_parent t parent_id c jt now
  else complete_parent t parent_id look child_ids (total c) jt now.

Definition refresh_with (reads : refresh_reads) (t : JobTracker) (parent_id : JobId)
    (now : clock) : JobTracker :=
  match read_parent reads with
  | None => t
  | Some parent =>
      if negb (is_parent parent) || is_terminal (state parent) then t
      else
        match workflow_type parent with
        | None => t
        | Some jt =>
            let c := collect_parent_counts (read_counts reads) (child_job_ids parent) in
            if (total c =? 0)%nat then t
            else if (done_count c =? total c)%nat then
              refresh_terminal_parent t parent_id (read_skipped reads) (child_job_ids parent)
                c jt now
            else
              match parent_job_handles t !! parent_id with
              | Some h =>
                  set_registry t (progress (registry t) h (running_description c jt) now).1
              | None =>
                  set_registry t
                    (mark_running (registry t) parent_id (running_description c jt) now).1
              end
        end
  end.

Definition reads_of (t : JobTracker) (parent_id : JobId) : refresh_reads :=
  mkReads (lookup_job (registry t) parent_id) (lookup_job (registry t))
    (lookup_job (registry t)).

Definition refresh_parent_state (t : JobTracker) (parent_id : JobId) (now : clock)
    : JobTracker :=
  refresh_with (reads_of t parent_id) t parent_id now.

Definition refresh_all_parents (t : JobTracker) (now : JobId → clock) : JobTracker :=
  foldl (fun t id => refresh_parent_state t id (now id)) t (parent_job_ids (registry t)).

(** [refresh_parent_for_child], which [after_job_terminal] calls. *)
Definition refresh_parent_for_child (t : JobTracker) (child : JobId) (now : clock)
    : JobTracker :=
  match parent_for_job (registry t) child with
  | None => t
  | Some parent_id => refresh_parent_state t parent_id now
  end.

Definition after_job_terminal (t : JobTracker) (id : JobId) (now : clock) : JobTracker :=
  refresh_parent_for_child t id now.

Definition reaper_sweep (t : JobTracker) (now : JobId → clock) (sweep : Z) : JobTracker :=
  let t := refresh_all_parents t now in
  set_registry t (cleanup_expired (registry t) sweep).

(** *** Creation *)

Definition create_job_if_node_idle (t : JobTracker) (rack node : string) (jt : JobType)
    (ids : nat → JobId) (now : admission_clock)
    : option (JobTracker * result JobFailure JobHandle) :=
  lift_create t
    (create_job (registry t)
       (JobSpec_new_deferred rack node "Queued" (fun _ => job_span jt "")) None true ids now).

Definition remove_queued_job (t : JobTracker) (id : JobId) : JobTracker * bool :=
  let '(r, removed) := remove_queued_leaf (registry t) id in (set_registry t r, removed).

Definition create_child_job (t : JobTracker) (parent_id : JobId) (rack node : string)
    (jt : JobType) (ids : nat → JobId) (now : admission_clock) (refresh_now : clock)
    : option (JobTracker * result JobFailure JobHandle) :=
  match lift_create t
          (create_job (registry t)
             (JobSpec_new_deferred rack node "Queued" (fun _ => job_span jt parent_id))
             (Some parent_id) true ids now) with
  | None => None
  | Some (t, Err f) => Some (t, Err f)
  | Some (t, Ok h) => Some (refresh_parent_state t parent_id refresh_now, Ok h)
  end.

Definition create_visible_workflow_job_if_node_idle (t : JobTracker) (rack node : string)
    (jt : JobType) (ids : nat → JobId) (now : admission_clock)
    : option (JobTracker * result JobFailure JobHandle) :=
  lift_create t
    (create_job (registry t)
       (with_workflow_type
          (JobSpec_new_deferred rack node "Queued" (fun _ => job_span jt "")) jt)
       None true ids now).

Definition create_scoped_job (t : JobTracker) (rack node : string) (jt : JobType)
    (scopes : list JobScope) (ids : nat → JobId) (now : admission_clock)
    : option (JobTracker * result JobFailure JobHandle) :=
  lift_create t
    (create_job_with_scopes (registry t)
       (with_workflow_type
          (JobSpec_new_deferred rack node "Queued" (fun _ => job_span jt "")) jt)
       None true scopes ids now).

Definition reserve_mutation (t : JobTracker) (scopes : list JobScope) (ids : nat → JobId)
    : option (JobTracker * result JobFailure JobId) :=
  match Registry.reserve_mutation (registry t) scopes ids with
  | Some (r, res) => Some (set_registry t r, res)
  | None => None
  end.

Definition create_parent_job (t : JobTracker) (rack : string) (jt : JobType)
    (ids : nat → JobId) (now : admission_clock) : option (JobTracker * option string) :=
  match lift_create t
          (create_job (registry t)
             (with_workflow_type
                (JobSpec_new_parent_deferred rack
                   ("Batch " +++ batch_noun jt +++ " accepting child jobs")
                   (fun _ => job_span jt "")) jt)
             None false ids now) with
  | None => None
  | Some (t, Err _) => Some (t, None)
  | Some (t, Ok h) =>
      Some (set_handles t (<[handle_id h := h]> (parent_job_handles t)), Some (handle_id h))
  end.

(** *** Batches *)

Record RejectedBatchTarget := mkRejected {
  rejected_rack_id : string;
  rejected_node_id : string;
  rejected_error_message : string;
}.

(** What the environment supplies for one target: the IDs drawn and the clocks. *)
Record draw := mkDraw { draw_ids : nat → JobId; draw_now : admission_clock; draw_refresh : clock }.

(** [check] is the caller's [FnMut]: it threads a state of its own.  [draws k] is
    for the [k]-th target of the request. *)
Fixpoint create_batch_jobs_loop {P S C} (parent_id : JobId) (jt : JobType)
    (check : C → P → C * result string S) (draws : nat → draw) (k : nat)
    (targets : list (string * string * P)) (seen : gset (string * string)) (c : C)
    (t : JobTracker) (admitted : list (P * JobHandle * S)) (rejected : list RejectedBatchTarget)
    : option (JobTracker * C * list (P * JobHandle * S) * list RejectedBatchTarget) :=
  match targets with
  | [] => Some (t, c, admitted, rejected)
  | (rack, node, payload) :: targets =>
      let refuse t c msg :=
        create_batch_jobs_loop parent_id jt check draws (Datatypes.S k) targets
          ({[(rack, node)]} ∪ seen) c t admitted (rejected ++ [mkRejected rack node msg]) in
      if bool_decide ((rack, node) ∈ seen) then
        refuse t c ("duplicate target rack_id/node_id: " +++ rack +++ "/" +++ node)
      else
        let '(c, checked) := check c payload in
        match checked with
        | Err msg => refuse t c msg
        | Ok st =>
            match create_child_job t parent_id rack node jt (draw_ids (draws k))
                    (draw_now (draws k)) (draw_refresh (draws k)) with
            | None => None
            | Some (t, Err f) => refuse t c (failure_message f)
            | Some (t, Ok h) =>
                create_batch_jobs_loop parent_id jt check draws (Datatypes.S k) targets
                  ({[(rack, node)]} ∪ seen) c t (admitted ++ [(payload, h, st)]) rejected
            end
        end
  end.

Definition create_batch_jobs {P S C} (t : JobTracker) (parent_id : JobId) (jt : JobType)
    (targets : list (string * string * P)) (check : C → P → C * result string S) (c : C)
    (draws : nat → draw)
    : option (JobTracker * C * list (P * JobHandle * S) * list RejectedBatchTarget) :=
  create_batch_jobs_loop parent_id jt check draws 0 targets ∅ c t [] [].

(** *** Queries and adapters *)

Definition get_job (t : JobTracker) (id : JobId) (now : clock) : JobTracker * option JobInfo :=
  match lookup_job (registry t) id with
  | None => (t, None)
  | Some job =>
      let t := if is_parent job then refresh_parent_state t id now else t in
      (t, snapshot_to_job_info <$> lookup_job (registry t) id)
  end.

Definition tracker_mark_running (t : JobTracker) (id : JobId) (d : string) (now : clock)
    : JobTracker :=
  set_registry t (mark_running (registry t) id d now).1.

Definition tracker_mark_completed (t : JobTracker) (id : JobId) (result_json : option string)
    (now refresh_now : clock) : JobTracker :=
  match parent_job_handles t !! id with
  | Some h =>
      let t := set_registry (set_handles t (delete id (parent_job_handles t)))
                 (complete (registry t) h "Completed" (default "" result_json) now) in
      after_job_terminal t id refresh_now
  | None => t
  end.

Definition mark_failed_with_result (t : JobTracker) (id : JobId) (code : JobError)
    (message : string) (result_json : option string) (now refresh_now : clock) : JobTracker :=
  let failure :=
    with_result_json (JobFailure_new (anyhow_of_code code) message)
      (default (default_failure_result_json code message) result_json) in
  match parent_job_handles t !! id with
  | Some h =>
      let t := set_registry (set_handles t (delete id (parent_job_handles t)))
                 (fail (registry t) h failure now) in
      after_job_terminal t id refresh_now
  | None => t
  end.

Definition tracker_mark_failed (t : JobTracker) (id : JobId) (code : JobError)
    (message : string) (now refresh_now : clock) : JobTracker :=
  mark_failed_with_result t id code message None now refresh_now.

Definition mark_failed_message_with_result (t : JobTracker) (id : JobId) (message : string)
    (result_json : option string) (now refresh_now : clock) : JobTracker :=
  mark_failed_with_result t id JobErrorM.Other message (Some (default "" result_json))
    now refresh_now.

Definition mark_failed_message (t : JobTracker) (id : JobId) (message : string)
    (now refresh_now : clock) : JobTracker :=
  mark_failed_message_with_result t id message None now refresh_now.

(** *** Workers *)

(** The exit of a worker spawned through the tracker: the guard refreshes the
    parent after the handle is gone.  A worker aborted before its first poll
    drops its captures, handle and guard, in an order the code does not fix. *)
Definition tracked_worker_exit (t : JobTracker) (h : JobHandle) (started guard_first : bool)
    (reports : list (string * clock)) (e : WorkerExit) (now refresh_now : clock) : JobTracker :=
  let exit t := set_registry t (worker_task (registry t) h started reports e now) in
  if negb started && guard_first
  then exit (after_job_terminal t (handle_id h) refresh_now)
  else after_job_terminal (exit t) (handle_id h) refresh_now.

(** *** Shutdown *)

Definition shutdown (t : JobTracker) : JobTracker * nat :=
  let '(r, ids) := cancel_active_leaves (begin_shutdown (registry t)) in
  (set_registry t r, length ids).

(** The budget of [shutdown_and_await_terminal]: the cooperative wait and each of
    the four forced ones. *)
Definition shutdown_budget (timeout : Z) : Z * Z :=
  let forced_wait := Z.min (timeout / 5) FORCED_TASK_DRAIN_TIMEOUT in
  (Z.max 0 (timeout - forced_wait * 4), forced_wait).

Definition fail_remaining_parents_for_shutdown (t : JobTracker) (now : JobId → clock)
    : JobTracker :=
  foldl (fun t h => set_registry t (fail (registry t) h shutdown_failure (now (handle_id h))))
    (set_handles t ∅) (map_to_list (parent_job_handles t)).*2.

(** The forced drain, given what each bounded wait answered. *)
Definition forced_drain (t : JobTracker) (drained workers_done drained2 all_done : bool)
    : JobTracker :=
  let ids := task_job_ids (registry t) in
  if drained then t
  else
    let r := abort_workers (registry t) ids in
    if negb drained2 && (workers_done || all_done)
    then set_registry t (abort_supervisors r ids)
    else set_registry t r.

(** What [shutdown_and_await_terminal] does once its waits are over. *)
Definition shutdown_settle (t : JobTracker) (now1 now2 now3 now4 : JobId → clock)
    : JobTracker :=
  let t := refresh_all_parents t now1 in
  let t := fail_remaining_parents_for_shutdown t now2 in
  let still_active := non_terminal_job_ids (registry t) in
  let t := set_registry t (fail_non_terminal_for_shutdown (registry t) still_active now3) in
  refresh_all_parents t now4.

End tracker.
End Tracker.
