(* ===== verification/JobTheorems.v ===== *)
(** * What the job registry guarantees

    The properties of [JobStore] and [JobRegistry]: consistency of every
    reachable registry, admission, exclusion, terminal states, retention,
    cancellation, shutdown and the waits.  The lemmas behind them are in
    [JobStoreProofs] and [JobRegistryProofs]. *)

From S2P Require Import Prelude JobTypes EndpointScope Json RmsDomain JobStore.
From S2P Require Import JobStoreProofs JobRegistry JobRegistryProofs JobEventProofs.
From S2P Require Import JobExamples.
Import Store Registry.
Local Open Scope string_scope.
Local Open Scope list_scope.

(** ** Consistency *)

Section theorems.
Context `{!JobDomain} {W : Type}.
Implicit Types (r : JobRegistry (W := W)).

(** C1. Every reachable registry is consistent: the tests' own consistency check
    returns true, the alias and node indexes agree with the records, a child is
    a leaf listed by a tracked top-level parent, the children of a live parent
    are all tracked, the number of records is within the capacity, and no two
    jobs share a cancellation token. *)
Theorem registry_consistent d r :
  reachable d r → assert_consistent (jobs r) = true ∧ registry_inv r.
Proof.
  intros Hr%reachable_inv. split; [|done]. apply index_inv_consistent, Hr.
Qed.

(** ** Admission *)

(** C40. An admission always returns: for pairwise distinct generated IDs the
    collision loop ends within its fuel, and the assertion that a validated
    parent accepts its child never fires. *)
Theorem create_total d r spec parent idle scopes ids now :
  reachable d r → Inj (=) (=) ids →
  is_Some (create_job_with_scopes r spec parent idle scopes ids now).
Proof. intros Hr%reachable_inv. by apply create_returns. Qed.

(** C9. An admitted job is tracked with the requested identity and initial state;
    it owns every requested alias, each of which was free, and no other alias
    changes owner; with the node-idle requirement it is the only active job of
    its node; and its parent, which was live, lists it as its newest child. *)
Theorem admission_grants d r spec parent idle scopes ids now r' h :
  reachable d r → spec_ok spec →
  create_job_with_scopes r spec parent idle scopes ids now = Some (r', Ok h) →
  granted r spec parent idle scopes h r'.
Proof. intros Hr%reachable_inv. by apply create_ok. Qed.

(** C10. A refused admission leaves no trace: the registry is the one before it,
    or, when it was full, the one before it after a retention sweep; either way
    no alias changes, no live record is touched and the failure is reported to
    nobody but the caller. *)
Theorem refusal_leaves_no_trace d r spec parent idle scopes ids now r' f :
  reachable d r →
  create_job_with_scopes r spec parent idle scopes ids now = Some (r', Err f) →
  (r' = r ∨ r' = cleanup_expired r (at_sweep now) ∧
            (max_jobs r ≤ tracked_job_count (jobs r'))%nat) ∧
  active_by_scope (jobs r') = active_by_scope (jobs r) ∧
  runtime r' = runtime r ∧ world r' = world r ∧
  ∀ id j, by_id (jobs r) !! id = Some j → is_terminal (state j) = false →
    by_id (jobs r') !! id = Some j.
Proof.
  intros Hr%reachable_inv Hc. destruct (ri_store _ Hr) as [Hi _].
  apply create_err in Hc as [->|(-> & _ & Hfull)]; [by auto|]. split_and!; auto.
  - simpl. by destruct (cleanup_scopes (jobs r) (at_sweep now) (ttl r) Hi).
  - intros id j Hj Ht. simpl. apply cleanup_Some. exists j. split_and!; [done| |].
    + unfold warned. by rewrite Ht.
    + intros [He _]. apply expired_terminal in He. congruence.
Qed.

(** ** Exclusion *)

(** C2. An alias never passes from one owner to another: after any operation it
    has the same owner or is free, and it becomes free only when its reservation
    is dropped, its job is removed before it started, or its job ends. *)
Theorem alias_exclusive d r r' sc o :
  reachable d r → step d r r' → active_by_scope (jobs r) !! sc = Some o →
  alias_step r r' sc o.
Proof. intros Hr%reachable_inv. by apply step_alias. Qed.

(** C3. When every job with a node is admitted with the node-idle requirement, as
    all production paths do, no two live jobs ever target the same node. *)
Theorem node_exclusion r rk n id1 id2 j1 j2 :
  reachable node_exclusive r →
  by_id (jobs r) !! id1 = Some j1 → by_id (jobs r) !! id2 = Some j2 →
  is_terminal (state j1) = false → is_terminal (state j2) = false →
  rack_id j1 = rk → rack_id j2 = rk → node_id j1 = n → node_id j2 = n → n ≠ "" →
  id1 = id2.
Proof.
  intros Hr H1 H2 T1 T2 R1 R2 N1 N2 Hn.
  assert (exclusive r) as Hex.
  { revert Hr. apply reachable_ind; [apply initial_exclusive|]. intros; by eapply exclusive_step. }
  apply reachable_inv in Hr. destruct (ri_store _ Hr) as [Hi _].
  apply (Hex rk n); apply (inv_active _ Hi); [exists j1|exists j2]; split_and!; try done;
    unfold should_index; [rewrite N1, T1|rewrite N2, T2]; by rewrite bool_decide_eq_true_2.
Qed.

(** Adding aliases to a running job is all or nothing: a refusal leaves the
    registry as it was; otherwise the job owns every requested alias, none of
    which another owner held, and nothing else changed hands. *)
Theorem reserve_job_scopes_spec r id scopes :
  match (reserve_job_scopes r id scopes).2 with
  | Err _ => (reserve_job_scopes r id scopes).1 = r
  | Ok _ =>
      shutting_down r = false ∧ live r id ∧
      ∀ sc, active_by_scope (jobs (reserve_job_scopes r id scopes).1) !! sc =
              (if decide (sc ∈ (normalized <$> scopes)) then Some id
               else active_by_scope (jobs r) !! sc) ∧
            (sc ∈ (normalized <$> scopes) →
             active_by_scope (jobs r) !! sc = None ∨ active_by_scope (jobs r) !! sc = Some id)
  end.
Proof.
  unfold reserve_job_scopes. destruct (shutting_down r); [done|].
  destruct (get (jobs r) id) as [j|] eqn:Hg; [|done].
  destruct (is_terminal (state j)) eqn:Ht; [done|].
  destruct (conflicting_scope_except _ _ _) as [[]|] eqn:Hc; [done|]. simpl.
  split_and!; [done|by exists j|]. intros sc. split; [apply reserve_scopes_lookup|].
  intros Hsc. destruct (conflicting_scope_except_None _ _ _ Hc sc Hsc) as [Ho _].
  destruct (active_by_scope (jobs r) !! sc) as [o|]; [|by left].
  right. specialize (Ho _ eq_refl). congruence.
Qed.

(** ** Terminal states *)

(** C7. A terminal job never changes again: with IDs that do not repeat, any
    operation either evicts its record or leaves its state, result, timestamps
    and children exactly as they were. *)
Theorem terminal_is_final r r' id j :
  reachable fresh_uuids r → step fresh_uuids r r' →
  by_id (jobs r) !! id = Some j → is_terminal (state j) = true →
  by_id (jobs r') !! id = None ∨ ∃ j', by_id (jobs r') !! id = Some j' ∧ frozen j j'.
Proof.
  intros Hr Hst Hj Ht. pose proof (reachable_history _ Hr) as Hh. apply reachable_inv in Hr.
  destruct (by_id (jobs r') !! id) as [j'|] eqn:Hj'; [|by left]. right. exists j'. split; [done|].
  destruct (step_origin _ _ _ _ _ Hr Hst Hj') as [j0 Hj0 Hev|spec parent idle scopes ids now h Hok
    Hmay Hc Hid _ _ _ _ _ _].
  - simplify_eq. by apply (ev_frozen _ _ Hev).
  - exfalso. destruct (create_admitted_spec _ _ _ _ _ _ _ _ _ Hr Hok Hc) as (rec & Had & _).
    destruct (ad_drawn _ _ _ _ _ _ Had) as [k Hk]. apply (Hmay k). rewrite <- Hk, Hid.
    apply (hi_tracked _ Hh). eauto.
Qed.

(** C6. A job ends exactly once: with IDs that do not repeat, the log holds one
    end of span for every job that is terminal, none for a live one, and never
    two for the same job; each admitted job is announced exactly once. *)
Theorem ends_exactly_once r :
  reachable fresh_uuids r →
  NoDup (created_ids r) ∧ NoDup (ended_ids r) ∧
  (∀ id, id ∈ ended_ids r → id ∈ created_ids r) ∧
  ∀ id j, by_id (jobs r) !! id = Some j →
    id ∈ created_ids r ∧ (is_terminal (state j) = true ↔ id ∈ ended_ids r).
Proof.
  intros Hr%reachable_history. split_and!; try apply Hr. intros id j Hj.
  split; [|by apply Hr]. apply Hr. eauto.
Qed.

(** ** Retention *)

(** A sweep evicts a record exactly when it is terminal, has been untouched
    for the retention period on the monotonic clock, every tracked parent that
    lists it has expired too, and no child of its own is still tracked; it
    changes nothing else but the clock warning flag of what it keeps. *)
Theorem sweep_evicts_exactly r now id j :
  by_id (jobs r) !! id = Some j →
  by_id (jobs (cleanup_expired r now)) !! id =
    (if decide (id ∈ expired_ids (by_id (jobs r)) now (ttl r)) then None
     else Some (warned now j)) ∧
  (id ∈ expired_ids (by_id (jobs r)) now (ttl r) ↔
     is_terminal (state j) = true ∧ (ttl r <= Z.max 0 (now - updated_at_mono j))%Z ∧
     (∀ p pj, by_id (jobs r) !! p = Some pj → id ∈ child_job_ids pj →
        is_terminal (state pj) = true ∧ (ttl r <= Z.max 0 (now - updated_at_mono pj))%Z) ∧
     (∀ c, c ∈ child_job_ids j → by_id (jobs r) !! c = None)).
Proof.
  intros Hj.
  assert (id ∈ expired_ids (by_id (jobs r)) now (ttl r) ↔
          evicted (by_id (jobs r)) now (ttl r) id j) as Hev.
  { rewrite elem_of_expired_ids. naive_solver. }
  split.
  - simpl. rewrite cleanup_lookup, Hj. apply decide_ext. by rewrite (elem_of_sweep _ _ _ _ _ Hj).
  - rewrite Hev. unfold evicted, expired, is_older_than, saturating_duration_since.
    setoid_rewrite andb_true_iff. setoid_rewrite Z.leb_le. naive_solver.
Qed.

(** Retention is complete: with IDs that do not repeat, once a parent and all
    its tracked children have expired, two sweeps later none of them is left. *)
Theorem two_sweeps_evict_family r now p pj :
  reachable fresh_uuids r →
  by_id (jobs r) !! p = Some pj → parent_job_id pj = None →
  expired now (ttl r) pj = true →
  (∀ c cj, c ∈ child_job_ids pj → by_id (jobs r) !! c = Some cj → expired now (ttl r) cj = true) →
  let r' := cleanup_expired (cleanup_expired r now) now in
  by_id (jobs r') !! p = None ∧ ∀ c, c ∈ child_job_ids pj → by_id (jobs r') !! c = None.
Proof.
  intros Hr Hp Hpn He Hc. pose proof (reachable_history _ Hr) as Hh. apply reachable_inv in Hr.
  destruct (ri_store _ Hr) as [_ Hf].
  assert (∀ c, c ∈ child_job_ids pj → by_id (jobs (cleanup_expired r now)) !! c = None) as H1.
  { intros c Hin. simpl. destruct (by_id (Store.cleanup_expired _ _ _) !! c) as [j'|] eqn:Hj';
      [|done].
    apply cleanup_Some in Hj' as (cj & Hcj & _ & Hne). exfalso. apply Hne.
    pose proof (hi_link _ Hh _ _ _ _ Hp Hin Hcj) as Hlk.
    destruct (inv_parent _ Hf _ _ _ Hcj Hlk) as (Hnil & _). split_and!; [by eapply Hc| |].
    - intros q qj Hq Hinq. pose proof (hi_link _ Hh _ _ _ _ Hq Hinq Hcj) as Hlq.
      rewrite Hlk in Hlq. by simplify_eq.
    - rewrite Hnil. by intros ? ?%not_elem_of_nil. }
  split.
  - simpl. destruct (by_id (Store.cleanup_expired (Store.cleanup_expired _ _ _) _ _) !! p)
      as [j'|] eqn:Hj'; [|done].
    apply cleanup_Some in Hj' as (j1 & Hj1 & _ & Hne). exfalso. apply Hne.
    apply cleanup_Some in Hj1 as (j0 & Hj0 & -> & _). simplify_eq. split_and!.
    + by rewrite warned_expired.
    + intros q qj' Hq Hin. apply cleanup_Some in Hq as (qj & Hq & -> & _).
      destruct (warned_fields now qj) as (_ & _ & _ & _ & Ech & _). rewrite Ech in Hin.
      pose proof (hi_link _ Hh _ _ _ _ Hq Hin Hp) as Hlk. congruence.
    + destruct (warned_fields now pj) as (_ & _ & _ & _ & -> & _). apply H1.
  - intros c Hin. simpl. rewrite cleanup_lookup. simpl in H1. by rewrite H1.
Qed.

(** ** Cancellation and shutdown *)

(** Cancelling a job cancels that job and no other. *)
Theorem cancel_is_precise d r id id' j' :
  reachable d r → by_id (jobs r) !! id' = Some j' → is_Some (by_id (jobs r) !! id) →
  is_cancelled (cancel r id).1 (cancellation_token j') = true ↔
    id' = id ∨ is_cancelled r (cancellation_token j') = true.
Proof.
  intros Hr%reachable_inv Hj' [j Hj]. unfold cancel, cancellation_token_for, lookup_job, get.
  rewrite Hj. simpl. unfold is_cancelled. simpl.
  rewrite !bool_decide_eq_true, elem_of_union, elem_of_singleton.
  apply or_iff_compat_r. split; [|naive_solver]. intros Ht. by eapply (ri_token_inj _ Hr).
Qed.

(** Shutdown signals exactly the live leaf jobs: every one of them, and no
    parent and no finished job. *)
Theorem shutdown_cancels_live_leaves d r id j :
  reachable d r → by_id (jobs r) !! id = Some j →
  is_cancelled (cancel_active_leaves r).1 (cancellation_token j) = true ↔
    is_cancelled r (cancellation_token j) = true ∨
    (is_parent j = false ∧ is_terminal (state j) = false).
Proof. intros Hr%reachable_inv. by apply cancel_leaves_token. Qed.

(** Shutdown is final: in every state after it began, job creation, mutation
    reservations and further aliases are all refused with the domain's
    shutting-down failure and change nothing, and every job that is tracked or
    live then was so when shutdown began. *)
Theorem shutdown_is_final d r r' :
  reachable d r → steps d (begin_shutdown r) r' →
  (∀ spec parent idle scopes ids now,
     create_job_with_scopes r' spec parent idle scopes ids now =
       Some (r', Err shutting_down_failure)) ∧
  (∀ scopes ids,
     Registry.reserve_mutation r' scopes ids = Some (r', Err shutting_down_failure)) ∧
  (∀ id scopes, reserve_job_scopes r' id scopes = (r', Err shutting_down_failure)) ∧
  ∀ id, (live r' id → live r id) ∧
    (is_Some (by_id (jobs r') !! id) → is_Some (by_id (jobs r) !! id)).
Proof.
  intros Hr%reachable_inv Hs.
  assert (registry_inv (begin_shutdown r)) as Hr0 by (by eapply registry_inv_same).
  destruct (shutdown_steps _ _ _ Hr0 eq_refl Hs) as (_ & Hsd & Hl).
  pose proof (shutdown_tracked _ _ _ Hr0 eq_refl Hs) as Ht. split_and!; intros.
  - unfold create_job_with_scopes, admission_refused. by rewrite Hsd.
  - unfold Registry.reserve_mutation. by rewrite Hsd.
  - unfold reserve_job_scopes. by rewrite Hsd.
  - split; [apply Hl|apply Ht].
Qed.

(** The last pass of shutdown leaves no live job behind, whatever else the
    program does before, during and after it: it fails the jobs that were live
    when it started, and after the begin of shutdown no other can become live. *)
Theorem shutdown_pass_settles d r r' :
  reachable d r → shutting_down r = true →
  fail_each d (non_terminal_job_ids r) r r' → ∀ id, ¬ live r' id.
Proof.
  intros Hr%reachable_inv Hsd. apply fail_each_settles; [done|done|].
  intros id. by rewrite elem_of_non_terminal.
Qed.
End theorems.

(** ** Waiting *)

(** A bounded wait accounts for every job it waits for, whatever the registry
    answers: the pending, missing and terminal outcomes partition the requested
    IDs, a terminal outcome is a terminal snapshot the registry returned for one
    of them, and an ID counts as missing only if the registry had no record of it. *)
Theorem wait_accounts looks ids :
  outcome_inv (list_to_set ids) looks (wait_for_terminal_outcomes looks (start_wait ids)).
Proof. apply (wait_inv _ []), start_inv. Qed.

(** A wait ends as soon as one look finds every requested job terminal or gone,
    and it never reports success before every one of them was seen so. *)
Theorem wait_succeeds_exactly looks ids :
  (∀ look, look ∈ looks → (∀ id, id ∈ ids → settled look id) →
     wait_for_terminal_jobs looks ids = true) ∧
  (wait_for_terminal_jobs looks ids = true →
     ∀ id, id ∈ ids → ∃ look, look ∈ looks ∧ settled look id).
Proof.
  unfold wait_for_terminal_jobs. split.
  - intros look Hin Hall. apply bool_decide_eq_true. apply (wait_settles look); [done|].
    simpl. intros id. rewrite elem_of_list_to_set. apply Hall.
  - apply wait_true_settled.
Qed.

(** ** The theorems at concrete registries *)

Section witnesses.
Import Example.

Lemma registry_consistent_witness :
  assert_consistent (jobs family) = true ∧ registry_inv family.
Proof. apply (registry_consistent fresh_uuids). exact family_fresh. Defined.

Lemma create_total_witness :
  is_Some (create_job_with_scopes one (leaf "n2") None true [] (ids_from 1) at0).
Proof. apply (create_total fresh_uuids); [exact one_fresh|exact (ids_from_inj 1)]. Defined.

Lemma admission_grants_witness : granted empty (leaf "n1") None true [scope] one_handle one.
Proof.
  apply (admission_grants anything empty (leaf "n1") None true [scope] ids at0).
  - apply empty_reachable.
  - reflexivity.
  - exact one_created.
Defined.

Lemma refusal_leaves_no_trace_witness :
  active_by_scope (jobs one) = active_by_scope (jobs one) ∧
  by_id (jobs one) !! "job-0" = Some one_record.
Proof.
  destruct (refusal_leaves_no_trace fresh_uuids one (leaf "n1") None true [] (ids_from 1) at0 one
    (node_busy_failure "rack" "n1" "job-0")) as (_ & Ha & _ & _ & Hk).
  - exact one_fresh.
  - vm_cast_no_check (eq_refl (Some (one, Err (A := JobHandle)
      (node_busy_failure "rack" "n1" "job-0")))).
  - split; [exact Ha|]. apply Hk; [exact one_lookup|reflexivity].
Defined.

Lemma alias_exclusive_witness : alias_step one finished_one scope "job-0".
Proof.
  apply (alias_exclusive fresh_uuids); [exact one_fresh|apply step_completed|exact one_alias].
Defined.

Lemma node_exclusion_witness : "job-0" = "job-0".
Proof.
  apply (node_exclusion one "rack" "n1" "job-0" "job-0" one_record one_record);
    try reflexivity; try exact one_lookup; [|done].
  apply one_reachable. by left.
Defined.

Lemma terminal_is_final_witness :
  let r' := (mark_failed finished_one "job-0" shutdown_failure clock0).1 in
  by_id (jobs r') !! "job-0" = None ∨
  ∃ j', by_id (jobs r') !! "job-0" = Some j' ∧ frozen finished_record j'.
Proof.
  apply (terminal_is_final finished_one); [exact finished_fresh|apply step_failed|
    exact finished_lookup|reflexivity].
Defined.

Lemma ends_exactly_once_witness : NoDup (ended_ids family) ∧ ended_ids family = ["job-1"; "job-0"].
Proof.
  split; [|vm_compute; reflexivity].
  destruct (ends_exactly_once family) as (_ & He & _); [exact family_fresh|exact He].
Defined.

Lemma sweep_evicts_exactly_witness :
  by_id (jobs (cleanup_expired finished_one 1000)) !! "job-0" = None.
Proof.
  destruct (sweep_evicts_exactly finished_one 1000 "job-0" finished_record) as [E _].
  - exact finished_lookup.
  - rewrite E. by vm_compute.
Defined.

Lemma two_sweeps_evict_family_witness :
  let r' := cleanup_expired (cleanup_expired family 1000) 1000 in
  by_id (jobs r') !! "job-0" = None ∧ ∀ c, c ∈ ["job-1"] → by_id (jobs r') !! c = None.
Proof.
  apply (two_sweeps_evict_family family 1000 "job-0" root_record);
    [exact family_fresh|vm_compute; reflexivity..|].
  intros c cj ->%list_elem_of_singleton Hc.
  assert (expired 1000 100 <$> by_id (jobs family) !! "job-1" = Some true) as E
    by (vm_compute; reflexivity).
  rewrite Hc in E. by injection E.
Defined.

Lemma cancel_is_precise_witness :
  is_cancelled (cancel one "job-0").1 0 = true ↔ "job-0" = "job-0" ∨ is_cancelled one 0 = true.
Proof.
  apply (cancel_is_precise fresh_uuids one "job-0" "job-0" one_record);
    [exact one_fresh|exact one_lookup|]. exists one_record. exact one_lookup.
Defined.

Lemma shutdown_cancels_live_leaves_witness :
  is_cancelled (cancel_active_leaves one).1 0 = true ↔
    is_cancelled one 0 = true ∨ (false = false ∧ false = false).
Proof.
  apply (shutdown_cancels_live_leaves fresh_uuids one "job-0" one_record);
    [exact one_fresh|exact one_lookup].
Defined.

Lemma shutdown_is_final_witness :
  create_job_with_scopes (begin_shutdown one) (leaf "n2") None true [] (ids_from 1) at0 =
    Some (begin_shutdown one, Err shutting_down_failure).
Proof.
  destruct (shutdown_is_final fresh_uuids one (begin_shutdown one)) as [Hc _];
    [exact one_fresh|apply rtc_refl|apply Hc].
Defined.

Lemma shutdown_pass_settles_witness :
  ¬ live (mark_failed (begin_shutdown one) "job-0" shutdown_failure clock0).1 "job-0".
Proof.
  apply (shutdown_pass_settles fresh_uuids (begin_shutdown one)).
  - eapply reachable_step; [exact one_fresh|apply step_shutdown].
  - reflexivity.
  - assert (non_terminal_job_ids (begin_shutdown one) = ["job-0"]) as -> by (by vm_compute).
    eapply fail_each_next; [apply rtc_refl|]. constructor. apply rtc_refl.
Defined.
End witnesses.
