(* ===== verification/JobHandleTheorems.v ===== *)
(** * What job handles, workers and cleanup guarantee

    The properties of [JobHandle]: every way a worker can end seals its job,
    what the sealed state says, and when a cleanup may remove a directory. *)

From S2P Require Import Prelude JobTypes EndpointScope Json RmsDomain JobStore.
From S2P Require Import JobStoreProofs JobRegistry JobRegistryProofs JobEventProofs.
From S2P Require Import JobExamples JobHandle.
Import Store Registry.
Local Open Scope string_scope.
Local Open Scope list_scope.

Section handles.
Context `{SerdeJson} `{!JobDomain} {W : Type}.
Implicit Types (r : JobRegistry (W := W)) (h : JobHandle).

Definition state_of r (id : JobId) : option JobLifecycleState := state <$> by_id (jobs r) !! id.

Lemma live_state r id : live r id ↔ ∃ st, state_of r id = Some st ∧ is_terminal st = false.
Proof.
  unfold live, state_of. split.
  - intros (j & -> & Ht). eauto.
  - intros (st & (j & Hj & ->)%fmap_Some & Ht). eauto.
Qed.

Lemma update_state r id v now next :
  state_of (update r id v now (unless_terminal next)).1 id =
    match state_of r id with
    | Some st => if is_terminal st then Some st else Some next
    | None => None
    end.
Proof.
  unfold state_of. rewrite update_records. destruct (by_id (jobs r) !! id) as [j|]; [|done].
  rewrite decide_True by done. simpl. by destruct (is_terminal (state j)).
Qed.

Lemma drop_finished r h now : drop_handle r (finish h) now = r.
Proof. done. Qed.

(** The state each exit writes on a live job. *)
Definition exit_state r h (e : WorkerExit) : JobLifecycleState :=
  match e with
  | ExitComplete d res | ExitVerified d res => Completed d (result_with_metadata h res)
  | ExitFail f => failed_state (failure_with_metadata h f)
  | Abandoned =>
      failed_state (failure_with_metadata h
        (if is_cancelled r (handle_token h) then shutdown_failure else dropped_failure))
  end.

Lemma worker_exit_state r h e now :
  handle_finished h = false →
  state_of (worker_exit r h e now) (handle_id h) =
    match state_of r (handle_id h) with
    | Some st => if is_terminal st then Some st else Some (exit_state r h e)
    | None => None
    end.
Proof.
  intros Hf. destruct e; simpl.
  - unfold complete. rewrite drop_finished. apply update_state.
  - unfold complete_verified. rewrite drop_finished. apply update_state.
  - unfold fail. rewrite drop_finished. apply update_state.
  - unfold drop_handle. rewrite Hf. apply update_state.
Qed.

Lemma progress_cancelled r h reports t :
  is_cancelled (worker_progress r h reports) t = is_cancelled r t.
Proof.
  unfold worker_progress. revert r. induction reports as [|p l IH]; intros r; simpl; [done|].
  rewrite IH. unfold is_cancelled, progress, mark_running.
  by destruct (update_frame r (handle_id h) false p.2 (unless_terminal (Running p.1)))
    as (_ & _ & _ & _ & _ & _ & -> & _).
Qed.

(** A progress report keeps a terminal state, and keeps a live job live. *)
Lemma progress_state r h reports :
  match state_of r (handle_id h) with
  | Some st =>
      if is_terminal st then state_of (worker_progress r h reports) (handle_id h) = Some st
      else ∃ st', state_of (worker_progress r h reports) (handle_id h) = Some st' ∧
                  is_terminal st' = false
  | None => state_of (worker_progress r h reports) (handle_id h) = None
  end.
Proof.
  unfold worker_progress. revert r. induction reports as [|p l IH]; intros r; simpl.
  - destruct (state_of r (handle_id h)) as [st|] eqn:E; [|done].
    destruct (is_terminal st) eqn:Et; eauto.
  - specialize (IH (progress r h p.1 p.2).1).
    unfold progress, mark_running in IH |- *. rewrite update_state in IH.
    destruct (state_of r (handle_id h)) as [st|]; [|done].
    destruct (is_terminal st) eqn:Et; [by rewrite Et in IH|done].
Qed.

(** C5. A worker cannot leave its job open: however it ends (sealing the handle,
    returning without sealing it, panicking, being aborted before or after it
    started), whatever progress it reported, its job is not live afterwards. *)
Theorem worker_always_seals r h started reports e now :
  handle_finished h = false → ¬ live (worker_task r h started reports e now) (handle_id h).
Proof.
  intros Hf.
  assert (∀ r e, ¬ live (worker_exit r h e now) (handle_id h)) as Hexit.
  { intros r0 e0 (st & Hst & Ht)%live_state. rewrite worker_exit_state in Hst by done.
    destruct (state_of r0 (handle_id h)) as [st0|]; [|done].
    destruct (is_terminal st0) eqn:E; simplify_eq; [congruence|by destruct e0]. }
  unfold worker_task. destruct started; [apply Hexit|].
  change (drop_handle r h now) with (worker_exit r h Abandoned now). apply Hexit.
Qed.

(** What a job that is live when its worker ends says afterwards: the outcome
    the worker sealed it with, and for a worker that never did, the domain's
    shutdown failure if the job had been cancelled and its abandonment failure
    otherwise. *)
Theorem worker_outcome_recorded r h reports e now :
  handle_finished h = false → live r (handle_id h) →
  state_of (worker_task r h true reports e now) (handle_id h) = Some (exit_state r h e).
Proof.
  intros Hf (st & Hst & Ht)%live_state. unfold worker_task. rewrite worker_exit_state by done.
  pose proof (progress_state r h reports) as Hp. rewrite Hst, Ht in Hp.
  destruct Hp as (st' & -> & ->). f_equal. destruct e; simpl; try done.
  by rewrite progress_cancelled.
Qed.

(** A job spawned after shutdown began never runs: its worker is aborted before
    its first poll, its token is cancelled, and the job fails with the domain's
    shutdown failure rather than as abandoned. *)
Theorem spawn_during_shutdown r h w sup reports e now :
  shutting_down r = true → handle_finished h = false → live r (handle_id h) →
  let '(r', started) := spawn_job_inner r h w sup in
  started = false ∧ w ∈ aborted (runtime r') ∧ is_cancelled r' (handle_token h) = true ∧
  state_of (worker_task r' h started reports e now) (handle_id h) =
    Some (failed_state (failure_with_metadata h shutdown_failure)).
Proof.
  intros Hsd Hf (st & Hst & Ht)%live_state. unfold spawn_job_inner, register_task. rewrite Hsd.
  simpl. set (r' := set_runtime _ _).
  assert (is_cancelled r' (handle_token h) = true) as Hc.
  { unfold is_cancelled. simpl. apply bool_decide_eq_true. set_solver. }
  split_and!; [done|set_solver|done|].
  change (drop_handle r' h now) with (worker_exit r' h Abandoned now).
  rewrite worker_exit_state by done. change (state_of r' (handle_id h)) with (state_of r (handle_id h)).
  rewrite Hst, Ht. simpl. by rewrite Hc.
Qed.

Definition result_json_of (s : JobLifecycleState) : string :=
  match s with
  | Completed _ res | Failed _ _ _ res => res
  | Queued _ | Running _ => ""
  end.

(** The payload a worker supplies with its exit. *)
Definition supplied r h (e : WorkerExit) : string :=
  match e with
  | ExitComplete _ res | ExitVerified _ res => res
  | ExitFail f => default "" (failure_result_json f)
  | Abandoned =>
      default "" (failure_result_json
        (if is_cancelled r (handle_token h) then shutdown_failure else dropped_failure))
  end.

(** Trusted metadata reaches every terminal result, abandonment included: the
    recorded result is a JSON object in which each metadata key has its metadata
    value and every other key comes from the supplied result, an object as it
    is, anything else under [result], the empty result as nothing. *)
Theorem metadata_in_every_result r h reports e now :
  handle_finished h = false → live r (handle_id h) → result_metadata h ≠ ∅ →
  ∃ st m, state_of (worker_task r h true reports e now) (handle_id h) = Some st ∧
    result_json_of st = to_string (JObject m) ∧
    ∀ k, m !! k = match result_metadata h !! k with
                  | Some v => Some v
                  | None => result_object (supplied r h e) !! k
                  end.
Proof.
  intros Hf Hl Hm. rewrite worker_outcome_recorded by done.
  exists (exit_state r h e), (map_extend (result_object (supplied r h e)) (result_metadata h)).
  split_and!; [done| |intros k; apply map_extend_lookup].
  destruct e; simpl; unfold failure_with_metadata; rewrite ?bool_decide_eq_true_2 by done;
    simpl; unfold result_with_metadata; by rewrite bool_decide_eq_false_2.
Qed.

(** A cleanup that waits for child jobs touches the file system only after it
    saw every one of them terminal or gone; otherwise it reports that it was
    skipped and leaves the directory in place. *)
Theorem cleanup_waits_for_children remove_dir_all looks ids path timeout :
  let report := Cleanup.run remove_dir_all looks (Cleanup.AfterJobsTerminate ids path timeout) in
  (report ≠ Cleanup.Skipped ↔ wait_for_terminal_jobs looks ids = true) ∧
  (report = Cleanup.Removed → ∀ id, id ∈ ids → ∃ look, look ∈ looks ∧ settled look id).
Proof.
  simpl. unfold Cleanup.remove_dir. split.
  - destruct (wait_for_terminal_jobs looks ids); [|naive_solver].
    split; [done|]. intros _. by repeat case_match.
  - destruct (wait_for_terminal_jobs looks ids) eqn:E; [|done]. intros _. by apply wait_true_settled.
Qed.
End handles.

(** ** The theorems at concrete registries *)

Section witnesses.
Import Example.

Lemma one_live : live one "job-0".
Proof. exists one_record. split; [exact one_lookup|reflexivity]. Qed.

Lemma worker_always_seals_witness :
  ¬ live (worker_task one one_handle true [("Running", clock0)] Abandoned clock0) "job-0".
Proof. apply (worker_always_seals one one_handle). reflexivity. Defined.

Lemma worker_outcome_recorded_witness :
  state_of (worker_task one one_handle true [("Running", clock0)] Abandoned clock0) "job-0" =
    Some (failed_state dropped_failure).
Proof.
  rewrite (worker_outcome_recorded one one_handle);
    [vm_compute; reflexivity|reflexivity|exact one_live].
Defined.

Lemma spawn_during_shutdown_witness :
  (spawn_job_inner (begin_shutdown one) one_handle 7 8).2 = false.
Proof.
  pose proof (spawn_during_shutdown (begin_shutdown one) one_handle 7 8 [] Abandoned clock0
    eq_refl eq_refl one_live) as Hs.
  destruct (spawn_job_inner _ _ _ _) as [r' started]. exact (proj1 Hs).
Defined.

Definition tagged : JobHandle := with_result_metadata one_handle {["tray" := jnat 3]}.

Lemma metadata_in_every_result_witness :
  ∃ st m, state_of (worker_task one tagged true [] Abandoned clock0) "job-0" = Some st ∧
    result_json_of st = to_string (JObject m) ∧ m !! "tray" = Some (jnat 3).
Proof.
  destruct (metadata_in_every_result one tagged [] Abandoned clock0) as (st & m & Hs & Hr & Hm).
  - reflexivity.
  - exact one_live.
  - done.
  - exists st, m. split; [exact Hs|]. split; [exact Hr|]. by rewrite Hm.
Defined.
End witnesses.
