(* ===== verification/JobTrackerProofs.v ===== *)
(** * Lemmas on the job tracker

    What an aggregation counts, what a refresh writes, the invariant of a
    tracker and its preservation, and the refinement of every tracker
    operation by steps of the registry.  Module [TrackerExample]: a batch with one
    child, live and finished, on which the theorems are evaluated. *)

From S2P Require Import Prelude JobTypes EndpointScope Json RmsDomain.
From S2P Require Import JobStore JobStoreProofs JobRegistry JobRegistryProofs.
From S2P Require Import JobEventProofs JobExamples JobHandle JobTracker.
Import Store Registry Tracker.
Local Open Scope string_scope.
Local Open Scope list_scope.

(** ** Counts *)

Definition is_completed (s : JobLifecycleState) : bool :=
  match s with Completed _ _ => true | _ => false end.
Definition is_failed (s : JobLifecycleState) : bool :=
  match s with Failed _ _ _ _ => true | _ => false end.

Section counts.
Implicit Types (look : JobId → option JobSnapshot) (c : ParentCounts).

(** How many of [ids] have a record whose state satisfies [p]. *)
Definition count_state look (p : JobLifecycleState → bool) (ids : list JobId) : nat :=
  length (List.filter (fun id => match look id with Some j => p (state j) | None => false end) ids).

Definition count_none look (ids : list JobId) : nat :=
  length (List.filter (fun id => is_none (look id)) ids).

Definition failed_of look (ids : list JobId) : list FailedChild :=
  omap (fun id => match look id with
                  | Some j => if is_failed (state j) then Some (failed_child j) else None
                  | None => None
                  end) ids.

Lemma collect_spec look ids :
  collect_parent_counts look ids =
    mkParentCounts (length ids) (count_state look is_completed ids)
      (count_state look is_failed ids) (count_state look is_running ids)
      (count_state look is_queued ids) (count_none look ids) (failed_of look ids).
Proof.
  unfold collect_parent_counts.
  assert (∀ l c, foldl (fun c id => match look id with
                     | None => count_missing c | Some child => count_child c child end) c l =
    mkParentCounts (total c) (completed c + count_state look is_completed l)
      (failed c + count_state look is_failed l) (running c + count_state look is_running l)
      (queued c + count_state look is_queued l) (missing_children c + count_none look l)
      (failed_children c ++ failed_of look l)) as Hgen; [|by rewrite Hgen].
  induction l as [|id l IH]; intros c; simpl.
  - destruct c. unfold count_state, count_none. simpl. by rewrite !Nat.add_0_r, app_nil_r.
  - rewrite IH. unfold count_state, count_none, count_child, count_missing. simpl.
    destruct (look id) as [j|]; simpl; [destruct (state j) eqn:Es; simpl|];
      rewrite ?Es, ?Nat.add_succ_r, <- ?(assoc_L (++)); reflexivity.
Qed.

Lemma counts_sum look ids :
  (count_state look is_completed ids + count_state look is_failed ids +
   count_state look is_running ids + count_state look is_queued ids + count_none look ids)%nat
  = length ids.
Proof.
  unfold count_state, count_none. induction ids as [|id ids IH]; simpl; [done|].
  destruct (look id) as [j|]; simpl; [destruct (state j); simpl|]; lia.
Qed.

Lemma count_state_zero look p ids :
  count_state look p ids = 0%nat ↔
    ∀ id j, id ∈ ids → look id = Some j → p (state j) = false.
Proof.
  unfold count_state. induction ids as [|id ids IH]; simpl.
  - split; [|done]. by intros _ ? ? ?%not_elem_of_nil.
  - setoid_rewrite elem_of_cons. destruct (look id) as [j|] eqn:E; [destruct (p (state j)) eqn:Ep|];
      simpl; [|rewrite IH; naive_solver..].
    split; [done|]. intros Hall. specialize (Hall id j (or_introl eq_refl) E). congruence.
Qed.

Lemma count_state_pos look p ids :
  (0 < count_state look p ids)%nat →
  ∃ id j, id ∈ ids ∧ look id = Some j ∧ p (state j) = true.
Proof.
  unfold count_state. destruct (List.filter _ ids) as [|c l] eqn:E; simpl; [lia|]. intros _.
  assert (List.In c (c :: l)) as Hin by (by left). rewrite <- E in Hin.
  apply List.filter_In in Hin as [Hin Hp]. exists c. apply list_elem_of_In in Hin.
  destruct (look c) as [j|]; [|done]. eauto.
Qed.

Lemma count_none_zero look ids :
  count_none look ids = 0%nat ↔ ∀ id, id ∈ ids → is_Some (look id).
Proof.
  unfold count_none. induction ids as [|id ids IH]; simpl.
  - split; [|done]. by intros _ ? ?%not_elem_of_nil.
  - setoid_rewrite elem_of_cons. destruct (look id) as [j|] eqn:E; simpl; [rewrite IH|].
    + naive_solver.
    + split; [done|]. intros Hall. specialize (Hall id (or_introl eq_refl)).
      rewrite E in Hall. by destruct Hall.
Qed.
End counts.

(** ** What a refresh writes *)

Section tracker.
Context `{SerdeJson} `{TrackerJson}.
Implicit Types (t : JobTracker).

(** The state a refresh writes on a live parent, when nothing changes between its
    reads and its write. *)
Definition aggregate (reads : refresh_reads) (h : JobHandle) (pj : JobSnapshot) (jt : JobType)
    : JobLifecycleState :=
  let c := collect_parent_counts (read_counts reads) (child_job_ids pj) in
  if (done_count c =? total c)%nat then
    if (0 <? failed c)%nat || (0 <? missing_children c)%nat
    then failed_state (failure_with_metadata h (parent_failure c jt))
    else Completed
           (completion_description
              (count_skipped_children (read_skipped reads) (child_job_ids pj)) (total c) jt)
           (result_with_metadata h "")
  else Running (running_description c jt).

Record handle_ok (id : JobId) (h : JobHandle) : Prop := {
  ho_id : handle_id h = id;
  ho_open : handle_finished h = false;
}.

(** A refresh does nothing, or makes one transition of the parent and gives its
    handle up when that seals it. *)
Lemma refresh_cases reads t p now :
  (∀ h, parent_job_handles t !! p = Some h → handle_ok p h) →
  refresh_with reads t p now = t ∨
  ∃ next m', is_queued next = false ∧
    refresh_with reads t p now =
      set_handles (set_registry t (update (registry t) p false now (unless_terminal next)).1) m' ∧
    (m' = parent_job_handles t ∨
     m' = delete p (parent_job_handles t) ∧ is_terminal next = true).
Proof.
  intros Hh. unfold refresh_with. destruct (read_parent reads) as [pj|]; [|by left].
  destruct (_ || _); [by left|]. destruct (workflow_type pj) as [jt|]; [|by left].
  destruct (_ =? 0)%nat; [by left|]. destruct (_ =? _)%nat.
  - unfold refresh_terminal_parent, fail_parent, complete_parent.
    destruct (parent_job_handles t !! p) as [h|] eqn:E; [|by destruct (_ || _); left].
    destruct (Hh h) as [<- _]; [done|]. right.
    destruct (_ || _); eexists _, _; (split; [|split; [reflexivity|by right]]); done.
  - right. destruct (parent_job_handles t !! p) as [h|] eqn:E;
      [destruct (Hh h) as [<- _]; [done|]|];
      eexists _, _; (split; [|split; [reflexivity|by left]]); done.
Qed.

Lemma update_seals (r : JobRegistry (W := Metrics)) p v now next :
  is_terminal next = true → ¬ live (update r p v now (unless_terminal next)).1 p.
Proof.
  intros Hn (j & Hj & Ht). rewrite update_records in Hj.
  destruct (by_id (jobs r) !! p) as [j0|]; [|done].
  rewrite decide_True in Hj by done.
  destruct (is_terminal (state j0)) eqn:E0; simplify_eq; simpl in *; congruence.
Qed.

(** A refresh of a live parent whose handle the tracker owns. *)
Lemma refresh_live t p now pj jt h :
  by_id (jobs (registry t)) !! p = Some pj → is_terminal (state pj) = false →
  child_job_ids pj ≠ [] → workflow_type pj = Some jt →
  parent_job_handles t !! p = Some h → handle_ok p h →
  by_id (jobs (registry (refresh_parent_state t p now))) !! p =
    Some (touch (set_state pj (aggregate (reads_of t p) h pj jt)) now).
Proof.
  intros Hpj Ht Hch Hjt Hh [Hid Hopen].
  assert (is_parent pj = true) as Hpar by (unfold is_parent; by destruct (child_job_ids pj)).
  assert (∀ v next, by_id (jobs (update (registry t) p v now (unless_terminal next)).1) !! p
    = Some (touch (set_state pj next) now)) as Hup.
  { intros v next. rewrite update_records, Hpj, decide_True, Ht by done. done. }
  unfold refresh_parent_state, refresh_with, aggregate. simpl.
  change (lookup_job (registry t) p) with (by_id (jobs (registry t)) !! p).
  rewrite Hpj, Hpar, Ht, Hjt. simpl.
  set (c := collect_parent_counts _ _).
  assert (total c = length (child_job_ids pj)) as Htot by (unfold c; by rewrite collect_spec).
  destruct (total c =? 0)%nat eqn:E0.
  { apply Nat.eqb_eq in E0. rewrite Htot in E0. by destruct (child_job_ids pj). }
  destruct (done_count c =? total c)%nat.
  - unfold refresh_terminal_parent, fail_parent, complete_parent. rewrite Hh.
    destruct (_ || _); simpl; unfold fail, complete, drop_handle; simpl; rewrite Hid; apply Hup.
  - rewrite Hh. simpl. unfold progress. rewrite Hid. apply Hup.
Qed.

(** ** Tracker steps *)

Definition no_create : discipline (W := Metrics) :=
  mkDiscipline (fun _ _ _ _ => False) (fun _ _ => True).

Lemma step_mono (d d' : discipline (W := Metrics)) r r' :
  (∀ r spec idle ids, may_create d r spec idle ids → may_create d' r spec idle ids) →
  (∀ r id, may_remove d r id → may_remove d' r id) →
  step d r r' → step d' r r'.
Proof.
  intros Hc Hm []; [eapply (step_create d' r); eauto|eapply (step_reserve d' r); eauto|..];
    constructor; auto.
Qed.

Lemma no_create_fresh r r' : step no_create r r' → step fresh_uuids r r'.
Proof. apply step_mono; [done|auto]. Qed.

Lemma update_step d (r : JobRegistry (W := Metrics)) id now next :
  is_queued next = false → step d r (update r id false now (unless_terminal next)).1.
Proof.
  intros Hq. destruct next as [|descr|descr res|descr f m res]; [done|..].
  - apply (step_running d r id descr now).
  - apply (step_completed d r id descr res false now).
  - apply (step_failed d r id (mkJobFailure f descr m (Some res)) now).
Qed.

(** One operation of the tracker, beside the set of the IDs that
    [create_parent_job] has returned so far, which no code keeps.  Creation draws
    fresh IDs; children are created under an ID of that set, as by every caller. *)
Inductive tstep : gset JobId * JobTracker → gset JobId * JobTracker → Prop :=
| ts_registry I t r' : step no_create (registry t) r' → tstep (I, t) (I, set_registry t r')
| ts_leaf I t spec scopes ids now r' res :
    spec_ok spec → (∀ k, ids k ∉ created_ids (registry t)) →
    create_job_with_scopes (registry t) spec None true scopes ids now = Some (r', res) →
    tstep (I, t) (I, set_registry t r')
| ts_parent I t rack jt ids now t' res :
    (∀ k, ids k ∉ created_ids (registry t)) →
    create_parent_job t rack jt ids now = Some (t', res) →
    tstep (I, t) (match res with Some id => {[id]} ∪ I | None => I end, t')
| ts_child I t p rack node jt ids now rnow t' res :
    (∀ k, ids k ∉ created_ids (registry t)) → p ∈ I →
    create_child_job t p rack node jt ids now rnow = Some (t', res) → tstep (I, t) (I, t')
| ts_refresh I t p now : tstep (I, t) (I, refresh_parent_state t p now)
| ts_completed I t id res now rnow : tstep (I, t) (I, tracker_mark_completed t id res now rnow)
| ts_failed I t id code m res now rnow :
    tstep (I, t) (I, mark_failed_with_result t id code m res now rnow)
| ts_fail_parents I t now : tstep (I, t) (I, fail_remaining_parents_for_shutdown t now).

(** [I] are the IDs [create_parent_job] has returned. *)
Record owned_inv (I : gset JobId) t : Prop := {
  ti_reg : registry_inv (registry t);
  ti_hist : history_inv (registry t);
  ti_handle : ∀ id h, parent_job_handles t !! id = Some h →
    handle_ok id h ∧ id ∈ created_ids (registry t) ∧
    ∀ j, by_id (jobs (registry t)) !! id = Some j → is_Some (workflow_type j);
  ti_owned : ∀ id j, by_id (jobs (registry t)) !! id = Some j → is_parent j = true →
    is_terminal (state j) = false → is_Some (parent_job_handles t !! id);
  ti_issued : ∀ id, id ∈ I →
    id ∈ created_ids (registry t) ∧ (live (registry t) id → is_Some (parent_job_handles t !! id));
}.
#[local] Abbreviation tracker_inv := (owned_inv ∅).

Lemma owned_tracker I t : owned_inv I t → tracker_inv t.
Proof. intros []. by split. Qed.

(** Records only evolve in a step that creates nothing. *)
Lemma no_create_kept r r' id j' :
  step no_create r r' → by_id (jobs r') !! id = Some j' →
  ∃ j, by_id (jobs r) !! id = Some j ∧ child_job_ids j' = child_job_ids j ∧
    workflow_type j' = workflow_type j ∧
    (is_terminal (state j') = false → is_terminal (state j) = false).
Proof.
  intros Hst Hj'. destruct (step_kinds _ _ _ Hst) as [Hq|id' v now next ->|? ? ? ? ? ? ? ? [] ?].
  - destruct (q_kept _ _ _ Hq _ _ Hj') as (j & Hj & Hev & Hs & Hc).
    exists j. split_and!; [done|done|apply Hev|congruence].
  - rewrite update_records in Hj'. destruct (by_id (jobs r) !! id) as [j|]; [|done].
    exists j. case_decide; [destruct (is_terminal (state j)) eqn:E|]; simplify_eq; split_and!;
      try done; congruence.
Qed.

Lemma created_ids_mono (d : discipline (W := Metrics)) r r' id :
  registry_inv r → step d r r' → id ∈ created_ids r → id ∈ created_ids r'.
Proof.
  intros Hr Hst Hid. destruct (step_kinds _ _ _ Hst) as [Hq|id' v now next ->|spec parent idle scopes
    ids now h Hok _ Hc].
  - unfold created_ids in *. by rewrite (q_log _ _ _ Hq).
  - by destruct (update_ids r id' v now next) as [-> _].
  - destruct (create_admitted_spec _ _ _ _ _ _ _ _ _ Hr Hok Hc) as (rec & Had & _).
    unfold created_ids. rewrite (ad_log _ _ _ _ _ _ Had), omap_app, elem_of_app. by left.
Qed.

(** A registry step that creates nothing, with handles of sealed parents given up. *)
Lemma tracker_inv_move I t r' m' :
  owned_inv I t → step no_create (registry t) r' →
  (∀ id h, m' !! id = Some h → parent_job_handles t !! id = Some h) →
  (∀ id, is_Some (parent_job_handles t !! id) → live r' id → is_Some (m' !! id)) →
  owned_inv I (set_handles (set_registry t r') m').
Proof.
  intros [Hr Hh Hha Hown Hiss] Hst Hsub Hkeep. split; simpl.
  - by eapply step_inv.
  - eapply step_history; [done|done|by apply no_create_fresh].
  - intros id h Hm. destruct (Hha id h) as (Hok & Hcr & Hwt); [auto|]. split_and!; [done| |].
    + by eapply created_ids_mono.
    + intros j' Hj'. destruct (no_create_kept _ _ _ _ Hst Hj') as (j & Hj & _ & -> & _). eauto.
  - intros id j' Hj' Hp Ht. apply Hkeep; [|by exists j'].
    destruct (no_create_kept _ _ _ _ Hst Hj') as (j & Hj & Hc & _ & Htt).
    apply (Hown id j); [done| |by apply Htt]. unfold is_parent in *. by rewrite <- Hc.
  - intros id Hid. destruct (Hiss id Hid) as [Hcr Hl]. split; [by eapply created_ids_mono|].
    intros (j' & Hj' & Ht). apply Hkeep; [|by exists j'].
    destruct (no_create_kept _ _ _ _ Hst Hj') as (j & Hj & _ & _ & Htt). apply Hl. exists j. auto.
Qed.

Lemma tracker_inv_registry I t r' :
  owned_inv I t → step no_create (registry t) r' → owned_inv I (set_registry t r').
Proof. intros Ht Hst. by apply (tracker_inv_move I t r' (parent_job_handles t)). Qed.

Lemma refresh_inv I reads t p now : owned_inv I t → owned_inv I (refresh_with reads t p now).
Proof.
  intros Ht. destruct (refresh_cases reads t p now) as [->|(next & m' & Hq & -> & Hm)]; [|done|].
  { intros h Hh. by apply (ti_handle _ _ Ht). }
  apply tracker_inv_move; [done|by apply update_step|..].
  - intros id h. destruct Hm as [->|[-> _]]; [done|]. rewrite lookup_delete. by case_decide.
  - intros id Hid Hl. destruct Hm as [->|[-> Hn]]; [done|]. rewrite lookup_delete.
    case_decide as Hd; [|done]. subst. exfalso. revert Hl. by apply update_seals.
Qed.

Lemma refresh_steps I (d : discipline (W := Metrics)) reads t p now :
  owned_inv I t → steps d (registry t) (registry (refresh_with reads t p now)).
Proof.
  intros Ht. destruct (refresh_cases reads t p now) as [->|(next & m' & Hq & -> & Hm)].
  - intros h Hh. by apply (ti_handle _ _ Ht).
  - apply rtc_refl.
  - by apply rtc_once, update_step.
Qed.

(** Sealing through a handle the tracker owns. *)
Lemma seal_inv I t id h now next :
  owned_inv I t → parent_job_handles t !! id = Some h → is_queued next = false →
  is_terminal next = true →
  owned_inv I
    (set_registry (set_handles t (delete id (parent_job_handles t)))
       (update (registry t) id false now (unless_terminal next)).1).
Proof.
  intros Ht Hh Hq Hn.
  apply (tracker_inv_move I t _ (delete id (parent_job_handles t))); [done|by apply update_step|..].
  - intros id' h'. rewrite lookup_delete. by case_decide.
  - intros id' Hid Hl. rewrite lookup_delete. case_decide as Hd; [|done]. subst. exfalso.
    revert Hl. by apply update_seals.
Qed.

(** What an admission under a parent, or under none, does to the invariant. *)
Lemma admit_inv I t spec parent idle scopes ids now r' res :
  owned_inv I t → spec_ok spec → (∀ k, ids k ∉ created_ids (registry t)) →
  (∀ p, parent = Some p → live (registry t) p → is_Some (parent_job_handles t !! p)) →
  create_job_with_scopes (registry t) spec parent idle scopes ids now = Some (r', res) →
  step fresh_uuids (registry t) r' ∧ owned_inv I (set_registry t r') ∧
  ∀ h, res = Ok h → handle_ok (handle_id h) h ∧ handle_id h ∈ created_ids r' ∧
    (handle_id h ∉ created_ids (registry t)) ∧
    ∃ rec, by_id (jobs r') !! handle_id h = Some rec ∧
      workflow_type rec = spec_workflow_type spec.
Proof.
  intros Ht Hok Hfresh Hpar Hc.
  assert (step fresh_uuids (registry t) r') as Hst.
  { by eapply step_create; [| |exact Hc]. }
  split; [done|]. destruct res as [h|f].
  - destruct (create_admitted_spec _ _ _ _ _ _ _ _ _ (ti_reg _ _ Ht) Hok Hc)
      as (rec & Had & Hwt & _).
    assert (handle_id h ∉ created_ids (registry t)) as Hnew.
    { destruct (ad_drawn _ _ _ _ _ _ Had) as [k ->]. apply Hfresh. }
    assert (created_ids r' = created_ids (registry t) ++ [handle_id h]) as Ec.
    { unfold created_ids. rewrite (ad_log _ _ _ _ _ _ Had), omap_app. simpl.
      by rewrite (ad_id _ _ _ _ _ _ Had). }
    split.
    + split; simpl.
      * by eapply step_inv; [apply Ht|].
      * by eapply step_history; [apply Ht|apply Ht|].
      * intros id h' Hh'. destruct (ti_handle _ _ Ht _ _ Hh') as (Ho & Hcr & Hw).
        split_and!; [done|rewrite Ec; apply elem_of_app; by left|].
        intros j' Hj'. destruct (decide (id = handle_id h)) as [->|Hne]; [done|].
        destruct (ad_others _ _ _ _ _ _ Had _ _ Hj' Hne) as (j & Hj & Hev & _).
        rewrite (ev_type _ _ Hev). eauto.
      * intros id j' Hj' Hp Htm. destruct (decide (id = handle_id h)) as [->|Hne].
        { rewrite (ad_rec _ _ _ _ _ _ Had) in Hj'. simplify_eq. unfold is_parent in Hp.
          by rewrite (ad_leaf _ _ _ _ _ _ Had) in Hp. }
        destruct (ad_others _ _ _ _ _ _ Had _ _ Hj' Hne) as (j & Hj & Hev & Hs & Hch).
        rewrite Hs in Htm. destruct Hch as [Hch|[Hpr _]].
        -- apply (ti_owned _ _ Ht id j); [done| |done]. unfold is_parent in *. by rewrite <- Hch.
        -- apply (Hpar id); [done|]. by exists j.
      * intros id Hid. destruct (ti_issued _ _ Ht id Hid) as [Hcr Hl].
        split; [rewrite Ec; apply elem_of_app; by left|]. intros (j' & Hj' & Htm).
        destruct (decide (id = handle_id h)) as [->|Hne]; [done|].
        destruct (ad_others _ _ _ _ _ _ Had _ _ Hj' Hne) as (j & Hj & _ & Hs & _).
        apply Hl. exists j. by rewrite <- Hs.
    + intros h' [= <-]. apply create_inversion in Hc. inversion Hc. subst. split_and!; [done| |done|].
      * rewrite Ec. apply elem_of_app. right. by apply list_elem_of_singleton.
      * exists rec. split; [apply Had|done].
  - split; [|done]. apply create_err in Hc as [->|(-> & _)]; [by destruct t|].
    apply tracker_inv_registry; [done|]. constructor.
Qed.

Lemma parent_spec_ok rack d create jt :
  spec_ok (with_workflow_type (JobSpec_new_parent_deferred rack d create) jt).
Proof. done. Qed.

Lemma create_parent_inv I t rack jt ids now t' res :
  owned_inv I t → (∀ k, ids k ∉ created_ids (registry t)) →
  create_parent_job t rack jt ids now = Some (t', res) →
  step fresh_uuids (registry t) (registry t') ∧
  owned_inv (match res with Some id => {[id]} ∪ I | None => I end) t'.
Proof.
  intros Ht Hfresh. unfold create_parent_job, create_job, lift_create.
  destruct (create_job_with_scopes _ _ _ _ _ _ _) as [[r' res0]|] eqn:Hc; [|done].
  destruct (admit_inv I t _ None _ _ _ _ _ _ Ht (parent_spec_ok _ _ _ _) Hfresh ltac:(done) Hc)
    as (Hst & Hinv & Hh).
  destruct res0 as [h|f]; intros [= <- <-]; [|done]. split; [done|].
  destruct (Hh h eq_refl) as (Hok & Hcr & Hnew & rec & Hrec & Hwt). split; simpl.
  - apply Hinv.
  - apply Hinv.
  - intros id h'. rewrite lookup_insert. case_decide as Hd.
    + subst. intros [= <-]. split_and!; [done|done|]. intros j Hj. simplify_eq. rewrite Hwt. done.
    + apply (ti_handle _ _ Hinv).
  - intros id j Hj Hp Htm. rewrite lookup_insert. case_decide; [done|].
    by apply (ti_owned _ _ Hinv id j).
  - intros id Hid. rewrite lookup_insert. case_decide; [by subst|].
    apply (ti_issued _ _ Hinv id). set_solver.
Qed.

Lemma create_child_inv I t p rack node jt ids now rnow t' res :
  owned_inv I t → (∀ k, ids k ∉ created_ids (registry t)) →
  (live (registry t) p → is_Some (parent_job_handles t !! p)) →
  create_child_job t p rack node jt ids now rnow = Some (t', res) →
  steps fresh_uuids (registry t) (registry t') ∧ owned_inv I t'.
Proof.
  intros Ht Hfresh Hown. unfold create_child_job, create_job, lift_create.
  destruct (create_job_with_scopes _ _ _ _ _ _ _) as [[r' res0]|] eqn:Hc; [|done].
  assert (∀ q, Some p = Some q → live (registry t) q → is_Some (parent_job_handles t !! q))
    as Hown' by naive_solver.
  destruct (admit_inv I t (JobSpec_new_deferred rack node "Queued" (fun _ => job_span jt p)) (Some p)
    _ _ _ _ _ _ Ht eq_refl Hfresh Hown' Hc) as (Hst & Hinv & _).
  destruct res0 as [h|f]; intros [= <- <-].
  - split; [|by apply refresh_inv]. eapply rtc_l; [done|].
    by apply (refresh_steps I _ _ (set_registry t r')).
  - split; [by apply rtc_once|done].
Qed.

Lemma mark_through_handle I t id h now rnow next :
  owned_inv I t → parent_job_handles t !! id = Some h → is_queued next = false →
  is_terminal next = true →
  let t' := after_job_terminal
      (set_registry (set_handles t (delete id (parent_job_handles t)))
         (update (registry t) id false now (unless_terminal next)).1) id rnow in
  steps fresh_uuids (registry t) (registry t') ∧ owned_inv I t'.
Proof.
  intros Ht Hh Hq Hn. pose proof (seal_inv I t id h now next Ht Hh Hq Hn) as Hinv.
  unfold after_job_terminal, refresh_parent_for_child.
  destruct (parent_for_job _ _) as [q|].
  - split; [|by apply refresh_inv]. eapply rtc_l; [by apply update_step|].
    by apply (refresh_steps I _ _ (set_registry _ _)).
  - split; [|done]. by apply rtc_once, update_step.
Qed.

(** To give up all handles and fail each job is to do both handle by handle. *)
Lemma fail_parents_loop I now l t :
  owned_inv I t → NoDup l.*1 → (∀ id h, parent_job_handles t !! id = Some h ↔ (id, h) ∈ l) →
  let t' := foldl (fun t h => set_registry t (fail (registry t) h shutdown_failure
                                                (now (handle_id h)))) (set_handles t ∅) l.*2 in
  steps fresh_uuids (registry t) (registry t') ∧ owned_inv I t'.
Proof.
  revert t. induction l as [|[id h] l IH]; intros t Ht Hnd Hl; cbn -[fail shutdown_failure].
  - assert (parent_job_handles t = ∅) as E.
    { apply map_empty. intros id. apply eq_None_not_Some. intros [h Hh%Hl]. by apply not_elem_of_nil in Hh. }
    rewrite <- E. split; [apply rtc_refl|by destruct t].
  - apply NoDup_cons in Hnd as [Hn Hnd].
    assert (parent_job_handles t !! id = Some h) as Hh by (apply Hl; by left).
    destruct (ti_handle _ _ Ht _ _ Hh) as [[Hid _] _].
    set (next := failed_state (failure_with_metadata (finish h) shutdown_failure)).
    assert (fail (registry t) h shutdown_failure (now (handle_id h)) =
      (update (registry t) id false (now id) (unless_terminal next)).1) as -> by by rewrite <- Hid.
    pose proof (seal_inv I t id h (now id) next Ht Hh eq_refl eq_refl) as Hinv.
    pose proof (update_step fresh_uuids (registry t) id (now id) next eq_refl) as Hstep.
    destruct (IH _ Hinv Hnd) as [Hs Hi]; simpl.
    + intros id' h'. rewrite lookup_delete. case_decide as Hd.
      * subst. split; [done|]. intros Hin. destruct Hn. by apply (list_elem_of_fmap_2 fst) in Hin.
      * rewrite Hl, elem_of_cons. naive_solver.
    + split; [by eapply rtc_l|done].
Qed.

Lemma fail_parents_inv I t now :
  owned_inv I t →
  steps fresh_uuids (registry t) (registry (fail_remaining_parents_for_shutdown t now)) ∧
  owned_inv I (fail_remaining_parents_for_shutdown t now).
Proof.
  intros Ht. apply fail_parents_loop; [done|apply NoDup_fst_map_to_list|].
  intros id h. by rewrite elem_of_map_to_list.
Qed.

Lemma tstep_inv I t I' t' :
  owned_inv I t → tstep (I, t) (I', t') →
  steps fresh_uuids (registry t) (registry t') ∧ owned_inv I' t'.
Proof.
  intros Ht Hst. inversion Hst; subst; simpl.
  - split; [by apply rtc_once, no_create_fresh|by apply tracker_inv_registry].
  - edestruct (admit_inv I' t) as (Hst' & Hinv & _); eauto; [done|]. split; [by apply rtc_once|done].
  - edestruct (create_parent_inv I t) as (Hst' & Hinv); eauto. split; [by apply rtc_once|done].
  - eapply create_child_inv; eauto. by apply (ti_issued _ _ Ht).
  - split; [by eapply refresh_steps|by apply refresh_inv].
  - unfold tracker_mark_completed. destruct (parent_job_handles t !! id) as [h|] eqn:Hh.
    + destruct (ti_handle _ _ Ht _ _ Hh) as [[Hid _] _]. unfold complete, drop_handle. simpl.
      rewrite Hid. by apply (mark_through_handle I' t id h).
    + split; [apply rtc_refl|done].
  - unfold mark_failed_with_result. destruct (parent_job_handles t !! id) as [h|] eqn:Hh.
    + destruct (ti_handle _ _ Ht _ _ Hh) as [[Hid _] _]. unfold fail, drop_handle. simpl.
      rewrite Hid. by apply (mark_through_handle I' t id h).
    + split; [apply rtc_refl|done].
  - by apply fail_parents_inv.
Qed.

Lemma tsteps_inv x y :
  rtc tstep x y → owned_inv x.1 x.2 →
  steps fresh_uuids (registry x.2) (registry y.2) ∧ owned_inv y.1 y.2.
Proof.
  induction 1 as [|[I1 t1] [I2 t2] y H12 _ IH]; intros Hi; [by split; [apply rtc_refl|]|].
  destruct (tstep_inv _ _ _ _ Hi H12) as [Hst Hi']. destruct (IH Hi'). split; [by etransitivity|done].
Qed.

Lemma build_inv ttl cap : tracker_inv (build ttl cap).
Proof.
  assert (initial (registry (build ttl cap))) as Hi by constructor.
  split.
  - by apply initial_inv.
  - by apply initial_history.
  - intros id h. simpl. by rewrite lookup_empty.
  - intros id j. simpl. by rewrite lookup_empty.
  - intros id. set_solver.
Qed.

(** The trackers that are reached, with the parent IDs returned on the way. *)
Definition treached I t : Prop := ∃ ttl cap, rtc tstep (∅, build ttl cap) (I, t).
Definition treachable t : Prop := ∃ I, treached I t.

Lemma treached_inv I t : treached I t → owned_inv I t ∧ reachable fresh_uuids (registry t).
Proof.
  intros (ttl & cap & Hs). destruct (tsteps_inv _ _ Hs (build_inv _ _)) as [Hst Hi].
  split; [done|]. eexists. split; [constructor|exact Hst].
Qed.

Lemma treachable_inv t : treachable t → tracker_inv t ∧ reachable fresh_uuids (registry t).
Proof. intros [I [Ht Hr]%treached_inv]. eauto using owned_tracker. Qed.
End tracker.
Abbreviation tracker_inv := (owned_inv ∅).

(** ** Concrete trackers *)

Module TrackerExample.
#[export] Existing Instance silent_json.

#[export] Instance silent_tracker : TrackerJson :=
  {| child_result_of_str := fun s => Err s; status_of_str := fun s => Err s |}.

Abbreviation ids := Example.ids.
Abbreviation ids_from := Example.ids_from.
Abbreviation clock0 := Example.clock0.
Abbreviation at0 := Example.at0.

Definition tracked {A} (o : option (JobTracker * A)) : JobTracker :=
  match o with Some (t, _) => t | None => build 0 0 end.

Definition empty : JobTracker := build 100 4.

(** A firmware batch, before and after its first child. *)
Definition batch : JobTracker :=
  tracked (create_parent_job empty "rack" FirmwareUpdate ids at0).
Definition running_batch : JobTracker :=
  tracked (create_child_job batch "job-0" "rack" "n1" FirmwareUpdate (ids_from 1) at0 clock0).
Definition child_handle : JobHandle :=
  JobHandle_new "job-1" (span_record (job_span FirmwareUpdate "job-0") "job_id" "job-1") 1.

Definition record_at (t : JobTracker) (id : JobId) : JobSnapshot :=
  default (JobSnapshot_new (Example.leaf "") None "" 0 clock0) (by_id (jobs (registry t)) !! id).

Definition parent_record : JobSnapshot := Eval vm_compute in record_at running_batch "job-0".
Definition child_record : JobSnapshot := Eval vm_compute in record_at running_batch "job-1".

Lemma parent_lookup : by_id (jobs (registry running_batch)) !! "job-0" = Some parent_record.
Proof. vm_cast_no_check (eq_refl (Some parent_record)). Qed.

Lemma child_lookup : by_id (jobs (registry running_batch)) !! "job-1" = Some child_record.
Proof. vm_cast_no_check (eq_refl (Some child_record)). Qed.

(** A creation returned; what it returned is the tracker named after it. *)
Lemma tracked_created {A} (o : option (JobTracker * A)) :
  bool_decide (is_Some o) = true → ∃ res, o = Some (tracked o, res).
Proof. intros [[t res] ->]%bool_decide_eq_true. by exists res. Qed.

Lemma batch_created :
  ∃ res, create_parent_job empty "rack" FirmwareUpdate ids at0 = Some (batch, res).
Proof. apply tracked_created. vm_cast_no_check (eq_refl true). Qed.

Lemma child_returns :
  bool_decide (is_Some (create_child_job batch "job-0" "rack" "n1" FirmwareUpdate (ids_from 1)
    at0 clock0)) = true.
Proof. vm_cast_no_check (eq_refl true). Qed.

Lemma child_created :
  ∃ res, create_child_job batch "job-0" "rack" "n1" FirmwareUpdate (ids_from 1) at0 clock0 =
    Some (running_batch, res).
Proof.
  unfold running_batch. generalize child_returns.
  generalize (create_child_job batch "job-0" "rack" "n1" FirmwareUpdate (ids_from 1) at0 clock0).
  apply @tracked_created.
Qed.

Lemma batch_id :
  create_parent_job empty "rack" FirmwareUpdate ids at0 = Some (batch, Some "job-0").
Proof.
  destruct batch_created as [res E]. rewrite E. do 2 f_equal.
  change res with (default (batch, res) (Some (batch, res))).2. rewrite <- E.
  vm_cast_no_check (eq_refl (Some "job-0")).
Qed.

Lemma batch_step : tstep (∅, empty) ({["job-0"]} ∪ ∅, batch).
Proof.
  apply (ts_parent ∅ empty "rack" FirmwareUpdate ids at0 batch (Some "job-0")); [|exact batch_id].
  intros k. apply not_elem_of_nil.
Qed.

Lemma child_step : tstep ({["job-0"]} ∪ ∅, batch) ({["job-0"]} ∪ ∅, running_batch).
Proof.
  destruct child_created as [res E]. eapply ts_child; [| |exact E].
  - intros k Hin. assert (created_ids (registry batch) = [ids 0]) as Hc
      by vm_cast_no_check (eq_refl [ids 0]).
    rewrite Hc in Hin. apply list_elem_of_singleton in Hin. apply (inj ids) in Hin. lia.
  - set_solver.
Qed.

Lemma empty_treachable : treachable empty.
Proof. exists ∅, 100%Z, 4. apply rtc_refl. Qed.

Lemma batch_treached : treached ({["job-0"]} ∪ ∅) batch.
Proof. exists 100%Z, 4. apply rtc_once, batch_step. Qed.

Lemma batch_treachable : treachable batch.
Proof. eexists. apply batch_treached. Qed.

Lemma running_treached : treached ({["job-0"]} ∪ ∅) running_batch.
Proof. exists 100%Z, 4. eapply rtc_l; [apply batch_step|]. apply rtc_once, child_step. Qed.

Lemma running_treachable : treachable running_batch.
Proof. eexists. apply running_treached. Qed.
End TrackerExample.
