(* ===== verification/JobTrackerTheorems.v ===== *)
(** * What the job tracker guarantees

    The properties of [JobTracker]: parents aggregate their children, no parent
    outlives its last live child, batches account for every target, shutdown
    settles every job, and every method of the tracker ([operation]) is a sequence of
    steps of the registry. *)

From S2P Require Import Prelude JobTypes EndpointScope Json RmsDomain.
From S2P Require Import JobStore JobStoreProofs JobRegistry JobRegistryProofs.
From S2P Require Import JobEventProofs JobExamples JobHandle JobTracker JobTrackerProofs.

Import Store Registry Tracker.
Local Open Scope string_scope.
Local Open Scope list_scope.

Section aggregation.
Context `{SerdeJson} `{TrackerJson}.
Implicit Types (t : JobTracker).

(** ** Aggregation *)

Lemma live_children_tracked t p pj c :
  tracker_inv t → by_id (jobs (registry t)) !! p = Some pj →
  is_terminal (state pj) = false → c ∈ child_job_ids pj →
  ∃ cj, by_id (jobs (registry t)) !! c = Some cj ∧ child_job_ids cj = [].
Proof.
  intros Ht Hp Htm Hc. destruct (ri_store _ (ti_reg _ _ Ht)) as [_ Hf].
  destruct (inv_children _ Hf _ _ _ Hp Htm Hc) as (cj & Hcj & Hpar).
  destruct (inv_parent _ Hf _ _ _ Hcj Hpar) as (Hnil & _). eauto.
Qed.

(** The state a refresh writes, read off the children. *)
Record aggregates t (pj : JobSnapshot) (st : JobLifecycleState) : Prop := {
  ag_started : is_queued st = false;
  ag_completed : is_completed st = true ↔
    ∀ c, c ∈ child_job_ids pj →
      ∃ cj, by_id (jobs (registry t)) !! c = Some cj ∧ is_completed (state cj) = true;
  ag_failed : is_failed st = true ↔
    (∀ c, c ∈ child_job_ids pj → ¬ live (registry t) c) ∧
    ∃ c cj, c ∈ child_job_ids pj ∧ by_id (jobs (registry t)) !! c = Some cj ∧
      is_failed (state cj) = true;
  ag_running : is_running st = true ↔ ∃ c, c ∈ child_job_ids pj ∧ live (registry t) c;
}.

Lemma live_iff t c cj :
  by_id (jobs (registry t)) !! c = Some cj →
  live (registry t) c ↔ is_running (state cj) = true ∨ is_queued (state cj) = true.
Proof.
  intros Hc. split.
  - intros (j & Hj & Htm). simplify_eq. destruct (state cj); naive_solver.
  - intros Hor. exists cj. split; [done|]. destruct (state cj); naive_solver.
Qed.

Lemma aggregate_aggregates t p pj jt h :
  tracker_inv t → by_id (jobs (registry t)) !! p = Some pj →
  is_terminal (state pj) = false →
  aggregates t pj (aggregate (reads_of t p) h pj jt).
Proof.
  intros Ht Hp Htm.
  assert (∀ c, c ∈ child_job_ids pj → is_Some (by_id (jobs (registry t)) !! c)) as Htr.
  { intros c Hc. destruct (live_children_tracked t p pj c) as (cj & Hcj & _); eauto. }
  unfold aggregate. rewrite collect_spec. unfold done_count. simpl.
  set (look := lookup_job (registry t)). set (ids := child_job_ids pj).
  pose proof (counts_sum look ids) as Hsum.
  assert (count_none look ids = 0%nat) as Hnone by (by apply count_none_zero). rewrite Hnone in *.
  pose proof (count_state_zero look is_failed ids) as Hf.
  pose proof (count_state_zero look is_running ids) as Hr.
  pose proof (count_state_zero look is_queued ids) as Hq.
  assert ((count_state look is_running ids = 0%nat ∧ count_state look is_queued ids = 0%nat) ↔
          ∀ c, c ∈ ids → ¬ live (registry t) c) as Hlive.
  { rewrite Hr, Hq. split.
    - intros [Hnr Hnq] c Hc Hl. destruct (Htr c Hc) as [cj Hcj].
      specialize (Hnr c cj Hc Hcj). specialize (Hnq c cj Hc Hcj).
      destruct (proj1 (live_iff t c cj Hcj) Hl); congruence.
    - intros Hn. split; intros c cj Hc Hcj; apply not_true_iff_false; intros E;
        apply (Hn c Hc), (live_iff t c cj Hcj); auto. }
  destruct (_ =? _)%nat eqn:Ed.
  - apply Nat.eqb_eq in Ed.
    assert (∀ c, c ∈ ids → ¬ live (registry t) c) as Hnl by (apply Hlive; lia).
    destruct ((0 <? count_state look is_failed ids)%nat || _) eqn:Ef.
    + apply orb_true_iff in Ef as [Ef|Ef]; [|by apply Nat.ltb_lt in Ef; lia].
      apply Nat.ltb_lt in Ef.
      pose proof (count_state_pos _ _ _ Ef) as Hex.
      split; simpl; [done| |naive_solver|naive_solver]. split; [done|]. intros Hall.
      destruct Hex as (c & cj & Hc & Hcj & E). destruct (Hall c Hc) as (cj' & Hcj' & E').
      change (look c) with (by_id (jobs (registry t)) !! c) in Hcj. simplify_eq.
      by destruct (state cj).
    + apply orb_false_iff in Ef as [Ef _]. apply Nat.ltb_ge in Ef.
      assert (count_state look is_failed ids = 0%nat) as Hf0 by lia.
      rewrite Hf in Hf0. split; simpl; [done| |naive_solver|naive_solver]. split; [|done].
      intros _ c Hc. destruct (Htr c Hc) as [cj Hcj]. exists cj. split; [done|].
      specialize (Hf0 c cj Hc Hcj). specialize (Hnl c Hc).
      rewrite (live_iff t c cj Hcj) in Hnl. destruct (state cj); naive_solver.
  - apply Nat.eqb_neq in Ed.
    assert (∃ c, c ∈ ids ∧ live (registry t) c) as (c & Hc & Hl).
    { assert (0 < count_state look is_running ids ∨ 0 < count_state look is_queued ids)%nat
        as [(c & cj & Hc & Hcj & E)%count_state_pos|(c & cj & Hc & Hcj & E)%count_state_pos] by lia;
        exists c; (split; [done|]); apply (live_iff t c cj Hcj); auto. }
    split; simpl; [done|..].
    + split; [done|]. intros Hall. destruct (Hall c Hc) as (cj & Hcj & E).
      apply (live_iff t c cj Hcj) in Hl. by destruct (state cj), Hl.
    + split; [done|]. naive_solver.
    + split; [eauto|done].
Qed.

Lemma refresh_owned t p now pj :
  tracker_inv t → by_id (jobs (registry t)) !! p = Some pj →
  is_parent pj = true → is_terminal (state pj) = false →
  ∃ st, by_id (jobs (registry (refresh_parent_state t p now))) !! p =
          Some (touch (set_state pj st) now) ∧ aggregates t pj st.
Proof.
  intros Ht Hp Hpar Htm. destruct (ti_owned _ _ Ht _ _ Hp Hpar Htm) as [h Hh].
  destruct (ti_handle _ _ Ht _ _ Hh) as (Hok & _ & Hwt). destruct (Hwt _ Hp) as [jt Hjt].
  exists (aggregate (reads_of t p) h pj jt). split; [|by apply aggregate_aggregates].
  apply refresh_live; try done. intros Hnil. unfold is_parent in Hpar. by rewrite Hnil in Hpar.
Qed.

(** C4. A refresh of a live parent derives its state from its children: completed
    exactly when every child completed, failed exactly when every child ended and
    one of them failed, running exactly when some child is still live. *)
Theorem aggregation_correct t p pj now :
  treachable t → by_id (jobs (registry t)) !! p = Some pj →
  is_parent pj = true → is_terminal (state pj) = false →
  ∃ pj', by_id (jobs (registry (refresh_parent_state t p now))) !! p = Some pj' ∧
    aggregates t pj (state pj').
Proof.
  intros [Ht _]%treachable_inv Hp Hpar Htm.
  destruct (refresh_owned t p now pj Ht Hp Hpar Htm) as (st & Hst & Hag). eauto.
Qed.

(** ** No parent is left behind *)

(** A parent that is live has a live child. *)
Definition carried t (p : JobId) : Prop :=
  ∀ pj, by_id (jobs (registry t)) !! p = Some pj → is_parent pj = true →
    is_terminal (state pj) = false → ∃ c, c ∈ child_job_ids pj ∧ live (registry t) c.

(** A refresh leaves every record but the parent's alone, and keeps that one's
    list of children. *)
Lemma refresh_others t p now id :
  tracker_inv t → id ≠ p →
  by_id (jobs (registry (refresh_parent_state t p now))) !! id = by_id (jobs (registry t)) !! id.
Proof.
  intros Ht Hne. destruct (refresh_cases (reads_of t p) t p now) as [E|(next & m' & _ & E & _)].
  - intros h Hh. by apply (ti_handle _ _ Ht).
  - unfold refresh_parent_state. by rewrite E.
  - unfold refresh_parent_state. rewrite E. simpl. rewrite update_records.
    destruct (by_id (jobs (registry t)) !! id); [|done]. by rewrite decide_False.
Qed.

Lemma refresh_not_parent t p now :
  (∀ pj, by_id (jobs (registry t)) !! p = Some pj → is_parent pj = false) →
  refresh_parent_state t p now = t.
Proof.
  intros Hn. unfold refresh_parent_state, refresh_with. simpl.
  change (lookup_job (registry t) p) with (by_id (jobs (registry t)) !! p).
  destruct (by_id (jobs (registry t)) !! p) as [pj|]; [|done]. by rewrite Hn.
Qed.

Lemma refresh_child_live t p now c :
  tracker_inv t → (∃ q qj, by_id (jobs (registry t)) !! q = Some qj ∧
    is_terminal (state qj) = false ∧ c ∈ child_job_ids qj) →
  live (registry t) c → live (registry (refresh_parent_state t p now)) c.
Proof.
  intros Ht (q & qj & Hq & Htm & Hc) Hl. destruct (decide (c = p)) as [->|Hne].
  - rewrite refresh_not_parent; [done|]. intros pj Hpj.
    destruct (live_children_tracked t q qj p) as (cj & Hcj & Hnil); try done.
    simplify_eq. by apply is_parent_false.
  - destruct Hl as (j & Hj & Hjt). exists j. by rewrite refresh_others.
Qed.

Lemma refresh_carries t p now : tracker_inv t → carried (refresh_parent_state t p now) p.
Proof.
  intros Ht pj' Hpj' Hpar Htm.
  destruct (by_id (jobs (registry t)) !! p) as [pj|] eqn:Hp.
  2:{ rewrite refresh_not_parent in Hpj'; [congruence|]. by rewrite Hp. }
  destruct (is_parent pj) eqn:Epar.
  2:{ rewrite refresh_not_parent in Hpj'; [congruence|]. intros x Hx. congruence. }
  destruct (is_terminal (state pj)) eqn:Et.
  { destruct (refresh_cases (reads_of t p) t p now) as [E|(next & m' & _ & E & _)].
    - intros h Hh. by apply (ti_handle _ _ Ht).
    - unfold refresh_parent_state in Hpj'. rewrite E in Hpj'. congruence.
    - unfold refresh_parent_state in Hpj'. rewrite E in Hpj'. simpl in Hpj'.
      rewrite update_records, Hp, decide_True, Et in Hpj' by done. congruence. }
  destruct (refresh_owned t p now pj Ht Hp Epar Et) as (st & Hst & Hag).
  rewrite Hst in Hpj'. simplify_eq. simpl in *.
  pose proof (ag_started _ _ _ Hag) as Hq.
  assert (is_running st = true) as (c & Hc & Hl)%(ag_running _ _ _ Hag) by (by destruct st).
  exists c. split; [done|]. apply refresh_child_live; eauto.
Qed.

Lemma refresh_keeps_carried t p q now :
  tracker_inv t → carried t q → carried (refresh_parent_state t p now) q.
Proof.
  intros Ht Hq. destruct (decide (q = p)) as [->|Hne]; [by apply refresh_carries|].
  intros qj Hqj Hpar Htm. rewrite refresh_others in Hqj by done.
  destruct (Hq qj Hqj Hpar Htm) as (c & Hc & Hl). exists c. split; [done|].
  apply refresh_child_live; eauto.
Qed.

Lemma refresh_parents t p now id pj' :
  tracker_inv t → by_id (jobs (registry (refresh_parent_state t p now))) !! id = Some pj' →
  ∃ pj, by_id (jobs (registry t)) !! id = Some pj ∧ child_job_ids pj' = child_job_ids pj ∧
    (is_terminal (state pj') = false → is_terminal (state pj) = false).
Proof.
  intros Ht. destruct (refresh_cases (reads_of t p) t p now) as [E|(next & m' & Hq & E & _)].
  - intros h Hh. by apply (ti_handle _ _ Ht).
  - unfold refresh_parent_state. rewrite E. eauto.
  - unfold refresh_parent_state. rewrite E. simpl. intros Hj'.
    destruct (no_create_kept (registry t) _ id pj' (update_step _ _ p now next Hq) Hj')
      as (j & ? & ? & _ & ?). eauto.
Qed.

Lemma refresh_list_carries t now l :
  tracker_inv t →
  let t' := foldl (fun t id => refresh_parent_state t id (now id)) t l in
  tracker_inv t' ∧ (∀ q, carried t q → carried t' q) ∧ (∀ q, q ∈ l → carried t' q) ∧
  (∀ id, live (registry t') id → live (registry t) id) ∧
  ∀ q qj', by_id (jobs (registry t')) !! q = Some qj' →
    ∃ qj, by_id (jobs (registry t)) !! q = Some qj ∧ child_job_ids qj' = child_job_ids qj.
Proof.
  revert t. induction l as [|p l IH]; intros t Ht; simpl.
  - split_and!; [done|done| |done|eauto]. by intros q ?%not_elem_of_nil.
  - pose proof (refresh_inv ∅ (reads_of t p) t p (now p) Ht) as Ht1.
    destruct (IH _ Ht1) as (H1 & H2 & H3 & H4 & H5). split_and!; [done|..].
    + intros q Hq. apply H2. by apply refresh_keeps_carried.
    + intros q [->|Hq]%elem_of_cons; [|by apply H3]. apply H2. by apply refresh_carries.
    + intros id (j' & Hj' & Htm)%H4.
      destruct (refresh_parents _ _ _ _ _ Ht Hj') as (j & Hj & _ & Hl). exists j. auto.
    + intros q qj' (qj1 & Hq1 & Hc1)%H5.
      destruct (refresh_parents _ _ _ _ _ Ht Hq1) as (qj & Hq & Hc & _). exists qj.
      split; [done|]. congruence.
Qed.

Lemma elem_of_parent_ids t p pj :
  tracker_inv t → by_id (jobs (registry t)) !! p = Some pj → is_parent pj = true →
  p ∈ parent_job_ids (registry t).
Proof.
  intros Ht Hp Hpar. unfold parent_job_ids, snapshots. apply list_elem_of_fmap. exists pj.
  split; [symmetry; apply (inv_id _ (proj1 (ri_store _ (ti_reg _ _ Ht)))), Hp|].
  apply list_elem_of_In, List.filter_In. split; [|done]. apply list_elem_of_In, list_elem_of_fmap.
  exists (p, pj). split; [done|]. by apply elem_of_map_to_list.
Qed.

Lemma refresh_all_carries t now :
  tracker_inv t →
  let t' := refresh_all_parents t now in
  tracker_inv t' ∧ (∀ p, carried t' p) ∧ ∀ id, live (registry t') id → live (registry t) id.
Proof.
  intros Ht. destruct (refresh_list_carries t now (parent_job_ids (registry t)) Ht)
    as (H1 & _ & H3 & H4 & H5). split_and!; [done| |done].
  intros p pj' Hp' Hpar' Htm'. destruct (H5 _ _ Hp') as (pj & Hp & Hc).
  apply (H3 p); try done. eapply elem_of_parent_ids; [done|done|].
  unfold is_parent in *. by rewrite <- Hc.
Qed.

(** No parent outlives its children: after the tracker has refreshed all
    parents, as every reaper pass and shutdown do, a parent that is still live
    has a child that is still live, so a batch nobody polls is settled too. *)
Theorem no_stuck_parent t now p pj :
  treachable t →
  by_id (jobs (registry (refresh_all_parents t now))) !! p = Some pj →
  is_parent pj = true → is_terminal (state pj) = false →
  ∃ c, c ∈ child_job_ids pj ∧ live (registry (refresh_all_parents t now)) c.
Proof.
  intros [Ht _]%treachable_inv. destruct (refresh_all_carries t now Ht) as (_ & Hc & _). apply Hc.
Qed.

(** ** Workers and their parents *)

Lemma worker_exit_step (r : JobRegistry (W := Metrics)) h e now :
  handle_finished h = false →
  ∃ v next, worker_exit r h e now = (update r (handle_id h) v now (unless_terminal next)).1 ∧
    is_terminal next = true ∧ step no_create r (worker_exit r h e now).
Proof.
  intros Hf. destruct e; simpl; unfold drop_handle; rewrite ?Hf; simpl.
  - eexists _, _. split; [reflexivity|]. split; [done|apply step_completed].
  - eexists _, _. split; [reflexivity|]. split; [done|apply step_completed].
  - eexists _, _. split; [reflexivity|]. split; [done|apply step_failed].
  - eexists _, _. split; [reflexivity|]. split; [done|apply step_failed].
Qed.

Lemma worker_progress_inv t h reports :
  tracker_inv t → tracker_inv (set_registry t (worker_progress (registry t) h reports)).
Proof.
  unfold worker_progress. revert t. induction reports as [|p l IH]; intros t Ht; simpl.
  - by destruct t.
  - apply (IH (set_registry t _)). apply tracker_inv_registry; [done|]. apply step_running.
Qed.

(** What a worker does to the records: its own job ends, the others stay. *)
Lemma worker_progress_records (r : JobRegistry (W := Metrics)) h reports id :
  match by_id (jobs r) !! id with
  | Some j => ∃ j', by_id (jobs (worker_progress r h reports)) !! id = Some j' ∧
      parent_job_id j' = parent_job_id j ∧ (id ≠ handle_id h → j' = j)
  | None => by_id (jobs (worker_progress r h reports)) !! id = None
  end.
Proof.
  unfold worker_progress. revert r. induction reports as [|p l IH]; intros r; simpl.
  - destruct (by_id (jobs r) !! id); eauto.
  - specialize (IH (progress r h p.1 p.2).1). unfold progress, mark_running in *.
    rewrite update_records in IH. destruct (by_id (jobs r) !! id) as [j|]; [|done].
    case_decide as Hd.
    + destruct (is_terminal (state j)); destruct IH as (j' & ? & ? & _); exists j';
        split_and!; try done; congruence.
    + destruct IH as (j' & ? & ? & Hj'). exists j'. auto.
Qed.

Lemma worker_records (r : JobRegistry (W := Metrics)) h reports e now id :
  handle_finished h = false →
  match by_id (jobs r) !! id with
  | Some j => ∃ j', by_id (jobs (worker_task r h true reports e now)) !! id = Some j' ∧
      parent_job_id j' = parent_job_id j ∧ (id ≠ handle_id h → j' = j) ∧
      (id = handle_id h → is_terminal (state j') = true)
  | None => by_id (jobs (worker_task r h true reports e now)) !! id = None
  end.
Proof.
  intros Hf. pose proof (worker_progress_records r h reports id) as Hp. unfold worker_task.
  destruct (worker_exit_step (worker_progress r h reports) h e now Hf) as (v & next & -> & Hn & _).
  rewrite update_records. destruct (by_id (jobs r) !! id) as [j|]; [|by rewrite Hp].
  destruct Hp as (j1 & -> & Hpar & Hsame).
  case_decide as Hd; [destruct (is_terminal (state j1)) eqn:E|]; eexists;
    (split; [reflexivity|]); split_and!; try done; try congruence; auto.
Qed.

Lemma worker_inv t h reports e now :
  tracker_inv t → handle_finished h = false →
  tracker_inv (set_registry t (worker_task (registry t) h true reports e now)).
Proof.
  intros Ht Hf. pose proof (worker_progress_inv t h reports Ht) as Ht1. unfold worker_task.
  destruct (worker_exit_step (worker_progress (registry t) h reports) h e now Hf)
    as (v & next & _ & _ & Hst).
  exact (tracker_inv_registry ∅ (set_registry t (worker_progress (registry t) h reports)) _ Ht1 Hst).
Qed.

(** The last child seals its parent: when a worker spawned through the tracker
    ends, however it ends, and every other child of its job's parent has ended,
    the parent is not live afterwards. *)
Theorem last_child_seals_parent t h reports e now rnow p pj cj :
  treachable t → handle_finished h = false →
  by_id (jobs (registry t)) !! handle_id h = Some cj → parent_job_id cj = Some p →
  by_id (jobs (registry t)) !! p = Some pj →
  (∀ c, c ∈ child_job_ids pj → c ≠ handle_id h → ¬ live (registry t) c) →
  ¬ live (registry (tracked_worker_exit t h true false reports e now rnow)) p.
Proof.
  intros [Ht _]%treachable_inv Hf Hcj Hpar Hp Hothers. unfold tracked_worker_exit. simpl.
  pose proof (worker_inv t h reports e now Ht Hf) as Ht2.
  set (t2 := set_registry t _) in *.
  pose proof (worker_records (registry t) h reports e now (handle_id h) Hf) as Hself.
  rewrite Hcj in Hself. destruct Hself as (cj' & Hcj' & Hpar' & _ & Hct).
  unfold after_job_terminal, refresh_parent_for_child, parent_for_job, lookup_job, get.
  change (jobs (registry t2)) with (jobs (worker_task (registry t) h true reports e now)).
  rewrite Hcj'. simpl. rewrite Hpar', Hpar.
  intros (pj' & Hpj' & Htm). pose proof Hpj' as Hpj2.
  destruct (refresh_parents _ _ _ _ _ Ht2 Hpj2) as (pj1 & Hpj1 & Hch & _).
  destruct (ri_store _ (ti_reg _ _ Ht)) as [_ Hfam].
  destruct (inv_parent _ Hfam _ _ _ Hcj Hpar) as (Hleaf & pj0 & Hp0 & Hin & Hpn). simplify_eq.
  assert (p ≠ handle_id h) as Hne by congruence.
  pose proof (worker_records (registry t) h reports e now p Hf) as Hpr. rewrite Hp in Hpr.
  destruct Hpr as (pj3 & Hpj3 & _ & Hsame & _). rewrite (Hsame Hne) in Hpj3.
  change (jobs (registry t2)) with (jobs (worker_task (registry t) h true reports e now)) in Hpj1.
  rewrite Hpj3 in Hpj1. injection Hpj1 as <-.
  assert (is_parent pj' = true) as Hpp by (eapply is_parent_elem; by rewrite Hch).
  destruct (refresh_carries t2 p rnow Ht2 pj' Hpj' Hpp Htm) as (c & Hc & (j & Hj & Hjt)).
  rewrite Hch in Hc. destruct (refresh_parents _ _ _ _ _ Ht2 Hj) as (j2 & Hj2 & _ & Hlive).
  specialize (Hlive Hjt).
  change (jobs (registry t2)) with (jobs (worker_task (registry t) h true reports e now)) in Hj2.
  destruct (decide (c = handle_id h)) as [->|Hcne].
  - rewrite Hcj' in Hj2. injection Hj2 as <-. rewrite Hct in Hlive; done.
  - pose proof (worker_records (registry t) h reports e now c Hf) as Hcr.
    destruct (by_id (jobs (registry t)) !! c) as [j0|] eqn:Hj0; [|congruence].
    destruct Hcr as (j3 & Hj3 & _ & Hs & _). rewrite (Hs Hcne) in Hj3.
    rewrite Hj3 in Hj2. injection Hj2 as <-. apply (Hothers c Hc Hcne). by exists j0.
Qed.

(** ** Shutdown *)

Lemma fail_list_live (r : JobRegistry (W := Metrics)) ids now id :
  live (fail_non_terminal_for_shutdown r ids now) id → live r id ∧ id ∉ ids.
Proof.
  unfold fail_non_terminal_for_shutdown. revert r. induction ids as [|x l IH]; intros r; simpl.
  - intros Hl. split; [done|apply not_elem_of_nil].
  - intros [(j & Hj & Ht) Hn]%IH. unfold mark_failed in Hj. rewrite update_records in Hj.
    destruct (by_id (jobs r) !! id) as [j0|] eqn:Hj0; [|done].
    case_decide as Hd; [destruct (is_terminal (state j0)) eqn:E|]; simplify_eq; [simpl in *; congruence..|].
    split; [by exists j|]. by apply not_elem_of_cons.
Qed.

Lemma fail_remaining_registry t now :
  registry_inv (registry t) →
  registry_inv (registry (fail_remaining_parents_for_shutdown t now)) ∧
  parent_job_handles (fail_remaining_parents_for_shutdown t now) = ∅.
Proof.
  intros Hr. unfold fail_remaining_parents_for_shutdown.
  assert (∀ l t0, registry_inv (registry t0) → parent_job_handles t0 = ∅ →
    let t1 := foldl (fun t h => set_registry t (fail (registry t) h shutdown_failure
                                                   (now (handle_id h)))) t0 l in
    registry_inv (registry t1) ∧ parent_job_handles t1 = ∅) as Hgen; [|by apply Hgen].
  induction l as [|h l IH]; intros t0 H1 H2; simpl; [done|]. apply IH; [|done]. simpl.
  eapply step_inv; [done|]. apply (step_failed no_create).
Qed.

(** Without parent handles a refresh can only report progress. *)
Lemma refresh_unowned t now l :
  parent_job_handles t = ∅ →
  let t' := foldl (fun t id => refresh_parent_state t id (now id)) t l in
  parent_job_handles t' = ∅ ∧ ∀ id, live (registry t') id → live (registry t) id.
Proof.
  revert t. induction l as [|p l IH]; intros t He; simpl; [done|].
  destruct (refresh_cases (reads_of t p) t p (now p)) as [E|(next & m' & Hq & E & Hm)].
  - intros h. by rewrite He, lookup_empty.
  - unfold refresh_parent_state. rewrite E. by apply IH.
  - destruct (IH (refresh_parent_state t p (now p))) as [H1 H2].
    { unfold refresh_parent_state. rewrite E. simpl. rewrite He in Hm.
      destruct Hm as [->|[-> _]]; [done|apply delete_empty]. }
    split; [done|]. intros id (j' & Hj' & Ht)%H2. unfold refresh_parent_state in Hj'.
    rewrite E in Hj'. simpl in Hj'.
    destruct (no_create_kept (registry t) _ id j' (update_step _ _ p (now p) next Hq) Hj')
      as (j & Hj & _ & _ & Hl). exists j. auto.
Qed.

(** C11. Shutdown settles every job: once its waits are over, whatever state the
    cooperative and forced phases left the jobs in, no tracked job is live. *)
Theorem shutdown_settles_all t now1 now2 now3 now4 id :
  treachable t → ¬ live (registry (shutdown_settle t now1 now2 now3 now4)) id.
Proof.
  intros [Ht _]%treachable_inv Hl. unfold shutdown_settle in Hl.
  destruct (refresh_all_carries t now1 Ht) as (Ht1 & _ & _).
  set (t1 := refresh_all_parents t now1) in *.
  destruct (fail_remaining_registry t1 now2 (ti_reg _ _ Ht1)) as [Hr2 He2].
  set (t2 := fail_remaining_parents_for_shutdown t1 now2) in *.
  apply refresh_unowned in Hl; [|done].
  apply fail_list_live in Hl as [Hl Hn]. apply Hn. by apply elem_of_non_terminal.
Qed.

(** The shutdown budget is respected: the cooperative wait and the four forced
    waits are non-negative, add up to the given timeout, and no forced wait is
    longer than five seconds. *)
Theorem shutdown_budget_exact timeout :
  (0 ≤ timeout)%Z →
  let '(cooperative, forced) := shutdown_budget timeout in
  (0 ≤ cooperative ∧ 0 ≤ forced ≤ from_secs 5 ∧ cooperative + 4 * forced = timeout ∧
   forced ≤ cooperative)%Z.
Proof.
  intros Hp. unfold shutdown_budget, FORCED_TASK_DRAIN_TIMEOUT, from_secs.
  pose proof (Z.div_mod timeout 5 ltac:(lia)) as Hd.
  pose proof (Z.mod_pos_bound timeout 5 ltac:(lia)) as Hm. lia.
Qed.

(** ** Batches *)

Lemma refresh_registry_inv reads t p now :
  registry_inv (registry t) → registry_inv (registry (refresh_with reads t p now)).
Proof.
  intros Hr.
  assert (∀ r', step no_create (registry t) r' → registry_inv r') as Hst
    by (intros r' Hs; by eapply step_inv).
  unfold refresh_with, refresh_terminal_parent, fail_parent, complete_parent.
  repeat case_match; try done; apply Hst; try apply step_running;
    try apply step_completed; apply step_failed.
Qed.

Lemma create_child_total t p rack node jt ids now rnow :
  registry_inv (registry t) → Inj (=) (=) ids →
  ∃ t' res, create_child_job t p rack node jt ids now rnow = Some (t', res) ∧
    registry_inv (registry t').
Proof.
  intros Hr Hinj. unfold create_child_job, create_job, lift_create.
  destruct (create_returns (registry t)
    (JobSpec_new_deferred rack node "Queued" (fun _ => job_span jt p)) (Some p) true [] ids now
    Hr Hinj) as [[r' res] Hc]. rewrite Hc.
  assert (registry_inv r') as Hr' by (eapply create_inv; [exact Hr| |exact Hc]; done).
  destruct res as [h|f]; eexists _, _; (split; [reflexivity|]); [|done].
  by apply refresh_registry_inv.
Qed.

Definition target_key {P} (x : string * string * P) : string * string := x.1.
Definition rejected_key (x : RejectedBatchTarget) : string * string :=
  (rejected_rack_id x, rejected_node_id x).

(** The targets a batch admitted, given what it was asked for and what it refused. *)
Record batch_split {P} (targets : list (string * string * P)) (seen : gset (string * string))
    (taken : list (string * string * P)) (rejected : list RejectedBatchTarget) : Prop := {
  bs_order : taken `sublist_of` targets;
  bs_nodup : NoDup (target_key <$> taken);
  bs_fresh : ∀ x, x ∈ target_key <$> taken → x ∉ seen;
  bs_all : (target_key <$> taken) ++ (rejected_key <$> rejected) ≡ₚ target_key <$> targets;
}.

Lemma batch_refuse {P} rack node (x : P) targets seen taken rejected msg :
  batch_split targets ({[(rack, node)]} ∪ seen) taken rejected →
  batch_split ((rack, node, x) :: targets) seen taken (mkRejected rack node msg :: rejected).
Proof.
  intros [H1 H2 H3 H4]. split.
  - by apply sublist_cons.
  - done.
  - intros y Hy. specialize (H3 y Hy). set_solver.
  - simpl. rewrite <- H4. symmetry. apply Permutation_middle.
Qed.

Lemma batch_take {P} rack node (x : P) targets seen taken rejected :
  (rack, node) ∉ seen →
  batch_split targets ({[(rack, node)]} ∪ seen) taken rejected →
  batch_split ((rack, node, x) :: targets) seen ((rack, node, x) :: taken) rejected.
Proof.
  intros Hn [H1 H2 H3 H4]. split.
  - by apply sublist_skip.
  - simpl. constructor; [|done]. intros Hin. specialize (H3 _ Hin). set_solver.
  - intros y [->|Hy]%elem_of_cons; [done|]. specialize (H3 y Hy). set_solver.
  - simpl. by rewrite H4.
Qed.

Lemma batch_loop {P S C} p jt (check : C → P → C * result string S) draws k targets seen c t
    adm rej :
  registry_inv (registry t) → (∀ k, Inj (=) (=) (draw_ids (draws k))) →
  ∃ t' c' adm' rej' taken,
    create_batch_jobs_loop p jt check draws k targets seen c t adm rej
      = Some (t', c', adm ++ adm', rej ++ rej') ∧
    (fun a : P * JobHandle * S => a.1.1) <$> adm' = (fun x : string * string * P => x.2) <$> taken ∧
    batch_split targets seen taken rej'.
Proof.
  intros Hr Hinj. revert k seen c t adm rej Hr.
  induction targets as [|[[rack node] x] targets IH]; intros k seen c t adm rej Hr; simpl.
  { exists t, c, [], [], []. rewrite !app_nil_r. split_and!; [done|done|].
    split; simpl; try done; [apply NoDup_nil_2|]. by intros y ?%not_elem_of_nil. }
  assert (∀ t0 c0 msg, registry_inv (registry t0) → ∃ t' c' adm' rej' taken,
    create_batch_jobs_loop p jt check draws (Datatypes.S k) targets ({[(rack, node)]} ∪ seen) c0 t0
      adm (rej ++ [mkRejected rack node msg]) = Some (t', c', adm ++ adm', rej ++ rej') ∧
    (fun a : P * JobHandle * S => a.1.1) <$> adm' = (fun y : string * string * P => y.2) <$> taken ∧
    batch_split ((rack, node, x) :: targets) seen taken rej') as Hrefuse.
  { intros t0 c0 msg Hr0.
    destruct (IH (Datatypes.S k) ({[(rack, node)]} ∪ seen) c0 t0 adm
      (rej ++ [mkRejected rack node msg]) Hr0) as (t' & c' & adm' & rej' & taken & E & Hp & Hs).
    exists t', c', adm', (mkRejected rack node msg :: rej'), taken.
    rewrite <- (assoc_L (++)) in E. split_and!; [done|done|by apply batch_refuse]. }
  case_bool_decide as Hseen; [by apply Hrefuse|].
  destruct (check c x) as [c1 [st|msg]]; [|by apply Hrefuse].
  destruct (create_child_total t p rack node jt (draw_ids (draws k)) (draw_now (draws k))
    (draw_refresh (draws k)) Hr (Hinj k)) as (t1 & res & -> & Hr1).
  destruct res as [h|f]; [|by apply Hrefuse].
  destruct (IH (Datatypes.S k) ({[(rack, node)]} ∪ seen) c1 t1 (adm ++ [(x, h, st)]) rej Hr1)
    as (t' & c' & adm' & rej' & taken & E & Hp & Hs).
  exists t', c', ((x, h, st) :: adm'), rej', ((rack, node, x) :: taken).
  rewrite <- (assoc_L (++)) in E. split_and!; [done|simpl; by f_equal|by apply batch_take].
Qed.

(** A batch request returns and accounts for every target: the admitted payloads
    are those of a subsequence of the targets with pairwise distinct nodes, and
    together with the refused targets they are exactly the requested ones. *)
Theorem batch_accounts_for_targets {P S C} t p jt targets (check : C → P → C * result string S)
    c draws :
  treachable t → (∀ k, Inj (=) (=) (draw_ids (draws k))) →
  ∃ t' c' admitted rejected taken,
    create_batch_jobs t p jt targets check c draws = Some (t', c', admitted, rejected) ∧
    (fun a : P * JobHandle * S => a.1.1) <$> admitted
      = (fun x : string * string * P => x.2) <$> taken ∧
    taken `sublist_of` targets ∧ NoDup (target_key <$> taken) ∧
    (target_key <$> taken) ++ (rejected_key <$> rejected) ≡ₚ target_key <$> targets.
Proof.
  intros [Ht _]%treachable_inv Hinj.
  destruct (batch_loop p jt check draws 0 targets ∅ c t [] [] (ti_reg _ _ Ht) Hinj)
    as (t' & c' & adm & rej & taken & E & Hp & [H1 H2 _ H4]).
  exists t', c', adm, rej, taken. done.
Qed.
(** ** Whole operations of the tracker *)

(** Every method of [JobTracker] that changes state, with the IDs that
    [create_parent_job] has returned so far: draws are fresh, and children are
    created under one of those IDs.  [op_registry] are the operations that a
    [JobHandle], a reservation or a task has on the registry the tracker shares
    with it, none of which creates a job. *)
Inductive operation : gset JobId * JobTracker → gset JobId * JobTracker → Prop :=
| op_create_job_if_node_idle I t rack node jt ids now t' res :
    (∀ k, ids k ∉ created_ids (registry t)) →
    create_job_if_node_idle t rack node jt ids now = Some (t', res) → operation (I, t) (I, t')
| op_create_visible_workflow_job I t rack node jt ids now t' res :
    (∀ k, ids k ∉ created_ids (registry t)) →
    create_visible_workflow_job_if_node_idle t rack node jt ids now = Some (t', res) →
    operation (I, t) (I, t')
| op_create_scoped_job I t rack node jt scopes ids now t' res :
    (∀ k, ids k ∉ created_ids (registry t)) →
    create_scoped_job t rack node jt scopes ids now = Some (t', res) → operation (I, t) (I, t')
| op_reserve_mutation I t scopes ids t' res :
    Tracker.reserve_mutation t scopes ids = Some (t', res) → operation (I, t) (I, t')
| op_create_parent_job I t rack jt ids now t' res :
    (∀ k, ids k ∉ created_ids (registry t)) →
    create_parent_job t rack jt ids now = Some (t', res) →
    operation (I, t) (match res with Some id => {[id]} ∪ I | None => I end, t')
| op_create_child_job I t p rack node jt ids now rnow t' res :
    (∀ k, ids k ∉ created_ids (registry t)) → p ∈ I →
    create_child_job t p rack node jt ids now rnow = Some (t', res) → operation (I, t) (I, t')
| op_create_batch_jobs {P S C : Type} I t p jt targets (check : C → P → C * result string S) c
    draws t' c' admitted rejected :
    (∀ k i, draw_ids (draws k) i ∉ created_ids (registry t)) →
    (∀ k k' i i', k ≠ k' → draw_ids (draws k) i ≠ draw_ids (draws k') i') → p ∈ I →
    create_batch_jobs t p jt targets check c draws = Some (t', c', admitted, rejected) →
    operation (I, t) (I, t')
| op_remove_queued_job I t id : operation (I, t) (I, (remove_queued_job t id).1)
| op_get_job I t id now : operation (I, t) (I, (get_job t id now).1)
| op_reaper_sweep I t now sweep : operation (I, t) (I, reaper_sweep t now sweep)
| op_mark_running I t id d now : operation (I, t) (I, tracker_mark_running t id d now)
| op_mark_completed I t id res now rnow :
    operation (I, t) (I, tracker_mark_completed t id res now rnow)
| op_mark_failed I t id code m now rnow :
    operation (I, t) (I, tracker_mark_failed t id code m now rnow)
| op_mark_failed_with_result I t id code m res now rnow :
    operation (I, t) (I, mark_failed_with_result t id code m res now rnow)
| op_mark_failed_message I t id m now rnow :
    operation (I, t) (I, mark_failed_message t id m now rnow)
| op_mark_failed_message_with_result I t id m res now rnow :
    operation (I, t) (I, mark_failed_message_with_result t id m res now rnow)
| op_spawn_job I t h worker supervisor :
    operation (I, t) (I, set_registry t (spawn_job_inner (registry t) h worker supervisor).1)
| op_worker_exit I t h started guard_first reports e now rnow :
    operation (I, t) (I, tracked_worker_exit t h started guard_first reports e now rnow)
| op_shutdown I t : operation (I, t) (I, (shutdown t).1)
| op_forced_drain I t drained workers_done drained2 all_done :
    operation (I, t) (I, forced_drain t drained workers_done drained2 all_done)
| op_shutdown_settle I t now1 now2 now3 now4 :
    operation (I, t) (I, shutdown_settle t now1 now2 now3 now4)
| op_registry I t r' : step no_create (registry t) r' → operation (I, t) (I, set_registry t r').

Lemma registry_tsteps I t r' :
  rtc (step no_create) (registry t) r' → rtc tstep (I, t) (I, set_registry t r').
Proof.
  assert (∀ r, rtc (step no_create) r r' →
    rtc tstep (I, set_registry t r) (I, set_registry t r')) as Hgen.
  { induction 1 as [|r1 r2 r3 H12 _ IH]; [apply rtc_refl|]. eapply rtc_l; [|exact IH].
    by apply (ts_registry I (set_registry t r1)). }
  intros Hs. specialize (Hgen _ Hs). by destruct t.
Qed.

Lemma refresh_all_tsteps I t now l :
  rtc tstep (I, t) (I, foldl (fun t id => refresh_parent_state t id (now id)) t l).
Proof.
  revert t. induction l as [|p l IH]; intros t; simpl; [apply rtc_refl|].
  eapply rtc_l; [apply ts_refresh|apply IH].
Qed.

Lemma after_terminal_tsteps I t id now : rtc tstep (I, t) (I, after_job_terminal t id now).
Proof.
  unfold after_job_terminal, refresh_parent_for_child.
  destruct (parent_for_job _ _); [apply rtc_once, ts_refresh|apply rtc_refl].
Qed.

Lemma drop_handle_steps (r : JobRegistry (W := Metrics)) h now :
  rtc (step no_create) r (drop_handle r h now).
Proof.
  unfold drop_handle. destruct (handle_finished h); [apply rtc_refl|apply rtc_once, step_failed].
Qed.

Lemma worker_task_steps (r : JobRegistry (W := Metrics)) h started reports e now :
  rtc (step no_create) r (worker_task r h started reports e now).
Proof.
  unfold worker_task. destruct started; [|apply drop_handle_steps].
  etransitivity; [|destruct e; try apply drop_handle_steps;
    (eapply rtc_l; [|apply drop_handle_steps]); try apply step_completed; apply step_failed].
  unfold worker_progress. revert r. induction reports as [|p l IH]; intros r; simpl; [apply rtc_refl|].
  eapply rtc_l; [apply step_running|apply IH].
Qed.

Lemma worker_exit_tsteps I t h started guard_first reports e now rnow :
  rtc tstep (I, t) (I, tracked_worker_exit t h started guard_first reports e now rnow).
Proof.
  unfold tracked_worker_exit. destruct (_ && _).
  - etransitivity; [apply (after_terminal_tsteps I t)|apply registry_tsteps, worker_task_steps].
  - etransitivity; [apply registry_tsteps, worker_task_steps|apply after_terminal_tsteps].
Qed.

Lemma fail_list_steps (r : JobRegistry (W := Metrics)) ids now :
  rtc (step no_create) r (fail_non_terminal_for_shutdown r ids now).
Proof.
  unfold fail_non_terminal_for_shutdown. revert r.
  induction ids as [|x l IH]; intros r; simpl; [apply rtc_refl|].
  eapply rtc_l; [apply step_failed|apply IH].
Qed.

Lemma settle_tsteps I t now1 now2 now3 now4 :
  rtc tstep (I, t) (I, shutdown_settle t now1 now2 now3 now4).
Proof.
  unfold shutdown_settle. etransitivity; [apply (refresh_all_tsteps I t now1)|].
  eapply rtc_l; [apply (ts_fail_parents I _ now2)|].
  etransitivity; [|apply (refresh_all_tsteps I _ now4)]. apply registry_tsteps, fail_list_steps.
Qed.

(** A child job adds no ID but one that was drawn. *)
Lemma child_created_ids I t p rack node jt ids now rnow t' res id :
  owned_inv I t → create_child_job t p rack node jt ids now rnow = Some (t', res) →
  id ∈ created_ids (registry t') → id ∈ created_ids (registry t) ∨ ∃ k, id = ids k.
Proof.
  intros Ht Hc Hid. unfold create_child_job, create_job, lift_create in Hc.
  destruct (create_job_with_scopes _ _ _ _ _ _ _) as [[r' [h|f]]|] eqn:E; simplify_eq.
  - pose proof E as E0. eapply create_admitted_spec in E0 as (rec & Had & _); [|apply Ht|done].
    assert (id ∈ created_ids r') as Hid'.
    { destruct (refresh_cases (reads_of (set_registry t r') p) (set_registry t r') p rnow)
        as [E'|(next & m' & _ & E' & _)]; [by intros h' Hh'; apply (ti_handle _ _ Ht)|..];
        unfold refresh_parent_state in Hid; rewrite E' in Hid; [done|].
      simpl in Hid. by destruct (update_ids r' p false rnow next) as [<- _]. }
    unfold created_ids in Hid'. rewrite (ad_log _ _ _ _ _ _ Had), omap_app in Hid'. simpl in Hid'.
    rewrite (ad_id _ _ _ _ _ _ Had) in Hid'. apply elem_of_app in Hid' as [?|Hid']; [by left|right].
    apply list_elem_of_singleton in Hid'. subst. apply (ad_drawn _ _ _ _ _ _ Had).
  - left. apply create_err in E as [->|(-> & _)]; done.
Qed.

Lemma batch_tsteps {P S C} I p jt (check : C → P → C * result string S) draws k targets seen c t
    adm rej t' c' adm' rej' :
  owned_inv I t → p ∈ I →
  (∀ k', (k ≤ k')%nat → ∀ i, draw_ids (draws k') i ∉ created_ids (registry t)) →
  (∀ k k' i i', k ≠ k' → draw_ids (draws k) i ≠ draw_ids (draws k') i') →
  create_batch_jobs_loop p jt check draws k targets seen c t adm rej = Some (t', c', adm', rej') →
  rtc tstep (I, t) (I, t').
Proof.
  intros Ht Hp Hfresh Hinj. revert k seen c t adm rej Ht Hfresh.
  induction targets as [|[[rack node] x] targets IH]; intros k seen c t adm rej Ht Hfresh Hb; simpl in Hb.
  { simplify_eq. apply rtc_refl. }
  assert (∀ k', (Datatypes.S k ≤ k')%nat → ∀ i, draw_ids (draws k') i ∉ created_ids (registry t)) as Hlater
    by (intros; apply Hfresh; lia).
  case_bool_decide; [by eapply IH in Hb|].
  destruct (check c x) as [c1 [st|msg]]; [|by eapply IH in Hb].
  destruct (create_child_job _ _ _ _ _ _ _ _) as [[t1 res]|] eqn:E; [|done].
  assert (tstep (I, t) (I, t1)) as Hst by (eapply ts_child; [| |exact E]; auto).
  destruct (tstep_inv _ _ _ _ Ht Hst) as [_ Ht1].
  assert (∀ k', (Datatypes.S k ≤ k')%nat → ∀ i, draw_ids (draws k') i ∉ created_ids (registry t1)) as Hlater1.
  { intros k' Hk i [Hin|[i' Hin]]%(child_created_ids _ _ _ _ _ _ _ _ _ _ _ _ Ht E).
    - by apply Hlater in Hin.
    - apply Hinj in Hin; [done|lia]. }
  destruct res as [h|f]; (eapply rtc_l; [exact Hst|by eapply IH in Hb]).
Qed.

Lemma lift_leaf_tstep I t spec scopes ids now t' res :
  spec_ok spec → (∀ k, ids k ∉ created_ids (registry t)) →
  lift_create t (create_job_with_scopes (registry t) spec None true scopes ids now) = Some (t', res) →
  rtc tstep (I, t) (I, t').
Proof.
  intros Hok Hf. unfold lift_create. destruct (create_job_with_scopes _ _ _ _ _ _ _) as [[r ?]|] eqn:E; [|done].
  intros [= <- <-]. apply rtc_once. by eapply ts_leaf.
Qed.

Lemma operation_tsteps I t y : owned_inv I t → operation (I, t) y → rtc tstep (I, t) y.
Proof.
  intros Ht Hop. inversion Hop; subst.
  1-3: by eapply lift_leaf_tstep; [| |eassumption].
  - unfold Tracker.reserve_mutation in *. case_match; [|done]. case_match. simplify_eq.
    apply rtc_once, ts_registry. by eapply step_reserve.
  - by eapply rtc_once, ts_parent.
  - by eapply rtc_once, ts_child.
  - by eapply batch_tsteps; eauto.
  - unfold remove_queued_job. pose proof (step_remove no_create (registry t) id Logic.I) as Hs.
    destruct (remove_queued_leaf _ _). by apply rtc_once, ts_registry.
  - unfold get_job. destruct (lookup_job _ _); simpl; [|apply rtc_refl].
    destruct (is_parent _); [apply rtc_once, ts_refresh|apply rtc_refl].
  - unfold reaper_sweep. etransitivity; [apply (refresh_all_tsteps I t now)|].
    apply rtc_once, ts_registry, step_cleanup.
  - apply rtc_once, ts_registry, step_running.
  - apply rtc_once, ts_completed.
  - apply rtc_once, ts_failed.
  - apply rtc_once, ts_failed.
  - apply rtc_once, ts_failed.
  - apply rtc_once, ts_failed.
  - apply registry_tsteps. unfold spawn_job_inner.
    pose proof (step_register no_create (registry t) (handle_id h) worker supervisor) as Hs.
    destruct (register_task _ _ _ _) as [r []]; [by apply rtc_once|].
    eapply rtc_l; [exact Hs|apply rtc_once, step_refuse_task].
  - apply worker_exit_tsteps.
  - unfold shutdown. pose proof (step_cancel_leaves no_create (begin_shutdown (registry t))) as Hs.
    destruct (cancel_active_leaves _) as [r ids]. apply registry_tsteps.
    eapply rtc_l; [apply step_shutdown|by apply rtc_once].
  - unfold forced_drain. destruct drained; [apply rtc_refl|].
    destruct (_ && _); apply registry_tsteps; (eapply rtc_l; [apply step_abort_workers|]);
      [apply rtc_once, step_abort_supervisors|apply rtc_refl].
  - apply settle_tsteps.
  - by apply rtc_once, ts_registry.
Qed.

(** C8. Every operation of the tracker is a sequence of registry operations that
    create jobs under fresh IDs only, so whatever holds of reachable registries
    holds of the tracker's; this covers the creation of single jobs, parents,
    children and whole batches, queries, reaper passes, the adapters that mark a
    job, the start and the exit of a worker and every phase of shutdown.  Along the way the
    tracker keeps an open handle for every live parent, and for every live job
    whose ID [create_parent_job] returned.  Assumed is that drawn IDs are fresh,
    as UUIDs are, and that children are created under IDs that
    [create_parent_job] returned, as by every caller. *)
Theorem tracker_refines_registry I t I' t' :
  treached I t → operation (I, t) (I', t') →
  steps fresh_uuids (registry t) (registry t') ∧ reachable fresh_uuids (registry t') ∧
  treached I' t' ∧ registry_inv (registry t') ∧
  ∀ id j, by_id (jobs (registry t')) !! id = Some j → is_terminal (state j) = false →
    is_parent j = true ∨ id ∈ I' →
    ∃ h, parent_job_handles t' !! id = Some h ∧ handle_id h = id ∧ handle_finished h = false.
Proof.
  intros Hr Hop. destruct (treached_inv _ _ Hr) as [Ht (r0 & Hi & Hs)].
  pose proof (operation_tsteps _ _ _ Ht Hop) as Hst.
  assert (treached I' t') as Hr'.
  { destruct Hr as (ttl & cap & Hr). exists ttl, cap. by etransitivity. }
  destruct (tsteps_inv _ _ Hst Ht) as [Hsteps Ht']. split_and!; [done| |done|apply Ht'|].
  - exists r0. split; [done|]. by etransitivity.
  - intros id j Hj Htm Hor.
    assert (is_Some (parent_job_handles t' !! id)) as [h Hh].
    { destruct Hor as [Hp|HI]; [by eapply ti_owned|apply (ti_issued _ _ Ht' id HI); by exists j]. }
    exists h. destruct (ti_handle _ _ Ht' _ _ Hh) as [[? ?] _]. done.
Qed.
End aggregation.

Section witnesses.
Import TrackerExample.

Lemma aggregation_correct_witness :
  ∃ pj', by_id (jobs (registry (refresh_parent_state running_batch "job-0" clock0))) !! "job-0"
           = Some pj' ∧ aggregates running_batch parent_record (state pj').
Proof.
  apply (aggregation_correct running_batch "job-0" parent_record clock0 running_treachable
    parent_lookup); reflexivity.
Defined.

Lemma no_stuck_parent_witness :
  ∃ c, c ∈ child_job_ids parent_record ∧
    live (registry (refresh_all_parents running_batch (fun _ => clock0))) c.
Proof.
  apply (no_stuck_parent running_batch (fun _ => clock0) "job-0" parent_record running_treachable);
    [|reflexivity|reflexivity].
  vm_cast_no_check (eq_refl (Some parent_record)).
Defined.

(** The tracker shuts down with the batch still running. *)
Lemma tracker_refines_registry_witness :
  let t' := shutdown_settle running_batch (fun _ => clock0) (fun _ => clock0) (fun _ => clock0)
              (fun _ => clock0) in
  live (registry running_batch) "job-0" ∧ steps fresh_uuids (registry running_batch) (registry t') ∧
  registry_inv (registry t').
Proof.
  assert (operation ({["job-0"]} ∪ ∅, running_batch)
    ({["job-0"]} ∪ ∅, shutdown_settle running_batch (fun _ => clock0) (fun _ => clock0)
       (fun _ => clock0) (fun _ => clock0))) as Hop by exact (op_shutdown_settle _ _ _ _ _ _).
  pose proof (tracker_refines_registry _ _ _ _ running_treached Hop) as (Hs & _ & _ & Hr & _).
  split_and!; [|exact Hs|exact Hr]. exists parent_record. split; [apply parent_lookup|reflexivity].
Defined.

Lemma last_child_seals_parent_witness :
  ¬ live (registry (tracked_worker_exit running_batch child_handle true false []
                      (ExitComplete "done" "") clock0 clock0)) "job-0".
Proof.
  apply (last_child_seals_parent running_batch child_handle [] _ clock0 clock0 "job-0"
    parent_record child_record running_treachable eq_refl child_lookup eq_refl parent_lookup).
  intros c Hc Hne. by apply list_elem_of_singleton in Hc.
Defined.

Lemma shutdown_settles_all_witness :
  ¬ live (registry (shutdown_settle running_batch (fun _ => clock0) (fun _ => clock0)
                      (fun _ => clock0) (fun _ => clock0))) "job-0".
Proof. apply (shutdown_settles_all running_batch _ _ _ _ "job-0" running_treachable). Defined.

Lemma shutdown_budget_exact_witness :
  let '(cooperative, forced) := shutdown_budget (from_secs 20) in
  (0 ≤ cooperative ∧ 0 ≤ forced ≤ from_secs 5 ∧ cooperative + 4 * forced = from_secs 20 ∧
   forced ≤ cooperative)%Z.
Proof. apply (shutdown_budget_exact (from_secs 20)). done. Defined.

Definition two_targets : list (string * string * nat) :=
  [(("rack", "n1"), 1); (("rack", "n1"), 2)].

Lemma batch_accounts_for_targets_witness :
  ∃ t' c' admitted rejected taken,
    create_batch_jobs batch "job-0" FirmwareUpdate two_targets
      (fun (c : unit) (p : nat) => (c, Ok (E := string) p)) tt
      (fun k => mkDraw (ids_from (S (10 * k))) at0 clock0) = Some (t', c', admitted, rejected) ∧
    (fun a : nat * JobHandle * nat => a.1.1) <$> admitted
      = (fun x : string * string * nat => x.2) <$> taken ∧
    taken `sublist_of` two_targets ∧ NoDup (target_key <$> taken) ∧
    (target_key <$> taken) ++ (rejected_key <$> rejected) ≡ₚ target_key <$> two_targets.
Proof.
  apply (batch_accounts_for_targets batch "job-0" FirmwareUpdate two_targets _ tt _
    batch_treachable).
  intros k. apply Example.ids_from_inj.
Defined.
End witnesses.
