(* ===== verification/JobMetricsTheorems.v ===== *)
(** * Workflow metrics

    The registry's observers, as [JobTrackerBuilder::build] installs them, keep
    the in-flight gauge equal to the number of live, externally visible jobs. *)

From S2P Require Import Prelude JobTypes EndpointScope Json RmsDomain.
From S2P Require Import JobStore JobStoreProofs JobRegistry JobRegistryProofs.
From S2P Require Import JobEventProofs JobExamples JobHandle JobTracker JobTrackerProofs.

Import Store Registry Tracker.
Local Open Scope string_scope.
Local Open Scope list_scope.

Section metrics.
Context `{!JobDomain}.
Implicit Types (r : JobRegistry (W := Metrics)).

(** IDs do not repeat, and only jobs that are not visible workflows are removed
    before they start, as the cold-reboot holds are. *)
Definition metered : discipline :=
  mkDiscipline (W := Metrics) (fun r _ _ ids => ∀ k, ids k ∉ created_ids r)
    (fun r id => ∀ j, by_id (jobs r) !! id = Some j → workflow_type j = None).

(** The gauge label of a visible job. *)
Definition gauge_key (j : JobSnapshot) : option (string * string) :=
  match workflow_type j with
  | Some wt => Some (span_name wt, is_leaf_label j)
  | None => None
  end.

Definition counted (key : string * string) (p : JobId * JobSnapshot) : Prop :=
  is_terminal (state p.2) = false ∧ gauge_key p.2 = Some key.

#[global] Instance counted_dec key p : Decision (counted key p).
Proof. unfold counted. apply _. Defined.

Definition live_visible r (key : string * string) : gset JobId :=
  dom (filter (counted key) (by_id (jobs r))).

Definition gauge r (key : string * string) : Z :=
  default 0%Z (workflows_in_flight (world r) !! key).

Record metrics_inv r : Prop := {
  mi_created : created_observer r = Some record_workflow_started_metrics;
  mi_terminal : terminal_observer r = Some record_workflow_terminal_metrics;
  mi_gauge : ∀ key, gauge r key = Z.of_nat (size (live_visible r key));
}.

Lemma elem_of_live_visible r key id :
  id ∈ live_visible r key ↔
    ∃ j, by_id (jobs r) !! id = Some j ∧ is_terminal (state j) = false ∧ gauge_key j = Some key.
Proof.
  unfold live_visible. rewrite elem_of_dom. unfold is_Some. setoid_rewrite map_lookup_filter_Some.
  done.
Qed.

Lemma evolves_key j j' : evolves j j' → gauge_key j' = gauge_key j.
Proof.
  intros Hev. unfold gauge_key, is_leaf_label. by rewrite (ev_type _ _ Hev), (ev_node _ _ Hev).
Qed.

Lemma quiet_visible r r' key :
  quiet metered r r' → live_visible r' key = live_visible r key.
Proof.
  intros [_ _ _ _ Hk Hd]. apply set_eq. intros id. rewrite !elem_of_live_visible. split.
  - intros (j' & Hj' & Ht & Hg). destruct (Hk _ _ Hj') as (j & Hj & Hev & Hs & _).
    exists j. rewrite <- (evolves_key _ _ Hev), <- Hs. done.
  - intros (j & Hj & Ht & Hg). destruct (by_id (jobs r') !! id) as [j'|] eqn:Hj'.
    + destruct (Hk _ _ Hj') as (j0 & Hj0 & Hev & Hs & _). simplify_eq. exists j'.
      by rewrite (evolves_key _ _ Hev), Hs.
    + exfalso. destruct (Hd _ _ Hj Hj') as [?|Hm]; [congruence|].
      specialize (Hm _ Hj). unfold gauge_key in Hg. by rewrite Hm in Hg.
Qed.

(** *** The observers *)

Lemma started_gauge s m key :
  default 0%Z (workflows_in_flight (record_workflow_started_metrics s m) !! key) =
    (default 0%Z (workflows_in_flight m !! key)
     + if decide (gauge_key s = Some key) then 1 else 0)%Z.
Proof.
  unfold record_workflow_started_metrics, gauge_key. destruct (workflow_type s) as [wt|].
  - simpl. rewrite lookup_insert. case_decide as Hd.
    + rewrite decide_True by congruence. simpl. by rewrite Hd.
    + rewrite decide_False by congruence. lia.
  - rewrite decide_False by done. lia.
Qed.

Lemma terminal_gauge s m key :
  is_terminal (state s) = true →
  default 0%Z (workflows_in_flight (record_workflow_terminal_metrics s m) !! key) =
    (default 0%Z (workflows_in_flight m !! key)
     - if decide (gauge_key s = Some key) then 1 else 0)%Z.
Proof.
  intros Ht. unfold record_workflow_terminal_metrics, gauge_key.
  destruct (workflow_type s) as [wt|]; [|rewrite decide_False by done; lia].
  assert (∀ k, default 0%Z (workflows_in_flight
      (gauge_add (count_inc m k) (span_name wt, is_leaf_label s) (-1)) !! key) =
    (default 0%Z (workflows_in_flight m !! key)
     - if decide (Some (span_name wt, is_leaf_label s) = Some key) then 1 else 0)%Z) as Hk.
  { intros k. simpl. rewrite lookup_insert. case_decide as Hd.
    - rewrite decide_True by congruence. simpl. rewrite Hd. lia.
    - rewrite decide_False by congruence. lia. }
  destruct (state s); try done; apply Hk.
Qed.

Lemma update_world r id v now next :
  world (update r id v now (unless_terminal next)).1 =
    match by_id (jobs r) !! id with
    | Some j =>
        if negb (is_terminal (state j)) && is_terminal next then
          match terminal_observer r with
          | Some f => f (touch (set_state j next) now) (world r)
          | None => world r
          end
        else world r
    | None => world r
    end.
Proof.
  unfold update. rewrite transition_state_eq. destruct (by_id (jobs r) !! id) as [j|]; [|done].
  unfold unless_terminal. destruct (is_terminal (state j)) eqn:Ht; [done|]. simpl.
  unfold classify. simpl.
  destruct (state j) eqn:Hs, next; simpl in *; try done; by destruct (terminal_observer r).
Qed.

Lemma update_metrics r id v now next :
  metrics_inv r → metrics_inv (update r id v now (unless_terminal next)).1.
Proof.
  intros [Hc Ht Hg].
  destruct (update_frame r id v now (unless_terminal next))
    as (_ & _ & _ & _ & _ & _ & _ & _ & Ec & Et).
  split; [by rewrite Ec|by rewrite Et|]. intros key. unfold gauge. rewrite update_world, Ht.
  destruct (by_id (jobs r) !! id) as [j|] eqn:Hj.
  2:{ fold (gauge r key). rewrite Hg. do 2 f_equal. apply set_eq. intros x. rewrite !elem_of_live_visible, update_records.
      destruct (decide (id = x)) as [<-|Hne]; [by rewrite Hj|]. by destruct (by_id (jobs r) !! x). }
  destruct (negb (is_terminal (state j)) && is_terminal next) eqn:E.
  - apply andb_true_iff in E as [Hnt%negb_true_iff Hn].
    rewrite terminal_gauge by done. fold (gauge r key). rewrite Hg.
    change (gauge_key (touch (set_state j next) now)) with (gauge_key j).
    assert (live_visible (update r id v now (unless_terminal next)).1 key =
            live_visible r key ∖ {[id]}) as ->.
    { apply set_eq. intros x. rewrite elem_of_difference, elem_of_singleton, !elem_of_live_visible,
        update_records. destruct (decide (id = x)) as [<-|Hne].
      - rewrite Hj, Hnt. split; [|naive_solver]. intros (j' & [= <-] & Hnt' & _). simpl in *. congruence.
      - destruct (by_id (jobs r) !! x); naive_solver. }
    case_decide as Hk.
    + assert (id ∈ live_visible r key) as Hin by (apply elem_of_live_visible; eauto).
      pose proof (size_remove _ _ Hin). lia.
    + assert (id ∉ live_visible r key) as Hin by (rewrite elem_of_live_visible; naive_solver).
      rewrite difference_disjoint_L by set_solver. lia.
  - fold (gauge r key). rewrite Hg. do 2 f_equal. apply set_eq. intros x.
    rewrite !elem_of_live_visible, update_records.
    destruct (by_id (jobs r) !! x) as [jx|] eqn:Hx; [|done].
    case_decide as Hd; [|done]. subst x. assert (jx = j) as -> by congruence.
    destruct (is_terminal (state j)) eqn:Htx; [done|]. simpl in E. split.
    + intros (j' & [= <-] & _ & Hk). eexists. split; [done|]. done.
    + intros (j' & [= <-] & _ & Hk). exists j. done.
Qed.

Lemma create_metrics r parent ids h r' rec :
  metrics_inv r → history_inv r → (∀ k, ids k ∉ created_ids r) →
  admitted r parent ids h r' rec → metrics_inv r'.
Proof.
  intros [Hc Ht Hg] Hh Hfresh Had.
  destruct (ad_obs _ _ _ _ _ _ Had) as [Ec Et]. split; [congruence|congruence|].
  intros key. unfold gauge. rewrite (ad_world _ _ _ _ _ _ Had), Hc, started_gauge.
  fold (gauge r key). rewrite Hg.
  assert (by_id (jobs r) !! handle_id h = None) as Hnew.
  { destruct (by_id (jobs r) !! handle_id h) as [j|] eqn:Hj; [|done]. exfalso.
    destruct (ad_drawn _ _ _ _ _ _ Had) as [k Hk]. apply (Hfresh k). rewrite <- Hk.
    apply (hi_tracked _ Hh). eauto. }
  assert (handle_id h ∉ live_visible r key) as Hnot.
  { rewrite elem_of_live_visible, Hnew. naive_solver. }
  assert (live_visible r' key =
    (if decide (gauge_key rec = Some key) then {[handle_id h]} else ∅) ∪ live_visible r key) as ->.
  { apply set_eq. intros x. rewrite elem_of_union, !elem_of_live_visible.
    destruct (decide (x = handle_id h)) as [->|Hne].
    - rewrite (ad_rec _ _ _ _ _ _ Had), Hnew. pose proof (ad_live _ _ _ _ _ _ Had) as Hl.
      case_decide; set_solver.
    - transitivity (∃ j, by_id (jobs r) !! x = Some j ∧ is_terminal (state j) = false ∧
        gauge_key j = Some key); [|case_decide; set_solver]. split.
      + intros (j' & Hj' & Hnt & Hk).
        destruct (ad_others _ _ _ _ _ _ Had _ _ Hj' Hne) as (j & Hj & Hev & Hs & _).
        exists j. rewrite <- (evolves_key _ _ Hev), <- Hs. done.
      + intros (j & Hj & Hnt & Hk). destruct (by_id (jobs r') !! x) as [j'|] eqn:Hj'.
        * destruct (ad_others _ _ _ _ _ _ Had _ _ Hj' Hne) as (j0 & Hj0 & Hev & Hs & _).
          simplify_eq. exists j'. by rewrite (evolves_key _ _ Hev), Hs.
        * pose proof (ad_dropped _ _ _ _ _ _ Had _ _ Hj Hj'). congruence. }
  case_decide.
  - rewrite size_union by set_solver. rewrite size_singleton. lia.
  - rewrite (left_id_L ∅ (∪)). lia.
Qed.

Lemma metered_fresh r r' : step metered r r' → step fresh_uuids r r'.
Proof.
  intros []; [by eapply (step_create fresh_uuids r)|by eapply (step_reserve fresh_uuids r)|..];
    by constructor.
Qed.

Lemma metrics_step r r' :
  registry_inv r → history_inv r ∧ metrics_inv r → step metered r r' →
  history_inv r' ∧ metrics_inv r'.
Proof.
  intros Hr [Hh Hm] Hst. split; [eapply step_history; eauto using metered_fresh|].
  destruct (step_kinds _ _ _ Hst) as [Hq|id v now next ->|spec parent idle scopes ids now h Hok
    Hmay Hc].
  - destruct Hm as [H1 H2 H3]. split.
    + by rewrite (q_created _ _ _ Hq).
    + by rewrite (q_terminal _ _ _ Hq).
    + intros key. unfold gauge. rewrite (q_world _ _ _ Hq), (quiet_visible _ _ _ Hq). apply H3.
  - by apply update_metrics.
  - destruct (create_admitted_spec _ _ _ _ _ _ _ _ _ Hr Hok Hc) as (rec & Had & _).
    by eapply create_metrics.
Qed.

(** The in-flight gauge never drifts: in every state the tracker's registry can
    reach, the gauge of a workflow name and leaf label is the number of live,
    visible jobs with that name and label, through creation, any outcome,
    eviction and shutdown. *)
Theorem in_flight_gauge_exact ttl cap r key :
  steps metered (registry (build ttl cap)) r →
  gauge r key = Z.of_nat (size (live_visible r key)).
Proof.
  intros Hs. enough (registry_inv r ∧ history_inv r ∧ metrics_inv r) as (_ & _ & Hm) by apply Hm.
  apply (steps_ind_inv metered (fun r => history_inv r ∧ metrics_inv r)
    (registry (build ttl cap)) r).
  - intros *. apply metrics_step.
  - apply initial_inv. constructor.
  - split; [apply initial_history; constructor|]. split; [done|done|].
    intros k. unfold gauge, live_visible. simpl. by rewrite lookup_empty, map_filter_empty.
  - done.
Qed.
End metrics.

Section witnesses.
Import TrackerExample.

(** A visible leaf, admitted by an empty tracker's registry. *)
Definition visible_leaf : JobSpec := with_workflow_type (Example.leaf "n1") FirmwareUpdate.
Definition visible_one : JobRegistry :=
  match create_job (registry empty) visible_leaf None true ids at0 with
  | Some (r, _) => r
  | None => registry empty
  end.
Definition visible_handle : JobHandle := JobHandle_new "job-0" SpanNone 0.

Lemma in_flight_gauge_exact_witness :
  gauge visible_one ("firmware_update", "true") = 1%Z ∧
  gauge visible_one ("firmware_update", "true") =
    Z.of_nat (size (live_visible visible_one ("firmware_update", "true"))).
Proof.
  split; [vm_cast_no_check (eq_refl 1%Z)|].
  apply (in_flight_gauge_exact 100 4 visible_one ("firmware_update", "true")). apply rtc_once.
  eapply (step_create metered (registry empty) visible_leaf None true [] ids at0 visible_one
    (Ok visible_handle)); [reflexivity|intros k; apply not_elem_of_nil|].
  vm_cast_no_check (eq_refl (Some (visible_one, Ok (E := JobFailure) visible_handle))).
Defined.
End witnesses.
