(* ===== verification/RmsError.v ===== *)
(** * The service's error type

    [utilities/error.rs]: [ErrorCode] and [RmsError].  The conversion from the
    NVUE client's error is in [SwitchCertificates]. *)

From S2P Require Import Prelude.
Local Open Scope string_scope.

Module ErrorCodeM.
Inductive ErrorCode :=
| Internal
| NotFound
| AlreadyExists
| InvalidArgument
| Timeout
| FailedPrecondition
| Unauthenticated
| Unavailable
| Cancelled
| Unimplemented
| ConnectionRefused
| DnsResolutionFailed
| Aborted.

#[global] Instance ErrorCode_eq_dec : EqDecision ErrorCode.
Proof. solve_decision. Defined.

(** [Display]. *)
Definition code_display (c : ErrorCode) : string :=
  match c with
  | Internal => "Internal"
  | NotFound => "NotFound"
  | AlreadyExists => "AlreadyExists"
  | InvalidArgument => "InvalidArgument"
  | Timeout => "Timeout"
  | FailedPrecondition => "FailedPrecondition"
  | Unauthenticated => "Unauthenticated"
  | Unavailable => "Unavailable"
  | Cancelled => "Cancelled"
  | Unimplemented => "Unimplemented"
  | ConnectionRefused => "ConnectionRefused"
  | DnsResolutionFailed => "DnsResolutionFailed"
  | Aborted => "Aborted"
  end.
End ErrorCodeM.
Abbreviation ErrorCode := ErrorCodeM.ErrorCode.

Record RmsError := mkRmsError {
  error_code : ErrorCode;
  error_message : string;
}.

#[export] Instance RmsError_eq_dec : EqDecision RmsError.
Proof. solve_decision. Defined.

Definition rms_error_display (e : RmsError) : string :=
  "[" +++ ErrorCodeM.code_display (error_code e) +++ "] " +++ error_message e.

Definition internal (m : string) : RmsError := mkRmsError ErrorCodeM.Internal m.
Definition not_found (m : string) : RmsError := mkRmsError ErrorCodeM.NotFound m.
Definition already_exists (m : string) : RmsError := mkRmsError ErrorCodeM.AlreadyExists m.
Definition invalid_argument (m : string) : RmsError := mkRmsError ErrorCodeM.InvalidArgument m.
Definition timeout (m : string) : RmsError := mkRmsError ErrorCodeM.Timeout m.
Definition failed_precondition (m : string) : RmsError :=
  mkRmsError ErrorCodeM.FailedPrecondition m.
Definition aborted (m : string) : RmsError := mkRmsError ErrorCodeM.Aborted m.
Definition unauthenticated (m : string) : RmsError := mkRmsError ErrorCodeM.Unauthenticated m.
Definition unavailable (m : string) : RmsError := mkRmsError ErrorCodeM.Unavailable m.
Definition cancelled (m : string) : RmsError := mkRmsError ErrorCodeM.Cancelled m.
Definition unimplemented (operation node_type : string) : RmsError :=
  mkRmsError ErrorCodeM.Unimplemented
    (operation +++ " not supported for " +++ node_type +++ " nodes").
Definition connection_refused (m : string) : RmsError :=
  mkRmsError ErrorCodeM.ConnectionRefused m.
Definition dns_resolution_failed (m : string) : RmsError :=
  mkRmsError ErrorCodeM.DnsResolutionFailed m.
