(* ===== verification/FabricOperation.v ===== *)
(** * Fabric operation registry

    [orchestrator/fabric_operation.rs]: process-local ownership of fabric scopes
    and the evidence that a controller's activation was verified.

    Each method is a function from the registry to the registry and its result.
    The [Mutex] is its poison flag: every method takes the lock, and none of
    them can panic while holding it, so only code outside this module could set
    the flag. *)

From S2P Require Import Prelude RustStd RmsError.
Local Open Scope string_scope.
Local Open Scope list_scope.

Module Fabric.
Definition MAX_OPERATIONS : nat := 256.
Definition MAX_ACTIVATION_PROOFS : nat := 1024.

Record ControllerIdentity := mkController {
  chassis_serial_number : string;
  tray_index : N;
}.

#[export] Instance ControllerIdentity_eq_dec : EqDecision ControllerIdentity.
Proof. solve_decision. Defined.

#[export] Instance ControllerIdentity_countable : Countable ControllerIdentity.
Proof.
  apply (inj_countable' (fun c => (chassis_serial_number c, tray_index c))
    (fun p => mkController p.1 p.2)). by intros [].
Defined.

Record FabricOperationIntent := mkIntent {
  scope_keys : list string;
  rule_id : string;
}.

#[export] Instance FabricOperationIntent_eq_dec : EqDecision FabricOperationIntent.
Proof. solve_decision. Defined.

Record FabricOperation := mkOperation {
  op_job_id : string;
  op_intent : FabricOperationIntent;
  pending_controllers : gset ControllerIdentity;
}.

Record ActivationProof := mkProof {
  proof_controller : ControllerIdentity;
  proof_digest : string;
  proof_scope_keys : list string;
}.

(** [RegistryState] behind its lock. *)
Record FabricOperationRegistry := mkRegistry {
  operations : gmap string FabricOperation;
  proofs : list ActivationProof;
  poisoned : bool;
}.

Definition set_operations (s : FabricOperationRegistry) m : FabricOperationRegistry :=
  mkRegistry m (proofs s) (poisoned s).
Definition set_proofs (s : FabricOperationRegistry) l : FabricOperationRegistry :=
  mkRegistry (operations s) l (poisoned s).
Definition set_pending (o : FabricOperation) p : FabricOperation :=
  mkOperation (op_job_id o) (op_intent o) p.

(** [FabricOperationRegistry::default()]. *)
Definition default_registry : FabricOperationRegistry := mkRegistry ∅ [] false.

Definition lock {A} (s : FabricOperationRegistry)
    (k : FabricOperationRegistry → FabricOperationRegistry * result RmsError A)
    : FabricOperationRegistry * result RmsError A :=
  if poisoned s then (s, Err (internal "fabric operation registry lock poisoned")) else k s.

Definition normalize (i : FabricOperationIntent) : result RmsError FabricOperationIntent :=
  if bool_decide (scope_keys i = []) || existsb is_blank (scope_keys i) || is_blank (rule_id i)
  then Err (invalid_argument "fabric operation requires scope keys and a rule identity")
  else Ok (mkIntent (dedup (sort_keys (scope_keys i))) (rule_id i)).

(** An operation one of whose keys satisfies [hit]. *)
Definition overlaps (hit : string → bool) (o : FabricOperation) : bool :=
  existsb hit (scope_keys (op_intent o)).

Definition find_overlapping (s : FabricOperationRegistry) (keys : list string)
    : FabricOperationRegistry * result RmsError (list FabricOperation) :=
  lock s (fun s => (s, Ok (filter (fun o => overlaps (contains keys) o) (values (operations s))))).

Definition admit_pending (s : FabricOperationRegistry) (intent : FabricOperationIntent)
    (previous : option FabricOperation) (previous_job_id : option string)
    : result RmsError (gset ControllerIdentity) :=
  match previous, previous_job_id with
  | None, None =>
      if (MAX_OPERATIONS <=? size (operations s))%nat
      then Err (failed_precondition "fabric operation registry capacity reached")
      else Ok ∅
  | Some operation, Some previous_job_id =>
      if negb (bool_decide (op_job_id operation = previous_job_id))
         || negb (bool_decide (scope_keys (op_intent operation) = scope_keys intent))
         || negb (bool_decide (rule_id (op_intent operation) = rule_id intent))
      then Err (failed_precondition "fabric operation owner, scope, or rule changed")
      else Ok (pending_controllers operation)
  | Some _, None => Err (already_exists "fabric operation owns overlapping scope")
  | None, Some _ => Err (failed_precondition "previous fabric operation is absent")
  end.

Definition admit_operation (s : FabricOperationRegistry) (intent : FabricOperationIntent)
    (job_id : string) (previous_job_id : option string)
    : FabricOperationRegistry * result RmsError FabricOperation :=
  match normalize intent with
  | Err e => (s, Err e)
  | Ok intent =>
      if is_blank job_id then (s, Err (invalid_argument "fabric operation requires a job ID"))
      else lock s (fun s =>
        if bool_decide (is_Some (operations s !! job_id))
        then (s, Err (already_exists "fabric job already owns an operation"))
        else
          let overlapping :=
            filter (fun o => overlaps (fun key => is_ok (binary_search (scope_keys intent) key)) o)
              (values (operations s)) in
          match overlapping with
          | _ :: _ :: _ =>
              (s, Err (already_exists "multiple fabric operations own overlapping scope"))
          | _ =>
              match admit_pending s intent (head overlapping) previous_job_id with
              | Err e => (s, Err e)
              | Ok pending =>
                  let operation := mkOperation job_id intent pending in
                  let ops :=
                    match previous_job_id with
                    | Some p => delete p (operations s)
                    | None => operations s
                    end in
                  (set_operations s (<[job_id := operation]> ops), Ok operation)
              end
          end)
  end.

Definition owner_changed : RmsError := failed_precondition "fabric operation owner changed".

Definition mark_pending (s : FabricOperationRegistry) (job_id : string)
    (controllers : list ControllerIdentity) : FabricOperationRegistry * result RmsError unit :=
  lock s (fun s =>
    match operations s !! job_id with
    | None => (s, Err owner_changed)
    | Some operation =>
        if existsb (fun o => negb (bool_decide (op_job_id o = job_id))
             && existsb (fun c => bool_decide (c ∈ pending_controllers o)) controllers)
             (values (operations s))
        then (s, Err (already_exists
               "controller activation is pending under another fabric operation"))
        else
          let operation :=
            set_pending operation (pending_controllers operation ∪ list_to_set controllers) in
          let s := set_operations s (<[job_id := operation]> (operations s)) in
          (set_proofs s
             (filter (fun p => negb (contains controllers (proof_controller p))) (proofs s)), Ok tt)
    end).

Definition clear_inactive (s : FabricOperationRegistry) (job_id : string)
    (controller : ControllerIdentity) : FabricOperationRegistry * result RmsError unit :=
  lock s (fun s =>
    match operations s !! job_id with
    | None => (s, Err owner_changed)
    | Some operation =>
        let operation := set_pending operation (pending_controllers operation ∖ {[controller]}) in
        (set_operations s (<[job_id := operation]> (operations s)), Ok tt)
    end).

Definition has_activation_proof (s : FabricOperationRegistry) (controller : ControllerIdentity)
    (digest : string) : FabricOperationRegistry * result RmsError bool :=
  lock s (fun s =>
    (s, Ok (existsb (fun p => bool_decide (proof_controller p = controller)
                              && bool_decide (proof_digest p = digest)) (proofs s)))).

(** [push_back], then [pop_front] past the capacity. *)
Definition push_proof (l : list ActivationProof) (p : ActivationProof) : list ActivationProof :=
  let l := l ++ [p] in
  if (MAX_ACTIVATION_PROOFS <? length l)%nat then tail l else l.

Definition record_activation (s : FabricOperationRegistry) (job_id : string)
    (controller : ControllerIdentity) (digest : string) (keys : list string)
    : FabricOperationRegistry * result RmsError unit :=
  if is_blank digest || bool_decide (keys = []) || existsb is_blank keys
  then (s, Err (invalid_argument "activation proof requires a digest and scope aliases"))
  else
    let keys := dedup (sort_keys keys) in
    lock s (fun s =>
      match operations s !! job_id with
      | None => (s, Err owner_changed)
      | Some operation =>
          if negb (existsb (fun key => is_ok (binary_search (scope_keys (op_intent operation)) key))
                     keys)
          then (s, Err (failed_precondition "activation proof does not overlap the owned scope"))
          else if negb (bool_decide (controller ∈ pending_controllers operation))
          then (s, Err (failed_precondition
                 "controller activation is not pending for the current owner"))
          else
            let operation :=
              set_pending operation (pending_controllers operation ∖ {[controller]}) in
            let s := set_operations s (<[job_id := operation]> (operations s)) in
            let kept :=
              filter (fun p => negb (bool_decide (proof_controller p = controller))) (proofs s) in
            (set_proofs s (push_proof kept (mkProof controller digest keys)), Ok tt)
      end).

Definition finish (s : FabricOperationRegistry) (job_id : string)
    : FabricOperationRegistry * result RmsError unit :=
  lock s (fun s =>
    match operations s !! job_id with
    | None => (s, Err owner_changed)
    | Some operation =>
        if negb (bool_decide (pending_controllers operation = ∅))
        then (s, Err (failed_precondition "controller activation remains pending"))
        else (set_operations s (delete job_id (operations s)), Ok tt)
    end).

Definition release_failed (s : FabricOperationRegistry) (job_id : string)
    : FabricOperationRegistry * result RmsError unit :=
  lock s (fun s =>
    match operations s !! job_id with
    | None => (s, Err owner_changed)
    | Some operation =>
        let s := set_operations s (delete job_id (operations s)) in
        (set_proofs s
           (filter (fun p => negb (bool_decide (proof_controller p ∈ pending_controllers operation)))
              (proofs s)), Ok tt)
    end).

Definition invalidate_and_require_clear (s : FabricOperationRegistry) (keys : list string)
    : FabricOperationRegistry * result RmsError unit :=
  if bool_decide (keys = []) || existsb is_blank keys
  then (s, Err (invalid_argument "fabric invalidation requires nonempty scope aliases"))
  else lock s (fun s =>
    if existsb (overlaps (contains keys)) (values (operations s))
    then (s, Err (already_exists "fabric operation owns external mutation scope"))
    else
      (set_proofs s
         (filter (fun p => negb (existsb (contains keys) (proof_scope_keys p))) (proofs s)), Ok tt)).
End Fabric.
