(* ===== verification/FabricTheorems.v ===== *)
(** * What the fabric operation registry guarantees

    The invariant of [FabricOperation] over any sequence of calls, and what it
    means for a caller: scopes and pending controllers have one owner, a proof
    always stems from a verified activation that nothing has disturbed since,
    and a transferred operation fences its former owner. *)

From S2P Require Import Prelude RustStd RmsError FabricOperation.
Import Fabric.
Local Open Scope string_scope.
Local Open Scope list_scope.

(** ** Calls *)

Inductive call :=
| Admit (i : FabricOperationIntent) (job : string) (previous : option string)
| MarkPending (job : string) (cs : list ControllerIdentity)
| ClearInactive (job : string) (c : ControllerIdentity)
| RecordActivation (job : string) (c : ControllerIdentity) (digest : string) (keys : list string)
| Finish (job : string)
| ReleaseFailed (job : string)
| Invalidate (keys : list string).

Definition drop_ok {A} (p : FabricOperationRegistry * result RmsError A)
    : FabricOperationRegistry * bool := (p.1, is_ok p.2).

Definition exec (s : FabricOperationRegistry) (c : call) : FabricOperationRegistry * bool :=
  match c with
  | Admit i job prev => drop_ok (admit_operation s i job prev)
  | MarkPending job cs => drop_ok (mark_pending s job cs)
  | ClearInactive job c => drop_ok (clear_inactive s job c)
  | RecordActivation job c d keys => drop_ok (record_activation s job c d keys)
  | Finish job => drop_ok (finish s job)
  | ReleaseFailed job => drop_ok (release_failed s job)
  | Invalidate keys => drop_ok (invalidate_and_require_clear s keys)
  end.

Definition run (s : FabricOperationRegistry) (cs : list call) : FabricOperationRegistry :=
  foldl (fun s c => (exec s c).1) s cs.

(** ** Invariant *)

Definition disjoint_keys (a b : FabricOperation) : Prop :=
  ∀ k, k ∈ scope_keys (op_intent a) → k ∉ scope_keys (op_intent b).

Record fabric_inv (s : FabricOperationRegistry) : Prop := {
  fi_key : ∀ j o, operations s !! j = Some o → op_job_id o = j;
  fi_scope : ∀ j o, operations s !! j = Some o →
    sorted_keys (scope_keys (op_intent o)) ∧ scope_keys (op_intent o) ≠ [];
  fi_disjoint : ∀ j1 o1 j2 o2, operations s !! j1 = Some o1 → operations s !! j2 = Some o2 →
    j1 ≠ j2 → disjoint_keys o1 o2;
  fi_pending : ∀ j1 o1 j2 o2, operations s !! j1 = Some o1 → operations s !! j2 = Some o2 →
    j1 ≠ j2 → pending_controllers o1 ## pending_controllers o2;
  fi_capacity : (size (operations s) ≤ MAX_OPERATIONS)%nat;
  fi_unproved : ∀ p j o, p ∈ proofs s → operations s !! j = Some o →
    proof_controller p ∉ pending_controllers o;
  fi_one_proof : NoDup (proof_controller <$> proofs s);
  fi_proofs : (length (proofs s) ≤ MAX_ACTIVATION_PROOFS)%nat;
}.

Lemma default_inv : fabric_inv default_registry.
Proof.
  split; simpl; try (intros *; rewrite ?lookup_empty; done); try (apply NoDup_nil_2 || lia).
  rewrite map_size_empty. lia.
Qed.

(** ** Overlap *)

Lemma overlaps_spec hit o :
  overlaps hit o = true ↔ ∃ k, k ∈ scope_keys (op_intent o) ∧ hit k = true.
Proof.
  unfold overlaps. rewrite existsb_exists. by setoid_rewrite list_elem_of_In.
Qed.

Lemma overlaps_search keys o :
  sorted_keys keys →
  overlaps (fun k => is_ok (binary_search keys k)) o = overlaps (contains keys) o.
Proof.
  intros Hs. unfold overlaps. induction (scope_keys (op_intent o)) as [|k l IH]; simpl; [done|].
  by rewrite IH, binary_search_ok.
Qed.

Lemma normalize_ok i i' :
  normalize i = Ok i' →
  sorted_keys (scope_keys i') ∧ scope_keys i' ≠ [] ∧ rule_id i' = rule_id i ∧
  (∀ k, k ∈ scope_keys i' ↔ k ∈ scope_keys i).
Proof.
  unfold normalize. destruct (_ || _ || _) eqn:E; [done|]. intros [= <-]. reflect_bools. simpl.
  assert (∀ k, k ∈ dedup (sort_keys (scope_keys i)) ↔ k ∈ scope_keys i) as Hk
    by (intros k; by rewrite elem_of_dedup, elem_of_sort_keys).
  split_and!; [apply dedup_sorted, sort_keys_sorted| |done|done].
  intros Hn. destruct (scope_keys i) as [|k l]; [done|]. apply (not_elem_of_nil k).
  rewrite <- Hn. apply Hk. left.
Qed.

(** ** Admission, inverted *)

Record admitted (s : FabricOperationRegistry) i job prev (s' : FabricOperationRegistry) o : Prop := {
  am_intent : normalize i = Ok (op_intent o);
  am_job : op_job_id o = job ∧ is_blank job = false ∧ operations s !! job = None;
  am_proofs : proofs s' = proofs s;
  am_pending :
    match prev with
    | None => pending_controllers o = ∅ ∧ (size (operations s) < MAX_OPERATIONS)%nat
    | Some p => ∃ o', operations s !! p = Some o' ∧ op_intent o' = op_intent o ∧
        pending_controllers o' = pending_controllers o
    end;
  am_clear : ∀ j o', operations s !! j = Some o' → Some j ≠ prev → disjoint_keys o' o;
  am_operations : operations s' = <[job := o]> (match prev with
                                                | Some p => delete p (operations s)
                                                | None => operations s
                                                end);
}.

Lemma admit_inversion s i job prev s' o :
  fabric_inv s → admit_operation s i job prev = (s', Ok o) → admitted s i job prev s' o.
Proof.
  intros Hi. unfold admit_operation. destruct (normalize i) as [i'|e] eqn:Hn; [|done].
  destruct (normalize_ok _ _ Hn) as (Hs & _ & _ & _).
  destruct (is_blank job) eqn:Hb; [done|]. unfold lock. destruct (poisoned s); [done|].
  case_bool_decide as Ho; [done|]. apply eq_None_not_Some in Ho.
  set (over := filter _ (values (operations s))).
  assert (∀ j o', operations s !! j = Some o' → o' ∉ over →
    ∀ k, k ∈ scope_keys (op_intent o') → k ∉ scope_keys i') as Hclear.
  { intros j o' Hj Hno k Hk Hk'. apply Hno. apply list_elem_of_filter.
    split; [|apply elem_of_values; eauto]. apply Is_true_true.
    rewrite overlaps_search by done. apply overlaps_spec. exists k. split; [done|].
    by apply bool_decide_eq_true. }
  assert (∀ o', o' ∈ over → ∃ j, operations s !! j = Some o') as Hin.
  { intros o' [_ Hv]%list_elem_of_filter. by apply elem_of_values in Hv. }
  destruct over as [|o1 [|o2 over]]; [| |done];
    destruct prev as [p|]; cbn [head admit_pending]; try done.
  - destruct (MAX_OPERATIONS <=? _)%nat eqn:Hc; [done|]. apply Nat.leb_gt in Hc.
    intros [= <- <-]. split; simpl; try done.
    intros j o' Hj _. refine (Hclear _ _ Hj _). apply not_elem_of_nil.
  - destruct (_ || _ || _) eqn:E; [done|]. reflect_bools. intros [= <- <-].
    destruct (Hin o1) as [j1 Hj1]; [left|]. pose proof (fi_key _ Hi _ _ Hj1) as Hk1.
    assert (j1 = p) as -> by congruence.
    split; simpl; try done.
    + exists o1. split_and!; [done| |done]. destruct (op_intent o1), i'; simpl in *; congruence.
    + intros j o' Hj Hne. refine (Hclear _ _ Hj _). intros ->%list_elem_of_singleton.
      apply Hne. f_equal. pose proof (fi_key _ Hi _ _ Hj). congruence.
Qed.

Lemma admitted_inv s i job prev s' o :
  fabric_inv s → admitted s i job prev s' o → fabric_inv s'.
Proof.
  intros Hi [Hn (Hj & _ & Hnone) Hp Hpend Hclear Hops].
  destruct (normalize_ok _ _ Hn) as (Hs & Hne & _ & _).
  set (rest := match prev with Some p => delete p (operations s) | None => operations s end) in *.
  assert (∀ j o', rest !! j = Some o' → operations s !! j = Some o' ∧ Some j ≠ prev) as Hrest.
  { intros j o'. subst rest. destruct prev as [p|]; [|done].
    rewrite lookup_delete. case_decide; [done|]. intros. split; [done|congruence]. }
  assert (∀ j o', operations s' !! j = Some o' → (j = job ∧ o' = o) ∨
    (j ≠ job ∧ operations s !! j = Some o' ∧ Some j ≠ prev)) as Hcase.
  { intros j o'. rewrite Hops, lookup_insert. case_decide; [naive_solver|].
    intros Hr%Hrest. naive_solver. }
  assert (∀ j o', operations s !! j = Some o' → Some j ≠ prev →
    pending_controllers o' ## pending_controllers o) as Hdis.
  { intros j o' Ho' Hpr. destruct prev as [p|].
    - destruct Hpend as (po & Hpo & _ & <-). eapply (fi_pending _ Hi); [done|done|congruence].
    - destruct Hpend as [-> _]. set_solver. }
  split.
  - intros j o' [[-> ->]|(_ & Ho & _)]%Hcase; [done|by eapply fi_key].
  - intros j o' [[-> ->]|(_ & Ho & _)]%Hcase; [done|by eapply fi_scope].
  - intros j1 o1 j2 o2 [[-> ->]|(? & Ho1 & Hp1)]%Hcase [[-> ->]|(? & Ho2 & Hp2)]%Hcase Hne';
      [done| | |by eapply fi_disjoint].
    + intros k Hk Hk'. by apply (Hclear _ _ Ho2 Hp2 k).
    + by eapply Hclear.
  - intros j1 o1 j2 o2 [[-> ->]|(? & Ho1 & Hp1)]%Hcase [[-> ->]|(? & Ho2 & Hp2)]%Hcase Hne';
      [done| | |by eapply fi_pending].
    + symmetry. by eapply Hdis.
    + by eapply Hdis.
  - pose proof (fi_capacity _ Hi). rewrite Hops. subst rest. destruct prev as [p|].
    + destruct Hpend as (po & Hpo & _). rewrite map_size_insert_None.
      * rewrite map_size_delete_Some by eauto.
        assert (size (operations s) ≠ 0)%nat; [|lia]. intros E%map_size_empty_iff.
        by rewrite E, lookup_empty in Hpo.
      * rewrite lookup_delete. by case_decide.
    + rewrite map_size_insert_None by done. lia.
  - intros pr j o' Hpr. rewrite Hp in Hpr. intros [[-> ->]|(_ & Ho & _)]%Hcase;
      [|by eapply fi_unproved].
    destruct prev as [p|]; [|destruct Hpend as [-> _]; set_solver].
    destruct Hpend as (po & Hpo & _ & <-). by eapply fi_unproved.
  - rewrite Hp. apply Hi.
  - rewrite Hp. apply Hi.
Qed.

(** ** The other calls *)

(** Operations may only disappear or lose pending controllers. *)
Definition shrinks (s s' : FabricOperationRegistry) : Prop :=
  ∀ j o', operations s' !! j = Some o' → ∃ o, operations s !! j = Some o ∧
    op_job_id o' = op_job_id o ∧ op_intent o' = op_intent o ∧
    pending_controllers o' ⊆ pending_controllers o.

Lemma shrink_inv s s' :
  fabric_inv s → shrinks s s' → sublist (proofs s') (proofs s) → fabric_inv s'.
Proof.
  intros Hi Hsh Hp. split.
  - intros j o' (o & Ho & -> & _)%Hsh. by eapply fi_key.
  - intros j o' (o & Ho & _ & -> & _)%Hsh. by eapply fi_scope.
  - intros j1 o1' j2 o2' (o1 & Ho1 & _ & E1 & _)%Hsh (o2 & Ho2 & _ & E2 & _)%Hsh Hne.
    unfold disjoint_keys. rewrite E1, E2. by eapply fi_disjoint.
  - intros j1 o1' j2 o2' (o1 & Ho1 & _ & _ & E1)%Hsh (o2 & Ho2 & _ & _ & E2)%Hsh Hne.
    pose proof (fi_pending _ Hi _ _ _ _ Ho1 Ho2 Hne). set_solver.
  - etransitivity; [|apply (fi_capacity _ Hi)]. rewrite <- !size_dom. apply subseteq_size.
    intros j [o' (o & Ho & _)%Hsh]%elem_of_dom. apply elem_of_dom. eauto.
  - intros p j o' Hpr (o & Ho & _ & _ & E)%Hsh Hin.
    eapply (fi_unproved _ Hi p); [|done|set_solver]. by eapply sublist_subseteq.
  - eapply sublist_NoDup; [apply (fi_one_proof _ Hi)|]. by apply fmap_sublist.
  - etransitivity; [by apply sublist_length|apply Hi].
Qed.

Lemma shrink_set s j o o' :
  operations s !! j = Some o → op_job_id o' = op_job_id o → op_intent o' = op_intent o →
  pending_controllers o' ⊆ pending_controllers o →
  shrinks s (set_operations s (<[j := o']> (operations s))).
Proof.
  intros Ho H1 H2 H3 j' o1. simpl. rewrite lookup_insert. case_decide; naive_solver.
Qed.

Lemma shrink_delete s j : shrinks s (set_operations s (delete j (operations s))).
Proof. intros j' o1. simpl. rewrite lookup_delete. case_decide; naive_solver. Qed.

Lemma push_inv s p :
  fabric_inv s → (∀ q, q ∈ proofs s → proof_controller q ≠ proof_controller p) →
  (∀ j o, operations s !! j = Some o → proof_controller p ∉ pending_controllers o) →
  fabric_inv (set_proofs s (push_proof (proofs s) p)).
Proof.
  intros Hi Hnew Hpend.
  assert (NoDup (proof_controller <$> proofs s ++ [p])) as Hnd.
  { rewrite fmap_app. apply list.NoDup_app. split_and!; [apply Hi| |apply NoDup_singleton].
    intros c (q & -> & Hq)%list_elem_of_fmap E%list_elem_of_singleton. by apply (Hnew q). }
  assert (sublist (push_proof (proofs s) p) (proofs s ++ [p])) as Hsub.
  { unfold push_proof. destruct (_ <? _)%nat; [|done]. destruct (proofs s ++ [p]); [done|].
    by constructor. }
  split; simpl; try apply Hi.
  - intros q j o Hq Ho. eapply sublist_subseteq in Hq; [|done].
    apply elem_of_app in Hq as [Hq| ->%list_elem_of_singleton]; [|eauto]. by eapply fi_unproved.
  - eapply sublist_NoDup; [exact Hnd|]. by apply fmap_sublist.
  - pose proof (fi_proofs _ Hi). unfold push_proof. destruct (_ <? _)%nat eqn:E.
    + assert (length (proofs s ++ [p]) = S (length (proofs s))) as Hl
        by (rewrite length_app; simpl; lia).
      destruct (proofs s ++ [p]); simpl in *; lia.
    + apply Nat.ltb_ge in E. done.
Qed.

Lemma mark_pending_ok s job cs s' :
  mark_pending s job cs = (s', Ok tt) →
  ∃ o, operations s !! job = Some o ∧
    (∀ j o', operations s !! j = Some o' → op_job_id o' ≠ job →
       pending_controllers o' ## list_to_set cs) ∧
    s' = set_proofs (set_operations s
           (<[job := set_pending o (pending_controllers o ∪ list_to_set cs)]> (operations s)))
           (filter (fun p => negb (contains cs (proof_controller p))) (proofs s)).
Proof.
  unfold mark_pending, lock. destruct (poisoned s); [done|].
  destruct (operations s !! job) as [o|] eqn:Ho; [|done].
  destruct (existsb _ _) eqn:E; [done|]. intros [= <-]. exists o. split_and!; [done| |done].
  intros j o' Hj Hne c Hc Hin%elem_of_list_to_set. apply not_true_iff_false in E. apply E.
  apply existsb_exists. exists o'. split.
  { apply list_elem_of_In, elem_of_values. eauto. }
  apply andb_true_iff. split; [apply negb_true_iff; by apply bool_decide_eq_false|].
  apply existsb_exists. exists c. split; [by apply list_elem_of_In|by apply bool_decide_eq_true].
Qed.

Lemma mark_pending_inv s job cs s' :
  fabric_inv s → mark_pending s job cs = (s', Ok tt) → fabric_inv s'.
Proof.
  intros Hi (o & Ho & Hdis & ->)%mark_pending_ok.
  assert (∀ j o', <[job := set_pending o (pending_controllers o ∪ list_to_set cs)]>
      (operations s) !! j = Some o' →
    ∃ o1, operations s !! j = Some o1 ∧ op_job_id o' = op_job_id o1 ∧
      op_intent o' = op_intent o1 ∧
      pending_controllers o' = pending_controllers o1 ∪ (if decide (j = job) then list_to_set cs else ∅))
    as Hold.
  { intros j o'. rewrite lookup_insert. case_decide as Hd; intros E; simplify_eq.
    - exists o. rewrite decide_True by done. done.
    - exists o'. rewrite decide_False by congruence. split_and!; try done. set_solver. }
  assert (∀ j o', operations s !! j = Some o' → j ≠ job →
    pending_controllers o' ## list_to_set cs) as Hdis'.
  { intros j o' Hj Hne. apply (Hdis _ _ Hj). by rewrite (fi_key _ Hi _ _ Hj). }
  split; simpl.
  - intros j o' (o1 & Ho1 & -> & _)%Hold. by eapply fi_key.
  - intros j o' (o1 & Ho1 & _ & -> & _)%Hold. by eapply fi_scope.
  - intros j1 o1' j2 o2' (o1 & Ho1 & _ & E1 & _)%Hold (o2 & Ho2 & _ & E2 & _)%Hold Hne.
    unfold disjoint_keys. rewrite E1, E2. by eapply fi_disjoint.
  - intros j1 o1' j2 o2' (o1 & Ho1 & _ & _ & ->)%Hold (o2 & Ho2 & _ & _ & ->)%Hold Hne.
    pose proof (fi_pending _ Hi _ _ _ _ Ho1 Ho2 Hne).
    pose proof (Hdis' _ _ Ho1). pose proof (Hdis' _ _ Ho2).
    do 2 case_decide; set_solver.
  - rewrite map_size_insert_Some by eauto. apply Hi.
  - intros p j o' [Hnc Hp]%list_elem_of_filter (o1 & Ho1 & _ & _ & ->)%Hold.
    pose proof (fi_unproved _ Hi _ _ _ Hp Ho1). apply Is_true_true, negb_true_iff in Hnc.
    apply bool_decide_eq_false in Hnc. case_decide; set_solver.
  - eapply sublist_NoDup; [apply (fi_one_proof _ Hi)|]. apply fmap_sublist, sublist_filter.
  - etransitivity; [apply sublist_length, sublist_filter|apply Hi].
Qed.

Lemma record_activation_ok s job c d keys s' :
  record_activation s job c d keys = (s', Ok tt) →
  ∃ o, operations s !! job = Some o ∧ c ∈ pending_controllers o ∧ is_blank d = false ∧
    s' = set_proofs (set_operations s
           (<[job := set_pending o (pending_controllers o ∖ {[c]})]> (operations s)))
           (push_proof (filter (fun p => negb (bool_decide (proof_controller p = c))) (proofs s))
              (mkProof c d (dedup (sort_keys keys)))).
Proof.
  unfold record_activation, lock. destruct (_ || _ || _) eqn:E; [done|]. reflect_bools.
  destruct (poisoned s); [done|]. destruct (operations s !! job) as [o|] eqn:Ho; [|done].
  destruct (negb _); [done|]. destruct (negb _) eqn:Hc; [done|]. reflect_bools.
  intros [= <-]. eauto.
Qed.

Lemma record_activation_inv s job c d keys s' :
  fabric_inv s → record_activation s job c d keys = (s', Ok tt) → fabric_inv s'.
Proof.
  intros Hi (o & Ho & Hc & _ & ->)%record_activation_ok.
  set (ops := <[job := _]> (operations s)). set (kept := filter _ (proofs s)).
  change (fabric_inv (set_proofs (mkRegistry ops kept (poisoned s))
    (push_proof (proofs (mkRegistry ops kept (poisoned s))) (mkProof c d (dedup (sort_keys keys)))))).
  apply push_inv; simpl.
  - eapply (shrink_inv s); [done| |apply sublist_filter].
    apply (shrink_set s job o); [done..|]. simpl. set_solver.
  - intros q [Hq _]%list_elem_of_filter. apply Is_true_true, negb_true_iff in Hq.
    by apply bool_decide_eq_false in Hq.
  - intros j o' Ho'. subst ops. rewrite lookup_insert in Ho'. case_decide as Hd.
    + simplify_eq. simpl. set_solver.
    + pose proof (fi_pending _ Hi _ _ _ _ Ho Ho' Hd). set_solver.
Qed.

Lemma exec_inv s c : fabric_inv s → fabric_inv (exec s c).1.
Proof.
  intros Hi. destruct c as [i job prev|job cs|job c|job c d keys|job|job|keys]; simpl.
  - destruct (admit_operation s i job prev) as [s' [o|e]] eqn:E; simpl.
    + by eapply admitted_inv, admit_inversion.
    + enough (s' = s) by by subst. revert E. unfold admit_operation, lock.
      repeat case_match; congruence.
  - destruct (mark_pending s job cs) as [s' [[]|e]] eqn:E; simpl.
    + by eapply mark_pending_inv.
    + enough (s' = s) by by subst. revert E. unfold mark_pending, lock. repeat case_match; congruence.
  - unfold clear_inactive, lock. destruct (poisoned s); [done|].
    destruct (operations s !! job) as [o|] eqn:Ho; [|done]. simpl.
    eapply (shrink_inv s); [done| |done]. apply (shrink_set s job o); [done..|]. simpl. set_solver.
  - destruct (record_activation s job c d keys) as [s' [[]|e]] eqn:E; simpl.
    + by eapply record_activation_inv.
    + enough (s' = s) by by subst. revert E. unfold record_activation, lock.
      repeat case_match; congruence.
  - unfold finish, lock. destruct (poisoned s); [done|].
    destruct (operations s !! job) as [o|]; [|done]. destruct (negb _); [done|]. simpl.
    eapply (shrink_inv s); [done|apply shrink_delete|done].
  - unfold release_failed, lock. destruct (poisoned s); [done|].
    destruct (operations s !! job) as [o|]; [|done]. simpl.
    eapply (shrink_inv s); [done|apply (shrink_delete s job)|]. apply sublist_filter.
  - unfold invalidate_and_require_clear, lock. destruct (_ || _); [done|].
    destruct (poisoned s); [done|]. destruct (existsb _ _); [done|]. simpl.
    eapply (shrink_inv s); [done|intros j o' Ho'; by exists o'|]. apply sublist_filter.
Qed.

Lemma run_inv cs : fabric_inv (run default_registry cs).
Proof.
  unfold run. induction cs as [|c cs IH] using rev_ind; [apply default_inv|].
  rewrite foldl_app. simpl. by apply exec_inv.
Qed.

(** The registry stays consistent under any sequence of calls, refused ones
    included: no scope key and no pending controller has two owners, a pending
    controller has no activation proof, a controller has at most one proof, and
    both capacities hold. *)
Theorem fabric_consistent cs : fabric_inv (run default_registry cs).
Proof. apply run_inv. Qed.

(** ** Proofs *)

(** A call that makes the evidence of [p] stale. *)
Definition disturbs (s : FabricOperationRegistry) (c : call) (p : ActivationProof) : Prop :=
  (exec s c).2 = true ∧
  match c with
  | MarkPending _ cs => proof_controller p ∈ cs
  | RecordActivation _ c _ _ => proof_controller p = c
  | Invalidate keys => ∃ k, k ∈ proof_scope_keys p ∧ k ∈ keys
  | _ => False
  end.

Definition publishes (s : FabricOperationRegistry) (c : call) (p : ActivationProof) : Prop :=
  (exec s c).2 = true ∧
  ∃ job keys, c = RecordActivation job (proof_controller p) (proof_digest p) keys ∧
    proof_scope_keys p = dedup (sort_keys keys).

Lemma exec_refused s c : (exec s c).2 = false → (exec s c).1 = s.
Proof.
  destruct c; simpl; unfold admit_operation, mark_pending, clear_inactive, record_activation, finish,
    release_failed, invalidate_and_require_clear, lock; intros H; repeat case_match; done.
Qed.

Lemma elem_of_push l p q : q ∈ push_proof l p → q ∈ l ∨ q = p.
Proof.
  unfold push_proof. intros Hq. assert (q ∈ l ++ [p]) as Hin.
  { destruct (_ <? _)%nat; [|done]. destruct (l ++ [p]); [done|]. by right. }
  apply elem_of_app in Hin as [?|?%list_elem_of_singleton]; auto.
Qed.

Lemma push_keeps l p q :
  q ∈ l → q ∈ push_proof l p ∨ (head l = Some q ∧ length l = MAX_ACTIVATION_PROOFS) ∨
    (MAX_ACTIVATION_PROOFS < length l)%nat.
Proof.
  intros Hq. unfold push_proof. destruct (_ <? _)%nat eqn:E.
  - apply Nat.ltb_lt in E. rewrite length_app in E. cbn [length] in E.
    destruct l as [|x l]; [by apply not_elem_of_nil in Hq|].
    apply elem_of_cons in Hq as [->|Hq].
    + right. destruct (decide (length (x :: l) = MAX_ACTIVATION_PROOFS)); [by left|right; lia].
    + left. simpl. set_solver.
  - left. set_solver.
Qed.

(** Where the proofs after a call come from. *)
Lemma proof_origin s c p :
  p ∈ proofs (exec s c).1 → publishes s c p ∨ (p ∈ proofs s ∧ ¬ disturbs s c p).
Proof.
  destruct (exec s c).2 eqn:Hok.
  2:{ rewrite exec_refused by done. intros Hp. right. split; [done|]. unfold disturbs.
      rewrite Hok. naive_solver. }
  unfold publishes, disturbs. rewrite Hok.
  destruct c as [i job prev|job cs|job c|job c d keys|job|job|keys]; simpl in Hok |- *.
  - intros Hp. right. split; [|naive_solver]. revert Hp. unfold admit_operation, lock.
    repeat case_match; done.
  - destruct (mark_pending s job cs) as [s' [[]|e]] eqn:E; [|done]. simpl.
    apply mark_pending_ok in E as (o & _ & _ & ->). simpl. intros [Hn Hp]%list_elem_of_filter.
    right. split; [done|]. intros [_ Hin]. apply Is_true_true, negb_true_iff in Hn.
    by apply bool_decide_eq_false in Hn.
  - intros Hp. right. split; [|naive_solver]. revert Hp. unfold clear_inactive, lock.
    repeat case_match; done.
  - destruct (record_activation s job c d keys) as [s' [[]|e]] eqn:E; [|done]. simpl.
    apply record_activation_ok in E as (o & _ & _ & _ & ->). simpl.
    intros [[Hn Hp]%list_elem_of_filter| ->]%elem_of_push.
    + right. split; [done|]. apply Is_true_true, negb_true_iff in Hn.
      apply bool_decide_eq_false in Hn. naive_solver.
    + left. split; [done|]. simpl. eauto.
  - intros Hp. right. split; [|naive_solver]. revert Hp. unfold finish, lock.
    repeat case_match; done.
  - intros Hp. right. split; [|naive_solver]. revert Hp. unfold release_failed, lock.
    repeat case_match; try done. simpl. by intros [_ ?]%list_elem_of_filter.
  - revert Hok. unfold invalidate_and_require_clear, lock.
    destruct (_ || _); [done|]. destruct (poisoned s); [done|]. destruct (existsb _ _); [done|].
    intros _ [Hn Hp]%list_elem_of_filter. right. split; [done|]. intros [_ (k & Hk & Hin)].
    apply Is_true_true, negb_true_iff, not_true_iff_false in Hn. apply Hn. apply existsb_exists.
    exists k. split; [by apply list_elem_of_In|by apply bool_decide_eq_true].
Qed.

(** [p] was published by a call of [cs], and no later call disturbed it. *)
Definition current (cs : list call) (p : ActivationProof) : Prop :=
  ∃ pre c post, cs = pre ++ c :: post ∧ publishes (run default_registry pre) c p ∧
    ∀ mid d rest, post = mid ++ d :: rest →
      ¬ disturbs (run default_registry (pre ++ c :: mid)) d p.

Lemma run_snoc s cs c : run s (cs ++ [c]) = (exec (run s cs) c).1.
Proof. unfold run. by rewrite foldl_app. Qed.

Lemma proofs_current cs p : p ∈ proofs (run default_registry cs) → current cs p.
Proof.
  induction cs as [|c cs IH] using rev_ind; [intros Hp; by apply not_elem_of_nil in Hp|].
  rewrite run_snoc. intros [Hpub|[Hp Hnd]]%proof_origin.
  - exists cs, c, []. split_and!; [done|done|]. intros [|??] ???; simplify_eq.
  - destruct (IH Hp) as (pre & c0 & post & -> & Hpub & Hpost).
    exists pre, c0, (post ++ [c]). split_and!; [by rewrite <- app_assoc|done|].
    intros mid d rest E. destruct rest as [|x rest _] using rev_ind.
    + apply app_inj_tail in E as [-> ->]. done.
    + rewrite app_comm_cons, app_assoc in E. apply app_inj_tail in E as [-> ->].
      by eapply Hpost.
Qed.

(** C31. A proof is never stale: when the registry reports that a controller was
    activated with a digest, some earlier call recorded exactly that activation,
    and since then no call has marked the controller pending, recorded another
    activation of it, or invalidated an alias of its proof; nor is the
    controller pending under any owner. *)
Theorem activation_proof_sound cs c d s' :
  has_activation_proof (run default_registry cs) c d = (s', Ok true) →
  (∃ keys, current cs (mkProof c d keys)) ∧
  (∀ j o, operations (run default_registry cs) !! j = Some o → c ∉ pending_controllers o).
Proof.
  unfold has_activation_proof, lock. destruct (poisoned _); [done|]. intros [= _ E].
  apply existsb_exists in E as ([c' d' keys] & Hp & E). simpl in E.
  apply list_elem_of_In in Hp. reflect_bools. subst. split.
  - exists keys. by apply proofs_current.
  - intros j o Ho. by eapply (fi_unproved _ (run_inv cs) _ j o Hp).
Qed.

(** Evidence is not lost: a call that does not concern a proof keeps it, and so
    does the release of a failed operation, except that recording a further
    activation drops the oldest proof once 1024 are held. *)
Theorem activation_proof_kept cs c p :
  p ∈ proofs (run default_registry cs) → ¬ disturbs (run default_registry cs) c p →
  p ∈ proofs (run default_registry (cs ++ [c])) ∨
  (∃ job ctl d keys, c = RecordActivation job ctl d keys) ∧
  (MAX_ACTIVATION_PROOFS ≤ length (proofs (run default_registry cs)))%nat ∧
  head (proofs (run default_registry cs)) = Some p.
Proof.
  rewrite run_snoc. pose proof (run_inv cs) as Hi. revert Hi.
  generalize (run default_registry cs). intros s Hi Hp Hnd.
  destruct (exec s c).2 eqn:Hok; [|left; by rewrite exec_refused].
  unfold disturbs in Hnd. rewrite Hok in Hnd.
  destruct c as [i job prev|job ctls|job c|job c d keys|job|job|keys]; simpl in Hok |- *.
  - left. unfold admit_operation, lock. repeat case_match; done.
  - left. destruct (mark_pending s job ctls) as [s' [[]|e]] eqn:E; [|done].
    apply mark_pending_ok in E as (o & _ & _ & ->). simpl. apply list_elem_of_filter.
    split; [|done]. apply Is_true_true, negb_true_iff, bool_decide_eq_false. naive_solver.
  - left. unfold clear_inactive, lock. repeat case_match; done.
  - destruct (record_activation s job c d keys) as [s' [[]|e]] eqn:E; [|done].
    apply record_activation_ok in E as (o & _ & _ & _ & ->). simpl.
    set (kept := filter _ (proofs s)).
    assert (kept `sublist_of` proofs s) as Hsub by apply sublist_filter.
    assert (p ∈ kept) as Hk.
    { apply list_elem_of_filter. split; [|done].
      apply Is_true_true, negb_true_iff, bool_decide_eq_false. naive_solver. }
    pose proof (sublist_length _ _ Hsub) as Hlen. pose proof (fi_proofs _ Hi) as Hcap.
    destruct (push_keeps kept (mkProof c d (dedup (sort_keys keys))) p Hk)
      as [?|[[Hh Hl]|?]]; [by left| |lia].
    right. split_and!; [eauto|lia|]. assert (kept = proofs s) as <-; [|done].
    apply sublist_full; [done|lia].
  - left. unfold finish, lock. repeat case_match; done.
  - left. unfold release_failed, lock. destruct (poisoned s); [done|].
    destruct (operations s !! job) as [o|] eqn:Ho; [|done]. simpl. apply list_elem_of_filter.
    split; [|done]. apply Is_true_true, negb_true_iff, bool_decide_eq_false.
    by eapply fi_unproved.
  - left. unfold invalidate_and_require_clear, lock. destruct (_ || _); [done|].
    destruct (poisoned s); [done|]. destruct (existsb _ _); [done|]. simpl.
    apply list_elem_of_filter. split; [|done].
    apply Is_true_true, negb_true_iff, not_true_iff_false. intros (k & Hk & Hin)%existsb_exists.
    apply Hnd. split; [done|]. exists k. apply list_elem_of_In in Hk.
    by apply bool_decide_eq_true in Hin.
Qed.

(** ** Admission *)

Lemma run_unpoisoned cs : poisoned (run default_registry cs) = false.
Proof.
  induction cs as [|c cs IH] using rev_ind; [done|]. rewrite run_snoc, <- IH.
  generalize (run default_registry cs). intros s.
  destruct c; simpl; unfold admit_operation, mark_pending, clear_inactive, record_activation, finish,
    release_failed, invalidate_and_require_clear, lock; repeat case_match; done.
Qed.

Definition overlapping (s : FabricOperationRegistry) (keys : list string)
    : list FabricOperation :=
  filter (fun o => overlaps (contains keys) o) (values (operations s)).

Lemma find_overlapping_eq s keys :
  poisoned s = false → find_overlapping s keys = (s, Ok (overlapping s keys)).
Proof. unfold find_overlapping, lock. by intros ->. Qed.

Lemma overlapping_search s i i' :
  normalize i = Ok i' →
  filter (fun o => overlaps (fun key => is_ok (binary_search (scope_keys i') key)) o)
    (values (operations s)) = overlapping s (scope_keys i).
Proof.
  intros (Hs & _ & _ & Hk)%normalize_ok. apply list_filter_iff. intros o.
  rewrite overlaps_search by done.
  assert (overlaps (contains (scope_keys i')) o = overlaps (contains (scope_keys i)) o) as ->;
    [|done].
  apply eq_true_iff_eq. rewrite !overlaps_spec. unfold contains.
  setoid_rewrite bool_decide_eq_true. by setoid_rewrite Hk.
Qed.

(** The conditions both kinds of admission share. *)
Definition admissible (s : FabricOperationRegistry) i job i' : Prop :=
  normalize i = Ok i' ∧ is_blank job = false ∧ operations s !! job = None.

Lemma admit_admissible s i job prev i' :
  poisoned s = false → admissible s i job i' →
  admit_operation s i job prev =
    match overlapping s (scope_keys i) with
    | _ :: _ :: _ => (s, Err (already_exists "multiple fabric operations own overlapping scope"))
    | l =>
        match admit_pending s i' (head l) prev with
        | Err e => (s, Err e)
        | Ok pending =>
            (set_operations s (<[job := mkOperation job i' pending]>
               (match prev with Some p => delete p (operations s) | None => operations s end)),
             Ok (mkOperation job i' pending))
        end
    end.
Proof.
  intros Hp (Hn & Hb & Hj). unfold admit_operation. rewrite Hn, Hb. unfold lock. rewrite Hp.
  rewrite bool_decide_eq_false_2 by (rewrite Hj; by intros [? ?]).
  rewrite (overlapping_search s i i' Hn).
  by destruct (overlapping s (scope_keys i)) as [|? [|??]].
Qed.

Lemma admit_ok_admissible s i job prev o :
  (admit_operation s i job prev).2 = Ok o → ∃ i', admissible s i job i'.
Proof.
  unfold admit_operation, admissible. destruct (normalize i) as [i'|]; [|done].
  destruct (is_blank job); [done|]. unfold lock. destruct (poisoned s); [done|].
  case_bool_decide as Ho; [done|]. apply eq_None_not_Some in Ho. eauto.
Qed.

(** Admission agrees with [find_overlapping], although the one searches the
    sorted keys of the intent and the other scans the caller's: a new operation
    is admitted exactly when the intent is valid, the job owns nothing, nothing
    overlaps and there is room; a transfer exactly when the single overlapping
    operation is the named job's, with the same keys and rule. *)
Theorem admission_exact cs i job :
  let s := run default_registry cs in
  ((∃ o, (admit_operation s i job None).2 = Ok o) ↔
     ∃ i', admissible s i job i' ∧ find_overlapping s (scope_keys i) = (s, Ok []) ∧
       (size (operations s) < MAX_OPERATIONS)%nat) ∧
  (∀ p, (∃ o, (admit_operation s i job (Some p)).2 = Ok o) ↔
     ∃ i' po, admissible s i job i' ∧ find_overlapping s (scope_keys i) = (s, Ok [po]) ∧
       op_job_id po = p ∧ op_intent po = i').
Proof.
  intros s. pose proof (run_unpoisoned cs) as Hu. fold s in Hu.
  rewrite !find_overlapping_eq by done. split.
  - split.
    + intros [o Ho]. destruct (admit_ok_admissible _ _ _ _ _ Ho) as [i' Ha]. exists i'.
      rewrite (admit_admissible _ _ _ _ _ Hu Ha) in Ho. split; [done|].
      destruct (overlapping s (scope_keys i)) as [|o1 [|]]; [|done|done].
      cbn [head admit_pending] in Ho. destruct (_ <=? _)%nat eqn:E; [done|].
      by apply Nat.leb_gt in E.
    + intros (i' & Ha & [= E] & Hc). rewrite (admit_admissible _ _ _ _ _ Hu Ha), E.
      cbn [head admit_pending]. rewrite (proj2 (Nat.leb_gt _ _) Hc). eauto.
  - intros p. split.
    + intros [o Ho]. destruct (admit_ok_admissible _ _ _ _ _ Ho) as [i' Ha].
      rewrite (admit_admissible _ _ _ _ _ Hu Ha) in Ho.
      destruct (overlapping s (scope_keys i)) as [|o1 [|]]; [done| |done].
      cbn [head admit_pending] in Ho. destruct (_ || _ || _) eqn:E; [done|]. reflect_bools.
      exists i', o1. split_and!; try done. destruct (op_intent o1), i'; simpl in *; congruence.
    + intros (i' & po & Ha & [= E] & Hp & Hi). rewrite (admit_admissible _ _ _ _ _ Hu Ha), E.
      cbn [head admit_pending]. rewrite Hp, Hi, !bool_decide_eq_true_2 by done. simpl. eauto.
Qed.

(** A transfer hands over the whole operation and fences the former owner: the
    new owner holds the same keys, rule and pending controllers, proofs are
    untouched, and every later call of the former owner is refused and changes
    nothing. *)
Theorem transfer_fences cs i job p s' o :
  admit_operation (run default_registry cs) i job (Some p) = (s', Ok o) →
  (∃ po, operations (run default_registry cs) !! p = Some po ∧ op_intent po = op_intent o ∧
     pending_controllers po = pending_controllers o) ∧
  operations s' !! job = Some o ∧ proofs s' = proofs (run default_registry cs) ∧
  (∀ ctls, mark_pending s' p ctls = (s', Err owner_changed)) ∧
  (∀ c, clear_inactive s' p c = (s', Err owner_changed)) ∧
  (∀ c d keys, exec s' (RecordActivation p c d keys) = (s', false)) ∧
  finish s' p = (s', Err owner_changed) ∧ release_failed s' p = (s', Err owner_changed).
Proof.
  intros Had. assert (poisoned s' = false) as Hu.
  { pose proof (run_unpoisoned (cs ++ [Admit i job (Some p)])) as H. rewrite run_snoc in H.
    simpl in H. by rewrite Had in H. }
  apply admit_inversion in Had; [|apply run_inv].
  destruct Had as [_ (_ & _ & Hnone) Hp Hpend _ Hops].
  destruct Hpend as (po & Hpo & Hint & Hpc).
  assert (operations s' !! p = None) as Hgone.
  { rewrite Hops, lookup_insert, lookup_delete. case_decide; [congruence|]. by case_decide. }
  unfold exec, drop_ok, mark_pending, clear_inactive, record_activation, finish, release_failed,
    lock. rewrite Hu, Hgone. split_and!; try done; [eauto|by rewrite Hops, lookup_insert_eq|].
  intros c d keys. by destruct (_ || _ || _).
Qed.

Lemma existsb_nil {A} (f : A → bool) l : existsb f l = false ↔ filter (fun x => f x) l = [].
Proof.
  induction l as [|x l IH]; [done|]. simpl. rewrite filter_cons. destruct (f x); simpl; [|done].
  done.
Qed.

(** An external mutation is cleared exactly when no operation owns an alias of
    its target, and then every proof that shares an alias is gone, all others
    are kept in order, and no operation is touched. *)
Theorem invalidation_gate cs keys :
  let s := run default_registry cs in
  let '(s', res) := invalidate_and_require_clear s keys in
  (res = Ok tt ↔
     keys ≠ [] ∧ (∀ k, k ∈ keys → is_blank k = false) ∧
     find_overlapping s keys = (s, Ok [])) ∧
  (res ≠ Ok tt → s' = s) ∧
  (res = Ok tt → operations s' = operations s ∧ proofs s' `sublist_of` proofs s ∧
     ∀ p, p ∈ proofs s' ↔ p ∈ proofs s ∧ ∀ k, k ∈ proof_scope_keys p → k ∉ keys).
Proof.
  intros s. pose proof (run_unpoisoned cs) as Hu. fold s in Hu.
  rewrite find_overlapping_eq by done. unfold invalidate_and_require_clear, lock. rewrite Hu.
  assert (existsb is_blank keys = false ↔ ∀ k, k ∈ keys → is_blank k = false) as Hblank.
  { rewrite <- not_true_iff_false, existsb_exists. setoid_rewrite <- not_true_iff_false.
    setoid_rewrite list_elem_of_In. naive_solver. }
  assert (existsb (overlaps (contains keys)) (values (operations s)) = false ↔
    overlapping s keys = []) as Hover.
  { apply existsb_nil. }
  destruct (_ || _) eqn:E.
  - split_and!; [|done|done]. split; [done|]. intros (Hn & Hb & _). apply Hblank in Hb.
    rewrite Hb, bool_decide_eq_false_2 in E by done. done.
  - reflect_bools. destruct (existsb (overlaps _) _) eqn:Hex.
    + split_and!; [|done|done]. split; [done|]. intros (_ & _ & [= Hn]). apply Hover in Hn. congruence.
    + pose proof (proj1 Hover eq_refl) as Hnil. split_and!; [|done|].
      * split; [|done]. intros _. split_and!; [done|by apply Hblank|by rewrite Hnil].
      * intros _. simpl. split_and!; [done|apply sublist_filter|]. intros p.
        rewrite list_elem_of_filter, Is_true_true, negb_true_iff, <- not_true_iff_false,
          existsb_exists. setoid_rewrite list_elem_of_In. unfold contains.
        setoid_rewrite bool_decide_eq_true. setoid_rewrite list_elem_of_In. naive_solver.
Qed.

Section witnesses.

Definition tray : ControllerIdentity := mkController "chassis" 1.
Definition intent : FabricOperationIntent := mkIntent ["b"; "a"; "b"] "rule".

Definition activated : list call :=
  [Admit intent "j1" None; MarkPending "j1" [tray];
   RecordActivation "j1" tray "digest" ["a"]].

Definition tray_proof : ActivationProof := mkProof tray "digest" ["a"].

Lemma activation_proof_sound_witness :
  (∃ keys, current activated (mkProof tray "digest" keys)) ∧
  (∀ j o, operations (run default_registry activated) !! j = Some o →
     tray ∉ pending_controllers o).
Proof.
  apply (activation_proof_sound activated tray "digest" (run default_registry activated)).
  vm_compute. reflexivity.
Defined.

Lemma activation_proof_kept_witness :
  tray_proof ∈ proofs (run default_registry (activated ++ [Finish "j1"])) ∨
  (∃ job ctl d keys, Finish "j1" = RecordActivation job ctl d keys) ∧
  (MAX_ACTIVATION_PROOFS ≤ length (proofs (run default_registry activated)))%nat ∧
  head (proofs (run default_registry activated)) = Some tray_proof.
Proof.
  apply (activation_proof_kept activated (Finish "j1") tray_proof); [|by intros [_ []]].
  assert (proofs (run default_registry activated) = [tray_proof]) as -> by (vm_compute; reflexivity).
  left.
Defined.

Definition unresolved : list call := [Admit intent "j1" None; MarkPending "j1" [tray]].
Definition taken_over : FabricOperation := mkOperation "j2" (mkIntent ["a"; "b"] "rule") {[tray]}.

Lemma transfer_fences_witness :
  ∃ s', (∃ po, operations (run default_registry unresolved) !! "j1" = Some po ∧
     op_intent po = op_intent taken_over ∧
     pending_controllers po = pending_controllers taken_over) ∧
  operations s' !! "j2" = Some taken_over ∧
  proofs s' = proofs (run default_registry unresolved) ∧
  (∀ ctls, mark_pending s' "j1" ctls = (s', Err owner_changed)) ∧
  (∀ c, clear_inactive s' "j1" c = (s', Err owner_changed)) ∧
  (∀ c d keys, exec s' (RecordActivation "j1" c d keys) = (s', false)) ∧
  finish s' "j1" = (s', Err owner_changed) ∧ release_failed s' "j1" = (s', Err owner_changed).
Proof.
  exists (run default_registry (unresolved ++ [Admit intent "j2" (Some "j1")])).
  apply (transfer_fences unresolved intent "j2" "j1").
  vm_compute. reflexivity.
Defined.
End witnesses.
