(* ===== verification/StageTimeline.v ===== *)
(** * Stage timelines

    [orchestrator/stage_timeline.rs]: the predefined stages of a long-running
    job, driven forward by a cursor, and [fail_job], which settles the timeline
    and the job together.

    An [Instant] is its monotonic reading in nanoseconds, passed to the methods
    that read the clock; of the wall-clock reading taken at creation only
    [timestamp_millis] is used.  Each [tracing] call is an event appended to
    the timeline's log.  [debug_assert!] in [warn_cursor_exhausted] is that of a
    release build, where it does nothing. *)

From S2P Require Import Prelude RustStd RmsError JobTypes EndpointScope Json.
From S2P Require Import RmsDomain JobStore JobRegistry JobHandle.
Local Open Scope string_scope.
Local Open Scope list_scope.

Module Timeline.
Inductive StageStatus :=
| Queued
| Running
| Completed
| Failed
| Skipped.

#[global] Instance StageStatus_eq_dec : EqDecision StageStatus.
Proof. solve_decision. Defined.

Definition as_str (s : StageStatus) : string :=
  match s with
  | Queued => "queued"
  | Running => "running"
  | Completed => "completed"
  | Failed => "failed"
  | Skipped => "skipped"
  end.

Record Stage := mkStage {
  name : string;
  description : string;
  status : StageStatus;
  message : string;
  started_at : option Z;
  finished_at : option Z;
  details : json;
}.

Definition Stage_new (n d : string) : Stage := mkStage n d Queued "" None None (JObject ∅).

(** What a [tracing] call of the timeline reports, next to the job, node and rack. *)
Inductive StageEvent :=
| StageStarting (stage description : string) (position total : nat)
| StageCompleted (stage : string) (position total : nat)
| StageSkipped (stage : string) (position total : nat)
| StageCancelled (stage error : string) (position total : nat)
| StageFailed (stage error : string) (position total : nat)
| CursorExhausted (transition : string) (cursor stage_count : nat).

Record StageTimeline := mkTimeline {
  stages : list Stage;
  cursor : nat;
  tl_job_id : string;
  tl_node : string;
  tl_rack : string;
  started_at_wall : Z;
  started_at_mono : Z;
  events : list (string * string * string * StageEvent);
}.

Definition with_stages (job_id : string) (l : list Stage) (wall mono : Z) : StageTimeline :=
  mkTimeline l 0 job_id "" "" wall mono [].

Definition new (wall mono : Z) : StageTimeline := with_stages "" [] wall mono.

Definition with_node_rack (t : StageTimeline) (node rack : string) : StageTimeline :=
  mkTimeline (stages t) (cursor t) (tl_job_id t) node rack (started_at_wall t)
    (started_at_mono t) (events t).

Definition set_stages (t : StageTimeline) (l : list Stage) : StageTimeline :=
  mkTimeline l (cursor t) (tl_job_id t) (tl_node t) (tl_rack t) (started_at_wall t)
    (started_at_mono t) (events t).
Definition advance (t : StageTimeline) : StageTimeline :=
  mkTimeline (stages t) (S (cursor t)) (tl_job_id t) (tl_node t) (tl_rack t)
    (started_at_wall t) (started_at_mono t) (events t).
Definition emit (t : StageTimeline) (e : StageEvent) : StageTimeline :=
  mkTimeline (stages t) (cursor t) (tl_job_id t) (tl_node t) (tl_rack t) (started_at_wall t)
    (started_at_mono t) (events t ++ [(tl_job_id t, tl_node t, tl_rack t, e)]).

Definition set_status (s : Stage) (st : StageStatus) : Stage :=
  mkStage (name s) (description s) st (message s) (started_at s) (finished_at s) (details s).

Definition current_name (t : StageTimeline) : option string := name <$> stages t !! cursor t.

(** The [started_at] of a stage that is started, or finished, at [now]. *)
Definition or_now (o : option Z) (now : Z) : option Z :=
  match o with Some i => Some i | None => Some now end.

Definition start_current (t : StageTimeline) (now : Z) : StageTimeline * option Stage :=
  match stages t !! cursor t with
  | None => (t, None)
  | Some s =>
      let s := mkStage (name s) (description s) Running (message s)
                 (or_now (started_at s) now) (finished_at s) (details s) in
      let t := set_stages t (<[cursor t := s]> (stages t)) in
      (emit t (StageStarting (name s) (description s) (cursor t + 1) (length (stages t))), Some s)
  end.

Definition start_stage (t : StageTimeline) (now : Z)
    : StageTimeline * result RmsError (string * string) :=
  let '(t, o) := start_current t now in
  (t, match o with
      | Some s => Ok (name s, description s)
      | None => Err (internal "stage list exhausted")
      end).

(** [details] that are the empty object leave what is recorded. *)
Definition is_empty_object (d : json) : bool :=
  match d with JObject m => bool_decide (m = ∅) | _ => false end.

Definition finish_stage (s : Stage) (st : StageStatus) (msg : string) (d : json) (now : Z)
    : Stage :=
  mkStage (name s) (description s) st
    (if bool_decide (msg = "") then message s else msg)
    (or_now (started_at s) now) (Some now)
    (if is_empty_object d then details s else d).

Definition finish_index (t : StageTimeline) (idx : nat) (st : StageStatus) (msg : string)
    (d : json) (now : Z) : StageTimeline :=
  set_stages t (alter (fun s => finish_stage s st msg d now) idx (stages t)).

Definition warn_cursor_exhausted (t : StageTimeline) (transition : string) : StageTimeline :=
  emit t (CursorExhausted transition (cursor t) (length (stages t))).

(** The name a log line gives the stage at the cursor. *)
Definition cursor_stage_name (t : StageTimeline) : string := default "" (current_name t).

Definition complete_current (t : StageTimeline) (d : json) (now : Z)
    : StageTimeline * option string :=
  if (length (stages t) <=? cursor t)%nat
  then (warn_cursor_exhausted t "complete_current", None)
  else
    let t := finish_index t (cursor t) Completed "" d now in
    let t := emit t (StageCompleted (cursor_stage_name t) (cursor t + 1) (length (stages t))) in
    let t := advance t in
    (t, current_name t).

Definition skip_current (t : StageTimeline) (d : json) (now : Z)
    : StageTimeline * option string :=
  if (length (stages t) <=? cursor t)%nat
  then (warn_cursor_exhausted t "skip_current", None)
  else
    let t := finish_index t (cursor t) Skipped "" d now in
    let t := emit t (StageSkipped (cursor_stage_name t) (cursor t + 1) (length (stages t))) in
    let t := advance t in
    (t, current_name t).

Definition fail_current (t : StageTimeline) (cancelled : bool) (msg : string) (d : json)
    (now : Z) : StageTimeline :=
  if (cursor t <? length (stages t))%nat then
    let t := finish_index t (cursor t) Failed msg d now in
    let n := cursor_stage_name t in
    emit t (if cancelled
            then StageCancelled n msg (cursor t + 1) (length (stages t))
            else StageFailed n msg (cursor t + 1) (length (stages t)))
  else warn_cursor_exhausted t "fail_current".

(** One turn of the loop of [skip_remaining]. *)
Definition skip_index (t : StageTimeline) (idx : nat) : StageTimeline :=
  match stages t !! idx with
  | Some s =>
      if bool_decide (status s = Queued) then
        emit (set_stages t (<[idx := set_status s Skipped]> (stages t)))
          (StageSkipped (name s) (idx + 1) (length (stages t)))
      else t
  | None => t
  end.

Definition skip_remaining (t : StageTimeline) : StageTimeline :=
  foldl skip_index t (seq (cursor t) (length (stages t) - cursor t)).

(** ** Serialization *)

(** [as i64], and [i64] arithmetic in a release build. *)
Definition wrap_i64 (z : Z) : Z := ((z + 2 ^ 63) `mod` 2 ^ 64 - 2 ^ 63)%Z.

(** [later.duration_since(earlier).as_millis()]; it saturates at zero. *)
Definition millis_since (later earlier : Z) : Z := (Z.max 0 (later - earlier) `div` 1000000)%Z.

Definition to_wall_ms (t : StageTimeline) (i : Z) : Z :=
  wrap_i64 (started_at_wall t + wrap_i64 (millis_since i (started_at_mono t))).

(** An [i64] as a JSON number. *)
Definition jint (z : Z) : json :=
  JNumber (if (z <? 0)%Z then NegInt z else PosInt (Z.to_N z)).

Definition started_at_ms (t : StageTimeline) (s : Stage) : Z :=
  default 0%Z (to_wall_ms t <$> started_at s).
Definition finished_at_ms (t : StageTimeline) (s : Stage) : Z :=
  default 0%Z (to_wall_ms t <$> finished_at s).
Definition duration_ms (t : StageTimeline) (s : Stage) : Z :=
  match started_at s, finished_at s with
  | Some _, Some _ => wrap_i64 (finished_at_ms t s - started_at_ms t s)
  | _, _ => 0
  end.

Definition stage_json (t : StageTimeline) (s : Stage) : json :=
  JObject (list_to_map
    [("name", JString (name s)); ("job_id", JString (tl_job_id t));
     ("status", JString (as_str (status s))); ("description", JString (description s));
     ("message", JString (message s)); ("started_at_ms", jint (started_at_ms t s));
     ("finished_at_ms", jint (finished_at_ms t s)); ("duration_ms", jint (duration_ms t s));
     ("details", details s)]).

(** The loop of [to_json]: the name taken so far, and the stages serialized. *)
Definition to_json_step (t : StageTimeline) (acc : string * list json) (s : Stage)
    : string * list json :=
  (if bool_decide (acc.1 = "") && bool_decide (status s = Running) then name s else acc.1,
   acc.2 ++ [stage_json t s]).

Definition to_json (t : StageTimeline) (now elapsed_now : Z) : json :=
  let '(current, l) := foldl (to_json_step t) ("", []) (stages t) in
  JObject (list_to_map
    [("started_at_ms", jint (started_at_wall t)); ("updated_at_ms", jint (to_wall_ms t now));
     ("total_duration_ms", jint (wrap_i64 (millis_since elapsed_now (started_at_mono t))));
     ("current_stage", JString current); ("stage_index", jnat (cursor t));
     ("stage_count", jnat (length (stages t))); ("stages", JArray l)]).

(** ** [fail_job] *)

Section fail_job.
Context `{SerdeJson} {W : Type}.

Definition fail_job (t : StageTimeline) (r : Registry.JobRegistry (W := W))
    (h : JobHandle) (outcome error : string) (d : json)
    (build_result_json : string → StageTimeline → string) (now : Z) (job_now : clock)
    : StageTimeline * Registry.JobRegistry (W := W) :=
  let t := fail_current t (bool_decide (outcome = "cancelled")) error d now in
  let t := skip_remaining t in
  let result_json := build_result_json outcome t in
  (t, fail r h
        (with_result_json (JobFailure_new (anyhow_of_code JobErrorM.Other) error) result_json)
        job_now).
End fail_job.
End Timeline.
