(* ===== verification/StageTimelineTheorems.v ===== *)
(** * What a stage timeline guarantees

    The invariant of [StageTimeline] under any sequence of transitions at
    non-decreasing instants, what [fail_job] leaves behind, and what [to_json]
    reports. *)

From S2P Require Import Prelude RustStd RmsError JobTypes EndpointScope Json.
From S2P Require Import RmsDomain JobStore JobStoreProofs JobRegistry JobRegistryProofs.
From S2P Require Import JobEventProofs JobExamples JobHandle StageTimeline.
Import Timeline.
Local Open Scope string_scope.
Local Open Scope list_scope.

(** ** Transitions *)

Inductive move :=
| Start
| Complete (d : json)
| Skip (d : json)
| Fail (cancelled : bool) (msg : string) (d : json)
| SkipRemaining.

Definition drive (t : StageTimeline) (m : move) (now : Z) : StageTimeline :=
  match m with
  | Start => (start_current t now).1
  | Complete d => (complete_current t d now).1
  | Skip d => (skip_current t d now).1
  | Fail c msg d => fail_current t c msg d now
  | SkipRemaining => skip_remaining t
  end.

Definition planned (plan : list (string * string)) : list Stage :=
  (fun p => Stage_new p.1 p.2) <$> plan.

(** [driven plan wall mono last t]: a timeline of the stages [plan], created at
    [wall] and [mono], driven by any transitions up to the instant [last]. *)
Inductive driven (plan : list (string * string)) (wall mono : Z) : Z → StageTimeline → Prop :=
| driven_new job node rack :
    driven plan wall mono mono
      (with_node_rack (with_stages job (planned plan) wall mono) node rack)
| driven_move last now t m :
    driven plan wall mono last t → (last ≤ now)%Z → driven plan wall mono now (drive t m now).

(** ** Invariant *)

(** The stage at position [i] of a timeline whose cursor is at [c]. *)
Record stage_ok (mono last : Z) (c i : nat) (s : Stage) : Prop := {
  so_before : (i < c)%nat → (status s = Completed ∨ status s = Skipped) ∧ is_Some (finished_at s);
  so_after : (c < i)%nat → (status s = Queued ∨ status s = Skipped) ∧
    started_at s = None ∧ finished_at s = None ∧ message s = "";
  so_queued : status s = Queued → started_at s = None ∧ finished_at s = None;
  so_running : status s = Running → is_Some (started_at s);
  so_done : status s = Completed ∨ status s = Failed → is_Some (finished_at s);
  so_started : ∀ a, started_at s = Some a → (mono ≤ a ≤ last)%Z;
  so_finished : ∀ b, finished_at s = Some b →
    ∃ a, started_at s = Some a ∧ (a ≤ b ≤ last)%Z;
}.

Record timeline_inv (plan : list (string * string)) (wall mono last : Z) (t : StageTimeline)
    : Prop := {
  ti_plan : (fun s => (name s, description s)) <$> stages t = plan;
  ti_anchor : started_at_wall t = wall ∧ started_at_mono t = mono ∧ (mono ≤ last)%Z;
  ti_cursor : (cursor t ≤ length (stages t))%nat;
  ti_stage : ∀ i s, stages t !! i = Some s → stage_ok mono last (cursor t) i s;
  ti_order : ∀ i j si sj b a, stages t !! i = Some si → stages t !! j = Some sj → (i < j)%nat →
    finished_at si = Some b → started_at sj = Some a → (b ≤ a)%Z;
}.

Lemma new_inv plan wall mono job node rack :
  timeline_inv plan wall mono mono
    (with_node_rack (with_stages job (planned plan) wall mono) node rack).
Proof.
  assert (∀ i s, planned plan !! i = Some s → ∃ p, s = Stage_new p.1 p.2) as Hs.
  { intros i s. unfold planned. rewrite list_lookup_fmap.
    destruct (plan !! i); [|done]. intros [= <-]. eauto. }
  split; simpl.
  - unfold planned. rewrite <- list_fmap_compose. clear. induction plan as [|[n d] plan IH]; [done|].
    by rewrite fmap_cons, IH.
  - done.
  - lia.
  - intros i s [p ->]%Hs. split; simpl; naive_solver lia.
  - intros i j si sj b a [p ->]%Hs. done.
Qed.

(** A transition changes at most the stage at the cursor, keeping its name. *)
Record moves (now : Z) (t t' : StageTimeline) : Prop := {
  mv_anchor : started_at_wall t' = started_at_wall t ∧ started_at_mono t' = started_at_mono t;
  mv_cursor : cursor t' = cursor t ∨
    cursor t' = S (cursor t) ∧ ∃ s', stages t' !! cursor t = Some s' ∧
      (status s' = Completed ∨ status s' = Skipped) ∧ is_Some (finished_at s');
  mv_stages : ∀ i, i ≠ cursor t → stages t' !! i = stages t !! i;
  mv_current : ∀ s', stages t' !! cursor t = Some s' → ∃ s, stages t !! cursor t = Some s ∧
    name s' = name s ∧ description s' = description s ∧
    started_at s' = or_now (started_at s) now ∧
    (finished_at s' = Some now ∨ finished_at s' = finished_at s ∧ status s' = Running) ∧
    status s' ≠ Queued;
  mv_length : length (stages t') = length (stages t);
}.

Lemma stage_ok_later mono last now c i s :
  (last ≤ now)%Z → stage_ok mono last c i s → stage_ok mono now c i s.
Proof.
  intros Hl [H1 H2 H3 H4 H5 H6 H7]. split; try done.
  - intros a Ha. specialize (H6 a Ha). lia.
  - intros b Hb. destruct (H7 b Hb) as (a & ? & ?). exists a. split; [done|lia].
Qed.

(** The stage a transition rewrites is well formed wherever the cursor ends. *)
Lemma current_ok mono last now c c' s s' :
  (mono ≤ last ≤ now)%Z → stage_ok mono last c c s →
  c' = c ∨ c' = S c ∧ (status s' = Completed ∨ status s' = Skipped) ∧ is_Some (finished_at s') →
  started_at s' = or_now (started_at s) now →
  finished_at s' = Some now ∨ finished_at s' = finished_at s ∧ status s' = Running →
  status s' ≠ Queued → stage_ok mono now c' c s'.
Proof.
  intros Hl [_ _ _ _ _ H6 H7] Hc Hs Hf Hq.
  assert (∃ a, started_at s' = Some a ∧ (mono ≤ a ≤ now)%Z) as (a & Ha & Ha').
  { rewrite Hs. destruct (started_at s) as [a|]; simpl; [|exists now; split; [done|lia]].
    exists a. specialize (H6 a eq_refl). split; [done|lia]. }
  split.
  - intros Hlt. destruct Hc as [->|(-> & ? & ?)]; [lia|done].
  - intros Hlt. destruct Hc as [->|(-> & ? & ?)]; lia.
  - done.
  - rewrite Ha. eauto.
  - intros Hd. destruct Hf as [->|[_ Hr]]; [eauto|]. rewrite Hr in Hd. naive_solver.
  - intros a'. rewrite Ha. naive_solver lia.
  - intros b Hb. exists a. split; [done|]. destruct Hf as [Hf|[Hf _]]; rewrite Hf in Hb.
    + simplify_eq. lia.
    + destruct (H7 b Hb) as (a0 & Ha0 & ?). rewrite Hs, Ha0 in Ha. simplify_eq/=. lia.
Qed.

Lemma moves_inv plan wall mono last now t t' :
  timeline_inv plan wall mono last t → (last ≤ now)%Z → moves now t t' →
  timeline_inv plan wall mono now t'.
Proof.
  intros [Hp (Hw & Hm & Hml) Hc Hs Ho] Hl [[Aw Am] Mc Ms Mcur Ml].
  assert (∀ i s', stages t' !! i = Some s' → i ≠ cursor t → stages t !! i = Some s') as Hold
    by (intros i s' H Hi; by rewrite <- Ms).
  split.
  - rewrite <- Hp. apply list_eq. intros i. rewrite !list_lookup_fmap.
    destruct (decide (i = cursor t)) as [->|Hne]; [|by rewrite Ms].
    destruct (stages t' !! cursor t) as [s'|] eqn:E.
    + destruct (Mcur _ eq_refl) as (s & -> & Hn & Hd & _). simpl. congruence.
    + apply lookup_ge_None in E. rewrite (lookup_ge_None_2 (stages t)); [done|lia].
  - split_and!; [congruence..|lia].
  - destruct Mc as [->|(-> & s' & Hs' & _)]; [lia|]. apply lookup_lt_Some in Hs'. lia.
  - intros i s' Hi. destruct (decide (i = cursor t)) as [->|Hne].
    + destruct (Mcur _ Hi) as (s & Hsc & _ & _ & H1 & H2 & H3).
      eapply (current_ok mono last); eauto.
      destruct Mc as [?|(? & s1 & Hs1 & ?)]; [by left|right]. simplify_eq. naive_solver.
    + pose proof (Hs _ _ (Hold _ _ Hi Hne)) as Hok.
      eapply stage_ok_later in Hok; [|done]. destruct Mc as [->|(-> & _)]; [done|].
      destruct Hok as [H1 H2 H3 H4 H5 H6 H7]. split; try done; intros; [apply H1|apply H2]; lia.
  - intros i j si sj b a Hi Hj Hij Hb Ha.
    destruct (decide (i = cursor t)) as [->|Hi'].
    + apply Hold in Hj; [|lia]. destruct (so_after _ _ _ _ _ (Hs _ _ Hj) Hij) as (_ & Hn & _).
      congruence.
    + apply Hold in Hi; [|done]. destruct (decide (j = cursor t)) as [->|Hj'].
      * destruct (Mcur _ Hj) as (s & Hsc & _ & _ & H1 & _). rewrite H1 in Ha.
        destruct (started_at s) as [a0|] eqn:E; injection Ha as <-;
          [exact (Ho _ _ _ _ _ _ Hi Hsc Hij Hb E)|].
        destruct (so_finished _ _ _ _ _ (Hs _ _ Hi) _ Hb) as (? & _ & ?). lia.
      * apply Hold in Hj; [|done]. exact (Ho _ _ _ _ _ _ Hi Hj Hij Hb Ha).
Qed.

(** *** Each transition *)

Record touches (now : Z) (f : Stage → Stage) : Prop := {
  to_name : ∀ s, name (f s) = name s ∧ description (f s) = description s;
  to_started : ∀ s, started_at (f s) = or_now (started_at s) now;
  to_finished : ∀ s, finished_at (f s) = Some now ∨
    finished_at (f s) = finished_at s ∧ status (f s) = Running;
  to_status : ∀ s, status (f s) ≠ Queued;
}.

Lemma finish_touches st msg d now :
  st ≠ Queued → touches now (fun s => finish_stage s st msg d now).
Proof. intros. split; simpl; auto. Qed.

Lemma moves_at now t t' f :
  touches now f → stages t' = alter f (cursor t) (stages t) →
  started_at_wall t' = started_at_wall t ∧ started_at_mono t' = started_at_mono t →
  cursor t' = cursor t ∨ cursor t' = S (cursor t) ∧ (cursor t < length (stages t))%nat ∧
    (∀ s, (status (f s) = Completed ∨ status (f s) = Skipped) ∧ is_Some (finished_at (f s))) →
  moves now t t'.
Proof.
  intros [H1 H2 H3 H4] Hst Ha Hc. split; [done| | | |].
  - destruct Hc as [?|(? & Hlt & Hf)]; [by left|right]. split; [done|].
    apply lookup_lt_is_Some in Hlt as [s Hs]. exists (f s).
    rewrite Hst, list_lookup_alter_eq, Hs. naive_solver.
  - intros i Hi. by rewrite Hst, list_lookup_alter_ne.
  - intros s'. rewrite Hst, list_lookup_alter_eq. intros (s & Hs & ->)%fmap_Some.
    exists s. destruct (H1 s). done.
  - by rewrite Hst, length_alter.
Qed.

Lemma moves_exhausted now t t' :
  (length (stages t) ≤ cursor t)%nat → stages t' = stages t → cursor t' = cursor t →
  started_at_wall t' = started_at_wall t ∧ started_at_mono t' = started_at_mono t →
  moves now t t'.
Proof.
  intros Hl Hst Hc Ha. split; [done|by left|by rewrite Hst| |by rewrite Hst].
  intros s'. rewrite Hst. intros Hs%lookup_lt_Some. lia.
Qed.

Lemma start_moves t now : moves now t (start_current t now).1.
Proof.
  unfold start_current. destruct (stages t !! cursor t) as [s|] eqn:Hs; simpl.
  - apply (moves_at _ _ _ (fun s => mkStage (name s) (description s) Running (message s)
      (or_now (started_at s) now) (finished_at s) (details s))); simpl; [|..|done|by left].
    + split; simpl; auto.
    + apply list_eq. intros i. destruct (decide (i = cursor t)) as [->|Hne].
      * rewrite list_lookup_insert_eq by (by eapply lookup_lt_Some).
        by rewrite list_lookup_alter_eq, Hs.
      * by rewrite list_lookup_insert_ne, list_lookup_alter_ne.
  - apply lookup_ge_None in Hs. by apply moves_exhausted.
Qed.

Lemma finish_moves t t' st d msg now :
  st ≠ Queued → stages t' = stages (finish_index t (cursor t) st msg d now) →
  started_at_wall t' = started_at_wall t ∧ started_at_mono t' = started_at_mono t →
  cursor t' = cursor t ∨
    cursor t' = S (cursor t) ∧ (cursor t < length (stages t))%nat ∧ (st = Completed ∨ st = Skipped) →
  moves now t t'.
Proof.
  intros Hq Hs Ha Hc. eapply moves_at; [by apply (finish_touches st msg d)|done|done|].
  destruct Hc as [?|(? & ? & ?)]; [by left|right]. simpl. eauto.
Qed.

Lemma complete_moves t d now : moves now t (complete_current t d now).1.
Proof.
  unfold complete_current. destruct (_ <=? _)%nat eqn:E; simpl.
  - apply Nat.leb_le in E. by apply moves_exhausted.
  - apply Nat.leb_gt in E. apply (finish_moves t _ Completed d ""); auto.
Qed.

Lemma skip_moves t d now : moves now t (skip_current t d now).1.
Proof.
  unfold skip_current. destruct (_ <=? _)%nat eqn:E; simpl.
  - apply Nat.leb_le in E. by apply moves_exhausted.
  - apply Nat.leb_gt in E. apply (finish_moves t _ Skipped d ""); auto.
Qed.

Lemma fail_moves t c msg d now : moves now t (fail_current t c msg d now).
Proof.
  unfold fail_current. destruct (_ <? _)%nat eqn:E; simpl.
  - by apply (finish_moves t _ Failed d msg); auto.
  - apply Nat.ltb_ge in E. by apply moves_exhausted.
Qed.

(** *** [skip_remaining] *)

Definition skipped (s : Stage) : Stage :=
  if bool_decide (status s = Queued) then set_status s Skipped else s.

Record skips (from to : nat) (t t' : StageTimeline) : Prop := {
  sk_stages : ∀ i, stages t' !! i =
    if decide (from ≤ i < to)%nat then skipped <$> stages t !! i else stages t !! i;
  sk_cursor : cursor t' = cursor t;
  sk_anchor : started_at_wall t' = started_at_wall t ∧ started_at_mono t' = started_at_mono t;
}.

Lemma skip_index_spec t k : skips k (S k) t (skip_index t k).
Proof.
  assert (∀ s, stages t !! k = Some s → (k < length (stages t))%nat) as Hlen
    by (intros s; apply lookup_lt_Some).
  unfold skip_index. destruct (stages t !! k) as [s|] eqn:Hs.
  2:{ split; [|done|done]. intros i. case_decide; [|done]. assert (i = k) as -> by lia. by rewrite Hs. }
  specialize (Hlen s eq_refl). case_bool_decide as E; (split; [|done|done]); intros i; simpl.
  - case_decide as Hd.
    + assert (i = k) as -> by lia. rewrite list_lookup_insert_eq by done. rewrite Hs. simpl.
      unfold skipped. by rewrite bool_decide_eq_true_2.
    + by rewrite list_lookup_insert_ne by lia.
  - case_decide as Hd; [|done]. assert (i = k) as -> by lia. rewrite Hs. simpl.
    unfold skipped. by rewrite bool_decide_eq_false_2.
Qed.

Lemma skip_range t k n : skips k (k + n) t (foldl skip_index t (seq k n)).
Proof.
  revert t k. induction n as [|n IH]; intros t k; simpl.
  - split; [|done|done]. intros i. rewrite decide_False by lia. done.
  - destruct (skip_index_spec t k) as [H1 H2 H3].
    destruct (IH (skip_index t k) (S k)) as [G1 G2 G3]. split.
    + intros i. rewrite G1, H1. do 3 case_decide; try lia; done.
    + congruence.
    + destruct H3, G3. split; congruence.
Qed.

Lemma skip_remaining_spec t :
  (cursor t ≤ length (stages t))%nat → skips (cursor t) (length (stages t)) t (skip_remaining t).
Proof.
  intros Hc. unfold skip_remaining.
  pose proof (skip_range t (cursor t) (length (stages t) - cursor t)) as Hs.
  by replace (cursor t + (length (stages t) - cursor t))%nat with (length (stages t)) in Hs by lia.
Qed.

Lemma skipped_ok mono last c i s :
  (c ≤ i)%nat → stage_ok mono last c i s → stage_ok mono last c i (skipped s).
Proof.
  unfold skipped. intros Hci Hok. case_bool_decide as E; [|done].
  destruct Hok as [H1 H2 H3 H4 H5 H6 H7]. split; simpl; try done; naive_solver lia.
Qed.

Lemma skipped_same s :
  name (skipped s) = name s ∧ description (skipped s) = description s ∧
  started_at (skipped s) = started_at s ∧ finished_at (skipped s) = finished_at s.
Proof. unfold skipped. by case_bool_decide. Qed.

Lemma skips_inv plan wall mono last now t t' n :
  timeline_inv plan wall mono last t → (last ≤ now)%Z → skips (cursor t) n t t' →
  timeline_inv plan wall mono now t'.
Proof.
  intros [Hp (Hw & Hm & Hml) Hc Hs Ho] Hl [Hst Hcur [Aw Am]].
  assert (∀ i s', stages t' !! i = Some s' → ∃ s, stages t !! i = Some s ∧
    (s' = s ∨ s' = skipped s ∧ (cursor t ≤ i)%nat)) as Hold.
  { intros i s'. rewrite Hst. case_decide; [|eauto]. intros (s & Hss & ->)%fmap_Some.
    exists s. split; [done|right]. split; [done|lia]. }
  assert (∀ i s', stages t' !! i = Some s' → ∃ s, stages t !! i = Some s ∧
    started_at s' = started_at s ∧ finished_at s' = finished_at s) as Htimes.
  { intros i s' (s & Hss & [->|[-> _]])%Hold; exists s; [done|].
    destruct (skipped_same s) as (_ & _ & ? & ?). done. }
  split.
  - rewrite <- Hp. apply list_eq. intros i. rewrite !list_lookup_fmap, Hst. case_decide; [|done].
    destruct (stages t !! i) as [s|]; [|done]. simpl. by destruct (skipped_same s) as (-> & -> & _).
  - split_and!; [congruence..|lia].
  - rewrite Hcur. etransitivity; [exact Hc|]. destruct (decide (length (stages t) = 0)%nat); [lia|].
    destruct (lookup_lt_is_Some_2 (stages t) (length (stages t) - 1)) as [s Hss]; [lia|].
    pose proof (Hst (length (stages t) - 1)%nat) as E. rewrite Hss in E.
    assert (is_Some (stages t' !! (length (stages t) - 1)%nat)) as [s' Hs'] by
      (rewrite E; case_decide; eauto).
    apply lookup_lt_Some in Hs'. lia.
  - intros i s' Hi. rewrite Hcur. destruct (Hold _ _ Hi) as (s & Hss & [->|[-> Hci]]).
    + eapply stage_ok_later; [done|]. by apply Hs.
    + eapply stage_ok_later; [done|]. apply skipped_ok; [done|]. by apply Hs.
  - intros i j si sj b a (s1 & H1 & _ & E1)%Htimes (s2 & H2 & E2 & _)%Htimes Hij Hb Ha.
    eapply (Ho i j s1 s2); congruence || done.
Qed.

Lemma driven_inv plan wall mono last t :
  driven plan wall mono last t → timeline_inv plan wall mono last t.
Proof.
  induction 1 as [job node rack|last now t m _ IH Hl]; [apply new_inv|].
  destruct m; simpl; [eapply moves_inv; [done|done|]..|eapply skips_inv; [done|done|]].
  - apply start_moves.
  - apply complete_moves.
  - apply skip_moves.
  - apply fail_moves.
  - apply skip_remaining_spec, IH.
Qed.

(** However a timeline is driven, at non-decreasing instants, it stays well
    formed: the planned stages keep their order, names and descriptions, every
    stage before the cursor is completed or skipped with a finishing time, every
    stage after it has not started, so that only the stage at the cursor can be
    running or failed, and a stage never starts before an earlier one finished. *)
Theorem timeline_well_formed plan wall mono last t :
  driven plan wall mono last t →
  timeline_inv plan wall mono last t ∧
  ∀ i s, stages t !! i = Some s → status s = Running ∨ status s = Failed → i = cursor t.
Proof.
  intros Hi%driven_inv. split; [done|]. intros i s Hs Hst.
  destruct (ti_stage _ _ _ _ _ Hi _ _ Hs) as [H1 H2 _ _ _ _ _].
  destruct (Nat.lt_trichotomy i (cursor t)) as [Hl|[?|Hl]]; [|done|].
  - destruct (H1 Hl) as [[]_]; destruct Hst; congruence.
  - destruct (H2 Hl) as [[] _]; destruct Hst; congruence.
Qed.

(** ** [fail_job] *)

Section fail_job.
Context `{SerdeJson} {W : Type}.
Implicit Types (r : Registry.JobRegistry (W := W)).

(** What [fail_job] makes of the stage at [i] of a timeline whose cursor is at [c]. *)
Definition settled_stage (error : string) (now : Z) (c i : nat) (s s' : Stage) : Prop :=
  name s' = name s ∧ description s' = description s ∧
  ((i < c)%nat → s' = s) ∧
  (i = c → status s' = Failed ∧ finished_at s' = Some now ∧ (error ≠ "" → message s' = error)) ∧
  ((c < i)%nat → status s' = Skipped ∧ started_at s' = None).

Lemma fail_job_stages plan wall mono last t c error d now i s' :
  timeline_inv plan wall mono last t →
  stages (skip_remaining (fail_current t c error d now)) !! i = Some s' →
  ∃ s, stages t !! i = Some s ∧ settled_stage error now (cursor t) i s s'.
Proof.
  intros Hi Hs'. set (t1 := fail_current t c error d now) in *.
  assert (cursor t1 = cursor t ∧ length (stages t1) = length (stages t)) as [Hc1 Hl1].
  { subst t1. unfold fail_current. destruct (_ <? _)%nat; simpl; [|done]. by rewrite length_alter. }
  pose proof (ti_cursor _ _ _ _ _ Hi) as Hcur.
  destruct (skip_remaining_spec t1) as [Hst _ _]; [lia|]. rewrite Hst, Hc1, Hl1 in Hs'.
  assert (∀ j, j ≠ cursor t → stages t1 !! j = stages t !! j) as Hother
    by apply (mv_stages now), fail_moves.
  destruct (Nat.lt_trichotomy i (cursor t)) as [Hlt|[->|Hgt]].
  - rewrite decide_False, Hother in Hs' by lia. exists s'. split; [done|].
    unfold settled_stage. split_and!; try done; lia.
  - case_decide as Hd; [|apply lookup_lt_Some in Hs'; lia].
    subst t1. unfold fail_current in Hs'. rewrite (proj2 (Nat.ltb_lt _ _)) in Hs' by lia.
    simpl in Hs'. rewrite list_lookup_alter_eq in Hs'. apply fmap_Some in Hs' as (s1 & Hs1 & ->).
    apply fmap_Some in Hs1 as (s & Hs & ->). exists s. split; [done|].
    unfold settled_stage. simpl. split_and!; try done; try lia. intros _.
    split_and!; [done|done|]. intros He. by rewrite bool_decide_eq_false_2.
  - destruct (decide (_ ≤ _ < _)%nat) as [Hd|Hd]; [|apply lookup_lt_Some in Hs'; lia].
    rewrite Hother in Hs' by lia. apply fmap_Some in Hs' as (s & Hs & ->). exists s. split; [done|].
    destruct (so_after _ _ _ _ _ (ti_stage _ _ _ _ _ Hi _ _ Hs) Hgt) as ([E|E] & Ha & _ & _);
      unfold settled_stage, skipped; case_bool_decide; simpl; split_and!; try done; lia || congruence.
Qed.

(** [fail_job] settles the timeline and the job together: no stage is left
    queued or running; the stage at the cursor is failed with the error as its
    message, the stages before it are untouched and those after it are skipped;
    and the live job fails with the result built from that settled timeline. *)
Theorem fail_job_settles plan wall mono last t r h j outcome error d build now job_now :
  driven plan wall mono last t →
  Store.by_id (Registry.jobs r) !! handle_id h = Some j → is_terminal (state j) = false →
  let '(t', r') := fail_job t r h outcome error d build now job_now in
  (∀ i s', stages t' !! i = Some s' →
     status s' ≠ Queued ∧ status s' ≠ Running ∧
     ∃ s, stages t !! i = Some s ∧ settled_stage error now (cursor t) i s s') ∧
  ∃ j', Store.by_id (Registry.jobs r') !! handle_id h = Some j' ∧
    state j' = failed_state (failure_with_metadata (finish h)
      (with_result_json (JobFailure_new (anyhow_of_code JobErrorM.Other) error)
         (build outcome t'))).
Proof.
  intros Hi%driven_inv Hj Ht. unfold fail_job. split.
  - intros i s' Hs'. destruct (fail_job_stages _ _ _ _ _ _ _ _ _ _ _ Hi Hs') as (s & Hs & Hset).
    pose proof Hset as (_ & _ & H1 & H2 & H3).
    enough (status s' ≠ Queued ∧ status s' ≠ Running) by naive_solver.
    destruct (Nat.lt_trichotomy i (cursor t)) as [Hl|[Hl|Hl]].
    + rewrite (H1 Hl). destruct (so_before _ _ _ _ _ (ti_stage _ _ _ _ _ Hi _ _ Hs) Hl) as [[]_];
        split; congruence.
    + destruct (H2 Hl). split; congruence.
    + destruct (H3 Hl). split; congruence.
  - unfold fail, drop_handle. simpl. unfold Registry.mark_failed.
    rewrite update_records, Hj, Ht, decide_True by done. eauto.
Qed.
End fail_job.

(** ** Times *)

(** Milliseconds from the anchor, exact. *)
Definition offset_ms (mono i : Z) : Z := ((i - mono) `div` 1000000)%Z.

(** A stage's duration, exact. *)
Definition stage_span (mono : Z) (s : Stage) : Z :=
  match started_at s, finished_at s with
  | Some a, Some b => (offset_ms mono b - offset_ms mono a)%Z
  | _, _ => 0%Z
  end.

Lemma offset_mono mono a b : (a ≤ b)%Z → (offset_ms mono a ≤ offset_ms mono b)%Z.
Proof. intros. unfold offset_ms. apply Z.div_le_mono; lia. Qed.

Definition total_span (mono : Z) (l : list Stage) : Z := foldr Z.add 0%Z (stage_span mono <$> l).

(** Stages that follow each other between [lo] and [hi] last no longer than that. *)
Lemma total_span_bound mono lo hi l :
  (lo ≤ hi)%Z →
  (∀ i s b, l !! i = Some s → finished_at s = Some b →
     ∃ a, started_at s = Some a ∧ (lo ≤ a ≤ b)%Z ∧ (b ≤ hi)%Z) →
  (∀ i j si sj b a, l !! i = Some si → l !! j = Some sj → (i < j)%nat →
     finished_at si = Some b → started_at sj = Some a → (b ≤ a)%Z) →
  (total_span mono l ≤ offset_ms mono hi - offset_ms mono lo)%Z.
Proof.
  revert lo. induction l as [|s l IH]; intros lo Hlo Hin Hord.
  { pose proof (offset_mono mono lo hi Hlo). unfold total_span. simpl. lia. }
  assert (∀ lo', (lo' ≤ hi)%Z →
    (∀ i sj b a, l !! i = Some sj → finished_at sj = Some b → started_at sj = Some a → (lo' ≤ a)%Z) →
    (total_span mono l ≤ offset_ms mono hi - offset_ms mono lo')%Z) as Hrest.
  { intros lo' Hlo' Hge. apply IH; [done| |].
    - intros i sj b Hsj Hb. destruct (Hin (S i) sj b Hsj Hb) as (a & Ha & ? & ?).
      exists a. split_and!; [done| |lia|done]. by eapply Hge.
    - intros i j si sj b a Hi Hj Hij. apply (Hord (S i) (S j)); [done|done|lia]. }
  change (total_span mono (s :: l)) with (stage_span mono s + total_span mono l)%Z.
  destruct (finished_at s) as [b|] eqn:Hb.
  - destruct (Hin 0%nat s b eq_refl Hb) as (a & Ha & ? & ?).
    unfold stage_span. rewrite Ha, Hb. pose proof (offset_mono mono lo a ltac:(lia)).
    assert (total_span mono l ≤ offset_ms mono hi - offset_ms mono b)%Z; [|lia].
    apply Hrest; [done|]. intros i sj b' a' Hsj _ Ha'.
    eapply (Hord 0%nat (S i)); [done|exact Hsj|lia|done|done].
  - assert (stage_span mono s = 0%Z) as ->
      by (unfold stage_span; rewrite Hb; by destruct (started_at s)).
    assert (total_span mono l ≤ offset_ms mono hi - offset_ms mono lo)%Z; [|lia].
    apply Hrest; [done|]. intros i sj b' a' Hsj Hb' Ha'.
    destruct (Hin (S i) sj b' Hsj Hb') as (a0 & Ha0 & ? & ?). simplify_eq. lia.
Qed.

Lemma wrap_id z : (- (2 * 2 ^ 62) ≤ z < 2 * 2 ^ 62)%Z → wrap_i64 z = z.
Proof.
  intros. unfold wrap_i64. change (2 ^ 64)%Z with (4 * 2 ^ 62)%Z.
  change (2 ^ 63)%Z with (2 * 2 ^ 62)%Z. rewrite Z.mod_small; lia.
Qed.

(** The range in which no [i64] of the timeline overflows. *)
Definition in_range (wall mono last : Z) : Prop :=
  (0 ≤ wall < 2 ^ 62 ∧ last - mono < 2 ^ 62 * 1000000)%Z.

Lemma wall_ms_exact wall mono last t i :
  started_at_wall t = wall → started_at_mono t = mono → in_range wall mono last →
  (mono ≤ i ≤ last)%Z →
  to_wall_ms t i = (wall + offset_ms mono i)%Z ∧ (0 ≤ offset_ms mono i < 2 ^ 62)%Z.
Proof.
  intros <- <- [Hw Hl] Hi. unfold to_wall_ms, millis_since, offset_ms in *.
  rewrite Z.max_r by lia.
  assert (0 ≤ (i - started_at_mono t) `div` 1000000 < 2 ^ 62)%Z.
  { split; [apply Z.div_pos; lia|]. apply Z.div_lt_upper_bound; lia. }
  split; [|done]. rewrite (wrap_id (_ `div` _)) by lia. apply wrap_id. lia.
Qed.

Lemma duration_exact plan wall mono last t i s :
  timeline_inv plan wall mono last t → in_range wall mono last → stages t !! i = Some s →
  duration_ms t s = stage_span mono s ∧ (0 ≤ duration_ms t s)%Z ∧
  ∀ a b, started_at s = Some a → finished_at s = Some b →
    (started_at_ms t s + duration_ms t s = finished_at_ms t s)%Z ∧
    (Z.abs (duration_ms t s * 1000000 - (b - a)) < 1000000)%Z.
Proof.
  intros Hi Hr Hs. destruct (ti_anchor _ _ _ _ _ Hi) as (Hw & Hm & Hml).
  destruct (ti_stage _ _ _ _ _ Hi _ _ Hs) as [_ _ _ _ _ Hst Hfin].
  unfold duration_ms, stage_span, started_at_ms, finished_at_ms.
  destruct (started_at s) as [a|]; [|done]. destruct (finished_at s) as [b|]; [|done].
  destruct (Hfin b eq_refl) as (a0 & [= <-] & Hab). specialize (Hst a eq_refl). simpl.
  destruct (wall_ms_exact wall mono last t a Hw Hm Hr ltac:(lia)) as [-> Ha].
  destruct (wall_ms_exact wall mono last t b Hw Hm Hr ltac:(lia)) as [-> Hb].
  pose proof (offset_mono mono a b ltac:(lia)) as Hle.
  rewrite wrap_id by lia. split; [lia|]. split; [lia|]. intros a' b' [= <-] [= <-].
  split; [lia|]. unfold offset_ms in *.
  pose proof (Z.div_mod (b - mono) 1000000 ltac:(lia)).
  pose proof (Z.div_mod (a - mono) 1000000 ltac:(lia)).
  pose proof (Z.mod_pos_bound (b - mono) 1000000 ltac:(lia)).
  pose proof (Z.mod_pos_bound (a - mono) 1000000 ltac:(lia)). lia.
Qed.

(** The reported times are consistent and owe nothing to the wall clock after
    creation: within the range of [i64], no duration is negative, each is the
    difference of the reported times and within a millisecond of the true one,
    a stage is reported to start no earlier than a previous one finished, and
    the durations add up to no more than the total. *)
Theorem timeline_times_consistent plan wall mono last t :
  driven plan wall mono last t → in_range wall mono last →
  (∀ i s, stages t !! i = Some s → (0 ≤ duration_ms t s)%Z ∧
     ∀ a b, started_at s = Some a → finished_at s = Some b →
       (started_at_ms t s + duration_ms t s = finished_at_ms t s)%Z ∧
       (Z.abs (duration_ms t s * 1000000 - (b - a)) < 1000000)%Z) ∧
  (∀ i j si sj, stages t !! i = Some si → stages t !! j = Some sj → (i < j)%nat →
     is_Some (finished_at si) → is_Some (started_at sj) →
     (finished_at_ms t si ≤ started_at_ms t sj)%Z) ∧
  (foldr Z.add 0 (duration_ms t <$> stages t) ≤ wrap_i64 (millis_since last (started_at_mono t)))%Z.
Proof.
  intros Hi%driven_inv Hr. pose proof (ti_anchor _ _ _ _ _ Hi) as (Hw & Hm & Hml). split_and!.
  - intros i s Hs. by destruct (duration_exact _ _ _ _ _ _ _ Hi Hr Hs).
  - intros i j si sj Hsi Hsj Hij [b Hb] [a Ha].
    destruct (so_finished _ _ _ _ _ (ti_stage _ _ _ _ _ Hi _ _ Hsi) _ Hb) as (a0 & Ha0 & ?).
    pose proof (so_started _ _ _ _ _ (ti_stage _ _ _ _ _ Hi _ _ Hsi) _ Ha0).
    pose proof (so_started _ _ _ _ _ (ti_stage _ _ _ _ _ Hi _ _ Hsj) _ Ha).
    unfold finished_at_ms, started_at_ms. rewrite Hb, Ha. simpl.
    destruct (wall_ms_exact wall mono last t a Hw Hm Hr ltac:(lia)) as [-> _].
    destruct (wall_ms_exact wall mono last t b Hw Hm Hr ltac:(lia)) as [-> _].
    pose proof (offset_mono mono b a (ti_order _ _ _ _ _ Hi _ _ _ _ _ _ Hsi Hsj Hij Hb Ha)). lia.
  - replace (foldr Z.add 0%Z (duration_ms t <$> stages t)) with (total_span mono (stages t)).
    + destruct (wall_ms_exact wall mono last t last Hw Hm Hr ltac:(lia)) as [_ Hoff].
      unfold millis_since. rewrite Hm, Z.max_r by lia. fold (offset_ms mono last).
      rewrite wrap_id by lia.
      pose proof (total_span_bound mono mono last (stages t) Hml) as Hb.
      assert (offset_ms mono mono = 0%Z) as E by (unfold offset_ms; by rewrite Z.sub_diag).
      rewrite E in Hb. rewrite Z.sub_0_r in Hb. apply Hb; [|apply (ti_order _ _ _ _ _ Hi)].
      intros i s b Hs Hfb. pose proof (ti_stage _ _ _ _ _ Hi _ _ Hs) as Hok.
      destruct (so_finished _ _ _ _ _ Hok _ Hfb) as (a & Ha & ?).
      pose proof (so_started _ _ _ _ _ Hok _ Ha). exists a. split_and!; [done|lia..].
    + unfold total_span. f_equal. apply list_fmap_ext. intros i s Hs.
      by destruct (duration_exact _ _ _ _ _ _ _ Hi Hr Hs).
Qed.

(** ** The report *)

Lemma to_json_loop t l acc :
  foldl (to_json_step t) acc l =
    (if bool_decide (acc.1 = "")
     then default "" (find_map (fun s => if bool_decide (status s = Running)
                                          then if bool_decide (name s = "") then None
                                               else Some (name s)
                                          else None) l)
     else acc.1,
     acc.2 ++ (stage_json t <$> l)).
Proof.
  revert acc. induction l as [|s l IH]; intros [cur js]; simpl.
  - rewrite app_nil_r. f_equal. by case_bool_decide.
  - rewrite IH. simpl. rewrite <- app_assoc. f_equal.
    repeat (case_bool_decide; simpl); simplify_eq/=; try done; congruence.
Qed.

Lemma unique_find {A} (f : A → option string) (l : list A) k x :
  l !! k = Some x → (∀ i y, l !! i = Some y → i ≠ k → f y = None) → find_map f l = f x.
Proof.
  revert k. induction l as [|y l IH]; intros k Hk Hu; [done|]. simpl.
  destruct k as [|k]; simplify_eq/=.
  - destruct (f x); [done|]. apply find_map_None. intros z [i Hi]%list_elem_of_lookup.
    by apply (Hu (S i)).
  - rewrite (Hu 0%nat) by done. apply (IH k); [done|]. intros i z Hi Hne.
    apply (Hu (S i)); [done|lia].
Qed.

(** The report names the right stage: [current_stage] is the stage at the
    cursor while that is running and empty otherwise, and the stages are listed
    in their planned order. *)
Theorem report_current_stage plan wall mono last t now elapsed :
  driven plan wall mono last t →
  ∃ m, to_json t now elapsed = JObject m ∧
    m !! "current_stage" = Some (JString
      (match stages t !! cursor t with
       | Some s => if bool_decide (status s = Running) then name s else ""
       | None => ""
       end)) ∧
    m !! "stages" = Some (JArray (stage_json t <$> stages t)) ∧
    m !! "stage_index" = Some (jnat (cursor t)).
Proof.
  intros Hi%driven_inv. unfold to_json. rewrite to_json_loop. eexists. split; [reflexivity|].
  simpl. split; [|done]. set (f := fun s : Stage => _).
  do 3 (rewrite lookup_insert_ne by done). rewrite lookup_insert_eq. do 2 f_equal.
  assert (∀ i s, stages t !! i = Some s → i ≠ cursor t → f s = None) as Hother.
  { intros i s Hs Hne. unfold f. case_bool_decide as E; [|done].
    destruct (ti_stage _ _ _ _ _ Hi _ _ Hs) as [H1 H2 _ _ _ _ _].
    destruct (Nat.lt_trichotomy i (cursor t)) as [Hl|[?|Hl]]; [|done|].
    - destruct (H1 Hl) as [[] _]; congruence.
    - destruct (H2 Hl) as [[] _]; congruence. }
  destruct (stages t !! cursor t) as [s|] eqn:Hs.
  - rewrite (unique_find f _ (cursor t) s Hs Hother). unfold f.
    repeat case_bool_decide; simpl; congruence.
  - rewrite (proj2 (find_map_None f _)); [done|]. intros s [i Hs']%list_elem_of_lookup.
    apply (Hother i); [done|]. congruence.
Qed.

Section witnesses.
Import Example.

Definition two_stages : list (string * string) :=
  [("inspect", "Inspect state"); ("install", "Install image")].

(** Created at instant 0, the first stage completed, the second running. *)
Definition half_way : StageTimeline :=
  drive (drive (drive (with_node_rack (with_stages "job-0" (planned two_stages) 1000 0) "n1" "rack")
    Start 1000000) (Complete JNull) 2500000) Start 3000000.

Lemma half_way_driven : driven two_stages 1000 0 3000000 half_way.
Proof.
  unfold half_way. eapply (driven_move _ _ _ 2500000); [|lia].
  eapply (driven_move _ _ _ 1000000); [|lia]. eapply (driven_move _ _ _ 0); [|lia]. constructor.
Qed.

Lemma timeline_well_formed_witness :
  timeline_inv two_stages 1000 0 3000000 half_way ∧
  ∀ i s, stages half_way !! i = Some s → status s = Running ∨ status s = Failed →
    i = cursor half_way.
Proof. apply (timeline_well_formed two_stages 1000 0 3000000 half_way half_way_driven). Defined.

Lemma fail_job_settles_witness :
  let '(t', r') := fail_job half_way one one_handle "failed" "no route" JNull
                     (fun outcome _ => outcome) 4000000 clock0 in
  (∀ i s', stages t' !! i = Some s' →
     status s' ≠ Queued ∧ status s' ≠ Running ∧
     ∃ s, stages half_way !! i = Some s ∧
       settled_stage "no route" 4000000 (cursor half_way) i s s') ∧
  ∃ j', Store.by_id (Registry.jobs r') !! handle_id one_handle = Some j' ∧
    state j' = failed_state (failure_with_metadata (finish one_handle)
      (with_result_json (JobFailure_new (anyhow_of_code JobErrorM.Other) "no route") "failed")).
Proof.
  apply (fail_job_settles two_stages 1000 0 3000000 half_way one one_handle one_record "failed"
    "no route" JNull (fun outcome _ => outcome) 4000000 clock0 half_way_driven one_lookup).
  reflexivity.
Defined.

Lemma timeline_times_consistent_witness :
  (∀ i s, stages half_way !! i = Some s → (0 ≤ duration_ms half_way s)%Z ∧
     ∀ a b, started_at s = Some a → finished_at s = Some b →
       (started_at_ms half_way s + duration_ms half_way s = finished_at_ms half_way s)%Z ∧
       (Z.abs (duration_ms half_way s * 1000000 - (b - a)) < 1000000)%Z) ∧
  (∀ i j si sj, stages half_way !! i = Some si → stages half_way !! j = Some sj → (i < j)%nat →
     is_Some (finished_at si) → is_Some (started_at sj) →
     (finished_at_ms half_way si ≤ started_at_ms half_way sj)%Z) ∧
  (foldr Z.add 0 (duration_ms half_way <$> stages half_way)
    ≤ wrap_i64 (millis_since 3000000 (started_at_mono half_way)))%Z.
Proof.
  apply (timeline_times_consistent two_stages 1000 0 3000000 half_way half_way_driven).
  unfold in_range. lia.
Defined.

Lemma report_current_stage_witness :
  ∃ m, to_json half_way 3000000 3000000 = JObject m ∧
    m !! "current_stage" = Some (JString "install") ∧
    m !! "stages" = Some (JArray (stage_json half_way <$> stages half_way)) ∧
    m !! "stage_index" = Some (jnat 1).
Proof.
  apply (report_current_stage two_stages 1000 0 3000000 half_way 3000000 3000000 half_way_driven).
Defined.
End witnesses.
