(* ===== verification/FirmwareStore.v ===== *)
(** * In-memory firmware objects

    [persistence/memory/firmware_object.rs] with the types of
    [persistence/firmware_object.rs]: the catalog of firmware bundles, with one
    default per hardware type, and the history of what was applied where.

    Each method holds the catalog or history lock for its whole body, so it is
    one function on the store.  A poisoned lock is recovered ([recover]), so it
    has no effect here.  A [DateTime<Utc>] is a number; methods that read the
    clock take the reading. *)

From S2P Require Import Prelude RustStd Json RmsError.
Local Open Scope string_scope.
Local Open Scope list_scope.

Module Firmware.
Abbreviation RackHardwareType := string (only parsing).

Definition any : RackHardwareType := "any".

Record FirmwareObject := mkFirmware {
  fw_id : string;
  rack_hardware_type : RackHardwareType;
  available : bool;
  is_default : bool;
  config : json;
  parsed_components : option json;
  created : Z;
  updated : Z;
}.

Record FirmwareObjectSearchFilter := mkFilter {
  only_available : bool;
  filter_hardware_type : option RackHardwareType;
}.

Record StoredApply := mkApply {
  object_id : string;
  apply_rack_id : string;
  firmware_type : string;
  apply_hardware_type : RackHardwareType;
  node_ids : list string;
  applied_at : Z;
}.

(** A history row as it is listed: with the flag joined from the catalog. *)
Record FirmwareObjectApplyHistoryRecord := mkHistoryRecord {
  stored : StoredApply;
  firmware_available : bool;
}.

Record MemoryFirmwareObjectStore := mkStore {
  catalog : gmap string FirmwareObject;
  history : list StoredApply;
}.

Definition empty_firmware_store : MemoryFirmwareObjectStore := mkStore ∅ [].

Definition set_catalog (s : MemoryFirmwareObjectStore) m : MemoryFirmwareObjectStore :=
  mkStore m (history s).
Definition set_history (s : MemoryFirmwareObjectStore) l : MemoryFirmwareObjectStore :=
  mkStore (catalog s) l.

Definition object_not_found (id : string) : RmsError :=
  not_found ("firmware object " +++ id +++ " not found").
Definition incarnation_not_found (id : string) : RmsError :=
  not_found ("firmware object incarnation " +++ id +++ " not found").

Definition create (s : MemoryFirmwareObjectStore) (id : string) (hw : RackHardwareType)
    (cfg : json) (components : option json) (now : Z)
    : MemoryFirmwareObjectStore * result RmsError FirmwareObject :=
  match catalog s !! id with
  | Some _ => (s, Err (already_exists ("firmware object " +++ id +++ " already exists")))
  | None =>
      let fw := mkFirmware id hw false false cfg components now now in
      (set_catalog s (<[id := fw]> (catalog s)), Ok fw)
  end.

Definition find_by_id (s : MemoryFirmwareObjectStore) (id : string)
    : result RmsError FirmwareObject :=
  ok_or (catalog s !! id) (object_not_found id).

(** [sort_by_key(Reverse(key))], a stable sort. *)
Definition newest_first {A} (key : A → Z) (a b : A) : Prop := (key b ≤ key a)%Z.

#[global] Instance newest_first_dec {A} (key : A → Z) : RelDecision (newest_first key).
Proof. unfold newest_first. intros a b. apply _. Defined.

(** A [HashMap] enumerates its values in no particular order. *)
Definition catalog_values (s : MemoryFirmwareObjectStore) : list FirmwareObject :=
  (map_to_list (catalog s)).*2.

Definition matches_filter (f : FirmwareObjectSearchFilter) (fw : FirmwareObject) : bool :=
  (negb (only_available f) || available fw)
  && match filter_hardware_type f with
     | Some hw => bool_decide (rack_hardware_type fw = hw)
     | None => true
     end.

Definition list_objects (s : MemoryFirmwareObjectStore) (f : FirmwareObjectSearchFilter)
    : list FirmwareObject :=
  merge_sort (newest_first created) (filter (fun fw => matches_filter f fw) (catalog_values s)).

(** The shape of the four updates of one row. *)
Definition update_row (s : MemoryFirmwareObjectStore) (id : string)
    (f : FirmwareObject → FirmwareObject)
    : MemoryFirmwareObjectStore * result RmsError FirmwareObject :=
  match catalog s !! id with
  | None => (s, Err (object_not_found id))
  | Some fw => (set_catalog s (<[id := f fw]> (catalog s)), Ok (f fw))
  end.

Definition with_config (fw : FirmwareObject) (c : json) (now : Z) : FirmwareObject :=
  mkFirmware (fw_id fw) (rack_hardware_type fw) (available fw) (is_default fw) c
    (parsed_components fw) (created fw) now.
Definition with_available (fw : FirmwareObject) (b : bool) (now : Z) : FirmwareObject :=
  mkFirmware (fw_id fw) (rack_hardware_type fw) b (is_default fw) (config fw)
    (parsed_components fw) (created fw) now.
Definition with_components (fw : FirmwareObject) (c : json) (b : bool) (now : Z)
    : FirmwareObject :=
  mkFirmware (fw_id fw) (rack_hardware_type fw) b (is_default fw) (config fw) (Some c)
    (created fw) now.
Definition with_default (fw : FirmwareObject) (b : bool) (now : Z) : FirmwareObject :=
  mkFirmware (fw_id fw) (rack_hardware_type fw) (available fw) b (config fw)
    (parsed_components fw) (created fw) now.

Definition update_config (s : MemoryFirmwareObjectStore) (id : string) (c : json) (now : Z)
    : MemoryFirmwareObjectStore * result RmsError FirmwareObject :=
  update_row s id (fun fw => with_config fw c now).

Definition set_available (s : MemoryFirmwareObjectStore) (id : string) (b : bool) (now : Z)
    : MemoryFirmwareObjectStore * result RmsError FirmwareObject :=
  update_row s id (fun fw => with_available fw b now).

Definition set_parsed_components_available (s : MemoryFirmwareObjectStore) (id : string)
    (components : json) (now : Z)
    : MemoryFirmwareObjectStore * result RmsError FirmwareObject :=
  update_row s id (fun fw => with_components fw components true now).

Definition finish_preparation (s : MemoryFirmwareObjectStore) (id : string) (made : Z)
    (metadata : json) (b : bool) (now : Z)
    : MemoryFirmwareObjectStore * result RmsError FirmwareObject :=
  match catalog s !! id with
  | Some fw =>
      if bool_decide (created fw = made) then
        let fw := with_components fw metadata b now in
        (set_catalog s (<[id := fw]> (catalog s)), Ok fw)
      else (s, Err (incarnation_not_found id))
  | None => (s, Err (incarnation_not_found id))
  end.

(** The loop over [values_mut]: the other defaults of the hardware type go. *)
Definition clear_default (id : string) (hw : RackHardwareType) (now : Z) (fw : FirmwareObject)
    : FirmwareObject :=
  if negb (bool_decide (fw_id fw = id)) && bool_decide (rack_hardware_type fw = hw)
     && is_default fw
  then with_default fw false now else fw.

Definition set_default (s : MemoryFirmwareObjectStore) (id : string) (now : Z)
    : MemoryFirmwareObjectStore * result RmsError FirmwareObject :=
  match catalog s !! id with
  | None => (s, Err (object_not_found id))
  | Some target =>
      let s := set_catalog s (clear_default id (rack_hardware_type target) now <$> catalog s) in
      update_row s id (fun fw => with_default fw true now)
  end.

Definition is_default_for (hw : RackHardwareType) (fw : FirmwareObject) : bool :=
  bool_decide (rack_hardware_type fw = hw) && is_default fw.

Definition has_default (s : MemoryFirmwareObjectStore) (hw : RackHardwareType) : bool :=
  existsb (is_default_for hw) (catalog_values s).

Definition set_default_if_none (s : MemoryFirmwareObjectStore) (id : string) (now : Z)
    : MemoryFirmwareObjectStore * result RmsError FirmwareObject :=
  match catalog s !! id with
  | None => (s, Err (object_not_found id))
  | Some fw =>
      if has_default s (rack_hardware_type fw) then (s, Ok fw)
      else update_row s id (fun fw => with_default fw true now)
  end.

(** [Iterator::max_by_key]: the last of the largest. *)
Definition max_by_created (l : list FirmwareObject) : option FirmwareObject :=
  foldl (fun best fw =>
    match best with
    | Some b => if (created b <=? created fw)%Z then Some fw else best
    | None => Some fw
    end) None l.

Definition find_default_by_hw_type (s : MemoryFirmwareObjectStore) (hw : RackHardwareType)
    : result RmsError FirmwareObject :=
  ok_or (max_by_created (filter (fun fw => is_default_for hw fw) (catalog_values s)))
    (not_found ("default firmware object for " +++ hw +++ " not found")).

Definition delete_object (s : MemoryFirmwareObjectStore) (id : string)
    : MemoryFirmwareObjectStore * result RmsError unit :=
  match catalog s !! id with
  | None => (s, Err (object_not_found id))
  | Some _ => (set_catalog s (delete id (catalog s)), Ok tt)
  end.

Definition record_apply (s : MemoryFirmwareObjectStore) (object rack fwtype : string)
    (hw : RackHardwareType) (nodes : list string) (now : Z)
    : MemoryFirmwareObjectStore * result RmsError unit :=
  (set_history s (history s ++ [mkApply object rack fwtype hw nodes now]), Ok tt).

Definition record_apply_for_incarnation (s : MemoryFirmwareObjectStore) (object : string)
    (made : Z) (rack fwtype : string) (hw : RackHardwareType) (nodes : list string) (now : Z)
    : MemoryFirmwareObjectStore * result RmsError unit :=
  if match catalog s !! object with
     | Some fw => negb (bool_decide (created fw = made))
     | None => true
     end
  then (s, Err (incarnation_not_found object))
  else (set_history s (history s ++ [mkApply object rack fwtype hw nodes now]), Ok tt).

Definition history_matches (object : option string) (racks : list string) (h : StoredApply)
    : bool :=
  match object with Some id => bool_decide (object_id h = id) | None => true end
  && (bool_decide (racks = []) || contains racks (apply_rack_id h)).

Definition join_catalog (s : MemoryFirmwareObjectStore) (h : StoredApply)
    : FirmwareObjectApplyHistoryRecord :=
  mkHistoryRecord h
    (match catalog s !! object_id h with Some fw => available fw | None => false end).

Definition list_apply_history (s : MemoryFirmwareObjectStore) (object : option string)
    (racks : list string) : list FirmwareObjectApplyHistoryRecord :=
  merge_sort (newest_first (fun r => applied_at (stored r)))
    (join_catalog s <$> filter (fun h => history_matches object racks h) (history s)).
End Firmware.
