(* ===== verification/FirmwareStoreTheorems.v ===== *)
(** * What the in-memory firmware object store guarantees

    Over any sequence of calls: one default per hardware type, the selection of
    a default, work bound to one incarnation of a reusable ID, and an apply
    history that only grows. *)

From S2P Require Import Prelude RustStd Json RmsError FirmwareStore.
Import Firmware.
Local Open Scope string_scope.
Local Open Scope list_scope.

(** ** Calls *)

Inductive store_call :=
| Create (id : string) (hw : string) (cfg : json) (components : option json) (now : Z)
| UpdateConfig (id : string) (cfg : json) (now : Z)
| SetAvailable (id : string) (b : bool) (now : Z)
| SetParsed (id : string) (components : json) (now : Z)
| FinishPreparation (id : string) (made : Z) (metadata : json) (b : bool) (now : Z)
| SetDefault (id : string) (now : Z)
| SetDefaultIfNone (id : string) (now : Z)
| Delete (id : string)
| RecordApply (object rack fwtype hw : string) (nodes : list string) (now : Z)
| RecordApplyFor (object : string) (made : Z) (rack fwtype hw : string) (nodes : list string)
    (now : Z).

Definition call_store (s : MemoryFirmwareObjectStore) (c : store_call)
    : MemoryFirmwareObjectStore :=
  match c with
  | Create id hw cfg components now => (create s id hw cfg components now).1
  | UpdateConfig id cfg now => (update_config s id cfg now).1
  | SetAvailable id b now => (set_available s id b now).1
  | SetParsed id components now => (set_parsed_components_available s id components now).1
  | FinishPreparation id made md b now => (finish_preparation s id made md b now).1
  | SetDefault id now => (set_default s id now).1
  | SetDefaultIfNone id now => (set_default_if_none s id now).1
  | Delete id => (delete_object s id).1
  | RecordApply object rack fwtype hw nodes now =>
      (record_apply s object rack fwtype hw nodes now).1
  | RecordApplyFor object made rack fwtype hw nodes now =>
      (record_apply_for_incarnation s object made rack fwtype hw nodes now).1
  end.

Definition call_all (s : MemoryFirmwareObjectStore) (cs : list store_call)
    : MemoryFirmwareObjectStore := foldl call_store s cs.

(** ** Invariant *)

Record store_ok (s : MemoryFirmwareObjectStore) : Prop := {
  ok_id : ∀ id fw, catalog s !! id = Some fw → fw_id fw = id;
  ok_default : ∀ i j fi fj, catalog s !! i = Some fi → catalog s !! j = Some fj →
    is_default fi = true → is_default fj = true →
    rack_hardware_type fi = rack_hardware_type fj → i = j;
}.

(** Identity, hardware type and default flag of a row. *)
Definition face (fw : FirmwareObject) : string * string * bool :=
  (fw_id fw, rack_hardware_type fw, is_default fw).

(** Every row of [s'] has the face of the row of [s] with its ID. *)
Lemma same_faces_ok s s' :
  store_ok s →
  (∀ id fw', catalog s' !! id = Some fw' → ∃ fw, catalog s !! id = Some fw ∧ face fw' = face fw) →
  store_ok s'.
Proof.
  intros [Hid Hdef] Hf. split.
  - intros id fw' (fw & Hfw & [= -> _ _])%Hf. eauto.
  - intros i j fi' fj' (fi & Hi & [= _ Ehi Edi])%Hf (fj & Hj & [= _ Ehj Edj])%Hf.
    rewrite Ehi, Edi, Ehj, Edj. eauto.
Qed.

Lemma update_row_faces s id f id' fw' :
  (∀ fw, face (f fw) = face fw) → catalog (update_row s id f).1 !! id' = Some fw' →
  ∃ fw, catalog s !! id' = Some fw ∧ face fw' = face fw.
Proof.
  intros Hf. unfold update_row. destruct (catalog s !! id) as [fw|] eqn:Hfw; [|eauto]. simpl.
  rewrite lookup_insert. case_decide; [|eauto]. intros [= <-]. subst. eauto.
Qed.

Lemma has_default_spec s hw :
  has_default s hw = true ↔
    ∃ id fw, catalog s !! id = Some fw ∧ rack_hardware_type fw = hw ∧ is_default fw = true.
Proof.
  unfold has_default, catalog_values. rewrite existsb_exists. setoid_rewrite <- list_elem_of_In.
  setoid_rewrite list_elem_of_fmap. unfold is_default_for. setoid_rewrite andb_true_iff.
  setoid_rewrite bool_decide_eq_true. split.
  - intros (fw & ([id fw0] & -> & Hin) & ?). exists id, fw0.
    split; [by apply elem_of_map_to_list|done].
  - intros (id & fw & Hfw & ?). exists fw. split; [|done]. exists (id, fw).
    by rewrite elem_of_map_to_list.
Qed.

(** Making [id] the default of a hardware type that has no other keeps the invariant. *)
Lemma promote_ok s id fw now :
  store_ok s → catalog s !! id = Some fw →
  (∀ j fj, catalog s !! j = Some fj → j ≠ id → rack_hardware_type fj = rack_hardware_type fw →
     is_default fj = false) →
  store_ok (update_row s id (fun fw => with_default fw true now)).1.
Proof.
  intros [Hid Hdef] Hfw Hno. unfold update_row. rewrite Hfw. split; simpl.
  - intros j fj. rewrite lookup_insert. case_decide as E; [|eauto]. intros [= <-]. subst.
    by apply (Hid _ fw).
  - intros i j fi fj. rewrite !lookup_insert. do 2 case_decide; subst; try done.
    + intros [= <-] Hj _ Hd Hh. simpl in Hh. rewrite (Hno j fj) in Hd; congruence.
    + intros Hi [= <-] Hd _ Hh. simpl in Hh. rewrite (Hno i fi) in Hd; congruence.
    + eauto.
Qed.

Lemma clear_default_face id hw now fw :
  fw_id (clear_default id hw now fw) = fw_id fw ∧
  rack_hardware_type (clear_default id hw now fw) = rack_hardware_type fw ∧
  created (clear_default id hw now fw) = created fw ∧
  is_default (clear_default id hw now fw) =
    if decide (fw_id fw ≠ id ∧ rack_hardware_type fw = hw) then false else is_default fw.
Proof.
  unfold clear_default. repeat case_bool_decide; repeat case_decide; simpl; try done;
    try naive_solver; destruct (is_default fw) eqn:E; simpl; done.
Qed.

Lemma cleared_ok s id hw now :
  store_ok s → store_ok (set_catalog s (clear_default id hw now <$> catalog s)).
Proof.
  intros [Hid Hdef]. split; simpl.
  - intros j fj. rewrite lookup_fmap. intros (fw & Hfw & ->)%fmap_Some.
    destruct (clear_default_face id hw now fw) as (-> & _). eauto.
  - intros i j fi fj. rewrite !lookup_fmap. intros (f1 & H1 & ->)%fmap_Some (f2 & H2 & ->)%fmap_Some.
    destruct (clear_default_face id hw now f1) as (_ & -> & _ & ->).
    destruct (clear_default_face id hw now f2) as (_ & -> & _ & ->).
    do 2 case_decide; try done. eauto.
Qed.

Lemma set_default_ok s id now : store_ok s → store_ok (set_default s id now).1.
Proof.
  intros Hs. unfold set_default. destruct (catalog s !! id) as [target|] eqn:Ht; [|done].
  pose proof (cleared_ok s id (rack_hardware_type target) now Hs) as Hc.
  eapply promote_ok; [done|simpl; by rewrite lookup_fmap, Ht|].
  destruct (clear_default_face id (rack_hardware_type target) now target) as (_ & Hh & _).
  intros j fj. simpl. rewrite lookup_fmap, Hh. intros (fw & Hfw & ->)%fmap_Some Hne.
  destruct (clear_default_face id (rack_hardware_type target) now fw) as (_ & -> & _ & ->).
  intros Hhw. rewrite decide_True; [done|]. split; [|done]. by rewrite (ok_id _ Hs _ _ Hfw).
Qed.

Lemma call_store_ok s c : store_ok s → store_ok (call_store s c).
Proof.
  intros Hs. destruct c; simpl.
  - unfold create. destruct (catalog s !! id) eqn:Hn; [done|]. destruct Hs as [Hid Hdef]. split; simpl.
    + intros j fj. rewrite lookup_insert. case_decide; [|eauto]. by intros [= <-].
    + intros i j fi fj. rewrite !lookup_insert. do 2 case_decide; naive_solver.
  - eapply same_faces_ok; [done|]. intros *. by apply update_row_faces.
  - eapply same_faces_ok; [done|]. intros *. by apply update_row_faces.
  - eapply same_faces_ok; [done|]. intros *. by apply update_row_faces.
  - eapply same_faces_ok; [done|]. unfold finish_preparation. intros id' fw'.
    destruct (catalog s !! id) as [fw|] eqn:Hfw; [|eauto]. case_bool_decide; [|eauto]. simpl.
    rewrite lookup_insert. case_decide; [|eauto]. intros [= <-]. subst. eauto.
  - by apply set_default_ok.
  - unfold set_default_if_none. destruct (catalog s !! id) as [fw|] eqn:Hfw; [|done].
    destruct (has_default s _) eqn:Hd; [done|]. eapply promote_ok; [done|done|].
    intros j fj Hj _ Hh. apply not_true_iff_false. intros E. apply not_true_iff_false in Hd.
    apply Hd, has_default_spec. eauto.
  - unfold delete_object. destruct (catalog s !! id); [|done].
    eapply same_faces_ok; [done|]. simpl. intros j fj. rewrite lookup_delete. case_decide; naive_solver.
  - eapply same_faces_ok; [done|]. eauto.
  - eapply same_faces_ok; [done|]. unfold record_apply_for_incarnation. case_match; eauto.
Qed.

Lemma call_all_ok cs : store_ok (call_all empty_firmware_store cs).
Proof.
  unfold call_all. induction cs as [|c cs IH] using rev_ind.
  - split; simpl; intros *; by rewrite lookup_empty.
  - rewrite foldl_app. by apply call_store_ok.
Qed.

(** ** The default of a hardware type *)

Lemma max_by_created_elem l x : max_by_created l = Some x → x ∈ l.
Proof.
  unfold max_by_created. revert x. induction l as [|y l IH] using rev_ind; intros x; [done|].
  rewrite foldl_app. simpl. destruct (foldl _ None l) as [b|] eqn:E.
  - destruct (_ <=? _)%Z; intros [= <-]; rewrite elem_of_app; [right; left|left]. by apply IH.
  - intros [= <-]. apply elem_of_app. right. left.
Qed.

Lemma max_by_created_None l : max_by_created l = None → l = [].
Proof.
  unfold max_by_created. destruct l as [|y l _] using rev_ind; [done|].
  rewrite foldl_app. simpl. repeat case_match; done.
Qed.

Definition default_row (s : MemoryFirmwareObjectStore) (hw : string) (fw : FirmwareObject) : Prop :=
  catalog s !! fw_id fw = Some fw ∧ rack_hardware_type fw = hw ∧ is_default fw = true.

Lemma find_default_spec s hw fw :
  store_ok s → find_default_by_hw_type s hw = Ok fw ↔ default_row s hw fw.
Proof.
  intros Hs. unfold find_default_by_hw_type. set (l := filter _ _).
  assert (∀ x, x ∈ l ↔ default_row s hw x) as Hl.
  { intros x. unfold l. rewrite list_elem_of_filter, Is_true_true. unfold is_default_for.
    rewrite andb_true_iff, bool_decide_eq_true. unfold catalog_values. rewrite list_elem_of_fmap.
    unfold default_row. split.
    - intros ([? ?] & [id x0] & -> & Hin%elem_of_map_to_list). simpl in *.
      by rewrite (ok_id _ Hs _ _ Hin).
    - intros (Hx & ? & ?). split; [done|]. exists (fw_id x, x).
      by rewrite elem_of_map_to_list. }
  assert (∀ x y, x ∈ l → y ∈ l → x = y) as Huniq.
  { intros x y (Hx & Hxh & Hxd)%Hl (Hy & Hyh & Hyd)%Hl.
    pose proof (ok_default _ Hs _ _ _ _ Hx Hy Hxd Hyd ltac:(congruence)). congruence. }
  rewrite <- Hl. destruct (max_by_created l) as [x|] eqn:E; simpl.
  - apply max_by_created_elem in E. split; [by intros [= <-]|]. intros Hf. f_equal. by apply Huniq.
  - apply max_by_created_None in E. rewrite E. split; [done|]. intros Hin.
    by apply not_elem_of_nil in Hin.
Qed.

(** There is one default per hardware type at any time, whatever is called:
    [find_default_by_hw_type] returns a row exactly when that row is the default
    in the catalog, so its choice of the newest never matters, and
    [has_default] says exactly whether there is one. *)
Theorem default_exact cs hw :
  let s := call_all empty_firmware_store cs in
  (∀ fw, find_default_by_hw_type s hw = Ok fw ↔ default_row s hw fw) ∧
  (has_default s hw = true ↔ ∃ fw, find_default_by_hw_type s hw = Ok fw).
Proof.
  intros s. pose proof (call_all_ok cs) as Hs. split.
  - intros fw. by apply find_default_spec.
  - rewrite has_default_spec. setoid_rewrite (find_default_spec s hw _ Hs). split.
    + intros (id & fw & Hfw & ? & ?). exists fw. unfold default_row.
      by rewrite (ok_id _ Hs _ _ Hfw).
    + intros (fw & Hfw & ? & ?). eauto.
Qed.

Lemma find_default_ext s s' hw :
  store_ok s → store_ok s' → (∀ fw, default_row s hw fw ↔ default_row s' hw fw) →
  find_default_by_hw_type s' hw = find_default_by_hw_type s hw.
Proof.
  intros Hs Hs' Hr. destruct (find_default_by_hw_type s hw) as [fw|e] eqn:E.
  - by apply find_default_spec, Hr, find_default_spec.
  - destruct (find_default_by_hw_type s' hw) as [fw|e'] eqn:E'.
    + apply find_default_spec, Hr, (find_default_spec s hw fw Hs) in E'; [congruence|done].
    + revert E E'. unfold find_default_by_hw_type, ok_or. repeat case_match; congruence.
Qed.

(** The rows after [set_default]. *)
Lemma set_default_rows s id now s' fw :
  store_ok s → set_default s id now = (s', Ok fw) →
  ∃ target, catalog s !! id = Some target ∧ fw = with_default target true now ∧
    history s' = history s ∧
    ∀ j, catalog s' !! j = if decide (j = id) then Some fw
                           else clear_default id (rack_hardware_type target) now <$> catalog s !! j.
Proof.
  intros Hs. unfold set_default. destruct (catalog s !! id) as [target|] eqn:Ht; [|done].
  unfold update_row. simpl. rewrite lookup_fmap, Ht. simpl. intros [= <- <-].
  assert (clear_default id (rack_hardware_type target) now target = target) as E.
  { unfold clear_default. rewrite (ok_id _ Hs _ _ Ht). by rewrite bool_decide_eq_true_2. }
  rewrite E. exists target. split_and!; [done..|]. intros j. simpl. rewrite lookup_insert.
  destruct (decide (id = j)) as [->|]; [by rewrite decide_True|].
  by rewrite decide_False, lookup_fmap by done.
Qed.

(** Selecting a default moves it and nothing else: afterwards the row returned
    is the default of its hardware type, the defaults of all other hardware types
    and the history are as before, and every other row is unchanged except that
    the former default lost its flag. *)
Theorem default_selection cs id now s' fw :
  let s := call_all empty_firmware_store cs in
  set_default s id now = (s', Ok fw) →
  fw_id fw = id ∧ find_default_by_hw_type s' (rack_hardware_type fw) = Ok fw ∧
  (∀ hw, hw ≠ rack_hardware_type fw →
     find_default_by_hw_type s' hw = find_default_by_hw_type s hw) ∧
  history s' = history s ∧
  (∀ j fj, catalog s !! j = Some fj → j ≠ id → ∃ fj', catalog s' !! j = Some fj' ∧
     (fj' = fj ∨
      default_row s (rack_hardware_type fw) fj ∧ fj' = with_default fj false now)).
Proof.
  intros s Hset. pose proof (call_all_ok cs) as Hs. fold s in Hs.
  pose proof (set_default_ok s id now Hs) as Hs'. rewrite Hset in Hs'. simpl in Hs'.
  destruct (set_default_rows _ _ _ _ _ Hs Hset) as (target & Ht & -> & Hh & Hrows).
  pose proof (ok_id _ Hs _ _ Ht) as Hid. split_and!; [done| | |done|].
  - apply find_default_spec; [done|]. unfold default_row. simpl. rewrite Hid, Hrows.
    by rewrite decide_True.
  - simpl. intros hw Hne. apply find_default_ext; [done|done|]. intros f. unfold default_row.
    rewrite Hrows. case_decide as Hd.
    + split; intros (Hf & Hfh & _); exfalso; apply Hne.
      * rewrite Hd, Ht in Hf. congruence.
      * injection Hf as <-. done.
    + destruct (catalog s !! fw_id f) as [g|] eqn:Hg; simpl; [|done].
      unfold clear_default. case_bool_decide as E1; simpl; [naive_solver|].
      case_bool_decide as E2; simpl; [|naive_solver]. destruct (is_default g) eqn:Eg; [|naive_solver].
      split; intros ([= E] & Hfh & Hfd); exfalso; apply Hne; subst; simpl in *; congruence.
  - intros j fj Hj Hne. rewrite Hrows, decide_False, Hj by done. eexists. split; [done|]. simpl.
    unfold clear_default, default_row. rewrite (ok_id _ Hs _ _ Hj). 
    rewrite bool_decide_eq_false_2 by done. case_bool_decide; simpl; [|by left].
    destruct (is_default fj) eqn:Ed; [right|by left]. done.
Qed.

(** ** Incarnations *)

(** [id] names the row created at [made]. *)
Definition incarnation (s : MemoryFirmwareObjectStore) (id : string) (made : Z) : Prop :=
  ∃ fw, catalog s !! id = Some fw ∧ created fw = made.

Definition creates_at (id : string) (made : Z) (c : store_call) : Prop :=
  ∃ hw cfg components, c = Create id hw cfg components made.

Lemma update_row_created s id f id' :
  (∀ fw, created (f fw) = created fw) →
  created <$> catalog (update_row s id f).1 !! id' = created <$> catalog s !! id'.
Proof.
  intros Hf. unfold update_row. destruct (catalog s !! id) as [fw|] eqn:Hfw; [|done]. simpl.
  rewrite lookup_insert. case_decide; [|done]. subst. rewrite Hfw. simpl. by rewrite Hf.
Qed.

(** Only a creation or a deletion changes which incarnation an ID names. *)
Lemma call_created s c id :
  created <$> catalog (call_store s c) !! id =
    match c with
    | Create id' _ _ _ now =>
        if decide (id' = id) then
          match catalog s !! id with Some fw => Some (created fw) | None => Some now end
        else created <$> catalog s !! id
    | Delete id' => if decide (id' = id) then None else created <$> catalog s !! id
    | _ => created <$> catalog s !! id
    end.
Proof.
  destruct c; simpl; try (done || by apply update_row_created).
  - unfold create. destruct (catalog s !! id0) eqn:E; simpl.
    + case_decide; [|done]. subst. by rewrite E.
    + rewrite lookup_insert. case_decide; [|done]. subst. by rewrite E.
  - unfold finish_preparation. destruct (catalog s !! id0) as [fw|] eqn:E; [|done].
    case_bool_decide; [|done]. simpl. rewrite lookup_insert. case_decide; [|done]. subst.
    by rewrite E.
  - unfold set_default. destruct (catalog s !! id0) as [fw|]; [|done].
    rewrite update_row_created by done. simpl. rewrite lookup_fmap.
    destruct (catalog s !! id) as [g|]; [|done]. simpl. f_equal. apply clear_default_face.
  - unfold set_default_if_none. destruct (catalog s !! id0) as [fw|]; [|done].
    destruct (has_default s _); [done|]. by apply update_row_created.
  - unfold delete_object. destruct (catalog s !! id0) eqn:E; simpl.
    + rewrite lookup_delete. by case_decide.
    + case_decide; [|done]. subst. by rewrite E.
  - unfold record_apply_for_incarnation. by case_match.
Qed.

Lemma incarnation_created s id made :
  incarnation s id made ↔ created <$> catalog s !! id = Some made.
Proof.
  unfold incarnation. rewrite fmap_Some. naive_solver.
Qed.

Lemma incarnation_survives s cs id made :
  incarnation s id made → (∀ c, c ∈ cs → ¬ creates_at id made c) →
  incarnation (call_all s cs) id made ↔ Delete id ∉ cs.
Proof.
  intros Hin Hno. unfold call_all. induction cs as [|c cs IH] using rev_ind.
  { simpl. split; [intros _; apply not_elem_of_nil|done]. }
  specialize (IH ltac:(set_solver)). specialize (Hno c ltac:(set_solver)).
  rewrite foldl_app. simpl. rewrite incarnation_created, call_created in *.
  rewrite not_elem_of_app, not_elem_of_cons.
  assert (Delete id ∉ ([] : list store_call)) by apply not_elem_of_nil.
  destruct c; try (rewrite IH; naive_solver).
  - case_decide; [|rewrite IH; naive_solver]. subst.
    destruct (catalog (foldl call_store s cs) !! id) as [g|]; simpl in IH; [rewrite IH; naive_solver|]. split.
    + intros [= ->]. exfalso. apply Hno. by repeat eexists.
    + intros [Hd _]. by apply IH in Hd.
  - case_decide; [|rewrite IH; naive_solver]. subst. naive_solver.
Qed.

(** Work is bound to one incarnation of an ID.  IDs can be reused, so the
    preparation of a bundle and the record of its application name the bundle by
    ID and creation time.  As long as a re-created bundle gets another creation
    time, both calls succeed exactly when the ID was not deleted since the
    bundle they name was created. *)
Theorem incarnation_exact s0 id hw cfg components made s1 fw cs md b now rack fwtype fwhw nodes :
  create s0 id hw cfg components made = (s1, Ok fw) →
  (∀ c, c ∈ cs → ¬ creates_at id made c) →
  (is_ok (finish_preparation (call_all s1 cs) id made md b now).2 = true ↔ Delete id ∉ cs) ∧
  (is_ok (record_apply_for_incarnation (call_all s1 cs) id made rack fwtype fwhw nodes now).2 = true
     ↔ Delete id ∉ cs).
Proof.
  intros Hc Hno. assert (incarnation s1 id made) as Hin.
  { revert Hc. unfold create. destruct (catalog s0 !! id); [done|]. intros [= <- _].
    eexists. simpl. by rewrite lookup_insert_eq. }
  rewrite <- (incarnation_survives s1 cs id made Hin Hno). unfold incarnation.
  unfold finish_preparation, record_apply_for_incarnation.
  destruct (catalog (call_all s1 cs) !! id) as [g|]; simpl; [|naive_solver].
  case_bool_decide; simpl; naive_solver.
Qed.

(** ** History *)

Lemma call_history s c : history s `prefix_of` history (call_store s c).
Proof.
  destruct c; simpl; unfold create, update_config, set_available, set_parsed_components_available,
    finish_preparation, set_default, set_default_if_none, update_row, delete_object,
    record_apply_for_incarnation; repeat case_match; simpl; done || by eexists.
Qed.

#[export] Instance newest_first_total {A} (key : A → Z) : Total (newest_first key).
Proof. intros a b. unfold newest_first. lia. Qed.

#[export] Instance newest_first_trans {A} (key : A → Z) : Transitive (newest_first key).
Proof. intros a b c. unfold newest_first. lia. Qed.

(** The apply history only grows, and listing it loses nothing: no call removes
    or changes a row, deletion of the bundle included; a listing is, newest first,
    exactly the rows of the requested bundle and racks, each flagged available
    when its ID is, at the time of the listing, a bundle marked available. *)
Theorem apply_history_listing s cs object racks :
  let s' := call_all s cs in
  history s `prefix_of` history s' ∧
  StronglySorted (newest_first (fun r => applied_at (stored r))) (list_apply_history s' object racks) ∧
  list_apply_history s' object racks ≡ₚ
    join_catalog s' <$> filter (fun h => history_matches object racks h) (history s') ∧
  (∀ r, r ∈ list_apply_history s' object racks →
     firmware_available r = true ↔
       ∃ fw, catalog s' !! object_id (stored r) = Some fw ∧ available fw = true).
Proof.
  intros s'. split_and!.
  - subst s'. unfold call_all. induction cs as [|c cs IH] using rev_ind; [done|].
    rewrite foldl_app. etransitivity; [exact IH|apply call_history].
  - apply StronglySorted_merge_sort; apply _.
  - apply merge_sort_Permutation.
  - intros r. unfold list_apply_history. rewrite merge_sort_Permutation.
    intros (h & -> & _)%list_elem_of_fmap. simpl. destruct (catalog s' !! object_id h); naive_solver.
Qed.

Section witnesses.

Definition two_bundles : list store_call :=
  [Create "fw-1" "gb200" JNull None 10; Create "fw-2" "gb200" JNull None 20;
   SetDefault "fw-1" 30].

Definition chosen : FirmwareObject := mkFirmware "fw-2" "gb200" false true JNull None 20 40.

Lemma default_selection_witness :
  let s := call_all empty_firmware_store two_bundles in
  let s' := (set_default s "fw-2" 40).1 in
  fw_id chosen = "fw-2" ∧ find_default_by_hw_type s' "gb200" = Ok chosen ∧
  (∀ hw, hw ≠ "gb200" → find_default_by_hw_type s' hw = find_default_by_hw_type s hw) ∧
  history s' = history s ∧
  (∀ j fj, catalog s !! j = Some fj → j ≠ "fw-2" → ∃ fj', catalog s' !! j = Some fj' ∧
     (fj' = fj ∨ default_row s "gb200" fj ∧ fj' = with_default fj false 40)).
Proof.
  apply (default_selection two_bundles "fw-2" 40 _ chosen). vm_compute. reflexivity.
Defined.

Lemma incarnation_exact_witness :
  let s1 := call_store empty_firmware_store (Create "fw-1" "gb200" JNull None 10) in
  let cs := [Delete "fw-1"; Create "fw-1" "gb200" JNull None 20] in
  (is_ok (finish_preparation (call_all s1 cs) "fw-1" 10 JNull true 30).2 = true ↔
     Delete "fw-1" ∉ cs) ∧
  (is_ok (record_apply_for_incarnation (call_all s1 cs) "fw-1" 10 "rack" "prod" "gb200" [] 30).2 = true
     ↔ Delete "fw-1" ∉ cs).
Proof.
  apply (incarnation_exact empty_firmware_store "fw-1" "gb200" JNull None 10 _
    (mkFirmware "fw-1" "gb200" false false JNull None 10 10)).
  - reflexivity.
  - intros c Hc (hw & cfg & comps & ->).
    apply elem_of_cons in Hc as [Hc|Hc%list_elem_of_singleton]; discriminate.
Defined.
End witnesses.
