(* ===== verification/NodeTypes.v ===== *)
(** * Node types and endpoints

    The identity tables of [domain/node.rs] and the endpoint and node
    configurations of [domain/rack.rs]. *)

From S2P Require Import Prelude RustStd.
Local Open Scope string_scope.

Module NodeTypes.
(** ** [domain/node.rs] *)

Inductive NodeType :=
| ComputeGb200Nvidia
| ComputeGb200Wiwynn
| ComputeGb200Dell
| PowershelfGb200Liteon
| SwitchGb200Nvidia
| PowershelfGb200Delta
| ComputeGb300Nvidia
| SwitchGb300Nvidia
| PowershelfGb300Liteon
| PowershelfGb300Delta
| ComputeGb300Lenovo
| ComputeGb300Supermicro
| ComputeVrnvl72Nvidia
| SwitchVrnvl72Nvidia
| PowershelfVrnvl72Liteon
| PowershelfVrnvl72Delta.

Inductive NodeKind := Compute | Powershelf | Switch.
Inductive ProductFamily := Gb200 | Gb300 | Vrnvl72.

Inductive NvfwupdServerProfile :=
| ProfileComputeGb200
| ProfileComputeGb300
| ProfileComputeVrnvl72
| ProfilePowershelf
| ProfileSwitchGb200
| ProfileSwitchGb300
| ProfileSwitchVrnvl72.

#[global] Instance NodeType_eq_dec : EqDecision NodeType.
Proof. solve_decision. Defined.
#[global] Instance NodeKind_eq_dec : EqDecision NodeKind.
Proof. solve_decision. Defined.

Definition from_stable_name (value : string) : option NodeType :=
  match_str value
    [("compute_gb200_nvidia", ComputeGb200Nvidia);
     ("compute_gb200_wiwynn", ComputeGb200Wiwynn);
     ("compute_gb200_dell", ComputeGb200Dell);
     ("powershelf_gb200_liteon", PowershelfGb200Liteon);
     ("switch_gb200_nvidia", SwitchGb200Nvidia);
     ("powershelf_gb200_delta", PowershelfGb200Delta);
     ("compute_gb300_nvidia", ComputeGb300Nvidia);
     ("switch_gb300_nvidia", SwitchGb300Nvidia);
     ("powershelf_gb300_liteon", PowershelfGb300Liteon);
     ("powershelf_gb300_delta", PowershelfGb300Delta);
     ("compute_gb300_lenovo", ComputeGb300Lenovo);
     ("compute_gb300_supermicro", ComputeGb300Supermicro);
     ("compute_vrnvl72_nvidia", ComputeVrnvl72Nvidia);
     ("switch_vrnvl72_nvidia", SwitchVrnvl72Nvidia);
     ("powershelf_vrnvl72_liteon", PowershelfVrnvl72Liteon);
     ("powershelf_vrnvl72_delta", PowershelfVrnvl72Delta)].

Definition node_type_str (t : NodeType) : string :=
  match t with
  | ComputeGb200Nvidia => "compute_gb200_nvidia"
  | ComputeGb200Wiwynn => "compute_gb200_wiwynn"
  | ComputeGb200Dell => "compute_gb200_dell"
  | PowershelfGb200Liteon => "powershelf_gb200_liteon"
  | SwitchGb200Nvidia => "switch_gb200_nvidia"
  | PowershelfGb200Delta => "powershelf_gb200_delta"
  | ComputeGb300Nvidia => "compute_gb300_nvidia"
  | SwitchGb300Nvidia => "switch_gb300_nvidia"
  | PowershelfGb300Liteon => "powershelf_gb300_liteon"
  | PowershelfGb300Delta => "powershelf_gb300_delta"
  | ComputeGb300Lenovo => "compute_gb300_lenovo"
  | ComputeGb300Supermicro => "compute_gb300_supermicro"
  | ComputeVrnvl72Nvidia => "compute_vrnvl72_nvidia"
  | SwitchVrnvl72Nvidia => "switch_vrnvl72_nvidia"
  | PowershelfVrnvl72Liteon => "powershelf_vrnvl72_liteon"
  | PowershelfVrnvl72Delta => "powershelf_vrnvl72_delta"
  end.

Lemma from_stable_name_str t : from_stable_name (node_type_str t) = Some t.
Proof. by destruct t. Qed.

Lemma node_type_str_from value t : from_stable_name value = Some t → value = node_type_str t.
Proof.
  intros H%match_str_Some. repeat (apply elem_of_cons in H as [H|H]; [by injection H as -> ->|]).
  by apply not_elem_of_nil in H.
Qed.

(** The stable name identifies a node type. *)
#[global] Instance NodeType_countable : Countable NodeType :=
  inj_countable node_type_str from_stable_name from_stable_name_str.

Definition kind (t : NodeType) : NodeKind :=
  match t with
  | ComputeGb200Nvidia | ComputeGb200Wiwynn | ComputeGb200Dell | ComputeGb300Nvidia
  | ComputeGb300Lenovo | ComputeGb300Supermicro | ComputeVrnvl72Nvidia => Compute
  | PowershelfGb200Liteon | PowershelfGb200Delta | PowershelfGb300Liteon
  | PowershelfGb300Delta | PowershelfVrnvl72Liteon | PowershelfVrnvl72Delta => Powershelf
  | SwitchGb200Nvidia | SwitchGb300Nvidia | SwitchVrnvl72Nvidia => Switch
  end.

Definition supports_flint_inband_firmware (t : NodeType) : bool :=
  match t with ComputeGb200Nvidia | ComputeGb200Wiwynn => true | _ => false end.

Definition has_recovery_flow (t : NodeType) : bool :=
  match t with ComputeGb200Nvidia => true | _ => false end.

Definition product_family (t : NodeType) : ProductFamily :=
  match t with
  | ComputeGb200Nvidia | ComputeGb200Wiwynn | ComputeGb200Dell | PowershelfGb200Liteon
  | SwitchGb200Nvidia | PowershelfGb200Delta => Gb200
  | ComputeGb300Nvidia | SwitchGb300Nvidia | PowershelfGb300Liteon | PowershelfGb300Delta
  | ComputeGb300Lenovo | ComputeGb300Supermicro => Gb300
  | ComputeVrnvl72Nvidia | SwitchVrnvl72Nvidia | PowershelfVrnvl72Liteon
  | PowershelfVrnvl72Delta => Vrnvl72
  end.

Definition uses_host_management_endpoint (t : NodeType) : bool :=
  match kind t with Switch => true | _ => false end.

Definition nvfwupd_server_profile (t : NodeType) : NvfwupdServerProfile :=
  match t with
  | ComputeGb200Nvidia | ComputeGb200Wiwynn | ComputeGb200Dell => ProfileComputeGb200
  | ComputeGb300Nvidia | ComputeGb300Lenovo | ComputeGb300Supermicro => ProfileComputeGb300
  | ComputeVrnvl72Nvidia => ProfileComputeVrnvl72
  | PowershelfGb200Liteon | PowershelfGb200Delta | PowershelfGb300Liteon
  | PowershelfGb300Delta | PowershelfVrnvl72Liteon | PowershelfVrnvl72Delta => ProfilePowershelf
  | SwitchGb200Nvidia => ProfileSwitchGb200
  | SwitchGb300Nvidia => ProfileSwitchGb300
  | SwitchVrnvl72Nvidia => ProfileSwitchVrnvl72
  end.

Definition family_rack_type (f : ProductFamily) : string :=
  match f with
  | Gb200 => "NVL_GB200"
  | Gb300 => "NVL_GB300"
  | Vrnvl72 => "NVL_VRNVL72"
  end.

Definition family_model (f : ProductFamily) : string :=
  match f with
  | Gb200 => "GB200 NVL"
  | Gb300 => "GB300 NVL"
  | Vrnvl72 => "VR NVL72"
  end.

Definition kind_display (k : NodeKind) : string :=
  match k with
  | Compute => "compute"
  | Powershelf => "powershelf"
  | Switch => "switch"
  end.

(** ** [domain/rack.rs] *)

Record Endpoint := mkEndpoint {
  ip_address : string;
  mac_address : string;
  port : N;
  host_name : option string;
}.

Inductive EndpointCredentials :=
| UserPass (username password : string)
| BmcSessionToken (token : string).

Definition has_auth_material (c : EndpointCredentials) : bool :=
  match c with
  | UserPass u p => negb (String.eqb u "") && negb (String.eqb p "")
  | BmcSessionToken t => negb (String.eqb t "")
  end.

Record EndpointConfig := mkEndpointConfig {
  endpoint : Endpoint;
  credentials : option EndpointCredentials;
  dangerously_accept_invalid_certs : bool;
}.

(** [E], [R] and [P] are the inventory policy, the recovery table and the runtime
    parameters, which only the drivers look into. *)
Record NodeConfig {E R P : Type} := mkNodeConfig {
  config_id : string;
  node_type : NodeType;
  bmc_endpoint : option EndpointConfig;
  host_endpoint : option EndpointConfig;
  expected_inventory : option E;
  recovery : option R;
  runtime_config : option P;
}.
Arguments NodeConfig : clear implicits.
End NodeTypes.
