(* ===== verification/RequestMessages.v ===== *)
(** * Request messages

    The messages of [fern/proto/rack_manager.proto] that describe a node, as the
    generated code has them: an enum field is an [i32], a message field is
    optional, a [oneof] is an option of its alternatives. *)

From S2P Require Import Prelude.

Module Pb.
(** ** The node type *)

Inductive ProtoNodeType :=
| Unspecified
| ProtoComputeGb200Nvidia
| ProtoPowershelfGb200Liteon
| ProtoSwitchGb200Nvidia
| ProtoPowershelfGb200Delta
| ProtoComputeGb300Nvidia
| ProtoSwitchGb300Nvidia
| ProtoPowershelfGb300Liteon
| ProtoPowershelfGb300Delta
| ProtoComputeGb300Lenovo
| ProtoComputeVrnvl72Nvidia
| ProtoSwitchVrnvl72Nvidia.

#[global] Instance ProtoNodeType_eq_dec : EqDecision ProtoNodeType.
Proof. solve_decision. Defined.

(** [as i32]. *)
Definition proto_value (p : ProtoNodeType) : Z :=
  match p with
  | Unspecified => 0
  | ProtoComputeGb200Nvidia => 1
  | ProtoPowershelfGb200Liteon => 2
  | ProtoSwitchGb200Nvidia => 3
  | ProtoPowershelfGb200Delta => 4
  | ProtoComputeGb300Nvidia => 5
  | ProtoSwitchGb300Nvidia => 6
  | ProtoPowershelfGb300Liteon => 7
  | ProtoPowershelfGb300Delta => 8
  | ProtoComputeGb300Lenovo => 9
  | ProtoComputeVrnvl72Nvidia => 10
  | ProtoSwitchVrnvl72Nvidia => 11
  end.

(** [TryFrom<i32>]. *)
Definition proto_try_from (n : Z) : option ProtoNodeType :=
  match n with
  | 0 => Some Unspecified
  | 1 => Some ProtoComputeGb200Nvidia
  | 2 => Some ProtoPowershelfGb200Liteon
  | 3 => Some ProtoSwitchGb200Nvidia
  | 4 => Some ProtoPowershelfGb200Delta
  | 5 => Some ProtoComputeGb300Nvidia
  | 6 => Some ProtoSwitchGb300Nvidia
  | 7 => Some ProtoPowershelfGb300Liteon
  | 8 => Some ProtoPowershelfGb300Delta
  | 9 => Some ProtoComputeGb300Lenovo
  | 10 => Some ProtoComputeVrnvl72Nvidia
  | 11 => Some ProtoSwitchVrnvl72Nvidia
  | _ => None
  end%Z.

(** ** Nodes *)

Record NetworkInterface := mkInterface {
  if_ip_address : string;
  if_mac_address : string;
  if_host_name : option string;
}.

Inductive Auth :=
| AuthUserPass (username password : string)
| AuthSessionToken (token : string).

(** [port] is a [uint32]; [credentials] holds the [auth] of the message. *)
Record PbEndpoint := mkPbEndpoint {
  pb_interface : option NetworkInterface;
  pb_port : N;
  pb_credentials : option (option Auth);
}.

(** The attributes of a [NodeDescriptor], its only field. *)
Abbreviation NodeDescriptor := (gmap string string).

Record NodeInfo := mkNodeInfo {
  ni_node_id : string;
  ni_rack_id : string;
  ni_type : option Z;
  ni_bmc_endpoint : option PbEndpoint;
  ni_host_endpoint : option PbEndpoint;
  ni_node_descriptor : option NodeDescriptor;
  ni_additional_host_endpoints : list PbEndpoint;
}.

(** An entry of [NodeDescriptorFirmwareTargetList] or
    [NodeDescriptorFirmwareObjectComponentFilter]: a descriptor and the list or
    the filter for the nodes it selects. *)
Record DescriptorEntry (T : Type) := mkDescriptorEntry {
  de_node_descriptor : option NodeDescriptor;
  de_value : option T;
}.
Arguments mkDescriptorEntry {T}.
Arguments de_node_descriptor {T}.
Arguments de_value {T}.
End Pb.
