(* ===== verification/NodeSelector.v ===== *)
(** * Resolution of node selectors

    A request names a node type by an enum value or by a descriptor of
    attributes.  [api/grpc/node_type_resolver.rs] resolves either to a node type
    and normalises requests; the enum tables are those of
    [api/grpc/conversions.rs]. *)

From S2P Require Import Prelude RustStd NodeTypes RequestMessages.
Import NodeTypes.
Export Pb.
From Stdlib Require Import Ascii.
Local Open Scope string_scope.
Local Open Scope list_scope.

Module NodeSelector.
(** ** [conversions.rs] *)

Definition proto_node_type_to_domain (nt : Z) : option NodeType :=
  p ← proto_try_from nt;
  match p with
  | ProtoComputeGb200Nvidia => Some ComputeGb200Nvidia
  | ProtoPowershelfGb200Liteon => Some PowershelfGb200Liteon
  | ProtoSwitchGb200Nvidia => Some SwitchGb200Nvidia
  | ProtoPowershelfGb200Delta => Some PowershelfGb200Delta
  | ProtoComputeGb300Nvidia => Some ComputeGb300Nvidia
  | ProtoSwitchGb300Nvidia => Some SwitchGb300Nvidia
  | ProtoPowershelfGb300Liteon => Some PowershelfGb300Liteon
  | ProtoPowershelfGb300Delta => Some PowershelfGb300Delta
  | ProtoComputeGb300Lenovo => Some ComputeGb300Lenovo
  | ProtoComputeVrnvl72Nvidia => Some ComputeVrnvl72Nvidia
  | ProtoSwitchVrnvl72Nvidia => Some SwitchVrnvl72Nvidia
  | Unspecified => None
  end.

Definition domain_node_type_to_proto (t : NodeType) : ProtoNodeType :=
  match t with
  | ComputeGb200Nvidia => ProtoComputeGb200Nvidia
  | ComputeGb200Wiwynn | ComputeGb200Dell => Unspecified
  | PowershelfGb200Liteon => ProtoPowershelfGb200Liteon
  | SwitchGb200Nvidia => ProtoSwitchGb200Nvidia
  | PowershelfGb200Delta => ProtoPowershelfGb200Delta
  | ComputeGb300Nvidia => ProtoComputeGb300Nvidia
  | SwitchGb300Nvidia => ProtoSwitchGb300Nvidia
  | PowershelfGb300Liteon => ProtoPowershelfGb300Liteon
  | PowershelfGb300Delta => ProtoPowershelfGb300Delta
  | ComputeGb300Lenovo => ProtoComputeGb300Lenovo
  | ComputeGb300Supermicro => Unspecified
  | ComputeVrnvl72Nvidia => ProtoComputeVrnvl72Nvidia
  | SwitchVrnvl72Nvidia => ProtoSwitchVrnvl72Nvidia
  | PowershelfVrnvl72Liteon => Unspecified
  | PowershelfVrnvl72Delta => Unspecified
  end.

Definition proto_node_type_to_string (nt : Z) : option string :=
  p ← proto_try_from nt;
  match p with
  | Unspecified => None
  | supported => node_type_str <$> proto_node_type_to_domain (proto_value supported)
  end.

(** ** [node_type_resolver.rs] *)

Definition KEY_ROLE : string := "role".
Definition KEY_VENDOR : string := "vendor".
Definition KEY_PRODUCT_FAMILY : string := "product_family".
Definition INVENTORY_PROFILE_ATTRIBUTE : string := "inventory_profile".
Definition ROLE_COMPUTE : string := "compute".
Definition ROLE_SWITCH : string := "switch".
Definition ROLE_POWER_SHELF : string := "power_shelf".

Record DescriptorRule := mkRule {
  rule_role : string;
  rule_vendor : string;
  rule_product_family : ProductFamily;
  rule_node_type : NodeType;
}.

Definition DESCRIPTOR_RULES : list DescriptorRule :=
  [mkRule ROLE_COMPUTE "nvidia" Gb200 ComputeGb200Nvidia;
   mkRule ROLE_COMPUTE "wiwynn" Gb200 ComputeGb200Wiwynn;
   mkRule ROLE_COMPUTE "dell" Gb200 ComputeGb200Dell;
   mkRule ROLE_COMPUTE "nvidia" Gb300 ComputeGb300Nvidia;
   mkRule ROLE_COMPUTE "lenovo" Gb300 ComputeGb300Lenovo;
   mkRule ROLE_COMPUTE "supermicro" Gb300 ComputeGb300Supermicro;
   mkRule ROLE_COMPUTE "nvidia" Vrnvl72 ComputeVrnvl72Nvidia;
   mkRule ROLE_SWITCH "nvidia" Gb200 SwitchGb200Nvidia;
   mkRule ROLE_SWITCH "nvidia" Gb300 SwitchGb300Nvidia;
   mkRule ROLE_SWITCH "nvidia" Vrnvl72 SwitchVrnvl72Nvidia;
   mkRule ROLE_POWER_SHELF "liteon" Gb200 PowershelfGb200Liteon;
   mkRule ROLE_POWER_SHELF "delta" Gb200 PowershelfGb200Delta;
   mkRule ROLE_POWER_SHELF "liteon" Gb300 PowershelfGb300Liteon;
   mkRule ROLE_POWER_SHELF "delta" Gb300 PowershelfGb300Delta;
   mkRule ROLE_POWER_SHELF "liteon" Vrnvl72 PowershelfVrnvl72Liteon;
   mkRule ROLE_POWER_SHELF "delta" Vrnvl72 PowershelfVrnvl72Delta].

Inductive NodeTypeResolutionError :=
| UnknownNodeType (value : Z)
| MissingDescriptor
| MissingAttribute (key : string)
| UnsupportedAttribute (key : string)
| UnsupportedDescriptor (role vendor product_family : string)
| DuplicateDescriptor (node_type : string).

Definition resolution_error_display (e : NodeTypeResolutionError) : string :=
  match e with
  | UnknownNodeType n => "unknown node type value " +++ pretty n
  | MissingDescriptor => "node descriptor is required when node type is unspecified"
  | MissingAttribute k => "node descriptor is missing required attribute " +++ k
  | UnsupportedAttribute k => "node descriptor attribute " +++ k +++ " is not supported"
  | UnsupportedDescriptor r v f =>
      "unsupported node descriptor role=" +++ r +++ ", vendor=" +++ v +++ ", product_family=" +++ f
  | DuplicateDescriptor t => "multiple node descriptors resolve to node type " +++ t
  end.

Definition is_supported_descriptor_attribute (key : string) : bool :=
  String.eqb key KEY_ROLE || String.eqb key KEY_VENDOR || String.eqb key KEY_PRODUCT_FAMILY
  || String.eqb key INVENTORY_PROFILE_ATTRIBUTE.

(** [Iterator::min] on strings. *)
Fixpoint min_str (l : list string) : option string :=
  match l with
  | [] => None
  | x :: l =>
      match min_str l with
      | None => Some x
      | Some y => Some (if String.leb x y then x else y)
      end
  end.

Definition validate_descriptor_attributes (d : NodeDescriptor)
    : result NodeTypeResolutionError unit :=
  match min_str (List.filter (fun k => negb (is_supported_descriptor_attribute k))
                   (map_to_list d).*1) with
  | Some key => Err (UnsupportedAttribute key)
  | None => Ok tt
  end.

Definition required_descriptor_value (d : NodeDescriptor) (key : string)
    : result NodeTypeResolutionError string :=
  match d !! key with
  | Some v => let v := trim v in if String.eqb v "" then Err (MissingAttribute key) else Ok v
  | None => Err (MissingAttribute key)
  end.

(** [replace([' ', '-', '_'], "")] drops the separators. *)
Definition is_separator (c : Ascii.ascii) : bool :=
  Ascii.eqb c " "%char || Ascii.eqb c "-"%char || Ascii.eqb c "_"%char.

Definition normalize_descriptor_value (value : string) : string :=
  of_chars (List.filter (fun c => negb (is_separator c))
              (to_ascii_lowercase (to_chars (trim value)))).

Definition product_family_name (f : ProductFamily) : string :=
  match f with Gb200 => "gb200" | Gb300 => "gb300" | Vrnvl72 => "vrnvl72" end.

Definition parse_product_family (value : string) : option ProductFamily :=
  match_str (normalize_descriptor_value value)
    [("gb200", Gb200); ("gb300", Gb300); ("vrnvl72", Vrnvl72)].

#[global] Instance ProductFamily_eq_dec : EqDecision ProductFamily.
Proof. solve_decision. Defined.

Definition rule_matches (role vendor : string) (family : ProductFamily) (r : DescriptorRule)
    : bool :=
  String.eqb role (normalize_descriptor_value (rule_role r))
  && bool_decide (family = rule_product_family r)
  && String.eqb vendor (normalize_descriptor_value (rule_vendor r)).

Definition resolve_node_descriptor (descriptor : option NodeDescriptor)
    : result NodeTypeResolutionError NodeType :=
  let? d := ok_or descriptor MissingDescriptor in
  let? _ := validate_descriptor_attributes d in
  let? role := required_descriptor_value d KEY_ROLE in
  let role := normalize_descriptor_value role in
  let? vendor := required_descriptor_value d KEY_VENDOR in
  let vendor := normalize_descriptor_value vendor in
  let? family_value := required_descriptor_value d KEY_PRODUCT_FAMILY in
  let? family := ok_or (parse_product_family family_value)
    (UnsupportedDescriptor role vendor (normalize_descriptor_value family_value)) in
  ok_or (rule_node_type <$> find_first (rule_matches role vendor family) DESCRIPTOR_RULES)
    (UnsupportedDescriptor role vendor (product_family_name family)).

Definition resolve_node_type (node_type : option Z) (descriptor : option NodeDescriptor)
    : result NodeTypeResolutionError NodeType :=
  match node_type with
  | Some raw =>
      match proto_try_from raw with
      | None => Err (UnknownNodeType raw)
      | Some Unspecified => resolve_node_descriptor descriptor
      | Some _ => ok_or (proto_node_type_to_domain raw) (UnknownNodeType raw)
      end
  | None => resolve_node_descriptor descriptor
  end.

Definition descriptor_vendor (t : NodeType) : string :=
  match t with
  | ComputeGb200Nvidia | ComputeGb300Nvidia | SwitchGb200Nvidia | SwitchGb300Nvidia
  | ComputeVrnvl72Nvidia | SwitchVrnvl72Nvidia => "nvidia"
  | PowershelfGb200Liteon | PowershelfGb300Liteon | PowershelfVrnvl72Liteon => "liteon"
  | PowershelfGb200Delta | PowershelfGb300Delta | PowershelfVrnvl72Delta => "delta"
  | ComputeGb300Lenovo => "lenovo"
  | ComputeGb300Supermicro => "supermicro"
  | ComputeGb200Wiwynn => "wiwynn"
  | ComputeGb200Dell => "dell"
  end.

Definition descriptor_role (t : NodeType) : string :=
  match kind t with
  | Compute => ROLE_COMPUTE
  | Powershelf => ROLE_POWER_SHELF
  | Switch => ROLE_SWITCH
  end.

Definition domain_node_type_to_descriptor (t : NodeType) : NodeDescriptor :=
  list_to_map [(KEY_ROLE, descriptor_role t); (KEY_VENDOR, descriptor_vendor t);
               (KEY_PRODUCT_FAMILY, product_family_name (product_family t))].

Definition inventory_profile_from_descriptor (descriptor : option NodeDescriptor)
    : option string :=
  d ← descriptor; value ← d !! INVENTORY_PROFILE_ATTRIBUTE; Some (trim value).
(** The fields of a request message that a function changes, and its result. *)
Definition normalize_node_info (ni : NodeInfo)
    : NodeInfo * result NodeTypeResolutionError NodeType :=
  let inventory_profile := inventory_profile_from_descriptor (ni_node_descriptor ni) in
  match resolve_node_type (ni_type ni) (ni_node_descriptor ni) with
  | Err e => (ni, Err e)
  | Ok t =>
      let p := domain_node_type_to_proto t in
      let descriptor :=
        if decide (p = Unspecified) then Some (domain_node_type_to_descriptor t) else None in
      let descriptor :=
        match inventory_profile with
        | Some profile =>
            Some (<[INVENTORY_PROFILE_ATTRIBUTE := profile]> (default ∅ descriptor))
        | None => descriptor
        end in
      (mkNodeInfo (ni_node_id ni) (ni_rack_id ni) (Some (proto_value p)) (ni_bmc_endpoint ni)
         (ni_host_endpoint ni) descriptor (ni_additional_host_endpoints ni), Ok t)
  end.

Definition resolve_node_info (ni : NodeInfo) : result NodeTypeResolutionError NodeType :=
  resolve_node_type (ni_type ni) (ni_node_descriptor ni).

(** The loop of [normalize_node_set] stops at the first error; what it has
    rewritten stays. *)
Fixpoint normalize_nodes (l : list NodeInfo)
    : list NodeInfo * result NodeTypeResolutionError unit :=
  match l with
  | [] => ([], Ok tt)
  | ni :: l =>
      let '(ni', res) := normalize_node_info ni in
      match res with
      | Err e => (ni' :: l, Err e)
      | Ok _ => let '(l', res) := normalize_nodes l in (ni' :: l', res)
      end
  end.

Definition normalize_node_set (nodes : option (list NodeInfo))
    : option (list NodeInfo) * result NodeTypeResolutionError unit :=
  match nodes with
  | None => (None, Ok tt)
  | Some l => let '(l', res) := normalize_nodes l in (Some l', res)
  end.

Definition normalize_node_type_selector (node_type : Z) (descriptor : option NodeDescriptor)
    : Z * option NodeDescriptor * result NodeTypeResolutionError NodeType :=
  match resolve_node_type (Some node_type) descriptor with
  | Err e => (node_type, descriptor, Err e)
  | Ok t =>
      let p := domain_node_type_to_proto t in
      (proto_value p,
       if decide (p = Unspecified) then Some (domain_node_type_to_descriptor t) else None, Ok t)
  end.

(** *** Selector tables

    Firmware targets and component filters are selected by the same code, once
    per message type [T]; [fallback] is the message's default. *)
Section tables.
Context {T : Type} (fallback : T).

Fixpoint check_keys (keys : list Z) : result NodeTypeResolutionError unit :=
  match keys with
  | [] => Ok tt
  | k :: keys =>
      match proto_node_type_to_domain k with
      | None => Err (UnknownNodeType k)
      | Some _ => check_keys keys
      end
  end.

(** The loop over the descriptor entries: the table, the types seen and the
    entries retained. *)
Fixpoint normalize_entries (entries : list (DescriptorEntry T)) (table : gmap Z T)
    (seen : gset NodeType) (retained : list (DescriptorEntry T))
    : gmap Z T * result NodeTypeResolutionError (list (DescriptorEntry T)) :=
  match entries with
  | [] => (table, Ok retained)
  | e :: entries =>
      match resolve_node_type None (de_node_descriptor e) with
      | Err err => (table, Err err)
      | Ok t =>
          if decide (t ∈ seen)
          then (table, Err (DuplicateDescriptor (node_type_str t)))
          else
            let seen := {[t]} ∪ seen in
            let p := domain_node_type_to_proto t in
            if decide (p = Unspecified)
            then normalize_entries entries table seen
                   (retained ++ [mkDescriptorEntry (Some (domain_node_type_to_descriptor t))
                                   (Some (default fallback (de_value e)))])
            else
              let table :=
                match table !! proto_value p with
                | Some _ => table
                | None => <[proto_value p := default fallback (de_value e)]> table
                end in
              normalize_entries entries table seen retained
      end
  end.

(** [normalize_firmware_target_selectors] and
    [normalize_component_filter_selectors].  [mem::take] empties the entries, and
    an error leaves them empty. *)
Definition normalize_selectors (table : gmap Z T) (entries : list (DescriptorEntry T))
    : gmap Z T * list (DescriptorEntry T) * result NodeTypeResolutionError unit :=
  match check_keys (map_to_list table).*1 with
  | Err e => (table, entries, Err e)
  | Ok _ =>
      let '(table, res) := normalize_entries entries table ∅ [] in
      match res with
      | Ok retained => (table, retained, Ok tt)
      | Err e => (table, [], Err e)
      end
  end.
End tables.

(** *** Resolved tables *)
Section resolve.
Context {T : Type}.

Fixpoint resolve_keys (table : list (Z * T)) (resolved : gmap NodeType T)
    : result NodeTypeResolutionError (gmap NodeType T) :=
  match table with
  | [] => Ok resolved
  | (k, v) :: table =>
      match proto_node_type_to_domain k with
      | None => Err (UnknownNodeType k)
      | Some t => resolve_keys table (<[t := v]> resolved)
      end
  end.

Fixpoint resolve_entries (entries : list (DescriptorEntry T)) (seen : gset NodeType)
    (resolved : gmap NodeType T) : result NodeTypeResolutionError (gmap NodeType T) :=
  match entries with
  | [] => Ok resolved
  | e :: entries =>
      let? t := resolve_node_type None (de_node_descriptor e) in
      if decide (t ∈ seen) then Err (DuplicateDescriptor (node_type_str t))
      else
        let resolved :=
          match de_value e, resolved !! t with
          | Some v, None => <[t := v]> resolved
          | _, _ => resolved
          end in
        resolve_entries entries ({[t]} ∪ seen) resolved
  end.

(** [resolve_firmware_target_selectors] and [resolve_component_filter_selectors]. *)
Definition resolve_selectors (table : gmap Z T) (entries : list (DescriptorEntry T))
    : result NodeTypeResolutionError (gmap NodeType T) :=
  let? resolved := resolve_keys (map_to_list table) ∅ in
  resolve_entries entries ∅ resolved.
End resolve.
End NodeSelector.
