(* ===== verification/NodeSelectorTheorems.v ===== *)
(** * What the selector resolution guarantees

    Which descriptors denote which node type, that normalising a request keeps
    its meaning, and that selector tables mean the same before and after. *)

From S2P Require Import Prelude RustStd NodeTypes RequestMessages NodeSelector.
Import NodeTypes NodeSelector.
Local Open Scope string_scope.
Local Open Scope list_scope.

(** ** Descriptors *)

(** [d] has no attribute but the known ones, and has those of [t]'s canonical
    descriptor up to case, surrounding white space and separators. *)
Definition describes (d : NodeDescriptor) (t : NodeType) : Prop :=
  (∀ k, is_Some (d !! k) → is_supported_descriptor_attribute k = true) ∧
  (∀ k v, domain_node_type_to_descriptor t !! k = Some v →
     ∃ w, d !! k = Some w ∧ normalize_descriptor_value w = normalize_descriptor_value v).

Lemma min_str_None l : min_str l = None ↔ l = [].
Proof. destruct l as [|x l]; [done|]. simpl. by destruct (min_str l). Qed.

Lemma validate_spec d :
  validate_descriptor_attributes d = Ok tt ↔
  ∀ k, is_Some (d !! k) → is_supported_descriptor_attribute k = true.
Proof.
  unfold validate_descriptor_attributes. set (l := List.filter _ _).
  assert (l = [] ↔ ∀ k, is_Some (d !! k) → is_supported_descriptor_attribute k = true) as <-.
  { assert (∀ k, k ∈ l ↔ is_supported_descriptor_attribute k = false ∧ is_Some (d !! k)) as Hl.
    { intros k. unfold l. rewrite list_elem_of_In, filter_In, <- list_elem_of_In, negb_true_iff.
      rewrite list_elem_of_fmap. split.
      - intros [([k' v] & -> & Hk%elem_of_map_to_list) ?]. eauto.
      - intros [? [v Hv]]. split; [|done]. exists (k, v). split; [done|]. by apply elem_of_map_to_list. }
    split.
    - intros E k Hk. destruct (is_supported_descriptor_attribute k) eqn:Hs; [done|].
      assert (k ∈ l) as Hin by by apply Hl. rewrite E in Hin. by apply not_elem_of_nil in Hin.
    - intros Hs. destruct l as [|k l']; [done|]. exfalso.
      destruct (proj1 (Hl k)) as [E Hk]; [left|]. rewrite Hs in E; done. }
  rewrite <- min_str_None. by destruct (min_str l).
Qed.

Lemma normalize_trim v : normalize_descriptor_value (trim v) = normalize_descriptor_value v.
Proof. unfold normalize_descriptor_value. by rewrite trim_idemp. Qed.

Lemma normalize_blank v : trim v = "" → normalize_descriptor_value v = "".
Proof. unfold normalize_descriptor_value. by intros ->. Qed.

Lemma required_spec d k v :
  required_descriptor_value d k = Ok v ↔ ∃ w, d !! k = Some w ∧ v = trim w ∧ v ≠ "".
Proof.
  unfold required_descriptor_value. destruct (d !! k) as [w|]; [|naive_solver]. simpl.
  destruct (String.eqb (trim w) "") eqn:E.
  - apply String.eqb_eq in E. naive_solver.
  - apply String.eqb_neq in E. naive_solver.
Qed.

Lemma parse_family_spec v f :
  parse_product_family v = Some f ↔ normalize_descriptor_value v = product_family_name f.
Proof.
  unfold parse_product_family. split; [|by intros ->; destruct f].
  intros H%match_str_Some. repeat (apply elem_of_cons in H as [H|H]; [by injection H as -> ->|]).
  by apply not_elem_of_nil in H.
Qed.

Lemma canonical_lookup t k v :
  domain_node_type_to_descriptor t !! k = Some v ↔
  (k = KEY_ROLE ∧ v = descriptor_role t) ∨ (k = KEY_VENDOR ∧ v = descriptor_vendor t) ∨
  (k = KEY_PRODUCT_FAMILY ∧ v = product_family_name (product_family t)).
Proof.
  unfold domain_node_type_to_descriptor. rewrite <- elem_of_list_to_map.
  - rewrite !elem_of_cons, elem_of_nil. naive_solver.
  - simpl. repeat constructor; set_solver.
Qed.

(** The rule a node type's canonical attributes select is its own, and a rule's
    attributes are those of its type. *)
Lemma rules_complete t :
  rule_node_type <$>
    find_first (rule_matches (normalize_descriptor_value (descriptor_role t))
                  (normalize_descriptor_value (descriptor_vendor t)) (product_family t))
      DESCRIPTOR_RULES = Some t.
Proof. by destruct t. Qed.

Lemma rules_sound :
  Forall (fun r => rule_role r = descriptor_role (rule_node_type r) ∧
            rule_vendor r = descriptor_vendor (rule_node_type r) ∧
            rule_product_family r = product_family (rule_node_type r)) DESCRIPTOR_RULES.
Proof. by repeat constructor. Qed.

Lemma canonical_nonempty t v k :
  domain_node_type_to_descriptor t !! k = Some v → normalize_descriptor_value v ≠ "".
Proof. rewrite canonical_lookup. intros [[_ ->]|[[_ ->]|[_ ->]]]; by destruct t. Qed.

Lemma resolve_descriptor_sound d t : resolve_node_descriptor (Some d) = Ok t → describes d t.
Proof.
  unfold resolve_node_descriptor. cbn [ok_or result_bind].
  destruct (validate_descriptor_attributes d) as [[]|] eqn:Hv; [|done]; cbn [ok_or result_bind].
  destruct (required_descriptor_value d KEY_ROLE) as [role|] eqn:Hr; [|done]; cbn [ok_or result_bind].
  destruct (required_descriptor_value d KEY_VENDOR) as [vendor|] eqn:Hve; [|done]; cbn [ok_or result_bind].
  destruct (required_descriptor_value d KEY_PRODUCT_FAMILY) as [fam|] eqn:Hf; [|done]; cbn [ok_or result_bind].
  destruct (parse_product_family fam) as [f|] eqn:Hp; [|done]; cbn [ok_or result_bind].
  destruct (find_first (rule_matches _ _ _) _) as [r|] eqn:Hfind; [|done].
  intros [= <-].
  apply find_first_Some in Hfind as [Hin Hm]. unfold rule_matches in Hm. reflect_bools.
  destruct (proj1 (Forall_forall _ _) rules_sound r Hin) as (Hrr & Hrv & Hrf).
  apply required_spec in Hr as (w1 & Hw1 & -> & _). apply required_spec in Hve as (w2 & Hw2 & -> & _).
  apply required_spec in Hf as (w3 & Hw3 & -> & _). apply parse_family_spec in Hp.
  rewrite normalize_trim in *. split; [by apply validate_spec|].
  intros k v. rewrite canonical_lookup. intros [[-> ->]|[[-> ->]|[-> ->]]].
  - exists w1. split; [done|]. rewrite <- Hrr. by apply String.eqb_eq.
  - exists w2. split; [done|]. rewrite <- Hrv. by apply String.eqb_eq.
  - exists w3. split; [done|]. rewrite Hp, <- Hrf. subst f. by destruct (rule_product_family r).
Qed.

Lemma resolve_descriptor_complete d t : describes d t → resolve_node_descriptor (Some d) = Ok t.
Proof.
  intros [Hs Hd]. unfold resolve_node_descriptor. cbn [ok_or result_bind].
  rewrite (proj2 (validate_spec d) Hs). cbn [result_bind].
  assert (∀ k v, domain_node_type_to_descriptor t !! k = Some v →
    ∃ w, required_descriptor_value d k = Ok w ∧
      normalize_descriptor_value w = normalize_descriptor_value v) as Hreq.
  { intros k v Hv. destruct (Hd k v Hv) as (w & Hw & E). exists (trim w).
    rewrite required_spec, normalize_trim. split; [|done]. exists w. split_and!; [done..|].
    intros Hb%normalize_blank. apply (canonical_nonempty _ _ _ Hv). by rewrite <- E. }
  setoid_rewrite canonical_lookup in Hreq.
  destruct (Hreq KEY_ROLE (descriptor_role t)) as (r & -> & Hr); [by left|].
  destruct (Hreq KEY_VENDOR (descriptor_vendor t)) as (v & -> & Hv); [by right; left|].
  destruct (Hreq KEY_PRODUCT_FAMILY (product_family_name (product_family t))) as (f & -> & Hf);
    [by right; right|].
  cbn [result_bind]. rewrite (proj2 (parse_family_spec f (product_family t))).
  - cbn [ok_or result_bind]. rewrite Hr, Hv, rules_complete. done.
  - rewrite Hf. by destruct (product_family t).
Qed.

Lemma resolve_descriptor_spec d t : resolve_node_descriptor (Some d) = Ok t ↔ describes d t.
Proof. split; [apply resolve_descriptor_sound|apply resolve_descriptor_complete]. Qed.

Lemma canonical_supported k t :
  is_Some (domain_node_type_to_descriptor t !! k) → is_supported_descriptor_attribute k = true.
Proof. intros [v Hv]. apply canonical_lookup in Hv. naive_solver. Qed.

Lemma canonical_describes t : describes (domain_node_type_to_descriptor t) t.
Proof. split; [intros k; apply canonical_supported|eauto]. Qed.

Lemma profile_describes d t profile :
  describes d t → describes (<[INVENTORY_PROFILE_ATTRIBUTE := profile]> d) t.
Proof.
  intros [Hs Hd]. split.
  - intros k. rewrite lookup_insert. case_decide; [by subst|apply Hs].
  - intros k v Hv. destruct (Hd _ _ Hv) as (w & ? & ?). exists w. split; [|done].
    rewrite lookup_insert_ne; [done|]. intros <-. apply canonical_lookup in Hv. naive_solver.
Qed.

(** ** The enum *)

Lemma proto_roundtrip p : proto_try_from (proto_value p) = Some p.
Proof. by destruct p. Qed.

Lemma proto_try_from_value n p : proto_try_from n = Some p → n = proto_value p.
Proof. unfold proto_try_from. repeat case_match; intros [= <-]; done. Qed.

Lemma to_domain_spec n t :
  proto_node_type_to_domain n = Some t ↔
  n = proto_value (domain_node_type_to_proto t) ∧ domain_node_type_to_proto t ≠ Unspecified.
Proof.
  split.
  - unfold proto_node_type_to_domain. destruct (proto_try_from n) as [p|] eqn:E; [|done]. simpl.
    apply proto_try_from_value in E as ->. destruct p; intros [= <-]; done.
  - intros [-> Hp]. unfold proto_node_type_to_domain. rewrite proto_roundtrip. simpl.
    by destruct t.
Qed.

Lemma resolve_type_enum raw d t :
  proto_node_type_to_domain raw = Some t → resolve_node_type (Some raw) d = Ok t.
Proof.
  intros H. pose proof H as [-> Hp]%to_domain_spec. unfold resolve_node_type.
  rewrite proto_roundtrip, H. by destruct (domain_node_type_to_proto t).
Qed.

Lemma resolve_type_spec nt d t :
  resolve_node_type nt d = Ok t ↔
  (∃ raw, nt = Some raw ∧ proto_node_type_to_domain raw = Some t) ∨
  ((nt = None ∨ nt = Some 0%Z) ∧ ∃ attributes, d = Some attributes ∧ describes attributes t).
Proof.
  assert (resolve_node_descriptor d = Ok t ↔
    ∃ attributes, d = Some attributes ∧ describes attributes t) as Hd.
  { destruct d as [a|]; [rewrite resolve_descriptor_spec|]; naive_solver. }
  split.
  - destruct nt as [raw|]; cbn [resolve_node_type]; [|rewrite Hd; auto].
    destruct (proto_try_from raw) as [p|] eqn:E; [|done]. apply proto_try_from_value in E as ->.
    destruct (proto_node_type_to_domain (proto_value p)) as [t'|] eqn:Et;
      [destruct p; [done|..]; intros [= <-]; eauto|].
    destruct p; try done. rewrite Hd. auto.
  - intros [(raw & -> & Hr)|[[-> | ->] Ha]]; [by apply resolve_type_enum|..]; by apply Hd.
Qed.

(** A selector resolves to a node type exactly when it says so: an enum value
    other than UNSPECIFIED decides alone, and must be the value of that type; else
    the descriptor must be there, have no attribute but the known ones, and agree
    with the type's canonical descriptor on role, vendor and product family up to
    case, white space and separators. *)
Theorem resolution_exact nt d t :
  resolve_node_type nt d = Ok t ↔
  (∃ raw, nt = Some raw ∧ raw = proto_value (domain_node_type_to_proto t) ∧
     domain_node_type_to_proto t ≠ Unspecified) ∨
  ((nt = None ∨ nt = Some 0%Z) ∧ ∃ attributes, d = Some attributes ∧ describes attributes t).
Proof. rewrite resolve_type_spec. setoid_rewrite to_domain_spec. done. Qed.

(** ** Normalisation *)

Lemma profile_insert d profile :
  inventory_profile_from_descriptor (Some (<[INVENTORY_PROFILE_ATTRIBUTE := profile]> d)) =
  Some (trim profile).
Proof. unfold inventory_profile_from_descriptor. simpl. by rewrite lookup_insert_eq. Qed.

Lemma profile_canonical t :
  inventory_profile_from_descriptor (Some (domain_node_type_to_descriptor t)) = None.
Proof. by destruct t. Qed.

Lemma profile_trimmed d p : inventory_profile_from_descriptor d = Some p → trim p = p.
Proof.
  unfold inventory_profile_from_descriptor. destruct d as [d|]; [|done]. simpl.
  destruct (d !! _); [|done]. simpl. intros [= <-]. apply trim_idemp.
Qed.

(** The descriptor a normalised node carries. *)
Definition normal_descriptor (t : NodeType) (profile : option string) : option NodeDescriptor :=
  let base := if decide (domain_node_type_to_proto t = Unspecified)
              then Some (domain_node_type_to_descriptor t) else None in
  match profile with
  | Some p => Some (<[INVENTORY_PROFILE_ATTRIBUTE := p]> (default ∅ base))
  | None => base
  end.

Lemma normal_profile t profile :
  (∀ p, profile = Some p → trim p = p) →
  inventory_profile_from_descriptor (normal_descriptor t profile) = profile.
Proof.
  intros Hp. unfold normal_descriptor. destruct profile as [p|].
  - rewrite profile_insert. by rewrite Hp.
  - case_decide; [apply profile_canonical|done].
Qed.

Lemma normal_resolves t profile :
  resolve_node_type (Some (proto_value (domain_node_type_to_proto t))) (normal_descriptor t profile)
  = Ok t.
Proof.
  apply resolve_type_spec.
  destruct (decide (domain_node_type_to_proto t = Unspecified)) as [E|E].
  - right. rewrite E. split; [by right|]. unfold normal_descriptor. rewrite decide_True by done.
    destruct profile as [p|]; eexists; (split; [done|]); [apply profile_describes|];
      apply canonical_describes.
  - left. eexists. split; [done|]. by apply to_domain_spec.
Qed.

Lemma normalize_unfold ni t :
  resolve_node_info ni = Ok t →
  normalize_node_info ni =
  (mkNodeInfo (ni_node_id ni) (ni_rack_id ni) (Some (proto_value (domain_node_type_to_proto t)))
     (ni_bmc_endpoint ni) (ni_host_endpoint ni)
     (normal_descriptor t (inventory_profile_from_descriptor (ni_node_descriptor ni)))
     (ni_additional_host_endpoints ni), Ok t).
Proof. unfold resolve_node_info, normalize_node_info. by intros ->. Qed.

(** Normalising a node of a request keeps what it selects: the result is the
    type the node resolves to, the rewritten node resolves to that type and to
    the same inventory profile, keeps the IDs and endpoints, and is a fixed point
    of the normalisation; a node that does not resolve is left as it was. *)
Theorem normalize_roundtrip ni ni' res :
  normalize_node_info ni = (ni', res) →
  res = resolve_node_info ni ∧
  resolve_node_info ni' = res ∧
  normalize_node_info ni' = (ni', res) ∧
  inventory_profile_from_descriptor (ni_node_descriptor ni') =
    inventory_profile_from_descriptor (ni_node_descriptor ni) ∧
  (ni_node_id ni', ni_rack_id ni', ni_bmc_endpoint ni', ni_host_endpoint ni',
   ni_additional_host_endpoints ni') =
  (ni_node_id ni, ni_rack_id ni, ni_bmc_endpoint ni, ni_host_endpoint ni,
   ni_additional_host_endpoints ni).
Proof.
  intros Hn. destruct (resolve_node_info ni) as [t|e] eqn:Hr.
  - rewrite (normalize_unfold _ _ Hr) in Hn. injection Hn as <- <-.
    set (profile := inventory_profile_from_descriptor (ni_node_descriptor ni)).
    assert (∀ p, profile = Some p → trim p = p) as Hp by apply profile_trimmed.
    match goal with |- context [resolve_node_info ?x] => set (ni' := x) end.
    assert (resolve_node_info ni' = Ok t) as Hr' by apply normal_resolves.
    split_and!; [done|done| |by apply normal_profile|done].
    rewrite (normalize_unfold _ _ Hr'). simpl. by rewrite normal_profile.
  - unfold resolve_node_info in Hr. unfold normalize_node_info in Hn. rewrite Hr in Hn.
    injection Hn as <- <-. unfold normalize_node_info, resolve_node_info. by rewrite Hr.
Qed.

Definition wiwynn_tray : NodeInfo :=
  mkNodeInfo "node" "rack" None None None
    (Some (list_to_map [("role", " Compute "); ("vendor", "WIWYNN"); ("product_family", "GB-200");
                        ("inventory_profile", " lab ")])) [].

Lemma normalize_roundtrip_witness :
  let '(ni', res) := normalize_node_info wiwynn_tray in
  res = Ok ComputeGb200Wiwynn ∧ normalize_node_info ni' = (ni', res).
Proof.
  destruct (normalize_node_info wiwynn_tray) as [ni' res] eqn:E. split.
  - assert (res = (normalize_node_info wiwynn_tray).2) as -> by by rewrite E. by vm_compute.
  - apply (normalize_roundtrip wiwynn_tray ni' res E).
Defined.

(** ** Selector tables *)
Section tables.
Context {T : Type} (fallback : T).
Implicit Types (table : gmap Z T) (entries : list (DescriptorEntry T)) (t : NodeType).

(** The key of a node type in an enum-keyed table. *)
Definition enum_key t : option Z :=
  if decide (domain_node_type_to_proto t = Unspecified) then None
  else Some (proto_value (domain_node_type_to_proto t)).

Lemma to_domain_key k t : proto_node_type_to_domain k = Some t ↔ enum_key t = Some k.
Proof. rewrite to_domain_spec. unfold enum_key. case_decide; naive_solver. Qed.

Lemma resolve_keys_spec (l : list (Z * T)) acc m :
  NoDup l.*1 → resolve_keys l acc = Ok m →
  ∀ t, m !! t = match enum_key t ≫= (fun k => (list_to_map l : gmap Z T) !! k) with
                | Some v => Some v
                | None => acc !! t
                end.
Proof.
  revert acc. induction l as [|[k v] l IH]; intros acc; simpl.
  - intros _ [= <-] t. by destruct (enum_key t).
  - intros [Hk Hnd]%NoDup_cons. destruct (proto_node_type_to_domain k) as [t0|] eqn:E; [|done].
    intros Hm t. rewrite (IH _ Hnd Hm). destruct (enum_key t) as [k'|] eqn:Ek; simpl.
    + destruct (decide (k = k')) as [<-|Hd].
      * apply to_domain_key in Ek. rewrite E in Ek. injection Ek as ->.
        rewrite not_elem_of_list_to_map_1 by done. by rewrite !lookup_insert_eq.
      * rewrite (lookup_insert_ne (list_to_map l) k k' v) by done.
        destruct (list_to_map l !! k'); [done|]. rewrite lookup_insert_ne; [done|].
        intros ->. apply to_domain_key in E. congruence.
    + rewrite lookup_insert_ne; [done|]. intros ->. apply to_domain_key in E. congruence.
Qed.

Lemma resolve_keys_check (l : list (Z * T)) acc :
  match check_keys l.*1 with
  | Ok _ => ∃ m, resolve_keys l acc = Ok m
  | Err e => resolve_keys l acc = Err e
  end.
Proof.
  revert acc. induction l as [|[k v] l IH]; intros acc; simpl; [eauto|].
  destruct (proto_node_type_to_domain k) as [t|]; [apply IH|done].
Qed.

Lemma check_keys_spec (l : list Z) :
  check_keys l = Ok tt ↔ ∀ k, k ∈ l → ∃ t, enum_key t = Some k.
Proof.
  setoid_rewrite <- to_domain_key. induction l as [|k l IH]; simpl.
  - split; [intros _ k Hk; by apply not_elem_of_nil in Hk|done].
  - setoid_rewrite elem_of_cons. destruct (proto_node_type_to_domain k) eqn:E.
    + rewrite IH. naive_solver.
    + split; [done|]. intros H. destruct (H k) as [? ?]; [by left|congruence].
Qed.

Lemma table_keys table k : k ∈ (map_to_list table).*1 ↔ is_Some (table !! k).
Proof.
  rewrite list_elem_of_fmap. split.
  - intros ([k' v] & -> & H%elem_of_map_to_list). eauto.
  - intros [v Hv]. exists (k, v). split; [done|]. by apply elem_of_map_to_list.
Qed.

Lemma resolve_table_spec table m t :
  resolve_keys (map_to_list table) ∅ = Ok m → m !! t = enum_key t ≫= (fun k => table !! k).
Proof.
  intros Hm. rewrite (resolve_keys_spec _ _ _ (NoDup_fst_map_to_list table) Hm).
  rewrite list_to_map_to_list, lookup_empty. by destruct (_ ≫= _).
Qed.

(** The state of the two loops after the same entries. *)
Record sync table (kept : list (NodeType * T)) (seen : gset NodeType)
    (resolved : gmap NodeType T) : Prop := {
  s_new : ∀ t, t ∉ seen → resolved !! t = enum_key t ≫= (fun k => table !! k);
  s_seen : ∀ t k, enum_key t = Some k →
    default fallback (table !! k) = default fallback (resolved !! t);
  s_kept : ∀ t, enum_key t = None →
    default fallback ((list_to_map kept : gmap NodeType T) !! t) =
    default fallback (resolved !! t);
  s_nodup : NoDup kept.*1;
  s_special : ∀ t, t ∈ kept.*1 → enum_key t = None ∧ t ∈ seen;
  s_keys : ∀ k, is_Some (table !! k) → ∃ t, enum_key t = Some k;
}.

Definition kept_entry (x : NodeType * T) : DescriptorEntry T :=
  mkDescriptorEntry (Some (domain_node_type_to_descriptor x.1)) (Some x.2).

Definition add_resolved t (o : option T) (resolved : gmap NodeType T) : gmap NodeType T :=
  match o, resolved !! t with Some v, None => <[t := v]> resolved | _, _ => resolved end.

Lemma add_resolved_ne t t' o resolved : t ≠ t' → add_resolved t o resolved !! t' = resolved !! t'.
Proof.
  intros. unfold add_resolved. destruct o, (resolved !! t); [done| |done|done].
  by rewrite lookup_insert_ne.
Qed.

Lemma add_resolved_eq t o resolved :
  resolved !! t = None → add_resolved t o resolved !! t = o.
Proof.
  intros E. unfold add_resolved. rewrite E. destruct o; [by rewrite lookup_insert_eq|done].
Qed.

Lemma sync_special table kept seen resolved t o :
  sync table kept seen resolved → t ∉ seen → enum_key t = None →
  sync table (kept ++ [(t, default fallback o)]) ({[t]} ∪ seen) (add_resolved t o resolved).
Proof.
  intros [Hn Hs Hk Hd Hp Hkeys] Ht Ek.
  assert (resolved !! t = None) as Hnone by by rewrite Hn, Ek.
  assert (t ∉ kept.*1) as Hnew by (intros Hin; apply Hp in Hin; naive_solver).
  split; [| | | | |done].
  - intros t' Ht'. rewrite add_resolved_ne by set_solver. apply Hn. set_solver.
  - intros t' k Hk'. rewrite add_resolved_ne by congruence. by apply Hs.
  - intros t' Hk'. rewrite list_to_map_app, lookup_union. simpl. rewrite insert_empty.
    destruct (decide (t = t')) as [->|Hne].
    + rewrite add_resolved_eq, lookup_singleton_eq by done.
      rewrite not_elem_of_list_to_map_1 by done. done.
    + rewrite add_resolved_ne, lookup_singleton_ne, right_id by (done || apply _). by apply Hk.
  - rewrite fmap_app. apply NoDup_app. split_and!; [done| |apply NoDup_singleton].
    intros x Hx ->%list_elem_of_singleton. done.
  - intros t'. rewrite fmap_app, elem_of_app. simpl. rewrite list_elem_of_singleton.
    intros [Hin| ->]; [|set_solver]. apply Hp in Hin. set_solver.
Qed.

Definition add_table table (k : Z) (o : option T) : gmap Z T :=
  match table !! k with Some _ => table | None => <[k := default fallback o]> table end.

Lemma sync_enum table kept seen resolved t k o :
  sync table kept seen resolved → t ∉ seen → enum_key t = Some k →
  sync (add_table table k o) kept ({[t]} ∪ seen) (add_resolved t o resolved).
Proof.
  intros [Hn Hs Hk Hd Hp Hkeys] Ht Ek.
  assert (resolved !! t = table !! k) as Et by by rewrite Hn, Ek.
  assert (∀ t' k', enum_key t' = Some k' → t' ≠ t → k' ≠ k) as Hinj.
  { intros t' k' E Hne ->. apply to_domain_key in E, Ek. congruence. }
  assert (∀ k', k' ≠ k → add_table table k o !! k' = table !! k') as Hother.
  { intros k' Hne. unfold add_table. destruct (table !! k); [done|]. by rewrite lookup_insert_ne. }
  split; [| | |done| |].
  - intros t' Ht'. rewrite add_resolved_ne by set_solver. rewrite Hn by set_solver.
    destruct (enum_key t') as [k'|] eqn:E; [|done]. simpl. rewrite Hother; [done|].
    eapply Hinj; [done|set_solver].
  - intros t' k' E. destruct (decide (t' = t)) as [->|Hne].
    + assert (k' = k) as -> by congruence. unfold add_table.
      destruct (table !! k) as [v|] eqn:Ev.
      * rewrite Ev. unfold add_resolved. rewrite Et. destruct o; simpl; by rewrite Et.
      * rewrite lookup_insert_eq, add_resolved_eq by done. done.
    + rewrite Hother, add_resolved_ne by (done || by eapply Hinj). by apply Hs.
  - intros t' E. rewrite add_resolved_ne by congruence. by apply Hk.
  - intros t' Hin. apply Hp in Hin. set_solver.
  - intros k' Hk'. destruct (decide (k' = k)) as [->|]; [eauto|]. rewrite Hother in Hk' by done. eauto.
Qed.

Lemma loops_agree entries table kept seen resolved :
  sync table kept seen resolved →
  match normalize_entries fallback entries table seen (kept_entry <$> kept) with
  | (table', Ok retained) => ∃ kept' seen' resolved', retained = kept_entry <$> kept' ∧
      resolve_entries entries seen resolved = Ok resolved' ∧ sync table' kept' seen' resolved'
  | (_, Err e) => resolve_entries entries seen resolved = Err e
  end.
Proof.
  revert table kept seen resolved. induction entries as [|e entries IH];
    intros table kept seen resolved Hs; cbn [normalize_entries resolve_entries].
  - by exists kept, seen, resolved.
  - destruct (resolve_node_type None (de_node_descriptor e)) as [t|err]; [|done].
    cbn [result_bind]. destruct (decide (t ∈ seen)) as [|Ht]; [done|].
    fold (add_resolved t (de_value e) resolved).
    destruct (decide (domain_node_type_to_proto t = Unspecified)) as [Ep|Ep].
    + assert (enum_key t = None) as Ek by (unfold enum_key; by rewrite decide_True).
      replace (_ ++ [_]) with (kept_entry <$> (kept ++ [(t, default fallback (de_value e))]))
        by by rewrite fmap_app.
      apply IH. by apply sync_special.
    + assert (enum_key t = Some (proto_value (domain_node_type_to_proto t))) as Ek
        by (unfold enum_key; by rewrite decide_False).
      fold (add_table table (proto_value (domain_node_type_to_proto t)) (de_value e)).
      apply IH. by apply sync_enum.
Qed.

Lemma kept_resolve kept seen acc :
  NoDup kept.*1 → (∀ t, t ∈ kept.*1 → (t ∉ seen) ∧ acc !! t = None) →
  ∃ m, resolve_entries (kept_entry <$> kept) seen acc = Ok m ∧
    ∀ t, m !! t = (match (list_to_map kept : gmap NodeType T) !! t with
                   | Some v => Some v
                   | None => acc !! t
                   end).
Proof.
  revert seen acc. induction kept as [|[t v] kept IH]; intros seen acc; [eauto|].
  intros [Ht Hnd]%NoDup_cons Hk. simpl in Ht. destruct (Hk t) as [Hseen Hacc]; [left|].
  cbn [fmap list_fmap kept_entry resolve_entries de_node_descriptor de_value fst snd].
  rewrite (proj2 (resolve_type_spec None _ t)); [|right; split; [by left|]; eexists;
    split; [done|apply canonical_describes]].
  cbn [result_bind]. rewrite decide_False, Hacc by done.
  destruct (IH ({[t]} ∪ seen) (<[t := v]> acc) Hnd) as (m & -> & Hm).
  { intros t' Hin. assert (t ≠ t') by (intros ->; done). rewrite lookup_insert_ne by done.
    destruct (Hk t'); [by right|]. set_solver. }
  exists m. split; [done|]. intros t'. rewrite Hm. simpl. destruct (decide (t = t')) as [<-|Hne].
  - rewrite not_elem_of_list_to_map_1 by done. by rewrite !lookup_insert_eq.
  - rewrite (lookup_insert_ne (list_to_map kept) t t' v) by done.
    destruct (list_to_map kept !! t'); [done|]. by rewrite lookup_insert_ne.
Qed.

Lemma sync_start table m :
  resolve_keys (map_to_list table) ∅ = Ok m → check_keys (map_to_list table).*1 = Ok tt →
  sync table [] ∅ m.
Proof.
  intros Hm Hc. split.
  - intros t _. by apply resolve_table_spec.
  - intros t k Ek. by rewrite (resolve_table_spec _ _ _ Hm), Ek.
  - intros t Ek. by rewrite (resolve_table_spec _ _ _ Hm), Ek.
  - constructor.
  - intros t Hin. by apply not_elem_of_nil in Hin.
  - intros k Hk. by apply (proj1 (check_keys_spec _) Hc), table_keys.
Qed.

Lemma sync_resolves table kept seen resolved :
  sync table kept seen resolved →
  ∃ m, resolve_selectors table (kept_entry <$> kept) = Ok m ∧
    ∀ t, default fallback (m !! t) = default fallback (resolved !! t).
Proof.
  intros [_ Hs Hk Hd Hp Hkeys]. unfold resolve_selectors.
  pose proof (resolve_keys_check (map_to_list table) ∅) as Hc.
  rewrite (proj2 (check_keys_spec _)) in Hc; [|intros k Hin%table_keys; by apply Hkeys].
  destruct Hc as [m0 Hm0]. rewrite Hm0. cbn [result_bind].
  destruct (kept_resolve kept ∅ m0 Hd) as (m & -> & Hm).
  { intros t Hin. split; [set_solver|]. rewrite (resolve_table_spec _ _ _ Hm0).
    by rewrite (proj1 (Hp t Hin)). }
  exists m. split; [done|]. intros t. rewrite Hm, (resolve_table_spec _ _ _ Hm0).
  destruct (enum_key t) as [k|] eqn:Ek; simpl.
  - rewrite not_elem_of_list_to_map_1; [by apply Hs|]. intros Hin. apply Hp in Hin. naive_solver.
  - rewrite <- (Hk t Ek). by destruct (list_to_map kept !! t).
Qed.

(** Normalising a selector table keeps what it selects: it fails exactly when
    resolving the table fails, with the same error, and otherwise the normalised
    table resolves and gives every node type the same value as the original one,
    an absent value counting as the default. *)
Theorem selectors_keep_meaning table entries table' entries' res :
  normalize_selectors fallback table entries = (table', entries', res) →
  match res with
  | Err e => resolve_selectors table entries = Err e
  | Ok _ => ∃ m m', resolve_selectors table entries = Ok m ∧
      resolve_selectors table' entries' = Ok m' ∧
      ∀ t, default fallback (m' !! t) = default fallback (m !! t)
  end.
Proof.
  unfold normalize_selectors.
  pose proof (resolve_keys_check (map_to_list table) ∅) as Hc.
  destruct (check_keys _) as [[]|e] eqn:Ec; [|intros [= <- <- <-]; unfold resolve_selectors; by rewrite Hc].
  destruct Hc as [m0 Hm0].
  assert (resolve_selectors table entries = resolve_entries entries ∅ m0) as ->
    by (unfold resolve_selectors; by rewrite Hm0).
  pose proof (loops_agree entries _ _ _ _ (sync_start _ _ Hm0 Ec)) as Hl. simpl in Hl.
  destruct (normalize_entries _ _ _ _ _) as [tb [retained|e]]; intros [= <- <- <-]; [|done].
  destruct Hl as (kept & seen & resolved & -> & Hr & Hs).
  destruct (sync_resolves _ _ _ _ Hs) as (m & Hm & Heq). by exists resolved, m.
Qed.
End tables.

(** A table with an entry for an enum type, which the table already has, and one
    for a type that has no enum value and no list. *)
Definition sample_entries : list (DescriptorEntry nat) :=
  [mkDescriptorEntry (Some (domain_node_type_to_descriptor ComputeGb200Nvidia)) (Some 5);
   mkDescriptorEntry (Some (domain_node_type_to_descriptor ComputeGb200Dell)) None].

Definition sample_table : gmap Z nat := {[ 1%Z := 3 ]}.

Lemma selectors_keep_meaning_witness :
  ∃ m m', resolve_selectors sample_table sample_entries = Ok m ∧
    (let '(table', entries', _) := normalize_selectors 0 sample_table sample_entries in
     resolve_selectors table' entries' = Ok m') ∧
    ∀ t, default 0 (m' !! t) = default 0 (m !! t).
Proof.
  assert (is_ok (normalize_selectors 0 sample_table sample_entries).2 = true) as Hok
    by by vm_compute.
  destruct (normalize_selectors 0 sample_table sample_entries) as [[table' entries'] res] eqn:E.
  destruct res as [[]|]; [|discriminate Hok].
  exact (selectors_keep_meaning 0 sample_table sample_entries table' entries' _ E).
Defined.
