(* ===== verification/Endpoints.v ===== *)
(** * Endpoints of a request

    The flattening of a request's endpoints into the configurations that
    drivers connect with: [FlatEndpoint] of [api/grpc/conversions.rs] and the
    TLS policy of [api/grpc/bmc_tls.rs]. *)

From S2P Require Import Prelude RustStd RmsError NodeTypes RequestMessages.
Import NodeTypes Pb.
Local Open Scope string_scope.

Module Endpoints.
Definition SUPPLEMENTAL_HOST_SSH_PORT : N := 22.

Inductive EndpointKind := Bmc | Host | SupplementalHost.

#[global] Instance EndpointKind_eq_dec : EqDecision EndpointKind.
Proof. solve_decision. Defined.

Definition label (k : EndpointKind) : string :=
  match k with Bmc => "BMC" | Host => "host" | SupplementalHost => "additional host" end.

Definition supports_session_token (k : EndpointKind) : bool :=
  match k with Bmc => true | _ => false end.

Record FlatEndpointConfig := mkFlatConfig {
  flat_ip_address : string;
  flat_mac_address : string;
  flat_host_name : option string;
  flat_port : N;
  flat_credentials : option EndpointCredentials;
}.

Record FlatEndpoint := mkFlatEndpoint {
  bmc : option FlatEndpointConfig;
  host : option FlatEndpointConfig;
}.

(** ** Flattening *)

Definition extract_endpoint_credentials (k : EndpointKind) (credentials : option (option Auth))
    : result RmsError (option EndpointCredentials) :=
  match mjoin credentials with
  | None => Ok None
  | Some (AuthUserPass u p) =>
      if negb (eqb (String.eqb u "") (String.eqb p ""))
      then Err (invalid_argument
             "user_pass credentials must include both a non-empty username and password")
      else if String.eqb u "" && String.eqb p "" then Ok None
      else Ok (Some (UserPass u p))
  | Some (AuthSessionToken t) =>
      if supports_session_token k && negb (String.eqb t "") then Ok (Some (BmcSessionToken t))
      else if supports_session_token k
      then Err (invalid_argument (label k +++ " endpoint session_token must not be empty"))
      else Err (invalid_argument (label k +++
             " endpoint does not support session token auth; use basic auth (user/pass credentials) instead"))
  end.

Definition flat_endpoint_config (k : EndpointKind) (e : PbEndpoint)
    : result RmsError FlatEndpointConfig :=
  let iface := pb_interface e in
  let? credentials := extract_endpoint_credentials k (pb_credentials e) in
  Ok (mkFlatConfig
        (default "" (if_ip_address <$> iface))
        (default "" (if_mac_address <$> iface))
        (name ← iface ≫= if_host_name; if String.eqb name "" then None else Some name)
        (pb_port e) credentials).

(** [Option::map] then [transpose]. *)
Definition transpose_map {A B E} (f : A → result E B) (o : option A) : result E (option B) :=
  match o with
  | None => Ok None
  | Some a => match f a with Ok b => Ok (Some b) | Err e => Err e end
  end.

Definition flatten_node_info (ni : NodeInfo) : result RmsError FlatEndpoint :=
  let? b := transpose_map (flat_endpoint_config Bmc) (ni_bmc_endpoint ni) in
  let? h := transpose_map (flat_endpoint_config Host) (ni_host_endpoint ni) in
  Ok (mkFlatEndpoint b h).

(** ** Ports *)

(** [u16::try_from] succeeds up to 65535. *)
Definition resolve_port (port : N) : result RmsError N :=
  if (port =? 0)%N then Ok 443%N
  else if (port <=? 65535)%N then Ok port
  else Err (invalid_argument ("port " +++ pretty port +++ " is out of range (must be 1-65535)")).

Definition switch_management_port (port : N) : N := if (port =? 22)%N then 443%N else port.

(** ** Endpoint configurations *)

Definition endpoint_from_config (k : EndpointKind) (e : FlatEndpointConfig)
    (require_mac_address : bool) : result RmsError EndpointConfig :=
  if String.eqb (flat_ip_address e) ""
  then Err (invalid_argument ("missing " +++ label k +++ " endpoint ip_address"))
  else if require_mac_address && String.eqb (flat_mac_address e) ""
  then Err (invalid_argument ("missing " +++ label k +++ " endpoint mac_address"))
  else
    let? port := resolve_port (flat_port e) in
    Ok (mkEndpointConfig
          (mkEndpoint (flat_ip_address e) (flat_mac_address e) port (flat_host_name e))
          (flat_credentials e) false).

Definition apply_bmc_redfish_tls_policy (e : EndpointConfig) (insecure_bmc : bool)
    : EndpointConfig := mkEndpointConfig (endpoint e) (credentials e) insecure_bmc.

Definition optional_bmc_endpoint (f : FlatEndpoint) (insecure_bmc : bool)
    : result RmsError (option EndpointConfig) :=
  match bmc f with
  | None => Ok None
  | Some e =>
      let? c := endpoint_from_config Bmc e false in
      Ok (Some (apply_bmc_redfish_tls_policy c insecure_bmc))
  end.

Definition bmc_endpoint_config (f : FlatEndpoint) (insecure_bmc : bool)
    : result RmsError EndpointConfig :=
  match bmc f with
  | None => Err (invalid_argument "missing BMC endpoint")
  | Some e =>
      let? c := endpoint_from_config Bmc e true in
      Ok (apply_bmc_redfish_tls_policy c insecure_bmc)
  end.

Definition host_endpoint_config (f : FlatEndpoint) : result RmsError EndpointConfig :=
  match host f with
  | None => Err (invalid_argument "missing host endpoint")
  | Some e => endpoint_from_config Host e false
  end.

(** [.map(Some)]. *)
Definition result_some {A E} (r : result E A) : result E (option A) :=
  match r with Ok a => Ok (Some a) | Err e => Err e end.

Definition optional_host_endpoint (f : FlatEndpoint) : result RmsError (option EndpointConfig) :=
  match host f with
  | None => Ok None
  | Some e => result_some (endpoint_from_config Host e false)
  end.

Definition with_port (e : FlatEndpointConfig) (port : N) : FlatEndpointConfig :=
  mkFlatConfig (flat_ip_address e) (flat_mac_address e) (flat_host_name e) port
    (flat_credentials e).

Definition optional_compute_host_ssh_endpoint (f : FlatEndpoint)
    : result RmsError (option EndpointConfig) :=
  match host f with
  | None => Ok None
  | Some e =>
      let e := if (flat_port e =? 0)%N then with_port e 22 else e in
      result_some (endpoint_from_config Host e false)
  end.

Definition set_endpoint_port (c : EndpointConfig) (port : N) : EndpointConfig :=
  let e := endpoint c in
  mkEndpointConfig (mkEndpoint (ip_address e) (mac_address e) port (host_name e))
    (credentials c) (dangerously_accept_invalid_certs c).

Definition switch_host_management_endpoint (f : FlatEndpoint) : result RmsError EndpointConfig :=
  let? c := host_endpoint_config f in
  Ok (set_endpoint_port c (switch_management_port (port (endpoint c)))).

Definition optional_switch_host_management_endpoint (f : FlatEndpoint)
    : result RmsError (option EndpointConfig) :=
  match host f with
  | None => Ok None
  | Some _ => result_some (switch_host_management_endpoint f)
  end.

(** ** Selection by node type *)

(** [EndpointCredentials::user_pass] and [user_pass_secret]. *)
Definition user_pass (c : EndpointCredentials) : option (string * string) :=
  match c with
  | UserPass u p =>
      if negb (String.eqb u "") && negb (String.eqb p "") then Some (u, p) else None
  | BmcSessionToken _ => None
  end.

Definition creds_for_node_type (f : FlatEndpoint) (t : NodeType) : option (string * string) :=
  e ← (if uses_host_management_endpoint t then host f else bmc f);
  c ← flat_credentials e;
  user_pass c.

Definition has_credentials_for_node_type (f : FlatEndpoint) (t : NodeType) : bool :=
  if uses_host_management_endpoint t then bool_decide (is_Some (creds_for_node_type f t))
  else match bmc f ≫= flat_credentials with
       | Some c => has_auth_material c
       | None => false
       end.

Definition resolve_port_for_node_type (f : FlatEndpoint) (t : NodeType) : result RmsError N :=
  let '(name, e) :=
    if uses_host_management_endpoint t then ("host endpoint for switch", host f)
    else ("BMC endpoint", bmc f) in
  match e with
  | None => Err (invalid_argument ("missing " +++ name))
  | Some e => resolve_port (flat_port e)
  end.

Definition resolve_bmc_port (f : FlatEndpoint) : result RmsError N :=
  match bmc f with
  | None => Err (invalid_argument "missing BMC endpoint")
  | Some e => resolve_port (flat_port e)
  end.

Definition resolve_management_port_for_node_type (f : FlatEndpoint) (t : NodeType)
    : result RmsError N :=
  let? port := resolve_port_for_node_type f t in
  Ok (if uses_host_management_endpoint t then switch_management_port port else port).

Definition host_ip_address (f : FlatEndpoint) : option string :=
  e ← host f; if String.eqb (flat_ip_address e) "" then None else Some (flat_ip_address e).

Definition host_mac_address (f : FlatEndpoint) : option string :=
  e ← host f; if String.eqb (flat_mac_address e) "" then None else Some (flat_mac_address e).

Definition switch_host_name (f : FlatEndpoint) : result RmsError string :=
  match host f with
  | None => Err (invalid_argument "missing host endpoint")
  | Some e =>
      match name ← flat_host_name e; if String.eqb name "" then None else Some name with
      | Some name => Ok name
      | None =>
          if String.eqb (flat_ip_address e) ""
          then Err (invalid_argument "missing host endpoint ip_address")
          else Ok (flat_ip_address e)
      end
  end.

Definition additional_host_ssh_endpoint (e : PbEndpoint) : result RmsError EndpointConfig :=
  if negb (pb_port e =? 0)%N && negb (pb_port e =? SUPPLEMENTAL_HOST_SSH_PORT)%N
  then Err (invalid_argument ("additional host SSH endpoint port must be 22 when specified, got "
         +++ pretty (pb_port e)))
  else
    let? flat := flat_endpoint_config SupplementalHost e in
    let flat :=
      if (flat_port flat =? 0)%N then with_port flat SUPPLEMENTAL_HOST_SSH_PORT else flat in
    let? c := endpoint_from_config SupplementalHost flat false in
    match credentials c ≫= user_pass with
    | None => Err (invalid_argument
                "additional host endpoint requires non-empty username/password credentials")
    | Some _ => Ok c
    end.
End Endpoints.

(** ** What the conversion guarantees *)

Module EndpointsTheorems.
Import NodeTypes Pb Endpoints.
Local Open Scope string_scope.

(** A configuration that a driver can connect with: an address, a TCP port,
    complete credentials, a session token only for a BMC, and certificate
    verification as the service decided. *)
Record endpoint_ok (k : EndpointKind) (insecure : bool) (c : EndpointConfig) : Prop := {
  eo_ip : ip_address (endpoint c) ≠ "";
  eo_port : (1 ≤ port (endpoint c) ≤ 65535)%N;
  eo_tls : dangerously_accept_invalid_certs c = insecure;
  eo_host_name : host_name (endpoint c) ≠ Some "";
  eo_credentials : ∀ cr, credentials c = Some cr →
    has_auth_material cr = true ∧ (k ≠ Bmc → is_Some (user_pass cr));
}.

(** What flattening makes of the credentials. *)
Definition flat_ok (k : EndpointKind) (e : FlatEndpointConfig) : Prop :=
  flat_host_name e ≠ Some "" ∧
  ∀ cr, flat_credentials e = Some cr →
    has_auth_material cr = true ∧ (k ≠ Bmc → is_Some (user_pass cr)).

Lemma extract_spec k cs cr :
  extract_endpoint_credentials k cs = Ok (Some cr) →
  has_auth_material cr = true ∧ (k ≠ Bmc → is_Some (user_pass cr)).
Proof.
  unfold extract_endpoint_credentials. destruct (mjoin cs) as [[u p|t]|]; [| |done].
  - destruct (String.eqb u "") eqn:Eu, (String.eqb p "") eqn:Ep; simpl; try done.
    intros [= <-]. simpl. rewrite Eu, Ep. eauto.
  - destruct k; simpl; try done. destruct (String.eqb t "") eqn:Et; simpl; [done|].
    intros [= <-]. simpl. by rewrite Et.
Qed.

Lemma flat_config_ok k e f : flat_endpoint_config k e = Ok f → flat_ok k f.
Proof.
  unfold flat_endpoint_config, result_bind.
  destruct (extract_endpoint_credentials k (pb_credentials e)) as [cr|] eqn:E; [|done].
  intros [= <-]. split; simpl.
  - destruct (pb_interface e ≫= if_host_name) as [name|]; [|done]. simpl.
    destruct (String.eqb name "") eqn:En; [done|]. intros [= ->]. done.
  - intros c ->. by eapply extract_spec.
Qed.

Lemma flatten_ok ni f :
  flatten_node_info ni = Ok f →
  (∀ e, bmc f = Some e → flat_ok Bmc e) ∧ (∀ e, host f = Some e → flat_ok Host e).
Proof.
  assert (∀ k o r, transpose_map (flat_endpoint_config k) o = Ok r →
    ∀ e, r = Some e → flat_ok k e) as Ht.
  { intros k [a|] r; simpl; [|by intros [= <-]].
    destruct (flat_endpoint_config k a) as [x|] eqn:E; [|done]. intros [= <-] e [= <-].
    by eapply flat_config_ok. }
  unfold flatten_node_info. destruct (transpose_map _ (ni_bmc_endpoint ni)) as [b|] eqn:Eb; [|done].
  simpl. destruct (transpose_map _ (ni_host_endpoint ni)) as [h|] eqn:Eh; [|done].
  intros [= <-]. simpl. split; by eapply Ht.
Qed.

Lemma resolve_port_range p q : resolve_port p = Ok q → (1 ≤ q ≤ 65535)%N.
Proof.
  unfold resolve_port. destruct (N.eqb_spec p 0); [intros [= <-]; lia|].
  destruct (N.leb_spec p 65535); intros [= <-]; lia.
Qed.

Lemma from_config_ok k e mac c :
  flat_ok k e → endpoint_from_config k e mac = Ok c →
  endpoint_ok k false c ∧ (mac = true → mac_address (endpoint c) ≠ "").
Proof.
  intros [Hh Hc]. unfold endpoint_from_config.
  destruct (String.eqb (flat_ip_address e) "") eqn:Ei; [done|].
  destruct (mac && _) eqn:Em; [done|]. destruct (resolve_port _) as [p|] eqn:Ep; [|done].
  intros [= <-]. apply String.eqb_neq in Ei. apply resolve_port_range in Ep.
  split; [by split|]. intros ->. simpl in *. by apply String.eqb_neq.
Qed.

Lemma policy_ok k c insecure :
  endpoint_ok k false c → endpoint_ok k insecure (apply_bmc_redfish_tls_policy c insecure).
Proof. intros []. by split. Qed.

Lemma switch_port_ok c :
  endpoint_ok Host false c →
  endpoint_ok Host false (set_endpoint_port c (switch_management_port (port (endpoint c)))) ∧
  switch_management_port (port (endpoint c)) ≠ 22%N.
Proof.
  intros [Hi Hp Ht Hh Hc]. unfold switch_management_port.
  destruct (N.eqb_spec (port (endpoint c)) 22); split; try done; split; done || (simpl; lia).
Qed.

Lemma bmc_config_ok f insecure c :
  (∀ e, bmc f = Some e → flat_ok Bmc e) → bmc_endpoint_config f insecure = Ok c →
  endpoint_ok Bmc insecure c ∧ mac_address (endpoint c) ≠ "".
Proof.
  intros Hf. unfold bmc_endpoint_config. destruct (bmc f) as [e|]; [|done].
  destruct (endpoint_from_config Bmc e true) as [x|] eqn:E; [|done]. intros [= <-].
  apply from_config_ok in E as [Hok Hm]; [|by apply Hf]. split; [by apply policy_ok|by apply Hm].
Qed.

Lemma result_some_Ok {A E} (r : result E A) a : result_some r = Ok (Some a) → r = Ok a.
Proof. destruct r; [|done]. by intros [= ->]. Qed.

Lemma host_config_ok f c :
  (∀ e, host f = Some e → flat_ok Host e) → host_endpoint_config f = Ok c →
  endpoint_ok Host false c.
Proof.
  intros Hf. unfold host_endpoint_config. destruct (host f) as [e|]; [|done].
  intros E. by eapply from_config_ok in E as [? _]; [|by apply Hf].
Qed.

Lemma optional_hosts_ok f c :
  (∀ e, host f = Some e → flat_ok Host e) →
  optional_host_endpoint f = Ok (Some c) ∨ optional_compute_host_ssh_endpoint f = Ok (Some c) ∨
  optional_switch_host_management_endpoint f = Ok (Some c) →
  endpoint_ok Host false c.
Proof.
  intros Hf. unfold optional_host_endpoint, optional_compute_host_ssh_endpoint,
    optional_switch_host_management_endpoint, switch_host_management_endpoint.
  pose proof (host_config_ok f) as Hh. unfold host_endpoint_config in *.
  destruct (host f) as [e|]; [|naive_solver]. specialize (Hf e eq_refl).
  intros [E%result_some_Ok|[E%result_some_Ok|E%result_some_Ok]].
  - by apply from_config_ok in E as [? _].
  - apply from_config_ok in E as [? _]; [done|]. by destruct (flat_port e =? 0)%N.
  - destruct (endpoint_from_config Host e false) as [x|] eqn:Ex; [|done].
    injection E as <-. apply switch_port_ok. by apply from_config_ok in Ex as [? _].
Qed.

(** Every endpoint configuration made from a request is usable and safe: it has
    an address, a port from 1 to 65535, complete credentials if any, a session
    token only for a BMC; certificate verification is off exactly for a BMC when
    the service allows it, never by the request; a required BMC endpoint has a MAC
    address, and a switch is never managed over port 22. *)
Theorem endpoints_typed ni f insecure :
  flatten_node_info ni = Ok f →
  (∀ c, bmc_endpoint_config f insecure = Ok c →
     endpoint_ok Bmc insecure c ∧ mac_address (endpoint c) ≠ "") ∧
  (∀ c, optional_bmc_endpoint f insecure = Ok (Some c) → endpoint_ok Bmc insecure c) ∧
  (∀ c, host_endpoint_config f = Ok c ∨ optional_host_endpoint f = Ok (Some c) ∨
     optional_compute_host_ssh_endpoint f = Ok (Some c) ∨
     optional_switch_host_management_endpoint f = Ok (Some c) → endpoint_ok Host false c) ∧
  (∀ c, switch_host_management_endpoint f = Ok c →
     endpoint_ok Host false c ∧ port (endpoint c) ≠ 22%N).
Proof.
  intros Hf. destruct (flatten_ok ni f Hf) as [Hb Hh]. split_and!.
  - intros c. by apply bmc_config_ok.
  - intros c. unfold optional_bmc_endpoint. destruct (bmc f) as [e|]; [|done].
    destruct (endpoint_from_config Bmc e false) as [x|] eqn:E; [|done]. intros [= <-].
    apply from_config_ok in E as [? _]; [by apply policy_ok|by apply Hb].
  - intros c [E|E]; [by eapply host_config_ok|by eapply optional_hosts_ok].
  - intros c. unfold switch_host_management_endpoint.
    destruct (host_endpoint_config f) as [x|] eqn:E; [|done]. intros [= <-].
    apply switch_port_ok. by eapply host_config_ok.
Qed.

Definition sample_node : NodeInfo :=
  mkNodeInfo "n1" "rack" (Some 3%Z)
    (Some (mkPbEndpoint (Some (mkInterface "10.0.0.1" "aa:bb" None)) 0
             (Some (Some (AuthSessionToken "token")))))
    (Some (mkPbEndpoint (Some (mkInterface "10.0.0.2" "" (Some "sw1"))) 22
             (Some (Some (AuthUserPass "admin" "secret"))))) None [].

Lemma endpoints_typed_witness :
  match flatten_node_info sample_node with
  | Ok f => ∃ c, switch_host_management_endpoint f = Ok c ∧ endpoint_ok Host false c ∧
      port (endpoint c) = 443%N
  | Err _ => False
  end.
Proof.
  destruct (flatten_node_info sample_node) as [f|] eqn:E; [|done].
  destruct (endpoints_typed sample_node f true E) as (_ & _ & _ & H).
  assert (f = mkFlatEndpoint
    (Some (mkFlatConfig "10.0.0.1" "aa:bb" None 0 (Some (BmcSessionToken "token"))))
    (Some (mkFlatConfig "10.0.0.2" "" (Some "sw1") 22 (Some (UserPass "admin" "secret")))))
    as -> by (vm_compute in E; congruence).
  eexists. split; [reflexivity|]. split; [by apply H|reflexivity].
Defined.
End EndpointsTheorems.
