(* ===== verification/HardwareProfiles.v ===== *)
(** * Hardware profiles

    [config/hardware_profiles.rs]: the compilation of a profile document into an
    update plan, the catalog of plans, the selection of a profile for a request
    and the resolution of a firmware target.  [selectors.rs],
    [domain/redfish_path.rs], [domain/compute_timing.rs],
    [domain/firmware_target.rs] and [ComputePowerOnOptions::validate] of
    [config/workflow_timings.rs] are modelled with it.

    The document is what the YAML deserializer produces.  A duration is its
    nanoseconds. *)

From S2P Require Import Prelude RustStd RustStr Json RmsError NodeTypes.
From Stdlib Require Import Ascii.
Import NodeTypes.
Local Open Scope string_scope.
Local Open Scope list_scope.

Module HardwareProfiles.
Abbreviation Duration := N (only parsing).
Definition from_secs (n : N) : Duration := (n * 1000000000)%N.
Definition from_millis (n : N) : Duration := (n * 1000000)%N.
Definition subsec_nanos (d : Duration) : N := (d mod 1000000000)%N.

Definition SUPPORTED_SCHEMA_VERSION : N := 1.
Definition MAX_CONFIGURED_DURATION : Duration := from_secs (24 * 60 * 60).

Inductive HardwareProfileError :=
| Parse (message : string)
| Validation (message : string).

Definition validation_error {A} (message : string) : result HardwareProfileError A :=
  Err (Validation message).

(** ** Fields *)

Definition DURATION_SYNTAX : string :=
  " must use an integer duration with ms, s, m, or h suffix".

(** The suffix found, [ms] before [s]. *)
Definition split_unit (value : chars) : option (chars * string) :=
  match strip_suffix value (to_chars "ms") with
  | Some number => Some (number, "ms")
  | None =>
      match strip_suffix value (to_chars "s") with
      | Some number => Some (number, "s")
      | None =>
          match strip_suffix value (to_chars "m") with
          | Some number => Some (number, "m")
          | None =>
              match strip_suffix value (to_chars "h") with
              | Some number => Some (number, "h")
              | None => None
              end
          end
      end
  end.

(** [u64::checked_mul]. *)
Definition checked_mul (a b : N) : option N :=
  if (a * b <=? U64_MAX)%N then Some (a * b)%N else None.

Definition parse_duration (field value : string) : result HardwareProfileError Duration :=
  match split_unit (to_chars (trim value)) with
  | None => validation_error (field +++ DURATION_SYNTAX)
  | Some (number, unit) =>
      let? n := ok_or (parse_uint U64_MAX number) (Validation (field +++ DURATION_SYNTAX)) in
      let? d :=
        (if String.eqb unit "ms" then Ok (from_millis n)
         else if String.eqb unit "s" then Ok (from_secs n)
         else
           let? s := ok_or (checked_mul n (if String.eqb unit "m" then 60 else 3600))
                       (Validation (field +++ " duration overflows")) in
           Ok (from_secs s)) in
      if (MAX_CONFIGURED_DURATION <? d)%N
      then validation_error (field +++ " must not exceed 24h")
      else Ok d
  end.

Definition require_nonzero (field : string) (d : Duration) : result HardwareProfileError unit :=
  if (d =? 0)%N then validation_error (field +++ " must be greater than zero") else Ok tt.

Definition is_identifier_char (c : ascii) : bool :=
  is_ascii_lowercase c || is_ascii_digit c || Ascii.eqb c "_".

Definition validate_identifier (field value : string) : result HardwareProfileError string :=
  let value := trim value in
  if String.eqb value "" || negb (all_chars is_identifier_char value)
  then validation_error (field +++
         " must contain only lowercase ASCII letters, digits, and underscores")
  else Ok value.

Definition is_component_key_char (c : ascii) : bool :=
  is_ascii_alphanumeric c || Ascii.eqb c "_" || Ascii.eqb c "-".

Definition validate_component_key (target_id value : string)
    : result HardwareProfileError string :=
  let value := trim value in
  if String.eqb value ""
  then validation_error ("target " +++ str_debug target_id +++ " component_key must not be empty")
  else if negb (all_chars is_component_key_char value)
  then validation_error ("target " +++ str_debug target_id +++
         " component_key must contain only ASCII letters, digits, '-' or '_'")
  else Ok value.

Definition is_resource_id_char (c : ascii) : bool :=
  is_ascii_alphanumeric c || Ascii.eqb c "_" || Ascii.eqb c "-" || Ascii.eqb c ".".

Definition validate_redfish_resource_id (field value : string)
    : result HardwareProfileError string :=
  let value := trim value in
  if String.eqb value "" || negb (all_chars is_resource_id_char value)
  then validation_error (field +++
         " must contain only ASCII letters, digits, '-', '_' or '.'")
  else Ok value.

(** [seen] holds the lower-case forms of the values so far. *)
Fixpoint validate_unique_loop (field : string) (values : list string) (seen : gset string)
    : result HardwareProfileError (list string) :=
  match values with
  | [] => Ok []
  | value :: values =>
      let value := trim value in
      if String.eqb value "" then validation_error (field +++ " contains an empty value")
      else if decide (lower value ∈ seen)
      then validation_error (field +++ " contains duplicate value " +++ str_debug value)
      else
        let? rest := validate_unique_loop field values ({[lower value]} ∪ seen) in
        Ok (value :: rest)
  end.

Definition validate_unique_nonempty_strings (field : string) (values : list string)
    : result HardwareProfileError (list string) := validate_unique_loop field values ∅.

Definition validate_optional_matcher (target_id field : string) (value : option string)
    : result HardwareProfileError (option string) :=
  match value with
  | None => Ok None
  | Some value =>
      let value := trim value in
      if String.eqb value ""
      then validation_error ("target " +++ str_debug target_id +++ " filename." +++ field +++
             " must not be empty")
      else if existsb (fun c => Ascii.eqb c "/" || Ascii.eqb c backslash) (to_chars value)
      then validation_error ("target " +++ str_debug target_id +++ " filename." +++ field +++
             " must not contain a path separator")
      else Ok (Some value)
  end.

(** ** [domain/redfish_path.rs] *)

Definition RedfishPath : Type := string.

Definition is_path_char (c : ascii) : bool :=
  is_ascii_alphanumeric c || Ascii.eqb c "/" || Ascii.eqb c "_" || Ascii.eqb c "-"
  || Ascii.eqb c ".".

Definition is_dot_segment (s : chars) : bool :=
  String.eqb (of_chars s) "." || String.eqb (of_chars s) "..".

Definition redfish_path_from_str (value : string) : result RmsError RedfishPath :=
  let l := to_chars value in
  if negb (String.eqb value "/redfish/v1" || starts_with l (to_chars "/redfish/v1/"))
     || contains_str l (to_chars "//")
     || existsb is_dot_segment (split_on "/" l)
     || negb (forallb is_path_char l)
  then Err (invalid_argument
         "expected a plain same-origin /redfish/v1 path without escapes, whitespace, query, fragment, or traversal")
  else Ok value.

Definition parse_redfish_path (field value : string) : result HardwareProfileError RedfishPath :=
  match redfish_path_from_str value with
  | Ok p => Ok p
  | Err e => validation_error (field +++ " path " +++ str_debug value +++ ": " +++ error_message e)
  end.

(** ** Polling, power-on and verification *)

Record PollPolicy := mkPoll {
  task_timeout : Duration;
  poll_interval : Duration;
  transient_error_budget : Duration;
}.

Record PollingDocument := mkPollingDocument {
  pd_task_timeout : string;
  pd_interval : string;
  pd_transient_error_budget : string;
}.

Definition compile_polling (d : PollingDocument) : result HardwareProfileError PollPolicy :=
  let? timeout := parse_duration "firmware.polling.task_timeout" (pd_task_timeout d) in
  let? interval := parse_duration "firmware.polling.interval" (pd_interval d) in
  let? budget :=
    parse_duration "firmware.polling.transient_error_budget" (pd_transient_error_budget d) in
  let? _ := require_nonzero "firmware.polling.task_timeout" timeout in
  let? _ := require_nonzero "firmware.polling.interval" interval in
  if (timeout <? interval)%N
  then validation_error "firmware.polling.interval must not exceed task_timeout"
  else if (timeout <? budget)%N
  then validation_error "firmware.polling.transient_error_budget must not exceed task_timeout"
  else Ok (mkPoll timeout interval budget).

Record ComputePowerOnOptions := mkPowerOn {
  power_on_timeout : Duration;
  power_on_poll_interval : Duration;
}.

(** [clock_can_add]: [Instant::now().checked_add] of the timeout has a result. *)
Definition validate_power_on (clock_can_add : Duration → bool) (o : ComputePowerOnOptions)
    : result RmsError unit :=
  if (power_on_timeout o =? 0)%N || (power_on_poll_interval o =? 0)%N
  then Err (invalid_argument
         "compute power-on timeout and poll interval must be greater than zero")
  else if negb (clock_can_add (power_on_timeout o))
  then Err (invalid_argument
         "compute power-on timeout must be representable by the monotonic clock")
  else if (power_on_timeout o <? power_on_poll_interval o)%N
  then Err (invalid_argument
         "compute power-on poll interval must be less than or equal to the compute power-on timeout")
  else Ok tt.

Record PowerOnDocument := mkPowerOnDocument {
  od_timeout : string;
  od_interval : string;
}.

Definition compile_power_on (clock_can_add : Duration → bool) (d : PowerOnDocument)
    : result HardwareProfileError ComputePowerOnOptions :=
  let? timeout := parse_duration "firmware.power_on.timeout" (od_timeout d) in
  let? interval := parse_duration "firmware.power_on.interval" (od_interval d) in
  let options := mkPowerOn timeout interval in
  match validate_power_on clock_can_add options with
  | Ok _ => Ok options
  | Err e => validation_error ("firmware.power_on: " +++ error_message e)
  end.

Record VerificationPolicy := mkVerification {
  verification_enabled : bool;
  settle_delay : Duration;
  verification_attempts : N;
  verification_retry_interval : Duration;
}.

Record VerificationDocument := mkVerificationDocument {
  vd_enabled : bool;
  vd_settle_delay : string;
  vd_attempts : N;
  vd_retry_interval : string;
}.

Definition compile_verification (d : VerificationDocument)
    : result HardwareProfileError VerificationPolicy :=
  let? settle := parse_duration "firmware.verification.settle_delay" (vd_settle_delay d) in
  let? retry := parse_duration "firmware.verification.retry_interval" (vd_retry_interval d) in
  if (vd_attempts d =? 0)%N
  then validation_error "firmware.verification.attempts must be greater than zero"
  else
    let? _ :=
      (if (1 <? vd_attempts d)%N
       then require_nonzero "firmware.verification.retry_interval" retry
       else Ok tt) in
    Ok (mkVerification (vd_enabled d) settle (vd_attempts d) retry).
End HardwareProfiles.
