(* ===== verification/HardwarePlan.v ===== *)
(** * Compiled hardware profiles

    The rest of [config/hardware_profiles.rs]: driver parameters with their
    timings, firmware targets and stages, the plan, the catalog, and the
    resolution of a firmware target against its plan. *)

From S2P Require Import Prelude RustStd RustStr Json RmsError NodeTypes HardwareProfiles.
Import NodeTypes HardwareProfiles.
Local Open Scope string_scope.
Local Open Scope list_scope.

Module HardwarePlan.
(** ** Driver parameters *)

Definition compile_timing_duration (field : string) (value : option string) (fallback : N)
    (allow_zero : bool) : result HardwareProfileError N :=
  let? d :=
    match value with
    | Some v => parse_duration field v
    | None => Ok fallback
    end in
  let? _ := (if allow_zero then Ok tt else require_nonzero field d) in
  if negb (subsec_nanos d =? 0)%N then validation_error (field +++ " must use whole seconds")
  else Ok d.

Definition compile_timing_count (field : string) (value : N) (allow_zero : bool)
    : result HardwareProfileError N :=
  if (1000 <? value)%N || (negb allow_zero && (value =? 0)%N)
  then validation_error (field +++ " must be " +++ (if allow_zero then "0" else "1") +++ "..=1000")
  else Ok value.

Record ComputeFirmwareTiming := mkTiming {
  connect_timeout : N;
  request_timeout : N;
  upload_timeout : N;
  reachability_timeout : N;
  precondition_query_timeout : N;
  background_copy_timeout : N;
  background_copy_poll_interval : N;
  write_protect_inventory_attempts : N;
  write_protect_inventory_retry_interval : N;
  power_off_delay : N;
  ac_cycle_attempts : N;
  ac_cycle_stabilization : N;
  activation_command_retries : N;
  activation_command_retry_interval : N;
  bmc_recovery_attempts : N;
  bmc_recovery_interval : N;
  power_on_attempts : N;
  power_on_interval : N;
  power_on_resend_interval : N;
  recovery_probe_timeout : N;
  inventory_recovery_retries : N;
  inventory_recovery_retry_interval : N;
}.

Definition default_timing : ComputeFirmwareTiming :=
  {| connect_timeout := from_secs 900;
     request_timeout := from_secs 900;
     upload_timeout := from_secs 900;
     reachability_timeout := from_secs 120;
     precondition_query_timeout := from_secs 30;
     background_copy_timeout := from_secs 900;
     background_copy_poll_interval := from_secs 10;
     write_protect_inventory_attempts := 3;
     write_protect_inventory_retry_interval := from_secs 30;
     power_off_delay := from_secs 20;
     ac_cycle_attempts := 2;
     ac_cycle_stabilization := from_secs 180;
     activation_command_retries := 10;
     activation_command_retry_interval := from_secs 60;
     bmc_recovery_attempts := 60;
     bmc_recovery_interval := from_secs 5;
     power_on_attempts := 60;
     power_on_interval := from_secs 5;
     power_on_resend_interval := from_secs 60;
     recovery_probe_timeout := from_secs 30;
     inventory_recovery_retries := 3;
     inventory_recovery_retry_interval := from_secs 120 |}.

(** The sections [transport], [pre_update], [activation], [recovery] and
    [inventory_recovery] of the document, in one record. *)
Record ComputeTimingDocument := mkTimingDocument {
  td_connect_timeout : option string;
  td_request_timeout : option string;
  td_upload_timeout : option string;
  td_reachability_timeout : option string;
  td_query_timeout : option string;
  td_background_copy_timeout : option string;
  td_background_copy_poll_interval : option string;
  td_write_protect_inventory_attempts : option N;
  td_write_protect_inventory_retry_interval : option string;
  td_power_off_delay : option string;
  td_ac_cycle_attempts : option N;
  td_ac_cycle_stabilization : option string;
  td_command_retries : option N;
  td_command_retry_interval : option string;
  td_bmc_attempts : option N;
  td_bmc_interval : option string;
  td_power_on_attempts : option N;
  td_power_on_interval : option string;
  td_power_on_resend_interval : option string;
  td_probe_timeout : option string;
  td_retries : option N;
  td_retry_interval : option string;
}.

Definition compile_timing (d : ComputeTimingDocument)
    : result HardwareProfileError ComputeFirmwareTiming :=
  let df := default_timing in
  let? connect := compile_timing_duration "driver.timing.transport.connect_timeout"
    (td_connect_timeout d) (connect_timeout df) false in
  let? request := compile_timing_duration "driver.timing.transport.request_timeout"
    (td_request_timeout d) (request_timeout df) false in
  let? upload := compile_timing_duration "driver.timing.transport.upload_timeout"
    (td_upload_timeout d) (upload_timeout df) false in
  let? reachability := compile_timing_duration "driver.timing.transport.reachability_timeout"
    (td_reachability_timeout d) (reachability_timeout df) false in
  let? query := compile_timing_duration "driver.timing.pre_update.query_timeout"
    (td_query_timeout d) (precondition_query_timeout df) false in
  let? copy := compile_timing_duration "driver.timing.pre_update.background_copy_timeout"
    (td_background_copy_timeout d) (background_copy_timeout df) false in
  let? copy_poll :=
    compile_timing_duration "driver.timing.pre_update.background_copy_poll_interval"
      (td_background_copy_poll_interval d) (background_copy_poll_interval df) false in
  let? wp_attempts :=
    compile_timing_count "driver.timing.pre_update.write_protect_inventory_attempts"
      (default (write_protect_inventory_attempts df) (td_write_protect_inventory_attempts d))
      false in
  let? wp_retry :=
    compile_timing_duration "driver.timing.pre_update.write_protect_inventory_retry_interval"
      (td_write_protect_inventory_retry_interval d)
      (write_protect_inventory_retry_interval df) false in
  let? off_delay := compile_timing_duration "driver.timing.activation.power_off_delay"
    (td_power_off_delay d) (power_off_delay df) true in
  let? ac_attempts := compile_timing_count "driver.timing.activation.ac_cycle_attempts"
    (default (ac_cycle_attempts df) (td_ac_cycle_attempts d)) false in
  let? ac_stab := compile_timing_duration "driver.timing.activation.ac_cycle_stabilization"
    (td_ac_cycle_stabilization d) (ac_cycle_stabilization df) true in
  let? cmd_retries := compile_timing_count "driver.timing.activation.command_retries"
    (default (activation_command_retries df) (td_command_retries d)) true in
  let? cmd_interval := compile_timing_duration "driver.timing.activation.command_retry_interval"
    (td_command_retry_interval d) (activation_command_retry_interval df) true in
  let? bmc_attempts := compile_timing_count "driver.timing.recovery.bmc_attempts"
    (default (bmc_recovery_attempts df) (td_bmc_attempts d)) false in
  let? bmc_interval := compile_timing_duration "driver.timing.recovery.bmc_interval"
    (td_bmc_interval d) (bmc_recovery_interval df) false in
  let? on_attempts := compile_timing_count "driver.timing.recovery.power_on_attempts"
    (default (power_on_attempts df) (td_power_on_attempts d)) false in
  let? on_interval := compile_timing_duration "driver.timing.recovery.power_on_interval"
    (td_power_on_interval d) (power_on_interval df) false in
  let? resend := compile_timing_duration "driver.timing.recovery.power_on_resend_interval"
    (td_power_on_resend_interval d) (power_on_resend_interval df) false in
  let? probe := compile_timing_duration "driver.timing.recovery.probe_timeout"
    (td_probe_timeout d) (recovery_probe_timeout df) false in
  let? inv_retries := compile_timing_count "driver.timing.inventory_recovery.retries"
    (default (inventory_recovery_retries df) (td_retries d)) true in
  let? inv_interval := compile_timing_duration "driver.timing.inventory_recovery.retry_interval"
    (td_retry_interval d) (inventory_recovery_retry_interval df) true in
  if (copy <? copy_poll)%N
  then validation_error
         "driver.timing.pre_update.background_copy_poll_interval must not exceed background_copy_timeout"
  else if (resend <? on_interval)%N
  then validation_error
         "driver.timing.recovery.power_on_resend_interval must be at least power_on_interval"
  else
    Ok (mkTiming connect request upload reachability query copy copy_poll wp_attempts wp_retry
          off_delay ac_attempts ac_stab cmd_retries cmd_interval bmc_attempts bmc_interval
          on_attempts on_interval resend probe inv_retries inv_interval).

Record ComputePowerPaths := mkPowerPaths {
  system_state_path : option RedfishPath;
  system_reset_path : option RedfishPath;
  bmc_reset_path : option RedfishPath;
  hmc_reset_path : option RedfishPath;
  aux_power_cycle_path : option RedfishPath;
  bmc_ready_path : option RedfishPath;
}.

Record ComputePowerPathsDocument := mkPowerPathsDocument {
  ppd_system_state_path : option string;
  ppd_system_reset_path : option string;
  ppd_bmc_reset_path : option string;
  ppd_hmc_reset_path : option string;
  ppd_aux_power_cycle_path : option string;
  ppd_bmc_ready_path : option string;
}.

Definition compile_power_path (field : string) (value : option string)
    : result HardwareProfileError (option RedfishPath) :=
  match value with
  | None => Ok None
  | Some v => let? p := parse_redfish_path field v in Ok (Some p)
  end.

Definition compile_power_paths (d : ComputePowerPathsDocument)
    : result HardwareProfileError ComputePowerPaths :=
  let? a := compile_power_path "driver.redfish.power.system_state_path"
              (ppd_system_state_path d) in
  let? b := compile_power_path "driver.redfish.power.system_reset_path"
              (ppd_system_reset_path d) in
  let? c := compile_power_path "driver.redfish.power.bmc_reset_path" (ppd_bmc_reset_path d) in
  let? e := compile_power_path "driver.redfish.power.hmc_reset_path" (ppd_hmc_reset_path d) in
  let? f := compile_power_path "driver.redfish.power.aux_power_cycle_path"
              (ppd_aux_power_cycle_path d) in
  let? g := compile_power_path "driver.redfish.power.bmc_ready_path" (ppd_bmc_ready_path d) in
  Ok (mkPowerPaths a b c e f g).

Inductive NvfwupdServerProfileDocument := DocComputeGb200 | DocComputeGb300 | DocComputeVrnvl72.

Definition server_profile (d : NvfwupdServerProfileDocument) : NvfwupdServerProfile :=
  match d with
  | DocComputeGb200 => ProfileComputeGb200
  | DocComputeGb300 => ProfileComputeGb300
  | DocComputeVrnvl72 => ProfileComputeVrnvl72
  end.

Record RedfishComputeDocument := mkRedfishDocument {
  rd_computer_system_id : string;
  rd_bmc_manager_id : string;
  rd_hmc_manager_id : string;
  rd_power : ComputePowerPathsDocument;
  rd_device_info_timeout : string;
  rd_connect_timeout : option string;
  rd_request_timeout : option string;
  rd_upload_timeout : option string;
}.

Record DriverDocument := mkDriverDocument {
  dd_nvfwupd_server_profile : NvfwupdServerProfileDocument;
  dd_redfish : RedfishComputeDocument;
  dd_timing : ComputeTimingDocument;
}.

(** [NodeRuntimeConfig] has the one variant [RedfishNvfwupdCompute]. *)
Record NodeRuntimeConfig := mkRuntimeConfig {
  rc_nvfwupd_server_profile : NvfwupdServerProfile;
  rc_computer_system_id : string;
  rc_bmc_manager_id : string;
  rc_hmc_manager_id : string;
  rc_device_info_timeout : N;
  rc_redfish_connect_timeout : N;
  rc_redfish_request_timeout : N;
  rc_redfish_upload_timeout : N;
  rc_power_paths : ComputePowerPaths;
  rc_firmware_timing : ComputeFirmwareTiming;
}.

Definition compile_runtime_config (d : DriverDocument)
    : result HardwareProfileError NodeRuntimeConfig :=
  let r := dd_redfish d in
  let? info := parse_duration "driver.redfish.device_info_timeout" (rd_device_info_timeout r) in
  let? _ := require_nonzero "driver.redfish.device_info_timeout" info in
  let? system := validate_redfish_resource_id "driver.redfish.computer_system_id"
    (rd_computer_system_id r) in
  let? bmc := validate_redfish_resource_id "driver.redfish.bmc_manager_id"
    (rd_bmc_manager_id r) in
  let? hmc := validate_redfish_resource_id "driver.redfish.hmc_manager_id"
    (rd_hmc_manager_id r) in
  let? connect := compile_timing_duration "driver.redfish.connect_timeout"
    (rd_connect_timeout r) (from_secs 10) false in
  let? request := compile_timing_duration "driver.redfish.request_timeout"
    (rd_request_timeout r) (from_secs 30) false in
  let? upload := compile_timing_duration "driver.redfish.upload_timeout"
    (rd_upload_timeout r) (from_secs 600) false in
  let? paths := compile_power_paths (rd_power r) in
  let? timing := compile_timing (dd_timing d) in
  Ok (mkRuntimeConfig (server_profile (dd_nvfwupd_server_profile d)) system bmc hmc info
        connect request upload paths timing).

(** ** Firmware targets *)

Record FilenameMatcher := mkMatcher {
  suffix : option string;
  contains : option string;
  case_insensitive : bool;
}.

Definition matches_filename (m : FilenameMatcher) (filename : string) : bool :=
  let filename := if case_insensitive m then lower filename else filename in
  match suffix m with
  | None => true
  | Some s => ends_with (to_chars filename) (to_chars s)
  end
  && match contains m with
     | None => true
     | Some s => contains_str (to_chars filename) (to_chars s)
     end.

Inductive RequestTargetSelection :=
| Explicit (paths : list RedfishPath)
| Multipart (paths : list RedfishPath)
| DriverDefault.

Record FirmwareTargetPlan := mkTargetPlan {
  plan_target_id : string;
  component_key : string;
  source_components : list string;
  filename : FilenameMatcher;
  request_target_selection : RequestTargetSelection;
  update_parameters : option json_map;
  oem_parameters : option json_map;
  default_apply : bool;
}.

Definition matches_component (p : FirmwareTargetPlan) (component : string) : bool :=
  eq_ignore_ascii_case (component_key p) (trim component).

Definition destination_paths (p : FirmwareTargetPlan) : list RedfishPath :=
  match request_target_selection p with
  | Explicit paths | Multipart paths => paths
  | DriverDefault => []
  end.

Record FilenameDocument := mkFilenameDocument {
  fd_suffix : option string;
  fd_contains : option string;
  fd_case_insensitive : bool;
}.

Record TargetDocument := mkTargetDocument {
  tg_id : string;
  tg_component_key : string;
  tg_source_components : list string;
  tg_filename : FilenameDocument;
  tg_request_targets : list string;
  tg_driver_default_targets : bool;
  tg_update_parameters : option json_map;
  tg_oem_parameters : option json_map;
  tg_default_apply : bool;
  tg_stage : N;
  tg_activate_after_stage : bool;
}.

Definition is_boolean (v : json) : bool := match v with JBool _ => true | _ => false end.
Definition is_string (v : json) : bool := match v with JString _ => true | _ => false end.

(** [Option::is_none_or]. *)
Definition none_or {A} (f : A → bool) (o : option A) : bool :=
  match o with Some a => f a | None => true end.

(** The closure over the array; [unique] holds the lower-case forms so far. *)
Fixpoint parameter_paths (id : string) (values : list json) (unique : gset string)
    : result HardwareProfileError (list RedfishPath) :=
  match values with
  | [] => Ok []
  | JString path :: values =>
      let? path := parse_redfish_path id path in
      if decide (lower path ∈ unique)
      then validation_error ("target " +++ str_debug id +++
             " update parameter targets must be unique")
      else
        let? rest := parameter_paths id values ({[lower path]} ∪ unique) in
        Ok (path :: rest)
  | _ :: _ =>
      validation_error ("target " +++ str_debug id +++
        " update parameter targets must contain strings")
  end.

Definition compile_update_parameter_targets (id : string) (parameters : option json_map)
    : result HardwareProfileError (option (list RedfishPath)) :=
  match parameters with
  | None => Ok None
  | Some ps =>
      if negb (none_or is_boolean (ps !! "ForceUpdate"))
      then validation_error ("target " +++ str_debug id +++
             " update_parameters.ForceUpdate has an invalid type")
      else if negb (none_or is_string (ps !! "ApplyTime"))
      then validation_error ("target " +++ str_debug id +++
             " update_parameters.ApplyTime has an invalid type")
      else if bool_decide (is_Some (ps !! "Targets"))
              && bool_decide (is_Some (ps !! "HttpPushUriTargets"))
      then validation_error ("target " +++ str_debug id +++
             " update_parameters cannot contain both Targets and HttpPushUriTargets")
      else
        match (match ps !! "Targets" with
               | Some v => Some v
               | None => ps !! "HttpPushUriTargets"
               end) with
        | None => Ok None
        | Some (JArray values) => let? paths := parameter_paths id values ∅ in Ok (Some paths)
        | Some _ =>
            validation_error ("target " +++ str_debug id +++
              " update parameter targets must be an array of Redfish paths")
        end
  end.

Record CompiledTarget := mkCompiledTarget {
  ct_stage : N;
  ct_activate_after : bool;
  ct_plan : FirmwareTargetPlan;
}.

Definition compile_selection (id : string) (driver_default : bool) (request_targets : list string)
    (multipart : option (list RedfishPath)) : result HardwareProfileError RequestTargetSelection :=
  match driver_default, request_targets, multipart with
  | false, [], Some paths => Ok (Multipart paths)
  | true, [], None => Ok DriverDefault
  | false, _ :: _, None =>
      let? paths := collect (parse_redfish_path id) request_targets in Ok (Explicit paths)
  | false, [], None =>
      validation_error ("target " +++ str_debug id +++
        " must configure request_targets, driver_default_targets, or update_parameters.Targets/HttpPushUriTargets")
  | _, _, _ =>
      validation_error ("target " +++ str_debug id +++
        " cannot combine request_targets, driver_default_targets, and update_parameters.Targets/HttpPushUriTargets")
  end.

Definition compile_target (d : TargetDocument) : result HardwareProfileError CompiledTarget :=
  let? id := validate_identifier "firmware target id" (tg_id d) in
  let? key := validate_component_key id (tg_component_key d) in
  let? sources :=
    validate_unique_nonempty_strings ("target " +++ str_debug id +++ " source_components")
      (tg_source_components d) in
  if bool_decide (sources = [])
  then validation_error ("target " +++ str_debug id +++ " source_components must not be empty")
  else
    let f := tg_filename d in
    let? suffix := validate_optional_matcher id "suffix" (fd_suffix f) in
    let? contains := validate_optional_matcher id "contains" (fd_contains f) in
    let fold (o : option string) := if fd_case_insensitive f then lower <$> o else o in
    let? request_targets :=
      validate_unique_nonempty_strings ("target " +++ str_debug id +++ " request_targets")
        (tg_request_targets d) in
    let? multipart := compile_update_parameter_targets id (tg_update_parameters d) in
    let? selection :=
      compile_selection id (tg_driver_default_targets d) request_targets multipart in
    Ok (mkCompiledTarget (tg_stage d) (tg_activate_after_stage d)
          (mkTargetPlan id key sources
             (mkMatcher (fold suffix) (fold contains) (fd_case_insensitive f)) selection
             (tg_update_parameters d) (tg_oem_parameters d) (tg_default_apply d))).

(** ** Stages *)

Record FirmwareUpdateStage := mkStage {
  stage_number : N;
  stage_targets : list FirmwareTargetPlan;
  activate_after : bool;
}.

(** [grouped.entry(stage).or_insert_with(..)] on a [BTreeMap], kept in key order. *)
Fixpoint push_stage (grouped : list FirmwareUpdateStage) (t : CompiledTarget)
    : result HardwareProfileError (list FirmwareUpdateStage) :=
  let new := mkStage (ct_stage t) [ct_plan t] (ct_activate_after t) in
  match grouped with
  | [] => Ok [new]
  | s :: rest =>
      if (ct_stage t =? stage_number s)%N then
        if negb (eqb (activate_after s) (ct_activate_after t))
        then validation_error ("all targets in stage " +++ pretty (ct_stage t) +++
               " must use the same activate_after_stage value")
        else Ok (mkStage (stage_number s) (stage_targets s ++ [ct_plan t]) (activate_after s) :: rest)
      else if (ct_stage t <? stage_number s)%N then Ok (new :: grouped)
      else let? rest := push_stage rest t in Ok (s :: rest)
  end.

Fixpoint compile_targets (targets : list TargetDocument) (ids : gset string)
    (grouped : list FirmwareUpdateStage) : result HardwareProfileError (list FirmwareUpdateStage) :=
  match targets with
  | [] => Ok grouped
  | d :: targets =>
      if (tg_stage d =? 0)%N
      then validation_error "firmware target stage must be greater than zero"
      else
        let? t := compile_target d in
        let id := plan_target_id (ct_plan t) in
        if decide (id ∈ ids)
        then validation_error ("duplicate firmware target id " +++ str_debug id)
        else
          let? grouped := push_stage grouped t in
          compile_targets targets ({[id]} ∪ ids) grouped
  end.

(** [selectors.rs]: a conflict for every component key, up to case, of two targets. *)
Definition all_targets (stages : list FirmwareUpdateStage) : list FirmwareTargetPlan :=
  stages ≫= stage_targets.

Definition conflict (targets : list FirmwareTargetPlan) (key : string) : option string :=
  let same := List.filter (fun t => String.eqb (lower (component_key t)) key) targets in
  if (1 <? length same)%nat
  then Some ("component_key " +++ str_debug key +++ " is assigned to multiple targets [" +++
         join_str ", " (dedup (sort_keys (plan_target_id <$> same))) +++
         "]; component keys must be unique")
  else None.

Definition validate_component_key_uniqueness (profile_id : string)
    (stages : list FirmwareUpdateStage) : result HardwareProfileError unit :=
  let targets := all_targets stages in
  let keys := dedup (sort_keys ((fun t => lower (component_key t)) <$> targets)) in
  let conflicts := omap (conflict targets) keys in
  if bool_decide (conflicts = []) then Ok tt
  else validation_error ("profile " +++ str_debug profile_id +++
         " has conflicting firmware target selectors: " +++ join_str "; " conflicts).

(** ** Plans *)

(** [FullComputePowerCycle] is the only strategy. *)
Inductive ActivationStrategy := FullComputePowerCycle.

Record FirmwareDocument := mkFirmwareDocument {
  fw_polling : PollingDocument;
  fw_power_on : option PowerOnDocument;
  fw_verification : VerificationDocument;
  fw_targets : list TargetDocument;
  fw_activation : option ActivationStrategy;
}.

Record HardwareProfileDocument := mkProfileDocument {
  hd_schema_version : N;
  hd_profile_id : string;
  hd_matches_node_type : string;
  hd_matches_enabled : bool;
  hd_driver : DriverDocument;
  hd_firmware : FirmwareDocument;
}.

Record HardwareUpdatePlan := mkPlan {
  schema_version : N;
  profile_id : string;
  source_sha256 : string;
  plan_node_type : NodeType;
  request_matching_enabled : bool;
  plan_runtime_config : NodeRuntimeConfig;
  polling : PollPolicy;
  power_on : option ComputePowerOnOptions;
  verification : VerificationPolicy;
  stages : list FirmwareUpdateStage;
  activation : option ActivationStrategy;
}.

Section compile.
(** The monotonic clock can represent now plus the duration. *)
Context (clock_can_add : N → bool).

Definition compile (d : HardwareProfileDocument) (sha256 : string)
    : result HardwareProfileError HardwareUpdatePlan :=
  if negb (hd_schema_version d =? SUPPORTED_SCHEMA_VERSION)%N
  then validation_error ("unsupported schema_version " +++ pretty (hd_schema_version d) +++
         "; expected " +++ pretty SUPPORTED_SCHEMA_VERSION)
  else
    let fw := hd_firmware d in
    let? id := validate_identifier "profile_id" (hd_profile_id d) in
    let name := trim (hd_matches_node_type d) in
    let? t := ok_or (from_stable_name name)
      (Validation ("unknown canonical matches.node_type " +++ str_debug name)) in
    if negb (bool_decide (kind t = Compute))
    then validation_error ("hardware profile schema version 1 does not support " +++
           kind_display (kind t) +++ " nodes")
    else
      let? runtime := compile_runtime_config (hd_driver d) in
      let? polling := compile_polling (fw_polling fw) in
      let? power_on :=
        match fw_power_on fw with
        | None => Ok None
        | Some p => let? o := compile_power_on clock_can_add p in Ok (Some o)
        end in
      let? verification := compile_verification (fw_verification fw) in
      if bool_decide (fw_targets fw = [])
      then validation_error "firmware.targets must contain at least one target"
      else
        let? stages := compile_targets (fw_targets fw) ∅ [] in
        let? _ := validate_component_key_uniqueness id stages in
        if existsb activate_after stages && bool_decide (fw_activation fw = None)
        then validation_error
               "firmware.activation is required when a stage activates after completion"
        else
          Ok (mkPlan (hd_schema_version d) id sha256 t (hd_matches_enabled d) runtime polling
                power_on verification stages (fw_activation fw)).

(** [serde_yaml::from_str] and the SHA-256 digest are third-party code. *)
Context (yaml : string → result string HardwareProfileDocument) (sha256_hex : string → string).

Definition from_yaml_str (source : string) : result HardwareProfileError HardwareUpdatePlan :=
  match yaml source with
  | Err e => Err (Parse e)
  | Ok d => compile d (sha256_hex source)
  end.

(** ** Catalog *)

(** Plans are shared by both indexes. *)
Record HardwareProfileCatalog := mkCatalog {
  by_profile_id : gmap string HardwareUpdatePlan;
  by_node_type : gmap NodeType HardwareUpdatePlan;
}.

Definition empty_catalog : HardwareProfileCatalog := mkCatalog ∅ ∅.

(** [{:?}] of a node type is its variant name. *)
Definition node_type_debug (t : NodeType) : string :=
  match t with
  | ComputeGb200Nvidia => "ComputeGb200Nvidia"
  | ComputeGb200Wiwynn => "ComputeGb200Wiwynn"
  | ComputeGb200Dell => "ComputeGb200Dell"
  | PowershelfGb200Liteon => "PowershelfGb200Liteon"
  | SwitchGb200Nvidia => "SwitchGb200Nvidia"
  | PowershelfGb200Delta => "PowershelfGb200Delta"
  | ComputeGb300Nvidia => "ComputeGb300Nvidia"
  | SwitchGb300Nvidia => "SwitchGb300Nvidia"
  | PowershelfGb300Liteon => "PowershelfGb300Liteon"
  | PowershelfGb300Delta => "PowershelfGb300Delta"
  | ComputeGb300Lenovo => "ComputeGb300Lenovo"
  | ComputeGb300Supermicro => "ComputeGb300Supermicro"
  | ComputeVrnvl72Nvidia => "ComputeVrnvl72Nvidia"
  | SwitchVrnvl72Nvidia => "SwitchVrnvl72Nvidia"
  | PowershelfVrnvl72Liteon => "PowershelfVrnvl72Liteon"
  | PowershelfVrnvl72Delta => "PowershelfVrnvl72Delta"
  end.

Definition insert_plan (c : HardwareProfileCatalog) (p : HardwareUpdatePlan)
    : result HardwareProfileError HardwareProfileCatalog :=
  match by_profile_id c !! profile_id p with
  | Some _ => validation_error ("duplicate hardware profile id " +++ str_debug (profile_id p))
  | None =>
      match by_node_type c !! plan_node_type p with
      | Some existing =>
          validation_error ("node type " +++ node_type_debug (plan_node_type p) +++
            " is claimed by both profiles " +++ str_debug (profile_id existing) +++ " and " +++
            str_debug (profile_id p))
      | None =>
          Ok (mkCatalog (<[profile_id p := p]> (by_profile_id c))
                (<[plan_node_type p := p]> (by_node_type c)))
      end
  end.

(** The loop of [built_in] over its sources; [load_directory] runs it over the files
    it read, in path order. *)
Fixpoint insert_all (c : HardwareProfileCatalog) (sources : list string)
    : result HardwareProfileError HardwareProfileCatalog :=
  match sources with
  | [] => Ok c
  | source :: sources =>
      let? p := from_yaml_str source in
      let? c := insert_plan c p in
      insert_all c sources
  end.

Definition built_in (sources : list string) : result HardwareProfileError HardwareProfileCatalog :=
  insert_all empty_catalog sources.
End compile.

Definition requires_embedded_profile (t : NodeType) : bool :=
  bool_decide (t = ComputeGb200Dell).

(** [embedded] is [BUILT_IN_CATALOG]. *)
Definition request_profile (embedded c : HardwareProfileCatalog) (t : NodeType)
    : option HardwareUpdatePlan :=
  match (p ← by_node_type c !! t; if request_matching_enabled p then Some p else None) with
  | Some p => Some p
  | None => if requires_embedded_profile t then by_node_type embedded !! t else None
  end.

Definition runtime_config_for_request (embedded c : HardwareProfileCatalog) (t : NodeType)
    : option NodeRuntimeConfig :=
  plan_runtime_config <$> request_profile embedded c t.

(** ** Resolution of a firmware target *)

Inductive FirmwareDestination :=
| DestRedfish (path : RedfishPath)
| DestMultipart (paths : list RedfishPath)
| DestDriverDefault.

Record FirmwareTargetResolution := mkResolution {
  res_profile_target_id : string;
  res_destination : FirmwareDestination;
  res_update_parameters : option json_map;
  res_oem_parameters : option json_map;
}.

(** [P] is the rollout policy of the firmware update crate. *)
Record FirmwareTarget {P : Type} := mkFirmwareTarget {
  component : string;
  firmware_file : string;
  expected_version : option string;
  resolution : option FirmwareTargetResolution;
  linkx_policy : option P;
}.
Arguments FirmwareTarget : clear implicits.

#[global] Instance RedfishPath_eq_dec : EqDecision RedfishPath.
Proof. unfold RedfishPath. apply _. Defined.

Definition allowed_destination (s : RequestTargetSelection) (d : FirmwareDestination) : bool :=
  match s, d with
  | Explicit paths, DestRedfish path => bool_decide (path ∈ paths)
  | Multipart expected, DestMultipart actual => bool_decide (expected = actual)
  | DriverDefault, DestDriverDefault => true
  | _, _ => false
  end.

Definition select_destination (p : FirmwareTargetPlan) (component : string)
    : result RmsError FirmwareDestination :=
  match request_target_selection p with
  | Explicit paths =>
      match find_first (fun path => eq_ignore_ascii_case path (trim component)) paths with
      | Some path => Ok (DestRedfish path)
      | None =>
          match paths with
          | [path] => Ok (DestRedfish path)
          | _ => Err (invalid_argument ("hardware profile target " +++ plan_target_id p +++
                   " has multiple request_targets; direct requests require a single destination"))
          end
      end
  | DriverDefault => Ok DestDriverDefault
  | Multipart paths => Ok (DestMultipart paths)
  end.

Definition resolve_target {P} (p : FirmwareTargetPlan) (t : FirmwareTarget P)
    : result RmsError (FirmwareTarget P) :=
  match resolution t with
  | Some r =>
      if negb (String.eqb (res_profile_target_id r) (plan_target_id p))
         || negb (allowed_destination (request_target_selection p) (res_destination r))
         || negb (bool_decide (res_update_parameters r = update_parameters p))
         || negb (bool_decide (res_oem_parameters r = oem_parameters p))
      then Err (invalid_argument ("resolved firmware destination does not belong to profile target "
             +++ plan_target_id p))
      else Ok t
  | None =>
      let? d := select_destination p (component t) in
      Ok (mkFirmwareTarget P (component_key p) (firmware_file t) (expected_version t)
            (Some (mkResolution (plan_target_id p) d (update_parameters p) (oem_parameters p)))
            (linkx_policy t))
  end.
End HardwarePlan.
