(* ===== verification/HardwarePlanTheorems.v ===== *)
(** * What a compiled plan guarantees

    Durations parse back to what was written, every compiled plan is well formed and holds exactly the targets of its
    document, the catalog's two indexes agree, and the resolution of a firmware
    target is stable and bound to its plan. *)

From S2P Require Import Prelude RustStd RustStr Json RmsError NodeTypes HardwareProfiles HardwarePlan.
From Stdlib Require Import Ascii.
Import NodeTypes HardwareProfiles HardwarePlan.
Local Open Scope string_scope.
Local Open Scope list_scope.

(** ** Durations *)

Inductive unit_of_time := Ms | Sec | Min | Hour.

Definition unit_name (u : unit_of_time) : string :=
  match u with Ms => "ms" | Sec => "s" | Min => "m" | Hour => "h" end.

Definition unit_nanos (u : unit_of_time) : N :=
  match u with
  | Ms => 1000000
  | Sec => 1000000000
  | Min => 60 * 1000000000
  | Hour => 3600 * 1000000000
  end.

(** An ASCII character that is not white space starts and ends no white space. *)
Definition plain (c : ascii) : Prop := ws1 c = false ∧ (N_of_ascii c < 128)%N.

Lemma plain_start c l : plain c → starts_ws (c :: l) = false.
Proof.
  intros [H1 H2]. cbn [starts_ws]. rewrite H1. destruct l as [|b [|d l]]; [done|..]; unfold ws2, ws3;
    repeat match goal with |- context [(N_of_ascii c =? ?k)%N] =>
      destruct (N.eqb_spec (N_of_ascii c) k); [lia|] end; done.
Qed.

Lemma plain_end c l : plain c → trim_ws_rev (c :: l) = c :: l.
Proof.
  intros [H1 H2]. cbn [trim_ws_rev]. rewrite H1. destruct l as [|b l]; [done|].
  assert (ws2 b c = false) as ->.
  { unfold ws2. repeat match goal with |- context [(N_of_ascii c =? ?k)%N] =>
      destruct (N.eqb_spec (N_of_ascii c) k); [lia|] end. by rewrite andb_false_r. }
  destruct l as [|d l]; [done|]. assert (ws3 d b c = false) as ->; [|done].
  unfold ws3, between. repeat match goal with
    | |- context [(N_of_ascii c =? ?k)%N] => destruct (N.eqb_spec (N_of_ascii c) k); [lia|]
    | |- context [(128 <=? N_of_ascii c)%N] => destruct (N.leb_spec 128 (N_of_ascii c)); [lia|]
    end. by rewrite !andb_false_r.
Qed.

Lemma trim_plain c l d k : plain c → plain d → c :: l = k ++ [d] → trim (of_chars (c :: l)) = of_chars (c :: l).
Proof.
  intros Hc Hd E. unfold trim. rewrite to_of_chars. f_equal.
  rewrite (proj2 (trim_start_fix (c :: l))) by by apply plain_start.
  rewrite E, rev_app_distr. cbn [rev app]. rewrite plain_end by done.
  cbn [rev]. by rewrite rev_involutive.
Qed.

Lemma strip_last l d p e : d ≠ e → strip_suffix (l ++ [d]) (p ++ [e]) = None.
Proof.
  intros Hne. unfold strip_suffix, ends_with. rewrite !rev_app_distr. simpl.
  destruct (Ascii.eqb_spec e d); [congruence|done].
Qed.

Lemma split_unit_app l u c k :
  l = k ++ [c] → is_Some (to_digit 10 c) → split_unit (l ++ to_chars (unit_name u)) = Some (l, unit_name u).
Proof.
  intros -> Hc%digit_code. unfold split_unit.
  assert (∀ d, c = ascii_of_N d → (57 < d < 256)%N → False) as Hnd.
  { intros d -> Hd. rewrite N_ascii_embedding in Hc; lia. }
  destruct u; cbn [unit_name].
  - by rewrite strip_app.
  - assert (strip_suffix ((k ++ [c]) ++ to_chars "s") (to_chars "ms") = None) as ->.
    { unfold strip_suffix, ends_with. rewrite !rev_app_distr.
      change (rev (to_chars "ms")) with ["s"; "m"]%char. change (rev (to_chars "s")) with ["s"%char].
      cbn [rev app starts_with]. rewrite Ascii.eqb_refl.
      destruct (Ascii.eqb_spec "m" c) as [E|]; [|done]. exfalso. by apply (Hnd 109%N). }
    by rewrite strip_app.
  - rewrite (strip_last _ "m" ["m"%char] "s"), (strip_last _ "m" [] "s") by done. by rewrite strip_app.
  - rewrite (strip_last _ "h" ["m"%char] "s"), (strip_last _ "h" [] "s"), (strip_last _ "h" [] "m") by done.
    by rewrite strip_app.
Qed.

Lemma digit_plain c : is_Some (to_digit 10 c) → plain c.
Proof.
  intros Hc%digit_code. split; [|lia]. unfold ws1, between.
  destruct (N.eqb_spec (N_of_ascii c) 32); [lia|]. simpl.
  destruct (N.leb_spec (N_of_ascii c) 13); [lia|]. apply andb_false_r.
Qed.

Lemma trim_number (n : N) u :
  to_chars (trim (pretty n +++ unit_name u)) = to_chars (pretty n) ++ to_chars (unit_name u).
Proof.
  rewrite <- to_chars_app. f_equal. rewrite <- (of_to_chars (pretty n +++ unit_name u)), to_chars_app.
  destruct (pretty_digits n) as (c & l & E & Hd). rewrite E. simpl app.
  apply digits_chars, Forall_inv, digit_plain in Hd. destruct u.
  - apply (trim_plain c _ "s" (c :: l ++ ["m"%char])); [done|done|].
    simpl. by rewrite <- app_assoc.
  - by apply (trim_plain c _ "s" (c :: l)).
  - by apply (trim_plain c _ "m" (c :: l)).
  - by apply (trim_plain c _ "h" (c :: l)).
Qed.

(** A duration written as a number and a unit is read back exactly when it is
    at most a day, and rejected when it is longer, also where the number or its
    product with the unit exceeds 64 bits. *)
Theorem duration_roundtrip field (n : N) u :
  match parse_duration field (pretty n +++ unit_name u) with
  | Ok d => d = (n * unit_nanos u)%N ∧ (d ≤ MAX_CONFIGURED_DURATION)%N
  | Err _ => (MAX_CONFIGURED_DURATION < n * unit_nanos u)%N
  end.
Proof.
  unfold parse_duration. rewrite trim_number.
  destruct (pretty_digits n) as (c & l & E & Hd).
  assert (∃ k d, to_chars (pretty n) = k ++ [d] ∧ is_Some (to_digit 10 d)) as (k & d & Ek & Hk).
  { destruct (exists_last (l := c :: l)) as (k & d & Ek); [done|]. exists k, d. split; [congruence|].
    apply digits_chars in Hd. rewrite Ek, Forall_app in Hd. destruct Hd as [_ Hd].
    by apply Forall_inv in Hd. }
  rewrite (split_unit_app _ _ d k) by done. rewrite parse_pretty.
  change MAX_CONFIGURED_DURATION with 86400000000000%N.
  change U64_MAX with 18446744073709551615%N.
  destruct (N.leb_spec n 18446744073709551615); simpl; [|destruct u; simpl; lia].
  destruct u; cbn [unit_name String.eqb Ascii.eqb Bool.eqb result_bind unit_nanos];
    unfold from_millis, from_secs, checked_mul; change U64_MAX with 18446744073709551615%N;
    repeat match goal with
    | |- context [(?a <=? ?b)%N] => destruct (N.leb_spec a b); cbn [ok_or result_bind]
    | |- context [(?a <? ?b)%N] => destruct (N.ltb_spec a b)
    end; simpl; lia.
Qed.

(** The same with the validation errors of a profile. *)
Ltac bind_ok H :=
  repeat match type of H with
  | result_bind ?r _ = Ok _ =>
      let E := fresh "E" in destruct r eqn:E; cbn [result_bind] in H; [|discriminate H]
  | (if decide ?P then _ else _) = Ok _ =>
      let N := fresh "Hnew" in destruct (decide P) as [|N]; [discriminate H|]
  | (if ?b then Err _ else _) = Ok _ =>
      let E := fresh "E" in destruct b eqn:E; [discriminate H|]
  | (if ?b then validation_error _ else _) = Ok _ =>
      let E := fresh "E" in destruct b eqn:E; [discriminate H|]
  end.

(** ** Paths *)

Lemma split_on_nonempty d l : split_on d l ≠ [].
Proof. destruct l as [|c l]; simpl; [done|]. repeat case_match; done. Qed.

(** Without a doubled separator only the first and the last segment can be empty. *)
Lemma split_on_inner d l s ss i :
  contains_str l [d; d] = false → split_on d l = s :: ss → ss !! i = Some [] →
  i = pred (length ss).
Proof.
  revert s ss i. induction l as [|c l IH]; intros s ss i; cbn [split_on].
  - intros _ [= <- <-]. by rewrite lookup_nil.
  - cbn [contains_str]. intros [Hs Hc]%orb_false_iff. destruct (Ascii.eqb_spec c d) as [->|Hne].
    + intros [= <- <-]. destruct (split_on d l) as [|s' ss'] eqn:E; [by apply split_on_nonempty in E|].
      destruct i as [|i]; simpl.
      * intros [= ->]. destruct ss' as [|x ss']; [done|]. exfalso.
        destruct l as [|c l]; [done|]. cbn [split_on] in E. cbn [starts_with] in Hs.
        rewrite Ascii.eqb_refl in Hs. cbn [andb] in Hs.
        destruct (Ascii.eqb_spec c d) as [->|Hcd].
        -- rewrite Ascii.eqb_refl in Hs. by destruct l; simpl in Hs.
        -- destruct (split_on d l); congruence.
      * intros Hi. destruct ss' as [|x ss']; [done|]. simpl. f_equal. by eapply (IH s' (x :: ss') i).
    + destruct (split_on d l) as [|s' ss'] eqn:E; [by apply split_on_nonempty in E|]. intros [= <- <-]. by apply (IH s' ss').
Qed.

Definition safe_segment (s : chars) : Prop :=
  of_chars s ≠ "." ∧ of_chars s ≠ ".." ∧ Forall (fun c => is_path_char c = true) s.

(** The path stays below [/redfish/v1], however a client resolves it. *)
Definition path_safe (p : RedfishPath) : Prop :=
  ∃ rest, split_on "/" (to_chars p) = [] :: to_chars "redfish" :: to_chars "v1" :: rest ∧
    Forall safe_segment rest ∧
    (∀ i, rest !! i = Some [] → i = pred (length rest)).

Lemma forall_split (P : ascii → Prop) d l : Forall P l → Forall (Forall P) (split_on d l).
Proof.
  induction 1 as [|c l Hc Hl IH]; cbn [split_on]; [by repeat constructor|].
  destruct (Ascii.eqb c d); [by constructor|]. destruct (split_on d l) as [|s ss]; [by repeat constructor|].
  inversion IH; subst. by repeat constructor.
Qed.

Lemma path_from_str value p : redfish_path_from_str value = Ok p → path_safe p.
Proof.
  unfold redfish_path_from_str. destruct (_ || _) eqn:E; [done|]. intros [= <-].
  apply orb_false_iff in E as [E Hch]. apply orb_false_iff in E as [E Hdot].
  apply orb_false_iff in E as [E Hdbl]. apply negb_false_iff in E, Hch.
  assert (∀ rest, split_on "/" (to_chars value) = [] :: to_chars "redfish" :: to_chars "v1" :: rest →
    path_safe value) as Hsafe.
  { intros rest Hs. exists rest. split; [done|]. split.
    - apply Forall_forall. intros s Hin. rewrite Hs in Hdot.
      assert (is_dot_segment s = false) as Hd.
      { destruct (is_dot_segment s) eqn:Ed; [|done]. exfalso.
        rewrite (proj2 (existsb_exists is_dot_segment _)) in Hdot; [done|].
        exists s. split; [|done]. apply list_elem_of_In. by do 3 right. }
      unfold is_dot_segment in Hd. apply orb_false_iff in Hd as [H1 H2].
      apply String.eqb_neq in H1, H2. split_and!; [done..|].
      assert (Forall (Forall (fun c => is_path_char c = true)) (split_on "/" (to_chars value))) as Hf.
      { apply forall_split, Forall_forall. intros c Hc. rewrite forallb_forall in Hch.
        apply Hch. by apply list_elem_of_In. }
      rewrite Hs, Forall_forall in Hf. apply Hf. by do 3 right.
    - intros i Hi. eapply (split_on_inner _ _ _ _ (S (S i)) Hdbl) in Hs; [|done]. simpl in Hs. lia. }
  apply orb_true_iff in E as [->%String.eqb_eq|Hp]; [by apply (Hsafe [])|].
  apply starts_with_split in Hp as [r Hr].
  apply (Hsafe (split_on "/" r)). by rewrite Hr.
Qed.

Lemma parse_path_safe field value p : parse_redfish_path field value = Ok p → path_safe p.
Proof.
  unfold parse_redfish_path. destruct (redfish_path_from_str value) eqn:E; [|done].
  intros [= <-]. by eapply path_from_str.
Qed.

(** ** Stages *)

Definition targets_at (g : list FirmwareUpdateStage) (n : N) : list FirmwareTargetPlan :=
  g ≫= fun s => if (stage_number s =? n)%N then stage_targets s else [].

Definition numbers (g : list FirmwareUpdateStage) : list N := stage_number <$> g.

Record pushed (g : list FirmwareUpdateStage) (t : CompiledTarget) (g' : list FirmwareUpdateStage)
    : Prop := {
  pu_sorted : StronglySorted N.lt (numbers g');
  pu_targets : ∀ n, targets_at g' n =
    targets_at g n ++ if (ct_stage t =? n)%N then [ct_plan t] else [];
  pu_numbers : ∀ n, n ∈ numbers g' ↔ n ∈ numbers g ∨ n = ct_stage t;
  pu_perm : all_targets g' ≡ₚ all_targets g ++ [ct_plan t];
  pu_new : ∀ s', s' ∈ g' → stage_number s' = ct_stage t → activate_after s' = ct_activate_after t;
  pu_old : ∀ s', s' ∈ g' → ∀ s, s ∈ g → stage_number s = stage_number s' →
    activate_after s = activate_after s';
}.

Lemma targets_at_out g n : n ∉ numbers g → targets_at g n = [].
Proof.
  induction g as [|s g IH]; simpl; [done|]. intros [Hs Hg]%not_elem_of_cons.
  destruct (N.eqb_spec (stage_number s) n); [congruence|]. by apply IH.
Qed.

Lemma sorted_out n (l : list N) : Forall (N.lt n) l → n ∉ l.
Proof. rewrite Forall_forall. intros H Hn. apply H in Hn. lia. Qed.

Lemma sorted_unique (g : list FirmwareUpdateStage) s s' :
  StronglySorted N.lt (numbers g) → s ∈ g → s' ∈ g → stage_number s = stage_number s' → s = s'.
Proof.
  induction g as [|x g IH]; simpl; [by intros _ ?%not_elem_of_nil|].
  intros [Hs Hx%sorted_out]%StronglySorted_inv.
  intros [->|H1]%elem_of_cons [->|H2]%elem_of_cons E; [done|..|by apply IH];
    exfalso; apply Hx, list_elem_of_fmap; eauto.
Qed.

Lemma later_ne n (g : list FirmwareUpdateStage) s :
  Forall (N.lt n) (numbers g) → s ∈ g → stage_number s ≠ n.
Proof.
  intros H%sorted_out Hin <-. apply H. apply list_elem_of_fmap. eauto.
Qed.

Lemma push_front t g :
  StronglySorted N.lt (numbers g) → Forall (N.lt (ct_stage t)) (numbers g) →
  pushed g t (mkStage (ct_stage t) [ct_plan t] (ct_activate_after t) :: g).
Proof.
  intros Hs Hlt. pose proof (sorted_out _ _ Hlt) as Hout.
  assert (∀ s, s ∈ g → stage_number s ≠ ct_stage t) as Hne by (intros s; by apply later_ne).
  split.
  - by constructor.
  - intros n. simpl. destruct (N.eqb_spec (ct_stage t) n) as [<-|]; [|by rewrite app_nil_r].
    by rewrite (targets_at_out g).
  - intros n. simpl. rewrite elem_of_cons. naive_solver.
  - unfold all_targets. simpl. by rewrite Permutation_cons_append.
  - intros s' [->|Hin]%elem_of_cons E; [done|]. by apply Hne in Hin.
  - intros s' [->|Hin']%elem_of_cons s Hin E; [by apply Hne in Hin|].
    by rewrite (sorted_unique g s s').
Qed.

(** The stage exists. *)
Lemma push_same s g t :
  StronglySorted N.lt (numbers (s :: g)) → ct_stage t = stage_number s →
  activate_after s = ct_activate_after t →
  pushed (s :: g) t (mkStage (stage_number s) (stage_targets s ++ [ct_plan t]) (activate_after s) :: g).
Proof.
  intros Hs E Ea. change (numbers (s :: g)) with (stage_number s :: numbers g) in Hs.
  pose proof Hs as [Hsg Hlt]%StronglySorted_inv. pose proof (λ x, later_ne _ g x Hlt) as Hne. split.
  - done.
  - intros n. simpl. rewrite E. destruct (N.eqb_spec (stage_number s) n) as [<-|]; simpl.
    + fold (targets_at g (stage_number s)). rewrite (targets_at_out g) by by apply sorted_out.
      by rewrite !app_nil_r.
    + by rewrite app_nil_r.
  - intros n. simpl. rewrite elem_of_cons, E. naive_solver.
  - unfold all_targets. simpl. rewrite <- !app_assoc. f_equiv. by rewrite Permutation_app_comm.
  - intros s' [->|Hin]%elem_of_cons E'; [done|]. apply Hne in Hin. congruence.
  - intros s' [->|Hs']%elem_of_cons s0 [->|Hs0]%elem_of_cons E'; [done|..].
    + by apply Hne in Hs0.
    + by apply Hne in Hs'.
    + by rewrite (sorted_unique g s0 s').
Qed.

(** The stage comes later. *)
Lemma push_later s g t g' :
  StronglySorted N.lt (numbers (s :: g)) → (stage_number s < ct_stage t)%N →
  pushed g t g' → pushed (s :: g) t (s :: g').
Proof.
  intros Hs Hl [H1 H2 H3 H4 H5 H6].
  change (numbers (s :: g)) with (stage_number s :: numbers g) in Hs.
  pose proof Hs as [Hsg Hlt]%StronglySorted_inv.
  assert (Forall (N.lt (stage_number s)) (numbers g')) as Hlt'.
  { apply Forall_forall. intros n [Hn| ->]%H3; [|lia]. rewrite Forall_forall in Hlt. by apply Hlt. }
  split.
  - by constructor.
  - intros n. simpl. fold (targets_at g' n) (targets_at g n). rewrite H2. by rewrite app_assoc.
  - intros n. simpl. rewrite !elem_of_cons. fold (numbers g') (numbers g). rewrite H3. naive_solver.
  - unfold all_targets. simpl. rewrite <- app_assoc. by f_equiv.
  - intros s' [->|Hin]%elem_of_cons E'; [lia|]. by apply H5.
  - intros s' [->|Hs']%elem_of_cons s0 [->|Hs0]%elem_of_cons E'; [done|..].
    + by apply (later_ne _ _ _ Hlt) in Hs0.
    + by apply (later_ne _ _ _ Hlt') in Hs'.
    + by apply H6.
Qed.

Lemma push_stage_ok g t g' :
  StronglySorted N.lt (numbers g) → push_stage g t = Ok g' → pushed g t g'.
Proof.
  revert g'. induction g as [|s g IH]; intros g' Hs; cbn [push_stage].
  - intros [= <-]. apply push_front; constructor.
  - pose proof Hs as [Hsg Hlt]%StronglySorted_inv.
    destruct (N.eqb_spec (ct_stage t) (stage_number s)) as [E|Hne].
    + destruct (Bool.eqb (activate_after s) (ct_activate_after t)) eqn:Ea; [|done].
      intros [= <-]. apply push_same; [done|done|by apply eqb_prop].
    + destruct (N.ltb_spec (ct_stage t) (stage_number s)) as [Hl|Hl].
      * intros [= <-]. apply push_front; [done|]. constructor; [done|].
        eapply Forall_impl; [exact Hlt|]. simpl. lia.
      * intros H. bind_ok H. injection H as <-. apply push_later; [done|lia|by apply IH].
Qed.

(** The stages [g] hold exactly the targets [cts], each in the stage it names, in
    document order within a stage. *)
Record staged (cts : list CompiledTarget) (g : list FirmwareUpdateStage) : Prop := {
  sg_sorted : StronglySorted N.lt (numbers g);
  sg_targets : ∀ n, targets_at g n =
    ct_plan <$> List.filter (fun t => (ct_stage t =? n)%N) cts;
  sg_numbers : ∀ n, n ∈ numbers g ↔ ∃ t, t ∈ cts ∧ ct_stage t = n;
  sg_perm : all_targets g ≡ₚ ct_plan <$> cts;
  sg_flags : ∀ s t, s ∈ g → t ∈ cts → ct_stage t = stage_number s →
    activate_after s = ct_activate_after t;
}.

Lemma staged_nil : staged [] [].
Proof.
  split; [constructor|done| |done|by intros s t ?%not_elem_of_nil].
  intros n. split; [by intros ?%not_elem_of_nil|]. by intros (t & ?%not_elem_of_nil & _).
Qed.

Lemma staged_push cts g t g' : staged cts g → push_stage g t = Ok g' → staged (cts ++ [t]) g'.
Proof.
  intros [Hs Ht Hn Hp Hf] H%push_stage_ok; [|done]. destruct H as [H1 H2 H3 H4 H5 H6]. split.
  - done.
  - intros n. rewrite H2, Ht, List.filter_app, fmap_app. simpl. by destruct (ct_stage t =? n)%N.
  - intros n. rewrite H3, Hn. setoid_rewrite elem_of_app. setoid_rewrite list_elem_of_singleton.
    naive_solver.
  - rewrite H4, Hp, fmap_app. done.
  - intros s' t0 Hs' [Ht0| ->%list_elem_of_singleton]%elem_of_app E; [|by apply H5].
    assert (stage_number s' ∈ numbers g) as (s & Es & Hin)%list_elem_of_fmap by (apply Hn; eauto).
    rewrite <- (H6 s' Hs' s Hin) by done. apply Hf; congruence || done.
Qed.

(** Each stage holds all targets of its number, and at least one. *)
Lemma staged_stage cts g s :
  staged cts g → s ∈ g →
  stage_targets s = ct_plan <$> List.filter (fun t => (ct_stage t =? stage_number s)%N) cts ∧
  ∃ t, t ∈ cts ∧ ct_stage t = stage_number s.
Proof.
  intros [Hs Ht Hn _ _] Hin. split; [|by apply Hn, list_elem_of_fmap; eauto]. rewrite <- Ht. clear Ht Hn.
  induction g as [|x g IH]; [by apply not_elem_of_nil in Hin|]. simpl.
  change (numbers (x :: g)) with (stage_number x :: numbers g) in Hs.
  apply StronglySorted_inv in Hs as [Hs Hlt]. apply elem_of_cons in Hin as [->|Hin].
  - rewrite N.eqb_refl. fold (targets_at g (stage_number x)).
    rewrite targets_at_out by by apply sorted_out. by rewrite app_nil_r.
  - destruct (N.eqb_spec (stage_number x) (stage_number s)) as [E|]; [|by apply IH].
    exfalso. by apply (later_ne _ _ _ Hlt Hin).
Qed.

(** ** Targets *)

Lemma unique_loop_ok field values seen r :
  validate_unique_loop field values seen = Ok r →
  NoDup (lower <$> r) ∧ Forall (λ v, v ≠ "") r ∧ ∀ v, v ∈ r → lower v ∉ seen.
Proof.
  revert seen r. induction values as [|v values IH]; intros seen r; cbn [validate_unique_loop].
  - intros [= <-]. split_and!; [constructor|constructor|by intros v ?%not_elem_of_nil].
  - intros H. bind_ok H. injection H as <-.
    destruct (IH _ _ E0) as (Hd & Hne & Hs). apply String.eqb_neq in E. split_and!.
    + simpl. constructor; [|done]. intros (w & Ew & Hw)%list_elem_of_fmap. apply Hs in Hw. set_solver.
    + by constructor.
    + intros w [->|Hw]%elem_of_cons; [done|]. apply Hs in Hw. set_solver.
Qed.

Record target_ok (p : FirmwareTargetPlan) : Prop := {
  to_id : plan_target_id p ≠ "" ∧ all_chars is_identifier_char (plan_target_id p) = true;
  to_key : component_key p ≠ "" ∧ all_chars is_component_key_char (component_key p) = true;
  to_sources : source_components p ≠ [] ∧ NoDup (lower <$> source_components p);
  to_paths : Forall path_safe (destination_paths p);
  to_explicit : ∀ paths, request_target_selection p = Explicit paths → paths ≠ [];
}.

Lemma identifier_ok field value id :
  validate_identifier field value = Ok id → id ≠ "" ∧ all_chars is_identifier_char id = true.
Proof.
  unfold validate_identifier. intros H. bind_ok H. injection H as <-. reflect_bools.
  split; [by apply String.eqb_neq|done].
Qed.

Lemma component_key_ok id value key :
  validate_component_key id value = Ok key → key ≠ "" ∧ all_chars is_component_key_char key = true.
Proof.
  unfold validate_component_key. intros H. bind_ok H. injection H as <-. reflect_bools.
  split; [by apply String.eqb_neq|done].
Qed.

Lemma parameter_paths_safe id values unique paths :
  parameter_paths id values unique = Ok paths → Forall path_safe paths.
Proof.
  revert unique paths. induction values as [|v values IH]; intros unique paths; cbn [parameter_paths].
  - by intros [= <-].
  - destruct v as [| | |path| |]; try done. intros H. bind_ok H.
    injection H as <-. constructor; [by eapply parse_path_safe|by eapply IH].
Qed.

Lemma update_targets_safe id ps paths :
  compile_update_parameter_targets id ps = Ok (Some paths) → Forall path_safe paths.
Proof.
  unfold compile_update_parameter_targets. destruct ps as [ps|]; [|done]. intros H. bind_ok H.
  repeat case_match; try done; bind_ok H; injection H as <-; by eapply parameter_paths_safe.
Qed.

Lemma selection_ok id dflt request multipart sel :
  (∀ paths, multipart = Some paths → Forall path_safe paths) →
  compile_selection id dflt request multipart = Ok sel →
  match sel with
  | Explicit paths => paths ≠ [] ∧ Forall path_safe paths
  | Multipart paths => Forall path_safe paths
  | DriverDefault => True
  end.
Proof.
  intros Hm. unfold compile_selection.
  destruct dflt, request as [|r request], multipart as [m|]; try done.
  - by intros [= <-].
  - intros [= <-]. by apply Hm.
  - intros H. bind_ok H. injection H as <-. split.
    + simpl in E. bind_ok E. by injection E as <-.
    + eapply collect_Forall; [|exact E]. intros x y. apply parse_path_safe.
Qed.

Lemma compile_target_ok d t :
  compile_target d = Ok t →
  ct_stage t = tg_stage d ∧ ct_activate_after t = tg_activate_after_stage d ∧ target_ok (ct_plan t).
Proof.
  unfold compile_target. intros H. bind_ok H. injection H as <-. split_and!; [done..|].
  reflect_bools. apply unique_loop_ok in E1 as (Hd & _ & _).
  eapply selection_ok in E7; [|intros paths ->; by eapply update_targets_safe].
  split; simpl; [by eapply identifier_ok|by eapply component_key_ok|done| |].
  - unfold destination_paths. simpl. destruct a6; [apply E7|done|constructor].
  - intros paths ->. apply E7.
Qed.

Definition ct_id (t : CompiledTarget) : string := plan_target_id (ct_plan t).

Lemma compile_targets_ok ds ids g cts g' :
  staged cts g → NoDup (ct_id <$> cts) → (∀ id, id ∈ ids ↔ id ∈ ct_id <$> cts) →
  compile_targets ds ids g = Ok g' →
  ∃ cts', collect compile_target ds = Ok cts' ∧ staged (cts ++ cts') g' ∧
    NoDup (ct_id <$> (cts ++ cts')) ∧ Forall (λ d, tg_stage d ≠ 0%N) ds.
Proof.
  revert ids g cts. induction ds as [|d ds IH]; intros ids g cts Hs Hd Hids; cbn [compile_targets collect].
  - intros [= <-]. exists []. by rewrite app_nil_r.
  - intros H. bind_ok H. rename a into t, a0 into g1.
    destruct (IH ({[ct_id t]} ∪ ids) g1 (cts ++ [t]) (staged_push _ _ _ _ Hs E1))
      as (cts' & Hc & Hst & Hnd & Hz); [| |done|].
    + rewrite fmap_app. apply NoDup_app. split_and!; [done| |apply NoDup_singleton].
      intros x Hx ->%list_elem_of_singleton. by apply Hids in Hx.
    + intros id. rewrite fmap_app, elem_of_app, elem_of_union, elem_of_singleton, Hids. simpl.
      rewrite list_elem_of_singleton. naive_solver.
    + exists (t :: cts'). rewrite Hc. rewrite <- app_assoc in Hst, Hnd. split_and!; [done..|].
      constructor; [|done]. by apply N.eqb_neq.
Qed.

Lemma NoDup_counts (l : list string) :
  (∀ x, x ∈ l → (length (List.filter (String.eqb x) l) ≤ 1)%nat) → NoDup l.
Proof.
  induction l as [|y l IH]; [constructor|]. intros H. constructor.
  - intros Hy. specialize (H y). rewrite elem_of_cons in H. simpl in H. rewrite String.eqb_refl in H.
    simpl in H. destruct (List.filter (String.eqb y) l) as [|z k] eqn:E; [|simpl in H; lia || naive_solver lia].
    assert (y ∈ List.filter (String.eqb y) l) as Hin.
    { apply list_elem_of_In, filter_In. split; [by apply list_elem_of_In|apply String.eqb_refl]. }
    rewrite E in Hin. by apply not_elem_of_nil in Hin.
  - apply IH. intros x Hx. specialize (H x). etrans; [|apply H; by right]. simpl.
    destruct (String.eqb x y); simpl; lia.
Qed.

Lemma filter_fmap_length {A} (f : A → string) key (l : list A) :
  length (List.filter (String.eqb key) (f <$> l)) =
  length (List.filter (fun t => String.eqb (f t) key) l).
Proof.
  induction l as [|x l IH]; [done|]. cbn [fmap list_fmap List.filter].
  rewrite (String.eqb_sym (f x) key). destruct (String.eqb key (f x)); [|exact IH].
  cbn [length]. f_equal. exact IH.
Qed.

Lemma component_keys_unique id g :
  validate_component_key_uniqueness id g = Ok tt →
  NoDup ((fun t => lower (component_key t)) <$> all_targets g).
Proof.
  unfold validate_component_key_uniqueness. case_bool_decide as E; [|done]. intros _.
  apply NoDup_counts. intros key Hkey. rewrite filter_fmap_length.
  assert (conflict (all_targets g) key = None) as Hc.
  { destruct (conflict (all_targets g) key) as [m|] eqn:Em; [|done].
    assert (m ∈ omap (conflict (all_targets g))
      (dedup (sort_keys ((fun t => lower (component_key t)) <$> all_targets g)))) as Hm.
    { apply list_elem_of_omap. exists key. split; [|done]. by apply elem_of_dedup, elem_of_sort_keys. }
    rewrite E in Hm. by apply not_elem_of_nil in Hm. }
  unfold conflict in Hc. destruct (Nat.ltb_spec 1 (length (List.filter
    (fun t => String.eqb (lower (component_key t)) key) (all_targets g)))); [done|lia].
Qed.

(** ** Driver parameters *)

Definition seconds_ok (allow_zero : bool) (d : N) : Prop :=
  (d ≤ MAX_CONFIGURED_DURATION)%N ∧ subsec_nanos d = 0%N ∧ (allow_zero = false → d ≠ 0%N).

Lemma parse_duration_max field v d : parse_duration field v = Ok d → (d ≤ MAX_CONFIGURED_DURATION)%N.
Proof.
  unfold parse_duration. destruct (split_unit _) as [[number unit]|]; [|done].
  intros H. bind_ok H. injection H as <-. by apply N.ltb_ge.
Qed.

Lemma timing_duration_ok field v fallback z d :
  (fallback ≤ MAX_CONFIGURED_DURATION)%N → compile_timing_duration field v fallback z = Ok d →
  seconds_ok z d.
Proof.
  unfold compile_timing_duration. intros Hf H. bind_ok H. injection H as <-.
  split_and!.
  - destruct v as [v|]; [by eapply parse_duration_max|]. by injection E as <-.
  - apply negb_false_iff in E1. by apply N.eqb_eq.
  - intros ->. unfold require_nonzero in E0. bind_ok E0. by apply N.eqb_neq.
Qed.

Lemma timing_count_ok field v z n :
  compile_timing_count field v z = Ok n → (n ≤ 1000)%N ∧ (z = false → n ≠ 0%N).
Proof.
  unfold compile_timing_count. intros H. bind_ok H. injection H as <-.
  apply orb_false_iff in E as [E1 E2]. apply N.ltb_ge in E1. split; [done|]. intros ->.
  simpl in E2. by apply N.eqb_neq.
Qed.

(** Whole seconds up to a day and counts up to 1000, nonzero where zero would
    make a loop spin or a call fail at once, and the two pairs ordered. *)
Record timing_ok (t : ComputeFirmwareTiming) : Prop := {
  tk_positive : Forall (seconds_ok false)
    [connect_timeout t; request_timeout t; upload_timeout t; reachability_timeout t;
     precondition_query_timeout t; background_copy_timeout t; background_copy_poll_interval t;
     write_protect_inventory_retry_interval t; bmc_recovery_interval t; power_on_interval t;
     power_on_resend_interval t; recovery_probe_timeout t];
  tk_delays : Forall (seconds_ok true)
    [power_off_delay t; ac_cycle_stabilization t; activation_command_retry_interval t;
     inventory_recovery_retry_interval t];
  tk_attempts : Forall (λ n, (1 ≤ n ≤ 1000)%N)
    [write_protect_inventory_attempts t; ac_cycle_attempts t; bmc_recovery_attempts t;
     power_on_attempts t];
  tk_retries : Forall (λ n, (n ≤ 1000)%N)
    [activation_command_retries t; inventory_recovery_retries t];
  tk_copy : (background_copy_poll_interval t ≤ background_copy_timeout t)%N;
  tk_resend : (power_on_interval t ≤ power_on_resend_interval t)%N;
}.

Lemma compile_timing_ok d t : compile_timing d = Ok t → timing_ok t.
Proof.
  unfold compile_timing. intros H. bind_ok H. injection H as <-.
  repeat match goal with
  | H : compile_timing_duration _ _ _ _ = Ok _ |- _ =>
      apply timing_duration_ok in H; [|vm_compute; discriminate]
  | H : compile_timing_count _ _ _ = Ok _ |- _ => apply timing_count_ok in H as [? ?]
  | H : (_ <? _)%N = false |- _ => apply N.ltb_ge in H
  end.
  split; simpl; rewrite ?Forall_cons, ?Forall_nil; split_and?; try done;
    match goal with H : false = false → ?n ≠ 0%N |- (1 ≤ ?n)%N => specialize (H eq_refl); lia end.
Qed.

(** ** Plans *)

Definition polling_ok (p : PollPolicy) : Prop :=
  (0 < poll_interval p ≤ task_timeout p)%N ∧ (transient_error_budget p ≤ task_timeout p)%N ∧
  (task_timeout p ≤ MAX_CONFIGURED_DURATION)%N.

Definition power_on_ok (clock : N → bool) (o : ComputePowerOnOptions) : Prop :=
  (0 < power_on_poll_interval o ≤ power_on_timeout o)%N ∧ (power_on_timeout o ≤ MAX_CONFIGURED_DURATION)%N ∧
  clock (power_on_timeout o) = true.

Definition verification_ok (v : VerificationPolicy) : Prop :=
  (0 < verification_attempts v)%N ∧
  (settle_delay v ≤ MAX_CONFIGURED_DURATION)%N ∧ (verification_retry_interval v ≤ MAX_CONFIGURED_DURATION)%N ∧
  ((1 < verification_attempts v)%N → (0 < verification_retry_interval v)%N).

Definition power_paths (p : ComputePowerPaths) : list (option RedfishPath) :=
  [system_state_path p; system_reset_path p; bmc_reset_path p; hmc_reset_path p;
   aux_power_cycle_path p; bmc_ready_path p].

Definition resource_id_ok (id : string) : Prop := id ≠ "" ∧ all_chars is_resource_id_char id = true.

(** Resource IDs that add no path segment, a bounded time for the device information,
    and whole-second timeouts of requests. *)
Record driver_ok (r : NodeRuntimeConfig) : Prop := {
  dk_ids : Forall resource_id_ok [rc_computer_system_id r; rc_bmc_manager_id r; rc_hmc_manager_id r];
  dk_device_info : (0 < rc_device_info_timeout r ≤ MAX_CONFIGURED_DURATION)%N;
  dk_redfish : Forall (seconds_ok false)
    [rc_redfish_connect_timeout r; rc_redfish_request_timeout r; rc_redfish_upload_timeout r];
  dk_timing : timing_ok (rc_firmware_timing r);
  dk_power_paths : ∀ p, Some p ∈ power_paths (rc_power_paths r) → path_safe p;
}.

Record plan_ok (clock : N → bool) (plan : HardwareUpdatePlan) : Prop := {
  pk_schema : schema_version plan = SUPPORTED_SCHEMA_VERSION;
  pk_id : profile_id plan ≠ "" ∧ all_chars is_identifier_char (profile_id plan) = true;
  pk_kind : kind (plan_node_type plan) = Compute;
  pk_driver : driver_ok (plan_runtime_config plan);
  pk_polling : polling_ok (polling plan);
  pk_power_on : ∀ o, power_on plan = Some o → power_on_ok clock o;
  pk_verification : verification_ok (verification plan);
  pk_nonempty : all_targets (stages plan) ≠ [];
  pk_targets : Forall target_ok (all_targets (stages plan));
  pk_ids : NoDup (plan_target_id <$> all_targets (stages plan));
  pk_keys : NoDup ((fun t => lower (component_key t)) <$> all_targets (stages plan));
  pk_activation : (∃ s, s ∈ stages plan ∧ activate_after s = true) → activation plan ≠ None;
}.

Lemma require_nonzero_ok field d : require_nonzero field d = Ok tt → (0 < d)%N.
Proof. unfold require_nonzero. intros H. bind_ok H. apply N.eqb_neq in E. lia. Qed.

Lemma compile_polling_ok d p : compile_polling d = Ok p → polling_ok p.
Proof.
  unfold compile_polling. intros H. bind_ok H. destruct a2, a3. injection H as <-. reflect_nums.
  apply require_nonzero_ok in E2, E3. apply parse_duration_max in E. by split_and!.
Qed.

Lemma compile_verification_ok d v : compile_verification d = Ok v → verification_ok v.
Proof.
  unfold compile_verification. intros H. bind_ok H. injection H as <-. apply N.eqb_neq in E1.
  apply parse_duration_max in E, E0. split_and!; simpl; [lia|done..|]. intros Hlt.
  destruct (N.ltb_spec 1 (vd_attempts d)); [|lia].
  destruct a1. by apply require_nonzero_ok in E2.
Qed.

Lemma compile_power_on_ok clock d o : compile_power_on clock d = Ok o → power_on_ok clock o.
Proof.
  unfold compile_power_on. intros H. bind_ok H. destruct (validate_power_on _ _) as [u|e] eqn:Ev; [|done].
  injection H as <-. unfold validate_power_on in Ev. simpl in Ev. reflect_bools.
  destruct (_ || _) eqn:Ez; [done|]. destruct (negb _) eqn:Ec; [done|]. destruct (_ <? _)%N eqn:El; [done|].
  apply orb_false_iff in Ez as [Ez1 Ez2]. apply N.eqb_neq in Ez1, Ez2. apply N.ltb_ge in El.
  apply negb_false_iff in Ec. apply parse_duration_max in E. split_and!; simpl; [lia|lia|done|done].
Qed.

Lemma resource_id_valid field v id : validate_redfish_resource_id field v = Ok id → resource_id_ok id.
Proof.
  unfold validate_redfish_resource_id. intros H. bind_ok H. injection H as <-. reflect_bools.
  split; [by apply String.eqb_neq|done].
Qed.

Lemma power_path_safe field v p : compile_power_path field v = Ok (Some p) → path_safe p.
Proof.
  unfold compile_power_path. destruct v as [v|]; [|done]. intros H. bind_ok H. injection H as <-.
  by eapply parse_path_safe.
Qed.

Lemma runtime_config_ok d r : compile_runtime_config d = Ok r → driver_ok r.
Proof.
  unfold compile_runtime_config. intros H. bind_ok H. injection H as <-. split; simpl.
  { rewrite !Forall_cons, Forall_nil. split_and!; try done; by eapply resource_id_valid. }
  { destruct a0. apply require_nonzero_ok in E0. by apply parse_duration_max in E. }
  { rewrite !Forall_cons, Forall_nil. split_and!; try done;
      (eapply timing_duration_ok; [|eassumption]); vm_compute; discriminate. }
  { by eapply compile_timing_ok. }
  unfold compile_power_paths in E7. bind_ok E7.
  injection E7 as <-. unfold power_paths. simpl. intros p Hp.
  repeat (apply elem_of_cons in Hp as [<-|Hp]; [by eapply power_path_safe|]).
  by apply not_elem_of_nil in Hp.
Qed.

Lemma collect_nil {E A B} (f : A → result E B) l : collect f l = Ok [] → l = [].
Proof. destruct l; [done|]. simpl. intros H. bind_ok H. discriminate. Qed.

Lemma existsb_false {A} (f : A → bool) l x : existsb f l = false → x ∈ l → f x = false.
Proof.
  intros E Hx. destruct (f x) eqn:Ex; [|done]. rewrite (proj2 (existsb_exists f l)) in E; [done|].
  exists x. by rewrite <- list_elem_of_In.
Qed.

Lemma compile_spec clock d sha plan :
  compile clock d sha = Ok plan →
  plan_ok clock plan ∧
  ∃ cts, collect compile_target (fw_targets (hd_firmware d)) = Ok cts ∧ staged cts (stages plan) ∧
    Forall (λ t, tg_stage t ≠ 0%N) (fw_targets (hd_firmware d)).
Proof.
  unfold compile. intros H. bind_ok H. injection H as <-. simpl.
  destruct (compile_targets_ok (fw_targets (hd_firmware d)) ∅ [] [] a5 staged_nil)
    as (cts & Hc & Hst & Hnd & Hz); [constructor|set_solver|done|].
  simpl in Hst, Hnd. split; [|by exists cts].
  assert (Forall (λ t, target_ok (ct_plan t)) cts) as Hok.
  { eapply collect_Forall; [|exact Hc]. intros x y Hy. by apply compile_target_ok in Hy as (_ & _ & ?). }
  split; simpl.
  - apply negb_false_iff in E. by apply N.eqb_eq.
  - by eapply identifier_ok.
  - apply negb_false_iff in E2. by apply bool_decide_eq_true in E2.
  - by eapply runtime_config_ok.
  - by eapply compile_polling_ok.
  - intros o ->. destruct (fw_power_on (hd_firmware d)); [|done]. bind_ok E5. injection E5 as ->.
    by eapply compile_power_on_ok.
  - by eapply compile_verification_ok.
  - intros Hnil. pose proof (sg_perm _ _ Hst) as Hpm. rewrite Hnil in Hpm.
    symmetry in Hpm. apply Permutation_nil_r, fmap_nil_inv in Hpm. subst. apply bool_decide_eq_false in E7. apply E7.
    by eapply collect_nil.
  - rewrite (sg_perm _ _ Hst). by apply Forall_fmap.
  - rewrite (sg_perm _ _ Hst), <- list_fmap_compose. exact Hnd.
  - destruct a6. by eapply component_keys_unique.
  - intros (s & Hs & Ha). apply andb_false_iff in E10 as [E10|E10]; [|by apply bool_decide_eq_false in E10].
    rewrite (existsb_false _ _ _ E10 Hs) in Ha. done.
Qed.

(** C37. A profile that compiles gives a well-formed plan: of the supported schema
    and for a compute node, with an ID and resource IDs of the allowed characters;
    the poll intervals of the update and of powering on are not zero and within
    their timeouts, the latter one that the clock can add; the timeouts of Redfish
    requests and all driver timings are whole seconds of at most a day, not zero
    where zero is not allowed, and the counts are bounded; verification has an
    attempt, and time between attempts; paths stay below [/redfish/v1]; there are
    targets, with unique IDs and with component keys unique up to case; and there is
    an activation strategy whenever a stage activates. *)
Theorem plan_well_formed clock d sha plan :
  compile clock d sha = Ok plan → plan_ok clock plan.
Proof. intros H. by apply (compile_spec _ _ _ _ H). Qed.

(** A compiled plan holds exactly the documented targets: the stages are in
    strictly increasing order, every target is compiled into the stage it names,
    in document order, no stage is empty or named zero, and a stage activates as
    each of its targets says. *)
Theorem plan_holds_targets clock d sha plan :
  compile clock d sha = Ok plan →
  ∃ cts, collect compile_target (fw_targets (hd_firmware d)) = Ok cts ∧
    StronglySorted N.lt (stage_number <$> stages plan) ∧
    (∀ t, t ∈ cts → ∃ s, s ∈ stages plan ∧ stage_number s = ct_stage t ∧
       activate_after s = ct_activate_after t) ∧
    (∀ s, s ∈ stages plan → stage_number s ≠ 0%N ∧ stage_targets s ≠ [] ∧
       stage_targets s = ct_plan <$> List.filter (fun t => (ct_stage t =? stage_number s)%N) cts).
Proof.
  intros (_ & cts & Hc & Hst & Hz)%compile_spec. exists cts. split_and!; [done|apply Hst|..].
  - intros t Ht. assert (ct_stage t ∈ numbers (stages plan)) as (s & Es & Hs)%list_elem_of_fmap
      by (apply Hst; eauto).
    exists s. split_and!; [done..|]. by apply (sg_flags _ _ Hst).
  - intros s Hs. destruct (staged_stage _ _ _ Hst Hs) as (E & t & Ht & En). split_and!; [| |done].
    + assert (Forall (λ t, ct_stage t ≠ 0%N) cts) as Hnz.
      { clear -Hc Hz. revert cts Hc. induction Hz as [|x l Hx Hl IH]; simpl; [by intros ? [= <-]|].
        intros cts H. bind_ok H. injection H as <-. constructor; [|by apply IH].
        apply compile_target_ok in E as (-> & _). done. }
      rewrite Forall_forall in Hnz. rewrite <- En. by apply Hnz.
    + rewrite E. intros Hnil%fmap_nil_inv.
      assert (t ∈ List.filter (fun t => (ct_stage t =? stage_number s)%N) cts) as Hin.
      { apply list_elem_of_In, filter_In. split; [by apply list_elem_of_In|]. by apply N.eqb_eq. }
      rewrite Hnil in Hin. by apply not_elem_of_nil in Hin.
Qed.

(** ** Catalog *)
Section catalog.
Context (clock : N → bool) (yaml : string → result string HardwareProfileDocument)
  (sha : string → string).

Record catalog_ok (c : HardwareProfileCatalog) : Prop := {
  ck_id : ∀ id p, by_profile_id c !! id = Some p →
    profile_id p = id ∧ by_node_type c !! plan_node_type p = Some p;
  ck_type : ∀ t p, by_node_type c !! t = Some p →
    plan_node_type p = t ∧ by_profile_id c !! profile_id p = Some p ∧ plan_ok clock p;
}.

Lemma from_yaml_ok source p : from_yaml_str clock yaml sha source = Ok p → plan_ok clock p.
Proof.
  unfold from_yaml_str. destruct (yaml source); [|done]. intros H. by apply (compile_spec _ _ _ _ H).
Qed.

Lemma insert_plan_ok c p c' :
  catalog_ok c → plan_ok clock p → insert_plan c p = Ok c' →
  catalog_ok c' ∧ by_node_type c' !! plan_node_type p = Some p ∧
  ∀ t q, by_node_type c !! t = Some q → by_node_type c' !! t = Some q.
Proof.
  intros [Hi Ht] Hp. unfold insert_plan. destruct (by_profile_id c !! profile_id p) eqn:Ei; [done|].
  destruct (by_node_type c !! plan_node_type p) eqn:Et; [done|]. intros [= <-]. split_and!.
  - split; simpl.
    + intros id q. rewrite lookup_insert. case_decide as E.
      * intros [= <-]. split; [done|]. by rewrite lookup_insert_eq.
      * intros [Hq Hq']%Hi. split; [done|]. rewrite lookup_insert_ne; [done|]. intros E'. congruence.
    + intros t q. rewrite lookup_insert. case_decide as E.
      * intros [= <-]. split_and!; [done| |done]. by rewrite lookup_insert_eq.
      * intros (Hq & Hq' & Hok)%Ht. split_and!; [done| |done]. rewrite lookup_insert_ne; [done|].
        intros E'. congruence.
  - simpl. by rewrite lookup_insert_eq.
  - intros t q Hq. simpl. rewrite lookup_insert_ne; [done|]. congruence.
Qed.

Lemma insert_all_ok sources c c' :
  catalog_ok c → insert_all clock yaml sha c sources = Ok c' →
  catalog_ok c' ∧ (∀ t q, by_node_type c !! t = Some q → by_node_type c' !! t = Some q) ∧
  ∀ s, s ∈ sources → ∃ p, from_yaml_str clock yaml sha s = Ok p ∧
    by_node_type c' !! plan_node_type p = Some p.
Proof.
  revert c. induction sources as [|s sources IH]; intros c Hc; cbn [insert_all].
  - intros [= <-]. split_and!; [done..|]. by intros s ?%not_elem_of_nil.
  - intros H. bind_ok H. destruct (insert_plan_ok _ _ _ Hc (from_yaml_ok _ _ E) E0) as (Hc' & Hp & Hk).
    destruct (IH _ Hc' H) as (Hok & Hkeep & Hall). split_and!; [done|eauto|].
    intros s' [->|Hs']%elem_of_cons; [eauto|by apply Hall].
Qed.

Lemma empty_catalog_ok : catalog_ok empty_catalog.
Proof. split; simpl; intros *; by rewrite lookup_empty. Qed.

(** A catalog that loads is consistent: its two indexes hold the same plans,
    each under its own profile ID and node type, every source's plan is in it and
    none was replaced; so a request for a node type gets a well-formed plan of
    that type, and only a plan that is enabled or, for Dell GB200, embedded. *)
Theorem catalog_consistent sources c embedded_sources embedded :
  built_in clock yaml sha sources = Ok c →
  built_in clock yaml sha embedded_sources = Ok embedded →
  (∀ id p, by_profile_id c !! id = Some p ↔
     profile_id p = id ∧ by_node_type c !! plan_node_type p = Some p) ∧
  (∀ t p, by_node_type c !! t = Some p → plan_node_type p = t) ∧
  (∀ s, s ∈ sources → ∃ p, from_yaml_str clock yaml sha s = Ok p ∧
     by_node_type c !! plan_node_type p = Some p) ∧
  (∀ t p, request_profile embedded c t = Some p → plan_node_type p = t ∧ plan_ok clock p ∧
     (request_matching_enabled p = true ∨ t = ComputeGb200Dell)).
Proof.
  intros (Hc & _ & Hall)%insert_all_ok (He & _ & _)%insert_all_ok; [|apply empty_catalog_ok..].
  split_and!; [| |done|].
  - intros id p. split; [apply Hc|]. intros [<- Hp]. by apply Hc in Hp as (_ & ? & _).
  - intros t p Hp. by apply Hc in Hp as [? _].
  - intros t p. unfold request_profile. destruct (by_node_type c !! t) as [q|] eqn:Eq; simpl.
    + pose proof (ck_type _ Hc _ _ Eq) as (? & _ & ?). destruct (request_matching_enabled q) eqn:Een.
      { intros [= <-]. auto. }
      unfold requires_embedded_profile. case_bool_decide as Et; [|done].
      intros Hp. apply He in Hp as (? & _ & ?). auto.
    + unfold requires_embedded_profile. case_bool_decide as Et; [|done].
      intros Hp. apply He in Hp as (? & _ & ?). auto.
Qed.
End catalog.

(** ** Resolution *)

Lemma select_allowed p c d :
  select_destination p c = Ok d → allowed_destination (request_target_selection p) d = true.
Proof.
  unfold select_destination. destruct (request_target_selection p) as [paths|paths|]; simpl.
  - match goal with |- context [find_first ?f paths] => destruct (find_first f paths) as [path|] eqn:E end.
    + intros [= <-]. apply find_first_Some in E as [E _]. by apply bool_decide_eq_true.
    + destruct paths as [|path [|]]; [done| |done]. intros [= <-]. apply bool_decide_eq_true. left.
  - intros [= <-]. by apply bool_decide_eq_true.
  - by intros [= <-].
Qed.

Definition bound_to (p : FirmwareTargetPlan) (r : FirmwareTargetResolution) : Prop :=
  res_profile_target_id r = plan_target_id p ∧
  allowed_destination (request_target_selection p) (res_destination r) = true ∧
  res_update_parameters r = update_parameters p ∧ res_oem_parameters r = oem_parameters p.

Lemma resolve_bound {P} p (t : FirmwareTarget P) r :
  resolution t = Some r → bound_to p r → resolve_target p t = Ok t.
Proof.
  intros Hr (H1 & H2 & H3 & H4). unfold resolve_target.
  rewrite Hr, H1, H2, String.eqb_refl, !bool_decide_eq_true_2 by done. done.
Qed.

(** A resolved firmware target is bound to the plan target that resolved it:
    the destination is one the profile declares, the configured parameters are
    attached, file and version are kept, resolving again changes nothing, and no
    plan target of another ID accepts it. *)
Theorem target_resolution_stable {P} p (t t' : FirmwareTarget P) :
  resolve_target p t = Ok t' →
  (∃ r, resolution t' = Some r ∧ bound_to p r) ∧
  firmware_file t' = firmware_file t ∧ expected_version t' = expected_version t ∧
  linkx_policy t' = linkx_policy t ∧
  resolve_target p t' = Ok t' ∧
  (∀ q, plan_target_id q ≠ plan_target_id p → is_ok (resolve_target q t') = false).
Proof.
  intros H. assert (∃ r, resolution t' = Some r ∧ bound_to p r) as (r & Hr & Hb).
  { revert H. unfold resolve_target. destruct (resolution t) as [r|] eqn:E; intros H; bind_ok H;
      injection H as <-.
    - exists r. split; [done|]. reflect_bools. split_and!; [by apply String.eqb_eq|done..].
    - eexists. split; [done|]. split_and!; [done| |done|done]. by eapply select_allowed. }
  split_and!; [eauto|..|by eapply resolve_bound|].
  1-3: revert H; unfold resolve_target; destruct (resolution t); intros H; bind_ok H; by injection H as <-.
  intros q Hq. unfold resolve_target. rewrite Hr. destruct Hb as [-> _].
  destruct (String.eqb_spec (plan_target_id p) (plan_target_id q)); [congruence|done].
Qed.

(** ** Examples *)
Section witnesses.

Definition no_timing : ComputeTimingDocument :=
  mkTimingDocument None None None None None None None None None None None None None None None None
    None None None None None None.

Definition sample_target (id key path : string) (stage : N) (activate : bool) : TargetDocument :=
  mkTargetDocument id key ["bundle"] (mkFilenameDocument (Some ".fwpkg") None true) [path] false None
    None true stage activate.

(** Two stages, given out of order; the first one activates. *)
Definition sample_document (id node_type : string) : HardwareProfileDocument :=
  mkProfileDocument 1 id node_type true
    (mkDriverDocument DocComputeGb200
       (mkRedfishDocument "System_0" "BMC_0" "HGX_BMC_0"
          (mkPowerPathsDocument (Some "/redfish/v1/Systems/System_0") None None None None None)
          "300s" None None None)
       no_timing)
    (mkFirmwareDocument (mkPollingDocument "1h" "10s" "5m") (Some (mkPowerOnDocument "60s" "5s"))
       (mkVerificationDocument true "30s" 3 "10s")
       [sample_target "hmc" "HMC" "/redfish/v1/Chassis/HGX_Chassis_0" 2 false;
        sample_target "bmc" "BMC" "/redfish/v1/UpdateService/FirmwareInventory/BMC" 1 true;
        sample_target "cpld" "CPLD" "/redfish/v1/UpdateService/FirmwareInventory/CPLD" 2 false]
       (Some FullComputePowerCycle)).

Definition any_clock (_ : N) : bool := true.

Lemma plan_well_formed_witness :
  match compile any_clock (sample_document "lab" "compute_gb200_dell") "sha" with
  | Ok plan => plan_ok any_clock plan
  | Err _ => False
  end.
Proof.
  assert (is_ok (compile any_clock (sample_document "lab" "compute_gb200_dell") "sha") = true) as Hok
    by by vm_compute.
  destruct (compile any_clock (sample_document "lab" "compute_gb200_dell") "sha") as [plan|] eqn:E;
    [|discriminate Hok].
  exact (plan_well_formed any_clock _ "sha" plan E).
Defined.

Lemma plan_holds_targets_witness :
  match compile any_clock (sample_document "lab" "compute_gb200_dell") "sha" with
  | Ok plan => StronglySorted N.lt (stage_number <$> stages plan) ∧
      (fun s => plan_target_id <$> stage_targets s) <$> stages plan = [["bmc"]; ["hmc"; "cpld"]]
  | Err _ => False
  end.
Proof.
  assert (match compile any_clock (sample_document "lab" "compute_gb200_dell") "sha" with
    | Ok plan => bool_decide ((fun s => plan_target_id <$> stage_targets s) <$> stages plan =
                   [["bmc"]; ["hmc"; "cpld"]])
    | Err _ => false end = true) as Hok by by vm_compute.
  destruct (compile any_clock (sample_document "lab" "compute_gb200_dell") "sha") as [plan|] eqn:E;
    [|discriminate Hok].
  destruct (plan_holds_targets any_clock _ "sha" plan E) as (cts & _ & Hs & _).
  split; [exact Hs|by apply bool_decide_eq_true in Hok].
Defined.

(** A source names its profile; its node type is Dell for one and Wiwynn for others. *)
Definition sample_yaml (source : string) : result string HardwareProfileDocument :=
  Ok (sample_document source
        (if String.eqb source "dell" then "compute_gb200_dell" else "compute_gb200_wiwynn")).

Definition sample_built_in (sources : list string) :=
  built_in any_clock sample_yaml (fun s => s) sources.

Lemma catalog_consistent_witness :
  match sample_built_in ["wiwynn"], sample_built_in ["dell"] with
  | Ok c, Ok embedded =>
      ∀ t p, request_profile embedded c t = Some p → plan_node_type p = t ∧ plan_ok any_clock p ∧
        (request_matching_enabled p = true ∨ t = ComputeGb200Dell)
  | _, _ => False
  end.
Proof.
  assert (is_ok (sample_built_in ["wiwynn"]) && is_ok (sample_built_in ["dell"]) = true) as Hok
    by by vm_compute.
  destruct (sample_built_in ["wiwynn"]) as [c|] eqn:E1; [|discriminate Hok].
  destruct (sample_built_in ["dell"]) as [embedded|] eqn:E2; [|discriminate Hok].
  destruct (catalog_consistent any_clock sample_yaml (fun s => s) ["wiwynn"] c ["dell"] embedded E1 E2)
    as (_ & _ & _ & H). exact H.
Defined.

Definition sample_plan_target : FirmwareTargetPlan :=
  mkTargetPlan "bmc" "BMC" ["bundle"] (mkMatcher None None false) (Explicit ["/redfish/v1/A"; "/redfish/v1/B"])
    None None true.

Definition sample_firmware_target : FirmwareTarget unit :=
  mkFirmwareTarget unit "/redfish/v1/b" "bmc.fwpkg" None None None.

Lemma target_resolution_stable_witness :
  ∃ t', resolve_target sample_plan_target sample_firmware_target = Ok t' ∧
    resolve_target sample_plan_target t' = Ok t'.
Proof.
  eexists. split; [reflexivity|].
  by apply (target_resolution_stable sample_plan_target sample_firmware_target).
Defined.
End witnesses.
