(* ===== verification/FabricLayout.v ===== *)
(** * Fabric layout rules

    [config/fabric_layout.rs] with [calculation.rs] and [controller.rs]: the
    deployment's rules for the size, grouping, links and controller settings of
    a fabric, their validation, and the arithmetic that expands them against
    discovered positions.  The validators of names and values come from
    [libnmxc/managed_config.rs] and [utilities/filename.rs].

    A [BTreeSet] or [BTreeMap] is a [gset] or [gmap] whose iteration is sorted.
    A [u32] is an [N] and an [i64] a [Z]; checked operations check their range.
    The messages of serde errors are kept, their type is not. *)

From S2P Require Import Prelude RustStd RustStr NodeTypes.
From Stdlib Require Import Ascii.
Import NodeTypes.
Local Open Scope string_scope.
Local Open Scope list_scope.

Module FabricLayout.
(** ** Names and values of controller settings *)

Inductive BasenameError := EmptyName | UnsupportedCharacters | Hidden.

Definition validate_non_hidden_basename (name : string) : result BasenameError unit :=
  if String.eqb name "" then Err EmptyName
  else if negb (all_chars (fun c => is_ascii_alphanumeric c || contains (to_chars "_.-") c) name)
  then Err UnsupportedCharacters
  else if starts_with (to_chars name) (to_chars ".") then Err Hidden
  else Ok tt.

Definition validate_static_config_name (file key : string) : result string unit :=
  if negb (is_ok (validate_non_hidden_basename file))
  then Err "config_file_name: managed static configuration requires a file basename"
  else if String.eqb key ""
       || negb (all_chars (fun c => is_ascii_alphanumeric c || Ascii.eqb c "_") key)
       || match to_chars key with c :: _ => is_ascii_digit c | [] => false end
  then Err "key: managed static configuration requires an identifier key"
  else Ok tt.

(** [chars().any(char::is_control)]: the C0 controls, DEL, and the C1 controls
    U+0080 to U+009F, which are two bytes in UTF-8. *)
Fixpoint has_control (l : chars) : bool :=
  match l with
  | [] => false
  | a :: l' =>
      (N_of_ascii a <? 32)%N || (N_of_ascii a =? 127)%N
      || match l' with
         | b :: _ => (N_of_ascii a =? 194)%N && between 128 159 (N_of_ascii b)
         | [] => false
         end
      || has_control l'
  end.

(** The characters a literal value may not contain. *)
Definition special_chars : chars := [backslash; "'"%char; quote; "#"%char; ";"%char].

Definition validate_static_config_value (value : string) : result string unit :=
  if String.eqb value "" || negb (String.eqb (trim value) value)
     || has_control (to_chars value)
     || existsb (contains special_chars) (to_chars value)
  then Err ("managed static configuration values must be nonempty unquoted literal lines " +++
            "without surrounding whitespace, escaping, comments, or control characters")
  else Ok tt.

Definition NMX_C_FM_CONFIG_FILE : string := "fm_config".
Definition NMX_C_TOPOLOGY_KEY : string := "MNNVL_TOPOLOGY".

Definition validate_static_config_key (file key : string) : result string unit :=
  let? _ := validate_static_config_name file key in
  if eq_ignore_ascii_case file NMX_C_FM_CONFIG_FILE && eq_ignore_ascii_case key NMX_C_TOPOLOGY_KEY
  then Err "key: managed static configuration topology must use the dedicated topology field"
  else Ok tt.

(** ** Positions and states *)

Inductive FabricLinkState := Up | Down.

#[global] Instance FabricLinkState_dec : EqDecision FabricLinkState.
Proof. solve_decision. Defined.

Record FabricPosition := mkPosition { tray_index : N; slot_number : N }.

#[global] Instance FabricPosition_dec : EqDecision FabricPosition.
Proof. solve_decision. Defined.

#[global] Instance FabricPosition_countable : Countable FabricPosition.
Proof.
  apply (inj_countable' (fun p => (tray_index p, slot_number p)) (fun '(t, s) => mkPosition t s)).
  by intros [].
Defined.

(** The derived [Ord]: by tray, then by slot. *)
Definition pos_leb (a b : FabricPosition) : bool :=
  (tray_index a <? tray_index b)%N
  || (tray_index a =? tray_index b)%N && (slot_number a <=? slot_number b)%N.
Definition pos_le (a b : FabricPosition) : Prop := pos_leb a b = true.

#[global] Instance pos_le_dec : RelDecision pos_le.
Proof. intros a b. unfold pos_le. apply _. Defined.

Abbreviation positions := (gset FabricPosition) (only parsing).
Abbreviation link_states := (gmap string FabricLinkState) (only parsing).

(** ** Coordinate arithmetic ([calculation.rs]) *)

Definition checked_i64 (z : Z) : option Z :=
  if ((- 2 ^ 63 <=? z) && (z <? 2 ^ 63))%Z then Some z else None.

Inductive Coordinate := TrayIndex | SlotNumber.

Record IndexTerm := mkTerm {
  term_node : NodeKind;
  term_coordinate : Coordinate;
  divisor : N;
  modulus : option N;
  remap : option (gmap string N);
  multiplier : Z;
}.

(** [text.parse::<u32>()] succeeds with the number this text prints. *)
Definition canonical_u32 (text : string) : option N :=
  match parse_uint U32_MAX (to_chars text) with
  | Some n => if String.eqb (pretty n) text then Some n else None
  | None => None
  end.

Definition validate_term (t : IndexTerm) : result string unit :=
  if bool_decide (term_node t = Powershelf) then Err "node: must be compute or switch"
  else if (divisor t =? 0)%N then Err "divisor: must be positive"
  else if bool_decide (modulus t = Some 0%N) then Err "modulus: must be positive"
  else if match remap t with
          | Some m => bool_decide (m = ∅)
                      || existsb (fun k => negb (bool_decide (is_Some (canonical_u32 k)))) (entries m).*1
          | None => false
          end
  then Err "remap: must be nonempty with canonical decimal u32 keys"
  else Ok tt.

Definition evaluate (t : IndexTerm) (compute switch : FabricPosition) : result string Z :=
  let? position :=
    match term_node t with
    | Compute => Ok compute
    | Switch => Ok switch
    | Powershelf => Err "node: must be compute or switch"
    end in
  let coordinate :=
    match term_coordinate t with
    | TrayIndex => tray_index position
    | SlotNumber => slot_number position
    end in
  let? quotient :=
    if (divisor t =? 0)%N then Err "divisor: must be positive"
    else Ok (coordinate / divisor t)%N in
  let? transformed :=
    match modulus t with
    | Some m => if (m =? 0)%N then Err "modulus: must be positive" else Ok (quotient mod m)%N
    | None => Ok quotient
    end in
  let? mapped :=
    match remap t with
    | Some m => ok_or (m !! pretty transformed) "remap: does not cover a supplied coordinate"
    | None => Ok transformed
    end in
  ok_or (checked_i64 (Z.of_N mapped * multiplier t)) "multiplier: arithmetic overflow".

(** *** Groups *)

Record DiscoveredGroup := mkGroup { group_computes : positions; group_switches : positions }.

Record FabricGrouping := mkGrouping { grouping_compute : IndexTerm; grouping_switch : IndexTerm }.

Definition validate_grouping (g : FabricGrouping) : result string unit :=
  let? _ := validate_term (grouping_compute g) in
  let? _ := validate_term (grouping_switch g) in
  if negb (bool_decide (term_node (grouping_compute g) = Compute))
     || negb (bool_decide (term_node (grouping_switch g) = Switch))
  then Err "grouping transforms must use coordinates of their declared node role"
  else Ok tt.

(** [groups.entry(group).or_default().insert(position)]. *)
Definition add_to_group (t : IndexTerm) (groups : gmap Z positions) (position : FabricPosition)
    : result string (gmap Z positions) :=
  let? group := evaluate t position position in
  Ok (<[group := default ∅ (groups !! group) ∪ {[position]}]> groups).

Definition zkey_le {A} (a b : Z * A) : Prop := (a.1 <= b.1)%Z.

#[global] Instance zkey_le_dec {A} : RelDecision (@zkey_le A).
Proof. intros a b. unfold zkey_le. apply _. Defined.

(** The [filter_map] over the switch groups, in the order of their keys. *)
Fixpoint join_groups (switch_groups : list (Z * positions)) (compute_groups : gmap Z positions)
    : list DiscoveredGroup :=
  match switch_groups with
  | [] => []
  | (group, switches) :: rest =>
      match compute_groups !! group with
      | Some computes => mkGroup computes switches :: join_groups rest (delete group compute_groups)
      | None => join_groups rest compute_groups
      end
  end.

Definition resolve_grouping (g : FabricGrouping) (computes switches : positions)
    : result string (list DiscoveredGroup) :=
  let? _ := validate_grouping g in
  let? compute_groups := try_fold (add_to_group (grouping_compute g)) ∅ (ordered pos_le computes) in
  let? switch_groups := try_fold (add_to_group (grouping_switch g)) ∅ (ordered pos_le switches) in
  Ok (join_groups (merge_sort zkey_le (map_to_list switch_groups)) compute_groups).

(** *** Links *)

Record LinkRule := mkLinkRule {
  rule_prefix : string;
  rule_base : Z;
  rule_terms : list IndexTerm;
  rule_offsets : list Z;
  rule_width : N;
  rule_state : FabricLinkState;
}.

(** The states so far and the interfaces a rule has assigned. *)
Definition assignment_state : Type := link_states * gset string.

(** The body of the loop over the lanes of a block. *)
Definition apply_lane (r : LinkRule) (index : nat) (start : Z) (st : assignment_state) (lane : N)
    : result string assignment_state :=
  let '(states, assigned) := st in
  let at_offset := "offsets[" +++ show_nat index +++ "]: " in
  let? number := ok_or (checked_i64 (start + Z.of_N lane))
                   (at_offset +++ "arithmetic overflow within block") in
  if ((number <? 0) || (Z.of_N U32_MAX <? number))%Z
  then Err (at_offset +++ "interface number is out of range")
  else if (number =? 0)%Z then Err (at_offset +++ "interface number must be positive")
  else
    let id := rule_prefix r +++ pretty (Z.to_N number) in
    if decide (id ∈ assigned) then Err (at_offset +++ "assigns an interface more than once")
    else match states !! id with
         | None => Err (at_offset +++ "targets an uncontrolled interface")
         | Some _ => Ok (<[id := rule_state r]> states, {[id]} ∪ assigned)
         end.

Definition apply_block (r : LinkRule) (first : Z) (st : assignment_state) (o : nat * Z)
    : result string assignment_state :=
  let '(index, offset) := o in
  let? start := ok_or (checked_i64 (first + offset))
                  ("offsets[" +++ show_nat index +++ "]: arithmetic overflow") in
  try_fold (apply_lane r index start) st (urange 0 (rule_width r)).

(** One summand of the first interface number. *)
Definition add_term (compute switch : FabricPosition) (sum : Z) (t : nat * IndexTerm) : result string Z :=
  let '(index, term) := t in
  let? value := map_err (fun e => "terms[" +++ show_nat index +++ "]." +++ e)
                  (evaluate term compute switch) in
  ok_or (checked_i64 (sum + value))
    ("terms[" +++ show_nat index +++ "]: arithmetic overflow while adding to base").

Definition apply_rule (r : LinkRule) (compute switch : FabricPosition) (st : assignment_state)
    : result string assignment_state :=
  let? first := try_fold (add_term compute switch) (rule_base r) (enumerate (rule_terms r)) in
  try_fold (apply_block r first) st (enumerate (rule_offsets r)).

Record FabricLinkCalculation := mkCalculation {
  default_state : FabricLinkState;
  link_rules : list LinkRule;
}.

Definition validate_rule (r : nat * LinkRule) : result string unit :=
  let '(index, rule) := r in
  let at_rule := "rules[" +++ show_nat index +++ "]." in
  if String.eqb (rule_prefix rule) "" || negb (all_chars is_ascii_lowercase (rule_prefix rule))
  then Err (at_rule +++ "prefix: must contain lowercase ASCII letters")
  else if bool_decide (rule_offsets rule = []) then Err (at_rule +++ "offsets: must be nonempty")
  else if (rule_width rule =? 0)%N then Err (at_rule +++ "width: must be positive")
  else for_each (fun '(term_index, term) =>
         map_err (fun e => at_rule +++ "terms[" +++ show_nat term_index +++ "]." +++ e)
           (validate_term term)) (enumerate (rule_terms rule)).

Definition validate_calculation (c : FabricLinkCalculation) : result string unit :=
  if bool_decide (link_rules c = []) then Err "rules: must be nonempty"
  else for_each validate_rule (enumerate (link_rules c)).

Definition expand_switch (c : FabricLinkCalculation) (computes : positions) (switch : FabricPosition)
    (interfaces : gset string) : result string link_states :=
  let states := gset_to_gmap (default_state c) interfaces in
  let? st :=
    try_fold (fun st compute =>
      try_fold (fun st '(index, rule) =>
        map_err (fun e => "rules[" +++ show_nat index +++ "]." +++ e)
          (apply_rule rule compute switch st)) st (enumerate (link_rules c)))
      (states, ∅) (ordered pos_le computes) in
  Ok st.1.

Definition expand (c : FabricLinkCalculation) (computes switches : positions)
    (interfaces : gset string) : result string (gmap FabricPosition link_states) :=
  let? _ := validate_calculation c in
  if bool_decide (computes = ∅) || bool_decide (switches = ∅) || bool_decide (interfaces = ∅)
  then Err "link calculation inventory and interfaces must be nonempty"
  else
    let? pairs := collect (fun position =>
                    let? states := expand_switch c computes position interfaces in
                    Ok (position, states)) (ordered pos_le switches) in
    Ok (from_pairs pairs).

(** ** Controller rules ([controller.rs]) *)

Inductive FabricStaticConfigAction := Set_ (value : string) | Remove.

#[global] Instance FabricStaticConfigAction_dec : EqDecision FabricStaticConfigAction.
Proof. solve_decision. Defined.

Record FabricStaticConfigTarget := mkTarget {
  target_file : string;
  target_key : string;
  target_action : FabricStaticConfigAction;
}.

Record FabricControllerRule := mkControllerRule {
  topology_type : string;
  static_configs : list FabricStaticConfigTarget;
}.

Definition owned_key (t : FabricStaticConfigTarget) : string * string := (target_file t, target_key t).

(** ** Profiles *)

Record FabricRule := mkFabricRule {
  fr_compute_tray_count : N;
  fr_switch_tray_count : N;
  fr_grouping : option FabricGrouping;
  fr_controller_rules : list FabricControllerRule;
}.

Record FabricLayoutProfile := mkProfile {
  switch_node_types : gset string;
  compute_node_types : gset string;
  physical_topology : string;
  compute_tray_count : N;
  switch_tray_count : N;
  full_link_states : link_states;
  fabric_rules : list FabricRule;
  link_calculation : FabricLinkCalculation;
}.

Definition rule_size (r : FabricRule) : N * N := (fr_compute_tray_count r, fr_switch_tray_count r).
Definition full_size (p : FabricLayoutProfile) : N * N := (compute_tray_count p, switch_tray_count p).

(** One rule with the indexes of its fabric rule and of itself. *)
Definition located_rule : Type := nat * nat * FabricRule * FabricControllerRule.

Definition located_rules (p : FabricLayoutProfile) : list located_rule :=
  enumerate (fabric_rules p) ≫= fun '(fabric_index, fabric) =>
    (fun '(rule_index, rule) => (fabric_index, rule_index, fabric, rule))
      <$> enumerate (fr_controller_rules fabric).

(** The loop over the targets of a rule, with the keys seen. *)
Definition check_target (location : string) (keys : gset (string * string))
    (t : nat * FabricStaticConfigTarget) : result string (gset (string * string)) :=
  let '(index, target) := t in
  let target_location := location +++ ".static_configs[" +++ show_nat index +++ "]" in
  let? _ := map_err (fun e => target_location +++ "." +++ e)
              (validate_static_config_key (target_file target) (target_key target)) in
  let? _ := match target_action target with
            | Set_ value => map_err (fun e => target_location +++ ".action.value: " +++ e)
                              (validate_static_config_value value)
            | Remove => Ok tt
            end in
  if decide (owned_key target ∈ keys)
  then Err (target_location +++ ".key: controller targets must be unique within each file")
  else Ok ({[owned_key target]} ∪ keys).

(** What the loop over the rules collects. *)
Record rules_seen := mkSeen {
  selectors : gset (string * (N * N));
  topologies : gset string;
  restoration_topologies : gset string;
}.

Definition check_controller_rule (full : N * N) (managed_keys : gset (string * string))
    (s : rules_seen) (r : located_rule) : result string rules_seen :=
  let '(fabric_index, rule_index, fabric, rule) := r in
  let location := "fabric_rules[" +++ show_nat fabric_index +++ "].controller_rules[" +++
                  show_nat rule_index +++ "]" in
  let? _ := map_err (fun e => location +++ ".topology_type: " +++ e)
              (validate_static_config_value (topology_type rule)) in
  let size := rule_size fabric in
  if decide ((topology_type rule, size) ∈ selectors s)
  then Err (location +++
            ".topology_type: controller rule topology and size selectors must be unique")
  else
    let? keys := try_fold (check_target location) ∅ (enumerate (static_configs rule)) in
    if negb (bool_decide (keys = managed_keys))
    then Err (location +++ ".static_configs: controller targets must cover exactly " +++
              "the managed static configuration keys")
    else Ok (mkSeen ({[(topology_type rule, size)]} ∪ selectors s)
               ({[topology_type rule]} ∪ topologies s)
               (if bool_decide (size = full) then {[topology_type rule]} ∪ restoration_topologies s
                else restoration_topologies s)).

Definition validate_controller_rules (p : FabricLayoutProfile) : result string unit :=
  let rules := located_rules p in
  if bool_decide (rules = []) then Ok tt
  else match list_find (fun f => fr_controller_rules f = []) (fabric_rules p) with
  | Some (index, _) =>
      Err ("fabric_rules[" +++ show_nat index +++ "].controller_rules: at least one rule is " +++
           "required when the profile declares controller settings")
  | None =>
      if (256 <? length rules)%nat
      then Err "fabric_rules: total controller rule count exceeds 256"
      else
        let managed_keys : gset (string * string) :=
          list_to_set (rules ≫= fun '(_, _, _, rule) => owned_key <$> static_configs rule) in
        if (1024 <? size managed_keys)%nat
        then Err "fabric_rules: managed static configuration key count exceeds 1024"
        else
          let? s := try_fold (check_controller_rule (full_size p) managed_keys)
                      (mkSeen ∅ ∅ ∅) rules in
          if negb (bool_decide (topologies s = restoration_topologies s))
          then Err ("fabric_rules: every controller topology requires a full-capacity " +++
                    "restoration rule")
          else Ok tt
  end.

Definition check_node_types (p : FabricLayoutProfile) (entry : gset string * NodeKind)
    : result string unit :=
  let '(types, role) := entry in
  if bool_decide (types = ∅)
     || existsb (fun name =>
          match from_stable_name name with
          | Some t => negb (bool_decide (kind t = role))
          | None => true
          end) (elements types)
  then Err "profile node selectors must name canonical node types of the declared role"
  else Ok tt.

(** [strip_prefix("acp")], else [strip_prefix("fnm")]: the prefix found and the rest. *)
Definition strip_interface_prefix (id : string) : option (string * chars) :=
  let l := to_chars id in
  if starts_with l (to_chars "acp") then Some ("acp", drop 3 l)
  else if starts_with l (to_chars "fnm") then Some ("fnm", drop 3 l)
  else None.

(** A canonical positive [u32]. *)
Definition parse_index (text : chars) : option N :=
  match canonical_u32 (of_chars text) with
  | Some n => if (0 <? n)%N then Some n else None
  | None => None
  end.

Definition is_expanded_name (id : string) : bool :=
  match strip_interface_prefix id with
  | Some (_, suffix) => bool_decide (is_Some (parse_index suffix))
  | None => false
  end.

(** The body of the loop over the fabric rules, with the sizes seen. *)
Definition check_fabric_rule (p : FabricLayoutProfile) (sizes : gset (N * N)) (r : FabricRule)
    : result string (gset (N * N)) :=
  if (fr_compute_tray_count r =? 0)%N || (fr_switch_tray_count r =? 0)%N
     || (compute_tray_count p <? fr_compute_tray_count r)%N
     || (switch_tray_count p <? fr_switch_tray_count r)%N
     || bool_decide (rule_size r ∈ sizes)
  then Err "fabric sizes must be unique, positive, and fit within the physical inventory"
  else
    let? _ := match fr_grouping r, bool_decide (rule_size r = full_size p) with
              | Some grouping, false => validate_grouping grouping
              | None, true => Ok tt
              | _, _ => Err "grouping is required only for smaller fabric sizes"
              end in
    Ok ({[rule_size r]} ∪ sizes).

Definition validate_profile (p : FabricLayoutProfile) : result string unit :=
  if is_blank (physical_topology p)
     || (compute_tray_count p =? 0)%N || (switch_tray_count p =? 0)%N
     || (256 <? compute_tray_count p + switch_tray_count p)%N
     || bool_decide (fabric_rules p = []) || (256 <? length (fabric_rules p))%nat
     || bool_decide (full_link_states p = ∅) || (1024 <? size (full_link_states p))%nat
  then Err ("profile identity, inventory, fabric rules, and interfaces must be bounded " +++
            "and nonempty")
  else
    let? _ := for_each (check_node_types p)
                [(switch_node_types p, Switch); (compute_node_types p, Compute)] in
    if existsb (fun id => negb (is_expanded_name id)) (entries (full_link_states p)).*1
    then Err "controlled interfaces must be expanded supported interface names"
    else
      let? _ := validate_calculation (link_calculation p) in
      let? sizes := try_fold (check_fabric_rule p) ∅ (fabric_rules p) in
      if negb (bool_decide (full_size p ∈ sizes))
      then Err "fabric rules must include the full physical inventory size"
      else validate_controller_rules p.

(** ** Interface ranges *)

(** The body of the loop over the entries: one name or range. *)
Definition expand_entry (states : link_states) (entry : string * FabricLinkState)
    : result string link_states :=
  let '(expression, state) := entry in
  let? parts := ok_or (strip_interface_prefix expression)
                  "controlled interfaces must use the acp or fnm prefix" in
  let '(prefix, suffix) := parts in
  let '(first, last) := default (suffix, suffix) (split_once "-" suffix) in
  let index text := ok_or (parse_index text)
                      "interface indices must be canonical positive u32 integers" in
  let? first := index first in
  let? last := index last in
  if (last <? first)%N then Err "interface ranges must be ascending"
  else
    let width := (last - first + 1)%N in
    if (1024 <? width + N.of_nat (size states))%N
    then Err "expanded controlled interfaces exceed 1024"
    else
      try_fold (fun states number =>
        let id := prefix +++ pretty number in
        match states !! id with
        | Some _ => Err "controlled interface entries overlap"
        | None => Ok (<[id := state]> states)
        end) states (urange first width).

Definition deserialize_full_link_states (e : link_states) : result string link_states :=
  try_fold expand_entry ∅ (entries e).

(** ** The catalog *)

Record FabricLayoutCatalog := mkLayoutCatalog {
  catalog_profiles : list FabricLayoutProfile;
  identity : string;
}.

Section catalog.
(** [serde_json::to_vec] of the rules, and the hexadecimal SHA-256 digest. *)
Context (to_vec : list FabricLayoutProfile → result string chars) (sha256 : chars → string).

Definition ambiguous (p q : FabricLayoutProfile) : bool :=
  String.eqb (physical_topology p) (physical_topology q)
  && negb (bool_decide (switch_node_types p ## switch_node_types q)).

(** The loop that compares every profile with those after it. *)
Fixpoint check_ambiguous (profiles : list FabricLayoutProfile) : result string unit :=
  match profiles with
  | [] => Ok tt
  | p :: rest =>
      if existsb (ambiguous p) rest then Err "ambiguous profile selectors"
      else check_ambiguous rest
  end.

Definition catalog_from_config (profiles : list FabricLayoutProfile)
    : result string FabricLayoutCatalog :=
  if bool_decide (profiles = []) || (64 <? length profiles)%nat
  then Err "profile count must be 1 through 64"
  else
    let? bytes := to_vec profiles in
    if (2 * 1024 * 1024 <? N.of_nat (length bytes))%N then Err "document exceeds 2 MiB"
    else
      let? _ := for_each (fun '(index, profile) =>
                  map_err (fun e => "profiles[" +++ show_nat index +++ "]: " +++ e)
                    (validate_profile profile)) (enumerate profiles) in
      let? _ := check_ambiguous profiles in
      Ok (mkLayoutCatalog profiles (sha256 bytes)).
End catalog.

(** What [select] asks of a profile. *)
Definition selected_by (topology : string) (types : gset string) (p : FabricLayoutProfile) : bool :=
  String.eqb (physical_topology p) topology && negb (bool_decide (types = ∅))
  && bool_decide (types ⊆ switch_node_types p).

Definition select (c : FabricLayoutCatalog) (topology : string) (types : gset string)
    : option FabricLayoutProfile :=
  find_first (selected_by topology types) (catalog_profiles c).
End FabricLayout.
