(* ===== verification/FabricLayoutTheorems.v ===== *)
(** * Theorems on the fabric layout rules *)

From S2P Require Import Prelude RustStd RustStr NodeTypes FabricLayout.
From Stdlib Require Import Ascii.
Import NodeTypes FabricLayout.
Local Open Scope string_scope.
Local Open Scope list_scope.

(** ** Interface names and ranges *)

Lemma canonical_u32_Some text n : canonical_u32 text = Some n ↔ text = pretty n ∧ (n ≤ U32_MAX)%N.
Proof.
  unfold canonical_u32. split.
  - destruct (parse_uint _ _) as [k|] eqn:E; [|done].
    destruct (String.eqb_spec (pretty k) text) as [<-|]; [|done]. intros [= ->].
    rewrite parse_pretty in E. destruct (N.leb_spec n U32_MAX); [done|discriminate].
  - intros [-> Hn]. rewrite parse_pretty. apply N.leb_le in Hn. rewrite Hn.
    by rewrite String.eqb_refl.
Qed.

Lemma parse_index_Some l n :
  parse_index l = Some n ↔ l = to_chars (pretty n) ∧ (0 < n ≤ U32_MAX)%N.
Proof.
  unfold parse_index. split.
  - destruct (canonical_u32 _) as [k|] eqn:E; [|done]. apply canonical_u32_Some in E as [E Hk].
    destruct (N.ltb_spec 0 k); [|done]. intros [= <-]. by rewrite <- E, to_of_chars.
  - intros [-> [H0 H1]]. rewrite of_to_chars.
    rewrite (proj2 (canonical_u32_Some (pretty n) n)) by done. apply N.ltb_lt in H0. by rewrite H0.
Qed.

Definition interface_prefix (prefix : string) : Prop := prefix = "acp" ∨ prefix = "fnm".

Lemma strip_prefix_Some id prefix l :
  strip_interface_prefix id = Some (prefix, l) ↔
  interface_prefix prefix ∧ to_chars id = to_chars prefix ++ l.
Proof.
  unfold strip_interface_prefix, interface_prefix. split.
  - destruct (starts_with _ (to_chars "acp")) eqn:E1.
    { apply starts_with_split in E1 as [r E1]. intros [= <- <-]. rewrite E1. auto. }
    destruct (starts_with _ (to_chars "fnm")) eqn:E2; [|done].
    apply starts_with_split in E2 as [r E2]. intros [= <- <-]. rewrite E2. auto.
  - intros [[-> | ->] ->]; by rewrite ?starts_with_app.
Qed.

(** The interfaces [first] to [last] of a prefix, as an entry names them. *)
Definition denotes (expression prefix : string) (first last : N) : Prop :=
  interface_prefix prefix ∧ (0 < first ≤ last ∧ last ≤ U32_MAX)%N ∧
  (expression = prefix +++ pretty first ∧ last = first ∨
   expression = prefix +++ pretty first +++ "-" +++ pretty last).

Lemma dash_no_digit : ¬ is_Some (to_digit 10 "-").
Proof. by intros [? ?]. Qed.

Lemma to_chars_inj a b : to_chars a = to_chars b → a = b.
Proof. intros H. by rewrite <- (of_to_chars a), <- (of_to_chars b), H. Qed.

Lemma range_parts expression prefix first last :
  denotes expression prefix first last ↔
  ∃ suffix, strip_interface_prefix expression = Some (prefix, suffix) ∧
    parse_index (default (suffix, suffix) (split_once "-" suffix)).1 = Some first ∧
    parse_index (default (suffix, suffix) (split_once "-" suffix)).2 = Some last ∧ (first ≤ last)%N.
Proof.
  unfold denotes. setoid_rewrite strip_prefix_Some. setoid_rewrite parse_index_Some. split.
  - intros (Hp & Hn & [[-> ->]| ->]).
    + exists (to_chars (pretty first)). rewrite to_chars_app.
      rewrite (proj2 (split_once_None _ _)) by (apply pretty_no_char, dash_no_digit).
      simpl. split_and!; try done; lia.
    + exists (to_chars (pretty first) ++ "-"%char :: to_chars (pretty last)).
      rewrite !to_chars_app.
      rewrite (proj2 (split_once_Some _ _ (to_chars (pretty first)) (to_chars (pretty last)))).
      * simpl. split_and!; try done; lia.
      * split; [apply pretty_no_char, dash_no_digit|done].
  - intros (suffix & [Hp E] & [Hf ?] & [Hl ?] & ?). split_and!; [done|lia..|].
    destruct (split_once "-" suffix) as [[a b]|] eqn:Es; simpl in Hf, Hl.
    + right. apply split_once_Some in Es as [_ ->]. subst a b. apply to_chars_inj.
      by rewrite !to_chars_app, E.
    + left. subst suffix. apply to_chars_inj, (inj pretty) in Hl as ->. split; [|done].
      apply to_chars_inj. by rewrite E, to_chars_app.
Qed.

(** An entry covers the interface [id]. *)
Definition covers (expression id : string) : Prop :=
  ∃ prefix first last n, denotes expression prefix first last ∧ (first ≤ n ≤ last)%N ∧
    id = prefix +++ pretty n.

Definition range_names (prefix : string) (first last : N) : list string :=
  (fun n => prefix +++ pretty n) <$> urange first (last - first + 1).

Lemma elem_of_range_names prefix first last id :
  (first ≤ last)%N →
  id ∈ range_names prefix first last ↔ ∃ n, (first ≤ n ≤ last)%N ∧ id = prefix +++ pretty n.
Proof.
  intros H. unfold range_names. rewrite list_elem_of_fmap. setoid_rewrite elem_of_urange.
  split; intros (n & ?); exists n; split; tauto || lia.
Qed.

Lemma denotes_unique expression prefix first last prefix' first' last' :
  denotes expression prefix first last → denotes expression prefix' first' last' →
  prefix = prefix' ∧ first = first' ∧ last = last'.
Proof. rewrite !range_parts. intros (? & ? & ? & ? & _) (? & ? & ? & ? & _). simplify_eq. naive_solver. Qed.

Lemma covers_names expression prefix first last id :
  denotes expression prefix first last → covers expression id ↔ id ∈ range_names prefix first last.
Proof.
  intros Hd. assert (first ≤ last)%N by (destruct Hd as (_ & ? & _); lia). rewrite elem_of_range_names by done. split.
  - intros (p & f & l & n & Hd' & Hn & ->). destruct (denotes_unique _ _ _ _ _ _ _ Hd Hd') as (-> & -> & ->).
    eauto.
  - intros (n & Hn & ->). by exists prefix, first, last, n.
Qed.

(** One step of the loop that inserts the names of a range. *)
Definition insert_new (state : FabricLinkState) (states : gmap string FabricLinkState) (id : string)
    : result string (gmap string FabricLinkState) :=
  match states !! id with
  | Some _ => Err "controlled interface entries overlap"
  | None => Ok (<[id := state]> states)
  end.

Lemma insert_new_all state ids states r :
  NoDup ids →
  try_fold (insert_new state) states ids = Ok r ↔
  (∀ id, id ∈ ids → states !! id = None) ∧ r = gset_to_gmap state (list_to_set ids) ∪ states.
Proof.
  intros Hd. revert states. induction Hd as [|id ids Hid Hd IH]; intros states; cbn [try_fold].
  { rewrite list_to_set_nil, gset_to_gmap_empty, (left_id_L ∅ (∪)). split; [intros [= ->]; split; [|done]|by intros [_ ->]].
    by intros ? ?%not_elem_of_nil. }
  unfold insert_new at 1. destruct (states !! id) eqn:E; cbn [result_bind].
  { split; [done|]. intros [H _]. rewrite (H id) in E; [done|left]. }
  rewrite IH. simpl. rewrite gset_to_gmap_union_singleton, <- insert_union_l.
  assert (gset_to_gmap state (list_to_set ids : gset string) !! id = None) as Hn.
  { apply lookup_gset_to_gmap_None. by rewrite elem_of_list_to_set. }
  rewrite insert_union_r by done. split.
  - intros [H ->]. split; [|done]. intros x [->|Hx]%elem_of_cons; [done|].
    specialize (H x Hx). rewrite lookup_insert_ne in H; [done|]. by intros ->.
  - intros [H ->]. split; [|done]. intros x Hx. rewrite lookup_insert_ne by (by intros ->).
    apply H. by right.
Qed.

Lemma try_fold_fmap {A B C E} (f : B → C → result E B) (g : A → C) acc l :
  try_fold f acc (g <$> l) = try_fold (fun acc x => f acc (g x)) acc l.
Proof. revert acc. induction l as [|x l IH]; intros acc; simpl; [done|]. by destruct (f acc (g x)); simpl. Qed.

Lemma range_names_nodup prefix first last : NoDup (range_names prefix first last).
Proof.
  unfold range_names, urange. apply NoDup_fmap_2.
  { intros a b H. by apply (inj _), (inj pretty) in H. }
  apply NoDup_fmap_2, NoDup_seq. intros a b. lia.
Qed.

Lemma expand_entry_ok states expression state r :
  expand_entry states (expression, state) = Ok r ↔
  ∃ prefix first last, denotes expression prefix first last ∧
    (last - first + 1 + N.of_nat (size states) ≤ 1024)%N ∧
    (∀ id, id ∈ range_names prefix first last → states !! id = None) ∧
    r = gset_to_gmap state (list_to_set (range_names prefix first last)) ∪ states.
Proof.
  setoid_rewrite range_parts. unfold expand_entry.
  destruct (strip_interface_prefix expression) as [[prefix suffix]|]; cbn [ok_or result_bind]; [|naive_solver].
  assert (∀ first last, try_fold (fun states number =>
    match states !! (prefix +++ pretty number) with
    | Some _ => Err "controlled interface entries overlap"
    | None => Ok (<[prefix +++ pretty number := state]> states) end) states
      (urange first (last - first + 1)) = Ok r ↔ (∀ id, id ∈ range_names prefix first last → states !! id = None) ∧
    r = gset_to_gmap state (list_to_set (range_names prefix first last)) ∪ states) as Hfold.
  { intros first last. rewrite <- insert_new_all by apply range_names_nodup.
    unfold range_names. by rewrite try_fold_fmap. }
  destruct (default (suffix, suffix) (split_once "-" suffix)) as [a b] eqn:Ed. split.
  - intros H. bind_ok H. rename a0 into first, a1 into last.
    apply Hfold in H as [? ->]. exists prefix, first, last. split_and!; [|by apply N.ltb_ge|done..].
    exists suffix. rewrite Ed. simpl. unfold ok_or in *. repeat case_match; simplify_eq.
    split_and!; [done..|]. by apply N.ltb_ge.
  - intros (p & first & last & (s & [= <- <-] & Ha & Hb & Hle) & Hs & Hnew & ->).
    rewrite Ed in Ha, Hb. simpl in Ha, Hb. rewrite Ha, Hb. cbn [ok_or result_bind].
    apply N.ltb_ge in Hle as ->. apply N.ltb_ge in Hs as ->. by apply Hfold.
Qed.

(** What the loop over the entries has built from the entries [done]. *)
Record expanded (done : list (string * FabricLinkState)) (states : gmap string FabricLinkState)
    : Prop := {
  ex_size : (size states ≤ 1024)%nat;
  ex_denotes : ∀ e, e ∈ done → ∃ prefix first last, denotes e.1 prefix first last;
  ex_states : ∀ id state, states !! id = Some state ↔ ∃ e, (e, state) ∈ done ∧ covers e id;
  ex_apart : ∀ e e' id, e ∈ done → e' ∈ done → covers e.1 id → covers e'.1 id → e = e';
}.

Lemma expand_entry_expanded done e states states' :
  expanded done states → expand_entry states e = Ok states' → expanded (done ++ [e]) states'.
Proof.
  destruct e as [expr state]. intros [Hs Hd Hst Ha] (prefix & first & last & Hden & Hsize & Hnew & ->)%expand_entry_ok.
  pose proof (fun id => covers_names expr prefix first last id Hden) as Hcov.
  assert (∀ id e, e ∈ done → covers e.1 id → ¬ covers expr id) as Hapart.
  { intros id [e st] He He' Hid. assert (states !! id = Some st) as E by (apply Hst; eauto).
    rewrite (Hnew id) in E; [done|]. by apply Hcov. }
  split.
  - rewrite map_size_disj_union; [|apply map_disjoint_alt; intros id; rewrite lookup_gset_to_gmap_None,
      elem_of_list_to_set; destruct (decide (id ∈ range_names prefix first last)); auto].
    rewrite <- size_dom, dom_gset_to_gmap, size_list_to_set by apply range_names_nodup.
    unfold range_names, urange. rewrite !length_fmap, length_seq. lia.
  - intros e [He| ->%list_elem_of_singleton]%elem_of_app; eauto.
  - intros id st. rewrite lookup_union_Some_raw, lookup_gset_to_gmap_Some, lookup_gset_to_gmap_None,
      elem_of_list_to_set, <- Hcov, Hst. split.
    + intros [[Hid ->]|[Hid (e & He & Hc)]]; [exists expr|exists e]; split; set_solver.
    + intros (e & [He|[= -> ->]%list_elem_of_singleton]%elem_of_app & Hc); [|by left].
      right. split; [|by eauto]. by eapply (Hapart id (e, st)).
  - intros e1 e2 id [H1| ->%list_elem_of_singleton]%elem_of_app [H2| ->%list_elem_of_singleton]%elem_of_app
      C1 C2; [by eapply Ha|..|done]; exfalso; by eapply Hapart.
Qed.

Lemma deserialize_expanded e m : deserialize_full_link_states e = Ok m → expanded (entries e) m.
Proof.
  apply try_fold_ind.
  - split; simpl.
    + rewrite map_size_empty. lia.
    + by intros ? ?%not_elem_of_nil.
    + intros id st. rewrite lookup_empty. split; [done|]. by intros (? & ?%not_elem_of_nil & _).
    + by intros ??? ?%not_elem_of_nil.
  - intros don x b b' _. apply expand_entry_expanded.
Qed.

Lemma expanded_name_spec id :
  is_expanded_name id = true ↔
  ∃ prefix n, interface_prefix prefix ∧ (0 < n ≤ U32_MAX)%N ∧ id = prefix +++ pretty n.
Proof.
  unfold is_expanded_name. split.
  - destruct (strip_interface_prefix id) as [[prefix l]|] eqn:E; [|done].
    apply strip_prefix_Some in E as [Hp E]. rewrite bool_decide_eq_true.
    intros [n [-> Hn]%parse_index_Some]. exists prefix, n. split_and!; [done|lia..|].
    apply to_chars_inj. by rewrite to_chars_app.
  - intros (prefix & n & Hp & Hn & ->).
    rewrite (proj2 (strip_prefix_Some _ prefix (to_chars (pretty n)))) by (by rewrite to_chars_app).
    apply bool_decide_eq_true. exists n. by apply parse_index_Some.
Qed.

Lemma expand_single states id state :
  is_expanded_name id = true → states !! id = None → (size states < 1024)%nat →
  expand_entry states (id, state) = Ok (<[id := state]> states).
Proof.
  intros (prefix & n & Hp & Hn & ->)%expanded_name_spec Hnone Hsize. apply expand_entry_ok.
  exists prefix, n, n. assert (n - n + 1 = 1)%N as E by lia.
  assert (range_names prefix n n = [prefix +++ pretty n]) as Er.
  { unfold range_names. rewrite E. unfold urange. simpl. by rewrite N.add_0_r. }
  rewrite E, Er. split_and!.
  - split_and!; [done|lia..|by left].
  - lia.
  - by intros id ->%list_elem_of_singleton.
  - cbn [list_to_set foldr]. by rewrite gset_to_gmap_union_singleton, gset_to_gmap_empty,
      insert_union_singleton_l.
Qed.

Lemma expand_names l acc :
  NoDup l.*1 → (∀ id, id ∈ l.*1 → is_expanded_name id = true ∧ acc !! id = None) →
  (length l + size acc ≤ 1024)%nat →
  try_fold expand_entry acc l = Ok (list_to_map l ∪ acc).
Proof.
  revert acc. induction l as [|[id st] l IH]; intros acc Hd Hl Hs; cbn [try_fold].
  { by rewrite list_to_map_nil, (left_id_L ∅ (∪)). }
  rewrite fmap_cons, NoDup_cons in Hd. destruct Hd as [Hid Hd]. simpl in Hid, Hl, Hs.
  destruct (Hl id) as [Hname Hnone]; [left|].
  rewrite expand_single by (done || lia). cbn [result_bind]. rewrite IH; [|done|..].
  - f_equal. simpl. rewrite <- insert_union_l, insert_union_r; [done|]. by apply not_elem_of_list_to_map_1.
  - intros x Hx. destruct (Hl x) as [? Hx']; [by right|]. split; [done|].
    rewrite lookup_insert_ne; [done|]. by intros ->.
  - rewrite map_size_insert_None by done. lia.
Qed.

Lemma entries_nodup {A} (m : gmap string A) : NoDup (entries m).*1.
Proof. unfold entries. rewrite (merge_sort_Permutation key_le). apply NoDup_fst_map_to_list. Qed.

Lemma entries_map {A} (m : gmap string A) : list_to_map (entries m) = m.
Proof.
  rewrite <- (list_to_map_to_list m) at 2. apply list_to_map_proper; [apply entries_nodup|].
  apply merge_sort_Permutation.
Qed.

Lemma length_entries {A} (m : gmap string A) : length (entries m) = size m.
Proof.
  unfold entries. rewrite (Permutation_length (merge_sort_Permutation key_le _)).
  apply length_map_to_list.
Qed.

Lemma deserialize_names m :
  (∀ id, is_Some (m !! id) → is_expanded_name id = true) → (size m ≤ 1024)%nat →
  deserialize_full_link_states m = Ok m.
Proof.
  intros Hn Hs. unfold deserialize_full_link_states. rewrite expand_names.
  - by rewrite entries_map, (right_id_L ∅ (∪)).
  - apply entries_nodup.
  - intros id (e & -> & He)%list_elem_of_fmap. split; [|done]. apply Hn. destruct e.
    apply entries_elem in He. by eexists.
  - rewrite length_entries, map_size_empty. lia.
Qed.

(** Interface ranges load exactly: in a configuration that loads every entry
    names one interface or an ascending range, no two entries overlap, the
    interfaces are those the entries cover, each with the state of its entry,
    and at most 1024; the expanded names pass validation and load to themselves. *)
Theorem link_states_exact e m :
  deserialize_full_link_states e = Ok m →
  (size m ≤ 1024)%nat ∧
  (∀ expr, is_Some (e !! expr) → ∃ prefix first last, denotes expr prefix first last) ∧
  (∀ expr expr' id, is_Some (e !! expr) → is_Some (e !! expr') → covers expr id →
     covers expr' id → expr = expr') ∧
  (∀ id st, m !! id = Some st ↔ ∃ expr, e !! expr = Some st ∧ covers expr id) ∧
  (∀ id, is_Some (m !! id) → is_expanded_name id = true) ∧
  deserialize_full_link_states m = Ok m.
Proof.
  intros [Hs Hd Hst Ha]%deserialize_expanded. setoid_rewrite entries_elem in Hst.
  assert (∀ id, is_Some (m !! id) → is_expanded_name id = true) as Hn.
  { intros id [st (expr & _ & prefix & first & last & n & (Hp & Hb & _) & Hr & ->)%Hst].
    apply expanded_name_spec. exists prefix, n. split_and!; [done|lia..|done]. }
  split_and!; [done|..|done|done|by apply deserialize_names].
  - intros expr [st He]. apply entries_elem in He. by apply Hd in He.
  - intros expr expr' id [st He] [st' He']. apply entries_elem in He, He'. intros C1 C2.
    by injection (Ha _ _ id He He' C1 C2).
Qed.

Lemma link_states_exact_witness :
  let e := <["acp2-3" := Up]> {["fnm7" := Down]} in
  ∃ m, deserialize_full_link_states e = Ok m ∧ (m !! "acp3" = Some Up ↔
    ∃ expr, e !! expr = Some Up ∧ covers expr "acp3").
Proof.
  intros e. assert (is_ok (deserialize_full_link_states e) = true) as Hok by (vm_compute; reflexivity).
  destruct (deserialize_full_link_states e) as [m|] eqn:E; [|discriminate Hok].
  exists m. split; [reflexivity|]. exact (proj1 (proj2 (proj2 (proj2 (link_states_exact e m E)))) _ _).
Defined.

(** ** The catalog *)

Lemma check_ambiguous_apart profiles i j p q :
  check_ambiguous profiles = Ok tt → profiles !! i = Some p → profiles !! j = Some q → i ≠ j →
  physical_topology p = physical_topology q → switch_node_types p ## switch_node_types q.
Proof.
  revert i j. induction profiles as [|r profiles IH]; intros i j; [done|]. cbn [check_ambiguous].
  destruct (existsb (ambiguous r) profiles) eqn:E; [done|]. intros Hc.
  assert (∀ k s, profiles !! k = Some s → physical_topology r = physical_topology s →
    switch_node_types r ## switch_node_types s) as Hr.
  { intros k s Hk Ht. apply list_elem_of_lookup_2 in Hk.
    assert (ambiguous r s = false) as Ha.
    { apply not_true_is_false. intros Ha. rewrite <- not_true_iff_false in E. apply E, existsb_exists.
      exists s. split; [by apply list_elem_of_In|done]. }
    unfold ambiguous in Ha. rewrite Ht, String.eqb_refl in Ha. simpl in Ha.
    by apply negb_false_iff, bool_decide_eq_true in Ha. }
  destruct i as [|i], j as [|j]; simpl; intros Hi Hj Hij Ht; simplify_eq; [by eapply Hr| |].
  - apply symmetry. by eapply Hr.
  - eapply IH; eauto.
Qed.

(** Profile selection is unambiguous: in a catalog that loads every profile is
    valid, and the profile selected for a topology and a set of switch types is
    the only one that accepts them, so the order of the catalog is irrelevant. *)
Theorem catalog_selection to_vec sha256 profiles c :
  catalog_from_config to_vec sha256 profiles = Ok c →
  (∀ p, p ∈ profiles → validate_profile p = Ok tt) ∧
  ∀ topology types p, select c topology types = Some p ↔
    p ∈ profiles ∧ physical_topology p = topology ∧ types ≠ ∅ ∧ types ⊆ switch_node_types p.
Proof.
  unfold catalog_from_config. intros H. bind_ok H. destruct a0, a1. injection H as <-. split.
  { intros p [i Hi]%list_elem_of_lookup. apply elem_of_enumerate in Hi.
    apply (proj1 (for_each_ok _ _)) with (x := (i, p)) in E2; [|done]. revert E2. unfold map_err.
    by destruct (validate_profile p) as [[]|]. }
  intros topology types p. unfold select. cbn [catalog_profiles].
  assert (∀ q, selected_by topology types q = true ↔
    physical_topology q = topology ∧ types ≠ ∅ ∧ types ⊆ switch_node_types q) as Hsel.
  { intros q. unfold selected_by.
    rewrite !andb_true_iff, String.eqb_eq, negb_true_iff, bool_decide_eq_false, bool_decide_eq_true. tauto. }
  rewrite <- Hsel. split; [apply find_first_Some|]. intros [Hp Hs].
  destruct (find_first _ _) as [q|] eqn:Ef.
  - apply find_first_Some in Ef as [Hq Hs']. apply list_elem_of_lookup in Hp as [i Hi], Hq as [j Hj].
    destruct (decide (i = j)) as [->|Hij]; [congruence|]. apply Hsel in Hs as (Ht & Hne & Hsub), Hs' as (Ht' & _ & Hsub').
    exfalso. apply Hne. pose proof (check_ambiguous_apart _ _ _ _ _ E3 Hi Hj Hij ltac:(congruence)) as Hd.
    set_solver.
  - rewrite find_first_None in Ef. by rewrite (Ef p Hp) in Hs.
Qed.

(** Two computes and two switches; half a rack is one of each, by tray. *)
Definition example_profile : FabricLayoutProfile :=
  let term node := mkTerm node TrayIndex 1 None None 1 in
  let target action := [mkTarget "fm_config" "MODE" action] in
  mkProfile {["switch_gb200_nvidia"]} {["compute_gb200_nvidia"]} "rack" 2 2
    (<["acp1" := Up]> {["acp2" := Up]})
    [mkFabricRule 2 2 None [mkControllerRule "t" (target Remove)];
     mkFabricRule 1 1 (Some (mkGrouping (term Compute) (term Switch)))
       [mkControllerRule "t" (target (Set_ "half"))]]
    (mkCalculation Down [mkLinkRule "acp" 1 [term Compute] [0%Z] 1 Up]).

Lemma catalog_selection_witness :
  ∃ c, catalog_from_config (fun _ => Ok []) (fun _ => "digest") [example_profile] = Ok c ∧
    (select c "rack" {["switch_gb200_nvidia"]} = Some example_profile ↔
     example_profile ∈ [example_profile] ∧ physical_topology example_profile = "rack" ∧
     ({["switch_gb200_nvidia"]} : gset string) ≠ ∅ ∧
     {["switch_gb200_nvidia"]} ⊆ switch_node_types example_profile).
Proof.
  assert (is_ok (catalog_from_config (fun _ => Ok []) (fun _ => "digest") [example_profile]) = true)
    as Hok by (vm_compute; reflexivity).
  destruct (catalog_from_config _ _ [example_profile]) as [c|] eqn:E; [|discriminate Hok].
  exists c. split; [reflexivity|]. exact (proj2 (catalog_selection _ _ _ _ E) _ _ _).
Defined.
