(* ===== verification/FabricLinkTheorems.v ===== *)
(** * Theorems on groups and links

    Grouping puts together exactly the trays with equal transformed coordinates,
    and the link calculation, with its checked machine arithmetic and its loop
    over computes, rules, offsets and lanes, gives every switch the states of a
    closed formula over unbounded integers. *)

From S2P Require Import Prelude RustStd RustStr NodeTypes FabricLayout.
From Stdlib Require Import Ascii.
Import NodeTypes FabricLayout.
Local Open Scope string_scope.
Local Open Scope list_scope.

Lemma elem_of_ordered {A} (R : relation A) `{RelDecision A A R, Countable A} (X : gset A) x :
  x ∈ ordered R X ↔ x ∈ X.
Proof. unfold ordered. rewrite (merge_sort_Permutation R). apply elem_of_elements. Qed.

(** ** Grouping *)

(** The groups made of the positions [don]. *)
Definition grouped (t : IndexTerm) (don : list FabricPosition) (m : gmap Z (gset FabricPosition))
    : Prop :=
  (∀ v g, m !! v = Some g → g ≠ ∅) ∧
  ∀ v x, x ∈ default ∅ (m !! v) ↔ x ∈ don ∧ evaluate t x x = Ok v.

Lemma add_to_group_grouped t don m x m' :
  grouped t don m → add_to_group t m x = Ok m' → grouped t (don ++ [x]) m'.
Proof.
  intros [Hne Hin] H. unfold add_to_group in H. bind_ok H. rename a into w. injection H as <-. split.
  - intros v g [[_ <-]|[_ ?]]%lookup_insert_Some; [set_solver|eauto].
  - intros v y. rewrite elem_of_app, list_elem_of_singleton. destruct (decide (w = v)) as [->|Hv].
    + rewrite lookup_insert_eq. simpl. rewrite elem_of_union, elem_of_singleton, Hin. naive_solver.
    + rewrite lookup_insert_ne, Hin by done. split; [by intros [? ?]; auto|].
      intros [[?| ->] Hy]; [done|congruence].
Qed.

Lemma group_fold t X m :
  try_fold (add_to_group t) ∅ (ordered pos_le X) = Ok m → grouped t (ordered pos_le X) m.
Proof.
  apply try_fold_ind.
  - split; [done|]. intros v x. rewrite lookup_empty. simpl. split; [set_solver|].
    by intros [?%not_elem_of_nil _].
  - intros don x b b' _. apply add_to_group_grouped.
Qed.

(** [g] is the nonempty set of the positions of [X] with transformed coordinate [v]. *)
Definition group_at (t : IndexTerm) (X : gset FabricPosition) (v : Z) (g : gset FabricPosition)
    : Prop :=
  g ≠ ∅ ∧ ∀ x, x ∈ g ↔ x ∈ X ∧ evaluate t x x = Ok v.

Lemma grouped_lookup t X m v g :
  grouped t (ordered pos_le X) m → m !! v = Some g ↔ group_at t X v g.
Proof.
  intros [Hne Hin]. unfold group_at. setoid_rewrite elem_of_ordered in Hin. split.
  - intros E. split; [eauto|]. intros x. by rewrite <- Hin, E.
  - intros [[x Hx]%set_choose_L Hg]. assert (x ∈ default ∅ (m !! v)) as Hd by (by apply Hin, Hg).
    destruct (m !! v) as [g'|] eqn:E; simpl in Hd; [|set_solver]. f_equal. apply set_eq.
    intros y. by rewrite Hg, <- Hin, E.
Qed.

Lemma join_groups_elem l m g :
  NoDup l.*1 →
  g ∈ join_groups l m ↔ ∃ v, (v, group_switches g) ∈ l ∧ m !! v = Some (group_computes g).
Proof.
  revert m. induction l as [|[w s] l IH]; intros m; cbn [join_groups].
  { intros _. setoid_rewrite elem_of_nil. naive_solver. }
  rewrite fmap_cons, NoDup_cons. simpl. intros [Hw Hd].
  assert (∀ v, (v, group_switches g) ∈ l → v ≠ w) as Hne.
  { intros v Hv ->. apply Hw, list_elem_of_fmap. by exists (w, group_switches g). }
  setoid_rewrite elem_of_cons. destruct (m !! w) as [c|] eqn:E.
  - rewrite elem_of_cons, IH by done. split.
    + intros [->|(v & Hv & Hm)]; [exists w; simpl; auto|]. exists v. split; [by right|].
      by apply lookup_delete_Some in Hm as [_ ?].
    + intros (v & [[= -> <-]|Hv] & Hm).
      * left. destruct g. simpl in *. congruence.
      * right. exists v. split; [done|]. apply lookup_delete_Some. split; [|done]. by apply not_eq_sym, Hne.
  - rewrite IH by done. split; intros (v & Hv & Hm); exists v; [by auto|].
    destruct Hv as [[= -> _]|Hv]; [congruence|done].
Qed.

Lemma merge_sort_keys {A} (m : gmap Z A) :
  NoDup (merge_sort zkey_le (map_to_list m)).*1 ∧
  ∀ v x, (v, x) ∈ merge_sort zkey_le (map_to_list m) ↔ m !! v = Some x.
Proof.
  split; [rewrite (merge_sort_Permutation zkey_le); apply NoDup_fst_map_to_list|].
  intros v x. rewrite (merge_sort_Permutation zkey_le). apply elem_of_map_to_list.
Qed.

(** Grouping puts together exactly the trays whose transformed coordinates are
    equal, and keeps the groups that have both computes and switches. *)
Lemma resolve_grouping_spec g computes switches groups :
  resolve_grouping g computes switches = Ok groups →
  ∀ d, d ∈ groups ↔ ∃ v, group_at (grouping_compute g) computes v (group_computes d) ∧
                         group_at (grouping_switch g) switches v (group_switches d).
Proof.
  unfold resolve_grouping. intros H. bind_ok H. injection H as <-.
  apply group_fold in E0, E1. intros d. destruct (merge_sort_keys a1) as [Hd Hin].
  rewrite join_groups_elem by done. setoid_rewrite Hin.
  setoid_rewrite (fun v => grouped_lookup _ _ _ v (group_computes d) E0).
  setoid_rewrite (fun v => grouped_lookup _ _ _ v (group_switches d) E1).
  naive_solver.
Qed.

(** ** Links, in unbounded arithmetic *)

Definition coordinate_of (t : IndexTerm) (compute switch : FabricPosition) : N :=
  let position := match term_node t with Compute => compute | _ => switch end in
  match term_coordinate t with
  | TrayIndex => tray_index position
  | SlotNumber => slot_number position
  end.

(** Division, remainder, private remap and scaling of a coordinate. *)
Definition term_value (t : IndexTerm) (compute switch : FabricPosition) : Z :=
  let quotient := (coordinate_of t compute switch / divisor t)%N in
  let transformed := match modulus t with Some m => (quotient mod m)%N | None => quotient end in
  let mapped := match remap t with
                | Some m => default 0%N (m !! pretty transformed)
                | None => transformed
                end in
  (Z.of_N mapped * multiplier t)%Z.

Definition first_number (r : LinkRule) (compute switch : FabricPosition) : Z :=
  foldl (fun sum t => sum + term_value t compute switch)%Z (rule_base r) (rule_terms r).

(** The interfaces a rule assigns for a pair: prefix, number and state. *)
Definition rule_ports (r : LinkRule) (compute switch : FabricPosition)
    : list (string * Z * FabricLinkState) :=
  rule_offsets r ≫= fun offset =>
    (fun lane => (rule_prefix r, first_number r compute switch + offset + Z.of_N lane, rule_state r)%Z)
      <$> urange 0 (rule_width r).

Definition switch_ports (c : FabricLinkCalculation) (computes : gset FabricPosition)
    (switch : FabricPosition) : list (string * Z * FabricLinkState) :=
  ordered pos_le computes ≫= fun compute =>
    link_rules c ≫= fun r => rule_ports r compute switch.

Definition port_link (port : string * Z * FabricLinkState) : string * FabricLinkState :=
  (port.1.1 +++ pretty (Z.to_N port.1.2), port.2).

Definition in_range (port : string * Z * FabricLinkState) : Prop :=
  (1 ≤ port.1.2 ≤ Z.of_N U32_MAX)%Z.

(** ** The loops assign these ports *)

(** [st'] is [st] with the states of new, controlled and distinct interfaces. *)
Record extends (ports : list (string * Z * FabricLinkState)) (st st' : assignment_state) : Prop := {
  et_range : Forall in_range ports;
  et_nodup : NoDup (port_link <$> ports).*1;
  et_new : ∀ id, id ∈ (port_link <$> ports).*1 → (id ∉ st.2) ∧ is_Some (st.1 !! id);
  et_states : st'.1 = list_to_map (port_link <$> ports) ∪ st.1;
  et_assigned : st'.2 = list_to_set (port_link <$> ports).*1 ∪ st.2;
}.

Lemma extends_nil st : extends [] st st.
Proof.
  split; simpl; [constructor|constructor|by intros ? ?%not_elem_of_nil|..].
  - by rewrite (left_id_L ∅ (∪)).
  - by rewrite (left_id_L ∅ (∪)).
Qed.

Lemma extends_app p q st st1 st2 : extends p st st1 → extends q st1 st2 → extends (p ++ q) st st2.
Proof.
  intros [Hr Hd Hn Hs Ha] [Hr' Hd' Hn' Hs' Ha'].
  assert (∀ id, id ∈ (port_link <$> q).*1 → id ∉ (port_link <$> p).*1) as Hpq.
  { intros id [Hid _]%Hn' Hp. apply Hid. rewrite Ha. by apply elem_of_union_l, elem_of_list_to_set. }
  split; rewrite ?fmap_app.
  - by apply Forall_app.
  - apply NoDup_app. split_and!; [done| |done]. intros id Hp Hq. by apply (Hpq id).
  - intros id [Hid|Hid]%elem_of_app; [by apply Hn|]. destruct (Hn' id Hid) as [H1 H2].
    rewrite Ha, not_elem_of_union in H1. split; [by apply H1|]. rewrite Hs in H2.
    destruct H2 as [s [H2|[_ H2]]%lookup_union_Some_raw]; [|by eexists].
    exfalso. apply (Hpq id Hid). apply elem_of_list_to_map_2 in H2.
    apply list_elem_of_fmap. by eexists (_, _).
  - rewrite Hs', Hs, list_to_map_app, (assoc_L (∪)). f_equal. apply map_union_comm, map_disjoint_alt.
    intros id. destruct (decide (id ∈ (port_link <$> q).*1)) as [Hq|Hq].
    + right. by apply not_elem_of_list_to_map_1, Hpq.
    + left. by apply not_elem_of_list_to_map_1.
  - by rewrite Ha', Ha, list_to_set_app_L, (assoc_L (∪)), (comm_L (∪) (list_to_set (port_link <$> q).*1)).
Qed.

Lemma extends_fold {A} (f : assignment_state → A → result string assignment_state)
    (ports : A → list (string * Z * FabricLinkState)) l st st' :
  (∀ x st st', f st x = Ok st' → extends (ports x) st st') →
  try_fold f st l = Ok st' → extends (l ≫= ports) st st'.
Proof.
  intros Hf. apply (try_fold_ind f (fun don b => extends (don ≫= ports) st b)).
  - apply extends_nil.
  - intros don x b b' _ Hb Hx%Hf. rewrite bind_app. eapply extends_app; [done|].
    rewrite bind_cons, app_nil_r. done.
Qed.

Lemma checked_i64_Some z w : checked_i64 z = Some w → w = z.
Proof. unfold checked_i64. case_match; congruence. Qed.

Lemma ok_or_Ok {A} (o : option A) e a : ok_or o e = Ok (E := string) a → o = Some a.
Proof. destruct o; simpl; congruence. Qed.

Lemma evaluate_value t compute switch v :
  evaluate t compute switch = Ok v → v = term_value t compute switch.
Proof.
  unfold evaluate, term_value, coordinate_of. intros H. bind_ok H.
  apply ok_or_Ok, checked_i64_Some in H. subst v. f_equal. f_equal.
  assert (a = match term_node t with Compute => compute | _ => switch end) as ->.
  { destruct (term_node t); congruence. }
  destruct (divisor t =? 0)%N; simplify_eq.
  match type of E1 with context [Ok (?q mod _)%N] =>
    assert (a1 = match modulus t with Some m => (q mod m)%N | None => q end) as Ea
  end.
  { destruct (modulus t) as [m|]; [destruct (m =? 0)%N|]; simplify_eq; reflexivity. }
  subst a1. destruct (remap t) as [m|]; [|congruence]. apply ok_or_Ok in E2. by rewrite E2.
Qed.

Lemma apply_lane_extends r index start lane st st' :
  apply_lane r index start st lane = Ok st' →
  extends [(rule_prefix r, start + Z.of_N lane, rule_state r)%Z] st st'.
Proof.
  unfold apply_lane. destruct st as [states assigned]. intros H. bind_ok H.
  apply ok_or_Ok, checked_i64_Some in E. subst a.
  destruct (states !! _) eqn:Es; [|done]. injection H as <-. rename Hnew into Ha.
  apply orb_false_iff in E0 as [E0 E2]. split; unfold port_link; simpl.
  - apply Z.ltb_ge in E0, E2. apply Z.eqb_neq in E1. apply Forall_singleton. unfold in_range. cbn [fst snd]. lia.
  - repeat constructor. apply not_elem_of_nil.
  - intros id ->%list_elem_of_singleton. split; [done|by eexists].
  - by rewrite insert_empty, insert_union_singleton_l.
  - set_solver.
Qed.

Lemma bind_enumerate {A B} (f : A → list B) (l : list A) : (enumerate l ≫= fun x => f x.2) = l ≫= f.
Proof.
  rewrite <- (enumerate_snd l) at 2. induction (enumerate l) as [|x k IH]; [done|].
  by rewrite fmap_cons, !bind_cons, IH.
Qed.

Lemma add_terms_sum r compute switch v :
  try_fold (add_term compute switch) (rule_base r) (enumerate (rule_terms r)) = Ok v →
  v = first_number r compute switch.
Proof.
  unfold first_number. rewrite <- (enumerate_snd (rule_terms r)) at 2.
  apply (try_fold_ind _ (fun don b => b = foldl _ (rule_base r) (don.*2))); [done|].
  intros don [i t] b b' _ -> H. unfold add_term, map_err in H.
  destruct (evaluate t compute switch) as [w|] eqn:E; [|done]. apply evaluate_value in E as ->.
  cbn [result_bind] in H. apply ok_or_Ok, checked_i64_Some in H as ->.
  by rewrite fmap_app, foldl_app.
Qed.

Lemma apply_rule_extends r compute switch st st' :
  apply_rule r compute switch st = Ok st' → extends (rule_ports r compute switch) st st'.
Proof.
  unfold apply_rule, rule_ports. intros H. bind_ok H. apply add_terms_sum in E as ->.
  rewrite <- bind_enumerate. revert H. apply extends_fold. intros [i offset] s s' H.
  unfold apply_block in H. bind_ok H. apply ok_or_Ok, checked_i64_Some in E as ->.
  match goal with |- extends ?p s s' =>
    assert (p = urange 0 (rule_width r) ≫= fun lane =>
      [(rule_prefix r, first_number r compute switch + offset + Z.of_N lane, rule_state r)%Z]) as ->
  end.
  { clear H. simpl. induction (urange 0 (rule_width r)) as [|x l IH]; [done|]. by rewrite fmap_cons, bind_cons, IH. }
  revert H. apply extends_fold. intros lane s1 s2. apply apply_lane_extends.
Qed.

(** The states of every switch are those of the formula over the default. *)
Lemma expand_switch_states c computes switch interfaces states :
  expand_switch c computes switch interfaces = Ok states →
  let ports := switch_ports c computes switch in
  Forall in_range ports ∧ NoDup (port_link <$> ports).*1 ∧
  (∀ id, id ∈ (port_link <$> ports).*1 → id ∈ interfaces) ∧
  states = list_to_map (port_link <$> ports) ∪ gset_to_gmap (default_state c) interfaces.
Proof.
  unfold expand_switch, switch_ports. intros H. bind_ok H. injection H as <-.
  eapply (extends_fold _ (fun compute => link_rules c ≫= fun r => rule_ports r compute switch)) in E.
  - destruct E as [Hr Hd Hn Hs _]. split_and!; [done|done| |done]. intros id Hid.
    destruct (Hn id Hid) as [_ [s Hs']]. by apply lookup_gset_to_gmap_Some in Hs' as [? _].
  - clear E. intros compute st st' H.
    rewrite <- (bind_enumerate (fun r => rule_ports r compute switch)).
    revert H. apply extends_fold. intros [i r] s s'. simpl. unfold map_err.
    destruct (apply_rule r compute switch s) eqn:E; [|done]. intros [= ->]. by apply apply_rule_extends.
Qed.

Lemma ordered_nodup {A} (R : relation A) `{RelDecision A A R, Countable A} (X : gset A) :
  NoDup (ordered R X).
Proof. unfold ordered. rewrite (merge_sort_Permutation R). apply NoDup_elements. Qed.

(** The pairs a successful [collect] makes, one per key in order. *)
Lemma collect_pairs {A B E} (f : A → result E B) (l : list A) pairs :
  collect (fun x => let? y := f x in Ok (x, y)) l = Ok pairs →
  pairs.*1 = l ∧ ∀ x y, (x, y) ∈ pairs → f x = Ok y.
Proof.
  revert pairs. induction l as [|x l IH]; intros pairs; simpl.
  { intros [= <-]. split; [done|]. by intros ?? ?%not_elem_of_nil. }
  destruct (f x) as [y|] eqn:Ef; simpl; [|done]. intros H. bind_ok H. injection H as <-.
  destruct (IH _ eq_refl) as [<- Hin]. split; [done|].
  intros x' y' [[= -> ->]|Hx]%elem_of_cons; [done|auto].
Qed.

Lemma expand_switches c computes switches interfaces m :
  expand c computes switches interfaces = Ok m →
  dom m = switches ∧
  ∀ switch states, m !! switch = Some states → expand_switch c computes switch interfaces = Ok states.
Proof.
  unfold expand. intros H. bind_ok H. injection H as <-.
  apply collect_pairs in E1 as [Hkeys Hin].
  assert (NoDup a0.*1) as Hd by (rewrite Hkeys; apply ordered_nodup). split.
  { rewrite dom_from_pairs, Hkeys. apply set_eq. intros x. by rewrite elem_of_list_to_set, elem_of_ordered. }
  intros switch states Hs%lookup_from_pairs; [|done]. by apply Hin.
Qed.

Lemma expand_switch_dom c computes switch interfaces states :
  expand_switch c computes switch interfaces = Ok states → dom states = interfaces.
Proof.
  intros (_ & _ & Hi & ->)%expand_switch_states.
  rewrite dom_union_L, dom_list_to_map_L, dom_gset_to_gmap. apply set_eq. intros id.
  rewrite elem_of_union, elem_of_list_to_set. naive_solver.
Qed.

(** C32. The link calculation is exact: when it succeeds every switch of the group
    gets a state for every controlled interface and for no other; the interfaces
    its rules reach, computed in unbounded integers from the positions, are in
    range, controlled and all different, also across computes and rules, and get
    the state of their rule; the others get the default. *)
Theorem expand_exact c computes switches interfaces m :
  expand c computes switches interfaces = Ok m →
  dom m = switches ∧
  ∀ switch states, m !! switch = Some states →
    let ports := switch_ports c computes switch in
    dom states = interfaces ∧ Forall in_range ports ∧ NoDup (port_link <$> ports).*1 ∧
    (∀ port, port ∈ ports → states !! (port_link port).1 = Some port.2) ∧
    (∀ id, id ∈ interfaces → id ∉ (port_link <$> ports).*1 → states !! id = Some (default_state c)).
Proof.
  intros [Hd Hs]%expand_switches. split; [done|]. intros switch states H%Hs.
  pose proof (expand_switch_dom _ _ _ _ _ H) as Hdom. apply expand_switch_states in H as (Hr & Hn & Hi & E).
  split_and!; [done..| |]; rewrite E.
  - intros port Hp. apply lookup_union_Some_l, elem_of_list_to_map_1; [done|].
    apply list_elem_of_fmap. exists port. split; [|done]. by destruct port.
  - intros id Hid Hnot. rewrite lookup_union_r; [by apply lookup_gset_to_gmap_Some|].
    by apply not_elem_of_list_to_map_1.
Qed.

Definition example_calculation : FabricLinkCalculation :=
  mkCalculation Down
    [mkLinkRule "acp" 1 [mkTerm Compute TrayIndex 1 (Some 4%N) None 2] [0; 8]%Z 2 Up].

Lemma expand_exact_witness :
  let computes := {[mkPosition 1 3; mkPosition 2 4]} in
  let switches := {[mkPosition 0 9]} in
  let interfaces := list_to_set ((fun n => "acp" +++ pretty n) <$> urange 1 16) in
  ∃ m, expand example_calculation computes switches interfaces = Ok m ∧ dom m = switches.
Proof.
  intros computes switches interfaces.
  assert (is_ok (expand example_calculation computes switches interfaces) = true) as Hok
    by (vm_compute; reflexivity).
  destruct (expand example_calculation computes switches interfaces) as [m|] eqn:E; [|discriminate Hok].
  exists m. split; [reflexivity|]. exact (proj1 (expand_exact _ _ _ _ _ E)).
Defined.
