(* ===== verification/FabricPlanner.v ===== *)
(** * Planning a fabric layout

    [api/grpc/scaleupfabricmanager_handlers/handlers_v2/layout_planner.rs]: from
    the discovered inventory, a profile and the requested fabric sizes to the
    members, link targets and controller settings of every fabric.
    [validate_scale_up_fabric_config] of [handlers_v2.rs] is modelled with it. *)

From S2P Require Import Prelude RustStd RustStr FabricLayout.
From Stdlib Require Import Ascii.
Import FabricLayout.
Local Open Scope string_scope.
Local Open Scope list_scope.

Module Planner.
(** ** Messages *)

Record ScaleUpFabricStaticConfig := mkStaticConfig {
  config_file_name : string;
  config_key : string;
  config_value : string;
}.

Record ScaleUpFabricConfig := mkFabricConfig {
  requested_topology : string;
  extra_static_configs : list ScaleUpFabricStaticConfig;
}.

Record ScaleUpFabricSpec := mkSpec {
  spec_computes : N;
  spec_switches : N;
  spec_primary : option string;
}.

Record ScaleUpFabricMembers := mkMembers {
  compute_node_ids : list string;
  switch_node_ids : list string;
  primary_switch_node_id : string;
}.

(** ** Data *)

Record ResolvedPlacement := mkPlacement {
  compute_positions : gset FabricPosition;
  switch_positions : gset FabricPosition;
  placement_links : gmap FabricPosition (gmap string FabricLinkState);
}.

Record FailedPlacementState := mkFailed {
  next_request : nat;
  failed_computes : gset FabricPosition;
  failed_switches : gset FabricPosition;
}.

#[global] Instance FailedPlacementState_dec : EqDecision FailedPlacementState.
Proof. solve_decision. Defined.

Record ObservedPlacement := mkObserved {
  obs_node_id : string;
  obs_node_type : string;
  chassis_serial_number : string;
  position : FabricPosition;
  obs_topology : option string;
}.

Record PlannedFabric := mkPlanned {
  assignment : ScaleUpFabricMembers;
  planned_config : ScaleUpFabricConfig;
  absent_static_configs : gset (string * string);
}.

Record FabricPlan := mkPlan {
  fabrics : list PlannedFabric;
  plan_links : gmap string (gmap string FabricLinkState);
  full_topology : bool;
}.

(** ** The inventory *)

(** The body of the loop over the nodes of one role. *)
Definition check_slot (seen : gset N * gset N) (node : ObservedPlacement)
    : result string (gset N * gset N) :=
  let '(indices, slots) := seen in
  if decide (tray_index (position node) ∈ indices ∨ slot_number (position node) ∈ slots)
  then Err "observed inventory contains duplicate tray indices or shared slots"
  else Ok ({[tray_index (position node)]} ∪ indices, {[slot_number (position node)]} ∪ slots).

Definition validate_inventory (p : FabricLayoutProfile) (switches computes : list ObservedPlacement)
    : result string unit :=
  let serials : gset string := list_to_set (chassis_serial_number <$> switches ++ computes) in
  let ids : gset string := list_to_set (obs_node_id <$> switches ++ computes) in
  if negb (size serials =? 1)%nat || existsb is_blank (elements serials)
     || negb (size ids =? length switches + length computes)%nat
     || existsb is_blank (elements ids)
     || negb (N.of_nat (length switches) =? switch_tray_count p)%N
     || (compute_tray_count p <? N.of_nat (length computes))%N
  then Err ("observed inventory must contain every configured switch, fit within compute " +++
            "capacity, and have unique node IDs in one chassis")
  else
    let? seen := try_fold check_slot (∅, ∅) switches in
    let? _ := try_fold check_slot (∅, seen.2) computes in
    if existsb (fun node =>
         negb (bool_decide (obs_node_type node ∈ switch_node_types p))
         || negb (bool_decide (obs_topology node = Some (physical_topology p)))) switches
       || existsb (fun node =>
            negb (bool_decide (obs_node_type node ∈ compute_node_types p))) computes
    then Err "observed hardware identity does not match the installed fabric profile"
    else Ok tt.

(** ** The controller's settings *)

(** The body of the loop over the entries: the entries trimmed so far and the keys. *)
Definition normalize_entry (st : list ScaleUpFabricStaticConfig * gset (string * string))
    (entry : ScaleUpFabricStaticConfig)
    : result string (list ScaleUpFabricStaticConfig * gset (string * string)) :=
  let '(done, keys) := st in
  let file := trim (config_file_name entry) in
  let key := trim (config_key entry) in
  let value := trim (config_value entry) in
  if String.eqb file "" || String.eqb key ""
  then Err "extra static config file names and keys must be non-empty"
  else if String.eqb file NMX_C_FM_CONFIG_FILE && String.eqb key NMX_C_TOPOLOGY_KEY
  then Err ("extra static config " +++ NMX_C_FM_CONFIG_FILE +++ "/" +++ NMX_C_TOPOLOGY_KEY +++
            " conflicts with config.topology_type")
  else if decide ((file, key) ∈ keys)
  then Err ("duplicate extra static config " +++ file +++ "/" +++ key)
  else Ok (done ++ [mkStaticConfig file key value], {[(file, key)]} ∪ keys).

Definition validate_scale_up_fabric_config (c : ScaleUpFabricConfig)
    : result string ScaleUpFabricConfig :=
  let topology := trim (requested_topology c) in
  if String.eqb topology "" then Err "config.topology_type is required"
  else if String.eqb topology "unknown"
  then Err "config.topology_type must identify a configured topology"
  else
    let? st := try_fold normalize_entry ([], ∅) (extra_static_configs c) in
    Ok (mkFabricConfig topology st.1).

Definition validate_managed_config (c : ScaleUpFabricConfig) : result string ScaleUpFabricConfig :=
  let? c := validate_scale_up_fabric_config c in
  let? _ := validate_static_config_value (requested_topology c) in
  let? _ := for_each (fun entry =>
              let? _ := validate_static_config_key (config_file_name entry) (config_key entry) in
              validate_static_config_value (config_value entry)) (extra_static_configs c) in
  Ok c.

(** [Ord] on a pair of strings, for the iteration of the map of values. *)
Definition pair_le (a b : (string * string) * string) : Prop :=
  if decide (a.1.1 = b.1.1) then String.le a.1.2 b.1.2 else String.le a.1.1 b.1.1.

#[global] Instance pair_le_dec : RelDecision pair_le.
Proof. intros a b. unfold pair_le. case_decide; apply _. Defined.

(** The values to set and the keys to remove. *)
Definition config_targets : Type := gmap (string * string) string * gset (string * string).

(** The body of the loop over the targets of the rule. *)
Definition apply_target (st : config_targets) (t : FabricStaticConfigTarget)
    : result string config_targets :=
  let '(values, absent) := st in
  match target_action t with
  | Set_ value =>
      if match values !! owned_key t with
         | Some supplied => negb (String.eqb supplied value)
         | None => false
         end
      then Err "caller static configuration conflicts with a controller set target"
      else Ok (<[owned_key t := value]> values, absent)
  | Remove =>
      match values !! owned_key t with
      | Some _ => Err "caller static configuration conflicts with a controller removal target"
      | None => Ok (values, {[owned_key t]} ∪ absent)
      end
  end.

Definition find_controller_rule (p : FabricLayoutProfile) (topology : string) (computes switches : N)
    : option FabricControllerRule :=
  find_first (fun f => (fr_compute_tray_count f =? computes)%N
                       && (fr_switch_tray_count f =? switches)%N) (fabric_rules p)
    ≫= fun f => find_first (fun r => String.eqb (topology_type r) topology) (fr_controller_rules f).

Definition resolve_controller_config (p : FabricLayoutProfile) (c : ScaleUpFabricConfig)
    (computes switches : N) : result string (ScaleUpFabricConfig * gset (string * string)) :=
  let? rule := ok_or (find_controller_rule p (requested_topology c) computes switches)
                 "no controller rule matches the requested topology and fabric size" in
  let values := from_pairs ((fun e => ((config_file_name e, config_key e), config_value e))
                              <$> extra_static_configs c) in
  let? st := try_fold apply_target (values, ∅) (static_configs rule) in
  if (1024 <? size st.1)%nat then Err "resolved managed static config targets exceed 1024"
  else Ok (mkFabricConfig (requested_topology c)
             ((fun '((file, key), value) => mkStaticConfig file key value)
                <$> merge_sort pair_le (map_to_list st.1)), st.2).

(** ** Placements *)

(** [Ord] on a [BTreeSet]: the elements in order, compared lexicographically. *)
Fixpoint positions_leb (l k : list FabricPosition) : bool :=
  match l, k with
  | [], _ => true
  | _ :: _, [] => false
  | a :: l, b :: k => if decide (a = b) then positions_leb l k else pos_leb a b
  end.

Definition placement_le (a b : ResolvedPlacement) : Prop :=
  (if decide (switch_positions a = switch_positions b)
   then positions_leb (ordered pos_le (compute_positions a)) (ordered pos_le (compute_positions b))
   else positions_leb (ordered pos_le (switch_positions a)) (ordered pos_le (switch_positions b)))
  = true.

#[global] Instance placement_le_dec : RelDecision placement_le.
Proof. intros a b. unfold placement_le. apply _. Defined.

(** The placements of the groups of one rule. *)
Definition resolve_rule (p : FabricLayoutProfile) (computes switches : gset FabricPosition)
    (placements : list ResolvedPlacement) (r : FabricRule) : result string (list ResolvedPlacement) :=
  match fr_grouping r with
  | None => Ok placements
  | Some grouping =>
      let? groups := resolve_grouping grouping computes switches in
      try_fold (fun placements group =>
        if negb (N.of_nat (size (group_computes group)) =? fr_compute_tray_count r)%N
           || negb (N.of_nat (size (group_switches group)) =? fr_switch_tray_count r)%N
        then Ok placements
        else
          let? links := expand (link_calculation p) (group_computes group) (group_switches group)
                          (dom (full_link_states p)) in
          Ok (placements ++ [mkPlacement (group_computes group) (group_switches group) links]))
        placements groups
  end.

Definition requested_size (requested : list ScaleUpFabricSpec) (r : FabricRule) : bool :=
  existsb (fun s => (spec_computes s =? fr_compute_tray_count r)%N
                    && (spec_switches s =? fr_switch_tray_count r)%N) requested.

Definition resolve_placements (p : FabricLayoutProfile) (switches computes : list ObservedPlacement)
    (requested : list ScaleUpFabricSpec) : result string (list ResolvedPlacement) :=
  let? placements :=
    try_fold (resolve_rule p (list_to_set (position <$> computes)) (list_to_set (position <$> switches)))
      [] (List.filter (requested_size requested) (fabric_rules p)) in
  Ok (merge_sort placement_le placements).

(** The switch with this ID, if it was discovered, is in the placement. *)
Definition holds_switch (where_ : gmap string FabricPosition) (pl : ResolvedPlacement) (id : string)
    : bool :=
  match where_ !! id with
  | Some position => bool_decide (position ∈ switch_positions pl)
  | None => false
  end.

Definition matches_spec (requested : list ScaleUpFabricSpec) (where_ : gmap string FabricPosition)
    (index : nat) (spec : ScaleUpFabricSpec) (pl : ResolvedPlacement) : bool :=
  if negb (N.of_nat (size (compute_positions pl)) =? spec_computes spec)%N
     || negb (N.of_nat (size (switch_positions pl)) =? spec_switches spec)%N
  then false
  else if match spec_primary spec with
          | Some id => negb (holds_switch where_ pl id)
          | None => false
          end
  then false
  else negb (existsb (fun '(other_index, other) =>
               negb (other_index =? index)%nat
               && match spec_primary other with
                  | Some id => holds_switch where_ pl id
                  | None => false
                  end) (enumerate requested)).

Definition matching_placements (placements : list ResolvedPlacement)
    (requested : list ScaleUpFabricSpec) (where_ : gmap string FabricPosition)
    : list (list ResolvedPlacement) :=
  (fun '(index, spec) => List.filter (matches_spec requested where_ index spec) placements)
    <$> enumerate requested.

(** The positions taken by the placements selected so far. *)
Definition occupied (f : ResolvedPlacement → gset FabricPosition) (selected : list ResolvedPlacement)
    : gset FabricPosition := ⋃ (f <$> selected).

(** The recursion indexes [candidates] with [selected.len()]; [rest] is what it
    has not used.  The result is the selection or [None], and the failure cache. *)
Fixpoint select_placements (rest : list (list ResolvedPlacement)) (selected : list ResolvedPlacement)
    (failed : list FailedPlacementState)
    : option (list ResolvedPlacement) * list FailedPlacementState :=
  match rest with
  | [] => (Some selected, failed)
  | options :: rest' =>
      if existsb (fun o => bool_decide (length o = 0)) rest then (None, failed)
      else
        let state := mkFailed (length selected) (occupied compute_positions selected)
                       (occupied switch_positions selected) in
        if contains failed state then (None, failed)
        else
          (fix try options failed :=
             match options with
             | [] => (None, state :: failed)
             | placement :: options =>
                 if negb (bool_decide (compute_positions placement ## failed_computes state))
                    || negb (bool_decide (switch_positions placement ## failed_switches state))
                 then try options failed
                 else match select_placements rest' (selected ++ [placement]) failed with
                      | (Some result, failed) => (Some result, failed)
                      | (None, failed) => try options failed
                      end
             end) options failed
  end.

(** ** Plans *)

Definition node_le (a b : ObservedPlacement) : Prop := pos_le (position a) (position b).

#[global] Instance node_le_dec : RelDecision node_le.
Proof. intros a b. unfold node_le. apply _. Defined.

(** [sort_by_key(|node| node.position)]. *)
Definition by_position (nodes : list ObservedPlacement) : list ObservedPlacement :=
  merge_sort node_le nodes.

Definition plan_full_rack (p : FabricLayoutProfile) (switches computes : list ObservedPlacement)
    (requested_config : ScaleUpFabricConfig) (preferred_primary : option string)
    : result string FabricPlan :=
  if negb (bool_decide (computes = []))
     && negb (N.of_nat (length computes) =? compute_tray_count p)%N
  then Err "full-topology compute inventory must be complete when supplied"
  else
    let? config := validate_managed_config requested_config in
    let? resolved := resolve_controller_config p config (compute_tray_count p) (switch_tray_count p) in
    let ordered := by_position switches in
    let? primary :=
      match preferred_primary with
      | Some id =>
          if existsb (fun node => String.eqb (obs_node_id node) id) ordered then Ok id
          else Err "preferred primary is absent from the supplied switch inventory"
      | None => ok_or (obs_node_id <$> head ordered) "full-inventory restoration has no switch"
      end in
    let links := from_pairs ((fun node => (obs_node_id node, full_link_states p)) <$> ordered) in
    Ok (mkPlan [mkPlanned (mkMembers (obs_node_id <$> by_position computes)
                             (obs_node_id <$> ordered) primary) resolved.1 resolved.2]
          links true).

(** The counts that remain after each request. *)
Definition subtract_spec (remaining : N * N) (spec : ScaleUpFabricSpec) : result string (N * N) :=
  let '(computes, switches) := remaining in
  if (computes <? spec_computes spec)%N
  then Err "requested fabric compute count exceeds supplied inventory"
  else if (switches <? spec_switches spec)%N
  then Err "requested fabric switch count exceeds supplied inventory"
  else Ok (computes - spec_computes spec, switches - spec_switches spec)%N.

Definition members_at (where_ : gset FabricPosition) (nodes : list ObservedPlacement)
    : list ObservedPlacement :=
  by_position (filter (fun node => position node ∈ where_) nodes).

(** Link targets of a placement, filed under the IDs of its switches. *)
Definition add_link (members : list ObservedPlacement)
    (links : gmap string (gmap string FabricLinkState))
    (target : FabricPosition * gmap string FabricLinkState)
    : result string (gmap string (gmap string FabricLinkState)) :=
  let? node := ok_or (find_first (fun node => bool_decide (position node = target.1)) members)
                 "private link target has no discovered switch" in
  Ok (<[obs_node_id node := target.2]> links).

Definition pos_key_le {A} (a b : FabricPosition * A) : Prop := pos_le a.1 b.1.

#[global] Instance pos_key_le_dec {A} : RelDecision (@pos_key_le A).
Proof. intros a b. unfold pos_key_le. apply _. Defined.

(** The body of the loop over the requests and their placements. *)
Definition plan_fabric (p : FabricLayoutProfile) (switches computes : list ObservedPlacement)
    (config : ScaleUpFabricConfig)
    (st : list PlannedFabric * gmap string (gmap string FabricLinkState))
    (request : ScaleUpFabricSpec * ResolvedPlacement)
    : result string (list PlannedFabric * gmap string (gmap string FabricLinkState)) :=
  let '(fabrics, links) := st in
  let '(spec, placement) := request in
  let? resolved := resolve_controller_config p config (spec_computes spec) (spec_switches spec) in
  let switch_members := members_at (switch_positions placement) switches in
  let? primary :=
    match spec_primary spec with
    | Some id => Ok id
    | None => ok_or (obs_node_id <$> head switch_members) "resolved fabric has no primary candidate"
    end in
  let? links := try_fold (add_link switch_members) links
                  (merge_sort pos_key_le (map_to_list (placement_links placement))) in
  let compute_members := members_at (compute_positions placement) computes in
  Ok (fabrics ++ [mkPlanned (mkMembers (obs_node_id <$> compute_members)
                               (obs_node_id <$> switch_members) primary) resolved.1 resolved.2],
      links).

Definition is_full_request (p : FabricLayoutProfile) (requested : list ScaleUpFabricSpec)
    : option ScaleUpFabricSpec :=
  match requested with
  | [spec] =>
      if (spec_computes spec =? compute_tray_count p)%N && (spec_switches spec =? switch_tray_count p)%N
      then Some spec else None
  | _ => None
  end.

(** Every switch with every controlled interface down. *)
Definition isolated (p : FabricLayoutProfile) (switches : list ObservedPlacement)
    : gmap string (gmap string FabricLinkState) :=
  from_pairs ((fun node => (obs_node_id node, gset_to_gmap Down (dom (full_link_states p))))
                <$> switches).

Definition plan_layout (p : FabricLayoutProfile) (switches computes : list ObservedPlacement)
    (requested : list ScaleUpFabricSpec) (requested_config : ScaleUpFabricConfig)
    : result string FabricPlan :=
  let? _ := validate_profile p in
  let? _ := validate_inventory p switches computes in
  match is_full_request p requested with
  | Some spec => plan_full_rack p switches computes requested_config (spec_primary spec)
  | None =>
      if bool_decide (requested = []) || bool_decide (computes = [])
      then Err "smaller fabric layouts require compute inventory and nonempty fabrics"
      else
        let? config := validate_managed_config requested_config in
        let? _ := try_fold subtract_spec
                    (N.of_nat (length computes), N.of_nat (length switches)) requested in
        let where_ := from_pairs ((fun node => (obs_node_id node, position node)) <$> switches) in
        let? placements := resolve_placements p switches computes requested in
        match (select_placements (matching_placements placements requested where_) [] []).1 with
        | None => Err "requested fabric memberships have no supported disjoint placement"
        | Some selected =>
            let? st := try_fold (plan_fabric p switches computes config) ([], isolated p switches)
                         (zip requested selected) in
            Ok (mkPlan st.1 st.2 false)
        end
  end.
End Planner.
