(* ===== verification/FabricControllerTheorems.v ===== *)
(** * Theorems on the controller settings of a layout

    A valid profile gives every rule the same owned keys and every topology a
    full-capacity rule; the settings planned for a fabric are the caller's, with
    exactly the owned keys set or removed. *)

From S2P Require Import Prelude RustStd RustStr FabricLayout FabricPlanner FabricLayoutTheorems.
Import FabricLayout Planner.
Local Open Scope string_scope.
Local Open Scope list_scope.

Implicit Types (p : FabricLayoutProfile) (f : FabricRule) (r rule : FabricControllerRule).

(** ** Valid controller rules *)

Definition rule_keys r : list (string * string) := owned_key <$> static_configs r.

Lemma check_targets_keys location r keys :
  try_fold (check_target location) ∅ (enumerate (static_configs r)) = Ok keys →
  NoDup (rule_keys r) ∧ keys = list_to_set (rule_keys r).
Proof.
  unfold rule_keys. rewrite <- (enumerate_snd (static_configs r)) at 2 3.
  apply (try_fold_ind _ (fun don keys => NoDup (owned_key <$> don.*2) ∧
    keys = list_to_set (owned_key <$> don.*2))); [by split; [constructor|]|].
  intros don [i t] b b' _ [Hd ->] H. unfold check_target in H. bind_ok H. injection H as <-.
  rewrite !fmap_app. simpl. rewrite elem_of_list_to_set in Hnew. split.
  - apply NoDup_app. split_and!; [done| |apply NoDup_singleton]. by intros k Hk ->%list_elem_of_singleton.
  - rewrite list_to_set_app_L. simpl. set_solver.
Qed.

(** What the loop over the controller rules has established of the rules [don]. *)
Record rules_checked (full : N * N) (managed : gset (string * string)) (don : list located_rule)
    (s : rules_seen) : Prop := {
  rc_keys : ∀ i j f r, (i, j, f, r) ∈ don →
    NoDup (rule_keys r) ∧ list_to_set (rule_keys r) = managed;
  rc_topologies : ∀ i j f r, (i, j, f, r) ∈ don → topology_type r ∈ topologies s;
  rc_restoration : ∀ t, t ∈ restoration_topologies s →
    ∃ i j f r, (i, j, f, r) ∈ don ∧ topology_type r = t ∧ rule_size f = full;
}.

Lemma check_rule_checked full managed don l s s' :
  rules_checked full managed don s → check_controller_rule full managed s l = Ok s' →
  rules_checked full managed (don ++ [l]) s'.
Proof.
  intros [Hk Ht Hr] H. destruct l as [[[i j] f] r]. unfold check_controller_rule in H.
  bind_ok H. injection H as <-. apply check_targets_keys in E0 as [Hd ->].
  apply negb_false_iff, bool_decide_eq_true in E1. split; simpl.
  - intros i' j' f' r' [Hin|[= -> -> -> ->]%list_elem_of_singleton]%elem_of_app; [by eapply Hk|done].
  - intros i' j' f' r' [Hin|[= -> -> -> ->]%list_elem_of_singleton]%elem_of_app; [|set_solver].
    apply Ht in Hin. set_solver.
  - intros t Hin. assert (t ∈ restoration_topologies s ∨ t = topology_type r ∧ rule_size f = full)
      as [(i' & j' & f' & r' & ? & ? & ?)%Hr|[-> Hf]].
    { case_bool_decide; set_solver. }
    + exists i', j', f', r'. set_solver.
    + exists i, j, f, r. set_solver.
Qed.

Lemma elem_of_located p f r :
  (∃ i j, (i, j, f, r) ∈ located_rules p) ↔ f ∈ fabric_rules p ∧ r ∈ fr_controller_rules f.
Proof.
  unfold located_rules. split.
  - intros (i & j & ([i' f'] & Hin & Hf)%list_elem_of_bind).
    apply list_elem_of_fmap in Hin as ([j' r'] & [= -> -> -> ->] & Hr).
    apply elem_of_enumerate, list_elem_of_lookup_2 in Hf. by apply elem_of_enumerate, list_elem_of_lookup_2 in Hr.
  - intros [[i Hi]%list_elem_of_lookup [j Hj]%list_elem_of_lookup]. exists i, j.
    apply list_elem_of_bind. exists (i, f). split; [|by apply elem_of_enumerate].
    apply list_elem_of_fmap. exists (j, r). split; [done|]. by apply elem_of_enumerate.
Qed.

(** A rule of the profile. *)
Definition rule_of p f r : Prop := f ∈ fabric_rules p ∧ r ∈ fr_controller_rules f.

Record controllers_ok p : Prop := {
  co_keys : ∀ f r, rule_of p f r → NoDup (rule_keys r);
  co_same : ∀ f r f' r', rule_of p f r → rule_of p f' r' →
    (list_to_set (rule_keys r) : gset (string * string)) = list_to_set (rule_keys r');
  co_restore : ∀ f r, rule_of p f r →
    ∃ f' r', rule_of p f' r' ∧ topology_type r' = topology_type r ∧ rule_size f' = full_size p;
}.

Lemma validate_controllers_ok p : validate_controller_rules p = Ok tt → controllers_ok p.
Proof.
  unfold validate_controller_rules. case_bool_decide as En.
  { intros _. assert (∀ f r, ¬ rule_of p f r) as Hno.
    { intros f r (i & j & Hin)%elem_of_located. rewrite En in Hin. by apply not_elem_of_nil in Hin. }
    split; intros; exfalso; by eapply Hno. }
  destruct (list_find _ _) as [[]|]; [done|]. intros H. bind_ok H.
  apply negb_false_iff, bool_decide_eq_true in E2.
  match type of E1 with try_fold (check_controller_rule _ ?keys) _ _ = _ =>
    apply (try_fold_ind _ (rules_checked (full_size p) keys)) in E1
  end.
  - destruct E1 as [Hk Ht Hr]. split.
    + intros f r (i & j & Hin)%elem_of_located. by apply Hk in Hin as [? _].
    + intros f r f' r' (i & j & Hin)%elem_of_located (i' & j' & Hin')%elem_of_located.
      apply Hk in Hin as [_ ->]. by apply Hk in Hin' as [_ ->].
    + intros f r (i & j & Hin)%elem_of_located. apply Ht in Hin. rewrite E2 in Hin.
      apply Hr in Hin as (i' & j' & f' & r' & Hin & Htt & Hs). exists f', r'. split_and!; [|done..].
      apply elem_of_located. by exists i', j'.
  - split; simpl; [by intros ???? ?%not_elem_of_nil..|set_solver].
  - intros don x b b' _. apply check_rule_checked.
Qed.

(** ** Valid profiles *)

Record sizes_ok p : Prop := {
  so_unique : NoDup (rule_size <$> fabric_rules p);
  so_full : full_size p ∈ rule_size <$> fabric_rules p;
  so_positive : ∀ f, f ∈ fabric_rules p →
    (0 < fr_compute_tray_count f ∧ 0 < fr_switch_tray_count f)%N;
  so_grouping : ∀ f, f ∈ fabric_rules p → fr_grouping f = None ↔ rule_size f = full_size p;
}.

Lemma check_sizes p sizes :
  try_fold (check_fabric_rule p) ∅ (fabric_rules p) = Ok sizes → full_size p ∈ sizes → sizes_ok p.
Proof.
  intros H Hf.
  assert (sizes = list_to_set (rule_size <$> fabric_rules p) ∧ NoDup (rule_size <$> fabric_rules p) ∧
    ∀ f, f ∈ fabric_rules p → (0 < fr_compute_tray_count f ∧ 0 < fr_switch_tray_count f)%N ∧
      (fr_grouping f = None ↔ rule_size f = full_size p)) as (-> & Hd & Hall).
  { revert H. apply (try_fold_ind _ (fun don s => s = list_to_set (rule_size <$> don) ∧
      NoDup (rule_size <$> don) ∧ ∀ f, f ∈ don →
      (0 < fr_compute_tray_count f ∧ 0 < fr_switch_tray_count f)%N ∧
      (fr_grouping f = None ↔ rule_size f = full_size p))).
    { split_and!; [done|constructor|]. by intros f ?%not_elem_of_nil. }
    intros don f b b' _ (-> & Hd & Hall) H. unfold check_fabric_rule in H. bind_ok H. injection H as <-.
    reflect_nums. rewrite elem_of_list_to_set in *. rewrite fmap_app. simpl. split_and!.
    - rewrite list_to_set_app_L. simpl. set_solver.
    - apply NoDup_app. split_and!; [done| |apply NoDup_singleton]. by intros k Hk ->%list_elem_of_singleton.
    - intros g [Hg| ->%list_elem_of_singleton]%elem_of_app; [by apply Hall|]. split; [lia|].
      revert E0. case_bool_decide; destruct (fr_grouping f); naive_solver. }
  split; [done|by apply elem_of_list_to_set in Hf|by apply Hall..].
Qed.

Lemma validate_profile_ok p : validate_profile p = Ok tt → sizes_ok p ∧ controllers_ok p.
Proof.
  unfold validate_profile. intros H. bind_ok H. apply negb_false_iff, bool_decide_eq_true in E4.
  split; [by eapply check_sizes|by apply validate_controllers_ok].
Qed.

(** ** Look-up of the rule *)

Lemma find_controller_spec p topology computes switches r :
  find_controller_rule p topology computes switches = Some r →
  ∃ f, rule_of p f r ∧ rule_size f = (computes, switches) ∧ topology_type r = topology.
Proof.
  unfold find_controller_rule. intros (f & [Hf Hs]%find_first_Some & [Hr Ht]%find_first_Some)%bind_Some.
  exists f. reflect_nums. split_and!; [done| |by apply String.eqb_eq].
  unfold rule_size. congruence.
Qed.

Lemma find_controller_some p f r :
  sizes_ok p → rule_of p f r →
  is_Some (find_controller_rule p (topology_type r) (fr_compute_tray_count f) (fr_switch_tray_count f)).
Proof.
  intros Hs [Hf Hr]. unfold find_controller_rule.
  destruct (find_first _ (fabric_rules p)) as [g|] eqn:E.
  - apply find_first_Some in E as [Hg E]. reflect_nums.
    assert (g = f) as ->.
    { eapply (NoDup_fmap_inj rule_size); [apply Hs|done..|]. unfold rule_size. congruence. }
    simpl. destruct (find_first _ (fr_controller_rules f)) as [r'|] eqn:E'; [by eexists|].
    rewrite find_first_None in E'. specialize (E' r Hr). by rewrite String.eqb_refl in E'.
  - rewrite find_first_None in E. specialize (E f Hf). by rewrite !N.eqb_refl in E.
Qed.

(** ** The settings planned *)

Definition config_pair (e : ScaleUpFabricStaticConfig) : (string * string) * string :=
  ((config_file_name e, config_key e), config_value e).

(** The settings of a configuration; of two entries for one key the later counts. *)
Definition config_map (c : ScaleUpFabricConfig) : gmap (string * string) string :=
  from_pairs (config_pair <$> extra_static_configs c).

Definition target_met (before after : gmap (string * string) string) (absent : gset (string * string))
    (t : FabricStaticConfigTarget) : Prop :=
  match target_action t with
  | Set_ v => after !! owned_key t = Some v ∧ (before !! owned_key t = None ∨ before !! owned_key t = Some v) ∧
              (owned_key t ∉ absent)
  | Remove => after !! owned_key t = None ∧ before !! owned_key t = None ∧ owned_key t ∈ absent
  end.

Record targets_met (before after : gmap (string * string) string) (absent : gset (string * string))
    (ts : list FabricStaticConfigTarget) : Prop := {
  tm_owned : ∀ t, t ∈ ts → target_met before after absent t;
  tm_others : ∀ k, k ∉ owned_key <$> ts → after !! k = before !! k ∧ k ∉ absent;
}.

Lemma apply_targets_met ts before st :
  NoDup (owned_key <$> ts) → try_fold apply_target (before, ∅) ts = Ok st →
  targets_met before st.1 st.2 ts.
Proof.
  intros Hd H. revert Hd. revert H. apply (try_fold_ind _ (fun don st => NoDup (owned_key <$> don) →
    targets_met before st.1 st.2 don)).
  { intros _. split; simpl; [by intros ? ?%not_elem_of_nil|set_solver]. }
  intros don t [values absent] st' _ IH H. rewrite fmap_app. simpl.
  intros (Hd & Hnew & _)%NoDup_app. destruct (IH Hd) as [Ho Hx]. simpl in Ho, Hx. clear IH.
  assert (owned_key t ∉ owned_key <$> don) as Ht by (intros Hin; by apply (Hnew _ Hin), list_elem_of_singleton).
  assert (∀ t', t' ∈ don → owned_key t' ≠ owned_key t) as Hne.
  { intros t' Hin E. apply Ht. rewrite <- E. by apply list_elem_of_fmap_2. }
  destruct (Hx _ Ht) as [Hv Ha]. unfold apply_target in H.
  destruct (target_action t) as [v|] eqn:Et.
  - destruct (match values !! owned_key t with Some _ => _ | None => _ end) eqn:Ec; [done|].
    injection H as <-. split; simpl.
    + intros t' [Hin| ->%list_elem_of_singleton]%elem_of_app.
      * specialize (Ho t' Hin). specialize (Hne t' Hin). unfold target_met in *.
        by rewrite !lookup_insert_ne by done.
      * unfold target_met. rewrite Et, lookup_insert_eq. split_and!; [done| |done]. rewrite <- Hv.
        destruct (values !! owned_key t) as [w|]; [right|by left].
        apply negb_false_iff, String.eqb_eq in Ec. by subst.
    + intros k Hk. rewrite fmap_app, not_elem_of_app in Hk. destruct Hk as [Hk1 Hk2].
      rewrite lookup_insert_ne; [by apply Hx|]. intros <-. apply Hk2. simpl. left.
  - destruct (values !! owned_key t) eqn:Ev; [done|]. injection H as <-. split; simpl.
    + intros t' [Hin| ->%list_elem_of_singleton]%elem_of_app.
      * specialize (Ho t' Hin). specialize (Hne t' Hin). unfold target_met in *. case_match; set_solver.
      * unfold target_met. rewrite Et, <- Hv, Ev. set_solver.
    + intros k Hk. rewrite fmap_app, not_elem_of_app in Hk. destruct Hk as [Hk1 Hk2].
      destruct (Hx k Hk1). split; [done|]. simpl in Hk2. set_solver.
Qed.

Lemma config_of_values (topology : string) (m : gmap (string * string) string) :
  let c := mkFabricConfig topology ((fun '((file, key), value) => mkStaticConfig file key value)
             <$> merge_sort pair_le (map_to_list m)) in
  config_map c = m ∧ NoDup (config_pair <$> extra_static_configs c).*1.
Proof.
  intros c. assert (config_pair <$> extra_static_configs c = merge_sort pair_le (map_to_list m)) as E.
  { simpl. rewrite <- list_fmap_compose. rewrite <- (list_fmap_id (merge_sort _ _)) at 2.
    apply list_fmap_ext. by intros _ [[] ?] _. }
  assert (NoDup (merge_sort pair_le (map_to_list m)).*1) as Hd.
  { rewrite (merge_sort_Permutation pair_le). apply NoDup_fst_map_to_list. }
  unfold config_map. rewrite E. split; [|done]. rewrite from_pairs_nodup by done.
  rewrite <- (list_to_map_to_list m) at 2. apply list_to_map_proper; [done|].
  apply merge_sort_Permutation.
Qed.

(** The controller settings planned for a fabric are exact: they follow the
    rule of that size and topology; each of its keys is set to its value or is
    listed as absent, never against a value the caller gave; all other settings
    of the caller are kept.  The keys are the same for every rule of the profile,
    so no setting of an earlier layout survives, and the full rack can always be
    restored for the same topology. *)
Theorem controller_config_exact p c computes switches c' absent :
  validate_profile p = Ok tt →
  resolve_controller_config p c computes switches = Ok (c', absent) →
  requested_topology c' = requested_topology c ∧
  NoDup (config_pair <$> extra_static_configs c').*1 ∧
  (∃ rule, find_controller_rule p (requested_topology c) computes switches = Some rule ∧
     targets_met (config_map c) (config_map c') absent (static_configs rule)) ∧
  (∀ f r k, rule_of p f r → k ∈ rule_keys r →
     k ∈ absent ∧ config_map c' !! k = None ∨ (k ∉ absent) ∧ is_Some (config_map c' !! k)) ∧
  is_Some (find_controller_rule p (requested_topology c) (compute_tray_count p) (switch_tray_count p)).
Proof.
  intros [Hsz Hco]%validate_profile_ok. unfold resolve_controller_config. intros H. bind_ok H.
  rename a into rule. destruct (find_controller_rule _ _ _ _) as [r|] eqn:Er; [|done].
  injection E as ->. injection H as <- <-.
  destruct (config_of_values (requested_topology c) a0.1) as [Em Hd].
  destruct (find_controller_spec _ _ _ _ _ Er) as (f & Hr & _ & Ht).
  pose proof (apply_targets_met _ _ _ (co_keys _ Hco _ _ Hr) E0) as Hm.
  split_and!; [done|done|exists rule; split; [done|by rewrite Em]|..].
  - intros f' r' k Hr' Hk. rewrite Em. assert (k ∈ rule_keys rule) as (t & -> & Hin)%list_elem_of_fmap.
    { apply (elem_of_list_to_set (C := gset (string * string))).
      rewrite (co_same _ Hco _ _ _ _ Hr Hr'). by apply elem_of_list_to_set. }
    apply (tm_owned _ _ _ _ Hm) in Hin. unfold target_met in Hin.
    destruct (target_action t); [right|left]; naive_solver.
  - destruct (co_restore _ Hco _ _ Hr) as (f' & r' & Hr' & Ht' & Hs').
    pose proof (find_controller_some _ _ _ Hsz Hr') as Hsome. rewrite Ht', Ht in Hsome.
    unfold rule_size, full_size in Hs'. by injection Hs' as <- <-.
Qed.

Lemma controller_config_exact_witness :
  let c := mkFabricConfig "t" [mkStaticConfig "fm_config" "OTHER" "1"] in
  ∃ c' absent, resolve_controller_config example_profile c 1 1 = Ok (c', absent) ∧
    requested_topology c' = "t".
Proof.
  intros c. assert (validate_profile example_profile = Ok tt) as Hv by (vm_compute; reflexivity).
  assert (is_ok (resolve_controller_config example_profile c 1 1) = true) as Hok by (vm_compute; reflexivity).
  destruct (resolve_controller_config example_profile c 1 1) as [[c' absent]|] eqn:E; [|discriminate Hok].
  exists c', absent. split; [reflexivity|]. exact (proj1 (controller_config_exact _ _ _ _ _ _ Hv E)).
Defined.
