(* ===== verification/FabricSearchTheorems.v ===== *)
(** * The search for disjoint placements

    [select_placements] backtracks with a cache of failed states and cuts off
    when a request has no candidate.  It is shown equal to a plain backtracking
    search, and that one to the first disjoint element of the product of the
    candidate lists. *)

From S2P Require Import Prelude RustStd FabricLayout FabricPlanner.
Import FabricLayout Planner.
Local Open Scope list_scope.

Implicit Types (p q : ResolvedPlacement) (l k selected : list ResolvedPlacement).
Implicit Types (c s : gset FabricPosition) (rest candidates : list (list ResolvedPlacement)).

(** ** Reference definitions *)

(** All choices of one candidate per request, those of the first request
    varying slowest. *)
Fixpoint assignments candidates : list (list ResolvedPlacement) :=
  match candidates with
  | [] => [[]]
  | options :: rest => options ≫= fun p => cons p <$> assignments rest
  end.

Definition apart p q : Prop :=
  compute_positions p ## compute_positions q ∧ switch_positions p ## switch_positions q.

(** No two of the placements share a tray. *)
Definition no_overlap l : Prop :=
  ∀ i j p q, i < j → l !! i = Some p → l !! j = Some q → apart p q.

(** Plain backtracking, with the trays in use. *)
Definition free c s p : bool :=
  bool_decide (compute_positions p ## c) && bool_decide (switch_positions p ## s).

Fixpoint search rest c s : option (list ResolvedPlacement) :=
  match rest with
  | [] => Some []
  | options :: rest =>
      find_map (fun p =>
        if free c s p
        then cons p <$> search rest (c ∪ compute_positions p) (s ∪ switch_positions p)
        else None) options
  end.

(** ** Plain backtracking finds the first disjoint choice *)

Fixpoint fits c s l : bool :=
  match l with
  | [] => true
  | p :: l => free c s p && fits (c ∪ compute_positions p) (s ∪ switch_positions p) l
  end.

Lemma search_first rest c s : search rest c s = find_first (fits c s) (assignments rest).
Proof.
  revert c s. induction rest as [|options rest IH]; intros c s; [done|].
  cbn [search assignments]. rewrite find_first_bind. apply find_map_ext. intros p.
  rewrite find_first_fmap, IH. simpl. destruct (free c s p); simpl; [done|].
  assert (find_first (fun _ => false) (assignments rest) = None) as ->; [|done].
  apply find_first_None. done.
Qed.

Lemma fits_spec c s l :
  fits c s l = true ↔ no_overlap l ∧
    ∀ p, p ∈ l → compute_positions p ## c ∧ switch_positions p ## s.
Proof.
  revert c s. induction l as [|p l IH]; intros c s; simpl.
  { split; [|done]. intros _. split; [by intros [|i]|]. by intros p ?%not_elem_of_nil. }
  unfold free. rewrite !andb_true_iff, !bool_decide_eq_true, IH. split.
  - intros ([Hc Hs] & Hl & Hin). split.
    + intros [|i] [|j] a b Hij Ha Hb; simpl in *; try lia.
      * injection Ha as ->. apply list_elem_of_lookup_2, Hin in Hb. unfold apart. set_solver.
      * eapply Hl; [|done..]. lia.
    + intros q [->|Hq]%elem_of_cons; [done|]. apply Hin in Hq. set_solver.
  - intros [Hl Hin]. split_and!.
    + apply Hin. left.
    + apply Hin. left.
    + intros i j a b Hij Ha Hb. apply (Hl (S i) (S j)); [lia|done..].
    + intros q Hq. destruct (Hin q) as [Hc Hs]; [by right|].
      apply list_elem_of_lookup in Hq as [i Hi].
      destruct (Hl 0 (S i) p q) as [H1 H2]; [lia|done..|]. set_solver.
Qed.

(** ** The cache and the cut-off change nothing *)

(** Every cached state has no completion. *)
Definition cache_ok candidates (failed : list FailedPlacementState) : Prop :=
  ∀ st, st ∈ failed →
    search (drop (next_request st) candidates) (failed_computes st) (failed_switches st) = None.

Lemma occupied_snoc f selected p : occupied f (selected ++ [p]) = occupied f selected ∪ f p.
Proof.
  unfold occupied. rewrite fmap_app, union_list_app_L. simpl. by rewrite (right_id_L ∅ (∪)).
Qed.

Lemma search_cut_off rest c s :
  existsb (fun o : list ResolvedPlacement => bool_decide (length o = 0)) rest = true →
  search rest c s = None.
Proof.
  revert c s. induction rest as [|o rest IH]; intros c s; simpl; [done|].
  intros [H|H]%orb_true_iff.
  - apply bool_decide_eq_true, nil_length_inv in H as ->. done.
  - apply find_map_None. intros p _. destruct (free c s p); [|done]. by rewrite IH.
Qed.

(** What a call returns, for the part [rest] of the candidates that is left. *)
Definition returns candidates rest selected
    (r : option (list ResolvedPlacement) * list FailedPlacementState) : Prop :=
  r.1 = app selected <$>
    search rest (occupied compute_positions selected) (occupied switch_positions selected) ∧
  cache_ok candidates r.2.

(** The loop over the options of a request. *)
Section options.
Context (again : list ResolvedPlacement → list FailedPlacementState →
  option (list ResolvedPlacement) * list FailedPlacementState).
Context (state : FailedPlacementState) (selected : list ResolvedPlacement).

Fixpoint try_options (options : list ResolvedPlacement) (failed : list FailedPlacementState)
    : option (list ResolvedPlacement) * list FailedPlacementState :=
  match options with
  | [] => (None, state :: failed)
  | p :: options =>
      if negb (bool_decide (compute_positions p ## failed_computes state))
         || negb (bool_decide (switch_positions p ## failed_switches state))
      then try_options options failed
      else match again (selected ++ [p]) failed with
           | (Some result, failed) => (Some result, failed)
           | (None, failed) => try_options options failed
           end
  end.
End options.

Lemma try_options_returns candidates rest selected failed options tried again :
  let c := occupied compute_positions selected in
  let s := occupied switch_positions selected in
  drop (length selected) candidates = (tried ++ options) :: rest →
  search (tried :: rest) c s = None →
  cache_ok candidates failed →
  (∀ p failed, cache_ok candidates failed →
     returns candidates rest (selected ++ [p]) (again (selected ++ [p]) failed)) →
  returns candidates ((tried ++ options) :: rest) selected
    (try_options again (mkFailed (length selected) c s) selected options failed).
Proof.
  intros c s. revert tried failed.
  induction options as [|p options IH]; intros tried failed Hd Ht Hf Hagain; cbn [try_options].
  - rewrite app_nil_r in *. split; [by fold c s; rewrite Ht|].
    intros st [->|Hst]%elem_of_cons; [|by apply Hf]. cbn [next_request failed_computes failed_switches].
    by rewrite Hd.
  - cbn [failed_computes failed_switches]. rewrite <- negb_andb. fold (free c s p).
    assert (∀ r, (if free c s p
        then cons p <$> search rest (c ∪ compute_positions p) (s ∪ switch_positions p)
        else None) = r → search ((tried ++ [p]) :: rest) c s = r) as Hp.
    { intros r <-. cbn [search] in *. rewrite find_map_app, Ht. simpl. by destruct (if free c s p then _ else _). }
    rewrite (cons_middle p tried options), app_assoc in *.
    destruct (free c s p) eqn:Efree; simpl; [|by apply IH; auto].
    destruct (Hagain p failed Hf) as [Hres Hcache].
    destruct (again (selected ++ [p]) failed) as [res failed']. simpl in Hres, Hcache.
    rewrite !occupied_snoc in Hres. fold c s in Hres.
    destruct (search rest _ _) as [l|] eqn:El; simpl in Hres; subst res.
    + split; [|done]. fold c s. cbn [search]. rewrite find_map_app.
      specialize (Hp _ eq_refl). cbn [search fmap option_fmap option_map] in Hp. rewrite Hp. simpl.
      by rewrite <- app_assoc.
    + apply IH; auto.
Qed.

Lemma select_returns candidates rest selected failed :
  rest = drop (length selected) candidates → cache_ok candidates failed →
  returns candidates rest selected (select_placements rest selected failed).
Proof.
  revert selected failed. induction rest as [|options rest IH]; intros selected failed Hr Hf.
  { split; [|done]. simpl. by rewrite app_nil_r. }
  cbn [select_placements]. destruct (existsb _ _) eqn:Hcut.
  { split; [|done]. by rewrite (search_cut_off _ _ _ Hcut). }
  set (c := occupied compute_positions selected). set (s := occupied switch_positions selected).
  destruct (contains failed (mkFailed (length selected) c s)) eqn:Hin.
  { apply bool_decide_eq_true in Hin. split; [|done]. apply Hf in Hin. simpl in Hin.
    fold c s. by rewrite Hr, Hin. }
  apply (try_options_returns candidates rest selected failed options []); try done.
  intros p failed' Hf'. apply IH; [|done]. rewrite length_app. simpl.
  rewrite <- drop_drop, <- Hr. done.
Qed.

Lemma assignments_elem candidates l :
  l ∈ assignments candidates → Forall2 (fun p options => p ∈ options) l candidates.
Proof.
  revert l. induction candidates as [|options rest IH]; simpl; intros l.
  - intros ->%list_elem_of_singleton. constructor.
  - intros (p & (k & -> & Hk)%list_elem_of_fmap & Hp)%list_elem_of_bind. constructor; auto.
Qed.

(** What is selected is one candidate per request, and no two share a tray. *)
Lemma select_sound candidates l :
  (select_placements candidates [] []).1 = Some l →
  Forall2 (fun p options => p ∈ options) l candidates ∧ no_overlap l.
Proof.
  destruct (select_returns candidates candidates [] []) as [-> _]; [done|by intros ? ?%not_elem_of_nil|].
  rewrite search_first. destruct (find_first _ _) as [k|] eqn:E; simpl; [|done]. intros [= <-].
  apply find_first_Some in E as [Hk [? _]%fits_spec]. split; [by apply assignments_elem|done].
Qed.

(** C24. The search for disjoint fabrics is exact: it returns the first choice of
    one candidate per request, in the order of the candidates, in which no two
    fabrics share a tray, and fails only when there is none; the cache of failed
    states and the early cut-off never change the answer. *)
Theorem selection_exact candidates :
  match (select_placements candidates [] []).1 with
  | Some l => ∃ before after, assignments candidates = before ++ l :: after ∧ no_overlap l ∧
      ∀ k, k ∈ before → ¬ no_overlap k
  | None => ∀ k, k ∈ assignments candidates → ¬ no_overlap k
  end.
Proof.
  destruct (select_returns candidates candidates [] []) as [-> _]; [done|by intros ? ?%not_elem_of_nil|].
  rewrite search_first.
  assert (∀ k, fits (occupied compute_positions []) (occupied switch_positions []) k = true
    ↔ no_overlap k) as Hfits.
  { intros k. rewrite fits_spec. unfold occupied. simpl. set_solver. }
  destruct (find_first _ _) as [l|] eqn:E; simpl.
  - apply find_first_split in E as (before & after & -> & Hl & Hb). exists before, after.
    split_and!; [done|by apply Hfits|]. intros k Hk Ho%Hfits. by rewrite (Hb k Hk) in Ho.
  - rewrite find_first_None in E. intros k Hk Ho%Hfits. by rewrite (E k Hk) in Ho.
Qed.
