(* ===== verification/FabricPlanTheorems.v ===== *)
(** * A layout plan is sound

    The facts that validation establishes of an inventory; members, primaries, disjointness and link targets of the plans that
    [plan_layout] returns, and their independence of the inventory's order. *)

From S2P Require Import Prelude RustStd RustStr NodeTypes FabricLayout FabricPlanner FabricLayoutTheorems FabricLinkTheorems FabricControllerTheorems FabricSearchTheorems.
Import NodeTypes FabricLayout Planner.
Local Open Scope string_scope.
Local Open Scope list_scope.

Implicit Types (p : FabricLayoutProfile) (nodes switches computes : list ObservedPlacement).
(** ** The inventory *)

Definition tray (n : ObservedPlacement) : N := tray_index (position n).
Definition slot (n : ObservedPlacement) : N := slot_number (position n).

(** The nodes have trays and slots of their own, none of them in use. *)
Definition slots_fit (indices slots : gset N) nodes : Prop :=
  NoDup (tray <$> nodes) ∧ NoDup (slot <$> nodes) ∧
  ∀ n, n ∈ nodes → (tray n ∉ indices) ∧ slot n ∉ slots.

Definition duplicate_error : string :=
  "observed inventory contains duplicate tray indices or shared slots".

Lemma slots_fit_cons indices slots n nodes :
  slots_fit indices slots (n :: nodes) ↔
  (tray n ∉ indices) ∧ (slot n ∉ slots) ∧ slots_fit ({[tray n]} ∪ indices) ({[slot n]} ∪ slots) nodes.
Proof.
  unfold slots_fit. rewrite !fmap_cons, !NoDup_cons. split.
  - intros ([Ht Hdt] & [Hs Hds] & Hn). split_and!; [apply Hn; left|apply Hn; left|done..|].
    intros m Hm. destruct (Hn m) as [? ?]; [by right|]. rewrite !not_elem_of_union, !not_elem_of_singleton.
    split_and!; try done; intros E; [apply Ht|apply Hs]; rewrite <- E; by apply list_elem_of_fmap_2.
  - intros (Ht & Hs & Hdt & Hds & Hn). split_and!; [|done| |done|].
    + intros (m & E & Hm)%list_elem_of_fmap. apply Hn in Hm. set_solver.
    + intros (m & E & Hm)%list_elem_of_fmap. apply Hn in Hm. set_solver.
    + intros m [->|Hm]%elem_of_cons; [done|]. apply Hn in Hm. set_solver.
Qed.

Lemma check_slots_spec indices slots nodes :
  (slots_fit indices slots nodes ∧ try_fold check_slot (indices, slots) nodes =
     Ok (list_to_set (tray <$> nodes) ∪ indices, list_to_set (slot <$> nodes) ∪ slots)) ∨
  (¬ slots_fit indices slots nodes ∧
   try_fold check_slot (indices, slots) nodes = Err duplicate_error).
Proof.
  revert indices slots. induction nodes as [|n nodes IH]; intros indices slots.
  { left. split.
    - split_and!; [constructor|constructor|]. by intros n ?%not_elem_of_nil.
    - simpl. by rewrite !(left_id_L ∅ (∪)). }
  assert (try_fold check_slot (indices, slots) (n :: nodes) =
    if decide (tray n ∈ indices ∨ slot n ∈ slots) then Err duplicate_error
    else try_fold check_slot ({[tray n]} ∪ indices, {[slot n]} ∪ slots) nodes) as ->.
  { cbn [try_fold]. unfold check_slot at 1. fold (tray n) (slot n). by destruct (decide _). }
  rewrite slots_fit_cons. case_decide as Hin.
  { right. split; [|done]. intros (? & ? & _). tauto. }
  destruct (IH ({[tray n]} ∪ indices) ({[slot n]} ∪ slots)) as [[Hf ->]|[Hf ->]]; [left|right].
  - split; [tauto|]. f_equal. simpl. f_equal; set_solver.
  - split; [tauto|done].
Qed.

Lemma slots_fit_perm indices slots nodes nodes' :
  nodes ≡ₚ nodes' → slots_fit indices slots nodes → slots_fit indices slots nodes'.
Proof. intros H. unfold slots_fit. setoid_rewrite H. done. Qed.

Lemma check_slots_perm indices slots nodes nodes' :
  nodes ≡ₚ nodes' →
  try_fold check_slot (indices, slots) nodes = try_fold check_slot (indices, slots) nodes'.
Proof.
  intros H. destruct (check_slots_spec indices slots nodes) as [[Hf ->]|[Hf ->]],
    (check_slots_spec indices slots nodes') as [[Hf' ->]|[Hf' ->]]; [|exfalso..|done].
  - f_equal. f_equal; f_equal; apply list_to_set_perm_L; by rewrite H.
  - by apply Hf', (slots_fit_perm _ _ nodes).
  - by apply Hf, (slots_fit_perm _ _ nodes').
Qed.

Record inventory_ok p switches computes : Prop := {
  io_ids : NoDup (obs_node_id <$> switches ++ computes);
  io_trays : NoDup (tray <$> switches);
  io_switches : NoDup (position <$> switches);
  io_computes : NoDup (position <$> computes);
  io_count : N.of_nat (length switches) = switch_tray_count p;
}.

Lemma nodup_positions indices slots nodes : slots_fit indices slots nodes → NoDup (position <$> nodes).
Proof.
  intros (H & _ & _). apply (NoDup_fmap_1 tray_index). by rewrite <- list_fmap_compose.
Qed.

Lemma size_list_to_set_le {A} `{Countable A} (l : list A) :
  (size (list_to_set l : gset A) ≤ length l)%nat.
Proof.
  induction l as [|x l IH]; [by rewrite list_to_set_nil, size_empty|]. rewrite list_to_set_cons, length_cons.
  rewrite size_union_alt, size_singleton. pose proof (subseteq_size (list_to_set l ∖ {[x]} : gset A)
    (list_to_set l) ltac:(set_solver)). lia.
Qed.

Lemma nodup_by_size {A} `{Countable A} (l : list A) :
  size (list_to_set l : gset A) = length l → NoDup l.
Proof.
  induction l as [|x l IH]; [constructor|]. rewrite list_to_set_cons, length_cons. pose proof (size_list_to_set_le l) as Hl. intros Hs.
  destruct (decide (x ∈ l)) as [Hx|Hx].
  - assert ({[x]} ∪ list_to_set l = (list_to_set l : gset A)) as E by set_solver. rewrite E in Hs. lia.
  - constructor; [done|]. apply IH. rewrite size_union, size_singleton in Hs by set_solver. lia.
Qed.

Lemma validate_inventory_ok p switches computes :
  validate_inventory p switches computes = Ok tt → inventory_ok p switches computes.
Proof.
  unfold validate_inventory. intros H. bind_ok H.
  repeat match goal with H : (_ || _)%bool = false |- _ => apply orb_false_iff in H; destruct H end.
  repeat match goal with H : negb (_ =? _)%nat = false |- _ => apply negb_false_iff, Nat.eqb_eq in H end.
  reflect_nums. split.
  - apply nodup_by_size. by rewrite length_fmap, length_app.
  - destruct (check_slots_spec ∅ ∅ switches) as [[Hf _]|[_ E']]; [|congruence]. apply Hf.
  - destruct (check_slots_spec ∅ ∅ switches) as [[Hf _]|[_ E']]; [|congruence]. by eapply nodup_positions.
  - destruct (check_slots_spec ∅ a.2 computes) as [[Hf _]|[_ E']]; [|congruence]. by eapply nodup_positions.
  - done.
Qed.

(** ** The order of the inventory does not matter *)

Lemma validate_inventory_perm p switches switches' computes computes' :
  switches ≡ₚ switches' → computes ≡ₚ computes' →
  validate_inventory p switches computes = validate_inventory p switches' computes'.
Proof.
  intros Hs Hc. unfold validate_inventory.
  rewrite (list_to_set_perm_L (obs_node_id <$> switches ++ computes) (obs_node_id <$> switches' ++ computes'))
    by (by rewrite Hs, Hc).
  rewrite (list_to_set_perm_L (chassis_serial_number <$> switches ++ computes)
    (chassis_serial_number <$> switches' ++ computes')) by (by rewrite Hs, Hc).
  rewrite (Permutation_length Hs), (Permutation_length Hc), (check_slots_perm _ _ _ _ Hs).
  rewrite (existsb_ext _ switches switches') by (intros x; by rewrite Hs).
  rewrite (existsb_ext _ computes computes') by (intros x; by rewrite Hc).
  destruct (_ || _ || _ || _ || _ || _)%bool; [done|].
  destruct (try_fold check_slot (∅, ∅) switches') as [[a b]|]; cbn [result_bind snd]; [|done].
  by rewrite (check_slots_perm _ _ _ _ Hc).
Qed.

#[export] Instance pos_le_total : Total pos_le.
Proof.
  intros a b. unfold pos_le, pos_leb. rewrite !orb_true_iff, !andb_true_iff, !N.ltb_lt, !N.eqb_eq, !N.leb_le.
  lia.
Qed.

#[export] Instance pos_le_trans : Transitive pos_le.
Proof.
  intros a b c. unfold pos_le, pos_leb.
  rewrite !orb_true_iff, !andb_true_iff, !N.ltb_lt, !N.eqb_eq, !N.leb_le. lia.
Qed.

#[export] Instance pos_le_antisymm : AntiSymm (=) pos_le.
Proof.
  intros [] []. unfold pos_le, pos_leb. simpl.
  rewrite !orb_true_iff, !andb_true_iff, !N.ltb_lt, !N.eqb_eq, !N.leb_le. intros. f_equal; lia.
Qed.

Lemma by_position_perm nodes nodes' :
  NoDup (position <$> nodes) → nodes ≡ₚ nodes' → by_position nodes = by_position nodes'.
Proof.
  intros Hd H. assert (Total node_le) by (intros a b; apply (total pos_le)).
  assert (Transitive node_le) by (intros a b c; apply (transitivity (R := pos_le))).
  apply (StronglySorted_unique_strong node_le).
  - intros x y Hx Hy Hxy Hyx. unfold by_position in Hx, Hy.
    rewrite (merge_sort_Permutation node_le) in Hx, Hy. rewrite <- H in Hy.
    eapply NoDup_fmap_inj; [done..|]. by apply (anti_symm pos_le).
  - apply StronglySorted_merge_sort; apply _.
  - apply StronglySorted_merge_sort; apply _.
  - unfold by_position. by rewrite !(merge_sort_Permutation node_le).
Qed.

Lemma members_at_perm where_ nodes nodes' :
  NoDup (position <$> nodes) → nodes ≡ₚ nodes' → members_at where_ nodes = members_at where_ nodes'.
Proof.
  intros Hd H. unfold members_at. apply by_position_perm; [|by rewrite H].
  eapply sublist_NoDup; [exact Hd|]. apply fmap_sublist, sublist_filter.
Qed.

Lemma from_pairs_perm {K A} `{Countable K} (l l' : list (K * A)) :
  NoDup l.*1 → l ≡ₚ l' → from_pairs l = from_pairs l'.
Proof.
  intros Hd H'. rewrite !from_pairs_nodup; [|by rewrite <- H'|done]. by apply list_to_map_proper.
Qed.

Lemma empty_perm nodes nodes' : nodes ≡ₚ nodes' → bool_decide (nodes = []) = bool_decide (nodes' = []).
Proof. intros H. apply bool_decide_ext. split; intros ->; by apply Permutation_nil. Qed.

Section permuted.
Context (p : FabricLayoutProfile) (switches switches' computes computes' : list ObservedPlacement).
Context (Hs : switches ≡ₚ switches') (Hc : computes ≡ₚ computes').
Context (Hok : inventory_ok p switches computes).

Lemma ids_nodup : NoDup (obs_node_id <$> switches).
Proof. pose proof (io_ids _ _ _ Hok) as H. rewrite fmap_app, NoDup_app in H. apply H. Qed.

(** A map keyed by the IDs of the switches. *)
Lemma by_id_perm {A} (f : ObservedPlacement → A) :
  from_pairs ((fun n => (obs_node_id n, f n)) <$> switches) =
  from_pairs ((fun n => (obs_node_id n, f n)) <$> switches').
Proof.
  apply from_pairs_perm; [|by rewrite Hs]. rewrite <- list_fmap_compose. apply ids_nodup.
Qed.

Lemma plan_full_rack_perm config primary :
  plan_full_rack p switches computes config primary = plan_full_rack p switches' computes' config primary.
Proof.
  unfold plan_full_rack. rewrite (empty_perm _ _ Hc), (Permutation_length Hc).
  by rewrite (by_position_perm _ _ (io_switches _ _ _ Hok) Hs), (by_position_perm _ _ (io_computes _ _ _ Hok) Hc).
Qed.

Lemma plan_fabric_perm config st request :
  plan_fabric p switches computes config st request = plan_fabric p switches' computes' config st request.
Proof.
  unfold plan_fabric. destruct st, request as [spec pl].
  by rewrite (members_at_perm _ _ _ (io_switches _ _ _ Hok) Hs),
    (members_at_perm _ _ _ (io_computes _ _ _ Hok) Hc).
Qed.

Lemma resolve_placements_perm requested :
  resolve_placements p switches computes requested = resolve_placements p switches' computes' requested.
Proof.
  unfold resolve_placements.
  rewrite (list_to_set_perm_L (position <$> computes) (position <$> computes')) by (by rewrite Hc).
  by rewrite (list_to_set_perm_L (position <$> switches) (position <$> switches')) by (by rewrite Hs).
Qed.
End permuted.

Implicit Types (pl : ResolvedPlacement) (n : ObservedPlacement) (spec : ScaleUpFabricSpec).

(** ** Members *)

Lemma elem_of_by_position nodes n : n ∈ by_position nodes ↔ n ∈ nodes.
Proof. unfold by_position. by rewrite (merge_sort_Permutation node_le). Qed.

Lemma elem_of_members X nodes n : n ∈ members_at X nodes ↔ n ∈ nodes ∧ position n ∈ X.
Proof. unfold members_at. rewrite elem_of_by_position, list_elem_of_filter. tauto. Qed.

Lemma members_length X nodes :
  NoDup (position <$> nodes) → X ⊆ list_to_set (position <$> nodes) →
  length (members_at X nodes) = size X.
Proof.
  intros Hd HX. rewrite <- (length_fmap position). rewrite <- (size_list_to_set (C := gset FabricPosition)).
  - f_equal. apply set_eq. intros x. rewrite elem_of_list_to_set, list_elem_of_fmap.
    setoid_rewrite elem_of_members. split; [by intros (n & -> & _ & ?)|]. intros Hx.
    specialize (HX x Hx). rewrite elem_of_list_to_set in HX. apply list_elem_of_fmap in HX as (n & -> & Hn).
    eauto.
  - unfold members_at, by_position. rewrite (merge_sort_Permutation node_le).
    eapply sublist_NoDup; [exact Hd|]. apply fmap_sublist, sublist_filter.
Qed.

Lemma members_ids_nodup X nodes : NoDup (obs_node_id <$> nodes) → NoDup (obs_node_id <$> members_at X nodes).
Proof.
  intros Hd. unfold members_at, by_position. rewrite (merge_sort_Permutation node_le).
  eapply sublist_NoDup; [exact Hd|]. apply fmap_sublist, sublist_filter.
Qed.

(** ** Placements *)

Record placement_ok p switches computes pl : Prop := {
  po_computes : compute_positions pl ⊆ list_to_set (position <$> computes);
  po_switches : switch_positions pl ⊆ list_to_set (position <$> switches);
  po_dom : dom (placement_links pl) = switch_positions pl;
  po_links : ∀ x states, placement_links pl !! x = Some states → dom states = dom (full_link_states p);
}.

Lemma resolve_rule_ok p switches computes r acc pls :
  resolve_rule p (list_to_set (position <$> computes)) (list_to_set (position <$> switches)) acc r = Ok pls →
  Forall (placement_ok p switches computes) acc → Forall (placement_ok p switches computes) pls.
Proof.
  unfold resolve_rule. destruct (fr_grouping r) as [g|]; [|by intros [= ->]]. intros H Hacc. bind_ok H.
  pose proof (resolve_grouping_spec _ _ _ _ E) as Hg. revert H.
  apply (try_fold_ind _ (fun _ => Forall (placement_ok p switches computes))); [done|].
  intros don d b b' Hd Hb H. destruct (_ || _)%bool; [by injection H as <-|]. bind_ok H. injection H as <-.
  apply Forall_app. split; [done|]. apply Forall_singleton.
  apply Hg in Hd as (v & [_ Hc] & [_ Hs]). destruct (expand_switches _ _ _ _ _ E0) as [Hdom Hst]. split; simpl.
  - intros x Hx. by apply Hc in Hx as [? _].
  - intros x Hx. by apply Hs in Hx as [? _].
  - done.
  - intros x states Hx%Hst. by eapply expand_switch_dom.
Qed.

Lemma resolve_placements_ok p switches computes requested pls :
  resolve_placements p switches computes requested = Ok pls →
  Forall (placement_ok p switches computes) pls.
Proof.
  unfold resolve_placements. intros H. bind_ok H. injection H as <-.
  rewrite (merge_sort_Permutation placement_le). revert E.
  apply (try_fold_ind _ (fun _ => Forall (placement_ok p switches computes))); [constructor|].
  intros don r b b' _ Hb H. by eapply resolve_rule_ok.
Qed.

Definition switch_map switches : gmap string FabricPosition :=
  from_pairs ((fun node => (obs_node_id node, position node)) <$> switches).

(** What a placement that matches a request has. *)
Record placement_for switches spec pl : Prop := {
  pf_computes : N.of_nat (size (compute_positions pl)) = spec_computes spec;
  pf_switches : N.of_nat (size (switch_positions pl)) = spec_switches spec;
  pf_primary : ∀ id, spec_primary spec = Some id →
    ∃ x, switch_map switches !! id = Some x ∧ x ∈ switch_positions pl;
}.

Lemma matches_spec_for requested switches index spec pl :
  matches_spec requested (switch_map switches) index spec pl = true → placement_for switches spec pl.
Proof.
  unfold matches_spec. destruct (negb _ || negb _)%bool eqn:E; [done|].
  destruct (match spec_primary spec with Some _ => _ | None => _ end) eqn:Ep; [done|]. intros _.
  reflect_nums. split; [done..|]. intros id Hid. rewrite Hid in Ep.
  apply negb_false_iff in Ep. unfold holds_switch in Ep.
  destruct (switch_map switches !! id) as [x|]; [|done]. exists x. by apply bool_decide_eq_true in Ep.
Qed.

Lemma selected_for p switches computes requested placements selected :
  Forall (placement_ok p switches computes) placements →
  (select_placements (matching_placements placements requested (switch_map switches)) [] []).1
    = Some selected →
  no_overlap selected ∧ Forall (placement_ok p switches computes) selected ∧
  Forall2 (placement_for switches) requested selected.
Proof.
  intros Hok [Hf Ho]%select_sound. split; [done|]. unfold matching_placements in Hf.
  rewrite Forall2_fmap_r in Hf. assert (∀ spec i pl, pl ∈ List.filter
    (matches_spec requested (switch_map switches) i spec) placements →
    placement_ok p switches computes pl ∧ placement_for switches spec pl) as Hin.
  { intros spec i pl [Hp%list_elem_of_In Hm]%list_elem_of_In%filter_In. rewrite Forall_forall in Hok.
    split; [by apply Hok|by eapply matches_spec_for]. }
  split.
  - apply Forall_forall. intros pl [i Hi]%list_elem_of_lookup.
    destruct (Forall2_lookup_l _ _ _ _ _ Hf Hi) as ([j spec] & _ & H). by destruct (Hin _ _ _ H).
  - rewrite <- (enumerate_snd requested), Forall2_fmap_l. apply Forall2_flip. eapply Forall2_impl; [exact Hf|].
    intros pl [j spec] H. by destruct (Hin _ _ _ H).
Qed.

(** ** Links *)

Section links.
Context (switches : list ObservedPlacement).
Context (Hids : NoDup (obs_node_id <$> switches)) (Hpos : NoDup (position <$> switches)).

(** The targets of a placement go to its members, and nothing else changes. *)
Lemma add_links_spec X targets links links' :
  NoDup targets.*1 →
  try_fold (add_link (members_at X switches)) links targets = Ok links' →
  (∀ n st, n ∈ switches → (position n, st) ∈ targets → links' !! obs_node_id n = Some st) ∧
  (∀ n, n ∈ switches → position n ∉ targets.*1 → links' !! obs_node_id n = links !! obs_node_id n) ∧
  dom links' ⊆ list_to_set (obs_node_id <$> switches) ∪ dom links ∧ dom links ⊆ dom links'.
Proof.
  intros Hd H. revert Hd. revert H. apply (try_fold_ind _ (fun don m => NoDup don.*1 →
    (∀ n st, n ∈ switches → (position n, st) ∈ don → m !! obs_node_id n = Some st) ∧
    (∀ n, n ∈ switches → position n ∉ don.*1 → m !! obs_node_id n = links !! obs_node_id n) ∧
    dom m ⊆ list_to_set (obs_node_id <$> switches) ∪ dom links ∧ dom links ⊆ dom m)).
  { intros _. split_and!; [by intros ??? ?%not_elem_of_nil|done|set_solver|done]. }
  intros don [x s] m m' _ IH H. rewrite fmap_app. simpl. intros (Hd & Hx & _)%NoDup_app.
  destruct (IH Hd) as (Hset & Hother & Hdom & Hkeep). unfold add_link in H. bind_ok H. injection H as <-.
  rename a into node. destruct (find_first _ _) as [node'|] eqn:Ef; [|done]. injection E as ->.
  apply find_first_Some in Ef as [[Hn _]%elem_of_members Hp]. apply bool_decide_eq_true in Hp. simpl in Hp. subst x.
  assert (∀ n, n ∈ switches → obs_node_id node = obs_node_id n → node = n) as Hinj.
  { intros n Hin E. by eapply (NoDup_fmap_inj obs_node_id). }
  split_and!.
  - intros n st Hin [Hin'|[= Ep ->]%list_elem_of_singleton]%elem_of_app.
    + rewrite lookup_insert_ne; [by apply Hset|]. intros E%Hinj; [|done]. subst n.
      apply (Hx (position node)); [by apply (list_elem_of_fmap_2 fst) in Hin'|left].
    + assert (n = node) as -> by (by eapply (NoDup_fmap_inj position)). by rewrite lookup_insert_eq.
  - intros n Hin Hnot. rewrite not_elem_of_app in Hnot. destruct Hnot as [H1 H2].
    rewrite lookup_insert_ne; [by apply Hother|]. intros E%Hinj; [|done]. subst n. apply H2. left.
  - rewrite dom_insert_L. intros k [->%elem_of_singleton|Hk]%elem_of_union; [|by apply Hdom].
    apply elem_of_union_l, elem_of_list_to_set. by apply list_elem_of_fmap_2.
  - rewrite dom_insert_L. set_solver.
Qed.
End links.

(** What the loop over the requests has built for the pairs [don]. *)
Record planned p switches computes (don : list (ScaleUpFabricSpec * ResolvedPlacement))
    (st : list PlannedFabric * gmap string (gmap string FabricLinkState)) : Prop := {
  pd_fabrics : Forall2 (fun '(spec, pl) f =>
    switch_node_ids (assignment f) = obs_node_id <$> members_at (switch_positions pl) switches ∧
    compute_node_ids (assignment f) = obs_node_id <$> members_at (compute_positions pl) computes ∧
    (spec_primary spec = Some (primary_switch_node_id (assignment f)) ∨
     spec_primary spec = None ∧
     primary_switch_node_id (assignment f) ∈ switch_node_ids (assignment f))) don st.1;
  pd_dom : dom st.2 = list_to_set (obs_node_id <$> switches);
  pd_member : ∀ n pl, n ∈ switches → pl ∈ don.*2 → position n ∈ switch_positions pl →
    ∃ s, st.2 !! obs_node_id n = Some s ∧ dom s = dom (full_link_states p);
  pd_other : ∀ n, n ∈ switches → (∀ pl, pl ∈ don.*2 → position n ∉ switch_positions pl) →
    st.2 !! obs_node_id n = Some (gset_to_gmap Down (dom (full_link_states p)));
}.

Lemma sorted_links pl :
  NoDup (merge_sort pos_key_le (map_to_list (placement_links pl))).*1 ∧
  ∀ x s, (x, s) ∈ merge_sort pos_key_le (map_to_list (placement_links pl)) ↔ placement_links pl !! x = Some s.
Proof.
  split; [rewrite (merge_sort_Permutation pos_key_le); apply NoDup_fst_map_to_list|].
  intros x s. rewrite (merge_sort_Permutation pos_key_le). apply elem_of_map_to_list.
Qed.

Lemma plan_fabric_planned p switches computes config don request st st' :
  NoDup (obs_node_id <$> switches) → NoDup (position <$> switches) →
  placement_ok p switches computes request.2 → planned p switches computes don st →
  plan_fabric p switches computes config st request = Ok st' →
  planned p switches computes (don ++ [request]) st'.
Proof.
  intros Hids Hpos Hok [Hf Hdom Hm Ho] H. destruct st as [fs links], request as [spec pl].
  unfold plan_fabric in H. bind_ok H. injection H as <-. rename a0 into primary, a1 into links'. simpl in *.
  destruct (sorted_links pl) as [Hd Hin].
  destruct (add_links_spec _ Hids Hpos _ _ _ _ Hd E1) as (Hset & Hother & Hsub & Hkeep).
  assert (∀ n, n ∈ switches → position n ∈ switch_positions pl →
    ∃ s, links' !! obs_node_id n = Some s ∧ dom s = dom (full_link_states p)) as Hnew.
  { intros n Hn Hx. rewrite <- (po_dom _ _ _ _ Hok) in Hx. apply elem_of_dom in Hx as [s Hs].
    exists s. split; [apply Hset; [done|by apply Hin]|by eapply po_links]. }
  assert (∀ n, n ∈ switches → position n ∉ switch_positions pl →
    links' !! obs_node_id n = links !! obs_node_id n) as Hold.
  { intros n Hn Hx. apply Hother; [done|]. intros ([x s] & Ex & Hs%Hin)%list_elem_of_fmap. apply Hx.
    simpl in Ex. subst x. rewrite <- (po_dom _ _ _ _ Hok). by eapply elem_of_dom_2. }
  split; simpl.
  - apply Forall2_app; [done|]. constructor; [|constructor]. split_and!; simpl; [done..|].
    revert E0. destruct (spec_primary spec) as [id|]; intros E0; [left; congruence|right]. split; [done|].
    destruct (members_at _ switches) as [|n ms]; [done|]. injection E0 as <-. simpl. left.
  - apply set_eq. intros k. set_solver.
  - intros n pl' Hn. rewrite fmap_app, elem_of_app. intros Hpl Hx.
    destruct (decide (position n ∈ switch_positions pl)) as [Hy|Hy]; [by apply Hnew|].
    rewrite Hold by done. destruct Hpl as [Hpl| ->%list_elem_of_singleton]; [by eapply Hm|done].
  - intros n Hn Hno. setoid_rewrite fmap_app in Hno. setoid_rewrite elem_of_app in Hno.
    rewrite Hold; [by apply Ho; auto|done|]. apply Hno. right. by apply list_elem_of_singleton.
Qed.

(** ** The plan *)

(** The members of a fabric are as many inventory nodes as requested, and its
    primary is one of its switches, the requested one if there is.  The [full] rack
    is also planned without any compute inventory, and then has no compute nodes. *)
Record fabric_ok (full : bool) switches computes spec (a : ScaleUpFabricMembers) : Prop := {
  fo_switches : N.of_nat (length (switch_node_ids a)) = spec_switches spec;
  fo_computes : N.of_nat (length (compute_node_ids a)) = spec_computes spec ∨
                full = true ∧ computes = [] ∧ compute_node_ids a = [];
  fo_known : ∀ id, id ∈ switch_node_ids a → id ∈ obs_node_id <$> switches;
  fo_known' : ∀ id, id ∈ compute_node_ids a → id ∈ obs_node_id <$> computes;
  fo_nodup : NoDup (switch_node_ids a ++ compute_node_ids a);
  fo_primary : primary_switch_node_id a ∈ switch_node_ids a;
  fo_requested : ∀ id, spec_primary spec = Some id → primary_switch_node_id a = id;
}.

Definition members (f : PlannedFabric) : list string :=
  switch_node_ids (assignment f) ++ compute_node_ids (assignment f).

Section sound.
Context (p : FabricLayoutProfile) (switches computes : list ObservedPlacement).
Context (Hok : inventory_ok p switches computes).

Lemma ids_parts :
  NoDup (obs_node_id <$> switches) ∧ NoDup (obs_node_id <$> computes) ∧
  ∀ n m, n ∈ switches → m ∈ computes → obs_node_id n ≠ obs_node_id m.
Proof.
  pose proof (io_ids _ _ _ Hok) as H. rewrite fmap_app, NoDup_app in H. destruct H as (H1 & H2 & H3).
  split_and!; [done..|]. intros n m Hn Hm E. apply (H2 (obs_node_id n)); [by apply list_elem_of_fmap_2|].
  rewrite E. by apply list_elem_of_fmap_2.
Qed.

Lemma members_nodup X Y :
  NoDup ((obs_node_id <$> members_at X switches) ++ (obs_node_id <$> members_at Y computes)).
Proof.
  destruct ids_parts as (H1 & H2 & H3). apply NoDup_app.
  split_and!; [by apply members_ids_nodup| |by apply members_ids_nodup].
  intros id (n & -> & [Hn _]%elem_of_members)%list_elem_of_fmap (m & E & [Hm _]%elem_of_members)%list_elem_of_fmap.
  by apply (H3 n m).
Qed.

Lemma members_known X nodes id : id ∈ obs_node_id <$> members_at X nodes → id ∈ obs_node_id <$> nodes.
Proof. intros (n & -> & [Hn _]%elem_of_members)%list_elem_of_fmap. by apply list_elem_of_fmap_2. Qed.

(** The fabric of a request and the placement selected for it. *)
Lemma planned_fabric_ok spec pl a :
  placement_ok p switches computes pl → placement_for switches spec pl →
  switch_node_ids a = obs_node_id <$> members_at (switch_positions pl) switches →
  compute_node_ids a = obs_node_id <$> members_at (compute_positions pl) computes →
  spec_primary spec = Some (primary_switch_node_id a) ∨
    spec_primary spec = None ∧ primary_switch_node_id a ∈ switch_node_ids a →
  fabric_ok false switches computes spec a.
Proof.
  intros Hpl Hfor Hs Hc Hp. split.
  - rewrite Hs, length_fmap, members_length; [apply Hfor|apply Hok|apply Hpl].
  - left. rewrite Hc, length_fmap, members_length; [apply Hfor|apply Hok|apply Hpl].
  - intros id. rewrite Hs. apply members_known.
  - intros id. rewrite Hc. apply members_known.
  - rewrite Hs, Hc. apply members_nodup.
  - destruct Hp as [Hp|[_ Hp]]; [|done]. rewrite Hs.
    destruct (pf_primary _ _ _ Hfor _ Hp) as (x & Hx & Hin). apply lookup_from_pairs in Hx.
    + apply list_elem_of_fmap in Hx as (n & [= -> ->] & Hn). apply list_elem_of_fmap_2, elem_of_members. done.
    + rewrite <- list_fmap_compose. apply ids_parts.
  - intros id Hid. destruct Hp as [Hp|[Hp _]]; congruence.
Qed.

Lemma members_apart pl pl' id :
  apart pl pl' →
  id ∈ (obs_node_id <$> members_at (switch_positions pl) switches) ++
       (obs_node_id <$> members_at (compute_positions pl) computes) →
  id ∉ (obs_node_id <$> members_at (switch_positions pl') switches) ++
       (obs_node_id <$> members_at (compute_positions pl') computes).
Proof.
  destruct ids_parts as (H1 & H2 & H3). intros [Ac As] H H'. rewrite elem_of_app in H, H'.
  destruct H as [(n & -> & [Hn Hx]%elem_of_members)%list_elem_of_fmap|(n & -> & [Hn Hx]%elem_of_members)%list_elem_of_fmap],
    H' as [(m & E & [Hm Hy]%elem_of_members)%list_elem_of_fmap|(m & E & [Hm Hy]%elem_of_members)%list_elem_of_fmap].
  - rewrite (NoDup_fmap_inj _ _ _ _ H1 Hn Hm E) in Hx. set_solver.
  - by apply (H3 n m).
  - by apply (H3 m n).
  - rewrite (NoDup_fmap_inj _ _ _ _ H2 Hn Hm E) in Hx. set_solver.
Qed.
End sound.

(** What a plan guarantees. *)
Record plan_ok p switches computes (requested : list ScaleUpFabricSpec) (plan : FabricPlan) : Prop := {
  pk_fabrics : Forall2 (fabric_ok (full_topology plan) switches computes) requested (assignment <$> fabrics plan);
  pk_apart : ∀ i j f g id, i < j → fabrics plan !! i = Some f → fabrics plan !! j = Some g →
    id ∈ members f → id ∉ members g;
  pk_dom : dom (plan_links plan) = list_to_set (obs_node_id <$> switches);
  pk_complete : ∀ id states, plan_links plan !! id = Some states → dom states = dom (full_link_states p);
  pk_isolated : ∀ id states i st, plan_links plan !! id = Some states →
    (∀ f, f ∈ fabrics plan → id ∉ switch_node_ids (assignment f)) → states !! i = Some st → st = Down;
  pk_whole : full_topology plan = true ↔
    ∃ spec, requested = [spec] ∧ spec_computes spec = compute_tray_count p ∧ spec_switches spec = switch_tray_count p;
  pk_full : full_topology plan = true →
    ∀ id states, plan_links plan !! id = Some states → states = full_link_states p;
}.

Lemma dom_by_id {A} (f : ObservedPlacement → A) nodes :
  dom (from_pairs ((fun n => (obs_node_id n, f n)) <$> nodes)) = list_to_set (obs_node_id <$> nodes).
Proof. rewrite dom_from_pairs. by rewrite <- list_fmap_compose. Qed.

Lemma lookup_by_id {A} (f : ObservedPlacement → A) nodes id x :
  NoDup (obs_node_id <$> nodes) →
  from_pairs ((fun n => (obs_node_id n, f n)) <$> nodes) !! id = Some x ↔
  ∃ n, n ∈ nodes ∧ id = obs_node_id n ∧ x = f n.
Proof.
  intros Hd. rewrite lookup_from_pairs by (by rewrite <- list_fmap_compose). rewrite list_elem_of_fmap.
  naive_solver.
Qed.

Lemma by_position_ids nodes : obs_node_id <$> by_position nodes ≡ₚ obs_node_id <$> nodes.
Proof. unfold by_position. by rewrite (merge_sort_Permutation node_le). Qed.

Lemma plan_full_ok p switches computes spec config plan :
  inventory_ok p switches computes →
  spec_computes spec = compute_tray_count p → spec_switches spec = switch_tray_count p →
  plan_full_rack p switches computes config (spec_primary spec) = Ok plan →
  plan_ok p switches computes [spec] plan.
Proof.
  intros Hok Hc Hs H. unfold plan_full_rack in H. bind_ok H. injection H as <-. rename a1 into primary.
  destruct (ids_parts _ _ _ Hok) as (Hi & _ & _).
  assert (NoDup (obs_node_id <$> by_position switches)) as Hib by (by rewrite by_position_ids).
  split; cbn [fabrics plan_links full_topology fmap list_fmap assignment].
  - constructor; [|constructor]. split; cbn [switch_node_ids compute_node_ids primary_switch_node_id].
    + rewrite (Permutation_length (by_position_ids switches)), length_fmap, Hs. apply Hok.
    + apply andb_false_iff in E as [E|E]; reflect_nums; [right; split_and!; [done..|]; by subst computes|left].
      rewrite (Permutation_length (by_position_ids computes)), length_fmap. congruence.
    + intros id. by rewrite by_position_ids.
    + intros id. by rewrite by_position_ids.
    + rewrite !by_position_ids, <- fmap_app. apply Hok.
    + revert E2. destruct (spec_primary spec) as [id|].
      * destruct (existsb _ _) eqn:Ex; [|done]. intros [= <-]. apply existsb_elem in Ex as (n & Hn & En).
        apply String.eqb_eq in En as <-. by apply list_elem_of_fmap_2.
      * destruct (by_position switches) as [|n ns]; [done|]. intros [= <-]. simpl. left.
    + intros id Hid. revert E2. rewrite Hid. destruct (existsb _ _); congruence.
  - intros i j f g id Hij Hf Hg. apply lookup_lt_Some in Hf, Hg. simpl in Hf, Hg. lia.
  - rewrite (dom_by_id (fun _ => full_link_states p)). apply set_eq. intros id.
    rewrite !elem_of_list_to_set. by rewrite by_position_ids.
  - by intros id states (n & _ & _ & ->)%(lookup_by_id (fun _ => full_link_states p)).
  - intros id states i st (n & Hn & -> & _)%(lookup_by_id (fun _ => full_link_states p)) Hno; [|done].
    exfalso. apply (Hno _ (list_elem_of_here _ _)). simpl. by apply list_elem_of_fmap_2.
  - split; [by exists spec|done].
  - by intros _ id states (n & _ & _ & ->)%(lookup_by_id (fun _ => full_link_states p)).
Qed.

Lemma isolated_planned p switches computes :
  NoDup (obs_node_id <$> switches) → planned p switches computes [] ([], isolated p switches).
Proof.
  intros Hd. split; simpl; [constructor|apply dom_by_id|by intros ??? ?%not_elem_of_nil|].
  intros n Hn _. unfold isolated. apply lookup_by_id; [done|]. eauto.
Qed.

Lemma plan_smaller_ok p switches computes config requested selected st :
  inventory_ok p switches computes → is_full_request p requested = None →
  no_overlap selected → Forall (placement_ok p switches computes) selected →
  Forall2 (placement_for switches) requested selected →
  try_fold (plan_fabric p switches computes config) ([], isolated p switches) (zip requested selected) = Ok st →
  plan_ok p switches computes requested (mkPlan st.1 st.2 false).
Proof.
  intros Hok Hsmall Ho Hpl Hfor H. destruct (ids_parts _ _ _ Hok) as (Hi & _ & _).
  assert (planned p switches computes (zip requested selected) st) as [Hf Hdom Hm Hother].
  { revert H. apply (try_fold_ind _ (planned p switches computes)); [by apply isolated_planned|].
    intros don [spec pl] b b' Hx Hb. apply plan_fabric_planned; [done|apply Hok| |done].
    apply elem_of_zip_r in Hx. rewrite Forall_forall in Hpl. by apply Hpl. }
  pose proof (Forall2_length _ _ _ Hfor) as Hlen.
  assert (∀ i f, st.1 !! i = Some f → ∃ spec pl, requested !! i = Some spec ∧ selected !! i = Some pl ∧
    switch_node_ids (assignment f) = obs_node_id <$> members_at (switch_positions pl) switches ∧
    compute_node_ids (assignment f) = obs_node_id <$> members_at (compute_positions pl) computes ∧
    fabric_ok false switches computes spec (assignment f)) as Hat.
  { intros i f Hi'. destruct (Forall2_lookup_r _ _ _ _ _ Hf Hi') as ([spec pl] & Hz & Es & Ec & Ep).
    apply lookup_zip_with_Some in Hz as (spec' & pl' & [= <- <-] & Hr & Hs). exists spec, pl. split_and!; try done.
    eapply planned_fabric_ok; try done; [eapply Forall_lookup_1; done|eapply Forall2_lookup_lr; done]. }
  assert (length st.1 = length requested) as Hl.
  { rewrite <- (Forall2_length _ _ _ Hf), length_zip_with. lia. }
  rewrite snd_zip in Hm, Hother by lia.
  split; cbn [fabrics plan_links full_topology]; [..|done].
  - rewrite Forall2_fmap_r. apply Forall2_same_length_lookup_2; [done|]. intros i spec f Hr Hi'.
    destruct (Hat i f Hi') as (spec' & pl & Hr' & _ & _ & _ & ?). simpl. congruence.
  - intros i j f g id Hij Hif Hjg. destruct (Hat i f Hif) as (_ & pl & _ & Hpi & Es & Ec & _).
    destruct (Hat j g Hjg) as (_ & pl' & _ & Hpj & Es' & Ec' & _). unfold members.
    rewrite Es, Ec, Es', Ec'. eapply members_apart; [done|]. by eapply Ho.
  - done.
  - intros id states Hid. assert (id ∈ dom st.2) as Hin by (by eapply elem_of_dom_2).
    rewrite Hdom, elem_of_list_to_set in Hin. apply list_elem_of_fmap in Hin as (n & -> & Hn).
    destruct (decide (Exists (fun pl => position n ∈ switch_positions pl) selected)) as [Hex|Hex].
    + apply Exists_exists in Hex as (pl & Hin & Hx). destruct (Hm n pl Hn Hin Hx) as (s & Hs & ?). congruence.
    + rewrite Hother in Hid; [|done|].
      * injection Hid as <-. apply dom_gset_to_gmap.
      * intros pl Hin Hx. apply Hex, Exists_exists. eauto.
  - intros id states i s Hid Hno Hi'. assert (id ∈ dom st.2) as Hin by (by eapply elem_of_dom_2).
    rewrite Hdom, elem_of_list_to_set in Hin. apply list_elem_of_fmap in Hin as (n & -> & Hn).
    rewrite Hother in Hid; [|done|].
    + injection Hid as <-. by apply lookup_gset_to_gmap_Some in Hi' as [_ ->].
    + intros pl [k Hk]%list_elem_of_lookup Hx.
      destruct (lookup_lt_is_Some_2 st.1 k) as [f Hkf]; [rewrite Hl, Hlen; by eapply lookup_lt_Some|].
      destruct (Hat k f Hkf) as (_ & pl' & _ & Hpk & Es & _). simplify_eq.
      apply (Hno f); [by eapply list_elem_of_lookup_2|]. rewrite Es.
      apply list_elem_of_fmap_2, elem_of_members. done.
  - split; [done|]. intros (spec & -> & Ec & Es). unfold is_full_request in Hsmall.
    by rewrite Ec, Es, !N.eqb_refl in Hsmall.
Qed.

Lemma plan_layout_ok p switches computes requested config plan :
  plan_layout p switches computes requested config = Ok plan →
  inventory_ok p switches computes ∧ plan_ok p switches computes requested plan.
Proof.
  unfold plan_layout. intros H. bind_ok H. destruct a0. apply validate_inventory_ok in E0. split; [done|].
  destruct (is_full_request p requested) as [spec|] eqn:Ef.
  - unfold is_full_request in Ef. destruct requested as [|spec' [|]]; try done.
    destruct (_ && _)%bool eqn:Eb; [|done]. injection Ef as ->. reflect_nums. by eapply plan_full_ok.
  - bind_ok H. apply resolve_placements_ok in E4.
    destruct (select_placements _ _ _).1 as [selected|] eqn:Es; [|done]. bind_ok H. injection H as <-.
    destruct (selected_for _ _ _ _ _ _ E4 Es) as (Ho & Hpl & Hfor). by eapply plan_smaller_ok.
Qed.

(** C23. A plan does what was asked and nothing else: each requested fabric gets,
    in order, as many known switches as it asked for and a primary among them, the
    requested one if one was named; it gets as many known computes as it asked for,
    but a plan of the full rack, which is made without any compute inventory too,
    then has none; no node is in two fabrics; every switch of the rack, and no
    other, has a target for exactly the controlled interfaces, all of them down on
    switches of no fabric; the plan is of the full rack exactly when one fabric with
    all its trays was asked for, and then restores the configured states
    everywhere. *)
Theorem plan_sound p switches computes requested config plan :
  plan_layout p switches computes requested config = Ok plan →
  plan_ok p switches computes requested plan.
Proof. by intros [_ H]%plan_layout_ok. Qed.

(** ** A half-rack example *)

Definition example_switches : list ObservedPlacement :=
  let switch id tray slot := mkObserved id "switch_gb200_nvidia" "chassis" (mkPosition tray slot) (Some "rack") in
  [switch "s0" 0%N 10%N; switch "s1" 1%N 11%N].

Definition example_computes : list ObservedPlacement :=
  let compute id tray slot := mkObserved id "compute_gb200_nvidia" "chassis" (mkPosition tray slot) None in
  [compute "c0" 0%N 20%N; compute "c1" 1%N 21%N].

Definition example_request : list ScaleUpFabricSpec := [mkSpec 1 1 (Some "s1"); mkSpec 1 1 None].

Lemma plan_sound_witness :
  ∃ plan, plan_layout example_profile example_switches example_computes example_request
            (mkFabricConfig "t" []) = Ok plan ∧
    plan_ok example_profile example_switches example_computes example_request plan.
Proof.
  assert (is_ok (plan_layout example_profile example_switches example_computes example_request
            (mkFabricConfig "t" [])) = true) as Hok by (vm_compute; reflexivity).
  destruct (plan_layout example_profile example_switches example_computes example_request
            (mkFabricConfig "t" [])) as [plan|] eqn:E; [|discriminate Hok].
  exists plan. split; [reflexivity|]. exact (plan_sound _ _ _ _ _ _ E).
Defined.

(** A plan depends on the inventory, not on the order in which its nodes are
    listed: the same request for the same nodes in any order gives the same
    members, link targets and settings, or the same error. *)
Theorem plan_order_independent p switches switches' computes computes' requested config :
  switches ≡ₚ switches' → computes ≡ₚ computes' →
  plan_layout p switches computes requested config =
  plan_layout p switches' computes' requested config.
Proof.
  intros Hs Hc. unfold plan_layout. rewrite (validate_inventory_perm p _ _ _ _ Hs Hc).
  destruct (validate_profile p) as [[]|]; cbn [result_bind]; [|done].
  destruct (validate_inventory p switches' computes') as [[]|] eqn:Ei; cbn [result_bind]; [|done].
  rewrite <- (validate_inventory_perm p _ _ _ _ Hs Hc) in Ei. apply validate_inventory_ok in Ei.
  destruct (is_full_request p requested); [by apply plan_full_rack_perm|].
  rewrite (empty_perm _ _ Hc), (Permutation_length Hs), (Permutation_length Hc).
  unfold isolated. rewrite !(by_id_perm p switches switches' computes Hs Ei), (resolve_placements_perm p switches switches' computes computes' Hs Hc).
  destruct (_ || _)%bool; [done|]. destruct (validate_managed_config config); cbn [result_bind]; [|done].
  destruct (try_fold subtract_spec _ _); cbn [result_bind]; [|done].
  destruct (resolve_placements _ _ _ _); cbn [result_bind]; [|done].
  destruct (select_placements _ _ _).1; [|done].
  by rewrite (try_fold_ext _ _ _ _ (plan_fabric_perm p switches switches' computes computes' Hs Hc Ei _)).
Qed.

Lemma plan_order_independent_witness :
  (rev example_switches ≡ₚ example_switches ∧ rev example_computes ≡ₚ example_computes) ∧
  plan_layout example_profile (rev example_switches) (rev example_computes) example_request
    (mkFabricConfig "t" []) =
  plan_layout example_profile example_switches example_computes example_request
    (mkFabricConfig "t" []).
Proof.
  assert (rev example_switches ≡ₚ example_switches) as Hs by apply Permutation_swap.
  assert (rev example_computes ≡ₚ example_computes) as Hc by apply Permutation_swap.
  split; [split; [exact Hs|exact Hc]|].
  exact (plan_order_independent _ _ _ _ _ _ _ Hs Hc).
Defined.
