(* ===== verification/ManagedConfig.v ===== *)
(** * Managed controller settings

    [libnmxc/managed_config.rs]: reading the configuration files of a controller,
    removing and setting the settings the service owns, and verifying by
    readback.

    The controller is the class [Nmxc]: three operations on a device of any
    type, about which nothing is assumed.  An error of an operation is only
    logged or replaced by a fixed message, so it is [None] or [false].  The
    gateway name is part of the device.  A file is its text; byte offsets are
    those of its characters. *)

From S2P Require Import Prelude RustStd RustStr FabricLayout.
From Stdlib Require Import Ascii.
Import FabricLayout.
Local Open Scope string_scope.
Local Open Scope list_scope.

Module ManagedConfig.
(** [NmxGetStaticConfigResponse]: the named files, if the response has them. *)
Definition StaticConfigResponse : Type := option (list (string * chars)).

Class Nmxc (D : Type) := {
  get_static_config_files : D → list string → D * option StaticConfigResponse;
  set_static_config_file : D → string → chars → D * bool;
  set_static_config : D → string → string → string → D * bool;
}.

(** Desired values or required absence, by file and key. *)
Abbreviation ConfigEntries := (gmap (string * string) (option string)) (only parsing).

Definition key_pair_le (a b : string * string) : Prop :=
  if decide (a.1 = b.1) then String.le a.2 b.2 else String.le a.1 b.1.

#[global] Instance key_pair_le_dec : RelDecision key_pair_le.
Proof. intros a b. unfold key_pair_le. case_decide; apply _. Defined.

Definition config_entry_le {A} (a b : (string * string) * A) : Prop := key_pair_le a.1 b.1.

#[global] Instance config_entry_le_dec {A} : RelDecision (@config_entry_le A).
Proof. intros a b. unfold config_entry_le. apply _. Defined.

Definition config_entries (e : ConfigEntries) : list ((string * string) * option string) :=
  merge_sort config_entry_le (map_to_list e).

(** [ManagedConfig::try_from]. *)
Definition managed_config (e : ConfigEntries) : result string ConfigEntries :=
  let? _ := for_each (fun '((file, key), value) =>
    let? _ := map_err (fun _ =>
                "managed configuration requires a file basename and an identifier key")
                (validate_static_config_name file key) in
    match value with
    | Some value => map_err (fun _ =>
                      "managed configuration requires nonempty unquoted literal values")
                      (validate_static_config_value value)
    | None => Ok tt
    end) (config_entries e) in
  Ok e.

Record ManagedConfigSnapshot := mkSnapshot {
  snapshot_files : gmap string chars;
  snapshot_values : ConfigEntries;
}.

Record ManagedDirective := mkDirective {
  range_start : nat;
  range_end : nat;
  directive_key : string;
  directive_value : string;
}.

(** ** Directives of a file *)

Definition newline : ascii := ascii_of_N 10.

(** [split_inclusive('\n')]: every line with its terminator. *)
Fixpoint split_inclusive (l : chars) : list chars :=
  match l with
  | [] => []
  | c :: l =>
      if Ascii.eqb c newline then [c] :: split_inclusive l
      else match split_inclusive l with
           | line :: rest => (c :: line) :: rest
           | [] => [[c]]
           end
  end.

(** The backslashes at the end, counted from a reversed line. *)
Fixpoint count_backslashes (l : chars) : nat :=
  match l with
  | c :: l => if Ascii.eqb c backslash then S (count_backslashes l) else 0
  | [] => 0
  end.

(** [split_at] the first [=] or white space character, if there is one. *)
Fixpoint split_separator (l : chars) : option (chars * chars) :=
  match l with
  | [] => None
  | c :: l' =>
      if Ascii.eqb c "=" || starts_ws l then Some ([], l)
      else match split_separator l' with
           | Some (key, value) => Some (c :: key, value)
           | None => None
           end
  end.

(** The value of an owned key, without its quotes, if it is a literal. *)
Definition owned_value (value : chars) : result string chars :=
  let? value :=
    match value with
    | q :: rest =>
        if Ascii.eqb q "'" || Ascii.eqb q quote
        then ok_or (strip_suffix rest [q])
               "managed configuration contains an ambiguous quoted value"
        else Ok value
    | [] => Ok value
    end in
  if existsb (contains special_chars) value || has_control value
  then Err "managed configuration contains an unsupported owned value"
  else Ok value.

(** One physical line: nothing, or a key and its value. *)
Definition parse_line (physical_line : chars) : result string (option (string * chars)) :=
  let line := to_chars (trim (of_chars physical_line)) in
  match line with
  | [] => Ok None
  | c :: _ =>
      if Ascii.eqb c "#" || Ascii.eqb c ";" then Ok None
      else if Nat.odd (count_backslashes (rev line))
      then Err "managed configuration contains an unsupported continuation"
      else
        let? parts := ok_or (split_separator line)
                        "managed configuration contains an ambiguous directive" in
        let '(key, value) := parts in
        let value := trim_ws_start value in
        let value := match value with
                     | c :: rest => if Ascii.eqb c "=" then rest else value
                     | [] => value
                     end in
        let key := trim (of_chars key) in
        if String.eqb key ""
           || negb (all_chars (fun c => is_ascii_alphanumeric c || contains (to_chars "_.-") c) key)
        then Err "managed configuration contains an unsupported key"
        else
          let value := to_chars (trim (of_chars value)) in
          Ok (Some (key, value))
  end.

(** What the loop over the lines has: the directives, the keys and the offset. *)
Record parse_state := mkParse {
  parsed : list ManagedDirective;
  seen_keys : gset string;
  offset : nat;
}.

Definition parse_step (file : string) (desired : ConfigEntries) (st : parse_state)
    (physical_line : chars) : result string parse_state :=
  let range_end := offset st + length physical_line in
  let? directive := parse_line physical_line in
  match directive with
  | None => Ok (mkParse (parsed st) (seen_keys st) range_end)
  | Some (key, value) =>
      if decide (key ∈ seen_keys st)
      then Err "controller returned an ambiguous managed configuration entry"
      else
        let? value :=
          match desired !! (file, key) with
          | Some _ => owned_value value
          | None => Ok value
          end in
        Ok (mkParse (parsed st ++ [mkDirective (offset st) range_end key (of_chars value)])
              ({[key]} ∪ seen_keys st) range_end)
  end.

Definition managed_directives (file : string) (content : chars) (desired : ConfigEntries)
    : result string (list ManagedDirective) :=
  let? st := try_fold (parse_step file desired) (mkParse [] ∅ 0) (split_inclusive content) in
  Ok (parsed st).

(** ** Reading *)

Definition requested_files (desired : ConfigEntries) : gset string :=
  set_map fst (dom desired).

Definition check_duplicate (returned : gset string) (file : string * chars)
    : result string (gset string) :=
  if decide (file.1 ∈ returned) then Err "controller returned duplicate configuration files"
  else Ok ({[file.1]} ∪ returned).

(** The values of one file. *)
Definition add_file (desired : ConfigEntries) (current : ManagedConfigSnapshot)
    (file : string * chars) : result string ManagedConfigSnapshot :=
  let '(name, content) := file in
  if negb (bool_decide (name ∈ requested_files desired)) then Ok current
  else
    let? directives := managed_directives name content desired in
    let values :=
      foldl (fun values d =>
        match desired !! (name, directive_key d) with
        | Some _ => <[(name, directive_key d) := Some (directive_value d)]> values
        | None => values
        end) (snapshot_values current) directives in
    Ok (mkSnapshot (<[name := content]> (snapshot_files current)) values).

Definition complete_config (response : StaticConfigResponse) (desired : ConfigEntries)
    : result string ManagedConfigSnapshot :=
  let? files := ok_or response
                  "controller did not return complete requested configuration files" in
  let? returned := try_fold check_duplicate ∅ files in
  if negb (bool_decide (requested_files desired ⊆ returned))
  then Err "controller omitted a requested configuration file"
  else try_fold (add_file desired) (mkSnapshot ∅ ((fun _ => None) <$> desired)) files.

Definition config_matches (current : ManagedConfigSnapshot) (desired : ConfigEntries) : bool :=
  forallb (fun '(key, value) => bool_decide (snapshot_values current !! key = Some value))
    (config_entries desired).

(** ** Removing *)

(** [content.get(a..b)]; the offsets are line boundaries. *)
Definition slice (content : chars) (a b : nat) : option chars :=
  if (a <=? b)%nat && (b <=? length content)%nat then Some (take (b - a) (drop a content)) else None.

Definition invalid_range : string := "managed configuration record range is invalid".

(** The body of the loop over the directives: the output and the cursor. *)
Definition copy_directive (file : string) (content : chars) (desired : ConfigEntries)
    (st : chars * nat) (d : ManagedDirective) : result string (chars * nat) :=
  let '(output, cursor) := st in
  let? between := ok_or (slice content cursor (range_start d)) invalid_range in
  let output := output ++ between in
  let cursor := range_end d in
  match desired !! (file, directive_key d) with
  | Some None => Ok (output, cursor)
  | _ =>
      let? record := ok_or (slice content (range_start d) (range_end d)) invalid_range in
      Ok (output ++ record, cursor)
  end.

Definition replacement_config_file (file : string) (content : chars) (desired : ConfigEntries)
    : result string chars :=
  let? directives := managed_directives file content desired in
  let? st := try_fold (copy_directive file content desired) ([], 0%nat) directives in
  let? rest := ok_or (slice content st.2 (length content)) invalid_range in
  Ok (st.1 ++ rest).

(** [str::lines]: the lines without their terminators. *)
Definition strip_terminator (line : chars) : chars :=
  match strip_suffix line [newline] with
  | Some line => match strip_suffix line [ascii_of_N 13] with Some line => line | None => line end
  | None => line
  end.

Definition sorted_records (content : chars) : list string :=
  sort_keys ((fun line => of_chars (strip_terminator line)) <$> split_inclusive content).

(** ** Reconciling *)

Section reconcile.
Context {D : Type} `{!Nmxc D}.

Definition read_config (d : D) (desired : ConfigEntries)
    : D * result string ManagedConfigSnapshot :=
  if bool_decide (desired = ∅) then (d, Ok (mkSnapshot ∅ ∅))
  else
    match get_static_config_files d (ordered String.le (requested_files desired)) with
    | (d, None) => (d, Err "managed configuration read unavailable")
    | (d, Some response) => (d, complete_config response desired)
    end.

Definition omitted : string := "controller omitted a requested configuration file".

(** What the loops carry: the last snapshot, and whether a write was attempted. *)
Definition reconcile_progress : Type := ManagedConfigSnapshot * bool.

(** The body of the loop over the files with settings to remove. *)
Definition remove_from_file (desired : ConfigEntries) (d : D) (changed : bool) (file : string)
    : D * result string reconcile_progress :=
  let '(d, res) := read_config d desired in
  match res with
  | Err e => (d, Err e)
  | Ok current =>
      match snapshot_files current !! file with
      | None => (d, Err omitted)
      | Some content =>
          match replacement_config_file file content desired with
          | Err e => (d, Err e)
          | Ok replacement =>
              if bool_decide (replacement = content) then (d, Ok (current, changed))
              else
                let '(d, _) := set_static_config_file d file replacement in
                let '(d, res) := read_config d desired in
                match res with
                | Err e => (d, Err e)
                | Ok current =>
                    match snapshot_files current !! file with
                    | None => (d, Err omitted)
                    | Some returned =>
                        if bool_decide (sorted_records returned = sorted_records replacement)
                        then (d, Ok (current, true))
                        else (d, Err ("managed configuration file write did not pass " +++
                                      "preservation readback"))
                    end
                end
          end
      end
  end.

(** The body of the loop over the settings. *)
Definition write_setting (desired : ConfigEntries) (d : D) (st : reconcile_progress)
    (entry : (string * string) * option string) : D * result string reconcile_progress :=
  let '(current, changed) := st in
  match entry.2 with
  | None => (d, Ok (current, changed))
  | Some value =>
      if bool_decide (mjoin (snapshot_values current !! entry.1) = Some value)
      then (d, Ok (current, changed))
      else
        let '(d, _) := set_static_config d entry.1.1 entry.1.2 value in
        let '(d, res) := read_config d desired in
        match res with
        | Err e => (d, Err e)
        | Ok current =>
            if bool_decide (mjoin (snapshot_values current !! entry.1) = Some value)
            then (d, Ok (current, true))
            else (d, Err "managed configuration write did not pass readback")
        end
  end.

(** A loop with the device and a state. *)
Fixpoint device_fold {A S} (f : D → S → A → D * result string S) (d : D) (s : S) (l : list A)
    : D * result string S :=
  match l with
  | [] => (d, Ok s)
  | x :: l =>
      match f d s x with
      | (d, Err e) => (d, Err e)
      | (d, Ok s) => device_fold f d s l
      end
  end.

(** The files with a setting that must go and is there. *)
Definition deletions (desired : ConfigEntries) (current : ManagedConfigSnapshot) : gset string :=
  list_to_set (omap (fun '((file, key), value) =>
    match value, mjoin (snapshot_values current !! (file, key)) with
    | None, Some _ => Some file
    | _, _ => None
    end) (config_entries desired)).

Definition reconcile_config (d : D) (desired : ConfigEntries) : D * result string bool :=
  let '(d, res) := read_config d desired in
  match res with
  | Err e => (d, Err e)
  | Ok current =>
      let '(d, res) :=
        device_fold (fun d st file => remove_from_file desired d st.2 file) d (current, false)
          (ordered String.le (deletions desired current)) in
      match res with
      | Err e => (d, Err e)
      | Ok st =>
          let '(d, res) := device_fold (write_setting desired) d st (config_entries desired) in
          match res with
          | Err e => (d, Err e)
          | Ok (_, changed) =>
              let '(d, res) := read_config d desired in
              match res with
              | Err e => (d, Err e)
              | Ok final =>
                  if config_matches final desired then (d, Ok changed)
                  else (d, Err "managed configuration batch readback failed")
              end
          end
      end
  end.
End reconcile.
End ManagedConfig.
