(* ===== verification/ManagedConfigTheorems.v ===== *)
(** * Theorems on managed controller settings

    Removing settings keeps every other line of a file, and a reconciliation
    that succeeds was verified by its last read. *)

From S2P Require Import Prelude RustStd RustStr FabricLayout ManagedConfig.
From Stdlib Require Import Ascii.
Import FabricLayout ManagedConfig.
Local Open Scope string_scope.
Local Open Scope list_scope.

Implicit Types (line content : list ascii) (ls : list (list ascii)) (desired : ConfigEntries).

(** ** Lines *)

(** Nonempty lines, of which all but the last end with a newline. *)
Inductive lines_ok : list (list ascii) → Prop :=
| lines_nil : lines_ok []
| lines_last line : line ≠ [] → newline ∉ line → lines_ok [line]
| lines_cons line ls : newline ∉ line → lines_ok ls → lines_ok ((line ++ [newline]) :: ls).

Lemma split_inclusive_ok content : lines_ok (split_inclusive content) ∧ mjoin (split_inclusive content) = content.
Proof.
  induction content as [|c l [IH Hj]]; simpl; [by split; [constructor|]|].
  destruct (Ascii.eqb_spec c newline) as [->|Hc].
  - split; [apply (lines_cons []); [apply not_elem_of_nil|done]|]. simpl. by rewrite Hj.
  - inversion IH as [E|line Hne Hno E|line ls Hno Hls E].
    + rewrite <- E in Hj. simpl in Hj. subst l. split; [|done]. apply lines_last; [done|].
      rewrite list_elem_of_singleton. congruence.
    + rewrite <- E in Hj. simpl in *. rewrite app_nil_r in *. subst l. split; [|done].
      apply lines_last; [done|]. rewrite not_elem_of_cons. split; [congruence|done].
    + rewrite <- E in Hj. simpl in *. subst l. split; [|done].
      apply (lines_cons (c :: line)); [|done]. rewrite not_elem_of_cons. split; [congruence|done].
Qed.

Lemma split_newline line l : newline ∉ line →
  split_inclusive (line ++ newline :: l) = (line ++ [newline]) :: split_inclusive l.
Proof.
  induction line as [|c line IH]; simpl; [done|]. rewrite not_elem_of_cons. intros [Hc Hl].
  destruct (Ascii.eqb_spec c newline); [congruence|]. by rewrite IH.
Qed.

Lemma split_no_newline line : newline ∉ line → line ≠ [] → split_inclusive line = [line].
Proof.
  induction line as [|c line IH]; [done|]. rewrite not_elem_of_cons. intros [Hc Hl] _. simpl.
  destruct (Ascii.eqb_spec c newline); [congruence|]. destruct line as [|d line]; [done|].
  by rewrite IH.
Qed.

Lemma split_join ls : lines_ok ls → split_inclusive (mjoin ls) = ls.
Proof.
  induction 1 as [|line Hne Hno|line ls Hno Hls IH]; simpl; [done|..].
  - rewrite app_nil_r. by apply split_no_newline.
  - rewrite <- app_assoc. simpl. by rewrite split_newline, IH.
Qed.

Lemma lines_filter (keep : list ascii → bool) ls : lines_ok ls → lines_ok (List.filter keep ls).
Proof.
  induction 1 as [|line Hne Hno|line ls Hno Hls IH]; simpl; [constructor|..].
  - destruct (keep line); [by constructor|constructor].
  - destruct (keep _); [by constructor|done].
Qed.

(** ** Directives *)

(** The key and value of a line, as the parser reads them for a file. *)
Definition line_setting (file : string) desired line : result string (option (string * string)) :=
  let? directive := parse_line line in
  match directive with
  | None => Ok None
  | Some (key, value) =>
      let? value := match desired !! (file, key) with
                    | Some _ => owned_value value
                    | None => Ok value
                    end in
      Ok (Some (key, of_chars value))
  end.

Fixpoint directives_at (offset : nat) ls (settings : list (option (string * string)))
    : list ManagedDirective :=
  match ls, settings with
  | line :: ls, s :: settings =>
      let next := (offset + length line)%nat in
      match s with
      | Some (key, value) => mkDirective offset next key value :: directives_at next ls settings
      | None => directives_at next ls settings
      end
  | _, _ => []
  end.

Definition setting_keys (settings : list (option (string * string))) : list string :=
  (omap id settings).*1.

Definition step_state (st : parse_state) line (s : option (string * string)) : parse_state :=
  let next := (offset st + length line)%nat in
  match s with
  | Some (key, value) => mkParse (parsed st ++ [mkDirective (offset st) next key value])
                           ({[key]} ∪ seen_keys st) next
  | None => mkParse (parsed st) (seen_keys st) next
  end.

Lemma parse_step_ok file desired st line st' :
  parse_step file desired st line = Ok st' ↔
  ∃ s, line_setting file desired line = Ok s ∧
    match s with Some (key, _) => key ∉ seen_keys st | None => True end ∧ st' = step_state st line s.
Proof.
  unfold parse_step, line_setting. destruct (parse_line line) as [[[key value]|]|]; simpl.
  - destruct (decide (key ∈ seen_keys st)) as [Hk|Hk].
    + split; [done|]. intros (s & Hs & Hn & _). exfalso.
      destruct (match desired !! (file, key) with Some _ => _ | None => _ end); simplify_eq/=. done.
    + destruct (match desired !! (file, key) with Some _ => _ | None => _ end) as [v|]; simpl; [|naive_solver].
      split; [intros [= <-]; by exists (Some (key, of_chars v))|]. by intros (s & [= <-] & _ & ->).
  - split; [intros [= <-]; by exists None|]. by intros (s & [= <-] & _ & ->).
  - naive_solver.
Qed.

Definition step_keys (s : option (string * string)) : list string :=
  match s with Some (key, _) => [key] | None => [] end.

Lemma setting_keys_cons s settings : setting_keys (s :: settings) = step_keys s ++ setting_keys settings.
Proof. by destruct s as [[]|]. Qed.

(** The parser succeeds on lines that all parse and have distinct keys. *)
Lemma parse_lines file desired ls st st' :
  try_fold (parse_step file desired) st ls = Ok st' ↔
  ∃ settings, Forall2 (fun line s => line_setting file desired line = Ok s) ls settings ∧
    NoDup (setting_keys settings) ∧ (∀ k, k ∈ setting_keys settings → k ∉ seen_keys st) ∧
    st' = mkParse (parsed st ++ directives_at (offset st) ls settings)
            (list_to_set (setting_keys settings) ∪ seen_keys st) (offset st + length (mjoin ls)).
Proof.
  revert st. induction ls as [|line ls IH]; intros st; cbn [try_fold].
  { split.
    - intros [= <-]. exists []. split_and!; [constructor|constructor|by intros ? ?%not_elem_of_nil|].
      destruct st. simpl. by rewrite app_nil_r, (left_id_L ∅ (∪)), Nat.add_0_r.
    - intros (settings & ->%Forall2_nil_inv_l & _ & _ & ->). destruct st. simpl.
      by rewrite app_nil_r, (left_id_L ∅ (∪)), Nat.add_0_r. }
  assert (∀ s settings, mkParse (parsed (step_state st line s) ++
      directives_at (offset (step_state st line s)) ls settings)
      (list_to_set (setting_keys settings) ∪ seen_keys (step_state st line s))
      (offset (step_state st line s) + length (mjoin ls)) =
    mkParse (parsed st ++ directives_at (offset st) (line :: ls) (s :: settings))
      (list_to_set (setting_keys (s :: settings)) ∪ seen_keys st)
      (offset st + length (mjoin (line :: ls)))) as Hst.
  { intros s settings. rewrite setting_keys_cons, list_to_set_app_L. simpl. rewrite length_app, Nat.add_assoc.
    destruct s as [[k v]|]; simpl; [|by rewrite (left_id_L ∅ (∪))].
    rewrite <- app_assoc. f_equal.
    by rewrite (right_id_L ∅ (∪)), (assoc_L (∪)), (comm_L (∪) {[k]}). }
  assert (∀ s k, k ∈ seen_keys (step_state st line s) ↔ k ∈ step_keys s ∨ k ∈ seen_keys st) as Hseen.
  { intros [[k' v]|] k; simpl; [rewrite elem_of_union, elem_of_singleton, list_elem_of_singleton|
      rewrite elem_of_nil]; tauto. }
  split.
  - destruct (parse_step file desired st line) as [st1|] eqn:E; simpl; [|done].
    apply parse_step_ok in E as (s & Hs & Hn & ->). intros (settings & Hf & Hd & Hk & ->)%IH.
    exists (s :: settings). setoid_rewrite Hseen in Hk. rewrite setting_keys_cons. split_and!.
    + by constructor.
    + apply NoDup_app. split_and!; [destruct s as [[]|]; [apply NoDup_singleton|constructor]| |done].
      intros k Hk' Hin%Hk. tauto.
    + intros k [Hin|Hin%Hk]%elem_of_app; [|tauto]. destruct s as [[]|]; simpl in Hin;
        [by apply list_elem_of_singleton in Hin as ->|by apply not_elem_of_nil in Hin].
    + by rewrite Hst, setting_keys_cons.
  - intros (settings & Hf & Hd & Hk & ->). apply Forall2_cons_inv_l in Hf as (s & settings' & Hs & Hf & ->).
    rewrite setting_keys_cons in Hd, Hk. apply NoDup_app in Hd as (_ & Hx & Hd).
    rewrite (proj2 (parse_step_ok file desired st line (step_state st line s))).
    + simpl. apply IH. exists settings'. split_and!; [done|done| |by rewrite Hst].
      intros k Hin. rewrite Hseen. intros [Hin'|Hin']; [by apply (Hx k)|].
      apply (Hk k); [|done]. apply elem_of_app. by right.
    + exists s. split_and!; [done| |done]. destruct s as [[k v]|]; [|done]. apply Hk. simpl. left.
Qed.

(** The settings of a file that parses. *)
Lemma managed_directives_ok file content desired ds :
  managed_directives file content desired = Ok ds ↔
  ∃ settings, Forall2 (fun line s => line_setting file desired line = Ok s)
                (split_inclusive content) settings ∧
    NoDup (setting_keys settings) ∧ ds = directives_at 0 (split_inclusive content) settings.
Proof.
  unfold managed_directives. split.
  - intros H. bind_ok H. injection H as <-. apply parse_lines in E as (settings & Hf & Hd & _ & ->).
    by exists settings.
  - intros (settings & Hf & Hd & ->).
    eassert (try_fold (parse_step file desired) (mkParse [] ∅ 0) (split_inclusive content) = Ok _) as E.
    { apply parse_lines. exists settings. split_and!; [done|done| |reflexivity].
      intros k _. apply not_elem_of_empty. }
    by rewrite E.
Qed.

(** ** Removal *)

Definition keeps_key (file : string) desired (key : string) : bool :=
  match desired !! (file, key) with Some None => false | _ => true end.

(** The line stays: it is no directive, or its key is not to be removed. *)
Definition keeps_line (file : string) desired line : bool :=
  match parse_line line with
  | Ok (Some (key, _)) => keeps_key file desired key
  | _ => true
  end.

Definition keeps_setting (file : string) desired (s : option (string * string)) : bool :=
  match s with Some (key, _) => keeps_key file desired key | None => true end.

Lemma keeps_line_setting file desired line s :
  line_setting file desired line = Ok s → keeps_line file desired line = keeps_setting file desired s.
Proof.
  unfold line_setting, keeps_line. destruct (parse_line line) as [[[key value]|]|]; simpl; [|naive_solver|done].
  intros H. bind_ok H. by injection H as <-.
Qed.

Lemma slice_app (a b c : chars) : slice (a ++ b ++ c) (length a) (length a + length b) = Some b.
Proof.
  unfold slice. rewrite (proj2 (Nat.leb_le _ _)) by lia. rewrite !length_app.
  rewrite (proj2 (Nat.leb_le _ _)) by lia. simpl. f_equal.
  rewrite drop_app_length, Nat.add_comm, Nat.add_sub. apply take_app_length.
Qed.

(** The rest of the copy: the text before the cursor is done, [pending] lies
    between the cursor and the next line. *)
Lemma copy_lines file desired ls settings (before pending output : chars) :
  Forall2 (fun line s => line_setting file desired line = Ok s) ls settings →
  let content := before ++ pending ++ mjoin ls in
  (let? st := try_fold (copy_directive file content desired) (output, length before)
                (directives_at (length before + length pending) ls settings) in
   let? rest := ok_or (slice content st.2 (length content)) invalid_range in
   Ok (st.1 ++ rest)) =
  Ok (output ++ pending ++ mjoin (List.filter (keeps_line file desired) ls)).
Proof.
  intros Hf. revert before pending output. induction Hf as [|line s ls settings Hs Hf IH];
    intros before pending output content; subst content.
  { cbn [directives_at try_fold result_bind fst snd mjoin list_join List.filter].
    rewrite !app_nil_r, length_app. pose proof (slice_app before pending []) as E.
    rewrite app_nil_r in E. by rewrite E. }
  cbn [mjoin list_join List.filter]. rewrite (keeps_line_setting _ _ _ _ Hs).
  destruct s as [[key value]|]; cbn [directives_at keeps_setting].
  - set (content := before ++ pending ++ line ++ mjoin ls).
    assert (slice content (length before) (length before + length pending) = Some pending) as E1
      by apply slice_app.
    assert (slice content (length before + length pending) (length before + length pending + length line)
      = Some line) as E2.
    { unfold content. rewrite (app_assoc before), <- length_app. apply slice_app. }
    assert ((before ++ pending ++ line) ++ [] ++ mjoin ls = content) as Hc
      by (unfold content; by rewrite <- !app_assoc).
    assert (length (before ++ pending ++ line) = length before + length pending + length line)%nat as Hl
      by (rewrite !length_app; lia).
    specialize (IH (before ++ pending ++ line) []). cbn zeta in IH. rewrite Hc, Hl in IH.
    cbn [length] in IH. rewrite Nat.add_0_r in IH. clearbody content.
    cbn [try_fold]. unfold copy_directive at 1. cbn [range_start range_end directive_key].
    rewrite E1. cbn [ok_or result_bind]. unfold keeps_key.
    destruct (desired !! (file, key)) as [[v|]|]; rewrite ?E2; cbn [ok_or result_bind];
      rewrite IH; simpl; by rewrite <- ?app_assoc.
  - specialize (IH before (pending ++ line) output). rewrite length_app, Nat.add_assoc, <- app_assoc in IH.
    etransitivity; [exact IH|]. by rewrite <- app_assoc.
Qed.

Definition setting (d : ManagedDirective) : string * string := (directive_key d, directive_value d).

Lemma directive_settings offset ls settings :
  length ls = length settings → setting <$> directives_at offset ls settings = omap id settings.
Proof.
  revert offset settings. induction ls as [|line ls IH]; intros offset [|s settings]; try done.
  intros [= H]. destruct s as [[k v]|]; simpl; [f_equal|]; by apply IH.
Qed.

Lemma filter_settings file desired ls settings :
  Forall2 (fun line s => line_setting file desired line = Ok s) ls settings →
  Forall2 (fun line s => line_setting file desired line = Ok s)
    (List.filter (keeps_line file desired) ls) (List.filter (keeps_setting file desired) settings).
Proof.
  induction 1 as [|line s ls settings Hs Hf IH]; simpl; [constructor|].
  rewrite (keeps_line_setting _ _ _ _ Hs). destruct (keeps_setting file desired s); [by constructor|done].
Qed.

Lemma omap_filter file desired settings :
  omap id (List.filter (keeps_setting file desired) settings) =
  List.filter (fun s => keeps_key file desired s.1) (omap id settings).
Proof.
  induction settings as [|[[k v]|] settings IH]; simpl; [done| |done].
  destruct (keeps_key file desired k); simpl; [by f_equal|done].
Qed.

Lemma filter_sublist {A} (f : A → bool) (l : list A) : List.filter f l `sublist_of` l.
Proof. induction l as [|x l IH]; simpl; [constructor|]. destruct (f x); by constructor. Qed.

Lemma filter_idemp {A} (f : A → bool) (l : list A) : List.filter f (List.filter f l) = List.filter f l.
Proof. induction l as [|x l IH]; simpl; [done|]. destruct (f x) eqn:E; simpl; rewrite ?E; congruence. Qed.

(** A file that parses has a replacement, made of the lines that stay. *)
Lemma replacement_lines file content desired ds :
  managed_directives file content desired = Ok ds →
  replacement_config_file file content desired =
  Ok (mjoin (List.filter (keeps_line file desired) (split_inclusive content))).
Proof.
  intros Hds. unfold replacement_config_file. rewrite Hds. cbn [result_bind].
  apply managed_directives_ok in Hds as (settings & Hf & _ & ->).
  pose proof (copy_lines file desired _ _ [] [] [] Hf) as E. cbn zeta in E. simpl in E.
  rewrite (proj2 (split_inclusive_ok content)) in E. done.
Qed.

Lemma replacement_directives file content desired ds :
  managed_directives file content desired = Ok ds →
  let out := mjoin (List.filter (keeps_line file desired) (split_inclusive content)) in
  split_inclusive out = List.filter (keeps_line file desired) (split_inclusive content) ∧
  ∃ ds', managed_directives file out desired = Ok ds' ∧
    setting <$> ds' = List.filter (fun s => keeps_key file desired s.1) (setting <$> ds).
Proof.
  intros (settings & Hf & Hd & ->)%managed_directives_ok out.
  assert (split_inclusive out = List.filter (keeps_line file desired) (split_inclusive content)) as Eout.
  { apply split_join, lines_filter, split_inclusive_ok. }
  split; [done|]. exists (directives_at 0 (split_inclusive out) (List.filter (keeps_setting file desired) settings)).
  split.
  - apply managed_directives_ok. eexists. split_and!; [|..|reflexivity].
    + rewrite Eout. by apply filter_settings.
    + unfold setting_keys in *. rewrite omap_filter. eapply sublist_NoDup; [exact Hd|].
      apply fmap_sublist, filter_sublist.
  - rewrite !directive_settings; [apply omap_filter|by eapply Forall2_length|].
    rewrite Eout. by eapply Forall2_length, filter_settings.
Qed.

(** Removing settings from a controller's file removes them and nothing else:
    a file that parses has a replacement, whose lines are, byte for byte and in
    order, those of the file without the lines of the settings to remove; it
    parses to the remaining settings, and has nothing left to remove. *)
Theorem replacement_exact file content desired ds :
  managed_directives file content desired = Ok ds →
  ∃ out ds', replacement_config_file file content desired = Ok out ∧
    split_inclusive out = List.filter (keeps_line file desired) (split_inclusive content) ∧
    managed_directives file out desired = Ok ds' ∧
    setting <$> ds' = List.filter (fun s => keeps_key file desired s.1) (setting <$> ds) ∧
    replacement_config_file file out desired = Ok out.
Proof.
  intros H. destruct (replacement_directives _ _ _ _ H) as (Hs & ds' & Hd & Hf).
  eexists _, ds'. split_and!; [by eapply replacement_lines|done|done|done|].
  rewrite (replacement_lines _ _ _ _ Hd). do 2 f_equal. by rewrite Hs, filter_idemp.
Qed.

Definition example_desired : ConfigEntries :=
  <[("engine.cfg", "OLD") := None]> {[("engine.cfg", "MODE") := Some "on"]}.

Definition example_file : list ascii :=
  to_chars ("# engine" +++ of_chars [newline] +++ "OLD = 1" +++ of_chars [newline] +++
            "keep x=y" +++ of_chars [newline]).

Lemma replacement_exact_witness :
  ∃ ds, managed_directives "engine.cfg" example_file example_desired = Ok ds ∧
  ∃ out ds', replacement_config_file "engine.cfg" example_file example_desired = Ok out ∧
    managed_directives "engine.cfg" out example_desired = Ok ds'.
Proof.
  assert (is_ok (managed_directives "engine.cfg" example_file example_desired) = true) as Hok
    by (vm_compute; reflexivity).
  destruct (managed_directives "engine.cfg" example_file example_desired) as [ds|] eqn:E;
    [|discriminate Hok].
  exists ds. split; [reflexivity|].
  destruct (replacement_exact _ _ _ _ E) as (out & ds' & H1 & _ & H2 & _).
  exists out, ds'. split; [exact H1|exact H2].
Defined.

(** ** Reading back *)

(** The returned files have the setting at this value, or not at all. *)
Definition holds (files : list (string * list ascii)) desired (k : string * string)
    (value : option string) : Prop :=
  ∃ content ds, (k.1, content) ∈ files ∧ managed_directives k.1 content desired = Ok ds ∧
    match value with
    | Some v => (k.2, v) ∈ setting <$> ds
    | None => k.2 ∉ directive_key <$> ds
    end.

Lemma directives_nodup file content desired ds :
  managed_directives file content desired = Ok ds → NoDup (directive_key <$> ds).
Proof.
  intros (settings & Hf & Hd & ->)%managed_directives_ok.
  replace (directive_key <$> directives_at 0 (split_inclusive content) settings) with (setting_keys settings);
    [done|]. unfold setting_keys.
  rewrite <- (directive_settings 0 (split_inclusive content)) by (by eapply Forall2_length).
  by rewrite <- list_fmap_compose.
Qed.

(** The values of one file, after its directives. *)
Lemma file_values (name : string) desired (ds : list ManagedDirective) (values : ConfigEntries)
    (k : string * string) :
  let values' := foldl (fun values d =>
    match desired !! (name, directive_key d) with
    | Some _ => <[(name, directive_key d) := Some (directive_value d)]> values
    | None => values
    end) values ds in
  NoDup (directive_key <$> ds) → is_Some (desired !! k) →
  (k.1 ≠ name ∨ k.2 ∉ directive_key <$> ds) ∧ values' !! k = values !! k ∨
  k.1 = name ∧ ∃ v, (k.2, v) ∈ setting <$> ds ∧ values' !! k = Some (Some v).
Proof.
  intros values' Hd [x Hx]. subst values'. induction ds as [|d ds IH] using rev_ind; simpl.
  { left. split; [|done]. right. apply not_elem_of_nil. }
  rewrite foldl_app. simpl. rewrite !fmap_app in *. apply NoDup_app in Hd as (Hd & Hn & _).
  destruct (decide (k = (name, directive_key d))) as [->|Hk].
  - right. split; [done|]. exists (directive_value d). split; [apply elem_of_app; right; left|].
    simpl. rewrite Hx. by rewrite lookup_insert_eq.
  - assert (k.1 ≠ name ∨ k.2 ≠ directive_key d) as Hk'.
    { destruct (decide (k.1 = name)) as [<-|]; [right|by left]. intros E. apply Hk. by rewrite <- E, <- surjective_pairing. }
    assert (∀ m : ConfigEntries, match desired !! (name, directive_key d) with
      | Some _ => <[(name, directive_key d) := Some (directive_value d)]> m
      | None => m end !! k = m !! k) as ->.
    { intros m. destruct (desired !! (name, directive_key d)); [|done]. by rewrite lookup_insert_ne. }
    destruct (IH Hd) as [[H ->]|(H1 & v & H2 & ->)]; [left|right].
    + split; [|done]. rewrite not_elem_of_app. simpl. rewrite list_elem_of_singleton.
      destruct H as [|H]; [by left|]. destruct Hk'; [by left|right; done].
    + split; [done|]. exists v. split; [apply elem_of_app; by left|done].
Qed.

Lemma check_duplicates files returned :
  try_fold check_duplicate ∅ files = Ok returned → NoDup files.*1 ∧ returned = list_to_set files.*1.
Proof.
  apply (try_fold_ind _ (fun don r => NoDup don.*1 ∧ r = list_to_set don.*1)); [by split; [constructor|]|].
  intros don f b b' _ [Hd ->] H. unfold check_duplicate in H. bind_ok H. injection H as <-.
  rewrite elem_of_list_to_set in Hnew. rewrite fmap_app. simpl. split.
  - apply NoDup_app. split_and!; [done| |apply NoDup_singleton]. by intros k Hk ->%list_elem_of_singleton.
  - rewrite list_to_set_app_L. simpl. by rewrite (right_id_L ∅ (∪)), (comm_L (∪)).
Qed.

Lemma holds_weaken files files' desired k v :
  (∀ f, f ∈ files → f ∈ files') → holds files desired k v → holds files' desired k v.
Proof. intros H (content & ds & Hf & ?). exists content, ds. split; [by apply H|done]. Qed.

(** The snapshot of the files [don]. *)
Definition snapshot_of desired (don : list (string * list ascii)) (snap : ManagedConfigSnapshot) : Prop :=
  (∀ k, is_Some (desired !! k) → k.1 ∈ don.*1 →
     ∃ v, snapshot_values snap !! k = Some v ∧ holds don desired k v) ∧
  (∀ k, is_Some (desired !! k) → k.1 ∉ don.*1 → snapshot_values snap !! k = Some None).

Lemma add_file_snapshot desired don f snap snap' :
  f.1 ∉ don.*1 → snapshot_of desired don snap → add_file desired snap f = Ok snap' →
  snapshot_of desired (don ++ [f]) snap'.
Proof.
  intros Hf [Hin Hout] H. destruct f as [name content]. unfold add_file in H. unfold snapshot_of.
  rewrite fmap_app. simpl. setoid_rewrite not_elem_of_app. setoid_rewrite elem_of_app.
  setoid_rewrite list_elem_of_singleton. assert (∀ f, f ∈ don → f ∈ don ++ [(name, content)]) as Hsub.
  { intros f Hf'. apply elem_of_app. by left. }
  destruct (bool_decide (name ∈ requested_files desired)) eqn:Er; simpl in H.
  - bind_ok H. injection H as <-. simpl. pose proof (directives_nodup _ _ _ _ E) as Hd. split.
    + intros k Hk [Hk'|Hk']; destruct (file_values name desired a (snapshot_values snap) k Hd Hk)
        as [[Hn ->]|(Hkn & v & Hv & ->)]; try (rewrite Hkn in Hk'; done).
      * destruct (Hin k Hk Hk') as (v & ? & ?). exists v. split; [done|]. by eapply holds_weaken.
      * exists None. split; [apply Hout; [done|by rewrite Hk']|]. exists content, a. rewrite Hk'.
        split_and!; [apply elem_of_app; right; left|done|]. destruct Hn; [congruence|done].
      * exists (Some v). split; [done|]. exists content, a. rewrite Hkn.
        split_and!; [apply elem_of_app; right; left|done..].
    + intros k Hk [Hk1 Hk2]. destruct (file_values name desired a (snapshot_values snap) k Hd Hk)
        as [[_ ->]|[? _]]; [by apply Hout|done].
  - injection H as <-. apply bool_decide_eq_false in Er. split.
    + intros k Hk [Hk'|Hk']; [|exfalso].
      * destruct (Hin k Hk Hk') as (v & ? & ?). exists v. split; [done|]. by eapply holds_weaken.
      * apply Er. unfold requested_files. apply elem_of_map. exists k. split; [done|]. by apply elem_of_dom.
    + intros k Hk [Hk1 _]. by apply Hout.
Qed.

Lemma complete_config_values files desired snap :
  complete_config (Some files) desired = Ok snap →
  ∀ k, is_Some (desired !! k) → ∃ v, snapshot_values snap !! k = Some v ∧ holds files desired k v.
Proof.
  unfold complete_config. cbn [ok_or result_bind]. intros H. bind_ok H.
  apply check_duplicates in E as [Hd ->]. apply negb_false_iff, bool_decide_eq_true in E0.
  assert (snapshot_of desired files snap) as [Hin _].
  { revert Hd. revert H. apply (try_fold_ind _ (fun don s => NoDup don.*1 → snapshot_of desired don s)).
    - intros _. split; [by intros ?? ?%not_elem_of_nil|]. intros k [x Hx] _. simpl. by rewrite lookup_fmap, Hx.
    - intros don f b b' _ IH Hf. rewrite fmap_app. intros (Hd & Hn & _)%NoDup_app.
      eapply add_file_snapshot; [|by apply IH|done]. intros Hin. apply (Hn _ Hin). left. }
  intros k Hk. apply Hin; [done|]. apply (elem_of_list_to_set (C := gset string)), E0.
  unfold requested_files. apply elem_of_map. exists k. split; [done|]. by apply elem_of_dom.
Qed.

Lemma config_entries_elem desired k v : (k, v) ∈ config_entries desired ↔ desired !! k = Some v.
Proof. unfold config_entries. rewrite (merge_sort_Permutation config_entry_le). apply elem_of_map_to_list. Qed.

Lemma config_matches_spec snap desired :
  config_matches snap desired = true ↔ ∀ k v, desired !! k = Some v → snapshot_values snap !! k = Some v.
Proof.
  unfold config_matches. rewrite forallb_forall. split.
  - intros H k v Hk. apply config_entries_elem, list_elem_of_In, H in Hk. by apply bool_decide_eq_true in Hk.
  - intros H [k v] Hk%list_elem_of_In%config_entries_elem. by apply bool_decide_eq_true, H.
Qed.

(** ** Reconciliation *)

Section reconcile.
Context {D : Type} `{!Nmxc D}.
Implicit Types (d : D).

(** The device after some reads of the requested files. *)
Inductive reads desired d : D → Prop :=
| reads_none : reads desired d d
| reads_more d' : reads desired d d' →
    reads desired d (get_static_config_files d' (ordered String.le (requested_files desired))).1.

Lemma read_config_reads desired d d1 : reads desired d d1 → reads desired d (read_config d1 desired).1.
Proof.
  intros H. unfold read_config. case_bool_decide; [done|]. apply reads_more in H.
  by destruct (get_static_config_files d1 _) as [d' [r|]].
Qed.

(** A loop that says it wrote nothing only read. *)
Lemma device_fold_reads {A S} (f : D → S → A → D * result string S) (wrote : S → bool) desired d d1 s l d' s' :
  (∀ d1 s x d2 s2, f d1 s x = (d2, Ok s2) →
     (wrote s = true → wrote s2 = true) ∧ (wrote s2 = false → reads desired d d1 → reads desired d d2)) →
  device_fold f d1 s l = (d', Ok s') →
  (wrote s = true → wrote s' = true) ∧ (wrote s' = false → reads desired d d1 → reads desired d d').
Proof.
  intros Hf. revert d1 s. induction l as [|x l IH]; intros d1 s; simpl; [by intros [= <- <-]|].
  destruct (f d1 s x) as [d2 [s2|]] eqn:E; [|done]. intros H. destruct (Hf _ _ _ _ _ E) as [H1 H2].
  destruct (IH _ _ H) as [H3 H4]. split; [auto|]. intros Hw Hr. apply H4; [done|]. apply H2; [|done].
  destruct (wrote s2) eqn:E2; [|done]. by rewrite H3 in Hw.
Qed.

Lemma remove_from_file_reads desired d d1 changed file d2 st :
  remove_from_file desired d1 changed file = (d2, Ok st) →
  (changed = true → st.2 = true) ∧ (st.2 = false → reads desired d d1 → reads desired d d2).
Proof.
  unfold remove_from_file. pose proof (read_config_reads desired d d1) as Hr.
  destruct (read_config d1 desired) as [d3 [current|]]; [|done].
  destruct (snapshot_files current !! file); [|done]. destruct (replacement_config_file _ _ _); [|done].
  case_bool_decide; [by intros [= <- <-]|]. destruct (set_static_config_file _ _ _) as [d4 ?].
  destruct (read_config d4 desired) as [d5 [current'|]]; [|done].
  destruct (snapshot_files current' !! file); [|done]. case_bool_decide; [|done]. by intros [= <- <-].
Qed.

Lemma write_setting_reads desired d d1 st entry d2 st' :
  write_setting desired d1 st entry = (d2, Ok st') →
  (st.2 = true → st'.2 = true) ∧ (st'.2 = false → reads desired d d1 → reads desired d d2).
Proof.
  unfold write_setting. destruct st as [current changed], entry as [k [v|]]; simpl; [|by intros [= <- <-]].
  case_bool_decide; [by intros [= <- <-]|]. destruct (set_static_config _ _ _ _) as [d4 ?].
  destruct (read_config d4 desired) as [d5 [current'|]]; [|done]. case_bool_decide; [|done].
  by intros [= <- <-].
Qed.

Lemma read_config_ok desired d d' snap :
  read_config d desired = (d', Ok snap) → desired ≠ ∅ →
  ∃ files, get_static_config_files d (ordered String.le (requested_files desired)) = (d', Some (Some files)) ∧
    complete_config (Some files) desired = Ok snap.
Proof.
  unfold read_config. intros H Hne. rewrite bool_decide_eq_false_2 in H by done.
  destruct (get_static_config_files d _) as [d1 [[files|]|]]; [|done..]. injection H as <- H. eauto.
Qed.

Lemma deletions_matches snap desired :
  config_matches snap desired = true → ordered String.le (deletions desired snap) = [].
Proof.
  intros H. assert (deletions desired snap = ∅) as ->.
  { apply set_eq. intros file. unfold deletions. rewrite elem_of_list_to_set, list_elem_of_omap.
    split; [|by intros ?%elem_of_empty]. intros ([[f k] v] & Hin%config_entries_elem & Hv). exfalso.
    rewrite config_matches_spec in H. rewrite (H _ _ Hin) in Hv. by destruct v. }
  unfold ordered. by rewrite elements_empty.
Qed.

Lemma write_matches snap desired d b :
  config_matches snap desired = true →
  device_fold (write_setting desired) d (snap, b) (config_entries desired) = (d, Ok (snap, b)).
Proof.
  intros H. rewrite config_matches_spec in H.
  assert (∀ k v, (k, v) ∈ config_entries desired → snapshot_values snap !! k = Some v) as Hl.
  { intros k v Hin. by apply H, config_entries_elem. }
  induction (config_entries desired) as [|[k v] l IH]; [done|]. cbn [device_fold].
  assert (write_setting desired d (snap, b) (k, v) = (d, Ok (snap, b))) as ->.
  { unfold write_setting. destruct v as [v|]; [|done]. simpl. rewrite (Hl k (Some v)) by left.
    by rewrite bool_decide_eq_true_2. }
  apply IH. intros k' v' Hin. apply Hl. by right.
Qed.

(** C25. A reconciliation that reports success was verified: the last thing it did
    was to read the requested files, and what the controller returned had every
    setting at its desired value and no setting that had to go; when it reports
    no change it only read.  Nothing is assumed about the controller. *)
Theorem reconcile_verified d desired d' changed :
  reconcile_config d desired = (d', Ok changed) →
  (desired = ∅ ∧ d' = d ∧ changed = false ∨
   ∃ d0 files, get_static_config_files d0 (ordered String.le (requested_files desired)) = (d', Some (Some files)) ∧
     ∀ k v, desired !! k = Some v → holds files desired k v) ∧
  (changed = false → reads desired d d').
Proof.
  unfold reconcile_config. pose proof (read_config_reads desired d d (reads_none _ _)) as Hr1.
  destruct (read_config d desired) as [d1 [current|]] eqn:E1; [|done].
  destruct (device_fold _ d1 _ _) as [d2 [st|]] eqn:E2; [|done].
  destruct (device_fold _ d2 _ _) as [d3 [[current' changed']|]] eqn:E3; [|done].
  destruct (read_config d3 desired) as [d4 [final|]] eqn:E4; [|done].
  destruct (config_matches final desired) eqn:Em; [|done]. intros [= <- <-].
  destruct (device_fold_reads _ snd desired d d1 _ _ _ _ (fun d1 s => remove_from_file_reads desired d d1 s.2) E2)
    as [_ H2].
  destruct (device_fold_reads _ snd desired d d2 _ _ _ _ (write_setting_reads desired d) E3) as [H3w H3].
  split.
  - destruct (decide (desired = ∅)) as [->|Hne].
    + left. unfold read_config in E1, E4. rewrite bool_decide_eq_true_2 in E1, E4 by done.
      injection E1 as <- <-. injection E4 as <- <-.
      assert (config_matches (mkSnapshot ∅ ∅) ∅ = true) as He by (by apply config_matches_spec).
      rewrite deletions_matches in E2 by done. injection E2 as <- <-.
      rewrite write_matches in E3 by done. by injection E3 as <- _ <-.
    + right. destruct (read_config_ok _ _ _ _ E4 Hne) as (files & Hg & Hc). exists d3, files. split; [done|].
      intros k v Hk. destruct (complete_config_values _ _ _ Hc k) as (w & Hw & Hh); [by eexists|].
      rewrite config_matches_spec in Em. specialize (Em k v Hk). congruence.
  - intros Hch. simpl in *. pose proof (read_config_reads desired d d3) as H4. rewrite E4 in H4. simpl in H4.
    apply H4, H3; [done|]. apply H2; [|done]. destruct (st.2) eqn:Es; [|done]. by rewrite H3w in Hch.
Qed.

(** Reconciliation is idempotent: when the controller keeps returning files
    that have every setting as desired, it succeeds, reports no change, and does
    nothing but read. *)
Theorem reconcile_settled d desired files snap :
  (∀ d1, reads desired d d1 →
     (get_static_config_files d1 (ordered String.le (requested_files desired))).2 = Some (Some files)) →
  complete_config (Some files) desired = Ok snap → config_matches snap desired = true →
  ∃ d', reconcile_config d desired = (d', Ok false) ∧ reads desired d d'.
Proof.
  intros Hget Hc Hm.
  assert (∀ d1, reads desired d d1 → ∃ d2 s, read_config d1 desired = (d2, Ok s) ∧ reads desired d d2 ∧
    config_matches s desired = true) as Hread.
  { intros d1 Hr. unfold read_config. case_bool_decide as He.
    - subst. exists d1, (mkSnapshot ∅ ∅). split_and!; [done|done|by apply config_matches_spec].
    - specialize (Hget _ Hr). apply reads_more in Hr. destruct (get_static_config_files d1 _) as [d2 r].
      simpl in *. subst r. exists d2, snap. by rewrite Hc. }
  destruct (Hread d) as (d1 & s1 & E1 & Hr1 & Hm1); [constructor|].
  destruct (Hread d1 Hr1) as (d2 & s2 & E2 & Hr2 & Hm2). exists d2. split; [|done].
  unfold reconcile_config. rewrite E1, deletions_matches by done. simpl.
  by rewrite write_matches, E2, Hm2 by done.
Qed.
End reconcile.

(** ** A controller that stores what it is given *)

(** Files in memory; a value that is set is appended to its file. *)
#[local] Instance memory_nmxc : Nmxc (gmap string (list ascii)) := {|
  get_static_config_files d names :=
    (d, Some (Some (omap (fun name => (fun content => (name, content)) <$> d !! name) names)));
  set_static_config_file d name content := (<[name := content]> d, true);
  set_static_config d name key value :=
    (<[name := default [] (d !! name) ++ to_chars (key +++ "=" +++ value) ++ [newline]]> d, true);
|}.

Lemma reconcile_verified_witness :
  ∃ d' changed, reconcile_config {["engine.cfg" := example_file]} example_desired = (d', Ok changed) ∧
    (changed = false → reads example_desired {["engine.cfg" := example_file]} d').
Proof.
  assert (is_ok (reconcile_config {["engine.cfg" := example_file]} example_desired).2 = true) as Hok
    by (vm_compute; reflexivity).
  destruct (reconcile_config {["engine.cfg" := example_file]} example_desired) as [d' [changed|]] eqn:E;
    [|discriminate Hok].
  exists d', changed. split; [reflexivity|]. exact (proj2 (reconcile_verified _ _ _ _ E)).
Defined.

Definition settled_file : list ascii := to_chars ("MODE=on" +++ of_chars [newline]).

Lemma reconcile_settled_witness :
  ∃ d', reconcile_config {["engine.cfg" := settled_file]} example_desired = (d', Ok false) ∧
    reads example_desired {["engine.cfg" := settled_file]} d'.
Proof.
  assert (match complete_config (Some [("engine.cfg", settled_file)]) example_desired with
          | Ok snap => config_matches snap example_desired
          | Err _ => false
          end = true) as Hok by (vm_compute; reflexivity).
  destruct (complete_config (Some [("engine.cfg", settled_file)]) example_desired) as [snap|] eqn:E;
    [|discriminate Hok].
  apply (reconcile_settled _ _ [("engine.cfg", settled_file)] snap).
  - intros d1 Hr. assert (d1 = {["engine.cfg" := settled_file]}) as ->.
    { induction Hr as [|d1 _ IH]; [reflexivity|exact IH]. }
    vm_compute. reflexivity.
  - exact E.
  - exact Hok.
Defined.
