(* ===== verification/FabricHealth.v ===== *)
(** * Health and membership of a fabric

    [api/grpc/scaleupfabricmanager_handlers/handlers_v2]: what the answers of a
    controller say of the fabric that it runs ([observations/health.rs],
    [observations/sampling.rs]), and whether the live members are the expected ones
    ([layout/observations/health.rs], [layout/observations/sampling.rs]).  The
    messages are those of [api/grpc/proto/switch_client.proto]; an enum field is its
    number, as on the wire.

    The theorems: a component is reported abnormal exactly when a fault was
    reported, and normal exactly on complete evidence; the membership matches
    exactly when every device is known and every switch was seen. *)

From S2P Require Import Prelude RustStd RustStr FabricLayout FabricPlanner.
Local Open Scope string_scope.
Local Open Scope list_scope.

Module FabricHealth.
Import FabricLayout Planner.

(** ** Messages *)

Record NmxLocationInfo := mkLocationInfo { loc_serial : string; loc_tray_index : N }.

Record NmxDomainStateInfo := mkDomainState { control_plane : Z; nmx_controller_health : Z }.

(** [NmxSwitchNodeInfo] and [NmxComputeNodeInfo]; the count is of switches or GPUs. *)
Record NmxNodeInfo := mkNode { node_loc : option NmxLocationInfo; node_count : N; node_health : Z }.

Record NmxPortTopoInfo := mkPort {
  port_type : Z;
  physical_state : Z;
  logical_state : Z;
  port_admin_state : Z;
}.

(** [NmxSwitchTopoInfo] and [NmxGpuTopoInfo] *)
Record NmxTopoInfo := mkTopo {
  topo_loc : option NmxLocationInfo;
  num_ports : N;
  device_health : Z;
  port_topo_info : list NmxPortTopoInfo;
}.

Inductive Device :=
| SwitchTopoInfo (info : NmxTopoInfo)
| GpuTopoInfo (info : NmxTopoInfo).

(** [NmxFmTopologyInfo]: its devices, of which one may be of no known kind. *)
Abbreviation Topology := (list (option Device)) (only parsing).

Record FabricSamples := mkSamples {
  domain : result string NmxDomainStateInfo;
  topology : result string Topology;
  switch_nodes : result string (list NmxNodeInfo);
  compute_nodes : result string (list NmxNodeInfo);
}.

(** ** Status *)

Inductive ControlPlaneState := PlaneUnknown | Configured | PlaneFailed.
Inductive ReportedStatus := Unknown | Normal | Abnormal.

#[export] Instance ControlPlaneState_eq_dec : EqDecision ControlPlaneState.
Proof. solve_decision. Defined.
#[export] Instance ReportedStatus_eq_dec : EqDecision ReportedStatus.
Proof. solve_decision. Defined.

Record ComponentStatus := mkStatus {
  controller : ReportedStatus;
  compute : ReportedStatus;
  switches : ReportedStatus;
  links : ReportedStatus;
}.

(** The last values of the enums of health, whose first two are unknown and healthy. *)
Definition NmxControllerHealth : Z := 4.
Definition ComputeNodeHealth : Z := 3.
Definition SwitchNodeHealth : Z := 3.
Definition SwitchHealth : Z := 3.
Definition GpuHealth : Z := 4.

Definition reported_health (last raw : Z) : ReportedStatus :=
  if (raw =? 1)%Z then Normal
  else if (2 <=? raw)%Z && (raw <=? last)%Z then Abnormal
  else Unknown.

Definition worse (aggregate state : ReportedStatus) : ReportedStatus :=
  match aggregate, state with
  | Abnormal, _ | _, Abnormal => Abnormal
  | Unknown, _ | _, Unknown => Unknown
  | _, _ => Normal
  end.

Definition aggregate_health (states : list ReportedStatus) : ReportedStatus :=
  match states with [] => Unknown | _ => foldl worse Normal states end.

Definition u64_max : N := 18446744073709551615.

Definition observation_identity (location : option NmxLocationInfo) : option (string * N) :=
  location ← location;
  if is_blank (loc_serial location) || (loc_tray_index location =? u64_max)%N then None
  else Some (loc_serial location, loc_tray_index location).

Definition operational_link_health (port : NmxPortTopoInfo) : option ReportedStatus :=
  if (port_admin_state port =? 2)%Z then None
  else if (port_type port =? 4)%Z || (port_type port =? 5)%Z then None
  else if negb (1 <=? port_type port)%Z || negb (port_type port <=? 3)%Z then Some Unknown
  else if (port_admin_state port =? 3)%Z then Some Abnormal
  else if negb (port_admin_state port =? 1)%Z then Some Unknown
  else
    let physical :=
      if (physical_state port =? 5)%Z then Normal
      else if (1 <=? physical_state port)%Z && (physical_state port <=? 7)%Z then Abnormal
      else Unknown in
    let logical :=
      if (logical_state port =? 4)%Z then Normal
      else if (1 <=? logical_state port)%Z && (logical_state port <=? 5)%Z then Abnormal
      else Unknown in
    Some (aggregate_health [physical; logical]).

Definition ok_of {A} (r : result string A) : option A := match r with Ok a => Some a | Err _ => None end.

(** The rows of a node list that count, by their health. *)
Definition counted (last : Z) (nodes : option (list NmxNodeInfo)) : list ReportedStatus :=
  (fun n => reported_health last (node_health n)) <$>
  filter (fun n => (0 < node_count n)%N ∨ is_Some (observation_identity (node_loc n))) (default [] nodes).

(** Compute nodes, switches and links. *)
Definition health_without_topology (switch_nodes compute_nodes : option (list NmxNodeInfo))
    : ReportedStatus * ReportedStatus * ReportedStatus :=
  (aggregate_health (counted ComputeNodeHealth compute_nodes ++ [Unknown]),
   aggregate_health (counted SwitchNodeHealth switch_nodes ++ [Unknown]),
   Unknown).

(** The rows of the node list with the identity of a device. *)
Definition rows_of (last : Z) (identity : option (string * N)) (nodes : list NmxNodeInfo) : list ReportedStatus :=
  (fun n => reported_health last (node_health n)) <$>
  filter (fun n => is_Some identity ∧ observation_identity (node_loc n) = identity) nodes.

(** What the loop over the devices collects. *)
Record Collected := mkCollected {
  c_compute : list ReportedStatus;
  c_switches : list ReportedStatus;
  c_links : list ReportedStatus;
  c_observed_switches : gset (string * N);
  c_observed_computes : gset (string * N);
}.

(** What a device of a kind says of itself, and its rows. *)
Definition device_states (last node_last : Z) (nodes : option (list NmxNodeInfo)) (info : NmxTopoInfo)
    : list ReportedStatus :=
  reported_health last (device_health info) ::
  match nodes with
  | Some nodes => [aggregate_health (rows_of node_last (observation_identity (topo_loc info)) nodes)]
  | None => []
  end.

Definition seen (identity : option (string * N)) : gset (string * N) :=
  match identity with Some i => {[i]} | None => ∅ end.

Definition port_states (info : NmxTopoInfo) : list ReportedStatus :=
  (if (N.of_nat (length (port_topo_info info)) <? num_ports info)%N then [Unknown] else []) ++
  omap operational_link_health (port_topo_info info).

Definition collect_device (switch_nodes compute_nodes : option (list NmxNodeInfo)) (c : Collected)
    (device : option Device) : Collected :=
  match device with
  | Some (SwitchTopoInfo info) =>
      mkCollected (c_compute c) (c_switches c ++ device_states SwitchHealth SwitchNodeHealth switch_nodes info)
        (c_links c ++ port_states info) (c_observed_switches c ∪ seen (observation_identity (topo_loc info)))
        (c_observed_computes c)
  | Some (GpuTopoInfo info) =>
      mkCollected (c_compute c ++ device_states GpuHealth ComputeNodeHealth compute_nodes info) (c_switches c)
        (c_links c ++ port_states info) (c_observed_switches c)
        (c_observed_computes c ∪ seen (observation_identity (topo_loc info)))
  | None =>
      mkCollected (c_compute c ++ [Unknown]) (c_switches c ++ [Unknown]) (c_links c ++ [Unknown])
        (c_observed_switches c) (c_observed_computes c)
  end.

(** [ObservedIdentity], without the label of the caller. *)
Definition identity_of (n : ObservedPlacement) : string * N :=
  (chassis_serial_number n, tray_index (position n)).

Definition missing {A} (nodes : option A) : list ReportedStatus :=
  match nodes with None => [Unknown] | Some _ => [] end.

Definition unseen (expected : list (string * N)) (observed : gset (string * N)) : bool :=
  existsb (fun i => negb (bool_decide (i ∈ observed))) expected.

Definition data_plane_health (topology : option Topology) (switch_nodes compute_nodes : option (list NmxNodeInfo))
    (expected_switches expected_computes : list (string * N)) : ReportedStatus * ReportedStatus * ReportedStatus :=
  match topology with
  | None => health_without_topology switch_nodes compute_nodes
  | Some devices =>
      let c := foldl (collect_device switch_nodes compute_nodes)
                 (mkCollected (missing compute_nodes) (missing switch_nodes) [] ∅ ∅) devices in
      (aggregate_health (c_compute c ++
         if bool_decide (c_observed_computes c = ∅) || unseen expected_computes (c_observed_computes c)
         then [Unknown] else []),
       aggregate_health (c_switches c ++
         if unseen expected_switches (c_observed_switches c) then [Unknown] else []),
       aggregate_health (c_links c))
  end.

Definition control_plane_of (d : NmxDomainStateInfo) : ControlPlaneState :=
  if (control_plane d =? 3)%Z then Configured
  else if (control_plane d =? 4)%Z || (control_plane d =? 5)%Z then PlaneFailed
  else PlaneUnknown.

(** [interpret_group] of [observations/health.rs] *)
Definition interpret_samples (samples : FabricSamples) (expected_switches expected_computes : list (string * N))
    : ControlPlaneState * ComponentStatus :=
  let '(state, ctrl) :=
    match domain samples with
    | Ok d => (control_plane_of d, reported_health NmxControllerHealth (nmx_controller_health d))
    | Err _ => (PlaneUnknown, Unknown)
    end in
  let switch_nodes := ok_of (switch_nodes samples) in
  let compute_nodes := ok_of (compute_nodes samples) in
  let '(comp, sw, ln) :=
    data_plane_health (ok_of (topology samples)) switch_nodes compute_nodes expected_switches expected_computes in
  let '(node_compute, node_switches, _) := health_without_topology switch_nodes compute_nodes in
  (state, mkStatus ctrl (if bool_decide (node_compute = Abnormal) then node_compute else comp)
            (if bool_decide (node_switches = Abnormal) then node_switches else sw) ln).

(** ** Membership *)

Record GroupObservation := mkObservation {
  control_plane_state : ControlPlaneState;
  controller_observed : bool;
  observation_errors : list string;
  health : ComponentStatus;
  membership_observed : bool;
  membership_matches : bool;
}.

(** The body of the loop of [live_membership_matches]; [None]: the membership does not match. *)
Definition check_member (expected_switches expected_computes : gset (string * N)) (observed : option (gset (string * N)))
    (device : option Device) : option (gset (string * N)) :=
  observed ← observed;
  match device with
  | Some (SwitchTopoInfo info) =>
      i ← observation_identity (topo_loc info);
      if bool_decide (i ∈ expected_switches) then Some ({[i]} ∪ observed) else None
  | Some (GpuTopoInfo info) =>
      if bool_decide (expected_computes = ∅) then Some observed
      else
        i ← observation_identity (topo_loc info);
        if bool_decide (i ∈ expected_computes) then Some observed else None
  | None => None
  end.

Definition live_membership_matches (devices : Topology) (expected_switches expected_computes : list ObservedPlacement) : bool :=
  let sw : gset (string * N) := list_to_set (identity_of <$> expected_switches) in
  let comp : gset (string * N) := list_to_set (identity_of <$> expected_computes) in
  match foldl (check_member sw comp) (Some ∅) devices with
  | Some observed => bool_decide (sw = observed)
  | None => false
  end.

Definition err_of {A} (r : result string A) : list string := match r with Err e => [e] | Ok _ => [] end.

(** [interpret_group] of [layout/observations/health.rs] *)
Definition interpret_group (samples : FabricSamples) (expected_switches expected_computes : list ObservedPlacement)
    : GroupObservation :=
  let '(state, status) :=
    interpret_samples samples (identity_of <$> expected_switches) (identity_of <$> expected_computes) in
  let matching :=
    match topology samples with
    | Ok devices => live_membership_matches devices expected_switches expected_computes
    | Err _ => false
    end in
  mkObservation state (is_ok (domain samples))
    (err_of (domain samples) ++ err_of (topology samples) ++ err_of (switch_nodes samples) ++
     err_of (compute_nodes samples) ++
     if is_ok (topology samples) && negb matching
     then ["live topology membership does not match the resolved physical identities"] else [])
    status (is_ok (topology samples)) matching.

Definition is_controller_ready (o : GroupObservation) : bool :=
  bool_decide (control_plane_state o = Configured) && bool_decide (controller (health o) = Normal).

(** The checks of [observe_group] before the controller is asked. *)
Definition check_expected (expected_switches expected_computes : list ObservedPlacement) : result string unit :=
  if bool_decide (expected_switches = []) ||
     existsb (fun n => is_blank (chassis_serial_number n)) (expected_switches ++ expected_computes)
  then Err ("group observation requires at least one switch and known physical identities for all switches " +++
            "and computes")
  else if negb (bool_decide (NoDup (identity_of <$> expected_switches))) ||
          negb (bool_decide (NoDup (identity_of <$> expected_computes)))
  then Err "group observation contains duplicate expected physical identities"
  else Ok tt.
End FabricHealth.

Module FabricHealthTheorems.
Import FabricLayout Planner FabricHealth.

(** ** Status *)

Lemma worse_abnormal a b : worse a b = Abnormal ↔ a = Abnormal ∨ b = Abnormal.
Proof. by destruct a, b; simpl; intuition. Qed.

Lemma worse_normal a b : worse a b = Normal ↔ a = Normal ∧ b = Normal.
Proof. by destruct a, b; simpl; intuition. Qed.

Lemma aggregate_abnormal l : aggregate_health l = Abnormal ↔ Abnormal ∈ l.
Proof.
  assert (∀ a, foldl worse a l = Abnormal ↔ a = Abnormal ∨ Abnormal ∈ l) as Hf.
  { induction l as [|x l IH]; intros a; simpl; [set_solver|]. rewrite IH, worse_abnormal, elem_of_cons. intuition. }
  unfold aggregate_health. destruct l as [|x l]; [set_solver|]. rewrite Hf. intuition done.
Qed.

Lemma aggregate_normal l : aggregate_health l = Normal ↔ l ≠ [] ∧ ∀ x, x ∈ l → x = Normal.
Proof.
  assert (∀ a, foldl worse a l = Normal ↔ a = Normal ∧ ∀ x, x ∈ l → x = Normal) as Hf.
  { induction l as [|x l IH]; intros a; simpl; [set_solver|]. rewrite IH, worse_normal. set_solver. }
  unfold aggregate_health. destruct l as [|x l]; [by intuition|]. rewrite Hf. intuition done.
Qed.

(** The devices of a kind. *)
Definition switch_info (d : Device) : option NmxTopoInfo :=
  match d with SwitchTopoInfo info => Some info | GpuTopoInfo _ => None end.
Definition gpu_info (d : Device) : option NmxTopoInfo :=
  match d with GpuTopoInfo info => Some info | SwitchTopoInfo _ => None end.

Section Kind.
Variable kind : Device → option NmxTopoInfo.
Variables last node_last : Z.

Definition states (nodes : option (list NmxNodeInfo)) (device : option Device) : list ReportedStatus :=
  match device with
  | None => [Unknown]
  | Some d => match kind d with Some info => device_states last node_last nodes info | None => [] end
  end.

Definition member (devices : Topology) (info : NmxTopoInfo) : Prop :=
  ∃ d, Some d ∈ devices ∧ kind d = Some info.

(** A fault was reported by a row of the node list that counts, as it is of some
    switches or GPUs or of a known place, or by a device. *)
Definition fault (nodes : result string (list NmxNodeInfo)) (topology : result string Topology) : Prop :=
  (∃ l n, nodes = Ok l ∧ n ∈ l ∧ ((0 < node_count n)%N ∨ is_Some (observation_identity (node_loc n))) ∧
     reported_health node_last (node_health n) = Abnormal) ∨
  (∃ devices info, topology = Ok devices ∧ member devices info ∧ reported_health last (device_health info) = Abnormal).

(** The device is healthy, its place is known, and so is that of rows that are all healthy. *)
Definition healthy (nodes : list NmxNodeInfo) (info : NmxTopoInfo) : Prop :=
  reported_health last (device_health info) = Normal ∧
  ∃ i, observation_identity (topo_loc info) = Some i ∧
    (∃ n, n ∈ nodes ∧ observation_identity (node_loc n) = Some i) ∧
    ∀ n, n ∈ nodes → observation_identity (node_loc n) = Some i → reported_health node_last (node_health n) = Normal.

(** The topology and the rows were read, no device is of an unknown kind, there are
    devices of the component, all healthy, and the expected ones are among them. *)
Definition evidence (nodes : result string (list NmxNodeInfo)) (topology : result string Topology)
    (expected : list (string * N)) : Prop :=
  ∃ devices l, topology = Ok devices ∧ nodes = Ok l ∧ (None ∉ devices) ∧ (∃ info, member devices info) ∧
    (∀ info, member devices info → healthy l info) ∧
    (∀ i, i ∈ expected → ∃ info, member devices info ∧ observation_identity (topo_loc info) = Some i).

Lemma rows_counted identity nodes x : x ∈ rows_of node_last identity nodes → x ∈ counted node_last (Some nodes).
Proof.
  unfold rows_of, counted. rewrite !list_elem_of_fmap. intros (n & -> & [[[i ->] Hi] Hn]%list_elem_of_filter).
  exists n. split; [done|]. apply list_elem_of_filter. split; [right; by rewrite Hi|done].
Qed.

Lemma rows_normal info nodes :
  aggregate_health (rows_of node_last (observation_identity (topo_loc info)) nodes) = Normal ↔
  ∃ i, observation_identity (topo_loc info) = Some i ∧
    (∃ n, n ∈ nodes ∧ observation_identity (node_loc n) = Some i) ∧
    ∀ n, n ∈ nodes → observation_identity (node_loc n) = Some i → reported_health node_last (node_health n) = Normal.
Proof.
  rewrite aggregate_normal. unfold rows_of. destruct (observation_identity (topo_loc info)) as [i|]; split.
  - intros [Hne Hall]. exists i. split; [done|]. split.
    + destruct (filter _ nodes) as [|n l] eqn:E; [done|]. assert (n ∈ n :: l) as Hn by set_solver.
      rewrite <- E in Hn. apply list_elem_of_filter in Hn as [[_ ?] ?]. eauto.
    + intros n Hn Hi. apply Hall, list_elem_of_fmap. exists n. split; [done|]. by apply list_elem_of_filter.
  - intros (i' & [= <-] & (n & Hn & Hi) & Hall). split.
    + intros E%fmap_nil_inv. assert (n ∈ filter (fun n => is_Some (Some i) ∧ observation_identity (node_loc n) = Some i) nodes) as Hf
        by (by apply list_elem_of_filter).
      rewrite E in Hf. by apply not_elem_of_nil in Hf.
    + intros x (m & -> & [[_ Hm] ?]%list_elem_of_filter)%list_elem_of_fmap. by apply Hall.
  - intros [Hne _]. destruct Hne. replace (filter _ nodes) with ([] : list NmxNodeInfo); [done|].
    symmetry. clear. induction nodes as [|n nodes IH]; [done|]. rewrite filter_cons_False; [done|]. by intros [[? [=]] _].
  - by intros (i & [=] & _).
Qed.

Lemma states_in nodes devices x :
  x ∈ (devices ≫= states nodes) ↔
  (None ∈ devices ∧ x = Unknown) ∨ ∃ info, member devices info ∧ x ∈ device_states last node_last nodes info.
Proof.
  rewrite list_elem_of_bind. unfold states, member. split.
  - intros ([d|] & Hx & Hd); [right|left; set_solver]. destruct (kind d) as [info|] eqn:E; set_solver.
  - intros [[Hd ->]|(info & (d & Hd & Ek) & Hx)]; [exists None; set_solver|]. exists (Some d). by rewrite Ek.
Qed.

(** The status of a component; [incomplete] says that expected devices were not seen. *)
Definition component (nodes : result string (list NmxNodeInfo)) (topology : result string Topology)
    (incomplete : Topology → bool) : ReportedStatus :=
  let rows := aggregate_health (counted node_last (ok_of nodes) ++ [Unknown]) in
  if bool_decide (rows = Abnormal) then rows
  else match ok_of topology with
       | None => rows
       | Some devices =>
           aggregate_health (missing (ok_of nodes) ++ (devices ≫= states (ok_of nodes)) ++
                             if incomplete devices then [Unknown] else [])
       end.

Lemma rows_abnormal nodes :
  aggregate_health (counted node_last (ok_of nodes) ++ [Unknown]) = Abnormal ↔
  ∃ l, nodes = Ok l ∧ Abnormal ∈ counted node_last (Some l).
Proof.
  rewrite aggregate_abnormal, elem_of_app, list_elem_of_singleton. destruct nodes as [l|e]; simpl; [set_solver|].
  split; [by intros [?%not_elem_of_nil|]|by intros (? & [=] & _)].
Qed.

Lemma counted_abnormal l :
  Abnormal ∈ counted node_last (Some l) ↔
  ∃ n, n ∈ l ∧ ((0 < node_count n)%N ∨ is_Some (observation_identity (node_loc n))) ∧
    reported_health node_last (node_health n) = Abnormal.
Proof. unfold counted. rewrite list_elem_of_fmap. setoid_rewrite list_elem_of_filter. naive_solver. Qed.

Lemma device_abnormal nodes info :
  Abnormal ∈ device_states last node_last nodes info →
  reported_health last (device_health info) = Abnormal ∨ ∃ l, nodes = Some l ∧ Abnormal ∈ counted node_last (Some l).
Proof.
  unfold device_states. intros [E|Hin]%elem_of_cons; [by left|right]. destruct nodes as [l|]; [|by apply not_elem_of_nil in Hin].
  apply list_elem_of_singleton in Hin. symmetry in Hin. rewrite aggregate_abnormal in Hin. eauto using rows_counted.
Qed.

Lemma component_abnormal nodes topology incomplete :
  component nodes topology incomplete = Abnormal ↔ fault nodes topology.
Proof.
  transitivity ((∃ l, nodes = Ok l ∧ Abnormal ∈ counted node_last (Some l)) ∨
    ∃ devices info, topology = Ok devices ∧ member devices info ∧
      reported_health last (device_health info) = Abnormal);
    [|unfold fault; setoid_rewrite counted_abnormal; naive_solver].
  unfold component. rewrite <- rows_abnormal. set (rows := aggregate_health _).
  case_bool_decide as Er; [by intuition|]. destruct topology as [devices|e]; simpl; [|naive_solver].
  rewrite aggregate_abnormal, !elem_of_app, states_in. split.
  - intros [Hm|[[[_ ?]|(info & Hi & Hx)]|Hx]]; [destruct (ok_of nodes); set_solver|done| |destruct (incomplete devices); set_solver].
    apply device_abnormal in Hx as [Hx|(l & El & Hl)]; [right; eauto|]. left. apply rows_abnormal.
    exists l. destruct nodes; simplify_eq/=. done.
  - intros [?|(? & info & [= <-] & Hi & Hx)]; [done|]. right. left. right. exists info. split; [done|].
    unfold device_states. rewrite Hx. apply elem_of_cons. by left.
Qed.

Lemma device_normal l info :
  (∀ x, x ∈ device_states last node_last (Some l) info → x = Normal) ↔ healthy l info.
Proof.
  unfold device_states, healthy. rewrite <- rows_normal. split.
  - intros Hx. split; apply Hx; set_solver.
  - by intros [-> ->] x [->| ->%list_elem_of_singleton]%elem_of_cons.
Qed.

(** The devices and rows are complete, but for the expected ones. *)
Definition known (nodes : result string (list NmxNodeInfo)) (topology : result string Topology)
    (incomplete : Topology → bool) : Prop :=
  ∃ devices l, topology = Ok devices ∧ nodes = Ok l ∧ (None ∉ devices) ∧ (∃ info, member devices info) ∧
    (∀ info, member devices info → healthy l info) ∧ incomplete devices = false.

Lemma all_normal l devices (b : bool) :
  (∀ x, x ∈ (devices ≫= states (Some l)) ++ (if b then [Unknown] else []) → x = Normal) ↔
  (None ∉ devices) ∧ (∀ info, member devices info → healthy l info) ∧ b = false.
Proof.
  setoid_rewrite elem_of_app. setoid_rewrite states_in. setoid_rewrite <- device_normal. split.
  - intros Hx. split_and!.
    + intros Hn. specialize (Hx Unknown ltac:(auto)). done.
    + intros info Hi x Hd. apply Hx. eauto.
    + destruct b; [|done]. specialize (Hx Unknown ltac:(set_solver)). done.
  - intros (Hn & Hi & ->) x [[[? _]|(info & Hm & Hd)]|?%not_elem_of_nil]; [done|by eapply Hi|done].
Qed.

Lemma component_normal nodes topology incomplete :
  component nodes topology incomplete = Normal ↔ ¬ fault nodes topology ∧ known nodes topology incomplete.
Proof.
  rewrite <- (component_abnormal nodes topology incomplete). unfold component, known.
  set (rows := aggregate_health _). assert (rows ≠ Normal) as Hrows.
  { intros [_ Hr]%aggregate_normal. specialize (Hr Unknown ltac:(set_solver)). done. }
  case_bool_decide as Er; [rewrite Er; by intuition|]. destruct topology as [devices|e]; cbn [ok_of]; [|naive_solver].
  destruct nodes as [l|e]; cbn [ok_of missing]; cycle 1.
  { rewrite aggregate_normal. split; [intros [_ Hx]; by specialize (Hx Unknown ltac:(set_solver))|naive_solver]. }
  set (agg := aggregate_health _). transitivity (agg ≠ Abnormal ∧ agg = Normal); [by destruct agg; intuition|].
  apply and_iff_compat_l. unfold agg. cbn [app]. rewrite aggregate_normal, all_normal. split.
  - intros (Hne & Hn & Hh & Hb). exists devices, l. split_and!; try done. rewrite Hb, app_nil_r in Hne.
    destruct (devices ≫= states (Some l)) as [|x xs] eqn:E; [done|]. assert (x ∈ devices ≫= states (Some l)) as Hx by (rewrite E; left).
    apply states_in in Hx as [[]|(info & Hm & _)]; [done|by exists info].
  - intros (? & ? & [= <-] & [= <-] & Hn & (info & Hm) & Hh & Hb). split_and!; try done. intros [E _]%app_eq_nil.
    assert (reported_health last (device_health info) ∈ devices ≫= states (Some l)) as Hx.
    { apply states_in. right. exists info. split; [done|]. unfold device_states. left. }
    rewrite E in Hx. by apply not_elem_of_nil in Hx.
Qed.
End Kind.

(** ** The loop over the devices *)

Lemma collected_switches sn cn devices c :
  c_switches (foldl (collect_device sn cn) c devices) =
  c_switches c ++ (devices ≫= states switch_info SwitchHealth SwitchNodeHealth sn).
Proof.
  revert c. induction devices as [|[[]|] devices IH]; intros c; cbn [foldl mbind list_bind]; [by rewrite app_nil_r|..];
    rewrite IH; cbn; by rewrite <- ?(assoc_L (++)).
Qed.

Lemma collected_compute sn cn devices c :
  c_compute (foldl (collect_device sn cn) c devices) =
  c_compute c ++ (devices ≫= states gpu_info GpuHealth ComputeNodeHealth cn).
Proof.
  revert c. induction devices as [|[[]|] devices IH]; intros c; cbn [foldl mbind list_bind]; [by rewrite app_nil_r|..];
    rewrite IH; cbn; by rewrite <- ?(assoc_L (++)).
Qed.

Lemma elem_of_seen i identity : i ∈ seen identity ↔ identity = Some i.
Proof. unfold seen. destruct identity; set_solver. Qed.

Lemma member_cons kind d devices info :
  member kind (d :: devices) info ↔ (∃ x, d = Some x ∧ kind x = Some info) ∨ member kind devices info.
Proof. unfold member. setoid_rewrite elem_of_cons. naive_solver. Qed.

Lemma collected_observed sn cn devices c i :
  (i ∈ c_observed_switches (foldl (collect_device sn cn) c devices) ↔
   i ∈ c_observed_switches c ∨ ∃ info, member switch_info devices info ∧ observation_identity (topo_loc info) = Some i) ∧
  (i ∈ c_observed_computes (foldl (collect_device sn cn) c devices) ↔
   i ∈ c_observed_computes c ∨ ∃ info, member gpu_info devices info ∧ observation_identity (topo_loc info) = Some i).
Proof.
  revert c. induction devices as [|d devices IH]; intros c; cbn [foldl].
  { split; (split; [by left|]); intros [?|(info & (d & Hd%not_elem_of_nil & _) & _)]; done. }
  setoid_rewrite member_cons. destruct (IH (collect_device sn cn c d)) as [-> ->].
  destruct d as [[]|]; simpl; rewrite ?elem_of_union, ?elem_of_seen; split; naive_solver.
Qed.

Lemma unseen_false expected observed : unseen expected observed = false ↔ ∀ i, i ∈ expected → i ∈ observed.
Proof.
  unfold unseen. rewrite <- not_true_iff_false, existsb_elem. split.
  - intros Hn i Hi. destruct (decide (i ∈ observed)) as [|Ho]; [done|]. destruct Hn. exists i. by rewrite bool_decide_eq_false_2.
  - intros Ha (i & Hi & Hn). by rewrite bool_decide_eq_true_2 in Hn by auto.
Qed.

Definition incomplete_switches sn cn expected (devices : Topology) : bool :=
  unseen expected (c_observed_switches (foldl (collect_device sn cn) (mkCollected (missing cn) (missing sn) [] ∅ ∅) devices)).

Definition incomplete_computes sn cn expected (devices : Topology) : bool :=
  let observed := c_observed_computes (foldl (collect_device sn cn) (mkCollected (missing cn) (missing sn) [] ∅ ∅) devices) in
  bool_decide (observed = ∅) || unseen expected observed.

Lemma interpreted_components samples sw comp :
  let sn := ok_of (switch_nodes samples) in let cn := ok_of (compute_nodes samples) in
  switches (interpret_samples samples sw comp).2 =
    component switch_info SwitchHealth SwitchNodeHealth (switch_nodes samples) (topology samples) (incomplete_switches sn cn sw) ∧
  compute (interpret_samples samples sw comp).2 =
    component gpu_info GpuHealth ComputeNodeHealth (compute_nodes samples) (topology samples) (incomplete_computes sn cn comp).
Proof.
  intros sn cn. unfold interpret_samples, component, data_plane_health, health_without_topology.
  fold sn cn. destruct (match domain samples with Ok _ => _ | Err _ => _ end) as [state ctrl].
  destruct (topology samples) as [devices|e]; cbn [ok_of fst snd switches compute]; [|done].
  by rewrite collected_switches, collected_compute, <- !(assoc_L (++)).
Qed.

(** C36. What is reported of the switches and of the compute nodes of a fabric: a component
    is abnormal exactly when a device of it was reported with a fault, or a row of its
    node list that counts was, as it is of some switches or GPUs or of a known place,
    also when the rest could not be read; and it is normal exactly when there was no
    such fault, the topology and the node list were read, the topology has a device of
    the component and no device of an unknown kind, each device of the component is
    healthy, at a known place, with rows there that are all healthy, and every
    expected one is among them. *)
Theorem component_status_exact samples sw comp :
  let status := (interpret_samples samples sw comp).2 in
  let switch_fault := fault switch_info SwitchHealth SwitchNodeHealth (switch_nodes samples) (topology samples) in
  let compute_fault := fault gpu_info GpuHealth ComputeNodeHealth (compute_nodes samples) (topology samples) in
  (switches status = Abnormal ↔ switch_fault) ∧
  (switches status = Normal ↔ ¬ switch_fault ∧
     evidence switch_info SwitchHealth SwitchNodeHealth (switch_nodes samples) (topology samples) sw) ∧
  (compute status = Abnormal ↔ compute_fault) ∧
  (compute status = Normal ↔ ¬ compute_fault ∧
     evidence gpu_info GpuHealth ComputeNodeHealth (compute_nodes samples) (topology samples) comp).
Proof.
  intros status switch_fault compute_fault. destruct (interpreted_components samples sw comp) as [Es Ec].
  unfold status, switch_fault, compute_fault. rewrite Es, Ec, !component_abnormal, !component_normal.
  split_and!; [done| |done|]; apply and_iff_compat_l; unfold known, evidence, incomplete_switches, incomplete_computes.
  - repeat (apply exist_proper; intros ?). setoid_rewrite unseen_false. setoid_rewrite (proj1 (collected_observed _ _ _ _ _)).
    simpl. set_solver.
  - repeat (apply exist_proper; intros ?). setoid_rewrite orb_false_iff. setoid_rewrite unseen_false.
    setoid_rewrite (proj2 (collected_observed _ _ _ _ _)). simpl.
    split; [intros (? & ? & ? & ? & ? & _ & Hu); split_and!; set_solver|].
    intros (? & ? & ? & (info & Hm) & Hh & Hu). split_and!; try done; [by exists info| |set_solver].
    apply bool_decide_eq_false. destruct (Hh info Hm) as (_ & i & Hi & _). intros E.
    assert (i ∈ (∅ : gset (string * N))) as Hin; [|by apply not_elem_of_empty in Hin]. rewrite <- E.
    apply collected_observed. right. eauto.
Qed.

(** ** Membership *)

Lemma members_none sw comp devices : foldl (check_member sw comp) None devices = None.
Proof. by induction devices. Qed.

(** A device that is of the group. *)
Definition admitted (sw comp : gset (string * N)) (device : option Device) : Prop :=
  match device with
  | Some (SwitchTopoInfo info) => ∃ i, observation_identity (topo_loc info) = Some i ∧ i ∈ sw
  | Some (GpuTopoInfo info) => comp = ∅ ∨ ∃ i, observation_identity (topo_loc info) = Some i ∧ i ∈ comp
  | None => False
  end.

Lemma check_member_spec sw comp observed device :
  match check_member sw comp (Some observed) device with
  | Some observed' => admitted sw comp device ∧
      observed' = (match device with Some (SwitchTopoInfo info) => seen (observation_identity (topo_loc info)) | _ => ∅ end) ∪ observed
  | None => ¬ admitted sw comp device
  end.
Proof.
  unfold check_member, admitted. simpl. destruct device as [[info|info]|]; simpl; [..|tauto].
  - destruct (observation_identity (topo_loc info)) as [i|]; simpl; [case_bool_decide|]; naive_solver.
  - case_bool_decide; [rewrite (left_id_L ∅ (∪)); auto|].
    destruct (observation_identity (topo_loc info)) as [i|]; simpl; [case_bool_decide|]; rewrite ?(left_id_L ∅ (∪)); naive_solver.
Qed.

Lemma members_spec sw comp devices observed :
  match foldl (check_member sw comp) (Some observed) devices with
  | Some observed' => Forall (admitted sw comp) devices ∧
      ∀ i, i ∈ observed' ↔ i ∈ observed ∨ ∃ info, member switch_info devices info ∧ observation_identity (topo_loc info) = Some i
  | None => ¬ Forall (admitted sw comp) devices
  end.
Proof.
  revert observed. induction devices as [|d devices IH]; intros observed; cbn [foldl].
  { split; [constructor|]. intros i. split; [by left|]. intros [?|(info & (? & ?%not_elem_of_nil & _) & _)]; done. }
  pose proof (check_member_spec sw comp observed d) as Hc. destruct (check_member sw comp (Some observed) d) as [o|]; cycle 1.
  { rewrite members_none. by intros [? _]%Forall_cons. }
  destruct Hc as [Ha ->]. specialize (IH ((match d with Some (SwitchTopoInfo info) => seen (observation_identity (topo_loc info)) | _ => ∅ end) ∪ observed)).
  destruct (foldl _ _ devices) as [o|]; [|by intros [_ ?]%Forall_cons]. destruct IH as [Hf Hi]. split; [by constructor|].
  intros i. rewrite Hi, elem_of_union. setoid_rewrite member_cons.
  destruct d as [[info|info]|]; rewrite ?elem_of_seen; simpl; [naive_solver|set_solver..].
Qed.

(** The live members are the expected ones exactly when every device that the
    controller knows is of the group, at a known place, and every switch of the group
    is among them; GPUs are compared only if compute nodes were given, and may be
    missing. *)
Theorem membership_exact devices sw comp :
  live_membership_matches devices sw comp = true ↔
  (∀ d, d ∈ devices → admitted (list_to_set (identity_of <$> sw)) (list_to_set (identity_of <$> comp)) d) ∧
  ∀ n, n ∈ sw → ∃ info, member switch_info devices info ∧ observation_identity (topo_loc info) = Some (identity_of n).
Proof.
  unfold live_membership_matches. rewrite <- Forall_forall.
  pose proof (members_spec (list_to_set (identity_of <$> sw)) (list_to_set (identity_of <$> comp)) devices ∅) as Hm.
  destruct (foldl _ _ devices) as [o|]; [|naive_solver]. destruct Hm as [Hf Ho].
  rewrite bool_decide_eq_true, set_eq. setoid_rewrite Ho. setoid_rewrite elem_of_list_to_set.
  setoid_rewrite list_elem_of_fmap. split.
  - intros He. split; [done|]. intros n Hn. destruct (proj1 (He (identity_of n))) as [[]%not_elem_of_empty|]; eauto.
  - intros [_ Hn] i. split; [intros (n & -> & Hin); right; by apply Hn|].
    intros [[]%not_elem_of_empty|(info & (d & Hd & Ek) & Hi)]. rewrite Forall_forall in Hf.
    specialize (Hf _ Hd). destruct d as [x|x]; [|done]. injection Ek as ->. destruct Hf as (j & Hj & Hin).
    rewrite Hi in Hj. injection Hj as ->. by apply elem_of_list_to_set, list_elem_of_fmap in Hin.
Qed.
End FabricHealthTheorems.
