(* ===== verification/FabricReconcile.v ===== *)
(** * Reconciliation of a fabric layout

    The worker that brings the switches of a rack to a planned layout:
    [api/grpc/scaleupfabricmanager_handlers/handlers_v2/layout] ([reconciliation.rs],
    [reconciliation/preparation.rs], [reconciliation/activation.rs], [links.rs],
    [controller_targets.rs], [observations.rs]), with the aliases of switches of
    [api/grpc/switch_scope.rs].

    The worker is a program of calls ([Programs]): to the switches, to their
    controllers, to the registry of fabric operations and to its job.  What a call
    answers is not determined by the program, and any call may panic.  The futures of
    a batch are tasks whose calls interleave in any order, with those of the
    coordinator that handles their ends.  A token that is looked at, whether that of
    the job or the one that stops the dispatch of a batch, is a call like the others.
    Progress that a task sends is taken by the coordinator at any time.

    A controller's stored settings are read and reconciled in one call each; what
    these do is modelled in [ManagedConfig].  The polls of a controller that is being
    activated are as many as its deadline allows, a parameter. *)

From S2P Require Import Prelude RustStd RustStr JobTypes EndpointScope Json RmsError FabricOperation.
From S2P Require Import NodeTypes RequestMessages Endpoints FabricLayout FabricPlanner ManagedConfig FabricHealth.
Local Open Scope string_scope.
Local Open Scope list_scope.

(** ** Programs of calls *)

Module Programs.
Section Programs.
Context {Cmd : Type} {Ans : Cmd → Type}.

(** A call with its answer; without one, if it panicked. *)
Definition Event : Type := {c : Cmd & option (Ans c)}.

(** What runs as one future. *)
Inductive Task (A : Type) : Type :=
| TRet (a : A)
| TDo (c : Cmd) (k : Ans c → Task A).
Arguments TRet {A}.
Arguments TDo {A}.

Fixpoint tbind {A B} (p : Task A) (f : A → Task B) : Task B :=
  match p with
  | TRet a => f a
  | TDo c k => TDo c (fun x => tbind (k x) f)
  end.

(** The [?] operator. *)
Definition ttry {E A B} (p : Task (result E A)) (f : A → Task (result E B)) : Task (result E B) :=
  tbind p (fun r => match r with Ok a => f a | Err e => TRet (Err e) end).

Definition tcall (c : Cmd) : Task (Ans c) := TDo c TRet.

(** What the coordinator runs: calls, its own state, futures that run at the same
    time, and a boundary for panics.  [Pool tasks l each tick k] runs the tasks;
    [each] handles the end of one, [None] if it panicked, and [tick] the progress that
    one sends, with local variables [l]. *)
Inductive Prog (S : Type) : Type → Type :=
| Ret {A} (a : A) : Prog S A
| Do {A} (c : Cmd) (k : Ans c → Prog S A) : Prog S A
| Get {A} (k : S → Prog S A) : Prog S A
| Put {A} (s : S) (k : Prog S A) : Prog S A
| Pool {B L A} (tasks : list (nat * Task B)) (l : L) (each : L → nat → option B → Prog S L) (tick : L → Prog S L)
    (k : L → Prog S A) : Prog S A
| Catch {B A} (p : Prog S B) (k : option B → Prog S A) : Prog S A.
Arguments Ret {S A}.
Arguments Do {S A}.
Arguments Get {S A}.
Arguments Put {S A}.
Arguments Pool {S B L A}.
Arguments Catch {S B A}.

Fixpoint bind {S A B} (p : Prog S A) : (A → Prog S B) → Prog S B :=
  match p with
  | Ret a => fun f => f a
  | Do c k => fun f => Do c (fun x => bind (k x) f)
  | Get k => fun f => Get (fun s => bind (k s) f)
  | Put s k => fun f => Put s (bind k f)
  | Pool tasks l each tick k => fun f => Pool tasks l each tick (fun l => bind (k l) f)
  | Catch p k => fun f => Catch p (fun r => bind (k r) f)
  end.

Definition try {S E A B} (p : Prog S (result E A)) (f : A → Prog S (result E B)) : Prog S (result E B) :=
  bind p (fun r => match r with Ok a => f a | Err e => Ret (Err e) end).

Fixpoint lift {S A} (p : Task A) : Prog S A :=
  match p with
  | TRet a => Ret a
  | TDo c k => Do c (fun x => lift (k x))
  end.

Definition modify {S} (f : S → S) : Prog S unit := Get (fun s => Put (f s) (Ret tt)).

(** ** Behaviours *)

Fixpoint truns {A} (p : Task A) (t : list Event) (r : option A) : Prop :=
  match p with
  | TRet a => t = [] ∧ r = Some a
  | TDo c k =>
      (t = [existT c None] ∧ r = None) ∨
      ∃ x t', t = existT c (Some x) :: t' ∧ truns (k x) t' r
  end.

(** The tasks that are left, the local variables and the state; [H] and [T] are the
    behaviours of the handlers.  A task that panics ends; a handler that panics ends
    the pool, and the tasks that are left are dropped. *)
Inductive pool_runs {S B L} (H : L → nat → option B → S → list Event → S → option L → Prop)
    (T : L → S → list Event → S → option L → Prop)
    : list (nat * Task B) → L → S → list Event → S → option L → Prop :=
| pool_done l s : pool_runs H T [] l s [] s (Some l)
| pool_call ts1 i c k ts2 l s x t s' r :
    pool_runs H T (ts1 ++ (i, k x) :: ts2) l s t s' r →
    pool_runs H T (ts1 ++ (i, TDo c k) :: ts2) l s (existT c (Some x) :: t) s' r
| pool_crash ts1 i c k ts2 l s t1 s1 l1 t2 s2 r :
    H l i None s t1 s1 (Some l1) → pool_runs H T (ts1 ++ ts2) l1 s1 t2 s2 r →
    pool_runs H T (ts1 ++ (i, TDo c k) :: ts2) l s (existT c None :: t1 ++ t2) s2 r
| pool_end ts1 i b ts2 l s t1 s1 l1 t2 s2 r :
    H l i (Some b) s t1 s1 (Some l1) → pool_runs H T (ts1 ++ ts2) l1 s1 t2 s2 r →
    pool_runs H T (ts1 ++ (i, TRet b) :: ts2) l s (t1 ++ t2) s2 r
| pool_tick ts l s t1 s1 l1 t2 s2 r :
    T l s t1 s1 (Some l1) → pool_runs H T ts l1 s1 t2 s2 r → pool_runs H T ts l s (t1 ++ t2) s2 r
| pool_crash_panic ts1 i c k ts2 l s t1 s1 :
    H l i None s t1 s1 None → pool_runs H T (ts1 ++ (i, TDo c k) :: ts2) l s (existT c None :: t1) s1 None
| pool_end_panic ts1 i b ts2 l s t1 s1 :
    H l i (Some b) s t1 s1 None → pool_runs H T (ts1 ++ (i, TRet b) :: ts2) l s t1 s1 None
| pool_tick_panic ts l s t1 s1 :
    T l s t1 s1 None → pool_runs H T ts l s t1 s1 None.

Fixpoint runs {S A} (p : Prog S A) : S → list Event → S → option A → Prop :=
  match p with
  | Ret a => fun s t s' r => t = [] ∧ s' = s ∧ r = Some a
  | Do c k => fun s t s' r =>
      (t = [existT c None] ∧ s' = s ∧ r = None) ∨
      ∃ x t', t = existT c (Some x) :: t' ∧ runs (k x) s t' s' r
  | Get k => fun s t s' r => runs (k s) s t s' r
  | Put s1 k => fun _ t s' r => runs k s1 t s' r
  | Pool tasks l each tick k => fun s t s' r =>
      ∃ t1 s1 rl, pool_runs (fun l i b => runs (each l i b)) (fun l => runs (tick l)) tasks l s t1 s1 rl ∧
        match rl with
        | None => t = t1 ∧ s' = s1 ∧ r = None
        | Some l1 => ∃ t2, t = t1 ++ t2 ∧ runs (k l1) s1 t2 s' r
        end
  | Catch p k => fun s t s' r =>
      ∃ t1 s1 rp t2, runs p s t1 s1 rp ∧ t = t1 ++ t2 ∧ runs (k rp) s1 t2 s' r
  end.

(** ** Execution, with the answers of [ask] and the tasks one after another *)

Section Exec.
Context {W : Type} (ask : ∀ c, W → W * Ans c).

Fixpoint texec {A} (p : Task A) (w : W) : W * list Event * A :=
  match p with
  | TRet a => (w, [], a)
  | TDo c k =>
      let '(w, x) := ask c w in
      let '(w, t, a) := texec (k x) w in (w, existT c (Some x) :: t, a)
  end.

Definition exec_pool {S B L} (each : L → nat → option B → S → W → W * list Event * S * L) :=
  fix go (tasks : list (nat * Task B)) (l : L) (s : S) (w : W) : W * list Event * S * L :=
    match tasks with
    | [] => (w, [], s, l)
    | (i, p) :: tasks =>
        let '(w, t1, b) := texec p w in
        let '(w, t2, s, l) := each l i (Some b) s w in
        let '(w, t3, s, l) := go tasks l s w in (w, t1 ++ t2 ++ t3, s, l)
    end.

Fixpoint exec {S A} (p : Prog S A) : S → W → W * list Event * S * A :=
  match p with
  | Ret a => fun s w => (w, [], s, a)
  | Do c k => fun s w =>
      let '(w, x) := ask c w in
      let '(w, t, s, a) := exec (k x) s w in (w, existT c (Some x) :: t, s, a)
  | Get k => fun s w => exec (k s) s w
  | Put s k => fun _ w => exec k s w
  | Pool tasks l each tick k => fun s w =>
      let '(w, t1, s, l) := exec_pool (fun l i b => exec (each l i b)) tasks l s w in
      let '(w, t2, s, a) := exec (k l) s w in (w, t1 ++ t2, s, a)
  | Catch p k => fun s w =>
      let '(w, t1, s, b) := exec p s w in
      let '(w, t2, s, a) := exec (k (Some b)) s w in (w, t1 ++ t2, s, a)
  end.
End Exec.
End Programs.
Arguments Event {Cmd} Ans.
Arguments Task {Cmd} Ans A.
Arguments Prog {Cmd} Ans S A.
Arguments TRet {Cmd Ans A}.
Arguments TDo {Cmd Ans A}.
Arguments Ret {Cmd Ans S A}.
Arguments Do {Cmd Ans S A}.
Arguments Get {Cmd Ans S A}.
Arguments Put {Cmd Ans S A}.
Arguments Pool {Cmd Ans S B L A}.
Arguments Catch {Cmd Ans S B A}.
End Programs.

(** ** Aliases of switches: [switch_scope.rs] *)

Module SwitchScope.
Import Pb Endpoints.

Definition SWITCH_SSH_PORT : N := 22.

(** [ClientEndpoint] of the NVUE client: where it connects. *)
Record ClientEndpoint := mkClientEndpoint { connect_host : string; client_port : N }.

Definition scope_ser (s : JobScope) : ser :=
  match s with
  | LogicalNode rack node => SStruct [("LogicalNode", SStruct [("rack_id", SStr rack); ("node_id", SStr node)])]
  | PhysicalSwitch serial tray =>
      SStruct [("PhysicalSwitch", SStruct [("chassis_serial_number", SStr serial); ("tray_index", SInt tray)])]
  | JobTypes.Endpoint host port => SStruct [("Endpoint", SStruct [("host", SStr host); ("port", SInt port)])]
  end.

Definition fabric_scope_keys `{SerdeJson} (scopes : list JobScope) : result RmsError (list string) :=
  let? keys := map_err (fun e => internal ("cannot encode switch admission aliases: " +++ e))
                 (collect (fun s => serialize (scope_ser (normalized s))) scopes) in
  Ok (dedup (sort_keys keys)).

Definition switch_scopes_for_placement (e : ClientEndpoint) (rack_id node_id serial : string) (tray : N) : list JobScope :=
  [LogicalNode rack_id node_id; PhysicalSwitch (trim serial) (Z.of_N tray);
   EndpointScope.endpoint (connect_host e) (Z.of_N (client_port e))].

Definition known_switch_scopes (client : option ClientEndpoint) (rack_id node_id : string) : list JobScope :=
  LogicalNode rack_id node_id ::
  match client with
  | Some e => [EndpointScope.endpoint (connect_host e) (Z.of_N (client_port e));
               EndpointScope.endpoint (connect_host e) (Z.of_N SWITCH_SSH_PORT)]
  | None => []
  end.

(** The body of the loop of [request_switch_scopes]. *)
Definition endpoint_scopes (scopes : list JobScope) (e : PbEndpoint * EndpointKind) : result RmsError (list JobScope) :=
  let '(e, kind) := e in
  match pb_interface e with
  | None => Ok scopes
  | Some iface =>
      if is_blank (if_ip_address iface) then Ok scopes
      else
        let? port :=
          if (pb_port e =? 0)%N then Ok (match kind with Host | Bmc => 443 | SupplementalHost => 22 end)%N
          else if (pb_port e <=? 65535)%N then Ok (pb_port e)
          else Err (invalid_argument "switch endpoint port is out of range") in
        let port := match kind with Host => switch_management_port port | Bmc | SupplementalHost => port end in
        Ok (scopes ++ [EndpointScope.endpoint (if_ip_address iface) (Z.of_N port)] ++
            match kind with
            | Host => [EndpointScope.endpoint (if_ip_address iface) (Z.of_N SWITCH_SSH_PORT)]
            | _ => []
            end)
  end.

Definition option_list {A} (o : option A) : list A := match o with Some a => [a] | None => [] end.

Definition request_switch_scopes (node : NodeInfo) : result RmsError (list JobScope) :=
  try_fold endpoint_scopes (known_switch_scopes None (ni_rack_id node) (ni_node_id node))
    (((fun e => (e, Host)) <$> option_list (ni_host_endpoint node)) ++
     ((fun e => (e, Bmc)) <$> option_list (ni_bmc_endpoint node)) ++
     ((fun e => (e, SupplementalHost)) <$> ni_additional_host_endpoints node)).

Definition require_no_fabric_operation `{SerdeJson} (registry : Fabric.FabricOperationRegistry) (scopes : list JobScope)
    : Fabric.FabricOperationRegistry * result RmsError unit :=
  match fabric_scope_keys scopes with
  | Err e => (registry, Err e)
  | Ok keys => Fabric.invalidate_and_require_clear registry keys
  end.
End SwitchScope.

(** ** The worker *)

Module Reconcile.
Import NodeTypes Pb FabricLayout Planner ManagedConfig FabricHealth SwitchScope Programs.

#[export] Existing Instances Fabric.ControllerIdentity_eq_dec Fabric.ControllerIdentity_countable.

(** An interface of an [InterfaceCollection]: the keys of its state, if it has one. *)
Abbreviation InterfaceCollection := (gmap string (option (gset string))) (only parsing).

Record ScaleUpLinkSnapshot := mkLinkSnapshot {
  effective : InterfaceCollection;
  applied : InterfaceCollection;
  startup : InterfaceCollection;
}.

(** [ManagedSwitch]; [has_adapter]: the switch has the adapter of a GB200 switch;
    [nvue_endpoint]: that of its NVUE client, if it has one. *)
Record ManagedSwitch := mkSwitch {
  node : NodeInfo;
  has_adapter : bool;
  nvue_endpoint : option ClientEndpoint;
  placement : ObservedPlacement;
}.

Definition switch_id (w : ManagedSwitch) : string := ni_node_id (node w).

Definition controller_identity (w : ManagedSwitch) : Fabric.ControllerIdentity :=
  Fabric.mkController (chassis_serial_number (placement w)) (tray_index (position (placement w))).

Definition scopes (w : ManagedSwitch) : result string (list JobScope) :=
  match nvue_endpoint w with
  | None => Err ("switch '" +++ switch_id w +++ "' has no NVUE admission client")
  | Some e =>
      let? requested := map_err (fun _ => "switch '" +++ switch_id w +++ "' has invalid management endpoints")
                          (request_switch_scopes (node w)) in
      Ok (switch_scopes_for_placement e (ni_rack_id (node w)) (switch_id w)
            (chassis_serial_number (placement w)) (tray_index (position (placement w))) ++ requested)
  end.

(** *** Links *)

Definition explicit_state (collection : InterfaceCollection) (id : string) : result string (option FabricLinkState) :=
  match mjoin (collection !! id) with
  | None => Ok None
  | Some state =>
      if bool_decide (state = ∅) then Ok None
      else if bool_decide (state = {["up"]}) then Ok (Some Up)
      else if bool_decide (state = {["down"]}) then Ok (Some Down)
      else Err ("interface '" +++ id +++ "' reports unknown or ambiguous administrative state")
  end.

(** The body of the loop of [links_match]. *)
Definition link_matches (snapshot : ScaleUpLinkSnapshot) (matches : bool) (link : string * FabricLinkState)
    : result string bool :=
  let '(id, target) := link in
  let? e := explicit_state (effective snapshot) id in
  let? e := ok_or e ("interface '" +++ id +++ "' has no observable effective administrative state") in
  let? a := explicit_state (applied snapshot) id in
  let? s := explicit_state (startup snapshot) id in
  Ok (matches && (bool_decide (a = Some target) && bool_decide (s = Some target) && bool_decide (e = target))).

Definition links_match (snapshot : ScaleUpLinkSnapshot) (desired : gmap string FabricLinkState) : result string bool :=
  try_fold (link_matches snapshot) true (entries desired).

(** The same links, all down. *)
Definition all_down (links : gmap string FabricLinkState) : gmap string FabricLinkState := (fun _ => Down) <$> links.

(** *** Controller targets *)

Definition desired_config (f : PlannedFabric) : gmap (string * string) (option string) :=
  set_fold (fun k m => <[k := None]> m)
    (<[(NMX_C_FM_CONFIG_FILE, NMX_C_TOPOLOGY_KEY) := Some (requested_topology (planned_config f))]>
       (foldl (fun m e => <[(config_file_name e, config_key e) := Some (config_value e)]> m) ∅
          (extra_static_configs (planned_config f))))
    (absent_static_configs f).

Definition target_config (f : PlannedFabric) : result string (gmap (string * string) (option string)) :=
  managed_config (desired_config f).

(** [serde_json::to_vec] of the entries, and [Sha256] in hexadecimal. *)
Class DigestEnv := {
  to_vec : list ((string * string) * option string) → option string;
  sha256_hex : string → string;
}.

Definition config_digest `{DigestEnv} (f : PlannedFabric) : result string string :=
  let? bytes := ok_or (to_vec (config_entries (desired_config f))) "cannot encode managed controller configuration" in
  Ok (sha256_hex bytes).

(** *** Calls *)

(** The calls of the worker.  [switch] is the node ID of a switch. *)
Inductive Cmd :=
| IsCancelled
| DispatchStopped
| Progress
| SendProgress
| LinkSnapshot (switch : string)
| SetLinks (switch : string) (changes : list (string * FabricLinkState))
| GetCluster (switch : string)
| StartupCluster (switch : string)
| SaveApplied (switch : string)
| StopCluster (switch : string)
| EnableCluster (switch : string)
| ExposeApi (switch : string)
| WaitApi (switch : string)
| SecureApi (switch : string)
| Connect (switch : string) (retry_unavailable_hello : bool)
| ReadConfig (switch : string) (desired : gmap (string * string) (option string))
| ReconcileConfig (switch : string) (desired : gmap (string * string) (option string))
| Sample (switch : string)
| HasProof (c : Fabric.ControllerIdentity) (digest : string)
| MarkPending (controllers : list Fabric.ControllerIdentity)
| ClearInactive (c : Fabric.ControllerIdentity)
| RecordActivation (c : Fabric.ControllerIdentity) (digest : string) (keys : list string)
| FinishOperation
| ReleaseFailed
| ReadStatus
| CompleteJob (result_json : string)
| FailJob (failure : JobFailure).

Definition Ans (c : Cmd) : Type :=
  match c with
  | IsCancelled | DispatchStopped | Progress | SendProgress => bool
  | LinkSnapshot _ => result RmsError ScaleUpLinkSnapshot
  | SetLinks _ _ | SaveApplied _ | Connect _ _ => bool
  | GetCluster _ => result RmsError (option string)
  | StartupCluster _ => result RmsError bool
  | StopCluster _ | EnableCluster _ | ExposeApi _ | WaitApi _ | SecureApi _ => result RmsError unit
  | ReadConfig _ _ => result string ManagedConfigSnapshot
  | ReconcileConfig _ _ => result string bool
  | Sample _ => FabricSamples
  | HasProof _ _ => result RmsError bool
  | MarkPending _ | ClearInactive _ | RecordActivation _ _ _ | FinishOperation | ReleaseFailed => result RmsError unit
  | ReadStatus => result (string * result string string) (result string string)
  | CompleteJob _ | FailJob _ => unit
  end.

Notation "'letT' x := p 'in' k" := (tbind p (fun x => k)) (at level 10, x name, p at level 100, k at level 200) : rms_scope.
Notation "'letT?' x := p 'in' k" := (ttry p (fun x => k)) (at level 10, x name, p at level 100, k at level 200) : rms_scope.
Notation "'letP' x := p 'in' k" := (bind p (fun x => k)) (at level 10, x name, p at level 100, k at level 200) : rms_scope.
Notation "'letP?' x := p 'in' k" := (try p (fun x => k)) (at level 10, x name, p at level 100, k at level 200) : rms_scope.

Abbreviation fallible A := (Task Ans (result string A)) (only parsing).

(** A call whose error is replaced by a message. *)
Definition ask {E A} (message : E → string) (p : Task Ans (result E A)) : fallible A :=
  letT r := p in TRet (map_err message r).

Definition require (b : bool) (message : string) : fallible unit := TRet (if b then Ok tt else Err message).

Definition on_switch (what switch : string) (e : RmsError) : string :=
  what +++ " '" +++ switch +++ "': " +++ ErrorCodeM.code_display (error_code e).

Definition check_cancelled : fallible unit :=
  letT c := tcall IsCancelled in require (negb c) "managed reconciliation cancelled".

Definition publish : fallible unit :=
  letT p := tcall Progress in require p "managed job no longer owns an active worker".

(** [ManagedSwitch::enabled] and [startup_enabled] *)
Definition enabled (w : ManagedSwitch) : fallible bool :=
  match nvue_endpoint w with
  | None => TRet (Err ("switch '" +++ switch_id w +++ "' has no NVUE client"))
  | Some _ =>
      letT? state := ask (fun e => "cannot read switch '" +++ switch_id w +++ "' cluster state: " +++
                                   ErrorCodeM.code_display (error_code e)) (tcall (GetCluster (switch_id w))) in
      TRet (match state with
            | Some state =>
                if String.eqb state "enabled" then Ok true
                else if String.eqb state "disabled" then Ok false
                else Err ("switch '" +++ switch_id w +++ "' reports unknown cluster state")
            | None => Err ("switch '" +++ switch_id w +++ "' reports unknown cluster state")
            end)
  end.

Definition no_adapter (w : ManagedSwitch) : string := "switch '" +++ switch_id w +++ "' has no saved cluster adapter".

Definition startup_enabled (w : ManagedSwitch) : fallible bool :=
  if has_adapter w
  then ask (fun e => "cannot read switch '" +++ switch_id w +++ "' saved cluster state: " +++ ErrorCodeM.code_display (error_code e))
         (tcall (StartupCluster (switch_id w)))
  else TRet (Err (no_adapter w)).

Definition save_enabled_cluster (w : ManagedSwitch) : fallible unit :=
  if has_adapter w then
    letT? e := enabled w in
    if negb e then TRet (Err ("switch '" +++ switch_id w +++ "' controller is not enabled"))
    else
      letT? s := startup_enabled w in
      letT? _ := (if s then TRet (Ok tt)
                  else letT saved := tcall (SaveApplied (switch_id w)) in
                       require saved ("cannot save switch '" +++ switch_id w +++ "' cluster configuration")) in
      letT? s := startup_enabled w in
      require s ("switch '" +++ switch_id w +++ "' saved cluster is not enabled")
  else TRet (Err (no_adapter w)).

Definition link_snapshot (what : string) (id : string) : fallible ScaleUpLinkSnapshot :=
  ask (fun _ => what +++ " saved links on switch '" +++ id +++ "'") (tcall (LinkSnapshot id)).

(** [links.rs] *)
Definition reconcile_links (id : string) (target : gmap string FabricLinkState) : fallible bool :=
  letT? snapshot := link_snapshot "cannot read" id in
  letT? matching := TRet (links_match snapshot target) in
  if (matching : bool) then TRet (Ok false)
  else
    letT written := tcall (SetLinks id (entries target)) in
    letT? _ := require written ("cannot reconcile saved links on switch '" +++ id +++ "'") in
    letT? snapshot := link_snapshot "cannot verify" id in
    letT? matching := TRet (links_match snapshot target) in
    if (matching : bool) then TRet (Ok true)
    else TRet (Err ("saved-link write did not pass readback on switch '" +++ id +++ "'")).

(** What the worker is given, besides its operation; [polls]: how often a controller
    is polled before its deadline has passed; [insecure_switch]: the TLS policy. *)
Record Context := mkContext {
  managed : list ManagedSwitch;
  computes : list ObservedPlacement;
  plan : FabricPlan;
  insecure_switch : bool;
  polls : nat;
}.

(** [Reconciliation]: its sets, and the pending controllers of its operation. *)
Record Recon := mkRecon {
  changed_groups : gset nat;
  static_config_matches : gset nat;
  startup_drift : gset string;
  unverified_primaries : gset string;
  pending_controllers : gset Fabric.ControllerIdentity;
}.

Definition with_changed (X : gset nat) (s : Recon) : Recon :=
  mkRecon (X ∪ changed_groups s) (static_config_matches s) (startup_drift s) (unverified_primaries s) (pending_controllers s).
Definition with_static (i : nat) (s : Recon) : Recon :=
  mkRecon (changed_groups s) ({[i]} ∪ static_config_matches s) (startup_drift s) (unverified_primaries s) (pending_controllers s).
Definition with_drift (id : string) (s : Recon) : Recon :=
  mkRecon (changed_groups s) (static_config_matches s) ({[id]} ∪ startup_drift s) (unverified_primaries s) (pending_controllers s).
Definition set_unverified (f : gset string → gset string) (s : Recon) : Recon :=
  mkRecon (changed_groups s) (static_config_matches s) (startup_drift s) (f (unverified_primaries s)) (pending_controllers s).
Definition set_pending (f : gset Fabric.ControllerIdentity → gset Fabric.ControllerIdentity) (s : Recon) : Recon :=
  mkRecon (changed_groups s) (static_config_matches s) (startup_drift s) (unverified_primaries s) (f (pending_controllers s)).

Abbreviation prog A := (Prog Ans Recon (result string A)) (only parsing).

Fixpoint for_all {A} (f : A → prog unit) (l : list A) : prog unit :=
  match l with
  | [] => Ret (Ok tt)
  | x :: l => letP? _ := f x in for_all f l
  end.

(** [Option::get_or_insert] of a first error. *)
Definition first (e : option string) (r : result string unit) : option string :=
  match e, r with
  | Some e, _ => Some e
  | None, Err e => Some e
  | None, Ok _ => None
  end.

(** ** Batches *)

(** A task of [run_parallel], which does not start after the batch was stopped. *)
Definition dispatched {A} (p : fallible A) : fallible A :=
  letT stopped := tcall DispatchStopped in
  letT cancelled := (if (stopped : bool) then TRet true else tcall IsCancelled) in
  if (cancelled : bool) then TRet (Err "managed reconciliation cancelled or device phase stopped") else p.

Definition collected {A} (name : string) (l : gmap nat A * option string) (i : nat) (r : option (result string A))
    : gmap nat A * option string :=
  match default (Err (name +++ " panicked")) r with
  | Ok a => (<[i := a]> l.1, l.2)
  | Err e => (l.1, first l.2 (Err e))
  end.

Definition run_parallel {A} (name : string) (operations : list (fallible A)) : prog (list A) :=
  Pool (imap (fun i p => (i, dispatched p)) operations) (∅, None)
    (fun l i r => Ret (collected name l i r)) (fun l => Ret l)
    (fun l =>
       match l.2 with
       | Some e => Ret (Err e)
       | None =>
           letP? _ := lift check_cancelled in
           Ret (Ok (omap (fun i => l.1 !! i) (seq 0 (length operations))))
       end).

Section Worker.
Context `{SerdeJson, DigestEnv} (cx : Context).

Definition primary_id (f : PlannedFabric) : string := primary_switch_node_id (assignment f).

Definition primary (f : PlannedFabric) : result string ManagedSwitch :=
  ok_or (List.find (fun w => String.eqb (switch_id w) (primary_id f)) (managed cx)) "resolved primary has no discovered switch".

Definition start (id : string) : fallible unit :=
  letT? _ := check_cancelled in
  letT? _ := ask (on_switch "cannot enable primary" id) (tcall (EnableCluster id)) in
  letT? _ := (if insecure_switch cx then
                letT? _ := ask (on_switch "cannot expose controller API on primary" id) (tcall (ExposeApi id)) in
                ask (on_switch "controller API did not become ready on primary" id) (tcall (WaitApi id))
              else TRet (Ok tt)) in
  ask (on_switch "cannot enforce controller security on primary" id) (tcall (SecureApi id)).

Definition connect (id : string) (retry : bool) : fallible unit :=
  letT c := tcall (Connect id retry) in require c ("cannot read controller API on primary '" +++ id +++ "'").

Definition members (f : PlannedFabric) : list ManagedSwitch :=
  filter (fun w => switch_id w ∈ switch_node_ids (assignment f)) (managed cx).

Definition expected_switches (f : PlannedFabric) : list ObservedPlacement := placement <$> members f.

Definition expected_computes (f : PlannedFabric) : list ObservedPlacement :=
  filter (fun n => obs_node_id n ∈ compute_node_ids (assignment f)) (computes cx).

(** [ControllerContext::sample] and [observe_group] *)
Definition sample (f : PlannedFabric) (id : string) : fallible GroupObservation :=
  letT? _ := TRet (check_expected (expected_switches f) (expected_computes f)) in
  letT samples := tcall (Sample id) in
  TRet (Ok (interpret_group samples (expected_switches f) (expected_computes f))).

(** The loop of [configure_group]. *)
Fixpoint poll_group (n : nat) (f : PlannedFabric) (id : string) (config : gmap (string * string) (option string)) : fallible unit :=
  letT? _ := check_cancelled in
  letT? _ := connect id true in
  letT? current := tcall (ReadConfig id config) in
  if negb (config_matches current config)
  then TRet (Err ("managed configuration readback failed on primary '" +++ id +++ "'"))
  else
    letT? observation := sample f id in
    if is_controller_ready observation && membership_matches observation then TRet (Ok tt)
    else
      letT sent := tcall SendProgress in
      letT? _ := require sent "fabric activation coordinator stopped" in
      match n with
      | O => TRet (Err ("primary '" +++ id +++ "' did not reach configured state with the requested membership"))
      | S n => poll_group n f id config
      end.

Definition configure_group (f : PlannedFabric) (changed : bool) : fallible unit :=
  letT? w := TRet (primary f) in
  letT? config := TRet (target_config f) in
  letT? _ := (if changed then start (switch_id w) else TRet (Ok tt)) in
  poll_group (polls cx) f (switch_id w) config.

(** ** Inspection *)

Definition target_links (id : string) : option (gmap string FabricLinkState) := plan_links (plan cx) !! id.

(** Whether the links match, whether a write of them brings some up, and the state of
    the controller, effective and saved. *)
Definition inspect_switch (w : ManagedSwitch) : fallible (bool * bool * bool * bool) :=
  letT? _ := check_cancelled in
  letT? target := TRet (ok_or (target_links (switch_id w)) "switch has no complete managed link target") in
  letT? snapshot := ask (on_switch "cannot read saved links on switch" (switch_id w)) (tcall (LinkSnapshot (switch_id w))) in
  letT? matching := TRet (links_match snapshot target) in
  let include_up := negb matching && existsb (fun l => bool_decide (l.2 = Up)) (entries target) in
  letT? e := enabled w in
  letT? s := startup_enabled w in
  TRet (Ok (matching, include_up, e, s)).

Definition is_primary (id : string) : bool := existsb (fun f => String.eqb (primary_id f) id) (fabrics (plan cx)).

(** The groups that a switch is a member of. *)
Definition groups_of (id : string) : gset nat :=
  list_to_set (fst <$> filter (fun x => id ∈ switch_node_ids (assignment x.2)) (enumerate (fabrics (plan cx)))).

Definition lookup_proof (w : ManagedSwitch) (f : PlannedFabric) : fallible bool :=
  letT? digest := TRet (config_digest f) in
  ask (fun _ => "cannot read controller activation proof") (tcall (HasProof (controller_identity w) digest)).

(** A selected primary whose controller is enabled. *)
Definition inspect_primary (w : ManagedSwitch) (index : nat) (f : PlannedFabric) : prog unit :=
  letP? config := Ret (target_config f) in
  letP? _ := lift (connect (switch_id w) false) in
  letP? current := lift (tcall (ReadConfig (switch_id w) config)) in
  letP _ := (if config_matches current config then modify (with_static index) else Ret tt) in
  letP? observation := lift (sample f (switch_id w)) in
  if negb (membership_observed observation) || negb (controller_observed observation)
  then Ret (Err ("controller or membership read unavailable on primary '" +++ switch_id w +++ "': " +++
                 join_str "; " (observation_errors observation)))
  else
    letP? proven := lift (lookup_proof w f) in
    Get (fun s =>
      if negb proven || negb (bool_decide (index ∈ static_config_matches s)) ||
         bool_decide (controller_identity w ∈ pending_controllers s) ||
         negb (membership_matches observation) || negb (is_controller_ready observation)
      then letP _ := modify (with_changed {[index]}) in Ret (Ok tt)
      else Ret (Ok tt)).

(** The body of the loop over the switches and what was read of them. *)
Definition classify (x : ManagedSwitch * (bool * bool * bool * bool)) : prog unit :=
  let '(w, (matching, include_up, e, saved)) := x in
  letP? _ := lift check_cancelled in
  letP _ := (if eqb saved (is_primary (switch_id w)) then Ret tt else modify (with_drift (switch_id w))) in
  letP _ := (if (matching : bool) then Ret tt else modify (with_changed (groups_of (switch_id w)))) in
  match List.find (fun x => String.eqb (primary_id x.2) (switch_id w)) (enumerate (fabrics (plan cx))) with
  | Some (index, f) =>
      if (e : bool) then inspect_primary w index f
      else letP _ := modify (with_changed {[index]}) in Ret (Ok tt)
  | None =>
      if e || saved || include_up
      then letP _ := modify (set_unverified (fun X => {[switch_id w]} ∪ X)) in Ret (Ok tt)
      else Ret (Ok tt)
  end.

Definition inspect : prog unit :=
  letP? states := run_parallel "initial switch inspection" (inspect_switch <$> managed cx) in
  letP? _ := for_all classify (zip (managed cx) states) in
  lift publish.

(** ** Preparation *)

(** A [BTreeSet<usize>] in order. *)
Definition in_order (X : gset nat) : list nat := ordered le X.

Definition isolate (index : nat) : fallible (PlannedFabric * ManagedSwitch) :=
  letT? _ := check_cancelled in
  letT? f := TRet (ok_or (fabrics (plan cx) !! index) "resolved fabric index is invalid") in
  letT? w := TRet (primary f) in
  letT? target := TRet (ok_or (target_links (switch_id w)) "primary has no managed link target") in
  letT? _ := reconcile_links (switch_id w) (all_down target) in
  TRet (Ok (f, w)).

Definition stage (x : PlannedFabric * ManagedSwitch) : fallible unit :=
  let '(f, w) := x in
  letT? config := TRet (target_config f) in
  letT? _ := start (switch_id w) in
  letT? _ := connect (switch_id w) true in
  letT? _ := tcall (ReconcileConfig (switch_id w) config) in
  ask (fun e => "cannot stop isolated controller on switch '" +++ switch_id w +++ "': " +++ error_message e)
    (tcall (StopCluster (switch_id w))).

Definition normalize_static_configs : prog unit :=
  Get (fun s =>
    letP? isolated :=
      run_parallel "static configuration isolation"
        (isolate <$> filter (fun i => i ∉ static_config_matches s) (in_order (changed_groups s))) in
    letP? _ := run_parallel "static configuration staging" (stage <$> isolated) in
    Ret (Ok tt)).

(** The future of one switch in [prepare_links]. *)
Definition prepare_switch (w : ManagedSwitch) (target : gmap string FabricLinkState) (save : bool) : fallible unit :=
  letT? _ := (if save then save_enabled_cluster w else TRet (Ok tt)) in
  letT? _ := reconcile_links (switch_id w) target in
  TRet (Ok tt).

(** The loop that starts the futures of [prepare_links], in its first pass; later
    passes start nothing, since a cancellation is not withdrawn.  The tasks are
    numbered by the position of their switch. *)
Fixpoint dispatch_links (i : nat) (switches : list ManagedSwitch)
    : Prog Ans Recon (list (nat * fallible unit) * option string) :=
  letP cancelled := lift (tcall IsCancelled) in
  if (cancelled : bool) then Ret ([], None)
  else
    match switches with
    | [] => Ret ([], None)
    | w :: switches =>
        match target_links (switch_id w) with
        | None => Ret ([], Some "switch has no managed link target")
        | Some target =>
            letP p := lift publish in
            match p with
            | Err e => Ret ([], Some e)
            | Ok _ =>
                Get (fun s =>
                  let save := bool_decide (switch_id w ∈ startup_drift s) &&
                              negb (bool_decide (switch_id w ∈ unverified_primaries s)) in
                  letP rest := dispatch_links (S i) switches in
                  Ret ((i, prepare_switch w target save) :: rest.1, rest.2))
            end
        end
    end.

(** The end of a batch with a first error. *)
Definition finish_batch (e : option string) : prog unit :=
  match e with Some e => Ret (Err e) | None => lift check_cancelled end.

Definition publish_first (e : option string) : Prog Ans Recon (option string) :=
  letP p := lift publish in Ret (first e p).

Definition panicked_links (i : nat) : string :=
  "switch '" +++ default "" (switch_id <$> managed cx !! i) +++ "' link reconciliation panicked".

Definition prepare_links : prog unit :=
  letP d := dispatch_links 0 (managed cx) in
  Pool d.1 d.2
    (fun e i r => publish_first (first e (default (Err (panicked_links i)) r)))
    (fun e => Ret e) finish_batch.

Definition verify_switch (w : ManagedSwitch) : fallible unit :=
  letT? target := TRet (ok_or (target_links (switch_id w)) "switch has no managed link target") in
  letT? snapshot := ask (on_switch "cannot verify saved links on switch" (switch_id w)) (tcall (LinkSnapshot (switch_id w))) in
  letT? matching := TRet (links_match snapshot target) in
  require matching ("saved links do not match target on switch '" +++ switch_id w +++ "'").

Definition verify_links : prog unit :=
  letP? _ := run_parallel "saved link verification" (verify_switch <$> managed cx) in Ret (Ok tt).

Definition stop_unverified (w : ManagedSwitch) : prog unit :=
  letP? _ := lift check_cancelled in
  Get (fun s =>
    if bool_decide (switch_id w ∈ unverified_primaries s) then
      letP? _ := lift publish in
      lift (ask (on_switch "cannot verify controller shutdown on switch" (switch_id w)) (tcall (StopCluster (switch_id w))))
    else Ret (Ok tt)).

Definition selected : gset string := list_to_set (primary_id <$> fabrics (plan cx)).

Definition clear_nonprimary (w : ManagedSwitch) : prog unit :=
  if bool_decide (switch_id w ∈ selected) then Ret (Ok tt)
  else
    letP? _ := lift (ask (fun _ => "cannot clear disabled controller activation") (tcall (ClearInactive (controller_identity w)))) in
    letP _ := modify (set_pending (fun X => X ∖ {[controller_identity w]})) in
    Ret (Ok tt).

Definition add_primary (index : nat) : prog unit :=
  match fabrics (plan cx) !! index with
  | None => Ret (Err "resolved fabric has no primary")
  | Some f => letP _ := modify (set_unverified (fun X => {[primary_id f]} ∪ X)) in Ret (Ok tt)
  end.

Definition unverified_identities (s : Recon) : list Fabric.ControllerIdentity :=
  controller_identity <$> filter (fun w => switch_id w ∈ unverified_primaries s) (managed cx).

Definition prepare : prog unit :=
  letP? _ := Get (fun s => for_all add_primary (in_order (changed_groups s))) in
  Get (fun s =>
    let pending := unverified_identities s in
    letP? _ := lift (ask (fun _ => "cannot mark controller activation pending") (tcall (MarkPending pending))) in
    letP _ := modify (set_pending (fun X => list_to_set pending ∪ X)) in
    letP? _ := lift publish in
    letP? _ := for_all stop_unverified (managed cx) in
    letP? _ := normalize_static_configs in
    letP? _ := prepare_links in
    letP? _ := verify_links in
    letP? _ := for_all clear_nonprimary (managed cx) in
    letP _ := modify (set_unverified (filter (fun id => id ∈ selected))) in
    lift publish).

(** ** Activation *)

Definition member_scopes (f : PlannedFabric) : result string (list JobScope) :=
  let? l := collect scopes (members f) in Ok (mjoin l).

Definition complete_group (index : nat) : prog unit :=
  letP? f := Ret (ok_or (fabrics (plan cx) !! index) "resolved fabric index is invalid") in
  letP? w := Ret (primary f) in
  Get (fun s =>
    letP? _ :=
      (if bool_decide (index ∈ changed_groups s) then
         letP? l := Ret (member_scopes f) in
         letP? keys := Ret (map_err (fun _ => "cannot encode controller admission aliases") (fabric_scope_keys l)) in
         letP? digest := Ret (config_digest f) in
         letP? _ := lift (ask (fun _ => "cannot record verified controller activation")
                           (tcall (RecordActivation (controller_identity w) digest keys))) in
         letP _ := modify (set_pending (fun X => X ∖ {[controller_identity w]})) in
         Ret (Ok tt)
       else Ret (Ok tt)) in
    letP _ := modify (set_unverified (fun X => X ∖ {[switch_id w]})) in
    Ret (Ok tt)).

(** The loop that starts the futures of [configure_groups], in its first pass. *)
Fixpoint dispatch_groups (index : nat) (l : list PlannedFabric)
    : Prog Ans Recon (list (nat * fallible unit) * option string) :=
  letP cancelled := lift (tcall IsCancelled) in
  if (cancelled : bool) then Ret ([], None)
  else
    match l with
    | [] => Ret ([], None)
    | f :: l =>
        letP p := lift publish in
        match p with
        | Err e => Ret ([], Some e)
        | Ok _ =>
            Get (fun s =>
              letP rest := dispatch_groups (S index) l in
              Ret ((index, configure_group f (bool_decide (index ∈ changed_groups s))) :: rest.1, rest.2))
        end
    end.

Definition group_ended (e : option string) (index : nat) (r : option (result string unit)) : Prog Ans Recon (option string) :=
  letP done := (match default (Err ("fabric group " +++ show_nat index +++ " activation panicked")) r with
                | Ok _ => complete_group index
                | Err e => Ret (Err e)
                end) in
  publish_first (first e done).

Definition configure_groups : prog unit :=
  letP d := dispatch_groups 0 (fabrics (plan cx)) in
  Pool d.1 d.2 group_ended publish_first finish_batch.

(** ** The run *)

Definition pending_primary (c : Fabric.ControllerIdentity) : prog unit :=
  match List.find (fun w => bool_decide (controller_identity w = c)) (managed cx) with
  | None => Ret (Err "pending controller activation has no discovered physical switch")
  | Some w => letP _ := modify (set_unverified (fun X => {[switch_id w]} ∪ X)) in Ret (Ok tt)
  end.

Definition controller_le (a b : Fabric.ControllerIdentity) : Prop :=
  if decide (Fabric.chassis_serial_number a = Fabric.chassis_serial_number b)
  then (Fabric.tray_index a ≤ Fabric.tray_index b)%N
  else String.le (Fabric.chassis_serial_number a) (Fabric.chassis_serial_number b).

#[export] Instance controller_le_dec : RelDecision controller_le.
Proof. intros a b. unfold controller_le. case_decide; apply _. Defined.

Definition verify_cluster (w : ManagedSwitch) : fallible unit :=
  letT? e := enabled w in
  letT? differs := (if eqb e (is_primary (switch_id w)) then
                      letT? s := startup_enabled w in TRet (Ok (negb (eqb s (is_primary (switch_id w)))))
                    else TRet (Ok true)) in
  require (negb differs) ("switch '" +++ switch_id w +++ "' cluster readback does not match selected primaries").

Definition verify : prog unit :=
  letP? _ := verify_links in
  letP? _ := run_parallel "cluster verification" (verify_cluster <$> managed cx) in
  lift publish.

Definition run : prog unit :=
  letP? _ := Get (fun s => for_all pending_primary (ordered controller_le (pending_controllers s))) in
  letP? _ := lift publish in
  letP? _ := inspect in
  letP? _ := lift check_cancelled in
  letP? _ := prepare in
  letP? _ := lift publish in
  letP? _ := configure_groups in
  verify.

(** ** Failure *)

Definition cleanup_switch (w : ManagedSwitch) (manual : bool) : Prog Ans Recon bool :=
  Get (fun s =>
    if bool_decide (switch_id w ∈ unverified_primaries s) then
      letP p := lift publish in
      letP stopped := lift (tcall (StopCluster (switch_id w))) in
      letP isolated :=
        (if is_ok (stopped : result RmsError unit)
         then lift (reconcile_links (switch_id w) (all_down (default ∅ (target_links (switch_id w)))))
         else Ret (Err "")) in
      Ret (manual || negb (is_ok p) || negb (is_ok isolated))
    else Ret manual).

Fixpoint cleanup_switches (l : list ManagedSwitch) (manual : bool) : Prog Ans Recon bool :=
  match l with
  | [] => Ret manual
  | w :: l => letP manual := cleanup_switch w manual in cleanup_switches l manual
  end.

(** Only controllers whose activation is pending are compensated. *)
Definition compensated (s : Recon) (id : string) : Prop :=
  Exists (fun w => switch_id w = id ∧ controller_identity w ∈ pending_controllers s) (managed cx).

Definition cleanup_failed_controllers : Prog Ans Recon bool :=
  Get (fun s =>
    letP _ := modify (set_unverified (filter (compensated s))) in
    letP manual := cleanup_switches (managed cx) false in
    letP p := lift publish in
    Ret (manual || negb (is_ok p))).

Definition fail (e : string) : Prog Ans Recon string :=
  Catch cleanup_failed_controllers (fun r =>
    let e := if default true r then e +++ "; controller cleanup could not be verified" else e in
    letP released := lift (tcall ReleaseFailed) in
    Ret (if is_ok (released : result RmsError unit) then e else e +++ "; fabric ownership could not be released")).

(** ** The job *)

Definition other_failure (message : string) : JobFailure := JobFailure_new (anyhow_of_code JobErrorM.Other) message.

Definition failing {A} (p : prog A) : Prog Ans Recon (result JobFailure A) :=
  letP r := p in Ret (map_err other_failure r).

Definition read_status : Prog Ans Recon (result JobFailure string) :=
  if full_topology (plan cx) then
    letP r := lift (tcall ReadStatus) in
    Ret (match r : result (string * result string string) (result string string) with
         | Ok (Ok json) => Ok json
         | Ok (Err e) => Err (other_failure ("full-rack status encoding failed: " +++ e))
         | Err (message, Ok json) => Err (with_result_json (other_failure message) json)
         | Err (message, Err _) => Err (other_failure message)
         end)
  else Ret (Ok "").

Definition work : Prog Ans Recon (result JobFailure string) :=
  letP? _ := failing run in
  letP? result_json := read_status in
  letP? _ := failing (lift publish) in
  letP? _ := failing (lift (ask (fun _ => "cannot record managed completion") (tcall FinishOperation))) in
  Ret (Ok result_json).

Definition with_message (f : JobFailure) (message : string) : JobFailure :=
  mkJobFailure (failure_error f) (failure_description f) message (failure_result_json f).

Definition run_managed_fabric_job : Prog Ans Recon unit :=
  Catch work (fun r =>
    match default (Err (other_failure "managed reconciliation worker panicked")) r with
    | Ok result_json => lift (tcall (CompleteJob result_json))
    | Err f =>
        letP message := fail (failure_message f) in
        lift (tcall (FailJob (with_message f message)))
    end).

(** The worker at its start, with what the operation was admitted with. *)
Definition new_reconciliation (pending : gset Fabric.ControllerIdentity) : Recon := mkRecon ∅ ∅ ∅ ∅ pending.
End Worker.
End Reconcile.
