(* ===== verification/FabricReconcileTheorems.v ===== *)
(** * What the reconciliation of a fabric guarantees

    A logic of programs of calls, for what a call needs of the calls before it, and
    with it: in whatever order the futures of the worker run, whatever the devices
    answer, and whether calls fail or panic, every call of the worker was permitted
    when it was made. *)

From S2P Require Import Prelude RustStd RustStr JobTypes EndpointScope Json RmsError FabricOperation.
From S2P Require Import NodeTypes RequestMessages Endpoints FabricLayout FabricPlanner FabricLayoutTheorems FabricLinkTheorems FabricPlanTheorems ManagedConfig FabricHealth FabricReconcile.
Local Open Scope string_scope.
Local Open Scope list_scope.

Module Logic.
Import Programs.

(** ** Interleavings *)

Inductive merge {A} : list A → list A → list A → Prop :=
| merge_nil : merge [] [] []
| merge_left x a b c : merge a b c → merge (x :: a) b (x :: c)
| merge_right x a b c : merge a b c → merge a (x :: b) (x :: c).

Section Merge.
Context {A : Type}.
Implicit Types a b c : list A.

Lemma merge_refl_r b : merge [] b b.
Proof. induction b; by constructor. Qed.

Lemma merge_app a b c a' b' c' : merge a b c → merge a' b' c' → merge (a ++ a') (b ++ b') (c ++ c').
Proof. induction 1; intros Hm; simpl; [done|..]; constructor; auto. Qed.

Lemma merge_snoc_left a b c x : merge a b c → merge (a ++ [x]) b (c ++ [x]).
Proof. intros Hm. rewrite <- (app_nil_r b). apply merge_app; [done|repeat constructor]. Qed.

Lemma merge_more_right a b c l : merge a b c → merge a (b ++ l) (c ++ l).
Proof. intros Hm. rewrite <- (app_nil_r a). apply merge_app; [done|apply merge_refl_r]. Qed.

Lemma merge_forall (P : A → Prop) a b c : merge a b c → Forall P c ↔ Forall P a ∧ Forall P b.
Proof. induction 1; rewrite ?Forall_cons; [by split; auto|tauto..]. Qed.

Lemma merge_elem a b c x : merge a b c → x ∈ c ↔ x ∈ a ∨ x ∈ b.
Proof. induction 1; rewrite ?elem_of_cons; [set_solver|tauto..]. Qed.

(** What is around an element of one side. *)
Lemma merge_split a1 x a2 b c :
  merge (a1 ++ x :: a2) b c → ∃ b1 b2 c1 c2, b = b1 ++ b2 ∧ c = c1 ++ x :: c2 ∧ merge a1 b1 c1 ∧ merge a2 b2 c2.
Proof.
  remember (a1 ++ x :: a2) as a eqn:Ea. intros Hm. revert a1 Ea. induction Hm as [|y a b c Hm IH|y a b c Hm IH]; intros a1 Ea.
  - by destruct a1.
  - destruct a1 as [|z a1]; simplify_eq/=.
    + exists [], b, [], c. split_and!; [done|done|constructor|done].
    + destruct (IH a1 eq_refl) as (b1 & b2 & c1 & c2 & -> & -> & H1 & H2).
      exists b1, b2, (z :: c1), c2. split_and!; [done|done|by constructor|done].
  - destruct (IH a1 Ea) as (b1 & b2 & c1 & c2 & -> & -> & H1 & H2).
    exists (y :: b1), b2, (y :: c1), c2. split_and!; [done|done|by constructor|done].
Qed.

(** The beginning of one side can go to the other. *)
Lemma merge_drop a1 a2 b c : merge (a1 ++ a2) b c → ∃ b', merge a2 b' c ∧ ∀ x, x ∈ b' → x ∈ a1 ∨ x ∈ b.
Proof.
  remember (a1 ++ a2) as a eqn:Ea. intros Hm. revert a1 Ea. induction Hm as [|y a b c Hm IH|y a b c Hm IH]; intros a1 Ea.
  - symmetry in Ea. apply app_eq_nil in Ea as [-> ->]. exists []. split; [constructor|by intros x ?%not_elem_of_nil].
  - destruct a1 as [|z a1]; simplify_eq/=.
    + exists b. split; [by constructor|auto].
    + destruct (IH a1 eq_refl) as (b' & Hb & Hx). exists (z :: b'). split; [by constructor|]. set_solver.
  - destruct (IH a1 Ea) as (b' & Hb & Hx). exists (y :: b'). split; [by constructor|]. set_solver.
Qed.

Lemma merge_filter (P : A → Prop) `{∀ x, Decision (P x)} a b c :
  merge a b c → Forall (fun x => ¬ P x) b → filter P c = filter P a.
Proof.
  induction 1 as [|x a b c Hm IH|x a b c Hm IH]; intros Hb; [done|..].
  - rewrite !filter_cons, IH by done. done.
  - apply Forall_cons in Hb as [Hx Hb]. rewrite filter_cons_False by done. auto.
Qed.
End Merge.

(** ** Tasks *)

Section Logic.
Context {Cmd : Type} {Ans : Cmd → Type} {S : Type}.
Implicit Types (h t : list (Event Ans)) (s : S).

Definition cmd (e : Event Ans) : Cmd := projT1 e.

(** The task only makes calls of a class. *)
Fixpoint emits {A} (C : Cmd → Prop) (p : Task Ans A) : Prop :=
  match p with
  | TRet _ => True
  | TDo c k => C c ∧ ∀ x, emits C (k x)
  end.

Lemma emits_bind {A B} (C : Cmd → Prop) (p : Task Ans A) (f : A → Task Ans B) :
  emits C p → (∀ a, emits C (f a)) → emits C (tbind p f).
Proof. induction p as [a|c k IH]; simpl; [auto|]. intros [Hc Hk] Hf. split; [done|]. intros x. by apply IH. Qed.

Lemma emits_try {E A B} (C : Cmd → Prop) (p : Task Ans (result E A)) (f : A → Task Ans (result E B)) :
  emits C p → (∀ a, emits C (f a)) → emits C (ttry p f).
Proof. intros Hp Hf. apply emits_bind; [done|]. intros [a|e]; [apply Hf|done]. Qed.

Lemma emits_weaken {A} (C C' : Cmd → Prop) (p : Task Ans A) : emits C p → (∀ c, C c → C' c) → emits C' p.
Proof. induction p as [a|c k IH]; simpl; [done|]. intros [Hc Hk] Hw. split; [auto|]. intros x. by apply IH. Qed.

Lemma emits_runs {A} (C : Cmd → Prop) (p : Task Ans A) t r : emits C p → truns p t r → Forall (fun e => C (cmd e)) t.
Proof.
  revert t. induction p as [a|c k IH]; simpl; intros t; [intros _ [-> _]; constructor|].
  intros [Hc Hk] [[-> ->]|(x & t' & -> & Ht)]; constructor; try done. by eapply IH.
Qed.

(** A behaviour of a sequence is one of its parts. *)
Lemma truns_bind {A B} (p : Task Ans A) (f : A → Task Ans B) t r :
  truns (tbind p f) t r →
  (r = None ∧ truns p t None) ∨ ∃ a t1 t2, t = t1 ++ t2 ∧ truns p t1 (Some a) ∧ truns (f a) t2 r.
Proof.
  revert t. induction p as [a|c k IH]; simpl; intros t Ht.
  { right. exists a, [], t. done. }
  destruct Ht as [[-> ->]|(x & t' & -> & Ht)]; [left; auto|].
  destruct (IH x t' Ht) as [[-> Hn]|(a & t1 & t2 & -> & H1 & H2)].
  - left. split; [done|]. right. by exists x, t'.
  - right. exists a, (existT c (Some x) :: t1), t2. split_and!; [done| |done]. right. by exists x, t1.
Qed.

(** The behaviours of a sequence that succeeds. *)
Lemma truns_try {E A B} (p : Task Ans (result E A)) (f : A → Task Ans (result E B)) t b :
  truns (ttry p f) t (Some (Ok b)) →
  ∃ a t1 t2, t = t1 ++ t2 ∧ truns p t1 (Some (Ok a)) ∧ truns (f a) t2 (Some (Ok b)).
Proof.
  intros [[[=] _]|([a|e] & t1 & t2 & -> & H1 & H2)]%truns_bind; [by exists a, t1, t2|].
  destruct H2 as [_ [=]].
Qed.

Lemma truns_call c t x : truns (tcall c) t (Some x) → t = [existT c (Some x)].
Proof. intros [[_ [=]]|(x' & t' & -> & -> & [= ->])]. done. Qed.

(** ** Programs *)

Variable permitted : list (Event Ans) → Cmd → Prop.

(** Every call was permitted when it was made. *)
Definition Safe h : Prop := ∀ h1 e h2, h = h1 ++ e :: h2 → permitted h1 (cmd e).

Lemma safe_snoc h e : Safe h → permitted h (cmd e) → Safe (h ++ [e]).
Proof.
  intros Hs He h1 e' h2 E. destruct h2 as [|x h2 _] using rev_ind.
  - apply app_inj_tail in E as [<- <-]. done.
  - rewrite app_comm_cons, (assoc_L (++)) in E. apply app_inj_tail in E as [-> _]. by eapply Hs.
Qed.

Definition assertion : Type := list (Event Ans) → S → Prop.

(** From a safe history with [P], the program makes only permitted calls; if it
    returns, then with [Q], and if it panics, then with [E]. *)
Definition triple {A} (P : assertion) (p : Prog Ans S A) (Q : A → assertion) (E : assertion) : Prop :=
  ∀ h s t s' r, Safe h → P h s → runs p s t s' r →
    Safe (h ++ t) ∧ match r with Some a => Q a (h ++ t) s' | None => E (h ++ t) s' end.

Lemma triple_weaken {A} (P P' : assertion) (p : Prog Ans S A) (Q Q' : A → assertion) (E E' : assertion) :
  triple P' p Q' E' → (∀ h s, P h s → P' h s) → (∀ a h s, Q' a h s → Q a h s) → (∀ h s, E' h s → E h s) → triple P p Q E.
Proof.
  intros Hp HP HQ HE h s t s' r Hs Hpre Hr. destruct (Hp h s t s' r Hs (HP _ _ Hpre) Hr) as [? Hpost].
  split; [done|]. destruct r; auto.
Qed.

Lemma triple_pre {A} (P P' : assertion) (p : Prog Ans S A) Q E :
  triple P' p Q E → (∀ h s, P h s → P' h s) → triple P p Q E.
Proof. intros Hp HP. by eapply triple_weaken. Qed.

Lemma triple_post {A} (P : assertion) (p : Prog Ans S A) (Q Q' : A → assertion) E :
  triple P p Q' E → (∀ a h s, Q' a h s → Q a h s) → triple P p Q E.
Proof. intros Hp HQ. by eapply triple_weaken. Qed.

Lemma triple_assume {A} (X : Prop) (P : assertion) (p : Prog Ans S A) Q E :
  (X → triple P p Q E) → triple (fun h s => P h s ∧ X) p Q E.
Proof. intros Hp h s t s' r Hs [HP HX]. by apply Hp. Qed.

Lemma triple_ret {A} (P : assertion) (a : A) (Q : A → assertion) (E : assertion) :
  (∀ h s, P h s → Q a h s) → triple P (Ret a) Q E.
Proof. intros HQ h s t s' r Hs Hp (-> & -> & ->). rewrite app_nil_r. auto. Qed.

Lemma triple_do {A} (P : assertion) c (k : Ans c → Prog Ans S A) Q E :
  (∀ h s, P h s → permitted h c) → (∀ h s, P h s → E (h ++ [existT c None]) s) →
  (∀ x, triple (fun h' s => ∃ h, h' = h ++ [existT c (Some x)] ∧ P h s) (k x) Q E) → triple P (Do c k) Q E.
Proof.
  intros Hc He Hk h s t s' r Hs Hp [(-> & -> & ->)|(x & t' & -> & Hr)].
  - split; [|auto]. apply safe_snoc; [done|by apply (Hc h s)].
  - replace (h ++ existT c (Some x) :: t') with ((h ++ [existT c (Some x)]) ++ t') by (by rewrite <- (assoc_L (++))).
    apply (Hk x _ s); [|by exists h|done]. apply safe_snoc; [done|by apply (Hc h s)].
Qed.

Lemma triple_get {A} (P : assertion) (k : S → Prog Ans S A) Q E :
  (∀ s0, triple (fun h s => s = s0 ∧ P h s) (k s0) Q E) → triple P (Get k) Q E.
Proof. intros Hk h s t s' r Hs Hp Hr. by apply (Hk s h s). Qed.

Lemma triple_state {A} (P : assertion) (p : Prog Ans S A) Q E :
  (∀ s0, triple (fun h s => P h s ∧ s = s0) p Q E) → triple P p Q E.
Proof. intros Hp h s t s' r Hs HP Hr. by apply (Hp s h s). Qed.

Lemma triple_put {A} (P : assertion) s0 (k : Prog Ans S A) Q E :
  triple (fun h s' => s' = s0 ∧ ∃ s, P h s) k Q E → triple P (Put s0 k) Q E.
Proof. intros Hk h s t s' r Hs Hp Hr. apply (Hk h s0); eauto. Qed.

Lemma triple_modify (P : assertion) (f : S → S) Q E : (∀ h s, P h s → Q tt h (f s)) → triple P (modify f) Q E.
Proof. intros HQ h s t s' r Hs Hp (-> & -> & ->). rewrite app_nil_r. auto. Qed.

Lemma triple_catch {A B} (P : assertion) (p : Prog Ans S B) (k : option B → Prog Ans S A) (R : B → assertion) (X : assertion) Q E :
  triple P p R X → (∀ b, triple (R b) (k (Some b)) Q E) → triple X (k None) Q E → triple P (Catch p k) Q E.
Proof.
  intros Hp Hk Hx h s t s' r Hs Hpre (t1 & s1 & rp & t2 & H1 & -> & H2). rewrite (assoc_L (++)).
  destruct (Hp h s t1 s1 rp Hs Hpre H1) as [Hs1 Hpost].
  destruct rp as [b|]; [by apply (Hk b _ s1)|by apply (Hx _ s1)].
Qed.

Lemma prog_runs_bind {A B} (p : Prog Ans S A) (f : A → Prog Ans S B) s t s' r :
  runs (bind p f) s t s' r →
  (r = None ∧ runs p s t s' None) ∨ ∃ a t1 s1 t2, t = t1 ++ t2 ∧ runs p s t1 s1 (Some a) ∧ runs (f a) s1 t2 s' r.
Proof.
  revert f s t. induction p as [A a|A c k IH|A k IH|A s0 k IH|B' L A tasks l each _ tick _ k IH|B' A p _ k IH]; simpl;
    intros f s t Ht.
  - right. exists a, [], s, t. done.
  - destruct Ht as [(-> & -> & ->)|(x & t' & -> & Ht)]; [left; auto|].
    destruct (IH x f s t' Ht) as [[-> Hn]|(a & t1 & s1 & t2 & -> & H1 & H2)]; [left; eauto 6|].
    right. exists a, (existT c (Some x) :: t1), s1, t2. split_and!; [done| |done]. right. by exists x, t1.
  - by apply IH.
  - by apply IH.
  - destruct Ht as (t1 & s1 & [l1|] & Hp & Ht).
    + destruct Ht as (t2 & -> & Ht). destruct (IH l1 f s1 t2 Ht) as [[-> Hn]|(a & ta & sa & tb & -> & H1 & H2)].
      * left. split; [done|]. exists t1, s1, (Some l1). eauto.
      * right. exists a, (t1 ++ ta), sa, tb. rewrite (assoc_L (++)). split_and!; [done| |done]. exists t1, s1, (Some l1). eauto.
    + destruct Ht as (-> & -> & ->). left. split; [done|]. by exists t1, s1, None.
  - destruct Ht as (t1 & s1 & rp & t2 & Hp & -> & Ht).
    destruct (IH rp f s1 t2 Ht) as [[-> Hn]|(a & ta & sa & tb & -> & H1 & H2)].
    + left. split; [done|]. by exists t1, s1, rp, t2.
    + right. exists a, (t1 ++ ta), sa, tb. rewrite (assoc_L (++)). split_and!; [done| |done]. by exists t1, s1, rp, ta.
Qed.

Lemma triple_bind {A B} (P : assertion) (p : Prog Ans S A) (f : A → Prog Ans S B) (R : A → assertion) Q E :
  triple P p R E → (∀ a, triple (R a) (f a) Q E) → triple P (bind p f) Q E.
Proof.
  intros Hp Hf h s t s' r Hs Hpre [[-> H1]|(a & t1 & s1 & t2 & -> & H1 & H2)]%prog_runs_bind.
  - by apply (Hp h s t s' None).
  - destruct (Hp h s t1 s1 (Some a) Hs Hpre H1) as [Hs1 Hr]. rewrite (assoc_L (++)). by apply (Hf a _ s1).
Qed.

Lemma triple_modify_bind {A} (P P' : assertion) (f : S → S) (k : unit → Prog Ans S A) Q E :
  triple P' (k tt) Q E → (∀ h s, P h s → P' h (f s)) → triple P (bind (modify f) k) Q E.
Proof. intros Hk Hf. eapply triple_bind; [by apply (triple_modify _ _ (fun _ => P'))|]. by intros []. Qed.

Lemma triple_modify_ret {A} (P : assertion) (f : S → S) (a : A) (Q : A → assertion) E :
  (∀ h s, P h s → Q a h (f s)) → triple P (bind (modify f) (fun _ => Ret a)) Q E.
Proof. intros Hf. eapply triple_modify_bind; [|exact Hf]. by apply triple_ret. Qed.

(** A sequence that ends with the first error, which has [X]. *)
Lemma triple_try {F A B} (P : assertion) (p : Prog Ans S (result F A)) (f : A → Prog Ans S (result F B)) (R : A → assertion) Q E :
  triple P p (fun r => match r with Ok a => R a | Err e => Q (Err e) end) E →
  (∀ a, triple (R a) (f a) Q E) → triple P (try p f) Q E.
Proof. intros Hp Hf. eapply triple_bind; [exact Hp|]. intros [a|e]; [apply Hf|by apply triple_ret]. Qed.

Lemma triple_pure {F A B} (P : assertion) (r : result F A) (k : A → Prog Ans S (result F B)) Q E :
  (∀ a, r = Ok a → triple P (k a) Q E) → (∀ e h s, r = Err e → P h s → Q (Err e) h s) → triple P (try (Ret r) k) Q E.
Proof. intros Hk He. destruct r as [a|e]; [by apply Hk|]. apply triple_ret. intros h s. by apply He. Qed.

Lemma runs_lift {A} (p : Task Ans A) s t s' r : runs (S := S) (lift p) s t s' r ↔ s' = s ∧ truns p t r.
Proof.
  clear permitted. revert t. induction p as [a|c k IH]; simpl; intros t; [naive_solver|]. setoid_rewrite IH. naive_solver.
Qed.

(** A task whose calls are permitted, and keep [P]. *)
Lemma triple_lift {A} (C : Cmd → Prop) (P : assertion) (p : Task Ans A) :
  emits C p → (∀ h s c, P h s → C c → permitted h c) → (∀ h s e, P h s → C (cmd e) → P (h ++ [e]) s) →
  triple P (lift p) (fun a h s => P h s ∧ ∃ h0 t, h = h0 ++ t ∧ truns p t (Some a)) P.
Proof.
  intros Hp Hc Hk h s t s' r Hs Hpre [-> Ht]%runs_lift. pose proof (emits_runs _ _ _ _ Hp Ht) as Hf.
  assert (Safe (h ++ t) ∧ P (h ++ t) s) as [Hsafe Hpost].
  { clear Ht. revert h Hs Hpre. induction t as [|e t IH]; intros h Hs Hpre; [by rewrite app_nil_r|].
    apply Forall_cons in Hf as [He Hf]. replace (h ++ e :: t) with ((h ++ [e]) ++ t) by (by rewrite <- (assoc_L (++))).
    apply IH; [done|apply safe_snoc; [done|by apply (Hc h s)]|by apply Hk]. }
  split; [done|]. destruct r as [a|]; [|done]. split; [done|]. by exists h, t.
Qed.

Lemma triple_keep {A} (C : Cmd → Prop) (P : assertion) (p : Task Ans A) (E : assertion) :
  emits C p → (∀ h s c, P h s → C c → permitted h c) → (∀ h s e, P h s → C (cmd e) → P (h ++ [e]) s) →
  (∀ h s, P h s → E h s) → triple P (lift p) (fun _ h s => P h s) E.
Proof.
  intros Hp Hc Hk He. eapply triple_weaken; [by apply (triple_lift C P)|done| |done]. by intros a h s [? _].
Qed.

(** ** Pools *)

Lemma nodup_without {X Y} (a b : list (X * Y)) x : NoDup (a ++ x :: b).*1 → NoDup (a ++ b).*1.
Proof.
  rewrite !fmap_app, fmap_cons. intros Hd. eapply sublist_NoDup; [exact Hd|].
  apply sublist_app; [done|]. by apply sublist_cons.
Qed.

Section Pools.
Context {B L : Type} (orig : list (nat * Task Ans B)).

(** The calls of each task, and of the handlers. *)
Variables (C : nat → Cmd → Prop) (Hc : Cmd → Prop).

(** What holds while tasks [rem] are left. *)
Variable K : list nat → list (Event Ans) → L → S → Prop.

(** The history before the pool. *)
Variable h0 : list (Event Ans).

(** An event that is not of the task. *)
Definition foreign (i : nat) (e : Event Ans) : Prop := Hc (cmd e) ∨ ∃ j, j ≠ i ∧ j ∈ orig.*1 ∧ C j (cmd e).

(** The task ended so, with its calls among those since the pool began. *)
Definition ended (i : nat) (b : option B) (h : list (Event Ans)) : Prop :=
  ∃ h' p t rest, h = h0 ++ h' ∧ (i, p) ∈ orig ∧ truns p t b ∧ merge t rest h' ∧ Forall (foreign i) rest.

(** A task that is under way. *)
Definition under_way h' (x : nat * Task Ans B) : Prop :=
  emits (C x.1) x.2 ∧ x.1 ∈ orig.*1 ∧
  ∃ p t rest, (x.1, p) ∈ orig ∧ (∀ t' b, truns x.2 t' b → truns p (t ++ t') b) ∧ merge t rest h' ∧ Forall (foreign x.1) rest.

Lemma under_way_foreign h' x l : under_way h' x → Forall (foreign x.1) l → under_way (h' ++ l) x.
Proof.
  intros (He & Hi & p & t & rest & Hp & Ht & Hm & Hf) Hl. split_and!; [done|done|]. exists p, t, (rest ++ l).
  split_and!; [done|done|by apply merge_more_right|by apply Forall_app].
Qed.

Lemma under_way_call h' i c k x :
  under_way h' (i, TDo c k) → under_way (h' ++ [existT c (Some x)]) (i, k x).
Proof.
  intros ([Hc' He] & Hi & p & t & rest & Hp & Ht & Hm & Hf). split_and!; [apply He|done|].
  exists p, (t ++ [existT c (Some x)]), rest. split_and!; [done| |by apply merge_snoc_left|done].
  intros t' b Hk. rewrite <- (assoc_L (++)). apply Ht. right. by exists x, t'.
Qed.

Lemma under_way_end h' i b : under_way h' (i, TRet b) → ended i (Some b) (h0 ++ h').
Proof.
  intros (_ & Hi & p & t & rest & Hp & Ht & Hm & Hf). exists h', p, t, rest. split_and!; try done.
  rewrite <- (app_nil_r t). by apply Ht.
Qed.

Lemma under_way_crash h' i c k : under_way h' (i, TDo c k) → ended i None (h0 ++ h' ++ [existT c None]).
Proof.
  intros (_ & Hi & p & t & rest & Hp & Ht & Hm & Hf). exists (h' ++ [existT c None]), p, (t ++ [existT c None]), rest.
  split_and!; [done|done| |by apply merge_snoc_left|done]. apply Ht. by left.
Qed.

(** The others, when one makes a call. *)
Lemma others_call ts1 i c (p p' : Task Ans B) ts2 h' e :
  NoDup (ts1 ++ (i, p) :: ts2).*1 → C i c → cmd e = c → i ∈ orig.*1 →
  Forall (under_way h') (ts1 ++ ts2) → Forall (under_way (h' ++ [e])) (ts1 ++ ts2).
Proof.
  intros Hd Hc' <- Hi Hu. apply Forall_forall. intros x Hx. rewrite Forall_forall in Hu.
  apply under_way_foreign; [by apply Hu|]. apply Forall_singleton. right. exists i. split_and!; [|done|done].
  rewrite fmap_app, fmap_cons in Hd. simpl in Hd. apply NoDup_app in Hd as (_ & Hd1 & [Hd2 _]%NoDup_cons).
  intros ->. apply elem_of_app in Hx as [Hx|Hx]; [|by apply Hd2, list_elem_of_fmap_2].
  apply (Hd1 x.1); [by apply list_elem_of_fmap_2|left].
Qed.

Variables (each : L → nat → option B → Prog Ans S L) (tick : L → Prog Ans S L) (E : assertion).

Hypothesis task_call : ∀ rem h' l s i c x, K rem (h0 ++ h') l s → i ∈ rem → i ∈ orig.*1 → C i c →
  permitted (h0 ++ h') c ∧ K rem (h0 ++ h' ++ [existT c x]) l s.
Hypothesis task_end : ∀ r1 i r2 l b, triple (fun h s => K (r1 ++ i :: r2) h l s ∧ ended i b h) (each l i b)
  (fun l' h s => K (r1 ++ r2) h l' s) E.
Hypothesis task_progress : ∀ rem l, triple (fun h s => K rem h l s) (tick l) (fun l' h s => K rem h l' s) E.
Hypothesis each_calls : ∀ l i b s t s' r, runs (each l i b) s t s' r → Forall (fun e => Hc (cmd e)) t.
Hypothesis tick_calls : ∀ l s t s' r, runs (tick l) s t s' r → Forall (fun e => Hc (cmd e)) t.

Lemma handled ts h' t : Forall (under_way h') ts → Forall (fun e => Hc (cmd e)) t → Forall (under_way (h' ++ t)) ts.
Proof.
  intros Hu Ht. eapply Forall_impl; [exact Hu|]. intros x Hx. apply under_way_foreign; [done|].
  eapply Forall_impl; [exact Ht|]. intros e He. by left.
Qed.

(** A call of a task. *)
Lemma called ts1 i c k ts2 h' l s x :
  Forall (under_way h') (ts1 ++ (i, TDo c k) :: ts2) → NoDup (ts1 ++ (i, TDo c k) :: ts2).*1 → Safe (h0 ++ h') →
  K (ts1 ++ (i, TDo c k) :: ts2).*1 (h0 ++ h') l s →
  let h1 := h' ++ [existT c x] in
  Safe (h0 ++ h1) ∧ K (ts1.*1 ++ i :: ts2.*1) (h0 ++ h1) l s ∧ Forall (under_way h1) (ts1 ++ ts2) ∧
  NoDup (ts1 ++ ts2).*1 ∧ under_way h' (i, TDo c k).
Proof.
  intros Hu Hd Hs HK h1. apply Forall_app in Hu as [Hu1 [Hui Hu2]%Forall_cons]. pose proof Hui as ([Hci _] & Hi & _).
  destruct (task_call _ h' l s i c x HK) as [Hperm HK']; [rewrite fmap_app; set_solver|done|done|].
  rewrite fmap_app in HK'. split_and!; [unfold h1; rewrite (assoc_L (++)); by apply safe_snoc|exact HK'| | |done].
  - by eapply (others_call _ _ _ _ (TDo c k)); [exact Hd|exact Hci|done|done|apply Forall_app_2].
  - by eapply nodup_without.
Qed.

(** The end of a task. *)
Lemma after_end ts1 i p ts2 h l s b t1 s1 ro :
  K (ts1.*1 ++ i :: ts2.*1) h l s → ended i b h → Safe h → runs (each l i b) s t1 s1 ro →
  Safe (h ++ t1) ∧ match ro with Some l' => K (ts1 ++ ts2).*1 (h ++ t1) l' s1 | None => E (h ++ t1) s1 end ∧
  (∀ h', h = h0 ++ h' → Forall (under_way h') (ts1 ++ (i, p) :: ts2) → Forall (under_way (h' ++ t1)) (ts1 ++ ts2)).
Proof.
  intros HK He Hs Hr. destruct (task_end _ i _ l b h s t1 s1 ro Hs (conj HK He) Hr) as [Hs1 HK1]. rewrite fmap_app.
  split_and!; [done|done|]. intros h' _ [Hu1 [_ Hu2]%Forall_cons]%Forall_app.
  apply handled; [by apply Forall_app_2|by eapply each_calls].
Qed.

Lemma pool_runs_ok ts l s t s' r :
  pool_runs (fun l i b => runs (each l i b)) (fun l => runs (tick l)) ts l s t s' r →
  ∀ h', Forall (under_way h') ts → NoDup ts.*1 → Safe (h0 ++ h') → K ts.*1 (h0 ++ h') l s →
  Safe (h0 ++ h' ++ t) ∧ match r with Some l' => K [] (h0 ++ h' ++ t) l' s' | None => E (h0 ++ h' ++ t) s' end.
Proof.
  induction 1 as [l s|ts1 i c k ts2 l s x t s' r Hp IH|ts1 i c k ts2 l s t1 s1 l1 t2 s2 r He Hp IH
    |ts1 i b ts2 l s t1 s1 l1 t2 s2 r He Hp IH|ts l s t1 s1 l1 t2 s2 r He Hp IH
    |ts1 i c k ts2 l s t1 s1 He|ts1 i b ts2 l s t1 s1 He|ts l s t1 s1 He]; intros h' Hu Hd Hs HK.
  - by rewrite app_nil_r.
  - destruct (called _ _ _ _ _ _ _ _ (Some x) Hu Hd Hs HK) as (Hs1 & HK1 & [Hu1 Hu2]%Forall_app & _ & Hui).
    rewrite cons_middle, (assoc_L (++) h'). apply IH; [|by rewrite fmap_app in Hd |- *|done|by rewrite fmap_app].
    apply Forall_app_2; [done|]. constructor; [by apply under_way_call|done].
  - destruct (called _ _ _ _ _ _ _ _ None Hu Hd Hs HK) as (Hs1 & HK1 & Hu1 & Hd1 & Hui). apply under_way_crash in Hui.
    destruct (after_end _ _ (TDo c k) _ _ _ _ _ _ _ _ HK1 Hui Hs1 He) as (Hs2 & HK2 & _). rewrite <- (assoc_L (++)) in Hs2, HK2.
    rewrite cons_middle, (assoc_L (++) h'), (assoc_L (++) (h' ++ _)).
    apply IH; [|done|done|done]. apply handled; [done|by eapply each_calls].
  - apply Forall_app in Hu as [Hu1 [Hui Hu2]%Forall_cons]. rewrite fmap_app in HK. apply under_way_end in Hui.
    destruct (after_end _ _ (TRet b) _ _ _ _ _ _ _ _ HK Hui Hs He) as (Hs1 & HK1 & _). rewrite <- (assoc_L (++)) in Hs1, HK1.
    rewrite (assoc_L (++) h'). apply IH; [|by eapply nodup_without|done|done].
    apply handled; [by apply Forall_app_2|by eapply each_calls].
  - destruct (task_progress _ l (h0 ++ h') s t1 s1 (Some l1) Hs HK He) as [Hs1 HK1]. rewrite <- (assoc_L (++)) in Hs1, HK1.
    rewrite (assoc_L (++) h'). apply IH; [|done|done|done]. apply handled; [done|by eapply tick_calls].
  - destruct (called _ _ _ _ _ _ _ _ None Hu Hd Hs HK) as (Hs1 & HK1 & _ & _ & Hui). apply under_way_crash in Hui.
    destruct (after_end _ _ (TDo c k) _ _ _ _ _ _ _ _ HK1 Hui Hs1 He) as (Hs2 & HK2 & _).
    by rewrite cons_middle, (assoc_L (++) h'), (assoc_L (++) h0).
  - apply Forall_app in Hu as [Hu1 [Hui Hu2]%Forall_cons]. rewrite fmap_app in HK. apply under_way_end in Hui.
    rewrite (assoc_L (++) h0). by destruct (after_end _ _ (TRet b) _ _ _ _ _ _ _ _ HK Hui Hs He) as (Hs1 & HK1 & _).
  - rewrite (assoc_L (++) h0). by apply (task_progress _ l (h0 ++ h') s t1 s1 None Hs HK).
Qed.

(** The whole pool. *)
Lemma pool_runs_start l s t s' r :
  NoDup orig.*1 → (∀ i p, (i, p) ∈ orig → emits (C i) p) → Safe h0 → K orig.*1 h0 l s →
  pool_runs (fun l i b => runs (each l i b)) (fun l => runs (tick l)) orig l s t s' r →
  Safe (h0 ++ t) ∧ match r with Some l' => K [] (h0 ++ t) l' s' | None => E (h0 ++ t) s' end.
Proof.
  intros Hd He Hs HK Hp. pose proof (pool_runs_ok _ _ _ _ _ _ Hp []) as Hok. rewrite !app_nil_r in Hok.
  apply Hok; [|done|done|done]. apply Forall_forall. intros [i p] Hi. split_and!; [by apply He|by apply (list_elem_of_fmap_2 fst _ (i, p))|].
  exists p, [], []. split_and!; [done|done|constructor|constructor].
Qed.
End Pools.

Lemma triple_pool {A B L} (tasks : list (nat * Task Ans B)) (l0 : L) each tick (k : L → Prog Ans S A) (P : assertion)
    (C : nat → Cmd → Prop) (Hc : Cmd → Prop) (K : list (Event Ans) → list nat → list (Event Ans) → L → S → Prop) Q E :
  NoDup tasks.*1 → (∀ i p, (i, p) ∈ tasks → emits (C i) p) → (∀ h s, P h s → K h tasks.*1 h l0 s) →
  (∀ h0 rem h' l s i c x, K h0 rem (h0 ++ h') l s → i ∈ rem → i ∈ tasks.*1 → C i c →
     permitted (h0 ++ h') c ∧ K h0 rem (h0 ++ h' ++ [existT c x]) l s) →
  (∀ h0 r1 i r2 l b, triple (fun h s => K h0 (r1 ++ i :: r2) h l s ∧ ended tasks C Hc h0 i b h) (each l i b)
     (fun l' h s => K h0 (r1 ++ r2) h l' s) E) →
  (∀ h0 rem l, triple (fun h s => K h0 rem h l s) (tick l) (fun l' h s => K h0 rem h l' s) E) →
  (∀ l i b s t s' r, runs (each l i b) s t s' r → Forall (fun e => Hc (cmd e)) t) →
  (∀ l s t s' r, runs (tick l) s t s' r → Forall (fun e => Hc (cmd e)) t) →
  (∀ l, triple (fun h s => ∃ h0, K h0 [] h l s) (k l) Q E) →
  triple P (Pool tasks l0 each tick k) Q E.
Proof.
  intros Hd He HP Hcall Hend Hprog Hec Htc Hk h s t s' r Hs Hpre (t1 & s1 & rl & Hpool & Hr).
  destruct (pool_runs_start tasks C Hc (K h) h each tick E (Hcall h) (Hend h) (Hprog h) Hec Htc _ _ _ _ _ Hd He Hs (HP _ _ Hpre) Hpool)
    as [Hs1 Hpost].
  destruct rl as [l1|]; [|by destruct Hr as (-> & -> & ->)]. destruct Hr as (t2 & -> & Hr). rewrite (assoc_L (++)).
  by apply (Hk l1 (h ++ t1) s1); [|exists h|].
Qed.

(** ** Executions are behaviours *)

Section Exec.
Context {W : Type} (ask : ∀ c, W → W * Ans c).

(** A task that runs to its end before the others of its pool. *)
Lemma texec_pool {B L} H T i (p : Task Ans B) ts (l : L) s w w' t b t' s' r :
  texec ask p w = (w', t, b) → pool_runs (S := S) H T ((i, TRet b) :: ts) l s t' s' r →
  pool_runs H T ((i, p) :: ts) l s (t ++ t') s' r.
Proof.
  revert w t. induction p as [a|c k IH]; intros w t; cbn [texec]; [by intros [= -> <- ->]|].
  destruct (ask c w) as [w1 x]. destruct (texec ask (k x) w1) as [[w2 t1] b'] eqn:E. intros [= -> <- ->] Hp.
  apply (pool_call H T []). by eapply IH.
Qed.

Lemma exec_runs {A} (p : Prog Ans S A) s w w' t s' a : exec ask p s w = (w', t, s', a) → runs p s t s' (Some a).
Proof.
  revert s w w' t s' a. induction p as [A a|A c k IH|A k IH|A s0 k IH|B L A tasks l each IHe tick _ k IH|B A p IHp k IH];
    intros s w w' t s' r; cbn [exec runs].
  - by intros [= -> <- -> ->].
  - destruct (ask c w) as [w1 x]. destruct (exec ask (k x) s w1) as [[[w2 t1] s1] r1] eqn:E. intros [= -> <- -> ->].
    right. exists x, t1. split; [done|]. by eapply IH.
  - apply IH.
  - apply IH.
  - destruct (exec_pool _ _ tasks l s w) as [[[w1 t1] s1] l1] eqn:Eg.
    destruct (exec ask (k l1) s1 w1) as [[[w2 t2] s2] r2] eqn:Ek. intros [= -> <- -> ->].
    exists t1, s1, (Some l1). split; [|exists t2; split; [done|by eapply IH]]. clear Ek.
    revert l s w w1 t1 s1 l1 Eg. induction tasks as [|[i p] tasks IHt]; intros l s w w1 t1 s1 l1; cbn [exec_pool].
    + intros [= -> <- -> ->]. constructor.
    + destruct (texec ask p w) as [[w3 t3] b] eqn:Et. destruct (exec ask (each l i (Some b)) s w3) as [[[w4 t4] s4] l4] eqn:Ee.
      destruct (exec_pool _ _ tasks l4 s4 w4) as [[[w5 t5] s5] l5] eqn:Eg. intros [= -> <- -> ->].
      eapply texec_pool; [exact Et|]. eapply (pool_end _ _ [] i b tasks); [by eapply IHe|by eapply IHt].
  - destruct (exec ask p s w) as [[[w1 t1] s1] b] eqn:E. destruct (exec ask (k (Some b)) s1 w1) as [[[w2 t2] s2] r2] eqn:E2.
    intros [= -> <- -> ->]. exists t1, s1, (Some b), t2. split_and!; [by eapply IHp|done|by eapply IH].
Qed.
End Exec.

(** ** The calls of a program *)

Definition calls {A} (C : Cmd → Prop) (p : Prog Ans S A) : Prop :=
  ∀ s t s' r, runs p s t s' r → Forall (fun e => C (cmd e)) t.

Lemma calls_ret {A} C (a : A) : calls C (Ret a).
Proof. intros s t s' r (-> & _). constructor. Qed.

Lemma calls_modify C f : calls C (modify f).
Proof. intros s t s' r (-> & _). constructor. Qed.

Lemma calls_get {A} C (k : S → Prog Ans S A) : (∀ s, calls C (k s)) → calls C (Get k).
Proof. intros Hk s t s' r Hr. by eapply Hk. Qed.

Lemma calls_lift {A} C (p : Task Ans A) : emits C p → calls C (lift p).
Proof. intros Hp s t s' r [_ Ht]%runs_lift. by eapply emits_runs. Qed.

Lemma calls_bind {A B} C (p : Prog Ans S A) (f : A → Prog Ans S B) :
  calls C p → (∀ a, calls C (f a)) → calls C (bind p f).
Proof.
  intros Hp Hf s t s' r [[-> H1]|(a & t1 & s1 & t2 & -> & H1 & H2)]%prog_runs_bind; [by eapply Hp|].
  apply Forall_app_2; [by eapply Hp|by eapply Hf].
Qed.

Lemma calls_try {F A B} C (p : Prog Ans S (result F A)) (f : A → Prog Ans S (result F B)) :
  calls C p → (∀ a, calls C (f a)) → calls C (try p f).
Proof. intros Hp Hf. apply calls_bind; [done|]. intros [a|e]; [apply Hf|apply calls_ret]. Qed.
End Logic.

(** ** What happened, and what did not since *)

Section Since.
Context {Cmd : Type} {Ans : Cmd → Type}.
Implicit Types (h : list (Event Ans)) (good : Event Ans → Prop) (bad : Cmd → Prop).

Definition none bad h : Prop := Forall (fun e => ¬ bad (cmd e)) h.

Definition since good bad h : Prop := ∃ h1 e h2, h = h1 ++ e :: h2 ∧ good e ∧ none bad h2.

Lemma since_app good bad h h' : since good bad h → none bad h' → since good bad (h ++ h').
Proof.
  intros (h1 & e & h2 & -> & He & Hn) Hn'. exists h1, e, (h2 ++ h'). rewrite <- (assoc_L (++)).
  split_and!; [done|done|by apply Forall_app_2].
Qed.

Lemma since_snoc good bad h e : since good bad h → ¬ bad (cmd e) → since good bad (h ++ [e]).
Proof. intros Hs He. apply since_app; [done|]. by apply Forall_singleton. Qed.

Lemma since_now good bad h e : good e → since good bad (h ++ [e]).
Proof. intros He. exists h, e, []. split_and!; [done|done|constructor]. Qed.

Lemma since_prefix good bad h h' : since good bad h' → since good bad (h ++ h').
Proof. intros (h1 & e & h2 & -> & He & Hn). exists (h ++ h1), e, h2. by rewrite (assoc_L (++)). Qed.

Lemma since_merge good bad t rest h : merge t rest h → since good bad t → none bad rest → since good bad h.
Proof.
  intros Hm (h1 & e & h2 & -> & He & Hn) Hr. apply merge_split in Hm as (b1 & b2 & c1 & c2 & -> & -> & H1 & H2).
  exists c1, e, c2. split_and!; [done|done|]. apply (merge_forall _ _ _ _ H2). apply Forall_app in Hr as [_ Hr]. done.
Qed.

Lemma since_mono good good' bad bad' h :
  since good bad h → (∀ e, good e → good' e) → (∀ c, bad' c → bad c) → since good' bad' h.
Proof.
  intros (h1 & e & h2 & -> & He & Hn) Hg Hb. exists h1, e, h2. split_and!; [done|auto|].
  eapply Forall_impl; [exact Hn|]. intros x Hx Hbx. apply Hx, Hb, Hbx.
Qed.
End Since.
End Logic.

#[global] Opaque Logic.triple.

(** ** The batches of the worker *)

Module Batches.
Import FabricLayout Planner ManagedConfig FabricHealth Programs Reconcile Logic.

(** The calls that [run_parallel] itself makes. *)
Definition batch_call (c : Cmd) : Prop := c = DispatchStopped ∨ c = IsCancelled.

Section Batch.
Variable permitted : list (Event Ans) → Cmd → Prop.
Context {A : Type} (name : string) (ops : list (Task Ans (result string A))) (C : nat → Cmd → Prop).

(** A call of the batch. *)
Definition in_batch (c : Cmd) : Prop := batch_call c ∨ ∃ i, (i < length ops)%nat ∧ C i c.

(** Not a call of an operation. *)
Definition besides (i : nat) (c : Cmd) : Prop := batch_call c ∨ ∃ j, j ≠ i ∧ (j < length ops)%nat ∧ C j c.

(** The operation returned [a], with its calls among those of the batch. *)
Definition succeeded (h : list (Event Ans)) (i : nat) (p : Task Ans (result string A)) (a : A) : Prop :=
  ∃ t rest, truns p t (Some (Ok a)) ∧ merge t rest h ∧ Forall (fun e => besides i (cmd e)) rest.

Lemma succeeded_more h i p a e : succeeded h i p a → besides i (cmd e) → succeeded (h ++ [e]) i p a.
Proof.
  intros (t & rest & Ht & Hm & Hr) He. exists t, (rest ++ [e]).
  split_and!; [done|by apply merge_more_right|]. apply Forall_app_2; [done|by apply Forall_singleton].
Qed.

Lemma emits_dispatched i (p : Task Ans (result string A)) : emits (C i) p → emits (fun c => batch_call c ∨ C i c) (dispatched p).
Proof.
  intros Hp. unfold dispatched. apply emits_bind; [by repeat constructor|]. intros st.
  apply emits_bind; [destruct st; [done|split; [left; by right|done]]|]. intros []; [done|].
  eapply emits_weaken; [exact Hp|]. auto.
Qed.

Lemma dispatched_ok p t (a : A) : truns (dispatched p) t (Some (Ok a)) →
  ∃ t1 t2, t = t1 ++ t2 ∧ truns p t2 (Some (Ok a)) ∧ Forall (fun e => batch_call (cmd e)) t1.
Proof.
  unfold dispatched. intros [[[=] _]|(st & t1 & t2 & -> & ->%truns_call & H)]%truns_bind.
  apply truns_bind in H as [[[=] _]|(ca & t3 & t4 & -> & H3 & H4)].
  assert (Forall (fun e => batch_call (cmd e)) t3) as Hb.
  { destruct st; [destruct H3 as [-> _]; constructor|]. apply (truns_call (Ans := Ans) IsCancelled) in H3 as ->. apply Forall_singleton. by right. }
  destruct ca; [by destruct H4 as [_ [=]]|]. exists ([existT DispatchStopped (Some st)] ++ t3), t4.
  split_and!; [by rewrite (assoc_L (++))|done|]. apply Forall_app_2; [|done]. apply Forall_singleton. by left.
Qed.

Hypothesis ops_emit : ∀ i p, ops !! i = Some p → emits (C i) p.

Lemma batch_tasks i q : (i, q) ∈ imap (fun i p => (i, dispatched p)) ops ↔ ∃ p, ops !! i = Some p ∧ q = dispatched p.
Proof.
  rewrite list_elem_of_lookup. setoid_rewrite list_lookup_imap_Some. naive_solver.
Qed.

Lemma batch_indices : (imap (fun i p => (i, dispatched p)) ops).*1 = seq 0 (length ops).
Proof.
  rewrite fmap_imap. apply list_eq. intros i. destruct (decide (i < length ops)%nat) as [Hi|Hi].
  - destruct (lookup_lt_is_Some_2 ops i Hi) as [p Hp]. rewrite list_lookup_imap, Hp, lookup_seq_lt by done. done.
  - rewrite list_lookup_imap, (lookup_ge_None_2 ops), lookup_seq_ge by lia. done.
Qed.

(** The end of an operation that succeeded. *)
Lemma ended_succeeded h0 i p a h :
  ops !! i = Some p →
  ended (imap (fun i p => (i, dispatched p)) ops) (fun i c => batch_call c ∨ C i c) (fun _ => False) h0 i (Some (Ok a)) h →
  ∃ h', h = h0 ++ h' ∧ succeeded h' i p a.
Proof.
  intros Hp (h' & q & t & rest & -> & (p' & Hp' & ->)%batch_tasks & Ht & Hm & Hr). simplify_eq.
  apply dispatched_ok in Ht as (t1 & t2 & -> & Ht & Hb). apply merge_drop in Hm as (rest' & Hm & Hx).
  exists h'. split; [done|]. exists t2, rest'. split_and!; [done|done|]. apply Forall_forall. intros e [He|He]%Hx.
  - left. rewrite Forall_forall in Hb. by apply Hb.
  - rewrite Forall_forall in Hr. destruct (Hr e He) as [[]|(j & Hj & Hin & [Hc|Hc])]; [by left|].
    right. exists j. split_and!; [done| |done]. rewrite batch_indices in Hin. apply elem_of_seq in Hin. lia.
Qed.

(** What holds during the batch, with operations [rem] under way. *)
Definition collecting (P : list (Event Ans) → Recon → Prop) (h0 : list (Event Ans)) (rem : list nat) (h : list (Event Ans))
    (l : gmap nat A * option string) (s : Recon) : Prop :=
  P h s ∧ NoDup rem ∧ ∃ h', h = h0 ++ h' ∧ ∀ i p, ops !! i = Some p →
    i ∈ rem ∨ is_Some l.2 ∨ ((i ∉ rem) ∧ ∃ a, l.1 !! i = Some a ∧ succeeded h' i p a).

Variables (P E : list (Event Ans) → Recon → Prop).
Hypothesis allowed : ∀ h s c, P h s → in_batch c → permitted h c.
Hypothesis kept : ∀ h s e, P h s → in_batch (cmd e) → P (h ++ [e]) s.

Lemma collecting_call h0 rem h' l s i c x :
  collecting P h0 rem (h0 ++ h') l s → i ∈ rem → (i < length ops)%nat → batch_call c ∨ C i c →
  permitted (h0 ++ h') c ∧ collecting P h0 rem (h0 ++ h' ++ [existT c x]) l s.
Proof.
  intros (HP & Hd & h1 & E1%app_inv_head & Hl) Hi Hlt Hc. subst h1.
  assert (in_batch c) as Hin by (destruct Hc; [by left|right; eauto]).
  split; [by eapply allowed|]. split; [by rewrite (assoc_L (++)); apply kept|]. split; [done|].
  exists (h' ++ [existT c x]). split; [done|]. intros j q Hj.
  destruct (Hl j q Hj) as [?|[?|(Hn & a & Ha & Hs)]]; [by left|by right; left|]. right. right.
  split; [done|]. exists a. split; [done|]. apply succeeded_more; [done|]. destruct Hc as [Hc|Hc]; [by left|].
  right. exists i. split_and!; [by intros ->|done|done].
Qed.

Lemma collecting_end h0 r1 i r2 h l s (b : option (result string A)) :
  collecting P h0 (r1 ++ i :: r2) h l s →
  ended (imap (fun i p => (i, dispatched p)) ops) (fun i c => batch_call c ∨ C i c) (fun _ => False) h0 i b h →
  collecting P h0 (r1 ++ r2) h (collected name l i b) s.
Proof.
  intros (HP & Hd & h1 & -> & Hl) He. split; [done|].
  assert (NoDup (r1 ++ r2) ∧ i ∉ r1 ++ r2) as [Hd' Hn].
  { rewrite <- Permutation_middle in Hd. apply NoDup_cons in Hd as [? ?]. done. }
  split; [done|]. exists h1. split; [done|]. unfold collected. intros j q Hj.
  destruct (default _ b) as [a|e] eqn:Eb; simpl.
  - destruct b as [r|]; simplify_eq/=. destruct (decide (j = i)) as [->|Hji].
    + destruct (ended_succeeded _ _ _ _ _ Hj He) as (h' & E1%app_inv_head & Hs). subst h'.
      right. right. split; [done|]. exists a. by rewrite lookup_insert_eq.
    + destruct (Hl j q Hj) as [Hr|[Hr|(Hr & a' & Ha & Hs)]]; [left; set_solver|by right; left|].
      right. right. split; [set_solver|]. exists a'. by rewrite lookup_insert_ne.
  - right. left. by destruct l.2.
Qed.

(** All operations succeeded. *)
Definition gathered (h : list (Event Ans)) (get : nat → option A) : Prop :=
  ∃ h0 h', h = h0 ++ h' ∧ ∀ i p, ops !! i = Some p → ∃ a, get i = Some a ∧ succeeded h' i p a.

Lemma gathered_all h get :
  gathered h get → let l := omap get (seq 0 (length ops)) in length l = length ops ∧ gathered h (fun i => l !! i).
Proof.
  intros (h0 & h' & -> & Hg) l. assert (∀ i, (i < length ops)%nat → is_Some (get i)) as Hs.
  { intros i [p Hp]%lookup_lt_is_Some_2. destruct (Hg i p Hp) as (a & -> & _). done. }
  assert (∀ n, (n ≤ length ops)%nat → length (omap get (seq 0 n)) = n ∧ ∀ i, (i < n)%nat → omap get (seq 0 n) !! i = get i) as Hn.
  { induction n as [|n IH]; intros Hle; [split; [done|lia]|]. rewrite seq_S, omap_app. destruct IH as [IHl IHg]; [lia|].
    destruct (Hs n) as [a Ha]; [lia|]. simpl. rewrite Ha. rewrite length_app, IHl. split; [simpl; lia|]. intros i Hi.
    destruct (decide (i = n)) as [->|Hne]; [by rewrite lookup_app_r, IHl, Nat.sub_diag by lia|].
    rewrite lookup_app_l by lia. apply IHg. lia. }
  destruct (Hn (length ops)) as [Hlen Hget]; [lia|]. split; [done|]. exists h0, h'. split; [done|].
  intros i p Hp. unfold l. rewrite Hget by (by eapply lookup_lt_Some). by apply Hg.
Qed.

Lemma gathered_more h get e : gathered h get → batch_call (cmd e) → gathered (h ++ [e]) get.
Proof.
  intros (h0 & h' & -> & Hg) He. exists h0, (h' ++ [e]). split; [by rewrite (assoc_L (++))|]. intros i p Hp.
  destruct (Hg i p Hp) as (a & Ha & Hs). exists a. split; [done|]. apply succeeded_more; [done|by left].
Qed.

Lemma triple_gathered (l : gmap nat A * option string) :
  (∀ h s, P h s → E h s) →
  triple permitted (fun h s => P h s ∧ gathered h (fun i => l.1 !! i))
    (letP? _ := lift check_cancelled in Ret (Ok (omap (fun i => l.1 !! i) (seq 0 (length ops)))))
    (fun r h s => P h s ∧ ∀ l, r = Ok l → length l = length ops ∧ gathered h (fun i => l !! i)) E.
Proof.
  intros HE. eapply triple_bind; [apply (triple_keep _ (fun c => c = IsCancelled))|].
  - by repeat constructor.
  - intros h s c [HP _] ->. eapply allowed; [done|]. left. by right.
  - intros h s e [HP Hg] He. split; [apply kept; [done|]; left; by right|]. apply gathered_more; [done|by right].
  - intros h s [HP _]. auto.
  - intros [u|e]; apply triple_ret; intros h s [HP Hg]; [|by split]. split; [done|]. intros l' [= <-]. by apply gathered_all.
Qed.

(** A batch makes only permitted calls; if it succeeds, every operation did. *)
Lemma triple_run_parallel :
  (∀ h s, P h s → E h s) →
  triple permitted P (run_parallel name ops)
    (fun r h s => P h s ∧ ∀ l, r = Ok l → length l = length ops ∧ gathered h (fun i => l !! i)) E.
Proof.
  intros HE. unfold run_parallel.
  apply (triple_pool _ _ _ _ _ _ _ (fun i c => batch_call c ∨ C i c) (fun _ => False) (collecting P)).
  - rewrite batch_indices. apply NoDup_seq.
  - intros i q (p & Hp & ->)%batch_tasks. by apply emits_dispatched, ops_emit.
  - intros h s HP. split; [done|]. rewrite batch_indices. split; [apply NoDup_seq|]. exists []. rewrite app_nil_r.
    split; [done|]. intros i p Hi%lookup_lt_Some. left. apply elem_of_seq. lia.
  - intros h0 rem h' l s i c x HK Hi Hin Hc. apply (collecting_call _ _ _ _ _ i); [done|done| |done].
    rewrite batch_indices in Hin. apply elem_of_seq in Hin. lia.
  - intros h0 r1 i r2 l b. apply triple_ret. intros h s [HK He]. by apply collecting_end.
  - intros h0 rem l. by apply triple_ret.
  - intros l i b s t s' r (-> & _). constructor.
  - intros l s t s' r (-> & _). constructor.
  - intros l. destruct l.2 as [e|] eqn:El; [apply triple_ret; intros h s (h0 & HP & _); by split|].
    eapply triple_weaken; [by apply (triple_gathered l)| |done|done].
    intros h s (h0 & HP & _ & h' & -> & Hl). split; [done|]. exists h0, h'. split; [done|]. intros i p Hi.
    destruct (Hl i p Hi) as [Hr|[Hr|[_ Ha]]]; [by apply not_elem_of_nil in Hr|rewrite El in Hr; by destruct Hr|done].
Qed.
End Batch.
End Batches.

(** ** What a call of the worker needs *)

Module Policy.
Import NodeTypes Pb FabricLayout Planner ManagedConfig FabricHealth SwitchScope Programs Reconcile Logic.

(** The calls that change whether or how the controller of a switch runs. *)
Definition controls (id : string) (c : Cmd) : Prop :=
  match c with
  | StopCluster i | EnableCluster i | ExposeApi i | SecureApi i | ReconcileConfig i _ => i = id
  | _ => False
  end.

Definition writes (id : string) (c : Cmd) : Prop := match c with SetLinks i _ => i = id | _ => False end.

(** The calls that change a switch. *)
Definition mutates (c : Cmd) : Prop := ∃ id, controls id c ∨ writes id c ∨ c = SaveApplied id.

(** The controller was stopped, and left alone since. *)
Definition halted (h : list (Event Ans)) (id : string) : Prop :=
  since (fun e => e = existT (StopCluster id) (Some (Ok tt))) (controls id) h.

(** The worker has not touched the controller, or stopped it. *)
Definition quiet (h : list (Event Ans)) (id : string) : Prop := none (controls id) h ∨ halted h id.

(** The saved links were read, and are as in the target. *)
Definition links_read (id : string) (target : gmap string FabricLinkState) (e : Event Ans) : Prop :=
  ∃ snapshot, e = existT (LinkSnapshot id) (Some (Ok snapshot)) ∧ links_match snapshot target = Ok true.

(** What a call did to the pending controllers of the operation. *)
Definition pending_step (X : gset Fabric.ControllerIdentity) (e : Event Ans) : gset Fabric.ControllerIdentity :=
  match e with
  | existT (MarkPending l) (Some (Ok _)) => list_to_set l ∪ X
  | existT (ClearInactive c) (Some (Ok _)) => X ∖ {[c]}
  | existT (RecordActivation c _ _) (Some (Ok _)) => X ∖ {[c]}
  | _ => X
  end.

Section Policy.
Context `{SerdeJson, DigestEnv} (cx : Context).

(** The controllers that were pending when the operation was admitted. *)
Variable pending0 : gset Fabric.ControllerIdentity.

Definition pending_after (h : list (Event Ans)) : gset Fabric.ControllerIdentity := foldl pending_step pending0 h.

(** The controller of the switch is marked, in the registry of fabric operations. *)
Definition marked (h : list (Event Ans)) (id : string) : Prop :=
  ∃ w, w ∈ managed cx ∧ switch_id w = id ∧ controller_identity w ∈ pending_after h.

(** The saved links of the switch are down. *)
Definition isolated (h : list (Event Ans)) (id : string) : Prop :=
  ∃ target, target_links cx id = Some target ∧ since (links_read id (all_down target)) (writes id) h.

(** The saved links of all switches are those of the plan. *)
Definition barrier (h : list (Event Ans)) : Prop :=
  ∀ w, w ∈ managed cx → ∃ target, target_links cx (switch_id w) = Some target ∧
    since (links_read (switch_id w) target) (fun c => ∃ id, writes id c) h.

(** The controller was secured and left alone since, then its configuration was read
    as planned, and then it was ready with the members of the plan. *)
Definition activated (h : list (Event Ans)) (f : PlannedFabric) (id : string) : Prop :=
  ∃ h1 h2 h3 config current samples,
    h = h1 ++ existT (SecureApi id) (Some (Ok tt)) :: h2 ++ existT (ReadConfig id config) (Some (Ok current)) :: h3 ∧
    target_config f = Ok config ∧ config_matches current config = true ∧
    existT (Sample id) (Some samples) ∈ h3 ∧ none (controls id) (h2 ++ h3) ∧
    let o := interpret_group samples (expected_switches cx f) (expected_computes cx f) in
    is_controller_ready o = true ∧ membership_matches o = true.

(** Links and controllers of all switches were read as planned after the last change. *)
Definition verified (h : list (Event Ans)) : Prop :=
  ∀ w, w ∈ managed cx →
    (∃ target, target_links cx (switch_id w) = Some target ∧ since (links_read (switch_id w) target) mutates h) ∧
    since (fun e => e = existT (GetCluster (switch_id w))
                          (Some (Ok (Some (if is_primary cx (switch_id w) then "enabled" else "disabled"))))) mutates h ∧
    since (fun e => e = existT (StartupCluster (switch_id w)) (Some (Ok (is_primary cx (switch_id w))))) mutates h.

(** The job was seen cancelled. *)
Definition seen_cancelled (h : list (Event Ans)) : Prop := existT IsCancelled (Some true) ∈ h.

Definition permitted (h : list (Event Ans)) (c : Cmd) : Prop :=
  match c with
  | SetLinks id changes =>
      quiet h id ∧ (Exists (fun l => l.2 = Up) changes → ∀ id, marked h id → halted h id)
  | SaveApplied id => ¬ marked h id
  | StopCluster id => marked h id
  | EnableCluster id | ExposeApi id | SecureApi id => marked h id ∧ (isolated h id ∨ barrier h)
  | ReconcileConfig id _ => marked h id ∧ isolated h id
  | ClearInactive c =>
      ∃ w, w ∈ managed cx ∧ controller_identity w = c ∧ is_primary cx (switch_id w) = false ∧
        barrier h ∧ (marked h (switch_id w) → halted h (switch_id w))
  | RecordActivation c digest keys =>
      ∃ f w scopes, f ∈ fabrics (plan cx) ∧ primary cx f = Ok w ∧ controller_identity w = c ∧
        config_digest f = Ok digest ∧ member_scopes cx f = Ok scopes ∧ fabric_scope_keys scopes = Ok keys ∧
        marked h (switch_id w) ∧ barrier h ∧ activated h f (switch_id w)
  | FinishOperation => verified h ∧ (seen_cancelled h ∨ pending_after h = ∅)
  | CompleteJob _ => last h = Some (existT FinishOperation (Some (Ok tt)))
  | FailJob _ => ∃ r, last h = Some (existT ReleaseFailed (Some r))
  | _ => True
  end.
End Policy.
End Policy.

(** ** The worker keeps to it *)

Module Safety.
Import NodeTypes Pb FabricLayout Planner ManagedConfig FabricHealth SwitchScope Programs Reconcile Logic Batches Policy.

(** Calls that need nothing and change neither a switch nor the pending controllers. *)
Definition benign (c : Cmd) : Prop :=
  match c with
  | SetLinks _ _ | SaveApplied _ | StopCluster _ | EnableCluster _ | ExposeApi _ | SecureApi _ | ReconcileConfig _ _
  | MarkPending _ | ClearInactive _ | RecordActivation _ _ _ | FinishOperation | CompleteJob _ | FailJob _ => False
  | _ => True
  end.

(** What the calls of a class do not undo. *)
Definition stable (C : Cmd → Prop) (R : list (Event Ans) → Prop) : Prop :=
  ∀ h e, R h → C (cmd e) → R (h ++ [e]).

Lemma benign_controls c id : benign c → ¬ controls id c.
Proof. destruct c; simpl; tauto. Qed.
Lemma benign_writes c id : benign c → ¬ writes id c.
Proof. destruct c; simpl; tauto. Qed.
Lemma benign_mutates c : benign c → ¬ mutates c.
Proof. intros Hb (id & [Hc|[Hc| ->]]); [by eapply benign_controls|by eapply benign_writes|done]. Qed.

Lemma stable_since (C : Cmd → Prop) good bad : (∀ c, C c → ¬ bad c) → stable C (since good bad).
Proof. intros Hb h e Hs He. apply since_snoc; auto. Qed.

Lemma stable_none (C bad : Cmd → Prop) : (∀ c, C c → ¬ bad c) → stable C (none bad).
Proof. intros Hb h e Hs He. apply Forall_app_2; [done|]. apply Forall_singleton. auto. Qed.

Lemma stable_halted (C : Cmd → Prop) id : (∀ c, C c → ¬ controls id c) → stable C (fun h => halted h id).
Proof. intros Hb. by apply stable_since. Qed.

Lemma stable_quiet (C : Cmd → Prop) id : (∀ c, C c → ¬ controls id c) → stable C (fun h => quiet h id).
Proof. intros Hb h e [Hn|Hh] He; [left; by eapply stable_none|right; by eapply stable_halted]. Qed.

Section Worker.
Context `{SerdeJson, DigestEnv} (cx : Context) (pending0 : gset Fabric.ControllerIdentity).

Abbreviation permitted := (permitted cx pending0).
Abbreviation pending_after := (pending_after pending0).
Abbreviation marked := (marked cx pending0).
Abbreviation isolated := (isolated cx).
Abbreviation barrier := (barrier cx).

(** The calls that leave the pending controllers as they are. *)
Definition keeps_pending (c : Cmd) : Prop :=
  match c with MarkPending _ | ClearInactive _ | RecordActivation _ _ _ => False | _ => True end.

Lemma pending_after_snoc h e : pending_after (h ++ [e]) = pending_step (pending_after h) e.
Proof. unfold Policy.pending_after. by rewrite foldl_app. Qed.

Lemma pending_kept h e : keeps_pending (cmd e) → pending_after (h ++ [e]) = pending_after h.
Proof. rewrite pending_after_snoc. by destruct e as [[] x]. Qed.

Lemma marked_kept h e id : keeps_pending (cmd e) → marked (h ++ [e]) id ↔ marked h id.
Proof. intros He. unfold Policy.marked. by rewrite pending_kept. Qed.

Lemma benign_keeps c : benign c → keeps_pending c.
Proof. by destruct c. Qed.

Lemma stable_isolated (C : Cmd → Prop) id : (∀ c, C c → ¬ writes id c) → stable C (fun h => isolated h id).
Proof. intros Hb h e (target & Ht & Hs) He. exists target. split; [done|]. by eapply stable_since. Qed.

Lemma stable_barrier (C : Cmd → Prop) : (∀ c id, C c → ¬ writes id c) → stable C barrier.
Proof.
  intros Hb h e Hbar He w Hw. destruct (Hbar w Hw) as (target & Ht & Hs). exists target. split; [done|].
  apply since_snoc; [done|]. intros [id Hid]. by eapply Hb.
Qed.

Lemma permitted_benign h c : benign c → permitted h c.
Proof. by destruct c. Qed.

(** The worker's view of the pending controllers is that of the registry. *)
Definition synced (h : list (Event Ans)) (s : Recon) : Prop := pending_controllers s = pending_after h.

Lemma synced_kept h e s : synced h s → keeps_pending (cmd e) → synced (h ++ [e]) s.
Proof. intros Hs He. unfold synced. by rewrite pending_kept. Qed.

(** An assertion that benign calls do not undo. *)
Definition sturdy (P : list (Event Ans) → Recon → Prop) : Prop := ∀ h e s, P h s → benign (cmd e) → P (h ++ [e]) s.

Lemma triple_benign {A} (P : list (Event Ans) → Recon → Prop) (p : Task Ans A) E :
  emits benign p → sturdy P → (∀ h s, P h s → E h s) → triple permitted P (lift p) (fun _ h s => P h s) E.
Proof.
  intros Hp HP HE. apply (triple_keep _ benign); [done| | |done].
  - intros h s c _. apply permitted_benign.
  - intros h s e. auto.
Qed.

Lemma triple_try_benign {A B} (P : list (Event Ans) → Recon → Prop) (p : Task Ans (result string A))
    (k : A → Prog Ans Recon (result string B)) Q E :
  emits benign p → sturdy P → (∀ h s, P h s → E h s) → (∀ e h s, P h s → Q (Err e) h s) →
  (∀ a, triple permitted P (k a) Q E) → triple permitted P (try (lift p) k) Q E.
Proof.
  intros Hp HP HE HQ Hk. eapply triple_bind; [by apply triple_benign|]. intros [a|e]; [apply Hk|].
  apply triple_ret. auto.
Qed.

(** A loop. *)
Lemma triple_for_all {A} (P : list A → list (Event Ans) → Recon → Prop) (X E : list (Event Ans) → Recon → Prop)
    (f : A → Prog Ans Recon (result string unit)) l :
  (∀ don x rest, l = don ++ x :: rest →
     triple permitted (P don) (f x) (fun r h s => match r with Ok _ => P (don ++ [x]) h s | Err _ => X h s end) E) →
  triple permitted (P []) (for_all f l) (fun r h s => match r with Ok _ => P l h s | Err _ => X h s end) E.
Proof.
  intros Hf. assert (∀ don rest, l = don ++ rest →
    triple permitted (P don) (for_all f rest) (fun r h s => match r with Ok _ => P l h s | Err _ => X h s end) E) as Hg.
  { intros don rest. revert don. induction rest as [|x rest IH]; intros don Hl.
    - rewrite app_nil_r in Hl. subst. by apply triple_ret.
    - cbn [for_all]. eapply triple_bind; [by apply Hf with (rest := rest)|]. intros [[]|e]; [|by apply triple_ret].
      apply IH. by rewrite <- (assoc_L (++)). }
  by apply (Hg []).
Qed.

(** *** Tasks that only read *)

Lemma emits_or {A} (C X : Cmd → Prop) (p : Task Ans A) : emits C p → emits (fun c => C c ∨ X c) p.
Proof. intros Hp. eapply emits_weaken; [exact Hp|]. auto. Qed.

Lemma emits_ret {A} C (a : A) : emits (Ans := Ans) C (TRet a).
Proof. done. Qed.

Lemma emits_pure {E A B} C (r : result E A) (k : A → Task Ans (result E B)) :
  (∀ a, r = Ok a → emits C (k a)) → emits C (ttry (TRet r) k).
Proof. intros Hk. destruct r as [a|e]; [by apply Hk|done]. Qed.

Lemma emits_call C c : C c → emits (Ans := Ans) C (tcall c).
Proof. by split. Qed.

Lemma emits_ask {E A} C (message : E → string) (p : Task Ans (result E A)) : emits C p → emits C (ask message p).
Proof. intros Hp. by apply emits_bind. Qed.

Lemma emits_require C b message : emits C (require b message).
Proof. done. Qed.
End Worker.

Create HintDb emits.
#[export] Hint Resolve emits_ret emits_require : emits.
#[export] Hint Extern 1 (benign _) => exact I : emits.

(** Splits a task into its calls. *)
Ltac emits :=
  repeat match goal with
  | |- emits _ (ttry (TRet _) _) => apply emits_pure; intros ??
  | |- emits _ (ttry _ _) => apply emits_try; [|intros ?]
  | |- emits _ (tbind _ _) => apply emits_bind; [|intros ?]
  | |- emits _ (ask _ _) => apply emits_ask
  | |- emits _ (tcall _) => apply emits_call
  | |- emits _ (match ?x with _ => _ end) => destruct x eqn:?
  | |- emits _ _ => solve [auto with emits]
  | |- _ => solve [auto with emits]
  end.

Section Reads.
Context `{SerdeJson, DigestEnv} (cx : Context).

Lemma emits_check_cancelled : emits benign check_cancelled.
Proof. unfold check_cancelled. emits. Qed.
Lemma emits_publish : emits benign publish.
Proof. unfold publish. emits. Qed.
Lemma emits_link_snapshot what id : emits benign (link_snapshot what id).
Proof. unfold link_snapshot. emits. Qed.
Lemma emits_enabled w : emits benign (enabled w).
Proof. unfold enabled. emits. Qed.
Lemma emits_startup_enabled w : emits benign (startup_enabled w).
Proof. unfold startup_enabled. emits. Qed.
Lemma emits_connect id retry : emits benign (connect id retry).
Proof. unfold connect. emits. Qed.
Lemma emits_sample f id : emits benign (sample cx f id).
Proof. unfold sample. emits. Qed.
Lemma emits_lookup_proof w f : emits benign (lookup_proof w f).
Proof. unfold lookup_proof. emits. Qed.
End Reads.

#[export] Hint Resolve emits_check_cancelled emits_publish emits_link_snapshot emits_enabled emits_startup_enabled
  emits_connect emits_sample emits_lookup_proof : emits.

Section Reads.
Context `{SerdeJson, DigestEnv} (cx : Context).

Lemma emits_inspect_switch w : emits benign (inspect_switch cx w).
Proof. unfold inspect_switch. emits. Qed.
Lemma emits_verify_switch w : emits benign (verify_switch cx w).
Proof. unfold verify_switch. emits. Qed.
Lemma emits_verify_cluster w : emits benign (verify_cluster cx w).
Proof. unfold verify_cluster. emits. Qed.
Lemma emits_poll_group n f id config : emits benign (poll_group cx n f id config).
Proof. induction n; cbn [poll_group]; emits; done. Qed.
End Reads.

#[export] Hint Resolve emits_inspect_switch emits_verify_switch emits_verify_cluster emits_poll_group : emits.

Section Run.
Context `{SerdeJson, DigestEnv} (cx : Context) (pending0 : gset Fabric.ControllerIdentity).

(** What a plan of the switches provides. *)
Hypothesis ids_nodup : NoDup (switch_id <$> managed cx).
Hypothesis identities_nodup : NoDup (controller_identity <$> managed cx).
Hypothesis primaries_differ : ∀ i j f g,
  fabrics (plan cx) !! i = Some f → fabrics (plan cx) !! j = Some g → primary_id f = primary_id g → i = j.

Abbreviation permitted := (permitted cx pending0).
Abbreviation pending_after := (pending_after pending0).
Abbreviation marked := (marked cx pending0).
Abbreviation isolated := (isolated cx).
Abbreviation barrier := (barrier cx).
Abbreviation synced := (synced pending0).
Abbreviation triple := (triple permitted).

(** If the step fails, the worker still knows the pending controllers. *)
Abbreviation or_synced Q := (fun r h s => match r with Ok _ => Q h s | Err _ => synced h s end).

Lemma triple_then {F A B} P (p : Prog Ans Recon (result F A)) (k : A → Prog Ans Recon (result F B)) R Q :
  triple P p (or_synced R) synced → (∀ a, triple R (k a) (or_synced Q) synced) → triple P (try p k) (or_synced Q) synced.
Proof. intros Hp Hk. eapply triple_bind; [exact Hp|]. intros [a|e]; [apply Hk|by apply triple_ret]. Qed.

Lemma switch_by_id w w' : w ∈ managed cx → w' ∈ managed cx → switch_id w = switch_id w' → w = w'.
Proof. intros Hw Hw' E. by eapply (NoDup_fmap_inj switch_id). Qed.

Lemma switch_by_identity w w' :
  w ∈ managed cx → w' ∈ managed cx → controller_identity w = controller_identity w' → w = w'.
Proof. intros Hw Hw' E. by eapply (NoDup_fmap_inj controller_identity). Qed.

(** *** The beginning of the run, and inspection *)

(** The worker has not touched a controller; every pending one is unverified. *)
Record opening (h : list (Event Ans)) (s : Recon) : Prop := {
  op_synced : synced h s;
  op_untouched : ∀ id, none (controls id) h;
  op_covered : ∀ w, w ∈ managed cx → controller_identity w ∈ pending_controllers s → switch_id w ∈ unverified_primaries s;
  op_placed : ∀ c, c ∈ pending_controllers s → ∃ w, w ∈ managed cx ∧ controller_identity w = c;
}.

(** The only primaries that are unverified are the pending ones. *)
Definition calm (s : Recon) : Prop :=
  ∀ w, w ∈ managed cx → is_primary cx (switch_id w) = true → switch_id w ∈ unverified_primaries s →
    controller_identity w ∈ pending_controllers s.

(** The groups of unverified primaries, among [don], are to be changed. *)
Definition classified (don : list ManagedSwitch) (s : Recon) : Prop :=
  ∀ w i f, w ∈ don → fabrics (plan cx) !! i = Some f → primary_id f = switch_id w → switch_id w ∈ unverified_primaries s →
    i ∈ changed_groups s.

Lemma is_primary_at i f : fabrics (plan cx) !! i = Some f → is_primary cx (primary_id f) = true.
Proof.
  intros Hf. apply existsb_elem. exists f. split; [by eapply list_elem_of_lookup_2|apply String.eqb_refl].
Qed.

Lemma sturdy_opening : sturdy opening.
Proof.
  intros h e s [Hs Hu Hc Hp] He. split; [by apply synced_kept, benign_keeps| |done|done].
  intros id. eapply (stable_none benign); [|apply Hu|done]. intros c. apply benign_controls.
Qed.

Lemma opening_synced h s : opening h s → synced h s.
Proof. apply op_synced. Qed.

Lemma opening_modify h s f :
  pending_controllers (f s) = pending_controllers s → unverified_primaries s ⊆ unverified_primaries (f s) →
  opening h s → opening h (f s).
Proof.
  intros Hp Hv [Hs Hu Hc Hd]. split; [unfold Safety.synced; by rewrite Hp|done| |by rewrite Hp].
  rewrite Hp. intros w Hw Hin. apply Hv, Hc; done.
Qed.

Lemma triple_pending_primaries :
  triple (fun h s => s = new_reconciliation pending0 ∧ h = [])
    (Get (fun s => for_all (pending_primary cx) (ordered controller_le (pending_controllers s))))
    (or_synced (fun h s => opening h s ∧ calm s)) synced.
Proof.
  apply triple_get. intros s0. eapply triple_weaken; [apply (triple_for_all _ _ (fun don h s =>
      synced h s ∧ (∀ id, none (controls id) h) ∧ pending_controllers s = pending_controllers s0 ∧
      (∀ w, w ∈ managed cx → controller_identity w ∈ don ↔ switch_id w ∈ unverified_primaries s) ∧
      ∀ c, c ∈ don → ∃ w, w ∈ managed cx ∧ controller_identity w = c) synced synced)| | |done].
  - intros don c rest _. unfold pending_primary. destruct (List.find _ _) as [w|] eqn:Ef.
    + apply find_some in Ef as [Hw%list_elem_of_In Hc]. reflect_nums. apply triple_modify_ret.
      intros h s (Hs & Hu & Hp & Hd & Hf). split_and!; [done|done|done|..].
      * intros w' Hw'. rewrite elem_of_app, list_elem_of_singleton, (Hd w' Hw'). simpl. rewrite elem_of_union, elem_of_singleton.
        split; intros [E|E]; [by right| | |by left].
        -- rewrite <- Hc in E. left. by apply switch_by_identity in E as ->.
        -- right. by apply switch_by_id in E as ->.
      * intros c' [?| ->%list_elem_of_singleton]%elem_of_app; [auto|]. by exists w.
    + apply triple_ret. by intros h s [Hs _].
  - intros h s (-> & -> & ->). split_and!; [done|constructor|done| |by intros ? ?%not_elem_of_nil].
    intros w Hw. simpl. set_solver.
  - intros [[]|e] h s; [|done]. setoid_rewrite elem_of_ordered. intros (Hs & Hu & <- & Hd & Hf). split; [by split; [| |apply Hd|]|].
    intros w Hw _ Hin. by apply Hd.
Qed.

(** A batch that only reads. *)
Lemma triple_reads {A} name (ops : list (Task Ans (result string A))) P E :
  (∀ p, p ∈ ops → emits benign p) → sturdy P → (∀ h s, P h s → E h s) →
  triple P (run_parallel name ops)
    (fun r h s => P h s ∧ ∀ l, r = Ok l → length l = length ops ∧ gathered ops (fun _ => benign) h (fun i => l !! i)) E.
Proof.
  intros Ho HP HE. assert (∀ c, in_batch ops (fun _ => benign) c → benign c) as Hb.
  { by intros c [[->| ->]|(i & _ & Hc)]. }
  apply triple_run_parallel; [|..|done].
  - intros i p Hi. eapply Ho, list_elem_of_lookup_2, Hi.
  - intros h s c _ Hc. by apply permitted_benign, Hb.
  - intros h s e Hp Hc. apply HP; [done|by apply Hb].
Qed.

(** During the inspection, with the switches of [don] classified. *)
Definition inspecting (don : list ManagedSwitch) (h : list (Event Ans)) (s : Recon) : Prop :=
  opening h s ∧ calm s ∧ classified don s.

Lemma sturdy_inspecting don : sturdy (inspecting don).
Proof. intros h e s [Ho Hc] He. split; [by apply sturdy_opening|done]. Qed.

Lemma inspecting_synced don h s : inspecting don h s → synced h s.
Proof. intros [Ho _]. apply Ho. Qed.

Lemma inspecting_modify don h s f :
  pending_controllers (f s) = pending_controllers s → changed_groups s ⊆ changed_groups (f s) →
  unverified_primaries s ⊆ unverified_primaries (f s) →
  (∀ id, id ∈ unverified_primaries (f s) → id ∈ unverified_primaries s ∨ is_primary cx id = false) →
  inspecting don h s → inspecting don h (f s).
Proof.
  intros Hp Hch Hv Hn (Ho & Hc & Hd). split_and!; [by apply opening_modify|..].
  - intros w Hw Hpr [Hin|?]%Hn; [|congruence]. rewrite Hp. by apply Hc.
  - intros w i f' Hw Hf E [Hin|Hnp]%Hn; [by eapply Hch, Hd|]. apply is_primary_at in Hf. congruence.
Qed.

Lemma inspecting_more don w h s :
  inspecting don h s →
  (∀ i f, fabrics (plan cx) !! i = Some f → primary_id f = switch_id w → switch_id w ∈ unverified_primaries s → i ∈ changed_groups s) →
  inspecting (don ++ [w]) h s.
Proof.
  intros (Ho & Hc & Hd) Hw. split_and!; [done|done|]. intros w' i f [?|E%list_elem_of_singleton]%elem_of_app; [by apply Hd|].
  subst w'. apply Hw.
Qed.

(** A step that keeps what is known during the inspection. *)
Ltac step_inspecting :=
  apply triple_try_benign; [emits|apply sturdy_inspecting|apply inspecting_synced|intros _; apply inspecting_synced|].

Lemma triple_inspect_primary don w index f :
  w ∈ managed cx → fabrics (plan cx) !! index = Some f → primary_id f = switch_id w →
  triple (inspecting don) (inspect_primary cx w index f) (or_synced (inspecting (don ++ [w]))) synced.
Proof.
  intros Hw Hf Ep. assert (∀ i g, fabrics (plan cx) !! i = Some g → primary_id g = switch_id w → i = index) as Hone.
  { intros i g Hg E. eapply primaries_differ; [done|done|congruence]. }
  unfold inspect_primary. apply triple_pure; [|intros ??? _; apply inspecting_synced]. intros config _.
  step_inspecting. intros _.
  apply triple_try_benign; [by split|apply sturdy_inspecting|apply inspecting_synced|intros _; apply inspecting_synced|]. intros current.
  eapply triple_bind with (R := fun _ => inspecting don).
  { destruct (config_matches current config); [|by apply triple_ret]. apply triple_modify. intros h s. apply inspecting_modify; auto. }
  intros _. step_inspecting. intros o. destruct (_ || _); [apply triple_ret, inspecting_synced|].
  step_inspecting. intros proven. apply triple_get. intros s0. destruct (_ || _) eqn:Eb.
  - apply triple_modify_ret. intros h s [-> Hi]. apply inspecting_more; [apply inspecting_modify; simpl; set_solver|].
    intros i g Hg E _. rewrite (Hone i g Hg E). simpl. set_solver.
  - apply triple_ret. intros h s [-> Hi]. apply inspecting_more; [done|]. intros i g Hg E Hin. exfalso.
    rewrite !orb_false_iff in Eb. destruct Eb as [[[_ Eb] _] _]. apply bool_decide_eq_false in Eb.
    apply Eb. apply Hi; [done| |done]. rewrite <- Ep. by eapply is_primary_at.
Qed.

Lemma find_primary w index f :
  List.find (fun x => String.eqb (primary_id x.2) (switch_id w)) (enumerate (fabrics (plan cx))) = Some (index, f) →
  fabrics (plan cx) !! index = Some f ∧ primary_id f = switch_id w.
Proof.
  intros [Hin%list_elem_of_In E%String.eqb_eq]%find_some. split; [|done]. by apply elem_of_enumerate in Hin.
Qed.

Lemma find_no_primary w :
  List.find (fun x => String.eqb (primary_id x.2) (switch_id w)) (enumerate (fabrics (plan cx))) = None →
  is_primary cx (switch_id w) = false.
Proof.
  intros Hn. rewrite <- not_true_iff_false. intros (f & [i Hf]%list_elem_of_lookup & E)%existsb_elem.
  pose proof (find_none _ _ Hn (i, f)) as Hx. simpl in Hx. rewrite Hx in E; [done|]. by apply list_elem_of_In, elem_of_enumerate.
Qed.

Lemma triple_classify don w st :
  w ∈ managed cx → triple (inspecting don) (classify cx (w, st)) (or_synced (inspecting (don ++ [w]))) synced.
Proof.
  intros Hw. destruct st as [[[matching include_up] e] saved]. unfold classify. step_inspecting. intros _.
  eapply triple_bind with (R := fun _ => inspecting don).
  { destruct (eqb saved _); [by apply triple_ret|]. apply triple_modify. intros h s. apply inspecting_modify; auto. }
  intros _. eapply triple_bind with (R := fun _ => inspecting don).
  { destruct matching; [by apply triple_ret|]. apply triple_modify. intros h s. apply inspecting_modify; simpl; set_solver. }
  intros _. destruct (List.find _ _) as [[index f]|] eqn:Ef.
  - apply find_primary in Ef as [Hf Ep]. destruct e; [by apply triple_inspect_primary|].
    apply triple_modify_ret. intros h s Hi. apply inspecting_more; [apply inspecting_modify; simpl; set_solver|].
    intros i g Hg E _. rewrite (primaries_differ i index g f); [simpl; set_solver|done|done|congruence].
  - apply find_no_primary in Ef.
    assert (∀ h s, inspecting don h s → inspecting (don ++ [w]) h s) as Hmore.
    { intros h s Hi. apply inspecting_more; [done|]. intros i f Hf E. apply is_primary_at in Hf. congruence. }
    destruct (_ || _); [|by apply triple_ret]. apply triple_modify_ret. intros h s Hi. apply Hmore.
    apply inspecting_modify; [done|done|simpl; set_solver| |done]. simpl. set_solver.
Qed.

Lemma triple_inspect :
  triple (fun h s => opening h s ∧ calm s) (inspect cx) (or_synced (fun h s => opening h s ∧ classified (managed cx) s)) synced.
Proof.
  apply (triple_pre _ _ (inspecting [])); [|intros h s [? ?]; split_and!; [done|done|by intros ??? ?%not_elem_of_nil]].
  unfold inspect. eapply triple_bind; [apply triple_reads; [|apply sturdy_inspecting|apply inspecting_synced]|].
  { intros p (w & -> & _)%list_elem_of_fmap. emits. }
  intros [states|e]; [|apply triple_ret; intros h s [Ho _]; by eapply inspecting_synced].
  apply (triple_pre _ _ (fun h s => inspecting [] h s ∧ length states = length (managed cx))).
  2: { intros h s [Hi Hl]. split; [done|]. destruct (Hl states eq_refl) as [-> _]. apply length_fmap. }
  apply triple_assume. intros Hl. eapply triple_then with (R := inspecting (zip (managed cx) states).*1).
  - eapply triple_pre; [apply (triple_for_all _ _ (fun don => inspecting don.*1) synced)|done]. intros don [w st] rest E.
    rewrite fmap_app. apply triple_classify. apply (elem_of_zip_l w st _ states). rewrite E. set_solver.
  - intros _. eapply triple_post; [apply (triple_benign _ _ _ _ _ emits_publish (sturdy_inspecting _)), inspecting_synced|].
    rewrite fst_zip by lia. intros [u|e] h s Hi; [|by eapply inspecting_synced]. split; apply Hi.
Qed.

(** *** Preparation: marking and stopping *)

Definition primaries_known (s : Recon) : Prop :=
  ∀ i f, i ∈ changed_groups s → fabrics (plan cx) !! i = Some f → primary_id f ∈ unverified_primaries s.

(** All that is pending, and whose groups are to be changed, is unverified. *)
Record outlined (h : list (Event Ans)) (s : Recon) : Prop := {
  ol_opening : opening h s;
  ol_primaries : primaries_known s;
  ol_classified : classified (managed cx) s;
}.

Lemma triple_add_primaries :
  triple (fun h s => opening h s ∧ classified (managed cx) s)
    (Get (fun s => for_all (add_primary cx) (in_order (changed_groups s)))) (or_synced outlined) synced.
Proof.
  apply triple_get. intros s0. eapply triple_weaken; [apply (triple_for_all _ _ (fun don h s =>
      opening h s ∧ classified (managed cx) s ∧ changed_groups s = changed_groups s0 ∧
      ∀ i f, i ∈ don → fabrics (plan cx) !! i = Some f → primary_id f ∈ unverified_primaries s) synced synced)| | |done].
  - intros don i rest El. unfold add_primary. destruct (fabrics _ !! i) as [f|] eqn:Ef.
    + assert (i ∈ changed_groups s0) as Hi by (apply (elem_of_ordered le); fold (in_order (changed_groups s0)); rewrite El; set_solver).
      apply triple_modify_ret. intros h s (Ho & Hcl & Hc & Hd).
      split_and!; [by apply opening_modify; [|simpl; set_solver|]| |done|].
      * intros w j g Hw Hg E [Ew%elem_of_singleton|Hin]%elem_of_union; [|by eapply Hcl].
        simpl. rewrite Hc. replace j with i; [done|]. eapply primaries_differ; [done|done|congruence].
      * intros j g [Hj|Hj%list_elem_of_singleton]%elem_of_app Hg; [set_solver|]. simplify_eq. simpl. set_solver.
    + apply triple_ret. intros h s [Ho _]. by apply opening_synced.
  - intros h s (-> & Ho & Hcl). split_and!; [done|done|done|by intros ?? ?%not_elem_of_nil].
  - intros [[]|e] h s; [|done]. intros (Ho & Hcl & Hc & Hd). split; [done| |done]. intros i f Hi. apply Hd.
    apply elem_of_ordered. by rewrite <- Hc.
Qed.

(** Exactly the unverified controllers are pending, those of changed groups among them. *)
Record prepared (h : list (Event Ans)) (s : Recon) : Prop := {
  pr_synced : synced h s;
  pr_pending : ∀ w, w ∈ managed cx → switch_id w ∈ unverified_primaries s ↔ controller_identity w ∈ pending_controllers s;
  pr_primaries : primaries_known s;
  pr_classified : classified (managed cx) s;
  pr_placed : ∀ c, c ∈ pending_controllers s → ∃ w, w ∈ managed cx ∧ controller_identity w = c;
}.

Lemma prepared_kept h e s : prepared h s → keeps_pending (cmd e) → prepared (h ++ [e]) s.
Proof. intros [Hs Hp Hk Hc Hd] He. split; [by apply synced_kept|done..]. Qed.

Lemma marked_unverified h s w : prepared h s → w ∈ managed cx → marked h (switch_id w) ↔ switch_id w ∈ unverified_primaries s.
Proof.
  intros [Hs Hp _ _ _] Hw. rewrite (Hp w Hw). unfold Policy.marked. rewrite <- Hs. split; [|by eauto].
  intros (w' & Hw' & E & Hin). apply switch_by_id in E as ->; done.
Qed.

Lemma mark_unverified h s :
  outlined h s →
  let X := unverified_identities cx s in
  prepared (h ++ [existT (MarkPending X) (Some (Ok tt))]) (set_pending (fun Y => list_to_set X ∪ Y) s).
Proof.
  intros [[Hs Hu Hc Hd] Hk Hcl] X. split; [|simpl|done|done|simpl].
  - unfold Safety.synced. rewrite pending_after_snoc. simpl. by rewrite Hs.
  - intros w Hw. rewrite elem_of_union, elem_of_list_to_set. unfold X, unverified_identities. rewrite list_elem_of_fmap. split.
    + intros Hin. left. exists w. split; [done|]. by apply list_elem_of_filter.
    + intros [(w' & E & [Hin Hw']%list_elem_of_filter)|Hin]; [|by apply Hc].
      apply switch_by_identity in E as ->; done.
  - intros c [Hin%elem_of_list_to_set|?]%elem_of_union; [|auto].
    apply list_elem_of_fmap in Hin as (w & -> & [_ Hw]%list_elem_of_filter). by exists w.
Qed.

(** Between the stops: the controllers of [don] are halted, if they are unverified. *)
Record stopping (don : list ManagedSwitch) (h : list (Event Ans)) (s : Recon) : Prop := {
  st_prepared : prepared h s;
  st_quiet : ∀ id, quiet h id;
  st_halted : ∀ w, w ∈ don → switch_id w ∈ unverified_primaries s → halted h (switch_id w);
}.

Lemma sturdy_stopping don : sturdy (stopping don).
Proof.
  intros h e s [Hp Hq Hh] He. split; [by apply prepared_kept, benign_keeps|..].
  - intros id. eapply (stable_quiet benign); [|apply Hq|done]. intros c. apply benign_controls.
  - intros w Hw Hin. eapply (stable_halted benign); [|by apply Hh|done]. intros c. apply benign_controls.
Qed.

Lemma stopping_synced don h s : stopping don h s → synced h s.
Proof. intros Hs. apply Hs. Qed.

Lemma stop_one don w h s :
  stopping don h s → stopping (don ++ [w]) (h ++ [existT (StopCluster (switch_id w)) (Some (Ok tt))]) s.
Proof.
  intros [Hp Hq Hh]. assert (∀ id, id = switch_id w → halted (h ++ [existT (StopCluster (switch_id w)) (Some (Ok tt))]) id) as Hnow.
  { intros id ->. by apply since_now. }
  split; [by apply prepared_kept|..].
  - intros id. destruct (decide (id = switch_id w)) as [E|Hne]; [right; by apply Hnow|].
    eapply (stable_quiet (controls (switch_id w))); [|apply Hq|done]. intros c Hc Hc'. destruct c; simpl in *; congruence.
  - intros w' Hw' Hin. destruct (decide (switch_id w' = switch_id w)) as [E|Hne]; [by apply Hnow|].
    apply elem_of_app in Hw' as [Hw'|Hw'%list_elem_of_singleton]; [|congruence].
    eapply (stable_halted (controls (switch_id w))); [|by apply Hh|done]. intros c Hc Hc'. destruct c; simpl in *; congruence.
Qed.

Lemma triple_stop_unverified don w :
  w ∈ managed cx →
  triple (stopping don) (stop_unverified w) (or_synced (stopping (don ++ [w]))) synced.
Proof.
  intros Hw. unfold stop_unverified.
  apply triple_try_benign; [emits|apply sturdy_stopping|apply stopping_synced|intros _; apply stopping_synced|]. intros _.
  apply triple_get. intros s0. case_bool_decide as Hin.
  - apply (triple_pre _ _ (fun h s => stopping don h s ∧ switch_id w ∈ unverified_primaries s)); [|by intros h s [-> ?]].
    apply triple_try_benign; [emits|intros h e s [? ?] ?; split; [by apply sturdy_stopping|done]
      |by intros h s [?%stopping_synced _]|by intros _ h s [?%stopping_synced _]|].
    intros _. eapply triple_do.
    + intros h s [[Hp _ _] Hu]. by apply (marked_unverified h s).
    + intros h s [Hs _]. apply synced_kept; [by eapply stopping_synced|done].
    + intros [[]|e]; apply triple_ret; intros h' s (h & -> & Hs & _); [by apply stop_one|].
      apply synced_kept; [by eapply stopping_synced|done].
  - apply triple_ret. intros h s [-> [Hp Hq Hh]]. split; [done|done|].
    intros w' [Hw'|Hw'%list_elem_of_singleton]%elem_of_app; [auto|by subst].
Qed.

(** All pending controllers are halted. *)
Record still (h : list (Event Ans)) (s : Recon) : Prop := {
  sl_prepared : prepared h s;
  sl_quiet : ∀ id, quiet h id;
  sl_halted : ∀ id, marked h id → halted h id;
}.

Lemma triple_stops :
  triple (stopping []) (for_all stop_unverified (managed cx)) (or_synced still) synced.
Proof.
  eapply triple_post; [apply (triple_for_all _ _ stopping synced)|].
  - intros don w rest E. apply triple_stop_unverified. rewrite E. set_solver.
  - intros [[]|e] h s; [|done]. intros [Hp Hq Hh]. split; [done|done|]. intros id (w & Hw & <- & Hin).
    apply Hh; [done|]. apply (marked_unverified h s w Hp Hw). by exists w.
Qed.

(** *** Preparation: isolation and staging *)

Lemma primary_ok f w : primary cx f = Ok w → w ∈ managed cx ∧ switch_id w = primary_id f.
Proof.
  unfold primary. destruct (List.find _ _) as [w'|] eqn:Ef; [|done]. intros [= ->].
  apply find_some in Ef as [Hw%list_elem_of_In E%String.eqb_eq]. done.
Qed.

Lemma emits_reconcile_links id target : emits (fun c => benign c ∨ c = SetLinks id (entries target)) (reconcile_links id target).
Proof. unfold reconcile_links. emits; apply emits_or; emits. Qed.

Lemma truns_ask {E A} (message : E → string) (p : Task Ans (result E A)) t a :
  truns (ask message p) t (Some (Ok a)) → truns p t (Some (Ok a)).
Proof.
  unfold ask. intros [[[=] _]|(r & t1 & t2 & -> & H1 & [-> [= Er]])]%truns_bind. rewrite app_nil_r.
  destruct r; simplify_eq/=. done.
Qed.

(** Links that were reconciled were read as in the target. *)
Lemma truns_link_snapshot what id t snapshot :
  truns (link_snapshot what id) t (Some (Ok snapshot)) → t = [existT (LinkSnapshot id) (Some (Ok snapshot))].
Proof.
  intros H1%truns_ask. by apply (truns_call (Ans := Ans) (LinkSnapshot id)) in H1.
Qed.

Lemma truns_ret {A} t (a b : A) : truns (Ans := Ans) (TRet a) t (Some b) → t = [] ∧ b = a.
Proof. by intros [-> [= ->]]. Qed.

Lemma truns_reconcile_links id target t b :
  truns (reconcile_links id target) t (Some (Ok b)) → since (links_read id target) (writes id) t.
Proof.
  unfold reconcile_links. intros (sn & t1 & t2 & -> & ->%truns_link_snapshot & H2)%truns_try.
  apply truns_try in H2 as (m & t3 & t4 & -> & [-> Em]%truns_ret & H4).
  destruct m; [apply truns_ret in H4 as [-> _]; rewrite app_nil_r; apply (since_now _ _ []); by exists sn|].
  apply truns_bind in H4 as [[[=] _]|(wr & t5 & t6 & -> & H5 & H6)].
  apply truns_try in H6 as (u & t7 & t8 & -> & _ & H8).
  apply truns_try in H8 as (sn' & t9 & t10 & -> & ->%truns_link_snapshot & H10).
  apply truns_try in H10 as (m & t11 & t12 & -> & [-> Em']%truns_ret & H12).
  destruct m; [|by destruct H12]. apply truns_ret in H12 as [-> _]. rewrite app_nil_r, !(assoc_L (++)).
  apply since_now. by exists sn'.
Qed.

Lemma truns_isolate i t f w :
  truns (isolate cx i) t (Some (Ok (f, w))) →
  fabrics (plan cx) !! i = Some f ∧ primary cx f = Ok w ∧
  ∃ target, target_links cx (switch_id w) = Some target ∧ since (links_read (switch_id w) (all_down target)) (writes (switch_id w)) t.
Proof.
  unfold isolate. intros (u & t1 & t2 & -> & _ & H2)%truns_try.
  apply truns_try in H2 as (f' & t3 & t4 & -> & [-> Ef]%truns_ret & H4).
  apply truns_try in H4 as (w' & t5 & t6 & -> & [-> Ew]%truns_ret & H6).
  apply truns_try in H6 as (target & t7 & t8 & -> & [-> Et]%truns_ret & H8).
  apply truns_try in H8 as (b & t9 & t10 & -> & H9%truns_reconcile_links & [-> [= -> ->]]%truns_ret).
  destruct (fabrics _ !! i); simplify_eq/=. destruct (target_links cx _); simplify_eq/=. split_and!; [done|done|].
  eexists. split; [done|]. rewrite app_nil_r. by apply since_prefix.
Qed.

(** The writes of the batch. *)
Definition isolation (l : list nat) (k : nat) (c : Cmd) : Prop :=
  benign c ∨ ∃ i f target, l !! k = Some i ∧ fabrics (plan cx) !! i = Some f ∧ c = SetLinks (primary_id f) (entries (all_down target)).

Lemma emits_isolate l k i : l !! k = Some i → emits (isolation l k) (isolate cx i).
Proof.
  intros Hk. unfold isolate. apply emits_try; [apply emits_or; emits|]. intros _.
  apply emits_pure. intros f Ef. apply emits_pure. intros w Ew. apply emits_pure. intros target _.
  apply ok_or_Ok in Ef. apply primary_ok in Ew as [_ Ew].
  apply emits_try; [|emits]. eapply emits_weaken; [apply emits_reconcile_links|].
  intros c [Hc| ->]; [by left|]. right. exists i, f, target. by rewrite Ew.
Qed.

(** A switch that was isolated, for the fabric at an index. *)
Definition isolated_for (h : list (Event Ans)) (i : nat) (x : PlannedFabric * ManagedSwitch) : Prop :=
  fabrics (plan cx) !! i = Some x.1 ∧ primary cx x.1 = Ok x.2 ∧ isolated h (switch_id x.2).

Lemma still_kept h e s : still h s → keeps_pending (cmd e) → (∀ id, ¬ controls id (cmd e)) → still (h ++ [e]) s.
Proof.
  intros [Hp Hq Hh] Hk Hc. split; [by apply prepared_kept|..].
  - intros id. by eapply (stable_quiet (fun c => c = cmd e)); [intros c ->| |].
  - intros id Hm%marked_kept; [|done]. eapply (stable_halted (fun c => c = cmd e)); [by intros c ->|by apply Hh|done].
Qed.

Lemma still_synced h s : still h s → synced h s.
Proof. intros Hs. apply Hs. Qed.

Lemma isolation_calls l k c : isolation l k c → keeps_pending c ∧ (∀ id, ¬ controls id c).
Proof.
  intros [Hc|(i & f & target & _ & _ & ->)]; [|split; [done|by intros id []]]. split; [by apply benign_keeps|]. intros id. by apply benign_controls.
Qed.

Lemma gathered_isolated l h get :
  NoDup l → gathered (isolate cx <$> l) (isolation l) h get →
  ∀ k i, l !! k = Some i → ∃ x, get k = Some x ∧ isolated_for h i x.
Proof.
  intros Hd (h0 & h' & -> & Hg) k i Hk. destruct (Hg k (isolate cx i)) as ([f w] & Ha & t & rest & Ht & Hm & Hr).
  { by rewrite list_lookup_fmap, Hk. }
  apply truns_isolate in Ht as (Ef & Ew & target & Et & Hs). exists (f, w). split; [done|]. split_and!; [done|done|].
  exists target. split; [done|]. apply since_prefix. eapply since_merge; [done|done|].
  eapply Forall_impl; [exact Hr|]. intros e [[->| ->]|(j & Hj & _ & [Hb|(i' & f' & tg & Hi' & Ef' & ->)])]; [by intros []|by intros []|by apply benign_writes|].
  simpl. apply primary_ok in Ew as [_ ->]. intros E. apply Hj. eapply (NoDup_lookup l); [done|done|].
  rewrite Hk. f_equal. by eapply primaries_differ.
Qed.

Lemma triple_isolation name l s0 :
  NoDup l →
  triple (fun h s => still h s ∧ s = s0) (run_parallel name (isolate cx <$> l))
    (fun r h s => (still h s ∧ s = s0) ∧ ∀ xs, r = Ok xs → Forall2 (isolated_for h) l xs) synced.
Proof.
  intros Hd. eapply triple_post; [apply (triple_run_parallel _ _ _ (isolation l))|].
  - intros k p Hk. rewrite list_lookup_fmap in Hk. destruct (l !! k) as [i|] eqn:Hi; simplify_eq/=. by apply emits_isolate.
  - intros h s c [Hs _] [[->| ->]|(k & _ & [Hb|(i & f & tg & _ & _ & ->)])]; [done|done|by apply permitted_benign|].
    split; [apply Hs|]. intros _. apply Hs.
  - intros h s e [Hs ->] Hc. split; [|done].
    assert (keeps_pending (cmd e) ∧ ∀ id, ¬ controls id (cmd e)) as [? ?]; [|by apply still_kept].
    destruct Hc as [[->| ->]|(k & _ & Hc)]; [split; [done|by intros id []]..|by eapply isolation_calls].
  - intros h s [Hs _]. by apply still_synced.
  - intros r h s [HP Hr]. split; [done|]. intros xs ->. destruct (Hr xs eq_refl) as [Hl Hg]. rewrite length_fmap in Hl.
    apply Forall2_same_length_lookup_2; [done|]. intros k i x Hi Hx.
    destruct (gathered_isolated l h _ Hd Hg k i Hi) as (x' & Hx' & Hiso). simplify_eq. done.
Qed.

(** The calls that start a controller. *)
Definition starts (id : string) (c : Cmd) : Prop :=
  match c with EnableCluster i | ExposeApi i | SecureApi i => i = id | _ => False end.

Lemma starts_controls id c : starts id c → controls id c.
Proof. by destruct c. Qed.

Lemma emits_start id : emits (fun c => benign c ∨ starts id c) (start cx id).
Proof. unfold start. emits; try (apply emits_or; emits); by right. Qed.

Lemma emits_stage x : emits (fun c => benign c ∨ controls (switch_id x.2) c) (stage cx x).
Proof.
  destruct x as [f w]. unfold stage. emits; [|apply emits_or; emits|by right..].
  eapply emits_weaken; [apply emits_start|]. intros c [?|?]; [by left|right; by apply starts_controls].
Qed.

Lemma truns_stage f w t :
  truns (stage cx (f, w)) t (Some (Ok tt)) → halted t (switch_id w).
Proof.
  unfold stage. intros (cf & t1 & t2 & -> & _ & H2)%truns_try. apply truns_try in H2 as (u & t3 & t4 & -> & _ & H4).
  apply truns_try in H4 as (u' & t5 & t6 & -> & _ & H6). apply truns_try in H6 as (b & t7 & t8 & -> & _ & H8%truns_ask).
  apply (truns_call (Ans := Ans) (StopCluster (switch_id w))) in H8 as ->. rewrite !(assoc_L (++)). by apply since_now.
Qed.

(** A call on a controller that is pending and isolated. *)
Lemma permitted_controls h id c : marked h id → isolated h id → controls id c → permitted h c.
Proof. intros Hm Hi Hc. destruct c; simpl in Hc; try done; subst; simpl; auto. Qed.

Lemma controls_keeps id c : controls id c → keeps_pending c.
Proof. by destruct c. Qed.

Lemma controls_writes id id' c : controls id c → ¬ writes id' c.
Proof. destruct c; simpl; auto. Qed.

Lemma controls_one id id' c : controls id c → controls id' c → id = id'.
Proof. destruct c; simpl; intros; try done; congruence. Qed.

(** During the staging of isolated controllers: the others are as they were. *)
Record staging (l : list nat) (xs : list (PlannedFabric * ManagedSwitch)) (s0 : Recon) (h : list (Event Ans)) (s : Recon) : Prop := {
  sg_prepared : prepared h s;
  sg_state : s = s0;
  sg_isolated : Forall2 (isolated_for h) l xs;
  sg_marked : ∀ x, x ∈ xs → marked h (switch_id x.2);
  sg_quiet : ∀ id, (∀ x, x ∈ xs → switch_id x.2 ≠ id) → quiet h id;
  sg_halted : ∀ id, (∀ x, x ∈ xs → switch_id x.2 ≠ id) → marked h id → halted h id;
}.

Lemma staging_kept l xs s0 h e s :
  staging l xs s0 h s → benign (cmd e) ∨ (∃ x, x ∈ xs ∧ controls (switch_id x.2) (cmd e)) → staging l xs s0 (h ++ [e]) s.
Proof.
  intros [Hp Hs Hi Hm Hq Hh] Hc.
  assert (keeps_pending (cmd e)) as Hk by (destruct Hc as [?|(x & _ & ?)]; [by apply benign_keeps|by eapply controls_keeps]).
  assert (∀ id, ¬ writes id (cmd e)) as Hw.
  { intros id. destruct Hc as [?|(x & _ & ?)]; [by apply benign_writes|by eapply controls_writes]. }
  assert (∀ id, (∀ x, x ∈ xs → switch_id x.2 ≠ id) → ¬ controls id (cmd e)) as Hn.
  { intros id Hid. destruct Hc as [?|(x & Hx & Hc)]; [by apply benign_controls|].
    intros Hc'. apply (Hid x Hx). by eapply controls_one. }
  split; [by apply prepared_kept|done|..].
  - eapply Forall2_impl; [exact Hi|]. intros i x (Ef & Ew & Hiso). split_and!; [done|done|].
    by eapply (stable_isolated cx (fun c => c = cmd e)); [intros c ->| |].
  - intros x Hx. apply marked_kept; auto.
  - intros id Hid. eapply (stable_quiet (fun c => c = cmd e)); [intros c ->; by apply Hn|by apply Hq|done].
  - intros id Hid Hmk%marked_kept; [|done].
    eapply (stable_halted (fun c => c = cmd e)); [intros c ->; by apply Hn|by apply Hh|done].
Qed.

Definition staged (xs : list (PlannedFabric * ManagedSwitch)) (k : nat) (c : Cmd) : Prop :=
  benign c ∨ ∃ x, xs !! k = Some x ∧ controls (switch_id x.2) c.

(** The switches of a batch differ. *)
Lemma staged_apart l xs h j k x y :
  NoDup l → Forall2 (isolated_for h) l xs → xs !! j = Some x → xs !! k = Some y → switch_id x.2 = switch_id y.2 → j = k.
Proof.
  intros Hd Hf Hj Hk E. destruct (Forall2_lookup_r _ _ _ _ _ Hf Hj) as (i & Hi & Ef & [_ Ew]%primary_ok & _).
  destruct (Forall2_lookup_r _ _ _ _ _ Hf Hk) as (i' & Hi' & Ef' & [_ Ew']%primary_ok & _).
  eapply (NoDup_lookup l); [done|done|]. rewrite Hi'. f_equal. symmetry. eapply primaries_differ; [done|done|congruence].
Qed.

Lemma gathered_staged l xs s0 h s get :
  NoDup l → staging l xs s0 h s → gathered (stage cx <$> xs) (staged xs) h get → ∀ x, x ∈ xs → halted h (switch_id x.2).
Proof.
  intros Hd [_ _ Hi _ _ _] (h0 & h' & -> & Hg) [f w] [k Hk]%list_elem_of_lookup.
  destruct (Hg k (stage cx (f, w))) as ([] & _ & t & rest & Ht%truns_stage & Hm & Hr); [by rewrite list_lookup_fmap, Hk|].
  apply since_prefix. eapply since_merge; [done|done|]. eapply Forall_impl; [exact Hr|].
  intros e [[->| ->]|(j & Hj & _ & [Hb|(x & Hx & Hc)])]; [by intros []|by intros []|by apply benign_controls|].
  intros Hc'. apply Hj. eapply staged_apart; [done|done|done|done|]. by eapply controls_one.
Qed.

Lemma staged_still l xs s0 h s : staging l xs s0 h s → (∀ x, x ∈ xs → halted h (switch_id x.2)) → still h s.
Proof.
  intros [Hp _ _ _ Hq Hh] Hx. assert (∀ id, (∀ x, x ∈ xs → switch_id x.2 ≠ id) ∨ halted h id) as Hd.
  { intros id. destruct (decide (id ∈ (fun x => switch_id x.2) <$> xs)) as [(x & -> & Hin)%list_elem_of_fmap|Hn]; [right; auto|].
    left. intros x Hin <-. apply Hn. by apply (list_elem_of_fmap_2 (fun x => switch_id x.2)). }
  split; [done|..]; intros id; destruct (Hd id) as [Ho|Ho]; auto. by right.
Qed.

Lemma triple_staging name l xs s0 :
  NoDup l → triple (staging l xs s0) (run_parallel name (stage cx <$> xs)) (or_synced still) synced.
Proof.
  intros Hd. assert (∀ c, in_batch (stage cx <$> xs) (staged xs) c → benign c ∨ ∃ x, x ∈ xs ∧ controls (switch_id x.2) c) as Hc.
  { intros c [[->| ->]|(k & _ & [?|(x & Hx & ?)])]; [by left..|]. right. exists x. split; [by eapply list_elem_of_lookup_2|done]. }
  eapply triple_post; [eapply (triple_run_parallel _ _ _ (staged xs)) with (P := staging l xs s0)|].
  - intros k p Hk. rewrite list_lookup_fmap in Hk. destruct (xs !! k) as [x|] eqn:Hx; simplify_eq/=.
    eapply emits_weaken; [apply emits_stage|]. intros c [?|?]; [by left|right; eauto].
  - intros h s c [Hp _ Hi Hm _ _] [Hb|(x & Hx & Hcx)]%Hc; [by apply permitted_benign|].
    eapply permitted_controls; [by apply Hm| |done]. apply list_elem_of_lookup in Hx as [k Hx].
    by destruct (Forall2_lookup_r _ _ _ _ _ Hi Hx) as (i & _ & _ & _ & ?).
  - intros h s e Hs He%Hc. by apply staging_kept.
  - intros h s [Hp _ _ _ _ _]. apply Hp.
  - intros r h s [Hs Hr]. destruct r as [us|e]; [|apply Hs]. destruct (Hr us eq_refl) as [_ Hg].
    eapply staged_still; [done|]. by eapply gathered_staged.
Qed.

Lemma start_staging l xs s0 h :
  still h s0 → Forall2 (isolated_for h) l xs → (∀ i, i ∈ l → i ∈ changed_groups s0) → staging l xs s0 h s0.
Proof.
  intros [Hp Hq Hh] Hi Hl. split; [done|done|done| |auto|auto].
  intros x [k Hx]%list_elem_of_lookup. destruct (Forall2_lookup_r _ _ _ _ _ Hi Hx) as (i & Hk & Ef & [Hw Ew]%primary_ok & _).
  apply (marked_unverified h s0); [done|done|]. rewrite Ew. eapply pr_primaries; [done| |done].
  apply Hl. by eapply list_elem_of_lookup_2.
Qed.

Lemma triple_normalize : triple still (normalize_static_configs cx) (or_synced still) synced.
Proof.
  apply triple_get. intros s0. set (l := filter _ _).
  assert (NoDup l) as Hd. { apply NoDup_filter. unfold in_order, ordered. rewrite (merge_sort_Permutation le). apply NoDup_elements. }
  assert (∀ i, i ∈ l → i ∈ changed_groups s0) as Hl. { intros i [_ Hi]%list_elem_of_filter. by apply elem_of_ordered in Hi. }
  eapply triple_bind; [eapply triple_pre; [by apply (triple_isolation _ l s0)|by intros h s [-> ?]]|].
  intros [xs|e]; [|apply triple_ret; intros h s [[Hs _] _]; by apply still_synced].
  eapply triple_bind; [eapply triple_pre; [by apply (triple_staging _ l xs s0)|]|].
  - intros h s [[Hs ->] Hi]. by apply start_staging; [|apply Hi|].
  - intros [us|e]; by apply triple_ret.
Qed.

(** *** Preparation: links *)

Lemma sturdy_still : sturdy still.
Proof. intros h e s Hs He. apply still_kept; [done|by apply benign_keeps|]. intros id. by apply benign_controls. Qed.

Lemma sturdy_and P (X : Recon → Prop) : sturdy P → sturdy (fun h s => P h s ∧ X s).
Proof. intros HP h e s [Hp Hx] He. split; [by apply HP|done]. Qed.

Lemma emits_prepare_switch w target save :
  emits (fun c => benign c ∨ (c = SetLinks (switch_id w) (entries target) ∨ c = SaveApplied (switch_id w) ∧ save = true))
    (prepare_switch w target save).
Proof.
  unfold prepare_switch, save_enabled_cluster. apply emits_try; [|intros _; apply emits_try; [|emits]].
  - destruct save; [|emits]. emits; try (apply emits_or; emits); try (by right; right).
  - eapply emits_weaken; [apply emits_reconcile_links|]. intros c [?|?]; auto.
Qed.

(** A future of the batch. *)
Definition link_task (s : Recon) (x : nat * Task Ans (result string unit)) : Prop :=
  ∃ w target save, managed cx !! x.1 = Some w ∧ x.2 = prepare_switch w target save ∧
    (save = true → switch_id w ∉ unverified_primaries s).

(** Tasks with numbers of their own, from [i]. *)
Definition numbered {A} (i : nat) (tasks : list (nat * A)) : Prop := NoDup tasks.*1 ∧ Forall (fun x => (i ≤ x.1)%nat) tasks.

Lemma numbered_nil {A} i : numbered (A := A) i [].
Proof. repeat constructor. Qed.

Lemma numbered_cons {A} i (a : A) tasks : numbered (Datatypes.S i) tasks → numbered i ((i, a) :: tasks).
Proof.
  intros [Hd Hi]. split.
  - constructor; [|done]. intros (x & E & Hx)%list_elem_of_fmap. rewrite Forall_forall in Hi. specialize (Hi x Hx). simpl in *. lia.
  - constructor; [simpl; lia|]. eapply Forall_impl; [exact Hi|]. simpl. intros x Hx. lia.
Qed.

Lemma triple_dispatch_links s0 i switches :
  drop i (managed cx) = switches →
  triple (fun h s => still h s ∧ s = s0) (dispatch_links cx i switches)
    (fun d h s => (still h s ∧ s = s0) ∧ Forall (link_task s0) d.1 ∧ numbered i d.1) synced.
Proof.
  assert (sturdy (fun h s => still h s ∧ s = s0)) as Hst by (apply sturdy_and, sturdy_still).
  assert (∀ h s, still h s ∧ s = s0 → synced h s) as Hsy by (intros h s [? _]; by apply still_synced).
  revert i. induction switches as [|w switches IH]; intros i Hi; cbn [dispatch_links];
    (eapply triple_bind; [apply (triple_benign _ _ _ _ _ (emits_call _ IsCancelled I) Hst Hsy)|]);
    intros []; try (apply triple_ret; intros h s Hs; split_and!; [apply Hs|apply Hs|constructor|apply numbered_nil]).
  assert (managed cx !! i = Some w) as Hw by (rewrite <- (Nat.add_0_r i), <- lookup_drop, Hi; done).
  assert (drop (Datatypes.S i) (managed cx) = switches) as Hi' by (by rewrite <- Nat.add_1_r, <- drop_drop, Hi).
  destruct (target_links cx (switch_id w)) as [target|]; [|apply triple_ret; intros h s Hs; split_and!; [apply Hs|apply Hs|constructor|apply numbered_nil]].
  eapply triple_bind; [apply (triple_benign _ _ _ _ _ emits_publish Hst Hsy)|].
  intros [u|e]; [|apply triple_ret; intros h s Hs; split_and!; [apply Hs|apply Hs|constructor|apply numbered_nil]].
  apply triple_get. intros s1. apply (triple_pre _ _ (fun h s => (still h s ∧ s = s0) ∧ s1 = s0)); [|by intros h s (<- & ? & <-)].
  apply triple_assume. intros ->. eapply triple_bind; [by apply IH|].
  intros d. apply triple_ret. intros h s (Hs & Hf & Hd). split; [done|]. split; [|by apply numbered_cons].
  constructor; [|done]. eexists w, target, _. split_and!; [done|done|]. intros [_ Hn]%andb_true_iff. apply negb_true_iff, bool_decide_eq_false in Hn. done.
Qed.

Definition link_calls (s : Recon) (i : nat) (c : Cmd) : Prop :=
  benign c ∨ ∃ w, managed cx !! i = Some w ∧
    ((∃ changes, c = SetLinks (switch_id w) changes) ∨ c = SaveApplied (switch_id w) ∧ switch_id w ∉ unverified_primaries s).

Lemma link_calls_ok h s i c : still h s → link_calls s i c → permitted h c ∧ ∀ x, still (h ++ [existT c x]) s.
Proof.
  intros Hs [Hb|(w & Hw & Hc)].
  { split; [by apply permitted_benign|]. intros x. by apply sturdy_still. }
  apply list_elem_of_lookup_2 in Hw. split.
  - destruct Hc as [[ch ->]|[-> Hn]]; [split; [apply Hs|intros _; apply Hs]|]. simpl. by rewrite (marked_unverified h s); [|apply Hs|].
  - intros x. apply still_kept; [done|..]; [|intros id]; destruct Hc as [[ch ->]|[-> Hn]]; simpl; auto.
Qed.

Lemma triple_publish_first P e :
  sturdy P → (∀ h s, P h s → synced h s) → triple P (publish_first e) (fun e' h s => P h s ∧ (e' = None → e = None)) synced.
Proof.
  intros HP HE. eapply triple_bind; [apply (triple_benign _ _ P); [emits|done|done]|].
  intros r. apply triple_ret. intros h s Hp. split; [done|]. by destruct e.
Qed.

Lemma calls_publish_first e : calls benign (publish_first e).
Proof. apply (calls_bind _ (lift publish)); [exact (calls_lift _ _ emits_publish)|]. intros r. apply calls_ret. Qed.

Lemma triple_finish_batch P e :
  sturdy P → (∀ h s, P h s → synced h s) → triple P (finish_batch e) (or_synced P) synced.
Proof.
  intros HP HE. destruct e as [e|]; [by apply triple_ret|]. eapply triple_post; [apply (triple_benign _ _ P); [emits|done|done]|].
  intros [u|e] h s; auto.
Qed.

Lemma triple_prepare_links : triple still (prepare_links cx) (or_synced still) synced.
Proof.
  apply triple_state. intros s0. assert (sturdy (fun h s => still h s ∧ s = s0)) as Hst by (apply sturdy_and, sturdy_still).
  assert (∀ h s, still h s ∧ s = s0 → synced h s) as Hsy by (intros h s [? _]; by apply still_synced).
  eapply triple_bind; [by apply (triple_dispatch_links s0 0)|]. intros d. apply triple_assume. intros (Hf & Hd & _).
  apply (triple_pool _ _ _ _ _ _ _ (link_calls s0) benign (fun _ _ h _ s => still h s ∧ s = s0)).
  - done.
  - intros i p Hin. rewrite Forall_forall in Hf. destruct (Hf _ Hin) as (w & target & save & Hw & Hp & Hs). simpl in *. subst p.
    eapply emits_weaken; [apply emits_prepare_switch|]. intros c [?|[->|[-> Hsave]]]; [by left|right; exists w; eauto..].
  - done.
  - intros h0 rem h' l s i c x [Hs ->] _ _ Hc. destruct (link_calls_ok _ _ _ _ Hs Hc) as [? Hk].
    split; [done|]. rewrite (assoc_L (++)). auto.
  - intros h0 r1 i r2 l b. eapply triple_weaken; [by apply triple_publish_first|by intros h s [? _]|by intros e h s [? _]|done].
  - intros h0 rem l. by apply triple_ret.
  - intros l i b. apply calls_publish_first.
  - intros l. apply calls_ret.
  - intros l. eapply triple_weaken; [by apply triple_finish_batch|by intros h s [_ ?]| |done].
    by intros [u|e] h s; [intros [? _]|].
Qed.

(** *** Verification of links *)

(** The links of all switches were read as planned after the last change. *)
Definition links_verified (h : list (Event Ans)) : Prop :=
  ∀ w, w ∈ managed cx → ∃ target, target_links cx (switch_id w) = Some target ∧ since (links_read (switch_id w) target) mutates h.

Lemma stable_links_verified : stable benign links_verified.
Proof.
  intros h e Hv He w Hw. destruct (Hv w Hw) as (target & Ht & Hs). exists target. split; [done|].
  apply since_snoc; [done|]. by apply benign_mutates.
Qed.

Lemma links_barrier h : links_verified h → barrier h.
Proof.
  intros Hv w Hw. destruct (Hv w Hw) as (target & Ht & Hs). exists target. split; [done|].
  eapply since_mono; [exact Hs|done|]. intros c [id Hid]. exists id. auto.
Qed.

Lemma truns_require b message t : truns (require b message) t (Some (Ok tt)) → t = [] ∧ b = true.
Proof. by destruct b; intros [-> [=]]. Qed.

Lemma truns_verify_switch w t :
  truns (verify_switch cx w) t (Some (Ok tt)) →
  ∃ target, target_links cx (switch_id w) = Some target ∧ since (links_read (switch_id w) target) mutates t.
Proof.
  unfold verify_switch. intros (target & t1 & t2 & -> & [-> Et]%truns_ret & H2)%truns_try.
  apply truns_try in H2 as (sn & t3 & t4 & -> & H3%truns_ask & H4).
  apply (truns_call (Ans := Ans) (LinkSnapshot (switch_id w))) in H3 as ->.
  apply truns_try in H4 as (m & t5 & t6 & -> & [-> Em]%truns_ret & [-> ->]%truns_require).
  exists target. split; [by symmetry in Et; apply ok_or_Ok in Et|]. apply (since_now _ _ []). by exists sn.
Qed.

(** The reads of a batch that only reads. *)
Lemma gathered_reads {A} (ops : list (Task Ans (result string A))) h get good bad i p :
  (∀ c, benign c → ¬ bad c) → gathered ops (fun _ => benign) h get → ops !! i = Some p →
  (∀ t a, truns p t (Some (Ok a)) → since good bad t) → since good bad h.
Proof.
  intros Hb (h0 & h' & -> & Hg) Hi Hp. destruct (Hg i p Hi) as (a & _ & t & rest & Ht & Hm & Hr).
  apply since_prefix. eapply since_merge; [done|by eapply Hp|]. eapply Forall_impl; [exact Hr|].
  intros e [[->| ->]|(j & _ & _ & Hc)]; by apply Hb.
Qed.

Lemma triple_verify_links P :
  sturdy P → (∀ h s, P h s → synced h s) →
  triple P (verify_links cx) (or_synced (fun h s => P h s ∧ links_verified h)) synced.
Proof.
  intros HP HE. eapply triple_bind; [apply (triple_reads _ _ P); [|done|done]|].
  { intros p (w & -> & _)%list_elem_of_fmap. emits. }
  intros [us|e]; apply triple_ret; intros h s [Hp Hr]; [|auto]. split; [done|].
  destruct (Hr us eq_refl) as [_ Hg]. intros w [i Hi]%list_elem_of_lookup.
  assert ((verify_switch cx <$> managed cx) !! i = Some (verify_switch cx w)) as Ho by (by rewrite list_lookup_fmap, Hi).
  destruct (target_links cx (switch_id w)) as [target|] eqn:Et.
  - exists target. split; [done|]. eapply gathered_reads; [apply benign_mutates|done|done|].
    intros t [] (tg & Etg & Hs)%truns_verify_switch. simplify_eq. done.
  - destruct Hg as (h0 & h' & _ & Hg). destruct (Hg i _ Ho) as ([] & _ & t & rest & Ht & _).
    apply truns_verify_switch in Ht as (tg & Etg & _). congruence.
Qed.

(** *** The end of the preparation *)

(** The saved links are those of the plan, and the controllers of changed groups
    are pending. *)
Record ready (h : list (Event Ans)) (s : Recon) : Prop := {
  rd_synced : synced h s;
  rd_barrier : barrier h;
  rd_pending : ∀ i f w, i ∈ changed_groups s → fabrics (plan cx) !! i = Some f → primary cx f = Ok w → marked h (switch_id w);
}.

Lemma sturdy_ready : sturdy ready.
Proof.
  intros h e s [Hs Hb Hp] He. split; [by apply synced_kept, benign_keeps|..].
  - eapply (stable_barrier cx benign); [|done|done]. intros c id. apply benign_writes.
  - intros i f w Hi Hf Hw. apply marked_kept; [by apply benign_keeps|]. by eapply Hp.
Qed.

Lemma ready_synced h s : ready h s → synced h s.
Proof. apply rd_synced. Qed.

(** Every pending controller is that of a switch whose groups, if it is the primary
    of one, are to be changed, and which is a primary if it is among [don]. *)
Definition accounted (don : list ManagedSwitch) (s : Recon) : Prop :=
  ∀ c, c ∈ pending_controllers s → ∃ w, w ∈ managed cx ∧ controller_identity w = c ∧
    (∀ i f, fabrics (plan cx) !! i = Some f → primary_id f = switch_id w → i ∈ changed_groups s) ∧
    (w ∈ don → switch_id w ∈ selected cx).

(** Every pending controller is that of a group to be changed. *)
Definition attributed (l : list nat) (s : Recon) : Prop :=
  ∀ c, c ∈ pending_controllers s → ∃ i f w, i ∈ l ∧ i ∈ changed_groups s ∧ fabrics (plan cx) !! i = Some f ∧
    primary cx f = Ok w ∧ controller_identity w = c.

(** Between the removals of disabled controllers, those of [don] done. *)
Definition clearing (don : list ManagedSwitch) (h : list (Event Ans)) (s : Recon) : Prop :=
  ready h s ∧ (∀ id, marked h id → halted h id) ∧ accounted don s.

Lemma clearing_synced don h s : clearing don h s → synced h s.
Proof. intros [Hr _]. by apply ready_synced. Qed.

Lemma selected_primary id : id ∈ selected cx ↔ is_primary cx id = true.
Proof.
  unfold selected, is_primary. rewrite elem_of_list_to_set, list_elem_of_fmap, existsb_elem. split.
  - intros (f & -> & Hf). exists f. split; [done|apply String.eqb_refl].
  - intros (f & Hf & E%String.eqb_eq). by exists f.
Qed.

(** What stays marked when the controller of one switch is no longer pending. *)
Lemma marked_remove h e w id :
  w ∈ managed cx → pending_after (h ++ [e]) = pending_after h ∖ {[controller_identity w]} →
  marked (h ++ [e]) id ↔ marked h id ∧ id ≠ switch_id w.
Proof.
  intros Hw E. unfold Policy.marked. rewrite E. split.
  - intros (w' & Hw' & <- & Hin). split; [exists w'; set_solver|].
    intros Eid. apply switch_by_id in Eid as ->; [|done|done]. set_solver.
  - intros [(w' & Hw' & <- & Hin) Hne]. exists w'. split_and!; [done|done|]. apply elem_of_difference. split; [done|].
    intros Ei%elem_of_singleton. apply switch_by_identity in Ei as ->; done.
Qed.

Lemma clear_one don w h s :
  w ∈ managed cx → switch_id w ∉ selected cx → clearing don h s →
  clearing (don ++ [w]) (h ++ [existT (ClearInactive (controller_identity w)) (Some (Ok tt))])
    (set_pending (fun X => X ∖ {[controller_identity w]}) s).
Proof.
  intros Hw Hn ([Hs Hb Hp] & Hh & Ha). set (h' := h ++ _).
  assert (pending_after h' = pending_after h ∖ {[controller_identity w]}) as E by apply pending_after_snoc.
  split_and!; [split|..].
  - unfold Safety.synced. by rewrite E, <- Hs.
  - eapply (stable_barrier cx (fun c => c = ClearInactive (controller_identity w))); [by intros c id -> []|done|done].
  - intros i f w' Hi Hf Hw'. apply (marked_remove h _ w); [done|done|]. split; [by eapply Hp|].
    intros Eid. apply Hn. rewrite <- Eid. apply primary_ok in Hw' as [_ ->]. by eapply selected_primary, is_primary_at.
  - intros id [Hm _]%(marked_remove h _ w); [|done|done]. apply since_snoc; [by apply Hh|by intros []].
  - intros c [Hc Hne]%elem_of_difference. destruct (Ha c Hc) as (w' & Hw' & <- & Hi & Hd). exists w'. split_and!; [done|done|done|].
    intros [?| ->%list_elem_of_singleton]%elem_of_app; [auto|set_solver].
Qed.

Lemma triple_clear_nonprimary don w :
  w ∈ managed cx → triple (clearing don) (clear_nonprimary cx w) (or_synced (clearing (don ++ [w]))) synced.
Proof.
  intros Hw. unfold clear_nonprimary. case_bool_decide as Hin.
  { apply triple_ret. intros h s (Hr & Hh & Ha). split_and!; [done|done|]. intros c Hc.
    destruct (Ha c Hc) as (w' & Hw' & E & Hi & Hd). exists w'. split_and!; [done|done|done|].
    intros [?| ->%list_elem_of_singleton]%elem_of_app; [auto|done]. }
  eapply triple_do.
  - intros h s ([_ Hb _] & Hh & _). exists w. split_and!; [done|done| |done|apply Hh]. by rewrite <- not_true_iff_false, <- selected_primary.
  - intros h s Hc%clearing_synced. unfold Safety.synced. rewrite pending_after_snoc. done.
  - intros [[]|e].
    + apply (triple_modify_ret _ _ _ (Ok tt)). intros h' s (h & -> & Hc). by apply clear_one.
    + apply triple_ret. intros h' s (h & -> & Hc%clearing_synced). unfold Safety.synced. rewrite pending_after_snoc. done.
Qed.

Lemma still_clearing h s : still h s → links_verified h → clearing [] h s.
Proof.
  intros [Hp Hq Hh] Hv. split_and!; [|done|].
  - split; [apply Hp|by apply links_barrier|].
    intros i f w Hi Hf [Hw Ew]%primary_ok. apply (marked_unverified h s); [done|done|]. rewrite Ew. by eapply pr_primaries.
  - intros c Hc. destruct (pr_placed _ _ Hp c Hc) as (w & Hw & <-). exists w. split_and!; [done|done| |by intros ?%not_elem_of_nil].
    intros i f Hf E. eapply pr_classified; [done|done|done|done|]. by apply (pr_pending _ _ Hp).
Qed.

Lemma primary_of f w : w ∈ managed cx → switch_id w = primary_id f → primary cx f = Ok w.
Proof.
  intros Hw E. unfold primary. destruct (List.find _ _) as [w'|] eqn:Ef.
  - apply find_some in Ef as [Hw'%list_elem_of_In E'%String.eqb_eq]. simpl. f_equal. apply switch_by_id; [done|done|congruence].
  - apply list_elem_of_In in Hw. apply (find_none _ _ Ef) in Hw. apply String.eqb_neq in Hw. done.
Qed.

Definition groups : list nat := seq 0 (length (fabrics (plan cx))).

Lemma clearing_done h s : clearing (managed cx) h s → ready h s ∧ attributed groups s.
Proof.
  intros (Hr & _ & Ha). split; [done|]. intros c Hc. destruct (Ha c Hc) as (w & Hw & <- & Hi & Hd).
  specialize (Hd Hw). unfold selected in Hd. apply elem_of_list_to_set, list_elem_of_fmap in Hd as (f & E & [i Hf]%list_elem_of_lookup).
  exists i, f, w. split_and!; [|by eapply Hi|done|by apply primary_of|done].
  apply elem_of_seq. apply lookup_lt_Some in Hf. lia.
Qed.

(** What follows the marking of controllers as pending. *)
Lemma triple_prepare_stopped :
  triple (stopping [])
    (letP? _ := lift publish in letP? _ := for_all stop_unverified (managed cx) in letP? _ := normalize_static_configs cx in
     letP? _ := prepare_links cx in letP? _ := verify_links cx in letP? _ := for_all (clear_nonprimary cx) (managed cx) in
     letP _ := modify (set_unverified (filter (fun id => id ∈ selected cx))) in lift publish)
    (or_synced (fun h s => ready h s ∧ attributed groups s)) synced.
Proof.
  apply triple_try_benign; [emits|apply sturdy_stopping|apply stopping_synced|intros _; apply stopping_synced|]. intros _.
  eapply triple_then; [apply triple_stops|]. intros _. eapply triple_then; [apply triple_normalize|]. intros _.
  eapply triple_then; [apply triple_prepare_links|]. intros _.
  eapply triple_then; [apply triple_verify_links; [apply sturdy_still|apply still_synced]|]. intros _.
  apply (triple_pre _ _ (clearing [])); [|intros h s [? ?]; by apply still_clearing].
  eapply triple_then.
  { apply (triple_for_all _ _ clearing). intros don w rest E. apply triple_clear_nonprimary. rewrite E. set_solver. }
  intros _. apply (triple_modify_bind _ _ (fun h s => ready h s ∧ attributed groups s)).
  - eapply triple_post; [apply (triple_benign _ _ (fun h s => ready h s ∧ attributed groups s)); [emits| |]|].
    + apply sturdy_and, sturdy_ready.
    + intros h s [? _]. by apply ready_synced.
    + intros [] h s [? ?]; [done|by apply ready_synced].
  - intros h s [[Hs Hb Hp] Ha]%clearing_done. by repeat split.
Qed.

Lemma triple_prepare :
  triple (fun h s => opening h s ∧ classified (managed cx) s) (prepare cx)
    (or_synced (fun h s => ready h s ∧ attributed groups s)) synced.
Proof.
  assert (∀ h s X x, outlined h s → x ≠ Some (Ok tt) → synced (h ++ [existT (MarkPending X) x]) s) as Hfail.
  { intros h s X x [[Hs _ _ _] _ _] Hx. unfold Safety.synced. rewrite pending_after_snoc. by destruct x as [[[]|]|]. }
  unfold prepare. eapply triple_bind; [apply triple_add_primaries|]. intros [[]|e]; [|by apply triple_ret].
  apply triple_get. intros s0. eapply triple_do.
  { done. }
  { intros h s [-> Ho]. by apply Hfail. }
  intros [[]|e]; [|apply triple_ret; intros h' s (h & -> & -> & Ho); by apply Hfail].
  apply (triple_modify_bind _ _ (stopping [])); [apply triple_prepare_stopped|].
  intros h' s (h & -> & -> & Ho). split; [by apply mark_unverified| |by intros w ?%not_elem_of_nil].
  intros id. left. apply Forall_app_2; [apply Ho|]. apply Forall_singleton. by intros [].
Qed.

(** *** Activation *)

Lemma truns_start id t : truns (start cx id) t (Some (Ok tt)) → ∃ t', t = t' ++ [existT (SecureApi id) (Some (Ok tt))].
Proof.
  unfold start. intros (u & t1 & t2 & -> & _ & H2)%truns_try. apply truns_try in H2 as (u' & t3 & t4 & -> & _ & H4).
  apply truns_try in H4 as (u'' & t5 & t6 & -> & _ & H6%truns_ask).
  apply (truns_call (Ans := Ans) (SecureApi id)) in H6 as ->. rewrite !(assoc_L (++)). eauto.
Qed.

(** The last poll of a controller that was activated. *)
Definition polled (f : PlannedFabric) (id : string) (config : gmap (string * string) (option string)) (t : list (Event Ans)) : Prop :=
  ∃ t1 current t2 samples,
    t = t1 ++ existT (ReadConfig id config) (Some (Ok current)) :: t2 ∧ config_matches current config = true ∧
    existT (Sample id) (Some samples) ∈ t2 ∧
    let o := interpret_group samples (expected_switches cx f) (expected_computes cx f) in
    is_controller_ready o = true ∧ membership_matches o = true.

Lemma truns_sample f id t o :
  truns (sample cx f id) t (Some (Ok o)) →
  ∃ samples, t = [existT (Sample id) (Some samples)] ∧ o = interpret_group samples (expected_switches cx f) (expected_computes cx f).
Proof.
  unfold sample. intros (u & t1 & t2 & -> & [-> _]%truns_ret & H2)%truns_try.
  apply truns_bind in H2 as [[[=] _]|(samples & t3 & t4 & -> & H3 & [-> [= ->]]%truns_ret)].
  apply (truns_call (Ans := Ans) (Sample id)) in H3 as ->. by exists samples.
Qed.

Lemma polled_prefix f id config t t' : polled f id config t' → polled f id config (t ++ t').
Proof. intros (t1 & cur & t2 & samples & -> & H2). exists (t ++ t1), cur, t2, samples. by rewrite (assoc_L (++)). Qed.

Lemma truns_poll_group n f id config t :
  truns (poll_group cx n f id config) t (Some (Ok tt)) → polled f id config t.
Proof.
  revert t. induction n as [|n IH]; intros t; cbn [poll_group];
    intros (u & t1 & t2 & -> & _ & H2)%truns_try; apply truns_try in H2 as (u' & t3 & t4 & -> & _ & H4);
    apply truns_try in H4 as (cur & t5 & t6 & -> & H5 & H6);
    apply (truns_call (Ans := Ans) (ReadConfig id config)) in H5 as ->;
    (destruct (config_matches cur config) eqn:Ec; [|by destruct H6]); cbn [negb] in H6;
    apply truns_try in H6 as (o & t7 & t8 & -> & (samples & -> & ->)%truns_sample & H8);
    (destruct (_ && _) eqn:Eo; [apply andb_true_iff in Eo as [Er Em]; apply truns_ret in H8 as [-> _];
       exists (t1 ++ t3), cur, [existT (Sample id) (Some samples)], samples; rewrite <- (assoc_L (++)); split_and!; [done|done|left|by split]|]).
  - apply truns_bind in H8 as [[[=] _]|(sent & t9 & t10 & -> & _ & H10)]. apply truns_try in H10 as (u'' & t11 & t12 & -> & _ & H12).
    by destruct H12.
  - apply truns_bind in H8 as [[[=] _]|(sent & t9 & t10 & -> & _ & H10)]. apply truns_try in H10 as (u'' & t11 & t12 & -> & _ & H12).
    by do 6 apply polled_prefix; apply IH.
Qed.

Lemma truns_configure_group f w t :
  primary cx f = Ok w → truns (configure_group cx f true) t (Some (Ok tt)) → activated cx t f (switch_id w).
Proof.
  intros Ew. unfold configure_group. intros (w' & t1 & t2 & -> & [-> E]%truns_ret & H2)%truns_try. rewrite Ew in E. simplify_eq.
  apply truns_try in H2 as (config & t3 & t4 & -> & [-> Ec]%truns_ret & H4).
  apply truns_try in H4 as ([] & t5 & t6 & -> & [t5' ->]%truns_start & H6).
  pose proof (emits_runs _ _ _ _ (emits_poll_group _ _ _ _ _) H6) as Hb.
  apply truns_poll_group in H6 as (t7 & cur & t8 & samples & -> & Hc & Hin & Ho).
  exists t5', t7, t8, config, cur, samples. split_and!; [by rewrite <- (assoc_L (++))|done|done|done| |done].
  apply Forall_app in Hb as [Hb7 [_ Hb8]%Forall_cons].
  eapply Forall_impl; [by apply Forall_app_2; [exact Hb7|exact Hb8]|]. intros e. apply benign_controls.
Qed.

Lemma activated_merge f id t rest h : activated cx t f id → merge t rest h → none (controls id) rest → activated cx h f id.
Proof.
  intros (h1 & h2 & h3 & config & cur & samples & -> & Hc & Hm & Hin & Hn & Ho) Hmg Hr.
  apply merge_split in Hmg as (b1 & b2 & c1 & c2 & -> & -> & _ & Hmg).
  apply merge_split in Hmg as (b3 & b4 & c3 & c4 & -> & -> & H3 & H4).
  exists c1, c3, c4, config, cur, samples. split_and!; [done|done|done| | |done].
  - apply (merge_elem _ _ _ _ H4). by left.
  - apply Forall_app in Hr as [_ Hr]. apply Forall_app in Hr as [Hr3 Hr4]. apply Forall_app in Hn as [Hn2 Hn3].
    apply Forall_app_2; [by apply (merge_forall _ _ _ _ H3)|by apply (merge_forall _ _ _ _ H4)].
Qed.

Lemma activated_prefix f id h h' : activated cx h' f id → activated cx (h ++ h') f id.
Proof.
  intros (h1 & h2 & h3 & config & cur & samples & -> & Ha). exists (h ++ h1), h2, h3, config, cur, samples.
  by rewrite (assoc_L (++)).
Qed.

(** The calls of the futures, and of the coordinator meanwhile. *)
Definition group_calls (s : Recon) (i : nat) (c : Cmd) : Prop :=
  benign c ∨ ∃ f w, fabrics (plan cx) !! i = Some f ∧ primary cx f = Ok w ∧ i ∈ changed_groups s ∧ starts (switch_id w) c.

Definition completions (c : Cmd) : Prop := benign c ∨ ∃ i d k, c = RecordActivation i d k.

Lemma emits_configure_group s i f :
  fabrics (plan cx) !! i = Some f → emits (group_calls s i) (configure_group cx f (bool_decide (i ∈ changed_groups s))).
Proof.
  intros Hf. unfold configure_group. apply emits_pure. intros w Hw. apply emits_pure. intros config _.
  apply emits_try; [|intros _; apply emits_or; emits]. case_bool_decide as Hi; [|emits].
  eapply emits_weaken; [apply emits_start|]. intros c [?|?]; [by left|]. right. by exists f, w.
Qed.

Definition group_task (s : Recon) (x : nat * Task Ans (result string unit)) : Prop :=
  ∃ f, fabrics (plan cx) !! x.1 = Some f ∧ x.2 = configure_group cx f (bool_decide (x.1 ∈ changed_groups s)).

(** A group that was changed is activated when its future has ended well. *)
Lemma ended_activated s tasks h0 i f w h :
  Forall (group_task s) tasks → fabrics (plan cx) !! i = Some f → primary cx f = Ok w → i ∈ changed_groups s →
  ended tasks (group_calls s) completions h0 i (Some (Ok tt)) h → activated cx h f (switch_id w).
Proof.
  intros Ht Hf Hw Hi (h' & p & t & rest & -> & Hp & Hr & Hm & Hrest). rewrite Forall_forall in Ht.
  destruct (Ht _ Hp) as (f' & Hf' & E). simpl in *. simplify_eq. rewrite bool_decide_eq_true_2 in Hr by done.
  apply activated_prefix. eapply activated_merge; [by apply truns_configure_group|exact Hm|].
  eapply Forall_impl; [exact Hrest|]. intros e [[Hb|(c & d & k & ->)]|(j & Hj & _ & [Hb|(g & w' & Hg & Hw' & _ & Hs)])];
    [by apply benign_controls|by intros []|by apply benign_controls|].
  intros Hc. apply Hj. eapply primaries_differ; [done|done|].
  apply primary_ok in Hw as [_ <-]. apply primary_ok in Hw' as [_ <-]. by eapply controls_one; [apply starts_controls|].
Qed.

(** All groups from [i] are dispatched, unless an error or a cancellation was seen. *)
Definition dispatched_all (i : nat) (d : list (nat * Task Ans (result string unit)) * option string) (h : list (Event Ans)) : Prop :=
  d.2 = None → seen_cancelled h ∨ ∀ j, (i ≤ j)%nat → (j < length (fabrics (plan cx)))%nat → j ∈ d.1.*1.

Lemma seen_more h h' : seen_cancelled h → seen_cancelled (h ++ h').
Proof. intros Hs. apply elem_of_app. by left. Qed.

Lemma triple_dispatch_groups s0 i l :
  drop i (fabrics (plan cx)) = l →
  triple (fun h s => ready h s ∧ s = s0) (dispatch_groups cx i l)
    (fun d h s => ((ready h s ∧ s = s0) ∧ dispatched_all i d h) ∧ Forall (group_task s0) d.1 ∧ numbered i d.1) synced.
Proof.
  assert (sturdy (fun h s => ready h s ∧ s = s0)) as Hst by (apply sturdy_and, sturdy_ready).
  assert (∀ h s, ready h s ∧ s = s0 → synced h s) as Hsy by (intros h s [? _]; by apply ready_synced).
  revert i. induction l as [|f l IH]; intros i Hi; cbn [dispatch_groups];
    (eapply triple_do; [done|intros h s Hs; by apply Hsy, Hst|]);
    intros []; try (apply triple_ret; intros h' s (h & -> & Hs); split; [split; [by apply Hst|]|split; [constructor|apply numbered_nil]]).
  - intros _. left. apply elem_of_app. right. by left.
  - intros _. right. intros j Hj Hlt. apply (f_equal length) in Hi. rewrite length_drop in Hi. simpl in Hi. lia.
  - intros _. left. apply elem_of_app. right. by left.
  - assert (fabrics (plan cx) !! i = Some f) as Hf by (rewrite <- (Nat.add_0_r i), <- lookup_drop, Hi; done).
    assert (drop (Datatypes.S i) (fabrics (plan cx)) = l) as Hi' by (by rewrite <- Nat.add_1_r, <- drop_drop, Hi).
    apply (triple_pre _ _ (fun h s => ready h s ∧ s = s0)); [|intros h' s (h & -> & Hs); by apply Hst].
    eapply triple_bind; [apply (triple_benign _ _ _ _ _ emits_publish Hst Hsy)|].
    intros [u|e]; [|apply triple_ret; intros h s Hs; split; [by split|split; [constructor|apply numbered_nil]]].
    apply triple_get. intros s1. apply (triple_pre _ _ (fun h s => (ready h s ∧ s = s0) ∧ s1 = s0)); [|by intros h s (<- & ? & <-)].
    apply triple_assume. intros ->. eapply triple_bind; [by apply IH|].
    intros d. apply triple_ret. intros h s ((Hs & Ha) & Hg & Hd). split; [split; [done|]|split; [|by apply numbered_cons]].
    + intros Hn. destruct (Ha Hn) as [?|Hall]; [by left|right]. intros j Hj Hlt. apply elem_of_cons.
      destruct (decide (j = i)) as [->|Hne]; [by left|right]. apply Hall; [lia|done].
    + constructor; [|done]. by exists f.
Qed.

(** With the futures of the groups [rem] under way. *)
Record acting (s0 : Recon) (rem : list nat) (h : list (Event Ans)) (s : Recon) : Prop := {
  ac_synced : synced h s;
  ac_barrier : barrier h;
  ac_changed : changed_groups s = changed_groups s0;
  ac_nodup : NoDup rem;
  ac_pending : ∀ i f w, i ∈ rem → i ∈ changed_groups s0 → fabrics (plan cx) !! i = Some f → primary cx f = Ok w →
    marked h (switch_id w);
}.

Lemma acting_kept s0 rem h e s :
  acting s0 rem h s → pending_after (h ++ [e]) = pending_after h → (∀ id, ¬ writes id (cmd e)) → acting s0 rem (h ++ [e]) s.
Proof.
  intros [Hs Hb Hc Hd Hp] Hk Hw. split; [unfold Safety.synced; by rewrite Hk| |done|done|].
  - eapply (stable_barrier cx (fun c => c = cmd e)); [intros c id ->; by apply Hw|done|done].
  - intros i f w Hi Hch Hf Hpr. unfold Policy.marked. rewrite Hk. by eapply Hp.
Qed.

Lemma sturdy_acting s0 rem : sturdy (acting s0 rem).
Proof. intros h e s Ha He. apply acting_kept; [done|by apply pending_kept, benign_keeps|]. intros id. by apply benign_writes. Qed.

Lemma acting_synced s0 rem h s : acting s0 rem h s → synced h s.
Proof. apply ac_synced. Qed.

Lemma acting_less s0 r1 i r2 h s : acting s0 (r1 ++ i :: r2) h s → acting s0 (r1 ++ r2) h s.
Proof.
  intros [Hs Hb Hc Hd Hp]. split; [done|done|done| |].
  - rewrite <- Permutation_middle in Hd. by apply NoDup_cons in Hd as [_ ?].
  - intros j f w Hj. apply Hp. set_solver.
Qed.

Lemma group_calls_ok s0 rem h s i c :
  acting s0 rem h s → i ∈ rem → group_calls s0 i c → permitted h c ∧ ∀ x, acting s0 rem (h ++ [existT c x]) s.
Proof.
  intros Ha Hi [Hb|(f & w & Hf & Hw & Hc & Hs)].
  { split; [by apply permitted_benign|]. intros x. by apply sturdy_acting. }
  split; [|intros x; apply acting_kept; [done|by eapply pending_kept, controls_keeps, starts_controls|intros id; by eapply controls_writes, starts_controls]].
  assert (marked h (switch_id w)) as Hm by (by eapply ac_pending). pose proof (ac_barrier _ _ _ _ Ha) as Hbar.
  destruct c; simpl in Hs; try done; subst; simpl; auto.
Qed.

Lemma complete_one s0 r1 i r2 h s f w e :
  acting s0 (r1 ++ i :: r2) h s → fabrics (plan cx) !! i = Some f → primary cx f = Ok w →
  (∀ id, ¬ writes id (cmd e)) → pending_after (h ++ [e]) = pending_after h ∖ {[controller_identity w]} →
  acting s0 (r1 ++ r2) (h ++ [e]) (set_pending (fun X => X ∖ {[controller_identity w]}) s).
Proof.
  intros Ha Hf Hw He Hp. pose proof (ac_nodup _ _ _ _ Ha) as Hd. rewrite <- Permutation_middle in Hd.
  apply NoDup_cons in Hd as [Hi Hd]. pose proof (acting_less _ _ _ _ _ _ Ha) as [Hs Hb Hc _ Hp'].
  split; [unfold Safety.synced; by rewrite Hp, <- Hs| |done|done|].
  - eapply (stable_barrier cx (fun c => c = cmd e)); [intros c id ->; by apply He|done|done].
  - intros j g w' Hj Hcj Hg Hw'. apply (marked_remove h _ w); [by apply primary_ok in Hw as [? _]|done|]. split; [by eapply Hp'|].
    intros E. apply Hi. replace i with j; [done|]. eapply primaries_differ; [done|done|].
    apply primary_ok in Hw as [_ <-]. apply primary_ok in Hw' as [_ <-]. done.
Qed.

(** If [X], only groups of [rem] are left to record, or the job was cancelled. *)
Definition working (s0 : Recon) (X : Prop) (rem : list nat) (h : list (Event Ans)) (s : Recon) : Prop :=
  acting s0 rem h s ∧ (X → seen_cancelled h ∨ attributed rem s).

Lemma sturdy_working s0 X rem : sturdy (working s0 X rem).
Proof.
  intros h e s [Ha Hx] He. split; [by apply sturdy_acting|]. intros HX. destruct (Hx HX); [left; by apply seen_more|by right].
Qed.

Lemma working_synced s0 X rem h s : working s0 X rem h s → synced h s.
Proof. intros [Ha _]. by eapply acting_synced. Qed.

Lemma elem_of_less {A} (r1 : list A) i r2 j : j ∈ r1 ++ i :: r2 → j ≠ i → j ∈ r1 ++ r2.
Proof. rewrite !elem_of_app, elem_of_cons. tauto. Qed.

(** A group that failed. *)
Lemma working_failed {A} s0 X r1 i r2 h s (e : string) :
  working s0 X (r1 ++ i :: r2) h s → working s0 (X ∧ is_ok (Err e : result string A) = true) (r1 ++ r2) h s.
Proof. intros [Ha _]. split; [by eapply acting_less|]. by intros [_ [=]]. Qed.

(** A group that is not to be changed. *)
Lemma working_unchanged s0 (X : Prop) r1 i r2 h s :
  i ∉ changed_groups s0 → working s0 X (r1 ++ i :: r2) h s → working s0 X (r1 ++ r2) h s.
Proof.
  intros Hi [Ha Hx]. split; [by eapply acting_less|]. intros HX. destruct (Hx HX) as [?|Hat]; [by left|right].
  intros c Hc. destruct (Hat c Hc) as (j & f & w & Hj & Hch & Hrest). exists j, f, w. split_and!; [|done|apply Hrest..].
  apply (elem_of_less _ i); [done|]. intros ->. apply Hi. by rewrite <- (ac_changed _ _ _ _ Ha).
Qed.

(** A group whose activation was recorded. *)
Lemma working_recorded s0 (X : Prop) r1 i r2 h s f w e :
  working s0 X (r1 ++ i :: r2) h s → fabrics (plan cx) !! i = Some f → primary cx f = Ok w →
  (∀ id, ¬ writes id (cmd e)) → pending_after (h ++ [e]) = pending_after h ∖ {[controller_identity w]} →
  working s0 X (r1 ++ r2) (h ++ [e]) (set_pending (fun X => X ∖ {[controller_identity w]}) s).
Proof.
  intros [Ha Hx] Hf Hw He Hp. split; [by eapply complete_one|]. intros HX. destruct (Hx HX) as [?|Hat]; [left; by apply seen_more|right].
  intros c [Hc Hne]%elem_of_difference. destruct (Hat c Hc) as (j & g & w' & Hj & Hch & Hg & Hw' & Hid).
  exists j, g, w'. split_and!; [|done..]. apply (elem_of_less _ i); [done|]. intros ->. apply Hne, elem_of_singleton. congruence.
Qed.

Lemma triple_complete_group s0 tasks h0 (X : Prop) r1 i r2 :
  Forall (group_task s0) tasks →
  triple (fun h s => working s0 X (r1 ++ i :: r2) h s ∧ ended tasks (group_calls s0) completions h0 i (Some (Ok tt)) h)
    (complete_group cx i) (fun r => working s0 (X ∧ is_ok r = true) (r1 ++ r2)) synced.
Proof.
  intros Ht. unfold complete_group. apply triple_pure; [|intros ??? _ [? _]; by eapply working_failed].
  intros f Hf%ok_or_Ok. apply triple_pure; [|intros ??? _ [? _]; by eapply working_failed]. intros w Hw.
  apply triple_get. intros s1. apply (triple_pre _ _ (fun h s => (working s0 X (r1 ++ i :: r2) h s ∧
    ended tasks (group_calls s0) completions h0 i (Some (Ok tt)) h) ∧ changed_groups s1 = changed_groups s0)).
  2: { intros h s [-> [[Ha Hx] He]]. split; [done|]. apply Ha. }
  apply triple_assume. intros Hc. rewrite Hc. eapply triple_bind with (R := fun r => working s0 (X ∧ is_ok r = true) (r1 ++ r2)).
  2: { intros [[]|e]; [|by apply triple_ret]. apply triple_modify_ret. by intros h s [[? ? ? ? ?] ?]. }
  case_bool_decide as Hi.
  2: { apply triple_ret. intros h s [Hk _]. apply working_unchanged in Hk as [Ha Hx]; [|done]. split; [done|]. intros [HX _]. by apply Hx. }
  apply triple_pure; [|intros ??? _ [? _]; by eapply working_failed]. intros scopes Hsc.
  apply triple_pure; [|intros ??? _ [? _]; by eapply working_failed]. intros keys Hk.
  apply triple_pure; [|intros ??? _ [? _]; by eapply working_failed]. intros digest Hdg.
  eapply triple_do.
  - intros h s [[Ha _] He]. exists f, w, scopes. apply map_err_is_ok in Hk. split_and!; [by eapply list_elem_of_lookup_2|done..| | |].
    + eapply ac_pending; [done| |done|done|done]. set_solver.
    + apply Ha.
    + by eapply ended_activated.
  - intros h s [Ha%working_synced _]. unfold Safety.synced. by rewrite pending_after_snoc.
  - intros [[]|e].
    + apply (triple_modify_ret _ _ _ (Ok tt)). intros h' s (h & -> & Ha & _).
      assert (working s0 X (r1 ++ r2) (h ++ [existT (RecordActivation (controller_identity w) digest keys) (Some (Ok tt))])
        (set_pending (fun X => X ∖ {[controller_identity w]}) s)) as [? Hx].
      { eapply working_recorded; [done|done|done|by intros id []|by rewrite pending_after_snoc]. }
      split; [done|]. intros [HX _]. by apply Hx.
    + apply triple_ret. intros h' s (h & -> & [Ha _] & _). split; [|by intros [_ [=]]].
      apply acting_kept; [by eapply acting_less| |by intros id []]. by rewrite pending_after_snoc.
Qed.

Lemma triple_group_ended s0 tasks h0 r1 i r2 e b :
  Forall (group_task s0) tasks →
  triple (fun h s => working s0 (e = None) (r1 ++ i :: r2) h s ∧ ended tasks (group_calls s0) completions h0 i b h)
    (group_ended cx e i b) (fun e' => working s0 (e' = None) (r1 ++ r2)) synced.
Proof.
  intros Ht. unfold group_ended. eapply triple_bind with (R := fun r => working s0 (e = None ∧ is_ok r = true) (r1 ++ r2)).
  - destruct b as [[[]|]|]; simpl; [by apply triple_complete_group|apply triple_ret; intros h s [? _]; by eapply working_failed..].
  - intros r. eapply triple_post; [apply triple_publish_first; [apply sturdy_working|apply working_synced]|].
    intros e' h s [[Ha Hx] He]. split; [done|]. intros ->. apply Hx. specialize (He eq_refl). by destruct e, r.
Qed.

Lemma calls_group_ended e i b : calls completions (group_ended cx e i b).
Proof.
  assert (∀ A (p : Task Ans A), emits benign p → calls (S := Recon) completions (lift p)) as Hl.
  { intros A p Hp. apply calls_lift. by apply emits_or. }
  unfold group_ended. apply calls_bind; [|intros r; unfold publish_first; apply calls_bind; [apply Hl, emits_publish|intros ?; apply calls_ret]].
  destruct (default _ b); [|apply calls_ret]. unfold complete_group.
  apply calls_try; [apply calls_ret|intros f]. apply calls_try; [apply calls_ret|intros w]. apply calls_get. intros s.
  apply calls_try; [|intros _; apply calls_bind; [apply calls_modify|intros ?; apply calls_ret]].
  destruct (bool_decide _); [|apply calls_ret]. repeat (apply calls_try; [apply calls_ret|intros ?]).
  apply calls_try; [apply calls_lift, emits_ask, emits_call; right; eauto|].
  intros _. apply calls_bind; [apply calls_modify|intros ?; apply calls_ret].
Qed.

(** No controller is pending any more, or the job was cancelled. *)
Definition settled (h : list (Event Ans)) : Prop := seen_cancelled h ∨ pending_after h = ∅.

Lemma stable_settled : stable benign settled.
Proof.
  intros h e [Hs|Hp] He; [left; by apply seen_more|right]. by rewrite pending_kept by by apply benign_keeps.
Qed.

Lemma triple_configure_groups :
  triple (fun h s => ready h s ∧ attributed groups s) (configure_groups cx) (or_synced (fun h s => synced h s ∧ settled h)) synced.
Proof.
  apply triple_state. intros s0. apply (triple_pre _ _ (fun h s => (ready h s ∧ s = s0) ∧ attributed groups s0)); [|by intros h s [[? ?] ->]].
  apply triple_assume. intros Hat. eapply triple_bind; [by apply (triple_dispatch_groups s0 0)|].
  intros d. apply triple_assume. intros (Hf & Hd & _).
  apply (triple_pool _ _ _ _ _ _ _ (group_calls s0) completions (fun _ rem h e s => working s0 (e = None) rem h s)).
  - done.
  - intros i p Hin. rewrite Forall_forall in Hf. destruct (Hf _ Hin) as (f & Hfi & E). simpl in *. subst p. by apply emits_configure_group.
  - intros h s [[[Hs Hb Hp] ->] Hall]. split; [split; [done|done|done|done|intros i f w _; apply Hp]|].
    intros Hn. destruct (Hall Hn) as [?|Hin]; [by left|right]. intros c Hc. destruct (Hat c Hc) as (i & f & w & Hi & Hrest).
    exists i, f, w. split; [|done]. apply elem_of_seq in Hi. apply Hin; lia.
  - intros h0 rem h' l s i c x [Ha Hx] Hi _ Hc. destruct (group_calls_ok _ _ _ _ _ _ Ha Hi Hc) as [? Hk].
    split; [done|]. rewrite (assoc_L (++)). split; [auto|]. intros HX. destruct (Hx HX); [left; by apply seen_more|by right].
  - intros h0 r1 i r2 l b. by apply triple_group_ended.
  - intros h0 rem l. eapply triple_post; [apply triple_publish_first; [apply sturdy_working|apply working_synced]|].
    intros e' h s [[Ha Hx] He]. split; [done|]. auto.
  - intros l i b. apply calls_group_ended.
  - intros l s t s' r Hr. eapply Forall_impl; [by eapply calls_publish_first|]. intros e He. by left.
  - intros l. destruct l as [e|]; [apply triple_ret; intros h s [_ ?]; by eapply working_synced|].
    eapply triple_weaken; [apply (triple_finish_batch (working s0 (@None string = None) []) None); [apply sturdy_working|apply working_synced]
      |by intros h s [? ?]| |done]. intros [u|e] h s; [|done]. intros [Ha Hx]. pose proof (ac_synced _ _ _ _ Ha) as Hs. split; [done|].
    destruct (Hx eq_refl) as [?|Ha']; [by left|right]. rewrite <- Hs. apply set_eq. intros c. split; [|set_solver].
    intros (i & _ & _ & Hi & _)%Ha'. by apply not_elem_of_nil in Hi.
Qed.

(** *** Verification *)

Lemma truns_enabled w t b :
  truns (enabled w) t (Some (Ok b)) →
  t = [existT (GetCluster (switch_id w)) (Some (Ok (Some (if b then "enabled" else "disabled"))))].
Proof.
  unfold enabled. destruct (nvue_endpoint w); [|by destruct 1]. intros (state & t1 & t2 & -> & H1%truns_ask & [-> E]%truns_ret)%truns_try.
  apply (truns_call (Ans := Ans) (GetCluster (switch_id w))) in H1 as ->. destruct state as [state|]; [|done].
  destruct (String.eqb_spec state "enabled"); [by simplify_eq|]. destruct (String.eqb_spec state "disabled"); by simplify_eq.
Qed.

Lemma truns_startup_enabled w t b :
  truns (startup_enabled w) t (Some (Ok b)) → t = [existT (StartupCluster (switch_id w)) (Some (Ok b))].
Proof.
  unfold startup_enabled. destruct (has_adapter w); [|by destruct 1]. intros H1%truns_ask.
  by apply (truns_call (Ans := Ans) (StartupCluster (switch_id w))) in H1.
Qed.

Lemma truns_verify_cluster w t :
  truns (verify_cluster cx w) t (Some (Ok tt)) →
  t = [existT (GetCluster (switch_id w)) (Some (Ok (Some (if is_primary cx (switch_id w) then "enabled" else "disabled"))));
       existT (StartupCluster (switch_id w)) (Some (Ok (is_primary cx (switch_id w))))].
Proof.
  unfold verify_cluster. intros (e & t1 & t2 & -> & ->%truns_enabled & H2)%truns_try.
  apply truns_try in H2 as (d & t3 & t4 & -> & H3 & [-> E]%truns_require). apply negb_true_iff in E as ->.
  destruct (eqb e _) eqn:Ee; [|by destruct H3]. apply eqb_prop in Ee as ->.
  apply truns_try in H3 as (b & t5 & t6 & -> & ->%truns_startup_enabled & [-> E]%truns_ret).
  injection E as E. symmetry in E. apply negb_false_iff, eqb_prop in E as ->. done.
Qed.

Lemma sturdy_synced : sturdy synced.
Proof. intros h e s Hs He. by apply synced_kept, benign_keeps. Qed.

Lemma sturdy_stable P (R : list (Event Ans) → Prop) : sturdy P → stable benign R → sturdy (fun h s => P h s ∧ R h).
Proof. intros HP HR h e s [Hp Hr] He. split; [by apply HP|by apply HR]. Qed.

Lemma stable_verified : stable benign (verified cx).
Proof.
  intros h e Hv He w Hw. destruct (Hv w Hw) as ((target & Ht & Hl) & Hg & Hs). split; [exists target; split; [done|]|split];
    (apply since_snoc; [done|by apply benign_mutates]).
Qed.

Lemma triple_verify P :
  sturdy P → (∀ h s, P h s → synced h s) → triple P (verify cx) (or_synced (fun h s => P h s ∧ verified cx h)) synced.
Proof.
  intros HP HE. unfold verify. eapply triple_then; [by apply triple_verify_links|]. intros _.
  eapply triple_bind; [apply (triple_reads _ _ (fun h s => P h s ∧ links_verified h))|].
  { intros p (w & -> & _)%list_elem_of_fmap. emits. }
  { apply sturdy_stable; [done|apply stable_links_verified]. }
  { intros h s [? _]. auto. }
  intros [us|e]; [|apply triple_ret; intros h s [[? _] _]; auto].
  apply (triple_pre _ _ (fun h s => P h s ∧ verified cx h)).
  - eapply triple_post; [apply (triple_benign _ _ (fun h s => P h s ∧ verified cx h)); [emits| |intros h s [? _]; auto]|].
    + apply sturdy_stable; [done|apply stable_verified].
    + intros [u|e] h s [? ?]; [by split|auto].
  - intros h s [[Hs Hl] Hr]. split; [done|]. destruct (Hr us eq_refl) as [_ Hg]. intros w Hw. split; [by apply Hl|].
    apply list_elem_of_lookup in Hw as [i Hi].
    assert ((verify_cluster cx <$> managed cx) !! i = Some (verify_cluster cx w)) as Ho by (by rewrite list_lookup_fmap, Hi).
    split; (eapply gathered_reads; [apply benign_mutates|done|done|]); intros t [] ->%truns_verify_cluster.
    + eexists [], _, [_]. split_and!; [done|done|]. apply Forall_singleton, benign_mutates, I.
    + by apply (since_now _ _ [_]).
Qed.

(** The run is over, and the operation may be finished. *)
Definition successful (h : list (Event Ans)) (s : Recon) : Prop := (synced h s ∧ settled h) ∧ verified cx h.

Lemma sturdy_successful : sturdy successful.
Proof. apply sturdy_stable; [apply sturdy_stable; [apply sturdy_synced|apply stable_settled]|apply stable_verified]. Qed.

Lemma successful_synced h s : successful h s → synced h s.
Proof. by intros [[? _] _]. Qed.

(** A step that keeps what is known. *)
Lemma triple_step {A B} P (p : Task Ans (result string A)) (k : A → Prog Ans Recon (result string B)) Q :
  emits benign p → sturdy P → (∀ h s, P h s → synced h s) →
  (∀ a, triple P (k a) (or_synced Q) synced) → triple P (try (lift p) k) (or_synced Q) synced.
Proof. intros Hp HP HE Hk. apply triple_try_benign; auto. Qed.

Lemma triple_run :
  triple (fun h s => s = new_reconciliation pending0 ∧ h = []) (run cx) (or_synced successful) synced.
Proof.
  unfold run. eapply triple_then; [apply triple_pending_primaries|]. intros _.
  apply triple_step; [emits|apply sturdy_and, sturdy_opening|by intros h s [?%opening_synced _]|]. intros _.
  eapply triple_then; [apply triple_inspect|]. intros _.
  apply triple_step; [emits|apply sturdy_and, sturdy_opening|by intros h s [?%opening_synced _]|]. intros _.
  eapply triple_then; [apply triple_prepare|]. intros _.
  apply triple_step; [emits|apply sturdy_and, sturdy_ready|by intros h s [?%ready_synced _]|]. intros _.
  eapply triple_then; [apply triple_configure_groups|intros _]. apply triple_verify; [|by intros h s [? _]].
  apply sturdy_stable; [apply sturdy_synced|apply stable_settled].
Qed.

(** *** Cleanup *)

(** The controllers that are left to compensate are pending. *)
Definition compensating (h : list (Event Ans)) (s : Recon) : Prop :=
  synced h s ∧ ∀ w, w ∈ managed cx → switch_id w ∈ unverified_primaries s → marked h (switch_id w).

Lemma compensating_kept h e s : compensating h s → keeps_pending (cmd e) → compensating (h ++ [e]) s.
Proof.
  intros [Hs Hm] He. split; [by apply synced_kept|]. intros w Hw Hin. apply marked_kept; [done|]. by apply Hm.
Qed.

Abbreviation anything := (fun (_ : list (Event Ans)) (_ : Recon) => True).

Lemma all_down_down target : ¬ Exists (fun l => l.2 = Up) (entries (all_down target)).
Proof.
  intros ([k x] & Hin & E)%Exists_exists. simpl in E. subst x. apply entries_elem in Hin. unfold all_down in Hin.
  rewrite lookup_fmap in Hin. destruct (target !! k); by simplify_eq/=.
Qed.

Lemma triple_isolate_stopped id target :
  triple (fun h s => compensating h s ∧ halted h id) (lift (reconcile_links id (all_down target))) (fun _ => compensating) anything.
Proof.
  eapply triple_post; [apply (triple_keep _ (fun c => benign c ∨ c = SetLinks id (entries (all_down target))) _ _ _ (emits_reconcile_links _ _))|];
    [| |done|by intros a h s [? _]].
  - intros h s c [Hc Hh] [?| ->]; [by apply permitted_benign|]. split; [by right|]. by intros ?%all_down_down.
  - intros h s e [Hc Hh] He. split; [apply compensating_kept; [done|]|apply since_snoc; [done|]].
    + destruct He as [?| ->]; [by apply benign_keeps|done].
    + destruct He as [?| ->]; [by apply benign_controls|by intros []].
Qed.

Lemma triple_cleanup_switch w manual :
  w ∈ managed cx → triple compensating (cleanup_switch cx w manual) (fun _ => compensating) anything.
Proof.
  intros Hw. unfold cleanup_switch. apply triple_get. intros s0. case_bool_decide as Hin; [|apply triple_ret; by intros h s [_ ?]].
  apply (triple_pre _ _ (fun h s => compensating h s ∧ switch_id w ∈ unverified_primaries s)); [|by intros h s [-> ?]].
  eapply triple_bind; [apply triple_benign; [emits| |done]|].
  { apply sturdy_and. intros h e s Hc He. by apply compensating_kept, benign_keeps. }
  intros p. eapply triple_do; [by intros h s [[_ Hm] Hu]; apply Hm|done|]. intros r.
  eapply triple_bind with (R := fun _ => compensating); [|intros i; by apply triple_ret]. destruct r as [[]|e].
  - eapply triple_pre; [apply triple_isolate_stopped|]. intros h' s (h & -> & Hc & _).
    split; [by apply compensating_kept|by apply since_now].
  - apply triple_ret. intros h' s (h & -> & Hc & _). by apply compensating_kept.
Qed.

Lemma triple_cleanup_switches l manual :
  (∀ w, w ∈ l → w ∈ managed cx) → triple compensating (cleanup_switches cx l manual) (fun _ => compensating) anything.
Proof.
  revert manual. induction l as [|w l IH]; intros manual Hl; cbn [cleanup_switches]; [by apply triple_ret|].
  eapply triple_bind; [apply triple_cleanup_switch; apply Hl; left|]. intros m. apply IH. intros w' Hw'. apply Hl. by right.
Qed.

Lemma triple_cleanup : triple synced (cleanup_failed_controllers cx) (fun _ => anything) anything.
Proof.
  apply triple_get. intros s0. apply (triple_modify_bind _ _ compensating).
  - eapply triple_bind; [by apply triple_cleanup_switches|]. intros m.
    eapply triple_bind; [apply triple_benign; [emits| |done]|intros p; by apply triple_ret].
    intros h e s Hc He. by apply compensating_kept, benign_keeps.
  - intros h s [-> Hs]. split; [done|]. intros w Hw [Hin _]%elem_of_filter. apply Exists_exists in Hin as (w' & Hw' & E & Hin).
    exists w'. split_and!; [done|done|]. by rewrite <- Hs.
Qed.

(** The job was told that the operation was released. *)
Definition released (h : list (Event Ans)) : Prop := ∃ r, last h = Some (existT ReleaseFailed (Some r)).

Lemma triple_fail e : triple synced (fail cx e) (fun _ h _ => released h) anything.
Proof.
  unfold fail. apply (triple_catch _ _ _ _ (fun _ => anything) anything); [apply triple_cleanup|intros b|];
    (eapply triple_do; [done|done|]; intros r; apply triple_ret; intros h' s (h & -> & _); exists r; apply last_snoc).
Qed.

Lemma triple_failing {A} (p : Prog Ans Recon (result string A)) P Q :
  triple P p (or_synced Q) synced → triple P (failing p) (or_synced Q) synced.
Proof. intros Hp. eapply triple_bind; [exact Hp|]. intros [a|e]; by apply triple_ret. Qed.

Definition finished (h : list (Event Ans)) : Prop := last h = Some (existT FinishOperation (Some (Ok tt))).

Lemma triple_work :
  triple (fun h s => s = new_reconciliation pending0 ∧ h = []) (work cx) (or_synced (fun h _ => finished h)) synced.
Proof.
  unfold work. eapply triple_then; [apply triple_failing, triple_run|]. intros _.
  eapply triple_then with (R := successful).
  { unfold read_status. destruct (full_topology _); [|by apply triple_ret].
    eapply triple_bind; [apply (triple_benign _ _ _ _ _ (emits_call _ ReadStatus I) sturdy_successful), successful_synced|].
    intros r. apply triple_ret. intros h s Hs. by destruct r as [[]|[? []]]; [|apply successful_synced..]. }
  intros json. eapply triple_then with (R := successful).
  { apply triple_failing. eapply triple_post; [apply (triple_benign _ _ _ _ _ emits_publish sturdy_successful), successful_synced|].
    intros [] h s Hs; [done|by apply successful_synced]. }
  intros _. eapply triple_then with (R := fun h _ => finished h); [|intros _; by apply triple_ret].
  apply triple_failing. eapply triple_do.
  - by intros h s [[_ ?] ?].
  - intros h s Hs%successful_synced. by apply synced_kept.
  - intros [[]|e]; apply triple_ret; intros h' s (h & -> & Hs%successful_synced); [apply last_snoc|by apply synced_kept].
Qed.

Lemma triple_job :
  triple (fun h s => s = new_reconciliation pending0 ∧ h = []) (run_managed_fabric_job cx)
    (fun _ h _ => ∃ e, last h = Some e ∧ match cmd e with CompleteJob _ | FailJob _ => True | _ => False end) anything.
Proof.
  assert (∀ f, triple synced (letP message := fail cx (failure_message f) in lift (tcall (FailJob (with_message f message))))
    (fun _ h _ => ∃ e, last h = Some e ∧ match cmd e with CompleteJob _ | FailJob _ => True | _ => False end) anything) as Hfail.
  { intros f. eapply triple_bind; [apply triple_fail|]. intros message. eapply triple_do; [by intros h s ?|done|].
    intros []. apply triple_ret. intros h' s (h & -> & _). eexists. split; [apply last_snoc|done]. }
  unfold run_managed_fabric_job. eapply triple_catch; [apply triple_work| |apply Hfail].
  intros [json|f]; [|apply Hfail]. eapply triple_do; [by intros h s ?|done|].
  intros []. apply triple_ret. intros h' s (h & -> & _). eexists. split; [apply last_snoc|done].
Qed.
End Run.
End Safety.

Module ReconcileTheorems.
Import NodeTypes Pb FabricLayout Planner ManagedConfig FabricHealth SwitchScope Programs Reconcile Logic Policy Safety.

(** ** A plan of the switches *)

Section Plan.
Context (cx : Context) (p : FabricLayoutProfile) (requested : list ScaleUpFabricSpec) (config : ScaleUpFabricConfig).
Hypothesis planned : plan_layout p (placement <$> managed cx) (computes cx) requested config = Ok (plan cx).
Hypothesis placed : ∀ w, w ∈ managed cx → switch_id w = obs_node_id (placement w).

Lemma planned_ids : NoDup (switch_id <$> managed cx).
Proof.
  destruct (plan_layout_ok _ _ _ _ _ _ planned) as [Hi _]. destruct (ids_parts _ _ _ Hi) as (Hd & _).
  rewrite <- list_fmap_compose in Hd. rewrite (list_fmap_ext _ (obs_node_id ∘ placement)); [done|].
  intros i w Hw. apply placed. by eapply list_elem_of_lookup_2.
Qed.

Lemma planned_identities : NoDup (controller_identity <$> managed cx).
Proof.
  destruct (plan_layout_ok _ _ _ _ _ _ planned) as [Hi _]. apply (NoDup_fmap_1 Fabric.tray_index).
  pose proof (io_trays _ _ _ Hi) as Ht. rewrite <- list_fmap_compose. by rewrite <- list_fmap_compose in Ht.
Qed.

Lemma planned_primaries i j f g :
  fabrics (plan cx) !! i = Some f → fabrics (plan cx) !! j = Some g → primary_id f = primary_id g → i = j.
Proof.
  intros Hf Hg E. destruct (plan_layout_ok _ _ _ _ _ _ planned) as [_ Hp].
  assert (∀ k x, fabrics (plan cx) !! k = Some x → primary_id x ∈ FabricPlanTheorems.members x) as Hm.
  { intros k x Hx. destruct (Forall2_lookup_r _ _ _ k (assignment x) (pk_fabrics _ _ _ _ _ Hp)) as (spec & _ & Hok).
    { by rewrite list_lookup_fmap, Hx. }
    apply elem_of_app. left. apply (fo_primary _ _ _ _ _ Hok). }
  pose proof (Hm i f Hf) as Hif. pose proof (Hm j g Hg) as Hjg. rewrite E in Hif.
  destruct (Nat.lt_trichotomy i j) as [Hlt|[?|Hlt]]; [|done|]; exfalso; by eapply (pk_apart _ _ _ _ _ Hp _ _ _ _ _ Hlt).
Qed.
End Plan.

(** C22. Whatever the switches, controllers and registries answer, in whatever order
    the futures of the worker run, and whether calls fail or panic, the worker that
    carries out a plan of its switches makes every call only when it may: it stops
    and starts only controllers that are marked as pending, starts one only while
    its switch is isolated or the saved links of all switches were verified, and
    stages a configuration only in isolation; it writes links only with the
    switch's controller untouched or halted, and brings links up only with all
    pending controllers halted; it records an activation only of a secured
    controller whose configuration and members were read as planned since; it
    finishes the operation only after links and controllers of all switches were
    read as planned, with no change since, and with no controller pending unless the
    job was seen cancelled, completes the job only then, and fails it only after the
    operation was released.  A worker that does not panic at the end
    completes or fails its job. *)
Theorem reconciliation_safe `{SerdeJson, DigestEnv} cx p requested config pending0 t s r :
  plan_layout p (placement <$> managed cx) (computes cx) requested config = Ok (plan cx) →
  (∀ w, w ∈ managed cx → switch_id w = obs_node_id (placement w)) →
  runs (run_managed_fabric_job cx) (new_reconciliation pending0) t s r →
  Safe (permitted cx pending0) t ∧
  (r = Some tt → ∃ e, last t = Some e ∧ match cmd e with CompleteJob _ | FailJob _ => True | _ => False end).
Proof.
  intros Hp Hw Hr. destruct (triple_job cx pending0 (planned_ids _ _ _ _ Hp Hw) (planned_identities _ _ _ _ Hp)
    (planned_primaries _ _ _ _ Hp) [] (new_reconciliation pending0) t s r) as [Hs Hl]; [|done|done|].
  - by intros [] ? ?.
  - split; [done|]. intros ->. exact Hl.
Qed.

(** ** A run on two switches *)

Module Example.

#[export] Instance silent : SerdeJson := {| from_str := fun s => Err s; to_string := fun _ => ""; serialize := fun _ => Ok "" |}.
#[export] Instance digests : DigestEnv := {| to_vec := fun _ => Some "config"; sha256_hex := fun s => s |}.

(** Saved links, and the switches whose controller runs. *)
Record RackState := mkRack { rack_links : gmap string (gmap string FabricLinkState); running : gset string }.

Definition shown (links : gmap string FabricLinkState) : gmap string (option (gset string)) :=
  (fun l => Some {[match l with Up => "up" | Down => "down" end]}) <$> links.

Definition snapshot_of (r : RackState) (id : string) : ScaleUpLinkSnapshot :=
  let links := shown (default ∅ (rack_links r !! id)) in mkLinkSnapshot links links links.

(** A controller that is configured, and sees its own switch. *)
Definition samples_of (id : string) : FabricSamples :=
  mkSamples (Ok (mkDomainState 3 1))
    (Ok [Some (SwitchTopoInfo (mkTopo (Some (mkLocationInfo "chassis" (if String.eqb id "s0" then 0 else 1))) 0 1 []))])
    (Err "none") (Err "none").

Definition answer (c : Cmd) : RackState → RackState * Ans c :=
  match c with
  | IsCancelled | DispatchStopped => fun r => (r, false)
  | Progress | SendProgress | SaveApplied _ | Connect _ _ => fun r => (r, true)
  | LinkSnapshot id => fun r => (r, Ok (snapshot_of r id))
  | SetLinks id changes => fun r => (mkRack (<[id := from_pairs changes]> (rack_links r)) (running r), true)
  | GetCluster id => fun r => (r, Ok (Some (if bool_decide (id ∈ running r) then "enabled" else "disabled")))
  | StartupCluster id => fun r => (r, Ok (bool_decide (id ∈ running r)))
  | StopCluster id => fun r => (mkRack (rack_links r) (running r ∖ {[id]}), Ok tt)
  | EnableCluster id => fun r => (mkRack (rack_links r) ({[id]} ∪ running r), Ok tt)
  | ExposeApi _ | WaitApi _ | SecureApi _ => fun r => (r, Ok tt)
  | ReadConfig _ desired => fun r => (r, Ok (mkSnapshot ∅ desired))
  | ReconcileConfig _ _ => fun r => (r, Ok true)
  | Sample id => fun r => (r, samples_of id)
  | HasProof _ _ => fun r => (r, Ok false)
  | MarkPending _ | ClearInactive _ | RecordActivation _ _ _ | FinishOperation | ReleaseFailed => fun r => (r, Ok tt)
  | ReadStatus => fun r => (r, Ok (Ok ""))
  | CompleteJob _ | FailJob _ => fun r => (r, tt)
  end.

Definition switch_of (n : ObservedPlacement) : ManagedSwitch :=
  mkSwitch (mkNodeInfo (obs_node_id n) "rack" None None None None []) true (Some (mkClientEndpoint (obs_node_id n) 443)) n.

Definition planned : result string FabricPlan :=
  plan_layout example_profile example_switches example_computes example_request (mkFabricConfig "t" []).

Definition example_context : Context :=
  mkContext (switch_of <$> example_switches) example_computes
    (match planned with Ok plan => plan | Err _ => mkPlan [] ∅ false end) false 3.

Definition initial : RackState :=
  mkRack (from_pairs ((fun n => (obs_node_id n, full_link_states example_profile)) <$> example_switches)) {["s0"]}.

Definition execution : RackState * list (Event Ans) * Recon * unit :=
  exec answer (run_managed_fabric_job example_context) (new_reconciliation ∅) initial.
Definition trace : list (Event Ans) := execution.1.1.2.

(** The calls on switches and their controllers, and the end of the job. *)
Definition effect (e : Event Ans) : option Cmd :=
  match cmd e with
  | SetLinks _ _ | StopCluster _ | EnableCluster _ | SecureApi _ | FinishOperation | CompleteJob _ => Some (cmd e)
  | _ => None
  end.

(** The controllers of both switches are stopped, one of them, which did not
    run, is staged in isolation, the links are set, and only then the
    controllers are started. *)
Example example_effects :
  omap effect trace =
    [StopCluster "s0"; StopCluster "s1"; SetLinks "s1" [("acp1", Down); ("acp2", Down)]; EnableCluster "s1"; SecureApi "s1";
     StopCluster "s1"; SetLinks "s0" [("acp1", Up); ("acp2", Down)]; SetLinks "s1" [("acp1", Down); ("acp2", Up)];
     EnableCluster "s1"; SecureApi "s1"; EnableCluster "s0"; SecureApi "s0"; FinishOperation; CompleteJob ""].
Proof. vm_compute. reflexivity. Qed.

Lemma planned_ok : planned = Ok (plan example_context).
Proof.
  assert (is_ok planned = true) as Hok by (vm_compute; reflexivity). unfold example_context. cbn [plan].
  destruct planned; [done|discriminate Hok].
Qed.

Lemma execution_runs :
  runs (run_managed_fabric_job example_context) (new_reconciliation ∅) trace execution.1.2 (Some execution.2).
Proof.
  apply (exec_runs answer _ _ initial execution.1.1.1). unfold trace. fold execution. by destruct execution as [[[]]].
Qed.

Lemma example_placed w : w ∈ managed example_context → switch_id w = obs_node_id (placement w).
Proof. by intros (n & -> & _)%list_elem_of_fmap. Qed.
End Example.
Import Example.

Lemma reconciliation_safe_witness :
  Safe (permitted example_context ∅) trace ∧
  ∃ e, last trace = Some e ∧ match cmd e with CompleteJob _ | FailJob _ => True | _ => False end.
Proof.
  destruct (reconciliation_safe example_context example_profile example_request (mkFabricConfig "t" []) ∅
    trace execution.1.2 (Some execution.2)) as [Hs He].
  - exact planned_ok.
  - exact example_placed.
  - exact execution_runs.
  - split; [exact Hs|]. apply He. by destruct execution.2.
Defined.
End ReconcileTheorems.
