(* ===== verification/RustBytes.v ===== *)
(** * Bytes

    What the PLDM parser uses of [std]: reading from a file that is its bytes,
    little-endian numbers, [String::from_utf8_lossy] and hexadecimal digits.  The
    lemmas: little-endian numbers are read back, and a reader that succeeds has
    consumed what it returns. *)

From S2P Require Import Prelude RustStd RustStr.
From Stdlib Require Import Ascii.
Local Open Scope string_scope.
Local Open Scope list_scope.
Local Open Scope N_scope.

(** ** Readers

    A file that is read from front to end is the bytes that are left.  An error
    is the text of an [io::Error]. *)

Abbreviation Reader A := (chars → result string (A * chars)).

Definition reader_ret {A} (a : A) : Reader A := fun l => Ok (a, l).
Definition reader_err {A} (e : string) : Reader A := fun _ => Err e.
Definition reader_bind {A B} (r : Reader A) (k : A → Reader B) : Reader B := fun l =>
  match r l with Ok (a, l) => k a l | Err e => Err e end.

Declare Scope reader_scope.
Delimit Scope reader_scope with reader.
Notation "x <~ r ;; k" := (reader_bind r (fun x => k%reader))
  (at level 100, r at next level, right associativity) : reader_scope.

(** [map_err] on a reader. *)
Definition reader_map_err {A} (f : string → string) (r : Reader A) : Reader A := fun l =>
  map_err f (r l).

(** [Read::read_exact]. *)
Definition read_exact (n : nat) : Reader chars := fun l =>
  if (n <=? length l)%nat then Ok (take n l, drop n l) else Err "failed to fill whole buffer".

(** [uN::from_le_bytes]. *)
Fixpoint from_le_bytes (l : chars) : N :=
  match l with [] => 0 | b :: l => N_of_ascii b + 256 * from_le_bytes l end.

Definition read_le (n : nat) : Reader N := (b <~ read_exact n ;; reader_ret (from_le_bytes b))%reader.

(** ** [String::from_utf8_lossy] *)

Definition is_cont (b : ascii) : bool := between 128 191 (N_of_ascii b).

(** The second byte of an encoding of three or of four bytes. *)
Definition is_second3 (a : N) (b : ascii) : bool :=
  let b := N_of_ascii b in
  if a =? 224 then between 160 191 b
  else if a =? 237 then between 128 159 b
  else between 128 191 b.
Definition is_second4 (a : N) (b : ascii) : bool :=
  let b := N_of_ascii b in
  if a =? 240 then between 144 191 b
  else if a =? 244 then between 128 143 b
  else between 128 191 b.

(** U+FFFD. *)
Definition replacement : chars := [ascii_of_N 239; ascii_of_N 191; ascii_of_N 189].

(** Each maximal prefix of an encoding that does not go on becomes U+FFFD. *)
Fixpoint utf8_lossy (l : chars) : chars :=
  match l with
  | [] => []
  | a :: l1 =>
      let n := N_of_ascii a in
      if n <? 128 then a :: utf8_lossy l1
      else if between 194 223 n then
        match l1 with
        | b :: l2 => if is_cont b then a :: b :: utf8_lossy l2 else replacement ++ utf8_lossy l1
        | [] => replacement
        end
      else if between 224 239 n then
        match l1 with
        | b :: l2 =>
            if is_second3 n b then
              match l2 with
              | c :: l3 => if is_cont c then a :: b :: c :: utf8_lossy l3
                           else replacement ++ utf8_lossy l2
              | [] => replacement
              end
            else replacement ++ utf8_lossy l1
        | [] => replacement
        end
      else if between 240 244 n then
        match l1 with
        | b :: l2 =>
            if is_second4 n b then
              match l2 with
              | c :: l3 =>
                  if is_cont c then
                    match l3 with
                    | d :: l4 => if is_cont d then a :: b :: c :: d :: utf8_lossy l4
                                 else replacement ++ utf8_lossy l3
                    | [] => replacement
                    end
                  else replacement ++ utf8_lossy l2
              | [] => replacement
              end
            else replacement ++ utf8_lossy l1
        | [] => replacement
        end
      else replacement ++ utf8_lossy l1
  end.

Definition from_utf8_lossy (l : chars) : string := of_chars (utf8_lossy l).

(** [buf.split(|&b| b == 0).next()]. *)
Definition until_nul (l : chars) : chars :=
  match split_once (ascii_of_N 0) l with Some (a, _) => a | None => l end.

(** ** Hexadecimal *)

(** [{:02x}] of a byte. *)
Definition hex2 (b : ascii) : chars :=
  [digit_char (N_of_ascii b / 16); digit_char (N_of_ascii b mod 16)].

Definition hex_bytes (l : chars) : string := of_chars (mjoin (hex2 <$> l)).

(** [str::replace] of a nonempty string; [skip] bytes of a match are left. *)
Fixpoint replace_from (p by_ : chars) (skip : nat) (l : chars) : chars :=
  match l with
  | [] => []
  | c :: l' =>
      match skip with
      | S k => replace_from p by_ k l'
      | O => if starts_with l p then by_ ++ replace_from p by_ (length p - 1) l'
             else c :: replace_from p by_ 0 l'
      end
  end.

Definition replace (p by_ s : string) : string :=
  of_chars (replace_from (to_chars p) (to_chars by_) 0 (to_chars s)).

(** [slice::get]. *)
Definition slice_get {A} (l : list A) (i : nat) : option A := l !! i.

(** ** Lemmas *)

Open Scope reader_scope.

(** [uN::to_le_bytes]. *)
Fixpoint to_le_bytes (n : nat) (v : N) : chars :=
  match n with O => [] | S n => ascii_of_N (v mod 256) :: to_le_bytes n (v / 256) end.

Lemma length_le n v : length (to_le_bytes n v) = n.
Proof. revert v. induction n; simpl; auto. Qed.

Lemma byte_bound b : N_of_ascii b < 256.
Proof. apply N_ascii_bounded. Qed.

Lemma le_bound l : from_le_bytes l < 256 ^ N.of_nat (length l).
Proof.
  induction l as [|b l IH]; [done|]. cbn [from_le_bytes length].
  rewrite Nat2N.inj_succ, N.pow_succ_r'. pose proof (byte_bound b). lia.
Qed.

Lemma from_to_le n v : v < 256 ^ N.of_nat n → from_le_bytes (to_le_bytes n v) = v.
Proof.
  revert v. induction n as [|n IH]; intros v Hv; [simpl in *; lia|]. cbn [to_le_bytes from_le_bytes].
  rewrite Nat2N.inj_succ, N.pow_succ_r' in Hv.
  rewrite N_ascii_embedding by (apply N.mod_lt; lia).
  rewrite IH by (apply N.Div0.div_lt_upper_bound; lia).
  pose proof (N.div_mod v 256). lia.
Qed.

Lemma to_from_le l : to_le_bytes (length l) (from_le_bytes l) = l.
Proof.
  induction l as [|b l IH]; [done|]. cbn [from_le_bytes length to_le_bytes].
  pose proof (byte_bound b).
  rewrite (N.mul_comm 256), N.Div0.mod_add, N.mod_small, N.div_add, N.div_small by lia.
  by rewrite N.add_0_l, IH, ascii_N_embedding.
Qed.

(** ** Readers *)

Lemma read_exact_app w l : read_exact (length w) (w ++ l) = Ok (w, l).
Proof.
  unfold read_exact. rewrite length_app, (proj2 (Nat.leb_le _ _)) by lia.
  by rewrite take_app_length, drop_app_length.
Qed.

Lemma read_exact_inv n l w l' : read_exact n l = Ok (w, l') → l = w ++ l' ∧ length w = n.
Proof.
  unfold read_exact. destruct (n <=? length l)%nat eqn:E; [|done]. intros [= <- <-].
  apply Nat.leb_le in E. rewrite take_drop, length_take. split; [done|lia].
Qed.

Lemma read_le_app n v l : v < 256 ^ N.of_nat n → read_le n (to_le_bytes n v ++ l) = Ok (v, l).
Proof.
  intros Hv. unfold read_le, reader_bind. rewrite <- (length_le n v) at 1.
  by rewrite read_exact_app, from_to_le.
Qed.

Lemma read_le_inv n l v l' :
  read_le n l = Ok (v, l') → l = to_le_bytes n v ++ l' ∧ v < 256 ^ N.of_nat n.
Proof.
  unfold read_le, reader_bind. destruct (read_exact n l) as [[w l1]|] eqn:E; [|done].
  intros [= <- <-]. apply read_exact_inv in E as [-> <-]. rewrite to_from_le. auto using le_bound.
Qed.

Lemma map_err_ok {A} f (r : Reader A) l x : reader_map_err f r l = Ok x ↔ r l = Ok x.
Proof. unfold reader_map_err, map_err. destruct (r l); split; congruence. Qed.

Lemma reader_bind_inv {A B} (r : Reader A) (k : A → Reader B) l x :
  reader_bind r k l = Ok x → ∃ a l1, r l = Ok (a, l1) ∧ k a l1 = Ok x.
Proof. unfold reader_bind. destruct (r l) as [[a l1]|]; [eauto|done]. Qed.

Lemma reader_bind_ok {A B} (r : Reader A) (k : A → Reader B) l a l1 :
  r l = Ok (a, l1) → reader_bind r k l = k a l1.
Proof. unfold reader_bind. by intros ->. Qed.
