(* ===== verification/Pldm.v ===== *)
(** * PLDM firmware packages: the parser

    [rust_nvfwupd/src/pldm.rs]: the native parser of PLDM packages, from the
    bytes of a file to the header, the device records and the component images.
    A read that fails does so at the end of the file; other I/O errors while
    reading are not modelled. *)

From S2P Require Import Prelude RustStd RustStr RustBytes EndpointScope.
From Stdlib Require Import Ascii.
Local Open Scope string_scope.
Local Open Scope list_scope.
Local Open Scope N_scope.
Open Scope reader_scope.

Module Pldm.
Definition PLDM_VALID_UUIDS : list (list N) :=
  [[240; 24; 135; 140; 203; 125; 73; 67; 152; 0; 160; 47; 5; 154; 202; 2];
   [18; 68; 210; 100; 141; 125; 71; 24; 160; 48; 252; 138; 86; 88; 125; 90];
   [49; 25; 206; 47; 232; 10; 74; 153; 175; 109; 70; 248; 177; 33; 246; 191];
   [123; 41; 28; 153; 109; 182; 66; 8; 128; 27; 2; 2; 110; 70; 60; 120]].

Definition format_uuid_bytes (bytes : chars) : string :=
  if (length bytes <? 16)%nat then ""
  else
    let h i n := hex_bytes (take n (drop i bytes)) in
    h 0%nat 4%nat +++ "-" +++ h 4%nat 2%nat +++ "-" +++ h 6%nat 2%nat +++ "-" +++
    h 8%nat 2%nat +++ "-" +++ h 10%nat 6%nat.

(** A byte of the timestamp, and [i16] from its bits. *)
Definition byte_at (ts : chars) (i : nat) : N := default 0 (N_of_ascii <$> ts !! i).
Definition to_i16 (n : N) : Z := if n <? 32768 then Z.of_N n else (Z.of_N n - 65536)%Z.

Definition parse_timestamp (ts : chars) : string :=
  if (length ts <? 13)%nat then ""
  else
    let at_ := byte_at ts in
    let year := N.lor (N.shiftl (at_ 11%nat) 8) (at_ 10%nat) in
    let micro := N.lor (N.lor (N.shiftl (at_ 4%nat) 16) (N.shiftl (at_ 3%nat) 8)) (at_ 2%nat) in
    let utc_raw := to_i16 (N.lor (N.shiftl (at_ 1%nat) 8) (at_ 0%nat)) in
    let sign := if (utc_raw <? 0)%Z then "-" else "+" in
    pretty year +++ "-" +++ pretty (at_ 9%nat) +++ "-" +++ pretty (at_ 8%nat) +++ " " +++
    pretty (at_ 7%nat) +++ ":" +++ pretty (at_ 6%nat) +++ ":" +++ pretty (at_ 5%nat) +++ ":" +++
    pretty micro +++ " " +++ sign +++ pretty (Z.abs_N utc_raw).

(** ** Reading *)

Definition read_error (e : string) : string := "Read error: " +++ e.

Definition read_bytes (n : nat) : Reader chars := reader_map_err read_error (read_exact n).
Definition read_u8 : Reader N := reader_map_err read_error (read_le 1).
Definition read_u16_le : Reader N := reader_map_err read_error (read_le 2).
Definition read_u32_le : Reader N := reader_map_err read_error (read_le 4).

Definition read_string (n : nat) : Reader string :=
  b <~ read_bytes n ;; reader_ret (from_utf8_lossy (until_nul b)).

(** [skip_bytes] in a file of [file_len] bytes; what is left says where it is. *)
Definition skip_bytes (file_len n : N) : Reader unit := fun l =>
  let current := file_len - N.of_nat (length l) in
  let target := current + n in
  if U64_MAX <? target then Err "skip offset overflow"
  else if file_len <? target
  then Err ("skip target " +++ pretty target +++ " exceeds file length " +++ pretty file_len)
  else Ok (tt, drop (N.to_nat n) l).

(** A loop that reads [n] values. *)
Fixpoint read_many {A} (n : nat) (r : Reader A) : Reader (list A) :=
  match n with
  | O => reader_ret []
  | S n => x <~ r ;; xs <~ read_many n r ;; reader_ret (x :: xs)
  end.

(** ** The parts of a package *)

Record PldmHeader := mkPldmHeader {
  identifier : string;
  format_revision : N;
  release_datetime : string;
  component_bitmap_bit_length : N;
  version_string : string;
}.

Record RawDescriptor := mkRawDescriptor {
  is_initial : bool;
  descriptor_type : N;
  data : chars;
  vendor_title : option string;
  vendor_data : option chars;
}.

Record DeviceIdRecord := mkDeviceIdRecord {
  component_image_set_version_string : string;
  applicable_components : N;
  descriptors : list RawDescriptor;
}.

Record ComponentImageInfo := mkComponentImageInfo {
  image_identifier : N;
  location_offset : N;
  size : N;
  image_version_string : string;
  fw_image_name : option string;
  sha256 : option string;
  image_size : option N;
}.

Record PldmParsedData := mkPldmParsedData {
  header : PldmHeader;
  device_records : list DeviceIdRecord;
  component_images : list ComponentImageInfo;
}.

Definition is_valid_uuid (uuid_bytes : chars) : bool :=
  existsb (fun known => bool_decide (N_of_ascii <$> uuid_bytes = known)) PLDM_VALID_UUIDS.

Definition parse_header : Reader PldmHeader :=
  uuid_bytes <~ read_bytes 16 ;;
  let identifier := format_uuid_bytes uuid_bytes in
  if negb (is_valid_uuid uuid_bytes)
  then reader_err ("Not a valid PLDM package: UUID " +++ identifier)
  else
    format_revision <~ read_u8 ;;
    _header_size <~ read_u16_le ;;
    ts_bytes <~ read_bytes 13 ;;
    component_bitmap_bit_length <~ read_u16_le ;;
    _ver_string_type <~ read_u8 ;;
    ver_string_len <~ read_u8 ;;
    version_string <~ read_string (N.to_nat ver_string_len) ;;
    reader_ret (mkPldmHeader identifier format_revision (parse_timestamp ts_bytes)
                  component_bitmap_bit_length version_string).

Definition unsupported_bits (bits : N) : string :=
  "Unsupported component bitmap bit length: " +++ pretty bits.

(** The bytes of the bitmap, least significant first. *)
Definition bitmap (ac_bytes : chars) : N :=
  foldl (fun acc '(i, b) => N.lor acc (N.shiftl (N_of_ascii b) (N.of_nat (i * 8)))) 0
    (enumerate ac_bytes).

Definition vendor_descriptor (desc_type desc_len : N) : Reader RawDescriptor :=
  if desc_len <? 2
  then reader_err ("Malformed vendor descriptor: length " +++ pretty desc_len +++
                   " is shorter than the title metadata")
  else
    _title_type <~ read_u8 ;;
    title_len <~ read_u8 ;;
    title <~ read_string (N.to_nat title_len) ;;
    let vendor_header_len := 2 + title_len in
    if desc_len <? vendor_header_len
    then reader_err ("Malformed vendor descriptor: length " +++ pretty desc_len +++
                     " is shorter than title metadata plus title (" +++ pretty vendor_header_len +++
                     " bytes)")
    else
      vd_data <~ read_bytes (N.to_nat (desc_len - vendor_header_len)) ;;
      reader_ret (mkRawDescriptor false desc_type [] (Some title) (Some vd_data)).

(** The descriptors of a record; the first one is not vendor defined. *)
Definition parse_descriptor (initial : bool) : Reader RawDescriptor :=
  desc_type <~ read_u16_le ;;
  desc_len <~ read_u16_le ;;
  if negb initial && (desc_type =? 65535) then vendor_descriptor desc_type desc_len
  else
    data <~ read_bytes (N.to_nat desc_len) ;;
    reader_ret (mkRawDescriptor initial desc_type data None None).

Definition parse_descriptors (count : nat) : Reader (list RawDescriptor) :=
  match count with
  | O => reader_ret []
  | S rest =>
      d <~ parse_descriptor true ;;
      ds <~ read_many rest (parse_descriptor false) ;;
      reader_ret (d :: ds)
  end.

(** A length and, when it is not zero, that many bytes that are skipped. *)
Definition skip_block (what : string) (file_len : N) : Reader unit :=
  len <~ read_u32_le ;;
  if 0 <? len
  then reader_map_err (fun e => "Skip " +++ what +++ " error: " +++ e) (skip_bytes file_len len)
  else reader_ret tt.

Definition parse_device_record (h : PldmHeader) (file_len : N) (bitmap_bytes : nat)
    : Reader DeviceIdRecord :=
  _record_length <~ read_u16_le ;;
  descriptor_count <~ read_u8 ;;
  _device_update_flags <~ read_u32_le ;;
  _cisv_string_type <~ read_u8 ;;
  cisv_string_len <~ read_u8 ;;
  fw_pkg_data_len <~ read_u16_le ;;
  _ <~ (if 4 <=? format_revision h then skip_block "reference manifest" file_len
        else reader_ret tt) ;;
  ac_bytes <~ read_bytes bitmap_bytes ;;
  version <~ read_string (N.to_nat cisv_string_len) ;;
  descriptors <~ parse_descriptors (N.to_nat descriptor_count) ;;
  _fw_pkg_data <~ read_bytes (N.to_nat fw_pkg_data_len) ;;
  reader_ret (mkDeviceIdRecord version (bitmap ac_bytes) descriptors).

Definition parse_device_records (h : PldmHeader) (file_len : N) : Reader (list DeviceIdRecord) :=
  count <~ read_u8 ;;
  let bits := component_bitmap_bit_length h in
  if 64 <? bits then reader_err (unsupported_bits bits)
  else read_many (N.to_nat count) (parse_device_record h file_len (N.to_nat ((bits + 7) / 8))).

Definition parse_downstream_area : Reader unit :=
  _count <~ read_u8 ;; reader_ret tt.

Definition parse_component_image (h : PldmHeader) (file_len : N) : Reader ComponentImageInfo :=
  _classification <~ read_u16_le ;;
  identifier <~ read_u16_le ;;
  _comparison_stamp <~ read_bytes 4 ;;
  _options <~ read_u16_le ;;
  _activation_method <~ read_u16_le ;;
  location_offset <~ read_u32_le ;;
  size <~ read_u32_le ;;
  _ver_string_type <~ read_u8 ;;
  ver_string_len <~ read_u8 ;;
  version_string <~ read_string (N.to_nat ver_string_len) ;;
  _ <~ (if 3 <=? format_revision h then skip_block "opaque data" file_len else reader_ret tt) ;;
  reader_ret (mkComponentImageInfo identifier location_offset size version_string None None None).

Definition parse_component_images (h : PldmHeader) (file_len : N) : Reader (list ComponentImageInfo) :=
  count <~ read_u16_le ;;
  let bits := component_bitmap_bit_length h in
  if 64 <? bits then reader_err (unsupported_bits bits)
  else if bits <? count
  then reader_err ("Unsupported component image count: " +++ pretty count +++
                   " exceeds component bitmap bit length " +++ pretty bits)
  else read_many (N.to_nat count) (parse_component_image h file_len).

(** [PldmParsedData::parse] of a file that was opened, without unpacking.  The
    two reads of checksums after it have no effect. *)
Definition parse_parts (file_len : N) : Reader PldmParsedData :=
  header <~ parse_header ;;
  device_records <~ parse_device_records header file_len ;;
  _ <~ (if 1 <? format_revision header then parse_downstream_area else reader_ret tt) ;;
  component_images <~ parse_component_images header file_len ;;
  reader_ret (mkPldmParsedData header device_records component_images).

Definition parse_file (file : chars) : result string PldmParsedData :=
  let? parsed := parse_parts (N.of_nat (length file)) file in Ok parsed.1.
End Pldm.
