(* ===== verification/PldmFormat.v ===== *)
(** * The wire format of PLDM packages

    A reference definition of the format that the parser accepts: the fields of a
    package, also those the parser skips, and the bytes they are written as.
    [parse_exact] shows that the parser accepts exactly what is written so. *)

From S2P Require Import Prelude RustStd RustStr RustBytes EndpointScope Pldm.
From Stdlib Require Import Ascii.
Local Open Scope list_scope.
Local Open Scope N_scope.
Open Scope reader_scope.

Module PldmFormat.
Import Pldm.

Definition u8 (v : N) : chars := to_le_bytes 1 v.
Definition u16 (v : N) : chars := to_le_bytes 2 v.
Definition u32 (v : N) : chars := to_le_bytes 4 v.
Definition len (l : chars) : N := N.of_nat (length l).
Arguments u8 v : simpl never.
Arguments u16 v : simpl never.
Arguments u32 v : simpl never.
Arguments len l : simpl never.

(** The string of a field: its bytes up to a NUL. *)
Definition text (l : chars) : string := from_utf8_lossy (until_nul l).

(** ** Descriptors *)

Inductive Descriptor :=
| Plain (type : N) (payload : chars)
| Vendor (title_type : N) (title payload : chars).

Definition descriptor_ok (initial : bool) (d : Descriptor) : Prop :=
  match d with
  | Plain type payload =>
      type < 65536 ∧ len payload < 65536 ∧ (initial = false → type ≠ 65535)
  | Vendor title_type title payload =>
      initial = false ∧ title_type < 256 ∧ len title < 256 ∧ 2 + len title + len payload < 65536
  end.

Definition encode_descriptor (d : Descriptor) : chars :=
  match d with
  | Plain type payload => u16 type ++ u16 (len payload) ++ payload
  | Vendor title_type title payload =>
      u16 65535 ++ u16 (2 + len title + len payload) ++ u8 title_type ++ u8 (len title) ++
      title ++ payload
  end.

Definition view_descriptor (initial : bool) (d : Descriptor) : RawDescriptor :=
  match d with
  | Plain type payload => mkRawDescriptor initial type payload None None
  | Vendor _ title payload => mkRawDescriptor false 65535 [] (Some (text title)) (Some payload)
  end.

(** ** Device records *)

Record DeviceRecord := mkDeviceRecord {
  record_length : N;
  update_flags : N;
  set_version_type : N;
  reference_manifest : chars;
  applicable : chars;
  set_version : chars;
  record_descriptors : list Descriptor;
  package_data : chars;
}.

(** The first descriptor is the initial one. *)
Definition indexed {A B} (f : bool → A → B) (l : list A) : list B :=
  match l with [] => [] | d :: ds => f true d :: (f false <$> ds) end.

Definition descriptors_ok (l : list Descriptor) : Prop :=
  match l with [] => True | d :: ds => descriptor_ok true d ∧ Forall (descriptor_ok false) ds end.

Record record_ok (revision bits : N) (r : DeviceRecord) : Prop := mk_record_ok {
  ok_record_length : record_length r < 65536;
  ok_update_flags : update_flags r < 2 ^ 32;
  ok_set_version_type : set_version_type r < 256;
  ok_manifest : len (reference_manifest r) < 2 ^ 32;
  ok_no_manifest : revision < 4 → reference_manifest r = [];
  ok_applicable : length (applicable r) = N.to_nat ((bits + 7) / 8);
  ok_set_version : len (set_version r) < 256;
  ok_descriptor_count : N.of_nat (length (record_descriptors r)) < 256;
  ok_descriptors : descriptors_ok (record_descriptors r);
  ok_package_data : len (package_data r) < 65536;
}.

(** A block that is skipped, with its length. *)
Definition block (present : bool) (l : chars) : chars :=
  if present then u32 (len l) ++ l else [].

Definition encode_record (revision : N) (r : DeviceRecord) : chars :=
  u16 (record_length r) ++ u8 (N.of_nat (length (record_descriptors r))) ++ u32 (update_flags r) ++
  u8 (set_version_type r) ++ u8 (len (set_version r)) ++ u16 (len (package_data r)) ++
  block (4 <=? revision) (reference_manifest r) ++ applicable r ++ set_version r ++
  mjoin (encode_descriptor <$> record_descriptors r) ++ package_data r.

Definition view_record (r : DeviceRecord) : DeviceIdRecord :=
  mkDeviceIdRecord (text (set_version r)) (bitmap (applicable r))
    (indexed view_descriptor (record_descriptors r)).

(** ** Component images *)

Record Image := mkImage {
  classification : N;
  image_id : N;
  comparison_stamp : chars;
  options : N;
  activation_method : N;
  offset : N;
  image_length : N;
  image_version_type : N;
  image_version : chars;
  opaque : chars;
}.

Record image_ok (revision : N) (i : Image) : Prop := mk_image_ok {
  ok_classification : classification i < 65536;
  ok_image_id : image_id i < 65536;
  ok_comparison_stamp : length (comparison_stamp i) = 4%nat;
  ok_options : options i < 65536;
  ok_activation_method : activation_method i < 65536;
  ok_offset : offset i < 2 ^ 32;
  ok_image_length : image_length i < 2 ^ 32;
  ok_image_version_type : image_version_type i < 256;
  ok_image_version : len (image_version i) < 256;
  ok_opaque : len (opaque i) < 2 ^ 32;
  ok_no_opaque : revision < 3 → opaque i = [];
}.

Definition encode_image (revision : N) (i : Image) : chars :=
  u16 (classification i) ++ u16 (image_id i) ++ comparison_stamp i ++ u16 (options i) ++
  u16 (activation_method i) ++ u32 (offset i) ++ u32 (image_length i) ++
  u8 (image_version_type i) ++ u8 (len (image_version i)) ++ image_version i ++
  block (3 <=? revision) (opaque i).

Definition view_image (i : Image) : ComponentImageInfo :=
  mkComponentImageInfo (image_id i) (offset i) (image_length i) (text (image_version i))
    None None None.

(** ** Packages *)

Record Package := mkPackage {
  uuid : chars;
  revision : N;
  header_size : N;
  timestamp : chars;
  bitmap_bits : N;
  version_type : N;
  version : chars;
  records : list DeviceRecord;
  downstream_count : N;
  images : list Image;
}.

Record package_ok (p : Package) : Prop := mk_package_ok {
  ok_uuid : length (uuid p) = 16%nat ∧ is_valid_uuid (uuid p) = true;
  ok_revision : revision p < 256;
  ok_header_size : header_size p < 65536;
  ok_timestamp : length (timestamp p) = 13%nat;
  ok_bitmap_bits : bitmap_bits p ≤ 64;
  ok_version_type : version_type p < 256;
  ok_version : len (version p) < 256;
  ok_records : N.of_nat (length (records p)) < 256 ∧
               Forall (record_ok (revision p) (bitmap_bits p)) (records p);
  ok_downstream : downstream_count p < 256;
  ok_images : N.of_nat (length (images p)) ≤ bitmap_bits p ∧
              Forall (image_ok (revision p)) (images p);
}.

Definition encode_header (p : Package) : chars :=
  uuid p ++ u8 (revision p) ++ u16 (header_size p) ++ timestamp p ++ u16 (bitmap_bits p) ++
  u8 (version_type p) ++ u8 (len (version p)) ++ version p.

Definition encode (p : Package) : chars :=
  encode_header p ++
  u8 (N.of_nat (length (records p))) ++ mjoin (encode_record (revision p) <$> records p) ++
  (if 1 <? revision p then u8 (downstream_count p) else []) ++
  u16 (N.of_nat (length (images p))) ++ mjoin (encode_image (revision p) <$> images p).

Definition view (p : Package) : PldmParsedData :=
  mkPldmParsedData
    (mkPldmHeader (format_uuid_bytes (uuid p)) (revision p) (parse_timestamp (timestamp p))
       (bitmap_bits p) (text (version p)))
    (view_record <$> records p) (view_image <$> images p).

(** Lengths of parts. *)
Ltac lens := unfold len in *; rewrite ?length_app in *; lia.

(** ** What is written is read *)

Section Complete.
Context (file_len : N).

Lemma read_bytes_app w l : read_bytes (length w) (w ++ l) = Ok (w, l).
Proof. apply map_err_ok, read_exact_app. Qed.

Lemma read_bytes_len w l : read_bytes (N.to_nat (len w)) (w ++ l) = Ok (w, l).
Proof. unfold len. rewrite Nat2N.id. apply read_bytes_app. Qed.

Lemma read_string_len w l : read_string (N.to_nat (len w)) (w ++ l) = Ok (text w, l).
Proof. unfold read_string. by rewrite (reader_bind_ok _ _ _ _ _ (read_bytes_len w l)). Qed.

Lemma read_u8_app v l : v < 256 → read_u8 (u8 v ++ l) = Ok (v, l).
Proof. intros Hv. apply map_err_ok, read_le_app. exact Hv. Qed.

Lemma read_u16_app v l : v < 65536 → read_u16_le (u16 v ++ l) = Ok (v, l).
Proof. intros Hv. apply map_err_ok, read_le_app. exact Hv. Qed.

Lemma read_u32_app v l : v < 2 ^ 32 → read_u32_le (u32 v ++ l) = Ok (v, l).
Proof. intros Hv. apply map_err_ok, read_le_app. exact Hv. Qed.

Context (file_len_u64 : file_len ≤ U64_MAX).

Lemma skip_block_app what w l :
  len w < 2 ^ 32 → len (w ++ l) ≤ file_len →
  skip_block what file_len (u32 (len w) ++ w ++ l) = Ok (tt, l).
Proof.
  intros Hw Hl. unfold skip_block. rewrite (reader_bind_ok _ _ _ _ _ (read_u32_app _ _ Hw)).
  unfold len in *. rewrite length_app in Hl. destruct (0 <? N.of_nat (length w)) eqn:E; reflect_nums.
  - apply map_err_ok. unfold skip_bytes. rewrite length_app.
    rewrite (proj2 (N.ltb_ge _ _)), (proj2 (N.ltb_ge _ _)) by lia.
    by rewrite Nat2N.id, drop_app_length.
  - destruct w; [done|simpl in E; lia].
Qed.

(** Read the next field of what is written. *)
Ltac next :=
  cbv beta iota zeta;
  erewrite reader_bind_ok by
    (first [apply read_u8_app | apply read_u16_app | apply read_u32_app
           | apply read_bytes_len | apply read_string_len]; first [assumption | lia]);
  cbv beta.

Lemma parse_descriptor_app initial d l :
  descriptor_ok initial d →
  parse_descriptor initial (encode_descriptor d ++ l) = Ok (view_descriptor initial d, l).
Proof.
  destruct d as [type payload|title_type title payload];
    cbn [descriptor_ok encode_descriptor view_descriptor]; unfold parse_descriptor.
  - intros (Ht & Hp & Hi). rewrite <- !app_assoc. do 2 next.
    assert (negb initial && (type =? 65535) = false)%bool as ->.
    { destruct initial; [done|]. apply N.eqb_neq. auto. }
    next. done.
  - intros (-> & Ht & Hl & Hp). rewrite <- !app_assoc. do 2 next.
    change (negb false && (65535 =? 65535))%bool with true. cbv iota. unfold vendor_descriptor.
    rewrite (proj2 (N.ltb_ge _ _)) by lia. do 3 next.
    rewrite (proj2 (N.ltb_ge _ _)) by lia.
    replace (2 + len title + len payload - (2 + len title)) with (len payload) by lia. by next.
Qed.

Lemma mjoin_cons {A} (l : list A) ls : mjoin (l :: ls) = l ++ mjoin ls.
Proof. done. Qed.

Lemma read_many_app {A B} (r : Reader B) (f : A → chars) (g : A → B) xs l :
  (∀ x l, x ∈ xs → len (f x ++ l) ≤ file_len → r (f x ++ l) = Ok (g x, l)) →
  len (mjoin (f <$> xs) ++ l) ≤ file_len →
  read_many (length xs) r (mjoin (f <$> xs) ++ l) = Ok (g <$> xs, l).
Proof.
  revert l. induction xs as [|x xs IH]; intros l Hx Hl; [done|].
  rewrite fmap_cons, mjoin_cons, <- app_assoc in Hl |- *. cbn [read_many length].
  rewrite (reader_bind_ok _ _ _ _ _ (Hx x _ (list_elem_of_here _ _) Hl)).
  erewrite reader_bind_ok; [reflexivity|]. apply IH.
  - intros y l' Hy. apply Hx. by right.
  - lens.
Qed.

Lemma parse_descriptors_app ds l :
  descriptors_ok ds → len (mjoin (encode_descriptor <$> ds) ++ l) ≤ file_len →
  parse_descriptors (length ds) (mjoin (encode_descriptor <$> ds) ++ l) =
    Ok (indexed view_descriptor ds, l).
Proof.
  destruct ds as [|d ds]; [done|]. intros [Hd Hds] Hl.
  rewrite fmap_cons, mjoin_cons, <- app_assoc in Hl |- *. cbn [parse_descriptors length].
  rewrite (reader_bind_ok _ _ _ _ _ (parse_descriptor_app _ _ _ Hd)).
  erewrite reader_bind_ok; [reflexivity|]. apply read_many_app.
  - intros x l' Hx _. apply parse_descriptor_app. by eapply Forall_forall.
  - lens.
Qed.

(** A block that is there only from some revision on. *)
Lemma skip_optional_app what (present : bool) w l :
  len w < 2 ^ 32 → (present = false → w = []) → len (block present w ++ l) ≤ file_len →
  (if present then skip_block what file_len else reader_ret tt) (block present w ++ l) = Ok (tt, l).
Proof.
  intros Hw Hn Hl. unfold block in *. destruct present; [|done]. rewrite <- app_assoc in *.
  apply skip_block_app; [done|lens].
Qed.

Lemma parse_device_record_app h bits r l :
  record_ok (format_revision h) bits r → len (encode_record (format_revision h) r ++ l) ≤ file_len →
  parse_device_record h file_len (N.to_nat ((bits + 7) / 8)) (encode_record (format_revision h) r ++ l) =
    Ok (view_record r, l).
Proof.
  intros [] Hl. unfold encode_record in *. rewrite <- !app_assoc in *. unfold parse_device_record.
  do 6 next. erewrite reader_bind_ok by (apply skip_optional_app; [done| |lens];
    intros E; apply N.leb_gt in E; auto).
  cbv beta. rewrite <- ok_applicable0.
  erewrite reader_bind_ok by apply read_bytes_app. next. rewrite Nat2N.id.
  erewrite reader_bind_ok by (apply parse_descriptors_app; [done|lens]). by next.
Qed.

Lemma parse_component_image_app h i l :
  image_ok (format_revision h) i → len (encode_image (format_revision h) i ++ l) ≤ file_len →
  parse_component_image h file_len (encode_image (format_revision h) i ++ l) = Ok (view_image i, l).
Proof.
  intros [] Hl. unfold encode_image in *. rewrite <- !app_assoc in *. unfold parse_component_image.
  do 2 next. erewrite reader_bind_ok by (rewrite <- ok_comparison_stamp0; apply read_bytes_app).
  do 7 next. erewrite reader_bind_ok by (apply skip_optional_app; [done| |lens];
    intros E; apply N.leb_gt in E; auto). done.
Qed.

Definition view_header (p : Package) : PldmHeader := header (view p).

Lemma parse_header_app p l :
  package_ok p → parse_header (encode_header p ++ l) = Ok (view_header p, l).
Proof.
  intros [[Hu Hv]]. unfold encode_header, parse_header. rewrite <- !app_assoc.
  erewrite reader_bind_ok by (rewrite <- Hu; apply read_bytes_app). rewrite Hv. cbn [negb].
  do 2 next. erewrite reader_bind_ok by (rewrite <- ok_timestamp0; apply read_bytes_app).
  do 3 next. by next.
Qed.

Lemma parse_parts_app p l :
  package_ok p → len (encode p ++ l) ≤ file_len →
  parse_parts file_len (encode p ++ l) = Ok (view p, l).
Proof.
  intros Hok Hl. pose proof Hok as [_ _ _ _ Hbits _ _ [Hn Hr] Hd [Hm Hi]].
  unfold encode in *. rewrite <- !app_assoc in *. unfold parse_parts.
  erewrite reader_bind_ok by by apply parse_header_app. cbv beta.
  erewrite reader_bind_ok.
  2: { unfold parse_device_records. next. cbn [view_header view header component_bitmap_bit_length].
       rewrite (proj2 (N.ltb_ge _ _)), Nat2N.id by lia. apply read_many_app; [|lens].
       intros r l' Hin Hl'. apply (parse_device_record_app (view_header p)); [|done].
       by eapply Forall_forall. }
  erewrite reader_bind_ok.
  2: { cbn [view_header view header format_revision]. destruct (1 <? revision p).
       - unfold parse_downstream_area. by next.
       - done. }
  erewrite reader_bind_ok; [reflexivity|].
  unfold parse_component_images. next. cbn [view_header view header component_bitmap_bit_length].
  rewrite (proj2 (N.ltb_ge _ _)), (proj2 (N.ltb_ge _ _)), Nat2N.id by lia. apply read_many_app; [|lens].
  intros i l' Hin Hl'. apply (parse_component_image_app (view_header p)); [|done].
  by eapply Forall_forall.
Qed.
End Complete.

(** ** What is read was written *)

Section Sound.
Context (file_len : N).

Lemma read_bytes_inv n l w l' : read_bytes n l = Ok (w, l') → l = w ++ l' ∧ length w = n.
Proof. intros H%map_err_ok. by apply read_exact_inv. Qed.

Lemma read_string_inv n l s l' :
  read_string n l = Ok (s, l') → ∃ w, l = w ++ l' ∧ length w = n ∧ s = text w.
Proof.
  intros (w & l1 & H%read_bytes_inv & [= <- <-])%reader_bind_inv. exists w. naive_solver.
Qed.

Lemma read_u8_inv l v l' : read_u8 l = Ok (v, l') → l = u8 v ++ l' ∧ v < 256.
Proof. intros H%map_err_ok. by apply read_le_inv in H. Qed.

Lemma read_u16_inv l v l' : read_u16_le l = Ok (v, l') → l = u16 v ++ l' ∧ v < 65536.
Proof. intros H%map_err_ok. by apply read_le_inv in H. Qed.

Lemma read_u32_inv l v l' : read_u32_le l = Ok (v, l') → l = u32 v ++ l' ∧ v < 2 ^ 32.
Proof. intros H%map_err_ok. by apply read_le_inv in H. Qed.

#[local] Opaque u8 u16 u32.

(** Take the next field off a reader that succeeded. *)
Ltac take_next H x Hx :=
  let l := fresh "l" in let E := fresh "E" in
  apply reader_bind_inv in H; destruct H as (x & l & E & H);
  first [apply read_u8_inv in E | apply read_u16_inv in E | apply read_u32_inv in E
        | apply read_bytes_inv in E];
  destruct E as [-> Hx].

Ltac take_string H w Hw :=
  let s := fresh "s" in let l := fresh "l" in let E := fresh "E" in
  apply reader_bind_inv in H; destruct H as (s & l & E & H);
  apply read_string_inv in E; destruct E as (w & -> & Hw & ->).

Lemma len_of_nat w n : length w = N.to_nat n → len w = n.
Proof. unfold len. intros ->. apply N2Nat.id. Qed.

Lemma skip_block_inv what l l' :
  len l ≤ file_len → skip_block what file_len l = Ok (tt, l') →
  ∃ w, l = u32 (len w) ++ w ++ l' ∧ len w < 2 ^ 32.
Proof.
  intros Hl H. unfold skip_block in H. take_next H n Hn. destruct (0 <? n) eqn:E; reflect_nums.
  - apply map_err_ok in H. unfold skip_bytes in H. case_hyp H; [done|]. case_hyp H; [done|].
    injection H as <-. reflect_nums. exists (take (N.to_nat n) l0).
    assert (len (take (N.to_nat n) l0) = n) as ->.
    { apply len_of_nat. rewrite length_take. lens. }
    by rewrite take_drop.
  - injection H as <-. exists []. assert (n = 0) as -> by lia. done.
Qed.

Lemma skip_optional_inv what (present : bool) l l' :
  len l ≤ file_len →
  (if present then skip_block what file_len else reader_ret tt) l = Ok (tt, l') →
  ∃ w, l = block present w ++ l' ∧ len w < 2 ^ 32 ∧ (present = false → w = []).
Proof.
  intros Hl H. destruct present.
  - apply skip_block_inv in H as (w & -> & Hw); [|done]. exists w. unfold block. by rewrite <- app_assoc.
  - injection H as <-. by exists [].
Qed.

Lemma parse_descriptor_inv initial l d l' :
  parse_descriptor initial l = Ok (d, l') →
  ∃ w, descriptor_ok initial w ∧ l = encode_descriptor w ++ l' ∧ view_descriptor initial w = d.
Proof.
  intros H. unfold parse_descriptor in H. take_next H type Ht. take_next H n Hn.
  destruct (negb initial && (type =? 65535))%bool eqn:Ev.
  - apply andb_true_iff in Ev as [Ei%negb_true_iff ->%N.eqb_eq]. subst initial.
    unfold vendor_descriptor in H. destruct (n <? 2) eqn:E2; [done|].
    take_next H ty Hty. take_next H tlen Htl. take_string H title Hti. apply len_of_nat in Hti.
    destruct (n <? 2 + tlen) eqn:E3; [done|]. reflect_nums.
    take_next H vd Hvd. apply len_of_nat in Hvd. injection H as <- <-.
    exists (Vendor ty title vd). cbn [descriptor_ok encode_descriptor view_descriptor].
    subst tlen. rewrite Hvd. replace (2 + len title + (n - (2 + len title))) with n by lia.
    by rewrite <- !app_assoc.
  - take_next H w Hw. apply len_of_nat in Hw. injection H as <- <-. exists (Plain type w).
    cbn [descriptor_ok encode_descriptor view_descriptor]. rewrite Hw.
    rewrite <- !app_assoc. split_and!; try done. intros ->. by apply N.eqb_neq in Ev.
Qed.

Lemma read_many_inv {A B} (r : Reader B) (P : A → Prop) (f : A → chars) (g : A → B) n l ys l' :
  (∀ l y l', len l ≤ file_len → r l = Ok (y, l') → ∃ x, P x ∧ l = f x ++ l' ∧ g x = y) →
  len l ≤ file_len → read_many n r l = Ok (ys, l') →
  ∃ xs, length xs = n ∧ Forall P xs ∧ l = mjoin (f <$> xs) ++ l' ∧ g <$> xs = ys.
Proof.
  intros Hr. revert l ys. induction n as [|n IH]; intros l ys Hl H; simpl in H.
  - injection H as <- <-. by exists [].
  - apply reader_bind_inv in H as (y & l1 & H1 & H). apply Hr in H1 as (x & Px & -> & <-); [|done].
    apply reader_bind_inv in H as (ys1 & l2 & H2 & [= <- <-]).
    apply IH in H2 as (xs & <- & Pxs & -> & <-); [|lens]. exists (x :: xs).
    rewrite fmap_cons, mjoin_cons, <- app_assoc. auto.
Qed.

Lemma parse_descriptors_inv n l ds l' :
  len l ≤ file_len → parse_descriptors n l = Ok (ds, l') →
  ∃ ws, length ws = n ∧ descriptors_ok ws ∧ l = mjoin (encode_descriptor <$> ws) ++ l' ∧
        indexed view_descriptor ws = ds.
Proof.
  intros Hl H. destruct n as [|n]; simpl in H; [injection H as <- <-; by exists []|].
  apply reader_bind_inv in H as (d & l1 & H1 & H). apply parse_descriptor_inv in H1 as (w & Hw & -> & <-).
  apply reader_bind_inv in H as (ds1 & l2 & H2 & [= <- <-]).
  apply (read_many_inv _ (descriptor_ok false) encode_descriptor (view_descriptor false)) in H2
    as (ws & <- & Hws & -> & <-); [|intros; by apply parse_descriptor_inv|lens].
  exists (w :: ws). rewrite fmap_cons, mjoin_cons, <- app_assoc. by split_and!.
Qed.

Lemma parse_device_record_inv h bits l d l' :
  len l ≤ file_len →
  parse_device_record h file_len (N.to_nat ((bits + 7) / 8)) l = Ok (d, l') →
  ∃ r, record_ok (format_revision h) bits r ∧ l = encode_record (format_revision h) r ++ l' ∧
       view_record r = d.
Proof.
  intros Hl H. unfold parse_device_record in H.
  take_next H rl Hrl. take_next H dc Hdc. take_next H fl Hfl. take_next H st Hst.
  take_next H sl Hsl. take_next H dl Hdl.
  apply reader_bind_inv in H as ([] & l6 & E & H). apply skip_optional_inv in E as (m & -> & Hm & Hnm); [|lens].
  take_next H ac Hac. take_string H sv Hsv. apply len_of_nat in Hsv.
  apply reader_bind_inv in H as (ds & l9 & E & H).
  apply parse_descriptors_inv in E as (ws & Hws & Hok & -> & <-); [|lens].
  take_next H pd Hpd. apply len_of_nat in Hpd. injection H as <- <-.
  exists (mkDeviceRecord rl fl st m ac sv ws pd). split_and!; [split; simpl; try done; try lia|..].
  - intros Hrev. apply Hnm. by apply N.leb_gt.
  - unfold encode_record; simpl. rewrite Hws, Hsv, Hpd, N2Nat.id, <- !app_assoc. done.
  - done.
Qed.

Lemma parse_component_image_inv h l d l' :
  len l ≤ file_len → parse_component_image h file_len l = Ok (d, l') →
  ∃ i, image_ok (format_revision h) i ∧ l = encode_image (format_revision h) i ++ l' ∧
       view_image i = d.
Proof.
  intros Hl H. unfold parse_component_image in H.
  take_next H cl Hcl. take_next H ci Hci. take_next H cs Hcs. take_next H op Hop.
  take_next H am Ham. take_next H off Hoff. take_next H sz Hsz. take_next H vt Hvt.
  take_next H vl Hvl. take_string H v Hv. apply len_of_nat in Hv.
  apply reader_bind_inv in H as ([] & l6 & E & H). apply skip_optional_inv in E as (m & -> & Hm & Hnm); [|lens].
  injection H as <- <-. exists (mkImage cl ci cs op am off sz vt v m).
  split_and!; [split; simpl; try done; try lia|..].
  - intros Hrev. apply Hnm. by apply N.leb_gt.
  - unfold encode_image; simpl. by rewrite Hv, <- !app_assoc.
  - done.
Qed.

Lemma parse_header_inv l h l' :
  parse_header l = Ok (h, l') →
  ∃ u rv hs ts bits vt v,
    l = encode_header (mkPackage u rv hs ts bits vt v [] 0 []) ++ l' ∧
    h = view_header (mkPackage u rv hs ts bits vt v [] 0 []) ∧
    (length u = 16%nat ∧ is_valid_uuid u = true) ∧ rv < 256 ∧ hs < 65536 ∧ length ts = 13%nat ∧
    bits < 65536 ∧ vt < 256 ∧ len v < 256.
Proof.
  intros H. unfold parse_header in H. take_next H u Hu. destruct (is_valid_uuid u) eqn:Ev; [|done].
  take_next H rv Hrv. take_next H hs Hhs. take_next H ts Hts. take_next H bits Hbits.
  take_next H vt Hvt. take_next H vl Hvl. take_string H v Hv. apply len_of_nat in Hv.
  injection H as <- <-. exists u, rv, hs, ts, bits, vt, v. unfold encode_header; simpl.
  rewrite Hv, <- !app_assoc. by split_and!.
Qed.

Lemma parse_parts_inv l d l' :
  len l ≤ file_len → parse_parts file_len l = Ok (d, l') →
  ∃ p, package_ok p ∧ l = encode p ++ l' ∧ view p = d.
Proof.
  intros Hl H. unfold parse_parts in H.
  apply reader_bind_inv in H as (h & l1 & E & H).
  apply parse_header_inv in E as (u & rv & hs & ts & bits & vt & v & -> & -> & Hu & Hrv & Hhs & Hts & _ & Hvt & Hv).
  remember (view_header _) as h eqn:Hh in H.
  assert (component_bitmap_bit_length h = bits) as Ebits by by subst h.
  assert (format_revision h = rv) as Erv by by subst h.
  apply reader_bind_inv in H as (rs & l2 & E & H). unfold parse_device_records in E.
  take_next E n Hn. rewrite Ebits in E. cbv zeta in E.
  destruct (64 <? bits) eqn:Eb; [done|]. reflect_nums.
  apply (read_many_inv _ (record_ok rv bits) (encode_record rv) view_record) in E
    as (recs & Hlr & Hrecs & -> & <-);
    [|intros ?????; rewrite <- Erv; by apply parse_device_record_inv|lens].
  apply reader_bind_inv in H as ([] & l3 & E & H). rewrite Erv in E.
  assert (∃ dc, l2 = (if 1 <? rv then u8 dc else []) ++ l3 ∧ dc < 256) as (dc & -> & Hdc).
  { destruct (1 <? rv); [|injection E as <-; by exists 0]. unfold parse_downstream_area in E.
    take_next E dc Hdc. injection E as <-. eauto. }
  apply reader_bind_inv in H as (is_ & l4 & E' & H). injection H as <- <-.
  unfold parse_component_images in E'.
  take_next E' k Hk. rewrite Ebits in E'. cbv zeta in E'.
  destruct (64 <? bits) eqn:Eb2; [done|]. destruct (bits <? k) eqn:Ek; [done|]. reflect_nums.
  apply (read_many_inv _ (image_ok rv) (encode_image rv) view_image) in E'
    as (imgs & Hli & Himgs & -> & <-);
    [|intros ?????; rewrite <- Erv; by apply parse_component_image_inv|lens].
  exists (mkPackage u rv hs ts bits vt v recs dc imgs).
  split; [|split; [|by subst h]].
  { split; simpl; try done; split; first [lia | done]. }
  unfold encode, encode_header; simpl. by rewrite Hlr, Hli, !N2Nat.id, <- !app_assoc.
Qed.
End Sound.

(** C26. The parser accepts exactly the packages of the wire format, and returns
    their fields: a file parses to some data if and only if it starts with the
    encoding of a well-formed package whose fields are that data; what is after
    it does not matter. *)
Theorem parse_exact file d :
  len file ≤ U64_MAX →
  parse_file file = Ok d ↔ ∃ p rest, package_ok p ∧ file = encode p ++ rest ∧ view p = d.
Proof.
  intros Hlen. unfold parse_file. split.
  - destruct (parse_parts _ file) as [[d' rest]|] eqn:E; [|done]. intros [= <-].
    apply parse_parts_inv in E as (p & Hp & -> & <-); [|done]. by exists p, rest.
  - intros (p & rest & Hp & -> & <-). fold (len (encode p ++ rest)).
    by rewrite parse_parts_app.
Qed.

(** A package with one record, one descriptor and one image of four bytes. *)
Definition example_package : Package :=
  mkPackage (ascii_of_N <$> default [] (head PLDM_VALID_UUIDS)) 1 38 (replicate 13 Ascii.zero) 8 1
    (to_chars "v1")
    [mkDeviceRecord 23 0 1 [] [ascii_of_N 1] (to_chars "BMC") [Plain 2 (to_chars "abcd")] []]
    0 [mkImage 10 12 (replicate 4 Ascii.zero) 0 0 89 4 1 (to_chars "1.0") []].

Definition example_file : chars := encode example_package ++ to_chars "data".

Lemma example_package_ok : package_ok example_package.
Proof.
  split; try (vm_compute; by auto).
  - split; [vm_compute; done|]. constructor; [|constructor].
    split; first [split; [by vm_compute|constructor]|by vm_compute].
  - split; [vm_compute; done|]. constructor; [|constructor]. split; by vm_compute.
Qed.

Lemma parse_exact_witness :
  len example_file ≤ U64_MAX ∧ parse_file example_file = Ok (view example_package) ∧
  length (component_images (view example_package)) = 1%nat.
Proof.
  assert (len example_file ≤ U64_MAX) as Hlen by (vm_compute; discriminate).
  split; [exact Hlen|]. split; [|reflexivity]. apply (parse_exact example_file (view example_package) Hlen).
  exists example_package, (to_chars "data"). split; [exact example_package_ok|]. split; reflexivity.
Defined.
End PldmFormat.
