(* ===== verification/PldmPackage.v ===== *)
(** * PLDM firmware packages: names, extraction and the parser object

    [rust_nvfwupd/src/pldm.rs]: what is done with a parsed package.  Files are
    named nodes of a store, so that two names, or a name and an open file, can be
    the same file.  Hashing, the one regular expression, the errors of the
    operating system and of removing directories are the class [PldmEnv], of which
    no law is assumed. *)

From S2P Require Import Prelude RustStd RustStr RustBytes EndpointScope Json Pldm.
From Stdlib Require Import Ascii.
Local Open Scope string_scope.
Local Open Scope list_scope.
Local Open Scope N_scope.

Module PldmPackage.
Import Pldm.

(** ** Names of components *)

(** The number of bits set among the first [n]. *)
Fixpoint count_bits (n : nat) (ac : N) : nat :=
  match n with
  | O => O
  | S n => ((if (N.land ac 1 =? 1)%N then 1 else 0) + count_bits n (N.shiftr ac 1))%nat
  end.

Definition comma : ascii := ascii_of_N 44.
Definition colon : ascii := ascii_of_N 58.

Definition applies (r : DeviceIdRecord) (comp_index : nat) : bool :=
  let mask := N.shiftl 1 (N.of_nat comp_index) in
  N.land (applicable_components r) mask =? mask.

(** The parts of a name with commas, and which of them is the component's. *)
Definition name_parts (r : DeviceIdRecord) (comp_index : nat) : list string * nat :=
  (of_chars <$> split_on comma (to_chars (component_image_set_version_string r)),
   (count_bits (S comp_index) (applicable_components r) - 1)%nat).

Definition has_comma (s : string) : bool := contains_str (to_chars s) [comma].

Definition component_base (r : DeviceIdRecord) (comp_index : nat) : string :=
  let name := component_image_set_version_string r in
  if has_comma name
  then let '(parts, i) := name_parts r comp_index in default "" (slice_get parts i)
  else name.

(** A character is its first byte: the bytes that continue it are left out. *)
Definition sanitize_file_name_component (file_name : string) : string :=
  of_chars ((fun c => if is_ascii_alphanumeric c || Ascii.eqb c (ascii_of_N 46)
                         || Ascii.eqb c (ascii_of_N 95) || Ascii.eqb c (ascii_of_N 45)
                      then c else ascii_of_N 95) <$> List.filter (fun c => negb (is_cont c)) (to_chars file_name)).

(** The name that follows an ERoT: the part after it, up to a colon. *)
Definition erot_context (parts : list string) (i : nat) : option string :=
  match slice_get parts (S i) with
  | None => None
  | Some part =>
      let context := trim (of_chars (hd [] (split_on colon (to_chars part)))) in
      if String.eqb context "" then None else Some context
  end.

Definition component_context (r : DeviceIdRecord) (comp_index : nat) : option string :=
  if has_comma (component_image_set_version_string r) then
    let '(parts, i) := name_parts r comp_index in
    if eq_ignore_ascii_case (default "" (slice_get parts i)) "ERoT" then erot_context parts i else None
  else None.

Fixpoint get_component_name_info_for_index (records : list DeviceIdRecord) (comp_index : nat)
    : option (string * list RawDescriptor * option string) :=
  match records with
  | [] => None
  | r :: records =>
      let base := component_base r comp_index in
      if applies r comp_index && negb (String.eqb base "")
      then Some (base, descriptors r, component_context r comp_index)
      else get_component_name_info_for_index records comp_index
  end.

Definition get_component_name_for_index (records : list DeviceIdRecord) (comp_index : nat)
    : option (string * list RawDescriptor) :=
  fst <$> get_component_name_info_for_index records comp_index.

Definition get_applicable_indices (bitmap : N) (max_bits : nat) : list nat :=
  filter (fun i => N.land bitmap (N.shiftl 1 (N.of_nat i)) ≠ 0) (seq 0 max_bits).

(** ** Ranges of the images *)

Definition check_range (pkg_size total : N) (img : ComponentImageInfo) : result string N :=
  let text := "Component offset " +++ pretty (location_offset img) +++ " + size " +++
              pretty (size img) in
  let stop := location_offset img + size img in
  if U64_MAX <? stop then Err (text +++ " overflows")
  else if pkg_size <? stop then Err (text +++ " exceeds package size " +++ pretty pkg_size)
  else
    let total := total + size img in
    if U64_MAX <? total then Err "Total PLDM extracted component size overflow"
    else if pkg_size <? total
    then Err ("Total PLDM extracted component size " +++ pretty total +++
              " exceeds package size " +++ pretty pkg_size)
    else Ok total.

(** The ranges of the images that are not empty. *)
Definition ranges_of (images : list ComponentImageInfo) : list (N * N) :=
  (fun img => (location_offset img, location_offset img + size img)) <$>
    filter (fun img => size img ≠ 0) images.

Definition start_le (a b : N * N) : Prop := a.1 ≤ b.1.
#[global] Instance start_le_dec a b : Decision (start_le a b) := decide (a.1 ≤ b.1).

(** [windows(2)] of the sorted ranges. *)
Fixpoint check_windows (l : list (N * N)) : result string unit :=
  match l with
  | a :: (b :: _) as l' =>
      if b.1 <? a.2
      then Err ("PLDM component image ranges overlap: " +++ pretty a.1 +++ ".." +++ pretty a.2 +++
                " overlaps " +++ pretty b.1 +++ ".." +++ pretty b.2)
      else check_windows l'
  | _ => Ok tt
  end.

Definition validate_component_image_ranges (images : list ComponentImageInfo) (pkg_size : N)
    : result string unit :=
  let? _ := try_fold (check_range pkg_size) 0 images in
  check_windows (merge_sort start_le (ranges_of images)).

(** ** Files *)

(** Named nodes and what they contain. *)
Record Fs := mkFs {
  names : gmap string nat;
  nodes : gmap nat chars;
}.

Definition contents (fs : Fs) (node : nat) : chars := default [] (nodes fs !! node).

(** [File::create]: an existing file is truncated. *)
Definition create (fs : Fs) (path : string) : Fs * nat :=
  match names fs !! path with
  | Some node => (mkFs (names fs) (<[node := []]> (nodes fs)), node)
  | None =>
      let node := fresh (dom (nodes fs)) in
      (mkFs (<[path := node]> (names fs)) (<[node := []]> (nodes fs)), node)
  end.

Definition append (fs : Fs) (node : nat) (bytes : chars) : Fs :=
  mkFs (names fs) (<[node := contents fs node ++ bytes]> (nodes fs)).

Definition rename (fs : Fs) (from to : string) : Fs :=
  match names fs !! from with
  | Some node => mkFs (<[to := node]> (delete from (names fs))) (nodes fs)
  | None => fs
  end.

(** ** Paths *)

(** [Path::components] of a path without a separator. *)
Inductive Component :=
| CurDir
| ParentDir
| Normal (name : string).

Definition components (name : string) : list Component :=
  default [Normal name] (match_str name [("", []); (".", [CurDir]); ("..", [ParentDir])]).

(** [Path::join] with such a path. *)
Definition path_join (dir name : string) : string :=
  if String.eqb dir "" then name
  else if ends_with (to_chars dir) [ascii_of_N 47] then dir +++ name
  else dir +++ "/" +++ name.

Definition extracted_file_path (out_dir file_name : string) : result string string :=
  let l := to_chars file_name in
  if contains_str l [ascii_of_N 47] || contains_str l [backslash]
  then Err ("Unsafe PLDM output file name contains path separators: " +++ file_name)
  else
    match components file_name with
    | [Normal _] => Ok (path_join out_dir file_name)
    | _ => Err ("Unsafe PLDM output file name contains path components: " +++ file_name)
    end.

(** ** Extraction *)

Class PldmEnv := {
  sha256_hex : chars → string;
  collapse_underscores : string → string;
  open_error : string → string;
  create_dir_error : string → option string;
  create_error : string → option string;
  rename_error : string → string → option string;
  write_error : Fs → nat → chars → option (nat * string);
  remove_dir_fails : string → bool;
}.

Section Env.
Context `{PldmEnv}.

Fixpoint get_image_file_name (records : list DeviceIdRecord) (comp_index : nat) (version : string)
    : string :=
  match records with
  | [] => ""
  | r :: records =>
      let base := component_base r comp_index in
      if applies r comp_index && negb (String.eqb base "") then
        let fname := replace "_N/A" "" (replace ":" "_" base) in
        let fname := sanitize_file_name_component (fname +++ "_" +++ version) in
        collapse_underscores
          (if starts_with (to_chars fname) (to_chars "FW-Package") then fname +++ ".fwpkg"
           else fname +++ "_image.bin")
      else get_image_file_name records comp_index version
  end.

(** The size of the buffer. *)
Definition BUF_LEN : nat := N.to_nat 8192.

(** The loop that copies an image, at most 8192 bytes at a time; the last result
    are the bytes that were hashed.  A write that fails may have written a part. *)
Fixpoint copy_loop (fuel : nat) (fs : Fs) (source out : nat) (pos remaining : nat) (hashed : chars)
    : Fs * result string chars :=
  match fuel with
  | O => (fs, Ok hashed)
  | S fuel =>
      if (remaining =? 0)%nat then (fs, Ok hashed)
      else
        let to_read := (remaining `min` BUF_LEN)%nat in
        match read_exact to_read (drop pos (contents fs source)) with
        | Err e => (fs, Err (read_error e))
        | Ok (chunk, _) =>
            match write_error fs out chunk with
            | Some (n, e) => (append fs out (take n chunk), Err ("Write error: " +++ e))
            | None =>
                copy_loop fuel (append fs out chunk) source out (pos + to_read) (remaining - to_read)
                  (hashed ++ chunk)
            end
        end
  end.

Definition copy_image (fs : Fs) (source out : nat) (img : ComponentImageInfo)
    : Fs * result string chars :=
  let remaining := N.to_nat (size img) in
  copy_loop (S remaining) fs source out (N.to_nat (location_offset img)) remaining [].

Definition final_name (base_name prefix : string) : string :=
  match strip_suffix (to_chars base_name) (to_chars "_image.bin") with
  | Some stripped => of_chars stripped +++ "_" +++ prefix +++ "_image.bin"
  | None =>
      match strip_suffix (to_chars base_name) (to_chars ".fwpkg") with
      | Some stripped => of_chars stripped +++ "_" +++ prefix +++ ".fwpkg"
      | None => base_name +++ "_" +++ prefix
      end
  end.

Definition with_file (img : ComponentImageInfo) (path sha : string) : ComponentImageInfo :=
  mkComponentImageInfo (image_identifier img) (location_offset img) (size img)
    (image_version_string img) (Some path) (Some sha) (Some (size img)).

(** The file is renamed to have the start of its hash in its name. *)
Definition rename_extracted (fs : Fs) (out_dir base_name tmp_path : string) (hashed : chars)
    (img : ComponentImageInfo) : Fs * result string ComponentImageInfo :=
  let sha_hex := sha256_hex hashed in
  let prefix := of_chars (take 8 (to_chars sha_hex)) in
  match extracted_file_path out_dir (final_name base_name prefix) with
  | Err e => (fs, Err e)
  | Ok final_path =>
      if String.eqb final_path tmp_path then (fs, Ok (with_file img final_path sha_hex))
      else
        match rename_error tmp_path final_path with
        | Some e =>
            (fs, Err ("Cannot rename " +++ tmp_path +++ " -> " +++ final_path +++ ": " +++ e))
        | None => (rename fs tmp_path final_path, Ok (with_file img final_path sha_hex))
        end
  end.

Definition extract_image (fs : Fs) (source : nat) (records : list DeviceIdRecord) (out_dir : string)
    (index : nat) (img : ComponentImageInfo) : Fs * result string ComponentImageInfo :=
  let base_name := get_image_file_name records index (image_version_string img) in
  if String.eqb base_name "" then (fs, Ok img)
  else
    match extracted_file_path out_dir base_name with
    | Err e => (fs, Err e)
    | Ok tmp_path =>
        match create_error tmp_path with
        | Some e => (fs, Err ("Cannot create " +++ tmp_path +++ ": " +++ e))
        | None =>
            let '(fs, out) := create fs tmp_path in
            match copy_image fs source out img with
            | (fs, Err e) => (fs, Err e)
            | (fs, Ok hashed) => rename_extracted fs out_dir base_name tmp_path hashed img
            end
        end
    end.

Fixpoint extract_images (fs : Fs) (source : nat) (records : list DeviceIdRecord) (out_dir : string)
    (index : nat) (images : list ComponentImageInfo) : Fs * result string (list ComponentImageInfo) :=
  match images with
  | [] => (fs, Ok [])
  | img :: images =>
      match extract_image fs source records out_dir index img with
      | (fs, Err e) => (fs, Err e)
      | (fs, Ok img) =>
          match extract_images fs source records out_dir (S index) images with
          | (fs, Err e) => (fs, Err e)
          | (fs, Ok images) => (fs, Ok (img :: images))
          end
      end
  end.

Definition extract_files (fs : Fs) (source : nat) (images : list ComponentImageInfo)
    (records : list DeviceIdRecord) (package_path out_dir : string)
    : Fs * result string (list ComponentImageInfo) :=
  let pkg_size := match names fs !! package_path with
                  | Some node => N.of_nat (length (contents fs node))
                  | None => 0
                  end in
  match validate_component_image_ranges images pkg_size with
  | Err e => (fs, Err e)
  | Ok _ =>
      match create_dir_error out_dir with
      | Some e => (fs, Err ("Cannot create dir: " +++ e))
      | None => extract_images fs source records out_dir 0 images
      end
  end.

(** [PldmParsedData::parse]. *)
Definition parse (fs : Fs) (path : string) (do_unpack : bool) (out_dir : string)
    : Fs * result string PldmParsedData :=
  match names fs !! path with
  | None => (fs, Err ("Cannot open " +++ path +++ ": " +++ open_error path))
  | Some source =>
      match parse_file (contents fs source) with
      | Err e => (fs, Err e)
      | Ok parsed =>
          if do_unpack then
            match extract_files fs source (component_images parsed) (device_records parsed) path
                    out_dir with
            | (fs, Err e) => (fs, Err e)
            | (fs, Ok images) =>
                (fs, Ok (mkPldmParsedData (header parsed) (device_records parsed) images))
            end
          else (fs, Ok parsed)
      end
  end.
End Env.
End PldmPackage.
