(* ===== verification/PldmTheorems.v ===== *)
(** * Properties of PLDM packages: ranges and names *)

From S2P Require Import Prelude RustStd RustStr RustBytes.
From S2P Require Import EndpointScope Json Pldm PldmFormat PldmPackage.
From Stdlib Require Import Ascii.
Local Open Scope list_scope.
Local Open Scope N_scope.

Module PldmTheorems.
Import Pldm PldmFormat PldmPackage.

(** ** Ranges *)

Definition total_size (images : list ComponentImageInfo) : N :=
  foldr (fun img n => size img + n) 0 images.

Lemma check_ranges pkg_size total images t :
  Forall (fun img => location_offset img < 2 ^ 32 ∧ size img < 2 ^ 32) images →
  pkg_size ≤ U64_MAX - 2 ^ 32 →  total ≤ pkg_size →
  try_fold (check_range pkg_size) total images = Ok t ↔
  t = total + total_size images ∧ t ≤ pkg_size ∧
  Forall (fun img => location_offset img + size img ≤ pkg_size) images.
Proof.
  intros Hb Hp. revert total. induction Hb as [|img images [Ho Hs] Hb IH]; intros total Ht; simpl.
  - split; [intros [= <-]; split_and!; [lia|lia|constructor]|intros (-> & _); f_equal; lia].
  - unfold check_range at 1. unfold U64_MAX in *.
    destruct (_ <? location_offset img + size img) eqn:E1; reflect_nums; [lia|].
    destruct (pkg_size <? location_offset img + size img) eqn:E2; reflect_nums; simpl.
    { split; [done|]. intros (_ & _ & Hf%Forall_cons). destruct Hf. lia. }
    destruct (_ <? total + size img) eqn:E3; reflect_nums; [lia|].
    destruct (pkg_size <? total + size img) eqn:E4; reflect_nums; simpl.
    { split; [done|]. intros (-> & ? & _). lia. }
    rewrite IH by lia. rewrite Forall_cons, N.add_assoc. naive_solver.
Qed.

(** Two ranges have no byte in common. *)
Definition apart (a b : N * N) : Prop := a.2 ≤ b.1 ∨ b.2 ≤ a.1.

Definition nonempty (a : N * N) : Prop := a.1 < a.2.

Lemma check_windows_ok l :
  Forall nonempty l → StronglySorted start_le l →
  check_windows l = Ok tt ↔ ForallOrdPairs apart l.
Proof.
  unfold nonempty, apart, start_le. intros Hn Hs. induction Hs as [|a l Hs IH Ha].
  { split; [constructor|done]. }
  apply Forall_cons in Hn as [Hna Hn]. specialize (IH Hn).
  destruct l as [|b l]; [split; [repeat constructor|done]|].
  apply Forall_cons in Hn as [Hnb Hn]. apply Forall_cons in Ha as [Hab Hal].
  cbn [check_windows]. destruct (b.1 <? a.2) eqn:E; reflect_nums.
  - split; [done|]. intros Ho. inversion Ho as [|?? Hf _]; subst.
    apply Forall_cons in Hf as [Hf _]. lia.
  - rewrite IH. split; intros Ho; [|by inversion Ho].
    inversion Ho as [|?? Hf Ho']; subst. constructor; [|done]. constructor; [by left|].
    rewrite Forall_forall in Hf, Hal, Hn |- *. intros c Hc. left.
    specialize (Hf c Hc). specialize (Hn c Hc). inversion Hs as [|?? _ Hbc]; subst.
    rewrite Forall_forall in Hbc. specialize (Hbc c Hc). simpl in *. lia.
Qed.

Lemma apart_perm l k : l ≡ₚ k → ForallOrdPairs apart l → ForallOrdPairs apart k.
Proof.
  induction 1 as [|a l k Hp IH|a b l|]; intros Ho; auto.
  - inversion Ho; subst. constructor; [by rewrite <- Hp|auto].
  - inversion Ho as [|?? Hf Ho']; subst. inversion Ho' as [|?? Hg Ho'']; subst.
    apply Forall_cons in Hf as [Hba Hf]. constructor; [|by constructor].
    constructor; [unfold apart in *; lia|done].
Qed.

Definition range (img : ComponentImageInfo) : N * N :=
  (location_offset img, location_offset img + size img).

(** No two images share a byte. *)
Definition disjoint_images (images : list ComponentImageInfo) : Prop :=
  ∀ i j a b, (i < j)%nat → images !! i = Some a → images !! j = Some b → size a ≠ 0 → size b ≠ 0 →
  apart (range a) (range b).

Lemma ranges_apart images : ForallOrdPairs apart (ranges_of images) ↔ disjoint_images images.
Proof.
  unfold ranges_of. fold range. induction images as [|img images IH].
  { split; [by intros _ i j a b _ Hi|constructor]. }
  rewrite filter_cons. split.
  - intros Ho i j a b Hij Hi Hj Ha Hb. destruct i as [|i]; simpl in Hi.
    + injection Hi as <-. rewrite decide_True in Ho by done. inversion Ho as [|?? Hf _]; subst.
      destruct j as [|j]; [lia|]. simpl in Hj. rewrite Forall_fmap, Forall_forall in Hf.
      apply Hf, list_elem_of_filter. split; [done|by eapply list_elem_of_lookup_2].
    + destruct j as [|j]; [lia|]. simpl in Hj.
      assert (ForallOrdPairs apart (range <$> filter (fun img => size img ≠ 0) images)) as Ho'.
      { destruct (decide (size img ≠ 0)); [by inversion Ho|done]. }
      apply (proj1 IH Ho' i j); auto with lia.
  - intros Hd. assert (disjoint_images images) as Hd'.
    { intros i j a b Hij Hi Hj. apply (Hd (S i) (S j)); auto with lia. }
    apply IH in Hd'. destruct (decide (size img ≠ 0)) as [Hz|]; [|done]. constructor; [|done].
    apply Forall_fmap, Forall_forall. intros b [Hb [j Hj]%list_elem_of_lookup]%list_elem_of_filter.
    by apply (Hd 0%nat (S j)); [lia|..].
Qed.

#[local] Instance start_le_total : Total start_le.
Proof. intros a b. unfold start_le. lia. Qed.

#[local] Instance start_le_trans : Transitive start_le.
Proof. intros a b c. unfold start_le. lia. Qed.

(** C38. The check of the image ranges is exact: it passes if and only if every
    image lies within the package, the images together are not larger than the
    package, and no two of them share a byte. *)
Theorem ranges_exact images pkg_size :
  Forall (fun img => location_offset img < 2 ^ 32 ∧ size img < 2 ^ 32) images →
  pkg_size ≤ U64_MAX - 2 ^ 32 →
  validate_component_image_ranges images pkg_size = Ok tt ↔
  Forall (fun img => location_offset img + size img ≤ pkg_size) images ∧
  total_size images ≤ pkg_size ∧ disjoint_images images.
Proof.
  intros Hb Hp. unfold validate_component_image_ranges.
  pose proof (check_ranges pkg_size 0 images) as Hc.
  assert (check_windows (merge_sort start_le (ranges_of images)) = Ok tt ↔ disjoint_images images) as Hw.
  { rewrite check_windows_ok.
    - rewrite <- ranges_apart. split; apply apart_perm; [|symmetry]; apply merge_sort_Permutation.
    - rewrite merge_sort_Permutation. unfold ranges_of. apply Forall_fmap, Forall_forall.
      intros img [Hz _]%list_elem_of_filter. unfold nonempty; simpl. lia.
    - apply StronglySorted_merge_sort; apply _. }
  destruct (try_fold (check_range pkg_size) 0 images) as [t|e]; simpl.
  - destruct (proj1 (Hc t Hb Hp ltac:(lia)) eq_refl) as (-> & ? & ?). rewrite Hw. naive_solver.
  - split; [done|]. intros (Hf & Ht & _).
    discriminate (proj2 (Hc (0 + total_size images) Hb Hp ltac:(lia)) (conj eq_refl (conj Ht Hf))).
Qed.

Lemma ranges_exact_witness :
  let img offset size := mkComponentImageInfo 1 offset size "1.0" None None None in
  Forall (fun img => location_offset img < 2 ^ 32 ∧ size img < 2 ^ 32) [img 20 10; img 10 10; img 15 0] ∧
  30 ≤ U64_MAX - 2 ^ 32 ∧
  disjoint_images [img 20 10; img 10 10; img 15 0].
Proof.
  intros img.
  assert (Forall (fun img => location_offset img < 2 ^ 32 ∧ size img < 2 ^ 32)
    [img 20 10; img 10 10; img 15 0]) as Hb by (repeat constructor).
  assert (30 ≤ U64_MAX - 2 ^ 32) as Hp by (vm_compute; discriminate).
  split; [exact Hb|]. split; [exact Hp|].
  refine (proj2 (proj2 (proj1 (ranges_exact _ 30 Hb Hp) _))). vm_compute. reflexivity.
Defined.
End PldmTheorems.
