(* ===== verification/PldmExtract.v ===== *)
(** * Extraction of PLDM packages

    Extraction writes into the output directory and nowhere else, and what it
    writes are the bytes of the images. *)

From S2P Require Import Prelude RustStd RustStr RustBytes.
From S2P Require Import EndpointScope Json Pldm PldmFormat PldmPackage PldmTheorems.
From Stdlib Require Import Ascii.
Local Open Scope list_scope.

Module PldmExtract.
Import Pldm PldmFormat PldmPackage PldmTheorems.

(** The name of a file in a directory, and its path. *)
Definition plain (name : string) : Prop :=
  (ascii_of_N 47 ∉ to_chars name) ∧ (backslash ∉ to_chars name) ∧
  name ≠ "" ∧ name ≠ "." ∧ name ≠ "..".

Definition inside (out_dir path : string) : Prop := ∃ name, plain name ∧ path = path_join out_dir name.

Lemma extracted_file_path_ok out_dir name path :
  extracted_file_path out_dir name = Ok path ↔ plain name ∧ path = path_join out_dir name.
Proof.
  unfold extracted_file_path, plain, components.
  destruct (contains_str _ [ascii_of_N 47]) eqn:E1; simpl.
  { apply contains_char in E1. naive_solver. }
  destruct (contains_str _ [backslash]) eqn:E2; simpl.
  { apply contains_char in E2. naive_solver. }
  assert (ascii_of_N 47 ∉ to_chars name) by (intros Hc%contains_char; congruence).
  assert (backslash ∉ to_chars name) by (intros Hc%contains_char; congruence).
  cbn [match_str]. destruct (String.eqb_spec name ""); simpl; [naive_solver|].
  destruct (String.eqb_spec name "."); simpl; [naive_solver|].
  destruct (String.eqb_spec name ".."); simpl; [naive_solver|].
  split; [intros [= <-]; by split_and!|by intros [_ ->]].
Qed.

Section Extract.
Context `{PldmEnv} (out_dir : string).
Abbreviation inside := (inside out_dir).

(** ** Nothing outside is touched *)

(** A node that extraction may write to: a new one, or one that a file of the
    directory had. *)
Definition touched (fs0 : Fs) (n : nat) : Prop :=
  n ∉ dom (nodes fs0) ∨ ∃ q, inside q ∧ names fs0 !! q = Some n.

Record confined (fs0 fs : Fs) : Prop := mk_confined {
  cf_dom : dom (nodes fs0) ⊆ dom (nodes fs);
  cf_names : ∀ p, ¬ inside p → names fs !! p = names fs0 !! p;
  cf_touched : ∀ p n, inside p → names fs !! p = Some n → touched fs0 n;
  cf_nodes : ∀ n, ¬ touched fs0 n → nodes fs !! n = nodes fs0 !! n;
}.

Lemma confined_refl fs : confined fs fs.
Proof. split; try done. intros p n Hp Hn. right. eauto. Qed.

Lemma confined_create fs0 fs p fs' n :
  confined fs0 fs → inside p → create fs p = (fs', n) → confined fs0 fs' ∧ touched fs0 n.
Proof.
  intros [Hd Hn Ht Hc] Hp E. unfold create in E. destruct (names fs !! p) as [m|] eqn:Em.
  - injection E as <- <-. assert (touched fs0 m) as Hm by eauto. split; [|done].
    split; simpl; auto; [set_solver|]. intros k Hk. rewrite lookup_insert_ne by (by intros ->). auto.
  - injection E as <- <-. pose proof (is_fresh (dom (nodes fs))) as Hfr.
    assert (touched fs0 (fresh (dom (nodes fs)))) as Hm by (left; set_solver). split; [|done].
    split; simpl.
    + set_solver.
    + intros q Hq. rewrite lookup_insert_ne by (by intros ->). auto.
    + intros q k Hq Hk. destruct (decide (q = p)) as [->|]; simplify_map_eq; eauto.
    + intros k Hk. rewrite lookup_insert_ne by (by intros <-). auto.
Qed.

Lemma confined_append fs0 fs n bytes :
  confined fs0 fs → touched fs0 n → confined fs0 (append fs n bytes).
Proof.
  intros [Hd Hn Ht Hc] Hm. split; simpl; auto; [set_solver|].
  intros k Hk. rewrite lookup_insert_ne by (by intros ->). auto.
Qed.

Lemma confined_rename fs0 fs p q :
  confined fs0 fs → inside p → inside q → confined fs0 (rename fs p q).
Proof.
  intros [Hd Hn Ht Hc] Hp Hq. unfold rename. destruct (names fs !! p) as [m|] eqn:Em; [|done].
  split; simpl; auto.
  - intros k Hk. rewrite lookup_insert_ne, lookup_delete_ne by (by intros ->). auto.
  - intros k n Hk Hkn. destruct (decide (k = q)) as [->|]; [|destruct (decide (k = p)) as [->|]];
      simplify_map_eq; eauto.
Qed.

Lemma confined_copy fs0 fuel fs source out pos remaining hashed :
  confined fs0 fs → touched fs0 out →
  confined fs0 (copy_loop fuel fs source out pos remaining hashed).1.
Proof.
  intros Hc Ht. revert fs pos remaining hashed Hc. induction fuel as [|fuel IH]; intros; simpl; [done|].
  destruct (remaining =? 0)%nat; [done|]. destruct (read_exact _ _) as [[chunk ?]|]; [|done].
  destruct (write_error _ _ _) as [[k e]|]; [|apply IH]; by apply confined_append.
Qed.

Lemma confined_extract_image fs0 fs source records index img :
  confined fs0 fs → confined fs0 (extract_image fs source records out_dir index img).1.
Proof.
  intros Hc. unfold extract_image. destruct (String.eqb _ _); [done|].
  destruct (extracted_file_path _ _) as [tmp|] eqn:Et; [|done].
  apply extracted_file_path_ok in Et as [Hp ->]. destruct (create_error _); [done|].
  destruct (create _ _) as [fs1 out] eqn:Ec.
  assert (inside (path_join out_dir (get_image_file_name records index (image_version_string img)))) as Hin
    by by eexists.
  destruct (confined_create _ _ _ _ _ Hc Hin Ec) as [Hc1 Hto]. unfold copy_image.
  pose proof (confined_copy fs0 (S (N.to_nat (size img))) fs1 source out
    (N.to_nat (location_offset img)) (N.to_nat (size img)) [] Hc1 Hto) as Hc2.
  destruct (copy_loop _ _ _ _ _ _ _) as [fs2 [hashed|]]; [|done]. simpl in Hc2. unfold rename_extracted.
  destruct (extracted_file_path out_dir (final_name _ _)) as [final|] eqn:Ef; [|done].
  apply extracted_file_path_ok in Ef as [Hpf ->]. destruct (String.eqb _ _); [done|].
  destruct (rename_error _ _); [done|]. apply confined_rename; [done..|]. by eexists.
Qed.

Lemma confined_extract_images fs0 fs source records index images :
  confined fs0 fs → confined fs0 (extract_images fs source records out_dir index images).1.
Proof.
  revert fs index. induction images as [|img images IH]; intros fs index Hc; simpl; [done|].
  pose proof (confined_extract_image fs0 fs source records index img Hc) as H1.
  destruct (extract_image _ _ _ _ _ _) as [fs1 [img'|]]; [|done]. simpl in H1.
  specialize (IH fs1 (S index) H1). by destruct (extract_images _ _ _ _ _ _) as [fs2 [?|]].
Qed.

Lemma confined_parse fs path unpack : confined fs (parse fs path unpack out_dir).1.
Proof.
  pose proof (confined_refl fs) as Hr. unfold parse. destruct (names fs !! path) as [source|]; [|done].
  destruct (parse_file _) as [d|]; [|done]. destruct unpack; [|done]. unfold extract_files.
  destruct (validate_component_image_ranges _ _); [|done]. destruct (create_dir_error _); [done|].
  pose proof (confined_extract_images fs fs source (device_records d) 0 (component_images d) Hr) as H1.
  by destruct (extract_images _ _ _ _ _ _) as [fs2 [?|]].
Qed.

(** ** What is written *)

(** No dangling name, and no node with two names. *)
Record fs_ok (fs : Fs) : Prop := mk_fs_ok {
  fo_nodes : ∀ p n, names fs !! p = Some n → n ∈ dom (nodes fs);
  fo_inj : ∀ p q n, names fs !! p = Some n → names fs !! q = Some n → p = q;
}.

Definition file_at (fs : Fs) (path : string) : option chars := names fs !! path ≫= (nodes fs !!.).

Lemma file_at_Some fs p c : file_at fs p = Some c ↔ ∃ n, names fs !! p = Some n ∧ nodes fs !! n = Some c.
Proof. unfold file_at. destruct (names fs !! p); simpl; naive_solver. Qed.

(** Only the node [n] changed, and it is the one at [p]. *)
Record writes (p : string) (n : nat) (fs fs' : Fs) : Prop := mk_writes {
  wr_ok : fs_ok fs';
  wr_here : names fs' !! p = Some n;
  wr_names : ∀ q, q ≠ p → names fs' !! q = names fs !! q;
  wr_nodes : ∀ m, m ≠ n → nodes fs' !! m = nodes fs !! m;
}.

Lemma writes_other p n fs fs' q : writes p n fs fs' → q ≠ p → file_at fs' q = file_at fs q.
Proof.
  intros [Hok Hp Hn Hm] Hq. unfold file_at. rewrite Hn by done.
  destruct (names fs !! q) as [k|] eqn:E; [|done]. simpl. apply Hm. intros ->.
  apply Hq, (fo_inj _ Hok _ _ n); [by rewrite Hn|done].
Qed.

Lemma create_writes fs p fs' n :
  fs_ok fs → create fs p = (fs', n) → writes p n fs fs' ∧ contents fs' n = [].
Proof.
  intros [Hd Hi] E. unfold create in E. destruct (names fs !! p) as [m|] eqn:Em.
  - injection E as <- <-. split; [|unfold contents; simpl; by simplify_map_eq].
    split; simpl; auto; [|intros k Hk; by simplify_map_eq].
    split; simpl; [|done]. intros q k Hq. apply Hd in Hq. set_solver.
  - injection E as <- <-. pose proof (is_fresh (dom (nodes fs))) as Hfr.
    remember (fresh (dom (nodes fs))) as n eqn:En. clear En.
    split; [|unfold contents; simpl; by simplify_map_eq].
    split; simpl; [|by simplify_map_eq|intros; by simplify_map_eq|intros; by simplify_map_eq].
    split; simpl.
    + intros q k Hq. destruct (decide (q = p)) as [->|]; simplify_map_eq; [set_solver|].
      apply Hd in Hq. set_solver.
    + intros q r k Hq Hr. destruct (decide (q = p)) as [->|], (decide (r = p)) as [->|];
        simplify_map_eq; try done; [by apply Hd in Hr|by apply Hd in Hq|eauto].
Qed.

Lemma append_writes fs0 fs p n bytes :
  writes p n fs0 fs →
  writes p n fs0 (append fs n bytes) ∧ contents (append fs n bytes) n = contents fs n ++ bytes.
Proof.
  intros [[Hd Hi] Hp Hn Hm]. split; [|unfold contents; simpl; by simplify_map_eq].
  split; simpl; auto.
  - split; simpl; [|done]. intros q k Hq%Hd. set_solver.
  - intros m Hne. rewrite lookup_insert_ne by done. auto.
Qed.

(** A loop that does not fail copies the range, however it is cut into chunks. *)
Lemma copy_loop_ok fuel fs0 fs source p out pos remaining hashed fs' h :
  writes p out fs0 fs → source ≠ out → (remaining < fuel)%nat →
  copy_loop fuel fs source out pos remaining hashed = (fs', Ok h) →
  let slice := take remaining (drop pos (contents fs source)) in
  h = hashed ++ slice ∧ writes p out fs0 fs' ∧ contents fs' out = contents fs out ++ slice.
Proof.
  revert fs pos remaining hashed. induction fuel as [|fuel IH]; intros fs pos remaining hashed Hw Hne Hf; [lia|].
  simpl. destruct (Nat.eqb_spec remaining 0) as [->|Hr].
  { intros [= -> ->]. by rewrite !app_nil_r. }
  set (k := (remaining `min` BUF_LEN)%nat).
  assert (0 < k ≤ remaining)%nat as Hk by (unfold k, BUF_LEN; lia).
  unfold read_exact. destruct (k <=? _)%nat; [|done]. destruct (write_error _ _ _) as [[? ?]|]; [done|].
  destruct (append_writes _ _ _ _ (take k (drop pos (contents fs source))) Hw) as [Hw' Ec].
  assert (contents (append fs out (take k (drop pos (contents fs source)))) source = contents fs source) as Es.
  { unfold contents, append; simpl. by rewrite lookup_insert_ne by done. }
  intros E. destruct (IH _ (pos + k)%nat (remaining - k)%nat _ Hw' Hne ltac:(lia) E) as (-> & Hw'' & Ec').
  rewrite Ec', Ec, Es, <- !app_assoc.
  assert (take k (drop pos (contents fs source)) ++ take (remaining - k) (drop (pos + k) (contents fs source)) =
          take remaining (drop pos (contents fs source))) as ->; [|done].
  rewrite <- drop_drop, take_take_drop. f_equal; lia.
Qed.

Lemma rename_moves fs p q n :
  fs_ok fs → names fs !! p = Some n → p ≠ q →
  fs_ok (rename fs p q) ∧ file_at (rename fs p q) q = file_at fs p ∧
  ∀ r, r ≠ p → r ≠ q → names (rename fs p q) !! r = names fs !! r ∧
                       file_at (rename fs p q) r = file_at fs r.
Proof.
  intros [Hd Hi] Hp Hne. unfold rename, file_at. rewrite Hp. simpl. split_and!.
  - split; simpl.
    + intros r k Hr. destruct (decide (r = q)) as [->|]; [|destruct (decide (r = p)) as [->|]];
        simplify_map_eq; eauto.
    + intros r s k Hr Hs. destruct (decide (r = q)) as [->|], (decide (s = q)) as [->|]; simplify_map_eq; try done.
      * destruct (decide (s = p)) as [->|]; simplify_map_eq. by rewrite (Hi p s k) in *.
      * destruct (decide (r = p)) as [->|]; simplify_map_eq. by rewrite (Hi p r k) in *.
      * destruct (decide (r = p)) as [->|], (decide (s = p)) as [->|]; simplify_map_eq. eauto.
  - by simplify_map_eq.
  - intros r Hrp Hrq. by simplify_map_eq.
Qed.

(** The bytes of an image. *)
Definition slice (file : chars) (img : ComponentImageInfo) : chars :=
  take (N.to_nat (size img)) (drop (N.to_nat (location_offset img)) file).

Lemma extract_image_ok fs source path file records index img fs' img' :
  fs_ok fs → names fs !! path = Some source → nodes fs !! source = Some file → ¬ inside path →
  extract_image fs source records out_dir index img = (fs', Ok img') →
  let base := get_image_file_name records index (image_version_string img) in
  fs_ok fs' ∧
  if String.eqb base "" then fs' = fs ∧ img' = img
  else ∃ p, inside p ∧ img' = with_file img p (sha256_hex (slice file img)) ∧
            inside (path_join out_dir base) ∧ file_at fs' p = Some (slice file img) ∧
            ∀ q, q ≠ path_join out_dir base → q ≠ p →
                 names fs' !! q = names fs !! q ∧ file_at fs' q = file_at fs q.
Proof.
  intros Hok Hs Hf Hout E base. unfold extract_image in E. fold base in E.
  destruct (String.eqb base ""); [by injection E as <- <-|].
  destruct (extracted_file_path out_dir base) as [tmp|] eqn:Et; [|done].
  apply extracted_file_path_ok in Et as [Hp ->]. destruct (create_error _); [done|].
  destruct (create fs _) as [fs1 out] eqn:Ec. destruct (create_writes _ _ _ _ Hok Ec) as [Hw Eout].
  assert (path ≠ path_join out_dir base) as Hpath by (intros ->; apply Hout; by eexists).
  pose proof (writes_other _ _ _ _ _ Hw Hpath) as Hsame.
  assert (source ≠ out) as Hne.
  { intros ->. apply Hpath, (fo_inj _ (wr_ok _ _ _ _ Hw) _ _ out); [|apply Hw].
    by rewrite (wr_names _ _ _ _ Hw). }
  assert (contents fs1 source = file) as Hsrc.
  { unfold contents. by rewrite (wr_nodes _ _ _ _ Hw), Hf. }
  destruct (copy_image fs1 source out img) as [fs2 [hashed|]] eqn:Ecopy; [|done].
  apply (copy_loop_ok _ _ _ _ _ _ _ _ _ _ _ Hw Hne (Nat.lt_succ_diag_r _)) in Ecopy as (-> & Hw2 & Eout2).
  rewrite Hsrc in E. rewrite Hsrc, Eout in Eout2. simpl in E, Eout2. fold (slice file img) in E, Eout2.
  assert (file_at fs2 (path_join out_dir base) = Some (slice file img)) as Htmp.
  { apply file_at_Some. exists out. split; [apply Hw2|]. unfold contents in Eout2.
    assert (is_Some (nodes fs2 !! out)) as [c Hc].
    { apply elem_of_dom, (fo_nodes _ (wr_ok _ _ _ _ Hw2) (path_join out_dir base)), Hw2. }
    by rewrite Hc in Eout2 |- *; simpl in Eout2; subst. }
  unfold rename_extracted in E.
  destruct (extracted_file_path out_dir (final_name _ _)) as [final|] eqn:Ef; [|done].
  apply extracted_file_path_ok in Ef as [Hpf ->].
  destruct (String.eqb_spec (path_join out_dir (final_name base (of_chars (take 8 (to_chars (sha256_hex (slice file img)))))))
    (path_join out_dir base)) as [Eq|Hneq].
  - injection E as <- <-. rewrite Eq. split; [apply Hw2|]. eexists. split_and!; [|done|by exists base|done|]; [by eexists|].
    intros q Hq _. split; [by apply (wr_names _ _ _ _ Hw2)|by eapply writes_other].
  - destruct (rename_error _ _); [done|]. injection E as <- <-.
    destruct (rename_moves fs2 _ _ out (wr_ok _ _ _ _ Hw2) (wr_here _ _ _ _ Hw2) (not_eq_sym Hneq)) as (Hok3 & Hfin & Hrest).
    split; [done|]. eexists. split_and!; [|done|by exists base|by rewrite Hfin|]; [by eexists|].
    intros q Hq1 Hq2. destruct (Hrest q Hq1 Hq2) as [-> ->].
    split; [by apply (wr_names _ _ _ _ Hw2)|by eapply writes_other].
Qed.

(** What extraction did for one image, and the paths it wrote for it. *)
Definition extracted (file : chars) (records : list DeviceIdRecord) (index : nat)
    (img img' : ComponentImageInfo) : Prop :=
  if String.eqb (get_image_file_name records index (image_version_string img)) "" then img' = img
  else ∃ p, inside p ∧ img' = with_file img p (sha256_hex (slice file img)).

Definition written (records : list DeviceIdRecord) (index : nat) (img img' : ComponentImageInfo)
    : list string :=
  let base := get_image_file_name records index (image_version_string img) in
  if String.eqb base "" then [] else path_join out_dir base :: option_list (fw_image_name img').

(** [q] is not a path that extraction wrote for the images from the [k]-th on. *)
Definition spared (records : list DeviceIdRecord) (index k : nat)
    (images images' : list ComponentImageInfo) (q : string) : Prop :=
  ∀ j img img', (k ≤ j)%nat → images !! j = Some img → images' !! j = Some img' →
    q ∉ written records (index + j) img img'.

Lemma spared_cons records index k img images img' images' q :
  spared records index (S k) (img :: images) (img' :: images') q ↔
  spared records (S index) k images images' q.
Proof.
  split; intros Hq.
  - intros j a b Hj Ha Hb. replace (S index + j)%nat with (index + S j)%nat by lia. by apply Hq; [lia|..].
  - intros [|j] a b Hj Ha Hb; [lia|]. replace (index + S j)%nat with (S index + j)%nat by lia.
    by apply Hq; [lia|..].
Qed.

(** The same, read off the result. *)
Lemma extract_image_result fs source path file records index img fs' img' :
  fs_ok fs → names fs !! path = Some source → nodes fs !! source = Some file → ¬ inside path →
  extract_image fs source records out_dir index img = (fs', Ok img') →
  fs_ok fs' ∧ extracted file records index img img' ∧
  Forall inside (written records index img img') ∧
  (∀ q, q ∉ written records index img img' → names fs' !! q = names fs !! q ∧ file_at fs' q = file_at fs q) ∧
  (∀ p, p ∈ written records index img img' → fw_image_name img' = Some p →
        file_at fs' p = Some (slice file img)).
Proof.
  intros Hok Hs Hf Hout E.
  destruct (extract_image_ok _ _ _ _ _ _ _ _ _ Hok Hs Hf Hout E) as [Hok' H1].
  split; [done|]. unfold extracted, written. destruct (String.eqb _ "").
  - destruct H1 as [-> ->]. split_and!; [done|constructor|done|set_solver].
  - destruct H1 as (p & Hp & -> & Hin & Hat & Hq). simpl. split_and!; [by eauto|by repeat constructor|set_solver|].
    intros ? _ [= <-]. done.
Qed.

Lemma extract_images_ok fs source path file records index images fs' images' :
  fs_ok fs → names fs !! path = Some source → nodes fs !! source = Some file → ¬ inside path →
  extract_images fs source records out_dir index images = (fs', Ok images') →
  length images' = length images ∧
  (∀ q, spared records index 0 images images' q → file_at fs' q = file_at fs q) ∧
  ∀ j img img', images !! j = Some img → images' !! j = Some img' →
    extracted file records (index + j) img img' ∧
    ∀ p, p ∈ written records (index + j) img img' → fw_image_name img' = Some p →
         spared records index (S j) images images' p → file_at fs' p = Some (slice file img).
Proof.
  revert fs index images'.
  induction images as [|img images IH]; intros fs index images' Hok Hs Hf Hout E; simpl in E.
  { injection E as <- <-. by split_and!. }
  destruct (extract_image _ _ _ _ _ _) as [fs1 [img1|]] eqn:E1; [|done].
  destruct (extract_images fs1 _ _ _ _ _) as [fs2 [rest|]] eqn:E2; [|done]. injection E as <- <-.
  destruct (extract_image_result _ _ _ _ _ _ _ _ _ Hok Hs Hf Hout E1) as (Hok1 & Hx & Hin & Hframe & Hdata).
  destruct (Hframe path) as [Hn1 Hat1]. { rewrite Forall_forall in Hin. auto. }
  assert (nodes fs1 !! source = Some file) as Hf1.
  { unfold file_at in Hat1. rewrite Hn1, Hs in Hat1. simpl in Hat1. by rewrite Hat1. }
  rewrite Hs in Hn1. destruct (IH fs1 (S index) rest Hok1 Hn1 Hf1 Hout E2) as (Hl & Hsp & Hj).
  split_and!; [simpl; lia| |].
  - intros q Hq. rewrite Hsp; [|apply (spared_cons _ _ 0 img _ img1); intros j a b Hle; apply Hq; lia].
    apply Hframe. specialize (Hq 0%nat img img1). rewrite Nat.add_0_r in Hq. by apply Hq.
  - intros [|j] a b Ha Hb; simpl in Ha, Hb.
    + simplify_eq. rewrite Nat.add_0_r. split; [done|]. intros p Hp Hw Hq.
      rewrite Hsp; [by apply Hdata|by eapply spared_cons].
    + rewrite Nat.add_succ_r. destruct (Hj j a b Ha Hb) as [Hxj Hdj]. split; [done|].
      intros p Hp Hw Hq. apply Hdj; [done..|by eapply spared_cons].
Qed.

Lemma ranges_within images pkg_size :
  validate_component_image_ranges images pkg_size = Ok tt →
  Forall (fun img => location_offset img + size img ≤ pkg_size)%N images.
Proof.
  unfold validate_component_image_ranges. destruct (try_fold _ _ _) as [t|] eqn:E; [|done]. intros _.
  revert t E. generalize 0%N. induction images as [|img images IH]; intros total t E; [constructor|].
  simpl in E. destruct (check_range pkg_size total img) as [t1|] eqn:E1; [|done].
  constructor; [|by eapply IH]. unfold check_range in E1. repeat case_hyp E1; try done; reflect_nums; lia.
Qed.

(** C27. Unpacking a package writes in the output directory and nowhere else,
    whatever the package holds and whether or not it succeeds: every file that
    is not directly in the directory has the contents it had, and none appears
    or disappears. *)
Theorem extraction_confined fs path unpack q :
  fs_ok fs → ¬ inside q →
  file_at (parse fs path unpack out_dir).1 q = file_at fs q.
Proof.
  intros Hok Hq. destruct (confined_parse fs path unpack) as [_ Hn _ Hc].
  unfold file_at. rewrite Hn by done. destruct (names fs !! q) as [n|] eqn:E; [|done]. simpl.
  apply Hc. intros [Hd|(r & Hr & Er)].
  - by apply Hd, (fo_nodes _ Hok q).
  - apply Hq. by rewrite (fo_inj _ Hok q r n).
Qed.

(** Unpacking writes the bytes of the images. When it succeeds, the data is
    that of the parser, every image lies within the package, and each image that
    has a name is given a path directly in the output directory and the SHA-256
    of its bytes. At that path is a file with exactly the image's bytes, as long
    as no later image is written to the same path. *)
Theorem extraction_exact fs path fs' d :
  fs_ok fs → ¬ inside path → parse fs path true out_dir = (fs', Ok d) →
  ∃ file d0, file_at fs path = Some file ∧ parse_file file = Ok d0 ∧
    header d = header d0 ∧ device_records d = device_records d0 ∧
    length (component_images d) = length (component_images d0) ∧
    ∀ j img img', component_images d0 !! j = Some img → component_images d !! j = Some img' →
      (location_offset img + size img ≤ len file)%N ∧
      extracted file (device_records d) j img img' ∧
      ∀ p, p ∈ written (device_records d) j img img' → fw_image_name img' = Some p →
           spared (device_records d) 0 (S j) (component_images d0) (component_images d) p →
           file_at fs' p = Some (slice file img).
Proof.
  intros Hok Hout E. unfold parse in E. destruct (names fs !! path) as [source|] eqn:Es; [|done].
  destruct (proj1 (elem_of_dom _ _) (fo_nodes _ Hok _ _ Es)) as [file Ef].
  assert (contents fs source = file) as Ec by (unfold contents; by rewrite Ef).
  rewrite Ec in E. destruct (parse_file file) as [d0|] eqn:Ep; [|done].
  unfold extract_files in E. rewrite Es, Ec in E.
  destruct (validate_component_image_ranges _ _) as [[]|] eqn:Ev; [|done]. apply ranges_within in Ev.
  destruct (create_dir_error _); [done|].
  destruct (extract_images _ _ _ _ _ _) as [fs1 [images|]] eqn:Ex; [|done]. injection E as <- <-.
  destruct (extract_images_ok _ _ _ _ _ _ _ _ _ Hok Es Ef Hout Ex)
    as (Hl & _ & Hj).
  exists file, d0. split_and!; try done; [unfold file_at; by rewrite Es|].
  intros j img img' Hi Hi'. destruct (Hj j img img' Hi Hi') as [Hx Hd]. split_and!; [|done..].
  by rewrite Forall_lookup in Ev; apply Ev in Hi.
Qed.
End Extract.

(** ** A package that is unpacked *)

(** An environment: the digest is the length in unary, nothing fails. *)
#[local] Instance example_env : PldmEnv := {
  sha256_hex bytes := of_chars (replicate (length bytes) (ascii_of_N 97));
  collapse_underscores s := s;
  open_error _ := "not found";
  create_dir_error _ := None;
  create_error _ := None;
  rename_error _ _ := None;
  write_error _ _ _ := None;
  remove_dir_fails _ := false;
}.

Definition example_fs : Fs :=
  mkFs {["/pkg/bmc.fwpkg" := 0]} {[0 := example_file]}.

Lemma example_fs_ok : fs_ok example_fs.
Proof.
  split; unfold example_fs; simpl; [|intros p q n Hp Hq; by apply lookup_singleton_Some in Hp as [<- _], Hq as [<- _]].
  intros p n [<- <-]%lookup_singleton_Some. set_solver.
Qed.

Lemma example_outside : ¬ inside "/out" "/pkg/bmc.fwpkg".
Proof. intros (name & _ & E). discriminate E. Qed.

Lemma extraction_confined_witness :
  fs_ok example_fs ∧ ¬ inside "/out" "/pkg/bmc.fwpkg" ∧
  file_at (parse example_fs "/pkg/bmc.fwpkg" true "/out").1 "/pkg/bmc.fwpkg" = Some example_file.
Proof.
  split; [exact example_fs_ok|]. split; [exact example_outside|].
  refine (eq_trans (extraction_confined "/out" example_fs "/pkg/bmc.fwpkg" true "/pkg/bmc.fwpkg"
    example_fs_ok example_outside) _). vm_compute. reflexivity.
Defined.

Lemma extraction_exact_witness :
  ∃ fs' d, parse example_fs "/pkg/bmc.fwpkg" true "/out" = (fs', Ok d) ∧
    file_at fs' "/out/BMC_1.0_aaaa_image.bin" = Some (to_chars "data").
Proof.
  destruct (parse example_fs "/pkg/bmc.fwpkg" true "/out") as [fs' [d|]] eqn:E; [|by vm_compute in E].
  exists fs', d. split; [reflexivity|].
  destruct (extraction_exact "/out" _ _ _ _ example_fs_ok example_outside E)
    as (file & d0 & Ef & E0 & _ & _ & _ & Hj).
  vm_compute in E. injection E as <- <-. vm_compute in Ef. injection Ef as <-.
  vm_compute in E0. injection E0 as <-. destruct (Hj 0 _ _ eq_refl eq_refl) as (_ & _ & Hp).
  apply (Hp "/out/BMC_1.0_aaaa_image.bin"); [vm_compute; right; left|reflexivity|].
  intros [|[|j]] img img' Hle Hi Hi'; [lia|discriminate Hi..].
Defined.
End PldmExtract.
