(* ===== verification/PldmObject.v ===== *)
(** * The PLDM parser object

    [rust_nvfwupd/src/pldm.rs]: what is shown of a parsed package, and the object
    [PLDM] that keeps the results.  An [IndexMap] is the list of its entries.  The
    temporary directory that is made, if one is, is an argument; removing a
    directory removes the files with a path in it.

    The theorems: parsing a package leaves the files as they were, also when a
    package inside it has to be unpacked for that, and the versions that are
    reported are those of the last image of each name. *)

From S2P Require Import Prelude RustStd RustStr RustBytes EndpointScope Json Pldm PldmPackage PldmExtract.
From Stdlib Require Import Ascii.
Local Open Scope string_scope.
Local Open Scope list_scope.
Local Open Scope N_scope.

Module PldmObject.
Import Pldm PldmPackage.

(** ** Descriptors as text *)

(** [{:#x}] of a [u16]. *)
Definition hex_u16 (n : N) : string := "0x" +++ of_chars (show_hex n).

Definition descriptor_type_name (dt : N) : string :=
  match dt with
  | 0x0000 => "PCI Vendor ID"
  | 0x0001 => "IANA Enterprise ID"
  | 0x0002 => "UUID"
  | 0x0003 => "PnP Vendor ID"
  | 0x0004 => "ACPI Vendor ID"
  | 0x0005 => "IEEE Assigned Company ID"
  | 0x0006 => "SCSI Vendor ID"
  | 0x0100 => "PCI Device ID"
  | 0x0101 => "PCI Subsystem Vendor ID"
  | 0x0102 => "PCI Subsystem ID"
  | 0x0103 => "PCI Revision ID"
  | 0x0104 => "PnP Product Identifier"
  | 0x0105 => "ACPI Product Identifier"
  | 0x0106 => "ASCII Model Number"
  | 0x0107 => "ASCII Model Number"
  | 0x0108 => "SCSI Product ID"
  | 0x0109 => "UBM Controller Device Code"
  | 0xFFFF => "Vendor Defined"
  | _ => hex_u16 dt
  end.

Definition is_little_endian_descriptor (name : string) : bool :=
  contains ["IANA Enterprise ID"; "PCI Vendor ID"; "PCI Device ID"; "PCI Subsystem Vendor ID";
            "PCI Subsystem ID"] name.

Definition U128_BITS : N := 128.

Definition padded_hex_le (bytes : chars) : string :=
  match bytes with
  | [] => "0x"
  | _ =>
      let val := foldl (fun acc b => N.lor (N.shiftl acc 8 mod 2 ^ U128_BITS) (N_of_ascii b)) 0 (rev bytes) in
      let hex := show_digits 32 16 val [] in
      "0x" +++ of_chars (replicate (length bytes * 2 - length hex) "0"%char ++ hex)
  end.

Definition raw_hex (bytes : chars) : string := "0x" +++ hex_bytes bytes.

Definition decode_descriptor_data (type_name : string) (bytes : chars) : string :=
  if is_little_endian_descriptor type_name then padded_hex_le bytes else raw_hex bytes.

(** ** What is shown of a record *)

Definition jobj (fields : list (string * json)) : json := JObject (from_pairs fields).

(** The value of the last descriptor of a title, as the loop over them leaves it. *)
Definition vendor (title : string) (d : RawDescriptor) : option chars :=
  match vendor_title d, vendor_data d with
  | Some t, Some bytes => if negb (is_initial d) && String.eqb t title then Some bytes else None
  | _, _ => None
  end.

Definition sku_of (title : string) (ds : list RawDescriptor) : string :=
  foldl (fun sku d => match vendor title d with Some bytes => raw_hex bytes | None => sku end) "N/A" ds.

Definition is_retimer (img : ComponentImageInfo) : option bool :=
  (fun n => contains_str (to_chars n) (to_chars "PCIeRetimer")) <$> fw_image_name img.

(** The first [APSKU] of two bytes or more, without its last byte, reversed. *)
Fixpoint find_apsku (ds : list RawDescriptor) : option string :=
  match ds with
  | [] => None
  | d :: ds =>
      match vendor "APSKU" d with
      | Some bytes =>
          if (length bytes <? 2)%nat then find_apsku ds
          else Some (raw_hex (rev (take (length bytes - 1) bytes)))
      | None => find_apsku ds
      end
  end.

Definition component_fields (img : ComponentImageInfo) : list (string * json) :=
  [("ComponentIdentifier", JString (hex_u16 (image_identifier img)));
   ("ComponentVersionString", JString (image_version_string img))] ++
  match fw_image_name img with
  | Some fw_name =>
      [("FWImage", JString fw_name)] ++
      match sha256 img with Some sha => [("FWImageSHA256", JString sha)] | None => [] end ++
      [("SignatureType", JString "N/A")] ++
      match image_size img with Some sz => [("FWImageSize", JNumber (PosInt sz))] | None => [] end
  | None => []
  end.

(** The loop over the images of a record; [assigned]: an image that is no ERoT
    was before. *)
Fixpoint component_outputs (is_unpack : bool) (transformed : option string) (ap_sku ec_sku ax_sku : string)
    (assigned : bool) (images : list ComponentImageInfo) : list json :=
  match images with
  | [] => []
  | img :: images =>
      let comp := component_fields img in
      let retimer := default false (is_retimer img) in
      let '(sku, assigned) :=
        if image_identifier img =? 0xff00
        then (if is_unpack then [] else [("ECSKUID", JString ec_sku)], assigned)
        else if negb (String.eqb ax_sku "N/A") && assigned then ([("AXSKUID", JString ax_sku)], assigned)
        else (if is_unpack && negb retimer
              then match transformed with Some v => [("AP_SKU_ID", JString v)] | None => [] end
              else if is_unpack && retimer then []
              else [("APSKUID", JString ap_sku)], true) in
      jobj (comp ++ sku) ::
      component_outputs is_unpack transformed ap_sku ec_sku ax_sku assigned images
  end.

Definition descriptor_output (apply_apsku_transform : bool) (transformed : option string)
    (d : RawDescriptor) : json :=
  let type_name := descriptor_type_name (descriptor_type d) in
  if is_initial d
  then jobj [("InitialDescriptorType", JString type_name);
             ("InitialDescriptorData", JString (decode_descriptor_data type_name (data d)))]
  else
    match vendor_title d, vendor_data d with
    | Some title, Some vd_data =>
        let hex_val :=
          if String.eqb title "APSKU" && apply_apsku_transform
          then default (raw_hex vd_data) transformed else raw_hex vd_data in
        jobj [("AdditionalDescriptorType", JString type_name);
              ("VendorDefinedDescriptorTitleString", JString title);
              ("VendorDefinedDescriptorData", JString hex_val)]
    | _, _ =>
        jobj [("AdditionalDescriptorType", JString type_name);
              ("AdditionalDescriptorData", JString (decode_descriptor_data type_name (data d)))]
    end.

Definition build_record_output (parsed : PldmParsedData) (r : DeviceIdRecord) : list json * list json :=
  let images := omap (fun i => component_images parsed !! i)
                  (get_applicable_indices (applicable_components r) (length (component_images parsed))) in
  let is_unpack := existsb (fun img => bool_decide (is_Some (fw_image_name img))) images in
  let apply_apsku_transform :=
    is_unpack && existsb (fun img => default false (negb <$> is_retimer img)) images in
  let transformed := if apply_apsku_transform then find_apsku (descriptors r) else None in
  (component_outputs is_unpack transformed (sku_of "APSKU" (descriptors r)) (sku_of "ECSKU" (descriptors r))
     (sku_of "AXSKU" (descriptors r)) false images,
   descriptor_output apply_apsku_transform transformed <$> descriptors r).

Section Object.
Context `{PldmEnv}.

Definition sha256_file (fs : Fs) (path : string) : string :=
  match names fs !! path with
  | Some node => sha256_hex (contents fs node)
  | None => ""
  end.

Definition to_display_json (fs : Fs) (parsed : PldmParsedData) (package_path : string) : json :=
  let h := header parsed in
  jobj
    [("PackageHeaderInformation",
      jobj [("PackageHeaderIdentifier", JString (identifier h));
            ("PackageHeaderFormatRevision", JString (pretty (format_revision h)));
            ("PackageReleaseDateTime", JString (release_datetime h));
            ("PackageVersionString", JString (version_string h));
            ("PackageSHA256", JString (sha256_file fs package_path))]);
     ("FirmwareDeviceRecords",
      JArray ((fun r => let '(components, descriptors) := build_record_output parsed r in
                        jobj [("ComponentImageSetVersionString",
                               JString (component_image_set_version_string r));
                              ("DeviceDescriptors", JArray descriptors);
                              ("Components", JArray components)]) <$> device_records parsed))].

(** ** The object *)

Record PLDM := mkPLDM {
  m_pldm_dict : gmap string json;
  apname_version_dict : gmap string (list (string * list string));
  unpack_file_ap_dict : gmap string (list string);
  unpack_dirpath : string;
  last_parsed : option PldmParsedData;
}.

Definition new : PLDM := mkPLDM ∅ ∅ ∅ "" None.

Definition set_parsed (p : PLDM) (dict : gmap string json) (parsed : option PldmParsedData) : PLDM :=
  mkPLDM dict (apname_version_dict p) (unpack_file_ap_dict p) (unpack_dirpath p) parsed.

(** The answer is the outcome, the JSON value, and the error. *)
Definition unpack_pkg (p : PLDM) (fs : Fs) (package_name out_dir : string) (unpack : bool)
    : PLDM * Fs * (bool * option json * string) :=
  match parse fs package_name unpack out_dir with
  | (fs, Ok parsed) =>
      let display_json := to_display_json fs parsed package_name in
      (set_parsed p (<[package_name := display_json]> (m_pldm_dict p)) (Some parsed), fs,
       (true, Some display_json, ""))
  | (fs, Err e) => (p, fs, (false, None, e))
  end.

(** [IndexMap::insert]: a key keeps its place. *)
Fixpoint index_map_insert {A} (k : string) (v : A) (l : list (string * A)) : list (string * A) :=
  match l with
  | [] => [(k, v)]
  | (k', v') :: l => if String.eqb k k' then (k, v) :: l else (k', v') :: index_map_insert k v l
  end.

Definition get_ap_sku_from_descriptors (ds : list RawDescriptor) (ap_name : string) : string :=
  let target := if String.eqb (lower ap_name) "erot" then "ECSKU" else "APSKU" in
  match find (fun d => match vendor_title d, vendor_data d with
                       | Some title, Some _ => String.eqb title target
                       | _, _ => false
                       end) ds with
  | Some d => default "" (raw_hex <$> vendor_data d)
  | None => ""
  end.

Definition add_apname (parsed : PldmParsedData) (ver_dict : list (string * list string))
    (entry : nat * ComponentImageInfo) : list (string * list string) :=
  let '(index, img) := entry in
  match get_component_name_info_for_index (device_records parsed) index with
  | None => ver_dict
  | Some (name, ds, context) =>
      let sku_id := get_ap_sku_from_descriptors ds name in
      let version_entry := [image_version_string img; lower sku_id] in
      let ver_dict := index_map_insert (name +++ "," +++ sku_id) version_entry ver_dict in
      match context with
      | Some context =>
          if eq_ignore_ascii_case name "ERoT"
          then index_map_insert (name +++ ":" +++ context +++ "," +++ sku_id) version_entry ver_dict
          else ver_dict
      | None => ver_dict
      end
  end.

Definition build_apname_version_from_parsed (p : PLDM) : PLDM :=
  match last_parsed p with
  | None => p
  | Some parsed =>
      let ver_dict := foldl (add_apname parsed) [] (imap pair (component_images parsed)) in
      mkPLDM (m_pldm_dict p) (<[version_string (header parsed) := ver_dict]> (apname_version_dict p))
        (unpack_file_ap_dict p) (unpack_dirpath p) (last_parsed p)
  end.

(** [tmp]: the directory that [tempfile::tempdir] made, if it did. *)
Definition get_unpack_file_dict (p : PLDM) (fs : Fs) (tmp : option string) (pkg_name : string) : PLDM * Fs :=
  match tmp with
  | None => (p, fs)
  | Some out_dir =>
      let p := mkPLDM (m_pldm_dict p) (apname_version_dict p) (unpack_file_ap_dict p) out_dir (last_parsed p) in
      match unpack_pkg p fs pkg_name out_dir true with
      | (p, fs, (false, _, _)) => (p, fs)
      | (p, fs, (true, _, _)) =>
          match last_parsed p with
          | None => (p, fs)
          | Some parsed =>
              let file_dict :=
                foldl (fun dict '(index, img) =>
                         match get_component_name_for_index (device_records parsed) index with
                         | Some (name, _) =>
                             <[name := [image_version_string img; default "" (fw_image_name img)]]> dict
                         | None => dict
                         end) ∅ (imap pair (component_images parsed)) in
              (mkPLDM (m_pldm_dict p) (apname_version_dict p) file_dict (unpack_dirpath p) (last_parsed p), fs)
          end
      end
  end.

Definition display_package_content (p : PLDM) (package_name : string) : option json :=
  match m_pldm_dict p !! package_name with
  | Some v => Some v
  | None =>
      match (map_to_list (m_pldm_dict p)).*2 with
      | [v] => Some v
      | _ => None
      end
  end.

(** [Value::get] and [as_str]. *)
Definition jget (k : string) (v : json) : option json :=
  match v with JObject m => m !! k | _ => None end.

Definition as_str (v : json) : option string :=
  match v with JString s => Some s | _ => None end.

Definition as_array (v : json) : list json :=
  match v with JArray l => l | _ => [] end.

(** The image of the first component with [HGX] in its version. *)
Definition hgx_image (v : json) : string :=
  let components := fw_record ← default [] (as_array <$> jget "FirmwareDeviceRecords" v);
                    default [] (as_array <$> jget "Components" fw_record) in
  match find (fun comp => contains_str (to_chars (default "" (jget "ComponentVersionString" comp ≫= as_str)))
                            (to_chars "HGX")) components with
  | Some comp => default "" (jget "FWImage" comp ≫= as_str)
  | None => ""
  end.

(** [remove_dir_all]; an error is ignored. *)
Definition remove_dir_all (fs : Fs) (dir : string) : Fs :=
  if remove_dir_fails dir then fs
  else mkFs (filter (fun entry => negb (starts_with (to_chars entry.1) (to_chars (dir +++ "/")))) (names fs))
         (nodes fs).

Definition not_valid (name : string) : string :=
  "Given input file " +++ name +++ " is not a valid PLDM fwpkg".

(** The package in a combined one is unpacked and parsed in its place. *)
Definition parse_combined (p : PLDM) (fs : Fs) (tmp : option string) (package_name : string)
    : PLDM * Fs * (bool * string) :=
  let p := set_parsed p (delete package_name (m_pldm_dict p)) None in
  match tmp with
  | None => (p, fs, (false, "Failed to create temp dir for PLDM unpack"))
  | Some outdir =>
      match unpack_pkg p fs package_name outdir true with
      | (p, fs, (false, _, _)) => (p, remove_dir_all fs outdir, (false, not_valid package_name))
      | (p, fs, (true, _, _)) =>
          let hgx_pkg_name := default "" (hgx_image <$> (m_pldm_dict p !! package_name)) in
          let p := set_parsed p (delete package_name (m_pldm_dict p)) None in
          if String.eqb hgx_pkg_name "" then (p, remove_dir_all fs outdir, (true, ""))
          else
            match unpack_pkg p fs hgx_pkg_name outdir false with
            | (p, fs, (false, _, _)) => (p, remove_dir_all fs outdir, (false, not_valid hgx_pkg_name))
            | (p, fs, (true, _, _)) =>
                (build_apname_version_from_parsed p, remove_dir_all fs outdir, (true, ""))
            end
      end
  end.

Definition parse_pkg (p : PLDM) (fs : Fs) (tmp : option string) (package_name : string)
    : PLDM * Fs * (bool * string) :=
  match unpack_pkg p fs package_name "./" false with
  | (p, fs, (false, _, err)) => (p, fs, (false, err))
  | (p, fs, (true, _, _)) =>
      let og_pkg_name :=
        default "" (d ← m_pldm_dict p !! package_name; h ← jget "PackageHeaderInformation" d;
                    v ← jget "PackageVersionString" h; as_str v) in
      if contains_str (to_chars og_pkg_name) (to_chars "HGX") &&
         contains_str (to_chars og_pkg_name) (to_chars "DGX")
      then parse_combined p fs tmp package_name
      else (build_apname_version_from_parsed p, fs, (true, ""))
  end.

Definition remove_files (p : PLDM) (fs : Fs) : PLDM * Fs :=
  if String.eqb (unpack_dirpath p) "" then (p, fs)
  else (mkPLDM (m_pldm_dict p) (apname_version_dict p) (unpack_file_ap_dict p) "" (last_parsed p),
        remove_dir_all fs (unpack_dirpath p)).
End Object.
End PldmObject.

(** ** Theorems *)

Local Open Scope nat_scope.

Module PldmObjectTheorems.
Import Pldm PldmPackage PldmExtract PldmObject.

Section Object.
Context `{PldmEnv}.

(** ** Files *)

Lemma parse_reads fs path out_dir : (parse fs path false out_dir).1 = fs.
Proof. unfold parse. destruct (names fs !! path); [|done]. by destruct (parse_file _). Qed.

Lemma unpack_pkg_fs p fs name out_dir unpack :
  (unpack_pkg p fs name out_dir unpack).1.2 = (parse fs name unpack out_dir).1.
Proof. unfold unpack_pkg. by destruct (parse fs name unpack out_dir) as [fs' [d|e]]. Qed.

(** The path is below the directory. *)
Definition below (dir q : string) : bool := starts_with (to_chars q) (to_chars (dir +++ "/")).

(** [tempfile::tempdir] makes a directory that is empty. *)
Record new_dir (fs : Fs) (dir : string) : Prop := mk_new_dir {
  nd_path : dir ≠ "" ∧ ends_with (to_chars dir) [ascii_of_N 47] = false;
  nd_empty : ∀ q n, names fs !! q = Some n → below dir q = false;
}.

Lemma inside_below fs dir q : new_dir fs dir → inside dir q → below dir q = true.
Proof.
  intros [[Hd He] _] (name & _ & ->). unfold path_join, below.
  rewrite (proj2 (String.eqb_neq _ _) Hd), He, !to_chars_app, app_assoc.
  apply starts_with_app.
Qed.

(** What extraction into a new directory did is undone by removing it. *)
Lemma remove_restores fs dir fs' q :
  fs_ok fs → new_dir fs dir → remove_dir_fails dir = false → confined dir fs fs' →
  file_at (remove_dir_all fs' dir) q = file_at fs q.
Proof.
  intros Hok Hnew Hrm [_ Hn _ Hc]. unfold remove_dir_all, file_at. rewrite Hrm. cbn [names nodes].
  assert (∀ r, inside dir r → names fs !! r = None) as Hnone.
  { intros r Hr. destruct (names fs !! r) as [n|] eqn:E; [|done].
    apply (nd_empty _ _ Hnew) in E. by rewrite (inside_below _ _ _ Hnew Hr) in E. }
  rewrite map_lookup_filter. fold (below dir q). destruct (below dir q) eqn:Eb.
  - destruct (names fs !! q) as [n|] eqn:E; [by rewrite (nd_empty _ _ Hnew _ _ E) in Eb|].
    destruct (names fs' !! q); simpl; [|done]. rewrite option_guard_False; [done|].
    simpl. fold (below dir q). rewrite Eb. by intros [].
  - rewrite Hn by (intros Hq%(inside_below _ _ _ Hnew); congruence).
    destruct (names fs !! q) as [n|] eqn:E; [|done]. simpl.
    rewrite option_guard_True by (simpl; fold (below dir q); rewrite Eb; exact I). simpl.
    apply Hc. intros [Hd|(r & Hr & Er)]; [by apply Hd, (fo_nodes _ Hok q)|].
    by rewrite Hnone in Er.
Qed.

(** Parsing a package leaves no trace among the files: also when the package
    holds another one, which is unpacked to be parsed, and whether or not parsing
    succeeds, every file is as it was and none is left in the directory that was
    made for it. *)
Theorem parse_pkg_leaves_no_files p fs dir package_name q :
  fs_ok fs → new_dir fs dir → remove_dir_fails dir = false →
  file_at (parse_pkg p fs (Some dir) package_name).1.2 q = file_at fs q.
Proof.
  intros Hok Hnew Hrm. unfold parse_pkg.
  pose proof (unpack_pkg_fs p fs package_name "./" false) as E1. rewrite parse_reads in E1.
  destruct (unpack_pkg p fs package_name "./" false) as [[p1 fs1] [[[] j1] e1]]; simpl in E1; subst fs1; [|done].
  case_match; [|done]. unfold parse_combined. set (p2 := set_parsed _ _ _).
  pose proof (unpack_pkg_fs p2 fs package_name dir true) as E2.
  pose proof (confined_parse dir fs package_name true) as Hc. rewrite <- E2 in Hc. clear E2.
  destruct (unpack_pkg p2 fs package_name dir true) as [[p3 fs3] [[[] j3] e3]]; simpl in Hc;
    [|by apply remove_restores].
  cbv zeta. case_match; [by apply remove_restores|]. set (p4 := set_parsed _ _ _).
  match goal with |- context [unpack_pkg p4 fs3 ?n dir false] => set (name := n) end.
  pose proof (unpack_pkg_fs p4 fs3 name dir false) as E4. rewrite parse_reads in E4.
  destruct (unpack_pkg p4 fs3 name dir false) as [[p5 fs5] [[[] j5] e5]]; simpl in E4; subst fs5;
    by apply remove_restores.
Qed.

(** ** Versions *)

Lemma index_map_insert_keys {A} k (v : A) l k' :
  k' ∈ (index_map_insert k v l).*1 ↔ k' = k ∨ k' ∈ l.*1.
Proof.
  induction l as [|[k0 v0] l IH]; simpl; [set_solver|].
  destruct (String.eqb_spec k k0) as [->|]; simpl; [|rewrite !elem_of_cons, IH]; set_solver.
Qed.

Lemma index_map_insert_ok {A} k (v : A) l :
  NoDup l.*1 →
  NoDup (index_map_insert k v l).*1 ∧
  ∀ k' v', (k', v') ∈ index_map_insert k v l ↔ (k' = k ∧ v' = v) ∨ (k' ≠ k ∧ (k', v') ∈ l).
Proof.
  induction l as [|[k0 v0] l IH]; simpl; intros Hnd.
  { split; [repeat constructor; set_solver|]. intros k' v'. rewrite list_elem_of_singleton.
    split; [intros [= -> ->]; auto|intros [[-> ->]|[_ ?%not_elem_of_nil]]; done]. }
  apply NoDup_cons in Hnd as [Hk0 Hnd]. destruct (IH Hnd) as [Hnd' Hin].
  destruct (String.eqb_spec k k0) as [<-|Hne]; simpl.
  - split; [by constructor|]. intros k' v'. rewrite !elem_of_cons. split.
    + intros [[= -> ->]|Hl]; [by left|]. right. split; [|by right]. intros ->. apply Hk0. by apply (list_elem_of_fmap_2 fst) in Hl.
    + intros [[-> ->]|[Hk [[= -> ->]|Hl]]]; by auto.
  - split; [constructor; [|done]|].
    + by rewrite index_map_insert_keys; intros [->|].
    + intros k' v'. rewrite !elem_of_cons, Hin. split; [intros [[= -> ->]|[?|[? ?]]]; auto|].
      intros [?|[? [?|?]]]; auto.
Qed.

(** The entries that the images give, in their order. *)
Definition reported (parsed : PldmParsedData) (entry : nat * ComponentImageInfo) : list (string * list string) :=
  match get_component_name_info_for_index (device_records parsed) entry.1 with
  | None => []
  | Some (name, ds, context) =>
      let sku_id := get_ap_sku_from_descriptors ds name in
      let version_entry := [image_version_string entry.2; lower sku_id] in
      (name +++ "," +++ sku_id, version_entry) ::
      match context with
      | Some context => if eq_ignore_ascii_case name "ERoT"
                        then [(name +++ ":" +++ context +++ "," +++ sku_id, version_entry)] else []
      | None => []
      end
  end.

Definition insert_values {A} : list (string * A) → list (string * A) → list (string * A) :=
  foldl (fun d e => index_map_insert e.1 e.2 d).

Lemma add_apname_inserts parsed d entry : add_apname parsed d entry = insert_values d (reported parsed entry).
Proof.
  destruct entry as [index img]. unfold add_apname, reported. simpl.
  destruct (get_component_name_info_for_index _ _) as [[[name ds] [context|]]|]; [|done..].
  simpl. by destruct (eq_ignore_ascii_case _ _).
Qed.

Lemma insert_values_ok {A} (es d : list (string * A)) :
  NoDup d.*1 →
  NoDup (insert_values d es).*1 ∧
  ∀ k v, (k, v) ∈ insert_values d es ↔
         last (filter (fun e => e.1 = k) es) = Some (k, v) ∨ ((k, v) ∈ d ∧ k ∉ es.*1).
Proof.
  induction es as [|[k0 v0] es IH] using rev_ind; intros Hnd.
  { split; [done|]. intros k v. simpl. split; [right; split; [done|set_solver]|]. by intros [?|[? _]]. }
  destruct (IH Hnd) as [Hnd1 Hin1]. unfold insert_values. rewrite foldl_app. simpl. fold (insert_values d es).
  destruct (index_map_insert_ok k0 v0 _ Hnd1) as [Hnd2 Hin2]. split; [done|]. intros k v.
  rewrite Hin2, Hin1, filter_app, fmap_app, elem_of_app. destruct (decide (k0 = k)) as [Hk|Hk];
    [rewrite (filter_cons_True _ (k0, v0)) by done|rewrite (filter_cons_False _ (k0, v0)) by done]; rewrite filter_nil.
  - subst k0. rewrite last_snoc. split.
    + intros [[_ ->]|[? _]]; [by left|done].
    + intros [[= <-]|[_ Hno]]; [by left|]. exfalso. apply Hno. right. set_solver.
  - rewrite app_nil_r. split; [intros [[-> ->]|[_ [?|[? ?]]]]; [done|by left|right; set_solver]|].
    intros [?|[? ?]]; right; (split; [congruence|]); [by left|right; set_solver].
Qed.

(** The versions that a package reports under its own version are those of its
    images: there is one entry for each component name with its SKU, and for an
    ERoT also one with the part it belongs to; it is that of the last image that
    has the name. *)
Theorem versions_exact p parsed :
  last_parsed p = Some parsed →
  ∃ d, apname_version_dict (build_apname_version_from_parsed p) !! version_string (header parsed) = Some d ∧
    NoDup d.*1 ∧
    ∀ k v, (k, v) ∈ d ↔
      last (filter (fun e => e.1 = k) (imap pair (component_images parsed) ≫= reported parsed)) = Some (k, v).
Proof.
  intros E. unfold build_apname_version_from_parsed. rewrite E. simpl. rewrite lookup_insert_eq.
  assert (∀ l d, foldl (add_apname parsed) d l = insert_values d (l ≫= reported parsed)) as Hf.
  { induction l as [|e l IH]; intros d; [done|]. simpl. rewrite add_apname_inserts, IH.
    symmetry. apply foldl_app. }
  rewrite Hf. eexists. split; [reflexivity|].
  destruct (insert_values_ok (imap pair (component_images parsed) ≫= reported parsed) []) as [Hnd Hin]; [constructor|].
  split; [done|]. intros k v. rewrite Hin. split; [|by left]. by intros [?|[?%not_elem_of_nil _]].
Qed.
End Object.
End PldmObjectTheorems.
