(* ===== verification/TarPkg.v ===== *)
(** * Tar firmware packages

    [rust_nvfwupd/src/pldm.rs]: the check of a tar archive before it is unpacked,
    its [MANIFEST], and the object [TarPkg].  The [tar] crate is not modelled: what
    it reads of an archive is a list of entries, and what unpacking gives is an
    argument. *)

From S2P Require Import Prelude RustStd RustStr RustBytes.
From Stdlib Require Import Ascii.
Local Open Scope string_scope.
Local Open Scope list_scope.
Local Open Scope N_scope.

Module TarPkg.

(** ** Is it a tar archive *)

Definition sub (a b : nat) (l : chars) : chars := take (b - a) (drop a l).

(** [u32::from_str_radix] in base 8: an optional plus sign, then digits. *)
Fixpoint octal_digits (acc : N) (l : chars) : option N :=
  match l with
  | [] => Some acc
  | c :: l =>
      match to_digit 8 c with
      | Some d => if acc * 8 + d <=? U32_MAX then octal_digits (acc * 8 + d) l else None
      | None => None
      end
  end.

Definition parse_octal (l : chars) : option N :=
  match l with
  | [] => None
  | c :: rest =>
      let digits := if Ascii.eqb c "+" then rest else l in
      match digits with [] => None | _ => octal_digits 0 digits end
  end.

(** The sum of the bytes, the checksum field as spaces. *)
Definition header_sum (buf : chars) : N :=
  foldl (fun sum '(i, b) => sum + (if (148 <=? i)%nat && (i <? 156)%nat then 32 else N_of_ascii b)) 0
    (imap pair buf).

(** [is_utf8]: [std::str::from_utf8] accepts the bytes. *)
Definition is_tar_header (is_utf8 : chars → bool) (buf : chars) : bool :=
  if (length buf <? 512)%nat then false
  else if bool_decide (sub 257 263 buf = to_chars "ustar" ++ [Ascii.zero]) then true
  else if bool_decide (sub 257 262 buf = to_chars "ustar") &&
          (bool_decide (sub 262 263 buf = [ascii_of_N 32]) || bool_decide (sub 262 263 buf = [Ascii.zero]))
  then true
  else
    let field := sub 148 156 buf in
    let chksum_str := if is_utf8 field then of_chars field else "" in
    match parse_octal (trim_end (is_char Ascii.zero) (to_chars (trim chksum_str))) with
    | Some expected => (0 <? expected) && (header_sum (take 512 buf) =? expected)
    | None => false
    end.

(** ** The check of the entries *)

Definition MAX_TAR_ENTRIES : nat := N.to_nat 1024.
Definition MAX_TAR_UNPACKED_BYTES : N := 1024 * 1024 * 1024.

Inductive EntryType :=
| Regular
| Directory
| Symlink
| HardLink
| OtherEntry.

Record Entry := mkEntry {
  entry_size : result string N;
  entry_type : EntryType;
  entry_path : result string string;
}.

Definition is_link (t : EntryType) : bool :=
  match t with Symlink | HardLink => true | _ => false end.

(** [Path::is_absolute], and whether a component is [..]. *)
Definition is_absolute (path : string) : bool := starts_with (to_chars path) [ascii_of_N 47].

Definition has_parent_dir (path : string) : bool :=
  existsb (fun segment => String.eqb (of_chars segment) "..") (split_on (ascii_of_N 47) (to_chars path)).

Definition read_failed {A} (r : result string A) : result string A :=
  map_err (fun e => "Error reading tar file: " +++ e) r.

(** One entry; the result is the number of bytes so far. *)
Definition check_entry (total : N) (entry : Entry) : result string N :=
  let? size := read_failed (entry_size entry) in
  if U64_MAX <? total + size then Err "Security error: tar unpacked size overflow"
  else
    let total := total + size in
    if MAX_TAR_UNPACKED_BYTES <? total
    then Err ("Security error: tar unpacked size exceeds limit of " +++ pretty MAX_TAR_UNPACKED_BYTES +++ " bytes")
    else if is_link (entry_type entry)
    then Err ("Security error: tar contains link entry: " +++
              match entry_path entry with Ok path => path | Err _ => "" end)
    else
      let? path := read_failed (entry_path entry) in
      if is_absolute path then Err ("Security error: tar contains absolute path: " +++ path)
      else if has_parent_dir path then Err ("Security error: tar contains path traversal: " +++ path)
      else Ok total.

(** [remaining] more entries are allowed. *)
Fixpoint check_entries (remaining : nat) (total : N) (entries : list (result string Entry))
    {struct entries} : result string unit :=
  match entries with
  | [] => Ok tt
  | entry :: entries =>
      match remaining with
      | O => Err ("Security error: tar contains too many entries; maximum is " +++ pretty MAX_TAR_ENTRIES)
      | S remaining =>
          let? entry := read_failed entry in
          let? total := check_entry total entry in
          check_entries remaining total entries
      end
  end.

Definition validate_tar_entries_from_reader (archive : result string (list (result string Entry)))
    : result string unit :=
  let? entries := read_failed archive in
  check_entries MAX_TAR_ENTRIES 0 entries.

(** ** The manifest *)

Fixpoint tokens_of (l cur : chars) : list string :=
  let flush := match cur with [] => [] | _ => [of_chars (rev cur)] end in
  match l with
  | [] => flush
  | c :: l => if is_ascii_alphanumeric c then tokens_of l (c :: cur) else flush ++ tokens_of l []
  end.

Definition token_type (token : string) : option string :=
  if eq_ignore_ascii_case token "PSU" then Some "psu"
  else if eq_ignore_ascii_case token "MCU" || eq_ignore_ascii_case token "PLDM" then Some "mcu"
  else if eq_ignore_ascii_case token "BMC" then Some "bmc"
  else None.

Fixpoint first_type (tokens : list string) : option string :=
  match tokens with
  | [] => None
  | token :: tokens => match token_type token with Some t => Some t | None => first_type tokens end
  end.

Definition powershelf_component_type_from_purpose (purpose : string) : string :=
  let tokens := tokens_of (to_chars purpose) [] in
  match first_type (rev tokens) with
  | Some t => t
  | None => if existsb (fun token => eq_ignore_ascii_case token "OPENBMC") tokens then "bmc" else "unknown"
  end.

Record TarPkg := mkTarPkg {
  apname_version_dict : gmap string (list (string * list string));
  parse_warnings : list string;
  untar_file_path : string;
}.

Definition new : TarPkg := mkTarPkg ∅ [] "".

(** [str::lines]: a last line that is empty is none, and a carriage return before
    the line feed is not part of the line. *)
Fixpoint lines_of (pieces : list chars) : list string :=
  match pieces with
  | [] | [[]] => []
  | [l] => [of_chars l]
  | l :: pieces => of_chars (default l (strip_suffix l [ascii_of_N 13])) :: lines_of pieces
  end.

Definition lines (s : string) : list string := lines_of (split_on (ascii_of_N 10) (to_chars s)).

Record Manifest := mkManifest {
  component_type : string;
  version : string;
  model : string;
}.

Definition manifest_line (m : Manifest) (line : string) : Manifest :=
  match split_once "=" (to_chars (trim line)) with
  | None => m
  | Some (key, value) =>
      let value := of_chars value in
      default m (match_str (of_chars key)
        [("purpose", mkManifest (powershelf_component_type_from_purpose value) (version m) (model m));
         ("version", mkManifest (component_type m) value (model m));
         ("model", mkManifest (component_type m) (version m) value)])
  end.

Definition add_components (p : TarPkg) (package_name : string) (m : Manifest) (warnings : list string) : TarPkg :=
  mkTarPkg (<[package_name := [(component_type m +++ "_firmware", [version m; model m; component_type m])]]>
              (apname_version_dict p)) warnings (untar_file_path p).

Definition parse_manifest_content (p : TarPkg) (manifest_content : option string) (package_name : string)
    (skip_parsing : bool) : TarPkg * (bool * string) :=
  match (if skip_parsing then None else manifest_content) with
  | None =>
      (add_components p package_name (mkManifest "psu" "N/A" "PowerShelf")
         ["tar archive did not contain a MANIFEST; using default tar metadata"], (true, ""))
  | Some content =>
      let m := foldl manifest_line (mkManifest "unknown" "unknown" "PowerShelf") (lines content) in
      if negb (String.eqb (component_type m) "unknown") && negb (String.eqb (version m) "unknown")
      then (add_components p package_name m [], (true, ""))
      else (mkTarPkg (apname_version_dict p) [] (untar_file_path p),
            (false, "Invalid MANIFEST file. Missing purpose or version field."))
  end.

(** What unpacking needs of the outside: the directory that was made, the entries
    of the archive, the outcome of unpacking them, and the [MANIFEST] found. *)
Record Unpacking := mkUnpacking {
  temp_dir : result string string;
  archive : result string (result string (list (result string Entry)));
  unpacked : result string unit;
  manifest : option (result string string);
}.

Definition unpack_tar_blocking (u : Unpacking) : result string (string * option string) :=
  let? dir := map_err (fun e => "Failed to create temp dir: " +++ e) (temp_dir u) in
  let? entries := map_err (fun e => "Error extracting tar file: " +++ e) (archive u) in
  let? _ := validate_tar_entries_from_reader entries in
  let? _ := map_err (fun e => "Error extracting tar file: " +++ e) (unpacked u) in
  match manifest u with
  | None => Ok (dir, None)
  | Some r =>
      let? content := map_err (fun e => "Error parsing MANIFEST file: " +++ e) r in
      Ok (dir, Some content)
  end.

Definition parse_pkg (p : TarPkg) (u : Unpacking) (package_name : string) : TarPkg * (bool * string) :=
  let p := mkTarPkg (apname_version_dict p) [] (untar_file_path p) in
  match unpack_tar_blocking u with
  | Err e => (p, (false, e))
  | Ok (dir, content) =>
      parse_manifest_content (mkTarPkg (apname_version_dict p) (parse_warnings p) dir) content package_name
        (bool_decide (content = None))
  end.

(** The directory that is removed, if one is. *)
Definition remove_files (p : TarPkg) : TarPkg * option string :=
  if String.eqb (untar_file_path p) "" then (p, None)
  else (mkTarPkg (apname_version_dict p) (parse_warnings p) "", Some (untar_file_path p)).

(** ** What is unpacked is safe *)

Record safe_entry (entry : Entry) (n : N) (path : string) : Prop := mk_safe_entry {
  se_size : entry_size entry = Ok n;
  se_type : is_link (entry_type entry) = false;
  se_path : entry_path entry = Ok path;
  se_relative : is_absolute path = false;
  se_inside : has_parent_dir path = false;
}.

Lemma check_entry_ok total entry total' :
  total ≤ MAX_TAR_UNPACKED_BYTES →
  check_entry total entry = Ok total' ↔
  ∃ n path, safe_entry entry n path ∧ total' = total + n ∧ total' ≤ MAX_TAR_UNPACKED_BYTES.
Proof.
  intros Ht. unfold check_entry. split.
  - intros E. bind_ok E. repeat case_hyp E; try done. bind_ok E. repeat case_hyp E; try done.
    injection E as <-. reflect_nums. unfold read_failed, map_err in *.
    repeat match goal with H : match ?x with Ok _ => _ | Err _ => _ end = Ok _ |- _ => destruct x eqn:?; simplify_eq end.
    eexists _, _. split; [by split|]. split; [done|]. lia.
  - intros (n & path & [-> Hl -> Ha Hp] & -> & Hm). simpl. rewrite Hl, Ha, Hp.
    rewrite (proj2 (N.ltb_ge _ _)), (proj2 (N.ltb_ge _ _)); [done|done|].
    unfold MAX_TAR_UNPACKED_BYTES, U64_MAX in *. lia.
Qed.

Definition sizes (l : list (Entry * N * string)) : N := foldr (fun e n => e.1.2 + n) 0 l.

Lemma check_entries_ok remaining total entries :
  total ≤ MAX_TAR_UNPACKED_BYTES →
  check_entries remaining total entries = Ok tt ↔
  (length entries ≤ remaining)%nat ∧
  ∃ l, entries = (fun e => Ok e.1.1) <$> l ∧ Forall (fun e => safe_entry e.1.1 e.1.2 e.2) l ∧
       total + sizes l ≤ MAX_TAR_UNPACKED_BYTES.
Proof.
  revert remaining total. induction entries as [|entry entries IH]; intros remaining total Ht; simpl.
  { split; [|by intros]. intros _. split; [lia|]. exists []. split_and!; [done|constructor|simpl; lia]. }
  destruct remaining as [|remaining]; [split; [done|intros [? _]; lia]|].
  destruct entry as [entry|e]; simpl; [|split; [done|]; intros (_ & [|[[? ?] ?] ?] & ? & _); simplify_eq/=].
  destruct (check_entry total entry) as [total'|] eqn:E; simpl.
  - apply check_entry_ok in E as (n & path & Hs & -> & Hm); [|done]. rewrite IH by done.
    split.
    + intros (Hlen & l & -> & Hl & Hz). split; [lia|]. exists ((entry, n, path) :: l). split_and!; [done|by constructor|simpl; lia].
    + intros (Hlen & [|[[x m] q] l] & El & Hl & Hz); [done|]. split; [lia|]. injection El as -> ->.
      apply Forall_cons in Hl as [Hx Hl]. simpl in Hx, Hz. exists l.
      assert (m = n) as -> by (destruct Hs, Hx; congruence). split_and!; [done..|lia].
  - split; [done|]. intros (_ & [|[[x m] q] l] & El & Hl & Hz); [done|]. injection El as -> ->.
    apply Forall_cons in Hl as [Hx Hl]. simpl in Hx, Hz. exfalso.
    assert (check_entry total x = Ok (total + m)) as Ec; [|congruence].
    apply check_entry_ok; [done|]. exists m, q. split_and!; [done..|lia].
Qed.

(** Only a safe archive is unpacked, and a safe one is not refused: the check
    passes if and only if every entry can be read, there are at most 1024 of
    them, they have at most 2^30 bytes together, and each is no link and has a
    relative path without [..]. *)
Theorem tar_check_exact archive :
  validate_tar_entries_from_reader archive = Ok tt ↔
  ∃ l, archive = Ok ((fun e => Ok e.1.1) <$> l) ∧ (N.of_nat (length l) ≤ 1024) ∧ sizes l ≤ 2 ^ 30 ∧
       Forall (fun e => safe_entry e.1.1 e.1.2 e.2) l.
Proof.
  unfold validate_tar_entries_from_reader. destruct archive as [entries|e]; simpl.
  - rewrite check_entries_ok by (vm_compute; discriminate).
    assert (∀ n, (n ≤ MAX_TAR_ENTRIES)%nat ↔ N.of_nat n ≤ 1024) as Hmax by (intros n; unfold MAX_TAR_ENTRIES; lia).
    rewrite Hmax. split.
    + intros (Hl & l & -> & Hs & Hz). rewrite length_fmap in Hl. exists l. by split_and!.
    + intros (l & [= ->] & Hl & Hz & Hs). rewrite length_fmap. split; [done|]. exists l. by split_and!.
  - split; [done|]. by intros (l & ? & _).
Qed.
End TarPkg.
