(* ===== verification/Net.v ===== *)
(** * Addresses and URLs

    [utilities/special_purpose_ip.rs]: the blocks of addresses that are not
    public, and the check of an address against them.  [common/src/net.rs]: the
    guard that keeps a request on the origin of its client.  The [url] crate is
    the class [UrlCrate], of which no law is assumed; addresses are those of
    [EndpointScope]. *)

From S2P Require Import Prelude RustStd RustStr EndpointScope.
From Stdlib Require Import Ascii.
Local Open Scope string_scope.
Local Open Scope list_scope.
Local Open Scope N_scope.

Module Net.

(** ** Special-purpose addresses *)

Inductive PrivateUse :=
| Allowed
| Disallowed.

#[global] Instance PrivateUse_eq_dec : EqDecision PrivateUse.
Proof. solve_decision. Defined.

Record V4Block := mkV4Block {
  v4_network : list N;
  v4_prefix : N;
  v4_private_use : bool;
}.

Record V6Block := mkV6Block {
  v6_network : list N;
  v6_prefix : N;
  v6_private_use : bool;
}.

Definition V4_BLOCKS : list V4Block :=
  [mkV4Block [0; 0; 0; 0] 8 false;
   mkV4Block [10; 0; 0; 0] 8 true;
   mkV4Block [100; 64; 0; 0] 10 false;
   mkV4Block [127; 0; 0; 0] 8 false;
   mkV4Block [169; 254; 0; 0] 16 false;
   mkV4Block [172; 16; 0; 0] 12 true;
   mkV4Block [192; 0; 0; 0] 24 false;
   mkV4Block [192; 0; 2; 0] 24 false;
   mkV4Block [192; 31; 196; 0] 24 false;
   mkV4Block [192; 52; 193; 0] 24 false;
   mkV4Block [192; 88; 99; 0] 24 false;
   mkV4Block [192; 168; 0; 0] 16 true;
   mkV4Block [192; 175; 48; 0] 24 false;
   mkV4Block [198; 18; 0; 0] 15 false;
   mkV4Block [198; 51; 100; 0] 24 false;
   mkV4Block [203; 0; 113; 0] 24 false;
   mkV4Block [224; 0; 0; 0] 4 false;
   mkV4Block [240; 0; 0; 0] 4 false].

Definition V6_BLOCKS : list V6Block :=
  [mkV6Block [0; 0; 0; 0; 0; 0; 0; 0] 128 false;
   mkV6Block [0; 0; 0; 0; 0; 0; 0; 1] 128 false;
   mkV6Block [0x64; 0xff9b; 0; 0; 0; 0; 0; 0] 96 false;
   mkV6Block [0x64; 0xff9b; 1; 0; 0; 0; 0; 0] 48 false;
   mkV6Block [0x0100; 0; 0; 0; 0; 0; 0; 0] 64 false;
   mkV6Block [0x2001; 0; 0; 0; 0; 0; 0; 0] 23 false;
   mkV6Block [0x2001; 0xdb8; 0; 0; 0; 0; 0; 0] 32 false;
   mkV6Block [0x2002; 0; 0; 0; 0; 0; 0; 0] 16 false;
   mkV6Block [0x3fff; 0; 0; 0; 0; 0; 0; 0] 20 false;
   mkV6Block [0xfc00; 0; 0; 0; 0; 0; 0; 0] 7 true;
   mkV6Block [0xfe80; 0; 0; 0; 0; 0; 0; 0] 10 false;
   mkV6Block [0xff00; 0; 0; 0; 0; 0; 0; 0] 8 false].

(** [u32::from] and [u128::from]: the parts, most significant first. *)
Definition u32_from (octets : list N) : N := foldl (fun acc o => acc * 2 ^ 8 + o) 0 octets.
Definition u128_from (segments : list N) : N := foldl (fun acc s => acc * 2 ^ 16 + s) 0 segments.

(** The mask of a prefix: [MAX << shift] at a width. *)
Definition mask (width prefix : N) : N :=
  let shift := width - prefix in
  if prefix =? 0 then 0 else N.shiftl (2 ^ width - 1) shift mod 2 ^ width.

Definition ipv4_contains (ip : list N) (block : V4Block) : bool :=
  let m := mask 32 (v4_prefix block) in
  N.land (u32_from ip) m =? N.land (u32_from (v4_network block)) m.

Definition ipv6_contains (ip : list N) (block : V6Block) : bool :=
  let m := mask 128 (v6_prefix block) in
  N.land (u128_from ip) m =? N.land (u128_from (v6_network block)) m.

Definition v4_blocks (private_use : PrivateUse) : list V4Block :=
  filter (fun b => bool_decide (private_use = Disallowed) || negb (v4_private_use b)) V4_BLOCKS.

Definition v6_blocks (private_use : PrivateUse) : list V6Block :=
  filter (fun b => bool_decide (private_use = Disallowed) || negb (v6_private_use b)) V6_BLOCKS.

Definition unwrap_ipv4_mapped (ip : IpAddr) : IpAddr :=
  match ip with
  | V6 segments => default (V6 segments) (V4 <$> to_ipv4_mapped segments)
  | V4 octets => V4 octets
  end.

Definition is_special_purpose_ip (ip : IpAddr) (private_use : PrivateUse) : bool :=
  match unwrap_ipv4_mapped ip with
  | V4 octets => existsb (ipv4_contains octets) (v4_blocks private_use)
  | V6 segments => existsb (ipv6_contains segments) (v6_blocks private_use)
  end.

(** ** The [url] crate *)

Inductive Host :=
| Domain (name : string)
| Ipv4 (octets : list N)
| Ipv6 (segments : list N).

Class UrlCrate := {
  Url : Type;
  Origin : Type;
  ParseError : Type;
  url_parse : string → result ParseError Url;
  url_join : Url → string → option Url;
  url_scheme : Url → string;
  url_host : Url → option Host;
  url_host_str : Url → option string;
  url_origin : Url → Origin;
  url_path : Url → string;
  url_as_str : Url → string;
  url_to_file_path : Url → option string;
  (** [set_username("")], [set_password(None)], [set_query(None)] and
      [set_fragment(None)]. *)
  url_without_username : Url → Url;
  url_without_password : Url → Url;
  url_without_query : Url → Url;
  url_without_fragment : Url → Url;
  (** [url::Host::parse] *)
  host_parse : string → option Host;
  #[global] Origin_eq_dec :: EqDecision Origin;
}.

(** ** Requests on one origin *)

Inductive EndpointRejection `{UrlCrate} :=
| UnparseableBase (e : ParseError)
| OffOriginOrMalformed.

Definition is_double_dot_segment (segment : chars) : bool :=
  contains [".."; ".%2e"; "%2e."; "%2e%2e"] (of_chars (to_ascii_lowercase segment)).

(** [split_once] at the first of several characters: what is before it. *)
Fixpoint before_any (ds : list ascii) (l : chars) : chars :=
  match l with
  | [] => []
  | c :: l => if contains ds c then [] else c :: before_any ds l
  end.

(** [str::split] at any of several characters. *)
Fixpoint split_any (ds : list ascii) (l : chars) : list chars :=
  match l with
  | [] => [[]]
  | c :: l =>
      if contains ds c then [] :: split_any ds l
      else match split_any ds l with
           | s :: ss => (c :: s) :: ss
           | [] => [[c]]
           end
  end.

Definition slash : ascii := ascii_of_N 47.
Definition question : ascii := ascii_of_N 63.
Definition hash : ascii := ascii_of_N 35.

Definition has_encoded_path_separator (endpoint : string) : bool :=
  let path := to_ascii_lowercase (before_any [question; hash] (to_chars endpoint)) in
  contains_str path (to_chars "%2f") || contains_str path (to_chars "%5c").

Definition within_allowed_tree (required_prefix : option string) (path : string) : bool :=
  match required_prefix with
  | Some prefix =>
      String.eqb path prefix ||
      (starts_with (to_chars path) (to_chars prefix) &&
       starts_with (drop (String.length prefix) (to_chars path)) [slash])
  | None => true
  end.

Section Url.
Context `{UrlCrate}.

Definition resolve_same_origin (base_url endpoint : string) (required_prefix : option string)
    : result EndpointRejection Url :=
  let? base := map_err UnparseableBase (url_parse base_url) in
  let is_absolute_path := starts_with (to_chars endpoint) [slash] in
  let has_traversal_segment :=
    existsb is_double_dot_segment (split_any [slash; backslash] (to_chars endpoint)) in
  let has_encoded_separator := has_encoded_path_separator endpoint in
  let resolved :=
    match url_join base endpoint with
    | Some resolved => if decide (url_origin resolved = url_origin base) then Some resolved else None
    | None => None
    end in
  match resolved with
  | Some url =>
      if is_absolute_path && negb has_traversal_segment && negb has_encoded_separator &&
         within_allowed_tree required_prefix (url_path url)
      then Ok url
      else Err OffOriginOrMalformed
  | None => Err OffOriginOrMalformed
  end.
End Url.
End Net.
