(* ===== verification/NetTheorems.v ===== *)
(** * Properties of the address check and of the URL guard *)

From S2P Require Import Prelude RustStd RustStr EndpointScope Net.
From Stdlib Require Import Ascii.
Local Open Scope list_scope.
Local Open Scope N_scope.

Module NetTheorems.
Import Net.

(** ** Prefixes as ranges *)

Lemma land_mask width prefix addr :
  prefix ≤ width → addr < 2 ^ width →
  N.land addr (mask width prefix) = addr / 2 ^ (width - prefix) * 2 ^ (width - prefix).
Proof.
  intros Hp Ha. unfold mask. set (shift := width - prefix).
  rewrite <- N.shiftr_div_pow2, <- N.shiftl_mul_pow2.
  destruct (N.eqb_spec prefix 0) as [->|Hz].
  - rewrite N.land_0_r. unfold shift. rewrite N.sub_0_r, N.shiftr_div_pow2, N.div_small by done.
    by rewrite N.shiftl_0_l.
  - apply N.bits_inj. intros i. rewrite N.land_spec.
    rewrite <- N.land_ones, N.land_spec.
    destruct (N.lt_ge_cases i shift) as [Hi|Hi].
    { rewrite !N.shiftl_spec_low by done. by rewrite andb_false_r. }
    rewrite !N.shiftl_spec_high' by done. rewrite N.shiftr_spec', N.sub_add by done.
    destruct (N.testbit addr i) eqn:E; [|done]. simpl.
    assert (i < width) as Hw.
    { destruct (N.lt_ge_cases i width) as [|Hge]; [done|].
      rewrite (N.bits_above_log2 addr i) in E; [done|].
      destruct (N.eq_dec addr 0) as [->|Hne]; [by rewrite N.bits_0 in E|].
      apply N.log2_lt_pow2; [lia|]. eapply N.lt_le_trans; [exact Ha|]. by apply N.pow_le_mono_r. }
    rewrite N.sub_1_r, <- N.ones_equiv. rewrite !N.ones_spec_low by lia. done.
Qed.

(** The first and one past the last address of a block. *)
Lemma contains_range width prefix addr network :
  prefix ≤ width → addr < 2 ^ width → network < 2 ^ width →
  network mod 2 ^ (width - prefix) = 0 →
  (N.land addr (mask width prefix) =? N.land network (mask width prefix)) = true ↔
  network ≤ addr < network + 2 ^ (width - prefix).
Proof.
  intros Hp Ha Hn Hm. rewrite N.eqb_eq, !land_mask by done.
  set (k := 2 ^ (width - prefix)) in *. assert (0 < k) as Hk by (apply N.neq_0_lt_0, N.pow_nonzero; done).
  pose proof (N.div_mod network k ltac:(lia)) as En. rewrite Hm in En.
  pose proof (N.div_mod addr k ltac:(lia)) as Ea. pose proof (N.mod_lt addr k ltac:(lia)) as Hlt.
  remember (addr mod k) as r eqn:Er. clear Er Hm. split; intros E.
  - apply N.mul_cancel_r in E; [|lia]. rewrite E in Ea. remember (network / k) as q eqn:Eq. clear Eq E. lia.
  - assert (addr / k = network / k) as ->; [|done]. symmetry.
    apply (N.div_unique addr k (network / k) (addr - network)); [lia|].
    remember (network / k) as q eqn:Eq. clear Eq Ea. lia.
Qed.

(** ** Addresses *)

Definition ip_ok (ip : IpAddr) : Prop :=
  match ip with
  | V4 octets => length octets = 4%nat ∧ Forall (fun o => o < 256) octets
  | V6 segments => length segments = 8%nat ∧ Forall (fun s => s < 65536) segments
  end.

Lemma fold_bound (k n acc : N) (parts : list N) :
  Forall (fun x => x < 2 ^ k) parts → acc < 2 ^ n →
  foldl (fun acc x => acc * 2 ^ k + x) acc parts < 2 ^ (n + k * N.of_nat (length parts)).
Proof.
  intros Hf. revert n acc. induction Hf as [|x parts Hx Hf IH]; intros n acc Ha; simpl foldl.
  { by rewrite N.mul_0_r, N.add_0_r. }
  assert (acc * 2 ^ k + x < 2 ^ (n + k)) as H1 by (rewrite N.pow_add_r; nia).
  eapply N.lt_le_trans; [by apply IH|]. apply N.pow_le_mono_r; [done|]. simpl length. lia.
Qed.

Lemma u32_bound octets : ip_ok (V4 octets) → u32_from octets < 2 ^ 32.
Proof.
  intros [Hl Hf]. pose proof (fold_bound 8 0 0 octets Hf ltac:(done)) as Hb. by rewrite Hl in Hb.
Qed.

Lemma u128_bound segments : ip_ok (V6 segments) → u128_from segments < 2 ^ 128.
Proof.
  intros [Hl Hf]. pose proof (fold_bound 16 0 0 segments Hf ltac:(done)) as Hb. by rewrite Hl in Hb.
Qed.

Lemma unwrap_ok ip : ip_ok ip → ip_ok (unwrap_ipv4_mapped ip).
Proof.
  destruct ip as [octets|segments]; [done|]. intros Hok. unfold unwrap_ipv4_mapped.
  destruct (to_ipv4_mapped segments) as [os|] eqn:E; simpl; [|done].
  unfold to_ipv4_mapped in E. repeat case_hyp E; try done. injection E as <-.
  destruct Hok as [_ Hf]. rewrite !Forall_cons in Hf. destruct_and!.
  split; [done|]. repeat constructor; try (by apply N.mod_lt); apply N.Div0.div_lt_upper_bound; lia.
Qed.

(** The networks of the tables are those of their prefixes. *)
Definition aligned (width network prefix : N) : bool :=
  (prefix <=? width) && (network <? 2 ^ width) && (network mod 2 ^ (width - prefix) =? 0).

Lemma aligned_range width network prefix addr :
  aligned width network prefix = true → addr < 2 ^ width →
  (N.land addr (mask width prefix) =? N.land network (mask width prefix)) = true ↔
  network ≤ addr < network + 2 ^ (width - prefix).
Proof. unfold aligned. intros Ha Hb. reflect_nums. by apply contains_range. Qed.

Lemma v4_aligned : forallb (fun b => aligned 32 (u32_from (v4_network b)) (v4_prefix b)) V4_BLOCKS = true.
Proof. vm_compute. reflexivity. Qed.

Lemma v6_aligned : forallb (fun b => aligned 128 (u128_from (v6_network b)) (v6_prefix b)) V6_BLOCKS = true.
Proof. vm_compute. reflexivity. Qed.

Lemma existsb_filter {A} (p : A → bool) (q : A → bool) (l : list A) :
  existsb p (filter (fun x => q x) l) = true ↔ ∃ x, x ∈ l ∧ q x = true ∧ p x = true.
Proof.
  rewrite existsb_exists. setoid_rewrite <- list_elem_of_In. setoid_rewrite list_elem_of_filter.
  setoid_rewrite Is_true_true. naive_solver.
Qed.

Lemma and_iff_l (P Q R : Prop) : (P → (Q ↔ R)) → (P ∧ Q) ↔ (P ∧ R).
Proof. tauto. Qed.

(** C34. An address is special-purpose if and only if it lies in one of the
    blocks of the registry, as a range of numbers: from the network address on,
    two to the number of host bits many. Private blocks count unless private use
    is allowed, and an IPv4-mapped address is the IPv4 address in it. *)
Theorem special_purpose_exact ip private_use :
  ip_ok ip →
  is_special_purpose_ip ip private_use = true ↔
  match unwrap_ipv4_mapped ip with
  | V4 octets =>
      ∃ b, b ∈ V4_BLOCKS ∧ (private_use = Disallowed ∨ v4_private_use b = false) ∧
           u32_from (v4_network b) ≤ u32_from octets < u32_from (v4_network b) + 2 ^ (32 - v4_prefix b)
  | V6 segments =>
      ∃ b, b ∈ V6_BLOCKS ∧ (private_use = Disallowed ∨ v6_private_use b = false) ∧
           u128_from (v6_network b) ≤ u128_from segments < u128_from (v6_network b) + 2 ^ (128 - v6_prefix b)
  end.
Proof.
  intros Hok%unwrap_ok. unfold is_special_purpose_ip, v4_blocks, v6_blocks.
  destruct (unwrap_ipv4_mapped ip) as [octets|segments]; rewrite existsb_filter; f_equiv; intros b;
    apply and_iff_l; intros Hb; rewrite orb_true_iff, bool_decide_eq_true, negb_true_iff; apply and_iff_l; intros _.
  - pose proof v4_aligned as Ha. rewrite forallb_forall in Ha.
    apply aligned_range; [by apply Ha, list_elem_of_In|by apply u32_bound].
  - pose proof v6_aligned as Ha. rewrite forallb_forall in Ha.
    apply aligned_range; [by apply Ha, list_elem_of_In|by apply u128_bound].
Qed.

Lemma special_purpose_exact_witness :
  ip_ok (V6 [0; 0; 0; 0; 0; 65535; 0x0a00; 1]) ∧
  ∃ b, b ∈ V4_BLOCKS ∧ (Disallowed = Disallowed ∨ v4_private_use b = false) ∧
       u32_from (v4_network b) ≤ u32_from [10; 0; 0; 1] < u32_from (v4_network b) + 2 ^ (32 - v4_prefix b).
Proof.
  assert (ip_ok (V6 [0; 0; 0; 0; 0; 65535; 0x0a00; 1])) as Hok by (split; [done|repeat constructor]).
  split; [exact Hok|].
  exact (proj1 (special_purpose_exact (V6 [0; 0; 0; 0; 0; 65535; 0x0a00; 1]) Disallowed Hok) eq_refl).
Defined.

(** ** What a server sees *)

Definition percent : ascii := ascii_of_N 37.

(** One round of percent-decoding. *)
Fixpoint percent_decode (l : chars) : chars :=
  match l with
  | [] => []
  | c :: l =>
      if Ascii.eqb c percent then
        match l with
        | a :: b :: rest =>
            match to_digit 16 a, to_digit 16 b with
            | Some x, Some y => ascii_of_N (x * 16 + y) :: percent_decode rest
            | _, _ => c :: percent_decode l
            end
        | _ => c :: percent_decode l
        end
      else c :: percent_decode l
  end.

Definition separators : list ascii := [slash; backslash].

Lemma separators_spec d : contains separators d = true ↔ d = slash ∨ d = backslash.
Proof. unfold contains, separators. rewrite bool_decide_eq_true. set_solver. Qed.

Lemma separator_not_hex d : contains separators d = true → to_digit 16 d = None ∧ d ≠ percent.
Proof. intros [-> | ->]%separators_spec; by split. Qed.

(** Decoding does not look across a separator. *)
Lemma decode_app s d r :
  contains separators d = true →
  percent_decode (s ++ d :: r) = percent_decode s ++ d :: percent_decode r.
Proof.
  intros [Hd Hp]%separator_not_hex. revert s. apply (induction_ltof1 _ (@length ascii)).
  intros s IH. unfold ltof in IH.
  assert (percent_decode (d :: r) = d :: percent_decode r) as H0.
  { simpl. by destruct (Ascii.eqb_spec d percent). }
  destruct s as [|c s]; [done|].
  cbn [app percent_decode]. destruct (Ascii.eqb c percent); [|by rewrite IH by (simpl; lia)].
  destruct s as [|a [|b s]]; cbn [app].
  - rewrite H0. destruct r as [|e r]; [done|]. by rewrite Hd.
  - rewrite Hd. replace (percent_decode (a :: d :: r)) with (percent_decode [a] ++ d :: percent_decode r)
      by (symmetry; apply (IH [a]); simpl; lia). by destruct (to_digit 16 a).
  - replace (percent_decode (a :: b :: s ++ d :: r)) with (percent_decode (a :: b :: s) ++ d :: percent_decode r)
      by (symmetry; apply (IH (a :: b :: s)); simpl; lia).
    destruct (to_digit 16 a), (to_digit 16 b); try done. by rewrite IH by (simpl; lia).
Qed.

Lemma lower_digit a x : to_digit 16 a = Some x → ascii_lower a = digit_char x ∧ x < 16.
Proof.
  assert (match to_digit 16 a with
          | Some x => Ascii.eqb (ascii_lower a) (digit_char x) && (x <? 16)
          | None => true
          end = true) as Ha by (by destruct a as [[] [] [] [] [] [] [] []]).
  intros E. rewrite E in Ha. apply andb_true_iff in Ha as [H1%Ascii.eqb_eq H2%N.ltb_lt]. by split.
Qed.

(** A pair of digits that decodes to [c] is, in lower case, the hexadecimal of [c]. *)
Lemma hex_pair a b x y c :
  to_digit 16 a = Some x → to_digit 16 b = Some y → ascii_of_N (x * 16 + y) = c →
  ascii_lower a = digit_char (N_of_ascii c / 16) ∧ ascii_lower b = digit_char (N_of_ascii c mod 16).
Proof.
  intros [-> Hx]%lower_digit [-> Hy]%lower_digit <-. rewrite N_ascii_embedding by lia.
  rewrite N.div_add_l, N.div_small, N.add_0_r by lia.
  by rewrite N.add_comm, N.Div0.mod_add, N.mod_small by lia.
Qed.

(** The path has no encoded separator. *)
Definition no_encoded (l : chars) : Prop :=
  contains_str (to_ascii_lowercase l) (to_chars "%2f") = false ∧
  contains_str (to_ascii_lowercase l) (to_chars "%5c") = false.

Lemma no_encoded_sub a l b : no_encoded (a ++ l ++ b) → no_encoded l.
Proof.
  assert (∀ p, contains_str (to_ascii_lowercase (a ++ l ++ b)) p = false →
               contains_str (to_ascii_lowercase l) p = false) as Hsub.
  { intros p. rewrite <- !not_true_iff_false, !contains_str_spec. intros Hn (u & v & E). apply Hn.
    exists (to_ascii_lowercase a ++ u), (v ++ to_ascii_lowercase b).
    unfold to_ascii_lowercase in *. rewrite !map_app, E. by rewrite <- !app_assoc. }
  intros [H1 H2]. split; by apply Hsub.
Qed.

Definition no_separator (l : chars) : Prop := Forall (fun c => contains separators c = false) l.

Lemma decode_no_separator l : no_encoded l → no_separator l → no_separator (percent_decode l).
Proof.
  pattern l. revert l. refine (induction_ltof1 _ (@length ascii) _ _). intros l IH He Hs. unfold ltof in IH.
  destruct l as [|c l]; [constructor|]. apply Forall_cons in Hs as [Hc Hs].
  assert (no_separator (c :: percent_decode l)) as Hplain.
  { constructor; [done|]. apply IH; [simpl; lia| |done]. apply (no_encoded_sub [c] l []). by rewrite app_nil_r. }
  cbn [percent_decode]. destruct (Ascii.eqb_spec c percent) as [->|]; [|done].
  destruct l as [|a [|b l]]; [done..|].
  destruct (to_digit 16 a) as [x|] eqn:Ea; [|done]. destruct (to_digit 16 b) as [y|] eqn:Eb; [|done].
  constructor.
  - apply not_true_iff_false. intros [E|E]%separators_spec;
      destruct (hex_pair _ _ _ _ _ Ea Eb E) as [Hla Hlb]; destruct He as [H1 H2];
      rewrite <- not_true_iff_false, contains_str_spec in H1, H2; [apply H1|apply H2];
      exists [], (to_ascii_lowercase l); simpl; by rewrite Hla, Hlb.
  - apply IH; [simpl; lia| |].
    + apply (no_encoded_sub [percent; a; b] l []). by rewrite app_nil_r.
    + by do 2 apply Forall_cons in Hs as [_ Hs].
Qed.

Lemma split_any_none l : no_separator l → split_any separators l = [l].
Proof. induction 1 as [|c l Hc Hl IH]; [done|]. cbn [split_any]. by rewrite Hc, IH. Qed.

Lemma split_any_app s d r :
  no_separator s → contains separators d = true →
  split_any separators (s ++ d :: r) = s :: split_any separators r.
Proof.
  intros Hs Hd. induction Hs as [|c s Hc Hs IH]; cbn [split_any app]; [by rewrite Hd|].
  by rewrite Hc, IH.
Qed.

(** A string without separators, or the first segment and the rest. *)
Lemma segment_ind (P : chars → Prop) :
  (∀ l, no_separator l → P l) →
  (∀ s d r, no_separator s → contains separators d = true → P r → P (s ++ d :: r)) →
  ∀ l, P l.
Proof.
  intros H0 H1 l. remember (length l) as n eqn:En. revert l En.
  induction (lt_wf n) as [n _ IH]. intros l ->.
  assert (no_separator l ∨ ∃ s d r, l = s ++ d :: r ∧ no_separator s ∧ contains separators d = true) as [Hl|(s & d & r & -> & Hs & Hd)].
  { clear IH. induction l as [|c l IH]; [left; constructor|]. destruct (contains separators c) eqn:E.
    - right. exists [], c, l. split_and!; [done|constructor|done].
    - destruct IH as [Hl|(s & d & r & -> & Hs & Hd)]; [left; by constructor|].
      right. exists (c :: s), d, r. split_and!; [done|by constructor|done]. }
  - by apply H0.
  - apply H1; [done..|]. apply (IH (length r)); [|done]. rewrite length_app; simpl; lia.
Qed.

(** Segments of the decoded path are the decoded segments. *)
Lemma split_decode l :
  no_encoded l → split_any separators (percent_decode l) = percent_decode <$> split_any separators l.
Proof.
  pattern l. apply segment_ind; clear l.
  - intros l Hs He. rewrite !split_any_none; [done|done|]. by apply decode_no_separator.
  - intros s d r Hs Hd IH He. rewrite decode_app by done.
    assert (no_separator (percent_decode s)) by (apply decode_no_separator; [by apply (no_encoded_sub [] s (d :: r))|done]).
    rewrite !split_any_app by done. simpl. rewrite IH; [done|].
    apply (no_encoded_sub (s ++ [d]) r []). by rewrite app_nil_r, <- app_assoc.
Qed.

Definition dotdot : chars := to_chars "..".

Lemma decode_char l c rest :
  percent_decode l = c :: rest →
  (∃ l', l = c :: l' ∧ rest = percent_decode l') ∨
  (∃ a b l', l = percent :: a :: b :: l' ∧ rest = percent_decode l' ∧
     ascii_lower a = digit_char (N_of_ascii c / 16) ∧ ascii_lower b = digit_char (N_of_ascii c mod 16)).
Proof.
  destruct l as [|d l]; [done|]. cbn [percent_decode].
  destruct (Ascii.eqb_spec d percent) as [->|]; [|intros [= -> <-]; left; eauto].
  destruct l as [|a [|b l]]; [intros [= <- <-]; left; eauto..|].
  destruct (to_digit 16 a) as [x|] eqn:Ea; [|intros [= <- <-]; left; eauto].
  destruct (to_digit 16 b) as [y|] eqn:Eb; [|intros [= <- <-]; left; eauto].
  intros [= E <-]. right. exists a, b, l. destruct (hex_pair _ _ _ _ _ Ea Eb E) as [Hla Hlb]. by split_and!.
Qed.

Lemma decode_nil l : percent_decode l = [] → l = [].
Proof. destruct l as [|d l]; [done|]. cbn [percent_decode]. intros E. repeat case_hyp E; done. Qed.

(** The check of a segment finds every encoding of [..]. *)
Lemma double_dot_decode s : percent_decode s = dotdot → is_double_dot_segment s = true.
Proof.
  unfold is_double_dot_segment, contains. rewrite bool_decide_eq_true. intros E.
  apply decode_char in E as [(l & -> & E)|(a & b & l & -> & E & Ha & Hb)]; symmetry in E;
  apply decode_char in E as [(k & -> & E)|(c & d & k & -> & E & Hc & Hd)]; symmetry in E;
  apply decode_nil in E as ->; unfold to_ascii_lowercase; cbn [map]; rewrite ?Ha, ?Hb, ?Hc, ?Hd; vm_compute; set_solver.
Qed.

(** The segments of the path that the guard vouches for, as a server that decodes
    them sees them: all of them, but not the last one when a query or a fragment
    follows. *)
Definition path_of (endpoint : string) : chars := before_any [question; hash] (to_chars endpoint).

Definition seen_segments (endpoint : string) : list chars :=
  let segments := split_any separators (percent_decode (path_of endpoint)) in
  if bool_decide (path_of endpoint = to_chars endpoint) then segments else removelast segments.

Lemma before_any_prefix ds l : ∃ r, l = before_any ds l ++ r.
Proof.
  induction l as [|c l [r IH]]; [by exists []|]. cbn [before_any]. destruct (contains ds c); [by eexists|].
  exists r. simpl. by rewrite <- IH.
Qed.

Lemma split_any_cons l : ∃ s ss, split_any separators l = s :: ss.
Proof.
  induction l as [|c l (s & ss & IH)]; cbn [split_any]; [eauto|]. rewrite IH. destruct (contains _ _); eauto.
Qed.

Lemma removelast_split s l r : s ∈ removelast (split_any separators l) → s ∈ split_any separators (l ++ r).
Proof.
  pattern l. apply segment_ind; clear l.
  - intros l Hl. rewrite split_any_none by done. simpl. by intros ?%not_elem_of_nil.
  - intros a d l Ha Hd IH. rewrite <- app_assoc. cbn [app]. rewrite !split_any_app by done.
    destruct (split_any_cons l) as (t & ts & Et). rewrite Et in IH |- *. cbn [removelast] in IH |- *.
    rewrite !elem_of_cons. naive_solver.
Qed.

Lemma removelast_fmap {A B} (f : A → B) (l : list A) : removelast (f <$> l) = f <$> removelast l.
Proof. induction l as [|x [|y l] IH]; [done..|]. cbn [removelast fmap list_fmap] in *. by rewrite IH. Qed.

Lemma seen_no_traversal endpoint :
  existsb is_double_dot_segment (split_any separators (to_chars endpoint)) = false →
  has_encoded_path_separator endpoint = false → dotdot ∉ seen_segments endpoint.
Proof.
  intros Ht He%orb_false_iff Hin. unfold seen_segments in Hin. rewrite split_decode in Hin by done.
  assert (∃ s, s ∈ split_any separators (to_chars endpoint) ∧ percent_decode s = dotdot) as (s & Hs & Ed).
  { case_bool_decide as E.
    - rewrite E in Hin. apply list_elem_of_fmap in Hin as (s & Es & Hs). eauto.
    - rewrite removelast_fmap in Hin. apply list_elem_of_fmap in Hin as (s & Es & Hs).
      destruct (before_any_prefix [question; hash] (to_chars endpoint)) as [r Hr].
      exists s. split; [|done]. rewrite Hr. by apply removelast_split. }
  apply not_true_iff_false in Ht. apply Ht, existsb_exists. exists s.
  split; [by apply list_elem_of_In|by apply double_dot_decode].
Qed.

Lemma length_to_chars s : String.length s = length (to_chars s).
Proof. unfold to_chars. induction s as [|c s IH]; [done|]. simpl. by rewrite IH. Qed.

Section Guard.
Context `{UrlCrate}.

(** C35. What the guard lets through stays on the client's origin and in the
    required tree. The URL is what the parser makes of the endpoint, it has the
    origin of the base, its path is the prefix or continues it after a slash;
    the endpoint is an absolute path, and no segment of its path is [..] for a
    server that percent-decodes the path before it splits it. The last segment
    is not covered when a query or a fragment follows it. *)
Theorem same_origin_safe base_url endpoint required_prefix url :
  resolve_same_origin base_url endpoint required_prefix = Ok url →
  ∃ base, url_parse base_url = Ok base ∧ url_join base endpoint = Some url ∧
    url_origin url = url_origin base ∧
    (∃ rest, to_chars endpoint = slash :: rest) ∧ (dotdot ∉ seen_segments endpoint) ∧
    ∀ prefix, required_prefix = Some prefix →
      url_path url = prefix ∨ ∃ rest, to_chars (url_path url) = to_chars prefix ++ slash :: rest.
Proof.
  unfold resolve_same_origin. destruct (url_parse base_url) as [base|]; [|done]. simpl. fold separators.
  destruct (url_join base endpoint) as [u|] eqn:Ej; [|done]. case_decide as Ho; [|done].
  destruct (_ && _ && _ && _) eqn:E; [|done]. intros [= ->]. reflect_bools.
  exists base. split_and!; try done.
  - match goal with Hs : starts_with _ _ = true |- _ => apply starts_with_split in Hs as [r Hr] end. by exists r.
  - by apply seen_no_traversal.
  - intros prefix ->. match goal with Hw : within_allowed_tree _ _ = true |- _ => unfold within_allowed_tree in Hw; apply orb_true_iff in Hw as [Heq|Hrest] end.
    { left. by apply String.eqb_eq. }
    right. apply andb_true_iff in Hrest as [[r Hr]%starts_with_split Hs]. rewrite Hr in Hs |- *.
    rewrite length_to_chars, drop_app_length in Hs. apply starts_with_split in Hs as [k ->]. by exists k.
Qed.

(** The segment check splits the whole endpoint at separators, so a [..] that a
    query or a fragment follows is not a segment of its own, and passes. *)
Lemma traversal_before_query base_url base url :
  let endpoint := "/redfish/v1/Systems/..?x=1" in
  last (split_any separators (path_of endpoint)) = Some dotdot ∧
  (url_parse base_url = Ok base → url_join base endpoint = Some url → url_origin url = url_origin base →
   resolve_same_origin base_url endpoint None = Ok url).
Proof.
  intros endpoint. split; [reflexivity|]. intros Hb Hj Ho. unfold resolve_same_origin.
  rewrite Hb. simpl. fold endpoint. rewrite Hj, decide_True by done. reflexivity.
Qed.
End Guard.

(** A crate that keeps the base's text as the origin and the endpoint as the path. *)
#[local] Instance example_crate : UrlCrate := {
  Url := string * string;
  Origin := string;
  ParseError := unit;
  url_parse s := Ok (s, "/");
  url_join u endpoint := Some (u.1, endpoint);
  url_scheme _ := "https";
  url_host u := Some (Domain u.1);
  url_host_str u := Some u.1;
  url_origin u := u.1;
  url_path u := of_chars (path_of u.2);
  url_as_str u := u.1 +++ u.2;
  url_to_file_path _ := None;
  url_without_username u := u;
  url_without_password u := u;
  url_without_query u := u;
  url_without_fragment u := u;
  host_parse s := Some (Domain s);
}.

Lemma same_origin_safe_witness :
  ∃ url, resolve_same_origin "https://10.0.0.1" "/redfish/v1/%2e/Chassis?x=..%2f" (Some "/redfish/v1") = Ok url ∧
         url_origin url = "https://10.0.0.1".
Proof.
  assert (is_ok (resolve_same_origin "https://10.0.0.1" "/redfish/v1/%2e/Chassis?x=..%2f" (Some "/redfish/v1")) = true)
    as Hok by reflexivity.
  destruct (resolve_same_origin _ _ _) as [url|] eqn:E in Hok; [|discriminate Hok].
  exists url. split; [exact E|]. destruct (same_origin_safe _ _ _ _ E) as (base & Eb & _ & Eo & _).
  injection Eb as <-. exact Eo.
Defined.
End NetTheorems.
