(* ===== verification/Artifacts.v ===== *)
(** * Firmware artifacts: errors, digests, locations and the host policy

    [api/grpc/artifact_download/error.rs], [api/grpc/artifact_download_policy.rs],
    [api/grpc/firmware_artifact_paths.rs], and the parts of
    [api/grpc/artifact_download.rs] that do no input or output.  The errors of
    the HTTP client and the text of a status code are the class [Reqwest], of
    which no law is assumed. *)

From S2P Require Import Prelude RustStd RustStr EndpointScope RmsError JobTypes FabricLayout.
From S2P Require Import PldmPackage Net.
From Stdlib Require Import Ascii.
Local Open Scope string_scope.
Local Open Scope list_scope.
Local Open Scope N_scope.

Module Artifacts.
Import Net FabricLayout.

(** ** Errors *)

(** The kinds of [std::io::ErrorKind] that are told apart. *)
Inductive ErrorKind :=
| NotFound
| ConnectionRefused
| ConnectionReset
| ConnectionAborted
| NotConnected
| BrokenPipe
| TimedOut
| UnexpectedEof
| Interrupted
| WouldBlock
| OtherKind.

Record IoError := mkIoError {
  kind : ErrorKind;
  io_display : string;
}.

(** An error of a chain of sources: what it is downcast to, and its text. *)
Record Cause := mkCause {
  hyper_incomplete_message : bool;
  cause_io_kind : option ErrorKind;
  cause_display : string;
}.

(** [reqwest]: its error is the first of its [causes]. *)
Class Reqwest := {
  ReqError : Type;
  is_timeout : ReqError → bool;
  causes : ReqError → list Cause;
  without_url : ReqError → ReqError;
  status_display : N → string;
}.

Section Errors.
Context `{Reqwest}.

Definition retryable_kind (k : ErrorKind) : bool :=
  match k with NotFound | OtherKind => false | _ => true end.

Definition retryable_transport_error (error : ReqError) : bool :=
  existsb (fun source => hyper_incomplete_message source ||
                         match cause_io_kind source with Some k => retryable_kind k | None => false end)
    (causes error).

Inductive ArtifactError :=
| InvalidArgument (message : string)
| Cache (message : string)
| RedirectPolicy (message : string)
| Io (context : string) (source : IoError)
| Transport (code : JobError) (context : string) (source : ReqError)
| HttpStatus (status : N) (url : string)
| Integrity (message : string)
| Cancelled
| Context_ (context : string) (source : ArtifactError)
| Multiple (errors : list ArtifactError).

Definition reqwest_display (error : ReqError) : string :=
  default "" (cause_display <$> head (causes error)).

(** [impl Display], by [thiserror]. *)
Fixpoint display (e : ArtifactError) : string :=
  match e with
  | InvalidArgument message | Cache message | RedirectPolicy message | Integrity message => message
  | Io context source => context +++ ": " +++ io_display source
  | Transport _ context source => context +++ ": " +++ reqwest_display source
  | HttpStatus status url => "download failed with status " +++ status_display status +++ ": " +++ url
  | Cancelled => "artifact preparation cancelled"
  | Context_ context source => context +++ ": " +++ display source
  | Multiple errors => "artifact preparation failed: " +++ join_str "; " (map display errors)
  end.

(** Consecutive equal texts are kept once. *)
Fixpoint chain_parts (last : option string) (texts : list string) : list string :=
  match texts with
  | [] => []
  | text :: texts =>
      if bool_decide (last = Some text) then chain_parts last texts
      else text :: chain_parts (Some text) texts
  end.

Definition format_error_chain (error : ReqError) : string :=
  join_str ": " (chain_parts None (cause_display <$> causes error)).

(** [From<reqwest::Error>] and [From<std::io::Error>]. *)
Definition from_reqwest (source : ReqError) : ArtifactError :=
  let source := without_url source in
  let code := if is_timeout source then JobErrorM.Timeout
              else if retryable_transport_error source then JobErrorM.ServerError
              else JobErrorM.ClientError in
  Transport code ("artifact transport failed: " +++ format_error_chain source) source.

Definition from_io (source : IoError) : ArtifactError := Io "artifact I/O failed" source.

Definition context (e : ArtifactError) (text : string) : ArtifactError := Context_ text e.

Definition transport (text : string) (source : ReqError) : ArtifactError :=
  context (from_reqwest source) text.

Definition transient_code (code : JobError) : bool :=
  match code with JobErrorM.ServerError | JobErrorM.Timeout => true | _ => false end.

Definition status_code (status : N) : JobError :=
  if (status =? 401) || (status =? 403) then JobErrorM.Unauthenticated
  else if status =? 404 then JobErrorM.FileNotFound
  else if status =? 408 then JobErrorM.Timeout
  else if (status =? 429) || ((500 <=? status) && (status <=? 599)) then JobErrorM.ServerError
  else JobErrorM.ClientError.

Fixpoint job_error (e : ArtifactError) : JobError :=
  match e with
  | InvalidArgument _ => JobErrorM.InvalidArgument
  | Cache _ | RedirectPolicy _ | Integrity _ | Cancelled => JobErrorM.FailedPrecondition
  | Io _ source =>
      match kind source with NotFound => JobErrorM.FileNotFound | _ => JobErrorM.FailedPrecondition end
  | Transport code _ _ => code
  | HttpStatus status _ => status_code status
  | Context_ _ source => job_error source
  | Multiple errors =>
      let codes := map job_error errors in
      match find (fun code => negb (transient_code code)) codes with
      | Some code => code
      | None => default JobErrorM.Internal (head codes)
      end
  end.

Definition is_transient (e : ArtifactError) : bool := transient_code (job_error e).
End Errors.

(** ** Paths *)

(** The end of a path that [Path::components] does not see, on the reversed path:
    separators and [.] components. *)
Fixpoint strip_back (r : chars) : chars :=
  match r with
  | c :: r' =>
      if Ascii.eqb c slash then strip_back r'
      else match r' with
           | d :: _ => if Ascii.eqb c (ascii_of_N 46) && Ascii.eqb d slash then strip_back r' else r
           | [] => r
           end
  | [] => []
  end.

(** A reversed path up to its last separator, and the rest from there on. *)
Fixpoint last_component (r : chars) : chars * chars :=
  match r with
  | c :: r' =>
      if Ascii.eqb c slash then ([], r)
      else let '(name, rest) := last_component r' in (c :: name, rest)
  | [] => ([], [])
  end.

(** [Path::file_name]. *)
Definition file_name (path : string) : option string :=
  let name := of_chars (rev (last_component (strip_back (rev (to_chars path)))).1) in
  if contains [""; "."; ".."] name then None else Some name.

(** [Path::parent]. *)
Definition parent (path : string) : option string :=
  match strip_back (rev (to_chars path)) with
  | [] => None
  | r =>
      let rest := strip_back (last_component r).2 in
      Some (if (length rest =? 0)%nat && starts_with (to_chars path) [slash] then "/"
            else of_chars (rev rest))
  end.

Inductive ArtifactPathError :=
| MissingFilename (location : string)
| EmptyFilename
| NonHiddenBasename (filename : string)
| UnsafeCharacters (filename : string)
| UnsafeCacheSubdir (cache_subdir : string).

(** [impl Display], by [thiserror]. *)
Definition path_error_display (e : ArtifactPathError) : string :=
  match e with
  | MissingFilename location => "location must end with a filename: " +++ location
  | EmptyFilename => "artifact filename must not be empty"
  | NonHiddenBasename filename => "location filename must be a non-hidden basename: " +++ filename
  | UnsafeCharacters filename => "location filename contains unsafe characters: " +++ filename
  | UnsafeCacheSubdir cache_subdir => "artifact cache subdirectory is not path-safe: " +++ cache_subdir
  end.

Definition validate_artifact_filename (filename : string) : result ArtifactPathError unit :=
  map_err (fun error => match error with
                        | EmptyName => EmptyFilename
                        | UnsupportedCharacters => UnsafeCharacters filename
                        | Hidden => NonHiddenBasename filename
                        end) (validate_non_hidden_basename filename).

Definition artifact_cache_path (cache_dir cache_subdir filename : string)
    : result ArtifactPathError string :=
  let? _ := validate_artifact_filename filename in
  if negb (String.eqb cache_subdir "") && negb (is_ok (validate_non_hidden_basename cache_subdir))
  then Err (UnsafeCacheSubdir cache_subdir)
  else Ok (PldmPackage.path_join (PldmPackage.path_join cache_dir cache_subdir) filename).

(** ** Digests *)

Record ArtifactSha256 := mkArtifactSha256 {
  expected : option string;
  required : bool;
}.

Definition from_catalog (digest : option string) (require : bool) : ArtifactSha256 :=
  if require then mkArtifactSha256 digest true
  else match digest with
       | Some d => mkArtifactSha256 (Some d) false
       | None => mkArtifactSha256 None false
       end.

Definition missing_required_digest (s : ArtifactSha256) : bool :=
  required s && bool_decide (expected s = None).

Definition SHA256_HEX_LEN : nat := 64.

Definition is_ascii_hexdigit (c : ascii) : bool := bool_decide (is_Some (to_digit 16 c)).

Definition is_valid_sha256_hex (value : string) : bool :=
  (length (to_chars value) =? SHA256_HEX_LEN)%nat && all_chars is_ascii_hexdigit value.

Definition sha256_matches (expected actual : string) : bool := eq_ignore_ascii_case expected actual.

(** ** Names of temporary files *)

Definition FIRMWARE_TEMP_FILE_SUFFIX : string := ".tmp".
Definition FIRMWARE_TEMP_FILE_MARKER : string := ".rms.fw.".

Definition firmware_temp_file_prefix (filename : string) : string := "." +++ filename +++ ".".

Definition firmware_temp_file_suffix (pid : N) : string :=
  FIRMWARE_TEMP_FILE_MARKER +++ pretty pid +++ FIRMWARE_TEMP_FILE_SUFFIX.

(** [str::rsplit_once]: at the last occurrence. *)
Fixpoint rsplit_once (l p : chars) : option (chars * chars) :=
  match l with
  | [] => if starts_with [] p then Some ([], []) else None
  | c :: l' =>
      match rsplit_once l' p with
      | Some (a, b) => Some (c :: a, b)
      | None => if starts_with l p then Some ([], drop (length p) l) else None
      end
  end.

(** [uuid_ok]: [uuid::Uuid::parse_str] succeeds. *)
Definition firmware_temp_file_pid (uuid_ok : chars → bool) (name : string) : option N :=
  without_suffix ← strip_suffix (to_chars name) (to_chars FIRMWARE_TEMP_FILE_SUFFIX);
  match without_suffix with
  | c :: without_dot =>
      if Ascii.eqb c (ascii_of_N 46) then
        '(artifact_and_id, pid) ← rsplit_once without_dot (to_chars FIRMWARE_TEMP_FILE_MARKER);
        '(artifact_name, id) ← rsplit_once artifact_and_id [ascii_of_N 46];
        if (length artifact_name =? 0)%nat || negb (uuid_ok id) then None
        else parse_uint U32_MAX pid
      else None
  | [] => None
  end.

Section Locations.
Context `{UrlCrate} `{Reqwest}.

(** ** Locations *)

Definition redact_location_for_logging (location : string) : string :=
  match url_parse location with
  | Err _ => of_chars (before_any [question; hash] (to_chars location))
  | Ok url =>
      url_as_str (url_without_fragment (url_without_query
        (url_without_password (url_without_username url))))
  end.

Inductive ArtifactLocationKind :=
| HttpFileServer
| Artifactory
| File.

#[global] Instance ArtifactLocationKind_eq_dec : EqDecision ArtifactLocationKind.
Proof. solve_decision. Defined.

Inductive ArtifactHttpAuth :=
| NoAuth
| ArtifactoryApiKey (token : string).

Inductive ArtifactDownloadSource :=
| HttpSource (url : string) (auth : ArtifactHttpAuth)
| FileSource (path : string).

Definition artifact_location_kind (location_type : string) : result string ArtifactLocationKind :=
  match match_str (lower (trim location_type))
          [("artifactory", Artifactory); ("jfrog", Artifactory); ("file", File);
           ("http", HttpFileServer); ("https", HttpFileServer)] with
  | Some kind => Ok kind
  | None => Err ("unsupported firmware artifact LocationType '" +++ location_type +++ "'")
  end.

Definition validate_location_type_matches_source (location_type : string)
    (kind : ArtifactLocationKind) (source : ArtifactDownloadSource) : result string unit :=
  match kind, source with
  | File, FileSource _ | Artifactory, HttpSource _ _ | HttpFileServer, HttpSource _ _ => Ok tt
  | File, HttpSource _ _ =>
      Err ("LocationType '" +++ location_type +++ "' requires a local file path, not an HTTP(S) URL")
  | Artifactory, FileSource _ | HttpFileServer, FileSource _ =>
      Err ("LocationType '" +++ location_type +++ "' requires an HTTP(S) URL, not a local file path")
  end.

Definition optional_access_token (access_token : option string) : option string :=
  match access_token with
  | Some token => if is_blank token then None else Some token
  | None => None
  end.

Definition http_auth_for_location (kind : ArtifactLocationKind) (access_token : option string)
    : ArtifactHttpAuth :=
  match kind with
  | Artifactory => match access_token with Some token => ArtifactoryApiKey token | None => NoAuth end
  | HttpFileServer | File => NoAuth
  end.

Definition resolve_artifact_download_with_policy (location location_type : string)
    (access_token : option string) : result string ArtifactDownloadSource :=
  let access_token := optional_access_token access_token in
  let? kind := artifact_location_kind location_type in
  let? source :=
    match url_parse location with
    | Ok url =>
        let scheme := url_scheme url in
        if String.eqb scheme "http" && bool_decide (kind = Artifactory) && bool_decide (is_Some access_token)
        then Err "authenticated Artifactory downloads require HTTPS"
        else if String.eqb scheme "http" || String.eqb scheme "https"
        then Ok (HttpSource location (http_auth_for_location kind access_token))
        else if String.eqb scheme "file"
        then match url_to_file_path url with
             | Some path => Ok (FileSource path)
             | None => Err ("file artifact location must be a valid file URL: " +++
                            redact_location_for_logging location)
             end
        else Err ("unsupported firmware artifact location scheme '" +++ scheme +++ "': " +++
                  redact_location_for_logging location)
    | Err _ =>
        if bool_decide (kind = File) || negb (contains_str (to_chars location) (to_chars "://"))
        then Ok (FileSource location)
        else Err "invalid firmware artifact location URL"
    end in
  let? _ := validate_location_type_matches_source location_type kind source in
  Ok source.

(** ** The host policy *)

Record ArtifactDownloadPolicy := mkArtifactDownloadPolicy {
  allowed_hosts : list string;
  allow_private_targets : bool;
}.

Definition canonical_host (host : string) : option string :=
  match host_parse host with
  | Some (Domain name) => Some (of_chars (trim_end (is_char (ascii_of_N 46)) (to_chars name)))
  | Some (Ipv4 octets) => Some (of_chars (show_ipv4 octets))
  | Some (Ipv6 segments) => Some (of_chars (show_ipv6 segments))
  | None => None
  end.

Definition parse_allow_list_entry (entry : string) : result RmsError string :=
  let trimmed := trim entry in
  if String.eqb trimmed ""
  then Err (invalid_argument "workflows.artifact_https_hosts entries must not be empty")
  else ok_or (canonical_host trimmed)
         (invalid_argument ("workflows.artifact_https_hosts entry '" +++ trimmed +++
                            "' is not a valid host")).

(** The two keys of [[workflows]] are arguments. *)
Definition from_workflows (artifact_https_hosts : list string) (artifact_allow_private_targets : bool)
    : result RmsError ArtifactDownloadPolicy :=
  let? allowed_hosts :=
    try_fold (fun hosts host => let? h := parse_allow_list_entry host in Ok (hosts ++ [h])) []
      artifact_https_hosts in
  Ok (mkArtifactDownloadPolicy allowed_hosts artifact_allow_private_targets).

Definition normalize_host (host : string) : string :=
  let host := trim host in
  default (lower (of_chars (trim_end (is_char (ascii_of_N 46)) (to_chars host)))) (canonical_host host).

Definition host_matches (host pattern : string) : bool :=
  if starts_with (to_chars pattern) (to_chars "*.")
  then let suffix := of_chars (drop 2 (to_chars pattern)) in
       String.eqb host suffix || ends_with (to_chars host) (to_chars ("." +++ suffix))
  else String.eqb host pattern.

Definition host_allowed (host : string) (allowed_hosts : list string) : bool :=
  match allowed_hosts with
  | [] => true
  | _ => existsb (host_matches (normalize_host host)) allowed_hosts
  end.

Definition parse_artifact_ip_literal (host : string) : option IpAddr :=
  let l := to_chars host in
  let unbracketed :=
    match l with
    | c :: rest => if Ascii.eqb c (ascii_of_N 91) then strip_suffix rest [ascii_of_N 93] else None
    | [] => None
    end in
  parse_ip (default l unbracketed).

Definition disallowed_address_error (host : string) : ArtifactError :=
  InvalidArgument ("firmware artifact host '" +++ host +++ "' resolves to a disallowed address").

Definition validate_artifact_http_url (url : Url) (policy : ArtifactDownloadPolicy)
    : result ArtifactError unit :=
  if negb (String.eqb (url_scheme url) "http" || String.eqb (url_scheme url) "https")
  then Err (InvalidArgument ("firmware artifact redirect or URL must use http or https, not '" +++
                             url_scheme url +++ "'"))
  else
    match (host ← url_host_str url; if String.eqb host "" then None else Some host) with
    | None => Err (InvalidArgument ("firmware artifact URL is missing a host: " +++
                                    redact_location_for_logging (url_as_str url)))
    | Some host =>
        if negb (host_allowed host (allowed_hosts policy))
        then Err (InvalidArgument ("firmware artifact host '" +++ host +++
                                   "' is not on the artifact host allow-list"))
        else if allow_private_targets policy then Ok tt
        else match parse_artifact_ip_literal host with
             | Some ip => if is_special_purpose_ip ip Disallowed
                          then Err (disallowed_address_error host) else Ok tt
             | None => Ok tt
             end
    end.

Definition SocketAddr : Type := IpAddr * N.

(** [to_socket_addrs] is the argument [lookup]. *)
Definition lookup_artifact_host (lookup : string → result string (list SocketAddr)) (host : string)
    : result ArtifactError (list SocketAddr) :=
  match lookup host with
  | Err error => Err (InvalidArgument ("firmware artifact host '" +++ host +++
                                       "' could not be resolved: " +++ error))
  | Ok [] => Err (InvalidArgument ("firmware artifact host '" +++ host +++ "' could not be resolved"))
  | Ok addrs => Ok addrs
  end.

Definition resolve_validated_artifact_addrs (lookup : string → result string (list SocketAddr))
    (host : string) (policy : ArtifactDownloadPolicy) : result ArtifactError (list SocketAddr) :=
  let? addrs :=
    match parse_artifact_ip_literal host with
    | Some ip => Ok [(ip, 0)]
    | None => lookup_artifact_host lookup host
    end in
  if allow_private_targets policy then Ok addrs
  else if existsb (fun addr => is_special_purpose_ip addr.1 Disallowed) addrs
  then Err (disallowed_address_error host)
  else Ok addrs.

(** [ArtifactPolicyResolver::resolve]. *)
Definition resolve (lookup : string → result string (list SocketAddr)) (policy : ArtifactDownloadPolicy)
    (name : string) : result string (list SocketAddr) :=
  let host := of_chars (trim_end (is_char (ascii_of_N 46)) (to_chars name)) in
  map_err display (resolve_validated_artifact_addrs lookup host policy).
End Locations.
End Artifacts.
