(* ===== verification/ArtifactDownload.v ===== *)
(** * Firmware artifact downloads

    [api/grpc/artifact_download.rs]: requests with redirects, streaming to a
    temporary file, the checks of sizes and digests, publication, the checks of
    cached files, local copies and retries; and what
    [api/grpc/firmware_object_handlers/artifacts.rs] does with it.

    The state [World] is the files, by path, the number of operations done so
    far, and the list of what was sent and connected to.  Whether an operation
    fails, how many bytes a read returns, the clock, the names of temporary
    files, name resolution, and the answers of the HTTP client are the class
    [Outside], a function of the number of the operation; no law is assumed.
    Directories and what is logged are not modelled. *)

From S2P Require Import Prelude RustStd RustStr EndpointScope RmsError JobTypes FabricLayout.
From S2P Require Import PldmPackage Net Artifacts.
From Stdlib Require Import Ascii.
Local Open Scope string_scope.
Local Open Scope list_scope.
Local Open Scope N_scope.

Module ArtifactDownload.
Import Net FabricLayout Artifacts.

(** Nanoseconds of seconds. *)
Definition from_secs (secs : N) : N := secs * 10 ^ 9.

Definition REMOTE_DOWNLOAD_TIMEOUT : N := from_secs 600.
Definition ARTIFACT_DOWNLOAD_ATTEMPTS : nat := 3.
Definition ARTIFACT_RETRY_BACKOFF : N := from_secs 2.
Definition MAX_ARTIFACT_REDIRECTS : nat := 10.
Definition SHA256_BUF_SIZE : nat := N.to_nat (64 * 1024).

Record ArtifactHttpClient := mkArtifactHttpClient {
  policy : ArtifactDownloadPolicy;
  download_budget : N;
  retry_backoff : N;
}.

Inductive Method :=
| GET
| HEAD.

(** ** The outside *)

(** A request; the header [X-JFrog-Art-Api] is the only one set. *)
Record Request `{UrlCrate} := mkRequest {
  method : Method;
  url : Url;
  api_key : option string;
  request_timeout : N;
}.

(** The [Location] header, if there is one, and if it is text; the body, in chunks. *)
Record Response `{Reqwest} := mkResponse {
  status : N;
  location : option (option string);
  content_length : option N;
  body : list (result ReqError chars);
}.

Arguments mkRequest {_}.
Arguments mkResponse {_}.

Inductive Node :=
| Regular (bytes : chars)
| NotAFile.

Class Outside `{UrlCrate, Reqwest} := {
  (** Why the operation fails, if it does. *)
  io_error : nat → option IoError;
  not_found_display : string;
  (** What opening something that is not a regular file gives. *)
  open_special : string → result IoError chars;
  (** How many bytes a write that fails has written, and a read returns. *)
  partial_write : nat → nat;
  read_size : nat → nat;
  now : nat → N;
  temp_name : nat → string → string → string;
  process_id : N;
  digest_hex : chars → string;
  (** [to_socket_addrs] *)
  lookup_host : nat → string → result string (list SocketAddr);
  (** The URL of the proxy that the environment of the process sets for a URL:
      the client is built without [no_proxy]. *)
  system_proxy : Url → option Url;
  (** [RequestBuilder::send], and the addresses that it connects to, given the
      resolver of the client. *)
  http : nat → Request → result ReqError Response;
  connects : nat → Url → (string → result string (list SocketAddr)) → list IpAddr;
  client_build_error : option string;
}.

Inductive Event `{UrlCrate} :=
| Sent (request : Request)
| Connected (address : IpAddr)
| Slept (duration : N).

Arguments Sent {_}.
Arguments Connected {_}.
Arguments Slept {_}.

Record World `{UrlCrate} := mkWorld {
  files : gmap string Node;
  ops : nat;
  events : list Event;
}.
Arguments mkWorld {_}.

Section Download.
Context `{Outside}.

(** ** Operations *)

Definition IO (E A : Type) : Type := World → World * result E A.

Definition ret {E A} (a : A) : IO E A := fun w => (w, Ok a).
Definition throw {E A} (e : E) : IO E A := fun w => (w, Err e).

Definition bind {E A B} (m : IO E A) (k : A → IO E B) : IO E B := fun w =>
  match m w with
  | (w, Ok a) => k a w
  | (w, Err e) => (w, Err e)
  end.

Definition on_err {E F A} (f : E → F) (m : IO E A) : IO F A := fun w =>
  let '(w, r) := m w in (w, map_err f r).

(** The outcome as a value. *)
Definition try_io {E F A} (m : IO E A) : IO F (result E A) := fun w =>
  let '(w, r) := m w in (w, Ok r).

Definition lift {E A} (r : result E A) : IO E A := fun w => (w, r).

Definition tick (w : World) : World := mkWorld (files w) (S (ops w)) (events w).
Definition set_files (w : World) (f : gmap string Node) : World := mkWorld f (ops w) (events w).
Definition log (w : World) (es : list Event) : World := mkWorld (files w) (ops w) (events w ++ es).

Definition instant_now {E} : IO E N := fun w => (tick w, Ok (now (ops w))).

Definition sleep {E} (duration : N) : IO E unit := fun w => (log (tick w) [Slept duration], Ok tt).

(** An operation on files that changes them by [f] when it does not fail. *)
Definition fs_op {A} (f : gmap string Node → result IoError A * gmap string Node) : IO IoError A :=
  fun w =>
    match io_error (ops w) with
    | Some e => (tick w, Err e)
    | None => let '(r, files') := f (files w) in (set_files (tick w) files', r)
    end.

Definition not_found_error : IoError := mkIoError NotFound not_found_display.

(** [tokio::fs::metadata], and what [File::open] and reading to the end give. *)
Definition metadata (path : string) : IO IoError Node :=
  fs_op (fun fs => (match fs !! path with Some n => Ok n | None => Err not_found_error end, fs)).

Definition remove_file (path : string) : IO IoError unit :=
  fs_op (fun fs => match fs !! path with
                   | Some _ => (Ok tt, delete path fs)
                   | None => (Err not_found_error, fs)
                   end).

Definition create_dir_all (path : string) : IO IoError unit := fs_op (fun fs => (Ok tt, fs)).

(** [File::open]: the contents, which stay readable if the path is removed. *)
Definition open (path : string) : IO IoError chars :=
  fs_op (fun fs => match fs !! path with
                   | Some (Regular bytes) => (Ok bytes, fs)
                   | Some NotAFile => (open_special path, fs)
                   | None => (Err not_found_error, fs)
                   end).

(** [AsyncReadExt::read] of a handle with these bytes hops: some of them, or none
    at the end. *)
Definition read (rest : chars) : IO IoError (chars * chars) := fun w =>
  match io_error (ops w) with
  | Some e => (tick w, Err e)
  | None =>
      let n := (1 `max` (read_size (ops w) `min` SHA256_BUF_SIZE))%nat in
      (tick w, Ok (take n rest, drop n rest))
  end.

(** [write_all] at the end of a file. *)
Definition file_bytes (fs : gmap string Node) (path : string) : chars :=
  match fs !! path with Some (Regular bytes) => bytes | _ => [] end.

Definition write_all (path : string) (bytes : chars) : IO IoError unit := fun w =>
  let write n := set_files (tick w) (<[path := Regular (file_bytes (files w) path ++ take n bytes)]> (files w)) in
  match io_error (ops w) with
  | Some e => (write (partial_write (ops w) `min` length bytes)%nat, Err e)
  | None => (write (length bytes), Ok tt)
  end.

Definition flush (path : string) : IO IoError unit := fs_op (fun fs => (Ok tt, fs)).

Definition create (path : string) : IO IoError unit :=
  fs_op (fun fs => (Ok tt, <[path := Regular []]> fs)).

(** [TempFile::persist]: the file is renamed. *)
Definition persist (temp_path dest_path : string) : IO IoError unit :=
  fs_op (fun fs => (Ok tt, <[dest_path := Regular (file_bytes fs temp_path)]> (delete temp_path fs))).

(** Dropping a [TempFile] removes it; an error is ignored. *)
Definition drop_temp {E} (temp_path : string) : IO E unit := fun w =>
  let '(w, _) := remove_file temp_path w in (w, Ok tt).

(** On an error the temporary file is dropped. *)
Definition or_drop {E A} (temp_path : string) (m : IO E A) : IO E A := fun w =>
  match m w with
  | (w, Err e) => let '(w, _) := drop_temp (E := E) temp_path w in (w, Err e)
  | r => r
  end.
End Download.

Declare Scope io_scope.
Delimit Scope io_scope with io.
Notation "'let!' x := m 'in' k" := (bind m (fun x => k))
  (at level 10, x name, m at level 100, k at level 200,
   format "'let!'  x  :=  m  'in' '//' k") : io_scope.
Open Scope io_scope.

Section Client.
Context `{Outside}.

(** ** Requests *)

Definition build_artifact_http_client (p : ArtifactDownloadPolicy) : result ArtifactError ArtifactHttpClient :=
  match client_build_error with
  | Some e => Err (Cache ("failed to build HTTP client: " +++ e))
  | None => Ok (mkArtifactHttpClient p REMOTE_DOWNLOAD_TIMEOUT ARTIFACT_RETRY_BACKOFF)
  end.

(** The client connects, to the URL's host or a proxy, and sends. *)
Definition send (client : ArtifactHttpClient) (request : Request) : IO ReqError Response := fun w =>
  let resolver := resolve (lookup_host (ops w)) (policy client) in
  let addresses := connects (ops w) (url request) resolver in
  (log (tick w) (Sent request :: (Connected <$> addresses)), http (ops w) request).

Definition apply_artifact_http_auth (auth : ArtifactHttpAuth) : option string :=
  match auth with
  | NoAuth => None
  | ArtifactoryApiKey token => Some token
  end.

Definition is_http_scheme (u : Url) : bool :=
  String.eqb (url_scheme u) "http" || String.eqb (url_scheme u) "https".

Definition is_redirect (status : N) : bool := contains [301; 302; 303; 307; 308] status.

(** The loop over the redirects: [hops] more may be followed. *)
Fixpoint send_hops (client : ArtifactHttpClient) (m : Method) (origin : Url) (auth : ArtifactHttpAuth)
    (deadline : N) (hops : nat) (current : Url) : IO ArtifactError Response :=
  let authenticated := match auth with ArtifactoryApiKey _ => true | NoAuth => false end in
  if negb (is_http_scheme current) ||
     (authenticated && (negb (String.eqb (url_scheme current) "https") ||
                        bool_decide (url_origin current ≠ url_origin origin)))
  then throw (RedirectPolicy
                "authenticated artifact requests and redirects require the original HTTPS origin")
  else
    let! _ := lift (map_err (fun error => if (hops =? MAX_ARTIFACT_REDIRECTS)%nat then error
                                          else RedirectPolicy (display error))
                      (validate_artifact_http_url current (policy client))) in
    let! t := instant_now in
    let! response :=
      on_err (fun error =>
                transport ("artifact request failed for " +++
                           redact_location_for_logging (url_as_str current)) error)
        (send client (mkRequest m current (apply_artifact_http_auth auth) (deadline - t))) in
    if negb (is_redirect (status response)) then ret response
    else
      match location response with
      | None => ret response
      | Some location =>
          match hops with
          | O => throw (RedirectPolicy "artifact redirect limit exceeded")
          | S hops =>
              match (text ← location; url_join current text) with
              | None => throw (RedirectPolicy "invalid artifact redirect location")
              | Some next => send_hops client m origin auth deadline hops next
              end
          end
      end.

Definition send_artifact_request (client : ArtifactHttpClient) (m : Method) (url : string)
    (auth : ArtifactHttpAuth) (deadline : N) : IO ArtifactError Response :=
  let! origin := lift (map_err (fun _ => InvalidArgument "invalid artifact URL") (url_parse url)) in
  send_hops client m origin auth deadline MAX_ARTIFACT_REDIRECTS origin.

(** ** Checks of files *)

Definition validate_download_size (url : string) (expected_len : option N) (actual_len : N)
    : result ArtifactError unit :=
  if actual_len =? 0
  then Err (Integrity ("download returned zero bytes: " +++ redact_location_for_logging url))
  else
    match expected_len with
    | Some expected_len =>
        if expected_len =? actual_len then Ok tt
        else Err (Integrity ("download size mismatch for " +++ redact_location_for_logging url +++
                             ": expected " +++ pretty expected_len +++ " bytes, got " +++ pretty actual_len))
    | None => Ok tt
    end.

Definition remove_invalid_cached_file (dest_path : string) : IO ArtifactError unit :=
  on_err (Io ("failed to remove invalid cache file " +++ dest_path)) (remove_file dest_path).

(** The loop that hashes what is read. *)
Fixpoint hash_loop (fuel : nat) (rest hashed : chars) : IO IoError chars :=
  match fuel with
  | O => ret hashed
  | S fuel =>
      let! chunk := read rest in
      if (length chunk.1 =? 0)%nat then ret hashed
      else hash_loop fuel chunk.2 (hashed ++ chunk.1)
  end.

Definition file_sha256 (path : string) : IO ArtifactError string :=
  let! bytes := on_err (Io ("failed to open " +++ path +++ " for hashing")) (open path) in
  let! hashed := on_err (Io ("failed to read " +++ path +++ " for hashing"))
                   (hash_loop (S (length bytes)) bytes []) in
  ret (digest_hex hashed).

Definition len (l : chars) : N := N.of_nat (length l).

Definition remote_content_length (client : ArtifactHttpClient) (url : string) (auth : ArtifactHttpAuth)
    (deadline : N) : IO ArtifactError (option N) :=
  let! response := send_artifact_request client HEAD url auth deadline in
  if negb ((200 <=? status response) && (status response <=? 299))
  then throw (HttpStatus (status response) (redact_location_for_logging url))
  else ret (content_length response).

(** The part of [cached_firmware_file_valid] without a digest: the size is compared
    with that of the server. *)
Definition cached_size_valid (client : ArtifactHttpClient) (url : string) (auth : ArtifactHttpAuth)
    (dest_path : string) (deadline size : N) : IO ArtifactError bool :=
  let rejected :=
    match url_parse url with
    | Ok parsed => negb (is_ok (validate_artifact_http_url parsed (policy client)))
    | Err _ => false
    end in
  if rejected then ret true
  else
    let! remote := try_io (remote_content_length client url auth deadline) in
    match remote with
    | Ok (Some expected) =>
        if expected =? size then ret true
        else let! _ := remove_invalid_cached_file dest_path in ret false
    | Ok None => ret true
    | Err e =>
        if contains_str (to_chars (display e)) (to_chars "disallowed address") then ret true
        else if is_transient e then ret true
        else let! _ := remove_invalid_cached_file dest_path in ret false
    end.

(** What [metadata] of the cached path says: [None] when there is no file. *)
Definition cached_metadata (dest_path : string) : IO ArtifactError (option chars) :=
  let! found := try_io (metadata dest_path) in
  match found with
  | Ok (Regular bytes) => ret (Some bytes)
  | Ok NotAFile => throw (Cache ("cached path is not a file: " +++ dest_path))
  | Err e =>
      match kind e with
      | NotFound => ret None
      | _ => throw (Io ("failed to stat " +++ dest_path) e)
      end
  end.

Definition cached_firmware_file_valid (client : ArtifactHttpClient) (url : string)
    (auth : ArtifactHttpAuth) (dest_path : string) (expected_sha256 : option string) (deadline : N)
    : IO ArtifactError bool :=
  let! cached := cached_metadata dest_path in
  match cached with
  | None => ret false
  | Some bytes =>
      if len bytes =? 0 then let! _ := remove_invalid_cached_file dest_path in ret false
      else
        match expected_sha256 with
        | Some expected =>
            let! actual := file_sha256 dest_path in
            if sha256_matches expected actual then ret true
            else let! _ := remove_invalid_cached_file dest_path in ret false
        | None => cached_size_valid client url auth dest_path deadline (len bytes)
        end
  end.

Definition cached_local_file_valid (source_len : N) (dest_path : string)
    (expected_sha256 : option string) : IO ArtifactError bool :=
  let! cached := cached_metadata dest_path in
  match cached with
  | None => ret false
  | Some bytes =>
      match expected_sha256 with
      | Some expected =>
          if 0 <? len bytes then
            let! actual := file_sha256 dest_path in
            if sha256_matches expected actual then ret true
            else let! _ := remove_invalid_cached_file dest_path in ret false
          else let! _ := remove_invalid_cached_file dest_path in ret false
      | None =>
          if (len bytes =? source_len) && (0 <? len bytes) then ret true
          else let! _ := remove_invalid_cached_file dest_path in ret false
      end
  end.

(** ** Temporary files *)

(** The path of the new file. *)
Definition firmware_temp_file (dest_path filename : string) : IO ArtifactError string := fun w =>
  match parent dest_path with
  | None => (w, Err (Cache ("cache path has no parent directory: " +++ dest_path)))
  | Some dest_dir =>
      let temp_path :=
        PldmPackage.path_join dest_dir
          (temp_name (ops w) (firmware_temp_file_prefix filename) (firmware_temp_file_suffix process_id)) in
      (let! _ := on_err (fun e => Cache ("failed to create firmware temp file in " +++ dest_dir +++ ": " +++
                                         io_display e)) (create temp_path) in
       ret temp_path) w
  end.

(** [persist], and what is done when it fails. *)
Definition publish_file (temp_path dest_path : string) (failure : IoError → ArtifactError)
    : IO ArtifactError unit :=
  let! persisted := try_io (persist temp_path dest_path) in
  match persisted with
  | Ok _ => ret tt
  | Err e => let! _ := drop_temp temp_path in throw (failure e)
  end.

(** A digest that is expected is that of what was hashed. *)
Definition verify_digest (expected_sha256 : option string) (hasher : option chars)
    (mismatch : string → string → string) : result ArtifactError unit :=
  match expected_sha256, hasher with
  | Some expected, Some hashed =>
      let actual := digest_hex hashed in
      if sha256_matches expected actual then Ok tt else Err (Integrity (mismatch expected actual))
  | _, _ => Ok tt
  end.

(** ** Downloads *)

Definition hash_update (hasher : option chars) (chunk : chars) : option chars :=
  (fun hashed => hashed ++ chunk) <$> hasher.

(** The loop over the chunks of the body. *)
Fixpoint stream_body (temp_path : string) (chunks : list (result ReqError chars)) (total_written : N)
    (hasher : option chars) : IO (N * ArtifactError) (N * option chars) :=
  match chunks with
  | [] => ret (total_written, hasher)
  | Err e :: _ => throw (total_written, transport "failed to read artifact response body" e)
  | Ok chunk :: chunks =>
      if (length chunk =? 0)%nat then stream_body temp_path chunks total_written hasher
      else
        let! _ := on_err (fun e => (total_written, Io ("failed to write " +++ temp_path) e))
                    (write_all temp_path chunk) in
        stream_body temp_path chunks (total_written + len chunk) (hash_update hasher chunk)
  end.

Definition stream_response_to_temp_file (response : Response) (temp_path url : string)
    (expected_sha256 : option string) (expected_len : option N) : IO (N * ArtifactError) N :=
  let! streamed := stream_body temp_path (body response) 0 ((fun _ => []) <$> expected_sha256) in
  let total_written := streamed.1 in
  let! _ := on_err (fun e => (total_written, Io ("failed to flush " +++ temp_path) e)) (flush temp_path) in
  let! _ := lift (map_err (pair total_written) (validate_download_size url expected_len total_written)) in
  let! _ := lift (map_err (pair total_written)
              (verify_digest expected_sha256 streamed.2 (fun expected actual =>
                 "sha256 mismatch for " +++ redact_location_for_logging url +++ ": expected " +++
                 expected +++ ", got " +++ actual))) in
  ret total_written.

Definition download_http_file (client : ArtifactHttpClient) (url : string)
    (expected_sha256 : option string) (auth : ArtifactHttpAuth) (dest_path filename : string)
    (deadline : N) : IO ArtifactError unit :=
  let! valid := cached_firmware_file_valid client url auth dest_path expected_sha256 deadline in
  if valid then ret tt
  else
    let! response := send_artifact_request client GET url auth deadline in
    if negb ((200 <=? status response) && (status response <=? 299))
    then throw (HttpStatus (status response) (redact_location_for_logging url))
    else
      let! temp_path := firmware_temp_file dest_path filename in
      let! _ := or_drop temp_path
                  (on_err snd (stream_response_to_temp_file response temp_path url expected_sha256
                                 (content_length response))) in
      publish_file temp_path dest_path (fun e => Cache ("failed to move " +++ temp_path +++ " to " +++
                                                   dest_path +++ ": " +++ io_display e)).

(** The loop over the attempts: [more] of them are left after this one. *)
Fixpoint download_attempts (client : ArtifactHttpClient) (url : string)
    (expected_sha256 : option string) (auth : ArtifactHttpAuth) (dest_path filename : string)
    (deadline : N) (more : nat) (first_failure : option string) : IO ArtifactError unit :=
  let attempt := (ARTIFACT_DOWNLOAD_ATTEMPTS - more)%nat in
  let! outcome := try_io (download_http_file client url expected_sha256 auth dest_path filename deadline) in
  match outcome with
  | Ok _ => ret tt
  | Err error =>
      let delay := retry_backoff client * 2 ^ N.of_nat (attempt - 1) in
      let! t := instant_now in
      let failure :=
        match first_failure with
        | Some first => context error ("after " +++ pretty attempt +++ " attempts (first failure: " +++
                                       first +++ ")")
        | None => error
        end in
      match more with
      | O => throw failure
      | S more =>
          if is_transient error && (t + delay <? deadline) then
            let! _ := sleep delay in
            download_attempts client url expected_sha256 auth dest_path filename deadline more
              (Some (default (display error) first_failure))
          else throw failure
      end
  end.

Definition download_http_file_with_backoff (client : ArtifactHttpClient) (url : string)
    (expected_sha256 : option string) (auth : ArtifactHttpAuth) (dest_path filename : string)
    : IO ArtifactError unit :=
  let! start := instant_now in
  download_attempts client url expected_sha256 auth dest_path filename (start + download_budget client)
    (ARTIFACT_DOWNLOAD_ATTEMPTS - 1) None.

(** ** Local copies *)

Fixpoint copy_loop (fuel : nat) (source_path temp_path : string) (rest : chars) (copied : N)
    (hasher : option chars) : IO ArtifactError (N * option chars) :=
  match fuel with
  | O => ret (copied, hasher)
  | S fuel =>
      let! chunk := on_err (fun e => context (from_io e) ("failed to read local artifact " +++ source_path))
                      (read rest) in
      if (length chunk.1 =? 0)%nat then ret (copied, hasher)
      else
        let! _ := on_err (fun e => context (from_io e) "failed to write local artifact")
                    (write_all temp_path chunk.1) in
        copy_loop fuel source_path temp_path chunk.2 (copied + len chunk.1) (hash_update hasher chunk.1)
  end.

(** What is done with the temporary file before it is published. *)
Definition copy_local_to_temp (source_path source_label temp_path : string)
    (expected_sha256 : option string) (source_len : N) : IO ArtifactError unit :=
  let! bytes := on_err (Io ("failed to open local artifact " +++ source_path)) (open source_path) in
  let! copied := copy_loop (S (length bytes)) source_path temp_path bytes 0
                   ((fun _ => []) <$> expected_sha256) in
  let! _ := on_err (Io "failed to flush local artifact") (flush temp_path) in
  let! _ := lift (validate_download_size source_label (Some source_len) copied.1) in
  lift (verify_digest expected_sha256 copied.2 (fun expected actual =>
          "sha256 mismatch for " +++ source_label +++ ": expected " +++ expected +++ ", got " +++ actual)).

Definition copy_local_file_to_cache (source_path source_label : string)
    (expected_sha256 : option string) (dest_path filename : string) : IO ArtifactError unit :=
  let! node := on_err (Io ("failed to stat local artifact " +++ source_path)) (metadata source_path) in
  match node with
  | NotAFile => throw (InvalidArgument ("local artifact is not a file: " +++ source_path))
  | Regular bytes =>
      let! _ := lift (validate_download_size source_label (Some (len bytes)) (len bytes)) in
      let! valid := cached_local_file_valid (len bytes) dest_path expected_sha256 in
      if valid then ret tt
      else
        let! temp_path := firmware_temp_file dest_path filename in
        let! _ := or_drop temp_path
                    (copy_local_to_temp source_path source_label temp_path expected_sha256 (len bytes)) in
        publish_file temp_path dest_path (fun e => Cache ("failed to publish local artifact " +++ dest_path +++
                                                     ": " +++ io_display e))
  end.

(** ** [download_artifact] *)

(** The fields that are only logged are left out. *)
Record Download := mkDownload {
  download_location : string;
  location_type : string;
  access_token : option string;
  sha256 : ArtifactSha256;
}.

Definition download_artifact (request : Download) (destination : string) (client : ArtifactHttpClient)
    : IO ArtifactError unit :=
  let! filename := lift (ok_or (file_name destination)
                           (InvalidArgument "artifact destination must have a filename")) in
  let invalid := match expected (sha256 request) with
                 | Some e => negb (is_valid_sha256_hex e)
                 | None => false
                 end in
  if invalid
  then throw (InvalidArgument ("invalid expected sha256 for " +++ filename +++
                               ": expected 64 hex characters"))
  else
    let! source := lift (map_err InvalidArgument
                     (resolve_artifact_download_with_policy (download_location request)
                        (location_type request) (access_token request))) in
    let is_http := match source with HttpSource _ _ => true | FileSource _ => false end in
    if missing_required_digest (sha256 request) && is_http
    then throw (InvalidArgument ("firmware artifact " +++
                                 redact_location_for_logging (download_location request) +++
                                 " is missing a required Sha256 digest"))
    else
      let! dest_dir := lift (ok_or (parent destination)
                               (InvalidArgument "artifact destination must have a parent")) in
      let! _ := on_err (Io ("failed to create cache directory " +++ dest_dir)) (create_dir_all dest_dir) in
      match source with
      | HttpSource url auth =>
          download_http_file_with_backoff client url (expected (sha256 request)) auth destination filename
      | FileSource source_path =>
          copy_local_file_to_cache source_path (download_location request) (expected (sha256 request))
            destination filename
      end.

(** ** [firmware_object_handlers/artifacts.rs] *)

Record Artifact := mkArtifact {
  id : string;
  filename : string;
  source : string;
  transport_type : string;
  artifact_sha256 : option string;
  artifact_required : bool;
  artifact_context : string;
}.

Definition is_http_artifact (a : Artifact) : bool :=
  contains ["http"; "https"; "artifactory"; "jfrog"] (lower (trim (transport_type a))).

Definition verify_required_http_digest (a : Artifact) (cache : string) : IO ArtifactError unit :=
  if negb (is_http_artifact a) then ret tt
  else
    match artifact_sha256 a with
    | None => throw (InvalidArgument ("firmware artifact " +++ redact_location_for_logging (source a) +++
                                      " is missing a required Sha256 digest"))
    | Some expected =>
        if negb (is_valid_sha256_hex expected)
        then throw (InvalidArgument ("invalid expected sha256 for " +++ filename a +++
                                     ": expected 64 hex characters"))
        else
          let! path := lift (map_err (fun e => Cache (path_error_display e))
                               (artifact_cache_path cache (id a) (filename a))) in
          let! actual := file_sha256 path in
          if eq_ignore_ascii_case expected actual then ret tt
          else throw (Cache ("sha256 mismatch for " +++ path +++ ": expected " +++ expected +++ ", got " +++ actual))
    end.

(** The loop of [materialize] over the downloads, in the order they end in:
    what is ready, and the failures. *)
Fixpoint collect (downloads : list (Artifact * result ArtifactError unit)) (ready : gset string)
    (failures : list ArtifactError) : gset string * list ArtifactError :=
  match downloads with
  | [] => (ready, failures)
  | (a, Ok _) :: downloads => collect downloads ({[id a]} ∪ ready) failures
  | (a, Err error) :: downloads =>
      collect downloads ready
        (if artifact_required a then failures ++ [context error (artifact_context a)] else failures)
  end.

Definition materialize_result (downloads : list (Artifact * result ArtifactError unit)) (cancelled : bool)
    : result ArtifactError (gset string) :=
  let '(ready, failures) := collect downloads ∅ [] in
  if cancelled then Err Cancelled
  else match failures with [] => Ok ready | _ => Err (Multiple failures) end.
End Client.
End ArtifactDownload.
