(* ===== verification/ArtifactProofs.v ===== *)
(** * What a download does to the world

    Every operation of a download is one of a few steps, so what holds of those
    steps holds of a download: [sat] walks through the operations once, and the
    theorems on requests, connections and files are instances. *)

From S2P Require Import Prelude RustStd RustStr EndpointScope RmsError JobTypes FabricLayout.
From S2P Require Import PldmPackage Net NetTheorems Artifacts ArtifactDownload.
From Stdlib Require Import Ascii.
Local Open Scope string_scope.
Local Open Scope list_scope.
Local Open Scope N_scope.

Module ArtifactProofs.
Import Net NetTheorems FabricLayout Artifacts ArtifactDownload.

(** ** Steps *)

Section Sat.
Context `{Outside} (R : relation World) `{!PreOrder R}.

(** However it ends, the operation moves along [R]. *)
Definition sat {E A} (m : IO E A) : Prop := ∀ w, R w (m w).1.

Lemma sat_ret {E A} (a : A) : sat (ret (E := E) a).
Proof. intros w. reflexivity. Qed.

Lemma sat_throw {E A} (e : E) : sat (throw (A := A) e).
Proof. intros w. reflexivity. Qed.

Lemma sat_lift {E A} (r : result E A) : sat (lift r).
Proof. intros w. reflexivity. Qed.

Lemma sat_bind {E A B} (m : IO E A) (k : A → IO E B) : sat m → (∀ a, sat (k a)) → sat (bind m k).
Proof.
  intros Hm Hk w. specialize (Hm w). unfold bind. destruct (m w) as [w1 [a|e]]; simpl in *; [|done].
  etransitivity; [exact Hm|apply Hk].
Qed.

(** The same, with what the first operation returns. *)
Lemma sat_bind_post {E A B} (Q : A → Prop) (m : IO E A) (k : A → IO E B) :
  sat m → (∀ w w' a, m w = (w', Ok a) → Q a) → (∀ a, Q a → sat (k a)) → sat (bind m k).
Proof.
  intros Hm HQ Hk w. specialize (Hm w). unfold bind. destruct (m w) as [w1 [a|e]] eqn:Em; simpl in *; [|done].
  etransitivity; [exact Hm|eapply Hk, HQ, Em].
Qed.

Lemma sat_bind_lift {E A B} (r : result E A) (k : A → IO E B) :
  (∀ a, r = Ok a → sat (k a)) → sat (bind (lift r) k).
Proof. intros Hk w. unfold bind, lift. destruct r as [a|e]; [by apply Hk|reflexivity]. Qed.

Lemma sat_on_err {E F A} (f : E → F) (m : IO E A) : sat m → sat (on_err f m).
Proof. intros Hm w. specialize (Hm w). unfold on_err. by destruct (m w). Qed.

Lemma sat_try {E F A} (m : IO E A) : sat m → sat (try_io (F := F) m).
Proof. intros Hm w. specialize (Hm w). unfold try_io. by destruct (m w). Qed.

Lemma sat_or_drop {E A} temp_path (m : IO E A) :
  sat (drop_temp (E := E) temp_path) → sat m → sat (or_drop temp_path m).
Proof.
  intros Hd Hm w. specialize (Hm w). unfold or_drop. destruct (m w) as [w1 [a|e]]; simpl in *; [done|].
  specialize (Hd w1). destruct (drop_temp temp_path w1) as [w2 ?]. simpl in *. by etransitivity.
Qed.
End Sat.

Create HintDb sat.
#[export] Hint Resolve sat_ret sat_throw sat_lift sat_on_err sat_try : sat.

(** Go through the operations. *)
Ltac sat_walk :=
  repeat first
    [ solve [eauto 3 with sat]
    | apply sat_bind_lift; [..|intros ? ?]
    | apply sat_bind; [..|intros ?]
    | match goal with |- sat _ (match ?x with _ => _ end) => destruct x eqn:? end
    | match goal with |- sat _ (if ?x then _ else _) => destruct x eqn:? end ].

(** ** The steps of a download *)

(** ** Requests and reads *)

Section Net.
Context `{Outside} (client : ArtifactHttpClient).

(** A request that may be sent: the policy accepts its URL, and a key goes only
    to the HTTPS origin of the URL that was asked for. *)
Record sendable (location : string) (auth : ArtifactHttpAuth) (request : Request) : Prop := mk_sendable {
  sd_valid : validate_artifact_http_url (url request) (policy client) = Ok tt;
  sd_key : ∀ token, api_key request = Some token →
    auth = ArtifactoryApiKey token ∧ url_scheme (url request) = "https" ∧
    ∃ origin, url_parse location = Ok origin ∧ url_origin (url request) = url_origin origin;
}.

Definition sent (w : World) (request : Request) : World :=
  log (tick w) (Sent request ::
    (Connected <$> connects (ops w) (url request) (resolve (lookup_host (ops w)) (policy client)))).

Context (R : relation World) `{!PreOrder R}.

Record net_steps (location : string) (auth : ArtifactHttpAuth) : Prop := mk_net_steps {
  st_tick : ∀ w, R w (tick w);
  st_send : ∀ w request, sendable location auth request → R w (sent w request);
}.

Context (location : string) (auth : ArtifactHttpAuth) (Hnet : net_steps location auth).

Lemma set_same w : set_files (tick w) (files w) = tick w.
Proof. by destruct w. Qed.

Lemma sat_now {E} : sat R (instant_now (E := E)).
Proof. intros w. apply Hnet. Qed.

(** An operation that leaves the files as they are. *)
Lemma sat_fs_same {A} (f : gmap string Node → result IoError A * gmap string Node) :
  (∀ fs, (f fs).2 = fs) → sat R (fs_op f).
Proof.
  intros Hf w. unfold fs_op. destruct (io_error (ops w)); simpl; [apply Hnet|].
  specialize (Hf (files w)). destruct (f (files w)) as [r fs]. simpl in *. subst. rewrite set_same. apply Hnet.
Qed.

Lemma sat_metadata path : sat R (metadata path).
Proof. by apply sat_fs_same. Qed.

Lemma sat_open path : sat R (open path).
Proof. apply sat_fs_same. intros fs. by destruct (fs !! path) as [[]|]. Qed.

Lemma sat_flush path : sat R (flush path).
Proof. by apply sat_fs_same. Qed.

Lemma sat_create_dir path : sat R (create_dir_all path).
Proof. by apply sat_fs_same. Qed.

Lemma sat_read rest : sat R (read rest).
Proof. intros w. unfold read. destruct (io_error _); apply Hnet. Qed.

Lemma sat_hash_loop fuel rest hashed : sat R (hash_loop fuel rest hashed).
Proof.
  revert rest hashed. induction fuel as [|fuel IH]; intros rest hashed; simpl; [apply sat_ret, _|].
  apply sat_bind; [done|apply sat_read|intros chunk]. destruct (_ =? _)%nat; [by apply sat_ret|done].
Qed.

Hint Resolve sat_now sat_metadata sat_open sat_flush sat_create_dir sat_read sat_hash_loop : sat.

Lemma sat_file_sha256 path : sat R (file_sha256 path).
Proof. unfold file_sha256. sat_walk. Qed.

Lemma sat_cached_metadata path : sat R (cached_metadata path).
Proof. unfold cached_metadata. sat_walk. Qed.

Lemma sat_send m current timeout :
  validate_artifact_http_url current (policy client) = Ok tt →
  (∀ token, auth = ArtifactoryApiKey token → url_scheme current = "https" ∧
     ∃ origin, url_parse location = Ok origin ∧ url_origin current = url_origin origin) →
  sat R (send client (mkRequest m current (apply_artifact_http_auth auth) timeout)).
Proof.
  intros Hv Hk w. apply (st_send _ _ Hnet). split; [done|]. simpl. intros token Ht.
  destruct auth as [|token']; [done|]. injection Ht as ->. by destruct (Hk token eq_refl).
Qed.

Lemma sat_send_hops m origin deadline hops current :
  url_parse location = Ok origin → sat R (send_hops client m origin auth deadline hops current).
Proof.
  intros Ho. revert current. induction hops as [|hops IH]; intros current; cbn [send_hops];
    (destruct (_ || _) eqn:E; [by apply sat_throw|]);
    apply orb_false_iff in E as [_ E];
    (apply sat_bind_lift; [done|intros [] Ev]);
    (destruct (validate_artifact_http_url current (policy client)) as [[]|] eqn:Ev'; [|done]);
    (apply sat_bind; [done|by apply sat_now|intros t]);
    (apply sat_bind; [done| |intros response]);
    [apply sat_on_err, sat_send; [done|] | | apply sat_on_err, sat_send; [done|] | ].
  2, 4: sat_walk.
  all: intros token ->; simpl in E; apply orb_false_iff in E as [E1%negb_false_iff%String.eqb_eq E2];
    split; [done|]; exists origin; split; [done|]; by apply bool_decide_eq_false, dec_stable in E2.
Qed.

Lemma sat_request m deadline : sat R (send_artifact_request client m location auth deadline).
Proof.
  unfold send_artifact_request. apply sat_bind_lift; [done|]. intros origin E.
  apply sat_send_hops. by destruct (url_parse location); simplify_eq/=.
Qed.

Hint Resolve sat_file_sha256 sat_cached_metadata sat_request : sat.

Lemma sat_remote_content_length deadline : sat R (remote_content_length client location auth deadline).
Proof. unfold remote_content_length. sat_walk. Qed.
End Net.

#[export] Hint Resolve sat_now sat_metadata sat_open sat_flush sat_create_dir sat_read sat_hash_loop
  sat_file_sha256 sat_cached_metadata sat_request sat_remote_content_length : sat.

(** ** Files *)

Section Steps.
Context `{Outside} (client : ArtifactHttpClient) (dest_path filename : string).

(** The path of a temporary file of this download. *)
Definition is_temp (q : string) : Prop :=
  ∃ t dir, parent dest_path = Some dir ∧
    q = PldmPackage.path_join dir
          (temp_name t (firmware_temp_file_prefix filename) (firmware_temp_file_suffix process_id)).

Context (R : relation World) `{!PreOrder R}.

(** *** The checks of cached files, where any removal is a step *)

Section Cached.
Context (location : string) (auth : ArtifactHttpAuth) (Hnet : net_steps client R location auth).
Context (Hremove : ∀ w, R w (set_files (tick w) (delete dest_path (files w)))).

Lemma sat_remove : sat R (remove_invalid_cached_file dest_path).
Proof.
  apply sat_on_err. intros w. unfold remove_file, fs_op. destruct (io_error _); simpl; [apply Hnet|].
  destruct (files w !! dest_path); simpl; [apply Hremove|rewrite set_same; apply Hnet].
Qed.

Hint Resolve sat_remove : sat.

Lemma sat_cached_firmware_file_valid expected_sha256 deadline :
  sat R (cached_firmware_file_valid client location auth dest_path expected_sha256 deadline).
Proof. unfold cached_firmware_file_valid, cached_size_valid. sat_walk. Qed.

Lemma sat_cached_local_file_valid source_len expected_sha256 :
  sat R (cached_local_file_valid source_len dest_path expected_sha256).
Proof. unfold cached_local_file_valid. sat_walk. Qed.
End Cached.

(** *** The rest *)

Record steps (location : string) (auth : ArtifactHttpAuth) : Prop := mk_steps {
  st_net : net_steps client R location auth;
  st_temp : ∀ w f, (∀ q, ¬ is_temp q → f !! q = files w !! q) → R w (set_files (tick w) f);
}.

Context (location : string) (auth : ArtifactHttpAuth) (expected_sha256 : option string).
Context (Hsteps : steps location auth).

Lemma ticks w : R w (tick w).
Proof. apply Hsteps. Qed.

Lemma net : net_steps client R location auth.
Proof. apply Hsteps. Qed.

Hint Resolve net : sat.

Lemma sat_write temp_path bytes : is_temp temp_path → sat R (write_all temp_path bytes).
Proof.
  intros Ht w. unfold write_all.
  destruct (io_error _); apply (st_temp _ _ Hsteps); intros q Hq; simpl;
    apply lookup_insert_ne; by intros ->.
Qed.

Lemma sat_create temp_path : is_temp temp_path → sat R (create temp_path).
Proof.
  intros Ht w. unfold create, fs_op. destruct (io_error _); simpl; [apply ticks|].
  apply (st_temp _ _ Hsteps). intros q Hq. apply lookup_insert_ne; by intros ->.
Qed.

Lemma sat_drop {E} temp_path : is_temp temp_path → sat R (drop_temp (E := E) temp_path).
Proof.
  intros Ht w. unfold drop_temp, remove_file, fs_op. destruct (io_error _); simpl; [apply ticks|].
  destruct (files w !! temp_path); simpl; [|rewrite set_same; apply ticks].
  apply (st_temp _ _ Hsteps). intros q Hq. apply lookup_delete_ne; by intros ->.
Qed.

Hint Resolve sat_write sat_create sat_drop : sat.

Lemma temp_file_is_temp w w' temp_path :
  firmware_temp_file dest_path filename w = (w', Ok temp_path) → is_temp temp_path.
Proof.
  unfold firmware_temp_file. destruct (parent dest_path) as [dir|] eqn:Ep; [|done].
  unfold bind, on_err, ret. destruct (create _ _) as [w1 [[]|]]; simpl; [|done]. intros [= _ <-].
  exists (ops w), dir. done.
Qed.

Lemma sat_firmware_temp_file : sat R (firmware_temp_file dest_path filename).
Proof.
  intros w. unfold firmware_temp_file. destruct (parent dest_path) as [dir|] eqn:Ep; [|reflexivity].
  apply sat_bind; [done| |intros; by apply sat_ret]. apply sat_on_err, sat_create. by exists (ops w), dir.
Qed.

Lemma sat_stream_body temp_path chunks total hasher :
  is_temp temp_path → sat R (stream_body temp_path chunks total hasher).
Proof.
  intros Ht. revert total hasher. induction chunks as [|[chunk|e] chunks IH]; intros total hasher; cbn [stream_body];
    [by apply sat_ret| |by apply sat_throw].
  destruct (_ =? _)%nat; [done|]. sat_walk.
Qed.

Hint Resolve sat_stream_body : sat.

Lemma sat_stream response temp_path expected_len :
  is_temp temp_path →
  sat R (stream_response_to_temp_file response temp_path location expected_sha256 expected_len).
Proof. intros Ht. unfold stream_response_to_temp_file. sat_walk. Qed.

Lemma sat_copy_loop fuel source_path temp_path rest copied hasher :
  is_temp temp_path → sat R (copy_loop fuel source_path temp_path rest copied hasher).
Proof.
  intros Ht. revert rest copied hasher. induction fuel as [|fuel IH]; intros rest copied hasher; cbn [copy_loop];
    [by apply sat_ret|]. sat_walk.
Qed.

Hint Resolve sat_copy_loop : sat.

Lemma sat_copy_local source_path label temp_path source_len :
  is_temp temp_path → sat R (copy_local_to_temp source_path label temp_path expected_sha256 source_len).
Proof. intros Ht. unfold copy_local_to_temp. sat_walk. Qed.

(** ** Whole downloads *)

(** Either all outcomes move along [R], or the failures do: what a judgement on
    whole downloads needs. *)
Record judgement (J : IO ArtifactError unit → Prop) : Prop := mk_judgement {
  jg_sat : ∀ m, sat R m → J m;
  jg_bind : ∀ A (Q : A → Prop) (m : IO ArtifactError A) k,
    sat R m → (∀ w w' a, m w = (w', Ok a) → Q a) → (∀ a, Q a → J (k a)) → J (bind m k);
  jg_catch : ∀ m k, J m → (∀ e, J (k e)) →
    J (bind (try_io m) (fun outcome => match outcome with Ok _ => ret tt | Err e => k e end));
  jg_publish : ∀ temp_path f, is_temp temp_path → J (publish_file temp_path dest_path f);
}.

Section Judgement.
Context (J : IO ArtifactError unit → Prop) (HJ : judgement J).

Lemma jg_then {A} (m : IO ArtifactError A) k : sat R m → (∀ a, J (k a)) → J (bind m k).
Proof. intros Hm Hk. by apply (jg_bind _ HJ _ (fun _ => True)). Qed.

(** The last part: a temporary file is written and published. *)
Lemma jg_temp {A} (write : string → IO ArtifactError A) f :
  (∀ temp_path, is_temp temp_path → sat R (write temp_path)) →
  J (let! temp_path := firmware_temp_file dest_path filename in
     let! _ := or_drop temp_path (write temp_path) in
     publish_file temp_path dest_path (f temp_path)).
Proof.
  intros Hw. apply (jg_bind _ HJ _ is_temp); [apply sat_firmware_temp_file|apply temp_file_is_temp|].
  intros temp_path Ht. apply jg_then; [|intros _; by apply (jg_publish _ HJ)].
  apply sat_or_drop; [done|by apply sat_drop|by apply Hw].
Qed.

Section Http.
Context (Hcached : ∀ deadline,
  sat R (cached_firmware_file_valid client location auth dest_path expected_sha256 deadline)).

Lemma jg_download_http_file deadline :
  J (download_http_file client location expected_sha256 auth dest_path filename deadline).
Proof.
  unfold download_http_file. apply jg_then; [apply Hcached|].
  intros [|]; [by apply (jg_sat _ HJ), sat_ret|]. apply jg_then; [eapply sat_request, net; done|]. intros response.
  destruct (negb _); [by apply (jg_sat _ HJ), sat_throw|].
  apply (jg_temp (fun temp_path => on_err snd (stream_response_to_temp_file response temp_path location
    expected_sha256 (content_length response)))).
  intros temp_path Ht. by apply sat_on_err, sat_stream.
Qed.

Context (Hsleep : ∀ w d, R w (log (tick w) [Slept d])).

Lemma jg_download_attempts deadline more first :
  J (download_attempts client location expected_sha256 auth dest_path filename deadline more first).
Proof.
  revert first. induction more as [|more IH]; intros first; cbn [download_attempts];
    (apply (jg_catch _ HJ); [apply jg_download_http_file|intros e]);
    (apply jg_then; [eapply sat_now, net|intros t]); [by apply (jg_sat _ HJ), sat_throw|].
  destruct (_ && _); [|by apply (jg_sat _ HJ), sat_throw]. apply jg_then; [intros w; apply Hsleep|done].
Qed.

Lemma jg_backoff :
  J (download_http_file_with_backoff client location expected_sha256 auth dest_path filename).
Proof. apply jg_then; [eapply sat_now, net|]. intros t. apply jg_download_attempts. Qed.

End Http.

(** A copy once the size of the source is known. *)
Lemma jg_copy_sized source_path label source_len f :
  sat R (cached_local_file_valid source_len dest_path expected_sha256) →
  J (let! _ := lift (validate_download_size label (Some source_len) source_len) in
     let! valid := cached_local_file_valid source_len dest_path expected_sha256 in
     if valid then ret tt
     else
       let! temp_path := firmware_temp_file dest_path filename in
       let! _ := or_drop temp_path
                   (copy_local_to_temp source_path label temp_path expected_sha256 source_len) in
       publish_file temp_path dest_path (f temp_path)).
Proof.
  intros Hlocal. apply jg_then; [by apply sat_lift|intros _]. apply jg_then; [done|].
  intros [|]; [by apply (jg_sat _ HJ), sat_ret|].
  apply (jg_temp (fun temp_path => copy_local_to_temp source_path label temp_path expected_sha256 _)).
  intros temp_path Ht. by apply sat_copy_local.
Qed.

Lemma jg_copy source_path label :
  (∀ source_len, sat R (cached_local_file_valid source_len dest_path expected_sha256)) →
  J (copy_local_file_to_cache source_path label expected_sha256 dest_path filename).
Proof.
  intros Hlocal. unfold copy_local_file_to_cache.
  apply jg_then; [apply sat_on_err; eapply sat_metadata, net|].
  intros [bytes|]; [|by apply (jg_sat _ HJ), sat_throw].
  by apply (jg_copy_sized _ _ _ (fun _ => _)).
Qed.
End Judgement.

(** All outcomes. *)
Lemma judgement_sat :
  (∀ w temp_path, is_temp temp_path →
     R w (set_files (tick w) (<[dest_path := Regular (file_bytes (files w) temp_path)]>
                                (delete temp_path (files w))))) →
  judgement (sat R).
Proof.
  intros Hp. split; [done| | |].
  - intros A Q m k Hm HQ Hk. by eapply sat_bind_post.
  - intros m k Hm Hk. apply sat_bind; [done|by apply sat_try|]. intros [|]; [by apply sat_ret|done].
  - intros temp_path f Ht. apply sat_bind; [done| |].
    + apply sat_try. intros w. unfold persist, fs_op. destruct (io_error _); [apply ticks|by apply Hp].
    + intros [|]; [by apply sat_ret|]. apply sat_bind; [done|by apply sat_drop|intros; by apply sat_throw].
Qed.

(** The failures. *)
Definition fails (m : IO ArtifactError unit) : Prop := ∀ w w' e, m w = (w', Err e) → R w w'.

Lemma judgement_fails : judgement fails.
Proof.
  split.
  - intros m Hm w w' e E. specialize (Hm w). by rewrite E in Hm.
  - intros A Q m k Hm HQ Hk w w' e E. specialize (Hm w). unfold bind in E.
    destruct (m w) as [w1 [a|e1]] eqn:Em; simpl in Hm; [|by injection E as <- _].
    etransitivity; [exact Hm|]. eapply Hk; [by eapply HQ|done].
  - intros m k Hm Hk w w' e E. unfold bind, try_io in E. destruct (m w) as [w1 [a|e1]] eqn:Em; [done|].
    etransitivity; [by eapply Hm|by eapply Hk].
  - intros temp_path f Ht w w' e E. unfold publish_file, bind, try_io in E.
    unfold persist, fs_op in E. destruct (io_error (ops w)); [|done].
    pose proof (sat_drop (E := ArtifactError) temp_path Ht (tick w)) as Hd.
    destruct (drop_temp temp_path (tick w)) as [w1 [?|?]] eqn:Ed; simpl in Hd; injection E as <- _;
      (etransitivity; [apply ticks|exact Hd]).
Qed.
End Steps.
End ArtifactProofs.
