(* ===== verification/ArtifactTheorems.v ===== *)
(** * Properties of firmware artifact downloads *)

From S2P Require Import Prelude RustStd RustStr EndpointScope RmsError JobTypes FabricLayout.
From S2P Require Import PldmPackage Net NetTheorems Artifacts ArtifactDownload ArtifactProofs.
From Stdlib Require Import Ascii.
Local Open Scope string_scope.
Local Open Scope list_scope.
Local Open Scope N_scope.

Module ArtifactTheorems.
Import Net NetTheorems FabricLayout Artifacts ArtifactDownload ArtifactProofs.

Section Theorems.
Context `{Outside}.

(** ** From the parts to [download_artifact] *)

(** The key is the caller's token, and only for Artifactory locations. *)
Definition auth_ok (request : Download) (auth : ArtifactHttpAuth) : Prop :=
  ∀ token, auth = ArtifactoryApiKey token →
    access_token request = Some token ∧
    artifact_location_kind (location_type request) = Ok Artifactory.

(** Where a download is from. *)
Definition source_of (request : Download) : result string ArtifactDownloadSource :=
  resolve_artifact_download_with_policy (download_location request) (location_type request)
    (access_token request).

Lemma resolve_source request url auth :
  source_of request = Ok (HttpSource url auth) → url = download_location request ∧ auth_ok request auth.
Proof.
  unfold source_of, resolve_artifact_download_with_policy.
  destruct (artifact_location_kind (location_type request)) as [kind|] eqn:Ek; [|done]. simpl.
  destruct (match url_parse _ with Ok _ => _ | Err _ => _ end) as [source|] eqn:Es; [|done]. simpl.
  destruct (validate_location_type_matches_source _ _ _); [|done]. intros [= ->].
  destruct (url_parse _) as [u|]; [|by repeat case_hyp Es].
  destruct (_ && _ && _); [done|]. destruct (_ || _); [|by repeat case_hyp Es].
  injection Es as <- <-. split; [done|]. intros token Ht. rewrite Ek.
  unfold http_auth_for_location in Ht. destruct kind; [done| |done].
  unfold optional_access_token in Ht. destruct (access_token request) as [tok|]; [|done].
  destruct (is_blank tok); [done|]. by injection Ht as ->.
Qed.

Section Whole.
Context (request : Download) (destination : string) (client : ArtifactHttpClient).
Context (R : relation World) `{!PreOrder R} (J : IO ArtifactError unit → Prop).
Context (HJ : ∀ m, sat R m → J m).
Context (Hj : ∀ filename, file_name destination = Some filename → judgement destination filename R J).
Context (Htick : ∀ w, R w (tick w)) (Hsleep : ∀ w d, R w (log (tick w) [Slept d])).
Context (Hhttp : ∀ filename url auth, file_name destination = Some filename →
  source_of request = Ok (HttpSource url auth) →
  steps client destination filename R url auth ∧
  ∀ deadline, sat R (cached_firmware_file_valid client url auth destination (expected (sha256 request)) deadline)).
Context (Hcopy : ∀ filename path, file_name destination = Some filename →
  source_of request = Ok (FileSource path) →
  J (copy_local_file_to_cache path (download_location request) (expected (sha256 request)) destination
       filename)).

Lemma jg_download_artifact : J (download_artifact request destination client).
Proof.
  unfold download_artifact. destruct (file_name destination) as [name|] eqn:Ef; [|apply HJ; by sat_walk].
  pose proof (Hj name eq_refl) as Hjn.
  apply (jg_bind _ _ _ _ Hjn _ (fun f => f = name)); [by apply sat_lift|by intros w w' f [= _ ->]|intros ? ->].
  destruct (match expected _ with Some _ => _ | None => _ end); [by apply HJ, sat_throw|].
  apply (jg_bind _ _ _ _ Hjn _ (fun s => source_of request = Ok s)); [by apply sat_lift| |].
  { unfold lift, source_of. intros w w' s [= _ E].
    by destruct (resolve_artifact_download_with_policy _ _ _); simplify_eq/=. }
  intros source Es. destruct (missing_required_digest _ && _); [by apply HJ, sat_throw|].
  apply (jg_then _ _ _ _ Hjn); [by apply sat_lift|intros dir].
  apply (jg_then _ _ _ _ Hjn).
  { apply sat_on_err. intros w. unfold create_dir_all, fs_op. destruct (io_error _); simpl; [done|].
    rewrite set_same. done. }
  intros _. destruct source as [url auth|path]; [|by apply Hcopy].
  destruct (Hhttp name url auth eq_refl Es) as [Hst Hcached].
  exact (jg_backoff client destination name R _ _ _ Hst _ Hjn Hcached Hsleep).
Qed.
End Whole.

(** ** Requests *)

(** What is added to the events. *)
Definition adds (P : Event → Prop) (w w' : World) : Prop :=
  ∃ es, events w' = events w ++ es ∧ ∀ e, e ∈ es → P e.

#[local] Instance adds_preorder P : PreOrder (adds P).
Proof.
  split.
  - intros w. exists []. split; [by rewrite app_nil_r|]. by intros e ?%not_elem_of_nil.
  - intros w1 w2 w3 (es1 & E1 & Hes1) (es2 & E2 & Hes2). exists (es1 ++ es2).
    split; [by rewrite E2, E1, app_assoc|]. intros e [?|?]%elem_of_app; auto.
Qed.

Lemma adds_same P w w' : events w' = events w → adds P w w'.
Proof. intros E. exists []. rewrite E, app_nil_r. split; [done|]. by intros e ?%not_elem_of_nil. Qed.

(** What holds of the events of every request that may be sent, and of waiting,
    holds of all events of a download. *)
Lemma adds_download P request destination client w :
  (∀ d, P (Slept d)) →
  (∀ auth w req, auth_ok request auth → sendable client (download_location request) auth req →
     P (Sent req) ∧
     ∀ a, a ∈ connects (ops w) (url req) (resolve (lookup_host (ops w)) (policy client)) → P (Connected a)) →
  adds P w (download_artifact request destination client w).1.
Proof.
  intros Hslept Hsent. revert w.
  assert (∀ w w', events w' = events w → adds P w w') as Hsame by (intros; by apply adds_same).
  assert (∀ filename auth, auth_ok request auth →
    steps client destination filename (adds P) (download_location request) auth) as Hall.
  { intros filename auth Ha. split; [split|]; auto. intros w req Hs.
    destruct (Hsent auth w req Ha Hs) as [Hreq Hconn]. eexists. split; [reflexivity|].
    intros e [->|(a & -> & Hin)%list_elem_of_fmap]%elem_of_cons; auto. }
  assert (∀ filename, judgement destination filename (adds P) (sat (adds P))) as Hj.
  { intros filename. eapply judgement_sat; [apply _|by apply (Hall filename NoAuth)|]. auto. }
  apply (jg_download_artifact request destination client (adds P) (sat (adds P))); auto.
  - intros w d. exists [Slept d]. split; [done|]. intros e ->%list_elem_of_singleton. done.
  - intros filename url auth _ [-> Ha]%resolve_source. split; [by apply Hall|intros deadline].
    apply sat_cached_firmware_file_valid; [apply _|by apply (Hall filename)|auto].
  - intros filename path _ _.
    assert (steps client destination filename (adds P) (download_location request) NoAuth) as Hst by by apply Hall.
    eapply (jg_copy client destination filename (adds P) _ _ _ Hst _ (Hj filename)). intros source_len.
    eapply (sat_cached_local_file_valid client); [apply _|apply Hst|auto].
Qed.

(** The policy accepts the URL; a key is the caller's token, for an Artifactory
    location, and goes to the HTTPS origin of the location. *)
Definition request_ok (request : Download) (client : ArtifactHttpClient) (req : Request) : Prop :=
  validate_artifact_http_url (url req) (policy client) = Ok tt ∧
  ∀ token, api_key req = Some token →
    access_token request = Some token ∧
    artifact_location_kind (location_type request) = Ok Artifactory ∧
    url_scheme (url req) = "https" ∧
    ∃ origin, url_parse (download_location request) = Ok origin ∧
              url_origin (url req) = url_origin origin.

(** C13. A download sends nothing that the policy forbids, and an API key goes
    only where it belongs. Every request, for the file and for the size of a
    cached one, of every attempt and after every redirect, has a URL that the
    policy accepts. If it carries a key, then that is the caller's token, the
    location is an Artifactory one, and the URL is an HTTPS one with the origin
    of the location. *)
Theorem requests_confined request destination client w :
  ∃ es, events (download_artifact request destination client w).1 = events w ++ es ∧
    ∀ req, Sent req ∈ es → request_ok request client req.
Proof.
  destruct (adds_download (fun e => match e with Sent req => request_ok request client req | _ => True end)
    request destination client w) as (es & E & Hes); [done| |].
  - intros auth w1 req Ha [Hv Hk]. split; [|done]. split; [exact Hv|]. intros token Ht.
    destruct (Hk token Ht) as (-> & Hs & Ho). destruct (Ha token eq_refl). eauto.
  - exists es. split; [exact E|]. intros req Hr. exact (Hes _ Hr).
Qed.

(** ** Connections *)

(** The client connects for a URL to the host of the proxy that is set for it, or
    else to the URL's own: to the address that the host is, or to one that the
    client's resolver gave for it. *)
Definition client_connects : Prop :=
  ∀ t u resolver a, a ∈ connects t u resolver →
    match url_host (default u (system_proxy u)) with
    | Some (Ipv4 octets) => a = V4 octets
    | Some (Ipv6 segments) => a = V6 segments
    | Some (Domain name) => ∃ addrs, resolver name = Ok addrs ∧ a ∈ addrs.*1
    | None => False
    end.

(** The text of a URL's host that is an address parses to it, without its brackets. *)
Definition host_texts : Prop :=
  ∀ u ip, url_host u = Some (match ip with V4 o => Ipv4 o | V6 s => Ipv6 s end) →
    ∃ host, url_host_str u = Some host ∧ parse_artifact_ip_literal host = Some ip.

Lemma literal_checked client u host ip :
  allow_private_targets (policy client) = false →
  validate_artifact_http_url u (policy client) = Ok tt →
  url_host_str u = Some host → parse_artifact_ip_literal host = Some ip →
  is_special_purpose_ip ip Disallowed = false.
Proof.
  intros Hp Hv Hh Hi. unfold validate_artifact_http_url in Hv. rewrite Hh, Hp in Hv. simpl in Hv.
  destruct (negb _); [done|]. destruct (String.eqb host ""); [done|]. destruct (negb _); [done|].
  rewrite Hi in Hv. by destruct (is_special_purpose_ip ip Disallowed).
Qed.

Lemma resolved_checked lookup client name addrs a :
  allow_private_targets (policy client) = false →
  resolve lookup (policy client) name = Ok addrs → a ∈ addrs.*1 →
  is_special_purpose_ip a Disallowed = false.
Proof.
  intros Hp Hr Ha. unfold resolve, resolve_validated_artifact_addrs in Hr. rewrite Hp in Hr.
  destruct (match parse_artifact_ip_literal _ with Some _ => _ | None => _ end) as [l|]; [|done]. simpl in Hr.
  destruct (existsb _ l) eqn:E; [done|]. injection Hr as ->.
  apply list_elem_of_fmap in Ha as (addr & -> & Hin). apply not_true_iff_false in E.
  apply not_true_iff_false. intros Hs. apply E, existsb_exists. exists addr. by rewrite <- list_elem_of_In.
Qed.

(** The host of a URL is this address. *)
Definition host_is (u : Url) (a : IpAddr) : Prop :=
  url_host u = Some (match a with V4 o => Ipv4 o | V6 s => Ipv6 s end).

(** C14. When private targets are not allowed, no connection of a download goes to
    a special-purpose address, unless that is the address of a proxy: not for an
    address in the URL, not for a name that resolves to one (the URL's or a
    proxy's), not after a redirect, and not when a name resolves differently from
    one request to the next.  The exception is a proxy that the environment sets
    by its address for a URL that the policy accepts.  Assumed of the HTTP client
    is that it connects to the host of the proxy for a URL or else of the URL
    itself, through the resolver it was built with when that is a name; and of
    the URL parser that the text of a host that is an address parses to it. *)
Theorem no_private_connection request destination client w :
  client_connects → host_texts → allow_private_targets (policy client) = false →
  ∃ es, events (download_artifact request destination client w).1 = events w ++ es ∧
    ∀ a, Connected a ∈ es →
      is_special_purpose_ip a Disallowed = false ∨
      ∃ u proxy, validate_artifact_http_url u (policy client) = Ok tt ∧
        system_proxy u = Some proxy ∧ host_is proxy a.
Proof.
  intros Hc Ht Hp.
  destruct (adds_download (fun e => match e with
      | Connected a => is_special_purpose_ip a Disallowed = false ∨
          ∃ u proxy, validate_artifact_http_url u (policy client) = Ok tt ∧
            system_proxy u = Some proxy ∧ host_is proxy a
      | _ => True end)
    request destination client w) as (es & E & Hes); [done| |].
  - intros auth w1 req _ [Hv _]. split; [done|]. intros a Ha. apply Hc in Ha.
    assert (∀ ip, host_is (default (url req) (system_proxy (url req))) ip → a = ip →
      is_special_purpose_ip a Disallowed = false ∨ ∃ u proxy,
        validate_artifact_http_url u (policy client) = Ok tt ∧ system_proxy u = Some proxy ∧ host_is proxy a)
      as Hlit.
    { intros ip Hh ->. destruct (system_proxy (url req)) as [proxy|] eqn:Ex; [by eauto 10|left].
      destruct (Ht (url req) ip Hh) as (host & Hs & Hi). by eapply literal_checked. }
    destruct (url_host (default _ _)) as [[name|octets|segments]|] eqn:Eh; [| | |done].
    + destruct Ha as (addrs & Hr & Hin). left. by eapply resolved_checked.
    + by apply (Hlit (V4 octets)).
    + by apply (Hlit (V6 segments)).
  - exists es. split; [exact E|]. intros a Ha. exact (Hes _ Ha).
Qed.

(** ** What a success leaves *)

Lemma bind_ok {E A B} (m : IO E A) (k : A → IO E B) w w' b :
  bind m k w = (w', Ok b) → ∃ w1 a, m w = (w1, Ok a) ∧ k a w1 = (w', Ok b).
Proof. unfold bind. destruct (m w) as [w1 [a|e]]; [|done]. eauto. Qed.

Lemma on_err_ok {E F A} (f : E → F) (m : IO E A) w w' a :
  on_err f m w = (w', Ok a) → m w = (w', Ok a).
Proof. unfold on_err. destruct (m w) as [w1 [?|?]]; naive_solver. Qed.

Lemma lift_ok {E A} (r : result E A) w w' a : lift r w = (w', Ok a) → w' = w ∧ r = Ok a.
Proof. intros [= -> ->]. done. Qed.

Lemma try_ok {E F A} (m : IO E A) w w' r : try_io (F := F) m w = (w', Ok r) → m w = (w', r).
Proof. unfold try_io. destruct (m w). naive_solver. Qed.

(** Split the binds of a success. *)
Ltac io_ok H :=
  let w := fresh "w" in let a := fresh "a" in let H' := fresh "Hm" in
  apply bind_ok in H as (w & a & H' & H); try apply on_err_ok in H'.

(** An operation that does not change the files. *)
Lemma fs_same_ok {A} (f : gmap string Node → result IoError A * gmap string Node) w w' a :
  (∀ fs, (f fs).2 = fs) → fs_op f w = (w', Ok a) → files w' = files w ∧ (f (files w)).1 = Ok a.
Proof.
  intros Hf. unfold fs_op. destruct (io_error _); [done|]. specialize (Hf (files w)).
  destruct (f (files w)) as [r fs]. simpl in *. intros [= <- ->]. by subst.
Qed.

Lemma read_ok rest w w' chunk :
  read rest w = (w', Ok chunk) →
  files w' = files w ∧ rest = chunk.1 ++ chunk.2 ∧ (chunk.1 = [] → rest = []).
Proof.
  unfold read. destruct (io_error _); [done|]. intros [= <- <-]. simpl. rewrite take_drop.
  split_and!; [done..|]. destruct rest; [done|]. by destruct (1 `max` _)%nat eqn:E; [lia|].
Qed.

Lemma hash_loop_ok fuel rest hashed w w' r :
  (length rest < fuel)%nat → hash_loop fuel rest hashed w = (w', Ok r) →
  files w' = files w ∧ r = hashed ++ rest.
Proof.
  revert rest hashed w. induction fuel as [|fuel IH]; intros rest hashed w Hf E; [lia|]. simpl in E.
  io_ok E. apply read_ok in Hm as (Hfs & Hr & Hn). destruct (Nat.eqb_spec (length a.1) 0) as [Hz|Hz].
  - apply nil_length_inv in Hz. injection E as <- <-. rewrite (Hn Hz), app_nil_r. done.
  - apply IH in E as [Hfs' ->]; [by rewrite Hfs', Hr, app_assoc|].
    rewrite Hr, length_app in Hf. lia.
Qed.

Lemma file_sha256_ok path bytes w w' d :
  file_sha256 path w = (w', Ok d) → files w !! path = Some (Regular bytes) →
  files w' = files w ∧ d = digest_hex bytes.
Proof.
  unfold file_sha256. intros E Hp. io_ok E. io_ok E. injection E as <- <-.
  apply fs_same_ok in Hm as [Hfs Ho]; [|intros fs; by destruct (fs !! path) as [[]|]].
  rewrite Hp in Ho. injection Ho as <-. apply hash_loop_ok in Hm0 as [Hfs' ->]; [|lia].
  by rewrite Hfs', Hfs.
Qed.

Lemma cached_metadata_ok path w w' r :
  cached_metadata path w = (w', Ok r) →
  files w' = files w ∧ ∀ bytes, r = Some bytes → files w !! path = Some (Regular bytes).
Proof.
  unfold cached_metadata. intros E. io_ok E. apply try_ok in Hm. unfold metadata, fs_op in Hm.
  destruct (io_error _) as [e|].
  - injection Hm as <- <-. destruct (kind e); try done; injection E as <- <-; naive_solver.
  - destruct (files w !! path) as [[bytes|]|] eqn:Ep; injection Hm as <- <-; simpl in E;
      try done; injection E as <- <-; naive_solver.
Qed.

(** The file is there, is not empty, and has the digest that is expected, if any. *)
Definition good_file (fs : gmap string Node) (path : string) (expected_sha256 : option string) : Prop :=
  ∃ bytes, fs !! path = Some (Regular bytes) ∧ bytes ≠ [] ∧
    ∀ e, expected_sha256 = Some e → sha256_matches e (digest_hex bytes) = true.

(** Sending requests does not change the files. *)
Definition same_files (w w' : World) : Prop := files w' = files w.

#[local] Instance same_files_preorder : PreOrder same_files.
Proof. split; [done|]. intros w1 w2 w3 E1 E2. unfold same_files in *. congruence. Qed.

Lemma request_same_files client url auth deadline w :
  files (remote_content_length client url auth deadline w).1 = files w.
Proof. eapply (sat_remote_content_length client same_files). by split. Qed.

Lemma cached_firmware_file_valid_ok client url auth dest_path expected_sha256 deadline w w' :
  cached_firmware_file_valid client url auth dest_path expected_sha256 deadline w = (w', Ok true) →
  good_file (files w') dest_path expected_sha256.
Proof.
  unfold cached_firmware_file_valid. intros E. io_ok E. apply cached_metadata_ok in Hm as [Hfs Hb].
  destruct a as [bytes|]; [|done]. specialize (Hb bytes eq_refl).
  destruct (len bytes =? 0) eqn:Ez; [by io_ok E|].
  assert (bytes ≠ []) as Hne by (intros ->; done).
  destruct expected_sha256 as [expected|].
  - io_ok E. rewrite <- Hfs in Hb. destruct (file_sha256_ok _ _ _ _ _ Hm Hb) as [Hfs' ->].
    destruct (sha256_matches _ _) eqn:Es; [|by io_ok E]. injection E as <-.
    exists bytes. rewrite Hfs'. split_and!; [done..|]. by intros e [= <-].
  - assert (files w' = files w0) as Hsame.
    { unfold cached_size_valid in E. destruct (match url_parse url with Ok _ => _ | Err _ => _ end).
      { by injection E as <-. }
      io_ok E. apply try_ok in Hm. pose proof (request_same_files client url auth deadline w0) as Hr.
      rewrite Hm in Hr. simpl in Hr. rewrite <- Hr.
      repeat case_hyp E; try (by injection E as <-); by io_ok E. }
    exists bytes. rewrite Hsame, Hfs. split_and!; done.
Qed.

Lemma cached_local_file_valid_ok source_len dest_path expected_sha256 w w' :
  cached_local_file_valid source_len dest_path expected_sha256 w = (w', Ok true) →
  good_file (files w') dest_path expected_sha256.
Proof.
  unfold cached_local_file_valid. intros E. io_ok E. apply cached_metadata_ok in Hm as [Hfs Hb].
  destruct a as [bytes|]; [|done]. specialize (Hb bytes eq_refl). rewrite <- Hfs in Hb.
  destruct expected_sha256 as [expected|].
  - destruct (0 <? len bytes) eqn:Ez; [|by io_ok E]. io_ok E.
    destruct (file_sha256_ok _ _ _ _ _ Hm Hb) as [Hfs' ->].
    destruct (sha256_matches _ _) eqn:Es; [|by io_ok E]. injection E as <-.
    exists bytes. rewrite Hfs'. split_and!; [done|by intros ->|]. by intros e [= <-].
  - destruct (_ && (0 <? len bytes)) eqn:Ez; [|by io_ok E]. injection E as <-. reflect_bools.
    exists bytes. split_and!; [done|by intros ->|done].
Qed.

(** What was written to the temporary file is what was counted and hashed. *)
Definition wrote (temp_path : string) (w w' : World) (total total' : N) (hasher hasher' : option chars)
    (data : chars) : Prop :=
  file_bytes (files w') temp_path = file_bytes (files w) temp_path ++ data ∧
  total' = total + len data ∧ hasher' = hash_update hasher data.

Lemma write_all_ok temp_path bytes w w' :
  write_all temp_path bytes w = (w', Ok tt) →
  file_bytes (files w') temp_path = file_bytes (files w) temp_path ++ bytes.
Proof.
  unfold write_all. destruct (io_error _); [done|]. intros [= <-]. unfold file_bytes at 1. simpl.
  by rewrite lookup_insert_eq, firstn_all.
Qed.

Lemma wrote_cons temp_path w1 w2 w' total total' hasher hasher' chunk :
  file_bytes (files w2) temp_path = file_bytes (files w1) temp_path ++ chunk →
  (∃ data, wrote temp_path w2 w' (total + len chunk) total' (hash_update hasher chunk) hasher' data) →
  ∃ data, wrote temp_path w1 w' total total' hasher hasher' data.
Proof.
  intros Hw (data & Hd & -> & ->). exists (chunk ++ data). split_and!.
  - by rewrite Hd, Hw, app_assoc.
  - unfold len. rewrite length_app. lia.
  - unfold hash_update. destruct hasher; simpl; [by rewrite app_assoc|done].
Qed.

Lemma wrote_nil temp_path w w' total hasher :
  files w' = files w → ∃ data, wrote temp_path w w' total total hasher hasher data.
Proof.
  intros E. exists []. unfold wrote. rewrite E. split_and!; [by rewrite app_nil_r|unfold len; simpl; lia|].
  unfold hash_update. destruct hasher; simpl; [by rewrite app_nil_r|done].
Qed.

Lemma stream_body_ok temp_path chunks total hasher w w' r :
  stream_body temp_path chunks total hasher w = (w', Ok r) →
  ∃ data, wrote temp_path w w' total r.1 hasher r.2 data.
Proof.
  revert total hasher w. induction chunks as [|[chunk|e] chunks IH]; intros total hasher w E; simpl in E.
  - injection E as <- <-. by apply wrote_nil.
  - destruct (_ =? _)%nat; [by apply IH|]. io_ok E. destruct a. apply write_all_ok in Hm.
    eapply wrote_cons; [exact Hm|by apply IH].
  - done.
Qed.

Lemma cache_copy_ok fuel source_path temp_path rest copied hasher w w' r :
  copy_loop fuel source_path temp_path rest copied hasher w = (w', Ok r) →
  ∃ data, wrote temp_path w w' copied r.1 hasher r.2 data.
Proof.
  revert rest copied hasher w. induction fuel as [|fuel IH]; intros rest copied hasher w E; simpl in E.
  { injection E as <- <-. by apply wrote_nil. }
  io_ok E. apply read_ok in Hm as (Hfs & _). destruct (_ =? _)%nat.
  - injection E as <- <-. by apply wrote_nil.
  - io_ok E. destruct a0. apply write_all_ok in Hm. rewrite Hfs in Hm.
    eapply wrote_cons; [exact Hm|by eapply IH].
Qed.

(** A temporary file that may be published. *)
Definition good_temp (w : World) (temp_path : string) (expected_sha256 : option string) : Prop :=
  file_bytes (files w) temp_path ≠ [] ∧
  ∀ e, expected_sha256 = Some e →
    sha256_matches e (digest_hex (file_bytes (files w) temp_path)) = true.

Lemma checked_temp temp_path w w' total hasher data expected_sha256 url expected_len mismatch :
  file_bytes (files w) temp_path = [] →
  wrote temp_path w w' 0 total ((fun _ => []) <$> expected_sha256) hasher data →
  validate_download_size url expected_len total = Ok tt →
  verify_digest expected_sha256 hasher mismatch = Ok tt →
  good_temp w' temp_path expected_sha256.
Proof.
  intros Hz (Hd & -> & ->) Hs Hv. rewrite Hz in Hd. simpl in Hd. unfold good_temp. rewrite Hd. split.
  - intros ->. done.
  - intros e ->. simpl in Hv. by destruct (sha256_matches e (digest_hex data)).
Qed.

Lemma flush_ok path w w' a : flush path w = (w', Ok a) → files w' = files w.
Proof. intros E. by apply fs_same_ok in E as [? _]. Qed.

Lemma stream_ok response temp_path url expected_sha256 expected_len w w' n :
  file_bytes (files w) temp_path = [] →
  stream_response_to_temp_file response temp_path url expected_sha256 expected_len w = (w', Ok n) →
  good_temp w' temp_path expected_sha256.
Proof.
  intros Hz E. unfold stream_response_to_temp_file in E. io_ok E. apply stream_body_ok in Hm as [data Hw].
  io_ok E. apply flush_ok in Hm. io_ok E. apply lift_ok in Hm0 as [-> Hs%map_err_is_ok]. destruct a1.
  io_ok E. apply lift_ok in Hm0 as [-> Hv%map_err_is_ok]. destruct a1. injection E as <- _.
  unfold good_temp. rewrite Hm. by eapply checked_temp.
Qed.

Lemma copy_local_ok source_path label temp_path expected_sha256 source_len w w' :
  file_bytes (files w) temp_path = [] →
  copy_local_to_temp source_path label temp_path expected_sha256 source_len w = (w', Ok tt) →
  good_temp w' temp_path expected_sha256.
Proof.
  intros Hz E. unfold copy_local_to_temp in E. io_ok E.
  apply fs_same_ok in Hm as [Hfs _]; [|intros fs; by destruct (fs !! source_path) as [[]|]].
  io_ok E. apply cache_copy_ok in Hm as [data Hw]. io_ok E. apply flush_ok in Hm.
  io_ok E. apply lift_ok in Hm0 as [-> Hs]. destruct a2. apply lift_ok in E as [-> Hv].
  unfold good_temp. rewrite Hm. eapply checked_temp; [|exact Hw|exact Hs|exact Hv]. by rewrite Hfs.
Qed.

(** A file that was written and published is good. *)
Lemma temp_published {A} dest_path filename expected_sha256 (write : string → IO ArtifactError A) f w w' :
  (∀ temp_path w w' a, file_bytes (files w) temp_path = [] → write temp_path w = (w', Ok a) →
     good_temp w' temp_path expected_sha256) →
  (let! temp_path := firmware_temp_file dest_path filename in
   let! _ := or_drop temp_path (write temp_path) in
   publish_file temp_path dest_path (f temp_path)) w = (w', Ok tt) →
  good_file (files w') dest_path expected_sha256.
Proof.
  intros Hw E. io_ok E. unfold firmware_temp_file in Hm. destruct (parent dest_path); [|done].
  io_ok Hm. injection Hm as <- <-. unfold create, fs_op in Hm0. destruct (io_error (ops w)); [done|].
  injection Hm0 as <- _. io_ok E. unfold or_drop in Hm. destruct (write _ _) as [w3 [x|]] eqn:Ew; [|by destruct (drop_temp _ _)].
  injection Hm as <- <-. apply Hw in Ew as [Hne Hd]; [|unfold file_bytes; simpl; by rewrite lookup_insert_eq].
  unfold publish_file in E. io_ok E. apply try_ok in Hm. unfold persist, fs_op in Hm.
  destruct (io_error (ops w3)); injection Hm as <- <-; [by io_ok E|]. injection E as <-.
  eexists. simpl. by rewrite lookup_insert_eq.
Qed.

Lemma download_http_file_ok client url expected_sha256 auth dest_path filename deadline w w' :
  download_http_file client url expected_sha256 auth dest_path filename deadline w = (w', Ok tt) →
  good_file (files w') dest_path expected_sha256.
Proof.
  unfold download_http_file. intros E. io_ok E. destruct a.
  { injection E as <-. by eapply cached_firmware_file_valid_ok. }
  io_ok E. destruct (negb _); [done|].
  eapply (temp_published dest_path filename expected_sha256 (fun temp_path => on_err snd
    (stream_response_to_temp_file a temp_path url expected_sha256 (content_length a)))); [|exact E].
  intros temp_path v v' n Hz Hs%on_err_ok. by eapply stream_ok.
Qed.

Lemma download_attempts_ok client url expected_sha256 auth dest_path filename deadline more first w w' :
  download_attempts client url expected_sha256 auth dest_path filename deadline more first w = (w', Ok tt) →
  good_file (files w') dest_path expected_sha256.
Proof.
  revert first w. induction more as [|more IH]; intros first w E; cbn [download_attempts] in E;
    io_ok E; apply try_ok in Hm; (destruct a as [[]|e]; [injection E as <-; by eapply download_http_file_ok|]);
    io_ok E; [done|].
  destruct (_ && _); [|done]. io_ok E. by eapply IH.
Qed.

Lemma copy_local_file_to_cache_ok source_path label expected_sha256 dest_path filename w w' :
  copy_local_file_to_cache source_path label expected_sha256 dest_path filename w = (w', Ok tt) →
  good_file (files w') dest_path expected_sha256.
Proof.
  unfold copy_local_file_to_cache. intros E. io_ok E. destruct a as [bytes|]; [|done].
  io_ok E. io_ok E. destruct a0.
  { injection E as <-. by eapply cached_local_file_valid_ok. }
  eapply (temp_published dest_path filename expected_sha256 (fun temp_path =>
    copy_local_to_temp source_path label temp_path expected_sha256 (len bytes))); [|exact E].
  intros temp_path v v' [] Hz Hs. by eapply copy_local_ok.
Qed.

(** C12. A download that succeeds leaves the file that was asked for. At the
    destination is a regular file that is not empty; when a digest was given, it
    is well formed and the SHA-256 of the file is that digest, whether the file
    was downloaded, copied or already cached; and when a digest is required, one
    was given for everything that is fetched over HTTP. *)
Theorem download_verified request destination client w w' :
  download_artifact request destination client w = (w', Ok tt) →
  (∃ bytes, files w' !! destination = Some (Regular bytes) ∧ bytes ≠ [] ∧
     ∀ e, expected (sha256 request) = Some e →
       is_valid_sha256_hex e = true ∧ eq_ignore_ascii_case e (digest_hex bytes) = true) ∧
  (required (sha256 request) = true →
   ∀ url auth, resolve_artifact_download_with_policy (download_location request) (location_type request)
                 (access_token request) = Ok (HttpSource url auth) →
   is_Some (expected (sha256 request))).
Proof.
  unfold download_artifact. intros E. io_ok E. apply lift_ok in Hm as [-> _].
  destruct (match expected _ with Some _ => _ | None => _ end) eqn:Ei; [done|].
  io_ok E. apply lift_ok in Hm as [-> Es%map_err_is_ok].
  destruct (missing_required_digest _ && _) eqn:Er; [done|]. io_ok E. io_ok E.
  assert (good_file (files w') destination (expected (sha256 request))) as (bytes & Hb & Hne & Hd).
  { destruct a0; [|by eapply copy_local_file_to_cache_ok]. unfold download_http_file_with_backoff in E.
    io_ok E. by eapply download_attempts_ok. }
  split.
  - exists bytes. split_and!; [done..|]. intros e He. rewrite He in Ei. split; [by apply negb_false_iff|by apply Hd].
  - intros Hreq url auth Es'. rewrite Es in Es'. injection Es' as ->.
    unfold missing_required_digest in Er. rewrite Hreq, andb_true_r in Er. simpl in Er.
    apply bool_decide_eq_false in Er. by apply not_eq_None_Some.
Qed.

(** ** What a failure leaves *)

(** A temporary file has the given prefix and suffix. *)
Definition temp_names : Prop :=
  ∀ t prefix suffix, ∃ tid, temp_name t prefix suffix = prefix +++ tid +++ suffix ∧ (slash ∉ to_chars tid).

Lemma elem_of_rev {A} (x : A) l : x ∈ rev l ↔ x ∈ l.
Proof. by rewrite !list_elem_of_In, <- in_rev. Qed.

Lemma last_component_app name rest :
  slash ∉ name → (rest = [] ∨ ∃ r, rest = slash :: r) → last_component (name ++ rest) = (name, rest).
Proof.
  intros Hn Hr. induction name as [|c name IH]; simpl.
  - destruct Hr as [->|[r ->]]; done.
  - apply not_elem_of_cons in Hn as [Hc Hn]. rewrite (proj2 (Ascii.eqb_neq c slash)) by done. by rewrite IH.
Qed.

Lemma last_component_fst r : slash ∉ (last_component r).1.
Proof.
  induction r as [|c r IH]; simpl; [apply not_elem_of_nil|]. destruct (Ascii.eqb_spec c slash) as [|Hc].
  - apply not_elem_of_nil.
  - destruct (last_component r) as [name rest]. simpl in *. set_solver.
Qed.

Lemma file_name_no_slash path name : file_name path = Some name → slash ∉ to_chars name.
Proof.
  unfold file_name. destruct (contains _ _); [done|]. intros [= <-]. rewrite to_of_chars, elem_of_rev.
  apply last_component_fst.
Qed.

Lemma rev_chars s l : rev (to_chars s) = l → s = of_chars (rev l).
Proof. intros <-. by rewrite rev_involutive, of_to_chars. Qed.

(** The file name of a path in a directory. *)
Lemma file_name_join dir name :
  slash ∉ to_chars name → name ≠ "" → name ≠ "." → name ≠ ".." →
  file_name (PldmPackage.path_join dir name) = Some name.
Proof.
  intros Hs Hn0 Hn1 Hn2.
  assert (∃ rest, rev (to_chars (PldmPackage.path_join dir name)) = rev (to_chars name) ++ rest ∧
                  (rest = [] ∨ ∃ r, rest = slash :: r)) as (rest & E & Hr).
  { unfold PldmPackage.path_join. destruct (String.eqb dir "").
    { exists []. rewrite app_nil_r. eauto. }
    destruct (ends_with _ _) eqn:Ee.
    - exists (rev (to_chars dir)). rewrite to_chars_app, rev_app_distr. split; [done|]. right.
      unfold ends_with in Ee. apply starts_with_split in Ee as [r Er]. by exists r.
    - exists (slash :: rev (to_chars dir)). rewrite !to_chars_app, !rev_app_distr. simpl.
      rewrite <- app_assoc. split; [done|]. by right; eexists. }
  unfold file_name. rewrite E.
  assert (strip_back (rev (to_chars name) ++ rest) = rev (to_chars name) ++ rest) as ->.
  { assert (slash ∉ rev (to_chars name)) as Hs' by (by rewrite elem_of_rev).
    destruct (rev (to_chars name)) as [|c r] eqn:En.
    { by apply rev_chars in En. }
    apply not_elem_of_cons in Hs' as [Hc Hs']. cbn [strip_back app]. rewrite (proj2 (Ascii.eqb_neq c slash)) by done.
    destruct (r ++ rest) as [|d k] eqn:Ek; [done|]. destruct (Ascii.eqb_spec c (ascii_of_N 46)) as [->|]; [|done].
    destruct (Ascii.eqb_spec d slash) as [->|]; [|done]. destruct r as [|e r]; [|injection Ek as -> _; by apply not_elem_of_cons in Hs' as [? _]].
    by apply rev_chars in En. }
  rewrite last_component_app; [|by rewrite elem_of_rev|done]. simpl. rewrite rev_involutive, of_to_chars.
  unfold contains. rewrite bool_decide_eq_false_2; [done|]. set_solver.
Qed.

Lemma temp_not_dest dest_path filename q :
  temp_names → file_name dest_path = Some filename → is_temp dest_path filename q → q ≠ dest_path.
Proof.
  intros Ht Hf (t & dir & _ & ->) E. destruct (Ht t (firmware_temp_file_prefix filename)
    (firmware_temp_file_suffix process_id)) as (tid & En & Hid). rewrite En in E.
  set (name := firmware_temp_file_prefix filename +++ tid +++ firmware_temp_file_suffix process_id) in E.
  assert (∃ l, to_chars name = ascii_of_N 46 :: to_chars filename ++ ascii_of_N 46 :: l) as (l & El).
  { unfold name, firmware_temp_file_prefix. rewrite !to_chars_app, <- !app_assoc. by eexists. }
  assert (file_name (PldmPackage.path_join dir name) = Some name) as Hn.
  { apply file_name_join.
    - unfold name, firmware_temp_file_prefix, firmware_temp_file_suffix, FIRMWARE_TEMP_FILE_MARKER, FIRMWARE_TEMP_FILE_SUFFIX.
      rewrite !to_chars_app. pose proof (file_name_no_slash _ _ Hf) as Hs.
      assert (slash ∉ to_chars (pretty process_id)) as Hpid by (apply pretty_no_char; vm_compute; by intros [? ?]).
      rewrite !not_elem_of_app. split_and!; try done; vm_compute; set_solver.
    - intros Hz. by rewrite Hz in El.
    - intros Hz. rewrite Hz in El. by destruct (to_chars filename).
    - intros Hz. rewrite Hz in El. destruct (to_chars filename) as [|c k] eqn:Ek; [|by destruct k].
      unfold file_name in Hf. destruct (contains _ _) eqn:Ec; [done|]. injection Hf as Hf.
      apply (f_equal of_chars) in Ek. rewrite of_to_chars in Ek. rewrite Hf, Ek in Ec. done. }
  rewrite E, Hf in Hn. injection Hn as Hn. rewrite <- Hn in El. apply (f_equal length) in El. simpl in El.
  rewrite length_app in El. simpl in El. lia.
Qed.

(** [q] is not the destination and not a temporary file of a download to it. *)
Definition elsewhere (destination q : string) : Prop :=
  q ≠ destination ∧ ∀ name, file_name destination = Some name → ¬ is_temp destination name q.

Definition frame (destination : string) (w w' : World) : Prop :=
  ∀ q, elsewhere destination q → files w' !! q = files w !! q.

#[local] Instance frame_preorder destination : PreOrder (frame destination).
Proof. split; [done|]. intros w1 w2 w3 F1 F2 q Hq. by rewrite F2, F1. Qed.

(** Any client: that of a download does not matter to its files. *)
Definition any_client : ArtifactHttpClient := mkArtifactHttpClient (mkArtifactDownloadPolicy [] false) 0 0.

Lemma frame_steps client destination name location auth :
  file_name destination = Some name → steps client destination name (frame destination) location auth.
Proof. intros Hf. split; [by split|]. intros w f Hq q [_ Ht]. apply Hq. by apply Ht. Qed.

Lemma frame_cached client destination location auth expected_sha256 deadline :
  sat (frame destination) (cached_firmware_file_valid client location auth destination expected_sha256 deadline).
Proof.
  apply sat_cached_firmware_file_valid; [apply _|by split|]. intros w q [Hq _]. simpl. by rewrite lookup_delete_ne.
Qed.

Lemma frame_local destination source_len expected_sha256 :
  sat (frame destination) (cached_local_file_valid source_len destination expected_sha256).
Proof.
  eapply (sat_cached_local_file_valid any_client _ _ "" NoAuth); [by split|].
  intros w q [Hq _]. simpl. by rewrite lookup_delete_ne.
Qed.

(** However a download ends, it touches only the destination and its temporary files. *)
Lemma frame_download request destination client :
  sat (frame destination) (download_artifact request destination client).
Proof.
  assert (∀ name, file_name destination = Some name →
    judgement destination name (frame destination) (sat (frame destination))) as Hj.
  { intros name Hf. eapply judgement_sat; [apply _|by apply (frame_steps client _ _ "" NoAuth)|].
    intros v temp_path Ht q [Hq Hq']. simpl.
    rewrite lookup_insert_ne, lookup_delete_ne; [done| |done]. intros ->. by eapply Hq'. }
  apply (jg_download_artifact request destination client (frame destination) (sat (frame destination)));
    [done|done|done|done| |].
  - intros name url auth Hf _. split; [by apply frame_steps|intros; apply frame_cached].
  - intros name path Hf _. eapply (jg_copy client destination name (frame destination) _ _ _
      (frame_steps client _ _ "" NoAuth Hf) _ (Hj name Hf)). intros; apply frame_local.
Qed.

(** What the server says of the file's size differs from that of the cached file,
    or it refuses the question for good. *)
Definition answer_differs (answer : result ArtifactError (option N)) (bytes : chars) : Prop :=
  match answer with
  | Ok (Some size) => size ≠ len bytes
  | Ok None => False
  | Err e => is_transient e = false ∧ contains_str (to_chars (display e)) (to_chars "disallowed address") = false
  end.

(** The server was asked between these two operations and its answer differs. *)
Definition asked_differs (client : ArtifactHttpClient) (location : string) (auth : ArtifactHttpAuth)
    (first last : nat) (bytes : chars) : Prop :=
  ∃ deadline v, (first ≤ ops v)%nat ∧
    (ops (remote_content_length client location auth deadline v).1 ≤ last)%nat ∧
    answer_differs (remote_content_length client location auth deadline v).2 bytes.

(** The cached bytes are empty or have not the expected digest or, if there is none,
    are found to differ from the source. *)
Definition unfit (expected_sha256 : option string) (differs : chars → Prop) (bytes : chars) : Prop :=
  bytes = [] ∨
  match expected_sha256 with
  | Some e => sha256_matches e (digest_hex bytes) = false
  | None => differs bytes
  end.

(** The destination is as it was, or what was there was not fit and is gone. *)
Definition discarded (destination : string) (bad : chars → Prop) (w w' : World) : Prop :=
  files w' !! destination = files w !! destination ∨
  (files w' !! destination = None ∧
   ∃ bytes, files w !! destination = Some (Regular bytes) ∧ bad bytes).

Lemma discarded_trans destination (bad1 bad2 bad : chars → Prop) w1 w2 w3 :
  (∀ bytes, bad1 bytes → bad bytes) → (∀ bytes, bad2 bytes → bad bytes) →
  discarded destination bad1 w1 w2 → discarded destination bad2 w2 w3 → discarded destination bad w1 w3.
Proof.
  intros Hb1 Hb2 D1 D2. destruct D2 as [E2|(E2 & bytes & Eb & Hb)].
  - destruct D1 as [E1|(E1 & bytes & Eb & Hb)]; [left; congruence|right]. split; [congruence|eauto].
  - right. split; [done|]. exists bytes. split; [|auto].
    destruct D1 as [<-|(E1 & _)]; [done|congruence].
Qed.

Lemma remove_dest destination w :
  files (remove_invalid_cached_file destination w).1 = files w ∨
  files (remove_invalid_cached_file destination w).1 !! destination = None.
Proof.
  unfold remove_invalid_cached_file, on_err, remove_file, fs_op.
  destruct (io_error _); [by left|]. simpl. destruct (files w !! destination) eqn:E; simpl; [|by left].
  right. apply lookup_delete_eq.
Qed.
(** The cached file was found bad at [w], and is now removed. *)
Lemma remove_discards destination (bad : chars → Prop) bytes w w1 w' r :
  bind (remove_invalid_cached_file destination) (fun _ => ret (E := ArtifactError) false) w1 = (w', r) →
  files w1 = files w → files w !! destination = Some (Regular bytes) →
  (ops w1 ≤ ops w')%nat ∧ (bad bytes → discarded destination bad w w').
Proof.
  intros E Ef Eb. pose proof (remove_dest destination w1) as Hr. unfold bind in E.
  assert (w' = (remove_invalid_cached_file destination w1).1) as ->.
  { destruct (remove_invalid_cached_file destination w1) as [w2 [?|?]]; by injection E. }
  split.
  - unfold remove_invalid_cached_file, on_err, remove_file, fs_op. destruct (io_error _); simpl; [lia|].
    destruct (files w1 !! destination); simpl; lia.
  - intros Hb. destruct Hr as [Hr|Hr]; [left; by rewrite Hr, Ef|right; eauto].
Qed.

Lemma keep_discards destination bad w w' : files w' = files w → discarded destination bad w w'.
Proof. intros E. left. by rewrite E. Qed.

(** Operations are counted. *)
Definition later (w w' : World) : Prop := (ops w ≤ ops w')%nat.

#[local] Instance later_preorder : PreOrder later.
Proof. split; unfold later; [intros w; lia|intros w1 w2 w3; lia]. Qed.

Lemma later_steps client destination name location auth :
  steps client destination name later location auth.
Proof. split; [split|]; unfold later; simpl; intros; lia. Qed.

Lemma later_cached client destination location auth expected_sha256 deadline :
  sat later (cached_firmware_file_valid client location auth destination expected_sha256 deadline).
Proof.
  apply sat_cached_firmware_file_valid; [apply _|apply (later_steps client "" "")|].
  unfold later; simpl; intros; lia.
Qed.

Lemma net_same client location auth : net_steps client same_files location auth.
Proof. by split. Qed.

Lemma later_net client location auth : net_steps client later location auth.
Proof. apply (later_steps client "" "" location auth). Qed.

Lemma digest_discards destination e differs bytes w w1 w' r :
  (let! actual := file_sha256 destination in
   if sha256_matches e actual then ret true
   else let! _ := remove_invalid_cached_file destination in ret false) w1 = (w', r) →
  files w1 = files w → files w !! destination = Some (Regular bytes) →
  discarded destination (unfit (Some e) differs) w w'.
Proof.
  intros E Hs1 Eb. unfold bind at 1 in E.
  pose proof (sat_file_sha256 any_client same_files _ _ (net_same any_client "" NoAuth) destination w1) as Hs2.
  unfold same_files in Hs2. destruct (file_sha256 destination w1) as [w2 [d|?]] eqn:E2; simpl in Hs2;
    [|injection E as <- _; apply keep_discards; congruence].
  apply (file_sha256_ok _ bytes) in E2 as [Ef ->]; [|by rewrite Hs1].
  destruct (sha256_matches e (digest_hex bytes)) eqn:Em; [injection E as <- _; apply keep_discards; congruence|].
  eapply remove_discards; [exact E|congruence|done|by right].
Qed.

Lemma cached_size_discards client location auth destination deadline bytes first w w1 w' r :
  cached_size_valid client location auth destination deadline (len bytes) w1 = (w', r) →
  files w1 = files w → files w !! destination = Some (Regular bytes) → (first ≤ ops w1)%nat →
  discarded destination (unfit None (asked_differs client location auth first (ops w'))) w w'.
Proof.
  intros E Ef Eb Hfirst. unfold cached_size_valid in E.
  destruct (match url_parse location with Ok _ => _ | Err _ => _ end); [injection E as <- _; by apply keep_discards|].
  pose proof (request_same_files client location auth deadline w1) as Hs.
  unfold bind at 1, try_io in E.
  destruct (remote_content_length client location auth deadline w1) as [w2 answer] eqn:E2. simpl in Hs.
  assert (files w2 = files w) as Hs2 by congruence.
  assert (answer_differs answer bytes →
    bind (remove_invalid_cached_file destination) (fun _ => ret (E := ArtifactError) false) w2 = (w', r) →
    discarded destination (unfit None (asked_differs client location auth first (ops w'))) w w') as Hr.
  { intros Hd E'. destruct (remove_discards _ (unfit None (asked_differs client location auth first (ops w')))
      bytes _ _ _ _ E' Hs2 Eb) as [Hl Hdis]. apply Hdis. right. exists deadline, w1. by rewrite E2. }
  assert ((w2, Ok (E := ArtifactError) true) = (w', r) →
    discarded destination (unfit None (asked_differs client location auth first (ops w'))) w w') as Hk.
  { intros [= <- _]. by apply keep_discards. }
  destruct answer as [[size|]|e]; [|by apply Hk|].
  - destruct (N.eqb_spec size (len bytes)); [by apply Hk|by apply Hr].
  - destruct (contains_str _ _) eqn:Ec; [by apply Hk|].
    destruct (is_transient e) eqn:Et; [by apply Hk|by apply Hr].
Qed.

Lemma cached_http_discards client location auth expected_sha256 destination deadline w w' r :
  cached_firmware_file_valid client location auth destination expected_sha256 deadline w = (w', r) →
  discarded destination (unfit expected_sha256 (asked_differs client location auth (ops w) (ops w'))) w w'.
Proof.
  intros E. unfold cached_firmware_file_valid, bind at 1 in E.
  pose proof (sat_cached_metadata client same_files _ _ (net_same client location auth) destination w) as Hs1.
  pose proof (sat_cached_metadata client later _ _ (later_net client location auth) destination w) as Hl1.
  destruct (cached_metadata destination w) as [w1 [[bytes|]|e]] eqn:E1; simpl in Hs1, Hl1;
    try (injection E as <- _; by apply keep_discards).
  apply cached_metadata_ok in E1 as [_ Eb]. specialize (Eb bytes eq_refl).
  destruct (N.eqb_spec (len bytes) 0) as [Hz|Hz].
  { eapply remove_discards; [exact E|done..|]. left. unfold len in Hz. apply nil_length_inv. lia. }
  destruct expected_sha256 as [e|].
  - by eapply digest_discards.
  - by eapply cached_size_discards.
Qed.

Lemma cached_local_discards source_len expected_sha256 destination w w' r :
  cached_local_file_valid source_len destination expected_sha256 w = (w', r) →
  discarded destination (unfit expected_sha256 (fun bytes => source_len ≠ len bytes)) w w'.
Proof.
  intros E. unfold cached_local_file_valid, bind at 1 in E.
  assert (∀ bytes, len bytes = 0 → bytes = []) as Hnil
    by (unfold len; intros bytes Hz; apply nil_length_inv; lia).
  pose proof (sat_cached_metadata any_client same_files _ _ (net_same any_client "" NoAuth) destination w) as Hs1.
  destruct (cached_metadata destination w) as [w1 [[bytes|]|e]] eqn:E1; simpl in Hs1;
    try (injection E as <- _; by apply keep_discards).
  apply cached_metadata_ok in E1 as [_ Eb]. specialize (Eb bytes eq_refl).
  destruct expected_sha256 as [e|].
  - destruct (N.ltb_spec 0 (len bytes)) as [Hz|Hz].
    2: { eapply remove_discards; [exact E|done..|]. left. apply Hnil. lia. }
    by eapply digest_discards.
  - destruct ((len bytes =? source_len) && (0 <? len bytes)) eqn:Ez; [injection E as <- _; by apply keep_discards|].
    eapply remove_discards; [exact E|done..|].
    apply andb_false_iff in Ez as [Ez%N.eqb_neq|Ez%N.ltb_ge]; [right; congruence|left; apply Hnil; lia].
Qed.

(** *** Downloads from a server *)

Section Http.
Context (client : ArtifactHttpClient) (location : string) (auth : ArtifactHttpAuth).
Context (expected_sha256 : option string) (destination : string).

Definition unpublished (w w' : World) : Prop :=
  frame destination w w' ∧ later w w' ∧
  discarded destination (unfit expected_sha256 (asked_differs client location auth (ops w) (ops w'))) w w'.

Lemma unfit_mono (d1 d2 : chars → Prop) bytes :
  (d1 bytes → d2 bytes) → unfit expected_sha256 d1 bytes → unfit expected_sha256 d2 bytes.
Proof. intros Hd [->|Hu]; [by left|right]. destruct expected_sha256; auto. Qed.

#[global] Instance unpublished_preorder : PreOrder unpublished.
Proof.
  split.
  - intros w. split_and!; [done|done|by left].
  - intros w1 w2 w3 (F1 & L1 & D1) (F2 & L2 & D2).
    split_and!; [by etransitivity|by etransitivity|]. unfold later in *.
    eapply discarded_trans; [| |exact D1|exact D2]; intros bytes; apply unfit_mono;
      intros (deadline & v & ? & ? & ?); exists deadline, v; split_and!; try done; lia.
Qed.

Lemma unpublished_keep w w' :
  frame destination w w' → later w w' → files w' !! destination = files w !! destination →
  unpublished w w'.
Proof. intros. split_and!; [done..|by left]. Qed.

Lemma unpublished_sleep w d : unpublished w (log (tick w) [Slept d]).
Proof. apply unpublished_keep; [done|unfold later; simpl; lia|done]. Qed.

Lemma unpublished_steps name :
  temp_names → file_name destination = Some name →
  steps client destination name unpublished location auth.
Proof.
  intros Hn Hf. destruct (frame_steps client destination name location auth Hf) as [Fn Ft].
  destruct (later_steps client destination name location auth) as [Ln Lt].
  split; [split|..].
  - intros w. apply unpublished_keep; [apply Fn|apply Ln|done].
  - intros w req Hs. apply unpublished_keep; [by apply Fn|by apply Ln|done].
  - intros w f Hq. apply unpublished_keep; [by apply Ft|by apply Lt|].
    apply Hq. intros Ht. by eapply temp_not_dest.
Qed.

Lemma unpublished_cached deadline :
  sat unpublished (cached_firmware_file_valid client location auth destination expected_sha256 deadline).
Proof.
  intros w. pose proof (frame_cached client destination location auth expected_sha256 deadline w) as Fc.
  pose proof (later_cached client destination location auth expected_sha256 deadline w) as Lc.
  destruct (cached_firmware_file_valid _ _ _ _ _ _ w) as [w' r] eqn:E. split_and!; [done|done|].
  by eapply cached_http_discards.
Qed.
End Http.

(** *** Local copies *)

Section Local.
Context (expected_sha256 : option string) (destination : string) (source_len : N).

Definition unsized (w w' : World) : Prop :=
  frame destination w w' ∧
  discarded destination (unfit expected_sha256 (fun bytes => source_len ≠ len bytes)) w w'.

#[global] Instance unsized_preorder : PreOrder unsized.
Proof.
  split.
  - intros w. split; [done|by left].
  - intros w1 w2 w3 (F1 & D1) (F2 & D2). split; [by etransitivity|].
    by eapply discarded_trans; [| |exact D1|exact D2].
Qed.

Lemma unsized_steps name :
  temp_names → file_name destination = Some name →
  steps any_client destination name unsized "" NoAuth.
Proof.
  intros Hn Hf. split; [split; [by split; [|left]|by split; [|left]]|].
  intros w f Hq. split; [by apply (frame_steps any_client destination name "" NoAuth Hf)|].
  left. apply Hq. intros Ht. by eapply temp_not_dest.
Qed.

Lemma unsized_cached : sat unsized (cached_local_file_valid source_len destination expected_sha256).
Proof.
  intros w. pose proof (frame_local destination source_len expected_sha256 w) as Fc.
  destruct (cached_local_file_valid _ _ _ w) as [w' r] eqn:E. split; [done|].
  by eapply cached_local_discards.
Qed.
End Local.

Lemma copy_discards source_path label expected_sha256 destination name w w' e :
  temp_names → file_name destination = Some name →
  copy_local_file_to_cache source_path label expected_sha256 destination name w = (w', Err e) →
  discarded destination (unfit expected_sha256 (fun bytes =>
    ∃ b, files w !! source_path = Some (Regular b) ∧ len b ≠ len bytes)) w w'.
Proof.
  intros Hn Hf E. unfold copy_local_file_to_cache, bind at 1, on_err at 1 in E.
  pose proof (sat_metadata any_client same_files _ _ (net_same any_client "" NoAuth) source_path w) as Hs.
  destruct (metadata source_path w) as [w1 [[bytes|]|?]] eqn:Em; simpl in Hs, E;
    try (injection E as <- _; by apply keep_discards).
  unfold metadata in Em. apply fs_same_ok in Em as [_ Em]; [|done].
  destruct (files w !! source_path) as [n|] eqn:Es; [injection Em as ->|done].
  destruct (jg_copy_sized any_client destination name (unsized expected_sha256 destination (len bytes)) _ _ _
    (unsized_steps _ _ _ _ Hn Hf) _ (judgement_fails _ _ _ _ _ _ (unsized_steps _ _ _ _ Hn Hf))
    source_path label (len bytes) _ (unsized_cached _ _ _) w1 w' e E) as [_ Hd].
  eapply (discarded_trans _ (fun _ => False)); [done| |by apply keep_discards|exact Hd].
  intros b. apply unfit_mono. eauto.
Qed.

(** A download that fails does so before it looks at the cache, or in its last part. *)
Lemma download_cases request destination client w w' e :
  download_artifact request destination client w = (w', Err e) →
  files w' = files w ∨
  ∃ name source w1, file_name destination = Some name ∧ source_of request = Ok source ∧
    files w1 = files w ∧ later w w1 ∧
    match source with
    | HttpSource url auth =>
        download_http_file_with_backoff client url (expected (sha256 request)) auth destination name
    | FileSource path =>
        copy_local_file_to_cache path (download_location request) (expected (sha256 request)) destination name
    end w1 = (w', Err e).
Proof.
  unfold download_artifact. destruct (file_name destination) as [name|] eqn:Ef; [|by intros [= <- _]; left].
  unfold bind at 1, lift at 1, ok_or at 1. intros E.
  destruct (match expected _ with Some _ => _ | None => _ end); [by injection E as <- _; left|].
  unfold bind at 1, lift at 1 in E. fold (source_of request) in E.
  destruct (source_of request) as [source|] eqn:Es; simpl in E; [|by injection E as <- _; left].
  destruct (_ && _); [by injection E as <- _; left|].
  unfold bind at 1, lift at 1 in E. destruct (parent destination) as [dir|]; simpl in E; [|by injection E as <- _; left].
  unfold bind at 1 in E.
  pose proof (sat_create_dir any_client same_files _ _ (net_same any_client "" NoAuth) dir w) as Hs.
  pose proof (sat_create_dir any_client later _ _ (later_net any_client "" NoAuth) dir w) as Hl.
  unfold on_err at 1 in E. destruct (create_dir_all dir w) as [w1 [[]|?]]; simpl in Hs, Hl, E;
    [|by injection E as <- _; left].
  right. exists name, source, w1. done.
Qed.

(** What a download can say against the bytes that it finds cached. *)
Definition unfit_for (request : Download) (client : ArtifactHttpClient) (w w' : World) : chars → Prop :=
  unfit (expected (sha256 request)) (fun bytes =>
    match source_of request with
    | Ok (HttpSource url auth) => asked_differs client url auth (ops w) (ops w') bytes
    | Ok (FileSource path) => ∃ b, files w !! path = Some (Regular b) ∧ len b ≠ len bytes
    | Err _ => False
    end).

(** C28. A download that fails publishes nothing: the destination is then as it
    was, or what was cached there is gone, and then that was not valid.  It was
    empty; or it had not the expected digest; or no digest was expected and, for
    a download from a server, the server was asked for the size while the
    download ran and gave another one or refused for good, or, for a local copy,
    the source had another size.  And however it ends, a download touches no
    other file but its own temporary ones.  Assumed is that the name of a
    temporary file has the prefix and the suffix that were asked for and no slash
    in between. *)
Theorem failed_download_publishes_nothing request destination client w :
  temp_names →
  let '(w', r) := download_artifact request destination client w in
  (∀ q, elsewhere destination q → files w' !! q = files w !! q) ∧
  (is_ok r = false →
   files w' !! destination = files w !! destination ∨
   (files w' !! destination = None ∧
    ∃ bytes, files w !! destination = Some (Regular bytes) ∧ unfit_for request client w w' bytes)).
Proof.
  intros Hn. pose proof (frame_download request destination client w) as Hframe.
  destruct (download_artifact request destination client w) as [w' r] eqn:E. split; [exact Hframe|].
  intros Hr. destruct r as [|e]; [done|]. clear Hr.
  apply download_cases in E as [Es|(name & source & w1 & Hf & Es & Ef & Hl & E)]; [left; by rewrite Es|].
  change (discarded destination (unfit_for request client w w') w w'). unfold unfit_for. rewrite Es.
  destruct source as [url auth|path].
  - destruct (jg_backoff client destination name (unpublished client url auth (expected (sha256 request)) destination)
      _ _ _ (unpublished_steps _ _ _ _ _ _ Hn Hf) _ (judgement_fails _ _ _ _ _ _ (unpublished_steps _ _ _ _ _ _ Hn Hf))
      (unpublished_cached _ _ _ _ _) (unpublished_sleep _ _ _ _ _) w1 w' e E) as (_ & Hl' & Hd).
    eapply (discarded_trans _ (fun _ => False)); [done| |by apply keep_discards|exact Hd].
    intros b. apply unfit_mono. intros (deadline & v & ? & ? & ?). exists deadline, v. unfold later in *.
    split_and!; try done. lia.
  - eapply (discarded_trans _ (fun _ => False)); [done| |by apply keep_discards|eapply copy_discards; [done..|exact E]].
    intros b. apply unfit_mono. by rewrite Ef.
Qed.

(** ** Preparing all artifacts of a firmware object *)

Lemma collected_spec downloads ready failures :
  let '(ready', failures') := collect downloads ready failures in
  ready' = list_to_set (omap (fun d => match d.2 with Ok _ => Some (id d.1) | Err _ => None end) downloads) ∪ ready ∧
  (failures' = [] ↔ failures = [] ∧ ∀ a e, (a, Err e) ∈ downloads → artifact_required a = false).
Proof.
  revert ready failures. induction downloads as [|[a [u|e]] downloads IH]; intros ready failures; simpl.
  - split; [set_solver|]. split; [intros ->|by intros [-> _]]. split; [done|]. by intros a e ?%not_elem_of_nil.
  - specialize (IH ({[id a]} ∪ ready) failures). destruct (collect _ _ _) as [r f]. destruct IH as [-> ->].
    split; [set_solver|]. setoid_rewrite elem_of_cons. naive_solver.
  - set (failures' := if artifact_required a then failures ++ [context e (artifact_context a)] else failures).
    specialize (IH ready failures'). destruct (collect _ _ _) as [r f]. destruct IH as [-> ->].
    split; [done|]. setoid_rewrite elem_of_cons. subst failures'. destruct (artifact_required a) eqn:Er.
    + split; [intros [[_ E]%app_eq_nil _]; discriminate E|]. intros [_ Hd]. specialize (Hd a e (or_introl eq_refl)). congruence.
    + naive_solver.
Qed.

(** What is reported ready is exactly what was downloaded, and nothing
    required is missing: preparation succeeds if and only if it was not cancelled
    and every download that failed was that of an optional artifact, and then the
    ready artifacts are those whose download succeeded, whatever the order in
    which the downloads end. *)
Theorem materialize_exact downloads cancelled ready :
  materialize_result downloads cancelled = Ok ready ↔
  cancelled = false ∧
  (∀ a e, (a, Err e) ∈ downloads → artifact_required a = false) ∧
  ready = list_to_set (omap (fun d => match d.2 with Ok _ => Some (id d.1) | Err _ => None end) downloads).
Proof.
  unfold materialize_result. pose proof (collected_spec downloads ∅ []) as Hc.
  destruct (collect downloads ∅ []) as [r f]. destruct Hc as [-> Hf]. rewrite union_empty_r_L.
  destruct cancelled; [naive_solver|]. destruct f as [|e f]; [naive_solver|].
  split; [done|]. intros (_ & Ho & _). discriminate (proj2 Hf (conj eq_refl Ho)).
Qed.

(** An artifact passes the last check before it is used only if its cached
    file has its digest: for an HTTP artifact a digest is given, well formed, and
    the SHA-256 of the file at its cache path; the check changes no file. *)
Theorem required_digest_checked a cache w w' :
  is_http_artifact a = true → verify_required_http_digest a cache w = (w', Ok tt) →
  ∃ expected path,
    artifact_sha256 a = Some expected ∧ is_valid_sha256_hex expected = true ∧
    artifact_cache_path cache (id a) (filename a) = Ok path ∧ files w' = files w ∧
    ∀ bytes, files w !! path = Some (Regular bytes) → eq_ignore_ascii_case expected (digest_hex bytes) = true.
Proof.
  unfold verify_required_http_digest. intros -> E. simpl in E.
  destruct (artifact_sha256 a) as [expected|]; [|done].
  destruct (is_valid_sha256_hex expected) eqn:Ev; [|done]. simpl in E. io_ok E.
  apply lift_ok in Hm as [-> Hp%map_err_is_ok]. io_ok E.
  assert (files w0 = files w) as Hfs.
  { unfold file_sha256 in Hm. io_ok Hm. io_ok Hm. injection Hm as <- _.
    apply fs_same_ok in Hm0 as [Hfs _]; [|intros fs; by destruct (fs !! a0) as [[]|]].
    apply hash_loop_ok in Hm1 as [Hfs' _]; [|lia]. by rewrite Hfs', Hfs. }
  destruct (eq_ignore_ascii_case _ _) eqn:Ee; [|done]. injection E as <-.
  exists expected, a0. split_and!; [done..|]. intros bytes Hb.
  by destruct (file_sha256_ok _ _ _ _ _ Hm Hb) as [_ ->].
Qed.
End Theorems.

(** ** Examples

    A download that is redirected to a mirror, one whose mirror sends too little,
    and one through a proxy. *)

Module DownloadExamples.
Inductive ExampleUrl := Start | Mirror | Proxy.

#[export] Instance example_crate : UrlCrate := {
  Url := ExampleUrl;
  Origin := string;
  ParseError := unit;
  url_parse s := match match_str s [("https://fw.example/a.bin", Start); ("https://8.8.8.8/a.bin", Mirror)] with
                 | Some u => Ok u
                 | None => Err tt
                 end;
  url_join _ s := match_str s [("https://8.8.8.8/a.bin", Mirror)];
  url_scheme _ := "https";
  url_host u := Some (match u with
                      | Start => Domain "fw.example" | Mirror => Ipv4 [8; 8; 8; 8] | Proxy => Ipv4 [10; 0; 0; 1]
                      end);
  url_host_str u := Some (match u with Start => "fw.example" | Mirror => "8.8.8.8" | Proxy => "10.0.0.1" end);
  url_origin u := match u with
                  | Start => "https://fw.example" | Mirror => "https://8.8.8.8" | Proxy => "https://10.0.0.1"
                  end;
  url_path _ := "/a.bin";
  url_as_str u := match u with
                  | Start => "https://fw.example/a.bin" | Mirror => "https://8.8.8.8/a.bin"
                  | Proxy => "https://10.0.0.1/"
                  end;
  url_to_file_path _ := None;
  url_without_username u := u;
  url_without_password u := u;
  url_without_query u := u;
  url_without_fragment u := u;
  host_parse s := Some (Domain s);
}.

#[export] Instance example_reqwest : Reqwest := {
  ReqError := unit;
  is_timeout _ := false;
  causes _ := [];
  without_url e := e;
  status_display := pretty;
}.

(** The first server redirects to a mirror, which sends [parts].  [proxy] tells
    whether the environment sets a proxy, and the names of servers resolve to
    [address]. *)
Definition example_outside (parts : list string) (proxy : bool) (address : IpAddr) : Outside := {|
  io_error _ := None;
  not_found_display := "not found";
  open_special _ := Ok [];
  partial_write _ := 0%nat;
  read_size _ := 3%nat;
  now t := N.of_nat t;
  temp_name _ prefix suffix := prefix +++ "id" +++ suffix;
  process_id := 7;
  digest_hex bytes := of_chars (replicate (8 * length bytes) (ascii_of_N 97));
  lookup_host _ _ := Ok [(address, 0)];
  system_proxy _ := if proxy then Some Proxy else None;
  http _ req := Ok match url req with
                   | Start => mkResponse 302 (Some (Some "https://8.8.8.8/a.bin")) (Some 0) []
                   | _ => mkResponse 200 None (Some 8) ((fun part => Ok (to_chars part)) <$> parts)
                   end;
  connects _ u resolver :=
    match (if proxy then Proxy else u) with
    | Start => match resolver "fw.example" with Ok addrs => addrs.*1 | Err _ => [] end
    | Mirror => [V4 [8; 8; 8; 8]]
    | Proxy => [V4 [10; 0; 0; 1]]
    end;
  client_build_error := None;
|}.

Definition example_client : ArtifactHttpClient :=
  mkArtifactHttpClient (mkArtifactDownloadPolicy [] false) REMOTE_DOWNLOAD_TIMEOUT ARTIFACT_RETRY_BACKOFF.

Definition example_request : Download :=
  mkDownload "https://fw.example/a.bin" "https" None
    (from_catalog (Some (of_chars (replicate 64 (ascii_of_N 65)))) true).

(** A file that is not valid is in the cache. *)
Definition example_world : World :=
  mkWorld {["/cache/x/a.bin" := Regular (to_chars "old"); "/etc/keep" := Regular (to_chars "k")]} 0 [].

Definition example_result (parts : list string) (proxy : bool) (address : IpAddr)
    : World * result ArtifactError unit :=
  let O := example_outside parts proxy address in
  download_artifact example_request "/cache/x/a.bin" example_client example_world.

Lemma example_connects parts proxy address : @client_connects _ _ (example_outside parts proxy address).
Proof.
  intros t u resolver a Ha. simpl in *.
  destruct proxy; [by apply list_elem_of_singleton in Ha|].
  destruct u; simpl in *; try (by apply list_elem_of_singleton in Ha).
  destruct (resolver "fw.example") as [addrs|]; [by exists addrs|by apply not_elem_of_nil in Ha].
Qed.

Lemma example_host_texts : host_texts.
Proof. intros [| |] [o|s] [= E]; subst; eexists; split; reflexivity. Qed.

Lemma example_temp_names parts proxy address : @temp_names _ _ (example_outside parts proxy address).
Proof. intros t prefix suffix. exists "id". split; [reflexivity|]. vm_compute. set_solver. Qed.

(** A proxy that the environment sets is connected to although its address is
    private and the policy does not allow that, and what the server's name
    resolves to is not looked at. *)
Example proxy_not_checked :
  allow_private_targets (policy example_client) = false ∧
  is_special_purpose_ip (V4 [10; 0; 0; 1]) Disallowed = true ∧
  Connected (V4 [10; 0; 0; 1]) ∈ events (example_result ["firm"; "ware"] true (V4 [10; 0; 0; 7])).1 ∧
  is_ok (example_result ["firm"; "ware"] true (V4 [10; 0; 0; 7])).2 = true.
Proof. split_and!; [reflexivity|reflexivity| |reflexivity]. vm_compute. right. left. Qed.
End DownloadExamples.

Section witnesses.
Import DownloadExamples.

Lemma download_verified_witness :
  ∃ w', example_result ["firm"; ""; "ware"] false (V4 [1; 1; 1; 1]) = (w', Ok tt) ∧
    files w' !! "/cache/x/a.bin" = Some (Regular (to_chars "firmware")) ∧
    is_valid_sha256_hex (of_chars (replicate 64 (ascii_of_N 65))) = true.
Proof.
  destruct (example_result ["firm"; ""; "ware"] false (V4 [1; 1; 1; 1])) as [w' [[]|]] eqn:E; [|by vm_compute in E].
  exists w'. split; [reflexivity|].
  destruct (download_verified example_request "/cache/x/a.bin" example_client example_world w' E) as [(bytes & Hb & _ & Hd) _].
  vm_compute in E. injection E as <-. split; [reflexivity|]. exact (proj1 (Hd _ eq_refl)).
Defined.

(** The first connection is to the name's address, the second to the mirror's. *)
Lemma no_private_connection_witness :
  ∃ es, events (example_result ["firm"; "ware"] false (V4 [1; 1; 1; 1])).1 = es ∧
    Connected (V4 [1; 1; 1; 1]) ∈ es ∧ is_special_purpose_ip (V4 [1; 1; 1; 1]) Disallowed = false.
Proof.
  destruct (no_private_connection example_request "/cache/x/a.bin" example_client example_world
    (example_connects ["firm"; "ware"] false (V4 [1; 1; 1; 1])) example_host_texts eq_refl) as (es & E & Hes).
  exists es. split; [exact E|]. assert (Connected (V4 [1; 1; 1; 1]) ∈ es) as Hin.
  { change (events example_world ++ es) with es in E. rewrite <- E. vm_compute. right. left. }
  split; [exact Hin|]. destruct (Hes _ Hin) as [Hs|(u & proxy & _ & Hp & _)]; [exact Hs|discriminate Hp].
Defined.

(** The mirror breaks off: the cached file, which had the wrong digest, is gone. *)
Lemma failed_download_publishes_nothing_witness :
  is_ok (example_result ["firm"] false (V4 [1; 1; 1; 1])).2 = false ∧
  files (example_result ["firm"] false (V4 [1; 1; 1; 1])).1 !! "/etc/keep" = Some (Regular (to_chars "k")) ∧
  files (example_result ["firm"] false (V4 [1; 1; 1; 1])).1 !! "/cache/x/a.bin" = None ∧
  sha256_matches (of_chars (replicate 64 (ascii_of_N 65))) (of_chars (replicate 24 (ascii_of_N 97))) = false.
Proof.
  assert (is_ok (example_result ["firm"] false (V4 [1; 1; 1; 1])).2 = false) as Hr by reflexivity.
  split; [exact Hr|].
  pose proof (failed_download_publishes_nothing example_request "/cache/x/a.bin" example_client example_world
    (example_temp_names ["firm"] false (V4 [1; 1; 1; 1]))) as Hf.
  fold (example_result ["firm"] false (V4 [1; 1; 1; 1])) in Hf.
  destruct (example_result ["firm"] false (V4 [1; 1; 1; 1])) as [w' r] eqn:E. destruct Hf as [Hf Hd].
  specialize (Hd Hr). assert (files w' !! "/cache/x/a.bin" = None) as Hgone.
  { vm_compute in E. injection E as <- _. reflexivity. }
  split; [|split; [exact Hgone|]].
  - refine (eq_trans (Hf "/etc/keep" _) eq_refl). split; [discriminate|].
    intros name Hn (t & dir & Hp & En). vm_compute in Hn, Hp. injection Hn as <-. injection Hp as <-.
    discriminate En.
  - destruct Hd as [Hd|(_ & bytes & Hb & [Hz|Hz])].
    + rewrite Hgone in Hd. discriminate Hd.
    + subst. discriminate Hb.
    + injection Hb as <-. exact Hz.
Defined.
End witnesses.
End ArtifactTheorems.
