(* ===== verification/ArtifactBounds.v ===== *)
(** * Bounds of firmware artifact downloads

    How many requests a download sends and how long it waits between attempts,
    and the names of its temporary files. *)

From S2P Require Import Prelude RustStd RustStr EndpointScope RmsError JobTypes FabricLayout.
From S2P Require Import PldmPackage Net NetTheorems Artifacts ArtifactDownload ArtifactProofs ArtifactTheorems.
From Stdlib Require Import Ascii.
Local Open Scope string_scope.
Local Open Scope list_scope.
Local Open Scope N_scope.

Module ArtifactBounds.
Import Net NetTheorems FabricLayout Artifacts ArtifactDownload ArtifactProofs ArtifactTheorems.

Create HintDb costs.

Section Costs.
Context `{Outside}.

Definition requests (es : list Event) : list Request :=
  omap (fun e => match e with Sent req => Some req | _ => None end) es.

Definition waits (es : list Event) : list N :=
  omap (fun e => match e with Slept d => Some d | _ => None end) es.

Lemma requests_app es es' : requests (es ++ es') = requests es ++ requests es'.
Proof. apply omap_app. Qed.

Lemma waits_app es es' : waits (es ++ es') = waits es ++ waits es'.
Proof. apply omap_app. Qed.

(** At most [n] requests are sent, and nothing is waited for. *)
Definition costs {E A} (n : nat) (m : IO E A) : Prop :=
  ∀ w, ∃ es, events (m w).1 = events w ++ es ∧ (length (requests es) ≤ n)%nat ∧ waits es = [].

Lemma costs_quiet {E A} n (m : IO E A) : (∀ w, events (m w).1 = events w) → costs n m.
Proof. intros Hm w. exists []. rewrite Hm, app_nil_r. split_and!; [done|simpl; lia|done]. Qed.

Lemma costs_bind {E A B} n k (m : IO E A) (f : A → IO E B) :
  costs n m → (∀ a, costs k (f a)) → costs (n + k) (bind m f).
Proof.
  intros Hm Hf w. destruct (Hm w) as (es & He & Hn & Hw). unfold bind.
  destruct (m w) as [w1 [a|e]]; simpl in *; [|exists es; split_and!; [done|lia|done]].
  destruct (Hf a w1) as (es' & He' & Hn' & Hw'). exists (es ++ es').
  rewrite requests_app, waits_app, He', He, app_assoc, length_app, Hw, Hw'.
  split_and!; [done|lia|done].
Qed.

Lemma costs_then {E A B} n (m : IO E A) (f : A → IO E B) :
  costs 0 m → (∀ a, costs n (f a)) → costs n (bind m f).
Proof. intros Hm Hf. exact (costs_bind 0 n m f Hm Hf). Qed.

Lemma costs_on_err {E F A} n (f : E → F) (m : IO E A) : costs n m → costs n (on_err f m).
Proof. intros Hm w. specialize (Hm w). unfold on_err. by destruct (m w). Qed.

Lemma costs_try {E F A} n (m : IO E A) : costs n m → costs n (try_io (F := F) m).
Proof. intros Hm w. specialize (Hm w). unfold try_io. by destruct (m w). Qed.

Lemma costs_fs {A} n (f : gmap string Node → result IoError A * gmap string Node) : costs n (fs_op f).
Proof.
  apply costs_quiet. intros w. unfold fs_op. destruct (io_error _); [done|]. by destruct (f _).
Qed.

Lemma costs_drop {E} n temp_path : costs n (drop_temp (E := E) temp_path).
Proof.
  apply costs_quiet. intros w. unfold drop_temp, remove_file, fs_op. destruct (io_error _); [done|].
  by destruct (files w !! temp_path).
Qed.

Lemma costs_or_drop {E A} n temp_path (m : IO E A) : costs n m → costs n (or_drop temp_path m).
Proof.
  intros Hm w. destruct (Hm w) as (es & He & Hn & Hw). unfold or_drop.
  destruct (m w) as [w1 [a|e]]; simpl in *; [by exists es|].
  destruct (costs_drop (E := E) 0 temp_path w1) as (es' & He' & Hn' & Hw').
  destruct (drop_temp temp_path w1) as [w2 ?]. simpl in *. exists (es ++ es').
  rewrite requests_app, waits_app, He', He, app_assoc, length_app, Hw, Hw'.
  split_and!; [done|lia|done].
Qed.

Lemma costs_read n rest : costs n (read rest).
Proof. apply costs_quiet. intros w. unfold read. by destruct (io_error _). Qed.

Lemma costs_write n path bytes : costs n (write_all path bytes).
Proof. apply costs_quiet. intros w. unfold write_all. by destruct (io_error _). Qed.

Lemma costs_ret {E A} n (a : A) : costs n (ret (E := E) a).
Proof. by apply costs_quiet. Qed.

Lemma costs_throw {E A} n (e : E) : costs n (throw (A := A) e).
Proof. by apply costs_quiet. Qed.

Lemma costs_lift {E A} n (r : result E A) : costs n (lift r).
Proof. by apply costs_quiet. Qed.

Lemma costs_now {E} n : costs n (instant_now (E := E)).
Proof. by apply costs_quiet. Qed.

Hint Resolve costs_on_err costs_try costs_fs costs_drop costs_read costs_write costs_ret costs_throw
  costs_lift costs_now : costs.

(** Go through the operations that send nothing. *)
Ltac costs_walk :=
  repeat first
    [ solve [eauto 3 with costs]
    | apply costs_then; [|intros ?]
    | match goal with |- costs _ (match ?x with _ => _ end) => destruct x eqn:? end
    | match goal with |- costs _ (if ?x then _ else _) => destruct x eqn:? end ].

Lemma costs_hops client m origin auth deadline hops current :
  costs (S hops) (send_hops client m origin auth deadline hops current).
Proof.
  revert current. induction hops as [|hops IH]; intros current; cbn [send_hops];
    (destruct (_ || _); [apply costs_throw|]); (apply costs_then; [apply costs_lift|intros _]);
    (apply costs_then; [apply costs_now|intros t]).
  1: apply (costs_bind 1 0). 3: apply (costs_bind 1 (S hops)).
  1, 3: apply costs_on_err; intros w; eexists; split; [reflexivity|]; unfold requests, waits; simpl;
    split; [|by induction (connects _ _ _)]; apply le_n_S, Nat.eq_le_incl, length_zero_iff_nil;
    by induction (connects _ _ _).
  all: intros response; costs_walk.
Qed.

Lemma costs_request client m url auth deadline :
  costs 11 (send_artifact_request client m url auth deadline).
Proof. apply costs_then; [apply costs_lift|]. intros origin. apply (costs_hops _ _ _ _ _ 10). Qed.

Lemma costs_hash_loop n fuel rest hashed : costs n (hash_loop fuel rest hashed).
Proof.
  revert rest hashed. induction fuel as [|fuel IH]; intros rest hashed; simpl; [apply costs_ret|].
  apply costs_then; [apply costs_read|]. intros chunk. costs_walk.
Qed.

Hint Resolve costs_hash_loop : costs.

Lemma costs_file_sha256 n path : costs n (file_sha256 path).
Proof. unfold file_sha256, open. costs_walk. Qed.

Lemma costs_cached_metadata n path : costs n (cached_metadata path).
Proof. unfold cached_metadata, metadata. costs_walk. Qed.

Lemma costs_remove n path : costs n (remove_invalid_cached_file path).
Proof. unfold remove_invalid_cached_file, remove_file. costs_walk. Qed.

Hint Resolve costs_file_sha256 costs_cached_metadata costs_remove : costs.

Lemma costs_length client url auth deadline : costs 11 (remote_content_length client url auth deadline).
Proof.
  unfold remote_content_length. apply (costs_bind 11 0); [apply costs_request|]. intros response. costs_walk.
Qed.

Lemma costs_cached client url auth dest_path expected_sha256 deadline :
  costs 11 (cached_firmware_file_valid client url auth dest_path expected_sha256 deadline).
Proof.
  unfold cached_firmware_file_valid. apply costs_then; [auto with costs|]. intros [bytes|]; [|apply costs_ret].
  destruct (_ =? _); [costs_walk|]. destruct expected_sha256; [costs_walk|]. unfold cached_size_valid.
  destruct (match url_parse url with Ok _ => _ | Err _ => _ end); [apply costs_ret|].
  apply (costs_bind 11 0); [apply costs_try, costs_length|]. intros remote. costs_walk.
Qed.

Lemma costs_stream n response temp_path url expected_sha256 expected_len :
  costs n (stream_response_to_temp_file response temp_path url expected_sha256 expected_len).
Proof.
  unfold stream_response_to_temp_file, flush. apply costs_then; [|intros r; costs_walk].
  generalize 0, ((fun _ : string => [] : chars) <$> expected_sha256).
  induction (body response) as [|[chunk|e] chunks IH]; intros total hasher; cbn [stream_body]; costs_walk.
Qed.

Lemma costs_download_http_file client url expected_sha256 auth dest_path filename deadline :
  costs 22 (download_http_file client url expected_sha256 auth dest_path filename deadline).
Proof.
  unfold download_http_file. apply (costs_bind 11 11); [apply costs_cached|]. intros [|]; [apply costs_ret|].
  apply (costs_bind 11 0); [apply costs_request|]. intros response. destruct (negb _); [apply costs_throw|].
  apply costs_then.
  { intros w. unfold firmware_temp_file. destruct (parent dest_path); [|exact (costs_throw (A := string) 0 _ w)].
    apply costs_then; [apply costs_on_err, costs_fs|]. intros _. apply costs_ret. }
  intros temp_path. apply costs_then; [apply costs_or_drop, costs_on_err, costs_stream|]. intros _.
  unfold publish_file, persist. costs_walk.
Qed.

(** The waits that are left before the last attempt. *)
Definition schedule (client : ArtifactHttpClient) (more : nat) : list N :=
  (fun i => retry_backoff client * 2 ^ N.of_nat i) <$> seq (2 - more) more.

Lemma attempts_events client url expected_sha256 auth dest_path filename deadline more first w :
  (more ≤ 2)%nat →
  ∃ es, events (download_attempts client url expected_sha256 auth dest_path filename deadline more first w).1
          = events w ++ es ∧
    (length (requests es) ≤ 22 * S more)%nat ∧ waits es `prefix_of` schedule client more.
Proof.
  revert first w. induction more as [|more IH]; intros first w Hm; cbn [download_attempts];
    unfold bind at 1, try_io;
    destruct (costs_download_http_file client url expected_sha256 auth dest_path filename deadline w)
      as (es & He & Hn & Hw);
    (destruct (download_http_file _ _ _ _ _ _ _ w) as [w1 [u|e]]; simpl in He;
      [exists es; rewrite Hw; split_and!; [done|lia|apply prefix_nil]|]).
  - exists es. simpl. rewrite Hw. split_and!; [done|lia|apply prefix_nil].
  - unfold bind at 1, instant_now.
    destruct (is_transient e && _); [|exists es; simpl; rewrite Hw; split_and!; [done|lia|apply prefix_nil]].
    unfold bind, sleep. destruct (IH (Some (default (display e) first)) (log (tick (tick w1))
      [Slept (retry_backoff client * 2 ^ N.of_nat (ARTIFACT_DOWNLOAD_ATTEMPTS - S more - 1))])) as (es' & He' & Hn' & Hw'); [lia|].
    eexists (es ++ Slept _ :: es'). rewrite He'. simpl. rewrite He, <- !app_assoc. split; [done|].
    rewrite requests_app, waits_app, length_app, Hw. split.
    { change (requests (Slept _ :: es')) with (requests es'). lia. }
    unfold schedule. replace (seq (2 - S more) (S more)) with ((2 - S more)%nat :: seq (2 - more) more)
      by (destruct more as [|[|]]; [done..|lia]).
    apply prefix_cons_alt; [|exact Hw']. by destruct more as [|[|]]; [..|lia].
Qed.

(** A download ends, after a bounded number of requests and waits. However
    servers answer and redirect, it sends at most 66 requests, eleven to check
    the size of a cached file and eleven to fetch it in each of three attempts;
    and it waits at most twice, the second time twice as long as the first. *)
Theorem download_bounded client url expected_sha256 auth dest_path filename w :
  ∃ es, events (download_http_file_with_backoff client url expected_sha256 auth dest_path filename w).1
          = events w ++ es ∧
    (length (requests es) ≤ 66)%nat ∧
    waits es `prefix_of` [retry_backoff client; 2 * retry_backoff client].
Proof.
  destruct (attempts_events client url expected_sha256 auth dest_path filename
    (now (ops w) + download_budget client) 2 None (tick w)) as (es & He & Hn & Hw); [lia|].
  exists es. split_and!; [exact He|exact Hn|]. unfold schedule in Hw. simpl in Hw.
  by rewrite N.mul_1_r, (N.mul_comm _ 2) in Hw.
Qed.
End Costs.

(** ** Names of temporary files *)

Definition dot : ascii := ascii_of_N 46.

Definition dots (l : chars) : nat := length (filter (fun c => c = dot) l).

Lemma dots_app l k : dots (l ++ k) = (dots l + dots k)%nat.
Proof. unfold dots. by rewrite filter_app, length_app. Qed.

Lemma dots_none l : dot ∉ l → dots l = 0%nat.
Proof.
  intros Hl. unfold dots. apply length_zero_iff_nil.
  destruct (filter _ l) as [|c k] eqn:E; [done|]. exfalso. apply Hl.
  assert (c ∈ filter (fun c => c = dot) l) as Hc by (rewrite E; left).
  apply list_elem_of_filter in Hc as [-> Hc]. done.
Qed.

(** A string with fewer dots than the pattern does not contain it. *)
Lemma few_dots l p : (dots l < dots p)%nat → contains_str l p = false.
Proof.
  intros Hd. apply not_true_iff_false. intros (a & b & ->)%contains_str_spec.
  rewrite !dots_app in Hd. lia.
Qed.

Lemma rsplit_once_none l p : p ≠ [] → contains_str l p = false → rsplit_once l p = None.
Proof.
  intros Hp. induction l as [|c l IH]; cbn [contains_str rsplit_once]; intros [Hs Hc]%orb_false_iff.
  - by rewrite Hs.
  - by rewrite IH, Hs.
Qed.

(** The pattern is found where it occurs last. *)
Lemma rsplit_once_last a c p b :
  contains_str (p ++ b) (c :: p) = false → rsplit_once (a ++ (c :: p) ++ b) (c :: p) = Some (a, b).
Proof.
  intros Hl. induction a as [|d a IH].
  - cbn [app rsplit_once]. rewrite rsplit_once_none by done.
    change (c :: p ++ b) with ((c :: p) ++ b). by rewrite starts_with_app, drop_app_length.
  - cbn [app rsplit_once]. cbn [app] in IH. by rewrite IH.
Qed.

(** A temporary file that a process left behind is recognised, with the
    process that made it: the name that a download gives to a temporary file,
    with any UUID, is read back as the process id in it, whatever the name of the
    artifact, also when that looks like the name of a temporary file. *)
Theorem temp_name_roundtrip uuid_ok filename tid pid :
  filename ≠ "" → uuid_ok (to_chars tid) = true → (dot ∉ to_chars tid) → pid ≤ U32_MAX →
  firmware_temp_file_pid uuid_ok
    (firmware_temp_file_prefix filename +++ tid +++ firmware_temp_file_suffix pid) = Some pid.
Proof.
  intros Hf Hu Hd Hp.
  assert (dots (to_chars (pretty pid)) = 0%nat) as Hz.
  { apply dots_none, pretty_no_char. vm_compute. by intros [? ?]. }
  unfold firmware_temp_file_pid, firmware_temp_file_prefix, firmware_temp_file_suffix.
  rewrite !to_chars_app. rewrite !app_assoc, strip_app, <- !app_assoc. simpl.
  change (Ascii.eqb _ _) with true. cbv iota.
  match goal with |- rsplit_once ?l ?p ≫= _ = _ =>
    assert (rsplit_once l p = Some (to_chars filename ++ [dot] ++ to_chars tid, to_chars (pretty pid))) as -> end.
  { rewrite <- (rsplit_once_last _ dot (to_chars "rms.fw.") (to_chars (pretty pid))), <- app_assoc; [done|].
    apply few_dots. rewrite dots_app, Hz. vm_compute. lia. }
  simpl. change [ascii_of_pos 46] with [dot]. change (dot :: to_chars tid) with ([dot] ++ to_chars tid).
  rewrite rsplit_once_last by (apply few_dots; rewrite dots_none by done; vm_compute; lia). simpl.
  rewrite Hu, orb_false_r. destruct (Nat.eqb_spec (length (to_chars filename)) 0) as [E|_].
  - apply nil_length_inv in E. apply (f_equal of_chars) in E. by rewrite of_to_chars in E.
  - by rewrite parse_pretty, (proj2 (N.leb_le _ _)).
Qed.

Lemma temp_name_roundtrip_witness :
  firmware_temp_file_pid (fun l => (length l =? 4)%nat)
    (firmware_temp_file_prefix ".x.12.rms.fw.7.tmp" +++ "abcd" +++ firmware_temp_file_suffix 42) = Some 42.
Proof.
  apply (temp_name_roundtrip (fun l => (length l =? 4)%nat) ".x.12.rms.fw.7.tmp" "abcd" 42);
    [discriminate|reflexivity|vm_compute; set_solver|vm_compute; discriminate].
Defined.
End ArtifactBounds.
