(* ===== verification/FirmwareManifest.v ===== *)
(** * Firmware manifests

    [domain/firmware_manifest.rs]: what a firmware object contains (Module
    [Manifest]), and the tables of [api/grpc/firmware_object_handlers.rs] (Module
    [Mappings]): the components of a manifest that each node type takes, the targets
    they are written to, the order of the writes and which files are payloads.  The
    derived parsers and printers of [serde] are not modelled. *)

From S2P Require Import Prelude RustStd RustStr RustBytes Json NodeTypes Artifacts.
From Stdlib Require Import Ascii.
Local Open Scope string_scope.
Local Open Scope list_scope.

Module Manifest.
Import NodeTypes.

(** ** [domain/firmware_manifest.rs] *)

Record Location := mkLocation {
  location : option string;
  location_type : option string;
  package_name : option string;
  artifact_type : option string;
  file_name : option string;
  sha256 : option string;
  required : option bool;
}.

Record SubComponent := mkSubComponent {
  sub_component : string;
  sub_version : string;
  sub_sku_id : option string;
  sub_component_type : option string;
}.

Record Component := mkComponent {
  linkx_rollout : option json;
  component : string;
  version : option string;
  channel_type : option string;
  bundle : option string;
  file_names : list string;
  locations : list Location;
  subcomponents : list SubComponent;
}.

Record Components := mkComponents {
  software : list Component;
  firmware : list Component;
}.

Record BoardSku := mkBoardSku {
  sku_id : option string;
  board_name : string;
  board_type : string;
  components : Components;
}.

Record Milestone := mkMilestone {
  milestone_name : string;
  milestone_state : option string;
  board_skus : list BoardSku;
}.

Record FirmwareManifest := mkManifest {
  product_name : string;
  milestones : list Milestone;
}.

(** The error is its text. *)
Definition single_milestone (m : FirmwareManifest) : result string Milestone :=
  match milestones m with
  | [milestone] => Ok milestone
  | ms => Err ("Milestones must contain exactly one milestone; found " +++ pretty (length ms))
  end.

(** The check of a digest when a manifest is read. *)
Definition optional_sha256 (value : option string) : result string (option string) :=
  match value with
  | None => Ok None
  | Some value =>
      let digest := trim value in
      if negb (String.length digest =? 64)%nat || negb (all_chars Artifacts.is_ascii_hexdigit digest)
      then Err "invalid Sha256: expected 64 hex characters"
      else Ok (Some (lower digest))
  end.

(** ** Names of boards and components *)

Definition COMPUTE_LOOKUP_KEY : string := "Compute Node".
Definition SWITCH_LOOKUP_KEY : string := "Switch Tray".
Definition POWER_SHELF_LOOKUP_KEY : string := "Power Shelf".
Definition RECOVERY_BUNDLE_COMPONENT : string := "HMC".

Definition lookup_key_from_board_type (board_type : string) : option string :=
  let board_type := trim board_type in
  if eq_ignore_ascii_case board_type "Compute Tray" || eq_ignore_ascii_case board_type COMPUTE_LOOKUP_KEY
  then Some COMPUTE_LOOKUP_KEY
  else if eq_ignore_ascii_case board_type SWITCH_LOOKUP_KEY then Some SWITCH_LOOKUP_KEY
  else if eq_ignore_ascii_case board_type "PowerShelf" || eq_ignore_ascii_case board_type POWER_SHELF_LOOKUP_KEY
  then Some POWER_SHELF_LOOKUP_KEY
  else None.

(** The separators of a name are interchangeable. *)
Definition separators (c : ascii) : ascii := if Ascii.eqb c (ascii_of_N 45) then ascii_of_N 32 else c.

Definition firmware_source_component_matches (actual expected : string) : bool :=
  bool_decide (separators <$> to_chars actual = separators <$> to_chars expected).

Definition nonempty (value : option string) : option string :=
  match value with
  | Some v => if is_blank v then None else Some v
  | None => None
  end.

(** ** What a request selects *)

Record FirmwareTargetMapping := mkMapping {
  source_component : string;
  target_key : string;
  redfish_target : string;
  mapping_default_apply : bool;
}.

Definition selected_firmware_mapping_matches (source_component lookup_key target : string)
    (allow_source_component_match : bool) (selected : list string) : bool :=
  let candidates := [lower lookup_key; lower target] ++
                    (if allow_source_component_match then [lower source_component] else []) in
  existsb (fun wanted =>
             existsb (fun candidate => firmware_source_component_matches candidate (lower wanted)) candidates)
    selected.

Inductive FirmwareObjectComponentSelectionMode :=
| DefaultOnly
| All
| OnlyComponents.

Record FirmwareObjectComponentSelection := mkSelection {
  selection_mode : FirmwareObjectComponentSelectionMode;
  selected_components : list string;
}.

Definition mapping_matches (m : FirmwareTargetMapping) (selected : list string) : bool :=
  selected_firmware_mapping_matches (source_component m) (target_key m) (redfish_target m)
    (mapping_default_apply m) selected.

Definition matches_target_mapping (s : FirmwareObjectComponentSelection) (m : FirmwareTargetMapping) : bool :=
  match selection_mode s with
  | DefaultOnly => mapping_default_apply m
  | All => true
  | OnlyComponents => mapping_matches m (selected_components s)
  end.

Definition validate_firmware_object_component_selection (t : NodeType) (components : list string)
    : result string unit :=
  if supports_flint_inband_firmware t &&
     existsb (fun c => eq_ignore_ascii_case (trim c) "BF3_BFB") components
  then Err "BF3_BFB and Arm OS installation are not supported; select BF3_NIC with a Flint-compatible firmware image"
  else Ok tt.

Definition component_filter_selection (t : NodeType) (filter_components : list string)
    : result string FirmwareObjectComponentSelection :=
  let? _ := validate_firmware_object_component_selection t filter_components in
  Ok (match filter_components with
      | [] => mkSelection All []
      | _ => mkSelection OnlyComponents filter_components
      end).

(** [component_filters]: the filter of each node type that has one, as its components. *)
Definition selection_for_node_type (component_filters : list (NodeType * list string))
    (global_components : list string) (t : NodeType)
    : result string (option FirmwareObjectComponentSelection) :=
  match component_filters with
  | [] =>
      let? _ := validate_firmware_object_component_selection t global_components in
      Ok (Some (match global_components with
                | [] => mkSelection DefaultOnly []
                | _ => mkSelection OnlyComponents global_components
                end))
  | _ =>
      match snd <$> find (fun f => bool_decide (f.1 = t)) component_filters with
      | None => Ok None
      | Some components =>
          let? s := component_filter_selection t components in Ok (Some s)
      end
  end.
End Manifest.

Module Mappings.
Import NodeTypes Manifest.

(** ** Mappings *)

Inductive DeviceType :=
| DevComputeGb200Nvidia
| DevComputeGb300Nvidia
| DevComputeVrnvl72Nvidia
| DevSwitchGb200Nvidia
| DevSwitchGb300Nvidia
| DevSwitchVrnvl72Nvidia
| DevPowerShelf.

#[global] Instance DeviceType_eq_dec : EqDecision DeviceType.
Proof. solve_decision. Defined.

Definition device_type_for_node_type (t : NodeType) : option DeviceType :=
  match t with
  | ComputeGb200Nvidia | ComputeGb200Wiwynn | ComputeGb200Dell => Some DevComputeGb200Nvidia
  | ComputeGb300Nvidia | ComputeGb300Lenovo | ComputeGb300Supermicro => Some DevComputeGb300Nvidia
  | ComputeVrnvl72Nvidia => Some DevComputeVrnvl72Nvidia
  | SwitchGb200Nvidia => Some DevSwitchGb200Nvidia
  | SwitchGb300Nvidia => Some DevSwitchGb300Nvidia
  | SwitchVrnvl72Nvidia => Some DevSwitchVrnvl72Nvidia
  | PowershelfGb200Liteon | PowershelfGb200Delta | PowershelfGb300Liteon | PowershelfGb300Delta
  | PowershelfVrnvl72Liteon | PowershelfVrnvl72Delta => Some DevPowerShelf
  end.

Definition SUPERMICRO_HGX_TARGET : string := "/redfish/v1/Chassis/HGX_Chassis_0".
Definition SUPERMICRO_BIOS_TARGET : string := "supermicro_bios".

Definition hgx_firmware_mapping (target_key redfish_target : string) : FirmwareTargetMapping :=
  mkMapping "HMC" target_key redfish_target false.

Definition flint_firmware_mapping (component : string) : FirmwareTargetMapping :=
  mkMapping component component component false.

Definition switch_firmware_mapping (source_component target_key redfish_target : string) : FirmwareTargetMapping :=
  mkMapping source_component target_key redfish_target true.

Definition powershelf_firmware_mapping (source_component target_key : string) : FirmwareTargetMapping :=
  mkMapping source_component target_key "" true.

Definition inventory (name : string) : string := "/redfish/v1/UpdateService/FirmwareInventory/" +++ name.

(** The keys of the components of an HGX package, and their resources. *)
Definition hgx_targets : list (string * string) :=
  [("CPU_0", "HGX_FW_CPU_0"); ("CPU_1", "HGX_FW_CPU_1");
   ("GPU_0", "HGX_FW_GPU_0"); ("GPU_1", "HGX_FW_GPU_1"); ("GPU_2", "HGX_FW_GPU_2"); ("GPU_3", "HGX_FW_GPU_3");
   ("HGX_BMC_0", "HGX_FW_BMC_0"); ("FPGA_0", "HGX_FW_FPGA_0"); ("FPGA_1", "HGX_FW_FPGA_1");
   ("CPLD_0", "HGX_FW_CPLD_0");
   ("EROT_BMC_0", "HGX_FW_ERoT_BMC_0"); ("EROT_CPU_0", "HGX_FW_ERoT_CPU_0"); ("EROT_CPU_1", "HGX_FW_ERoT_CPU_1");
   ("EROT_FPGA_0", "HGX_FW_ERoT_FPGA_0"); ("EROT_FPGA_1", "HGX_FW_ERoT_FPGA_1");
   ("INFOROM_GPU_0", "HGX_InfoROM_GPU_0"); ("INFOROM_GPU_1", "HGX_InfoROM_GPU_1");
   ("INFOROM_GPU_2", "HGX_InfoROM_GPU_2"); ("INFOROM_GPU_3", "HGX_InfoROM_GPU_3");
   ("PCIE_SWITCH_CONFIG_0", "HGX_PCIeSwitchConfig_0")].

Definition get_firmware_component_mappings_for_device_type (d : DeviceType) : list FirmwareTargetMapping :=
  match d with
  | DevComputeVrnvl72Nvidia =>
      [flint_firmware_mapping "LINKX"; mkMapping "HMC" "HMC" "/redfish/v1/Chassis/HGX_Chassis_0" true;
       mkMapping "BMC" "BMC" "" true]
  | DevComputeGb200Nvidia | DevComputeGb300Nvidia =>
      [mkMapping "HMC" "HMC" "/redfish/v1/Chassis/HGX_Chassis_0" true; mkMapping "BMC" "BMC" "" true] ++
      ((fun t => hgx_firmware_mapping t.1 (inventory t.2)) <$> hgx_targets) ++
      (if bool_decide (d = DevComputeGb200Nvidia)
       then [flint_firmware_mapping "CX7"; flint_firmware_mapping "CX8"; flint_firmware_mapping "BF3_NIC"]
       else [])
  | DevSwitchGb200Nvidia | DevSwitchGb300Nvidia =>
      [switch_firmware_mapping "BMC+FPGA+EROT" "BMC" "bmc"; switch_firmware_mapping "BMC+FPGA+EROT" "FPGA" "fpga";
       switch_firmware_mapping "BMC+FPGA+EROT" "EROT" "erot"; switch_firmware_mapping "CPLD" "CPLD" "cpld";
       switch_firmware_mapping "SBIOS+EROT" "BIOS" "bios"; switch_firmware_mapping "SBIOS+EROT" "EROT" "erot"]
  | DevSwitchVrnvl72Nvidia =>
      [switch_firmware_mapping "BMC+CPLD+SMA+ERoT+SBIOS" "BMC" "bmc";
       switch_firmware_mapping "BMC+CPLD+SMA+ERoT+SBIOS" "BIOS" "bios";
       switch_firmware_mapping "BMC+CPLD+SMA+ERoT+SBIOS" "SMA" "sma";
       switch_firmware_mapping "BMC+CPLD+SMA+ERoT+SBIOS" "EROT" "erot";
       switch_firmware_mapping "BMC+CPLD+SMA+ERoT+SBIOS" "CPLD" "cpld1"]
  | DevPowerShelf =>
      [powershelf_firmware_mapping "Delta-PMC" "DeltaPMC"; powershelf_firmware_mapping "Delta-PSU" "DeltaPSU";
       powershelf_firmware_mapping "LiteOn PSU" "LiteOnPSU"; powershelf_firmware_mapping "LiteOn PMC" "LiteOnPMC"]
  end.

Definition get_firmware_component_mappings_for_node_type (t : NodeType) : list FirmwareTargetMapping :=
  match t with
  | ComputeGb200Dell => []
  | ComputeGb300Supermicro =>
      [mkMapping "HMC" "HMC" SUPERMICRO_HGX_TARGET true; mkMapping "HMC" "BIOS" SUPERMICRO_BIOS_TARGET true;
       mkMapping "BIOS" "BIOS" SUPERMICRO_BIOS_TARGET true; mkMapping "BMC" "BMC" "" true]
  | _ => default [] (get_firmware_component_mappings_for_device_type <$> device_type_for_node_type t)
  end.

Definition get_firmware_flash_order (t : NodeType) : list string :=
  match t with
  | ComputeGb200Dell => []
  | ComputeGb300Supermicro => [SUPERMICRO_HGX_TARGET; SUPERMICRO_BIOS_TARGET; ""]
  | SwitchVrnvl72Nvidia => ["bmc"; "bios"; "sma"; "erot"; "cpld1"]
  | SwitchGb200Nvidia | SwitchGb300Nvidia => ["bmc"; "fpga"; "erot"; "cpld"; "bios"]
  | ComputeGb200Nvidia | ComputeGb200Wiwynn | ComputeGb300Nvidia | ComputeGb300Lenovo | ComputeVrnvl72Nvidia =>
      ["/redfish/v1/Chassis/HGX_Chassis_0"] ++ ((fun t => inventory t.2) <$> hgx_targets) ++
      ["CX7"; "CX8"; "BF3_NIC"; ""]
  | PowershelfGb200Liteon | PowershelfGb200Delta | PowershelfGb300Liteon | PowershelfGb300Delta
  | PowershelfVrnvl72Delta => ["DeltaPMC"; "LiteOnPMC"; "DeltaPSU"; "LiteOnPSU"]
  | PowershelfVrnvl72Liteon => ["LiteOnPMC"; "LiteOnPSU"]
  end.

Definition known_firmware_target_keys : list string :=
  ["LINKX"; "BF3_NIC"; "CX7"; "CX8"; "PCIE_SWITCH_CONFIG_0"; "INFOROM_GPU_0"; "INFOROM_GPU_1"; "INFOROM_GPU_2";
   "INFOROM_GPU_3"; "EROT_FPGA_0"; "EROT_FPGA_1"; "EROT_BMC_0"; "EROT_CPU_0"; "EROT_CPU_1"; "HGX_BMC_0";
   "DeltaPMC"; "DeltaPSU"; "LiteOnPMC"; "LiteOnPSU"; "FPGA_0"; "FPGA_1"; "CPLD_0"; "CPU_0"; "CPU_1"; "GPU_0";
   "GPU_1"; "GPU_2"; "GPU_3"; "BMC"; "HMC"; "SMA"; "FPGA"; "EROT"; "CPLD"; "BIOS"].

(** [str::strip_prefix]. *)
Definition strip_prefix (l p : chars) : option chars :=
  if starts_with l p then Some (drop (length p) l) else None.

Definition underscore : ascii := ascii_of_N 95.

Definition target_key_from_component_key (component_key : string) : string :=
  let l := to_chars component_key in
  match find (fun key => match strip_prefix l (to_chars key) with
                         | Some rest => match rest with [] => true | c :: _ => Ascii.eqb c underscore end
                         | None => false
                         end) known_firmware_target_keys with
  | Some key => key
  | None => match split_once underscore l with Some (key, _) => of_chars key | None => component_key end
  end.

Definition firmware_component_allowed_for_node_type (t : NodeType) (target_key : string) : bool :=
  let key := target_key_from_component_key target_key in
  if contains ["CX7"; "CX8"; "BF3_NIC"] key && negb (supports_flint_inband_firmware t) then false
  else if bool_decide (device_type_for_node_type t = None) then false
  else
    match t with
    | ComputeGb300Lenovo => contains ["BMC"; "HMC"] key
    | ComputeGb300Supermicro => contains ["BMC"; "HMC"; "BIOS"] key
    | PowershelfGb200Liteon | PowershelfGb300Liteon | PowershelfVrnvl72Liteon =>
        contains ["LiteOnPMC"; "LiteOnPSU"] key
    | PowershelfGb200Delta | PowershelfGb300Delta | PowershelfVrnvl72Delta =>
        contains ["DeltaPMC"; "DeltaPSU"] key
    | _ => existsb (fun m => String.eqb (Manifest.target_key m) key)
             (get_firmware_component_mappings_for_node_type t)
    end.

(** [to_ascii_uppercase]. *)
Definition ascii_upper (c : ascii) : ascii :=
  if is_ascii_lowercase c then ascii_of_N (N_of_ascii c - 32) else c.

(** [FlintDeviceFamily::from_component]: whether there is one. *)
Definition flint_device_family (component : string) : bool :=
  contains ["CX7"; "CONNECTX7"; "CONNECTX-7"; "CX8"; "CONNECTX8"; "CONNECTX-8"; "BF3"; "BF3_NIC"; "BLUEFIELD3";
            "BLUEFIELD-3"]
    (of_chars (map ascii_upper (to_chars (trim component)))).

(** ** Files *)

Definition location_is_firmware_payload (location_type : option string) : bool :=
  match location_type with
  | Some t => eq_ignore_ascii_case t "Firmware" || eq_ignore_ascii_case t "Binary"
  | None => false
  end.

Definition has_suffix (name suffix : string) : bool := ends_with (to_chars name) (to_chars suffix).
Definition has_infix (name infix : string) : bool := contains_str (to_chars name) (to_chars infix).

Definition location_is_recovery_payload (location_type : option string) (artifact_name : string) : bool :=
  let name := lower artifact_name in
  has_suffix name ".fwpkg" &&
  (match location_type with Some t => eq_ignore_ascii_case t "Firmware-Recovery" | None => false end
   || has_infix name "_recovery").

Definition flint_firmware_payload_filename (filename : string) : bool :=
  let filename := lower filename in has_suffix filename ".bin" || has_suffix filename ".pldm".

Definition firmware_payload_allowed_for_component (component filename : string) : bool :=
  if eq_ignore_ascii_case component "LINKX" then has_suffix (lower filename) ".bin"
  else if eq_ignore_ascii_case component "BF3_BFB" then false
  else if existsb (eq_ignore_ascii_case component) ["CX7"; "CX8"; "BF3_NIC"]
  then flint_firmware_payload_filename filename
  else true.

Definition supermicro_bmc_filename (firmware_file : string) : bool :=
  let filename := lower (default firmware_file (Artifacts.file_name firmware_file)) in
  has_suffix filename ".bin" && has_infix filename "obmc".
End Mappings.
