(* ===== verification/FirmwarePlan.v ===== *)
(** * Firmware plans

    [api/grpc/firmware_object_handlers/plan.rs] and [profile.rs]: from a manifest,
    a node type and a request to the targets that are written, with the identities
    of the artifacts ([artifacts.rs]), the versions that are expected, the image of
    a switch and the packages of a recovery.  The JSON of manifests and identities,
    SHA-256 and the derived parser of rollout policies are the class [ManifestEnv],
    of which no law is assumed. *)

From S2P Require Import Prelude RustStd RustStr RustBytes Json RmsError NodeTypes HardwareProfiles HardwarePlan.
From S2P Require Import Net Artifacts ArtifactDownload FirmwareManifest.
From Stdlib Require Import Ascii.
Local Open Scope string_scope.
Local Open Scope list_scope.

Module FirmwarePlan.
Import NodeTypes Net Manifest Mappings.
Abbreviation Artifact := ArtifactDownload.Artifact.
Abbreviation HardwareUpdatePlan := HardwarePlan.HardwareUpdatePlan.
Abbreviation FirmwareTargetPlan := HardwarePlan.FirmwareTargetPlan.

Inductive PlanError :=
| Invalid (message : string)
| NoComponents (message : string)
| CacheError (message : string).

Definition plan_error_text (e : PlanError) : string :=
  match e with Invalid m | NoComponents m | CacheError m => m end.

(** [rust_nvfwupd/src/flint.rs] *)
Record LinkxPolicy := mkLinkxPolicy {
  current_version : string;
  target_version : string;
  policy_sha256 : string;
}.

Abbreviation FirmwareTarget := (HardwarePlan.FirmwareTarget LinkxPolicy).

Class ManifestEnv := {
  manifest_json : FirmwareManifest → result string chars;
  identity_json : string → string → string → string → string → result string chars;
  sha256_hex : chars → string;
  linkx_from_value : json → result string LinkxPolicy;
}.

(** ** [artifacts.rs] *)

Section Artifacts.
Context `{UrlCrate} `{ManifestEnv}.

Definition manifest_revision (m : FirmwareManifest) : result string string :=
  let? bytes := manifest_json m in Ok (sha256_hex bytes).

(** [Url::path_segments], and the last of them. *)
Definition last_path_segment (u : Url) : option string :=
  rest ← strip_prefix (to_chars (url_path u)) [slash];
  of_chars <$> last (split_on slash rest).

Definition filename_from_location (location : string) : result Artifacts.ArtifactPathError string :=
  if ends_with (to_chars location) [slash] || ends_with (to_chars location) [backslash]
  then Err (Artifacts.MissingFilename location)
  else
    let filename := match url_parse location with
                    | Ok url => last_path_segment url
                    | Err _ => Artifacts.file_name location
                    end in
    match filename with
    | Some name =>
        if String.eqb name "" then Err (Artifacts.MissingFilename location)
        else let? _ := Artifacts.validate_artifact_filename name in Ok name
    | None => Err (Artifacts.MissingFilename location)
    end.

Definition advertised_filename (l : Location) : option string :=
  match nonempty (file_name l) with
  | Some name => Some name
  | None => source ← location l;
            match filename_from_location source with Ok name => Some name | Err _ => None end
  end.

Definition has_download_location (l : Location) : bool := bool_decide (is_Some (nonempty (location l))).

Definition from_location (revision context : string) (l : Location) : result string Artifact :=
  let? source := ok_or (nonempty (location l)) (context +++ ".Location is required for an update") in
  let? transport := ok_or (nonempty (location_type l))
                      (context +++ ".LocationType is required for an update") in
  let? filename := ok_or (advertised_filename l)
                     (context +++ " must specify a safe FileName or URL basename") in
  let? _ := map_err (fun _ => context +++ ".FileName must be a safe filename")
              (Artifacts.artifact_cache_path "" "artifact" filename) in
  let? identity := identity_json revision context source transport filename in
  Ok (ArtifactDownload.mkArtifact (sha256_hex identity) filename source transport (sha256 l)
        (default true (required l)) context).

Definition set_required (a : Artifact) : Artifact :=
  ArtifactDownload.mkArtifact (ArtifactDownload.id a) (ArtifactDownload.filename a) (ArtifactDownload.source a)
    (ArtifactDownload.transport_type a) (ArtifactDownload.artifact_sha256 a) true
    (ArtifactDownload.artifact_context a).

Definition cache_path (a : Artifact) (cache : string) : result string string :=
  map_err Artifacts.path_error_display
    (Artifacts.artifact_cache_path cache (ArtifactDownload.id a) (ArtifactDownload.filename a)).

(** ** NVOS images *)

Definition downloadable_nvos_location (l : Location) : bool :=
  has_download_location l &&
  match advertised_filename l with Some name => has_suffix (lower name) ".bin" | None => false end.

(** With the index of the location. *)
Definition select_nvos_location (context : string) (ls : list Location) : result string (nat * Location) :=
  match filter (fun e => downloadable_nvos_location e.2 = true) (imap pair ls) with
  | [] => Err (context +++ ".Locations must include an NVOS .bin image location")
  | [selected] => Ok selected
  | _ => Err (context +++ ".Locations contains multiple NVOS .bin image candidates")
  end.

(** ** [profile.rs] *)

Record SelectedMapping := mkSelectedMapping {
  mapping : FirmwareTargetMapping;
  configured : option FirmwareTargetPlan;
  order : N;
}.

Definition USIZE_MAX : N := 2 ^ 64 - 1.

(** [position(|target| *target == selector).unwrap_or(usize::MAX)] *)
Fixpoint position_from (i : N) (l : list string) (selector : string) : N :=
  match l with
  | [] => USIZE_MAX
  | x :: l => if String.eqb x selector then i else position_from (i + 1) l selector
  end.

Definition flash_position (t : NodeType) (selector : string) : N :=
  position_from 0 (get_firmware_flash_order t) selector.

(** The mappings of one target of a profile, which is the [index]th. *)
Definition profile_target_mappings (t : NodeType) (index : nat) (target : FirmwareTargetPlan)
    : list SelectedMapping :=
  let order := (N.of_nat index + N.of_nat (length (get_firmware_flash_order t)))%N in
  let entry source selector :=
    mkSelectedMapping (mkMapping source (HardwarePlan.component_key target) selector
                         (HardwarePlan.default_apply target)) (Some target) order in
  source ← HardwarePlan.source_components target;
  match HardwarePlan.request_target_selection target with
  | HardwarePlan.DriverDefault => [entry source ""]
  | HardwarePlan.Multipart [] => [entry source ""]
  | HardwarePlan.Multipart [path] => [entry source path]
  | HardwarePlan.Multipart _ => [entry source (HardwarePlan.component_key target)]
  | HardwarePlan.Explicit paths => entry source <$> paths
  end.

Definition is_linkx (m : FirmwareTargetMapping) : bool := String.eqb (target_key m) "LINKX".

Definition mappings (t : NodeType) (profile : option HardwareUpdatePlan) : list SelectedMapping :=
  match profile with
  | None =>
      (fun m => let selector := if bool_decide (kind t = Powershelf) then target_key m else redfish_target m in
                mkSelectedMapping m None (flash_position t selector)) <$>
        get_firmware_component_mappings_for_node_type t
  | Some p =>
      (imap (profile_target_mappings t) (HardwarePlan.all_targets (HardwarePlan.stages p)) ≫= fun l => l) ++
      ((fun m => mkSelectedMapping m None
                   (if is_linkx m then USIZE_MAX else flash_position t (redfish_target m))) <$>
         filter (fun m => flint_device_family (redfish_target m) || is_linkx m = true)
           (get_firmware_component_mappings_for_node_type t))
  end.

(** ** Channels *)

Definition board_matches (board_type : string) (t : NodeType) : bool :=
  match lookup_key_from_board_type board_type, kind t with
  | Some key, Compute => String.eqb key COMPUTE_LOOKUP_KEY
  | Some key, Switch => String.eqb key SWITCH_LOOKUP_KEY
  | Some key, Powershelf => String.eqb key COMPUTE_LOOKUP_KEY || String.eqb key POWER_SHELF_LOOKUP_KEY
  | None, _ => false
  end.

Definition is_vr_nvl72 (m : FirmwareManifest) : bool := eq_ignore_ascii_case (product_name m) "VR-NVL72".

Definition channel (m : FirmwareManifest) (c : Component) : option string :=
  match nonempty (channel_type c) with
  | Some ch => Some ch
  | None => if is_vr_nvl72 m && contains ["HMC"; "BMC"; "BMC+CPLD+SMA+ERoT+SBIOS"] (component c)
            then Some "Prod" else None
  end.

Definition same_channel (a b : string) : bool := eq_ignore_ascii_case (trim a) (trim b).

Definition resolve_channel_from_values (requested : string) (channels : list string) : result PlanError string :=
  if negb (is_blank requested) then Ok (lower (trim requested))
  else
    let names := (fun c => lower (trim c)) <$> filter (fun c => is_blank c = false) channels in
    match ordered String.le (list_to_set names : gset string) with
    | [] => Err (Invalid "cannot infer firmware type: manifest contains no component channels")
    | [c] => Ok c
    | cs => Err (Invalid ("manifest contains multiple firmware types: " +++ join_str ", " cs +++
                          "; specify the requested type explicitly"))
    end.

Definition one_milestone (m : FirmwareManifest) : result PlanError (list BoardSku) :=
  map_err Invalid (let? milestone := single_milestone m in Ok (board_skus milestone)).

Definition resolve_channel (m : FirmwareManifest) (requested : string) : result PlanError string :=
  let? boards := one_milestone m in
  resolve_channel_from_values requested
    (omap (channel m) (boards ≫= fun b => firmware (components b) ++ software (components b))).

(** ** Payloads *)

Definition recovery_payload_location (l : Location) : bool :=
  match advertised_filename l with
  | Some name => location_is_recovery_payload (artifact_type l) name
  | None => false
  end.

Definition payload_location (m : FirmwareManifest) (c : Component) (l : Location) : bool :=
  if recovery_payload_location l then false
  else
    let inferred_vr_bmc :=
      is_vr_nvl72 m && eq_ignore_ascii_case (component c) "BMC" &&
      bool_decide (nonempty (artifact_type l) = None) &&
      match advertised_filename l with Some name => has_suffix (lower name) ".fwpkg" | None => false end in
    (location_is_firmware_payload (artifact_type l) || inferred_vr_bmc) &&
    match advertised_filename l with
    | Some name => firmware_payload_allowed_for_component (component c) name
    | None => true
    end.

Definition filename_allowed (t : NodeType) (m : FirmwareTargetMapping) (l : Location) : bool :=
  if bool_decide (t = ComputeGb300Supermicro) then
    match advertised_filename l with
    | None => false
    | Some filename =>
        let filename := lower filename in
        default false (match_str (target_key m)
          [("HMC", has_suffix filename ".fwpkg" && has_infix filename "nosbios");
           ("BIOS", has_suffix filename ".bin" && has_infix filename "bios");
           ("BMC", supermicro_bmc_filename filename)])
    end
  else true.

Definition filename_allowed_with_profile (t : NodeType) (m : FirmwareTargetMapping) (l : Location)
    (configured : option FirmwareTargetPlan) : bool :=
  match configured with
  | Some target =>
      match advertised_filename l with
      | Some filename => HardwarePlan.matches_filename (HardwarePlan.filename target) filename
      | None => false
      end
  | None => filename_allowed t m l
  end.

Definition location_context (board : nat) (collection : string) (component location : nat) : string :=
  "Milestones[0].BoardSKUs[" +++ pretty board +++ "].Components." +++ collection +++ "[" +++
  pretty component +++ "].Locations[" +++ pretty location +++ "]".

(** ** Selection *)

Record SelectedComponent := mkSelectedComponent {
  sel_board : nat;
  sel_index : nat;
  sel_component : Component;
  sel_mapping : FirmwareTargetMapping;
  sel_configured : option FirmwareTargetPlan;
  sel_order : N;
}.

Definition matches_profile_target (s : FirmwareObjectComponentSelection) (target : FirmwareTargetPlan) : bool :=
  match selection_mode s with
  | DefaultOnly => HardwarePlan.default_apply target
  | All => true
  | OnlyComponents => existsb (HardwarePlan.matches_component target) (selected_components s)
  end.

Definition split_switch (t : NodeType) : bool := contains [SwitchGb200Nvidia; SwitchGb300Nvidia] t.

Definition prefer_switch_bios_erot (m : FirmwareManifest) (t : NodeType) (firmware_type : string)
    (boards : list BoardSku) : bool :=
  split_switch t &&
  existsb (fun c => String.eqb (component c) "SBIOS+EROT" &&
                    match channel m c with Some ch => same_channel ch firmware_type | None => false end &&
                    existsb (fun l => payload_location m c l && has_download_location l &&
                                      bool_decide (is_Some (advertised_filename l))) (locations c))
    (filter (fun b => board_matches (board_type b) t = true) boards ≫= fun b => firmware (components b)).

(** Whether a component is one that the mapping is about, for this node and request. *)
Definition applicable (t : NodeType) (selection : FirmwareObjectComponentSelection) (with_profile : bool)
    (c : Component) (sm : SelectedMapping) : bool :=
  let m := mapping sm in
  firmware_source_component_matches (component c) (source_component m) &&
  (with_profile || firmware_component_allowed_for_node_type t (target_key m)) &&
  match configured sm with
  | None => matches_target_mapping selection m
  | Some target => matches_profile_target selection target
  end.

(** Of two bundles with the EROT of a switch, one is left out. *)
Definition skipped_erot (t : NodeType) (prefer_bios : bool) (m : FirmwareTargetMapping) : bool :=
  split_switch t && String.eqb (target_key m) "EROT" &&
  ((prefer_bios && String.eqb (source_component m) "BMC+FPGA+EROT") ||
   (negb prefer_bios && String.eqb (source_component m) "SBIOS+EROT")).

(** What the three loops go through: board, component and mapping. *)
Definition candidates (t : NodeType) (profile : option HardwareUpdatePlan) (boards : list BoardSku)
    : list (nat * nat * Component * SelectedMapping) :=
  b ← imap pair boards;
  if board_matches (board_type b.2) t
  then c ← imap pair (firmware (components b.2));
       (fun sm => (b.1, c.1, c.2, sm)) <$> mappings t profile
  else [].

(** The body of the loops; the state is what is selected and the board of each key. *)
Definition select_step (m : FirmwareManifest) (t : NodeType) (firmware_type : string)
    (selection : FirmwareObjectComponentSelection) (with_profile prefer_bios : bool)
    (acc : list SelectedComponent * gmap string nat) (e : nat * nat * Component * SelectedMapping)
    : result PlanError (list SelectedComponent * gmap string nat) :=
  let '(selected, target_boards) := acc in
  let '(board_idx, index, c, sm) := e in
  if negb (applicable t selection with_profile c sm) then Ok acc
  else
    let? ch := ok_or (channel m c)
      (Invalid ("Milestones[0].BoardSKUs[" +++ pretty board_idx +++ "].Components.Firmware[" +++ pretty index +++
                "].Type is required for " +++ node_type_str t +++ " component " +++ component c)) in
    if negb (same_channel ch firmware_type) then Ok acc
    else if skipped_erot t prefer_bios (mapping sm) then Ok acc
    else
      let key := target_key (mapping sm) in
      let added := (selected ++ [mkSelectedComponent board_idx index c (mapping sm) (configured sm) (order sm)],
                    <[key := board_idx]> target_boards) in
      match target_boards !! key with
      | Some previous =>
          if (previous =? board_idx)%nat then Ok added
          else Err (Invalid ("ambiguous " +++ key +++ " for " +++ node_type_str t +++ ": BoardSKUs[" +++
                     pretty previous +++ "] and BoardSKUs[" +++ pretty board_idx +++
                     "]; supply a manifest with one matching board"))
      | None => Ok added
      end.

(** A component of the request is one of those selected. *)
Definition requested_matches (requested : string) (s : SelectedComponent) : bool :=
  match sel_configured s with
  | None => mapping_matches (sel_mapping s) [requested]
  | Some target => HardwarePlan.matches_component target requested
  end.

Definition check_requested (t : NodeType) (firmware_type : string) (selected : list SelectedComponent)
    (requested : string) : result PlanError unit :=
  if existsb (requested_matches requested) selected then Ok tt
  else Err (Invalid ("component " +++ requested +++ " has no matching manifest entry for " +++ node_type_str t +++
                     " (" +++ firmware_type +++ ")")).

Definition select_components_with_profile (m : FirmwareManifest) (t : NodeType) (firmware_type : string)
    (selection : FirmwareObjectComponentSelection) (profile : option HardwareUpdatePlan)
    : result PlanError (list SelectedComponent) :=
  let? boards := one_milestone m in
  let prefer_bios := prefer_switch_bios_erot m t firmware_type boards in
  let? loops := try_fold (select_step m t firmware_type selection (bool_decide (is_Some profile)) prefer_bios)
                  ([], ∅) (candidates t profile boards) in
  let selected := loops.1 in
  let? _ := for_each (check_requested t firmware_type selected) (selected_components selection) in
  match selected with
  | [] => Err (NoComponents ("no firmware components found for " +++ node_type_str t +++ " (" +++
                             firmware_type +++ ")"))
  | _ => Ok selected
  end.

(** ** Rollout policies *)

Definition dot : ascii := ascii_of_N 46.

Definition version_ok (v : string) : bool :=
  let parts := split_on dot (to_chars v) in
  negb (String.eqb v "") && negb (String.eqb v "00.00.0000") && (3 <=? length parts)%nat &&
  forallb (fun part => negb (bool_decide (part = [])) && forallb is_ascii_digit part) parts.

Definition linkx_invalid (message : string) : string :=
  "incompatible firmware selection for LINKX: " +++ message.

Definition validate_linkx (p : LinkxPolicy) : result string unit :=
  if negb (version_ok (current_version p)) || negb (version_ok (target_version p))
  then Err (linkx_invalid "LinkX policy requires explicit numeric current_version and target_version")
  else if negb (String.length (policy_sha256 p) =? 64)%nat ||
          negb (all_chars Artifacts.is_ascii_hexdigit (policy_sha256 p))
  then Err (linkx_invalid "LinkX policy requires a 64-digit sha256")
  else Ok tt.

Definition linkx_policy (version : option string) (rollout : option json) : result string LinkxPolicy :=
  let? value := ok_or rollout "LINKX requires a LinkxRollout policy in the firmware manifest" in
  let? policy := map_err (fun e => "invalid LinkxRollout policy: " +++ e) (linkx_from_value value) in
  let? _ := validate_linkx policy in
  if bool_decide (version = Some (target_version policy)) then Ok policy
  else Err "LINKX Version must equal LinkxRollout.target_version".

(** ** Dell GB200: [nodes/compute_gb200_dell/mod.rs] *)

(** [Path::extension]. *)
Definition extension (path : string) : option string :=
  name ← Artifacts.file_name path;
  parts ← Artifacts.rsplit_once (to_chars name) [dot];
  match parts.1 with [] => None | _ => Some (of_chars parts.2) end.

Definition is_host_bmc (target : FirmwareTarget) : bool :=
  match extension (HardwarePlan.firmware_file target) with
  | Some e => eq_ignore_ascii_case e "ima"
  | None => false
  end ||
  match (r ← HardwarePlan.resolution target; ps ← HardwarePlan.res_oem_parameters r; ps !! "ImageType") with
  | Some (JString image_type) => eq_ignore_ascii_case image_type "BMC"
  | _ => false
  end.

Definition filename_bmc_version (filename : string) : option string :=
  name ← Artifacts.file_name filename;
  stem ← strip_suffix (to_chars (lower name)) (to_chars ".ima");
  parts ← Artifacts.rsplit_once stem (to_chars "bmcfwv");
  let version := parts.2 in
  if (length version =? 12)%nat && forallb is_ascii_digit version
  then Some (of_chars (take 2 version) +++ "." +++ of_chars (take 2 (drop 2 version)) +++ "." +++
             of_chars (drop 4 version))
  else None.

Definition expected_bmc_version (target : FirmwareTarget) : result RmsError string :=
  match trim <$> nonempty (HardwarePlan.expected_version target),
        filename_bmc_version (HardwarePlan.firmware_file target) with
  | Some declared, Some filename =>
      if String.eqb declared filename then Ok declared
      else Err (invalid_argument ("BMC manifest Version " +++ declared +++
                                  " conflicts with filename version " +++ filename))
  | Some declared, None => Ok declared
  | None, Some filename => Ok filename
  | None, None => Err (invalid_argument
      "Dell GB200 raw BMC firmware requires a manifest Version or a BmcFwV<12 digits>.ima filename")
  end.

(** [flint_family_for_target] of a target: only an unresolved one is in-band. *)
Definition is_flint_target (target : FirmwareTarget) : bool :=
  bool_decide (HardwarePlan.resolution target = None) && flint_device_family (HardwarePlan.component target).

Definition validate_dell_target (target : FirmwareTarget) : result RmsError unit :=
  if is_flint_target target || existsb (eq_ignore_ascii_case (HardwarePlan.component target)) ["BF3_BFB"; "LINKX"]
  then Err (unimplemented "in-band firmware update" (node_type_str ComputeGb200Dell))
  else if is_host_bmc target then let? _ := expected_bmc_version target in Ok tt
  else Ok tt.

(** ** The plan *)

Record PlannedTarget := mkPlannedTarget {
  planned_firmware : FirmwareTarget;
  planned_artifact : Artifact;
  planned_order : N;
}.

Record FirmwarePlan := mkFirmwarePlan {
  plan_type : NodeType;
  plan_targets : list PlannedTarget;
}.

Definition expected_version_for (t : NodeType) (s : SelectedComponent) (policy : option LinkxPolicy)
    : result PlanError (option string) :=
  let declared := nonempty (version (sel_component s)) in
  let key := target_key (sel_mapping s) in
  if bool_decide (t = ComputeGb300Supermicro) && String.eqb key "BMC" then
    let? v := ok_or declared (Invalid "Supermicro GB300 BMC requires its manifest Version") in Ok (Some v)
  else if bool_decide (t = ComputeGb200Dell) then Ok declared
  else if bool_decide (t = PowershelfVrnvl72Liteon) && String.eqb key "LiteOnPMC" then Ok declared
  else Ok (target_version <$> policy).

(** The locations of a component that can be written to the target. *)
Definition eligible (m : FirmwareManifest) (t : NodeType) (s : SelectedComponent) (l : Location) : bool :=
  payload_location m (sel_component s) l &&
  filename_allowed_with_profile t (sel_mapping s) l (sel_configured s) && has_download_location l.

Definition plan_location (m : FirmwareManifest) (t : NodeType) (revision : string) (s : SelectedComponent)
    (policy : option LinkxPolicy) (e : nat * Location) : result PlanError PlannedTarget :=
  let? artifact := map_err Invalid
    (from_location revision (location_context (sel_board s) "Firmware" (sel_index s) e.1) e.2) in
  let artifact := set_required artifact in
  let? expected := expected_version_for t s policy in
  let firmware := HardwarePlan.mkFirmwareTarget LinkxPolicy (redfish_target (sel_mapping s)) "" expected None policy in
  let? firmware := match sel_configured s with
                   | Some target => map_err (fun e => Invalid (error_message e)) (HardwarePlan.resolve_target target firmware)
                   | None => Ok firmware
                   end in
  let? _ :=
    if bool_decide (t = ComputeGb200Dell)
    then map_err (fun e => Invalid (error_message e))
           (validate_dell_target
              (HardwarePlan.mkFirmwareTarget LinkxPolicy (HardwarePlan.component firmware)
                 (ArtifactDownload.filename artifact) (HardwarePlan.expected_version firmware)
                 (HardwarePlan.resolution firmware) (HardwarePlan.linkx_policy firmware)))
    else Ok tt in
  Ok (mkPlannedTarget firmware artifact (sel_order s)).

(** One selected component; [targets_by_key] as the targets of each key. *)
Definition plan_component (m : FirmwareManifest) (t : NodeType) (revision : string)
    (targets_by_key : gmap string (list PlannedTarget)) (s : SelectedComponent)
    : result PlanError (gmap string (list PlannedTarget)) :=
  let key := target_key (sel_mapping s) in
  let? policy :=
    if String.eqb key "LINKX" then
      let? p := map_err Invalid (linkx_policy (version (sel_component s)) (linkx_rollout (sel_component s))) in
      Ok (Some p)
    else Ok None in
  let? planned := collect (plan_location m t revision s policy)
                    (filter (fun e => eligible m t s e.2 = true) (imap pair (locations (sel_component s)))) in
  Ok (<[key := default [] (targets_by_key !! key) ++ planned]> targets_by_key).

Definition check_key (t : NodeType) (firmware_type : string) (e : string * list PlannedTarget)
    : result PlanError (list PlannedTarget) :=
  let '(key, entries) := e in
  match entries with
  | [] => Err (Invalid ("no eligible firmware payload for " +++ node_type_str t +++ " " +++ key +++ " (" +++
                        firmware_type +++ ")"))
  | _ =>
      if String.eqb key "LINKX" && (1 <? length entries)%nat
      then Err (Invalid "LINKX requires exactly one eligible image per node; ambiguous payloads are not selected automatically")
      else Ok entries
  end.

(** [sort_by_key]: an insertion sort, which is stable. *)
Fixpoint insert_target (x : PlannedTarget) (l : list PlannedTarget) : list PlannedTarget :=
  match l with
  | [] => [x]
  | y :: l' => if (planned_order x <=? planned_order y)%N then x :: l else y :: insert_target x l'
  end.

Definition sort_by_order (l : list PlannedTarget) : list PlannedTarget := foldr insert_target [] l.

Definition clear_component (x : PlannedTarget) : PlannedTarget :=
  let f := planned_firmware x in
  mkPlannedTarget (HardwarePlan.mkFirmwareTarget LinkxPolicy "" (HardwarePlan.firmware_file f)
                     (HardwarePlan.expected_version f) (HardwarePlan.resolution f) (HardwarePlan.linkx_policy f))
    (planned_artifact x) (planned_order x).

(** The five targets of a VR switch are one upload when they have one artifact. *)
Definition merge_vr_switch (t : NodeType) (targets : list PlannedTarget) : list PlannedTarget :=
  match targets with
  | first :: _ =>
      if bool_decide (t = SwitchVrnvl72Nvidia) && (length targets =? 5)%nat &&
         forallb (fun x => String.eqb (ArtifactDownload.id (planned_artifact x))
                             (ArtifactDownload.id (planned_artifact first))) targets &&
         forallb (fun name => existsb (fun x => String.eqb (HardwarePlan.component (planned_firmware x)) name) targets)
           ["bmc"; "bios"; "sma"; "erot"; "cpld1"]
      then [clear_component first] else targets
  | [] => targets
  end.

Definition firmware_plan_with_profile (m : FirmwareManifest) (t : NodeType) (firmware_type : string)
    (selection : FirmwareObjectComponentSelection) (profile : option HardwareUpdatePlan)
    : result PlanError FirmwarePlan :=
  let? selected := select_components_with_profile m t firmware_type selection profile in
  let? revision := map_err Invalid (manifest_revision m) in
  let? by_key := try_fold (plan_component m t revision) ∅ selected in
  let? targets := collect (check_key t firmware_type) (entries by_key) in
  Ok (mkFirmwarePlan t (merge_vr_switch t (sort_by_order (mjoin targets)))).

(** [FirmwarePlan::resolve]; [is_file]: what is at a path is a file. *)
Definition resolve_plan_target (t : NodeType) (cache : string) (ready : gset string) (is_file : string → bool)
    (x : PlannedTarget) : result PlanError FirmwareTarget :=
  let a := planned_artifact x in
  let f := planned_firmware x in
  if decide (ArtifactDownload.id a ∈ ready) then
    let? path := map_err CacheError (cache_path a cache) in
    if is_file path then
      Ok (HardwarePlan.mkFirmwareTarget LinkxPolicy
            (if bool_decide (kind t = Powershelf) then "" else HardwarePlan.component f) path
            (HardwarePlan.expected_version f) (HardwarePlan.resolution f) (HardwarePlan.linkx_policy f))
    else Err (CacheError ("prepared firmware file " +++ path +++ " is missing"))
  else Err (CacheError ("selected artifact " +++ ArtifactDownload.artifact_context a +++ " is not available")).

Definition resolve_plan (p : FirmwarePlan) (cache : string) (ready : gset string) (is_file : string → bool)
    : result PlanError (list FirmwareTarget) :=
  collect (resolve_plan_target (plan_type p) cache ready is_file) (plan_targets p).
End Artifacts.
End FirmwarePlan.
