(* ===== verification/FirmwarePlanTheorems.v ===== *)
(** * Firmware plans: theorems

    What a request selects of a manifest is exactly what it says, and a plan writes
    only that. *)

From S2P Require Import Prelude RustStd RustStr RustBytes Json RmsError NodeTypes HardwareProfiles HardwarePlan.
From S2P Require Import Net Artifacts ArtifactDownload FirmwareManifest FirmwarePlan.
From Stdlib Require Import Ascii.
Local Open Scope string_scope.
Local Open Scope list_scope.

Module FirmwarePlanTheorems.
Import NodeTypes Net Manifest Mappings FirmwarePlan.

Section Plan.
Context `{UrlCrate} `{ManifestEnv}.

(** ** Selection *)

Section Select.
Variables (m : FirmwareManifest) (t : NodeType) (firmware_type : string).
Variables (selection : FirmwareObjectComponentSelection) (profile : option HardwareUpdatePlan).
Variable boards : list BoardSku.

Abbreviation with_profile := (bool_decide (is_Some profile)).
Abbreviation prefer_bios := (prefer_switch_bios_erot m t firmware_type boards).

Definition wanted (e : nat * nat * Component * SelectedMapping) : bool :=
  let '(_, _, c, sm) := e in applicable t selection with_profile c sm.

(** What one candidate adds to the selection. *)
Definition pick (e : nat * nat * Component * SelectedMapping) : option SelectedComponent :=
  let '(b, i, c, sm) := e in
  if wanted e && match channel m c with Some ch => same_channel ch firmware_type | None => false end
     && negb (skipped_erot t prefer_bios (mapping sm))
  then Some (mkSelectedComponent b i c (mapping sm) (configured sm) (order sm)) else None.

Definition sel_key (s : SelectedComponent) : string := target_key (sel_mapping s).

(** The boards of the keys so far. *)
Definition boards_of (tb : gmap string nat) (l : list SelectedComponent) : Prop :=
  ∀ k b, tb !! k = Some b ↔ ∃ s, s ∈ l ∧ sel_key s = k ∧ sel_board s = b.

Definition one_board (l : list SelectedComponent) : Prop :=
  ∀ s s', s ∈ l → s' ∈ l → sel_key s = sel_key s' → sel_board s = sel_board s'.

Definition has_channel (e : nat * nat * Component * SelectedMapping) : Prop :=
  wanted e = true → is_Some (channel m e.1.2).

Lemma one_board_app l k : one_board (l ++ k) → one_board l.
Proof. intros Hb s s' Hs Hs'. apply Hb; apply elem_of_app; by left. Qed.

Lemma boards_of_nil : boards_of ∅ [].
Proof. intros k b. rewrite lookup_empty. split; [done|]. by intros (s & ?%not_elem_of_nil & _). Qed.

Lemma one_board_nil : one_board [].
Proof. by intros s s' ?%not_elem_of_nil. Qed.

Lemma one_board_snoc tb l s :
  boards_of tb l → one_board l →
  one_board (l ++ [s]) ↔ (∀ b, tb !! sel_key s = Some b → b = sel_board s).
Proof.
  intros Htb Hl. split.
  - intros Hb b (s' & Hs' & Hk & <-)%Htb. symmetry. apply Hb; [set_solver..|done].
  - intros Hb s1 s2. rewrite !elem_of_app, !list_elem_of_singleton.
    intros [Hs1| ->] [Hs2| ->] Hk; [by apply Hl| | |done].
    + apply Hb, Htb. by exists s1.
    + symmetry. apply Hb, Htb. by exists s2.
Qed.

Lemma boards_of_snoc tb l s :
  boards_of tb l → one_board (l ++ [s]) → boards_of (<[sel_key s := sel_board s]> tb) (l ++ [s]).
Proof.
  intros Htb Hb k b. rewrite lookup_insert_Some. split.
  - intros [[<- <-]|[Hk (s' & Hs' & Hk' & <-)%Htb]]; [exists s|exists s']; set_solver.
  - intros (s' & Hs' & <- & <-). destruct (decide (sel_key s = sel_key s')) as [E|E].
    + left. split; [done|]. apply Hb; [set_solver|done|done].
    + right. split; [done|]. apply Htb. exists s'. split_and!; [|done..].
      apply elem_of_app in Hs' as [?| ->%list_elem_of_singleton]; done.
Qed.

Lemma select_step_spec l tb e :
  boards_of tb l → one_board l →
  match select_step m t firmware_type selection with_profile prefer_bios (l, tb) e with
  | Ok (l', tb') => has_channel e ∧ l' = l ++ option_list (pick e) ∧ boards_of tb' l' ∧ one_board l'
  | Err _ => ¬ (has_channel e ∧ one_board (l ++ option_list (pick e)))
  end.
Proof.
  intros Htb Hl. destruct e as [[[b i] c] sm]. unfold select_step, pick, has_channel, wanted.
  destruct (applicable _ _ _ _ _) eqn:Ea; simpl; [|by rewrite app_nil_r].
  destruct (channel m c) as [ch|] eqn:Ec; simpl; [|by intros [[? ?]%(λ f, f eq_refl) _]].
  destruct (same_channel ch firmware_type); simpl; [|by rewrite app_nil_r; eauto].
  destruct (skipped_erot _ _ _); simpl; [by rewrite app_nil_r; eauto|].
  set (s := mkSelectedComponent b i c (mapping sm) (configured sm) (order sm)).
  change (target_key (mapping sm)) with (sel_key s). change b with (sel_board s).
  pose proof (one_board_snoc tb l s Htb Hl) as Ho.
  destruct (tb !! sel_key s) as [previous|] eqn:Ep; [destruct (Nat.eqb_spec previous (sel_board s)) as [->|Hne]|].
  - assert (one_board (l ++ [s])) by (apply Ho; congruence). split_and!; eauto using boards_of_snoc.
  - intros [_ Hb]. by apply Hne, (proj1 Ho Hb).
  - assert (one_board (l ++ [s])) by (apply Ho; congruence). split_and!; eauto using boards_of_snoc.
Qed.

Lemma select_loop l tb cs :
  boards_of tb l → one_board l →
  match try_fold (select_step m t firmware_type selection with_profile prefer_bios) (l, tb) cs with
  | Ok r => Forall has_channel cs ∧ r.1 = l ++ omap pick cs ∧ one_board r.1
  | Err _ => ¬ (Forall has_channel cs ∧ one_board (l ++ omap pick cs))
  end.
Proof.
  revert l tb. induction cs as [|e cs IH]; intros l tb Htb Hl; cbn [try_fold omap list_omap].
  { cbn. by rewrite app_nil_r. }
  assert (∀ k, l ++ (match pick e with Some y => y :: k | None => k end) = (l ++ option_list (pick e)) ++ k) as Ek.
  { intros k. destruct (pick e); simpl; [by rewrite <- app_assoc|by rewrite app_nil_r]. }
  rewrite !Ek. pose proof (select_step_spec l tb e Htb Hl) as Hs.
  destruct (select_step _ _ _ _ _ _ _ e) as [[l' tb']|]; simpl.
  - destruct Hs as (Hc & -> & Htb' & Hl'). specialize (IH _ _ Htb' Hl').
    destruct (try_fold _ _ _) as [r|]; [destruct IH as (? & ? & ?); split_and!; try done; by constructor|].
    intros [[_ ?]%Forall_cons ?]. by apply IH.
  - intros [[? ?]%Forall_cons Ho]. apply Hs. split; [done|]. by eapply one_board_app.
Qed.
End Select.

Lemma check_requested_ok t firmware_type selected requested :
  check_requested t firmware_type selected requested = Ok tt ↔
  ∃ s, s ∈ selected ∧ requested_matches requested s = true.
Proof.
  unfold check_requested. destruct (existsb _ _) eqn:E.
  - apply existsb_exists in E as (s & Hs & Hm). split; [|done]. intros _. exists s. by rewrite list_elem_of_In.
  - split; [done|]. intros (s & Hs & Hm). apply not_true_iff_false in E. exfalso. apply E, existsb_exists.
    exists s. by rewrite <- list_elem_of_In.
Qed.

(** The selection is exact. It succeeds if and only if the manifest has one
    milestone, every component that applies names its channel, all entries for
    one key are on one board, every component of the request is found, and there
    is something to select; and the result is then every applicable component of
    the channel, in the order of the manifest, save for the EROT bundle that
    another one replaces. *)
Theorem components_selected_exactly m t firmware_type selection profile selected :
  select_components_with_profile m t firmware_type selection profile = Ok selected ↔
  ∃ boards, one_milestone m = Ok boards ∧
    selected = omap (pick m t firmware_type selection profile boards) (candidates t profile boards) ∧
    Forall (has_channel m t selection profile) (candidates t profile boards) ∧
    one_board selected ∧
    (∀ requested, requested ∈ selected_components selection →
                  ∃ s, s ∈ selected ∧ requested_matches requested s = true) ∧
    selected ≠ [].
Proof.
  unfold select_components_with_profile. destruct (one_milestone m) as [boards|]; simpl; [|naive_solver].
  assert (∀ P : list BoardSku → Prop, (∃ b, Ok (E := PlanError) boards = Ok b ∧ P b) ↔ P boards) as -> by naive_solver.
  pose proof (select_loop m t firmware_type selection profile boards [] ∅ (candidates t profile boards)
    boards_of_nil one_board_nil) as Hl.
  destruct (try_fold _ _ _) as [r|]; simpl; [|split; [done|naive_solver]].
  destruct Hl as (Hc & -> & Hb). cbn [app]. set (picked := omap _ _) in *.
  pose proof (for_each_ok (check_requested t firmware_type picked) (selected_components selection)) as Hq.
  setoid_rewrite check_requested_ok in Hq. destruct (for_each _ _) as [[]|]; simpl.
  - split; [|by intros (-> & _ & _ & _ & Hne); destruct picked].
    intros E. assert (picked = selected ∧ picked ≠ []) as [<- ?] by (destruct picked; naive_solver).
    split_and!; try done. by apply Hq.
  - split; [done|]. intros (-> & _ & _ & Hr & _). by apply Hq in Hr.
Qed.

(** ** The plan *)

(** The policy of a selected component, as the plan reads it. *)
Definition policy_of (s : SelectedComponent) : result PlanError (option LinkxPolicy) :=
  if String.eqb (sel_key s) "LINKX" then
    let? p := map_err Invalid (linkx_policy (version (sel_component s)) (linkx_rollout (sel_component s))) in
    Ok (Some p)
  else Ok None.

(** The target comes from an eligible location of the component. *)
Definition planned_from (m : FirmwareManifest) (t : NodeType) (revision : string) (s : SelectedComponent)
    (x : PlannedTarget) : Prop :=
  ∃ i l policy, locations (sel_component s) !! i = Some l ∧ eligible m t s l = true ∧
    policy_of s = Ok policy ∧ plan_location m t revision s policy (i, l) = Ok x.

Lemma elem_of_imap_pair {A} (l : list A) i x : (i, x) ∈ imap pair l ↔ l !! i = Some x.
Proof.
  rewrite elem_of_lookup_imap. split; [by intros (j & y & [= -> ->] & Hy)|]. intros Hx. by exists i, x.
Qed.

Lemma collect_elem {A B E} (f : A → result E B) l r :
  collect f l = Ok r → ∀ y, y ∈ r ↔ ∃ x, x ∈ l ∧ f x = Ok y.
Proof.
  revert r. induction l as [|a l IH]; intros r; simpl.
  { intros [= <-] y. split; [by intros ?%not_elem_of_nil|by intros (? & ?%not_elem_of_nil & _)]. }
  intros E1. bind_ok E1. injection E1 as <-. intros y. rewrite elem_of_cons, (IH _ eq_refl y). split.
  - intros [->|(x & Hx & Ey)]; [exists a|exists x]; (split; [set_solver|done]).
  - intros (x & [->|Hx]%elem_of_cons & Ey); [left; congruence|right; eauto].
Qed.

(** After the components [don]: each key has the targets of its components. *)
Definition keyed (m : FirmwareManifest) (t : NodeType) (revision : string) (don : list SelectedComponent)
    (by_key : gmap string (list PlannedTarget)) : Prop :=
  ∀ k, (is_Some (by_key !! k) ↔ ∃ s, s ∈ don ∧ sel_key s = k) ∧
       ∀ x, x ∈ default [] (by_key !! k) ↔ ∃ s, s ∈ don ∧ sel_key s = k ∧ planned_from m t revision s x.

Lemma plan_component_keyed m t revision don by_key s by_key' :
  keyed m t revision don by_key → plan_component m t revision by_key s = Ok by_key' →
  keyed m t revision (don ++ [s]) by_key'.
Proof.
  intros Hk E. unfold plan_component in E. fold (sel_key s) (policy_of s) in E. bind_ok E. injection E as <-.
  rename E0 into Ep, E1 into Ec. pose proof (collect_elem _ _ _ Ec) as Hc.
  assert (∀ x, x ∈ a0 ↔ planned_from m t revision s x) as Hs.
  { intros x. rewrite Hc. unfold planned_from. split.
    - intros ([i l] & [He Hi%elem_of_imap_pair]%list_elem_of_filter & Ex). by exists i, l, a.
    - intros (i & l & policy & Hi & He & Hp & Ex). exists (i, l). rewrite list_elem_of_filter, elem_of_imap_pair.
      split; [done|]. congruence. }
  intros k. destruct (Hk k) as [Hd Hx]. destruct (decide (k = sel_key s)) as [->|Hne].
  - rewrite lookup_insert_eq. simpl. split.
    + split; [|eauto]. intros _. exists s. set_solver.
    + intros x. rewrite elem_of_app, Hx, Hs. set_solver.
  - rewrite lookup_insert_ne by done. rewrite Hd. split.
    + set_solver.
    + intros x. rewrite Hx. split; [set_solver|].
      intros (s' & [?| ->%list_elem_of_singleton]%elem_of_app & Hk' & ?); [eauto|done].
Qed.

Lemma insert_target_perm x l : insert_target x l ≡ₚ x :: l.
Proof.
  induction l as [|y l IH]; simpl; [done|]. destruct (_ <=? _)%N; [done|]. rewrite IH. apply Permutation_swap.
Qed.

Lemma sort_by_order_perm l : sort_by_order l ≡ₚ l.
Proof. induction l as [|x l IH]; simpl; [done|]. by rewrite insert_target_perm, IH. Qed.

Definition order_le (x y : PlannedTarget) : Prop := (planned_order x ≤ planned_order y)%N.

Lemma insert_target_sorted x l : StronglySorted order_le l → StronglySorted order_le (insert_target x l).
Proof.
  induction 1 as [|y l Hl IH Hy]; simpl; [by repeat constructor|].
  destruct (N.leb_spec (planned_order x) (planned_order y)) as [Hle|Hlt].
  - constructor; [by constructor|]. constructor; [done|]. eapply Forall_impl; [exact Hy|].
    unfold order_le. intros z Hz. lia.
  - constructor; [done|]. rewrite insert_target_perm. constructor; [unfold order_le; lia|done].
Qed.

Lemma sort_by_order_sorted l : StronglySorted order_le (sort_by_order l).
Proof. induction l as [|x l IH]; simpl; [constructor|by apply insert_target_sorted]. Qed.

(** Merging keeps the artifacts. *)
Lemma merge_vr_switch_ok t l :
  (∀ x, x ∈ merge_vr_switch t l → ∃ y, y ∈ l ∧ planned_artifact x = planned_artifact y ∧
                                        planned_order x = planned_order y) ∧
  (∀ y, y ∈ l → ∃ x, x ∈ merge_vr_switch t l ∧
                     ArtifactDownload.id (planned_artifact x) = ArtifactDownload.id (planned_artifact y)) ∧
  (StronglySorted order_le l → StronglySorted order_le (merge_vr_switch t l)).
Proof.
  unfold merge_vr_switch. destruct l as [|first l]; [by split_and!; eauto|].
  destruct (_ && _ && _ && _) eqn:E; [|by split_and!; eauto].
  apply andb_true_iff in E as [[_ Hid]%andb_true_iff _]. split_and!.
  - intros x ->%list_elem_of_singleton. exists first. split_and!; [left|done..].
  - intros y Hy. exists (clear_component first). split; [by left|]. simpl.
    rewrite forallb_forall in Hid. symmetry. apply String.eqb_eq, Hid. by rewrite <- list_elem_of_In.
  - intros _. repeat constructor.
Qed.

Lemma check_key_ok t firmware_type k l r :
  check_key t firmware_type (k, l) = Ok r ↔ r = l ∧ l ≠ [] ∧ (k = "LINKX" → length l = 1).
Proof.
  unfold check_key. destruct l as [|x l]; [naive_solver|].
  destruct (String.eqb_spec k "LINKX") as [->|Hne]; simpl; [|naive_solver].
  destruct l as [|y l]; simpl; [naive_solver|]. split; [done|]. intros (_ & _ & Hl). by specialize (Hl eq_refl).
Qed.

Lemma from_location_ok revision context l a :
  from_location revision context l = Ok a →
  location l = Some (ArtifactDownload.source a) ∧ advertised_filename l = Some (ArtifactDownload.filename a) ∧
  ArtifactDownload.artifact_sha256 a = sha256 l ∧ ArtifactDownload.artifact_context a = context ∧
  is_ok (Artifacts.validate_artifact_filename (ArtifactDownload.filename a)) = true.
Proof.
  unfold from_location. intros E. bind_ok E. injection E as <-. simpl.
  assert (∀ o v e, ok_or (E := string) (nonempty o) e = Ok v → o = Some v) as Hn.
  { intros o v e. unfold nonempty. destruct o as [w|]; [|done]. destruct (is_blank w); [done|]. by intros [= ->]. }
  split_and!; eauto.
  - destruct (advertised_filename l); [|done]. simpl in E2. congruence.
  - unfold Artifacts.artifact_cache_path in E3. by destruct (Artifacts.validate_artifact_filename _).
Qed.

Lemma plan_location_ok m t revision s policy i l x :
  plan_location m t revision s policy (i, l) = Ok x →
  planned_order x = sel_order s ∧ ArtifactDownload.artifact_required (planned_artifact x) = true ∧
  location l = Some (ArtifactDownload.source (planned_artifact x)) ∧
  advertised_filename l = Some (ArtifactDownload.filename (planned_artifact x)) ∧
  ArtifactDownload.artifact_sha256 (planned_artifact x) = sha256 l.
Proof.
  unfold plan_location. intros E. bind_ok E. injection E as <-. simpl.
  destruct (from_location _ _ _) as [a'|] eqn:Ef; [|done]. simpl in E0. injection E0 as <-.
  apply from_location_ok in Ef as (? & ? & ? & _). simpl. by split_and!.
Qed.

Lemma collect_total {A B E} (f : A → result E B) l r :
  collect f l = Ok r → ∀ x, x ∈ l → ∃ y, y ∈ r ∧ f x = Ok y.
Proof.
  revert r. induction l as [|a l IH]; intros r; simpl; [by intros _ x ?%not_elem_of_nil|].
  intros E1. bind_ok E1. injection E1 as <-. intros x [->|Hx]%elem_of_cons; [exists a0; set_solver|].
  destruct (IH _ eq_refl x Hx) as (y & Hy & Ey). exists y. set_solver.
Qed.

(** The targets before they are sorted and merged. *)
Lemma plan_unmerged m t firmware_type revision selected by_key targets :
  try_fold (plan_component m t revision) ∅ selected = Ok by_key →
  collect (check_key t firmware_type) (entries by_key) = Ok targets →
  (∀ x, x ∈ mjoin targets ↔ ∃ s, s ∈ selected ∧ planned_from m t revision s x) ∧
  (∀ s, s ∈ selected → ∃ s' y, s' ∈ selected ∧ sel_key s' = sel_key s ∧ planned_from m t revision s' y) ∧
  (∀ s s' x x', s ∈ selected → s' ∈ selected → sel_key s = "LINKX" → sel_key s' = "LINKX" →
     planned_from m t revision s x → planned_from m t revision s' x' → x = x').
Proof.
  intros E1 E2. assert (keyed m t revision selected by_key) as Hk.
  { eapply (try_fold_ind _ (keyed m t revision)); [| |exact E1].
    - intros k. rewrite lookup_empty. simpl. split; [split; [by intros [? ?]|]|intros x; split].
      all: try by intros (s & ?%not_elem_of_nil & _). by intros ?%not_elem_of_nil.
    - intros don s b b' _. apply plan_component_keyed. }
  assert (∀ k l, by_key !! k = Some l → l ∈ targets ∧ l ≠ [] ∧ (k = "LINKX" → length l = 1)) as Hl.
  { intros k l Hl%entries_elem. destruct (collect_total _ _ _ E2 _ Hl) as (r & Hr & Er).
    by apply check_key_ok in Er as (-> & ? & ?). }
  assert (∀ s, s ∈ selected → ∃ l, by_key !! sel_key s = Some l ∧
            ∀ x, x ∈ l ↔ ∃ s', s' ∈ selected ∧ sel_key s' = sel_key s ∧ planned_from m t revision s' x) as Hs.
  { intros s Hs. destruct (Hk (sel_key s)) as [[_ [l El]] Hx]; [by exists s|]. exists l. by rewrite El in Hx. }
  split_and!.
  - intros x. rewrite list_elem_of_join. split.
    + intros (l & Hx & ([k l'] & He & (-> & _)%check_key_ok)%(collect_elem _ _ _ E2)).
      assert (by_key !! k = Some l') as Ek by by apply entries_elem.
      destruct (Hk k) as [_ Hkx]. rewrite Ek in Hkx. simpl in Hkx.
      destruct (proj1 (Hkx x) Hx) as (s & Hin & _ & Hp). by exists s.
    + intros (s & Hin & Hp). destruct (Hs s Hin) as (l & El & Hx). exists l.
      split; [apply Hx; eauto|by apply (Hl _ _ El)].
  - intros s Hin. destruct (Hs s Hin) as (l & El & Hx). destruct (Hl _ _ El) as (_ & Hne & _).
    destruct l as [|y l]; [done|]. destruct (proj1 (Hx y)) as (s' & ? & ? & ?); [left|]. by exists s', y.
  - intros s s' x x' Hin Hin' Ek Ek' Hp Hp'. destruct (Hs s Hin) as (l & El & Hx). rewrite Ek in *.
    destruct (Hl _ _ El) as (_ & _ & Hone). specialize (Hone eq_refl). destruct l as [|y [|]]; [done| |done].
    assert (x ∈ [y] ∧ x' ∈ [y]) as [->%list_elem_of_singleton ->%list_elem_of_singleton]; [|done].
    split; apply Hx; eauto.
Qed.

(** Every eligible location of a component that was planned is planned. *)
Lemma component_planned m t revision s b b' i l :
  plan_component m t revision b s = Ok b' → locations (sel_component s) !! i = Some l →
  eligible m t s l = true →
  ∃ y a, planned_from m t revision s y ∧
    from_location revision (location_context (sel_board s) "Firmware" (sel_index s) i) l = Ok a ∧
    ArtifactDownload.id (planned_artifact y) = ArtifactDownload.id a.
Proof.
  intros E Hi He. unfold plan_component in E. fold (sel_key s) (policy_of s) in E. bind_ok E.
  destruct (collect_total _ _ _ E1 (i, l)) as (y & _ & Ey).
  { apply list_elem_of_filter. split; [done|by apply elem_of_imap_pair]. }
  exists y. pose proof Ey as Ey'. unfold plan_location in Ey'. bind_ok Ey'. injection Ey' as <-.
  destruct (from_location _ _ _) as [a'|] eqn:Ef; [|done]. simpl in E2. injection E2 as <-. exists a'.
  split_and!; [|done|done]. by exists i, l, a.
Qed.

Lemma eligible_planned m t revision selected by_key s i l :
  try_fold (plan_component m t revision) ∅ selected = Ok by_key → s ∈ selected →
  locations (sel_component s) !! i = Some l → eligible m t s l = true →
  ∃ y a, planned_from m t revision s y ∧
    from_location revision (location_context (sel_board s) "Firmware" (sel_index s) i) l = Ok a ∧
    ArtifactDownload.id (planned_artifact y) = ArtifactDownload.id a.
Proof.
  intros E Hs Hi He.
  assert (∀ s', s' ∈ selected → ∃ b b', plan_component m t revision b s' = Ok b') as Hall.
  { eapply (try_fold_ind _ (fun don _ => ∀ s', s' ∈ don → ∃ b b', plan_component m t revision b s' = Ok b'));
      [by intros s' ?%not_elem_of_nil| |exact E].
    intros don x b b' _ IH Ex s' [?| ->%list_elem_of_singleton]%elem_of_app; eauto. }
  destruct (Hall s Hs) as (b & b' & Eb). by eapply component_planned.
Qed.

(** What the plan makes of the locations. *)
Lemma plan_targets_from m t firmware_type selection profile p :
  firmware_plan_with_profile m t firmware_type selection profile = Ok p →
  ∃ selected revision, select_components_with_profile m t firmware_type selection profile = Ok selected ∧
    manifest_revision m = Ok revision ∧ plan_type p = t ∧
    ∀ x, x ∈ plan_targets p → ∃ s l, s ∈ selected ∧ l ∈ locations (sel_component s) ∧
       eligible m t s l = true ∧ recovery_payload_location l = false ∧
       location l = Some (ArtifactDownload.source (planned_artifact x)) ∧
       advertised_filename l = Some (ArtifactDownload.filename (planned_artifact x)) ∧
       ArtifactDownload.artifact_sha256 (planned_artifact x) = sha256 l ∧
       ArtifactDownload.artifact_required (planned_artifact x) = true ∧ planned_order x = sel_order s.
Proof.
  unfold firmware_plan_with_profile. intros E. bind_ok E. injection E as <-. simpl.
  rename a into selected, a0 into revision, a1 into by_key, a2 into targets.
  destruct (plan_unmerged _ _ _ _ _ _ _ E2 E3) as (Hx & _ & _).
  destruct (merge_vr_switch_ok t (sort_by_order (mjoin targets))) as (Hm & _ & _).
  exists selected, revision. split_and!; [done|by destruct (manifest_revision m); simplify_eq/=|done|].
  intros x Hin. destruct (Hm x Hin) as (y & Hy & -> & ->). rewrite sort_by_order_perm in Hy.
  apply Hx in Hy as (s & Hsel & i & l & policy & Hi & He & _ & Ey).
  apply plan_location_ok in Ey as (Eo & Er & El & Ef & Ed). exists s, l.
  split_and!; try done; [by eapply list_elem_of_lookup_2|].
  unfold eligible, payload_location in He. by destruct (recovery_payload_location l).
Qed.


(** ** Channels *)

(** A request without a channel means the only one of the manifest: there is one
    up to case and blanks, and nothing is guessed when there are several. *)
Theorem channel_exact requested channels c :
  resolve_channel_from_values requested channels = Ok c ↔
  (is_blank requested = false ∧ c = lower (trim requested)) ∨
  (is_blank requested = true ∧
   (∃ ch, ch ∈ channels ∧ is_blank ch = false ∧ c = lower (trim ch)) ∧
   ∀ ch, ch ∈ channels → is_blank ch = false → lower (trim ch) = c).
Proof.
  unfold resolve_channel_from_values. destruct (is_blank requested); simpl; [|naive_solver].
  set (names := list_to_set _ : gset string).
  assert (∀ x, x ∈ ordered String.le names ↔ ∃ ch, ch ∈ channels ∧ is_blank ch = false ∧ x = lower (trim ch)) as Hn.
  { intros x. unfold ordered. rewrite merge_sort_Permutation, elem_of_elements. unfold names.
    rewrite elem_of_list_to_set, list_elem_of_fmap. setoid_rewrite list_elem_of_filter. naive_solver. }
  assert (NoDup (ordered String.le names)) as Hd.
  { unfold ordered. rewrite merge_sort_Permutation. apply NoDup_elements. }
  destruct (ordered String.le names) as [|x [|y l]]; split.
  - done.
  - intros [[? _]|(_ & (ch & Hc & Hb & ->) & _)]; [done|]. exfalso.
    apply (not_elem_of_nil (lower (trim ch))), Hn. eauto.
  - intros [= <-]. right. split_and!; [done|apply Hn; left|]. intros ch Hc Hb.
    apply list_elem_of_singleton, Hn. eauto.
  - intros [[? _]|(_ & Hc & _)]; [done|]. apply Hn, list_elem_of_singleton in Hc. by subst.
  - done.
  - intros [[? _]|(_ & _ & Hc)]; [done|]. exfalso. apply NoDup_cons in Hd as [Hx _]. apply Hx.
    destruct (proj1 (Hn x)) as (chx & Hx1 & Hx2 & ->); [left|].
    destruct (proj1 (Hn y)) as (chy & Hy1 & Hy2 & ->); [right; left|].
    rewrite (Hc chx), (Hc chy) by done. left.
Qed.
End Plan.

(** ** A manifest with an HMC bundle and its recovery package *)

Module PlanExample.
#[export] Instance example_urls : UrlCrate := {
  Url := unit;
  Origin := unit;
  ParseError := unit;
  url_parse _ := Err tt;
  url_join _ _ := None;
  url_scheme _ := "https";
  url_host _ := None;
  url_host_str _ := None;
  url_origin _ := tt;
  url_path _ := "/";
  url_as_str _ := "";
  url_to_file_path _ := None;
  url_without_username u := u;
  url_without_password u := u;
  url_without_query u := u;
  url_without_fragment u := u;
  host_parse _ := None;
}.

#[export] Instance example_env : ManifestEnv := {
  manifest_json m := Ok (to_chars (product_name m));
  identity_json _ context _ _ _ := Ok (to_chars context);
  sha256_hex := of_chars;
  linkx_from_value _ := Err "none";
}.

Definition package (name kind : string) : Location :=
  mkLocation (Some ("https://fw.example/" +++ name)) (Some "HTTP") None (Some kind) (Some name) None None.

Definition hmc : Component :=
  mkComponent None "HMC" (Some "1.2") (Some "Prod") None []
    [package "hmc.fwpkg" "Firmware"; package "hmc_recovery.fwpkg" "Firmware-Recovery"] [].

Definition manifest : FirmwareManifest :=
  mkManifest "GB200" [mkMilestone "m" None [mkBoardSku None "b" "Compute Node" (mkComponents [] [hmc])]].

Definition request : FirmwareObjectComponentSelection := mkSelection OnlyComponents ["HMC"].
End PlanExample.
Import PlanExample.

End FirmwarePlanTheorems.
