(* ===== verification/FirmwareRecovery.v ===== *)
(** * Images of a manifest

    The rest of [api/grpc/firmware_object_handlers/plan.rs]: what is fetched ahead
    for any platform, the image of a switch, and the two packages that the recovery
    of a compute node pushes.  Module [FirmwareRecoveryTheorems]: the packages of a
    recovery are the only ones of the manifest that they can be. *)

From S2P Require Import Prelude RustStd RustStr RustBytes Json RmsError NodeTypes HardwareProfiles HardwarePlan.
From S2P Require Import Net Artifacts ArtifactDownload FirmwareManifest FirmwarePlan FirmwarePlanTheorems.
From Stdlib Require Import Ascii.
Local Open Scope string_scope.
Local Open Scope list_scope.

Module Recovery.
Import NodeTypes Net Manifest Mappings FirmwarePlan.

Section Recovery.
Context `{UrlCrate} `{ManifestEnv}.

(** ** Images of a switch *)

Definition is_nvos (c : Component) : bool := eq_ignore_ascii_case (component c) "NVOS".

Definition switch_image_candidates (boards : list BoardSku) : list (nat * (nat * Component)) :=
  b ← imap pair boards;
  if bool_decide (lookup_key_from_board_type (board_type b.2) = Some SWITCH_LOOKUP_KEY)
  then (fun c => (b.1, c)) <$> imap pair (software (components b.2))
  else [].

Definition switch_image_component (revision software_type : string) (images : list Artifact)
    (e : nat * (nat * Component)) : result PlanError (list Artifact) :=
  let '(board_idx, (index, c)) := e in
  if negb (is_nvos c) ||
     negb (match nonempty (channel_type c) with Some ch => same_channel ch software_type | None => false end)
  then Ok images
  else
    let context := "BoardSKUs[" +++ pretty board_idx +++ "].Components.Software[" +++ pretty index +++ "]" in
    let? selected := map_err Invalid (select_nvos_location context (locations c)) in
    let? artifact := map_err Invalid
      (from_location revision (location_context board_idx "Software" index selected.1) selected.2) in
    Ok (images ++ [set_required artifact]).

Definition switch_image (m : FirmwareManifest) (software_type : string) : result PlanError Artifact :=
  let? revision := map_err Invalid (manifest_revision m) in
  let? boards := one_milestone m in
  let? images := try_fold (switch_image_component revision software_type) [] (switch_image_candidates boards) in
  match images with
  | [image] => Ok image
  | _ => Err (Invalid ("expected one NVOS image for " +++ software_type +++ "; found " +++ pretty (length images)))
  end.

(** ** What is fetched ahead *)

(** The locations of one board that are fetched, with the name of the collection. *)
Definition catalog_locations (m : FirmwareManifest) (board_idx : nat) (board : BoardSku) : list (string * Location) :=
  (c ← imap pair (firmware (components board));
   l ← imap pair (locations c.2);
   if (payload_location m c.2 l.2 || recovery_payload_location l.2) && has_download_location l.2
   then [(location_context board_idx "Firmware" c.1 l.1, l.2)] else []) ++
  (if bool_decide (lookup_key_from_board_type (board_type board) = Some SWITCH_LOOKUP_KEY)
   then c ← imap pair (software (components board));
        l ← imap pair (locations c.2);
        if is_nvos c.2 && downloadable_nvos_location l.2
        then [(location_context board_idx "Software" c.1 l.1, l.2)] else []
   else []).

Definition catalog_artifacts (m : FirmwareManifest) : result PlanError (list Artifact) :=
  let? revision := map_err Invalid (manifest_revision m) in
  let? boards := one_milestone m in
  collect (fun e => map_err Invalid (from_location revision e.1 e.2))
    (b ← imap pair boards;
     if bool_decide (lookup_key_from_board_type (board_type b.2) = None) then []
     else catalog_locations m b.1 b.2).

(** ** Recovery *)

Record RecoveryArtifacts := mkRecoveryArtifacts {
  regular : Artifact;
  recovery : Artifact;
}.

(** [RecoveryArtifacts::resolve]: the paths of the regular and the recovery package. *)
Definition resolve_path (cache : string) (ready : gset string) (is_file : string → bool) (label : string)
    (a : Artifact) : result PlanError string :=
  if decide (ArtifactDownload.id a ∈ ready) then
    let? path := map_err CacheError (cache_path a cache) in
    if is_file path then Ok path else Err (CacheError (label +++ " " +++ path +++ " is missing"))
  else Err (CacheError (label +++ " " +++ ArtifactDownload.artifact_context a +++ " is not available")).

Definition resolve_recovery (r : RecoveryArtifacts) (cache : string) (ready : gset string) (is_file : string → bool)
    : result PlanError (string * string) :=
  let? a := resolve_path cache ready is_file "regular HMC bundle" (regular r) in
  let? b := resolve_path cache ready is_file "HMC recovery package" (recovery r) in
  Ok (a, b).

(** The channels of the HMC components of the platform. *)
Definition recovery_channels (m : FirmwareManifest) (t : NodeType) (boards : list BoardSku) : gset string :=
  list_to_set
    ((fun c => lower (trim c)) <$>
       omap (channel m)
         (filter (fun c => firmware_source_component_matches (component c) RECOVERY_BUNDLE_COMPONENT = true)
            (filter (fun b => board_matches (board_type b) t = true) boards ≫= fun b => firmware (components b)))).

Definition recovery_channel (t : NodeType) (channels : gset string) : result PlanError (option string) :=
  if decide ("prod" ∈ channels) then Ok (Some "prod")
  else
    match ordered String.le channels with
    | [] => Ok None
    | [only] => Ok (Some only)
    | first :: second :: _ =>
        Err (Invalid ("recovery packages for " +++ node_type_str t +++ " span several channels (" +++ first +++
                      ", " +++ second +++ ", ...) and none is prod"))
    end.

(** The loop over the locations; the state is the regular and the recovery packages. *)
Definition recovery_location (m : FirmwareManifest) (t : NodeType) (revision : string) (s : SelectedComponent)
    (acc : list Artifact * list Artifact) (e : nat * Location) : result PlanError (list Artifact * list Artifact) :=
  let '(index, l) := e in
  let artifact := map_err Invalid (from_location revision
                    (location_context (sel_board s) "Firmware" (sel_index s) index) l) in
  if negb (has_download_location l) then Ok acc
  else if recovery_payload_location l then let? a := artifact in Ok (acc.1, acc.2 ++ [a])
  else if payload_location m (sel_component s) l && filename_allowed t (sel_mapping s) l
  then let? a := artifact in Ok (acc.1 ++ [a], acc.2)
  else Ok acc.

Definition one (t : NodeType) (channel : string) (artifacts : list Artifact) (what : string)
    : result PlanError (option Artifact) :=
  match artifacts with
  | [] => Ok None
  | [a] => Ok (Some a)
  | _ => Err (Invalid ("ambiguous " +++ what +++ " for " +++ node_type_str t +++ " (" +++ channel +++
                       ") recovery: " +++ pretty (length artifacts) +++ " candidates"))
  end.

Definition recovery_of (m : FirmwareManifest) (t : NodeType) (channel : string) (s : SelectedComponent)
    : result PlanError (option RecoveryArtifacts) :=
  let? revision := map_err Invalid (manifest_revision m) in
  let? found := try_fold (recovery_location m t revision s) ([], []) (imap pair (locations (sel_component s))) in
  let? recovery := one t channel found.2 "HMC recovery package" in
  match recovery with
  | None => Ok None
  | Some recovery =>
      let? regular := one t channel found.1 "regular HMC bundle" in
      match regular with
      | None => Err (Invalid ("no eligible regular HMC bundle for " +++ node_type_str t +++ " (" +++ channel +++
                              ") recovery"))
      | Some regular => Ok (Some (mkRecoveryArtifacts (set_required regular) (set_required recovery)))
      end
  end.

Definition recovery_artifacts (m : FirmwareManifest) (t : NodeType) : result PlanError (option RecoveryArtifacts) :=
  let? boards := one_milestone m in
  let? channel := recovery_channel t (recovery_channels m t boards) in
  match channel with
  | None => Ok None
  | Some channel =>
      match select_components_with_profile m t channel
              (mkSelection OnlyComponents [RECOVERY_BUNDLE_COMPONENT]) None with
      | Err (NoComponents _) => Ok None
      | Err error => Err error
      | Ok selected =>
          match filter (fun s => target_key (sel_mapping s) = RECOVERY_BUNDLE_COMPONENT) selected with
          | [] => Ok None
          | [s] => recovery_of m t channel s
          | _ => Err (Invalid ("ambiguous HMC components for " +++ node_type_str t +++ " (" +++ channel +++ ") recovery"))
          end
      end
  end.
End Recovery.
End Recovery.

Module FirmwareRecoveryTheorems.
Import NodeTypes Net Manifest Mappings FirmwarePlan FirmwarePlanTheorems Recovery.

Section Recovery.
Context `{UrlCrate} `{ManifestEnv}.

(** ** Recovery *)

(** The artifact is that of the location. *)
Definition artifact_of (l : Location) (a : Artifact) : Prop :=
  location l = Some (ArtifactDownload.source a) ∧ advertised_filename l = Some (ArtifactDownload.filename a) ∧
  ArtifactDownload.artifact_sha256 a = sha256 l.

Definition is_recovery (l : Location) : bool := has_download_location l && recovery_payload_location l.

Definition is_regular (m : FirmwareManifest) (t : NodeType) (s : SelectedComponent) (l : Location) : bool :=
  has_download_location l && negb (recovery_payload_location l) &&
  payload_location m (sel_component s) l && filename_allowed t (sel_mapping s) l.

Lemma recovery_loop m t revision s es acc found :
  try_fold (recovery_location m t revision s) acc es = Ok found →
  ∃ regs recs, found = (acc.1 ++ regs, acc.2 ++ recs) ∧
    Forall2 artifact_of (filter (fun l => is_regular m t s l = true) es.*2) regs ∧
    Forall2 artifact_of (filter (fun l => is_recovery l = true) es.*2) recs.
Proof.
  revert acc. induction es as [|[i l] es IH]; intros acc; cbn [try_fold].
  { intros [= <-]. exists [], []. rewrite !app_nil_r. by destruct acc. }
  intros E. bind_ok E. destruct (IH _ E) as (regs & recs & -> & Hreg & Hrec). clear E IH.
  cbn [fmap list_fmap snd]. rewrite !filter_cons. unfold recovery_location in E0.
  case_decide as Hg; case_decide as Hc; unfold is_regular in Hg; unfold is_recovery in Hc;
    destruct (has_download_location l); cbn [negb] in E0;
    destruct (recovery_payload_location l); try done;
    destruct (payload_location _ _ _); try done; destruct (filename_allowed _ _ _); try done;
    cbn [andb] in E0; try (simplify_eq/=; by eauto).
  all: bind_ok E0; destruct (from_location _ _ _) as [a'|] eqn:Ef; simplify_eq/=;
    apply from_location_ok in Ef as (? & ? & ? & _).
  all: rewrite <- ?app_assoc; simpl; eexists _, _; split; [done|]; split; try done.
  all: by constructor.
Qed.

Lemma one_ok t ch l what r : one t ch l what = Ok r → l = option_list r.
Proof. unfold one. destruct l as [|a [|]]; by intros [= <-]. Qed.

Lemma recovery_channel_ok m t boards ch :
  recovery_channel t (recovery_channels m t boards) = Ok (Some ch) →
  ch ∈ recovery_channels m t boards ∧ (ch = "prod" ∨ recovery_channels m t boards ≡ {[ch]}).
Proof.
  unfold recovery_channel. set (chs := recovery_channels m t boards).
  destruct (decide _) as [Hp|Hp]; [intros [= <-]; eauto|].
  assert (∀ x, x ∈ ordered String.le chs ↔ x ∈ chs) as Ho.
  { intros x. unfold ordered. by rewrite merge_sort_Permutation, elem_of_elements. }
  destruct (ordered String.le chs) as [|x [|]]; [done| |done]. intros [= <-].
  split; [apply Ho; by left|]. right. set_solver.
Qed.

Lemma filter_one_elem {A} (P : A → Prop) `{∀ x, Decision (P x)} l x : filter P l = [x] → x ∈ l ∧ P x.
Proof. intros E. assert (x ∈ filter P l) as [? ?]%list_elem_of_filter by (rewrite E; by left). done. Qed.

Lemma forall2_one {A B} (R : A → B → Prop) l b : Forall2 R l [b] → ∃ a, l = [a] ∧ R a b.
Proof. intros (a & l' & ? & ->%Forall2_nil_inv_r & ->)%Forall2_cons_inv_r. by exists a. Qed.

Lemma recovery_of_ok m t ch s r :
  recovery_of m t ch s = Ok (Some r) →
  ∃ reg rec, filter (fun l => is_regular m t s l = true) (locations (sel_component s)) = [reg] ∧
    filter (fun l => is_recovery l = true) (locations (sel_component s)) = [rec] ∧
    artifact_of reg (regular r) ∧ artifact_of rec (recovery r) ∧
    ArtifactDownload.artifact_required (regular r) = true ∧ ArtifactDownload.artifact_required (recovery r) = true.
Proof.
  unfold recovery_of. intros E. bind_ok E. apply recovery_loop in E1 as (regs & recs & -> & Hreg & Hrec).
  assert ((imap pair (locations (sel_component s))).*2 = locations (sel_component s)) as Ei.
  { rewrite fmap_imap. rewrite <- (list_fmap_id (locations _)) at 2. rewrite <- imap_const. by apply imap_ext. }
  rewrite Ei in Hreg, Hrec. apply one_ok in E2. simpl in E2. subst recs.
  destruct a1 as [rec|]; [|done]. bind_ok E. apply one_ok in E1. simpl in E1. subst regs.
  destruct a0 as [reg|]; [|done]. injection E as <-.
  apply forall2_one in Hreg as (lreg & ? & ?), Hrec as (lrec & ? & ?). by exists lreg, lrec.
Qed.

(** The packages of a recovery are unambiguous. Both are of one HMC component
    of the node's platform, the only one selected in the channel; the channel is
    that of production, or else the only one of the HMC components. The recovery
    package is the only one of the component and the regular bundle is the only
    eligible one, it is not a recovery package, and both are required. *)
Theorem recovery_unambiguous m t r :
  recovery_artifacts m t = Ok (Some r) →
  ∃ boards ch selected s reg rec,
    one_milestone m = Ok boards ∧ ch ∈ recovery_channels m t boards ∧
    (ch = "prod" ∨ recovery_channels m t boards ≡ {[ch]}) ∧
    select_components_with_profile m t ch (mkSelection OnlyComponents [RECOVERY_BUNDLE_COMPONENT]) None = Ok selected ∧
    filter (fun s => target_key (sel_mapping s) = RECOVERY_BUNDLE_COMPONENT) selected = [s] ∧
    filter (fun l => is_recovery l = true) (locations (sel_component s)) = [rec] ∧
    filter (fun l => is_regular m t s l = true) (locations (sel_component s)) = [reg] ∧
    artifact_of rec (recovery r) ∧ artifact_of reg (regular r) ∧
    recovery_payload_location rec = true ∧ recovery_payload_location reg = false ∧
    ArtifactDownload.artifact_required (recovery r) = true ∧ ArtifactDownload.artifact_required (regular r) = true.
Proof.
  unfold recovery_artifacts. intros E. bind_ok E. rename a into boards.
  destruct a0 as [ch|]; [|done]. apply recovery_channel_ok in E1 as [Hch Honly].
  destruct (select_components_with_profile _ _ _ _ _) as [selected|[]] eqn:Es; try done.
  destruct (filter _ selected) as [|s [|]] eqn:Ef; try done.
  apply recovery_of_ok in E as (reg & rec & Hreg & Hrec & ? & ? & ? & ?).
  exists boards, ch, selected, s, reg, rec. split_and!; try done.
  - apply filter_one_elem in Hrec as [_ Hr]. unfold is_recovery in Hr. by destruct (recovery_payload_location rec), (has_download_location rec).
  - apply filter_one_elem in Hreg as [_ Hr]. unfold is_regular in Hr.
    by destruct (recovery_payload_location reg), (has_download_location reg).
Qed.
End Recovery.
Import PlanExample.

Lemma recovery_unambiguous_witness :
  ∃ r, recovery_artifacts manifest ComputeGb200Nvidia = Ok (Some r) ∧
    ArtifactDownload.filename (regular r) = "hmc.fwpkg" ∧
    ArtifactDownload.filename (recovery r) = "hmc_recovery.fwpkg" ∧
    ArtifactDownload.artifact_required (recovery r) = true.
Proof.
  destruct (recovery_artifacts manifest ComputeGb200Nvidia)
    as [[r|]|e] eqn:E; [|vm_compute in E; discriminate E..].
  exists r. split; [reflexivity|]. pose proof E as E'. vm_compute in E'. injection E' as <-.
  split; [reflexivity|]. split; [reflexivity|].
  destruct (recovery_unambiguous _ _ _ E) as (? & ? & ? & ? & ? & ? & _ & _ & _ & _ & _ & _ & _ & _ & _ & _ & _ & Hr & _).
  exact Hr.
Defined.
End FirmwareRecoveryTheorems.
