(* ===== verification/FirmwareCompare.v ===== *)
(** * Comparison with a manifest

    The versions that a manifest expects on a node
    ([api/grpc/firmware_object_handlers/plan.rs]) and their comparison with the
    inventory of the node ([api/grpc/firmware_object_handlers.rs]), down to the
    normalised names of components and the versions of CPLDs of
    [rust_nvfwupd/src/workflow_api.rs].  Then the comparison of a request: what is
    prepared for each node, and the response, whose [u32] counters wrap as in a
    release build.  What builds a node, and what the nodes answer, are parameters.

    Module [FirmwareCompareTheorems]: a manifest matches a node exactly when all that
    it expects is verified, and a response says that all match exactly when every
    node of the request was compared and matches. *)

From S2P Require Import Prelude RustStd RustStr RustBytes Json RmsError NodeTypes HardwareProfiles HardwarePlan.
From S2P Require Import RequestMessages NodeSelector.
From S2P Require Import Net Artifacts FirmwareManifest FirmwarePlan FirmwarePlanTheorems.
From Stdlib Require Import Ascii.
Local Open Scope string_scope.
Local Open Scope list_scope.

Module Compare.
Import NodeTypes Net Manifest Mappings FirmwarePlan.

(** ** Names *)

Definition normalized_firmware_identity (value : string) : string :=
  of_chars (ascii_lower <$> filter (fun c => is_ascii_alphanumeric c = true) (to_chars value)).

(** [value.split(d).next()] *)
Definition before (d : ascii) (l : chars) : chars := match split_on d l with x :: _ => x | [] => l end.

Definition base_name (component : string) : string :=
  of_chars (before (ascii_of_N 58) (before (ascii_of_N 44) (to_chars component))).

(** The first of the prefixes is taken off. *)
Fixpoint strip_first (prefixes : list string) (l : chars) : chars :=
  match prefixes with
  | [] => l
  | p :: prefixes => match strip_prefix l (to_chars p) with Some rest => rest | None => strip_first prefixes l end
  end.

Definition INSTANCE_PREFIXES : list string :=
  ["pcieswitchconfig"; "inforomgpu"; "erotfpga"; "erotbmc"; "erotcpu"; "hgxbmc"; "fpga"; "cpld"; "bmc"; "hmc";
   "cpu"; "gpu"].

Definition firmware_component_instance_identity (component : string) : option string :=
  let normalized := strip_first ["hgxfw"; "hgx"; "mgxfw"; "mgx"; "fw"]
                      (to_chars (normalized_firmware_identity (base_name component))) in
  find_map (fun prefix =>
              instance ← strip_prefix normalized (to_chars prefix);
              if negb (bool_decide (instance = [])) && forallb is_ascii_digit instance
              then Some (prefix +++ of_chars instance) else None) INSTANCE_PREFIXES.

Definition firmware_component_instances_match (component candidate : string) : bool :=
  match firmware_component_instance_identity component, firmware_component_instance_identity candidate with
  | Some a, Some b => String.eqb a b
  | Some _, None => false
  | None, _ => true
  end.

Definition normalized_component_category (component : string) (hgx_component : bool) : string :=
  let n := normalized_firmware_identity component in
  let has := has_infix n in
  if has "inforom" then "inforom"
  else if has "erot" then "erot"
  else if has "smr" || has "fpga" then "fpga"
  else if has "cpld" then "cpld"
  else if has "sbios" || has "bios" || has "cpu" then "sbios"
  else if has "hmc" || (hgx_component && has "bmc") then "hmc"
  else if has "bmc" then "bmc"
  else if starts_with (to_chars n) (to_chars "nvswitchsma") || String.eqb n "sma" then "sma"
  else if has "gpu" && negb (has "sma") then "gpu"
  else if has "pcie" then "pcieswitch"
  else if has "cx7" then "cx7"
  else if has "cx8" then "cx8"
  else if has "bf3" || has "bluefield3" then "bf3nic"
  else if has "pmc" then "pmc"
  else if has "psu" then "psu"
  else n.

Definition normalized_manifest_component (component : string) : string :=
  normalized_component_category (base_name component) false.

Definition normalized_inventory_component (component : string) : string :=
  let n := to_chars (normalized_firmware_identity component) in
  normalized_component_category (of_chars (strip_first ["mgxfw"; "mgx"; "hgxfw"; "hgx"] n))
    (starts_with n (to_chars "hgx")).

Definition manifest_component_matches_target (component target_key : string) : bool :=
  String.eqb (normalized_manifest_component component) (normalized_manifest_component target_key) &&
  firmware_component_instances_match component target_key.

Definition is_flint_manifest_component (component : string) : bool :=
  contains ["cx7"; "cx8"; "bf3nic"; "linkx"] (normalized_manifest_component component).

(** ** Versions *)

Definition firmware_versions_match (installed proposed : string) : bool :=
  eq_ignore_ascii_case (trim installed) (trim proposed).

(** [GB200SwitchRFTarget::normalize_inventory_component] *)
Definition normalize_switch_component (ap_name : string) : string :=
  let path := trim_end (is_char slash) (to_chars ap_name) in
  let l := of_chars (default path (last (split_on slash path))) in
  let name := of_chars (strip_first ["mgx_fw_"; "hgx_fw_"; "fw_"] (to_chars (lower l))) in
  default
    (match strip_prefix (to_chars name) (to_chars "nvswitch_sma_") with
     | Some index => if negb (bool_decide (index = [])) && forallb is_ascii_digit index then "sma" else name
     | None => name
     end)
    (match_str name [("bmc_0", "bmc"); ("cpu_0", "bios"); ("sbios_0", "bios"); ("sbios", "bios"); ("fpga_0", "fpga");
                     ("smr", "fpga"); ("cpld_0", "cpld")]).

(** A part of a CPLD version: zero padding does not count. *)
Definition normalize_cpld_part (part : chars) : string :=
  let '(prefix, digits) := match strip_prefix part (to_chars "rev") with
                           | Some v => ("rev", v)
                           | None => ("", part)
                           end in
  if negb (bool_decide (digits = [])) && forallb is_ascii_digit digits
  then prefix +++ match parse_u64 (of_chars digits) with Some n => pretty n | None => of_chars digits end
  else of_chars part.

Definition normalize_cpld (version : string) : list string :=
  normalize_cpld_part <$> split_on underscore (to_chars (replace "cpld" "" (lower (trim version)))).

Definition switch_firmware_versions_match (component left right : string) : bool :=
  if starts_with (to_chars (normalize_switch_component component)) (to_chars "cpld")
  then bool_decide (normalize_cpld left = normalize_cpld right)
  else eq_ignore_ascii_case (trim left) (trim right).

(** ** What is expected *)

Record FirmwareManifestExpectation := mkExpectation {
  exp_component : string;
  exp_version : string;
  exp_target : string;
  exp_sku_id : string;
}.

Section Expectations.
Context `{UrlCrate} `{ManifestEnv}.

Definition proposed (s : SelectedComponent) : list FirmwareManifestExpectation :=
  let c := sel_component s in
  let m := sel_mapping s in
  match filter (fun sub => is_blank (sub_version sub) = false) (subcomponents c) with
  | [] =>
      match nonempty (version c) with
      | Some v => [mkExpectation (target_key m) (trim v) (redfish_target m) ""]
      | None => []
      end
  | subs =>
      (fun sub => mkExpectation (sub_component sub) (trim (sub_version sub)) (redfish_target m)
                    (default "" (sub_sku_id sub))) <$>
        filter (fun sub => eq_ignore_ascii_case (target_key m) (component c) ||
                           manifest_component_matches_target (sub_component sub) (target_key m) = true) subs
  end.

Definition destinations (s : SelectedComponent) : list string :=
  match HardwarePlan.request_target_selection <$> sel_configured s with
  | Some (HardwarePlan.Multipart ((_ :: _) as paths)) => paths
  | _ => [redfish_target (sel_mapping s)]
  end.

Definition at_target (e : FirmwareManifestExpectation) (target : string) : FirmwareManifestExpectation :=
  mkExpectation (exp_component e) (exp_version e) target (exp_sku_id e).

Definition ExpectationKey : Type := string * string * string.

Definition expectation_key (e : FirmwareManifestExpectation) : ExpectationKey :=
  (normalized_firmware_identity (exp_component e), normalized_firmware_identity (exp_sku_id e),
   normalized_firmware_identity (exp_target e)).

Definition expectation_step (acc : gmap ExpectationKey FirmwareManifestExpectation)
    (e : FirmwareManifestExpectation) : result PlanError (gmap ExpectationKey FirmwareManifestExpectation) :=
  match acc !! expectation_key e with
  | Some existing =>
      if firmware_versions_match (exp_version existing) (exp_version e) then Ok acc
      else Err (Invalid ("firmware manifest has conflicting versions for component " +++ exp_component e +++ ": " +++
                         exp_version existing +++ " and " +++ exp_version e))
  | None => Ok (<[expectation_key e := e]> acc)
  end.

(** The order of the keys of the [BTreeMap]. *)
Definition key_lt (a b : ExpectationKey) : bool :=
  match String.compare a.1.1 b.1.1 with
  | Lt => true
  | Gt => false
  | Eq => match String.compare a.1.2 b.1.2 with
          | Lt => true
          | Gt => false
          | Eq => match String.compare a.2 b.2 with Lt => true | _ => false end
          end
  end.

Definition expectation_le (a b : ExpectationKey * FirmwareManifestExpectation) : Prop := key_lt b.1 a.1 = false.
#[global] Instance expectation_le_dec a b : Decision (expectation_le a b).
Proof. unfold expectation_le. apply _. Defined.

Definition all_expectations (selected : list SelectedComponent) : list FirmwareManifestExpectation :=
  s ← selected; e ← proposed s; at_target e <$> destinations s.

Definition expectations_with_profile (m : FirmwareManifest) (t : NodeType) (firmware_type : string)
    (selection : FirmwareObjectComponentSelection) (profile : option HardwareUpdatePlan)
    : result PlanError (list FirmwareManifestExpectation) :=
  let? selected := select_components_with_profile m t firmware_type selection profile in
  let? found := try_fold expectation_step ∅ (all_expectations selected) in
  match (merge_sort expectation_le (map_to_list found)).*2 with
  | [] => Err (Invalid ("no comparable firmware versions found in manifest for node type " +++ node_type_str t +++
                        " (" +++ firmware_type +++ ")"))
  | es => Ok es
  end.
End Expectations.

(** ** Comparison *)

(** The fields of [FirmwareInfo] that are compared. *)
Record FirmwareInfo := mkFirmwareInfo {
  info_name : string;
  info_version : string;
  info_target : string;
  info_sku : string;
}.

Inductive FirmwareComparisonStatus := Matched | Mismatched | Missing | Unverified.

#[global] Instance FirmwareComparisonStatus_eq_dec : EqDecision FirmwareComparisonStatus.
Proof. solve_decision. Defined.

Record ComponentComparison := mkComparison {
  cmp_component : string;
  cmp_installed_component : string;
  cmp_installed_version : string;
  cmp_proposed_version : string;
  cmp_status : FirmwareComparisonStatus;
  cmp_target : string;
  cmp_reason : string;
  cmp_sku_id : string;
}.

Definition is_firmware_inventory_resource (target : string) : bool :=
  has_infix (lower target) "/updateservice/firmwareinventory/".

(** The name of the component is that of the inventory. *)
Definition same_component (e : FirmwareManifestExpectation) (name : string) : bool :=
  String.eqb (normalized_manifest_component (exp_component e)) (normalized_inventory_component name) &&
  firmware_component_instances_match (exp_component e) name.

Definition firmware_inventory_matches_expectation (installed : FirmwareInfo) (e : FirmwareManifestExpectation)
    : bool :=
  let by_name := same_component e (info_name installed) ||
                 same_component e (of_chars (default [] (last (split_on slash (to_chars (info_target installed)))))) in
  if is_blank (exp_target e) then by_name
  else if eq_ignore_ascii_case (info_target installed) (exp_target e) then true
  else if negb (is_blank (info_target installed)) && is_firmware_inventory_resource (exp_target e) then false
  else by_name.

Definition sorted_dedup (l : list string) : list string := dedup (sort_keys l).

(** The texts of the installed names and versions.  The entries were sorted before,
    which does not show here. *)
Definition installed_fields (candidates : list FirmwareInfo) : string * string :=
  (join_str ", " (sorted_dedup (info_name <$> candidates)),
   join_str ", " (sorted_dedup ((fun i => trim (info_version i)) <$> candidates))).

(** Which of the entries with the name are compared, or why none is. *)
Definition sku_candidates (e : FirmwareManifestExpectation) (identity_candidates : list FirmwareInfo)
    : result (FirmwareComparisonStatus * string * list FirmwareInfo) (list FirmwareInfo) :=
  if is_blank (exp_sku_id e) then Ok identity_candidates
  else
    let expected_sku := normalized_firmware_identity (exp_sku_id e) in
    match filter (fun i => negb (is_blank (info_sku i)) &&
                           String.eqb (normalized_firmware_identity (info_sku i)) expected_sku = true)
            identity_candidates with
    | (_ :: _) as matches => Ok matches
    | [] =>
        match filter (fun i => is_blank (info_sku i) = true) identity_candidates with
        | (_ :: _) as unreported =>
            Err (Unverified, "installed firmware inventory did not report the SKU needed to verify " +++ exp_sku_id e,
                 unreported)
        | [] => Err (Missing, "component with SKU " +++ exp_sku_id e +++
                              " was not found in installed firmware inventory", [])
        end
    end.

Definition versions_equal (t : NodeType) (e : FirmwareManifestExpectation) (i : FirmwareInfo) : bool :=
  if bool_decide (t = SwitchVrnvl72Nvidia) && String.eqb (normalized_manifest_component (exp_component e)) "cpld"
  then switch_firmware_versions_match (exp_component e) (info_version i) (exp_version e)
  else firmware_versions_match (info_version i) (exp_version e).

Definition compare_firmware_object_component (t : NodeType) (e : FirmwareManifestExpectation)
    (inventory : list FirmwareInfo) : ComponentComparison :=
  let comparison fields status reason :=
    mkComparison (exp_component e) fields.1 fields.2 (exp_version e) status (exp_target e) reason (exp_sku_id e) in
  match filter (fun i => firmware_inventory_matches_expectation i e = true) inventory with
  | [] =>
      if is_flint_manifest_component (exp_component e)
      then comparison ("", "") Unverified
             "host-side Flint inventory is not included in the node firmware inventory query"
      else comparison ("", "") Missing "component was not found in installed firmware inventory"
  | identity_candidates =>
      match sku_candidates e identity_candidates with
      | Err (status, reason, candidates) =>
          comparison (match candidates with [] => ("", "") | _ => installed_fields candidates end) status reason
      | Ok candidates =>
          let fields := installed_fields candidates in
          if existsb (fun i => is_blank (info_version i)) candidates
          then comparison fields Unverified "installed firmware inventory did not report a version"
          else if forallb (versions_equal t e) candidates then comparison fields Matched ""
          else comparison fields Mismatched "installed version differs from proposed manifest"
      end
  end.

Record NodeComparison := mkNodeComparison {
  cmp_node_id : string;
  matches_manifest : bool;
  cmp_components : list ComponentComparison;
}.

Definition compare_firmware_object_for_node (node_id : string) (t : NodeType)
    (expectations : list FirmwareManifestExpectation) (inventory : list FirmwareInfo) : NodeComparison :=
  let components := (fun e => compare_firmware_object_component t e inventory) <$> expectations in
  mkNodeComparison node_id
    (match components with [] => false | _ => forallb (fun c => bool_decide (cmp_status c = Matched)) components end)
    components.

(** ** The response *)

Record ComparisonResponse := mkComparisonResponse {
  success : bool;
  response_message : string;
  node_results : list (string * result string unit);
  total_nodes : N;
  successful_nodes : N;
  failed_nodes : N;
  all_match : bool;
  compared_nodes : list NodeComparison;
}.

(** The index of the node in the request, its ID and what came of it. *)
Definition Outcome : Type := nat * string * result string NodeComparison.

Definition outcome_le (a b : Outcome) : Prop := (a.1.1 ≤ b.1.1)%nat.
#[global] Instance outcome_le_dec a b : Decision (outcome_le a b) := decide (a.1.1 ≤ b.1.1)%nat.

(** [as u32] and [u32] addition *)
Definition wrap_u32 (n : N) : N := (n mod 2 ^ 32)%N.

(** What the loop over the outcomes collects. *)
Record Tally := mkTally {
  tally_results : list (string * result string unit);
  tally_nodes : list NodeComparison;
  tally_successful : N;
  tally_failed : N;
}.

Definition tally_outcome (t : Tally) (o : Outcome) : Tally :=
  match o.2 with
  | Ok comparison =>
      mkTally (tally_results t ++ [(o.1.2, Ok tt)]) (tally_nodes t ++ [comparison])
        (wrap_u32 (tally_successful t + 1)) (tally_failed t)
  | Err error_message =>
      mkTally (tally_results t ++ [(o.1.2, Err error_message)]) (tally_nodes t)
        (tally_successful t) (wrap_u32 (tally_failed t + 1))
  end.

Definition build_firmware_comparison_response (nodes : nat) (outcomes : list Outcome) : ComparisonResponse :=
  let t := foldl tally_outcome (mkTally [] [] 0 0) (merge_sort outcome_le outcomes) in
  let successful := tally_successful t in
  let failed := tally_failed t in
  let total := wrap_u32 (N.of_nat nodes) in
  if (total =? 0)%N
  then mkComparisonResponse false "No nodes specified in request" (tally_results t) total successful failed false
         (tally_nodes t)
  else
    let matching := pretty (wrap_u32 (N.of_nat (length (filter (fun n => matches_manifest n = true) (tally_nodes t))))) in
    mkComparisonResponse (failed =? 0)%N
      (if (failed =? 0)%N
       then "Firmware manifest compared for " +++ pretty successful +++ "/" +++ pretty total +++ " nodes; " +++
            matching +++ " match"
       else "Firmware manifest comparison completed with " +++ pretty successful +++ " successes and " +++
            pretty failed +++ " failures out of " +++ pretty total +++ " nodes; " +++ matching +++ " match")
      (tally_results t) total successful failed
      ((failed =? 0)%N && (successful =? total)%N && forallb matches_manifest (tally_nodes t)) (tally_nodes t).

(** ** The request *)

(** [PreparedFirmwareComparison], with the type of its node in place of the node. *)
Record PreparedFirmwareComparison := mkPrepared {
  prep_index : nat;
  prep_node_id : string;
  prep_type : NodeType;
  prep_expectations : list FirmwareManifestExpectation;
}.

Section Request.
Context `{UrlCrate} `{ManifestEnv}.
Variables (m : FirmwareManifest) (component_filters : gmap NodeType (list string)) (firmware_type : string).
Variables embedded profiles : HardwarePlan.HardwareProfileCatalog.

(** [build_ephemeral_inventory_node], and what the node of an index in the request
    answers: [initialize_nvue_client] and [get_firmware_inventory]. *)
Variable build_ephemeral_inventory_node : Pb.NodeInfo → NodeType → result string unit.
Variable initialize_nvue_client : nat → result string unit.
Variable get_firmware_inventory : nat → result string (list FirmwareInfo).

(** The body of the loop of [prepare_firmware_comparisons]. *)
Definition prepare_comparison (e : nat * Pb.NodeInfo) : result string PreparedFirmwareComparison :=
  let '(index, node_info) := e in
  let? t := map_err NodeSelector.resolution_error_display (NodeSelector.resolve_node_info node_info) in
  let? selection := selection_for_node_type (map_to_list component_filters) [] t in
  let? selection := ok_or selection ("node type " +++ node_type_str t +++ " is excluded by component filters") in
  let? expectations := map_err plan_error_text
    (expectations_with_profile m t firmware_type selection (HardwarePlan.request_profile embedded profiles t)) in
  let? _ := build_ephemeral_inventory_node node_info t in
  Ok (mkPrepared index (Pb.ni_node_id node_info) t expectations).

Definition prepare_firmware_comparisons (nodes : list Pb.NodeInfo) : list Outcome * list PreparedFirmwareComparison :=
  foldl (fun acc e =>
           match prepare_comparison e with
           | Ok prepared => (acc.1, acc.2 ++ [prepared])
           | Err error => (acc.1 ++ [(e.1, Pb.ni_node_id e.2, Err error)], acc.2)
           end) ([], []) (enumerate nodes).

(** The future of one node in [fetch_firmware_comparison_outcomes]. *)
Definition fetch_outcome (p : PreparedFirmwareComparison) : Outcome :=
  (prep_index p, prep_node_id p,
   let? _ := if bool_decide (prep_type p = SwitchVrnvl72Nvidia) then Ok tt else initialize_nvue_client (prep_index p) in
   let? inventory := get_firmware_inventory (prep_index p) in
   Ok (compare_firmware_object_for_node (prep_node_id p) (prep_type p) (prep_expectations p) inventory)).

(** The response to a request, given the outcomes that were fetched, in the order in
    which the nodes answered. *)
Definition compare_response (nodes : list Pb.NodeInfo) (fetched : list Outcome) : ComparisonResponse :=
  build_firmware_comparison_response (length nodes) ((prepare_firmware_comparisons nodes).1 ++ fetched).
End Request.
End Compare.

Module FirmwareCompareTheorems.
Import NodeTypes Net Manifest Mappings FirmwarePlan Compare.

(** ** One component *)

(** The entries of the inventory that an expectation is about. *)
Definition about (e : FirmwareManifestExpectation) (inventory : list FirmwareInfo) : list FirmwareInfo :=
  filter (fun i => firmware_inventory_matches_expectation i e = true ∧
                   (is_blank (exp_sku_id e) = true ∨
                    (is_blank (info_sku i) = false ∧
                     normalized_firmware_identity (info_sku i) = normalized_firmware_identity (exp_sku_id e))))
    inventory.

Definition reported (l : list FirmwareInfo) : Prop := l ≠ [] ∧ ∀ i, i ∈ l → is_blank (info_version i) = false.

Lemma sku_candidates_about e inventory :
  let found := filter (fun i => firmware_inventory_matches_expectation i e = true) inventory in
  found ≠ [] →
  match sku_candidates e found with
  | Ok l => l = about e inventory ∧ l ≠ []
  | Err (status, _, _) => about e inventory = [] ∧ (status = Missing ∨ status = Unverified)
  end.
Proof.
  intros found Hne. unfold sku_candidates. destruct (is_blank (exp_sku_id e)) eqn:Eb.
  { split; [|done]. apply list_filter_iff. naive_solver. }
  set (sku := fun i => negb (is_blank (info_sku i)) &&
                  String.eqb (normalized_firmware_identity (info_sku i))
                    (normalized_firmware_identity (exp_sku_id e)) = true).
  assert (filter sku found = about e inventory) as Ea.
  { unfold found. rewrite list_filter_filter. apply list_filter_iff. intros i. unfold sku.
    rewrite andb_true_iff, negb_true_iff, String.eqb_eq, Eb. intuition congruence. }
  rewrite Ea. destruct (about e inventory) as [|x l]; [|done].
  destruct (filter (fun i => is_blank (info_sku i) = true) found); simpl; auto.
Qed.

Lemma about_nil e inventory :
  filter (fun i => firmware_inventory_matches_expectation i e = true) inventory = [] → about e inventory = [].
Proof.
  intros Ef. apply elem_of_nil_inv. intros y [[Hm _] Hy]%list_elem_of_filter.
  apply (not_elem_of_nil y). rewrite <- Ef. by apply list_elem_of_filter.
Qed.

Lemma existsb_none {A} (f : A → bool) l : existsb f l = false ↔ ∀ x, x ∈ l → f x = false.
Proof.
  rewrite <- not_true_iff_false, existsb_exists. setoid_rewrite <- list_elem_of_In.
  setoid_rewrite <- not_true_iff_false. naive_solver.
Qed.

Lemma forallb_elem {A} (f : A → bool) l : forallb f l = true ↔ ∀ x, x ∈ l → f x = true.
Proof. rewrite forallb_forall. by setoid_rewrite <- list_elem_of_In. Qed.

Lemma forallb_false {A} (f : A → bool) l : forallb f l = false ↔ ∃ x, x ∈ l ∧ f x = false.
Proof.
  induction l as [|x l IH]; simpl; [split; [done|by intros (? & ?%not_elem_of_nil & _)]|].
  rewrite andb_false_iff, IH. setoid_rewrite elem_of_cons. naive_solver.
Qed.

(** The status of a component. *)
Lemma status_exact t e inventory :
  let status := cmp_status (compare_firmware_object_component t e inventory) in
  let l := about e inventory in
  (status = Matched ↔ reported l ∧ ∀ i, i ∈ l → versions_equal t e i = true) ∧
  (status = Mismatched ↔ reported l ∧ ∃ i, i ∈ l ∧ versions_equal t e i = false).
Proof.
  simpl. unfold compare_firmware_object_component. pose proof (sku_candidates_about e inventory) as Hs.
  assert (about e inventory = [] → ¬ reported (about e inventory)) as Hnil by (intros E [? _]; done).
  pose proof (about_nil e inventory) as Ha. simpl in Hs. destruct (filter _ inventory) as [|x l].
  { specialize (Hnil (Ha eq_refl)). destruct (is_flint_manifest_component _); simpl; intuition congruence. }
  specialize (Hs ltac:(done)). destruct (sku_candidates e (x :: l)) as [cs|[[status reason] cs]].
  - destruct Hs as [-> Hne]. destruct (existsb _ _) eqn:Ex.
    { assert (¬ reported (about e inventory)) as Hr.
      { intros [_ Hr]. apply existsb_exists in Ex as (i & Hi & Eb). apply list_elem_of_In, Hr in Hi. congruence. }
      simpl. intuition congruence. }
    assert (reported (about e inventory)) by (split; [done|by apply existsb_none]).
    rewrite <- forallb_elem, <- forallb_false. destruct (forallb _ _); simpl; intuition congruence.
  - destruct Hs as [He [-> | ->]]; specialize (Hnil He); simpl; intuition congruence.
Qed.

(** A match is verified. A node matches a manifest if and only if something is
    expected of it and every expectation has entries in the inventory of the node,
    of its SKU when it names one, all of which report the version that is expected:
    a component that is missing, not reported or not verifiable never matches. *)
Theorem match_verified node_id t expectations inventory :
  matches_manifest (compare_firmware_object_for_node node_id t expectations inventory) = true ↔
  expectations ≠ [] ∧
  ∀ e, e ∈ expectations → about e inventory ≠ [] ∧
    ∀ i, i ∈ about e inventory → is_blank (info_version i) = false ∧ versions_equal t e i = true.
Proof.
  unfold compare_firmware_object_for_node. simpl. destruct expectations as [|e0 es]; [by split; [|intros [? _]]|].
  set (expectations := e0 :: es). trans (∀ e, e ∈ expectations →
    cmp_status (compare_firmware_object_component t e inventory) = Matched).
  - change (forallb (fun c => bool_decide (cmp_status c = Matched))
      ((fun e => compare_firmware_object_component t e inventory) <$> expectations) = true ↔
      ∀ e, e ∈ expectations → cmp_status (compare_firmware_object_component t e inventory) = Matched).
    rewrite forallb_elem. setoid_rewrite list_elem_of_fmap. setoid_rewrite bool_decide_eq_true. naive_solver.
  - split.
    + intros Hm. split; [done|]. intros e [[Hne Hr] Hv]%Hm%status_exact. split; [done|]. intros i Hi. eauto.
    + intros [_ Hv] e He. apply status_exact. destruct (Hv e He) as [Hne Hi]. repeat split; [done|..];
        intros i ?; by apply Hi.
Qed.

(** ** The response *)

#[global] Instance outcome_le_trans : Transitive outcome_le.
Proof. intros a b c. unfold outcome_le. lia. Qed.

#[global] Instance outcome_le_total : Total outcome_le.
Proof. intros a b. unfold outcome_le. lia. Qed.

Definition compared (o : Outcome) : option NodeComparison := match o.2 with Ok c => Some c | Err _ => None end.
Definition result_of (o : Outcome) : string * result string unit :=
  (o.1.2, match o.2 with Ok _ => Ok tt | Err e => Err e end).
Definition matching (o : Outcome) : Prop := ∃ c, o.2 = Ok c ∧ matches_manifest c = true.

Lemma omap_length {A B} (f : A → option B) l :
  (length (omap f l) ≤ length l)%nat ∧ (length (omap f l) = length l ↔ ∀ x, x ∈ l → is_Some (f x)).
Proof.
  induction l as [|x l [IH IH']]; cbn [omap list_omap].
  { simpl. split; [lia|]. split; [by intros _ x ?%not_elem_of_nil|done]. }
  split; [destruct (f x); simpl; lia|]. setoid_rewrite elem_of_cons. destruct (f x) as [y|] eqn:E; simpl.
  - rewrite Nat.succ_inj_wd, IH'. split; [intros Ha z [->|]; eauto|eauto].
  - split; [lia|]. intros Ha. destruct (Ha x) as [? ?]; [by left|congruence].
Qed.

(** Below [2 ^ 32] outcomes the counters are exact. *)
Lemma tally_spec l r n (s f : N) :
  (s + f + N.of_nat (length l) < 2 ^ 32)%N →
  foldl tally_outcome (mkTally r n s f) l =
    mkTally (r ++ (result_of <$> l)) (n ++ omap compared l)
      (s + N.of_nat (length (omap compared l))) (f + N.of_nat (length l - length (omap compared l))).
Proof.
  revert r n s f. induction l as [|o l IH]; intros r n s f Hb; cbn [foldl].
  { simpl. by rewrite !app_nil_r, !N.add_0_r. }
  cbn [length] in Hb. rewrite Nat2N.inj_succ in Hb. pose proof (omap_length compared l) as [Hle _].
  unfold tally_outcome at 2. unfold wrap_u32. destruct o.2 as [c|e] eqn:E;
    cbn [tally_results tally_nodes tally_successful tally_failed];
    rewrite (N.mod_small _ (2 ^ 32)), IH by lia; cbn [fmap list_fmap omap list_omap].
  - assert (compared o = Some c ∧ result_of o = (o.1.2, Ok tt)) as [-> ->] by (unfold compared, result_of; by rewrite E).
    rewrite <- !(assoc_L (++)). cbn [app length]. f_equal; lia.
  - assert (compared o = None ∧ result_of o = (o.1.2, Err e)) as [-> ->] by (unfold compared, result_of; by rewrite E).
    rewrite <- !(assoc_L (++)). cbn [app length]. f_equal; lia.
Qed.

Lemma response_exact nodes outcomes l :
  merge_sort outcome_le outcomes = l → length l = nodes → (N.of_nat nodes < 2 ^ 32)%N →
  let response := build_firmware_comparison_response nodes outcomes in
  (all_match response = true ↔ nodes ≠ 0 ∧ Forall matching l) ∧
  node_results response = result_of <$> l ∧
  total_nodes response = N.of_nat nodes ∧ (successful_nodes response + failed_nodes response = N.of_nat nodes)%N.
Proof.
  intros El Hl Hb response. unfold response, build_firmware_comparison_response, wrap_u32. rewrite El.
  destruct (omap_length compared l) as [Hle Hall]. rewrite tally_spec by lia. rewrite (N.mod_small _ _ Hb).
  cbn [tally_results tally_nodes tally_successful tally_failed app]. rewrite !N.add_0_l.
  destruct (N.eqb_spec (N.of_nat nodes) 0) as [E|Hn]; simpl.
  { split_and!; try done; [split; [done|]; intros [? _]; lia|lia]. }
  split_and!; try done; [|lia]. rewrite !andb_true_iff, !N.eqb_eq, forallb_elem, Forall_forall.
  setoid_rewrite list_elem_of_omap. split.
  - intros [[Hf _] Hm]. split; [lia|]. intros o Ho. destruct (proj1 Hall ltac:(lia) o Ho) as [c Hc].
    exists c. split; [|by eauto]. unfold compared in Hc. by destruct o.2; simplify_eq.
  - intros [_ Hm]. assert (length (omap compared l) = length l) as Eq.
    { apply Hall. intros o (c & Ec & _)%Hm. unfold compared. rewrite Ec. eauto. }
    split_and!; [lia..|]. intros c (o & Ho & Hc). destruct (Hm o Ho) as (c' & Ec & ?).
    unfold compared in Hc. rewrite Ec in Hc. by simplify_eq.
Qed.

(** ** The request *)

Section Request.
Context `{UrlCrate} `{ManifestEnv}.
Context (m : FirmwareManifest) (filters : gmap NodeType (list string)) (firmware_type : string).
Context (embedded profiles : HardwarePlan.HardwareProfileCatalog).
Context (build_node : Pb.NodeInfo → NodeType → result string unit).
Context (nvue : nat → result string unit) (inventory : nat → result string (list FirmwareInfo)).

Abbreviation prepare_comparison := (prepare_comparison m filters firmware_type embedded profiles build_node).
Abbreviation prepare_firmware_comparisons :=
  (prepare_firmware_comparisons m filters firmware_type embedded profiles build_node).
Abbreviation fetch_outcome := (fetch_outcome nvue inventory).
Abbreviation compare_response := (compare_response m filters firmware_type embedded profiles build_node).

(** What comes of a node. *)
Definition outcome_of (e : nat * Pb.NodeInfo) : Outcome :=
  match prepare_comparison e with
  | Ok p => fetch_outcome p
  | Err error => (e.1, Pb.ni_node_id e.2, Err error)
  end.

Lemma prepared_fields e p :
  prepare_comparison e = Ok p → prep_index p = e.1 ∧ prep_node_id p = Pb.ni_node_id e.2.
Proof. destruct e as [i node]. unfold Compare.prepare_comparison. intros E. bind_ok E. by injection E as <-. Qed.

Lemma outcome_fields e : (outcome_of e).1 = (e.1, Pb.ni_node_id e.2).
Proof.
  unfold outcome_of. destruct (prepare_comparison e) as [p|error] eqn:E; [|done].
  by apply prepared_fields in E as [<- <-].
Qed.

Lemma prepared_outcomes nodes :
  (prepare_firmware_comparisons nodes).1 ++ (fetch_outcome <$> (prepare_firmware_comparisons nodes).2) ≡ₚ
  outcome_of <$> enumerate nodes.
Proof.
  unfold Compare.prepare_firmware_comparisons. generalize (enumerate nodes). intros l.
  enough (∀ acc, let r := foldl (fun acc e =>
            match prepare_comparison e with
            | Ok prepared => (acc.1, acc.2 ++ [prepared])
            | Err error => (acc.1 ++ [(e.1, Pb.ni_node_id e.2, Err error)], acc.2)
            end) acc l in
          r.1 ++ (fetch_outcome <$> r.2) ≡ₚ acc.1 ++ (fetch_outcome <$> acc.2) ++ (outcome_of <$> l)) as Hf
    by apply (Hf ([], [])).
  induction l as [|e l IH]; intros [done ready]; cbn [foldl fst snd]; [by rewrite app_nil_r|].
  cbn [fmap list_fmap]. destruct (prepare_comparison e) as [p|error] eqn:E; rewrite IH; cbn [fst snd].
  - assert (outcome_of e = fetch_outcome p) as -> by (unfold outcome_of; by rewrite E).
    by rewrite fmap_app, <- !(assoc_L (++)).
  - assert (outcome_of e = (e.1, Pb.ni_node_id e.2, Err error)) as -> by (unfold outcome_of; by rewrite E).
    rewrite <- !(assoc_L (++)). apply Permutation_app_head. simpl. apply Permutation_middle.
Qed.

Lemma enumerate_sorted nodes k :
  StronglySorted outcome_le (outcome_of <$> imap (fun i x => (k + i, x)%nat) nodes) ∧
  ∀ o, o ∈ outcome_of <$> imap (fun i x => (k + i, x)%nat) nodes → (k ≤ o.1.1)%nat.
Proof.
  revert k. induction nodes as [|x nodes IH]; intros k; [split; [constructor|by intros o ?%not_elem_of_nil]|].
  destruct (IH (S k)) as [Hs Hl]. rewrite imap_cons. cbn [fmap list_fmap].
  assert (imap (fun i x => (k + S i, x)%nat) nodes = imap (fun i x => (S k + i, x)%nat) nodes) as E
    by (apply imap_ext; intros; f_equal; lia).
  change (imap ((fun i x => (k + i, x)%nat) ∘ S) nodes) with (imap (fun i x => (k + S i, x)%nat) nodes). rewrite E.
  assert (∀ o, o ∈ outcome_of <$> imap (fun i x => (S k + i, x)%nat) nodes → outcome_le (outcome_of ((k + 0)%nat, x)) o) as Hle.
  { intros o Ho. unfold outcome_le. rewrite outcome_fields. simpl. specialize (Hl o Ho). lia. }
  split; [constructor; [done|by apply Forall_forall]|].
  intros o [->|Ho%Hl]%elem_of_cons; [rewrite outcome_fields; simpl; lia|lia].
Qed.

(** In whatever order the nodes answer, the outcomes are those of the nodes in order. *)
Lemma outcomes_in_order nodes fetched :
  fetched ≡ₚ fetch_outcome <$> (prepare_firmware_comparisons nodes).2 →
  merge_sort outcome_le ((prepare_firmware_comparisons nodes).1 ++ fetched) = outcome_of <$> enumerate nodes.
Proof.
  intros Hf. assert ((prepare_firmware_comparisons nodes).1 ++ fetched ≡ₚ outcome_of <$> enumerate nodes) as Hp
    by (by rewrite Hf, prepared_outcomes).
  apply (StronglySorted_unique_strong outcome_le).
  - intros a b. rewrite merge_sort_Permutation, Hp. intros (e1 & -> & H1)%list_elem_of_fmap (e2 & -> & H2)%list_elem_of_fmap.
    unfold outcome_le. rewrite !outcome_fields. simpl. intros ? ?. destruct e1 as [i x], e2 as [j y]. simpl in *.
    assert (i = j) as -> by lia. apply elem_of_lookup_imap in H1 as (i1 & ? & [= -> ->] & H1).
    apply elem_of_lookup_imap in H2 as (i2 & ? & [= -> ->] & H2). congruence.
  - apply (StronglySorted_merge_sort _).
  - apply (enumerate_sorted nodes 0).
  - by rewrite merge_sort_Permutation.
Qed.

Lemma matching_outcome i node :
  matching (outcome_of (i, node)) ↔
  ∃ p found, prepare_comparison (i, node) = Ok p ∧ (prep_type p ≠ SwitchVrnvl72Nvidia → nvue i = Ok tt) ∧
    inventory i = Ok found ∧
    matches_manifest (compare_firmware_object_for_node (Pb.ni_node_id node) (prep_type p) (prep_expectations p) found)
      = true.
Proof.
  unfold matching, outcome_of. destruct (prepare_comparison (i, node)) as [p|error] eqn:E; [|naive_solver].
  apply prepared_fields in E as [Ei En]. unfold Compare.fetch_outcome. cbn [fst snd] in *. rewrite Ei, En. split.
  - intros (c & Ec & Hc). bind_ok Ec. injection Ec as <-. exists p, a0. split_and!; [done| |done|done].
    intros Ht. rewrite bool_decide_eq_false_2 in E by done. by destruct a.
  - intros (p' & found & [= <-] & Hn & -> & Hm). eexists. split; [|exact Hm].
    case_bool_decide; [done|]. by rewrite Hn.
Qed.

End Request.

(** ** Two nodes that match *)

Import FirmwarePlanTheorems.PlanExample.

(** The nodes answer in the other order. *)
Definition example_nodes : list Pb.NodeInfo :=
  (fun id => Pb.mkNodeInfo id "rack" (Some 1%Z) None None None []) <$> ["n1"; "n2"].

Definition no_profiles : HardwarePlan.HardwareProfileCatalog := HardwarePlan.empty_catalog.
Definition built (node : Pb.NodeInfo) (t : NodeType) : result string unit := Ok tt.
Definition initialised (i : nat) : result string unit := Ok tt.
Definition hmc_inventory (i : nat) : result string (list FirmwareInfo) := Ok [mkFirmwareInfo "HMC" "1.2" "" ""].

Definition example_prepared : list PreparedFirmwareComparison :=
  (prepare_firmware_comparisons manifest ∅ "prod" no_profiles no_profiles built example_nodes).2.

Definition example_fetched : list Outcome := rev (fetch_outcome initialised hmc_inventory <$> example_prepared).

Lemma example_fetched_perm : example_fetched ≡ₚ fetch_outcome initialised hmc_inventory <$> example_prepared.
Proof. symmetry. apply Permutation_rev. Qed.

End FirmwareCompareTheorems.
