(* ===== verification/FirmwareLifecycle.v ===== *)
(** * The life of a firmware object

    [api/grpc/firmware_object_handlers.rs] and [workflow.rs]: a firmware object is
    added, its artifacts are prepared by a task of its own, it is deleted, and its
    ID can be added again.  What the handlers and the task do between two points
    where they can be interrupted is one function on the state [Service]; any
    interleaving of them is a run.  The store is that of [FirmwareStore].  The
    downloads of a preparation end one by one with any results, and one that is
    running may discard the file it finds in the cache.  The derived JSON of
    manifests and catalogs is the class [CatalogJson]. *)

From S2P Require Import Prelude RustStd RustStr RustBytes Json RmsError FirmwareStore NodeTypes HardwareProfiles HardwarePlan.
From S2P Require Import PldmPackage Net Artifacts ArtifactDownload FirmwareManifest FirmwarePlan FirmwareRecovery.
From Stdlib Require Import Ascii.
Local Open Scope string_scope.
Local Open Scope list_scope.

Module Lifecycle.
Import NodeTypes Net Manifest Mappings FirmwarePlan Recovery Firmware.
Import Artifacts (Reqwest, ArtifactError).

(** ** Catalogs *)

Inductive Preparation :=
| Preparing
| Ready
| PreparationFailed (message : string).

Record ArtifactCatalog := mkCatalog {
  format_version : N;
  revision : string;
  preparation : Preparation;
  ready_artifacts : gset string;
}.

Definition CATALOG_VERSION : N := 1.

(** The derived [Deserialize] of a manifest, from a text with nothing after it and
    from a value, and the derived conversions of a catalog. *)
Class CatalogJson := {
  deserialize_str : string → result string FirmwareManifest;
  deserialize_value : json → result string FirmwareManifest;
  catalog_to_value : ArtifactCatalog → result string json;
  catalog_from_value : json → result string ArtifactCatalog;
}.

(** [tonic::Status] with the codes that are used here. *)
Inductive StatusCode :=
| StInvalidArgument
| StNotFound
| StAlreadyExists
| StFailedPrecondition
| StUnauthenticated
| StInternal.

Record Status := mkStatus { status_code : StatusCode; status_message : string }.

Definition status_from_rms_error (e : RmsError) : Status :=
  mkStatus
    match error_code e with
    | ErrorCodeM.NotFound => StNotFound
    | ErrorCodeM.AlreadyExists => StAlreadyExists
    | ErrorCodeM.InvalidArgument => StInvalidArgument
    | ErrorCodeM.FailedPrecondition => StFailedPrecondition
    | ErrorCodeM.Unauthenticated => StUnauthenticated
    | _ => StInternal
    end (error_message e).

Section Lifecycle.
Context `{UrlCrate, Reqwest} `{ManifestEnv} `{SerdeJson} `{CatalogJson}.

(** [impl FromStr] and [impl TryFrom<&Value>] for [FirmwareManifest]. *)
Definition manifest_from_str (text : string) : result string FirmwareManifest :=
  let? m := deserialize_str text in
  let? _ := single_milestone m in Ok m.

Definition manifest_try_from (v : json) : result string FirmwareManifest :=
  let? m := deserialize_value v in
  let? _ := single_milestone m in Ok m.

Definition preparing (m : FirmwareManifest) : result string ArtifactCatalog :=
  let? r := manifest_revision m in Ok (mkCatalog CATALOG_VERSION r Preparing ∅).

(** [Value::get] with a key. *)
Definition value_get (v : json) (key : string) : option json :=
  match v with JObject m => m !! key | _ => None end.

Definition stored_catalog (fw : FirmwareObject) : result string (option ArtifactCatalog) :=
  match parsed_components fw with
  | None => Ok None
  | Some value =>
      match value_get value "format_version" with
      | None => Ok None
      | Some _ =>
          let? c := map_err (fun e => "invalid stored artifact catalog: " +++ e) (catalog_from_value value) in
          if (format_version c =? CATALOG_VERSION)%N then Ok (Some c)
          else Err ("unsupported stored artifact catalog version " +++ pretty (format_version c))
      end
  end.

Definition require_catalog (fw : FirmwareObject) : result string ArtifactCatalog :=
  let? c := stored_catalog fw in
  ok_or c ("firmware object " +++ fw_id fw +++ " has no artifact catalog; save its manifest and settings, delete the object with DeleteFirmwareObject, then re-add the manifest with AddFirmwareObject").

Definition load_stored (fw : FirmwareObject) : result string (FirmwareManifest * ArtifactCatalog) :=
  let? c := require_catalog fw in
  let? _ := match preparation c with
            | PreparationFailed message => Err ("firmware object preparation failed: " +++ message)
            | Ready => if available fw then Ok tt else Err "firmware object preparation is not ready"
            | Preparing => Err "firmware object preparation is not ready"
            end in
  let? m := manifest_try_from (config fw) in
  let? r := manifest_revision m in
  if String.eqb r (revision c) then Ok (m, c)
  else Err "stored manifest changed after artifact preparation; re-add this object".

(** ** IDs *)

Inductive PathComponent := RootDir | CurDir | ParentDir | Normal (name : chars).

(** [Path::components] on Unix: empty parts, and [.] save for a leading one, are
    not components. *)
Definition path_component (first : bool) (part : chars) : option PathComponent :=
  match part with
  | [] => None
  | _ =>
      if bool_decide (part = to_chars ".") then if first then Some CurDir else None
      else if bool_decide (part = to_chars "..") then Some ParentDir
      else Some (Normal part)
  end.

Definition path_components (path : string) : list PathComponent :=
  match split_on slash (to_chars path) with
  | [] => []
  | first :: rest =>
      (if starts_with (to_chars path) [slash] then [RootDir] else option_list (path_component true first)) ++
      omap (path_component false) rest
  end.

Definition is_normal (c : PathComponent) : bool := match c with Normal _ => true | _ => false end.

Definition validate_firmware_object_id (id : string) : result string unit :=
  if negb (String.eqb id "") && forallb is_normal (path_components id) &&
     negb (contains_str (to_chars id) [slash]) && negb (contains_str (to_chars id) [backslash])
  then Ok tt
  else Err "firmware object Id must be a single path-safe component".

Definition firmware_object_id_from_manifest (m : FirmwareManifest) : result string string :=
  let? milestone := single_milestone m in
  let id := product_name m +++ "_" +++ milestone_name milestone in
  let? _ := validate_firmware_object_id id in Ok id.

Definition FIRMWARE_OBJECT_CACHE_SUBDIR : string := "firmware_objects".

Definition firmware_object_cache_dir (firmware_dir object_id : string) : string :=
  PldmPackage.path_join (PldmPackage.path_join firmware_dir FIRMWARE_OBJECT_CACHE_SUBDIR) object_id.

(** ** What a preparation ends with *)

(** [impl From<PlanError> for ArtifactError] *)
Definition plan_artifact_error (e : PlanError) : ArtifactError :=
  match e with
  | Invalid message | NoComponents message => Artifacts.InvalidArgument message
  | CacheError message => Artifacts.Cache message
  end.

(** The artifacts of [materialize] by ID; of two with one ID the last is kept. *)
Definition unique_artifacts (artifacts : list Artifact) : list Artifact :=
  (entries (from_pairs ((fun a => (ArtifactDownload.id a, a)) <$> artifacts))).*2.

(** How the work ends: it panics, or the HTTP client cannot be built, or each
    download ends, in some order, with the result in the list. *)
Inductive WorkEnd :=
| Panicked
| ClientFailed (e : ArtifactError)
| Downloaded (downloads : list (Artifact * result ArtifactError unit)).

(** The artifacts that are downloaded, or why there is nothing to download. *)
Definition work_artifacts (m : FirmwareManifest) : result ArtifactError (list Artifact) :=
  let? artifacts := map_err plan_artifact_error (catalog_artifacts m) in
  match artifacts with
  | [] => Err (Artifacts.InvalidArgument "manifest contains no downloadable artifacts")
  | _ => Ok artifacts
  end.

(** The downloads are those of the artifacts, and have ended with these results;
    the client is built before the first. *)
Definition work_end_ok (m : FirmwareManifest) (done : list (Artifact * result ArtifactError unit)) (e : WorkEnd)
    : Prop :=
  match e with
  | Downloaded downloads =>
      downloads = done ∧
      ∃ artifacts, work_artifacts m = Ok artifacts ∧ downloads.*1 ≡ₚ unique_artifacts artifacts
  | ClientFailed _ => done = []
  | Panicked => True
  end.

(** An artifact whose download has not ended. *)
Definition work_pending (m : FirmwareManifest) (done : list (Artifact * result ArtifactError unit)) (a : Artifact)
    : Prop :=
  ∃ artifacts, work_artifacts m = Ok artifacts ∧ a ∈ unique_artifacts artifacts ∧ a ∉ done.*1.

Definition work_result (m : FirmwareManifest) (e : WorkEnd) (is_cancelled : bool)
    : result ArtifactError (gset string) :=
  match e with
  | Panicked => Err (Artifacts.Cache "artifact preparation panicked")
  | _ =>
      let? _ := work_artifacts m in
      match e with
      | ClientFailed e => Err e
      | Downloaded downloads => ArtifactDownload.materialize_result downloads is_cancelled
      | Panicked => Err (Artifacts.Cache "artifact preparation panicked")
      end
  end.

Definition finished_catalog (c : ArtifactCatalog) (r : result ArtifactError (gset string)) : ArtifactCatalog :=
  match r with
  | Ok ready => mkCatalog (format_version c) (revision c) Ready ready
  | Err error => mkCatalog (format_version c) (revision c) (PreparationFailed (Artifacts.display error)) (ready_artifacts c)
  end.

(** ** The service *)

Record AddFirmwareObjectRequest := mkAddRequest {
  config_json : string;
  hardware_type : string;
  request_default : bool;
}.

(** Where an [AddFirmwareObject] is: after [create], or after the default is chosen. *)
Inductive AddCall :=
| AddCreated (r : AddFirmwareObjectRequest) (id : string) (m : FirmwareManifest) (c : ArtifactCatalog)
| AddChosen (id : string) (fw : FirmwareObject) (m : FirmwareManifest) (c : ArtifactCatalog).

(** Where a [DeleteFirmwareObject] is: after the cancellation, or after the row is gone. *)
Inductive DeleteCall :=
| DeleteCancelled (id : string)
| DeleteStored (id : string).

Inductive TaskStage :=
| Working (done : list (Artifact * result ArtifactError unit))
| Finished (c : ArtifactCatalog)
| Publishing (value : json) (b : bool)
| Unregistering.

Record Task := mkTask {
  task_firmware : FirmwareObject;
  task_manifest : FirmwareManifest;
  task_catalog : ArtifactCatalog;
  task_stage : TaskStage;
}.

(** A cancellation token is a number; a task is known by its token.  [cache] has the
    artifacts in the cache directory of each object.  Three fields are only a
    record: the creation times of each ID so far, the incarnations that were in the
    store when the directory of their ID was removed, and the files that a download
    discarded and that no download has written since. *)
Record Service := mkService {
  objects : MemoryFirmwareObjectStore;
  firmware_download_cancellations : gmap string nat;
  cancelled_tokens : gset nat;
  next_token : nat;
  adds : gmap nat AddCall;
  deletes : gmap nat DeleteCall;
  tasks : gmap nat Task;
  cache : gset (string * string);
  made_at : gset (string * Z);
  wiped : gset (string * Z);
  discarded : gset (string * string);
}.

Definition start : Service := mkService empty_firmware_store ∅ ∅ 0 ∅ ∅ ∅ ∅ ∅ ∅ ∅.

Definition with_objects (s : Service) o : Service :=
  mkService o (firmware_download_cancellations s) (cancelled_tokens s) (next_token s) (adds s) (deletes s) (tasks s)
    (cache s) (made_at s) (wiped s) (discarded s).
Definition with_adds (s : Service) a : Service :=
  mkService (objects s) (firmware_download_cancellations s) (cancelled_tokens s) (next_token s) a (deletes s) (tasks s)
    (cache s) (made_at s) (wiped s) (discarded s).
Definition with_deletes (s : Service) d : Service :=
  mkService (objects s) (firmware_download_cancellations s) (cancelled_tokens s) (next_token s) (adds s) d (tasks s)
    (cache s) (made_at s) (wiped s) (discarded s).
Definition with_tasks (s : Service) t : Service :=
  mkService (objects s) (firmware_download_cancellations s) (cancelled_tokens s) (next_token s) (adds s) (deletes s) t
    (cache s) (made_at s) (wiped s) (discarded s).

(** What a step answers to its client, if it ends the call. *)
Inductive Answer :=
| Pending
| Added (r : result Status FirmwareObject)
| Deleted (r : result Status string).

Definition invalid_status (e : string) : Status := mkStatus StInvalidArgument e.

(** ** [handle_add_firmware_object] *)

(** What is checked before the store is asked. *)
Definition add_checked (r : AddFirmwareObjectRequest)
    : result Status (string * FirmwareManifest * ArtifactCatalog * json * json) :=
  let? m := map_err invalid_status (manifest_from_str (config_json r)) in
  let? cfg := map_err (fun e => invalid_status ("invalid config_json: " +++ e)) (from_str (config_json r)) in
  let? id := map_err invalid_status (firmware_object_id_from_manifest m) in
  if String.eqb (hardware_type r) "" then Err (invalid_status "hardware_type is required")
  else
    let? c := map_err invalid_status (preparing m) in
    let? value := map_err (mkStatus StInternal) (catalog_to_value c) in
    Ok (id, m, c, cfg, value).

Definition add_begin (s : Service) (call : nat) (r : AddFirmwareObjectRequest) (now : Z) : Service * Answer :=
  match add_checked r with
  | Err e => (s, Added (Err e))
  | Ok (id, m, c, cfg, value) =>
      match create (objects s) id (hardware_type r) cfg (Some value) now with
      | (_, Err e) => (s, Added (Err (status_from_rms_error e)))
      | (o, Ok _) =>
          (mkService o (firmware_download_cancellations s) (cancelled_tokens s) (next_token s)
             (<[call := AddCreated r id m c]> (adds s)) (deletes s) (tasks s) (cache s)
             ({[(id, now)]} ∪ made_at s) (wiped s) (discarded s), Pending)
      end
  end.

Definition add_choose (s : Service) (call : nat) (now : Z) : Service * Answer :=
  match adds s !! call with
  | Some (AddCreated r id m c) =>
      let '(o, answer) := if request_default r then set_default (objects s) id now
                          else set_default_if_none (objects s) id now in
      match answer with
      | Err e => (with_adds s (delete call (adds s)), Added (Err (status_from_rms_error e)))
      | Ok fw => (with_adds (with_objects s o) (<[call := AddChosen id fw m c]> (adds s)), Pending)
      end
  | _ => (s, Pending)
  end.

(** The token is registered and the task is started. *)
Definition add_register (s : Service) (call : nat) : Service * Answer :=
  match adds s !! call with
  | Some (AddChosen id fw m c) =>
      let token := next_token s in
      (mkService (objects s) (<[id := token]> (firmware_download_cancellations s)) (cancelled_tokens s) (S token)
         (delete call (adds s)) (deletes s) (<[token := mkTask fw m c (Working [])]> (tasks s)) (cache s)
         (made_at s) (wiped s) (discarded s), Added (Ok fw))
  | _ => (s, Pending)
  end.

(** ** [handle_delete_firmware_object] *)

Definition cancel_firmware_download (s : Service) (id : string) : Service :=
  match firmware_download_cancellations s !! id with
  | None => s
  | Some token =>
      mkService (objects s) (delete id (firmware_download_cancellations s)) ({[token]} ∪ cancelled_tokens s)
        (next_token s) (adds s) (deletes s) (tasks s) (cache s) (made_at s) (wiped s) (discarded s)
  end.

Definition delete_begin (s : Service) (call : nat) (id : string) : Service * Answer :=
  match validate_firmware_object_id id with
  | Err e => (s, Deleted (Err (invalid_status e)))
  | Ok _ =>
      let s := cancel_firmware_download s id in
      (with_deletes s (<[call := DeleteCancelled id]> (deletes s)), Pending)
  end.

Definition delete_row (s : Service) (call : nat) : Service * Answer :=
  match deletes s !! call with
  | Some (DeleteCancelled id) =>
      match delete_object (objects s) id with
      | (_, Err e) => (with_deletes s (delete call (deletes s)), Deleted (Err (status_from_rms_error e)))
      | (o, Ok _) => (with_deletes (with_objects s o) (<[call := DeleteStored id]> (deletes s)), Pending)
      end
  | _ => (s, Pending)
  end.

(** [remove_dir_all]; when it fails it leaves some files, [left_over], and the failure
    is only logged. *)
Definition delete_cache (s : Service) (call : nat) (left_over : gset string) : Service * Answer :=
  match deletes s !! call with
  | Some (DeleteStored id) =>
      (mkService (objects s) (firmware_download_cancellations s) (cancelled_tokens s) (next_token s) (adds s)
         (delete call (deletes s)) (tasks s)
         (filter (fun f => f.1 ≠ id ∨ f.2 ∈ left_over) (cache s)) (made_at s)
         (match catalog (objects s) !! id with
          | Some fw => {[(id, created fw)]} ∪ wiped s
          | None => wiped s
          end) (discarded s),
       Deleted (Ok ("deleted firmware object " +++ id)))
  | _ => (s, Pending)
  end.

(** ** [spawn_catalog_preparation] *)

Definition set_stage (t : Task) (g : TaskStage) : Task :=
  mkTask (task_firmware t) (task_manifest t) (task_catalog t) g.

Definition is_cancelled (s : Service) (token : nat) : bool := bool_decide (token ∈ cancelled_tokens s).

(** A download that is running finds the cached file invalid, or is told that there
    is no such file, and removes it. *)
Definition task_discard (s : Service) (token : nat) (a : Artifact) : Service :=
  match tasks s !! token with
  | Some t =>
      match task_stage t with
      | Working _ =>
          let file := (fw_id (task_firmware t), ArtifactDownload.id a) in
          mkService (objects s) (firmware_download_cancellations s) (cancelled_tokens s) (next_token s) (adds s)
            (deletes s) (tasks s) (cache s ∖ {[file]}) (made_at s) (wiped s) ({[file]} ∪ discarded s)
      | _ => s
      end
  | None => s
  end.

(** A download ends: with success when the file is in the cache. *)
Definition task_fetch (s : Service) (token : nat) (a : Artifact) (r : result ArtifactError unit) : Service :=
  match tasks s !! token with
  | Some t =>
      match task_stage t with
      | Working done =>
          let file := (fw_id (task_firmware t), ArtifactDownload.id a) in
          mkService (objects s) (firmware_download_cancellations s) (cancelled_tokens s) (next_token s) (adds s)
            (deletes s) (<[token := set_stage t (Working (done ++ [(a, r)]))]> (tasks s))
            (if is_ok r then {[file]} ∪ cache s else cache s) (made_at s) (wiped s)
            (if is_ok r then discarded s ∖ {[file]} else discarded s)
      | _ => s
      end
  | None => s
  end.

(** All downloads have ended, or the work has otherwise. *)
Definition task_work (s : Service) (token : nat) (e : WorkEnd) : Service :=
  match tasks s !! token with
  | Some t =>
      match task_stage t with
      | Working _ =>
          let r := work_result (task_manifest t) e (is_cancelled s token) in
          with_tasks s (<[token := set_stage t (Finished (finished_catalog (task_catalog t) r))]> (tasks s))
      | _ => s
      end
  | None => s
  end.

(** The check of the token, before the result is published. *)
Definition task_check (s : Service) (token : nat) : Service :=
  match tasks s !! token with
  | Some t =>
      match task_stage t with
      | Finished c =>
          let g := if is_cancelled s token then Unregistering
                   else match catalog_to_value c with
                        | Ok value =>
                            Publishing value match preparation c with Ready => true | _ => false end
                        | Err _ => Unregistering
                        end in
          with_tasks s (<[token := set_stage t g]> (tasks s))
      | _ => s
      end
  | None => s
  end.

Definition task_publish (s : Service) (token : nat) (now : Z) : Service :=
  match tasks s !! token with
  | Some t =>
      match task_stage t with
      | Publishing value b =>
          let fw := task_firmware t in
          with_tasks (with_objects s (finish_preparation (objects s) (fw_id fw) (created fw) value b now).1)
            (<[token := set_stage t Unregistering]> (tasks s))
      | _ => s
      end
  | None => s
  end.

(** The last step, under the lock of the map. *)
Definition task_unregister (s : Service) (token : nat) : Service :=
  match tasks s !! token with
  | Some t =>
      match task_stage t with
      | Unregistering =>
          mkService (objects s)
            (if is_cancelled s token then firmware_download_cancellations s
             else delete (fw_id (task_firmware t)) (firmware_download_cancellations s))
            (cancelled_tokens s) (next_token s) (adds s) (deletes s) (delete token (tasks s)) (cache s)
            (made_at s) (wiped s) (discarded s)
      | _ => s
      end
  | None => s
  end.

(** [handle_set_default_firmware_object] *)
Definition handle_set_default (s : Service) (id : string) (now : Z) : Service * result Status FirmwareObject :=
  let '(o, r) := set_default (objects s) id now in (with_objects s o, map_err status_from_rms_error r).

(** ** Runs *)

(** One step of any call or task.  An addition does not get a creation time that an
    object of its ID had before: that two clock readings for one ID differ is
    assumed here. *)
Inductive step : Service → Service → Prop :=
| StepAddBegin s call r now :
    adds s !! call = None →
    (∀ id m c cfg v, add_checked r = Ok (id, m, c, cfg, v) → (id, now) ∉ made_at s) →
    step s (add_begin s call r now).1
| StepAddChoose s call now : step s (add_choose s call now).1
| StepAddRegister s call : step s (add_register s call).1
| StepDeleteBegin s call id : deletes s !! call = None → step s (delete_begin s call id).1
| StepDeleteRow s call : step s (delete_row s call).1
| StepDeleteCache s call left_over : step s (delete_cache s call left_over).1
| StepDiscard s token t done a :
    tasks s !! token = Some t → task_stage t = Working done → work_pending (task_manifest t) done a →
    step s (task_discard s token a)
| StepFetch s token t done a r :
    tasks s !! token = Some t → task_stage t = Working done → work_pending (task_manifest t) done a →
    step s (task_fetch s token a r)
| StepWork s token e t done :
    tasks s !! token = Some t → task_stage t = Working done → work_end_ok (task_manifest t) done e →
    step s (task_work s token e)
| StepCheck s token : step s (task_check s token)
| StepPublish s token now : step s (task_publish s token now)
| StepUnregister s token : step s (task_unregister s token)
| StepSetDefault s id now : step s (handle_set_default s id now).1.

Definition reachable (s : Service) : Prop := rtc step start s.
End Lifecycle.
End Lifecycle.
