(* ===== verification/FirmwareLifecycleTheorems.v ===== *)
(** * The life of a firmware object: theorems

    Whatever the interleaving of additions, preparations and deletions, an object
    that can be applied was prepared from its own manifest; and what is not true of
    all interleavings. *)

From S2P Require Import Prelude RustStd RustStr RustBytes Json RmsError FirmwareStore FirmwareStoreTheorems.
From S2P Require Import NodeTypes HardwareProfiles HardwarePlan PldmPackage Net Artifacts ArtifactDownload.
From S2P Require Import ArtifactTheorems FirmwareManifest FirmwarePlan FirmwarePlanTheorems FirmwareRecovery FirmwareLifecycle.
From Stdlib Require Import Ascii.
Local Open Scope string_scope.
Local Open Scope list_scope.

Module FirmwareLifecycleTheorems.
Import NodeTypes Net Manifest Mappings FirmwarePlan FirmwarePlanTheorems Recovery Firmware Lifecycle.
Import Artifacts (Reqwest, ArtifactError).

(** ** Rows *)

(** What the choice of defaults does not change. *)
Definition same_row (fw fw' : FirmwareObject) : Prop :=
  fw_id fw' = fw_id fw ∧ config fw' = config fw ∧ parsed_components fw' = parsed_components fw ∧
  created fw' = created fw ∧ available fw' = available fw.

Lemma update_row_rows o id f id' fw' :
  (∀ fw, same_row fw (f fw)) → catalog (update_row o id f).1 !! id' = Some fw' →
  ∃ fw, catalog o !! id' = Some fw ∧ same_row fw fw'.
Proof.
  intros Hf. unfold update_row. destruct (catalog o !! id) as [fw|] eqn:E; simpl.
  - rewrite lookup_insert_Some. intros [[<- <-]|[_ ?]]; [eauto|]. exists fw'. split; [done|by repeat split].
  - intros ?. exists fw'. split; [done|by repeat split].
Qed.

Lemma set_default_same o id now id' fw' :
  catalog (set_default o id now).1 !! id' = Some fw' → ∃ fw, catalog o !! id' = Some fw ∧ same_row fw fw'.
Proof.
  unfold set_default. destruct (catalog o !! id) as [target|]; simpl.
  - intros (fw & Hfw & Hs)%update_row_rows; [|by repeat split]. simpl in Hfw.
    apply lookup_fmap_Some in Hfw as (fw0 & <- & Hfw). exists fw0. split; [done|].
    destruct Hs as (Hi & Hc & Hp & Hm & Ha). unfold clear_default in *. unfold same_row.
    destruct (_ && _ && _); simpl in *; by rewrite Hi, Hc, Hp, Hm, Ha.
  - intros ?. exists fw'. split; [done|by repeat split].
Qed.

Lemma set_default_if_none_same o id now id' fw' :
  catalog (set_default_if_none o id now).1 !! id' = Some fw' → ∃ fw, catalog o !! id' = Some fw ∧ same_row fw fw'.
Proof.
  unfold set_default_if_none. destruct (catalog o !! id) as [fw|]; simpl; [destruct (has_default _ _)|].
  - intros ?. exists fw'. split; [done|by repeat split].
  - intros Hu%update_row_rows; [done|by repeat split].
  - intros ?. exists fw'. split; [done|by repeat split].
Qed.

(** The row that is answered is the row of the ID. *)
Lemma chosen_row o id now fw (b : bool) :
  (if b then set_default o id now else set_default_if_none o id now).2 = Ok fw →
  catalog (if b then set_default o id now else set_default_if_none o id now).1 !! id = Some fw.
Proof.
  destruct b; unfold set_default, set_default_if_none, update_row; simpl.
  - destruct (catalog o !! id) as [target|] eqn:E; [|done]. simpl. rewrite lookup_fmap, E. simpl.
    intros [= <-]. by rewrite lookup_insert_eq.
  - destruct (catalog o !! id) as [target|] eqn:E; [|done]. destruct (has_default _ _); simpl; [congruence|].
    intros [= <-]. by rewrite lookup_insert_eq.
Qed.

Section Invariant.
Context `{UrlCrate, Reqwest} `{ManifestEnv} `{SerdeJson} `{CatalogJson}.

(** Reading a text as a value first gives the same manifest; a catalog is read back,
    and its version is one of its fields. *)
Definition same_manifest : Prop := ∀ text m v,
  deserialize_str text = Ok m → from_str text = Ok v → deserialize_value v = Ok m.
Definition catalog_read_back : Prop := ∀ c v,
  catalog_to_value c = Ok v → is_Some (value_get v "format_version") ∧ catalog_from_value v = Ok c.

(** ** The invariant *)

Definition live (s : Service) (id : string) (made : Z) : Prop :=
  ∃ fw, catalog (objects s) !! id = Some fw ∧ created fw = made.

(** The files are in the cache or a download discarded them, unless the directory
    was removed under the object. *)
Definition files_ok (s : Service) (id : string) (made : Z) (ready : gset string) : Prop :=
  live s id made → (id, made) ∉ wiped s → ∀ a, a ∈ ready → (id, a) ∈ cache s ∪ discarded s.

(** The artifacts whose download succeeded. *)
Definition fetched (done : list (Artifact * result ArtifactError unit)) : gset string :=
  list_to_set (omap (fun d => match d.2 with Ok _ => Some (ArtifactDownload.id d.1) | Err _ => None end) done).

(** The ready artifacts are artifacts of the manifest, and all that are required. *)
Definition work_done (m : FirmwareManifest) (ready : gset string) : Prop :=
  ∃ artifacts, work_artifacts m = Ok artifacts ∧
    (∀ a, a ∈ unique_artifacts artifacts → ArtifactDownload.artifact_required a = true → ArtifactDownload.id a ∈ ready) ∧
    (∀ x, x ∈ ready → ∃ a, a ∈ unique_artifacts artifacts ∧ ArtifactDownload.id a = x).

(** A manifest that was read from a text. *)
Definition was_read (m : FirmwareManifest) : Prop := ∃ text, deserialize_str text = Ok m.

(** A catalog for the manifest. *)
Definition catalog_of (m : FirmwareManifest) (c : ArtifactCatalog) : Prop :=
  was_read m ∧ format_version c = CATALOG_VERSION ∧ manifest_revision m = Ok (revision c).

Definition catalog_ok (s : Service) (id : string) (made : Z) (m : FirmwareManifest) (c : ArtifactCatalog) : Prop :=
  catalog_of m c ∧
  (preparation c = Ready → work_done m (ready_artifacts c) ∧ files_ok s id made (ready_artifacts c)).

Definition row_ok (s : Service) (id : string) (fw : FirmwareObject) : Prop :=
  fw_id fw = id ∧ (id, created fw) ∈ made_at s ∧
  (∃ m, was_read m ∧ manifest_try_from (config fw) = Ok m ∧ firmware_object_id_from_manifest m = Ok id ∧
        is_ok (manifest_revision m) = true) ∧
  ∃ c v m, parsed_components fw = Some v ∧ catalog_to_value c = Ok v ∧ catalog_ok s id (created fw) m c ∧
    (available fw = true ↔ preparation c = Ready).

Definition add_ok (s : Service) (a : AddCall) : Prop :=
  match a with
  | AddCreated _ _ m c => catalog_of m c
  | AddChosen id fw m c => fw_id fw = id ∧ (id, created fw) ∈ made_at s ∧ catalog_of m c
  end.

Definition task_ok (s : Service) (t : Task) : Prop :=
  let fw := task_firmware t in
  let m := task_manifest t in
  (fw_id fw, created fw) ∈ made_at s ∧ catalog_of m (task_catalog t) ∧
  match task_stage t with
  | Working done => files_ok s (fw_id fw) (created fw) (fetched done)
  | Finished c => catalog_ok s (fw_id fw) (created fw) m c
  | Publishing v b => ∃ c, catalog_to_value c = Ok v ∧ catalog_ok s (fw_id fw) (created fw) m c ∧
                           (b = true ↔ preparation c = Ready)
  | _ => True
  end.

Definition service_ok (s : Service) : Prop :=
  map_Forall (row_ok s) (catalog (objects s)) ∧ map_Forall (fun _ => add_ok s) (adds s) ∧
  map_Forall (fun _ => task_ok s) (tasks s).

(** What a step may do to what others rely on. *)
Definition grows (s s' : Service) : Prop :=
  made_at s ⊆ made_at s' ∧
  ∀ id made ready, (id, made) ∈ made_at s → files_ok s id made ready → files_ok s' id made ready.

Lemma grows_refl s : grows s s.
Proof. by split. Qed.

Lemma catalog_ok_grows s s' id made m c :
  grows s s' → (id, made) ∈ made_at s → catalog_ok s id made m c → catalog_ok s' id made m c.
Proof. intros [_ Hf] Hm (? & Hr). split; [done|]. intros [? ?]%Hr. split; [done|]. by apply Hf. Qed.

Lemma row_ok_grows s s' id fw : grows s s' → row_ok s id fw → row_ok s' id fw.
Proof.
  intros Hg (? & Hm & ? & c & v & m & ? & ? & ? & ?). split; [done|]. split; [by apply Hg|]. split; [done|].
  exists c, v, m. repeat (split; [done|]). split; [|done]. by eapply catalog_ok_grows.
Qed.

Lemma add_ok_grows s s' a : grows s s' → add_ok s a → add_ok s' a.
Proof. intros Hg. destruct a; [done|]. intros (? & ? & ?). split; [done|]. split; [by apply Hg|done]. Qed.

Lemma task_ok_grows s s' t : grows s s' → task_ok s t → task_ok s' t.
Proof.
  intros Hg (Hm & ? & Hs). split; [by apply Hg|]. split; [done|].
  destruct (task_stage t); [by apply Hg|by eapply catalog_ok_grows| |done].
  destruct Hs as (c & ? & ? & ?). exists c. split_and!; [done| |done]. by eapply catalog_ok_grows.
Qed.

(** Enough that every part of the new state is an old one or is shown good. *)
Lemma service_ok_step s s' :
  service_ok s → grows s s' →
  (∀ id fw, catalog (objects s') !! id = Some fw → catalog (objects s) !! id = Some fw ∨ row_ok s' id fw) →
  (∀ k a, adds s' !! k = Some a → adds s !! k = Some a ∨ add_ok s' a) →
  (∀ k t, tasks s' !! k = Some t → tasks s !! k = Some t ∨ task_ok s' t) →
  service_ok s'.
Proof.
  intros (Ho & Ha & Ht) Hg Ho' Ha' Ht'. split_and!.
  - intros id fw [Hl|?]%Ho'; [|done]. eapply row_ok_grows; [done|]. by apply Ho.
  - intros k a [Hl|?]%Ha'; [|done]. eapply add_ok_grows; [done|]. by apply (Ha k).
  - intros k t [Hl|?]%Ht'; [|done]. eapply task_ok_grows; [done|]. by apply (Ht k).
Qed.

(** A step that keeps the files and the creation times, and makes nothing live again. *)
Lemma grows_live s s' :
  made_at s' = made_at s → wiped s' = wiped s → cache s ∪ discarded s ⊆ cache s' ∪ discarded s' →
  (∀ id made, live s' id made → live s id made) → grows s s'.
Proof.
  intros Hm Hw Hc Hl. split; [by rewrite Hm|]. intros id made ready _ Hf Hlive Hnw a Ha.
  apply Hc, Hf; [by apply Hl|by rewrite <- Hw|done].
Qed.

Lemma row_same s id fw fw' : row_ok s id fw → same_row fw fw' → row_ok s id fw'.
Proof. unfold row_ok, same_row. by intros Hr (-> & -> & -> & -> & ->). Qed.

(** The rows change in what does not matter. *)
Lemma same_rows_step s o :
  service_ok s → (∀ id fw', catalog o !! id = Some fw' → ∃ fw, catalog (objects s) !! id = Some fw ∧ same_row fw fw') →
  grows s (with_objects s o) ∧ service_ok (with_objects s o).
Proof.
  intros Hs Hr. assert (grows s (with_objects s o)) as Hg.
  { apply grows_live; [done..|]. intros id made (fw' & (fw & Hfw & Hsame)%Hr & <-). exists fw.
    split; [done|]. symmetry. apply Hsame. }
  split; [done|]. eapply service_ok_step; [done|done| |by left|by left].
  intros id fw' (fw & Hfw & Hsame)%Hr. right. eapply row_same; [|done]. eapply row_ok_grows; [done|]. by apply Hs.
Qed.

(** ** Steps *)

Lemma add_checked_ok r id m c cfg v :
  same_manifest → add_checked r = Ok (id, m, c, cfg, v) →
  manifest_try_from cfg = Ok m ∧ firmware_object_id_from_manifest m = Ok id ∧
  catalog_of m c ∧ preparation c = Preparing ∧ catalog_to_value c = Ok v.
Proof.
  intros Hsame. unfold add_checked. intros E.
  destruct (map_err _ (manifest_from_str _)) as [m'|] eqn:Em; [|done]. apply map_err_is_ok in Em. simpl in E.
  destruct (map_err _ (from_str _)) as [cfg'|] eqn:Ec; [|done]. apply map_err_is_ok in Ec. simpl in E.
  destruct (map_err _ (firmware_object_id_from_manifest _)) as [id'|] eqn:Ei; [|done]. apply map_err_is_ok in Ei.
  simpl in E. destruct (String.eqb _ _); [done|].
  destruct (map_err _ (preparing _)) as [c'|] eqn:Ep; [|done]. apply map_err_is_ok in Ep. simpl in E.
  destruct (map_err _ (catalog_to_value _)) as [v'|] eqn:Ev; [|done]. apply map_err_is_ok in Ev. simpl in E.
  injection E as <- <- <- <- <-. unfold preparing in Ep. bind_ok Ep. injection Ep as <-.
  unfold manifest_from_str in Em. bind_ok Em. injection Em as <-.
  repeat split; try done; [|by eexists]. unfold manifest_try_from.
  match goal with Hd : deserialize_str _ = Ok _ |- _ => rewrite (Hsame _ _ _ Hd Ec) end. simpl.
  by match goal with Hd : single_milestone _ = Ok _ |- _ => rewrite Hd end.
Qed.

Lemma add_begin_ok s call r now :
  same_manifest → service_ok s →
  (∀ id m c cfg v, add_checked r = Ok (id, m, c, cfg, v) → (id, now) ∉ made_at s) →
  service_ok (add_begin s call r now).1.
Proof.
  intros Hsame Hs Hnow. unfold add_begin. destruct (add_checked r) as [[[[[id m] c] cfg] v]|] eqn:E; [|done].
  specialize (Hnow _ _ _ _ _ eq_refl).
  apply add_checked_ok in E as (Em & Ei & Ec & Ep & Ev); [|done].
  unfold create. destruct (catalog (objects s) !! id) eqn:El; [done|]. simpl.
  match goal with |- service_ok ?x => set (s' := x) end.
  assert (grows s s') as Hg.
  { split; [set_solver|]. intros id' made ready Hmade Hf (fw & Hfw & <-). simpl in Hfw.
    apply lookup_insert_Some in Hfw as [[<- <-]|[_ Hfw]]; [done|].
    apply Hf. by exists fw. }
  apply (service_ok_step s); [done|done| | |by left].
  - intros id' fw. simpl. rewrite lookup_insert_Some. intros [[<- <-]|[_ ?]]; [right|by left].
    split; [done|]. split; [simpl; set_solver|]. split.
    + exists m. pose proof Ec as (? & _ & Er). by rewrite Er.
    + exists c, v, m. rewrite Ep. repeat (split; [done|]). split; [|done]. split; [done|]. by rewrite Ep.
  - intros k a. simpl. rewrite lookup_insert_Some. intros [[_ <-]|[_ ?]]; [by right|by left].
Qed.

Lemma add_choose_ok s call now : service_ok s → service_ok (add_choose s call now).1.
Proof.
  intros Hs. unfold add_choose. destruct (adds s !! call) as [[r id m c|]|] eqn:E; [|done..].
  pose proof (proj1 (proj2 Hs) call _ E) as Ha. simpl in Ha.
  pose proof (chosen_row (objects s) id now) as Hrow. specialize (Hrow).
  assert (∀ id' fw', catalog (if request_default r then set_default (objects s) id now
            else set_default_if_none (objects s) id now).1 !! id' = Some fw' →
            ∃ fw, catalog (objects s) !! id' = Some fw ∧ same_row fw fw') as Hsame.
  { destruct (request_default r); [apply set_default_same|apply set_default_if_none_same]. }
  destruct (same_rows_step s _ Hs Hsame) as [Hg Hok].
  specialize (λ fw, Hrow fw (request_default r)).
  destruct (if request_default r then _ else _) as [o [fw|e]]; simpl in *.
  - specialize (Hrow fw eq_refl). apply (service_ok_step (with_objects s o)); [done|by split|by left| |by left].
    intros k a. simpl. rewrite lookup_insert_Some. intros [[_ <-]|[_ ?]]; [right|by left].
    destruct (proj1 Hok id fw Hrow) as (Hid & Hm & _). done.
  - apply (service_ok_step s); [done|by split|by left| |by left].
    intros k a. simpl. rewrite lookup_delete_Some. intros [_ ?]. by left.
Qed.

Lemma add_register_ok s call : service_ok s → service_ok (add_register s call).1.
Proof.
  intros Hs. unfold add_register. destruct (adds s !! call) as [[|id fw m c]|] eqn:E; [done| |done].
  pose proof (proj1 (proj2 Hs) call _ E) as (Hid & Hm & Hc). simpl.
  apply (service_ok_step s); [done|by split|by left| |].
  - intros k a. simpl. rewrite lookup_delete_Some. intros [_ ?]. by left.
  - intros k t. simpl. rewrite lookup_insert_Some. intros [[_ <-]|[_ ?]]; [right|by left].
    split; [simpl; by rewrite Hid|]. split; [done|]. intros _ _ a Ha. by apply elem_of_empty in Ha.
Qed.

Lemma delete_begin_ok s call id : service_ok s → service_ok (delete_begin s call id).1.
Proof.
  intros Hs. unfold delete_begin. destruct (validate_firmware_object_id id); [|done]. simpl.
  unfold cancel_firmware_download.
  destruct (firmware_download_cancellations s !! id); apply (service_ok_step s); try done; by left.
Qed.

Lemma delete_row_ok s call : service_ok s → service_ok (delete_row s call).1.
Proof.
  intros Hs. unfold delete_row. destruct (deletes s !! call) as [[id|]|]; [|done..].
  unfold delete_object. destruct (catalog (objects s) !! id) as [fw|]; simpl.
  - apply (service_ok_step s); [done| | |by left|by left].
    + apply grows_live; [done..|]. intros id' made (fw' & Hl & <-). simpl in Hl.
      apply lookup_delete_Some in Hl as [_ Hl]. by exists fw'.
    + intros id' fw'. simpl. rewrite lookup_delete_Some. intros [_ ?]. by left.
  - apply (service_ok_step s); try done; by left.
Qed.

Lemma delete_cache_ok s call left_over : service_ok s → service_ok (delete_cache s call left_over).1.
Proof.
  intros Hs. unfold delete_cache. destruct (deletes s !! call) as [[|id]|]; [done| |done]. simpl.
  apply (service_ok_step s); [done| |by left|by left|by left]. split; [done|].
  intros id' made ready _ Hf (fw & Hfw & <-) Hnw a Ha. simpl in *.
  destruct (decide (id' = id)) as [->|Hne].
  - rewrite Hfw in Hnw. set_solver.
  - rewrite elem_of_union, elem_of_filter. assert ((id', a) ∈ cache s ∪ discarded s) as Hin.
    { apply Hf; [by exists fw| |done]. destruct (catalog (objects s) !! id); set_solver. }
    apply elem_of_union in Hin as [?|?]; [left|by right]. split; [by left|done].
Qed.

Lemma work_result_ok m done e b ready :
  work_end_ok m done e → work_result m e b = Ok ready → work_done m ready ∧ ready = fetched done.
Proof.
  destruct e as [|e|downloads]; [done|by intros _ E; simpl in E; bind_ok E|]. simpl.
  intros (<- & artifacts & Ew & Hp) E. rewrite Ew in E. simpl in E.
  apply ArtifactTheorems.materialize_exact in E as (_ & Ho & Er). split; [|done]. exists artifacts. split; [done|].
  assert (∀ x, x ∈ ready ↔ ∃ a u, (a, Ok u) ∈ downloads ∧ ArtifactDownload.id a = x) as Hready.
  { intros x. rewrite Er, elem_of_list_to_set, list_elem_of_omap. split.
    - intros ([a [u|e]] & Hd & Ex); [|done]. injection Ex as <-. eauto.
    - intros (a & u & Hd & <-). by exists (a, Ok u). }
  split.
  - intros a Ha Hreq. rewrite <- Hp in Ha. apply list_elem_of_fmap in Ha as ([a' [u|e]] & -> & Hd).
    + apply Hready. eauto.
    + apply Ho in Hd. simpl in Hreq. congruence.
  - intros x (a & u & Hd & <-)%Hready. exists a. split; [|done]. rewrite <- Hp.
    by apply (list_elem_of_fmap_2 fst) in Hd.
Qed.

(** A task goes on to another stage. *)
Lemma stage_step s s' token t g :
  service_ok s → tasks s !! token = Some t → grows s s' → objects s' = objects s → adds s' = adds s →
  tasks s' = <[token := set_stage t g]> (tasks s) → task_ok s' (set_stage t g) → service_ok s'.
Proof.
  intros Hs Ht Hg Eo Ea Et Hok. apply (service_ok_step s); [done|done|rewrite Eo; by left|rewrite Ea; by left|].
  intros k t'. rewrite Et, lookup_insert_Some. intros [[_ <-]|[_ ?]]; [by right|by left].
Qed.

Lemma task_discard_ok s token a : service_ok s → service_ok (task_discard s token a).
Proof.
  intros Hs. unfold task_discard. destruct (tasks s !! token) as [t|]; [|done]. destruct (task_stage t); try done.
  apply (service_ok_step s); [done| |by left|by left|by left].
  apply grows_live; [done|done| |done]. intros f. simpl.
  destruct (decide (f = (fw_id (task_firmware t), ArtifactDownload.id a))) as [->|]; set_solver.
Qed.

Lemma fetched_snoc done a r :
  fetched (done ++ [(a, r)]) = if is_ok r then fetched done ∪ {[ArtifactDownload.id a]} else fetched done.
Proof.
  unfold fetched. rewrite omap_app, list_to_set_app_L. simpl. destruct r; simpl.
  - by rewrite union_empty_r_L.
  - by rewrite union_empty_r_L.
Qed.

Lemma task_fetch_ok s token a r : service_ok s → service_ok (task_fetch s token a r).
Proof.
  intros Hs. unfold task_fetch. destruct (tasks s !! token) as [t|] eqn:Ht; [|done].
  pose proof (proj2 (proj2 Hs) token t Ht) as (Hm & Hc & Hf). destruct (task_stage t) as [ended| | |]; [|exact Hs..].
  match goal with |- service_ok ?x => set (s' := x) end.
  set (file := (fw_id (task_firmware t), ArtifactDownload.id a)) in *.
  assert (∀ f, f ∈ cache s ∪ discarded s → f ∈ cache s' ∪ discarded s') as Hsub.
  { intros f. simpl. destruct (is_ok r); [|done]. destruct (decide (f = file)) as [->|]; set_solver. }
  assert (grows s s') as Hg by by apply grows_live.
  eapply stage_step; [exact Hs|exact Ht|done..|]. split; [done|]. split; [done|]. simpl.
  rewrite fetched_snoc. destruct (is_ok r) eqn:Er; [|by apply Hg].
  intros Hl Hnw x [Hx|Hx]%elem_of_union; [by apply (proj2 Hg _ _ _ Hm Hf)|].
  apply elem_of_singleton in Hx as ->. simpl. set_solver.
Qed.

Lemma task_work_ok s token e t done :
  service_ok s → tasks s !! token = Some t → task_stage t = Working done →
  work_end_ok (task_manifest t) done e → service_ok (task_work s token e).
Proof.
  intros Hs Ht Est He. unfold task_work. rewrite Ht, Est.
  pose proof (proj2 (proj2 Hs) token t Ht) as (Hm & Hc & Hf). rewrite Est in Hf.
  eapply stage_step; [exact Hs|exact Ht|by apply grows_live|done..|]. split; [done|]. split; [done|]. simpl.
  destruct (work_result _ _ _) as [ready|err] eqn:E; (split; [done|]); [|done]. intros _.
  by apply (work_result_ok _ done) in E as [Hd ->].
Qed.

Lemma task_check_ok s token : service_ok s → service_ok (task_check s token).
Proof.
  intros Hs. unfold task_check. destruct (tasks s !! token) as [t|] eqn:Ht; [|done].
  pose proof (proj2 (proj2 Hs) token t Ht) as (Hm & Hof & Hst). destruct (task_stage t) as [|c| |]; try done.
  eapply stage_step; [exact Hs|exact Ht|by apply grows_live|done..|]. split; [done|]. split; [done|]. simpl.
  destruct (is_cancelled s token); [done|]. destruct (catalog_to_value c) as [v|] eqn:Ev; [|done].
  exists c. split; [done|]. split; [done|]. by destruct (preparation c).
Qed.

Lemma task_publish_ok s token now : service_ok s → service_ok (task_publish s token now).
Proof.
  intros Hs. unfold task_publish. destruct (tasks s !! token) as [t|] eqn:Ht; [|done].
  pose proof (proj2 (proj2 Hs) token t Ht) as (Hm & Hof & Hst). destruct (task_stage t) as [| |v b|]; try done.
  destruct Hst as (c & Ev & Hc & Hb). set (fw := task_firmware t) in *.
  match goal with |- service_ok ?x => set (s' := x) end.
  assert (grows s s') as Hg.
  { apply grows_live; [done..|]. intros id made (fw' & Hl & <-). revert Hl. simpl. unfold finish_preparation.
    destruct (catalog (objects s) !! fw_id fw) as [g|] eqn:Eg; [case_bool_decide|]; simpl; [|by exists fw'..].
    rewrite lookup_insert_Some. intros [[<- <-]|[_ ?]]; [by exists g|by exists fw']. }
  apply (service_ok_step s); [done|done| |by left|].
  - intros id fw'. simpl. unfold finish_preparation.
    destruct (catalog (objects s) !! fw_id fw) as [g|] eqn:Eg; [case_bool_decide as Ec|]; simpl; [|by left..].
    rewrite lookup_insert_Some. intros [[<- <-]|[_ ?]]; [right|by left].
    destruct (row_ok_grows _ _ _ _ Hg (proj1 Hs _ g Eg)) as (Hid & Hmade & Hman & _).
    repeat (split; [done|]). exists c, v, (task_manifest t). repeat (split; [done|]). split; [|done].
    simpl. rewrite Ec. by eapply catalog_ok_grows.
  - intros k t'. simpl. rewrite lookup_insert_Some. intros [[_ <-]|[_ ?]]; [right|by left].
    by repeat (split; [done|]).
Qed.

Lemma task_unregister_ok s token : service_ok s → service_ok (task_unregister s token).
Proof.
  intros Hs. unfold task_unregister. destruct (tasks s !! token) as [t|] eqn:Ht; [|done].
  destruct (task_stage t); try done. apply (service_ok_step s); [done|by apply grows_live|by left|by left|].
  intros k t'. simpl. rewrite lookup_delete_Some. intros [_ ?]. by left.
Qed.

Lemma handle_set_default_ok s id now : service_ok s → service_ok (handle_set_default s id now).1.
Proof.
  intros Hs. unfold handle_set_default. pose proof (same_rows_step s (set_default (objects s) id now).1 Hs) as Hr.
  destruct (set_default (objects s) id now) as [o r] eqn:E. simpl in *. apply Hr. intros id' fw' Hl.
  apply (set_default_same _ id now). by rewrite E.
Qed.

Lemma start_ok : service_ok start.
Proof. split_and!; apply map_Forall_empty. Qed.

Lemma service_step_ok s s' : same_manifest → service_ok s → step s s' → service_ok s'.
Proof.
  intros Hsame Hs. destruct 1; eauto using add_begin_ok, add_choose_ok, add_register_ok, delete_begin_ok,
    delete_row_ok, delete_cache_ok, task_discard_ok, task_fetch_ok, task_work_ok, task_check_ok, task_publish_ok, task_unregister_ok,
    handle_set_default_ok.
Qed.

Lemma reachable_service_ok s : same_manifest → reachable s → service_ok s.
Proof.
  intros Hsame Hr. unfold reachable in Hr. remember start as s0 eqn:E0.
  assert (service_ok s0) as H0' by (subst; apply start_ok). clear E0.
  induction Hr as [|s1 s2 s3 Hst _ IH]; [done|]. apply IH. by eapply service_step_ok.
Qed.

(** Two manifests that were read have one revision only if they are one: SHA-256 has
    no collision among them. *)
Definition revisions_distinct : Prop := ∀ m m' r,
  was_read m → was_read m' → manifest_revision m = Ok r → manifest_revision m' = Ok r → m = m'.

Definition changed_message : string := "stored manifest changed after artifact preparation; re-add this object".

(** C18. An object that can be applied was prepared from its own manifest. In any
    interleaving of additions, preparations with their downloads, deletions and
    re-additions, an object of the store is loaded for an update only if it is
    available, and then the manifest is that of its document, and its ready
    artifacts are artifacts of that manifest and include every required one. The
    file of each is in its cache directory, with two exceptions: the directory was
    removed while the object was in the store, or a download, which can be one of
    an earlier object of the same ID, discarded the file after the last one that
    wrote it. An available object is refused only because its catalog is that of
    another manifest. Assumed is that two objects of one ID are not created at the
    same reading of the clock, that manifests which were read have different
    revisions, which are SHA-256 digests, unless they are equal, that a catalog is
    read back from the JSON it was written to, and that a manifest that is read
    from a text is also the one that is read from the text's JSON value. *)
Theorem loaded_object_prepared s id fw :
  same_manifest → catalog_read_back → revisions_distinct →
  reachable s → catalog (objects s) !! id = Some fw →
  match load_stored fw with
  | Ok (m, c) =>
      available fw = true ∧ manifest_try_from (config fw) = Ok m ∧ firmware_object_id_from_manifest m = Ok id ∧
      work_done m (ready_artifacts c) ∧
      ((id, created fw) ∉ wiped s → ∀ a, a ∈ ready_artifacts c → (id, a) ∉ discarded s → (id, a) ∈ cache s)
  | Err e => available fw = true → e = changed_message
  end.
Proof.
  intros Hsame Hback Hdist Hr Hl. destruct (proj1 (reachable_service_ok s Hsame Hr) id fw Hl) as
    (Hid & _ & (m & Hread & Em & Eid & Hrev) & c & v & m' & Ep & Ev & ((Hread' & Ef & Er) & Hdone) & Hav).
  destruct (Hback _ _ Ev) as [[x Ex] Efrom]. destruct (manifest_revision m) as [r|] eqn:Erm; [|done].
  unfold load_stored, require_catalog, stored_catalog. rewrite Ep, Ex, Efrom. simpl. rewrite Ef. simpl.
  destruct (preparation c) as [| |message] eqn:Epr; simpl; [by intros ?%Hav| |by intros ?%Hav].
  rewrite (proj2 Hav eq_refl). simpl. rewrite Em. simpl. rewrite Erm. simpl.
  destruct (String.eqb_spec r (revision c)) as [->|Hne]; [|done].
  pose proof (Hdist m m' _ Hread Hread' Erm Er) as <-. destruct (Hdone eq_refl) as [Hwork Hfiles].
  split_and!; try done. intros Hnw a Ha Hd.
  assert ((id, a) ∈ cache s ∪ discarded s) as Hin by (apply Hfiles; [by exists fw|done..]).
  by apply elem_of_union in Hin as [?|?].
Qed.

(** ** IDs *)

Lemma split_on_single d l : d ∉ l → split_on d l = [l].
Proof.
  induction l as [|c l IH]; [done|]. rewrite not_elem_of_cons. intros [Hc Hl]. simpl.
  destruct (Ascii.eqb_spec c d) as [->|]; [done|]. by rewrite IH.
Qed.

(** The ID of an object is one name in the directory of the caches: it is accepted
    if and only if it is not empty, has no separator of either kind, and is neither
    [.] nor [..]. *)
Theorem object_id_confined id :
  validate_firmware_object_id id = Ok tt ↔
  id ≠ "" ∧ (slash ∉ to_chars id) ∧ (backslash ∉ to_chars id) ∧ id ≠ "." ∧ id ≠ "..".
Proof.
  unfold validate_firmware_object_id.
  assert (∀ c, negb (contains_str (to_chars id) [c]) = true ↔ c ∉ to_chars id) as Hc.
  { intros c. rewrite negb_true_iff, <- not_true_iff_false. by rewrite contains_char. }
  assert (∀ x, to_chars id = to_chars x ↔ id = x) as Hx.
  { intros x. split; [|by intros ->]. intros E. rewrite <- (of_to_chars id), <- (of_to_chars x). by rewrite E. }
  destruct (_ && _ && _ && _) eqn:E.
  - split; [|done]. intros _. apply andb_true_iff in E as [[[E1 E2]%andb_true_iff Hs%Hc]%andb_true_iff Hb%Hc].
    apply negb_true_iff, String.eqb_neq in E1. split_and!; try done.
    all: intros ->; vm_compute in E2; discriminate E2.
  - split; [done|]. intros (Hne & Hs & Hb & Hdot & Hdots). exfalso. revert E.
    apply Hc in Hb. pose proof Hs as Hs'. apply Hc in Hs'. rewrite Hb, Hs', !andb_true_r.
    apply String.eqb_neq in Hne as En. rewrite En. simpl. unfold path_components. rewrite split_on_single by done.
    assert (starts_with (to_chars id) [slash] = false) as ->.
    { apply not_true_iff_false. intros [r Er]%starts_with_split. rewrite Er in Hs. set_solver. }
    simpl. unfold path_component. destruct (to_chars id) eqn:Ei; [by destruct Hne; apply Hx|]. rewrite <- Ei in *.
    rewrite !bool_decide_eq_false_2; [done|by rewrite Hx|by rewrite Hx].
Qed.
End Invariant.

(** ** Two manifests with one ID *)

Module LifecycleExample.
#[export] Existing Instance PlanExample.example_urls.

#[export] Instance example_reqwest : Reqwest := {
  Artifacts.ReqError := unit;
  Artifacts.is_timeout _ := false;
  Artifacts.causes _ := [];
  Artifacts.without_url e := e;
  Artifacts.status_display := pretty;
}.

Definition state_of (m : FirmwareManifest) : string :=
  match milestones m with [x] => default "" (milestone_state x) | _ => "" end.

#[export] Instance example_manifests : ManifestEnv := {
  manifest_json m := Ok (to_chars (state_of m));
  identity_json revision _ _ _ filename := Ok (to_chars (revision +++ filename));
  sha256_hex := of_chars;
  linkx_from_value _ := Err "none";
}.

#[export] Instance example_values : SerdeJson := {
  from_str text := Ok (JString text);
  to_string _ := "";
  serialize _ := Err "";
}.

Definition manifest_in (state : string) : FirmwareManifest :=
  mkManifest "GB200" [mkMilestone "1" (Some state)
    [mkBoardSku None "b" "Compute Node" (mkComponents [] [PlanExample.hmc])]].

Definition read (text : string) : result string FirmwareManifest :=
  if String.eqb text "draft" || String.eqb text "final" then Ok (manifest_in text) else Err "unreadable".

Definition state_value (p : Preparation) : json :=
  match p with Preparing => JNull | Ready => JBool true | PreparationFailed e => JString e end.

Definition catalog_fields (c : ArtifactCatalog) : json_map :=
  {["format_version" := JNumber (PosInt (format_version c)); "revision" := JString (revision c);
    "preparation" := state_value (preparation c);
    "ready_artifacts" := JArray (JString <$> elements (ready_artifacts c))]}.

Definition string_of (v : json) : option string := match v with JString x => Some x | _ => None end.

#[export] Instance example_catalogs : CatalogJson := {
  deserialize_str := read;
  deserialize_value v := match v with JString text => read text | _ => Err "not a text" end;
  catalog_to_value c := Ok (JObject (catalog_fields c));
  catalog_from_value v :=
    match value_get v "format_version", value_get v "revision", value_get v "preparation",
          value_get v "ready_artifacts" with
    | Some (JNumber (PosInt n)), Some (JString r), Some p, Some (JArray l) =>
        Ok (mkCatalog n r match p with JString e => PreparationFailed e | JBool true => Ready | _ => Preparing end
              (list_to_set (omap string_of l)))
    | _, _, _, _ => Err "not a catalog"
    end;
}.

Lemma omap_string_fmap (l : list string) : omap string_of (JString <$> l) = l.
Proof. induction l as [|x l IH]; [done|]. cbn. f_equal. exact IH. Qed.

Lemma example_same : same_manifest.
Proof. intros text m v Hm [= <-]. exact Hm. Qed.

Lemma example_read_back : catalog_read_back.
Proof.
  intros [n r p l] v [= <-]. split; [by eexists|]. simpl. unfold value_get, catalog_fields. simpl_map. simpl.
  do 2 f_equal; [by destruct p|]. rewrite (omap_string_fmap (elements l)). apply list_to_set_elements_L.
Qed.

Lemma example_distinct : revisions_distinct.
Proof.
  assert (∀ m, was_read m → m = manifest_in "draft" ∨ m = manifest_in "final") as Hr.
  { intros m [text Ht]. simpl in Ht. unfold read in Ht.
    destruct (String.eqb text "draft") eqn:Ed; cbn [orb] in Ht; [apply String.eqb_eq in Ed; left; congruence|].
    destruct (String.eqb text "final") eqn:Ef; [apply String.eqb_eq in Ef; right; congruence|done]. }
  intros m m' r [-> | ->]%Hr [-> | ->]%Hr; try done; intros [= <-]; vm_compute; discriminate.
Qed.

(** The artifacts of the manifest, and a download of each that succeeds. *)
Definition example_artifacts (state : string) : list Artifact :=
  match work_artifacts (manifest_in state) with Ok artifacts => unique_artifacts artifacts | Err _ => [] end.

Definition all_downloaded (state : string) : list (Artifact * result ArtifactError unit) :=
  (fun a => (a, Ok tt)) <$> example_artifacts state.

Definition request (state : string) : AddFirmwareObjectRequest := mkAddRequest state "rack" false.
Definition object_name : string := "GB200_1".

(** The task has downloaded these. *)
Definition downloaded (s : Service) (token : nat) (l : list Artifact) : Service :=
  foldl (fun s a => task_fetch s token a (Ok tt)) s l.

Lemma downloaded_reachable s token t done l artifacts :
  reachable s → tasks s !! token = Some t → task_stage t = Working done →
  work_artifacts (task_manifest t) = Ok artifacts → NoDup (done.*1 ++ l) → l ⊆ unique_artifacts artifacts →
  reachable (downloaded s token l) ∧
  ∃ t', tasks (downloaded s token l) !! token = Some t' ∧ task_manifest t' = task_manifest t ∧
    task_stage t' = Working (done ++ ((fun a => (a, Ok tt)) <$> l)).
Proof.
  revert s t done. induction l as [|a l IH]; intros s t done Hs Ht Hst Hw Hn Hl; simpl.
  { split; [done|]. exists t. by rewrite app_nil_r. }
  assert (work_pending (task_manifest t) done a) as Hp.
  { exists artifacts. split; [done|]. split; [apply Hl; by left|].
    apply NoDup_app in Hn as (_ & Hn & _). intros Hin. apply (Hn a Hin). by left. }
  destruct (IH (task_fetch s token a (Ok tt)) (set_stage t (Working (done ++ [(a, Ok tt)])))
    (done ++ [(a, Ok tt)])) as (Hr & t' & Ht' & Hm & Hst'); try done.
  - eapply rtc_r; [exact Hs|]. by eapply StepFetch.
  - unfold task_fetch. rewrite Ht, Hst. simpl. by rewrite lookup_insert_eq.
  - rewrite fmap_app, <- app_assoc. done.
  - intros x Hx. apply Hl. by right.
  - split; [done|]. exists t'. split; [done|]. split; [done|]. by rewrite Hst', <- app_assoc.
Qed.

(** The preparation of the task runs to its end. *)
Definition prepared (s : Service) (token : nat) (state : string) : Service :=
  task_publish (task_check (task_work (downloaded s token (example_artifacts state)) token
    (Downloaded (all_downloaded state))) token) token 9.

(** There is something to download, and no artifact twice. *)
Definition downloadable (state : string) : bool :=
  is_ok (work_artifacts (manifest_in state)) &&
  bool_decide (NoDup (ArtifactDownload.id <$> example_artifacts state)).

Lemma prepared_reachable s token t state :
  reachable s → tasks s !! token = Some t → task_stage t = Working [] →
  task_manifest t = manifest_in state → downloadable state = true → reachable (prepared s token state).
Proof.
  intros Hs Ht Hst Hm [Hw Hn%bool_decide_eq_true%NoDup_fmap_1]%andb_true_iff. unfold prepared.
  destruct (work_artifacts (manifest_in state)) as [artifacts|] eqn:Ew; [|done].
  destruct (downloaded_reachable s token t [] (example_artifacts state) artifacts) as (Hr & t' & Ht' & Hm' & Hst');
    try done.
  - by rewrite Hm.
  - unfold example_artifacts. by rewrite Ew.
  - eapply rtc_r; [|apply StepPublish]. eapply rtc_r; [|apply StepCheck]. eapply rtc_r; [exact Hr|].
    eapply StepWork; [exact Ht'|exact Hst'|]. split; [done|]. exists artifacts. rewrite Hm', Hm. split; [done|].
    unfold all_downloaded, example_artifacts. rewrite Ew, <- list_fmap_compose. by rewrite list_fmap_id.
Qed.
End LifecycleExample.
Import LifecycleExample.

(** Added and registered, not yet prepared. *)
Definition added (s : Service) (call : nat) (state : string) (now : Z) : Service :=
  (add_register (add_choose (add_begin s call (request state) now).1 call now).1 call).1.

Lemma added_reachable s call state now :
  reachable s → adds s !! call = None → (∀ id, (id, now) ∉ made_at s) → reachable (added s call state now).
Proof.
  intros Hs Ha Hn. unfold reachable, added in *. eapply rtc_r; [|apply StepAddRegister].
  eapply rtc_r; [|apply StepAddChoose]. eapply rtc_r; [exact Hs|]. by apply StepAddBegin.
Qed.

(** What loading the object gives: the number of its ready artifacts. *)
Definition loaded (s : Service) : option (result string nat) :=
  (fun fw => let? mc := load_stored fw in Ok (size (ready_artifacts mc.2))) <$> catalog (objects s) !! object_name.

Lemma loaded_ok s n :
  loaded s = Some (Ok n) →
  ∃ fw m c, catalog (objects s) !! object_name = Some fw ∧ load_stored fw = Ok (m, c) ∧ size (ready_artifacts c) = n.
Proof.
  intros (fw & Ec & El)%fmap_Some. destruct (load_stored fw) as [[m c]|e] eqn:Em; [|discriminate El].
  exists fw, m, c. by injection El.
Qed.

Definition one_added : Service := added start 0 "final" 1.
Definition one_prepared : Service := prepared one_added 0 "final".

(** A task that has not begun to download. *)
Definition idle_task (s : Service) (token : nat) : option FirmwareManifest :=
  t ← tasks s !! token; match task_stage t with Working [] => Some (task_manifest t) | _ => None end.

Lemma task_prepared s token state :
  reachable s → idle_task s token = Some (manifest_in state) → downloadable state = true →
  reachable (prepared s token state).
Proof.
  intros Hs (t & Et & Em)%bind_Some Hd. destruct (task_stage t) as [[|]| | |] eqn:Est; try done.
  eapply prepared_reachable; try done. by injection Em.
Qed.

Lemma one_prepared_reachable : reachable one_prepared.
Proof.
  apply task_prepared; [|vm_compute; reflexivity..].
  apply added_reachable; [apply rtc_refl|apply lookup_empty|]. intros. apply not_elem_of_empty.
Qed.

Lemma one_prepared_loaded : loaded one_prepared = Some (Ok 2).
Proof. vm_compute. reflexivity. Qed.

Lemma loaded_object_prepared_witness :
  ∃ fw m c, catalog (objects one_prepared) !! object_name = Some fw ∧
    load_stored fw = Ok (m, c) ∧ size (ready_artifacts c) = 2 ∧ work_done m (ready_artifacts c) ∧
    ∀ a, a ∈ ready_artifacts c → (object_name, a) ∈ cache one_prepared.
Proof.
  destruct (loaded_ok _ _ one_prepared_loaded) as (fw & m & c & Ec & Em & Hn). exists fw, m, c.
  split; [exact Ec|]. split; [exact Em|]. split; [exact Hn|].
  pose proof (loaded_object_prepared _ _ _ example_same example_read_back example_distinct
                one_prepared_reachable Ec) as Hp.
  rewrite Em in Hp. destruct Hp as (_ & _ & _ & Hw & Hf). split; [exact Hw|]. intros a Ha.
  apply Hf; [|exact Ha|]; apply not_elem_of_empty.
Defined.

(** ** What is not true of all interleavings *)

Lemma fresh_time s now :
  forallb (fun x => negb (x.2 =? now)%Z) (elements (made_at s)) = true → ∀ id, (id, now) ∉ made_at s.
Proof.
  intros Hf id Hin. rewrite forallb_forall in Hf. specialize (Hf (id, now)).
  rewrite <- list_elem_of_In, elem_of_elements in Hf. specialize (Hf Hin). simpl in Hf.
  apply negb_true_iff, Z.eqb_neq in Hf. done.
Qed.

(** Deleted up to the removal of the directory. *)
Definition row_deleted (s : Service) (call : nat) : Service := (delete_row (delete_begin s call object_name).1 call).1.

Lemma row_deleted_reachable s call : reachable s → deletes s !! call = None → reachable (row_deleted s call).
Proof.
  intros Hs Hd. unfold reachable, row_deleted in *. eapply rtc_r; [|apply StepDeleteRow].
  eapply rtc_r; [exact Hs|]. by apply StepDeleteBegin.
Qed.

(** The object is deleted and added again, from another document, while its first
    addition waits for the store. *)
Definition overtaken : Service :=
  (add_begin (row_deleted (add_begin start 0 (request "draft") 1).1 0) 1 (request "final") 2).1.
Definition misdirected : Service := prepared (add_register (add_choose overtaken 0 3).1 0).1 0 "draft".

(** A preparation can publish into another object. When an object is deleted and
    added again between the two calls of the first addition to the store, that
    addition goes on with the row of the second one, and its preparation makes the
    second object available with the catalog of the first document; loading the
    object finds that the revisions differ and refuses it. *)
Theorem publishes_into_another :
  reachable misdirected ∧
  (fun fw => (available fw, config fw)) <$> catalog (objects misdirected) !! object_name = Some (true, JString "final") ∧
  loaded misdirected = Some (Err changed_message).
Proof.
  split; [|split; vm_compute; reflexivity]. apply task_prepared; [|vm_compute; reflexivity..].
  unfold reachable. eapply rtc_r; [|apply StepAddRegister]. eapply rtc_r; [|apply StepAddChoose].
  eapply rtc_r; [|apply StepAddBegin; [vm_compute; reflexivity|intros; apply fresh_time; vm_compute; reflexivity]].
  apply row_deleted_reachable; [|vm_compute; reflexivity].
  apply rtc_once, StepAddBegin; [vm_compute; reflexivity|]. intros. apply not_elem_of_empty.
Qed.

(** The object is added again, and prepared, before its deletion removes the directory. *)
Definition readded : Service := added (row_deleted (added start 0 "draft" 1) 0) 1 "final" 2.
Definition emptied : Service := (delete_cache (prepared readded 1 "final") 0 ∅).1.

(** A deletion can remove the files of another object. The directory of an ID is
    removed after its row: an object that is added in between, and is prepared
    before the removal, stays available and is loaded, but none of its files is
    left. *)
Theorem deletion_empties_another :
  reachable emptied ∧ loaded emptied = Some (Ok 2) ∧ cache emptied = ∅.
Proof.
  split; [|split; vm_compute; reflexivity].
  eapply rtc_r; [|apply StepDeleteCache]. apply task_prepared; [|vm_compute; reflexivity..].
  apply added_reachable; [|vm_compute; reflexivity|apply fresh_time; vm_compute; reflexivity].
  apply row_deleted_reachable; [|vm_compute; reflexivity].
  apply added_reachable; [apply rtc_refl|vm_compute; reflexivity|]. intros. apply not_elem_of_empty.
Qed.

(** The object is deleted just before its token is registered. *)
Definition unstopped : Service :=
  (add_register (delete_cache (row_deleted (add_choose (add_begin start 0 (request "draft") 1).1 0 1).1 0) 0 ∅).1 0).1.

Lemma unstopped_reachable : reachable unstopped.
Proof.
  unfold reachable. eapply rtc_r; [|apply StepAddRegister]. eapply rtc_r; [|apply StepDeleteCache].
  apply row_deleted_reachable; [|vm_compute; reflexivity]. eapply rtc_r; [|apply StepAddChoose].
  apply rtc_once, StepAddBegin; [vm_compute; reflexivity|]. intros. apply not_elem_of_empty.
Qed.

Lemma readded_reachable : reachable (added unstopped 1 "draft" 2).
Proof.
  apply added_reachable; [apply unstopped_reachable|vm_compute; reflexivity|].
  apply fresh_time. vm_compute. reflexivity.
Qed.

(** A deletion that is answered can leave the download running: the token is
    registered after the row is written, so a deletion in between finds nothing to
    cancel, and the preparation of the object that is gone starts all the same. *)
Theorem download_outlives_deletion :
  reachable unstopped ∧ catalog (objects unstopped) !! object_name = None ∧ deletes unstopped = ∅ ∧
  task_manifest <$> tasks unstopped !! 0 = Some (manifest_in "draft") ∧ cancelled_tokens unstopped = ∅.
Proof. split; [apply unstopped_reachable|split_and!; vm_compute; reflexivity]. Qed.

(** The object is added again and prepared, while the download of the first one, which
    the deletion did not stop, is told that there is no such file any more. *)
Definition readded_prepared : Service := prepared (added unstopped 1 "draft" 2) 1 "draft".
Definition outlived : Service :=
  foldl (fun s a => task_discard s 0 a) readded_prepared (take 1 (example_artifacts "draft")).

(** A download can discard a file of another object: a preparation that outlives its
    object shares the directory with the next one of that ID, and when the size of a
    cached file without a digest does not match, or the server refuses the question,
    removes it. The object stays available and is loaded; one of its two files is
    gone, and no directory was removed. *)
Theorem download_discards_from_another :
  reachable outlived ∧ loaded outlived = Some (Ok 2) ∧ size (cache outlived) = 1 ∧ wiped outlived = ∅.
Proof.
  split; [|split_and!; vm_compute; reflexivity].
  assert (reachable readded_prepared) as Hr
    by (apply task_prepared; [apply readded_reachable|vm_compute; reflexivity..]).
  assert (idle_task readded_prepared 0 = Some (manifest_in "draft")) as (t & Et & Est)%bind_Some
    by (vm_compute; reflexivity).
  destruct (task_stage t) as [[|]| | |] eqn:Est'; try discriminate Est. injection Est as Em.
  unfold outlived. destruct (example_artifacts "draft") as [|a l] eqn:Ea; simpl.
  - exact Hr.
  - eapply rtc_r; [exact Hr|]. eapply StepDiscard; [exact Et|exact Est'|]. rewrite Em.
    unfold example_artifacts in Ea. destruct (work_artifacts (manifest_in "draft")) as [artifacts|] eqn:Ew; [|discriminate Ea].
    exists artifacts. split; [exact Ew|]. rewrite Ea. split; [by left|apply not_elem_of_nil].
Qed.
End FirmwareLifecycleTheorems.
