(* ===== verification/FirmwareApply.v ===== *)
(** * Applying firmware objects

    [api/grpc/firmware_object_handlers.rs] and [workflow.rs]: which object a request
    means, what is selected for each node type, how the files of an update, of a
    switch image and of a recovery are made ready, and what is recorded of the
    jobs that completed; with the checks of [firmware_handlers.rs] on the targets of
    one node.  Files and downloads are those of [ArtifactDownload]; a lookup of the
    metadata of a file does not fail.  The downloads of [materialize], of which the
    code runs eight at once, run one after the other here. *)

From S2P Require Import Prelude RustStd RustStr RustBytes Json RmsError JobTypes JobStore JobRegistry FirmwareStore.
From S2P Require Import NodeTypes RequestMessages NodeSelector HardwareProfiles HardwarePlan PldmPackage Net Artifacts.
From S2P Require Import ArtifactDownload FirmwareManifest FirmwarePlan FirmwareRecovery FirmwareLifecycle.
From Stdlib Require Import Ascii.
Local Open Scope string_scope.
Local Open Scope list_scope.

Module Apply.
Import NodeTypes Net Manifest Mappings FirmwarePlan Recovery Firmware Lifecycle.
Import Artifacts (Reqwest, ArtifactError).
Import ArtifactDownload (IO, Outside, World, lift, throw, ret, bind, on_err, try_io).

(** ** Requests *)

Definition resolve_requested_firmware (s : MemoryFirmwareObjectStore) (object_id hardware_type : string)
    : result Status FirmwareObject :=
  if String.eqb object_id "" then
    if String.eqb hardware_type "" then Err (invalid_status "hardware_type is required when object_id is empty")
    else map_err status_from_rms_error (find_default_by_hw_type s hardware_type)
  else
    let? fw := map_err status_from_rms_error (find_by_id s object_id) in
    if negb (String.eqb hardware_type "") && negb (String.eqb (rack_hardware_type fw) hardware_type) &&
       negb (String.eqb (rack_hardware_type fw) any)
    then Err (mkStatus StFailedPrecondition
                ("firmware object " +++ fw_id fw +++ " hardware type " +++ rack_hardware_type fw +++
                 " does not match request hardware type " +++ hardware_type))
    else Ok fw.

(** A [FirmwareObjectComponentFilter] is its list of components. *)
Definition selections_step (filters : gmap NodeType (list string)) (global : list string)
    (acc : gmap NodeType FirmwareObjectComponentSelection) (node : NodeInfo)
    : result string (gmap NodeType FirmwareObjectComponentSelection) :=
  let? t := map_err NodeSelector.resolution_error_display (NodeSelector.resolve_node_info node) in
  let? selection := selection_for_node_type (map_to_list filters) global t in
  Ok match selection with Some s => <[t := s]> acc | None => acc end.

Definition selections (nodes : list NodeInfo) (filters : gmap Z (list string))
    (descriptors : list (DescriptorEntry (list string))) (global : list string)
    : result string (gmap NodeType FirmwareObjectComponentSelection) :=
  let? filters := map_err NodeSelector.resolution_error_display (NodeSelector.resolve_selectors filters descriptors) in
  let? found := try_fold (selections_step filters global) ∅ nodes in
  if decide (found = ∅) then Err "no node types selected for firmware apply" else Ok found.

(** ** [firmware_handlers.rs]: the targets of one node *)

Definition is_linkx_target (target : FirmwareTarget) : bool :=
  eq_ignore_ascii_case (trim (HardwarePlan.component target)) "LINKX".

Definition check_linkx (t : NodeType) (targets : list FirmwareTarget) (activate allow_mixed_inband_oob : bool)
    : result RmsError unit :=
  match filter (fun x => is_linkx_target x = true) targets with
  | [] => Ok tt
  | linkx :: more =>
      if negb (bool_decide (t = ComputeVrnvl72Nvidia))
      then Err (invalid_argument "LINKX is supported only on NVIDIA VRNVL72 compute trays")
      else if negb (bool_decide (more = []))
      then Err (invalid_argument "select exactly one LINKX image for the four physical connectors")
      else if negb activate
      then Err (failed_precondition "LINKX requires activate=true because the flash command activates the module immediately")
      else if bool_decide (HardwarePlan.linkx_policy linkx = None)
      then Err (failed_precondition "LINKX requires ApplyFirmwareObject with a LinkxRollout policy")
      else if negb (length targets =? 1)%nat && negb allow_mixed_inband_oob
      then Err (invalid_argument "out-of-band and LINKX targets cannot be mixed in a direct request")
      else Ok tt
  end.

Definition validate_firmware_request_with_policy (t : NodeType) (targets : list FirmwareTarget)
    (activate allow_mixed_inband_oob : bool) : result RmsError unit :=
  let? _ := if bool_decide (t = ComputeGb200Dell) then for_each validate_dell_target targets else Ok tt in
  let? _ := check_linkx t targets activate allow_mixed_inband_oob in
  let inband_count := length (filter (fun x => is_flint_target x = true) targets) in
  if existsb (fun x => eq_ignore_ascii_case (trim (HardwarePlan.component x)) "BF3_BFB") targets
  then Err (failed_precondition "BF3_BFB installation is not supported by the Flint in-band workflow; provide a Flint-compatible BF3_NIC image")
  else if (inband_count =? 0)%nat then Ok tt
  else if negb (supports_flint_inband_firmware t)
  then Err (invalid_argument ("CX7, CX8, and BF3_NIC in-band targets are not supported for " +++ node_type_str t))
  else if negb (inband_count =? length targets)%nat && negb allow_mixed_inband_oob
  then Err (invalid_argument "out-of-band and in-band firmware targets cannot be mixed in one request")
  else if negb activate
  then Err (failed_precondition "GB200 in-band CX7, CX8, and BF3_NIC updates require activation for the full compute power cycle and version verification")
  else Ok tt.

Definition validate_firmware_object_request (t : NodeType) (targets : list FirmwareTarget) (activate : bool)
    : result RmsError unit := validate_firmware_request_with_policy t targets activate true.

(** ** Build IDs of switch images *)

(** A run of digits, and what follows it; [\d] also matches other decimal digits of
    Unicode, which are not modelled. *)
Fixpoint digits (l : chars) : chars * chars :=
  match l with
  | c :: l' => if is_ascii_digit c then let '(d, r) := digits l' in (c :: d, r) else ([], l)
  | [] => ([], [])
  end.

(** [\d+\.\d+\.\d+] at the front: the match and what follows it. *)
Definition match_triple (l : chars) : option (chars * chars) :=
  match digits l with
  | ((_ :: _) as a, c1 :: l1) =>
      if negb (Ascii.eqb c1 dot) then None
      else match digits l1 with
           | ((_ :: _) as b, c2 :: l2) =>
               if negb (Ascii.eqb c2 dot) then None
               else match digits l2 with
                    | ((_ :: _) as c, rest) => Some (a ++ c1 :: b ++ c2 :: c, rest)
                    | _ => None
                    end
           | _ => None
           end
  | _ => None
  end.

(** [captures_iter]: the leftmost match, then on from its end. *)
Fixpoint find_triples (fuel : nat) (l : chars) : list chars :=
  match fuel with
  | O => []
  | S fuel =>
      match match_triple l with
      | Some (m, rest) => m :: find_triples fuel rest
      | None => match l with [] => [] | _ :: l => find_triples fuel l end
      end
  end.

(** [Path::file_stem] *)
Definition file_stem (path : string) : option string :=
  name ← Artifacts.file_name path;
  match Artifacts.rsplit_once (to_chars name) [dot] with
  | Some ((_ :: _) as stem, _) => Some (of_chars stem)
  | _ => Some name
  end.

Definition infer_target_build_id (image_filename : string) : result RmsError string :=
  let stem := to_chars (default "" (file_stem image_filename)) in
  match find_triples (S (length stem)) stem with
  | [] => Err (invalid_argument ("unable to infer NVOS build-id from image filename '" +++ image_filename +++ "'"))
  | v :: vs =>
      if forallb (fun x => bool_decide (x = v)) vs then Ok ("nvos-" +++ of_chars v)
      else Err (invalid_argument ("image filename '" +++ image_filename +++
                                  "' contains multiple version patterns, cannot infer target build-id"))
  end.

(** ** What is recorded *)

Definition is_completed (s : JobLifecycleState) : bool := match s with Completed _ _ => true | _ => false end.

(** [record_completed_apply]; [looks] as in [wait_for_terminal_outcomes]. *)
Definition completed_nodes (looks : list (JobId → option JobSnapshot)) (ids : list JobId) : list string :=
  dedup (sort_keys (node_id <$> filter (fun j => is_completed (state j) = true)
     (Registry.terminal (Registry.wait_for_terminal_outcomes looks (Registry.start_wait ids))))).

Definition record_completed_apply (s : MemoryFirmwareObjectStore) (fw : FirmwareObject) (rack_id channel : string)
    (ids : list JobId) (looks : list (JobId → option JobSnapshot)) (now : Z) : MemoryFirmwareObjectStore :=
  match completed_nodes looks ids with
  | [] => s
  | successful =>
      (record_apply_for_incarnation s (fw_id fw) (created fw) rack_id channel (rack_hardware_type fw) successful now).1
  end.

(** ** The service *)

Record Settings := mkSettings {
  artifact_require_sha256 : bool;
  artifact_download_policy : Artifacts.ArtifactDownloadPolicy;
  hardware_profiles : HardwarePlan.HardwareProfileCatalog;
  embedded_profiles : HardwarePlan.HardwareProfileCatalog;
  firmware_dir : string;
}.

Inductive FirmwareSource :=
| Inline (m : result string FirmwareManifest)
| Stored (fw : FirmwareObject).

Record FirmwareApply := mkFirmwareApply {
  apply_source : FirmwareSource;
  apply_selections : result string (gmap NodeType FirmwareObjectComponentSelection);
  apply_channel : string;
  force_update : bool;
  apply_token : option string;
  apply_rack_id : string;
}.

Record RecoveryBundles := mkRecoveryBundles { regular_bundle : string; recovery_bundle : string }.

Record PreparedFirmwareApply := mkPrepared {
  prepared_channel : string;
  prepared_targets : gmap NodeType (list FirmwareTarget);
  prepared_recovery : gmap NodeType RecoveryBundles;
}.

Record PreparedSwitchImage := mkPreparedImage {
  image_channel : string;
  image_name : string;
  image_path : string;
}.

Section Apply.
Context `{Outside} `{ManifestEnv} `{CatalogJson}.
Variable settings : Settings.

(** [Path::is_file], now. *)
Definition is_file (w : World) (path : string) : bool :=
  match ArtifactDownload.files w !! path with Some (ArtifactDownload.Regular _) => true | _ => false end.

(** A function of the files. *)
Definition with_files {E A} (f : (string → bool) → result E A) : IO E A := fun w => (w, f (is_file w)).

Fixpoint for_each_io {E A} (f : A → IO E unit) (l : list A) : IO E unit :=
  match l with
  | [] => ret tt
  | x :: l => bind (f x) (fun _ => for_each_io f l)
  end.

(** ** [materialize], with a token that is never cancelled *)

Definition download_one (client : ArtifactDownload.ArtifactHttpClient) (cache : string) (token : option string)
    (a : Artifact) : IO ArtifactError unit :=
  bind (lift (map_err Artifacts.InvalidArgument (cache_path a cache))) (fun destination =>
  ArtifactDownload.download_artifact
    (ArtifactDownload.mkDownload (ArtifactDownload.source a) (ArtifactDownload.transport_type a) token
       (Artifacts.from_catalog (ArtifactDownload.artifact_sha256 a) (artifact_require_sha256 settings)))
    destination client).

Fixpoint run_downloads (client : ArtifactDownload.ArtifactHttpClient) (cache : string) (token : option string)
    (l : list Artifact) : IO ArtifactError (list (Artifact * result ArtifactError unit)) :=
  match l with
  | [] => ret []
  | a :: l =>
      bind (try_io (download_one client cache token a)) (fun r =>
      bind (run_downloads client cache token l) (fun rs => ret ((a, r) :: rs)))
  end.

Definition materialize (artifacts : list Artifact) (cache : string) (token : option string)
    : IO ArtifactError (gset string) :=
  bind (lift (ArtifactDownload.build_artifact_http_client (artifact_download_policy settings))) (fun client =>
  bind (run_downloads client cache token (unique_artifacts artifacts)) (fun downloads =>
  lift (ArtifactDownload.materialize_result downloads false))).

(** ** [prepare_firmware_apply] *)

(** The manifest of the source, and the catalog of a stored one. *)
Definition source_manifest (source : FirmwareSource)
    : result ArtifactError (FirmwareManifest * option ArtifactCatalog) :=
  match source with
  | Inline m => let? m := map_err Artifacts.InvalidArgument m in Ok (m, None)
  | Stored fw => let? mc := map_err Artifacts.Cache (load_stored fw) in Ok (mc.1, Some mc.2)
  end.

Definition plan_for (m : FirmwareManifest) (channel : string) (e : NodeType * FirmwareObjectComponentSelection)
    : result PlanError FirmwarePlan :=
  firmware_plan_with_profile m e.1 channel e.2
    (HardwarePlan.request_profile (embedded_profiles settings) (hardware_profiles settings) e.1).

(** The recovery packages of the node types that have a recovery flow and a package. *)
Definition recovery_step (m : FirmwareManifest) (acc : gmap NodeType RecoveryArtifacts) (t : NodeType)
    : result PlanError (gmap NodeType RecoveryArtifacts) :=
  if has_recovery_flow t then
    let? found := recovery_artifacts m t in
    Ok match found with Some artifacts => <[t := artifacts]> acc | None => acc end
  else Ok acc.

Definition all_artifacts (plans : list FirmwarePlan) (recovery_plan : gmap NodeType RecoveryArtifacts) : list Artifact :=
  (p ← plans; planned_artifact <$> plan_targets p) ++
  (r ← (map_to_list recovery_plan).*2; [regular r; recovery r]).

Definition resolve_targets (cache : string) (ready : gset string) (is_file : string → bool) (p : FirmwarePlan)
    : result ArtifactError (NodeType * list FirmwareTarget) :=
  let? targets := map_err plan_artifact_error (resolve_plan p cache ready is_file) in
  let? _ := map_err (fun e => Artifacts.InvalidArgument (error_message e))
              (validate_firmware_object_request (plan_type p) targets true) in
  Ok (plan_type p, targets).

Definition resolve_bundles (cache : string) (ready : gset string) (is_file : string → bool)
    (e : NodeType * RecoveryArtifacts) : result ArtifactError (NodeType * RecoveryBundles) :=
  let? paths := map_err plan_artifact_error (resolve_recovery e.2 cache ready is_file) in
  Ok (e.1, mkRecoveryBundles paths.1 paths.2).

(** The artifacts that can be used: those of the catalog, checked again when digests
    are required, or what is downloaded now. *)
Definition ready_for (catalog : option ArtifactCatalog) (artifacts : list Artifact) (cache : string)
    (token : option string) : IO ArtifactError (gset string) :=
  match catalog with
  | Some c =>
      bind (if artifact_require_sha256 settings
            then for_each_io (fun a => ArtifactDownload.verify_required_http_digest a cache)
                   (filter (fun a => ArtifactDownload.artifact_required a = true) artifacts)
            else ret tt) (fun _ => ret (ready_artifacts c))
  | None => materialize artifacts cache token
  end.

Definition prepare_firmware_apply (request : FirmwareApply) (cache : string)
    : IO ArtifactError PreparedFirmwareApply :=
  bind (lift (map_err Artifacts.InvalidArgument (apply_selections request))) (fun selections =>
  bind (lift (source_manifest (apply_source request))) (fun mc =>
  let '(m, catalog) := mc in
  bind (lift (map_err plan_artifact_error (resolve_channel m (apply_channel request)))) (fun channel =>
  bind (lift (map_err plan_artifact_error (collect (plan_for m channel) (map_to_list selections)))) (fun plans =>
  bind (lift (map_err plan_artifact_error
                (try_fold (recovery_step m) ∅ (map_to_list selections).*1))) (fun recovery_plan =>
  bind (ready_for catalog (all_artifacts plans recovery_plan) cache (apply_token request)) (fun ready =>
  bind (with_files (fun is_file => collect (resolve_targets cache ready is_file) plans)) (fun targets =>
  bind (with_files (fun is_file =>
          collect (resolve_bundles cache ready is_file) (map_to_list recovery_plan))) (fun bundles =>
  ret (mkPrepared channel (list_to_map targets) (list_to_map bundles)))))))))).

(** ** [prepare_switch_apply] *)

Definition prepare_switch_apply (source : FirmwareSource) (requested : string) (token : option string) (cache : string)
    : IO ArtifactError PreparedSwitchImage :=
  bind (lift (source_manifest source)) (fun mc =>
  let '(m, catalog) := mc in
  bind (lift (map_err plan_artifact_error (resolve_channel m requested))) (fun channel =>
  bind (lift (map_err plan_artifact_error (switch_image m channel))) (fun image =>
  bind (lift (map_err (fun e => Artifacts.InvalidArgument (error_message e))
                (infer_target_build_id (ArtifactDownload.filename image)))) (fun _ =>
  bind (match catalog with
        | Some c => ret (ready_artifacts c)
        | None => materialize [image] cache token
        end) (fun ready =>
  if decide (ArtifactDownload.id image ∈ ready) then
    bind (lift (map_err Artifacts.Cache (cache_path image cache))) (fun path =>
    bind (with_files (fun is_file =>
            if is_file path then Ok tt
            else Err (Artifacts.Cache ("prepared switch image " +++ path +++ " is missing")))) (fun _ =>
    bind (if artifact_require_sha256 settings then ArtifactDownload.verify_required_http_digest image cache
          else ret tt) (fun _ =>
    ret (mkPreparedImage channel (ArtifactDownload.filename image) path))))
  else throw (Artifacts.Cache "selected switch image was not successfully prepared")))))).

(** ** Recovery packages of the latest object *)

Definition object_recovery_artifacts (fw : FirmwareObject) (t : NodeType)
    : result RmsError (option (RecoveryArtifacts * ArtifactCatalog)) :=
  let? catalog := map_err failed_precondition (stored_catalog fw) in
  match catalog with
  | None => Ok None
  | Some _ =>
      let? mc := map_err failed_precondition (load_stored fw) in
      let? found := map_err (fun e => failed_precondition (plan_error_text e)) (recovery_artifacts mc.1 t) in
      Ok ((fun artifacts => (artifacts, mc.2)) <$> found)
  end.

(** The loop over the objects; the state is the latest with a package, and the
    hardware types of those with one. *)
Definition latest_step (t : NodeType)
    (acc : option (FirmwareObject * (RecoveryArtifacts * ArtifactCatalog)) * list string) (fw : FirmwareObject)
    : result RmsError (option (FirmwareObject * (RecoveryArtifacts * ArtifactCatalog)) * list string) :=
  let '(latest, hardware_types) := acc in
  let? found := object_recovery_artifacts fw t in
  match found with
  | None => Ok acc
  | Some candidate =>
      Ok (match latest with None => Some (fw, candidate) | Some _ => latest end,
          if negb (String.eqb (rack_hardware_type fw) any) && negb (contains hardware_types (rack_hardware_type fw))
          then hardware_types ++ [rack_hardware_type fw] else hardware_types)
  end.

Definition find_latest (s : MemoryFirmwareObjectStore) (t : NodeType)
    : result RmsError (FirmwareObject * (RecoveryArtifacts * ArtifactCatalog)) :=
  let? found := try_fold (latest_step t) (None, []) (list_objects s (mkFilter true None)) in
  if (1 <? length found.2)%nat
  then Err (failed_precondition ("available recovery packages for " +++ node_type_str t +++
              " span multiple hardware types (" +++ join_str ", " found.2 +++
              "): launch the update from a firmware object to pin one"))
  else ok_or found.1 (failed_precondition ("no available firmware object carries an HMC recovery package for " +++
                                           node_type_str t)).

Definition resolve_recovery_bundles_from_latest_object (s : MemoryFirmwareObjectStore) (t : NodeType)
    : IO RmsError RecoveryBundles :=
  bind (lift (find_latest s t)) (fun latest =>
  let '(fw, (artifacts, catalog)) := latest in
  let cache := firmware_object_cache_dir (firmware_dir settings) (fw_id fw) in
  bind (if artifact_require_sha256 settings
        then on_err (fun e => failed_precondition (Artifacts.display e))
               (for_each_io (fun a => ArtifactDownload.verify_required_http_digest a cache)
                  [regular artifacts; recovery artifacts])
        else ret tt) (fun _ =>
  with_files (fun is_file =>
    map_err (fun e => failed_precondition ("firmware object " +++ fw_id fw +++ ": " +++ plan_error_text e))
      (let? paths := resolve_recovery artifacts cache (ready_artifacts catalog) is_file in
       Ok (mkRecoveryBundles paths.1 paths.2))))).
End Apply.
End Apply.
