(* ===== verification/FirmwareApplyTheorems.v ===== *)
(** * Applying firmware objects: theorems

    What a node is handed is the file that its object was prepared with, and has
    the digest of the manifest when digests are required; the packages of a recovery
    that names no object are of the latest one, and only when the choice is safe;
    the history of an object holds the nodes whose jobs completed, and no other. *)

From S2P Require Import Prelude RustStd RustStr RustBytes Json RmsError JobTypes JobStore JobRegistry JobEventProofs FirmwareStore FirmwareStoreTheorems.
From S2P Require Import NodeTypes RequestMessages NodeSelector HardwareProfiles HardwarePlan PldmPackage Net Artifacts.
From S2P Require Import ArtifactDownload ArtifactTheorems FirmwareManifest FirmwarePlan FirmwarePlanTheorems.
From S2P Require Import FirmwareRecovery FirmwareLifecycle FirmwareLifecycleTheorems FirmwareApply.
From Stdlib Require Import Ascii.
Local Open Scope string_scope.
Local Open Scope list_scope.

Module FirmwareApplyTheorems.
Import NodeTypes Net Manifest Mappings FirmwarePlan FirmwarePlanTheorems Recovery Firmware Lifecycle Apply.
Import FirmwareRecoveryTheorems.
Import Artifacts (Reqwest, ArtifactError).
Import ArtifactDownload (IO, Outside, World, lift, throw, ret, bind, on_err, try_io).
Import ArtifactTheorems (bind_ok, lift_ok, on_err_ok).

(** The first step of a success, and the rest. *)
Ltac io_step H :=
  let w := fresh "w" in let a := fresh "a" in let H' := fresh "Hm" in
  apply bind_ok in H as (w & a & H' & H); try apply on_err_ok in H'.

Section Apply.
Context `{Outside} `{ManifestEnv} `{CatalogJson}.
Variable settings : Settings.

(** ** The files that are handed on *)

(** The file at the path has the digest of the artifact. *)
Definition digest_ok (w : World) (a : Artifact) (path : string) : Prop :=
  ∃ expected bytes, ArtifactDownload.artifact_sha256 a = Some expected ∧
    ArtifactDownload.files w !! path = Some (ArtifactDownload.Regular bytes) ∧
    eq_ignore_ascii_case expected (ArtifactDownload.digest_hex bytes) = true.

(** The path is the cached file of an artifact that is ready, and has its digest
    when digests are required of what is fetched over HTTP. *)
Definition handed (w : World) (ready : gset string) (cache : string) (a : Artifact) (path : string) : Prop :=
  ArtifactDownload.id a ∈ ready ∧ cache_path a cache = Ok path ∧ is_file w path = true ∧
  (artifact_require_sha256 settings = true → ArtifactDownload.is_http_artifact a = true → digest_ok w a path).

Definition checked (w : World) (cache : string) (a : Artifact) : Prop :=
  artifact_require_sha256 settings = true → ArtifactDownload.is_http_artifact a = true →
  ∀ path, cache_path a cache = Ok path → is_file w path = true → digest_ok w a path.

Lemma digest_checked a cache w w' :
  ArtifactDownload.verify_required_http_digest a cache w = (w', Ok tt) →
  ArtifactDownload.files w' = ArtifactDownload.files w ∧
  (ArtifactDownload.is_http_artifact a = true →
   ∀ path, cache_path a cache = Ok path → is_file w path = true → digest_ok w a path).
Proof.
  intros E. destruct (ArtifactDownload.is_http_artifact a) eqn:Eh.
  2:{ unfold ArtifactDownload.verify_required_http_digest in E. rewrite Eh in E. injection E as <-. done. }
  destruct (ArtifactTheorems.required_digest_checked _ _ _ _ Eh E) as (expected & path & Es & _ & Ep & Ef & Hd).
  split; [done|]. intros _ path' Ep' Hfile. unfold cache_path in Ep'. rewrite Ep in Ep'. injection Ep' as <-.
  unfold is_file in Hfile. destruct (ArtifactDownload.files w !! path) as [[bytes|]|] eqn:Eb; try done.
  exists expected, bytes. eauto.
Qed.

Lemma digest_ok_same w w' a path :
  ArtifactDownload.files w' = ArtifactDownload.files w → digest_ok w a path → digest_ok w' a path.
Proof. unfold digest_ok. by intros ->. Qed.

Lemma is_file_same w w' : ArtifactDownload.files w' = ArtifactDownload.files w → is_file w' = is_file w.
Proof. unfold is_file. by intros ->. Qed.

Lemma digests_checked l cache w w' :
  for_each_io (fun a => ArtifactDownload.verify_required_http_digest a cache) l w = (w', Ok tt) →
  ArtifactDownload.files w' = ArtifactDownload.files w ∧ ∀ a, a ∈ l → checked w' cache a.
Proof.
  revert w. induction l as [|a l IH]; intros w; cbn [for_each_io].
  { intros [= <-]. split; [done|]. by intros a ?%not_elem_of_nil. }
  intros (w1 & [] & E1 & E)%bind_ok. apply digest_checked in E1 as [Ef1 Hd1]. apply IH in E as [Ef Hd].
  split; [by rewrite Ef|]. intros b [-> |Hb]%elem_of_cons; [|by apply Hd].
  intros _ Eh path Ep Hfile. rewrite (is_file_same w w') in Hfile by (by rewrite Ef).
  apply (digest_ok_same w); [by rewrite Ef|]. by apply Hd1.
Qed.

Lemma with_files_ok {E A} (f : (string → bool) → result E A) w w' a :
  with_files f w = (w', Ok a) → w' = w ∧ f (is_file w) = Ok a.
Proof. unfold with_files. by intros [= -> ->]. Qed.

Lemma ready_for_stored c artifacts cache token w w' ready :
  ready_for settings (Some c) artifacts cache token w = (w', Ok ready) →
  ArtifactDownload.files w' = ArtifactDownload.files w ∧ ready = ready_artifacts c ∧
  ∀ a, a ∈ artifacts → ArtifactDownload.artifact_required a = true → checked w' cache a.
Proof.
  unfold ready_for. intros (w1 & [] & E1 & E)%bind_ok. injection E as <- <-.
  destruct (artifact_require_sha256 settings) eqn:Er.
  2:{ injection E1 as <-. split_and!; [done..|]. intros a _ _. unfold checked. by rewrite Er. }
  apply digests_checked in E1 as [Ef Hd]. split_and!; [done..|]. intros a Ha Hr. apply Hd.
  by apply list_elem_of_filter.
Qed.

(** ** Resolution *)

Lemma resolved_target t cache ready w x f :
  resolve_plan_target t cache ready (is_file w) x = Ok f → checked w cache (planned_artifact x) →
  handed w ready cache (planned_artifact x) (HardwarePlan.firmware_file f).
Proof.
  unfold resolve_plan_target. case_decide as Hin; [|done]. intros E Hc. bind_ok E.
  apply map_err_is_ok in E0. destruct (is_file w a) eqn:Ef; [|done]. injection E as <-. simpl.
  split_and!; [done..|]. eauto.
Qed.

Lemma resolved_path cache ready w label a path :
  resolve_path cache ready (is_file w) label a = Ok path → checked w cache a → handed w ready cache a path.
Proof.
  unfold resolve_path. case_decide as Hin; [|done]. intros E Hc. bind_ok E. apply map_err_is_ok in E0.
  destruct (is_file w a0) eqn:Ef; [|done]. injection E as <-. split_and!; [done..|]. eauto.
Qed.

Lemma resolved_recovery r cache ready w paths :
  resolve_recovery r cache ready (is_file w) = Ok paths → checked w cache (regular r) → checked w cache (recovery r) →
  handed w ready cache (regular r) paths.1 ∧ handed w ready cache (recovery r) paths.2.
Proof.
  unfold resolve_recovery. intros E Hreg Hrec. bind_ok E. injection E as <-.
  split; by eapply resolved_path.
Qed.

Lemma collect_forall2 {A B F} (f : A → result F B) l r :
  collect f l = Ok r → Forall2 (fun x y => x ∈ l ∧ f x = Ok y) l r.
Proof.
  revert r. induction l as [|x l IH]; intros r; cbn [collect]; [by intros [= <-]|].
  intros E. bind_ok E. injection E as <-. constructor; [split; [by left|done]|].
  eapply Forall2_impl; [by apply IH|]. intros y z [Hy Ez]. split; [by right|done].
Qed.

Lemma recovery_plan_ok m ts acc found t r :
  try_fold (recovery_step m) acc ts = Ok found → found !! t = Some r →
  acc !! t = Some r ∨ (t ∈ ts ∧ recovery_artifacts m t = Ok (Some r)).
Proof.
  revert acc. induction ts as [|u ts IH]; intros acc; cbn [try_fold]; [intros [= <-]; eauto|].
  intros E Hr. bind_ok E. apply IH in E as [Ha|[Hin Ht]]; [|right; split; [by right|done]|done].
  unfold recovery_step in E0. destruct (has_recovery_flow u); [|injection E0 as <-; eauto].
  bind_ok E0. destruct a0 as [artifacts|]; injection E0 as <-; [|eauto].
  apply lookup_insert_Some in Ha as [[-> ->]|[_ ?]]; [right; split; [by left|done]|eauto].
Qed.

(** An entry of a map that was collected from a list of pairs. *)
Lemma collected_entry {A B F} (f : A → result F (NodeType * B)) l (r : list (NodeType * B)) t b :
  collect f l = Ok r → (list_to_map r : gmap NodeType B) !! t = Some b → ∃ x, x ∈ l ∧ f x = Ok (t, b).
Proof.
  intros Hc Hb%elem_of_list_to_map_2. by apply (collect_elem _ _ _ Hc).
Qed.

Lemma plan_artifacts_in plans recovery_plan p x :
  p ∈ plans → x ∈ plan_targets p → planned_artifact x ∈ all_artifacts plans recovery_plan.
Proof.
  intros Hp Hx. apply elem_of_app. left. apply list_elem_of_bind. exists p. split; [|done].
  by apply list_elem_of_fmap_2.
Qed.

Lemma recovery_artifacts_in plans recovery_plan t r :
  recovery_plan !! t = Some r →
  regular r ∈ all_artifacts plans recovery_plan ∧ recovery r ∈ all_artifacts plans recovery_plan.
Proof.
  intros Hr. assert (r ∈ (map_to_list recovery_plan).*2) as Hin.
  { apply list_elem_of_fmap. exists (t, r). split; [done|]. by apply elem_of_map_to_list. }
  split; apply elem_of_app; right; apply list_elem_of_bind; exists r; (split; [|done]); set_solver.
Qed.

(** The targets of a node type: those of its plan, in order, each the file of its artifact. *)
Definition targets_of (w : World) (m : FirmwareManifest) (ready : gset string) (cache channel : string)
    (t : NodeType) (selection : FirmwareObjectComponentSelection) (targets : list FirmwareTarget) : Prop :=
  ∃ p, plan_for settings m channel (t, selection) = Ok p ∧ validate_firmware_object_request t targets true = Ok tt ∧
    Forall2 (fun x f => handed w ready cache (planned_artifact x) (HardwarePlan.firmware_file f))
      (plan_targets p) targets.

Lemma resolved_targets w m ready cache channel selections plans targets t l :
  collect (plan_for settings m channel) (map_to_list selections) = Ok plans →
  (∀ p x, p ∈ plans → x ∈ plan_targets p → ArtifactDownload.artifact_required (planned_artifact x) = true →
     checked w cache (planned_artifact x)) →
  collect (resolve_targets cache ready (is_file w)) plans = Ok targets →
  (list_to_map targets : gmap NodeType (list FirmwareTarget)) !! t = Some l →
  ∃ selection, selections !! t = Some selection ∧ targets_of w m ready cache channel t selection l.
Proof.
  intros Hplans Hc Htargets Hl. apply (collected_entry _ _ _ _ _ Htargets) in Hl as (p & Hp & E).
  destruct (proj1 (collect_elem _ _ _ Hplans p) Hp) as ([u selection] & Hin & Ep).
  apply elem_of_map_to_list in Hin. unfold resolve_targets in E. bind_ok E.
  apply map_err_is_ok in E0, E1. injection E as Et <-.
  destruct (plan_targets_from _ _ _ _ _ _ Ep) as (selected & revision & _ & _ & Eu & Hfrom). cbn in Eu. subst t.
  rewrite Eu in *. destruct a0. exists selection. split; [done|]. exists p. split_and!; [done..|].
  apply collect_forall2 in E0. eapply Forall2_impl; [exact E0|].
  intros x f [Hx Ef]. eapply resolved_target; [exact Ef|]. destruct (Hfrom x Hx) as (? & ? & _ & _ & _ & _ & _ & _ & _ & Hr & _).
  eauto.
Qed.

Lemma targets_total w m ready cache channel (selections : gmap NodeType _) plans targets t :
  collect (plan_for settings m channel) (map_to_list selections) = Ok plans →
  collect (resolve_targets cache ready (is_file w)) plans = Ok targets →
  is_Some ((list_to_map targets : gmap NodeType (list FirmwareTarget)) !! t) ↔ is_Some (selections !! t).
Proof.
  intros Hplans Ht. rewrite <- !elem_of_dom, dom_list_to_map_L, elem_of_list_to_set, list_elem_of_fmap, elem_of_dom.
  assert (∀ u selection p, plan_for settings m channel (u, selection) = Ok p → plan_type p = u) as Hu.
  { intros u selection p Ep. by destruct (plan_targets_from _ _ _ _ _ _ Ep) as (? & ? & _ & _ & ? & _). }
  assert (∀ p e, resolve_targets cache ready (is_file w) p = Ok e → e.1 = plan_type p) as He.
  { intros p e Ee. unfold resolve_targets in Ee. bind_ok Ee. by injection Ee as <-. }
  split.
  - intros (e & -> & (p & Hp & Ee)%(collect_elem _ _ _ Ht)).
    apply (collect_elem _ _ _ Hplans) in Hp as ([u selection] & Hin%elem_of_map_to_list & Ep).
    rewrite (He _ _ Ee), (Hu _ _ _ Ep). by exists selection.
  - intros [selection Hs]. destruct (collect_total _ _ _ Hplans (t, selection)) as (p & Hp & Ep).
    { by apply elem_of_map_to_list. }
    destruct (collect_total _ _ _ Ht p Hp) as (e & Hin & Ee). exists e. split; [|done].
    by rewrite (He _ _ Ee), (Hu _ _ _ Ep).
Qed.

Lemma recovery_required m t r :
  recovery_artifacts m t = Ok (Some r) →
  ArtifactDownload.artifact_required (regular r) = true ∧ ArtifactDownload.artifact_required (recovery r) = true.
Proof.
  unfold recovery_artifacts. intros E. bind_ok E. destruct a0 as [ch|]; [|done].
  destruct (select_components_with_profile _ _ _ _ _) as [selected|[]]; try done.
  destruct (filter _ selected) as [|s [|]]; try done.
  by apply recovery_of_ok in E as (? & ? & _ & _ & _ & _ & ? & ?).
Qed.

(** C17. A node is handed what its object was prepared with. When the firmware of
    a stored object is ready to be applied, each node type has been selected, its
    targets are those of its plan, in order, and passed the checks on requests, and
    each target and each recovery package is the cached file of an artifact that
    the object was prepared with, present, and, when digests are required, with
    the digest that the manifest gives; nothing was written. *)
Theorem apply_hands_prepared fw selections requested force token rack cache w w' p :
  prepare_firmware_apply settings (mkFirmwareApply (Stored fw) (Ok selections) requested force token rack) cache w = (w', Ok p) →
  ∃ m c, load_stored fw = Ok (m, c) ∧ ArtifactDownload.files w' = ArtifactDownload.files w ∧
    resolve_channel m requested = Ok (prepared_channel p) ∧
    (∀ t, is_Some (prepared_targets p !! t) ↔ is_Some (selections !! t)) ∧
    (∀ t l, prepared_targets p !! t = Some l → ∃ selection, selections !! t = Some selection ∧
       targets_of w' m (ready_artifacts c) cache (prepared_channel p) t selection l) ∧
    (∀ t b, prepared_recovery p !! t = Some b → ∃ r, recovery_artifacts m t = Ok (Some r) ∧
       handed w' (ready_artifacts c) cache (regular r) (regular_bundle b) ∧
       handed w' (ready_artifacts c) cache (recovery r) (recovery_bundle b)).
Proof.
  unfold prepare_firmware_apply. simpl. intros E.
  io_step E. apply lift_ok in Hm as [-> [= <-]].
  io_step E. apply lift_ok in Hm as [-> Hload]. bind_ok Hload. injection Hload as <-.
  apply map_err_is_ok in E0. destruct a0 as [m c]. simpl in E.
  io_step E. apply lift_ok in Hm as [-> Hch%map_err_is_ok].
  io_step E. apply lift_ok in Hm as [-> Hplans%map_err_is_ok].
  io_step E. apply lift_ok in Hm as [-> Hrec%map_err_is_ok].
  io_step E. apply (ready_for_stored _ _ _ token) in Hm as (Hfs & -> & Hc).
  io_step E. apply with_files_ok in Hm as [-> Ht].
  io_step E. apply with_files_ok in Hm as [-> Hb]. injection E as <- <-.
  exists m, c. simpl. split_and!; [done..| | |].
  - intros t. by apply (targets_total _ _ _ _ _ _ _ _ _ Hplans Ht).
  - intros t l. apply (resolved_targets _ _ _ _ _ _ _ _ _ _ Hplans); [|done].
    intros q x Hq Hx. apply Hc. by eapply plan_artifacts_in.
  - intros t b Eb. apply (collected_entry _ _ _ _ _ Hb) in Eb as ([u r] & Hin%elem_of_map_to_list & Er).
    unfold resolve_bundles in Er. bind_ok Er. apply map_err_is_ok in E. injection Er as -> <-.
    apply (recovery_plan_ok _ _ _ _ _ _ Hrec) in Hin as Hr. rewrite lookup_empty in Hr.
    destruct Hr as [|[_ Hr]]; [done|]. exists r. split; [done|].
    destruct (recovery_required _ _ _ Hr), (recovery_artifacts_in a0 _ _ _ Hin).
    apply resolved_recovery; [done| |]; by apply Hc.
Qed.

(** A switch is handed the image that its object was prepared with, the only one of
    the channel, under a name that says which build it is. *)
Theorem switch_handed_prepared fw requested token cache w w' p :
  prepare_switch_apply settings (Stored fw) requested token cache w = (w', Ok p) →
  ∃ m c image, load_stored fw = Ok (m, c) ∧ ArtifactDownload.files w' = ArtifactDownload.files w ∧
    resolve_channel m requested = Ok (image_channel p) ∧ switch_image m (image_channel p) = Ok image ∧
    image_name p = ArtifactDownload.filename image ∧ (∃ build, infer_target_build_id (image_name p) = Ok build) ∧
    handed w' (ready_artifacts c) cache image (image_path p).
Proof.
  unfold prepare_switch_apply. intros E. io_step E. apply lift_ok in Hm as [-> Hload].
  simpl in Hload. bind_ok Hload. injection Hload as <-. apply map_err_is_ok in E0. destruct a0 as [m c]. simpl in E.
  io_step E. apply lift_ok in Hm as [-> Hch%map_err_is_ok].
  io_step E. apply lift_ok in Hm as [-> Himage%map_err_is_ok]. rename a0 into image.
  io_step E. apply lift_ok in Hm as [-> Hbuild%map_err_is_ok].
  io_step E. injection Hm as <- <-. case_decide as Hin; [|done].
  io_step E. apply lift_ok in Hm as [-> Hpath%map_err_is_ok].
  io_step E. apply with_files_ok in Hm as [-> Hfile]. destruct (is_file w a1) eqn:Ef; [|done].
  io_step E. injection E as <- <-. exists m, c, image. simpl.
  assert (ArtifactDownload.files w0 = ArtifactDownload.files w ∧ checked w0 cache image) as [Hfs Hc].
  { unfold checked. destruct (artifact_require_sha256 settings); [|by injection Hm as <-]. destruct a3.
    apply digest_checked in Hm as [Hfs Hd]. split; [done|]. intros _ Eh path Ep Hp.
    rewrite (is_file_same w) in Hp by done. apply (digest_ok_same w); [done|]. by apply Hd. }
  assert (is_file w0 a1 = true) as Hf by (by rewrite (is_file_same w)).
  split_and!; try done; [by eexists|]. split_and!; [done..|]. eauto.
Qed.

(** ** Recovery packages of the latest object *)

(** The object has packages for the node type. *)
Definition carries (t : NodeType) (fw : FirmwareObject) (x : RecoveryArtifacts * ArtifactCatalog) : Prop :=
  object_recovery_artifacts fw t = Ok (Some x).

(** What the loop holds after the objects [l]. *)
Definition latest_of (t : NodeType) (l : list FirmwareObject)
    (acc : option (FirmwareObject * (RecoveryArtifacts * ArtifactCatalog)) * list string) : Prop :=
  match acc.1 with
  | Some (fw, x) => ∃ before after, l = before ++ fw :: after ∧ carries t fw x ∧
                      ∀ newer, newer ∈ before → object_recovery_artifacts newer t = Ok None
  | None => ∀ fw, fw ∈ l → object_recovery_artifacts fw t = Ok None
  end ∧
  NoDup acc.2 ∧
  ∀ fw x, fw ∈ l → carries t fw x → rack_hardware_type fw = any ∨ rack_hardware_type fw ∈ acc.2.

Lemma latest_step_ok t l acc fw acc' :
  latest_of t l acc → latest_step t acc fw = Ok acc' → latest_of t (l ++ [fw]) acc'.
Proof.
  destruct acc as [latest types]. intros (Hl & Hnd & Ht) E. unfold latest_step in E. bind_ok E. simpl in *.
  destruct a as [x|]; injection E as <-; split; simpl.
  - destruct latest as [[fw0 x0]|].
    + destruct Hl as (before & after & -> & ? & ?). exists before, (after ++ [fw]).
      by rewrite <- app_assoc.
    + exists l, []. done.
  - split.
    + destruct (negb _ && _) eqn:Eb; [|done]. apply NoDup_app. split_and!; [done| |apply NoDup_singleton].
      apply andb_true_iff in Eb as [_ Eb%negb_true_iff]. intros y Hy ->%list_elem_of_singleton.
      by apply bool_decide_eq_false in Eb.
    + intros f y [Hf| ->%list_elem_of_singleton]%elem_of_app Hy.
      * destruct (Ht f y Hf Hy) as [|Hin]; [by left|]. right. destruct (negb _ && _); set_solver.
      * destruct (String.eqb_spec (rack_hardware_type fw) any) as [|_]; [by left|]. right. simpl.
        destruct (contains types _) eqn:Ec; simpl; [by apply bool_decide_eq_true in Ec|set_solver].
  - destruct latest as [[fw0 x0]|].
    + destruct Hl as (before & after & -> & ? & ?). exists before, (after ++ [fw]). by rewrite <- app_assoc.
    + intros f [?| ->%list_elem_of_singleton]%elem_of_app; eauto.
  - split; [done|]. intros f y [Hf| ->%list_elem_of_singleton]%elem_of_app Hy; [eauto|].
    unfold carries in Hy. congruence.
Qed.

Lemma latest_loop t todo don acc acc' :
  latest_of t don acc → try_fold (latest_step t) acc todo = Ok acc' → latest_of t (don ++ todo) acc'.
Proof.
  revert don acc. induction todo as [|fw todo IH]; intros don acc Hd; cbn [try_fold].
  { intros [= <-]. by rewrite app_nil_r. }
  intros E. bind_ok E. change (fw :: todo) with ([fw] ++ todo). rewrite (assoc_L (++)).
  eapply IH; [|exact E]. by eapply latest_step_ok.
Qed.

(** What is not before an element of the listing was not made later. *)
Lemma newest_holds s f before fw after fw' :
  list_objects s f = before ++ fw :: after → fw' ∈ list_objects s f → fw' ∉ before → (created fw' ≤ created fw)%Z.
Proof.
  intros El Hin Hb. assert (StronglySorted (newest_first created) (list_objects s f)) as Hs.
  { apply StronglySorted_merge_sort; apply _. }
  rewrite El in Hin, Hs. apply StronglySorted_app in Hs as (_ & _ & Hs). clear El.
  apply StronglySorted_inv in Hs as [_ Hs]. rewrite Forall_forall in Hs.
  apply elem_of_app in Hin as [|[-> |Hin]%elem_of_cons]; [done|lia|by apply Hs].
Qed.

(** The choice: the first object of the listing with packages, and all objects with
    packages are of one hardware type or of any. *)
Lemma find_latest_ok s t fw x :
  find_latest s t = Ok (fw, x) →
  ∃ before after, list_objects s (mkFilter true None) = before ++ fw :: after ∧ carries t fw x ∧
    (∀ newer, newer ∈ before → object_recovery_artifacts newer t = Ok None) ∧
    ∀ f f' y y', f ∈ list_objects s (mkFilter true None) → f' ∈ list_objects s (mkFilter true None) →
      carries t f y → carries t f' y' → rack_hardware_type f ≠ any → rack_hardware_type f' ≠ any →
      rack_hardware_type f = rack_hardware_type f'.
Proof.
  unfold find_latest. intros E. bind_ok E. destruct a as [latest types].
  apply (latest_loop t _ []) in E0 as (Hl & Hnd & Ht).
  2:{ split_and!; simpl; [by intros ? ?%not_elem_of_nil|constructor|by intros ? ? ?%not_elem_of_nil]. }
  simpl in *. destruct (1 <? length types)%nat eqn:Elen; [done|]. apply Nat.ltb_ge in Elen.
  destruct latest as [[fw0 x0]|]; [|done]. simpl in E. injection E as -> ->.
  destruct Hl as (before & after & El & Hc & Hb). exists before, after. split_and!; [done..|].
  intros f f' y y' Hf Hf' Hy Hy' Hany Hany'.
  destruct (Ht f y Hf Hy) as [|Hin], (Ht f' y' Hf' Hy') as [|Hin']; try done.
  destruct types as [|ty [|]]; simpl in *; [by apply not_elem_of_nil in Hin| |lia].
  apply list_elem_of_singleton in Hin, Hin'. congruence.
Qed.

(** C29. A recovery that names no object uses the latest that has packages, if the
    choice is safe. The packages are those of an available object, and no other
    available object that was made later has packages for the node type; all
    available objects that have some are of one hardware type, or of any; both
    packages are the cached files of ready artifacts, with the digests of the
    manifest when they are required. *)
Theorem latest_recovery_safe s t w w' b :
  resolve_recovery_bundles_from_latest_object settings s t w = (w', Ok b) →
  ∃ id fw r c, catalog s !! id = Some fw ∧ available fw = true ∧ carries t fw (r, c) ∧
    (∀ id' fw' x, catalog s !! id' = Some fw' → available fw' = true → carries t fw' x →
       (created fw' ≤ created fw)%Z ∧
       (rack_hardware_type fw' = any ∨ rack_hardware_type fw = any ∨ rack_hardware_type fw' = rack_hardware_type fw)) ∧
    (let cache := firmware_object_cache_dir (firmware_dir settings) (fw_id fw) in
     handed w' (ready_artifacts c) cache (regular r) (regular_bundle b) ∧
     handed w' (ready_artifacts c) cache (recovery r) (recovery_bundle b)).
Proof.
  unfold resolve_recovery_bundles_from_latest_object. intros E. io_step E. apply lift_ok in Hm as [-> Hf].
  destruct a as [fw [r c]]. apply find_latest_ok in Hf as (before & after & El & Hc & Hnewer & Hone).
  assert (∀ f, f ∈ list_objects s (mkFilter true None) ↔ ∃ id, catalog s !! id = Some f ∧ available f = true) as Hlist.
  { intros f. unfold list_objects. rewrite merge_sort_Permutation, list_elem_of_filter. unfold catalog_values.
    rewrite list_elem_of_fmap. unfold matches_filter. simpl. rewrite andb_true_r. split.
    - intros [Ha ([id f'] & -> & Hin%elem_of_map_to_list)]. exists id. simpl in *. split; [done|].
      by apply Is_true_true.
    - intros (id & Hid & Ha). split; [by apply Is_true_true|]. exists (id, f). split; [done|]. by apply elem_of_map_to_list. }
  assert (fw ∈ list_objects s (mkFilter true None)) as Hfw by (rewrite El; set_solver).
  destruct (proj1 (Hlist fw) Hfw) as (id & Hid & Hav). exists id, fw, r, c.
  split; [done|]. split; [done|]. split; [done|]. split.
  - intros id' fw' x Hid' Hav' Hx.
    assert (fw' ∈ list_objects s (mkFilter true None)) as Hfw' by (apply Hlist; eauto). split.
    + eapply newest_holds; [exact El|exact Hfw'|]. intros Hin. specialize (Hnewer _ Hin). unfold carries in Hx. congruence.
    + destruct (decide (rack_hardware_type fw' = any)); [by left|].
      destruct (decide (rack_hardware_type fw = any)); [by right; left|]. right. right. by eapply Hone.
  - io_step E. apply with_files_ok in E as [-> E%map_err_is_ok]. bind_ok E. injection E as <-. simpl.
    assert (∀ a, a ∈ [regular r; recovery r] → checked w0 (firmware_object_cache_dir (firmware_dir settings) (fw_id fw)) a) as Hd.
    { destruct (artifact_require_sha256 settings) eqn:Er; [|intros ? _; unfold checked; by rewrite Er].
      apply on_err_ok in Hm. destruct a. by apply digests_checked in Hm as [_ Hd]. }
    apply resolved_recovery; [done| |]; apply Hd; set_solver.
Qed.
End Apply.

(** ** History *)

Lemma completed_nodes_spec looks ids n :
  n ∈ completed_nodes looks ids ↔
  ∃ j, j ∈ Registry.terminal (Registry.wait_for_terminal_outcomes looks (Registry.start_wait ids)) ∧
    is_completed (state j) = true ∧ node_id j = n.
Proof.
  unfold completed_nodes. rewrite elem_of_dedup, elem_of_sort_keys, list_elem_of_fmap. split.
  - intros (j & -> & [? ?]%list_elem_of_filter). eauto.
  - intros (j & Hj & Hc & <-). exists j. split; [done|]. by apply list_elem_of_filter.
Qed.

(** Acceptance is not an apply. What an apply adds to the history is one row of
    the object that was applied, in the incarnation that was applied, with the
    nodes of jobs that were seen completed and of no other, each once and in order;
    no row is added when no job completed, or when the object was deleted or made
    anew, and nothing else of the store changes. *)
Theorem history_completed_only s fw rack channel ids looks now :
  let s' := record_completed_apply s fw rack channel ids looks now in
  (s' = s ∧ (completed_nodes looks ids = [] ∨ ∀ fw', catalog s !! fw_id fw = Some fw' → created fw' ≠ created fw)) ∨
  (∃ nodes fw', s' = set_history s (history s ++ [mkApply (fw_id fw) rack channel (rack_hardware_type fw) nodes now]) ∧
     catalog s !! fw_id fw = Some fw' ∧ created fw' = created fw ∧ sorted_keys nodes ∧
     nodes ≠ [] ∧
     ∀ n, n ∈ nodes → ∃ id look j, id ∈ ids ∧ look ∈ looks ∧ look id = Some j ∧
       is_completed (state j) = true ∧ node_id j = n).
Proof.
  unfold record_completed_apply. simpl.
  assert (sorted_keys (completed_nodes looks ids)) as Hs by (apply dedup_sorted, sort_keys_sorted).
  pose proof (completed_nodes_spec looks ids) as Hn. destruct (completed_nodes looks ids) as [|n nodes]; [by left; eauto|].
  unfold record_apply_for_incarnation. destruct (catalog s !! fw_id fw) as [fw'|] eqn:Ec; [|by left; naive_solver].
  case_bool_decide as Em; simpl; [right|left; naive_solver].
  exists (n :: nodes), fw'. split_and!; try done. intros x (j & Hj & Hc & Ex)%Hn.
  pose proof (wait_inv _ [] looks _ (start_inv ids)) as Hw. apply (oi_terminal _ _ _ Hw) in Hj as (_ & id & look & Hi & Hl & El).
  exists id, look, j. rewrite elem_of_list_to_set in Hi. done.
Qed.

(** ** Requests *)

Lemma default_fits s hardware_type fw :
  find_default_by_hw_type s hardware_type = Ok fw → rack_hardware_type fw = hardware_type ∧ is_default fw = true.
Proof.
  unfold find_default_by_hw_type. destruct (max_by_created _) as [x|] eqn:E; [|done]. intros [= <-].
  apply max_by_created_elem, list_elem_of_filter in E as [Hd _]. apply Is_true_true, andb_true_iff in Hd as [Hh Hd].
  by apply bool_decide_eq_true in Hh.
Qed.

(** The object that a request means fits the hardware that it names: the object
    that it names, or else the default of the hardware; a request that names
    neither is refused. *)
Theorem requested_firmware_fits s object_id hardware_type fw :
  resolve_requested_firmware s object_id hardware_type = Ok fw →
  (object_id ≠ "" ∧ catalog s !! object_id = Some fw ∧
     (hardware_type = "" ∨ rack_hardware_type fw = hardware_type ∨ rack_hardware_type fw = any)) ∨
  (object_id = "" ∧ hardware_type ≠ "" ∧ find_default_by_hw_type s hardware_type = Ok fw ∧
     rack_hardware_type fw = hardware_type ∧ is_default fw = true).
Proof.
  unfold resolve_requested_firmware. destruct (String.eqb_spec object_id "") as [->|Ho].
  - destruct (String.eqb_spec hardware_type ""); [done|]. intros E%map_err_is_ok. right.
    by destruct (default_fits _ _ _ E).
  - intros E. bind_ok E. apply map_err_is_ok in E0.
    destruct (String.eqb_spec hardware_type ""), (String.eqb_spec (rack_hardware_type a) hardware_type),
      (String.eqb_spec (rack_hardware_type a) any); simpl in E; try done; injection E as <-; left;
      (split; [done|]; split; [|eauto]); unfold find_by_id in E0; destruct (catalog s !! object_id); simpl in E0; congruence.
Qed.

Definition is_bfb (x : FirmwareTarget) : bool := eq_ignore_ascii_case (trim (HardwarePlan.component x)) "BF3_BFB".

(** What is asked of the LINKX targets. *)
Definition linkx_ok (t : NodeType) (targets : list FirmwareTarget) (activate allow_mixed : bool) : Prop :=
  ∀ x more, filter (fun x => is_linkx_target x = true) targets = x :: more →
    t = ComputeVrnvl72Nvidia ∧ more = [] ∧ activate = true ∧ HardwarePlan.linkx_policy x ≠ None ∧
    (length targets = 1%nat ∨ allow_mixed = true).

Lemma check_linkx_ok t targets activate allow_mixed :
  check_linkx t targets activate allow_mixed = Ok tt ↔ linkx_ok t targets activate allow_mixed.
Proof.
  unfold check_linkx, linkx_ok. destruct (filter _ targets) as [|x more]; [by split|].
  repeat case_bool_decide; destruct activate, allow_mixed, (Nat.eqb_spec (length targets) 1); simpl;
    naive_solver.
Qed.

(** The targets that are updated in band: there is none, or the node type and the
    request allow them. *)
Definition inband_ok (t : NodeType) (targets : list FirmwareTarget) (activate allow_mixed : bool) : Prop :=
  (∃ x, x ∈ targets ∧ is_flint_target x = true) →
  supports_flint_inband_firmware t = true ∧ activate = true ∧
  (allow_mixed = true ∨ ∀ x, x ∈ targets → is_flint_target x = true).

Lemma filter_count {A} (f : A → bool) l :
  (length (filter (fun x => f x = true) l) ≠ 0%nat ↔ ∃ x, x ∈ l ∧ f x = true) ∧
  (length (filter (fun x => f x = true) l) = length l ↔ ∀ x, x ∈ l → f x = true).
Proof.
  pose proof (length_filter (fun x => f x = true)) as Hle.
  induction l as [|x l [IH1 IH2]]; [set_solver|]. rewrite filter_cons. specialize (Hle l).
  destruct (decide (f x = true)) as [Hx|Hx]; cbn [length].
  - split; [|rewrite Nat.succ_inj_wd, IH2; set_solver]. split; [|done]. intros _. exists x. set_solver.
  - split; [rewrite IH1; set_solver|]. split; [lia|]. intros Hall. destruct Hx. apply Hall. by left.
Qed.

(** A request is accepted exactly when its targets go together. Those of a Dell
    node pass its own checks; a LINKX image is alone of its kind, only for VRNVL72
    trays, with a policy and with activation; no BFB is installed in band; targets
    that are updated in band need a node type with that flow and activation; and
    only where the request allows it do targets of both flows mix. *)
Theorem request_accepted_exactly t targets activate allow_mixed :
  validate_firmware_request_with_policy t targets activate allow_mixed = Ok tt ↔
  (t = ComputeGb200Dell → ∀ x, x ∈ targets → validate_dell_target x = Ok tt) ∧
  linkx_ok t targets activate allow_mixed ∧ (∀ x, x ∈ targets → is_bfb x = false) ∧
  inband_ok t targets activate allow_mixed.
Proof.
  unfold validate_firmware_request_with_policy. rewrite <- check_linkx_ok, <- for_each_ok.
  destruct (check_linkx t targets activate allow_mixed) as [[]|]; cycle 1.
  { split; [|naive_solver]. by destruct (if bool_decide _ then _ else _). }
  assert (existsb is_bfb targets = false ↔ ∀ x, x ∈ targets → is_bfb x = false) as <-.
  { rewrite <- not_true_iff_false, existsb_elem. split.
    - intros Hn x Hx. destruct (is_bfb x) eqn:E; [|done]. destruct Hn. eauto.
    - intros Hn (x & Hx & Ex). rewrite (Hn x Hx) in Ex. done. }
  destruct (filter_count is_flint_target targets) as [Hz Hall]. unfold inband_ok. rewrite <- Hall.
  revert Hz. generalize (∃ x, x ∈ targets ∧ is_flint_target x = true) as P. intros P Hz.
  fold is_bfb. destruct (existsb is_bfb targets).
  { split; [|naive_solver]. by destruct (if bool_decide _ then _ else _). }
  set (n := length (filter _ targets)) in *. clearbody n. clear Hall.
  transitivity ((t = ComputeGb200Dell → for_each validate_dell_target targets = Ok ()) ∧
    (P → supports_flint_inband_firmware t = true ∧ activate = true ∧ (allow_mixed = true ∨ n = length targets)));
    [|tauto].
  case_bool_decide as Ht; [destruct (for_each _ _) as [[]|]; [|split; [done|]; by intros [Hd _]; specialize (Hd Ht)]|]; simpl.
  all: destruct (Nat.eqb_spec n 0); [tauto|].
  all: destruct (supports_flint_inband_firmware t), activate, allow_mixed, (Nat.eqb_spec n (length targets)); simpl.
  all: split; [try done; tauto|].
  all: intros [_ Hp]; destruct Hp as (? & ? & [|]); try done; tauto.
Qed.
(** ** Build IDs *)

(** A version of three numbers. *)
Definition is_version (m : chars) : Prop :=
  ∃ a b c, m = a ++ dot :: b ++ dot :: c ∧ a ≠ [] ∧ b ≠ [] ∧ c ≠ [] ∧
    Forall (fun x => is_ascii_digit x = true) (a ++ b ++ c).

Lemma digits_ok l d r : digits l = (d, r) → l = d ++ r ∧ Forall (fun x => is_ascii_digit x = true) d.
Proof.
  revert d r. induction l as [|c l IH]; intros d r; simpl; [by intros [= <- <-]|].
  destruct (is_ascii_digit c) eqn:Ec; [|by intros [= <- <-]]. destruct (digits l) as [d' r'].
  intros [= <- <-]. destruct (IH _ _ eq_refl) as [-> ?]. split; [done|by constructor].
Qed.

Lemma match_triple_ok l m r : match_triple l = Some (m, r) → l = m ++ r ∧ is_version m.
Proof.
  unfold match_triple. destruct (digits l) as [a l1] eqn:Ea. apply digits_ok in Ea as [-> Ha].
  destruct a as [|a0 a]; [done|]. destruct l1 as [|c1 l1]; [done|].
  destruct (Ascii.eqb_spec c1 dot) as [->|]; [|done]. simpl. destruct (digits l1) as [b l2] eqn:Eb.
  apply digits_ok in Eb as [-> Hb]. destruct b as [|b0 b]; [done|]. destruct l2 as [|c2 l2]; [done|].
  destruct (Ascii.eqb_spec c2 dot) as [->|]; [|done]. simpl. destruct (digits l2) as [c l3] eqn:Ec.
  apply digits_ok in Ec as [-> Hc]. destruct c as [|c0 c]; [done|]. intros [= <- <-]. split.
  - simpl. by rewrite <- !app_assoc, <- !app_comm_cons, <- !app_assoc, <- !app_comm_cons.
  - exists (a0 :: a), (b0 :: b), (c0 :: c). split_and!; try done. by rewrite !Forall_app.
Qed.

Lemma find_triples_ok fuel l m : m ∈ find_triples fuel l → is_version m ∧ ∃ pre post, l = pre ++ m ++ post.
Proof.
  revert l. induction fuel as [|fuel IH]; intros l; simpl; [by intros ?%not_elem_of_nil|].
  destruct (match_triple l) as [[m' r]|] eqn:E.
  - apply match_triple_ok in E as [-> Hv]. intros [-> |Hin]%elem_of_cons; [by split; [|exists [], r]|].
    apply IH in Hin as (? & pre & post & ->). split; [done|]. exists (m' ++ pre), post. by rewrite <- app_assoc.
  - destruct l as [|c l]; [by intros ?%not_elem_of_nil|]. intros (? & pre & post & ->)%IH.
    split; [done|]. by exists (c :: pre), post.
Qed.

Lemma match_triple_shorter l m r : match_triple l = Some (m, r) → (length r < length l)%nat.
Proof.
  intros [-> (a & b & c & -> & _)]%match_triple_ok. rewrite !length_app. simpl. rewrite !length_app. lia.
Qed.

(** The fuel is enough: more of it finds nothing more. *)
Lemma find_triples_fuel fuel l : (length l < fuel)%nat → find_triples fuel l = find_triples (S (length l)) l.
Proof.
  enough (∀ n f g l, (length l ≤ n → n < f → n < g → find_triples f l = find_triples g l)%nat) as Hfg.
  { intros Hl. by apply (Hfg (length l)); try lia. }
  induction n as [|n IH]; intros [|f] [|g] k Hk Hf Hg; try lia; simpl;
    (destruct (match_triple k) as [[m r]|] eqn:E; [apply match_triple_shorter in E|destruct k as [|c k]; [done|]]; simpl in *; try lia).
  - f_equal. apply IH; lia.
  - apply IH; lia.
Qed.

(** The build of an image is read off its name: it is a version of three numbers in
    the stem of the name, and no other version is found in it. *)
Theorem build_id_read name build :
  infer_target_build_id name = Ok build →
  ∃ v, build = "nvos-" +++ of_chars v ∧ is_version v ∧
    (∃ pre post, to_chars (default "" (file_stem name)) = pre ++ v ++ post) ∧
    ∀ fuel v', v' ∈ find_triples fuel (to_chars (default "" (file_stem name))) →
      (length (to_chars (default "" (file_stem name))) < fuel)%nat → v' = v.
Proof.
  unfold infer_target_build_id. set (stem := to_chars _). intros E.
  destruct (find_triples (S (length stem)) stem) as [|v vs] eqn:Ef; [done|].
  destruct (forallb _ vs) eqn:Ea; [|done]. injection E as <-. exists v.
  destruct (find_triples_ok (S (length stem)) stem v) as [Hv Hin]; [rewrite Ef; by left|].
  split_and!; [done..|]. intros fuel v' Hv' Hf. rewrite (find_triples_fuel _ _ Hf), Ef in Hv'.
  apply elem_of_cons in Hv' as [|Hv']; [done|]. rewrite forallb_forall in Ea.
  apply list_elem_of_In, Ea, bool_decide_eq_true in Hv'. done.
Qed.
(** ** An object that is ready *)

Module ApplyExample.
#[export] Existing Instance PlanExample.example_urls.
#[export] Existing Instance FirmwareLifecycleTheorems.LifecycleExample.example_reqwest.
#[export] Existing Instance FirmwareLifecycleTheorems.LifecycleExample.example_manifests.
#[export] Existing Instance FirmwareLifecycleTheorems.LifecycleExample.example_values.

(** The digest of eight bytes. *)
Definition digest : string := of_chars (replicate 64 (ascii_of_N 97)).

#[export] Instance example_outside : Outside := {
  ArtifactDownload.io_error _ := None;
  ArtifactDownload.not_found_display := "not found";
  ArtifactDownload.open_special _ := Ok [];
  ArtifactDownload.partial_write _ := 0%nat;
  ArtifactDownload.read_size _ := 3%nat;
  ArtifactDownload.now t := N.of_nat t;
  ArtifactDownload.temp_name _ prefix suffix := prefix +++ "id" +++ suffix;
  ArtifactDownload.process_id := 7%N;
  ArtifactDownload.digest_hex bytes := of_chars (replicate (8 * length bytes) (ascii_of_N 97));
  ArtifactDownload.lookup_host _ _ := Err "none";
  ArtifactDownload.system_proxy _ := None;
  ArtifactDownload.http _ _ := Err tt;
  ArtifactDownload.connects _ _ _ := [];
  ArtifactDownload.client_build_error := None;
}.

Definition package (name kind : string) : Location :=
  mkLocation (Some ("https://fw.example/" +++ name)) (Some "HTTP") None (Some kind) (Some name) (Some digest) None.

Definition hmc : Component :=
  mkComponent None "HMC" (Some "1.2") (Some "Prod") None []
    [package "hmc.fwpkg" "Firmware"; package "hmc_recovery.fwpkg" "Firmware-Recovery"] [].

Definition manifest : FirmwareManifest :=
  mkManifest "GB200" [mkMilestone "m" None [mkBoardSku None "b" "Compute Node" (mkComponents [] [hmc])]].

#[export] Instance example_catalogs : CatalogJson := {
  deserialize_str _ := Ok manifest;
  deserialize_value _ := Ok manifest;
  catalog_to_value := catalog_to_value (CatalogJson := FirmwareLifecycleTheorems.LifecycleExample.example_catalogs);
  catalog_from_value := catalog_from_value (CatalogJson := FirmwareLifecycleTheorems.LifecycleExample.example_catalogs);
}.

Definition artifacts : list Artifact := match catalog_artifacts manifest with Ok l => l | Err _ => [] end.

Definition ready_catalog : ArtifactCatalog :=
  mkCatalog CATALOG_VERSION match manifest_revision manifest with Ok r => r | Err _ => "" end Ready
    (list_to_set (ArtifactDownload.id <$> artifacts)).

Definition object : FirmwareObject :=
  mkFirmware "gb200" "rack" true false JNull
    (Some (JObject (FirmwareLifecycleTheorems.LifecycleExample.catalog_fields ready_catalog))) 1 1.

Definition settings : Settings :=
  mkSettings true (Artifacts.mkArtifactDownloadPolicy [] false) HardwarePlan.empty_catalog HardwarePlan.empty_catalog "/fw".

Definition cache : string := firmware_object_cache_dir (firmware_dir settings) "gb200".

Definition cached (a : Artifact) : option (string * ArtifactDownload.Node) :=
  match cache_path a cache with
  | Ok path => Some (path, ArtifactDownload.Regular (to_chars "firmware"))
  | Err _ => None
  end.

Definition world : World := ArtifactDownload.mkWorld (list_to_map (omap cached artifacts)) 0 [].

Definition request : FirmwareApply :=
  mkFirmwareApply (Stored object) (Ok {[ComputeGb200Nvidia := mkSelection OnlyComponents ["HMC"]]}) "" false None "rack".

Definition outcome : World * result ArtifactError PreparedFirmwareApply :=
  prepare_firmware_apply settings request cache world.

Definition store : MemoryFirmwareObjectStore := Firmware.mkStore {["gb200" := object]} [].

Definition bundles : World * result RmsError RecoveryBundles :=
  resolve_recovery_bundles_from_latest_object settings store ComputeGb200Nvidia world.
End ApplyExample.
Import ApplyExample.

(** How many targets and recovery packages there are for the node type. *)
Definition counts (r : World * result ArtifactError PreparedFirmwareApply) : option (nat * nat) :=
  match r.2 with
  | Ok p => match prepared_targets p !! ComputeGb200Nvidia with
            | Some l => Some (length l, size (prepared_recovery p))
            | None => None
            end
  | Err _ => None
  end.

Lemma outcome_counts : counts outcome = Some (1%nat, 1%nat).
Proof. vm_compute. reflexivity. Qed.

Lemma counts_one r n :
  counts r = Some (1%nat, n) →
  ∃ w' p f, r = (w', Ok p) ∧ prepared_targets p !! ComputeGb200Nvidia = Some [f] ∧ size (prepared_recovery p) = n.
Proof.
  destruct r as [w' [p|e]]; [|done]. unfold counts. simpl.
  destruct (prepared_targets p !! ComputeGb200Nvidia) as [[|f [|]]|] eqn:E; try done. intros [= <-].
  by exists w', p, f.
Qed.

Lemma apply_hands_prepared_witness :
  ∃ w' p f, outcome = (w', Ok p) ∧ prepared_targets p !! ComputeGb200Nvidia = Some [f] ∧
    size (prepared_recovery p) = 1%nat ∧ is_file w' (HardwarePlan.firmware_file f) = true ∧
    ArtifactDownload.files w' = ArtifactDownload.files world.
Proof.
  destruct (counts_one _ _ outcome_counts) as (w' & p & f & E & Ef & En). exists w', p, f.
  split; [exact E|]. split; [exact Ef|]. split; [exact En|].
  destruct (apply_hands_prepared settings object _ "" false None "rack" cache world w' p E)
    as (m & c & _ & Hfs & _ & _ & Ht & _).
  destruct (Ht _ _ Ef) as (selection & _ & q & _ & _ & Hf).
  inversion Hf as [|x ? ? ? (_ & _ & Hfile & _)]; subst. split; [exact Hfile|exact Hfs].
Defined.

Lemma bundles_ok : match bundles.2 with Ok _ => true | Err _ => false end = true.
Proof. vm_compute. reflexivity. Qed.

Lemma latest_recovery_safe_witness :
  ∃ w' b, bundles = (w', Ok b) ∧ is_file w' (regular_bundle b) = true ∧ is_file w' (recovery_bundle b) = true.
Proof.
  pose proof bundles_ok as Hok. destruct bundles as [w' [b|e]] eqn:E; [|discriminate Hok]. exists w', b.
  split; [reflexivity|].
  destruct (latest_recovery_safe settings store ComputeGb200Nvidia world w' b E)
    as (id & fw & r & c & _ & _ & _ & _ & (_ & _ & Hreg & _) & (_ & _ & Hrec & _)).
  split; [exact Hreg|exact Hrec].
Defined.
End FirmwareApplyTheorems.
