(* ===== verification/SwitchCertificates.v ===== *)
(** * Certificates of switches

    The installation of certificates on a switch: the responses and actions of the
    NVUE interface of the device ([nvue_client/src], [utilities/error.rs],
    [nodes/switch_gb200_nvidia/nvue.rs]), the room that is made in its certificate
    stores ([nodes/switch_gb200_nvidia/mtls/retention.rs]) and the installation
    itself ([api/grpc/switch_certificate_handlers.rs]).

    The device is the class [NvueDevice]: what a GET and a POST return is any
    function of its state.  What the installer asks of a node is the class
    [InstallNode], the trait [SwitchCertificateInstallNode], with the sink of its
    progress and the cancellation of its job; [switch_node] is a node whose stores
    are those of an NVUE device.  The installer's calls are logged, each with its
    success.  Parsing a timestamp is a parameter ([chrono]); the guard that cleans up
    after a panic and the logging are not modelled. *)

From S2P Require Import Prelude RustStd RustStr RustBytes Json RmsError.
From Stdlib Require Import Ascii.
Local Open Scope string_scope.
Local Open Scope list_scope.

Module Nvue.

(** ** Responses *)

Record NvueResponse := mkResponse {
  status : N;
  value : json;
  body : string;
  json_error : option string;
}.

Definition is_success (r : NvueResponse) : bool := (200 <=? status r)%N && (status r <? 300)%N.

(** What an error of [reqwest] says of itself. *)
Record RequestError := mkRequestError {
  is_timeout : bool;
  is_connect : bool;
  is_request : bool;
  request_text : string;
}.

Inductive ClientError :=
| InvalidEndpoint (message : string)
| InvalidRequest (message : string)
| InvalidResponse (message : string)
| ResolveHost (host : string) (port : N) (source : string)
| NoResolvedAddress (host : string) (port : N)
| ReadTlsMaterial (description path source : string)
| UnstableTlsMaterial (attempts : nat)
| InvalidTlsMaterial (message : string)
| StalePreparedTransport
| ForeignPreparedTransport
| Request (operation : string) (source : RequestError)
| ResponseTooLarge (method path : string) (limit : nat)
| HttpStatus (method path : string) (status : N) (body : string)
| InvalidJson (method path message : string).

(** [NvueResponse::into_json] *)
Definition into_json (r : NvueResponse) (method path : string) : result ClientError json :=
  if negb (is_success r) then Err (HttpStatus method path (status r) (body r))
  else match json_error r with
       | Some message => Err (InvalidJson method path message)
       | None => Ok (value r)
       end.

Definition rms_http_status_code (status : N) : ErrorCode :=
  match status with
  | 401 => ErrorCodeM.Unauthenticated
  | 404 => ErrorCodeM.NotFound
  | 408 => ErrorCodeM.Timeout
  | 409 => ErrorCodeM.AlreadyExists
  | 503 => ErrorCodeM.Unavailable
  | _ => ErrorCodeM.Internal
  end%N.

Definition client_error_code (e : ClientError) : ErrorCode :=
  match e with
  | InvalidEndpoint _ => ErrorCodeM.InvalidArgument
  | ReadTlsMaterial _ _ _ | InvalidTlsMaterial _ => ErrorCodeM.FailedPrecondition
  | UnstableTlsMaterial _ => ErrorCodeM.Unavailable
  | StalePreparedTransport | ForeignPreparedTransport => ErrorCodeM.FailedPrecondition
  | ResolveHost _ _ _ | NoResolvedAddress _ _ => ErrorCodeM.DnsResolutionFailed
  | Request _ source =>
      if is_timeout source then ErrorCodeM.Timeout
      else if is_connect source then ErrorCodeM.ConnectionRefused
      else if is_request source then ErrorCodeM.Unavailable
      else ErrorCodeM.Internal
  | HttpStatus _ _ 401 _ => ErrorCodeM.Unauthenticated
  | HttpStatus _ _ 404 _ => ErrorCodeM.NotFound
  | HttpStatus _ _ 408 _ => ErrorCodeM.Timeout
  | HttpStatus _ _ 409 _ => ErrorCodeM.AlreadyExists
  | HttpStatus _ _ 503 _ => ErrorCodeM.Unavailable
  | _ => ErrorCodeM.Internal
  end%N.

(** ** The device *)

(** A computation on a state that may fail. *)
Definition ST (S E A : Type) : Type := S → S * result E A.

Definition st_ret {S E A} (a : A) : ST S E A := fun s => (s, Ok a).
Definition st_err {S E A} (e : E) : ST S E A := fun s => (s, Err e).
Definition st_lift {S E A} (r : result E A) : ST S E A := fun s => (s, r).
Definition st_bind {S E A B} (m : ST S E A) (k : A → ST S E B) : ST S E B := fun s =>
  match m s with
  | (s, Ok a) => k a s
  | (s, Err e) => (s, Err e)
  end.
Definition st_map_err {S E F A} (f : E → F) (m : ST S E A) : ST S F A := fun s =>
  match m s with
  | (s, Ok a) => (s, Ok a)
  | (s, Err e) => (s, Err (f e))
  end.

(** [http_get] and [http_post] are [SharedClient::get] and [post]; [no_client]: the
    node has no client, and why; [polls]: how often an action is polled before its
    deadline passes; [client_error_display], [float_display]: the [Display]s of the
    errors and of a float. *)
Class NvueDevice (D : Type) := {
  no_client : option RmsError;
  http_get : string → D → D * result ClientError NvueResponse;
  http_post : string → json → D → D * result ClientError NvueResponse;
  polls : D → nat;
  client_error_display : ClientError → string;
  float_display : Z → string;
}.

Section Device.
Context {D : Type} `{NvueDevice D}.

Definition rms_of_client_error (e : ClientError) : RmsError :=
  mkRmsError (client_error_code e) (client_error_display e).

Definition with_client {A} (m : ST D RmsError A) : ST D RmsError A :=
  match no_client with Some e => st_err e | None => m end.

Definition nvue_get (endpoint : string) : ST D RmsError NvueResponse :=
  with_client (st_map_err rms_of_client_error (http_get endpoint)).

Definition nvue_http_get (endpoint : string) : ST D RmsError json :=
  st_bind (nvue_get endpoint) (fun r => st_lift (map_err rms_of_client_error (into_json r "GET" endpoint))).

Definition nvue_post (endpoint : string) (payload : json) : ST D RmsError NvueResponse :=
  with_client (st_map_err rms_of_client_error (http_post endpoint payload)).

(** ** Actions *)

Definition field (v : json) (key : string) : option json :=
  match v with JObject m => m !! key | _ => None end.

Definition as_str (v : json) : option string := match v with JString s => Some s | _ => None end.

Definition str_field (v : json) (key : string) : string :=
  default "" (match field v key with Some v => as_str v | None => None end).

Definition non_empty_trimmed (value : string) : option string :=
  let value := trim value in if String.eqb value "" then None else Some value.

Definition slash : ascii := ascii_of_N 47.

Definition uri_tail (value : option string) : option string :=
  match value with
  | None => None
  | Some value =>
      let value := trim_end (is_char slash) (to_chars (trim value)) in
      match value with
      | [] => None
      | _ => match last (split_on slash value) with
             | Some tail => non_empty_trimmed (of_chars tail)
             | None => None
             end
      end
  end.

(** An [Option<String>]: a string, or nothing for [null] and for what is not there. *)
Definition optional_string (v : option json) : option (option string) :=
  match v with
  | None | Some JNull => Some None
  | Some (JString s) => Some (Some s)
  | Some _ => None
  end.

(** The field under several names, of which at most one is there. *)
Definition optional_field (m : json_map) (names : list string) : option (option string) :=
  match omap (fun n => m !! n) names with
  | [] => Some None
  | [v] => optional_string (Some v)
  | _ => None
  end.

Definition first_some {A} (l : list (option A)) : option A := head (omap id l).

(** [ActionIdFields::action_id] of the fields, in their order. *)
Definition action_id_of (fields : list (option (option string))) : option string :=
  match mapM id fields with
  | Some (action_id :: uris) => first_some ((action_id ≫= non_empty_trimmed) :: (uri_tail <$> uris))
  | _ => None
  end.

(** [serde_json::from_value::<ActionIdFields>]: an object, or the fields in order. *)
Definition fields_of_object (m : json_map) : list (option (option string)) :=
  optional_field m <$>
    [["action_id"; "id"; "Id"; "action-id"; "actionId"; "job_id"; "JobId"]; ["@odata.id"]; ["href"]; ["location"];
     ["path"]; ["task"]].

Definition fields_of_array (l : list json) : list (option (option string)) :=
  if (6 <? length l)%nat then [None] else (fun i => optional_string (l !! i)) <$> seq 0 6.

Definition number_text (n : Number) : string :=
  match n with PosInt n => pretty n | NegInt z => pretty z | Float bits => float_display bits end.

Definition extract_action_id (response : json) : result ClientError string :=
  let found :=
    match response with
    | JString s => non_empty_trimmed s
    | JNumber n => Some (number_text n)
    | JObject m => action_id_of (fields_of_object m)
    | JArray l => action_id_of (fields_of_array l)
    | _ => None
    end in
  ok_or found (InvalidResponse "no action or job ID in NVUE response").

Definition issue_part (issue : json) : option string :=
  let part :=
    match issue with
    | JString s => Some s
    | JObject m =>
        match (v ← m !! "message"; as_str v) with
        | Some msg => Some msg
        | None => d ← m !! "data"; v ← field d "msg"; as_str v
        end
    | _ => None
    end in
  s ← part; if String.eqb s "" then None else Some s.

Definition extract_action_issue_message (response : json) : string :=
  match field response "issue" with
  | Some (JArray issues) => join_str "; " (omap issue_part issues)
  | _ => ""
  end.

Inductive NvueActionPoll :=
| Running
| Succeeded
| Failed (state message : string).

(** [NvueActionPoll::strict] *)
Definition strict (response : json) : NvueActionPoll :=
  let state := str_field response "state" in
  if String.eqb state "action_success" then Succeeded
  else if String.eqb state "action_error" || String.eqb state "action_failed" then
    let message := extract_action_issue_message response in
    let message := if String.eqb message "" then str_field response "detail" else message in
    let message := if String.eqb message "" then str_field response "status" else message in
    Failed state message
  else Running.

Definition is_retryable_nvue_transport_error (e : RmsError) : bool :=
  match error_code e with
  | ErrorCodeM.ConnectionRefused | ErrorCodeM.Timeout | ErrorCodeM.Unavailable | ErrorCodeM.DnsResolutionFailed => true
  | _ => false
  end.

(** The loop of [wait_for_nvue_action], strict; [remaining] polls are made before the deadline. *)
Fixpoint wait_loop (remaining : nat) (action_id : string) (last_error : option RmsError) : ST D RmsError unit :=
  match remaining with
  | O => st_err (timeout ("timed out waiting for NVUE action " +++ action_id +++ " to complete" +++
                          match last_error with
                          | Some e => "; last retryable error: " +++ error_message e
                          | None => ""
                          end))
  | S remaining => fun d =>
      match nvue_http_get ("/nvue_v1/action/" +++ action_id) d with
      | (d, Ok response) =>
          match strict response with
          | Succeeded => (d, Ok tt)
          | Failed state message =>
              (d, Err (internal ("NVUE action " +++ action_id +++ " failed with state " +++ state +++
                                 (if String.eqb message "" then "" else ": " +++ message))))
          | Running => wait_loop remaining action_id last_error d
          end
      | (d, Err e) =>
          if is_retryable_nvue_transport_error e then wait_loop remaining action_id (Some e) d else (d, Err e)
      end
  end.

Definition wait_for_nvue_action_success (action_id : string) : ST D RmsError unit := fun d =>
  wait_loop (polls d) action_id None d.
End Device.
End Nvue.

(** ** [retention.rs] *)

Module Retention.
Import Nvue.

Definition NVOS_CERTIFICATE_STORE_LIMIT : nat := 25.
Definition RMS_CERTIFICATE_ID_PREFIX : string := "rms-".
Definition IMPORT_TIMESTAMP_LEN : nat := 23.

Inductive CertificateStore := Entity | Ca.

#[export] Instance CertificateStore_eq_dec : EqDecision CertificateStore.
Proof. solve_decision. Defined.

Definition ALL_STORES : list CertificateStore := [Entity; Ca].

Definition store_str (s : CertificateStore) : string :=
  match s with Entity => "entity-certificate" | Ca => "ca-certificate" end.

Definition collection_endpoint (s : CertificateStore) : string :=
  match s with
  | Entity => "/nvue_v1/system/security/certificate"
  | Ca => "/nvue_v1/system/security/ca-certificate"
  end.

Definition entry_endpoint (s : CertificateStore) (id : string) : string := collection_endpoint s +++ "/" +++ id.

Inductive ReportedUsage :=
| NoUsage
| Services (services : list string)
| Unrecognized.

#[export] Instance ReportedUsage_eq_dec : EqDecision ReportedUsage.
Proof. solve_decision. Defined.

Definition usage_of (services : list string) : ReportedUsage :=
  match services with [] => NoUsage | _ => Services services end.

(** [ReportedUsage::from_entry] *)
Definition usage_from_entry (entry : json) : ReportedUsage :=
  match entry with
  | JNull => NoUsage
  | JObject m =>
      match (match m !! "installed" with Some v => Some v | None => m !! "[installed]" end) with
      | None | Some JNull => NoUsage
      | Some (JString service) => if String.eqb service "" then NoUsage else Services [service]
      | Some (JObject services) => usage_of (entries services).*1
      | Some (JArray services) =>
          match mapM as_str services with Some services => usage_of services | None => Unrecognized end
      | Some _ => Unrecognized
      end
  | _ => Unrecognized
  end.

(** A [StoreInventory] is its entries, by ID. *)
Abbreviation StoreInventory := (gmap string ReportedUsage).

Definition from_collection (s : CertificateStore) (response : json) : result RmsError StoreInventory :=
  match response with
  | JNull => Ok ∅
  | JObject m => Ok (usage_from_entry <$> m)
  | _ => Err (internal ("NVOS " +++ store_str s +++ " store listing is not a JSON object"))
  end.

Record CertificateInventory := mkInventory { inv_entity : StoreInventory; inv_ca : StoreInventory }.

Definition inventory_store (i : CertificateInventory) (s : CertificateStore) : StoreInventory :=
  match s with Entity => inv_entity i | Ca => inv_ca i end.

Definition needs_space (i : CertificateInventory) (limit : nat) : bool :=
  existsb (fun s => limit <=? size (inventory_store i s))%nat ALL_STORES.

Record UnreadableBinding := mkUnreadable { unreadable_service : string; reason : string }.

Record StoreBindings := mkBindings {
  bound : gmap string (gset string);
  unreadable : list UnreadableBinding;
}.

Record CertificateBindings := mkCertificateBindings { bind_entity : StoreBindings; bind_ca : StoreBindings }.

Definition no_store_bindings : StoreBindings := mkBindings ∅ [].
Definition no_bindings : CertificateBindings := mkCertificateBindings no_store_bindings no_store_bindings.

Definition bindings_store (b : CertificateBindings) (s : CertificateStore) : StoreBindings :=
  match s with Entity => bind_entity b | Ca => bind_ca b end.

Inductive SwitchMtlsService :=
| NvueApi
| ScaleUpFabricTelemetry
| ScaleUpFabricManager
| ScaleUpFabricTelemetryInterface.

#[export] Instance SwitchMtlsService_eq_dec : EqDecision SwitchMtlsService.
Proof. solve_decision. Defined.

Definition ALL_SERVICES : list SwitchMtlsService :=
  [NvueApi; ScaleUpFabricTelemetry; ScaleUpFabricManager; ScaleUpFabricTelemetryInterface].

Definition service_str (s : SwitchMtlsService) : string :=
  match s with
  | NvueApi => "nvue-api"
  | ScaleUpFabricTelemetry => "scale-up-fabric-telemetry"
  | ScaleUpFabricManager => "scale-up-fabric-manager"
  | ScaleUpFabricTelemetryInterface => "scale-up-fabric-telemetry-interface"
  end.

Definition record_store (b : StoreBindings) (service : SwitchMtlsService) (read : result string (list string))
    : StoreBindings :=
  match read with
  | Ok ids =>
      mkBindings (foldl (fun m id => <[id := {[service_str service]} ∪ default ∅ (m !! id)]> m) (bound b) ids)
        (unreadable b)
  | Err reason => mkBindings (bound b) (unreadable b ++ [mkUnreadable (service_str service) reason])
  end.

(** [CertificateBindings::record] *)
Definition record_binding (b : CertificateBindings) (s : CertificateStore) (service : SwitchMtlsService)
    (read : result string (list string)) : CertificateBindings :=
  match s with
  | Entity => mkCertificateBindings (record_store (bind_entity b) service read) (bind_ca b)
  | Ca => mkCertificateBindings (bind_entity b) (record_store (bind_ca b) service read)
  end.

Definition is_object (v : json) : bool := match v with JObject _ => true | _ => false end.

(** The loop of [bound_entry_ids] over the views. *)
Definition view_ids (name : string) (ids : gset string) (view : string * option json)
    : result string (gset string) :=
  match view.2 with
  | None => Ok ids
  | Some v =>
      if negb (is_object v) then Err (view.1 +++ " view is not a JSON object")
      else match field v name with
           | None | Some JNull => Ok ids
           | Some (JString id) => Ok (if String.eqb id "" then ids else {[id]} ∪ ids)
           | Some _ => Err (name +++ " is not a string")
           end
  end.

Definition bound_entry_ids (response : json) (name : string) : result string (list string) :=
  if negb (is_object response) then Err "response is not a JSON object"
  else
    let? ids := try_fold (view_ids name) ∅
                  [("response", Some response); ("applied", field response "applied");
                   ("operational", field response "operational")] in
    Ok (ordered String.le ids).

Record StoreReclaimPlan := mkReclaimPlan {
  plan_store : CertificateStore;
  plan_limit : nat;
  plan_entries : nat;
  plan_rms_entries : nat;
  deletions : list string;
}.

Definition identifier_char (c : ascii) : bool :=
  is_ascii_alphanumeric c || Ascii.eqb c (ascii_of_N 45) || Ascii.eqb c (ascii_of_N 95).

Definition is_valid_identifier (s : string) : bool := negb (String.eqb s "") && all_chars identifier_char s.

Definition is_rms_id (id : string) : bool := starts_with (to_chars id) (to_chars RMS_CERTIFICATE_ID_PREFIX).

Section Plan.
(** [NaiveDateTime::parse_from_str] with the format of the timestamps. *)
Variable parse_timestamp : string → option Z.

Definition import_time (id : string) : option Z :=
  let l := to_chars id in
  if (length l <? IMPORT_TIMESTAMP_LEN)%nat then None
  else
    let suffix := drop (length l - IMPORT_TIMESTAMP_LEN) l in
    match suffix with
    | c :: _ => if is_cont c then None else parse_timestamp (of_chars suffix)
    | [] => None
    end.

(** The order of [(import_time(id), id)]. *)
Definition older (a b : string) : Prop :=
  match import_time a, import_time b with
  | None, Some _ => True
  | Some _, None => False
  | Some x, Some y => (x < y)%Z ∨ (x = y ∧ String.le a b)
  | None, None => String.le a b
  end.

#[export] Instance older_dec : RelDecision older.
Proof. intros a b. unfold older. destruct (import_time a), (import_time b); apply _. Defined.

(** An entry that may be deleted. *)
Definition deletable (bindings : StoreBindings) (protected : gset string) (e : string * ReportedUsage) : bool :=
  is_rms_id e.1 && is_valid_identifier e.1 && negb (bool_decide (e.1 ∈ protected)) &&
  bool_decide (e.2 = NoUsage) && bool_decide (bound bindings !! e.1 = None).

Definition plan_store_reclaim (s : CertificateStore) (inventory : StoreInventory) (bindings : StoreBindings)
    (protected : gset string) (limit : nat) : result RmsError StoreReclaimPlan :=
  let n := size inventory in
  let rms_entries := length (filter (fun id => is_rms_id id = true) (entries inventory).*1) in
  let plan := mkReclaimPlan s limit n rms_entries in
  let required := (n + 1 - limit)%nat in
  if (required =? 0)%nat then Ok (plan [])
  else if negb (bool_decide (length (unreadable bindings) = 0%nat)) then
    Err (failed_precondition
      ("NVOS " +++ store_str s +++ " store is full (" +++ pretty n +++ " of " +++ pretty limit +++
       " entries) and RMS could not confirm which entries switch services use (" +++
       join_str "; " ((fun b => unreadable_service b +++ ": " +++ reason b) <$> unreadable bindings) +++
       "); no entries were deleted"))
  else
    let candidates := (filter (fun e => deletable bindings protected e = true) (entries inventory)).*1 in
    if (length candidates <? required)%nat then
      Err (failed_precondition
        ("NVOS " +++ store_str s +++ " store is full (" +++ pretty n +++ " of " +++ pretty limit +++ " entries, " +++
         pretty rms_entries +++ " created by RMS) and " +++ pretty (length candidates) +++
         " unused RMS entries can be deleted, " +++ pretty required +++
         " needed; delete unused entries on the switch and retry; no entries were deleted"))
    else Ok (plan (take required (merge_sort older candidates))).
End Plan.

Record BindingSource := mkSource {
  source_service : SwitchMtlsService;
  source_store : CertificateStore;
  source_endpoint : string;
  source_field : string;
  absent_when_not_found : bool;
}.

Definition nvue_cluster_app_manager_sub_endpoint (app name : string) : string :=
  "/nvue_v1/cluster/apps/" +++ app +++ "/manager/" +++ name.

Definition app_sources (service : SwitchMtlsService) (app : string) : list BindingSource :=
  [mkSource service Entity (nvue_cluster_app_manager_sub_endpoint app "certificate") "certificate" true;
   mkSource service Ca (nvue_cluster_app_manager_sub_endpoint app "ca-certificate") "ca-certificate" true].

Definition binding_sources (service : SwitchMtlsService) : list BindingSource :=
  match service with
  | NvueApi =>
      [mkSource service Entity "/nvue_v1/system/api" "certificate" false;
       mkSource service Ca "/nvue_v1/system/api/mtls" "ca-certificate" false]
  | ScaleUpFabricTelemetryInterface =>
      [mkSource service Entity "/nvue_v1/system/gnmi-server" "certificate" true;
       mkSource service Ca "/nvue_v1/system/gnmi-server/mtls" "ca-certificate" true]
  | ScaleUpFabricManager => app_sources service "nmx-controller"
  | ScaleUpFabricTelemetry => app_sources service "nmx-telemetry"
  end.

Section Device.
Context {D : Type} `{NvueDevice D}.

Definition get_certificate_document (endpoint : string) : ST D RmsError json :=
  st_bind (nvue_get endpoint) (fun response =>
  if is_success response && is_blank (body response)
  then st_err (internal ("NVUE GET " +++ endpoint +++ " returned " +++ pretty (status response) +++ " without a body"))
  else st_lift (map_err rms_of_client_error (into_json response "GET" endpoint))).

Definition read_certificate_store (s : CertificateStore) : ST D RmsError StoreInventory := fun d =>
  match get_certificate_document (collection_endpoint s) d with
  | (d, Ok response) => (d, from_collection s response)
  | (d, Err e) =>
      if bool_decide (error_code e = ErrorCodeM.NotFound) then (d, Ok ∅)
      else (d, Err (mkRmsError (error_code e)
                      ("failed to list the NVOS " +++ store_str s +++ " store: " +++ error_message e)))
  end.

Definition read_certificate_inventory : ST D RmsError CertificateInventory :=
  st_bind (read_certificate_store Entity) (fun entity =>
  st_bind (read_certificate_store Ca) (fun ca =>
  st_ret (mkInventory entity ca))).

Definition read_source (source : BindingSource) (d : D) : D * result string (list string) :=
  match get_certificate_document (source_endpoint source) d with
  | (d, Ok response) => (d, bound_entry_ids response (source_field source))
  | (d, Err e) =>
      if bool_decide (error_code e = ErrorCodeM.NotFound) && absent_when_not_found source then (d, Ok [])
      else (d, Err ("GET " +++ source_endpoint source +++ ": " +++ error_message e))
  end.

Fixpoint read_sources (sources : list BindingSource) (b : CertificateBindings) (d : D) : D * CertificateBindings :=
  match sources with
  | [] => (d, b)
  | source :: sources =>
      let '(d, read) := read_source source d in
      read_sources sources (record_binding b (source_store source) (source_service source) read) d
  end.

Definition read_certificate_bindings : D → D * CertificateBindings :=
  read_sources (ALL_SERVICES ≫= binding_sources) no_bindings.

Definition delete_payload : json := JObject {["@delete" := JObject {["state" := JString "start"]}]}.

Definition delete_certificate_entry (s : CertificateStore) (id : string) : ST D RmsError unit :=
  if negb (is_rms_id id) || negb (is_valid_identifier id)
  then st_err (invalid_argument ("refusing to delete NVOS " +++ store_str s +++ " entry " +++ id +++
                                 ": not an RMS-created ID"))
  else
    let endpoint := entry_endpoint s id in
    st_bind (nvue_post endpoint delete_payload) (fun response =>
    let returned := "NVUE POST " +++ endpoint +++ " @delete returned " +++ pretty (status response) in
    if negb (is_success response) && negb (status response =? 404)%N
    then st_err (mkRmsError (rms_http_status_code (status response))
                   (if is_blank (body response) then returned else returned +++ ": " +++ body response))
    else if is_success response then
      st_bind (st_lift (map_err (fun e => internal (returned +++
                 " without an action ID, so the deletion cannot be confirmed: " +++
                 error_message (rms_of_client_error e))) (extract_action_id (value response)))) (fun action_id =>
      wait_for_nvue_action_success action_id)
    else st_ret tt).
End Device.
End Retention.

(** ** [switch_certificate_handlers.rs]: the installation *)

Module Install.
Import Nvue Retention.

(** [SwitchMtlsMaterialPaths] *)
Record Material := mkMaterial {
  domain : string;
  ca_cert_path : string;
  entity_cert_path : string;
  entity_key_path : string;
  remote_run_id : string;
  ca_cert_id : string;
  entity_cert_id : string;
}.

Definition remote_dir (m : Material) : string := "/home/admin/certs/" +++ remote_run_id m.

(** One character for each character of the domain: the bytes that continue a
    character are left out. *)
Definition sanitize_domain_for_cert_id (domain : string) : string :=
  of_chars ((fun c => if is_ascii_alphanumeric c || Ascii.eqb c (ascii_of_N 45) then c else ascii_of_N 45) <$>
            filter (fun c => is_cont c = false) (to_chars domain)).

Definition cert_ids_for_domain_with_suffix (domain suffix : string) : string * string :=
  let sanitized := sanitize_domain_for_cert_id domain in
  ("rms-" +++ sanitized +++ "-ca-" +++ suffix, "rms-" +++ sanitized +++ "-cert-" +++ suffix).

(** The remote names and the local paths of [mtls_remote_file_specs]. *)
Definition mtls_remote_file_specs (m : Material) : list (string * string) :=
  [("ca.pem", ca_cert_path m); ("client.pem", entity_cert_path m); ("client.key", entity_key_path m)].

Inductive Stage :=
| ReclaimCertificateCapacity
| PrepareRemoteDirectory
| TransferMaterial (remote_name : string)
| ImportMaterial
| DiscoverNvueCapabilities
| BindService (service : SwitchMtlsService)
| VerifyServices.

Record MtlsSftpCopyOutcome := mkCopied { remote_path : string; bytes : N }.

Record InstallFailure := mkFailure {
  failure_error : RmsError;
  failure_details : json;
  failure_services : list string;
}.

Record InstallResult := mkInstalled {
  configured_services : list string;
  service_verification : json;
}.

Definition ordered_bind_services (services : list SwitchMtlsService) : list SwitchMtlsService :=
  filter (fun s => s ≠ NvueApi) services ++ filter (fun s => s = NvueApi) services.

Definition certificate_job_discovers_nvue_capabilities (services : list SwitchMtlsService) : bool :=
  contains services ScaleUpFabricTelemetryInterface.

(** [SwitchCertificateInstallNode], with [SwitchCertificateInstallProgress] and the
    [CancellationToken] of the job; [initialize_nvue_capabilities] says whether the
    client CA of gNMI is supported. *)
Class InstallNode (D : Type) := {
  node_inventory : ST D RmsError CertificateInventory;
  node_bindings : ST D RmsError CertificateBindings;
  node_delete : CertificateStore → string → ST D RmsError unit;
  prepare_mtls_remote_dirs : Material → ST D RmsError unit;
  sftp_copy_mtls_file : Material → string → ST D RmsError MtlsSftpCopyOutcome;
  import_mtls_material : Material → ST D RmsError unit;
  initialize_nvue_capabilities : ST D RmsError bool;
  cleanup_mtls_remote_dir : Material → ST D RmsError unit;
  bind_mtls_service_for_install : Material → SwitchMtlsService → ST D RmsError unit;
  verify_mtls_services : Material → list SwitchMtlsService → ST D RmsError json;
  is_cancelled : D → bool;
  start_stage : Stage → ST D RmsError unit;
  complete_stage : json → D → D;
  timestamp : string → option Z;
}.

Inductive Call :=
| ReadInventory
| ReadBindings
| DeleteEntry (s : CertificateStore) (id : string)
| PrepareDirs
| CopyFile (remote_name : string)
| ImportCall
| Discover
| Cleanup
| Bind (service : SwitchMtlsService)
| Verify.

(** The node, and the calls that were made on it, with their success. *)
Record World (D : Type) := mkWorld { dev : D; calls : list (Call * bool) }.
Arguments mkWorld {D}.
Arguments dev {D}.
Arguments calls {D}.

Section Install.
Context {D : Type} `{InstallNode D}.

Definition perform {A} (c : Call) (op : ST D RmsError A) : ST (World D) RmsError A := fun w =>
  let '(d, r) := op (dev w) in (mkWorld d (calls w ++ [(c, is_ok r)]), r).

(** The sink of the progress is not part of the switch. *)
Definition begin_stage (s : Stage) : ST (World D) RmsError unit := fun w =>
  let '(d, r) := start_stage s (dev w) in (mkWorld d (calls w), r).

Definition end_stage (details : json) : ST (World D) InstallFailure unit := fun w =>
  (mkWorld (complete_stage details (dev w)) (calls w), Ok tt).

(** An error of the removal is only logged. *)
Definition cleanup_mtls_remote_dir_best_effort (m : Material) (w : World D) : World D :=
  (perform Cleanup (cleanup_mtls_remote_dir m) w).1.

(** [cleanup_staged_certificate_material]; the guard that it disarms acts only when
    the future is dropped or panics. *)
Definition clean_up (m : Material) (w : World D) : World D := cleanup_mtls_remote_dir_best_effort m w.

Definition failure (details : RmsError → json) (services : list string) (e : RmsError) : InstallFailure :=
  mkFailure e (details e) services.

Definition no_details (e : RmsError) : json := JObject ∅.
Definition error_details (e : RmsError) : json := JObject {["error" := JString (error_message e)]}.

(** ** [reclaim_certificate_store_capacity] *)

Definition deleted_json (e : CertificateStore * string) : json :=
  JObject {["store" := JString (store_str e.1); "certificate_id" := JString e.2]}.

Definition reclaim_details (deleted : list (CertificateStore * string)) (e : RmsError) : json :=
  JObject {["error" := JString (error_message e); "deleted" := JArray (deleted_json <$> deleted)]}.

Definition cancelled_error : RmsError :=
  cancelled "certificate store reclamation cancelled; nothing was imported or bound".

(** The loop over the deletions; the state is what was deleted. *)
Fixpoint delete_entries (todo deleted : list (CertificateStore * string))
    : ST (World D) InstallFailure (list (CertificateStore * string)) :=
  match todo with
  | [] => st_ret deleted
  | (s, id) :: todo => fun w =>
      if is_cancelled (dev w) then (w, Err (failure (reclaim_details deleted) [] cancelled_error))
      else match perform (DeleteEntry s id) (node_delete s id) w with
           | (w, Ok _) => delete_entries todo (deleted ++ [(s, id)]) w
           | (w, Err e) =>
               (w, Err (failure (reclaim_details deleted) []
                  (mkRmsError (error_code e)
                     ("failed to delete unused NVOS " +++ store_str s +++ " entry " +++ id +++ ": " +++
                      error_message e +++ "; nothing was imported or bound"))))
           end
  end.

Definition plan_json (p : StoreReclaimPlan) : json :=
  JObject {["store" := JString (store_str (plan_store p)); "limit" := jnat (plan_limit p);
            "entries" := jnat (plan_entries p); "rms_entries" := jnat (plan_rms_entries p);
            "deletions" := JArray (JString <$> deletions p)]}.

Definition reclaim_fields (plans : list StoreReclaimPlan) (deleted : list (CertificateStore * string)) : json_map :=
  {["limit" := jnat NVOS_CERTIFICATE_STORE_LIMIT; "stores" := JArray (plan_json <$> plans);
    "deleted" := JArray (deleted_json <$> deleted)]}.

Definition check_room (after : CertificateInventory) (s : CertificateStore) : result RmsError unit :=
  let n := size (inventory_store after s) in
  if (NVOS_CERTIFICATE_STORE_LIMIT <=? n)%nat
  then Err (failed_precondition ("NVOS " +++ store_str s +++ " store still lists " +++ pretty n +++ " of " +++
              pretty NVOS_CERTIFICATE_STORE_LIMIT +++
              " entries after RMS deleted unused entries; nothing was imported or bound"))
  else Ok tt.

Definition protected_ids (m : Material) : gset string := {[ca_cert_id m; entity_cert_id m]}.

Definition plan_stores (m : Material) (i : CertificateInventory) (b : CertificateBindings)
    : result RmsError (list StoreReclaimPlan) :=
  collect (fun s => plan_store_reclaim timestamp s (inventory_store i s) (bindings_store b s) (protected_ids m)
                      NVOS_CERTIFICATE_STORE_LIMIT) ALL_STORES.

Definition planned (plans : list StoreReclaimPlan) : list (CertificateStore * string) :=
  p ← plans; (fun id => (plan_store p, id)) <$> deletions p.

Definition reclaim_certificate_store_capacity (m : Material) : ST (World D) InstallFailure json := fun w =>
  let fail deleted := failure (reclaim_details deleted) [] in
  if is_cancelled (dev w) then (w, Err (fail [] cancelled_error))
  else
    st_bind (st_map_err (fail []) (perform ReadInventory node_inventory)) (fun inventory =>
    st_bind (if needs_space inventory NVOS_CERTIFICATE_STORE_LIMIT
             then st_map_err (fail []) (perform ReadBindings node_bindings)
             else st_ret no_bindings) (fun bindings =>
    st_bind (st_lift (map_err (fail []) (plan_stores m inventory bindings))) (fun plans =>
    st_bind (delete_entries (planned plans) []) (fun deleted =>
    match deleted with
    | [] => st_ret (JObject (reclaim_fields plans deleted))
    | _ =>
        st_bind (st_map_err (fail deleted) (perform ReadInventory node_inventory)) (fun after =>
        st_bind (st_lift (map_err (fail deleted) (for_each (check_room after) ALL_STORES))) (fun _ =>
        st_ret (JObject (<["entries_after" := JObject {["entity-certificate" := jnat (size (inv_entity after));
                                                       "ca-certificate" := jnat (size (inv_ca after))]}]>
                          (reclaim_fields plans deleted)))))
    end)))) w.

(** ** [transfer_and_import_switch_certificate_material] *)

Fixpoint transfer_files (m : Material) (specs : list (string * string)) : ST (World D) InstallFailure unit :=
  match specs with
  | [] => st_ret tt
  | (remote_name, local_path) :: specs =>
      st_bind (st_map_err (failure no_details []) (begin_stage (TransferMaterial remote_name))) (fun _ =>
      st_bind (st_map_err (failure (fun e => JObject {["error" := JString (error_message e);
                                                       "remote_file" := JString remote_name;
                                                       "local_path" := JString local_path]}) [])
                 (perform (CopyFile remote_name) (sftp_copy_mtls_file m remote_name))) (fun outcome =>
      st_bind (end_stage (JObject {["remote_file" := JString remote_name;
                                    "remote_path" := JString (remote_path outcome);
                                    "bytes" := JNumber (PosInt (bytes outcome))]})) (fun _ =>
      transfer_files m specs)))
  end.

(** What runs between the preparation of the directory and its removal. *)
Definition stage_and_import (m : Material) : ST (World D) InstallFailure unit :=
  st_bind (transfer_files m (mtls_remote_file_specs m)) (fun _ =>
  st_bind (st_map_err (failure no_details []) (begin_stage ImportMaterial)) (fun _ =>
  st_map_err (failure error_details []) (perform ImportCall (import_mtls_material m)))).

(** Every way out of it tries to remove the directory. *)
Definition with_cleanup (m : Material) (op : ST (World D) InstallFailure unit) : ST (World D) InstallFailure unit := fun w =>
  let '(w, r) := op w in (clean_up m w, r).

Definition transfer_and_import_switch_certificate_material (m : Material) : ST (World D) InstallFailure unit :=
  st_bind (st_map_err (failure no_details []) (begin_stage PrepareRemoteDirectory)) (fun _ =>
  st_bind (st_map_err (failure error_details []) (perform PrepareDirs (prepare_mtls_remote_dirs m))) (fun _ =>
  st_bind (end_stage (JObject {["remote_dir" := JString (remote_dir m)]})) (fun _ =>
  st_bind (with_cleanup m (stage_and_import m)) (fun _ =>
  end_stage (JObject {["ca_certificate_id" := JString (ca_cert_id m);
                       "entity_certificate_id" := JString (entity_cert_id m)]}))))).

(** ** [bind_and_verify_switch_certificate_services] *)

Fixpoint bind_services (m : Material) (services : list SwitchMtlsService) (configured : list string)
    : ST (World D) InstallFailure (list string) :=
  match services with
  | [] => st_ret configured
  | service :: services =>
      st_bind (st_map_err (failure no_details configured) (begin_stage (BindService service))) (fun _ =>
      st_bind (st_map_err (failure (fun e => JObject {["error" := JString (error_message e);
                                                       "service" := JString (service_str service)]}) configured)
                 (perform (Bind service) (bind_mtls_service_for_install m service))) (fun _ =>
      st_bind (end_stage (JObject {["service" := JString (service_str service)]})) (fun _ =>
      bind_services m services (configured ++ [service_str service]))))
  end.

Definition discover : ST (World D) InstallFailure unit :=
  st_bind (st_map_err (failure no_details []) (begin_stage DiscoverNvueCapabilities)) (fun _ =>
  st_bind (st_map_err (failure error_details []) (perform Discover initialize_nvue_capabilities)) (fun supported : bool =>
  end_stage (JObject {["gnmi_client_authentication" :=
                         JString (if supported then "mtls" else "server-certificate-only")]}))).

Definition bind_and_verify_switch_certificate_services (m : Material) (services : list SwitchMtlsService)
    : ST (World D) InstallFailure InstallResult :=
  st_bind (if certificate_job_discovers_nvue_capabilities services then discover else st_ret tt) (fun _ =>
  st_bind (bind_services m (ordered_bind_services services) []) (fun configured =>
  st_bind (st_map_err (failure no_details configured) (begin_stage VerifyServices)) (fun _ =>
  st_bind (st_map_err (failure error_details configured) (perform Verify (verify_mtls_services m services))) (fun verification =>
  st_bind (end_stage verification) (fun _ =>
  st_ret (mkInstalled configured verification)))))).

Definition install_switch_certificate_material (m : Material) (services : list SwitchMtlsService)
    : ST (World D) InstallFailure InstallResult :=
  st_bind (st_map_err (failure no_details []) (begin_stage ReclaimCertificateCapacity)) (fun _ =>
  st_bind (reclaim_certificate_store_capacity m) (fun reclaimed =>
  st_bind (end_stage reclaimed) (fun _ =>
  st_bind (transfer_and_import_switch_certificate_material m) (fun _ =>
  bind_and_verify_switch_certificate_services m services)))).
End Install.

(** The node of a GB200 switch: its stores are those of the NVUE device; the copies
    by SFTP, the imports and the bindings are those of [rest]. *)
Definition switch_node {D} `{NvueDevice D} (rest : InstallNode D) : InstallNode D := {|
  node_inventory := read_certificate_inventory;
  node_bindings d := let '(d, b) := read_certificate_bindings d in (d, Ok b);
  node_delete := delete_certificate_entry;
  prepare_mtls_remote_dirs := prepare_mtls_remote_dirs;
  sftp_copy_mtls_file := sftp_copy_mtls_file;
  import_mtls_material := import_mtls_material;
  initialize_nvue_capabilities := initialize_nvue_capabilities;
  cleanup_mtls_remote_dir := cleanup_mtls_remote_dir;
  bind_mtls_service_for_install := bind_mtls_service_for_install;
  verify_mtls_services := verify_mtls_services;
  is_cancelled := is_cancelled;
  start_stage := start_stage;
  complete_stage := complete_stage;
  timestamp := timestamp;
|}.
End Install.
