(* ===== verification/SwitchCertificateTheorems.v ===== *)
(** * Certificates of switches: theorems

    Nothing is deleted from a certificate store without positive evidence that no
    service uses it, only as much as is needed, the oldest first; an installation
    that goes on finds room; and however an installation ends, the removal of the
    key that was copied to the switch is attempted, its failure swallowed, and nothing
    is bound that was not imported. *)

From S2P Require Import Prelude RustStd RustStr RustBytes Json RmsError SwitchCertificates.
From Stdlib Require Import Ascii.
Local Open Scope string_scope.
Local Open Scope list_scope.

Module SwitchCertificateTheorems.
Import Nvue Retention Install.

(** ** Plans *)

Section Plan.
Variable parse_timestamp : string → option Z.

#[local] Instance older_total : Total (older parse_timestamp).
Proof.
  intros a b. unfold older. destruct (import_time _ a) as [x|], (import_time _ b) as [y|]; auto; [|apply String.le_total].
  destruct (Z.lt_trichotomy x y) as [?|[->|?]]; auto. destruct (String.le_total a b); auto.
Qed.

#[local] Instance older_trans : Transitive (older parse_timestamp).
Proof.
  intros a b c. unfold older.
  destruct (import_time _ a) as [x|], (import_time _ b) as [y|], (import_time _ c) as [z|]; try done; [|intros ? ?; by transitivity b].
  intros [?|[-> ?]] [?|[-> ?]]; [left; lia|by left|by left|right]. split; [done|by transitivity b].
Qed.

(** The entry may be deleted: it is listed as RMS's own and as used by nobody, the
    install does not need it, and no service is bound to it. *)
Definition unused (inventory : StoreInventory) (b : StoreBindings) (protected : gset string) (id : string) : Prop :=
  inventory !! id = Some NoUsage ∧ is_rms_id id = true ∧ is_valid_identifier id = true ∧ (id ∉ protected) ∧
  bound b !! id = None.

Definition candidates (inventory : StoreInventory) (b : StoreBindings) (protected : gset string) : list string :=
  (filter (fun e => deletable b protected e = true) (entries inventory)).*1.

Lemma candidates_spec inventory b protected :
  NoDup (candidates inventory b protected) ∧
  ∀ id, id ∈ candidates inventory b protected ↔ unused inventory b protected id.
Proof.
  unfold candidates, entries. split.
  - apply (sublist_NoDup _ (merge_sort key_le (map_to_list inventory)).*1).
    + rewrite merge_sort_Permutation. apply NoDup_fst_map_to_list.
    + apply fmap_sublist, sublist_filter.
  - intros id. rewrite list_elem_of_fmap. setoid_rewrite list_elem_of_filter. setoid_rewrite merge_sort_Permutation.
    unfold deletable, unused. split.
    + intros ([id' u] & -> & Hd & Hin%elem_of_map_to_list). simpl in *.
      rewrite !andb_true_iff, negb_true_iff, !bool_decide_eq_true, bool_decide_eq_false in Hd. naive_solver.
    + intros (Hin & ? & ? & ? & ?). exists (id, NoUsage). split; [done|]. split; [|by apply elem_of_map_to_list].
      rewrite !andb_true_iff, negb_true_iff, !bool_decide_eq_true, bool_decide_eq_false. done.
Qed.

(** A plan deletes exactly what is needed, and only what is unused: it is made if
    and only if there is room, or every binding of the store was read and enough
    entries are unused; it then has as many deletions as are missing for one more
    entry, of different unused entries, oldest first, and no unused entry that is
    kept is older than one that is deleted. *)
Theorem plan_exact s inventory b protected limit :
  let required := (size inventory + 1 - limit)%nat in
  match plan_store_reclaim parse_timestamp s inventory b protected limit with
  | Ok p =>
      plan_store p = s ∧ length (deletions p) = required ∧ NoDup (deletions p) ∧
      StronglySorted (older parse_timestamp) (deletions p) ∧
      (∀ id, id ∈ deletions p → unreadable b = [] ∧ unused inventory b protected id) ∧
      (∀ id id', id ∈ deletions p → unused inventory b protected id' → (id' ∉ deletions p) → older parse_timestamp id id')
  | Err e =>
      required ≠ 0%nat ∧ (unreadable b ≠ [] ∨ (length (candidates inventory b protected) < required)%nat)
  end.
Proof.
  unfold plan_store_reclaim. fold (candidates inventory b protected). set (required := (size inventory + 1 - limit)%nat).
  destruct (candidates_spec inventory b protected) as [Hnd Hc].
  destruct (Nat.eqb_spec required 0) as [Hr|Hr]; simpl.
  { split_and!; [done|done|apply NoDup_nil_2|constructor|by intros ? ?%not_elem_of_nil|by intros ? ? ?%not_elem_of_nil]. }
  case_bool_decide as Hu; simpl; [|split; [done|]; left; intros E; by rewrite E in Hu].
  apply length_zero_iff_nil in Hu.
  destruct (Nat.ltb_spec (length (candidates inventory b protected)) required) as [Hl|Hl]; [by auto|].
  set (l := merge_sort (older parse_timestamp) (candidates inventory b protected)).
  assert (l ≡ₚ candidates inventory b protected) as Hp by apply merge_sort_Permutation.
  assert (StronglySorted (older parse_timestamp) l) as Hs by apply (StronglySorted_merge_sort _).
  assert (Hnd' : NoDup l) by (by rewrite Hp). rewrite <- (take_drop required l) in Hs, Hnd'.
  apply StronglySorted_app in Hs as (Hle & Hs & _). apply NoDup_app in Hnd' as (Hnd' & _ & _).
  simpl. split_and!; [done|rewrite length_take, Hp; lia|done|done| |].
  - intros id Hid. split; [done|]. apply Hc. rewrite <- Hp, <- (take_drop required l). set_solver.
  - intros id id' Hid Hun Hnot. apply Hle; [done|]. apply Hc in Hun. rewrite <- Hp, <- (take_drop required l) in Hun.
    set_solver.
Qed.
End Plan.

(** ** Bindings *)

(** The document names the entry, in one of its views. *)
Definition named (response : json) (name id : string) : Prop :=
  id ≠ "" ∧ (field response name = Some (JString id) ∨
             ∃ key view, key ∈ ["applied"; "operational"] ∧ field response key = Some view ∧
               field view name = Some (JString id)).

Lemma views_ids name views ids ids' :
  try_fold (view_ids name) ids views = Ok ids' →
  ∀ id, id ∈ ids' ↔ id ∈ ids ∨ (id ≠ "" ∧ ∃ n v, (n, Some v) ∈ views ∧ field v name = Some (JString id)).
Proof.
  revert ids. induction views as [|[n [v|]] views IH]; intros ids; cbn [try_fold].
  - intros [= <-] id. split; [by left|]. intros [|(_ & n & v & Hin%not_elem_of_nil & _)]; done.
  - intros E id. bind_ok E. rewrite (IH _ E). unfold view_ids in E0. simpl in E0. destruct (is_object v); [|done].
    assert (id ∈ a ↔ id ∈ ids ∨ (id ≠ "" ∧ field v name = Some (JString id))) as ->.
    { destruct (field v name) as [[| | |x| |]|] eqn:Ef; simpl in E0; try done; injection E0 as <-;
        try (split; [by left|by intros [|[_ [=]]]]).
      destruct (String.eqb_spec x ""); set_solver. }
    split; [intros [[?|[? ?]]|(? & n' & v' & ? & ?)]; [by left|right; split; [done|exists n, v; set_solver]|right; split; [done|exists n', v'; set_solver]]|].
    intros [?|(? & n' & v' & [[= -> ->]|?]%elem_of_cons & ?)]; [auto|auto|right; eauto].
  - intros E id. bind_ok E. injection E0 as <-. rewrite (IH _ E). setoid_rewrite elem_of_cons. naive_solver.
Qed.

Lemma bound_ids_spec response name ids :
  bound_entry_ids response name = Ok ids → ∀ id, id ∈ ids ↔ named response name id.
Proof.
  unfold bound_entry_ids. destruct (is_object response); [|done]. cbn [negb]. intros E. bind_ok E. injection E as <-.
  intros id. unfold ordered. rewrite merge_sort_Permutation, elem_of_elements, (views_ids _ _ _ _ E0). unfold named.
  rewrite elem_of_empty. split.
  - intros [[]|(? & n & v & Hin & Hf)]. split; [done|].
    apply elem_of_cons in Hin as [[= -> ->]|[[= -> Ev]|[[= -> Ev]|[]%not_elem_of_nil]%elem_of_cons]%elem_of_cons];
      [by left|right; exists "applied", v|right; exists "operational", v]; (split; [set_solver|done]).
  - intros [? [?|(key & v & Hin & Ev & ?)]]; right; (split; [done|]); [exists "response", response; set_solver|].
    exists key, v. apply elem_of_cons in Hin as [->|[->|[]%not_elem_of_nil]%elem_of_cons]; rewrite Ev; set_solver.
Qed.

Lemma record_store_spec b service read id :
  (unreadable (record_store b service read) = [] ↔ unreadable b = [] ∧ is_ok read = true) ∧
  (bound (record_store b service read) !! id = None ↔ bound b !! id = None ∧ ∀ ids, read = Ok ids → id ∉ ids).
Proof.
  destruct read as [ids|e]; simpl; [|split; [split; [by intros []%app_eq_nil|by intros [_ ?]]|naive_solver]].
  split; [tauto|]. revert b. induction ids as [|x ids IH]; intros b; simpl.
  { split; [|tauto]. intros ?. split; [done|]. intros ? [= <-]. apply not_elem_of_nil. }
  specialize (IH (mkBindings (<[x := {[service_str service]} ∪ default ∅ (bound b !! x)]> (bound b)) [])). simpl in IH.
  rewrite IH, lookup_insert_None. split.
  - intros [[? ?] Hi]. split; [done|]. intros ? [= <-] [->|?]%elem_of_cons; [done|by apply (Hi _ eq_refl)].
  - intros [? Hi]. split; [split; [done|]|].
    + intros ->. apply (Hi _ eq_refl). by left.
    + intros ? [= <-] ?. apply (Hi _ eq_refl). by right.
Qed.

Section Device.
Context {D : Type} `{NvueDevice D}.

(** What comes of the switch when documents are read, and nothing else is done. *)
Definition asked (d d' : D) : Prop := ∃ endpoint, d' = (get_certificate_document endpoint d).1.

(** While documents were read from [d0] on, that of the source was, and it does not
    name the entry. *)
Definition read_unbound (d0 : D) (source : BindingSource) (id : string) : Prop :=
  ∃ d, rtc asked d0 d ∧ match (get_certificate_document (source_endpoint source) d).2 with
       | Ok response => ¬ named response (source_field source) id
       | Err e => error_code e = ErrorCodeM.NotFound ∧ absent_when_not_found source = true
       end.

Lemma read_source_unbound source d d' ids id :
  read_source source d = (d', Ok ids) → (id ∉ ids) → read_unbound d source id.
Proof.
  unfold read_source, read_unbound. intros E Hid. exists d. split; [done|].
  destruct (get_certificate_document _ d) as [d1 [response|e]]; simpl.
  - injection E as _ E. by rewrite <- (bound_ids_spec _ _ _ E).
  - case_bool_decide; [|done]. by destruct (absent_when_not_found source).
Qed.

Lemma asked_get endpoint d d' (x : result RmsError json) : get_certificate_document endpoint d = (d', x) → asked d d'.
Proof. intros E. exists endpoint. by rewrite E. Qed.

Lemma read_source_asked source d d' x : read_source source d = (d', x) → asked d d'.
Proof.
  unfold read_source. destruct (get_certificate_document _ d) as [d1 [response|e]] eqn:Eg; apply asked_get in Eg.
  - by intros [= <- _].
  - by destruct (_ && _); intros [= <- _].
Qed.

Lemma read_unbound_before d0 d source id : rtc asked d0 d → read_unbound d source id → read_unbound d0 source id.
Proof. intros Ha (d1 & ? & Hm). exists d1. split; [by etrans|exact Hm]. Qed.

Lemma bindings_store_record b s service read s' :
  bindings_store (record_binding b s service read) s' =
  if decide (s = s') then record_store (bindings_store b s') service read else bindings_store b s'.
Proof. by destruct s, s'. Qed.

Lemma read_sources_unbound sources b d d' b' s id :
  read_sources sources b d = (d', b') → unreadable (bindings_store b' s) = [] → bound (bindings_store b' s) !! id = None →
  unreadable (bindings_store b s) = [] ∧ bound (bindings_store b s) !! id = None ∧
  ∀ source, source ∈ sources → source_store source = s → read_unbound d source id.
Proof.
  revert b d. induction sources as [|x sources IH]; intros b d; cbn [read_sources].
  { intros [= <- <-] ? ?. split_and!; [done..|]. by intros ? ?%not_elem_of_nil. }
  destruct (read_source x d) as [d1 read] eqn:Er. intros E Hu Hb.
  pose proof (rtc_once _ _ (read_source_asked _ _ _ _ Er)) as Ha.
  destruct (IH _ _ E Hu Hb) as (Hu1 & Hb1 & Hs). rewrite bindings_store_record in Hu1, Hb1.
  destruct (decide (source_store x = s)) as [Ex|Ex].
  - apply record_store_spec in Hu1 as [Hu1 Hok]; [|exact id]. apply record_store_spec in Hb1 as [Hb1 Hids].
    split_and!; [done..|]. intros source [->|Hin]%elem_of_cons Es; [|by eapply read_unbound_before; [|by apply Hs]].
    destruct read as [ids|]; [|done]. eapply read_source_unbound; [exact Er|by apply Hids].
  - split_and!; [done..|]. intros source [->|Hin]%elem_of_cons Es; [done|by eapply read_unbound_before; [|by apply Hs]].
Qed.
End Device.

(** ** Traces *)

Section Install.
Context {D : Type} `{InstallNode D}.
Implicit Types (w : World D) (t : list (Call * bool)).

(** What [op] adds to the calls, from a state and with a result. *)
Definition adds {E A} (op : ST (World D) E A) (Q : World D → list (Call * bool) → World D → result E A → Prop) : Prop :=
  ∀ w, ∃ t, calls (op w).1 = calls w ++ t ∧ Q w t (op w).1 (op w).2.

Lemma adds_nothing {E A} (op : ST (World D) E A) (Q : World D → list (Call * bool) → World D → result E A → Prop) :
  (∀ w, calls (op w).1 = calls w ∧ Q w [] (op w).1 (op w).2) → adds op Q.
Proof. intros Ho w. exists []. rewrite app_nil_r. apply Ho. Qed.

Lemma adds_weaken {E A} (op : ST (World D) E A) (Q Q' : World D → list (Call * bool) → World D → result E A → Prop) :
  adds op Q → (∀ w t w' r, Q w t w' r → Q' w t w' r) → adds op Q'.
Proof. intros Ho Hq w. destruct (Ho w) as (t & ? & ?). eauto. Qed.

Lemma adds_bind {E A B} (op : ST (World D) E A) (k : A → ST (World D) E B) Q Q' :
  adds op Q → (∀ a, adds (k a) (Q' a)) →
  adds (st_bind op k) (fun w t w' r =>
    (∃ e, r = Err e ∧ Q w t w' (Err e)) ∨
    ∃ a t1 t2 w1, t = t1 ++ t2 ∧ Q w t1 w1 (Ok a) ∧ Q' a w1 t2 w' r).
Proof.
  intros Ho Hk w. unfold st_bind. destruct (Ho w) as (t1 & E1 & Q1). destruct (op w) as [w1 [a|e]]; simpl in *.
  - destruct (Hk a w1) as (t2 & E2 & Q2). exists (t1 ++ t2). rewrite E2, E1, (assoc_L (++)). split; [done|].
    right. by exists a, t1, t2, w1.
  - exists t1. split; [done|]. left. eauto.
Qed.

Lemma adds_map_err {E F A} (f : E → F) (op : ST (World D) E A) Q :
  adds op Q → adds (st_map_err f op) (fun w t w' r =>
    match r with Ok a => Q w t w' (Ok a) | Err _ => ∃ e, Q w t w' (Err e) end).
Proof.
  intros Ho w. unfold st_map_err. destruct (Ho w) as (t & Et & Hq). exists t.
  destruct (op w) as [w1 [a|e]]; simpl in *; eauto.
Qed.

Lemma adds_perform {A} c (op : ST D RmsError A) :
  adds (perform c op) (fun w t w' r => t = [(c, is_ok r)] ∧ op (dev w) = (dev w', r)).
Proof. intros w. unfold perform. destruct (op (dev w)) as [d r]. simpl. eauto. Qed.

(** The progress and what is only computed add nothing. *)
Lemma adds_begin s : adds (begin_stage s) (fun _ t _ _ => t = []).
Proof. apply adds_nothing. intros w. unfold begin_stage. by destruct (start_stage s (dev w)). Qed.

Lemma adds_end details : adds (end_stage details) (fun _ t _ r => t = [] ∧ r = Ok tt).
Proof. by apply adds_nothing. Qed.

Lemma adds_ret {E A} (a : A) : adds (E := E) (st_ret a) (fun w t w' r => t = [] ∧ w' = w ∧ r = Ok a).
Proof. by apply adds_nothing. Qed.

Lemma adds_lift {E A} (x : result E A) : adds (st_lift x) (fun w t w' r => t = [] ∧ w' = w ∧ r = x).
Proof. by apply adds_nothing. Qed.

(** ** Reclamation *)

Definition deletion (e : CertificateStore * string) : Call := DeleteEntry e.1 e.2.

Lemma adds_deletes todo deleted :
  adds (delete_entries todo deleted) (fun _ t _ r =>
    t.*1 `prefix_of` (deletion <$> todo) ∧ ∀ l, r = Ok l → l = deleted ++ todo ∧ length t = length todo).
Proof.
  revert deleted. induction todo as [|[s id] todo IH]; intros deleted; cbn [delete_entries].
  { apply adds_nothing. intros w. simpl. split_and!; [done|done|]. intros l [= <-]. by rewrite app_nil_r. }
  intros w. destruct (is_cancelled (dev w)).
  { exists []. rewrite app_nil_r. split_and!; [done|apply prefix_nil|done]. }
  destruct (adds_perform (DeleteEntry s id) (node_delete s id) w) as (t & Et & -> & _).
  destruct (perform _ _ w) as [w1 [[]|e]]; simpl in *.
  - destruct (IH (deleted ++ [(s, id)]) w1) as (t2 & E2 & Hp & Hl). exists ((DeleteEntry s id, true) :: t2).
    rewrite E2, Et, <- (assoc_L (++)). split; [done|]. split; [by apply prefix_cons|].
    intros l [-> Hlen]%Hl. rewrite <- (assoc_L (++)). simpl. by rewrite Hlen.
  - eexists. split; [done|]. split; [by apply prefix_cons, prefix_nil|done].
Qed.

(** What is known when an entry is deleted: the listing, and every binding of the store. *)
Definition evidence (m : Material) w (s : CertificateStore) (id : string) : Prop :=
  ∃ d i d' b, node_inventory (dev w) = (d, Ok i) ∧ node_bindings d = (d', Ok b) ∧
    unreadable (bindings_store b s) = [] ∧
    unused (inventory_store i s) (bindings_store b s) (protected_ids m) id.

Definition room (i : CertificateInventory) : Prop :=
  ∀ s, (size (inventory_store i s) < NVOS_CERTIFICATE_STORE_LIMIT)%nat.

Lemma check_room_ok i : for_each (check_room i) ALL_STORES = Ok tt → room i.
Proof.
  intros Hf s. assert (check_room i s = Ok tt) as Hs by (apply (proj1 (for_each_ok _ _) Hf); destruct s; set_solver).
  unfold check_room in Hs.
  by destruct (Nat.leb_spec NVOS_CERTIFICATE_STORE_LIMIT (size (inventory_store i s))).
Qed.

(** The plans are those of the two stores, and what they delete is unused. *)
Lemma plan_stores_ok m i b plans :
  plan_stores m i b = Ok plans →
  (∀ s id, (s, id) ∈ planned plans → (NVOS_CERTIFICATE_STORE_LIMIT ≤ size (inventory_store i s))%nat ∧
     unreadable (bindings_store b s) = [] ∧ unused (inventory_store i s) (bindings_store b s) (protected_ids m) id) ∧
  (planned plans = [] → room i).
Proof.
  unfold plan_stores, ALL_STORES. cbn [collect]. intros E. bind_ok E. bind_ok E1. injection E1 as <-. injection E as <-.
  pose proof (plan_exact timestamp Entity (inventory_store i Entity) (bindings_store b Entity) (protected_ids m)
                NVOS_CERTIFICATE_STORE_LIMIT) as He.
  pose proof (plan_exact timestamp Ca (inventory_store i Ca) (bindings_store b Ca) (protected_ids m)
                NVOS_CERTIFICATE_STORE_LIMIT) as Hc.
  rewrite E0 in He. rewrite E2 in Hc. destruct He as (Es & Hle & _ & _ & He & _), Hc as (Ec & Hlc & _ & _ & Hc & _).
  unfold planned. cbn [mbind list_bind]. rewrite app_nil_r. split.
  - intros s id [(x & [= -> ->] & Hin)%list_elem_of_fmap|(x & [= -> ->] & Hin)%list_elem_of_fmap]%elem_of_app.
    + rewrite Es. destruct (He _ Hin). split; [|done]. destruct (deletions a); [by apply not_elem_of_nil in Hin|]. cbn [length] in Hle. lia.
    + rewrite Ec. destruct (Hc _ Hin). split; [|done]. destruct (deletions a1); [by apply not_elem_of_nil in Hin|]. cbn [length] in Hlc. lia.
  - intros [He0%fmap_nil_inv Hc0%fmap_nil_inv]%app_eq_nil s. rewrite He0 in Hle. rewrite Hc0 in Hlc.
    cbn [length] in Hle, Hlc. destruct s; lia.
Qed.

Definition reclaim_call (c : Call) : Prop :=
  match c with ReadInventory | ReadBindings | DeleteEntry _ _ => True | _ => False end.

(** The last of the calls is a listing in which both stores have room. *)
Definition ends_with_room t w' : Prop :=
  last t = Some (ReadInventory, true) ∧ ∃ d i, node_inventory d = (dev w', Ok i) ∧ room i.

Definition reclaimed (m : Material) w t w' (ok : bool) : Prop :=
  Forall (fun c => reclaim_call c.1) t ∧
  (∀ s id done, (DeleteEntry s id, done) ∈ t → evidence m w s id) ∧
  (ok = true → ends_with_room t w').

(** The deletions of the plans, and the listing after them. *)
Definition reclaim_planned (plans : list StoreReclaimPlan) : ST (World D) InstallFailure json :=
  let fail deleted := failure (reclaim_details deleted) [] in
  st_bind (delete_entries (planned plans) []) (fun deleted =>
    match deleted with
    | [] => st_ret (JObject (reclaim_fields plans deleted))
    | _ =>
        st_bind (st_map_err (fail deleted) (perform ReadInventory node_inventory)) (fun after =>
        st_bind (st_lift (map_err (fail deleted) (for_each (check_room after) ALL_STORES))) (fun _ =>
        st_ret (JObject (<["entries_after" := JObject {["entity-certificate" := jnat (size (inv_entity after));
                                                       "ca-certificate" := jnat (size (inv_ca after))]}]>
                          (reclaim_fields plans deleted)))))
    end).

Lemma deletion_in plans t s id ok :
  t.*1 `prefix_of` (deletion <$> planned plans) → (DeleteEntry s id, ok) ∈ t → (s, id) ∈ planned plans.
Proof.
  intros [k Hk] Hin. assert (DeleteEntry s id ∈ deletion <$> planned plans) as Hd.
  { rewrite Hk. apply elem_of_app. left. apply list_elem_of_fmap. by exists (DeleteEntry s id, ok). }
  apply list_elem_of_fmap in Hd as ([s' id'] & [= -> ->] & ?). done.
Qed.

Lemma deletions_reclaim plans t :
  t.*1 `prefix_of` (deletion <$> planned plans) → Forall (fun c => reclaim_call c.1) t.
Proof.
  intros [k Hk]. apply Forall_forall. intros c Hc. assert (c.1 ∈ deletion <$> planned plans) as Hd.
  { rewrite Hk. apply elem_of_app. left. by apply list_elem_of_fmap_2. }
  by apply list_elem_of_fmap in Hd as (e & -> & _).
Qed.

Lemma adds_planned plans :
  adds (reclaim_planned plans) (fun w t w' r =>
    Forall (fun c => reclaim_call c.1) t ∧
    (∀ s id ok, (DeleteEntry s id, ok) ∈ t → (s, id) ∈ planned plans) ∧
    (is_ok r = true → planned plans = [] ∧ t = [] ∧ dev w' = dev w ∨ ends_with_room t w')).
Proof.
  intros w. unfold reclaim_planned, st_bind.
  destruct (decide (planned plans = [])) as [Epl|Epl].
  { exists []. rewrite Epl, app_nil_r. split_and!; [done|constructor|by intros ? ? ? ?%not_elem_of_nil|by left]. }
  destruct (adds_deletes (planned plans) [] w) as (t & Et & Hp & Hl).
  destruct (delete_entries (planned plans) [] w) as [w1 [deleted|e]]; cbn [fst snd is_ok] in *; cycle 1.
  { exists t. split; [done|]. split; [by eapply deletions_reclaim|]. split; [|done]. intros s id ok. by apply deletion_in. }
  destruct (Hl _ eq_refl) as [-> _]. cbn [app]. destruct (planned plans) as [|e es] eqn:E; [done|].
  rewrite <- E in *. clear Epl E. unfold st_map_err, st_lift.
  destruct (adds_perform ReadInventory node_inventory w1) as (t2 & Et2 & -> & Hi).
  exists (t ++ [(ReadInventory, is_ok (perform ReadInventory node_inventory w1).2)]).
  assert (∀ s id ok b, (DeleteEntry s id, ok) ∈ t ++ [(ReadInventory, b)] → (s, id) ∈ planned plans) as Hdel.
  { intros s id ok b [Hin|[=]%list_elem_of_singleton]%elem_of_app. by eapply deletion_in. }
  assert (∀ b, Forall (fun c => reclaim_call c.1) (t ++ [(ReadInventory, b)])) as Hf.
  { intros b. apply Forall_app_2; [by eapply deletions_reclaim|by apply Forall_singleton]. }
  destruct (perform ReadInventory node_inventory w1) as [w2 [after|e']]; cbn [fst snd is_ok] in *;
    [|rewrite Et2, Et, (assoc_L (++)); split_and!; eauto; done].
  destruct (for_each (check_room after) ALL_STORES) as [[]|e'] eqn:Er; cbn;
    rewrite Et2, Et, (assoc_L (++)); split_and!; eauto; try done.
  intros _. right. split; [apply last_snoc|]. exists (dev w1), after. split; [done|by apply check_room_ok].
Qed.

(** What the plans delete was unused, and there is room if they need not delete. *)
Lemma adds_rest m i b f :
  adds (st_bind (st_lift (map_err f (plan_stores m i b))) reclaim_planned) (fun w t w' r =>
    Forall (fun c => reclaim_call c.1) t ∧
    (∀ s id ok, (DeleteEntry s id, ok) ∈ t → (NVOS_CERTIFICATE_STORE_LIMIT ≤ size (inventory_store i s))%nat ∧
       unreadable (bindings_store b s) = [] ∧ unused (inventory_store i s) (bindings_store b s) (protected_ids m) id) ∧
    (is_ok r = true → room i ∧ t = [] ∧ dev w' = dev w ∨ ends_with_room t w')).
Proof.
  intros w. unfold st_bind, st_lift. destruct (plan_stores m i b) as [plans|e] eqn:Ep; cbn [map_err fst snd is_ok].
  - apply plan_stores_ok in Ep as [Hd Hr]. destruct (adds_planned plans w) as (t & Et & Hf & Hdel & Hok).
    exists t. split_and!; [done|done|by eauto|]. intros [(? & ? & ?)|]%Hok; auto.
  - exists []. rewrite app_nil_r. split_and!; [done|constructor|by intros ? ? ? ?%not_elem_of_nil|done].
Qed.

Lemma full_needs_space i s : (NVOS_CERTIFICATE_STORE_LIMIT ≤ size (inventory_store i s))%nat →
  needs_space i NVOS_CERTIFICATE_STORE_LIMIT = true.
Proof.
  intros Hs. apply existsb_exists. exists s. split; [destruct s; simpl; auto|]. by apply Nat.leb_le.
Qed.

Lemma room_needs_none i : room i → needs_space i NVOS_CERTIFICATE_STORE_LIMIT = false.
Proof.
  intros Hr. apply not_true_iff_false. intros (s & _ & Hs%Nat.leb_le)%existsb_exists. specialize (Hr s). lia.
Qed.

Lemma last_listing t t' w' : ends_with_room t w' → ends_with_room (t' ++ t) w'.
Proof. intros [Hl Hi]. split; [|done]. by rewrite last_app, Hl. Qed.

Lemma adds_reclaim m :
  adds (reclaim_certificate_store_capacity m) (fun w t w' r => reclaimed m w t w' (is_ok r)).
Proof.
  intros w. unfold reclaim_certificate_store_capacity, reclaimed. destruct (is_cancelled (dev w)).
  { exists []. rewrite app_nil_r. split_and!; [done|constructor|by intros ? ? ? ?%not_elem_of_nil|done]. }
  destruct (adds_perform ReadInventory node_inventory w) as (t1 & Et1 & -> & Hi). unfold st_bind, st_map_err.
  destruct (perform ReadInventory node_inventory w) as [w1 [i|e]]; cbn [fst snd is_ok] in *; cycle 1.
  { eexists. split; [done|]. split_and!; [by apply Forall_singleton|by intros ? ? ? [=]%list_elem_of_singleton|done]. }
  destruct (needs_space i NVOS_CERTIFICATE_STORE_LIMIT) eqn:En.
  - destruct (adds_perform ReadBindings node_bindings w1) as (t2 & Et2 & -> & Hb).
    destruct (perform ReadBindings node_bindings w1) as [w2 [b|e]]; cbn [fst snd is_ok] in *; cycle 1.
    { exists [(ReadInventory, true); (ReadBindings, false)]. rewrite Et2, Et1, <- (assoc_L (++)). split; [done|].
      split_and!; [by repeat constructor|set_solver|done]. }
    destruct (adds_rest m i b (failure (reclaim_details []) []) w2) as (t & Et & Hf & Hd & Hok).
    exists ([(ReadInventory, true); (ReadBindings, true)] ++ t).
    split; [etrans; [exact Et|]; rewrite Et2, Et1, <- !(assoc_L (++)); done|].
    split; [by repeat constructor|]. split.
    + intros s id ok [[=]|[[=]|(_ & ? & ?)%Hd]%elem_of_cons]%elem_of_cons. by exists (dev w1), i, (dev w2), b.
    + intros [[Hr%room_needs_none _]|Hl]%Hok; [congruence|by apply last_listing].
  - destruct (adds_rest m i no_bindings (failure (reclaim_details []) []) w1) as (t & Et & Hf & Hd & Hok).
    exists ([(ReadInventory, true)] ++ t). split; [etrans; [exact Et|]; rewrite Et1, <- (assoc_L (++)); done|].
    split; [by repeat constructor|]. split.
    + intros s id ok [[=]|(Hl%full_needs_space & _)%Hd]%elem_of_cons. congruence.
    + intros [(Hr & -> & Hdev)|Hl]%Hok; [|by apply last_listing].
      split; [done|]. exists (dev w), i. split; [|done]. etrans; [exact Hi|]. f_equal. symmetry. exact Hdev.
Qed.

(** ** Sequences of calls *)

Definition succeeded (cs : list Call) : list (Call * bool) := (fun c => (c, true)) <$> cs.

(** [op] makes the calls in order, up to one that fails; all of them if it succeeds. *)
Definition runs {E A} (op : ST (World D) E A) (cs : list Call) : Prop :=
  adds op (fun _ t _ r => t.*1 `prefix_of` cs ∧ (is_ok r = true → t = succeeded cs)).

Lemma succeeded_calls cs : (succeeded cs).*1 = cs.
Proof. unfold succeeded. rewrite <- list_fmap_compose. apply list_fmap_id. Qed.

Lemma runs_bind {E A B} cs (op : ST (World D) E A) (k : A → ST (World D) E B) cs' :
  runs op cs → (∀ a, runs (k a) cs') → runs (st_bind op k) (cs ++ cs').
Proof.
  intros Ho Hk. eapply adds_weaken;
    [exact (adds_bind op k _ (fun _ _ t _ r => t.*1 `prefix_of` cs' ∧ (is_ok r = true → t = succeeded cs')) Ho Hk)|]. simpl.
  intros _ t _ r [(e & -> & Hp & _)|(a & t1 & t2 & _ & -> & [_ Ht1] & Hp & Ht2)].
  - split; [by apply prefix_app_r|done].
  - rewrite (Ht1 eq_refl), fmap_app, succeeded_calls. split; [by apply prefix_app|].
    intros ->%Ht2. unfold succeeded. by rewrite fmap_app.
Qed.

Lemma runs_map_err {E F A} (f : E → F) (op : ST (World D) E A) cs : runs op cs → runs (st_map_err f op) cs.
Proof.
  intros Ho. eapply adds_weaken; [apply (adds_map_err f op _ Ho)|]. simpl. intros _ t _ [a|e]; [done|].
  intros (e' & Hp & _). done.
Qed.

Lemma runs_perform {A} c (op : ST D RmsError A) : runs (perform c op) [c].
Proof. eapply adds_weaken; [apply adds_perform|]. intros w t w' r [-> _]. split; [done|]. simpl. by intros ->. Qed.

Lemma runs_nothing {E A} (op : ST (World D) E A) : (∀ w, calls (op w).1 = calls w) → runs op [].
Proof. intros Ho. apply adds_nothing. intros w. rewrite Ho. done. Qed.

Lemma runs_begin s : runs (begin_stage s) [].
Proof. apply runs_nothing. intros w. unfold begin_stage. by destruct (start_stage s (dev w)). Qed.

Lemma runs_end details : runs (end_stage details) [].
Proof. by apply runs_nothing. Qed.

Lemma runs_ret {E A} (a : A) : runs (E := E) (st_ret a) [].
Proof. by apply runs_nothing. Qed.

Definition copies (specs : list (string * string)) : list Call := (fun x => CopyFile x.1) <$> specs.

Lemma runs_transfer m specs : runs (transfer_files m specs) (copies specs).
Proof.
  induction specs as [|[name path] specs IH]; cbn [transfer_files]; [apply runs_ret|].
  apply (runs_bind []); [apply runs_map_err, runs_begin|intros _].
  apply (runs_bind [CopyFile name]); [apply runs_map_err, runs_perform|intros outcome].
  apply (runs_bind []); [apply runs_end|done].
Qed.

(** What is done while the material is on the switch. *)
Definition staged_calls (m : Material) : list Call := copies (mtls_remote_file_specs m) ++ [ImportCall].

Lemma runs_stage m : runs (stage_and_import m) (staged_calls m).
Proof.
  apply runs_bind; [apply runs_transfer|intros _].
  apply (runs_bind []); [apply runs_map_err, runs_begin|intros _; apply runs_map_err, runs_perform].
Qed.

(** The calls of the staging: nothing, a directory that cannot be made, or what is
    done while the material is on the switch, ending with one attempt to remove it. *)
Definition staging (m : Material) (t : list (Call * bool)) : Prop :=
  t = [] ∨ t = [(PrepareDirs, false)] ∨
  ∃ t' removed, t = (PrepareDirs, true) :: t' ++ [(Cleanup, removed)] ∧ t'.*1 `prefix_of` staged_calls m.

(** All of it, and the directory was removed or not. *)
Definition complete_staging (m : Material) (removed : bool) : list (Call * bool) :=
  succeeded (PrepareDirs :: staged_calls m) ++ [(Cleanup, removed)].

Lemma adds_cleanup m op cs :
  runs op cs → adds (with_cleanup m op) (fun _ t _ r => ∃ t' removed, t = t' ++ [(Cleanup, removed)] ∧
    t'.*1 `prefix_of` cs ∧ (is_ok r = true → t' = succeeded cs)).
Proof.
  intros Ho w. unfold with_cleanup. destruct (Ho w) as (t & Et & Hp & Ht). destruct (op w) as [w1 r]. simpl in *.
  destruct (adds_perform Cleanup (cleanup_mtls_remote_dir m) w1) as (t1 & Et1 & -> & _).
  eexists. split; [unfold clean_up, cleanup_mtls_remote_dir_best_effort; rewrite Et1, Et, <- (assoc_L (++)); done|].
  eauto.
Qed.

Lemma adds_transfer m :
  adds (transfer_and_import_switch_certificate_material m) (fun _ t _ r =>
    staging m t ∧ (is_ok r = true → ∃ removed, t = complete_staging m removed)).
Proof.
  intros w. unfold transfer_and_import_switch_certificate_material, st_bind, st_map_err.
  destruct (adds_begin PrepareRemoteDirectory w) as (t0 & E0 & ->). rewrite app_nil_r in E0.
  destruct (begin_stage _ w) as [w0 [[]|e]]; cbn [fst snd] in *; cycle 1.
  { exists []. rewrite app_nil_r. split_and!; [done|by left|done]. }
  destruct (adds_perform PrepareDirs (prepare_mtls_remote_dirs m) w0) as (t1 & E1 & -> & _).
  destruct (perform PrepareDirs _ w0) as [w1 [[]|e]]; cbn [fst snd is_ok] in *; cycle 1.
  { exists [(PrepareDirs, false)]. rewrite E1, E0. split_and!; [done|by right; left|done]. }
  destruct (adds_end (JObject {["remote_dir" := JString (remote_dir m)]}) w1) as (t2 & E2 & -> & Er2). rewrite app_nil_r in E2.
  destruct (end_stage _ w1) as [w2 r2]. cbn [fst snd] in *. subst r2.
  destruct (adds_cleanup m _ _ (runs_stage m) w2) as (t3 & E3 & t' & removed & -> & Hp & Ht).
  destruct (with_cleanup m (stage_and_import m) w2) as [w3 [[]|e]]; cbn [fst snd is_ok] in *;
    exists ((PrepareDirs, true) :: t' ++ [(Cleanup, removed)]).
  - split; [simpl; rewrite E3, E2, E1, E0, <- (assoc_L (++)); done|]. split; [right; right; eauto|].
    intros _. exists removed. by rewrite (Ht eq_refl).
  - rewrite E3, E2, E1, E0, <- (assoc_L (++)). split_and!; [done|right; right; eauto|done].
Qed.

Lemma runs_services m services configured : runs (bind_services m services configured) (Bind <$> services).
Proof.
  revert configured. induction services as [|s services IH]; intros configured; cbn [bind_services]; [apply runs_ret|].
  apply (runs_bind []); [apply runs_map_err, runs_begin|intros _].
  apply (runs_bind [Bind s]); [apply runs_map_err, runs_perform|intros _].
  apply (runs_bind []); [apply runs_end|intros _; apply IH].
Qed.

(** The calls of the bindings: the NVUE interface comes last. *)
Definition binding_calls (services : list SwitchMtlsService) : list Call :=
  (if certificate_job_discovers_nvue_capabilities services then [Discover] else []) ++
  (Bind <$> ordered_bind_services services) ++ [Verify].

Lemma runs_bindings m services : runs (bind_and_verify_switch_certificate_services m services) (binding_calls services).
Proof.
  apply runs_bind.
  { destruct (certificate_job_discovers_nvue_capabilities services); [|apply runs_ret].
    apply (runs_bind []); [apply runs_map_err, runs_begin|intros _].
    apply (runs_bind [Discover]); [apply runs_map_err, runs_perform|intros supported; apply runs_end]. }
  intros _. apply runs_bind; [apply runs_services|intros configured].
  apply (runs_bind []); [apply runs_map_err, runs_begin|intros _].
  apply (runs_bind [Verify]); [apply runs_map_err, runs_perform|intros verification].
  apply (runs_bind []); [apply runs_end|intros _; apply runs_ret].
Qed.

Lemma staging_no_deletion m t s id ok : staging m t → (DeleteEntry s id, ok) ∈ t → False.
Proof.
  intros [->|[->|(t' & removed & -> & [k Hk])]] Hin; [by apply not_elem_of_nil in Hin|set_solver|].
  apply elem_of_cons in Hin as [[=]|[Hin|[=]%list_elem_of_singleton]%elem_of_app].
  assert (DeleteEntry s id ∈ staged_calls m) as Hs.
  { rewrite Hk. apply elem_of_app. left. apply list_elem_of_fmap. by exists (DeleteEntry s id, ok). }
  unfold staged_calls, copies in Hs. simpl in Hs. set_solver.
Qed.

Lemma binding_no_deletion t services s id ok :
  t.*1 `prefix_of` binding_calls services → (DeleteEntry s id, ok) ∈ t → False.
Proof.
  intros [k Hk] Hin. assert (DeleteEntry s id ∈ binding_calls services) as Hs.
  { rewrite Hk. apply elem_of_app. left. apply list_elem_of_fmap. by exists (DeleteEntry s id, ok). }
  unfold binding_calls in Hs. destruct (certificate_job_discovers_nvue_capabilities services); set_solver.
Qed.

(** What an installation does, in order: it makes room, brings the material to the
    switch, and binds it. *)
Lemma install_phases m services w w' r :
  install_switch_certificate_material m services w = (w', r) →
  let w0 := (begin_stage ReclaimCertificateCapacity w).1 in
  let w1 := (reclaim_certificate_store_capacity m w0).1 in
  ∃ t1 t2 t3, calls w' = calls w ++ t1 ++ t2 ++ t3 ∧
    Forall (fun c => reclaim_call c.1) t1 ∧
    (∀ s id done, (DeleteEntry s id, done) ∈ t1 → evidence m w0 s id) ∧
    (t2 ≠ [] → calls w1 = calls w ++ t1 ∧ ends_with_room t1 w1) ∧
    staging m t2 ∧ (t3 ≠ [] → ∃ removed, t2 = complete_staging m removed) ∧
    t3.*1 `prefix_of` binding_calls services ∧
    (is_ok r = true → (∃ removed, t2 = complete_staging m removed) ∧ t3 = succeeded (binding_calls services)).
Proof.
  unfold install_switch_certificate_material, st_bind, st_map_err. intros E. cbv zeta.
  destruct (adds_begin ReclaimCertificateCapacity w) as (t0 & E0 & ->). rewrite app_nil_r in E0.
  destruct (begin_stage _ w) as [w0 [[]|e]]; cbn [fst snd] in *; cycle 1.
  { injection E as <- <-. exists [], [], []. rewrite !app_nil_r.
    split_and!; [done|constructor|by intros ? ? ? ?%not_elem_of_nil|done|by left|done|apply prefix_nil|done]. }
  destruct (adds_reclaim m w0) as (t1 & E1 & Hf & Hd & Hroom).
  destruct (reclaim_certificate_store_capacity m w0) as [w1 [details|e]]; cbn [fst snd is_ok] in *; cycle 1.
  { injection E as <- <-. exists t1, [], []. rewrite !app_nil_r, E1, E0.
    split_and!; [done|done|done|done|by left|done|apply prefix_nil|done]. }
  destruct (adds_end details w1) as (te & Ee & -> & Er). rewrite app_nil_r in Ee.
  destruct (end_stage details w1) as [w2 r2]. cbn [fst snd] in *. subst r2.
  destruct (adds_transfer m w2) as (t2 & E2 & Hs & Hok).
  destruct (transfer_and_import_switch_certificate_material m w2) as [w3 [[]|e]]; cbn [fst snd is_ok] in *; cycle 1.
  { injection E as <- <-. exists t1, t2, []. rewrite app_nil_r, E2, Ee, E1, E0, <- (assoc_L (++)).
    split_and!; auto; first [apply prefix_nil|done]. }
  destruct (runs_bindings m services w3) as (t3 & E3 & Hp & Ht3). rewrite E in E3, Ht3. exists t1, t2, t3.
  cbn [fst snd] in *. rewrite E3, E2, Ee, E1, E0, <- !(assoc_L (++)). split_and!; auto.
Qed.

(** C21. An installation keeps its order, and always tries to remove the key that it
    brought to the switch. Whether it returns success or failure, it first only
    reads and deletes entries of the stores; it brings material to the switch only
    after the last of these calls, a listing of the switch as it then is, in which
    both stores have room; once it has made the directory, the last thing that it
    does there is one attempt to remove it, whose failure is swallowed; it binds
    services only after every file was copied and imported and after that attempt,
    with the NVUE interface last; and when it reports success, every step was taken,
    and all but possibly that removal succeeded. *)
Theorem installation_ordered m services w :
  let '(w', r) := install_switch_certificate_material m services w in
  let w1 := (reclaim_certificate_store_capacity m (begin_stage ReclaimCertificateCapacity w).1).1 in
  ∃ reclaim stage bind, calls w' = calls w ++ reclaim ++ stage ++ bind ∧
    Forall (fun c => reclaim_call c.1) reclaim ∧ staging m stage ∧
    (stage ≠ [] → calls w1 = calls w ++ reclaim ∧ ends_with_room reclaim w1) ∧
    (bind ≠ [] → ∃ removed, stage = complete_staging m removed) ∧ bind.*1 `prefix_of` binding_calls services ∧
    (is_ok r = true → (∃ removed, stage = complete_staging m removed) ∧ bind = succeeded (binding_calls services)).
Proof.
  destruct (install_switch_certificate_material m services w) as [w' r] eqn:E. intros w1.
  apply install_phases in E as (t1 & t2 & t3 & Ec & Hf & _ & Hroom & Hs & Hb & Hp & Hok).
  exists t1, t2, t3. split_and!; auto.
Qed.
End Install.

(** ** Evidence *)

Section Switch.
Context {D : Type} `{NvueDevice D}.
Variable rest : InstallNode D.

(** While documents were read from [d0] on, the entry was listed as used by nobody. *)
Definition listed_unused (d0 : D) (s : CertificateStore) (id : string) : Prop :=
  ∃ d response entry, rtc asked d0 d ∧ (get_certificate_document (collection_endpoint s) d).2 = Ok response ∧
    field response id = Some entry ∧ usage_from_entry entry = NoUsage.

Lemma store_listed s d d' inventory id :
  read_certificate_store s d = (d', Ok inventory) → inventory !! id = Some NoUsage →
  listed_unused d s id.
Proof.
  unfold read_certificate_store, listed_unused. intros E Hid.
  destruct (get_certificate_document (collection_endpoint s) d) as [d1 [response|e]] eqn:Eg.
  - injection E as _ E. exists d, response. rewrite Eg. destruct response as [| | | | |l]; simpl in E; try done;
      injection E as <-; [done|]. rewrite lookup_fmap in Hid. destruct (l !! id) as [entry|] eqn:El; [|done].
    exists entry. injection Hid as ->. by split.
  - case_bool_decide; [|done]. injection E as _ <-. done.
Qed.

Lemma store_asked s d d' x : read_certificate_store s d = (d', x) → asked d d'.
Proof.
  unfold read_certificate_store. destruct (get_certificate_document _ d) as [d1 [response|e]] eqn:Eg; apply asked_get in Eg.
  - by intros [= <- _].
  - by case_bool_decide; intros [= <- _].
Qed.

(** The listing, and that it is only read. *)
Lemma inventory_listed d d' i :
  read_certificate_inventory d = (d', Ok i) →
  rtc asked d d' ∧ ∀ s id, inventory_store i s !! id = Some NoUsage → listed_unused d s id.
Proof.
  unfold read_certificate_inventory, st_bind.
  destruct (read_certificate_store Entity d) as [d1 [entity|]] eqn:Ee; [|done].
  destruct (read_certificate_store Ca d1) as [d2 [ca|]] eqn:Ec; [|done]. intros [= <- <-].
  pose proof (rtc_once _ _ (store_asked _ _ _ _ Ee)) as He. pose proof (rtc_once _ _ (store_asked _ _ _ _ Ec)) as Hc.
  split; [by etrans|]. intros [] id Hid; [by apply (store_listed _ _ _ _ _ Ee)|].
  destruct (store_listed _ _ _ _ _ Ec Hid) as (d3 & response & entry & Ha & Hl). exists d3, response, entry.
  split; [by etrans|done].
Qed.

(** C20. Nothing is deleted without positive evidence. Every entry that an
    installation deletes from a store of the switch has an ID of the form that the
    service gives, is not material of the installation, was listed by the switch
    with no service that uses it, and every service of the switch was asked for its
    binding in that store, all in one sequence of reads from the state in which the
    installation began: each answered with a document that does not name the
    entry in any of its views, or said, where that means that there is no binding,
    that it has none. *)
Theorem deletion_needs_evidence m services w :
  let d0 := dev (begin_stage (H := switch_node rest) ReclaimCertificateCapacity w).1 in
  ∃ t, calls (install_switch_certificate_material (H := switch_node rest) m services w).1 = calls w ++ t ∧
    ∀ s id ok, (DeleteEntry s id, ok) ∈ t →
      is_rms_id id = true ∧ is_valid_identifier id = true ∧ (id ∉ protected_ids m) ∧ listed_unused d0 s id ∧
      ∀ service source, source ∈ binding_sources service → source_store source = s → read_unbound d0 source id.
Proof.
  intros d0. destruct (install_switch_certificate_material (H := switch_node rest) m services w) as [w' r] eqn:E.
  apply install_phases in E as (t1 & t2 & t3 & Ec & Hf & Hd & _ & Hs & _ & Hp & _).
  exists (t1 ++ t2 ++ t3). split; [done|]. intros s id ok Hin.
  assert ((DeleteEntry s id, ok) ∈ t1) as Hin1.
  { apply elem_of_app in Hin as [|[Hin|Hin]%elem_of_app]; [done|exfalso..].
    - by eapply staging_no_deletion.
    - by eapply binding_no_deletion. }
  destruct (Hd _ _ _ Hin1) as (d & i & d' & b & Hi & Hb & Hu & Hun & Hrms & Hval & Hprot & Hbound).
  simpl in Hi, Hb. destruct (read_certificate_bindings d) as [d1 b1] eqn:Eb. injection Hb as -> ->.
  apply inventory_listed in Hi as [Ha Hl]. split_and!; [done..|by apply Hl|]. intros service source Hsrc Es.
  eapply read_unbound_before; [exact Ha|]. apply (read_sources_unbound _ _ _ _ _ _ id Eb Hu Hbound); [|done].
  apply list_elem_of_bind. exists service. split; [done|]. destruct service; set_solver.
Qed.
End Switch.

(** ** IDs *)

Lemma all_chars_app p a b : all_chars p (a +++ b) = all_chars p a && all_chars p b.
Proof. unfold all_chars. by rewrite to_chars_app, forallb_app. Qed.

Lemma sanitized_identifier domain : all_chars identifier_char (sanitize_domain_for_cert_id domain) = true.
Proof.
  unfold all_chars, sanitize_domain_for_cert_id. rewrite to_of_chars. apply forallb_forall.
  intros c (x & -> & _)%list_elem_of_In%list_elem_of_fmap. unfold identifier_char.
  by destruct (is_ascii_alphanumeric x || Ascii.eqb x (ascii_of_N 45)) eqn:E; [rewrite E|].
Qed.

(** The IDs that the service gives, for any domain, pass the checks that a deletion
    makes: what it has imported, it can delete. *)
Theorem created_ids_deletable domain suffix :
  all_chars identifier_char suffix = true →
  let '(ca, cert) := cert_ids_for_domain_with_suffix domain suffix in
  Forall (fun id => is_rms_id id = true ∧ is_valid_identifier id = true) [ca; cert].
Proof.
  intros Hs. pose proof (sanitized_identifier domain) as Hd. unfold cert_ids_for_domain_with_suffix.
  repeat constructor; try (unfold is_rms_id; rewrite to_chars_app; apply starts_with_app);
    unfold is_valid_identifier; rewrite !all_chars_app, Hd, Hs; done.
Qed.

(** ** A switch *)

(** A switch that holds entity certificates, of which its REST interface uses one;
    the entries are deleted at once. *)
Module FullStore.
Definition entry_names : list string :=
  (fun n => "rms-rack-cert-" +++ pretty n) <$> seq 10 25.

Definition answer (v : json) : NvueResponse := mkResponse 200 v "{}" None.
Definition missing : NvueResponse := mkResponse 404 JNull "" None.

Definition switch_get (endpoint : string) (d : list string) : NvueResponse :=
  if String.eqb endpoint (collection_endpoint Entity) then answer (JObject (list_to_map ((fun id => (id, JNull)) <$> d)))
  else if String.eqb endpoint "/nvue_v1/system/api" then answer (JObject {["certificate" := JString "rms-rack-cert-10"]})
  else if String.eqb endpoint "/nvue_v1/system/api/mtls" then answer (JObject ∅)
  else missing.

Definition device : NvueDevice (list string) := {|
  no_client := None;
  http_get endpoint d := (d, Ok (switch_get endpoint d));
  http_post endpoint _ d := (filter (fun id => entry_endpoint Entity id ≠ endpoint) d, Ok missing);
  polls _ := 0;
  client_error_display _ := "";
  float_display _ := "";
|}.

Definition rest : InstallNode (list string) := {|
  node_inventory d := (d, Ok (mkInventory ∅ ∅));
  node_bindings d := (d, Ok no_bindings);
  node_delete _ _ d := (d, Ok tt);
  prepare_mtls_remote_dirs _ d := (d, Ok tt);
  sftp_copy_mtls_file _ name d := (d, Ok (mkCopied name 0));
  import_mtls_material m d := (entity_cert_id m :: d, Ok tt);
  initialize_nvue_capabilities d := (d, Ok true);
  cleanup_mtls_remote_dir _ d := (d, Ok tt);
  bind_mtls_service_for_install _ _ d := (d, Ok tt);
  verify_mtls_services _ _ d := (d, Ok JNull);
  is_cancelled _ := false;
  start_stage _ d := (d, Ok tt);
  complete_stage _ d := d;
  timestamp _ := None;
|}.

Definition material : Material := mkMaterial "rack" "ca" "cert" "key" "run" "rms-rack-ca-99" "rms-rack-cert-99".

(** The oldest entry is used and stays; the next one makes room. *)
Example full_store_installs :
  let '(w, r) := install_switch_certificate_material (H := switch_node (H := device) rest) material
                   [NvueApi; ScaleUpFabricManager] (mkWorld entry_names []) in
  is_ok r = true ∧
  calls w = succeeded ([ReadInventory; ReadBindings; DeleteEntry Entity "rms-rack-cert-11"; ReadInventory; PrepareDirs;
    CopyFile "ca.pem"; CopyFile "client.pem"; CopyFile "client.key"; ImportCall; Cleanup;
    Bind ScaleUpFabricManager; Bind NvueApi; Verify]) ∧
  dev w = "rms-rack-cert-99" :: filter (fun id => id ≠ "rms-rack-cert-11") entry_names.
Proof. by vm_compute. Qed.

(** The same switch, on which the directory cannot be removed. *)
Definition locked_rest : InstallNode (list string) := {|
  node_inventory := node_inventory (InstallNode := rest);
  node_bindings := node_bindings (InstallNode := rest);
  node_delete := node_delete (InstallNode := rest);
  prepare_mtls_remote_dirs := prepare_mtls_remote_dirs (InstallNode := rest);
  sftp_copy_mtls_file := sftp_copy_mtls_file (InstallNode := rest);
  import_mtls_material := import_mtls_material (InstallNode := rest);
  initialize_nvue_capabilities := initialize_nvue_capabilities (InstallNode := rest);
  cleanup_mtls_remote_dir _ d := (d, Err (internal "permission denied"));
  bind_mtls_service_for_install := bind_mtls_service_for_install (InstallNode := rest);
  verify_mtls_services := verify_mtls_services (InstallNode := rest);
  is_cancelled := is_cancelled (InstallNode := rest);
  start_stage := start_stage (InstallNode := rest);
  complete_stage := complete_stage (InstallNode := rest);
  timestamp := timestamp (InstallNode := rest);
|}.

(** An installation reports success although the key stays in the directory. *)
Example failed_removal_swallowed :
  let '(w, r) := install_switch_certificate_material (H := switch_node (H := device) locked_rest) material
                   [NvueApi] (mkWorld [] []) in
  is_ok r = true ∧ (Cleanup, false) ∈ calls w ∧ last (calls w) = Some (Verify, true).
Proof. vm_compute. split_and!; [done|set_solver|done]. Qed.
End FullStore.
End SwitchCertificateTheorems.
