(* ===== verification/SpanQueue.v ===== *)
(** * The span queue of the trace exporter

    [observability/span_queue.rs]: the bounded waiting queue, the batch that is
    being exported and the loss counters of [observability/trace_metrics.rs].
    Every method takes the mutex once, so it is one function of the queue; the
    mutex may be found poisoned, which [lock_state] handles.

    The two [Notify]s and the [tracing] calls are events in the order in which
    they happen.  The Prometheus counters are exact numbers, which [u64]
    counters are below [2^64]. *)

From stdpp Require Import functions.
From S2P Require Import Prelude.
Local Open Scope string_scope.
Local Open Scope list_scope.

Module SpanQueue.
(** ** [trace_metrics.rs] *)

Inductive drop_reason :=
| EXPORT_ERROR
| EXPORT_TIMEOUT
| PROCESSOR_CLOSED
| QUEUE_FULL
| SHUTDOWN_TIMEOUT.

#[global] Instance drop_reason_eq_dec : EqDecision drop_reason.
Proof. solve_decision. Defined.

Record TraceMetrics := mkTraceMetrics {
  dropped_spans : drop_reason → nat;
  failed_batches : string → nat;
}.

Definition new_metrics : TraceMetrics := mkTraceMetrics (fun _ => 0) (fun _ => 0).

Definition drop_spans (m : TraceMetrics) (reason : drop_reason) (count : nat) : TraceMetrics :=
  if (0 <? count)%nat
  then mkTraceMetrics (<[reason := dropped_spans m reason + count]> (dropped_spans m))
         (failed_batches m)
  else m.

Definition fail_batch (m : TraceMetrics) (protocol : string) : TraceMetrics :=
  mkTraceMetrics (dropped_spans m) (<[protocol := S (failed_batches m protocol)]> (failed_batches m)).

Definition total_dropped (m : TraceMetrics) : nat :=
  sum_list_with (dropped_spans m)
    [EXPORT_ERROR; EXPORT_TIMEOUT; PROCESSOR_CLOSED; QUEUE_FULL; SHUTDOWN_TIMEOUT].

(** ** [span_queue.rs] *)

(** The [notify_one]s and the [tracing] calls. *)
Inductive QueueEvent :=
| NotifyAvailable
| NotifyStopped
| WarnPoisoned
| WarnFailing (span_count : nat)
| InfoRecovered.

Inductive ExportDiagnostic :=
| Failing (span_count : nat)
| Recovered.

Section Queue.
Context {SpanData : Type}.

Record QueueState := mkQueueState {
  pending : list SpanData;
  in_flight : nat;
  accepting : bool;
  stopped : bool;
  export_failure_active : bool;
}.

(** The queue: the state under the mutex, whether the mutex is poisoned, the
    constants, the counters, and the events so far. *)
Record Queue := mkQueue {
  state : QueueState;
  poisoned : bool;
  capacity : nat;
  batch_size : nat;
  metrics : TraceMetrics;
  protocol : string;
  events : list QueueEvent;
}.

Definition new (capacity batch_size : nat) (metrics : TraceMetrics) (protocol : string) : Queue :=
  mkQueue (mkQueueState [] 0 true false false) false capacity batch_size metrics protocol [].

Definition set_state (q : Queue) (s : QueueState) : Queue :=
  mkQueue s (poisoned q) (capacity q) (batch_size q) (metrics q) (protocol q) (events q).
Definition set_metrics (q : Queue) (m : TraceMetrics) : Queue :=
  mkQueue (state q) (poisoned q) (capacity q) (batch_size q) m (protocol q) (events q).
Definition emit (q : Queue) (e : QueueEvent) : Queue :=
  mkQueue (state q) (poisoned q) (capacity q) (batch_size q) (metrics q) (protocol q)
    (events q ++ [e]).
Definition count_drop (q : Queue) (reason : drop_reason) (count : nat) : Queue :=
  set_metrics q (drop_spans (metrics q) reason count).

(** The state, or [None] when the mutex was poisoned: then the queue is closed
    for good and what it held is counted as lost. *)
Definition lock_state (q : Queue) : Queue * option QueueState :=
  if poisoned q then
    let s := state q in
    let m := drop_spans (metrics q) PROCESSOR_CLOSED (length (pending s) + in_flight s) in
    let m := if (0 <? in_flight s)%nat then fail_batch m (protocol q) else m in
    (mkQueue (mkQueueState [] 0 false true (export_failure_active s)) false (capacity q)
       (batch_size q) m (protocol q) (events q ++ [NotifyStopped; WarnPoisoned]), None)
  else (q, Some (state q)).

Definition push (q : Queue) (span : SpanData) : Queue :=
  let '(q, locked) := lock_state q in
  match locked with
  | None => count_drop q PROCESSOR_CLOSED 1
  | Some s =>
      if negb (accepting s) then count_drop q PROCESSOR_CLOSED 1
      else if (length (pending s) =? capacity q)%nat then count_drop q QUEUE_FULL 1
      else
        let s := mkQueueState (pending s ++ [span]) (in_flight s) (accepting s) (stopped s)
                   (export_failure_active s) in
        let q := set_state q s in
        if (length (pending s) =? batch_size q)%nat then emit q NotifyAvailable else q
  end.

Definition len (q : Queue) : Queue * nat :=
  let '(q, locked) := lock_state q in
  (q, match locked with Some s => length (pending s) | None => 0 end).

Definition is_accepting (q : Queue) : Queue * bool :=
  let '(q, locked) := lock_state q in
  (q, match locked with Some s => accepting s | None => false end).

Definition is_stopped (q : Queue) : Queue * bool :=
  let '(q, locked) := lock_state q in
  (q, match locked with Some s => stopped s | None => true end).

Definition close_admission (q : Queue) : Queue * bool :=
  let '(q, locked) := lock_state q in
  match locked with
  | None => (q, false)
  | Some s =>
      (set_state q (mkQueueState (pending s) (in_flight s) false (stopped s)
                      (export_failure_active s)), accepting s)
  end.

Definition take_batch (q : Queue) (max : nat) : Queue * list SpanData :=
  let '(q, locked) := lock_state q in
  match locked with
  | None => (q, [])
  | Some s =>
      let count := length (pending s) `min` max in
      (set_state q (mkQueueState (drop count (pending s)) count (accepting s) (stopped s)
                      (export_failure_active s)), take count (pending s))
  end.

Definition finish_batch_locked (q : Queue) (s : QueueState) (failure : option drop_reason)
    : Queue * QueueState * option ExportDiagnostic :=
  let span_count := in_flight s in
  let s := mkQueueState (pending s) 0 (accepting s) (stopped s) (export_failure_active s) in
  if (span_count =? 0)%nat then (q, s, None)
  else
    let was_failing := export_failure_active s in
    let s := mkQueueState (pending s) (in_flight s) (accepting s) (stopped s)
               (bool_decide (is_Some failure)) in
    match failure with
    | Some reason =>
        let q := count_drop q reason span_count in
        let q := set_metrics q (fail_batch (metrics q) (protocol q)) in
        (q, s, if was_failing then None else Some (Failing span_count))
    | None => (q, s, if was_failing then Some Recovered else None)
    end.

Definition log_export_diagnostic (q : Queue) (diagnostic : option ExportDiagnostic) : Queue :=
  match diagnostic with
  | Some (Failing span_count) => emit q (WarnFailing span_count)
  | Some Recovered => emit q InfoRecovered
  | None => q
  end.

Definition finish_batch (q : Queue) (failure : option drop_reason) : Queue :=
  let '(q, locked) := lock_state q in
  match locked with
  | None => q
  | Some s =>
      let '(q, s, diagnostic) := finish_batch_locked q s failure in
      log_export_diagnostic (set_state q s) diagnostic
  end.

Definition stop (q : Queue) (reason : drop_reason) : Queue :=
  let '(q, locked) := lock_state q in
  match locked with
  | None => q
  | Some s =>
      let s := mkQueueState (pending s) (in_flight s) false (stopped s)
                 (export_failure_active s) in
      if negb (stopped s) then
        let s := mkQueueState (pending s) (in_flight s) (accepting s) true
                   (export_failure_active s) in
        let '(q, s, diagnostic) := finish_batch_locked q s (Some reason) in
        let q := count_drop q reason (length (pending s)) in
        let q := set_state q (mkQueueState [] (in_flight s) (accepting s) (stopped s)
                                (export_failure_active s)) in
        log_export_diagnostic (emit q NotifyStopped) diagnostic
      else set_state q s
  end.

(** A thread panics while it holds the mutex, with the state and the counters as
    the last update left them. *)
Definition panic_while_locked (q : Queue) : Queue :=
  mkQueue (state q) true (capacity q) (batch_size q) (metrics q) (protocol q) (events q).

(** It panics in the middle of an update, which may leave any state and any
    counters. *)
Definition panic_within (q : Queue) (s : QueueState) (m : TraceMetrics) : Queue :=
  mkQueue s true (capacity q) (batch_size q) m (protocol q) (events q).
End Queue.
Arguments QueueState : clear implicits.
Arguments Queue : clear implicits.
End SpanQueue.

(** ** Lemmas: what each method does to the number of spans the queue answers for,
    and the invariant of the queue on its own. *)

Module SpanQueueProofs.
Import SpanQueue.

Lemma total_drop_spans m reason n : total_dropped (drop_spans m reason n) = total_dropped m + n.
Proof.
  unfold drop_spans. destruct n as [|n]; simpl; [lia|]. unfold total_dropped; simpl.
  destruct reason; rewrite fn_lookup_insert, ?fn_lookup_insert_ne by done; lia.
Qed.

Lemma total_fail_batch m protocol : total_dropped (fail_batch m protocol) = total_dropped m.
Proof. done. Qed.

Create Rewrite HintDb span_queue.
#[export] Hint Rewrite total_drop_spans total_fail_batch @length_app @length_nil : span_queue.

Section Queue.
Context {SpanData : Type}.
Implicit Types q : Queue SpanData.

(** The spans the queue has lost, holds, or has handed out. *)
Definition accounted q : nat :=
  total_dropped (metrics q) + length (pending (state q)) + in_flight (state q).

(** A queue that was stopped answers for nothing more. *)
Record queue_ok q : Prop := mk_queue_ok {
  ok_capacity : (length (pending (state q)) ≤ capacity q)%nat;
  ok_stopped : stopped (state q) = true →
               pending (state q) = [] ∧ in_flight (state q) = 0 ∧ accepting (state q) = false;
}.

(** Nothing is left, and nothing will come. *)
Definition closed q : Prop :=
  pending (state q) = [] ∧ in_flight (state q) = 0 ∧
  accepting (state q) = false ∧ stopped (state q) = true.

Ltac open_queue q :=
  destruct q as [[pe fl acc st ef] po cap bs m pr ev]; simpl in *.

Ltac queue_cases :=
  unfold push, len, is_accepting, is_stopped, close_admission, take_batch, finish_batch, stop,
    lock_state, finish_batch_locked, log_export_diagnostic, count_drop, set_state, set_metrics,
    emit in *; simpl in *; repeat (case_goal; simpl in *; simplify_eq).

Ltac zero_counts :=
  repeat match goal with H : (_ =? 0)%nat = true |- _ => apply Nat.eqb_eq in H; subst end.

Lemma accounted_lock q : accounted (lock_state q).1 = accounted q.
Proof. open_queue q. unfold accounted. queue_cases; autorewrite with span_queue; simpl; lia. Qed.

Lemma accounted_close q : accounted (close_admission q).1 = accounted q.
Proof. open_queue q. unfold accounted. queue_cases; autorewrite with span_queue; simpl; lia. Qed.

Lemma accounted_push q span : accounted (push q span) = S (accounted q).
Proof.
  open_queue q. unfold accounted. queue_cases; autorewrite with span_queue; simpl; lia.
Qed.

Lemma accounted_take q max :
  in_flight (state q) = 0 → accounted (take_batch q max).1 = accounted q.
Proof.
  open_queue q. unfold accounted. intros ->.
  queue_cases; autorewrite with span_queue; rewrite ?length_drop; lia.
Qed.

Lemma accounted_fail q reason : accounted (finish_batch q (Some reason)) = accounted q.
Proof.
  open_queue q. unfold accounted.
  queue_cases; autorewrite with span_queue; simpl; zero_counts; lia.
Qed.

(** A batch that finishes without failure leaves the account, if it was still there. *)
Lemma accounted_finish q :
  accounted (finish_batch q None) + (if poisoned q then 0 else in_flight (state q)) = accounted q.
Proof.
  open_queue q. unfold accounted.
  queue_cases; autorewrite with span_queue; simpl; zero_counts; lia.
Qed.

Lemma accounted_stop q reason : accounted (stop q reason) = accounted q.
Proof.
  open_queue q. unfold accounted.
  queue_cases; autorewrite with span_queue; simpl; zero_counts; lia.
Qed.

(** ** What a method leaves, or [closed] when it found the mutex poisoned *)

Lemma lock_effect q : state (lock_state q).1 = state q ∨ closed (lock_state q).1.
Proof. unfold closed. open_queue q. queue_cases; auto. Qed.

Lemma len_effect q : (len q).1 = (lock_state q).1 ∧ (len q).2 = length (pending (state (len q).1)).
Proof. open_queue q. by queue_cases. Qed.

Lemma is_accepting_effect q : (is_accepting q).1 = (lock_state q).1.
Proof. open_queue q. by queue_cases. Qed.

Lemma is_stopped_effect q :
  (is_stopped q).1 = (lock_state q).1 ∧ (is_stopped q).2 = stopped (state (is_stopped q).1).
Proof. open_queue q. by queue_cases. Qed.

Lemma push_effect q span :
  state (push q span) = state q ∨ closed (push q span) ∨
  (accepting (state q) = true ∧ length (pending (state q)) ≠ capacity q ∧
   state (push q span) =
     mkQueueState (pending (state q) ++ [span]) (in_flight (state q)) true (stopped (state q))
       (export_failure_active (state q))).
Proof.
  unfold closed. open_queue q. queue_cases; auto 10; right; right; reflect_bools; subst;
    repeat split; auto; by apply Nat.eqb_neq.
Qed.

Lemma close_admission_effect q :
  (state (close_admission q).1 =
     mkQueueState (pending (state q)) (in_flight (state q)) false (stopped (state q))
       (export_failure_active (state q)) ∧ (close_admission q).2 = accepting (state q)) ∨
  (closed (close_admission q).1 ∧ (close_admission q).2 = false).
Proof. unfold closed. open_queue q. queue_cases; auto 10. Qed.

Lemma take_batch_effect q max :
  let count := length (pending (state q)) `min` max in
  (state (take_batch q max).1 =
     mkQueueState (drop count (pending (state q))) count (accepting (state q)) (stopped (state q))
       (export_failure_active (state q)) ∧
   (take_batch q max).2 = take count (pending (state q))) ∨
  (closed (take_batch q max).1 ∧ (take_batch q max).2 = []).
Proof. unfold closed. open_queue q. queue_cases; auto 10. Qed.

Lemma finish_batch_effect q failure :
  (poisoned q = false ∧ ∃ ef, state (finish_batch q failure) =
     mkQueueState (pending (state q)) 0 (accepting (state q)) (stopped (state q)) ef) ∨
  closed (finish_batch q failure).
Proof. unfold closed. open_queue q. queue_cases; eauto 10. Qed.

Lemma stop_effect q reason : queue_ok q → closed (stop q reason).
Proof.
  unfold closed. intros [_ Hs]. open_queue q.
  queue_cases; zero_counts; auto; reflect_bools; subst; naive_solver.
Qed.

Lemma queue_constants q :
  capacity (lock_state q).1 = capacity q ∧ (∀ span, capacity (push q span) = capacity q) ∧
  capacity (close_admission q).1 = capacity q ∧ (∀ max, capacity (take_batch q max).1 = capacity q) ∧
  (∀ failure, capacity (finish_batch q failure) = capacity q) ∧
  (∀ reason, capacity (stop q reason) = capacity q).
Proof. open_queue q. repeat split; intros; by queue_cases. Qed.

(** ** A method on a poisoned queue does what it does on the queue that is closed
    for it *)

Lemma lock_idemp q : (lock_state (lock_state q).1).1 = (lock_state q).1.
Proof. open_queue q. by queue_cases. Qed.

Lemma lock_id q : poisoned q = false → (lock_state q).1 = q.
Proof. unfold lock_state. by intros ->. Qed.

Lemma lock_closed q : poisoned q = true → closed (lock_state q).1.
Proof. unfold closed, lock_state. by intros ->. Qed.

Lemma lock_unpoisoned q : poisoned (lock_state q).1 = false.
Proof. open_queue q. by queue_cases. Qed.

Lemma push_lock q span : push (lock_state q).1 span = push q span.
Proof. open_queue q. by queue_cases. Qed.

Lemma len_lock q : len (lock_state q).1 = len q.
Proof. open_queue q. by queue_cases. Qed.

Lemma is_accepting_lock q : is_accepting (lock_state q).1 = is_accepting q.
Proof. open_queue q. by queue_cases. Qed.

Lemma is_stopped_lock q : is_stopped (lock_state q).1 = is_stopped q.
Proof. open_queue q. by queue_cases. Qed.

Lemma close_admission_lock q : close_admission (lock_state q).1 = close_admission q.
Proof. open_queue q. by queue_cases. Qed.

Lemma take_batch_lock q max : take_batch (lock_state q).1 max = take_batch q max.
Proof. open_queue q. by queue_cases. Qed.

Lemma finish_batch_lock q failure : finish_batch (lock_state q).1 failure = finish_batch q failure.
Proof. open_queue q. by queue_cases. Qed.

Lemma stop_lock q reason : stop (lock_state q).1 reason = stop q reason.
Proof. open_queue q. by queue_cases. Qed.
End Queue.
End SpanQueueProofs.
