(* ===== verification/BatchProcessor.v ===== *)
(** * The batch processor of the trace exporter

    [observability/batch.rs]: the processor that the OpenTelemetry SDK calls
    from any thread, and the one worker task that exports batches of spans.

    [step] is one action: a call, or a part of a call, of some thread, or the
    worker running from one [await] (or one use of the queue's mutex) to the
    next.  Between two of them anything else may happen.  What the worker was
    woken by is the [Poll]; a [select!] may take any arm that is ready, also
    where the code asks for the first one.  Clock readings and what the exporter
    returns are parts of the action.  The worker may be dropped at any point, as
    when it is aborted or panics, and a thread may panic while it holds the
    queue's mutex: after a complete update, or in the middle of one, which may
    leave anything under the mutex and in the counters.

    A reply channel is its number; [replies] are the messages sent.  The fields
    [offered] and [delivered] record what happened and are read by no code. *)

From S2P Require Import Prelude SpanQueue.
Local Open Scope string_scope.
Local Open Scope list_scope.

Module Batch.
Import SpanQueue.

Record BatchSettings := mkBatchSettings {
  settings_protocol : string;
  max_queue_size : nat;
  max_export_batch_size : nat;
  scheduled_delay : Z;
  export_timeout : Z;
}.

Inductive OTelSdkError :=
| AlreadyShutdown
| Timeout (after : Z)
| InternalFailure (message : string).
Abbreviation OTelSdkResult := (result OTelSdkError unit).

Record ShutdownRequest := mkShutdownRequest {
  deadline : Z;
  timeout : Z;
  reply : nat;
}.

Inductive Control :=
| Flush (reply : nat)
| SetResource
| Shutdown (request : ShutdownRequest).

Section Processor.
Context {SpanData : Type}.

(** Where the worker is: in [run_worker], in [export_batch], in
    [shutdown_worker], or gone. *)
Inductive Phase :=
| Selecting
| Checking
| Draining (failed : bool)
| Taking (failed : bool)
| Completing (failed : bool)
| Exporting (failed : bool) (batch : list SpanData) (export_deadline : Z)
| LastExport (failed : bool) (batch : list SpanData) (export_deadline : Z) (r : ShutdownRequest)
| Expired (r : ShutdownRequest)
| ShutdownLoop (r : ShutdownRequest) (failed : bool)
| ShutdownClock (r : ShutdownRequest) (failed : bool)
| ShutdownTaking (r : ShutdownRequest) (failed : bool) (now : Z)
| ShutdownExport (r : ShutdownRequest) (failed : bool) (batch : list SpanData) (remaining : Z)
| ShutdownEnd (r : ShutdownRequest) (failed : bool)
| Returning
| Gone.

(** How far the call of [shutdown_with_timeout] that closed the queue has got. *)
Inductive ShutdownCall :=
| NotCalled
| AdmissionClosed (r : ShutdownRequest)
| Awaiting (r : ShutdownRequest)
| Returned (r : OTelSdkResult).

Record Processor := mkProcessor {
  settings : BatchSettings;
  queue : Queue SpanData;
  control : list Control;
  flush_waiters : list nat;
  flush_requested : bool;
  phase : Phase;
  call : ShutdownCall;
  next_reply : nat;
  replies : list (nat * OTelSdkResult);
  offered : list SpanData;
  delivered : list SpanData;
}.

Definition new_processor (settings : BatchSettings) (metrics : TraceMetrics) : Processor :=
  mkProcessor settings
    (new (max_queue_size settings) (max_export_batch_size settings) metrics
       (settings_protocol settings))
    [] [] false Selecting NotCalled 0 [] [] [].

Definition set_queue (p : Processor) (q : Queue SpanData) : Processor :=
  mkProcessor (settings p) q (control p) (flush_waiters p) (flush_requested p) (phase p) (call p)
    (next_reply p) (replies p) (offered p) (delivered p).
Definition set_control (p : Processor) (c : list Control) : Processor :=
  mkProcessor (settings p) (queue p) c (flush_waiters p) (flush_requested p) (phase p) (call p)
    (next_reply p) (replies p) (offered p) (delivered p).
Definition set_waiters (p : Processor) (w : list nat) : Processor :=
  mkProcessor (settings p) (queue p) (control p) w (flush_requested p) (phase p) (call p)
    (next_reply p) (replies p) (offered p) (delivered p).
Definition set_flush (p : Processor) (b : bool) : Processor :=
  mkProcessor (settings p) (queue p) (control p) (flush_waiters p) b (phase p) (call p)
    (next_reply p) (replies p) (offered p) (delivered p).
Definition set_phase (p : Processor) (ph : Phase) : Processor :=
  mkProcessor (settings p) (queue p) (control p) (flush_waiters p) (flush_requested p) ph (call p)
    (next_reply p) (replies p) (offered p) (delivered p).
Definition set_call (p : Processor) (c : ShutdownCall) : Processor :=
  mkProcessor (settings p) (queue p) (control p) (flush_waiters p) (flush_requested p) (phase p) c
    (next_reply p) (replies p) (offered p) (delivered p).
Definition use_reply (p : Processor) : Processor :=
  mkProcessor (settings p) (queue p) (control p) (flush_waiters p) (flush_requested p) (phase p)
    (call p) (S (next_reply p)) (replies p) (offered p) (delivered p).
Definition add_replies (p : Processor) (rs : list (nat * OTelSdkResult)) : Processor :=
  mkProcessor (settings p) (queue p) (control p) (flush_waiters p) (flush_requested p) (phase p)
    (call p) (next_reply p) (replies p ++ rs) (offered p) (delivered p).
Definition set_history (p : Processor) (o d : list SpanData) : Processor :=
  mkProcessor (settings p) (queue p) (control p) (flush_waiters p) (flush_requested p) (phase p)
    (call p) (next_reply p) (replies p) o d.

(** ** The calls *)

Definition on_end (is_sampled : SpanData → bool) (p : Processor) (span : SpanData) : Processor :=
  if negb (is_sampled span) then p
  else set_history (set_queue p (push (queue p) span)) (offered p ++ [span]) (delivered p).

(** [force_flush] looks at the queue and then sends its request; [None] from the
    first is the error of a queue that is closed.  A send fails when the
    receiver is gone. *)
Definition force_flush_check (p : Processor) : Processor * option OTelSdkError :=
  let '(q, open) := is_accepting (queue p) in
  (set_queue p q, if open then None else Some AlreadyShutdown).

Definition is_gone (p : Processor) : bool :=
  match phase p with Gone => true | _ => false end.

Definition force_flush_send (p : Processor) : Processor * option OTelSdkError :=
  if is_gone p then (use_reply p, Some (InternalFailure "trace worker stopped"))
  else (use_reply (set_control p (control p ++ [Flush (next_reply p)])), None).

(** [shutdown_with_timeout], up to the request. *)
Definition shutdown_begin (p : Processor) (now timeout : Z) : Processor * option OTelSdkError :=
  let '(q, was_open) := close_admission (queue p) in
  let p := set_queue p q in
  if was_open
  then (use_reply (set_call p (AdmissionClosed
                                 (mkShutdownRequest (now + timeout) timeout (next_reply p)))), None)
  else (p, Some AlreadyShutdown).

Definition worker_stopped : OTelSdkResult := Err (InternalFailure "trace worker stopped").

(** The request is sent, or the worker is gone. *)
Definition shutdown_send (p : Processor) (r : ShutdownRequest) : Processor :=
  if is_gone p
  then set_call (set_queue p (stop (queue p) PROCESSOR_CLOSED)) (Returned worker_stopped)
  else set_call (set_control p (control p ++ [Shutdown r])) (Awaiting r).

(** [recv_timeout] returned the message, ran into the deadline, or found every
    sender dropped. *)
Inductive RecvTimeout :=
| Received (result : OTelSdkResult)
| TimedOut
| Disconnected.

Definition shutdown_finish (p : Processor) (r : ShutdownRequest) (m : RecvTimeout) : Processor :=
  match m with
  | Received result => set_call p (Returned result)
  | TimedOut =>
      set_call (set_queue p (stop (queue p) SHUTDOWN_TIMEOUT)) (Returned (Err (Timeout (timeout r))))
  | Disconnected =>
      set_call (set_queue p (stop (queue p) PROCESSOR_CLOSED)) (Returned worker_stopped)
  end.

(** ** The worker *)

Definition not_delivered : OTelSdkResult :=
  Err (InternalFailure "one or more trace batches were not delivered").

Definition outcome (failed : bool) : OTelSdkResult := if failed then not_delivered else Ok tt.

Definition complete_flush_waiters (p : Processor) (failed : bool) : Processor :=
  set_waiters (add_replies p ((fun w => (w, outcome failed)) <$> flush_waiters p)) [].

(** [finish_batch], and the record of a batch that it finds in flight and
    without failure. *)
Definition finish (p : Processor) (batch : list SpanData) (failure : option drop_reason) : Processor :=
  let q := queue p in
  let claimed := negb (poisoned q) && (0 <? in_flight (state q))%nat in
  let d := if claimed && negb (bool_decide (is_Some failure)) then delivered p ++ batch
           else delivered p in
  set_history (set_queue p (finish_batch q failure)) (offered p) d.

Definition export_failure (ok : bool) : option drop_reason :=
  if ok then None else Some EXPORT_ERROR.

(** What woke the worker, or where it goes on from a lock. *)
Inductive Poll :=
| Go (now : Z)
| SeesStopped
| Control_
| ControlClosed
| Woken
| Ready
| Ticked
| Exported (ok : bool)
| DeadlinePassed (now : Z)
| ExporterShutdown (ok : bool).

Definition batch_due (p : Processor) : Processor * bool :=
  let '(q, n) := len (queue p) in
  (set_queue p q, (max_export_batch_size (settings p) <=? n)%nat || flush_requested p).

(** The arms of the [select!] of [run_worker]. *)
Definition run_worker_select (p : Processor) (i : Poll) : option Processor :=
  match i with
  | SeesStopped =>
      let '(q, b) := is_stopped (queue p) in
      if b then Some (set_phase (complete_flush_waiters (set_queue p q) true) Returning) else None
  | Control_ =>
      match control p with
      | [] => None
      | Flush w :: cs =>
          Some (set_phase (set_flush (set_waiters (set_control p cs) (flush_waiters p ++ [w])) true)
                  Checking)
      | SetResource :: cs => Some (set_phase (set_control p cs) Checking)
      | Shutdown r :: cs => Some (set_phase (set_control p cs) (ShutdownLoop r false))
      end
  | ControlClosed => match control p with [] => Some (set_phase p Returning) | _ => None end
  | Woken => Some (set_phase p Checking)
  | Ready => let '(p, due) := batch_due p in if due then Some (set_phase p Checking) else None
  | Ticked =>
      let '(q, n) := len (queue p) in
      Some (set_phase (set_flush (set_queue p q) (0 <? n)%nat) Checking)
  | _ => None
  end.

(** The worker gives up at the deadline of a shutdown, in [run_worker] and twice in
    [shutdown_worker]. *)
Definition shutdown_expired (p : Processor) (r : ShutdownRequest) : Processor :=
  let p := set_queue p (stop (queue p) SHUTDOWN_TIMEOUT) in
  let p := add_replies p [(reply r, Err (Timeout (timeout r)))] in
  set_phase (complete_flush_waiters p true) Returning.

(** The rest of the loop of [run_worker]. *)
Definition run_worker_drain (p : Processor) (now : Z) : option Processor :=
  match phase p with
  | Checking =>
      let '(p, due) := batch_due p in
      Some (set_phase p (if due then Draining false else Selecting))
  | Draining failed =>
      let '(q, b) := is_stopped (queue p) in
      let p := set_queue p q in
      Some (if b then set_phase (complete_flush_waiters p true) Returning
            else set_phase p (Taking failed))
  | Taking failed =>
      let '(q, batch) := take_batch (queue p) (max_export_batch_size (settings p)) in
      let p := set_queue p q in
      Some (set_phase p (match batch with
                         | [] => Completing failed
                         | _ => Exporting failed batch (now + export_timeout (settings p))
                         end))
  | Completing failed =>
      let '(q, failed) := if failed then (queue p, true) else is_stopped (queue p) in
      Some (set_phase (set_flush (complete_flush_waiters (set_queue p q) failed) false) Selecting)
  | Expired r => Some (shutdown_expired p r)
  | _ => None
  end.

(** [export_batch]. *)
Definition export_batch (p : Processor) (failed : bool) (batch : list SpanData)
    (export_deadline : Z) (i : Poll) : option Processor :=
  match i with
  | Exported ok =>
      Some (set_phase (finish p batch (export_failure ok)) (Draining (failed || negb ok)))
  | DeadlinePassed now =>
      if (export_deadline <=? now)%Z
      then Some (set_phase (finish p batch (Some EXPORT_TIMEOUT)) (Draining true)) else None
  | Control_ =>
      match control p with
      | [] => None
      | Flush w :: cs => Some (set_waiters (set_control p cs) (flush_waiters p ++ [w]))
      | SetResource :: cs => Some (set_control p cs)
      | Shutdown r :: cs =>
          Some (set_phase (set_control p cs) (LastExport failed batch export_deadline r))
      end
  | ControlClosed =>
      match control p with
      | [] => Some (set_phase (finish p batch (Some PROCESSOR_CLOSED)) (Draining true))
      | _ => None
      end
  | _ => None
  end.

(** The inner [select!] of [export_batch], after a shutdown request. *)
Definition export_batch_last (p : Processor) (failed : bool) (batch : list SpanData)
    (export_deadline : Z) (r : ShutdownRequest) (i : Poll) : option Processor :=
  match i with
  | Exported ok =>
      Some (set_phase (finish p batch (export_failure ok)) (ShutdownLoop r (failed || negb ok)))
  | DeadlinePassed now =>
      if (Z.min export_deadline (deadline r) <=? now)%Z then
        Some (if (deadline r <=? export_deadline)%Z
              then set_phase (finish p batch (Some SHUTDOWN_TIMEOUT)) (Expired r)
              else set_phase (finish p batch (Some EXPORT_TIMEOUT)) (ShutdownLoop r true))
      else None
  | _ => None
  end.

Definition shutdown_worker (p : Processor) (i : Poll) : option Processor :=
  match phase p, i with
  | ShutdownLoop r failed, Go _ =>
      let '(q, b) := is_stopped (queue p) in
      Some (set_phase (set_queue p q) (if b then ShutdownEnd r true else ShutdownClock r failed))
  | ShutdownClock r failed, Go now =>
      Some (if (deadline r <=? now)%Z then shutdown_expired p r
            else set_phase p (ShutdownTaking r failed now))
  | ShutdownTaking r failed now, Go _ =>
      let '(q, batch) := take_batch (queue p) (max_export_batch_size (settings p)) in
      Some (set_phase (set_queue p q)
              (match batch with
               | [] => ShutdownEnd r failed
               | _ => ShutdownExport r failed batch (Z.max 0 (deadline r - now))
               end))
  | ShutdownExport r failed batch remaining, Exported ok =>
      Some (set_phase (finish p batch (export_failure ok)) (ShutdownLoop r (failed || negb ok)))
  | ShutdownExport r failed batch remaining, DeadlinePassed _ =>
      Some (if (remaining <=? export_timeout (settings p))%Z then shutdown_expired p r
            else set_phase (finish p batch (Some EXPORT_TIMEOUT)) (ShutdownLoop r true))
  | ShutdownEnd r failed, ExporterShutdown ok =>
      let '(q, b) := if ok then is_stopped (queue p) else (queue p, true) in
      let failed := failed || b in
      let p := add_replies (set_queue p q) [(reply r, outcome failed)] in
      Some (set_phase (complete_flush_waiters p failed) Returning)
  | _, _ => None
  end.

(** The worker's future is dropped: with it the receiver, the waiters and the
    [WorkerQueue]. *)
Definition drop_worker (p : Processor) : Processor :=
  set_phase (set_queue (set_waiters (set_control p []) []) (stop (queue p) PROCESSOR_CLOSED)) Gone.

Definition worker_step (p : Processor) (i : Poll) : option Processor :=
  match phase p, i with
  | Selecting, _ => run_worker_select p i
  | Exporting failed batch d, _ => export_batch p failed batch d i
  | LastExport failed batch d r, _ => export_batch_last p failed batch d r i
  | (Checking | Draining _ | Taking _ | Completing _ | Expired _), Go now => run_worker_drain p now
  | Returning, Go _ => Some (drop_worker p)
  | _, _ => shutdown_worker p i
  end.

(** How the worker task ended, as its supervisor sees it. *)
Inductive JoinResult :=
| JoinOk
| JoinPanic
| JoinCancelled.

(** What [supervise_worker] warns about, if it does. *)
Definition supervise_worker (r : JoinResult) (shutdown_requested : bool) : option string :=
  match r with
  | JoinPanic => Some "panic"
  | _ =>
      if shutdown_requested then None
      else match r with JoinOk => Some "unexpected_exit" | _ => Some "cancelled" end
  end.

(** ** Any interleaving *)

Inductive Action :=
| OnEnd (span : SpanData)
| FlushCheck
| FlushSend
| SetResourceSend
| ShutdownBegin (now timeout : Z)
| ShutdownSend
| ShutdownFinish (m : RecvTimeout)
| Worker (i : Poll)
| WorkerDropped
| PanicWhileLocked
| PanicWithin (s : QueueState SpanData) (m : TraceMetrics).

(** Whether [recv_timeout] on the channel of [r] can return [m]. *)
Definition receivable (p : Processor) (r : ShutdownRequest) (m : RecvTimeout) : Prop :=
  match m with
  | Received result => (reply r, result) ∈ replies p
  | TimedOut => True
  | Disconnected =>
      (reply r ∉ (replies p).*1) ∧ (phase p = Returning ∨ phase p = Gone)
  end.

Variable is_sampled : SpanData → bool.

Inductive atomic_step (p : Processor) : Action → Processor → Prop :=
| atomic_on_end span : atomic_step p (OnEnd span) (on_end is_sampled p span)
| atomic_flush_check : atomic_step p FlushCheck (force_flush_check p).1
| atomic_flush_send : atomic_step p FlushSend (force_flush_send p).1
| atomic_set_resource :
    phase p ≠ Gone → atomic_step p SetResourceSend (set_control p (control p ++ [SetResource]))
| atomic_shutdown_begin now timeout :
    atomic_step p (ShutdownBegin now timeout) (shutdown_begin p now timeout).1
| atomic_shutdown_send r :
    call p = AdmissionClosed r → atomic_step p ShutdownSend (shutdown_send p r)
| atomic_shutdown_finish r m :
    call p = Awaiting r → receivable p r m →
    atomic_step p (ShutdownFinish m) (shutdown_finish p r m)
| atomic_worker i p' : worker_step p i = Some p' → atomic_step p (Worker i) p'
| atomic_dropped : phase p ≠ Gone → atomic_step p WorkerDropped (drop_worker p)
| atomic_panic :
    poisoned (queue p) = false →
    atomic_step p PanicWhileLocked (set_queue p (panic_while_locked (queue p))).

(** A thread may also panic in the middle of an update of the queue. *)
Inductive step (p : Processor) : Action → Processor → Prop :=
| step_atomic a p' : atomic_step p a p' → step p a p'
| step_panic_within s m : step p (PanicWithin s m) (set_queue p (panic_within (queue p) s m)).

(** The actions of a run, in order. *)
Inductive steps (p : Processor) : list Action → Processor → Prop :=
| steps_nil : steps p [] p
| steps_snoc l p1 a p2 : steps p l p1 → step p1 a p2 → steps p (l ++ [a]) p2.
End Processor.
Arguments Processor : clear implicits.
Arguments Phase : clear implicits.
Arguments Action : clear implicits.
End Batch.
