(* ===== verification/BatchProofs.v ===== *)
(** * Invariants of the batch processor

    Every step of the processor but a panic in the middle of an update has one
    of four effects on the spans; the invariant of the spans is shown for those.
    After a panic the queue is as good as closed, and its counters may be wrong.
    The requests have an invariant of their own. *)

From S2P Require Import Prelude SpanQueue BatchProcessor.
Local Open Scope list_scope.

Module BatchProofs.
Import SpanQueue SpanQueueProofs Batch.

(** Open a step of the worker. *)
Ltac open_step H :=
  unfold batch_due in H; repeat (case_hyp H; simpl in H; try discriminate H);
  first [discriminate H | injection H as <-].

Section Proofs.
Context {SpanData : Type} (is_sampled : SpanData → bool).
Implicit Types p : Processor SpanData.
Implicit Types q : Queue SpanData.

(** The batch that is with the exporter. *)
Definition batch_of (ph : Phase SpanData) : list SpanData :=
  match ph with
  | Exporting _ b _ | LastExport _ b _ _ | ShutdownExport _ _ b _ => b
  | _ => []
  end.

#[local] Instance closed_dec q : Decision (closed q).
Proof.
  refine (match pending (state q) as l return pending (state q) = l → _ with
          | [] => fun E => cast_if (decide (in_flight (state q) = 0 ∧ accepting (state q) = false ∧
                                             stopped (state q) = true))
          | _ :: _ => fun E => right _
          end eq_refl); unfold closed; rewrite E; naive_solver.
Defined.

(** ** Effects on the spans *)

(** No span moves, unless the queue is closed and counts all it had as lost. *)
Record quiet q q' : Prop := mk_quiet {
  quiet_capacity : capacity q' = capacity q;
  quiet_account : accounted q' = accounted q;
  quiet_state : closed q' ∨
    (pending (state q') = pending (state q) ∧ in_flight (state q') = in_flight (state q) ∧
     stopped (state q') = stopped (state q) ∧
     (accepting (state q') = accepting (state q) ∨ accepting (state q') = false));
}.

Lemma quiet_refl q : quiet q q.
Proof. split; auto 10. Qed.

Lemma quiet_lock q : quiet q (lock_state q).1.
Proof.
  split; [apply queue_constants|apply accounted_lock|].
  destruct (lock_effect q) as [->|]; auto 10.
Qed.

Lemma quiet_len q : quiet q (len q).1.
Proof. rewrite (proj1 (len_effect q)). apply quiet_lock. Qed.

Lemma quiet_is_accepting q : quiet q (is_accepting q).1.
Proof. rewrite is_accepting_effect. apply quiet_lock. Qed.

Lemma quiet_is_stopped q : quiet q (is_stopped q).1.
Proof. rewrite (proj1 (is_stopped_effect q)). apply quiet_lock. Qed.

Lemma quiet_close_admission q : quiet q (close_admission q).1.
Proof.
  split; [apply queue_constants|apply accounted_close|].
  destruct (close_admission_effect q) as [[-> _]|[? _]]; auto 10.
Qed.

Lemma quiet_stop q reason : queue_ok q → quiet q (stop q reason).
Proof.
  intros Hq. split; [apply queue_constants|apply accounted_stop|left; by apply stop_effect].
Qed.

Lemma quiet_panic q : quiet q (panic_while_locked q).
Proof. split; auto 10. Qed.

Inductive effect p p' : Prop :=
| eff_quiet :
    settings p' = settings p → offered p' = offered p → delivered p' = delivered p →
    quiet (queue p) (queue p') →
    batch_of (phase p') = batch_of (phase p) ∨
      (batch_of (phase p') = [] ∧ closed (queue p')) → effect p p'
| eff_push span :
    settings p' = settings p → offered p' = offered p ++ [span] → delivered p' = delivered p →
    queue p' = push (queue p) span → phase p' = phase p → effect p p'
| eff_take :
    settings p' = settings p → offered p' = offered p → delivered p' = delivered p →
    queue p' = (take_batch (queue p) (max_export_batch_size (settings p))).1 →
    batch_of (phase p) = [] →
    batch_of (phase p') = (take_batch (queue p) (max_export_batch_size (settings p))).2 →
    effect p p'
| eff_finish failure :
    settings p' = settings p → offered p' = offered p →
    queue p' = finish_batch (queue p) failure →
    delivered p' = delivered (finish p (batch_of (phase p)) failure) →
    batch_of (phase p') = [] → effect p p'.

#[local] Hint Resolve quiet_refl quiet_len quiet_is_accepting quiet_is_stopped quiet_close_admission
  quiet_stop quiet_panic stop_effect : core.

(** What is known of a queue that came with an answer. *)
Ltac read_pairs :=
  repeat match goal with
  | E : len ?q = (?q', _) |- _ =>
      let H := fresh "Hq" in pose proof (quiet_len q) as H; rewrite E in H; simpl in H; clear E
  | E : is_stopped ?q = (?q', _) |- _ =>
      let H := fresh "Hq" in pose proof (quiet_is_stopped q) as H; rewrite E in H; simpl in H; clear E
  end.

Ltac quiet_step Ep := read_pairs; apply eff_quiet; simpl; rewrite ?Ep; auto.

Lemma select_effect p i p' :
  phase p = Selecting → run_worker_select p i = Some p' → effect p p'.
Proof. intros Ep H. unfold run_worker_select in H. open_step H; quiet_step Ep. Qed.

Lemma take_effect p q batch ph :
  batch_of (phase p) = [] → take_batch (queue p) (max_export_batch_size (settings p)) = (q, batch) →
  batch_of ph = batch → effect p (set_phase (set_queue p q) ph).
Proof. intros Hb E Hph. by apply eff_take; simpl; rewrite ?E. Qed.

Lemma drain_effect p now p' :
  queue_ok (queue p) → batch_of (phase p) = [] → run_worker_drain p now = Some p' → effect p p'.
Proof.
  intros Hq Hb H. unfold run_worker_drain in H. destruct (phase p) eqn:Ep; try discriminate H.
  4: { destruct failed; open_step H; quiet_step Ep. }
  3: { destruct (take_batch _ _) as [q [|s b]] eqn:E; injection H as <-; eapply take_effect; rewrite ?Ep; eauto. }
  all: open_step H; quiet_step Ep.
Qed.

Lemma finish_effect p batch failure ph :
  batch_of (phase p) = batch → batch_of ph = [] → effect p (set_phase (finish p batch failure) ph).
Proof. intros <- ?. by apply (eff_finish _ _ failure). Qed.

Lemma export_effect p failed b d i p' :
  phase p = Exporting failed b d → export_batch p failed b d i = Some p' → effect p p'.
Proof.
  intros Ep H. unfold export_batch in H.
  open_step H; solve [apply finish_effect; by rewrite ?Ep | quiet_step Ep].
Qed.

Lemma export_last_effect p failed b d r i p' :
  phase p = LastExport failed b d r → export_batch_last p failed b d r i = Some p' → effect p p'.
Proof.
  intros Ep H. unfold export_batch_last in H. open_step H; apply finish_effect; by rewrite ?Ep.
Qed.

Lemma shutdown_effect p i p' :
  queue_ok (queue p) → shutdown_worker p i = Some p' → effect p p'.
Proof.
  intros Hq H. unfold shutdown_worker in H.
  destruct (phase p) eqn:Ep; try discriminate H; destruct i; try discriminate H.
  3: { destruct (take_batch _ _) as [q [|s b]] eqn:E; injection H as <-;
       eapply take_effect; rewrite ?Ep; eauto. }
  all: open_step H; solve [apply finish_effect; by rewrite ?Ep | quiet_step Ep].
Qed.

Lemma worker_effect p i p' : queue_ok (queue p) → worker_step p i = Some p' → effect p p'.
Proof.
  intros Hq H. unfold worker_step in H.
  destruct (phase p) eqn:Ep; eauto using select_effect, export_effect, export_last_effect;
    destruct i; try discriminate H; eauto using shutdown_effect;
    try (eapply drain_effect; rewrite ?Ep; eauto; fail).
  injection H as <-. quiet_step Ep.
Qed.

Lemma atomic_effect p a p' : queue_ok (queue p) → atomic_step is_sampled p a p' → effect p p'.
Proof.
  intros Hq. destruct 1 as [span| | | |now timeout|r Hc|r m Hc Hm|i p' Hw| |].
  - unfold on_end. destruct (is_sampled span); [by apply (eff_push _ _ span)|by apply eff_quiet; auto].
  - unfold force_flush_check. pose proof (quiet_is_accepting (queue p)) as Hl.
    destruct (is_accepting _). by apply eff_quiet; auto.
  - unfold force_flush_send. destruct (is_gone p); by apply eff_quiet; auto.
  - by apply eff_quiet; auto.
  - unfold shutdown_begin. pose proof (quiet_close_admission (queue p)) as Hl.
    destruct (close_admission _) as [q []]; by apply eff_quiet; auto.
  - unfold shutdown_send. destruct (is_gone p); apply eff_quiet; simpl; auto.
  - destruct m; apply eff_quiet; simpl; auto.
  - by eapply worker_effect.
  - apply eff_quiet; simpl; auto.
  - apply eff_quiet; simpl; auto.
Qed.

(** A queue that is closed stays closed, one that is stopped stays stopped. *)
Lemma effect_latches p p' :
  effect p p' →
  (accepting (state (queue p)) = false → accepting (state (queue p')) = false) ∧
  (queue_ok (queue p) → stopped (state (queue p)) = true → stopped (state (queue p')) = true).
Proof.
  destruct 1 as [_ _ _ [_ _ Hq] _|span _ _ _ -> _|_ _ _ -> _ _|failure _ _ -> _ _].
  - destruct Hq as [(_ & _ & ? & ?)|(_ & _ & Es & Ea)]; [auto|]. destruct Ea; split; congruence.
  - destruct (push_effect (queue p) span) as [->|[(_ & _ & ? & ?)|(? & _ & ->)]]; simpl; auto.
    split; congruence.
  - destruct (take_batch_effect (queue p) (max_export_batch_size (settings p)))
      as [[-> _]|[(_ & _ & ? & ?) _]]; auto.
  - destruct (finish_batch_effect (queue p) failure) as [(_ & ef & ->)|(_ & _ & ? & ?)]; auto.
Qed.

(** ** The invariant of the spans *)

(** [base] is what was lost before, when the counters can be relied on. *)
Record spans_ok (base : option nat) p : Prop := mk_spans_ok {
  so_queue : queue_ok (queue p);
  so_capacity : capacity (queue p) = max_queue_size (settings p);
  so_account : ∀ b, base = Some b →
               accounted (queue p) + length (delivered p) = length (offered p) + b;
  so_flight : stopped (state (queue p)) = false →
              in_flight (state (queue p)) = length (batch_of (phase p));
  so_batch : (length (batch_of (phase p)) ≤ max_export_batch_size (settings p))%nat;
  so_delivered : delivered p `sublist_of` offered p;
  so_order : stopped (state (queue p)) = false →
             delivered p ++ batch_of (phase p) ++ pending (state (queue p)) `sublist_of` offered p;
}.

Lemma closed_ok q : closed q → queue_ok q.
Proof. intros (E1 & E2 & E3 & E4). split; rewrite ?E1; [simpl; lia|auto]. Qed.

Lemma closed_spans base p p' :
  spans_ok base p → settings p' = settings p → offered p' = offered p →
  delivered p' = delivered p → capacity (queue p') = capacity (queue p) →
  accounted (queue p') = accounted (queue p) → closed (queue p') →
  (length (batch_of (phase p')) ≤ max_export_batch_size (settings p))%nat → spans_ok base p'.
Proof.
  intros [? Hc Ha ?? Hd ?] Es Eo Ed Ec Eacc Hcl Hb. pose proof (closed_ok _ Hcl) as Hok.
  destruct Hcl as (_ & _ & _ & Est).
  split; rewrite ?Es, ?Eo, ?Ed, ?Est, ?Eacc; try done; congruence.
Qed.

Lemma quiet_spans base p p' :
  spans_ok base p → settings p' = settings p → offered p' = offered p →
  delivered p' = delivered p → quiet (queue p) (queue p') →
  batch_of (phase p') = batch_of (phase p) ∨ (batch_of (phase p') = [] ∧ closed (queue p')) →
  spans_ok base p'.
Proof.
  intros Hok Es Eo Ed [Ec Ea Hst] Hb.
  destruct (decide (closed (queue p'))) as [Hcl|Hncl].
  { eapply closed_spans; try done. destruct Hb as [->|[-> _]]; [apply Hok|simpl; lia]. }
  destruct Hb as [Eb|[_ ?]]; [|done]. destruct Hst as [?|(Ep & Ef & Est & Eacc)]; [done|].
  destruct Hok as [[Hc1 Hs] Hc2 Hacc Hf Hbt Hd Ho].
  split; rewrite ?Es, ?Eo, ?Ed, ?Eb, ?Ep, ?Ef, ?Est, ?Ec, ?Ea; try done.
  split; rewrite ?Ep, ?Ef, ?Est, ?Ec; [done|]. intros Hst. destruct (Hs Hst) as (? & ? & ?).
  repeat split; try done. destruct Eacc; congruence.
Qed.

Ltac account Hacc := intros b Hb; specialize (Hacc b Hb); simpl in *; lia.

Lemma push_spans base p p' span :
  spans_ok base p → settings p' = settings p → offered p' = offered p ++ [span] →
  delivered p' = delivered p → queue p' = push (queue p) span → phase p' = phase p →
  spans_ok base p'.
Proof.
  intros [[Hc1 Hs] Hc2 Hacc Hf Hbt Hd Ho] Es Eo Ed Eq Eph.
  assert (capacity (push (queue p) span) = capacity (queue p)) as Ec by apply queue_constants.
  assert (∀ l : list SpanData, l `sublist_of` offered p → l `sublist_of` offered p ++ [span])
    as Hsub by (intros; by apply sublist_inserts_r).
  destruct (push_effect (queue p) span) as [E|[Hcl|(Hacc' & Hlen & E)]].
  - split; rewrite ?Es, ?Eo, ?Ed, ?Eq, ?Eph, ?E, ?Ec, ?accounted_push, ?length_app; auto; simpl; try lia; try account Hacc.
    split; by rewrite E, ?Ec.
  - pose proof (closed_ok _ Hcl) as Hok. destruct Hcl as (_ & _ & _ & Est).
    split; rewrite ?Es, ?Eo, ?Ed, ?Eq, ?Eph, ?Ec, ?accounted_push, ?length_app; auto; simpl; try lia; try account Hacc;
      by rewrite Est.
  - assert (stopped (state (queue p)) = false) as Est.
    { destruct (stopped _); [|done]. destruct (Hs eq_refl) as (_ & _ & ?). congruence. }
    split; rewrite ?Es, ?Eo, ?Ed, ?Eq, ?Eph, ?E, ?Ec, ?accounted_push, ?length_app; auto; simpl; try lia; try account Hacc.
    + split; rewrite E, ?Ec; simpl; [rewrite length_app; simpl; lia|congruence].
    + intros _. rewrite !app_assoc. apply sublist_app; [|done]. rewrite <- app_assoc. auto.
Qed.

Lemma take_spans base p p' :
  let max := max_export_batch_size (settings p) in
  spans_ok base p → settings p' = settings p → offered p' = offered p →
  delivered p' = delivered p → queue p' = (take_batch (queue p) max).1 →
  batch_of (phase p) = [] → batch_of (phase p') = (take_batch (queue p) max).2 →
  spans_ok base p'.
Proof.
  intros max Hok Es Eo Ed Eq Eb Eb'. pose proof Hok as [[Hc1 Hs] Hc2 Hacc Hf Hbt Hd Ho].
  assert (capacity (take_batch (queue p) max).1 = capacity (queue p)) as Ec by apply queue_constants.
  assert (in_flight (state (queue p)) = 0) as Ef.
  { destruct (stopped _); [by apply Hs|]. rewrite Hf, Eb by done. done. }
  assert (accounted (queue p') = accounted (queue p)) as Ea by (rewrite Eq; by apply accounted_take).
  destruct (take_batch_effect (queue p) max) as [[E Et]|[Hcl Et]].
  - split; rewrite ?Es, ?Eo, ?Ed, ?Ea; try done; rewrite ?Eb', ?Eq, ?Et, ?E, ?Ec, ?length_take; simpl; try done.
    + split; rewrite ?E, ?Ec; simpl; [rewrite length_drop; lia|].
      intros Hst. destruct (Hs Hst) as (-> & _ & ->). by rewrite drop_nil.
    + lia.
    + lia.
    + rewrite Eb in Ho. intros Hst. rewrite take_drop. by apply Ho.
  - eapply closed_spans; try done; rewrite ?Eq; try done. rewrite Eb', Et. simpl; lia.
Qed.

Lemma finish_spans base p p' failure :
  spans_ok base p → settings p' = settings p → offered p' = offered p →
  queue p' = finish_batch (queue p) failure →
  delivered p' = delivered (finish p (batch_of (phase p)) failure) →
  batch_of (phase p') = [] → spans_ok base p'.
Proof.
  intros [[Hc1 Hs] Hc2 Hacc Hf Hbt Hd Ho] Es Eo Eq Ed Eb. simpl in Ed.
  assert (capacity (finish_batch (queue p) failure) = capacity (queue p)) as Ec by apply queue_constants.
  assert (∀ n, in_flight (state (queue p)) = S n → stopped (state (queue p)) = false) as Hlive.
  { intros n En. destruct (stopped _); [|done]. destruct (Hs eq_refl) as (_ & ? & _). congruence. }
  assert (accounted (queue p') + length (delivered p') = accounted (queue p) + length (delivered p)) as Ea.
  { rewrite Eq, Ed. destruct failure as [reason|].
    - rewrite accounted_fail. simpl. by rewrite andb_false_r.
    - pose proof (accounted_finish (queue p)) as Hfin. destruct (poisoned (queue p)); simpl; [lia|].
      destruct (in_flight _) as [|n] eqn:En; simpl; [lia|].
      rewrite length_app, <- Hf by eauto. lia. }
  assert (delivered p' `sublist_of` offered p ∧
          (stopped (state (queue p)) = false →
           delivered p' ++ pending (state (queue p)) `sublist_of` offered p)) as [Hd' Ho'].
  { rewrite Ed. destruct (negb (poisoned _) && _) eqn:Ecl; simpl.
    - destruct (in_flight _) as [|n] eqn:En; [by rewrite andb_false_r in Ecl|].
      specialize (Ho (Hlive n eq_refl)). destruct (bool_decide _); simpl.
      + split; [done|]. intros _. etrans; [|exact Ho]. apply sublist_app; [done|]. by apply sublist_inserts_l.
      + rewrite app_assoc in Ho. split; [|done]. etrans; [|exact Ho]. by apply sublist_inserts_r.
    - split; [done|]. intros Hst. etrans; [|exact (Ho Hst)]. apply sublist_app; [done|].
      by apply sublist_inserts_l. }
  destruct (finish_batch_effect (queue p) failure) as [(_ & ef & E)|Hcl].
  - split; rewrite ?Es, ?Eo, ?Eb, ?Eq, ?E, ?Ec; simpl; try done; try lia.
    + split; rewrite E, ?Ec; simpl; [done|]. naive_solver.
    + rewrite <- Eq. account Hacc.
  - pose proof (closed_ok _ Hcl) as Hok. destruct Hcl as (_ & _ & _ & Est).
    split; rewrite ?Es, ?Eo, ?Eb, ?Eq, ?Ec, ?Est; simpl; try done; try lia. rewrite <- Eq. account Hacc.
Qed.

Lemma atomic_spans base p a p' :
  spans_ok base p → atomic_step is_sampled p a p' → spans_ok base p'.
Proof.
  intros Hok Hst. destruct (atomic_effect p a p' (so_queue _ _ Hok) Hst);
    eauto using quiet_spans, push_spans, take_spans, finish_spans.
Qed.

Lemma new_spans settings m : spans_ok (Some (total_dropped m)) (new_processor settings m).
Proof.
  split; unfold new_processor, accounted; simpl; try done; try lia.
  - split; simpl; [lia|done].
  - intros b [= <-]. lia.
Qed.

(** A batch that finishes without failure is delivered, unless the queue was
    stopped meanwhile. *)
Lemma finish_delivers base p :
  spans_ok base p →
  let p' := finish p (batch_of (phase p)) None in
  stopped (state (queue p')) = true ∨
  (delivered p' = delivered p ++ batch_of (phase p) ∧
   pending (state (queue p')) = pending (state (queue p))).
Proof.
  intros Hok p'. subst p'.
  destruct (finish_batch_effect (queue p) None) as [(Ep & ef & E)|(_ & _ & _ & E)]; [|by left].
  simpl. rewrite E; simpl. destruct (stopped _) eqn:Est; [by left|right; split; [|done]].
  rewrite Ep, (so_flight _ _ Hok Est). destruct (batch_of _); simpl; [by rewrite app_nil_r|done].
Qed.

(** A batch that is taken comes from the front; no batch means no spans. *)
Lemma take_takes base p q batch :
  spans_ok base p → (0 < max_export_batch_size (settings p))%nat →
  take_batch (queue p) (max_export_batch_size (settings p)) = (q, batch) →
  stopped (state q) = true ∨
  (pending (state (queue p)) = batch ++ pending (state q) ∧ (batch = [] → pending (state q) = [])).
Proof.
  intros Hok Hmax Et.
  destruct (take_batch_effect (queue p) (max_export_batch_size (settings p)))
    as [[E Eb]|[(_ & _ & _ & E) _]]; rewrite Et in *; simpl in *; [|by left]. right.
  rewrite E, Eb; simpl. split; [by rewrite take_drop|]. intros Hnil.
  destruct (pending (state (queue p))) as [|x l]; [by rewrite drop_nil|].
  destruct (max_export_batch_size _); [lia|done].
Qed.

(** ** Panics in the middle of an update

    Every method locks the queue first, so a processor whose queue is poisoned
    does what the processor does whose queue was closed for it.  The invariants
    are about the latter. *)

Definition recover p : Processor SpanData := set_queue p (lock_state (queue p)).1.

Lemma recover_idemp p : recover (recover p) = recover p.
Proof. unfold recover; simpl. by rewrite lock_idemp. Qed.

Lemma recover_id p : poisoned (queue p) = false → recover p = p.
Proof. intros H. unfold recover. rewrite lock_id by done. by destruct p. Qed.

Lemma recover_step p : atomic_step is_sampled p FlushCheck (recover p).
Proof.
  pose proof (atomic_flush_check is_sampled p) as H. unfold force_flush_check in H.
  pose proof (is_accepting_effect (queue p)) as E. unfold recover. rewrite <- E.
  by destruct (is_accepting _).
Qed.

Ltac relock :=
  rewrite ?push_lock, ?len_lock, ?is_accepting_lock, ?is_stopped_lock, ?close_admission_lock,
    ?take_batch_lock, ?finish_batch_lock, ?stop_lock, ?lock_idemp.

Lemma finish_recover p batch failure : finish (recover p) batch failure = finish p batch failure.
Proof.
  unfold finish, recover; simpl. relock. rewrite lock_unpoisoned; simpl.
  unfold lock_state. by destruct (poisoned (queue p)).
Qed.

Lemma recover_worker p i p' :
  worker_step p i = Some p' → ∃ p'', worker_step (recover p) i = Some p'' ∧ recover p'' = recover p'.
Proof.
  unfold worker_step, run_worker_select, run_worker_drain, export_batch, export_batch_last,
    shutdown_worker, batch_due.
  change (phase (recover p)) with (phase p). change (control (recover p)) with (control p).
  change (settings (recover p)) with (settings p).
  change (flush_requested (recover p)) with (flush_requested p).
  change (queue (recover p)) with (lock_state (queue p)).1.
  intros H. destruct (phase p) eqn:Ep; destruct i; try discriminate H; cbv beta iota in *;
    rewrite ?finish_recover; relock; open_step H; eexists; (split; [reflexivity|]);
    unfold recover, shutdown_expired, complete_flush_waiters; simpl; relock; reflexivity.
Qed.

Lemma recover_atomic p a p' :
  atomic_step is_sampled p a p' →
  ∃ p'', atomic_step is_sampled (recover p) a p'' ∧ recover p'' = recover p'.
Proof.
  destruct 1 as [span| | |Hg|now timeout|r Hc|r m Hc Hm|i p' Hw|Hg|Hp];
    try (eexists; split; [constructor; first [eassumption | apply lock_unpoisoned]|]);
    try (eexists; split; [by constructor|]).
  - unfold on_end, recover. destruct (is_sampled span); simpl; by relock.
  - unfold force_flush_check, recover; simpl. relock. by destruct (is_accepting _).
  - unfold force_flush_send, is_gone, recover; simpl. destruct (phase p); simpl; by relock.
  - unfold recover; simpl. by relock.
  - unfold shutdown_begin, recover; simpl. relock. by destruct (close_admission _) as [q []].
  - unfold shutdown_send, is_gone, recover; simpl. destruct (phase p); simpl; by relock.
  - unfold recover. destruct m; simpl; by relock.
  - destruct (recover_worker p i p' Hw) as (p'' & ? & ?). eauto using atomic_worker.
  - unfold recover, drop_worker; simpl. by relock.
  - unfold recover; simpl. by rewrite (lock_id _ Hp).
Qed.

(** The queue is closed, with any counters. *)
Lemma lost_spans base p q :
  spans_ok base p → closed q → capacity q = capacity (queue p) → spans_ok None (set_queue p q).
Proof.
  intros [? Hc ??? Hd ?] Hcl Ec. pose proof (closed_ok _ Hcl). destruct Hcl as (_ & _ & _ & Est).
  split; simpl; rewrite ?Est; try done. congruence.
Qed.

(** An invariant of the steps, for what the processor is once the queue is locked. *)
Lemma steps_inv (P : list (Action SpanData) → Processor SpanData → Prop) p l p' :
  (∀ l p1 a p2, P l p1 → atomic_step is_sampled p1 a p2 → P (l ++ [a]) (recover p2)) →
  (∀ l p1 q s m, P l p1 → closed q → capacity q = capacity (queue p1) →
                 P (l ++ [PanicWithin s m]) (set_queue p1 q)) →
  P [] (recover p) → steps is_sampled p l p' → P l (recover p').
Proof.
  intros Ha Hp H0. induction 1 as [|l p1 a p2 _ IH Hst]; [done|]. destruct Hst as [a p2 Hst|s m].
  - destruct (recover_atomic _ _ _ Hst) as (p3 & H3 & <-). by eapply Ha.
  - apply (Hp _ _ (lock_state (panic_within (queue p1) s m)).1 s m) in IH; [done| |].
    + by apply lock_closed.
    + simpl. symmetry. apply queue_constants.
Qed.

(** Whether every panic left a complete update. *)
Definition is_complete (a : Action SpanData) : bool :=
  match a with PanicWithin _ _ => false | _ => true end.

Lemma reachable_spans settings m l p :
  steps is_sampled (new_processor settings m) l p →
  spans_ok (if forallb is_complete l then Some (total_dropped m) else None) (recover p).
Proof.
  apply (steps_inv (fun l p => spans_ok (if forallb is_complete l then _ else _) p)).
  - intros l' p1 a p2 Hok Hst. rewrite forallb_app.
    assert (forallb is_complete [a] = true) as -> by by destruct Hst.
    rewrite andb_true_r. eauto using atomic_spans, recover_step.
  - intros l' p1 q s m' Hok Hq Ec. rewrite forallb_app, andb_false_r. by eapply lost_spans.
  - apply (atomic_spans _ _ _ _ (new_spans _ _) (recover_step _)).
Qed.
End Proofs.
End BatchProofs.
