(* ===== verification/BatchRequests.v ===== *)
(** * Requests to the batch processor

    Every flush or shutdown request is in one place at a time: in the channel,
    with the worker, or answered. *)

From S2P Require Import Prelude SpanQueue BatchProcessor BatchProofs.
Local Open Scope list_scope.

Module BatchRequests.
Import SpanQueue SpanQueueProofs Batch BatchProofs.

Section Proofs.
Context {SpanData : Type} (is_sampled : SpanData → bool).
Implicit Types p : Processor SpanData.

(** The shutdown request that the worker is serving. *)
Definition request_of (ph : Phase SpanData) : option ShutdownRequest :=
  match ph with
  | LastExport _ _ _ r | Expired r | ShutdownLoop r _ | ShutdownClock r _ | ShutdownTaking r _ _
  | ShutdownExport r _ _ _ | ShutdownEnd r _ => Some r
  | _ => None
  end.

Definition control_ids (c : Control) : list nat :=
  match c with Flush w => [w] | SetResource => [] | Shutdown r => [reply r] end.

Definition call_ids (c : ShutdownCall) : list nat :=
  match c with AdmissionClosed r => [reply r] | _ => [] end.

Definition request_ids (o : option ShutdownRequest) : list nat :=
  match o with Some r => [reply r] | None => [] end.

(** The reply channels of all requests that were made and not abandoned. *)
Definition ids p : list nat :=
  (control p ≫= control_ids) ++ flush_waiters p ++ request_ids (request_of (phase p)) ++
  call_ids (call p) ++ (replies p).*1.

(** Where no flush can be waiting. *)
Definition idle p : bool :=
  match phase p with
  | Selecting | Returning | Gone => true
  | Checking => negb (flush_requested p)
  | _ => false
  end.

Record requests_ok p : Prop := mk_requests_ok {
  ro_nodup : NoDup (ids p);
  ro_bound : Forall (fun i => i < next_reply p)%nat (ids p);
  ro_idle : idle p = true → flush_waiters p = [];
  ro_gone : phase p = Gone → control p = [];
}.

(** A step moves requests, drops some, or makes one. *)
Lemma move_requests p p' :
  requests_ok p → ids p' ⊆+ ids p → next_reply p' = next_reply p →
  (idle p' = true → flush_waiters p' = []) → (phase p' = Gone → control p' = []) →
  requests_ok p'.
Proof.
  intros [Hn Hb _ _] Hsub En Hi Hg. split; [| |done..].
  - apply submseteq_Permutation in Hsub as [k Hk]. rewrite Hk in Hn. by apply NoDup_app in Hn as [? _].
  - rewrite En. apply submseteq_Permutation in Hsub as [k Hk]. rewrite Hk in Hb.
    by apply Forall_app in Hb as [? _].
Qed.

Lemma new_request p p' :
  requests_ok p → ids p' ≡ₚ next_reply p :: ids p → next_reply p' = S (next_reply p) →
  phase p' = phase p → flush_requested p' = flush_requested p →
  flush_waiters p' = flush_waiters p → (phase p = Gone → control p' = []) →
  requests_ok p'.
Proof.
  intros [Hn Hb Hi _] Hids En Eph Ef Ew Hg. unfold idle in Hi.
  split; unfold idle; rewrite ?Eph, ?Ef, ?Ew, ?En, ?Hids; auto.
  - constructor; [|done]. intros Hin. rewrite Forall_forall in Hb. specialize (Hb _ Hin). lia.
  - constructor; [lia|]. eapply Forall_impl; [exact Hb|]. simpl. lia.
Qed.

Lemma waiter_ids (ws : list nat) (r : OTelSdkResult) : ((fun w => (w, r)) <$> ws).*1 = ws.
Proof. rewrite <- list_fmap_compose. apply list_fmap_id. Qed.

Ltac move_ids Hok Ep :=
  apply (move_requests _ _ Hok); unfold idle; simpl; rewrite ?Ep;
  [unfold ids; simpl; rewrite ?Ep, ?fmap_app, ?waiter_ids; simpl|done
  |first [done | intros _; apply (ro_idle _ Hok); unfold idle; rewrite Ep;
    repeat match goal with H : (_ || _)%bool = false |- _ => apply orb_false_iff in H as [_ ->] end;
    done]|done].

Lemma worker_requests p i p' : requests_ok p → worker_step p i = Some p' → requests_ok p'.
Proof.
  intros Hok H. unfold worker_step in H.
  destruct (phase p) eqn:Ep; destruct i; try discriminate H;
    unfold run_worker_select, run_worker_drain, export_batch, export_batch_last, shutdown_worker,
      shutdown_expired, complete_flush_waiters in H; rewrite ?Ep in H; open_step H.
  all: move_ids Hok Ep;
    repeat match goal with E : control _ = _ |- _ => rewrite E; clear E; simpl end; solve_submseteq.
Qed.

(** The queue is closed once the shutdown was called, and only the call makes a
    shutdown request. *)
Record calls_ok p : Prop := mk_calls_ok {
  co_closed : call p ≠ NotCalled → accepting (state (queue p)) = false;
  co_control : Forall (fun c => match c with Shutdown _ => call p ≠ NotCalled | _ => True end) (control p);
  co_phase : request_of (phase p) ≠ None → call p ≠ NotCalled;
}.

Lemma worker_calls p i p' :
  worker_step p i = Some p' →
  call p' = call p ∧
  (control p' ⊆ control p ∧
   ∀ r, request_of (phase p') = Some r → request_of (phase p) = Some r ∨ Shutdown r ∈ control p).
Proof.
  intros H. unfold worker_step in H.
  destruct (phase p) eqn:Ep; destruct i; try discriminate H;
    unfold run_worker_select, run_worker_drain, export_batch, export_batch_last, shutdown_worker,
      shutdown_expired, complete_flush_waiters in H; rewrite ?Ep in H; open_step H; simpl; rewrite ?Ep;
    repeat match goal with E : control _ = _ |- _ => rewrite E; clear E; simpl end.
  all: split_and?; try done; try set_solver.
Qed.

Lemma atomic_calls p a p' :
  queue_ok (queue p) → calls_ok p → atomic_step is_sampled p a p' → calls_ok p'.
Proof.
  intros Hq [Hc Hm Hp] Hst.
  pose proof (proj1 (effect_latches _ _ (atomic_effect is_sampled _ _ _ Hq Hst))) as Hlatch.
  destruct Hst as [span| | |Hg|now timeout|r Ec|r m Ec Hr|i p' Hw| |].
  - unfold on_end in *. destruct (is_sampled span); split; simpl in *; auto.
  - unfold force_flush_check in *. destruct (is_accepting _); split; simpl in *; auto.
  - unfold force_flush_send in *. destruct (is_gone p); split; simpl in *; auto.
    by apply Forall_app_2; [|repeat constructor].
  - split; simpl in *; auto. by apply Forall_app_2; [|repeat constructor].
  - unfold shutdown_begin in *. pose proof (close_admission_effect (queue p)) as He.
    destruct (close_admission _) as [q b]; simpl in He.
    assert (accepting (state q) = false) as Ha by (destruct He as [[-> _]|[(_ & _ & -> & _) _]]; done).
    destruct b; split; simpl in *; auto.
    eapply Forall_impl; [exact Hm|]. by intros [].
  - unfold shutdown_send in *. destruct (is_gone p); split; simpl in *; auto.
    all: try (intros _; apply Hlatch, Hc; by rewrite Ec).
    all: try (eapply Forall_impl; [exact Hm|]; by intros []).
    apply Forall_app_2; [eapply Forall_impl; [exact Hm|]; by intros []|by repeat constructor].
  - destruct m; split; simpl in *; auto;
      try (intros _; apply Hlatch, Hc; by rewrite Ec); (eapply Forall_impl; [exact Hm|]; by intros []).
  - apply worker_calls in Hw as (Ec & Hsub & Hr). split; rewrite ?Ec; auto.
    + rewrite Forall_forall in Hm |- *. intros c Hin. specialize (Hm c (Hsub c Hin)). by destruct c; rewrite ?Ec.
    + destruct (request_of (phase p')) as [r|]; [intros _|done].
      destruct (Hr r eq_refl) as [E|Hin]; [apply Hp; congruence|]. rewrite Forall_forall in Hm. by apply (Hm _ Hin).
  - split; simpl in *; auto.
  - split; simpl in *; auto.
Qed.

Lemma drop_requests p : requests_ok p → requests_ok (drop_worker p).
Proof.
  intros Hok. apply (move_requests _ _ Hok); unfold ids; simpl; [|done..]. solve_submseteq.
Qed.

Lemma is_gone_spec p : is_gone p = true ↔ phase p = Gone.
Proof. unfold is_gone. by destruct (phase p). Qed.

Lemma atomic_requests p a p' :
  queue_ok (queue p) → calls_ok p → requests_ok p → atomic_step is_sampled p a p' → requests_ok p'.
Proof.
  intros Hq Hcalls Hok. destruct 1 as [span| | |Hg|now timeout|r Hc|r m Hc Hm|i p' Hw| |].
  - unfold on_end. by destruct (is_sampled span), Hok.
  - unfold force_flush_check. by destruct (is_accepting _), Hok.
  - unfold force_flush_send. destruct (is_gone p) eqn:Eg.
    + destruct Hok as [Hn Hb Hi Hg]. split; simpl; auto. eapply Forall_impl; [exact Hb|]. simpl. lia.
    + apply (new_request _ _ Hok); simpl; try done.
      * unfold ids; simpl. rewrite bind_app; simpl. solve_Permutation.
      * intros Hp%is_gone_spec. congruence.
  - apply (move_requests _ _ Hok); simpl; [|done|apply Hok|done].
    unfold ids; simpl. by rewrite bind_app, app_nil_r.
  - unfold shutdown_begin. pose proof (close_admission_effect (queue p)) as He.
    destruct (close_admission _) as [q []]; [|by destruct Hok]. simpl in He.
    assert (call p = NotCalled) as Ec.
    { destruct He as [[_ E]|[_ E]]; [|done]. destruct (call p) eqn:Ec; [done|..];
        rewrite (co_closed _ Hcalls) in E; congruence. }
    apply (new_request _ _ Hok); simpl; try done; [|apply Hok].
    unfold ids; simpl. rewrite Ec; simpl. solve_Permutation.
  - unfold shutdown_send. destruct (is_gone p) eqn:Eg.
    + apply (move_requests _ _ Hok); simpl; try done; [|apply Hok..].
      unfold ids; simpl. rewrite Hc. solve_submseteq.
    + apply (move_requests _ _ Hok); simpl; try done; [|apply Hok|].
      * unfold ids; simpl. rewrite Hc, bind_app; simpl. solve_submseteq.
      * intros Hp%is_gone_spec. congruence.
  - destruct m; (apply (move_requests _ _ Hok); simpl; try done; [|apply Hok..]);
      unfold ids; simpl; rewrite Hc; done.
  - by eapply worker_requests.
  - by apply drop_requests.
  - by destruct Hok.
Qed.

(** ** All invariants together *)

Record processor_ok (base : option nat) p : Prop := mk_processor_ok {
  po_spans : spans_ok base p;
  po_calls : calls_ok p;
  po_requests : requests_ok p;
}.

Lemma atomic_ok base p a p' :
  processor_ok base p → atomic_step is_sampled p a p' → processor_ok base p'.
Proof.
  intros [Hs Hc Hr] Hst. pose proof (so_queue _ _ Hs).
  split; eauto using atomic_spans, atomic_calls, atomic_requests.
Qed.

Lemma recover_ok base p : processor_ok base p → processor_ok base (recover p).
Proof. eauto using atomic_ok, recover_step. Qed.

Lemma lost_ok base p q :
  processor_ok base p → closed q → capacity q = capacity (queue p) →
  processor_ok None (set_queue p q).
Proof.
  intros [Hs Hc Hr] Hq Ec. split; [by eapply lost_spans| |by destruct Hr].
  destruct Hq as (_ & _ & Ea & _), Hc. by split.
Qed.

Lemma weaken_ok base p : processor_ok base p → processor_ok None p.
Proof. intros [[] Hc Hr]. by split; [split| |]. Qed.

Lemma new_ok settings m : processor_ok (Some (total_dropped m)) (new_processor settings m).
Proof.
  split; [apply new_spans|split; simpl; [done|constructor|done]|].
  split; unfold ids; simpl; try done; constructor.
Qed.

Lemma atomic_settings p a p' :
  queue_ok (queue p) → atomic_step is_sampled p a p' → settings p' = settings p.
Proof. intros Hok Hst. by destruct (atomic_effect is_sampled p a p' Hok Hst). Qed.

(** The invariants hold in every run, for the processor once the queue is locked. *)
Lemma run_ok p0 l p :
  processor_ok None (recover p0) → steps is_sampled p0 l p →
  processor_ok None (recover p) ∧ settings p = settings p0.
Proof.
  intros H0 Hst.
  apply (steps_inv is_sampled (fun _ p => processor_ok None p ∧ settings p = settings p0) p0 l p) in Hst;
    [done| |by intros ? p1 q ? ? [? ?] ? ?; split; [eapply lost_ok|]|done].
  intros _ p1 a p2 [Hok <-] H. split; [eauto using recover_ok, atomic_ok|].
  exact (atomic_settings _ _ _ (so_queue _ _ (po_spans _ _ Hok)) H).
Qed.

Lemma reachable_ok settings m l p :
  steps is_sampled (new_processor settings m) l p →
  processor_ok None (recover p) ∧ Batch.settings p = settings.
Proof. apply run_ok. eapply recover_ok, weaken_ok, new_ok. Qed.
End Proofs.
End BatchRequests.
