(* ===== verification/BatchTheorems.v ===== *)
(** * Properties of the batch processor *)

From S2P Require Import Prelude SpanQueue BatchProcessor BatchProofs BatchRequests.
Local Open Scope list_scope.

Module BatchTheorems.
Import SpanQueue SpanQueueProofs Batch BatchProofs BatchRequests.

(** ** What an acknowledgement means *)

Section Acknowledged.
Context {SpanData : Type} (is_sampled : SpanData → bool).
Implicit Types p : Processor SpanData.

(** The request [w], and the spans it is about. *)
Context (w : nat) (spans : list SpanData).

Definition failed_of (ph : Phase SpanData) : bool :=
  match ph with
  | Draining f | Taking f | Completing f | Exporting f _ _ | LastExport f _ _ _ | ShutdownLoop _ f
  | ShutdownClock _ f | ShutdownTaking _ f _ | ShutdownExport _ f _ _ | ShutdownEnd _ f => f
  | Expired _ => true
  | _ => false
  end.

(** The round is over. *)
Definition emptied (ph : Phase SpanData) : bool :=
  match ph with Completing _ | ShutdownEnd _ _ => true | _ => false end.

(** The spans the worker has seen to, or will in this round. *)
Definition covered p : list SpanData :=
  if emptied (phase p) then delivered p
  else delivered p ++ batch_of (phase p) ++ pending (state (queue p)).

Definition held p : Prop :=
  w ∈ flush_waiters p ∨ ∃ r, request_of (phase p) = Some r ∧ reply r = w.

Definition on_course p : Prop :=
  failed_of (phase p) = true ∨ stopped (state (queue p)) = true ∨ spans `prefix_of` covered p.

Record ack_ok p : Prop := mk_ack_ok {
  ack_known : (w < next_reply p)%nat;
  ack_control : w ∉ control p ≫= control_ids;
  ack_call : w ∉ call_ids (call p);
  ack_replied : (w, Ok tt) ∈ replies p → spans `prefix_of` delivered p;
  ack_held : held p → on_course p;
}.

(** A step that moves no span, or adds one. *)
Lemma quiet_course p p' :
  failed_of (phase p') = failed_of (phase p) → emptied (phase p') = emptied (phase p) →
  batch_of (phase p') = batch_of (phase p) → delivered p' = delivered p →
  quiet (queue p) (queue p') ∨ (∃ span, queue p' = push (queue p) span) →
  on_course p → on_course p'.
Proof.
  intros Ef Ee Eb Ed Hq. unfold on_course, covered. rewrite Ef, Ee, Eb, Ed.
  intros [?|Hon]; [by left|right].
  assert (stopped (state (queue p')) = true ∨
          (stopped (state (queue p)) = stopped (state (queue p')) ∧
           ∃ k, pending (state (queue p')) = pending (state (queue p)) ++ k)) as [?|[Es [k Ek]]].
  { destruct Hq as [[_ _ [(_ & _ & _ & ?)|(E1 & _ & E2 & _)]]|[span ->]].
    - by left.
    - right. split; [done|]. exists []. by rewrite app_nil_r.
    - destruct (push_effect (queue p) span) as [->|[(_ & _ & _ & ?)|(_ & _ & ->)]]; [|by left|right; eauto].
      right. split; [done|]. exists []. by rewrite app_nil_r. }
  { by left. }
  rewrite <- Es. destruct Hon as [?|Hpre]; [by left|right]. rewrite Ek.
  destruct (emptied (phase p)); [done|]. rewrite !app_assoc in *. by apply prefix_app_r.
Qed.

(** A batch is taken, or there is none. *)
Lemma take_course base p q batch ph :
  spans_ok base p → (0 < max_export_batch_size (settings p))%nat →
  take_batch (queue p) (max_export_batch_size (settings p)) = (q, batch) →
  batch_of (phase p) = [] → emptied (phase p) = false → failed_of ph = failed_of (phase p) →
  batch_of ph = batch → emptied ph = bool_decide (batch = []) →
  on_course p → on_course (set_phase (set_queue p q) ph).
Proof.
  intros Hok Hmax Et Eb Ee Ef Eb' Ee'.
  pose proof (effect_latches _ _ (take_effect p q batch ph Eb Et Eb')) as [_ Hl].
  unfold on_course, covered; simpl. rewrite Ef, Eb', Ee', Ee, Eb.
  intros [?|[?|Hpre]]; [by left|right; left; apply Hl; [apply Hok|done]|right].
  destruct (take_takes _ _ _ _ Hok Hmax Et) as [?|[Ep Hn]]; [by left|right]. simpl in Hpre.
  rewrite Ep in Hpre. case_bool_decide; [|done]. by rewrite Hn, app_nil_r, H, app_nil_r in Hpre.
Qed.

(** A batch is finished, with success or not. *)
Lemma finish_course base p failure ph :
  spans_ok base p → emptied (phase p) = false → emptied ph = false → batch_of ph = [] →
  failed_of ph = failed_of (phase p) || bool_decide (is_Some failure) →
  on_course p → on_course (set_phase (finish p (batch_of (phase p)) failure) ph).
Proof.
  intros Hok Ee Ee' Eb' Ef.
  pose proof (effect_latches _ _ (finish_effect p _ failure ph eq_refl Eb')) as [_ Hl].
  unfold on_course, covered; rewrite Ee; simpl; rewrite Ee', Ef, Eb'.
  destruct failure as [reason|]; [left; by rewrite orb_true_r|].
  intros [->|[?|Hpre]]; [by left|right; left; apply Hl; [apply Hok|done]|right].
  destruct (finish_delivers _ _ Hok) as [?|[Ed Ep]]; [by left|right].
  simpl in Ed, Ep |- *. rewrite Ed, Ep. by rewrite <- app_assoc.
Qed.

Lemma acked_app p rs :
  (w, Ok tt) ∈ replies (add_replies p rs) → (w, Ok tt) ∈ replies p ∨ (w, Ok tt) ∈ rs.
Proof. simpl. by intros [|]%elem_of_app; auto. Qed.

Lemma acked_waiters p failed :
  (w, Ok tt) ∈ replies (complete_flush_waiters p failed) →
  (w, Ok tt) ∈ replies p ∨ (w ∈ flush_waiters p ∧ failed = false).
Proof.
  intros [?|(x & [= -> Hx] & ?)%list_elem_of_fmap]%acked_app; [by left|right].
  split; [done|]. by destruct failed.
Qed.

Lemma outcome_ok failed : Ok tt = outcome failed → failed = false.
Proof. by destruct failed. Qed.

(** The parts of the invariant that a step of the worker has to show. *)
Definition acks p p' : Prop :=
  ((w, Ok tt) ∈ replies p' → (w, Ok tt) ∈ replies p ∨ spans `prefix_of` delivered p') ∧
  delivered p `prefix_of` delivered p' ∧ (held p' → on_course p').

Lemma select_acks p i p' :
  requests_ok p → ack_ok p → phase p = Selecting → run_worker_select p i = Some p' → acks p p'.
Proof.
  intros Hr Ha Ep H. assert (flush_waiters p = []) as Ew by (apply Hr; unfold idle; by rewrite Ep).
  pose proof (ack_control _ Ha) as Hc.
  unfold run_worker_select in H. open_step H; repeat split; unfold held; simpl; rewrite ?Ew; simpl;
    rewrite ?app_nil_r; auto; try (intros [?%not_elem_of_nil|(r & [=] & _)]; done).
  - intros [->%list_elem_of_singleton|(r & [=] & _)]. simpl in Hc. set_solver.
  - intros [?%not_elem_of_nil|(r & [= ->] & Er)]; [done|]. simpl in Hc. set_solver.
Qed.

(** A queue whose flag was read. *)
Lemma read_stopped p q b :
  queue_ok (queue p) → is_stopped (queue p) = (q, b) →
  b = stopped (state q) ∧ quiet (queue p) q.
Proof.
  intros Hok E. pose proof (is_stopped_effect (queue p)) as [_ E2].
  pose proof (quiet_is_stopped (queue p)) as Hq. by rewrite E in E2, Hq.
Qed.

Lemma quiet_stopped (q q' : Queue SpanData) :
  quiet q q' → stopped (state q) = true → stopped (state q') = true.
Proof. intros [_ _ [(_ & _ & _ & ?)|(_ & _ & ? & _)]]; congruence. Qed.

Lemma expired_acks p r : acks p (shutdown_expired p r).
Proof.
  repeat split; [|done|unfold held; simpl; by intros [?%not_elem_of_nil|(r' & [=] & _)]].
  intros [[?|[=]%list_elem_of_singleton]%acked_app|[_ ?]]%acked_waiters; auto. done.
Qed.

Lemma drain_acks base p now p' :
  spans_ok base p → requests_ok p → ack_ok p → (0 < max_export_batch_size (settings p))%nat →
  run_worker_drain p now = Some p' → acks p p'.
Proof.
  intros Hs Hr Ha Hmax H. pose proof (so_queue _ _ Hs) as Hq. pose proof (ack_held _ Ha) as Hh.
  unfold run_worker_drain in H. destruct (phase p) eqn:Ep; try discriminate H.
  - pose proof (quiet_len (queue p)) as Hl. unfold batch_due in H. destruct (len _) as [q n].
    injection H as <-. repeat split; unfold held; simpl; auto.
    intros [Hw|(r & E & _)]; [|by destruct ((_ <=? _)%nat || _)].
    assert (flush_requested p = true) as Ef.
    { destruct (flush_requested p) eqn:Ef; [done|]. rewrite (ro_idle _ Hr) in Hw by (unfold idle; by rewrite Ep, Ef).
      by apply not_elem_of_nil in Hw. }
    rewrite Ef, orb_true_r. apply (quiet_course p); simpl; rewrite ?Ep; auto. apply Hh. by left.
  - destruct (is_stopped _) as [q b] eqn:E. apply read_stopped in E as [Eb Hl]; [|done].
    injection H as <-. destruct b; simpl.
    + repeat split; unfold held; [|done|simpl]. { by intros [?|[_ ?]]%acked_waiters; auto. }
      by intros [?%not_elem_of_nil|(r & [=] & _)].
    + repeat split; unfold held; simpl; auto. intros [?|(r & [=] & _)].
      apply (quiet_course p); simpl; rewrite ?Ep; auto. apply Hh. by left.
  - destruct (take_batch _ _) as [q batch] eqn:E. injection H as <-.
    repeat split; unfold held; simpl; auto. intros Hw.
    eapply take_course; rewrite ?Ep; try done; try (by destruct batch).
    apply Hh. destruct Hw as [?|(r & Er & _)]; [by left|by destruct batch].
  - destruct (if failed then _ else _) as [q b] eqn:E. injection H as <-.
    repeat split; [|done|unfold held; simpl; by intros [?%not_elem_of_nil|(r & [=] & _)]].
    intros [?|[Hw ->]]%acked_waiters; [by left|right]. destruct failed; [congruence|].
    apply read_stopped in E as [Eb Hl]; [|done]. simpl. destruct (Hh (or_introl Hw)) as [Ho|[Ho|Ho]].
    + by rewrite Ep in Ho.
    + apply (quiet_stopped _ _ Hl) in Ho. congruence.
    + unfold covered in Ho. by rewrite Ep in Ho.
  - injection H as <-. apply expired_acks.
Qed.

Lemma finish_prefix p batch failure : delivered p `prefix_of` delivered (finish p batch failure).
Proof. simpl. destruct (_ && _); [by apply prefix_app_r|done]. Qed.

Lemma finish_acks base p failure ph :
  spans_ok base p → ack_ok p → emptied (phase p) = false → emptied ph = false → batch_of ph = [] →
  failed_of ph = failed_of (phase p) || bool_decide (is_Some failure) →
  request_of ph = request_of (phase p) →
  acks p (set_phase (finish p (batch_of (phase p)) failure) ph).
Proof.
  intros Hs Ha Ee Ee' Eb Ef Er. repeat split; [by left|apply finish_prefix|].
  intros Hw. eapply finish_course; try done. apply (ack_held _ Ha). unfold held in Hw |- *.
  simpl in Hw. by rewrite Er in Hw.
Qed.

Ltac finish_step Hs Ha Ep :=
  lazymatch goal with |- acks _ (set_phase (finish _ _ _) _) => idtac end;
  try match goal with |- context [export_failure ?ok] => destruct ok end;
  apply (finish_acks _ _ _ _ Hs Ha); rewrite ?Ep; simpl; rewrite ?orb_false_r, ?orb_true_r;
  reflexivity.

Lemma export_acks base p failed b d i p' :
  spans_ok base p → ack_ok p → phase p = Exporting failed b d →
  export_batch p failed b d i = Some p' → acks p p'.
Proof.
  intros Hs Ha Ep H. replace b with (batch_of (phase p)) in H by by rewrite Ep.
  pose proof (ack_control _ Ha) as Hc. pose proof (ack_held _ Ha) as Hh.
  unfold export_batch in H. open_step H; try finish_step Hs Ha Ep.
  all: split; [by left|split; [reflexivity|]]; intros Hw; apply (quiet_course p); simpl; rewrite ?Ep; auto using quiet_refl.
  all: apply Hh; unfold held in *; simpl in Hw, Hc; left.
  - destruct Hw as [Hw|(r & Er & _)]; [|by rewrite Ep in Er].
    apply elem_of_app in Hw as [?|?%list_elem_of_singleton]; [done|set_solver].
  - destruct Hw as [?|(r & [= <-] & <-)]; [done|set_solver].
Qed.

Lemma export_last_acks base p failed b d r i p' :
  spans_ok base p → ack_ok p → phase p = LastExport failed b d r →
  export_batch_last p failed b d r i = Some p' → acks p p'.
Proof.
  intros Hs Ha Ep H. replace b with (batch_of (phase p)) in H by by rewrite Ep.
  unfold export_batch_last in H. open_step H; finish_step Hs Ha Ep.
Qed.

Lemma shutdown_acks base p i p' :
  spans_ok base p → ack_ok p → (0 < max_export_batch_size (settings p))%nat →
  shutdown_worker p i = Some p' → acks p p'.
Proof.
  intros Hs Ha Hmax H. pose proof (so_queue _ _ Hs) as Hq. pose proof (ack_held _ Ha) as Hh.
  unfold shutdown_worker in H. destruct (phase p) eqn:Ep; try discriminate H; destruct i; try discriminate H.
  - destruct (is_stopped _) as [q b] eqn:E. apply read_stopped in E as [Eb Hl]; [|done].
    injection H as <-. split; [by left|split; [reflexivity|]]. unfold held; simpl. destruct b; [by left|].
    intros Hw. apply (quiet_course p); simpl; rewrite ?Ep; auto.
    apply Hh. unfold held. by rewrite Ep.
  - injection H as <-. destruct (_ <=? _)%Z; [apply expired_acks|].
    split; [by left|split; [reflexivity|]]. unfold held; simpl. intros Hw.
    apply (quiet_course p); simpl; rewrite ?Ep; auto using quiet_refl.
    apply Hh. unfold held. by rewrite Ep.
  - destruct (take_batch _ _) as [q batch] eqn:E. injection H as <-.
    split; [by left|split; [reflexivity|]]. unfold held; simpl. intros Hw.
    eapply take_course; rewrite ?Ep; try done; try (by destruct batch).
    apply Hh. destruct Hw as [?|(r' & Er & Ew)]; [by left|right]. exists r'. rewrite Ep. by destruct batch.
  - replace batch with (batch_of (phase p)) in H by by rewrite Ep. injection H as <-. finish_step Hs Ha Ep.
  - replace batch with (batch_of (phase p)) in H by by rewrite Ep. injection H as <-.
    destruct (_ <=? _)%Z; [apply expired_acks|finish_step Hs Ha Ep].
  - destruct (if ok then _ else _) as [q b] eqn:E. injection H as <-.
    split; [|split; [reflexivity|unfold held; simpl; by intros [?%not_elem_of_nil|(r' & [=] & _)]]].
    intros Hw. assert ((w, Ok tt) ∈ replies p ∨ (failed || b = false ∧ held p)) as [?|[Ef Hheld]].
    { apply acked_waiters in Hw as [[?|[= Ew Eo]%list_elem_of_singleton]%acked_app|[Hw Eo]]; [by left| |].
      - right. split; [by apply outcome_ok|]. right. exists r. by rewrite Ep.
      - right. split; [done|by left]. }
    { by left. }
    right. apply orb_false_iff in Ef as [-> ->]. destruct ok; [|congruence].
    apply read_stopped in E as [Eb Hl]; [|done]. simpl. destruct (Hh Hheld) as [Ho|[Ho|Ho]].
    + by rewrite Ep in Ho.
    + apply (quiet_stopped _ _ Hl) in Ho. congruence.
    + unfold covered in Ho. by rewrite Ep in Ho.
Qed.

Lemma worker_acks base p i p' :
  spans_ok base p → requests_ok p → ack_ok p → (0 < max_export_batch_size (settings p))%nat →
  worker_step p i = Some p' → acks p p'.
Proof.
  intros Hs Hr Ha Hmax H. unfold worker_step in H.
  destruct (phase p) eqn:Ep; eauto using select_acks, export_acks, export_last_acks;
    destruct i; try discriminate H; eauto using shutdown_acks, drain_acks.
  injection H as <-. split; [by left|split; [reflexivity|]].
  unfold held; simpl. by intros [?%not_elem_of_nil|(r & [=] & _)].
Qed.

Lemma worker_constants p i p' :
  worker_step p i = Some p' → settings p' = settings p ∧ next_reply p' = next_reply p.
Proof.
  intros H. unfold worker_step in H.
  destruct (phase p) eqn:Ep; destruct i; try discriminate H;
    unfold run_worker_select, run_worker_drain, export_batch, export_batch_last, shutdown_worker,
      shutdown_expired, complete_flush_waiters in H; rewrite ?Ep in H; open_step H; done.
Qed.

Lemma atomic_ack base p a p' :
  processor_ok base p → (0 < max_export_batch_size (settings p))%nat → ack_ok p →
  atomic_step is_sampled p a p' → ack_ok p'.
Proof.
  intros [Hs Hcalls Hr] Hmax Ha Hst. pose proof (so_queue _ _ Hs) as Hq.
  pose proof Ha as [Hk Hc Hcl Hrep Hh].
  destruct Hst as [span| | |Hg|now timeout|r Ec|r m Ec Hm|i p' Hw| |].
  - unfold on_end. destruct (is_sampled span); [|done]. split; auto. intros Hw.
    apply (quiet_course p); simpl; eauto.
  - unfold force_flush_check. pose proof (quiet_is_accepting (queue p)) as Hl.
    destruct (is_accepting _). split; auto. intros Hw. apply (quiet_course p); simpl; auto.
  - unfold force_flush_send. destruct (is_gone p); split; simpl; auto with lia.
    rewrite bind_app; simpl. rewrite not_elem_of_app, list_elem_of_singleton. split; [done|lia].
  - split; simpl; auto. by rewrite bind_app, app_nil_r.
  - unfold shutdown_begin. pose proof (quiet_close_admission (queue p)) as Hl.
    destruct (close_admission _) as [q []]; split; simpl; auto;
      try (intros Hw; apply (quiet_course p); simpl; by auto).
    rewrite list_elem_of_singleton. lia.
  - rewrite Ec in Hcl. unfold shutdown_send. destruct (is_gone p); split; simpl; auto using not_elem_of_nil.
    + intros Hw. apply (quiet_course p); simpl; auto using quiet_stop.
    + rewrite bind_app; simpl. by rewrite not_elem_of_app.
  - destruct m; split; simpl; auto using not_elem_of_nil;
      intros Hw; apply (quiet_course p); simpl; auto using quiet_stop.
  - destruct (worker_acks _ _ _ _ Hs Hr Ha Hmax Hw) as (Hack & Hpre & Hh').
    pose proof (worker_constants _ _ _ Hw) as [_ En]. apply (worker_calls is_sampled) in Hw as (Ec & Hsub & _).
    split; rewrite ?En, ?Ec; auto.
    + rewrite list_elem_of_bind in Hc |- *. set_solver.
    + intros Hin. destruct (Hack Hin) as [?|?]; [|done]. etrans; [by apply Hrep|done].
  - split; simpl; auto using not_elem_of_nil. intros [?%not_elem_of_nil|(r & [=] & _)]; done.
  - by split; simpl; auto.
Qed.

(** A panic closed the queue. *)
Lemma lost_ack p q : closed q → ack_ok p → ack_ok (set_queue p q).
Proof.
  intros (_ & _ & _ & Est) [Hk Hc Hcl Hr _]. split; simpl; auto. intros _. right. by left.
Qed.

(** The worker has just received the request. *)
Lemma received_ack base p p' c :
  processor_ok base p → head (control p) = Some c → w ∈ control_ids c →
  worker_step p Control_ = Some p' →
  spans = delivered p ++ batch_of (phase p) ++ pending (state (queue p)) ∨
    stopped (state (queue p)) = true →
  ack_ok p'.
Proof.
  intros Hok Hc Hw H Es.
  destruct (control p) as [|c' cs] eqn:E; [done|]. injection Hc as ->.
  assert (w ∈ ids p) as Hin by (unfold ids; rewrite E; simpl; set_solver).
  destruct (po_requests _ _ Hok) as [Hn Hb _ _]. rewrite Forall_forall in Hb. specialize (Hb _ Hin).
  unfold ids in Hn. rewrite E in Hn; simpl in Hn. rewrite <- app_assoc in Hn. apply NoDup_app in Hn as (_ & Hn & _).
  specialize (Hn _ Hw). rewrite !not_elem_of_app in Hn. destruct Hn as (Hn1 & Hn2 & Hn3 & Hn4 & Hn5).
  assert ((w, Ok tt) ∉ replies p) as Hno.
  { intros Hr. apply Hn5. by apply (list_elem_of_fmap_2 fst) in Hr. }
  unfold worker_step in H. destruct (phase p) eqn:Ep; try discriminate H;
    unfold shutdown_worker in H; simpl in H; rewrite ?E, ?Ep in H; try discriminate H.
  all: destruct c; try (by apply not_elem_of_nil in Hw); injection H as <-; split; simpl; auto; try done.
  all: intros _; right; destruct Es as [->|?]; [right; unfold covered; simpl; by rewrite ?Ep|by left].
Qed.

Lemma recover_ack base p :
  processor_ok base p → (0 < max_export_batch_size (settings p))%nat → ack_ok p → ack_ok (recover p).
Proof. intros. eapply atomic_ack; eauto using recover_step. Qed.

Lemma steps_ack p0 l p :
  processor_ok None (recover p0) → (0 < max_export_batch_size (settings p0))%nat →
  ack_ok (recover p0) → steps is_sampled p0 l p → ack_ok (recover p).
Proof.
  intros Hok0 Hmax Ha0 Hst. apply (steps_inv is_sampled (fun _ p =>
    processor_ok None p ∧ settings p = settings p0 ∧ ack_ok p) p0 l p) in Hst; [by apply Hst| | |done].
  - intros _ p1 a p2 (Hok & Es & Ha) H. pose proof (so_queue _ _ (po_spans _ _ Hok)) as Hq.
    pose proof (atomic_settings _ _ _ _ Hq H) as Es2. pose proof (atomic_ok _ _ _ _ _ Hok H) as Hok2.
    split_and!; [by apply recover_ok|by rewrite <- Es, <- Es2|].
    eapply recover_ack; [done|by rewrite Es2, Es|]. apply (atomic_ack _ _ _ _ Hok) in H; [done|by rewrite Es|done].
  - intros _ p1 q ? ? (Hok & Es & Ha) Hq Ec. split_and!; [by eapply lost_ok|done|by apply lost_ack].
Qed.
End Acknowledged.

(** ** Shutdown comes to an end *)

Section Shutdown.
Context {SpanData : Type} (is_sampled : SpanData → bool).
Implicit Types p : Processor SpanData.

(** The steps of the worker that are left once it serves a shutdown. *)
Definition weight (ph : Phase SpanData) : option nat :=
  match ph with
  | LastExport _ _ _ _ | ShutdownExport _ _ _ _ => Some 6
  | ShutdownLoop _ _ => Some 5
  | ShutdownClock _ _ => Some 4
  | ShutdownTaking _ _ _ => Some 3
  | Expired _ | ShutdownEnd _ _ => Some 2
  | Returning => Some 1
  | Gone => Some 0
  | _ => None
  end.

Definition serving p : Prop := is_Some (weight (phase p)).

Definition steps_left p : nat :=
  4 * length (pending (state (queue p))) + default 0 (weight (phase p)).

Lemma quiet_pending (q q' : Queue SpanData) :
  quiet q q' → (length (pending (state q')) ≤ length (pending (state q)))%nat.
Proof. intros [_ _ [(-> & _)|(-> & _)]]; simpl; lia. Qed.

Lemma finish_pending (q : Queue SpanData) failure :
  (length (pending (state (finish_batch q failure))) ≤ length (pending (state q)))%nat.
Proof. destruct (finish_batch_effect q failure) as [(_ & ef & ->)|(-> & _)]; simpl; lia. Qed.

Lemma take_pending base p q batch :
  spans_ok base p → (0 < max_export_batch_size (settings p))%nat →
  take_batch (queue p) (max_export_batch_size (settings p)) = (q, batch) →
  (length (pending (state q)) + length batch ≤ length (pending (state (queue p))))%nat.
Proof.
  intros Hok Hmax Et.
  destruct (take_batch_effect (queue p) (max_export_batch_size (settings p)))
    as [[E Eb]|[(E & _) Eb]]; rewrite Et in *; simpl in *; rewrite E, Eb; simpl; [|lia].
  rewrite length_drop, length_take. lia.
Qed.

Lemma expired_pending p r :
  queue_ok (queue p) →
  (length (pending (state (queue (shutdown_expired p r)))) ≤ length (pending (state (queue p))))%nat.
Proof. intros Hq. apply quiet_pending. by apply quiet_stop. Qed.

(** The goal for one step, given what happened to the waiting spans. *)
Ltac left_over Ep H :=
  pose proof H; unfold serving, steps_left; rewrite Ep; simpl in *;
  split; [eexists; reflexivity|split; [lia|]];
  intros ? [= <-]; first [left; reflexivity | right; rewrite !fmap_app; set_solver].

Ltac finished Ep :=
  match goal with |- context [finish ?p _ ?f] => left_over Ep (finish_pending (queue p) f) end.

Lemma worker_progress base p i p' :
  spans_ok base p → (0 < max_export_batch_size (settings p))%nat → serving p →
  worker_step p i = Some p' →
  serving p' ∧ (steps_left p' < steps_left p)%nat ∧
  ∀ r, request_of (phase p) = Some r → request_of (phase p') = Some r ∨ reply r ∈ (replies p').*1.
Proof.
  intros Hok Hmax [k Hk] H. pose proof (so_queue _ _ Hok) as Hq.
  unfold worker_step in H. destruct (phase p) eqn:Ep; try discriminate Hk;
    destruct i; try discriminate H; unfold export_batch_last, shutdown_worker, run_worker_drain in H;
    rewrite ?Ep in H; try discriminate H.
  1-2: open_step H; finished Ep.
  all: try (injection H as <-; left_over Ep (expired_pending p r Hq)).
  - pose proof (quiet_is_stopped (queue p)) as Hl. destruct (is_stopped _) as [q []];
      injection H as <-; left_over Ep (quiet_pending _ _ Hl).
  - injection H as <-. destruct (_ <=? _)%Z; [left_over Ep (expired_pending p r Hq)|left_over Ep I].
  - destruct (take_batch _ _) as [q [|s b]] eqn:Et; injection H as <-;
      left_over Ep (take_pending _ _ _ _ Hok Hmax Et).
  - injection H as <-. finished Ep.
  - injection H as <-. destruct (_ <=? _)%Z; [left_over Ep (expired_pending p r Hq)|finished Ep].
  - pose proof (quiet_is_stopped (queue p)) as Hl.
    destruct ok; [destruct (is_stopped _) as [q b]|]; injection H as <-.
    + left_over Ep (quiet_pending _ _ Hl).
    + left_over Ep I.
  - injection H as <-. pose proof (quiet_pending _ _ (quiet_stop _ PROCESSOR_CLOSED Hq)).
    unfold serving, steps_left; rewrite Ep; simpl in *. split; [eexists; reflexivity|]. split; [lia|done].
Qed.

Lemma worker_can_step p : serving p → phase p ≠ Gone → ∃ i p', worker_step p i = Some p'.
Proof.
  intros [k Hk] Hg. unfold worker_step. destruct (phase p) eqn:Ep; try done.
  - exists (Exported true). eauto.
  - exists (Go 0). unfold run_worker_drain. rewrite Ep. eauto.
  - exists (Go 0). unfold shutdown_worker. rewrite Ep. destruct (is_stopped _). eauto.
  - exists (Go 0). unfold shutdown_worker. rewrite Ep. eauto.
  - exists (Go 0). unfold shutdown_worker. rewrite Ep. destruct (take_batch _ _). eauto.
  - exists (Exported true). unfold shutdown_worker. rewrite Ep. eauto.
  - exists (ExporterShutdown false). unfold shutdown_worker. rewrite Ep. eauto.
  - exists (Go 0). eauto.
Qed.

Definition is_worker (a : Action SpanData) : bool := match a with Worker _ => true | _ => false end.

Lemma worker_replies p i p' : worker_step p i = Some p' → replies p `prefix_of` replies p'.
Proof.
  intros H. unfold worker_step in H.
  destruct (phase p) eqn:Ep; destruct i; try discriminate H;
    unfold run_worker_select, run_worker_drain, export_batch, export_batch_last, shutdown_worker,
      shutdown_expired, complete_flush_waiters in H; rewrite ?Ep in H; open_step H; simpl;
    rewrite <- ?app_assoc; first [reflexivity | by apply prefix_app_r].
Qed.

(** What every step but those of the worker leaves as it is. *)
Lemma others_progress p a p' :
  queue_ok (queue p) → accepting (state (queue p)) = false → atomic_step is_sampled p a p' →
  is_worker a = false →
  (phase p' = phase p ∨ (a = WorkerDropped ∧ phase p' = Gone)) ∧ replies p' = replies p ∧
  (length (pending (state (queue p'))) ≤ length (pending (state (queue p))))%nat.
Proof.
  intros Hq Hacc Hst Hw. rewrite assoc by apply _. split.
  { destruct Hst as [span| | | | |r ?|r m ? ?| | |]; simpl; auto; try done.
    - unfold on_end. destruct (is_sampled span); auto.
    - unfold force_flush_check. destruct (is_accepting _); auto.
    - unfold force_flush_send. destruct (is_gone p); auto.
    - unfold shutdown_begin. destruct (close_admission _) as [? []]; auto.
    - unfold shutdown_send. destruct (is_gone p); auto.
    - destruct m; auto. }
  destruct (atomic_effect is_sampled p a p' Hq Hst) as [_ _ _ ?|span _ _ _ -> _|_ _ _ -> _ _|failure _ _ -> _ _].
  - by apply quiet_pending.
  - destruct (push_effect (queue p) span) as [->|[(-> & _)|(? & _)]]; [lia|simpl; lia|congruence].
  - destruct (take_batch_effect (queue p) (max_export_batch_size (settings p))) as [[-> _]|[(-> & _) _]];
      simpl; rewrite ?length_drop; lia.
  - apply finish_pending.
Qed.

Record ending (r : ShutdownRequest) (n : nat) (l : list (Action SpanData)) p : Prop := mk_ending {
  en_closed : accepting (state (queue p)) = false;
  en_serving : serving p;
  en_steps : (length (filter is_worker l) + steps_left p ≤ n)%nat;
  en_reply : WorkerDropped ∉ l →
             request_of (phase p) = Some r ∨ reply r ∈ (replies p).*1;
}.

Lemma atomic_ending base r n l p a p' :
  processor_ok base p → (0 < max_export_batch_size (settings p))%nat → ending r n l p →
  atomic_step is_sampled p a p' → ending r n (l ++ [a]) p'.
Proof.
  intros Hok Hmax [Hc Hs Hn Hr] Hst. pose proof (po_spans _ _ Hok) as Hsp.
  pose proof (so_queue _ _ Hsp) as Hq.
  pose proof (proj1 (effect_latches _ _ (atomic_effect is_sampled _ _ _ Hq Hst)) Hc) as Hc'.
  destruct (is_worker a) eqn:Ea.
  - inversion Hst as [| | | | | | |i p1 Hw| |]; subst; try discriminate Ea.
    destruct (worker_progress _ _ _ _ Hsp Hmax Hs Hw) as (Hs' & Hl & Hreq).
    split; [done|done| |].
    + rewrite filter_app, length_app. simpl. lia.
    + rewrite not_elem_of_app. intros [Hnd _]. destruct (Hr Hnd) as [?|Hin]; [by apply Hreq|right].
      destruct (worker_replies _ _ _ Hw) as [k ->]. rewrite fmap_app. by apply elem_of_app; left.
  - destruct (others_progress _ _ _ Hq Hc Hst Ea) as (Hph & Erep & Hl).
    split; [done| | |].
    + destruct Hph as [E|[_ E]]; unfold serving; rewrite E; [done|by eexists].
    + assert (filter is_worker [a] = []) as Ef by by destruct a.
      rewrite filter_app, Ef, app_nil_r.
      destruct Hph as [E|[_ E]]; unfold steps_left in *; rewrite E; simpl; lia.
    + rewrite not_elem_of_app, list_elem_of_singleton. intros [Hnd Hna]. rewrite Erep.
      destruct Hph as [->|[-> _]]; [by apply Hr|done].
Qed.

(** Another queue, with no more spans and as closed. *)
Lemma queue_ending r n l p q :
  accepting (state q) = false → (length (pending (state q)) ≤ length (pending (state (queue p))))%nat →
  ending r n l p → ending r n l (set_queue p q).
Proof. intros Hq Hl [Hc Hs Hn Hr]. split; auto. unfold steps_left in *; simpl. lia. Qed.

Lemma recover_ending r n l p : ending r n l p → ending r n l (recover p).
Proof.
  intros He. apply queue_ending; [|apply quiet_pending, quiet_lock|done].
  destruct (lock_effect (queue p)) as [->|(_ & _ & ? & _)]; [apply He|done].
Qed.

Lemma lost_ending r n l p q s m :
  closed q → ending r n l p → ending r n (l ++ [PanicWithin s m]) (set_queue p q).
Proof.
  intros (Ep & _ & Ea & _) He.
  assert (ending r n (l ++ [PanicWithin s m]) p) as He'.
  { destruct He as [Hc Hs Hn Hr]. split; try done.
    - by rewrite filter_app, app_nil_r.
    - rewrite not_elem_of_app. intros [? _]. auto. }
  apply queue_ending; [done|rewrite Ep; simpl; lia|done].
Qed.

Lemma steps_ending r p0 l p :
  processor_ok None (recover p0) → (0 < max_export_batch_size (settings p0))%nat →
  request_of (phase p0) = Some r → steps is_sampled p0 l p →
  ending r (steps_left (recover p0)) l (recover p).
Proof.
  intros Hok Hmax Hr Hst.
  apply (steps_inv is_sampled (fun l p => processor_ok None p ∧ settings p = settings p0 ∧
    ending r (steps_left (recover p0)) l p) p0 l p) in Hst; [by apply Hst| | |split_and!; [done..|]].
  - intros l' p1 a p2 (Hok1 & Es & He) H. pose proof (so_queue _ _ (po_spans _ _ Hok1)) as Hq.
    split_and!; [by eapply recover_ok, atomic_ok| |].
    + by rewrite <- Es, <- (atomic_settings _ _ _ _ Hq H).
    + eapply recover_ending, atomic_ending; try done. by rewrite Es.
  - intros l' p1 q s m (Hok1 & Es & He) Hq Ec. split_and!; [by eapply lost_ok|done|by apply lost_ending].
  - split; simpl; auto with lia.
    + apply (po_calls _ _ Hok), (po_calls _ _ Hok). simpl. congruence.
    + unfold serving; simpl. by destruct (phase p0); try done; eexists.
Qed.
End Shutdown.

(** ** What a panic leaves *)

Section Panics.
Context {SpanData : Type} (is_sampled : SpanData → bool).
Implicit Types p : Processor SpanData.

Definition is_panic (a : Action SpanData) : bool :=
  match a with PanicWhileLocked | PanicWithin _ _ => true | _ => false end.

Lemma closed_stays p a p' :
  queue_ok (queue p) → closed (queue p) → atomic_step is_sampled p a p' →
  queue_ok (queue p') → closed (queue p') ∧ delivered p' = delivered p.
Proof.
  intros Hq (Ep & Ef & Ea & Es) Hst Hq'. pose proof (atomic_effect is_sampled _ _ _ Hq Hst) as He.
  destruct (effect_latches _ _ He) as [_ Hs]. specialize (Hs Hq Es).
  split. { destruct (ok_stopped _ Hq' Hs) as (? & ? & ?). by repeat split. }
  destruct He as [| | |failure _ _ _ -> _]; try done. simpl. by rewrite Ef, andb_false_r.
Qed.

(** What is left once a thread panicked. *)
Lemma panic_closes p0 l p :
  processor_ok None (recover p0) → closed (queue (recover p0)) ∨ existsb is_panic l = true →
  steps is_sampled p0 l p →
  closed (queue (recover p)) ∧ (closed (queue (recover p0)) → delivered p = delivered p0).
Proof.
  intros Hok Hp Hst. apply (steps_inv is_sampled (fun l p => processor_ok None p ∧
    (closed (queue (recover p0)) ∨ existsb is_panic l = true → closed (queue p)) ∧
    (closed (queue (recover p0)) → delivered p = delivered p0)) p0 l p) in Hst.
  - destruct Hst as (_ & ? & ?). auto.
  - intros l' p1 a p2 (Hok1 & Hcl & Hd) H. pose proof (atomic_ok _ _ _ _ _ Hok1 H) as Hok2.
    pose proof (so_queue _ _ (po_spans _ _ Hok1)) as Hq1. pose proof (so_queue _ _ (po_spans _ _ Hok2)) as Hq2.
    assert (closed (queue p1) → closed (queue (recover p2)) ∧ delivered p2 = delivered p1) as Hstay.
    { intros Hc1. destruct (closed_stays _ _ _ Hq1 Hc1 H Hq2) as [Hc2 ?]. split; [|done].
      by destruct (closed_stays _ _ _ Hq2 Hc2 (recover_step is_sampled p2)
        (so_queue _ _ (po_spans _ _ (recover_ok is_sampled _ _ Hok2)))). }
    split_and!; [by apply recover_ok| |].
    + rewrite existsb_app, orb_true_iff. intros [?|[?|Hpa]]; [by apply Hstay; auto..|].
      destruct H; try discriminate Hpa. by apply lock_closed.
    + intros Hc0. simpl. rewrite (proj2 (Hstay (Hcl (or_introl Hc0)))). auto.
  - intros l' p1 q s m (Hok1 & Hcl & Hd) Hq Ec. split_and!; [by eapply lost_ok|done|done].
  - split_and!; [done| |done]. by intros [?|[=]].
Qed.
End Panics.

(** ** Runs that are given by their actions *)

Section Runs.
Context {SpanData : Type} (is_sampled : SpanData → bool).

Definition act (p : Processor SpanData) (a : Action SpanData) : option (Processor SpanData) :=
  match a with
  | OnEnd span => Some (on_end is_sampled p span)
  | FlushSend => Some (force_flush_send p).1
  | ShutdownBegin now timeout => Some (shutdown_begin p now timeout).1
  | ShutdownSend => match call p with AdmissionClosed r => Some (shutdown_send p r) | _ => None end
  | Worker i => worker_step p i
  | PanicWhileLocked =>
      if poisoned (queue p) then None else Some (set_queue p (panic_while_locked (queue p)))
  | PanicWithin s m => Some (set_queue p (panic_within (queue p) s m))
  | _ => None
  end.

Definition act_all (p : Processor SpanData) (l : list (Action SpanData)) : option (Processor SpanData) :=
  foldl (fun o a => p ← o; act p a) (Some p) l.

Lemma act_step p a p' : act p a = Some p' → step is_sampled p a p'.
Proof.
  destruct a; simpl; intros H; try discriminate H;
    try (case_hyp H; try discriminate H); try (injection H as <-);
    first [by apply step_atomic; constructor | apply step_panic_within].
Qed.

Lemma act_all_steps p l p' : act_all p l = Some p' → steps is_sampled p l p'.
Proof.
  unfold act_all. revert p'. induction l as [|a l IH] using rev_ind; intros p' H.
  - injection H as <-. constructor.
  - rewrite foldl_app in H. simpl in H. destruct (foldl _ _ l) as [p1|]; [|discriminate H].
    econstructor; [by apply IH|by apply act_step].
Qed.
End Runs.

(** Room for two waiting spans, and batches of two. *)
Definition example_settings : BatchSettings := mkBatchSettings "grpc" 2 2 5 30.
Definition example_new : Processor nat := new_processor example_settings new_metrics.
Definition sampled (_ : nat) : bool := true.

(** ** The properties *)

Lemma NoDup_ids {SpanData} (p : Processor SpanData) : requests_ok p → NoDup (replies p).*1.
Proof. intros [Hn _ _ _]. unfold ids in Hn. rewrite !NoDup_app in Hn. apply Hn. Qed.

(** C15. Every span is accounted for, whatever the threads, the worker and the
    exporter do, as long as no thread panics in the middle of an update under
    the queue's mutex (a panic after a complete one does no harm): the spans
    that ended and were sampled are those counted as lost, those delivered,
    those waiting and those with the exporter.  In every run, also after a panic
    that left anything under the mutex and in the counters, what the next user
    of the queue finds keeps the bounds of the queue and of the batch, spans are
    delivered in order and once, and a queue that was stopped holds nothing and
    takes nothing; and once a thread has panicked with the mutex the queue is
    found stopped for good, and nothing more counts as delivered. *)
Theorem span_accounting {SpanData} (is_sampled : SpanData → bool) s m l p :
  steps is_sampled (new_processor s m) l p →
  let q := (lock_state (queue p)).1 in
  (forallb is_complete l = true →
   total_dropped (metrics q) + length (delivered p) + length (pending (state q))
     + in_flight (state q) = total_dropped m + length (offered p)) ∧
  (length (pending (state q)) ≤ max_queue_size s)%nat ∧
  (in_flight (state q) ≤ max_export_batch_size s)%nat ∧
  delivered p `sublist_of` offered p ∧
  (stopped (state q) = true →
   pending (state q) = [] ∧ in_flight (state q) = 0 ∧ accepting (state q) = false) ∧
  (existsb is_panic l = true →
   stopped (state q) = true ∧
   ∀ l' p', steps is_sampled p l' p' →
     stopped (state (lock_state (queue p')).1) = true ∧ delivered p' = delivered p).
Proof.
  intros H. cbv zeta. destruct (reachable_ok _ _ _ _ _ H) as [Hok Es].
  destruct (reachable_spans _ _ _ _ _ H) as [[Hc Hs] Ec Ha Hf Hb Hd _]. simpl in *. rewrite Es in *.
  unfold accounted in Ha. split_and!; try done.
  - intros El. rewrite El in Ha. specialize (Ha _ eq_refl). lia.
  - lia.
  - destruct (stopped _); [destruct (Hs eq_refl) as (_ & -> & _); lia|by rewrite Hf].
  - intros Hp. destruct (panic_closes _ _ _ _ (recover_ok is_sampled _ _ (weaken_ok _ _ (new_ok s m)))
      (or_intror Hp) H) as [Hcl _].
    split; [apply Hcl|]. intros l' p' H'.
    destruct (panic_closes _ _ _ _ Hok (or_introl Hcl) H') as [(_ & _ & _ & ?) Hd']. auto.
Qed.

(** The queue is full for the third span, the panic costs the batch and the span
    that waits, and the closed queue refuses the fifth.  A later panic leaves a
    stopped queue that holds spans nobody offered. *)
Definition panic_run : list (Action nat) :=
  [OnEnd 1; OnEnd 2; OnEnd 3; Worker Woken; Worker (Go 0); Worker (Go 0); Worker (Go 0);
   OnEnd 4; PanicWhileLocked; OnEnd 5].
Definition torn_run : list (Action nat) :=
  [PanicWithin (mkQueueState [7; 8; 9] 4 true true false) new_metrics; Worker (Exported true); OnEnd 6].

Lemma span_accounting_witness :
  ∃ p p', steps sampled example_new panic_run p ∧ steps sampled p torn_run p' ∧
    total_dropped (metrics (queue p)) = 5 ∧
    5 + length (delivered p) + 0 + 0 = 0 + length (offered p) ∧ delivered p' = delivered p.
Proof.
  assert (is_Some (act_all sampled example_new panic_run)) as [p E] by (vm_compute; eauto).
  pose proof (act_all_steps _ _ _ _ E) as H.
  pose proof (span_accounting _ _ _ _ _ H) as (Ha & _ & _ & _ & _ & Hp).
  assert (is_Some (act_all sampled p torn_run)) as [p' E'].
  { vm_compute in E. injection E as <-. vm_compute. eauto. }
  pose proof (act_all_steps _ _ _ _ E') as H'.
  exists p, p'. split_and!; [exact H|exact H'| | |exact (proj2 (proj2 (Hp eq_refl) _ _ H'))].
  - vm_compute in E. injection E as <-. reflexivity.
  - specialize (Ha eq_refl). vm_compute in E. injection E as <-. exact Ha.
Defined.

(** C16. An acknowledgement is true: when the worker answers [Ok] to a flush or a
    shutdown, every span that was waiting or with the exporter when the worker
    received the request has been delivered. *)
Theorem acknowledged_delivered {SpanData} (is_sampled : SpanData → bool) s m l0 p0 c w p1 l p :
  (0 < max_export_batch_size s)%nat →
  steps is_sampled (new_processor s m) l0 p0 →
  head (control p0) = Some c → w ∈ control_ids c → worker_step p0 Control_ = Some p1 →
  steps is_sampled p1 l p → (w, Ok tt) ∈ replies p →
  delivered p0 ++ batch_of (phase p0) ++ pending (state (queue p0)) `prefix_of` delivered p.
Proof.
  intros Hmax H0 Hc Hw Hrecv Hst. destruct (reachable_ok _ _ _ _ _ H0) as [Hok0 Es0].
  destruct (recover_worker p0 Control_ p1 Hrecv) as (p1' & Hrecv' & E1).
  pose proof (atomic_ok is_sampled _ _ _ _ Hok0 (atomic_worker _ _ _ _ Hrecv')) as Hok1.
  pose proof (proj1 (worker_constants _ _ _ Hrecv)) as Es1.
  pose proof (proj1 (worker_constants _ _ _ Hrecv')) as Es1'.
  assert (ack_ok w (delivered p0 ++ batch_of (phase p0) ++ pending (state (queue p0))) p1') as Ha1.
  { apply (received_ack w _ _ _ _ _ Hok0 Hc Hw Hrecv'). destruct (poisoned (queue p0)) eqn:Epo.
    - right. by apply lock_closed.
    - left. by rewrite recover_id. }
  apply (ack_replied w _ (recover p)). apply (steps_ack is_sampled _ _ p1 l p); [| | |done].
  - rewrite <- E1. by apply recover_ok.
  - by rewrite Es1, Es0.
  - rewrite <- E1. apply (recover_ack is_sampled w _ None p1' Hok1); [|done].
    by rewrite Es1'; simpl; rewrite Es0.
Qed.

Definition flush_run : list (Action nat) :=
  [Worker (Go 0); Worker (Go 0); Worker (Go 0); Worker (Exported true); Worker (Go 1); Worker (Go 1);
   Worker (Go 1)].

Lemma acknowledged_delivered_witness :
  ∃ p0 p1 p, act_all sampled example_new [OnEnd 1; FlushSend] = Some p0 ∧
    worker_step p0 Control_ = Some p1 ∧ act_all sampled p1 flush_run = Some p ∧
    [1] `prefix_of` delivered p.
Proof.
  destruct (act_all sampled example_new [OnEnd 1; FlushSend]) as [p0|] eqn:E0; [|discriminate E0].
  destruct (worker_step p0 Control_) as [p1|] eqn:E1; [|vm_compute in E0; simplify_eq].
  destruct (act_all sampled p1 flush_run) as [p|] eqn:E2;
    [|vm_compute in E0; simplify_eq; vm_compute in E1; simplify_eq].
  exists p0, p1, p. split_and!; try done.
  assert (0 < max_export_batch_size example_settings)%nat as Hm by (simpl; lia).
  pose proof (acknowledged_delivered sampled example_settings new_metrics _ p0 (Flush 0) 0 p1 flush_run p
    Hm (act_all_steps _ _ _ _ E0)) as Hack.
  vm_compute in E0. injection E0 as <-. apply Hack; [done|by left|done|by apply act_all_steps|].
  vm_compute in E1. injection E1 as <-. vm_compute in E2. injection E2 as <-. by left.
Defined.

(** C33. A shutdown comes to an end: from the moment the worker serves it, and
    whatever other threads do, the worker takes at most four steps per waiting
    span and six more, it can always go on until it is gone, and then the caller
    has its answer unless the worker was dropped.  No request is answered twice. *)
Theorem shutdown_ends {SpanData} (is_sampled : SpanData → bool) s m l0 p0 r l p :
  (0 < max_export_batch_size s)%nat →
  steps is_sampled (new_processor s m) l0 p0 → request_of (phase p0) = Some r →
  steps is_sampled p0 l p →
  (length (filter is_worker l) ≤ 4 * length (pending (state (queue p0))) + 6)%nat ∧
  (phase p ≠ Gone → ∃ i p', worker_step p i = Some p') ∧
  (phase p = Gone → WorkerDropped ∉ l → reply r ∈ (replies p).*1) ∧
  NoDup (replies p).*1.
Proof.
  intros Hmax H0 Hr Hst. destruct (reachable_ok _ _ _ _ _ H0) as [Hok0 Es0].
  destruct (steps_ending is_sampled r p0 l p Hok0) as [_ Hs Hn Hrep]; [by rewrite Es0|done..|].
  destruct (run_ok _ _ _ _ Hok0 Hst) as [Hok _]. split_and!.
  - pose proof (quiet_pending _ _ (quiet_lock (queue p0))). unfold steps_left in Hn; simpl in Hn.
    assert (default 0 (weight (phase p0)) ≤ 6)%nat by (destruct (phase p0); simpl; lia). lia.
  - by apply worker_can_step.
  - intros Hg Hd. destruct (Hrep Hd) as [E|?]; [|done]. simpl in E. by rewrite Hg in E.
  - apply (NoDup_ids _ (po_requests _ _ Hok)).
Qed.

Definition shutdown_request_run : list (Action nat) :=
  [OnEnd 1; ShutdownBegin 0 10; ShutdownSend; Worker Control_].
Definition shutdown_run : list (Action nat) :=
  [Worker (Go 1); Worker (Go 1); Worker (Go 1); Worker (Exported true); Worker (Go 2); Worker (Go 2);
   Worker (Go 2); Worker (ExporterShutdown true); Worker (Go 2)].

Lemma shutdown_ends_witness :
  ∃ p0 p, act_all sampled example_new shutdown_request_run = Some p0 ∧
    act_all sampled p0 shutdown_run = Some p ∧ 0 ∈ (replies p).*1.
Proof.
  destruct (act_all sampled example_new shutdown_request_run) as [p0|] eqn:E0; [|discriminate E0].
  destruct (act_all sampled p0 shutdown_run) as [p|] eqn:E1; [|vm_compute in E0; simplify_eq].
  exists p0, p. split_and!; try done.
  assert (0 < max_export_batch_size example_settings)%nat as Hm by (simpl; lia).
  pose proof (shutdown_ends sampled example_settings new_metrics _ p0 (mkShutdownRequest 10 10 0)
    shutdown_run p Hm (act_all_steps _ _ _ _ E0)) as Hend.
  vm_compute in E0. injection E0 as <-.
  destruct (Hend eq_refl (act_all_steps _ _ _ _ E1)) as (_ & _ & Hr & _).
  vm_compute in E1. injection E1 as <-. apply Hr; [reflexivity|].
  unfold shutdown_run. rewrite !not_elem_of_cons. repeat split; try discriminate. apply not_elem_of_nil.
Defined.
End BatchTheorems.
