(* ===== verification/Inventory.v ===== *)
(** * Node types, racks and the rack manager

    The identity tables of [domain/node.rs], [NodeConfig] of [domain/rack.rs],
    [NodeInstance::from_config] of [nodes/instance.rs], the racks of
    [racks/nvl_gb.rs], the rack map of [orchestrator/rack_manager.rs], and the
    inventory handlers of [api/grpc/inventory_handlers.rs] that change it.

    A rack is shared: the map and every caller that looked it up hold an [Arc]
    to it, and its node map changes in place.  [heap] holds the racks,
    [racks] the references in the map.  The three rack types wrap one
    implementation and forward to it, so a rack here is that implementation.
    The drivers behind a node are device code: a class of parameters. *)

From S2P Require Import Prelude RustStd RustStr Json RmsError NodeTypes.
From S2P Require Import RequestMessages NodeSelector Endpoints HardwarePlan.
Export NodeTypes Pb.
Import NodeSelector Endpoints HardwarePlan.
Local Open Scope string_scope.
Local Open Scope list_scope.

Module Inventory.
(** [A] is an entry of the catalog: the names and device counts the drivers expect. *)
Record ExpectedInventoryPolicy {A : Type} := mkPolicy {
  policy_profile : string;
  policy_expected : A;
}.
Arguments ExpectedInventoryPolicy : clear implicits.

(** The concrete node implementations, selected by node type. *)
Class NodeDrivers := {
  CatalogEntry : Type;
  RecoveryProfile : Type;
  Driver : Type;
  driver_id : Driver → string;
  driver_from_config :
    NodeType →
    NodeConfig (ExpectedInventoryPolicy CatalogEntry) RecoveryProfile NodeRuntimeConfig →
    string → result RmsError Driver;
}.

Section inventory.
Context `{NodeDrivers}.
Abbreviation config :=
  (NodeConfig (ExpectedInventoryPolicy CatalogEntry) RecoveryProfile NodeRuntimeConfig).

(** ** [nodes/instance.rs] *)

(** The constructor of [NodeInstance], and the driver it boxes. *)
Record NodeInstance := mkInstance { instance_type : NodeType; instance_driver : Driver }.

Definition instance_id (n : NodeInstance) : string := driver_id (instance_driver n).

Definition from_config (c : config) (rack_id : string) : result RmsError NodeInstance :=
  if bool_decide (is_Some (recovery c)) && negb (has_recovery_flow (node_type c))
  then Err (invalid_argument ("node type " +++ node_type_str (node_type c) +++
         " has no recovery flow; its profile must not carry a recovery table"))
  else
    let? d := driver_from_config (node_type c) c rack_id in
    Ok (mkInstance (node_type c) d).

(** ** [racks/nvl_gb.rs] *)

Record Rack := mkRack {
  rack_id : string;
  rack_type : string;
  model : string;
  power_operation_held : bool;
  nodes : gmap string NodeInstance;
}.

Definition new_with_profile (id type model : string) : Rack := mkRack id type model false ∅.

Definition set_nodes (r : Rack) m : Rack :=
  mkRack (rack_id r) (rack_type r) (model r) (power_operation_held r) m.

Definition supports_node_type (r : Rack) (t : NodeType) : bool :=
  String.eqb (rack_type r) (family_rack_type (product_family t)).

Definition get_info (r : Rack) : gmap string string :=
  list_to_map [("model", model r); ("nodeCount", show_nat (size (nodes r)))].

Definition validate_node_config (c : config) : result RmsError unit :=
  if String.eqb (config_id c) "" then Err (invalid_argument "missing node ID")
  else match bmc_endpoint c with
       | None => Err (invalid_argument ("missing BMC endpoint for node " +++ config_id c))
       | Some e =>
           if String.eqb (ip_address (endpoint e)) ""
           then Err (invalid_argument ("missing host for node " +++ config_id c))
           else if String.eqb (mac_address (endpoint e)) ""
           then Err (invalid_argument ("missing macAddress for node " +++ config_id c))
           else Ok tt
       end.

Definition validate_credentials (c : config) (k : NodeKind) : result RmsError unit :=
  let has_bmc_credentials :=
    match bmc_endpoint c with
    | Some e => match credentials e with Some cr => has_auth_material cr | None => false end
    | None => false
    end in
  if negb has_bmc_credentials
  then Err (invalid_argument ("create_" +++ kind_display k +++ ": missing credentials for " +++
         config_id c +++ " (provide username/password or a BMC session token)"))
  else Ok tt.

Definition create_node (r : Rack) (c : config) : result RmsError NodeInstance :=
  if negb (supports_node_type r (node_type c))
  then Err (invalid_argument ("rack type " +++ rack_type r +++ " does not support node type " +++
         node_type_str (node_type c)))
  else
    let? _ := validate_node_config c in
    let? _ := validate_credentials c (kind (node_type c)) in
    from_config c (rack_id r).

Definition add_node (r : Rack) (node_id : string) (n : NodeInstance)
    : Rack * result RmsError unit :=
  if String.eqb node_id "" then (r, Err (invalid_argument "node ID cannot be empty"))
  else if negb (String.eqb (instance_id n) node_id)
  then (r, Err (invalid_argument ("node ID mismatch: requested " +++ node_id +++ ", node id " +++
         instance_id n)))
  else match nodes r !! node_id with
       | Some _ => (r, Err (already_exists ("node " +++ node_id +++ " already exists in rack " +++
                      rack_id r)))
       | None => (set_nodes r (<[node_id := n]> (nodes r)), Ok tt)
       end.

Definition remove_node (r : Rack) (node_id : string) : Rack * result RmsError unit :=
  match nodes r !! node_id with
  | None => (r, Err (not_found ("node " +++ node_id +++ " not found in rack " +++ rack_id r)))
  | Some _ => (set_nodes r (delete node_id (nodes r)), Ok tt)
  end.

Definition find_node (r : Rack) (node_id : string) : option NodeInstance := nodes r !! node_id.

(** ** [orchestrator/rack_manager.rs] *)

Record RackManager := mkManager {
  racks : gmap string nat;
  heap : gmap nat Rack;
  next_ref : nat;
}.

Definition RackManager_new : RackManager := mkManager ∅ ∅ 0.

Inductive RackKind := KindGb200 | KindGb300 | KindVrnvl72.

Definition rack_kind_parse (type : string) : result RmsError RackKind :=
  if String.eqb type (family_rack_type Gb200) then Ok KindGb200
  else if String.eqb type (family_rack_type Gb300) then Ok KindGb300
  else if String.eqb type (family_rack_type Vrnvl72) then Ok KindVrnvl72
  else Err (invalid_argument ("unsupported rack type '" +++ type +++ "'")).

Definition rack_kind_build (k : RackKind) (id : string) : Rack :=
  match k with
  | KindGb200 => new_with_profile id (family_rack_type Gb200) (family_model Gb200)
  | KindGb300 => new_with_profile id (family_rack_type Gb300) (family_model Gb300)
  | KindVrnvl72 => new_with_profile id (family_rack_type Vrnvl72) (family_model Vrnvl72)
  end.

(** [Entry::insert] of a new [Arc]. *)
Definition insert_rack (m : RackManager) (id : string) (r : Rack) : RackManager :=
  mkManager (<[id := next_ref m]> (racks m)) (<[next_ref m := r]> (heap m)) (S (next_ref m)).

Definition set_rack (m : RackManager) (ref : nat) (r : Rack) : RackManager :=
  mkManager (racks m) (<[ref := r]> (heap m)) (next_ref m).

Definition create_rack (m : RackManager) (id type : string) : RackManager * result RmsError unit :=
  if String.eqb id "" then (m, Err (invalid_argument "rack ID cannot be empty"))
  else match rack_kind_parse type with
       | Err e => (m, Err e)
       | Ok k =>
           match racks m !! id with
           | Some _ => (m, Err (already_exists ("rack " +++ id +++ " already exists")))
           | None => (insert_rack m id (rack_kind_build k id), Ok tt)
           end
       end.

Definition remove_rack (m : RackManager) (id : string) : RackManager * result RmsError unit :=
  match racks m !! id with
  | None => (m, Err (not_found ("rack " +++ id +++ " not found")))
  | Some _ => (mkManager (delete id (racks m)) (heap m) (next_ref m), Ok tt)
  end.

Definition find_rack (m : RackManager) (id : string) : option nat := racks m !! id.

Definition ensure_rack_type_matches (id : string) (r : Rack) (requested : string)
    : result RmsError unit :=
  if negb (String.eqb (rack_type r) requested)
  then Err (invalid_argument ("rack " +++ id +++ " already exists as type " +++ rack_type r +++
         " but was requested as " +++ requested))
  else Ok tt.

(** [add] acts on the rack through its shared reference: what it changes in a
    registered rack stays, also when it then fails.  An [Arc] never dangles, so
    the branch for a reference outside the heap is not taken ([mi_heap] of the
    invariant). *)
Definition with_rack_for_node {T} (m : RackManager) (id type : string)
    (add : Rack → Rack * result RmsError T) : RackManager * result RmsError T :=
  if String.eqb id "" then (m, Err (invalid_argument "rack ID cannot be empty"))
  else match rack_kind_parse type with
       | Err e => (m, Err e)
       | Ok k =>
           match racks m !! id with
           | Some ref =>
               match heap m !! ref with
               | Some r =>
                   match ensure_rack_type_matches id r type with
                   | Err e => (m, Err e)
                   | Ok _ => let '(r', res) := add r in (set_rack m ref r', res)
                   end
               | None => (m, Err (internal "dangling rack reference"))
               end
           | None =>
               let '(r', res) := add (rack_kind_build k id) in
               match res with
               | Err e => (m, Err e)
               | Ok v => (insert_rack m id r', Ok v)
               end
           end
       end.

(** ** [api/grpc/inventory_handlers.rs] *)

(** What the service was configured with: the TLS policy for BMCs, the catalogs
    and the hardware profiles. *)
Record Service := mkService {
  insecure_bmc : bool;
  expected_inventory_catalog : gmap string CatalogEntry;
  recovery_profiles : gmap string RecoveryProfile;
  embedded_profiles : HardwareProfileCatalog;
  hardware_profiles : HardwareProfileCatalog;
}.

(** [ExpectedInventoryCatalog::resolve] of [config/mod.rs], its error as a message. *)
Definition catalog_resolve (catalog : gmap string CatalogEntry) (raw_profile : option string)
    : result string (option (ExpectedInventoryPolicy CatalogEntry)) :=
  match raw_profile with
  | None => Ok None
  | Some raw =>
      let profile := trim raw in
      if String.eqb profile "" then Err "inventory_profile must not be empty"
      else match catalog !! profile with
           | None => Err ("unknown inventory_profile " +++ str_debug profile)
           | Some expected => Ok (Some (mkPolicy _ profile expected))
           end
  end.

(** [api/grpc/server.rs]. *)
Definition expected_inventory_policy_for_node (s : Service) (ni : NodeInfo)
    : result RmsError (option (ExpectedInventoryPolicy CatalogEntry)) :=
  match catalog_resolve (expected_inventory_catalog s)
          (inventory_profile_from_descriptor (ni_node_descriptor ni)) with
  | Ok p => Ok p
  | Err m => Err (invalid_argument m)
  end.

Definition recovery_profile_for_node (s : Service) (ni : NodeInfo)
    : result RmsError (option RecoveryProfile) :=
  match inventory_profile_from_descriptor (ni_node_descriptor ni) with
  | None => Ok None
  | Some profile =>
      if String.eqb profile "" then Err (invalid_argument "inventory_profile must not be empty")
      else Ok (recovery_profiles s !! profile)
  end.

(** The body of the loop of [handle_create_nodes] up to the configuration; an error
    is the message it pushes. *)
Definition prepare (s : Service) (ni : NodeInfo) : result string config :=
  let message {A} (r : result RmsError A) : result string A :=
    match r with Ok a => Ok a | Err e => Err (error_message e) end in
  let? t := match resolve_node_info ni with
            | Ok t => Ok t
            | Err e => Err (resolution_error_display e)
            end in
  let? expected := message (expected_inventory_policy_for_node s ni) in
  let? recovery := message (recovery_profile_for_node s ni) in
  let? flat := message (flatten_node_info ni) in
  let? bmc := message (bmc_endpoint_config flat (insecure_bmc s)) in
  let? host := message
    (match kind t with
     | Switch => optional_switch_host_management_endpoint flat
     | _ => if supports_flint_inband_firmware t then optional_compute_host_ssh_endpoint flat
            else optional_host_endpoint flat
     end) in
  Ok (mkNodeConfig _ _ _ (ni_node_id ni) t (Some bmc) host expected recovery
        (runtime_config_for_request (embedded_profiles s) (hardware_profiles s) t)).

(** The closure of [handle_create_nodes]. *)
Definition create_and_add (c : config) (r : Rack) : Rack * result RmsError unit :=
  match create_node r c with
  | Err e => (r, Err e)
  | Ok n => add_node r (config_id c) n
  end.

Definition create_one (s : Service) (m : RackManager) (q : NodeInfo)
    : RackManager * result string unit :=
  match prepare s q with
  | Err message => (m, Err message)
  | Ok c =>
      let '(m, res) :=
        with_rack_for_node m (ni_rack_id q)
          (family_rack_type (product_family (node_type c))) (create_and_add c) in
      (m, match res with Ok _ => Ok tt | Err e => Err (error_message e) end)
  end.

Record CreateNodesResponse := mkCreateResponse {
  create_success : bool;
  create_message : string;
  total_nodes : Z;
  successful_nodes : nat;
  failed_nodes : nat;
}.

(** One turn of the loop over the request: the manager, the counts and the messages. *)
Definition create_nodes_step (s : Service) (acc : RackManager * nat * nat * list string)
    (q : NodeInfo) : RackManager * nat * nat * list string :=
  let '(m, success, failed, messages) := acc in
  let '(m, res) := create_one s m q in
  match res with
  | Ok _ => (m, S success, failed, messages)
  | Err message => (m, success, S failed, messages ++ [ni_node_id q +++ ": " +++ message])
  end.

(** [messages.join("\n")]. *)
Definition newline : string := String.String (Ascii.ascii_of_nat 10) "".
Fixpoint join_lines (l : list string) : string :=
  match l with
  | [] => ""
  | [x] => x
  | x :: l => x +++ newline +++ join_lines l
  end.

Definition wrap_u32 (n : nat) : Z := (Z.of_nat n `mod` 2 ^ 32)%Z.

Definition handle_create_nodes (s : Service) (m : RackManager) (request : list NodeInfo)
    : RackManager * CreateNodesResponse :=
  let total := wrap_u32 (length request) in
  if (total =? 0)%Z then (m, mkCreateResponse false "no nodes to create" total 0 0)
  else
    let '(m, success, failed, messages) := foldl (create_nodes_step s) (m, 0, 0, []) request in
    let messages :=
      messages ++ [show_nat success +++ " added, " +++ show_nat failed +++ " failed"] in
    (m, mkCreateResponse (failed =? 0)%nat (join_lines messages) total success failed).

Definition RACK_POWER_BUSY_MESSAGE : string := "rack power operation in progress".

Definition handle_delete_node (m : RackManager) (rack node : string)
    : RackManager * (bool * string) :=
  match find_rack m rack with
  | None => (m, (false, "rack not found: " +++ rack))
  | Some ref =>
      match heap m !! ref with
      | None => (m, (false, "rack not found: " +++ rack))
      | Some r =>
          if power_operation_held r then (m, (false, RACK_POWER_BUSY_MESSAGE))
          else
            let '(r', res) := remove_node r node in
            (set_rack m ref r',
             match res with
             | Ok _ => (true, "node " +++ node +++ " removed")
             | Err e => (false, error_message e)
             end)
      end
  end.

(** [try_power_operation_guard] taken or released by a power handler. *)
Definition hold_power (m : RackManager) (ref : nat) (held : bool) : RackManager :=
  match heap m !! ref with
  | Some r =>
      set_rack m ref (mkRack (rack_id r) (rack_type r) (model r) held (nodes r))
  | None => m
  end.
End inventory.
End Inventory.
