(* ===== verification/InventoryTheorems.v ===== *)
(** * What the inventory guarantees

    The invariant of the rack map and its shared racks under any sequence of
    operations, and what a request to create nodes does to it. *)

From S2P Require Import Prelude RustStd RustStr Json RmsError NodeTypes RequestMessages.
From S2P Require Import NodeSelector Endpoints HardwarePlan Inventory.
Import NodeSelector Endpoints HardwarePlan Inventory.
Import EndpointsTheorems.
Local Open Scope string_scope.
Local Open Scope list_scope.

Section inventory.
Context `{NodeDrivers} (s : Service).
Implicit Types (m : RackManager) (r : Rack) (q : NodeInfo).
Abbreviation node_config :=
  (NodeConfig (ExpectedInventoryPolicy CatalogEntry) RecoveryProfile NodeRuntimeConfig).

(** ** Operations *)

Inductive inventory_op :=
| CreateRack (id type : string)
| RemoveRack (id : string)
| CreateNodes (request : list NodeInfo)
| DeleteNode (rack node : string)
| HoldPower (ref : nat) (held : bool).

Definition do_op m (o : inventory_op) : RackManager :=
  match o with
  | CreateRack id type => (create_rack m id type).1
  | RemoveRack id => (remove_rack m id).1
  | CreateNodes request => (handle_create_nodes s m request).1
  | DeleteNode rack node => (handle_delete_node m rack node).1
  | HoldPower ref held => hold_power m ref held
  end.

Definition do_all m (os : list inventory_op) : RackManager := foldl do_op m os.

(** ** Invariant *)

Definition node_ok r (id : string) (n : NodeInstance) : Prop :=
  instance_id n = id ∧ id ≠ "" ∧
  family_rack_type (product_family (instance_type n)) = rack_type r.

Definition rack_ok r : Prop :=
  (∃ f, rack_type r = family_rack_type f ∧ model r = family_model f) ∧
  ∀ id n, nodes r !! id = Some n → node_ok r id n.

Record manager_inv m : Prop := {
  mi_heap : ∀ id ref, racks m !! id = Some ref →
    id ≠ "" ∧ ∃ r, heap m !! ref = Some r ∧ rack_id r = id;
  mi_fresh : ∀ ref r, heap m !! ref = Some r → (ref < next_ref m)%nat;
  mi_rack : ∀ ref r, heap m !! ref = Some r → rack_ok r;
}.

Lemma new_manager_inv : manager_inv RackManager_new.
Proof. split; simpl; intros *; by rewrite lookup_empty. Qed.

Lemma eqb_false a b : String.eqb a b = false → a ≠ b.
Proof. intros E ->. by rewrite String.eqb_refl in E. Qed.

Lemma insert_rack_inv m id r :
  manager_inv m → id ≠ "" → rack_id r = id → rack_ok r → manager_inv (insert_rack m id r).
Proof.
  intros [Hh Hf Hr] Hid Hri Hok. split; simpl.
  - intros id' ref. rewrite lookup_insert. case_decide as E.
    + intros [= <-]. subst. split; [done|]. exists r. by rewrite lookup_insert_eq.
    + intros Href. destruct (Hh _ _ Href) as (? & r' & Hr' & ?). split; [done|]. exists r'.
      rewrite lookup_insert_ne; [done|]. intros <-. apply Hf in Hr'. lia.
  - intros ref r'. rewrite lookup_insert. case_decide; [lia|]. intros Hr'%Hf. lia.
  - intros ref r'. rewrite lookup_insert. case_decide; [|apply Hr]. by intros [= <-].
Qed.

(** Replacing a rack in place. *)
Lemma set_rack_inv m ref r r' :
  manager_inv m → heap m !! ref = Some r → rack_id r' = rack_id r → rack_ok r' →
  manager_inv (set_rack m ref r').
Proof.
  intros [Hh Hf Hr] Href Hid Hok. split; simpl.
  - intros id ref' Hr'. destruct (Hh _ _ Hr') as (? & r1 & Hr1 & ?). split; [done|].
    rewrite lookup_insert. case_decide; subst; [|eauto]. exists r'. split; [done|]. congruence.
  - intros ref' r1. rewrite lookup_insert. case_decide; [|apply Hf]. subst. intros _. by eapply Hf.
  - intros ref' r1. rewrite lookup_insert. case_decide; [|apply Hr]. by intros [= <-].
Qed.

Lemma set_rack_same m ref r : heap m !! ref = Some r → set_rack m ref r = m.
Proof. intros E. unfold set_rack. rewrite insert_id by done. by destruct m. Qed.

Lemma parse_build type k id :
  rack_kind_parse type = Ok k →
  rack_type (rack_kind_build k id) = type ∧ rack_id (rack_kind_build k id) = id ∧
  nodes (rack_kind_build k id) = ∅ ∧ rack_ok (rack_kind_build k id).
Proof.
  unfold rack_kind_parse. intros E.
  assert (∃ f, family_rack_type f = type ∧
    rack_kind_build k id = new_with_profile id (family_rack_type f) (family_model f)) as (f & <- & ->).
  { revert E. repeat case_match; intros [= <-]; simpl;
      match goal with E : String.eqb _ _ = true |- _ => apply String.eqb_eq in E end;
      [exists Gb200|exists Gb300|exists Vrnvl72]; done. }
  split_and!; [done..|]. split; [by exists f|]. intros id' n. simpl. by rewrite lookup_empty.
Qed.

(** ** Creating a node *)

(** The configuration a requested node is created with. *)
Record config_ok q (c : node_config) : Prop := {
  co_id : config_id c = ni_node_id q;
  co_type : resolve_node_info q = Ok (node_type c);
  co_bmc : ∃ e, bmc_endpoint c = Some e ∧ endpoint_ok Bmc (insecure_bmc s) e ∧
    mac_address (endpoint e) ≠ "";
  co_host : ∀ e, host_endpoint c = Some e → endpoint_ok Host false e;
}.

Lemma prepare_ok q c : prepare s q = Ok c → config_ok q c.
Proof.
  unfold prepare, result_bind. destruct (resolve_node_info q) as [t|] eqn:Et; [|done].
  destruct (expected_inventory_policy_for_node s q) as [exp|]; [|done].
  destruct (recovery_profile_for_node s q) as [rec|]; [|done].
  destruct (flatten_node_info q) as [flat|] eqn:Ef; [|done].
  destruct (flatten_ok _ _ Ef) as [Hb Hh].
  destruct (bmc_endpoint_config flat (insecure_bmc s)) as [b|] eqn:Eb; [|done].
  destruct (match kind t with Switch => _ | _ => _ end) as [h|] eqn:Eh; [|done]. intros [= <-].
  split; simpl; [done|done|by exists b; split; [|by eapply bmc_config_ok]|].
  intros e ->. apply (optional_hosts_ok flat); [done|].
  destruct (kind t), (supports_flint_inband_firmware t); auto.
Qed.

Definition node_at m (rack node : string) : option NodeInstance :=
  ref ← racks m !! rack; r ← heap m !! ref; nodes r !! node.

Lemma create_and_add_spec (c : node_config) r r' res :
  create_and_add c r = (r', res) →
  match res with
  | Err _ => r' = r
  | Ok _ => ∃ n, from_config c (rack_id r) = Ok n ∧ nodes r !! config_id c = None ∧
      r' = set_nodes r (<[config_id c := n]> (nodes r)) ∧ node_ok r (config_id c) n
  end.
Proof.
  unfold create_and_add, create_node. destruct (negb _) eqn:Hs; [by intros [= <- <-]|].
  unfold result_bind. destruct (validate_node_config c); [|by intros [= <- <-]].
  destruct (validate_credentials c _); [|by intros [= <- <-]].
  destruct (from_config c (rack_id r)) as [n|] eqn:Hn; [|by intros [= <- <-]].
  unfold add_node. destruct (String.eqb (config_id c) "") eqn:E1; [by intros [= <- <-]|].
  destruct (String.eqb (instance_id n) _) eqn:E2; simpl; [|by intros [= <- <-]].
  destruct (nodes r !! config_id c) eqn:E3; [by intros [= <- <-]|]. intros [= <- <-].
  exists n. split_and!; [done..|]. apply String.eqb_eq in E2. split_and!; [done|by apply eqb_false|].
  apply negb_false_iff in Hs. unfold supports_node_type in Hs. apply String.eqb_eq in Hs.
  assert (instance_type n = node_type c) as ->; [|done].
  revert Hn. unfold from_config, result_bind. destruct (_ && _); [done|].
  destruct (driver_from_config _ _ _); [|done]. by intros [= <-].
Qed.

(** What a success of [create_one] means. *)
Record created_node m q m' (c : node_config)
    (n : NodeInstance) : Prop := {
  cn_prepared : prepare s q = Ok c;
  cn_node : from_config c (ni_rack_id q) = Ok n;
  cn_new : node_at m (ni_rack_id q) (config_id c) = None;
  cn_at : ∀ rack node, node_at m' rack node =
    if decide (rack = ni_rack_id q ∧ node = config_id c) then Some n else node_at m rack node;
  cn_racks : ∀ rack, is_Some (racks m' !! rack) → is_Some (racks m !! rack) ∨ rack = ni_rack_id q;
}.

Lemma set_rack_at m ref r r' rack node :
  manager_inv m → heap m !! ref = Some r → racks m !! rack_id r = Some ref →
  node_at (set_rack m ref r') rack node =
    if decide (rack = rack_id r) then nodes r' !! node else node_at m rack node.
Proof.
  intros Hi Href Hrack. unfold node_at. simpl. destruct (racks m !! rack) as [ref'|] eqn:E; simpl.
  - rewrite lookup_insert. case_decide as Hr.
    + subst ref'. destruct (mi_heap _ Hi _ _ E) as (_ & r1 & Hr1 & <-).
      rewrite decide_True by congruence. done.
    + rewrite decide_False; [done|]. intros ->. congruence.
  - rewrite decide_False; [done|]. intros ->. congruence.
Qed.

Lemma insert_rack_at m id r rack node :
  manager_inv m → racks m !! id = None →
  node_at (insert_rack m id r) rack node =
    if decide (rack = id) then nodes r !! node else node_at m rack node.
Proof.
  intros Hi Hid. unfold node_at. simpl. rewrite lookup_insert. destruct (decide (id = rack)) as [->|Hne].
  - rewrite decide_True by done. simpl. by rewrite lookup_insert_eq.
  - rewrite decide_False by done. destruct (racks m !! rack) as [ref|] eqn:E; [|done]. simpl.
    rewrite lookup_insert_ne; [done|]. intros <-.
    destruct (mi_heap _ Hi _ _ E) as (_ & r1 & Hr1%(mi_fresh _ Hi) & _). lia.
Qed.

Lemma add_node_ok r id n : rack_ok r → node_ok r id n → rack_ok (set_nodes r (<[id := n]> (nodes r))).
Proof.
  intros [Hf Hn] Hok. split; [done|]. intros id' n'. simpl. rewrite lookup_insert.
  case_decide; [|apply Hn]. intros [= <-]. by subst.
Qed.

Lemma create_one_spec m q m' res :
  manager_inv m → create_one s m q = (m', res) →
  manager_inv m' ∧
  match res with
  | Err _ => m' = m
  | Ok _ => ∃ c n, created_node m q m' c n
  end.
Proof.
  intros Hi. unfold create_one. destruct (prepare s q) as [c|msg] eqn:Hp; [|by intros [= <- <-]].
  set (id := ni_rack_id q). unfold with_rack_for_node.
  destruct (String.eqb id "") eqn:Hid; [by intros [= <- <-]|]. apply eqb_false in Hid.
  destruct (rack_kind_parse _) as [k|] eqn:Hk; [|by intros [= <- <-]].
  destruct (racks m !! id) as [ref|] eqn:Hr.
  - destruct (mi_heap _ Hi _ _ Hr) as (_ & r & Href & Hrid). rewrite Href.
    unfold ensure_rack_type_matches. destruct (negb _); [by intros [= <- <-]|].
    destruct (create_and_add c r) as [r' res'] eqn:E. apply create_and_add_spec in E.
    destruct res' as [[]|e]; intros [= <- <-].
    2:{ subst r'. by rewrite (set_rack_same m ref r Href). }
    destruct E as (n & Hn & Hnone & -> & Hok).
    split; [eapply set_rack_inv; [done|done|done|apply add_node_ok; [by eapply mi_rack|done]]|].
    exists c, n. rewrite Hrid in Hn. split; [done|done| | |eauto].
    + unfold node_at. fold id. rewrite Hr. simpl. by rewrite Href.
    + intros rack node. rewrite (set_rack_at m ref r) by congruence. rewrite Hrid. fold id. simpl.
      rewrite lookup_insert. unfold node_at. case_decide as Hd; [subst rack|by rewrite decide_False by naive_solver].
      rewrite Hr. simpl. rewrite Href. simpl.
      case_decide; [by rewrite decide_True by naive_solver|by rewrite decide_False by naive_solver].
  - destruct (parse_build _ _ id Hk) as (_ & Hbid & Hbn & Hbok).
    destruct (create_and_add c (rack_kind_build k id)) as [r' res'] eqn:E.
    apply create_and_add_spec in E. destruct res' as [[]|e]; intros [= <- <-]; [|done].
    destruct E as (n & Hn & _ & -> & Hok).
    split; [apply insert_rack_inv; [done|done|done|by apply add_node_ok]|].
    exists c, n. rewrite Hbid in Hn. split; [done|done| | |].
    + unfold node_at. fold id. by rewrite Hr.
    + intros rack node. rewrite insert_rack_at by done. fold id. simpl. rewrite Hbn, lookup_insert, lookup_empty.
      unfold node_at. case_decide as Hd; [subst rack|by rewrite decide_False by naive_solver].
      rewrite Hr. simpl.
      case_decide; [by rewrite decide_True by naive_solver|by rewrite decide_False by naive_solver].
    + intros rack. simpl. rewrite lookup_insert. case_decide; [by right|by left].
Qed.

Lemma created_keeps m q m' c n rack node x :
  created_node m q m' c n → node_at m rack node = Some x → node_at m' rack node = Some x.
Proof.
  intros [_ _ Hnew Hat _] Hx. rewrite Hat. case_decide as Hd; [|done].
  destruct Hd as [-> ->]. congruence.
Qed.

(** ** A request *)

(** What the part [done] of a request has made of the inventory [m0]. *)
Record batch_ok m0 (done : list NodeInfo) m (success failed : nat) : Prop := {
  bo_inv : manager_inv m;
  bo_count : (success + failed = length done)%nat;
  bo_kept : ∀ rack node x, node_at m0 rack node = Some x → node_at m rack node = Some x;
  bo_new : ∀ rack node x, node_at m rack node = Some x → node_at m0 rack node = Some x ∨
    ∃ q c, q ∈ done ∧ ni_rack_id q = rack ∧ prepare s q = Ok c ∧ config_id c = node ∧
      from_config c rack = Ok x;
  bo_racks : ∀ rack, is_Some (racks m !! rack) → is_Some (racks m0 !! rack) ∨
    ∃ node, is_Some (node_at m rack node);
  bo_all : failed = 0%nat → ∀ q, q ∈ done →
    ∃ c, prepare s q = Ok c ∧ is_Some (node_at m (ni_rack_id q) (config_id c));
}.

Lemma batch_step_ok m0 done m success failed messages q m' success' failed' messages' :
  batch_ok m0 done m success failed →
  create_nodes_step s (m, success, failed, messages) q = (m', success', failed', messages') →
  batch_ok m0 (done ++ [q]) m' success' failed'.
Proof.
  intros [Hi Hn Hk Hnew Hr Ha]. unfold create_nodes_step.
  destruct (create_one s m q) as [m1 res] eqn:E.
  destruct (create_one_spec _ _ _ _ Hi E) as [Hi' Hres].
  assert (∀ x, x ∈ done → x ∈ done ++ [q]) as Hmore by set_solver.
  destruct res as [[]|msg]; intros [= <- <- <- <-].
  - destruct Hres as (c & n & Hc). pose proof Hc as [Hp Hf _ Hat Hrk].
    split; [done|rewrite length_app; simpl; lia|..].
    + intros rack node x Hx. by eapply created_keeps, Hk.
    + intros rack node x. rewrite Hat. case_decide as Hd.
      * destruct Hd as [-> ->]. intros [= <-]. right. exists q, c. set_solver.
      * intros [?|(q' & c' & ? & ?)]%Hnew; [by left|right]. exists q', c'. set_solver.
    + intros rack [Hs| ->]%Hrk.
      * destruct (Hr _ Hs) as [?|(node & x & Hx)]; [by left|right]. exists node, x.
        by eapply created_keeps.
      * right. exists (config_id c). rewrite Hat, decide_True by done. eauto.
    + intros Hz q' [Hq| ->%list_elem_of_singleton]%elem_of_app.
      * destruct (Ha Hz q' Hq) as (c' & ? & x & Hx). exists c'. split; [done|]. exists x.
        by eapply created_keeps.
      * exists c. split; [done|]. rewrite Hat, decide_True by done. eauto.
  - subst m1. split; [done|rewrite length_app; simpl; lia|done| |done|done].
    intros rack node x [?|(q' & c' & ? & ?)]%Hnew; [by left|right]. exists q', c'. set_solver.
Qed.

Lemma batch_loop_ok m0 done m success failed messages request m' success' failed' messages' :
  batch_ok m0 done m success failed →
  foldl (create_nodes_step s) (m, success, failed, messages) request = (m', success', failed', messages') →
  batch_ok m0 (done ++ request) m' success' failed'.
Proof.
  revert done m success failed messages. induction request as [|q request IH];
    intros done m success failed messages Hb; cbn [foldl].
  - intros [= <- <- <- <-]. by rewrite app_nil_r.
  - destruct (create_nodes_step s _ q) as [[[m1 s1] f1] l1] eqn:E. intros Hf.
    rewrite cons_middle, app_assoc. eapply IH; [|exact Hf]. by eapply batch_step_ok.
Qed.

Lemma batch_start m : manager_inv m → batch_ok m [] m 0 0.
Proof.
  intros Hi. split; try done; eauto. intros _ q Hq. by apply not_elem_of_nil in Hq.
Qed.

Lemma handle_create_ok m request m' resp :
  manager_inv m → handle_create_nodes s m request = (m', resp) →
  (total_nodes resp = 0%Z ∧ m' = m ∧ create_success resp = false ∧
     successful_nodes resp = 0%nat ∧ failed_nodes resp = 0%nat) ∨
  (total_nodes resp ≠ 0%Z ∧ batch_ok m request m' (successful_nodes resp) (failed_nodes resp) ∧
     create_success resp = (failed_nodes resp =? 0)%nat).
Proof.
  intros Hi. unfold handle_create_nodes. destruct (_ =? 0)%Z eqn:Ez.
  - intros [= <- <-]. left. apply Z.eqb_eq in Ez. done.
  - apply Z.eqb_neq in Ez. destruct (foldl _ _ _) as [[[m1 n1] f] l] eqn:E. intros [= <- <-]. right.
    simpl. split_and!; [done| |done].
    apply (batch_loop_ok m [] m 0 0 [] request m1 n1 f l); [by apply batch_start|done].
Qed.

(** ** The invariant holds *)

Lemma remove_node_ok r node : rack_ok r → rack_ok (remove_node r node).1.
Proof.
  intros [Hf Hn]. unfold remove_node. destruct (nodes r !! node) as [x|]; [|done]. split; [done|].
  intros id n. simpl. rewrite lookup_delete. case_decide; [done|apply Hn].
Qed.

Lemma do_op_inv m o : manager_inv m → manager_inv (do_op m o).
Proof.
  intros Hi. destruct o as [id type|id|request|rack node|ref held]; simpl.
  - unfold create_rack. destruct (String.eqb id "") eqn:Hid; [done|]. apply eqb_false in Hid.
    destruct (rack_kind_parse type) as [k|] eqn:Hk; [|done].
    destruct (racks m !! id); [done|]. destruct (parse_build _ _ id Hk) as (_ & ? & _ & ?).
    by apply insert_rack_inv.
  - unfold remove_rack. destruct (racks m !! id); [|done]. destruct Hi as [Hh Hf Hr].
    split; simpl; [|done|done]. intros id' ref. rewrite lookup_delete. case_decide; [done|]. apply Hh.
  - destruct (handle_create_nodes s m request) as [m' resp] eqn:E.
    destruct (handle_create_ok _ _ _ _ Hi E) as [(_ & -> & _)|(_ & Hb & _)]; [done|apply Hb].
  - unfold handle_delete_node. destruct (find_rack m rack) as [ref|]; [|done].
    destruct (heap m !! ref) as [r|] eqn:Hr; [|done]. destruct (power_operation_held r); [done|].
    destruct (remove_node r node) as [r' res] eqn:E. simpl.
    assert (r' = (remove_node r node).1) as -> by by rewrite E.
    eapply set_rack_inv; [done|done| |by apply remove_node_ok; eapply mi_rack].
    unfold remove_node. by destruct (nodes r !! node).
  - unfold hold_power. destruct (heap m !! ref) as [r|] eqn:Hr; [|done].
    eapply set_rack_inv; [done|done|done|]. by destruct (mi_rack _ Hi _ _ Hr).
Qed.

Lemma do_all_inv os : manager_inv (do_all RackManager_new os).
Proof.
  unfold do_all. induction os as [|o os IH] using rev_ind; [apply new_manager_inv|].
  rewrite foldl_app. by apply do_op_inv.
Qed.

(** C39. The inventory is consistent whatever operations ran, on racks that are
    still registered and on racks that were removed while in use: a rack is
    registered under its own ID, its type and model are those of one product
    family, and every node in it is filed under its own, nonempty ID and is of
    a type of that family. *)
Theorem inventory_consistent os : manager_inv (do_all RackManager_new os).
Proof. apply do_all_inv. Qed.

(** A request to create nodes does what it reports: the counts add up to the
    request, existing nodes are kept, every new node was built from a requested
    node of that rack and ID, with the type its selector resolves to and
    endpoints that are well formed under the service's TLS policy; a rack that is
    new has a node, so no failed request leaves an empty rack; and when no failure
    is reported every requested node is in the inventory. *)
Theorem create_nodes_exact os request m' resp :
  let m := do_all RackManager_new os in
  (Z.of_nat (length request) < 2 ^ 32)%Z → handle_create_nodes s m request = (m', resp) →
  Z.of_nat (successful_nodes resp + failed_nodes resp) = total_nodes resp ∧
  (create_success resp = true ↔ request ≠ [] ∧ failed_nodes resp = 0%nat) ∧
  (∀ rack node x, node_at m rack node = Some x → node_at m' rack node = Some x) ∧
  (∀ rack node x, node_at m' rack node = Some x → node_at m rack node = None →
     ∃ q c, q ∈ request ∧ ni_rack_id q = rack ∧ ni_node_id q = node ∧
       config_ok q c ∧ from_config c rack = Ok x) ∧
  (∀ rack, is_Some (racks m' !! rack) → racks m !! rack = None →
     ∃ node, is_Some (node_at m' rack node)) ∧
  (create_success resp = true → ∀ q, q ∈ request →
     is_Some (node_at m' (ni_rack_id q) (ni_node_id q))).
Proof.
  intros m Hlen Hh. pose proof (do_all_inv os) as Hi. fold m in Hi.
  assert (total_nodes resp = Z.of_nat (length request)) as Ht.
  { revert Hh. unfold handle_create_nodes, wrap_u32. rewrite Z.mod_small by lia.
    destruct (_ =? 0)%Z; [by intros [= _ <-]|]. destruct (foldl _ _ _) as [[[? ?] ?] ?].
    by intros [= _ <-]. }
  destruct (handle_create_ok _ _ _ _ Hi Hh) as [(Hz & -> & Hs & Ha & Hf)|(Hz & Hb & Hs)].
  - rewrite Ha, Hf, Hs. assert (request = []) as -> by (apply nil_length_inv; lia).
    split_and!; [lia|naive_solver|done| | |done].
    + intros rack node x Hx. by rewrite Hx.
    + intros rack [ref Href]. by rewrite Href.
  - destruct Hb as [_ Hn Hk Hnew Hr Hall]. rewrite Hs. split_and!; [lia| |done| | |].
    + rewrite Nat.eqb_eq. split; [|naive_solver]. intros ->. split; [|done]. intros ->.
      simpl in *. lia.
    + intros rack node x Hx Hnone.
      destruct (Hnew _ _ _ Hx) as [E|(q & c & Hq & Hqr & Hp & <- & Hf)]; [congruence|].
      pose proof (prepare_ok _ _ Hp) as Hok. exists q, c. split_and!; try done. symmetry. apply Hok.
    + intros rack Hrack Hnone. destruct (Hr _ Hrack) as [[? E]|?]; [congruence|done].
    + intros Hz'%Nat.eqb_eq q Hq. destruct (Hall Hz' q Hq) as (c & Hp & Hat).
      by rewrite <- (co_id _ _ (prepare_ok _ _ Hp)).
Qed.
End inventory.

Section witnesses.

(** Drivers that accept every configuration. *)
Definition stub_drivers : NodeDrivers :=
  {| CatalogEntry := unit; RecoveryProfile := unit; Driver := string; driver_id := id;
     driver_from_config := fun _ c _ => Ok (config_id c) |}.
#[local] Existing Instance stub_drivers.

Definition stub_service : Service := mkService true ∅ ∅ empty_catalog empty_catalog.

Definition stub_node (node : string) (type : Z) : NodeInfo :=
  mkNodeInfo node "rack" (Some type)
    (Some (mkPbEndpoint (Some (mkInterface "10.0.0.1" "aa:bb" None)) 0
             (Some (Some (AuthUserPass "admin" "secret"))))) None None [].

(** Two nodes for one rack, the second of another product family. *)
Definition two_nodes : list NodeInfo := [stub_node "n1" 1; stub_node "n2" 6].

Lemma create_nodes_exact_witness :
  let m := do_all stub_service RackManager_new [] in
  let '(m', resp) := handle_create_nodes stub_service m two_nodes in
  Z.of_nat (successful_nodes resp + failed_nodes resp) = total_nodes resp ∧
  (create_success resp = true ↔ two_nodes ≠ [] ∧ failed_nodes resp = 0%nat) ∧
  (∀ rack node x, node_at m rack node = Some x → node_at m' rack node = Some x) ∧
  (∀ rack node x, node_at m' rack node = Some x → node_at m rack node = None →
     ∃ q c, q ∈ two_nodes ∧ ni_rack_id q = rack ∧ ni_node_id q = node ∧
       config_ok stub_service q c ∧ from_config c rack = Ok x) ∧
  (∀ rack, is_Some (racks m' !! rack) → racks m !! rack = None →
     ∃ node, is_Some (node_at m' rack node)) ∧
  (create_success resp = true → ∀ q, q ∈ two_nodes →
     is_Some (node_at m' (ni_rack_id q) (ni_node_id q))).
Proof.
  apply (create_nodes_exact stub_service [] two_nodes); [vm_compute; reflexivity|].
  apply surjective_pairing.
Defined.
End witnesses.
